(* ===== verification/_CoqProject ===== *)
-Q . S2P
Prelude.v
GoStrings.v
GoTime.v
Sql.v
Users.v
SqlUsers.v
UserTheorems.v
MediaCache.v
SqlCache.v
BlobFiles.v
CacheTheorems.v
GoHash.v
Music.v
Library.v
LibraryTheorems.v
PlayQueues.v
Playlists.v
Annotations.v
Services.v
LibraryCache.v
AuthLimit.v
Scans.v
Discovery.v
Paths.v
AudioFormats.v
TorrentNames.v
TorrentFiles.v
TorrentPaths.v
BoundedReader.v
Counting.v
TorrentJobs.v
TorrentSwarm.v
TorrentManage.v
Scanner.v
TorrentScan.v
SoulseekRefs.v
SoulseekClient.v
SoulseekSearch.v
GrowingFile.v
SoulseekJobs.v
SoulseekRuns.v
SoulseekSteps.v
SoulseekLoad.v
SoulseekRestart.v
SoulseekTheorems.v
SoulseekArtwork.v
MagnetImports.v
Backup.v
BackupTheorems.v
Transcoding.v
TranscodingTheorems.v
SearchGroups.v
AdminApi.v
AdminAccess.v
HttpStack.v
HttpTheorems.v
SubsonicData.v
SubsonicApi.v
SubsonicTheorems.v
Config.v
ConfigTheorems.v
Listings.v
ListingTheorems.v
LocalProvider.v
