(* ===== verification/Prelude.v ===== *)
(** * Peerphonic: a verification development

    Peerphonic is a music server in Go.  It presents local files, files of
    BitTorrent torrents and files of Soulseek peers as one library, keeps what
    it fetches in caches of bounded size, and serves several users.  This
    development models the core of the backend ([src/backend/internal]) and
    proves what makes it correct.  Paths below are relative to that directory.

    ** How the program is put together

    The services ([core/services]) hold the rules: who may do what, what is
    cached and what is evicted, which source a stream is read from, how remote
    sources are found and added.  They reach storage and providers through the
    interfaces of [core/ports].  [adapters/storage/sqlite] implements the
    storage interfaces on SQL tables, [adapters/blob/filesystem] the store of
    bytes, [adapters/providers/torrent] and [adapters/providers/soulseek] the
    providers that fetch tracks in the background, [scanner] fills the catalog
    from directories.  HTTP handlers ([api]) authenticate requests, decode them,
    call the services and encode the answers; [observability] wraps them in a
    limiter of failed logins and an audit trail, and [cmd] puts all together.

    ** How it is modelled

    - Errors are values ([error]): sentinels compared by [errors.Is], wrapping,
      plain messages and joins.  A fallible call is a computation of the monad
      [M S A], state in, result or error and state out; a failed call keeps the
      state it reached, so what a failure leaves behind is part of the model.
      The verb [%q] is printed without its quotes.
    - A database or a disk is a state of tables or files with a schedule of
      faults ([Sql.database]): any statement may fail at any point, a
      transaction that does not commit changes nothing.
    - Integers of a fixed width wrap: [i64] and the operators [+%] and [-%].
    - What Go leaves open is a parameter: the order of a [range] over a map and
      of equal elements under [sort.Slice] (class [Runtime]), the Unicode tables
      and normalisation outside ASCII (classes [Unicode] and [TextNorm]).
    - Goroutines that share state are step relations: one step is what a
      goroutine does in one critical section, a run is any interleaving of them.
    - A typeclass states what one component promises another; services are
      proved against the class, and the instances prove that the SQLite tables
      and the file system keep it, so each service theorem also holds of the
      composed system.

    ** The files and the code they model

    - [Prelude] (this file): errors, the monad, 64-bit integers, time, stable
      and unstable sorting, automation ([inv_ok], [go_clean], [go_split],
      [go_lia], the hint database [go]).
    - [GoStrings], [GoTime], [GoHash], [Paths], [AudioFormats]: what the code
      uses of [strings], [strconv], [unicode/utf8], [path], [time], SHA-256 and
      base64, and [audioformat/format.go].
    - [Sql]: connections, statements, faults and transactions.
    - [Users], [SqlUsers], [UserTheorems]: [core/services/users.go],
      [core/domain/user.go] and [adapters/storage/sqlite/users.go]; class
      [UserStoreLaws].
    - [MediaCache], [SqlCache], [BlobFiles], [CacheTheorems]: the media cache
      ([core/services/media_cache.go]), its table and its blob store; classes
      for both stores.
    - [Music], [Library], [LibraryTheorems]: the entities and identifiers
      ([core/domain/music.go]) and the catalog
      ([adapters/storage/sqlite/catalog.go], [catalog_management.go],
      [source_writer.go], [track_pins.go], [settings.go]).
    - [PlayQueues], [Playlists], [Annotations]: the services of those names over
      their tables.
    - [Services]: transfer limits, download monitoring and streaming.
    - [LibraryCache]: cache status, prefetching and pinning.
    - [AuthLimit]: [observability/auth_limit.go].
    - [Scans], [Scanner], [TorrentScan]: [scanner] and [scanner/torrents].
    - [Discovery]: [core/services/discovery.go].
    - [TorrentNames], [TorrentFiles], [TorrentPaths], [BoundedReader],
      [TorrentJobs], [TorrentSwarm], [TorrentManage]:
      [adapters/providers/torrent]; [Counting] holds what counting holders and
      slots shares between the providers.
    - [SoulseekRefs], [SoulseekClient], [SoulseekSearch], [GrowingFile],
      [SoulseekArtwork]: references, the client of slskd, searching and
      browsing, reading a file that grows, and covers
      ([adapters/providers/soulseek]); [SoulseekJobs] is the coordinator of
      downloads, and [SoulseekRuns], [SoulseekSteps], [SoulseekLoad],
      [SoulseekRestart], [SoulseekTheorems] its invariant, its steps, its job
      files, its restart and its theorems.
    - [MagnetImports]: [scanner/torrents/magnet_importer.go].
    - [Backup], [BackupTheorems]: [backup/archive.go] and [backup/restore.go].
    - [Transcoding], [TranscodingTheorems]: [core/services/transcoding.go].
    - [SearchGroups], [AdminApi]: the management API ([api/peerphonic]): the
      grouping of search results, the guards, the routes and every handler;
      [AdminAccess] is its access policy.
    - [HttpStack], [HttpTheorems]: [observability/audit.go],
      [adapters/storage/sqlite/audit.go] and the composition of the handlers in
      [cmd/peerphonic/app.go], over the API and the user service.
    - [SubsonicData], [SubsonicApi], [SubsonicTheorems]: the OpenSubsonic API
      ([api/opensubsonic]): parameters and answers, every endpoint, and what
      requests may do; its services are interfaces, and the theorem on what a
      request touches is about the composition with the SQLite stores.
    - [Listings], [ListingTheorems]: the listings of
      [adapters/storage/sqlite/catalog.go] and its search.
    - [LocalProvider]: [adapters/providers/local/provider.go].
    - [Config], [ConfigTheorems]: [config/config.go], with what it uses of
      [flag], [strconv] and [encoding/json].

    ** What the theorems show

    - Accounts: user management refines a specification of its effect, never
      loses the last administrator (also when calls interleave, a change of a
      password between its check and its write included), and cannot be used to
      gain permissions; an account that was created can log in.
    - Media cache: every call keeps blobs and entries coherent; after [Put] the
      cache is within its capacity or everything left is pinned; eviction is
      exactly least recently used over what is not pinned.
    - Catalog: every call keeps referential integrity; replacing a provider's
      tracks and editing a track's metadata have exactly the effect a
      specification gives; paging returns the window clipped to the list.  Identifiers are equal exactly when the
      normalised names are.
    - Play queues, playlists and annotations: what is saved reads back, only
      owners write, values stay in range, every play is counted.
    - Transfer limits in force and stored agree after every call, failures
      included.  Streams come from the first source that works.
    - Prefetching: no track is fetched twice at once, the number of workers is
      bounded, torrents of pinned tracks stay, but for failed reads and calls on
      the way, which are named.
    - Failed logins: blocking needs repeated failures within the window, comes
      after them, and one client's failures do not touch another.
    - Scans exclude one another and end; compilations are settled by a rule read
      off the tracks of a directory, in whatever order directories are visited;
      enriching a completed track changes that track only and keeps its identity.
    - Discovery: adding a result attaches the best distinct copies that the
      search for others answers.
    - Torrents: keys and catalogued paths stay inside the data directory and
      parse back, a file is complete only after it was verified, a reader stays
      inside its file, everything in use is counted and is neither evicted nor
      removed, eviction spares what is pinned, removing a source takes nothing of
      another, and jobs by themselves notice that they are complete and give back
      what they took.
    - Soulseek: one unfinished download for a source, none forgotten, the active
      ones limited, files that are read kept, what was saved restored and
      resumed by a restart; paths stay inside the directories whatever peers call their
      files; one operation at a time for a peer; a growing file reads as the
      track; a browsed directory is one album; covers are downloaded once.
    - Magnet imports only move forward, each with one goroutine, and survive a
      restart.
    - A restore with force changes both files or nothing, and gives back what
      was backed up.
    - Transcodes: one at a time for a key, only complete outputs of the encoder
      are cached, and a flight ends by the steps of its own goroutines, which are
      boundedly many and never stuck, and its waiters get its result.
    - The management API enforces its access policy; accounts change only by
      calls of users it authenticated; every change is audited with the status
      that was answered unless the audit store fails, which changes nothing else;
      the audit log is bounded and its listings are those of a log that is not; search results are grouped by peer and directory.
    - A request to the OpenSubsonic API touches only what belongs to its user,
      reaches the peers only with the capability for it, and its answer shows
      the stars, ratings and plays of that user; songs found among the peers
      complete a page of a search without duplicates.
    - Listings: albums and artists are listed as they open, once each.  Local
      files are resolved below the library's directory only.
    - Configuration: whatever form flags are given in, each value comes from the
      layer of the highest precedence that has one, and what is loaded is valid.

    ** Bounds and fuel

    Loops over data are structural.  Decoding a string into runes
    ([GoStrings.segments]) runs on fuel, the length of the string; every round
    consumes at least one byte.  Nothing else is bounded: tables, files, users,
    goroutines and runs are of any size.

    ** What is not modelled

    - The encoding of answers as XML and JSON; the HTTP metrics, whose
      histograms are floating-point.
    - Password hashing and token encryption ([adapters/auth]): a parameter with
      the round-trip laws of bcrypt and AES-GCM.
    - The torrent library and its storage, rate limiters, ffmpeg, tag parsers
      and image decoders: other projects' code, parameters where they are used.
    - PostgreSQL: the same statements through a driver that rewrites them.
    - Repairing text in legacy encodings ([adapters/metadata]), through the
      tables of a library; the wiring of the process ([cmd]) but for the
      composition of its handlers.
    - Opening and migrating the database, which are scripts of the SQL engine,
      and the two migrations of data run by [Open]; storing and resizing of
      artwork, through the codecs of images.  The order of rows a query leaves
      open, and [ORDER BY RANDOM()], are those of an unknown sort. *)
From stdpp Require Import base gmap strings list sorting pretty.
From Stdlib Require Import ZArith Lia.

Open Scope Z_scope.

(** * Errors

    Go errors are values that may wrap one another.  [Sentinel] is an
    [errors.New] package variable, compared by identity through [errors.Is];
    [Errorf pre e post] is [fmt.Errorf] with one [%w] and [Errorf2] with two;
    [Plain] is an error that wraps nothing; [StatusError] is a struct that
    carries a status code; [Joined] is [errors.Join]. *)
Inductive sentinel :=
  | ErrNotFound | ErrSourceUnavailable | ErrSourceBusy
  | ErrAuthenticationFailed | ErrAlreadyExists | ErrForbidden | ErrLastAdministrator
  | ErrInvalidSettings | ErrInvalidPlayQueue | ErrInvalidPlaylist | ErrInvalidAnnotation
  | ErrInvalidUser | ErrCacheCapacity | ErrScanInProgress
  | ErrDiscoveryResultNotFound | ErrCollectionBrowsingUnsupported
  | ErrContextCanceled | ErrDeadlineExceeded | ErrOsNotExist | ErrEOF | ErrOsClosed.

#[export] Instance sentinel_eq_dec : EqDecision sentinel.
Proof. solve_decision. Defined.

Inductive error :=
  | Sentinel (s : sentinel)
  | Plain (msg : string)
  | Errorf (pre : string) (e : error) (post : string)
  | Errorf2 (e1 : error) (between : string) (e2 : error)
  | StatusError (code : Z) (msg : string)
  | Joined (es : list error).

(** [errors.Is target err]. *)
Fixpoint errors_Is (target : sentinel) (e : error) : bool :=
  match e with
  | Sentinel s => bool_decide (s = target)
  | Plain _ => false
  | Errorf _ e' _ => errors_Is target e'
  | Errorf2 e1 _ e2 => errors_Is target e1 || errors_Is target e2
  | StatusError _ _ => false
  | Joined es => existsb (errors_Is target) es
  end.

(** [errors.As] for the struct with a status code: the code found first. *)
Fixpoint errors_As_status (e : error) : option Z :=
  match e with
  | Sentinel _ | Plain _ => None
  | Errorf _ e' _ => errors_As_status e'
  | Errorf2 e1 _ e2 => match errors_As_status e1 with Some code => Some code | None => errors_As_status e2 end
  | StatusError code _ => Some code
  | Joined es =>
      (fix first es :=
         match es with
         | [] => None
         | x :: es' => match errors_As_status x with Some code => Some code | None => first es' end
         end) es
  end.

Definition sentinel_text (s : sentinel) : string :=
  match s with
  | ErrNotFound => "not found"
  | ErrSourceUnavailable => "source unavailable"
  | ErrSourceBusy => "source is busy"
  | ErrAuthenticationFailed => "authentication failed"
  | ErrAlreadyExists => "already exists"
  | ErrForbidden => "forbidden"
  | ErrLastAdministrator => "cannot remove the last administrator"
  | ErrInvalidSettings => "invalid settings"
  | ErrInvalidPlayQueue => "invalid play queue"
  | ErrInvalidPlaylist => "invalid playlist"
  | ErrInvalidAnnotation => "invalid media annotation"
  | ErrInvalidUser => "invalid user"
  | ErrCacheCapacity => "media cache capacity exceeded"
  | ErrScanInProgress => "music scan is already in progress"
  | ErrDiscoveryResultNotFound => "discovery result not found"
  | ErrCollectionBrowsingUnsupported => "source collection browsing is not supported"
  | ErrContextCanceled => "context canceled"
  | ErrDeadlineExceeded => "context deadline exceeded"
  | ErrOsNotExist => "file does not exist"
  | ErrEOF => "EOF"
  | ErrOsClosed => "file already closed"
  end.

(** [err.Error()]. *)
Fixpoint Error (e : error) : string :=
  match e with
  | Sentinel s => sentinel_text s
  | Plain msg => msg
  | Errorf pre e' post => pre +:+ Error e' +:+ post
  | Errorf2 e1 between e2 => Error e1 +:+ between +:+ Error e2
  | StatusError _ msg => msg
  | Joined es =>
      (fix join es :=
         match es with
         | [] => ""
         | [x] => Error x
         | x :: es' => Error x +:+ String (Ascii.ascii_of_nat 10) EmptyString +:+ join es'
         end) es
  end.

(** * Results and the state-and-error monad

    A Go call returns a value and an error and may have changed the state it
    was given whichever it returns: the state is threaded through failures. *)
Inductive res (A : Type) :=
  | Ok (a : A)
  | Err (e : error).
Arguments Ok {_} _.
Arguments Err {_} _.

Definition is_ok {A} (r : res A) : bool :=
  match r with Ok _ => true | Err _ => false end.

Definition M (S A : Type) : Type := S → res A * S.

#[export] Instance M_ret S : MRet (M S) := λ A a s, (Ok a, s).
#[export] Instance M_bind S : MBind (M S) := λ A B f m s,
  match m s with
  | (Ok a, s') => f a s'
  | (Err e, s') => (Err e, s')
  end.

Definition throw {S A} (e : error) : M S A := λ s, (Err e, s).
Definition gets {S A} (f : S → A) : M S A := λ s, (Ok (f s), s).
Definition modify {S} (f : S → S) : M S unit := λ s, (Ok tt, f s).

(** The call with its error handed to the caller instead of returned. *)
Definition try {S A} (m : M S A) : M S (res A) := λ s, let '(r, s') := m s in (Ok r, s').

(** [if err != nil { return ..., wrap err }]. *)
Definition wrap_err {S A} (f : error → error) (m : M S A) : M S A := λ s,
  match m s with
  | (Ok a, s') => (Ok a, s')
  | (Err e, s') => (Err (f e), s')
  end.

(** A call that reads or changes one field of a larger state. *)
Definition zoom {S T A} (get : S → T) (set : T → S → S) (m : M T A) : M S A := λ s,
  let '(r, t) := m (get s) in (r, set t s).

(** A pure fallible computation as a call. *)
Definition lift {S A} (r : res A) : M S A := λ s, (r, s).

Definition res_bind {A B} (r : res A) (f : A → res B) : res B :=
  match r with Ok a => f a | Err e => Err e end.

#[export] Instance res_ret : MRet res := λ A a, Ok a.
#[export] Instance res_mbind : MBind res := λ A B f r, res_bind r f.

(** [for _, x := range l { y, err := f(x); if err != nil { return err }; acc = append(acc, y) }]. *)
Fixpoint mmap {S A B} (f : A → M S B) (l : list A) : M S (list B) :=
  match l with
  | [] => mret []
  | x :: l' => y ← f x; ys ← mmap f l'; mret (y :: ys)
  end.

Fixpoint miter {S A} (f : A → M S unit) (l : list A) : M S unit :=
  match l with
  | [] => mret tt
  | x :: l' => _ ← f x; miter f l'
  end.

(** Inversion of a successful sequence: every step of it succeeded. *)
Lemma bind_Ok_inv {S A B} (m : M S A) (f : A → M S B) s b s' :
  (x ← m; f x) s = (Ok b, s') → ∃ a s1, m s = (Ok a, s1) ∧ f a s1 = (Ok b, s').
Proof.
  unfold mbind, M_bind. destruct (m s) as [[a|e] s1]; [eauto | discriminate].
Qed.

Create HintDb go discriminated.

(** Calls seen through a [view] of the state: a [read_only] call never changes
    the view, and one that [fails_clean] does not change it when it fails. *)
Section view.
Context {S V : Type} (view : S → V).

Definition read_only {A} (m : M S A) : Prop :=
  ∀ s r s', m s = (r, s') → view s' = view s.

Definition fails_clean {A} (m : M S A) : Prop :=
  ∀ s e s', m s = (Err e, s') → view s' = view s.

Lemma read_only_ret {A} (a : A) : read_only (mret a).
Proof. by intros s r s' [= <- <-]. Qed.

Lemma read_only_throw {A} e : read_only (throw e : M S A).
Proof. by intros s r s' [= <- <-]. Qed.

Lemma read_only_gets {A} (f : S → A) : read_only (gets f).
Proof. by intros s r s' [= <- <-]. Qed.

Lemma read_only_lift {A} (r : res A) : read_only (lift r).
Proof. by intros s r' s' [= <- <-]. Qed.

Lemma read_only_bind {A B} (m : M S A) (f : A → M S B) :
  read_only m → (∀ a, read_only (f a)) → read_only (x ← m; f x).
Proof.
  intros Hm Hf s r s'. unfold mbind, M_bind. destruct (m s) as [[a|e] s1] eqn:E.
  - intros H. rewrite (Hf _ _ _ _ H). by eapply Hm.
  - intros [= <- <-]. by eapply Hm.
Qed.

Lemma read_only_try {A} (m : M S A) : read_only m → read_only (try m).
Proof.
  intros Hm s r s'. unfold try. destruct (m s) as [r1 s1] eqn:E.
  intros [= <- <-]. by eapply Hm.
Qed.

Lemma read_only_wrap_err {A} g (m : M S A) : read_only m → read_only (wrap_err g m).
Proof.
  intros Hm s r s'. unfold wrap_err. destruct (m s) as [[a|e] s1] eqn:E;
    intros [= <- <-]; by eapply Hm.
Qed.

Lemma read_only_mmap {A B} (f : A → M S B) l :
  (∀ a, read_only (f a)) → read_only (mmap f l).
Proof.
  intros Hf. induction l as [|x l IH]; [apply read_only_ret|].
  apply read_only_bind; [auto|]. intros y.
  apply read_only_bind; [auto|]. intros ys. apply read_only_ret.
Qed.

Lemma fails_clean_read_only {A} (m : M S A) : read_only m → fails_clean m.
Proof. intros Hm s e s'. apply Hm. Qed.

Lemma fails_clean_bind {A B} (m : M S A) (f : A → M S B) :
  read_only m → (∀ a, fails_clean (f a)) → fails_clean (x ← m; f x).
Proof.
  intros Hm Hf s e s'. unfold mbind, M_bind. destruct (m s) as [[a|e1] s1] eqn:E.
  - intros H. rewrite (Hf _ _ _ _ H). by eapply Hm.
  - intros [= <- <-]. by eapply Hm.
Qed.

Lemma fails_clean_ret {A B} (m : M S A) (g : A → B) :
  fails_clean m → fails_clean (x ← m; mret (g x)).
Proof.
  intros Hm s e s'. unfold mbind, M_bind. destruct (m s) as [[a|e1] s1] eqn:E; [done|].
  intros [= <- <-]. by eapply Hm.
Qed.

Lemma fails_clean_wrap_err {A} g (m : M S A) : fails_clean m → fails_clean (wrap_err g m).
Proof.
  intros Hm s e s'. unfold wrap_err. destruct (m s) as [[a|e1] s1] eqn:E; [done|].
  intros [= <- <-]. by eapply Hm.
Qed.
End view.

#[export] Hint Resolve read_only_ret read_only_throw read_only_gets read_only_lift read_only_bind
  read_only_try read_only_wrap_err read_only_mmap : go.
#[export] Hint Resolve fails_clean_bind fails_clean_ret fails_clean_wrap_err
  fails_clean_read_only : go.

(** * Machine integers and time *)

(** The value an [int64] (and [int] on a 64-bit target) holds after an
    operation whose mathematical result is [z]. *)
Definition i64 (z : Z) : Z := (z + 2 ^ 63) mod 2 ^ 64 - 2 ^ 63.

Definition in_i64 (z : Z) : Prop := - 2 ^ 63 ≤ z < 2 ^ 63.

Lemma i64_id z : in_i64 z → i64 z = z.
Proof. unfold i64, in_i64. intros H. rewrite Z.mod_small; lia. Qed.

Lemma i64_range z : in_i64 (i64 z).
Proof.
  unfold i64, in_i64. pose proof (Z.mod_pos_bound (z + 2 ^ 63) (2 ^ 64)). lia.
Qed.

(** [for _, x := range l { acc += f(x) }] on [int64]. *)
Definition i64_sum (l : list Z) : Z := fold_left (λ acc x, i64 (acc + x)) l 0.

Definition Zsum (l : list Z) : Z := fold_right Z.add 0 l.

Lemma Zsum_app l k : Zsum (l ++ k) = Zsum l + Zsum k.
Proof. induction l as [|x l IH]; simpl; lia. Qed.

Lemma Zsum_nonneg l : Forall (λ x, 0 ≤ x) l → 0 ≤ Zsum l.
Proof. induction 1; simpl; lia. Qed.

#[export] Instance Zsum_perm : Proper ((≡ₚ) ==> (=)) Zsum.
Proof. induction 1; simpl; lia. Qed.

(** Without overflow, the machine sum is the sum. *)
Lemma i64_sum_acc l acc :
  0 ≤ acc → Forall (λ x, 0 ≤ x) l → acc + Zsum l < 2 ^ 63 →
  fold_left (λ a x, i64 (a + x)) l acc = acc + Zsum l.
Proof.
  revert acc. induction l as [|x l IH]; intros acc Hacc Hl Hb; simpl in *; [lia|].
  apply Forall_cons in Hl as [Hx Hl]. pose proof (Zsum_nonneg l Hl).
  rewrite i64_id by (unfold in_i64; lia). rewrite IH by (auto; lia). lia.
Qed.

Lemma i64_sum_spec l :
  Forall (λ x, 0 ≤ x) l → Zsum l < 2 ^ 63 → i64_sum l = Zsum l.
Proof. intros. unfold i64_sum. rewrite i64_sum_acc by (auto; lia). lia. Qed.

(** A [time.Time] is its instant in nanoseconds since the Unix epoch; the zero
    [time.Time] is midnight of January 1 of year 1.  A [time.Duration] is an
    [int64] of nanoseconds; [Sub] saturates. *)
Notation time := Z (only parsing).
Definition time_zero : time := -62135596800 * 10 ^ 9.
Definition time_unix_zero : time := 0.
Definition IsZero (t : time) : bool := t =? time_zero.
Definition time_Sub (t u : time) : Z := Z.max (- 2 ^ 63) (Z.min (2 ^ 63 - 1) (t - u)).
Definition time_Add (t : time) (d : Z) : time := t + d.

Definition Second : Z := 10 ^ 9.
Definition Minute : Z := 60 * Second.

(** * What the Go runtime leaves open

    [sort.Slice] is not stable, so it may return any sorted permutation, and
    [range] over a map visits the entries in any order.  Definitions that use
    either take this interface; the theorems hold for every instance. *)
Section sorted.
Context {A : Type} (less : A → A → bool).

(** No later element is less than an earlier one. *)
Definition sorted_by (l : list A) : Prop := StronglySorted (λ x y, less y x = false) l.

(** A [less] function that [sort] accepts: a strict weak ordering. *)
Record strict_weak : Prop := {
  sw_irrefl x : less x x = false;
  sw_trans x y z : less x y = true → less y z = true → less x z = true;
  sw_negtrans x y z : less y x = false → less z y = false → less z x = false;
}.

(** [sort.SliceStable]: insertion keeps equal elements in order. *)
Fixpoint insert_stable (x : A) (l : list A) : list A :=
  match l with
  | [] => [x]
  | y :: l' => if less x y then x :: l else y :: insert_stable x l'
  end.

Definition sort_stable (l : list A) : list A :=
  fold_left (λ acc x, insert_stable x acc) l [].

Lemma insert_stable_perm x l : insert_stable x l ≡ₚ x :: l.
Proof.
  induction l as [|y l IH]; simpl; [done|].
  destruct (less x y); [done|]. rewrite IH. apply Permutation_swap.
Qed.

Lemma sort_stable_perm l : sort_stable l ≡ₚ l.
Proof.
  unfold sort_stable.
  assert (∀ acc, fold_left (λ acc x, insert_stable x acc) l acc ≡ₚ l ++ acc) as H.
  { induction l as [|x l IH]; intros acc; simpl; [done|].
    rewrite IH, insert_stable_perm. symmetry. apply Permutation_middle. }
  rewrite H. by rewrite app_nil_r.
Qed.

Lemma insert_stable_sorted x l : strict_weak → sorted_by l → sorted_by (insert_stable x l).
Proof.
  intros Hsw. unfold sorted_by. induction l as [|y l IH]; simpl; intros Hl.
  { repeat constructor. }
  apply StronglySorted_inv in Hl as [Hl Hy]. destruct (less x y) eqn:Hxy.
  - constructor; [by constructor|].
    assert (less y x = false) as Hyx.
    { destruct (less y x) eqn:E; [|done].
      pose proof (sw_trans Hsw _ _ _ Hxy E). by rewrite (sw_irrefl Hsw) in *. }
    constructor; [done|]. eapply Forall_impl; [exact Hy|].
    intros z Hz. by eapply (sw_negtrans Hsw).
  - constructor; [auto|]. rewrite insert_stable_perm. by constructor.
Qed.

Lemma sort_stable_sorted l : strict_weak → sorted_by (sort_stable l).
Proof.
  intros Hsw. unfold sort_stable.
  assert (∀ acc, sorted_by acc → sorted_by (fold_left (λ acc x, insert_stable x acc) l acc)) as H.
  { induction l as [|x l IH]; intros acc Hacc; simpl; [done|].
    apply IH. by apply insert_stable_sorted. }
  apply H. constructor.
Qed.
End sorted.

(** * Filtered lists *)

Lemma elem_of_filter_bool {A} (f : A → bool) x l :
  x ∈ List.filter f l ↔ x ∈ l ∧ f x = true.
Proof. rewrite !list_elem_of_In. apply filter_In. Qed.

Lemma sublist_filter_bool {A} (f : A → bool) l : sublist (List.filter f l) l.
Proof. induction l as [|x l IH]; simpl; [done|]. destruct (f x); by constructor. Qed.

Lemma NoDup_map_filter {A B} (g : A → B) (f : A → bool) l :
  NoDup (map g l) → NoDup (map g (List.filter f l)).
Proof.
  intros Hl. eapply sublist_NoDup; [apply Hl|]. apply (fmap_sublist g), sublist_filter_bool.
Qed.

Lemma sorted_by_app {A} (less : A → A → bool) l k x y :
  sorted_by less (l ++ k) → x ∈ l → y ∈ k → less y x = false.
Proof.
  unfold sorted_by. intros Hs Hx Hy. induction l as [|z l IH]; [by rewrite elem_of_nil in Hx|].
  apply StronglySorted_inv in Hs as [Hs Hz]. apply elem_of_cons in Hx as [->|Hx]; [|auto].
  rewrite Forall_forall in Hz. apply Hz. apply elem_of_app. auto.
Qed.

Lemma sorted_by_filter {A} (less : A → A → bool) (f : A → bool) l :
  sorted_by less l → sorted_by less (List.filter f l).
Proof.
  unfold sorted_by. induction 1 as [|x l Hl IH Hx]; simpl; [constructor|].
  destruct (f x); [|done]. constructor; [done|]. apply Forall_forall. intros y Hy.
  rewrite Forall_forall in Hx. apply Hx. by apply elem_of_filter_bool in Hy as [Hy _].
Qed.

Class Runtime := {
  sort_slice {A} : (A → A → bool) → list A → list A;
  sort_slice_perm {A} (less : A → A → bool) l : sort_slice less l ≡ₚ l;
  sort_slice_sorted {A} (less : A → A → bool) l :
    strict_weak less → sorted_by less (sort_slice less l);
  map_range {K V} `{Countable K} : gmap K V → list (K * V);
  map_range_perm {K V} `{Countable K} (m : gmap K V) : map_range m ≡ₚ map_to_list m;
}.

(** One possible runtime: the one the concrete examples run on. *)
Definition stable_runtime : Runtime := {|
  sort_slice A less l := sort_stable less l;
  sort_slice_perm A less l := sort_stable_perm less l;
  sort_slice_sorted A less l := sort_stable_sorted less l;
  map_range K V _ _ m := map_to_list m;
  map_range_perm K V _ _ m := Permutation_refl _;
|}.

Lemma strict_weak_key {A} (key : A → Z) : strict_weak (λ x y, key x <? key y).
Proof. split; intros; lia. Qed.

#[export] Hint Resolve strict_weak_key sort_stable_perm sort_slice_perm : go.

(** * Tactics *)

(** Splits every [match] in a hypothesis or the goal and clears the impossible cases. *)
Ltac go_split :=
  repeat match goal with
  | H : (_, _) = (_, _) |- _ => injection H as H; subst
  | H : context [match ?x with _ => _ end] |- _ => destruct x eqn:?; try discriminate
  | |- context [match ?x with _ => _ end] => destruct x eqn:?; try discriminate
  end.

(** Takes a successful monadic sequence apart, one step at a time. *)
Lemma lift_Ok_inv {S A} (r : res A) (s : S) a s' : lift r s = (Ok a, s') → r = Ok a ∧ s' = s.
Proof. by intros [= -> ->]. Qed.

Lemma wrap_err_Ok_inv {S A} g (m : M S A) s a s' :
  wrap_err g m s = (Ok a, s') → m s = (Ok a, s').
Proof. unfold wrap_err. by destruct (m s) as [[?|?] ?]; intros [= -> ->]. Qed.

Lemma ret_Ok_inv {S A} (a b : A) (s s' : S) : (mret a : M S A) s = (Ok b, s') → b = a ∧ s' = s.
Proof. by intros [= -> ->]. Qed.

Ltac inv_ok H :=
  lazymatch type of H with
  | mbind _ _ _ = (Ok _, _) =>
      let a := fresh "a" in let s := fresh "s" in let Hm := fresh "Hm" in
      apply bind_Ok_inv in H as (a & s & Hm & H); inv_ok Hm; inv_ok H
  | lift _ _ = (Ok _, _) => let E := fresh "E" in apply lift_Ok_inv in H as [H E]; subst
  | wrap_err _ _ _ = (Ok _, _) => apply wrap_err_Ok_inv in H; inv_ok H
  | mret _ _ = (Ok _, _) => let E := fresh "E" in apply ret_Ok_inv in H as [H E]; subst
  | throw _ _ = (Ok _, _) => discriminate H
  | (match ?b with _ => _ end) _ = (Ok _, _) => destruct b eqn:?; inv_ok H
  | _ => idtac
  end.

(** Proves that a handler is read-only or fails cleanly, by its structure. *)
Ltac go_clean :=
  intros;
  repeat match goal with
  | |- read_only _ (if ?b then _ else _) => destruct b
  | |- fails_clean _ (if ?b then _ else _) => destruct b
  | |- read_only _ (match ?b with _ => _ end) => destruct b
  | |- fails_clean _ (match ?b with _ => _ end) => destruct b
  | |- read_only _ (let '(_, _) := ?p in _) => destruct p
  | |- fails_clean _ (let '(_, _) := ?p in _) => destruct p
  | |- read_only _ (mbind _ _) => apply read_only_bind; [|intros ?]
  | |- fails_clean _ (mbind _ _) =>
      first [ apply fails_clean_bind; [solve [go_clean]|intros ?] | apply fails_clean_ret ]
  | |- read_only _ (wrap_err _ _) => apply read_only_wrap_err
  | |- fails_clean _ (wrap_err _ _) => apply fails_clean_wrap_err
  | _ => solve [eauto with go]
  end.

(** Discharges goals about boolean tests and linear arithmetic. *)
Ltac go_lia :=
  repeat match goal with
  | H : bool_decide _ = true |- _ => apply bool_decide_eq_true in H
  | H : bool_decide _ = false |- _ => apply bool_decide_eq_false in H
  | H : andb _ _ = true |- _ => apply andb_true_iff in H as [? ?]
  | H : orb _ _ = false |- _ => apply orb_false_iff in H as [? ?]
  end; try lia; auto with go.

Declare Scope go_scope.
Delimit Scope go_scope with go.
(** [a +% b]: addition on [int64]; [a -% b]: subtraction. *)
Notation "a +% b" := (i64 (a + b)) (at level 50, left associativity) : go_scope.
Notation "a -% b" := (i64 (a - b)) (at level 50, left associativity) : go_scope.
