(* ===== verification/GoStrings.v ===== *)
(** The parts of Go's [strings], [unicode/utf8], [strconv], [path] and
    [path/filepath] (on a slash-separated system) that the modelled code calls.

    A Go string is its bytes, here a Rocq [string].  Runes are decoded from the
    bytes as [utf8.DecodeRune] does: an invalid byte is [U+FFFD] of width 1.
    The Unicode property tables and case mappings are a parameter (class
    [Unicode]) known on ASCII only; white space is a fixed short list and is
    spelled out. *)
From stdpp Require Import base gmap strings list pretty.
From Stdlib Require Import ZArith Lia Ascii.
From S2P Require Import Prelude.

Open Scope Z_scope.

Definition byte_of (a : ascii) : Z := Z.of_N (N_of_ascii a).
Definition ascii_of (b : Z) : ascii := ascii_of_N (Z.to_N b).

Fixpoint bytes_of (s : string) : list Z :=
  match s with
  | EmptyString => []
  | String a s' => byte_of a :: bytes_of s'
  end.

Fixpoint of_bytes (l : list Z) : string :=
  match l with
  | [] => EmptyString
  | b :: l' => String (ascii_of b) (of_bytes l')
  end.

(** [len(s)]. *)
Definition len (s : string) : Z := Z.of_nat (String.length s).

(** * Runes *)

Definition RuneError : Z := 0xFFFD.
Definition RuneSelf : Z := 0x80.

Definition between (lo hi b : Z) : bool := (lo <=? b) && (b <=? hi).
Definition is_cont (b : Z) : bool := between 0x80 0xBF b.
Definition cont_bits (b : Z) : Z := Z.land b 0x3F.

(** [utf8.DecodeRune]: the first rune and its width. *)
Definition decode_rune (bs : list Z) : Z * nat :=
  match bs with
  | [] => (RuneError, 0%nat)
  | b0 :: r =>
      if b0 <? 0x80 then (b0, 1%nat)
      else if between 0xC2 0xDF b0 then
        match r with
        | b1 :: _ =>
            if is_cont b1
            then (Z.lor (Z.shiftl (Z.land b0 0x1F) 6) (cont_bits b1), 2%nat)
            else (RuneError, 1%nat)
        | _ => (RuneError, 1%nat)
        end
      else if between 0xE0 0xEF b0 then
        let lo := if b0 =? 0xE0 then 0xA0 else 0x80 in
        let hi := if b0 =? 0xED then 0x9F else 0xBF in
        match r with
        | b1 :: b2 :: _ =>
            if between lo hi b1 && is_cont b2
            then (Z.lor (Z.lor (Z.shiftl (Z.land b0 0x0F) 12) (Z.shiftl (cont_bits b1) 6))
                    (cont_bits b2), 3%nat)
            else (RuneError, 1%nat)
        | _ => (RuneError, 1%nat)
        end
      else if between 0xF0 0xF4 b0 then
        let lo := if b0 =? 0xF0 then 0x90 else 0x80 in
        let hi := if b0 =? 0xF4 then 0x8F else 0xBF in
        match r with
        | b1 :: b2 :: b3 :: _ =>
            if between lo hi b1 && is_cont b2 && is_cont b3
            then (Z.lor (Z.lor (Z.shiftl (Z.land b0 0x07) 18) (Z.shiftl (cont_bits b1) 12))
                    (Z.lor (Z.shiftl (cont_bits b2) 6) (cont_bits b3)), 4%nat)
            else (RuneError, 1%nat)
        | _ => (RuneError, 1%nat)
        end
      else (RuneError, 1%nat)
  end.

(** [utf8.AppendRune]. *)
Definition encode_rune (r : Z) : list Z :=
  if between 0 0x7F r then [r]
  else if between 0x80 0x7FF r then
    [Z.lor 0xC0 (Z.shiftr r 6); Z.lor 0x80 (Z.land r 0x3F)]
  else if between 0xD800 0xDFFF r || (r <? 0) || (0x10FFFF <? r) then [0xEF; 0xBF; 0xBD]
  else if between 0x800 0xFFFF r then
    [Z.lor 0xE0 (Z.shiftr r 12); Z.lor 0x80 (Z.land (Z.shiftr r 6) 0x3F);
     Z.lor 0x80 (Z.land r 0x3F)]
  else
    [Z.lor 0xF0 (Z.shiftr r 18); Z.lor 0x80 (Z.land (Z.shiftr r 12) 0x3F);
     Z.lor 0x80 (Z.land (Z.shiftr r 6) 0x3F); Z.lor 0x80 (Z.land r 0x3F)].

(** A string cut into runes, each with the bytes it was decoded from; the fuel
    is the number of bytes, and every rune takes at least one. *)
Fixpoint segments_fuel (fuel : nat) (bs : list Z) : list (Z * list Z) :=
  match fuel with
  | O => []
  | S fuel' =>
      match bs with
      | [] => []
      | _ => let '(r, w) := decode_rune bs in
             (r, take w bs) :: segments_fuel fuel' (drop w bs)
      end
  end.

Definition segments (s : string) : list (Z * list Z) :=
  segments_fuel (String.length s) (bytes_of s).

Definition of_segments (l : list (Z * list Z)) : string := of_bytes (concat (map snd l)).

(** [[]rune(s)]. *)
Definition runes (s : string) : list Z := map fst (segments s).

(** [string(runes)]. *)
Definition of_runes (l : list Z) : string := of_bytes (concat (map encode_rune l)).

(** [utf8.RuneCountInString]. *)
Definition RuneCountInString (s : string) : Z := Z.of_nat (length (runes s)).

(** [unicode.IsSpace]. *)
Definition IsSpace (r : Z) : bool :=
  between 9 13 r || (r =? 0x20) || (r =? 0x85) || (r =? 0xA0) || (r =? 0x1680)
  || between 0x2000 0x200a r || (r =? 0x2028) || (r =? 0x2029) || (r =? 0x202f)
  || (r =? 0x205f) || (r =? 0x3000).

(** The rest of package [unicode]: tables, known here on ASCII. *)
Definition ascii_upper (r : Z) : bool := between 65 90 r.
Definition ascii_lower (r : Z) : bool := between 97 122 r.
Definition ascii_digit (r : Z) : bool := between 48 57 r.

Class Unicode := {
  IsLetter : Z → bool;
  IsDigit : Z → bool;
  IsNumber : Z → bool;
  ToLowerRune : Z → Z;
  FoldRune : Z → Z;
  IsLetter_ascii r : 0 ≤ r < 128 → IsLetter r = ascii_upper r || ascii_lower r;
  IsDigit_ascii r : 0 ≤ r < 128 → IsDigit r = ascii_digit r;
  IsNumber_ascii r : 0 ≤ r < 128 → IsNumber r = ascii_digit r;
  ToLowerRune_ascii r : 0 ≤ r < 128 → ToLowerRune r = if ascii_upper r then r + 32 else r;
  FoldRune_ascii r : 0 ≤ r < 128 → FoldRune r = if ascii_upper r then r + 32 else r;
}.

(** The tables cut down to ASCII: what the concrete examples run on. *)
Definition ascii_unicode : Unicode := {|
  IsLetter r := ascii_upper r || ascii_lower r;
  IsDigit := ascii_digit;
  IsNumber := ascii_digit;
  ToLowerRune r := if ascii_upper r then r + 32 else r;
  FoldRune r := if ascii_upper r then r + 32 else r;
  IsLetter_ascii r _ := eq_refl;
  IsDigit_ascii r _ := eq_refl;
  IsNumber_ascii r _ := eq_refl;
  ToLowerRune_ascii r _ := eq_refl;
  FoldRune_ascii r _ := eq_refl;
|}.

(** * Package [strings] *)

Fixpoint drop_while {A} (p : A → bool) (l : list A) : list A :=
  match l with
  | [] => []
  | x :: l' => if p x then drop_while p l' else l
  end.

Definition drop_while_end {A} (p : A → bool) (l : list A) : list A :=
  rev (drop_while p (rev l)).

Definition TrimLeftFunc (s : string) (p : Z → bool) : string :=
  of_segments (drop_while (λ x, p x.1) (segments s)).

(** [strings.TrimSpace]. *)
Definition TrimSpace (s : string) : string :=
  of_segments (drop_while_end (λ x, IsSpace x.1) (drop_while (λ x, IsSpace x.1) (segments s))).

(** [strings.FieldsFunc]: the maximal runs of runes that do not satisfy [p]. *)
Fixpoint fields_aux {A} (p : A → bool) (cur : list A) (l : list A) : list (list A) :=
  match l with
  | [] => match cur with [] => [] | _ => [cur] end
  | x :: l' =>
      if p x
      then match cur with
           | [] => fields_aux p [] l'
           | _ => cur :: fields_aux p [] l'
           end
      else fields_aux p (cur ++ [x]) l'
  end.

Definition FieldsFunc (s : string) (p : Z → bool) : list string :=
  map of_segments (fields_aux (λ x, p x.1) [] (segments s)).

Definition Fields (s : string) : list string := FieldsFunc s IsSpace.

Section unicode.
Context `{Unicode}.

(** [strings.ToLower]. *)
Definition ToLower (s : string) : string := of_runes (map ToLowerRune (runes s)).

(** [strings.EqualFold]. *)
Definition EqualFold (s t : string) : bool :=
  bool_decide (map FoldRune (runes s) = map FoldRune (runes t)).
End unicode.

Fixpoint has_byte (p : ascii → bool) (s : string) : bool :=
  match s with
  | EmptyString => false
  | String a s' => p a || has_byte p s'
  end.

(** [strings.ContainsAny(s, chars)] for ASCII [chars]. *)
Definition ContainsAny (s chars : string) : bool :=
  has_byte (λ a, has_byte (λ c, bool_decide (a = c)) chars) s.

Definition HasPrefix (s pre : string) : bool := String.prefix pre s.

Fixpoint str_drop (n : nat) (s : string) : string :=
  match n, s with
  | O, _ => s
  | _, EmptyString => EmptyString
  | S n', String _ s' => str_drop n' s'
  end.

Fixpoint str_take (n : nat) (s : string) : string :=
  match n, s with
  | O, _ => EmptyString
  | _, EmptyString => EmptyString
  | S n', String a s' => String a (str_take n' s')
  end.

Definition HasSuffix (s suf : string) : bool :=
  (String.length suf <=? String.length s)%nat &&
  bool_decide (str_drop (String.length s - String.length suf) s = suf).

Definition TrimPrefix (s pre : string) : string :=
  if HasPrefix s pre then str_drop (String.length pre) s else s.

Definition TrimSuffix (s suf : string) : string :=
  if HasSuffix s suf then str_take (String.length s - String.length suf) s else s.

(** [strings.Cut(s, sep)]: [None] when [sep] does not occur. *)
Fixpoint Cut (s sep : string) : option (string * string) :=
  if HasPrefix s sep then Some (EmptyString, str_drop (String.length sep) s)
  else match s with
       | EmptyString => None
       | String a s' =>
           match Cut s' sep with
           | Some (before, after) => Some (String a before, after)
           | None => None
           end
       end.

Definition Contains (s sub : string) : bool :=
  match Cut s sub with Some _ => true | None => false end.

(** [strings.Split(s, sep)] for a one-byte separator. *)
Fixpoint Split (sep : ascii) (s : string) : list string :=
  match s with
  | EmptyString => [EmptyString]
  | String a s' =>
      if bool_decide (a = sep) then EmptyString :: Split sep s'
      else match Split sep s' with
           | [] => [String a EmptyString]
           | w :: ws => String a w :: ws
           end
  end.

(** [strings.Join]. *)
Fixpoint Join (l : list string) (sep : string) : string :=
  match l with
  | [] => ""
  | [x] => x
  | x :: l' => x +:+ sep +:+ Join l' sep
  end.

(** [strings.Count(s, sep)] for a one-byte separator. *)
Definition Count (s : string) (sep : ascii) : Z := Z.of_nat (length (Split sep s)) - 1.

(** * Package [strconv] *)

Fixpoint digits_value (acc : Z) (s : string) : option Z :=
  match s with
  | EmptyString => Some acc
  | String a s' =>
      if ascii_digit (byte_of a) then digits_value (10 * acc + (byte_of a - 48)) s' else None
  end.

(** [strconv.Atoi] on a 64-bit target. *)
Definition Atoi (s : string) : option Z :=
  let '(neg, body) :=
    match s with
    | String a s' => if bool_decide (a = "-"%char) then (true, s')
                     else if bool_decide (a = "+"%char) then (false, s') else (false, s)
    | EmptyString => (false, s)
    end in
  match body with
  | EmptyString => None
  | _ =>
      match digits_value 0 body with
      | Some v => let z := if neg : bool then - v else v in
                  if between (- 2 ^ 63) (2 ^ 63 - 1) z then Some z else None
      | None => None
      end
  end.

Definition Itoa (z : Z) : string := pretty z.

(** * Packages [path] and [path/filepath] *)

Definition slash : ascii := "/"%char.

(** The lexical rules of [path.Clean], one element at a time; the stack holds
    the elements kept so far, last first. *)
Definition clean_step (rooted : bool) (stack : list string) (e : string) : list string :=
  if bool_decide (e = "") || bool_decide (e = ".") then stack
  else if bool_decide (e = "..") then
    match stack with
    | top :: rest => if bool_decide (top = "..") then e :: stack else rest
    | [] => if rooted then [] else [e]
    end
  else e :: stack.

Definition clean_stack (rooted : bool) (elems : list string) : list string :=
  fold_left (clean_step rooted) elems [].

(** [path.Clean]. *)
Definition Clean (p : string) : string :=
  let rooted := HasPrefix p "/" in
  let body := Join (rev (clean_stack rooted (Split slash p))) "/" in
  let out := (if rooted then "/" else "") +:+ body in
  if bool_decide (out = "") then "." else out.

(** [filepath.Join]. *)
Definition JoinPath (elems : list string) : string :=
  match List.filter (λ e, negb (bool_decide (e = ""))) elems with
  | [] => ""
  | ne => Clean (Join ne "/")
  end.

(** [path.Ext] and [filepath.Ext]: from the last dot of the last element. *)
Fixpoint last_dot (s : string) : option string :=
  match s with
  | EmptyString => None
  | String a s' =>
      match last_dot s' with
      | Some e => Some e
      | None => if bool_decide (a = "."%char) then Some s else None
      end
  end.

Definition last_elem (s : string) : string := default "" (last (Split slash s)).

Definition Ext (s : string) : string := default "" (last_dot (last_elem s)).

(** [path.Base]. *)
Definition Base (s : string) : string :=
  if bool_decide (s = "") then "."
  else match drop_while (λ e, bool_decide (e = "")) (rev (Split slash s)) with
       | e :: _ => e
       | [] => "/"
       end.

(** [path.Dir]. *)
Definition Dir (s : string) : string :=
  Clean (match rev (Split slash s) with
         | _ :: r => Join (rev ("" :: r)) "/"
         | [] => ""
         end).

(** [s < t] on strings: byte by byte. *)
Fixpoint str_ltb (s t : string) : bool :=
  match s, t with
  | _, EmptyString => false
  | EmptyString, _ => true
  | String a s', String b t' =>
      (byte_of a <? byte_of b) || ((byte_of a =? byte_of b) && str_ltb s' t')
  end.

(** * Lemmas *)

Lemma byte_of_range a : 0 ≤ byte_of a < 256.
Proof.
  unfold byte_of. pose proof (N_ascii_bounded a). lia.
Qed.

Lemma ascii_of_byte_of a : ascii_of (byte_of a) = a.
Proof. unfold ascii_of, byte_of. rewrite N2Z.id. apply ascii_N_embedding. Qed.

Lemma byte_of_inj a b : byte_of a = byte_of b → a = b.
Proof. intros H. by rewrite <- (ascii_of_byte_of a), <- (ascii_of_byte_of b), H. Qed.

Lemma of_bytes_of s : of_bytes (bytes_of s) = s.
Proof. induction s as [|a s IH]; simpl; [done|]. by rewrite ascii_of_byte_of, IH. Qed.

Lemma of_bytes_app l k : of_bytes (l ++ k) = of_bytes l +:+ of_bytes k.
Proof. induction l as [|b l IH]; simpl; [done|]. by rewrite IH. Qed.

Lemma bytes_of_app s t : bytes_of (s +:+ t) = bytes_of s ++ bytes_of t.
Proof. induction s as [|a s IH]; simpl; [done|]. by rewrite IH. Qed.

Lemma length_bytes_of s : length (bytes_of s) = String.length s.
Proof. induction s as [|a s IH]; simpl; [done|]. by rewrite IH. Qed.

Lemma str_ltb_cons a b s t :
  str_ltb (String a s) (String b t) = true ↔
  byte_of a < byte_of b ∨ (byte_of a = byte_of b ∧ str_ltb s t = true).
Proof. simpl. rewrite orb_true_iff, andb_true_iff, Z.ltb_lt, Z.eqb_eq. done. Qed.

Lemma str_ltb_cons_false a b s t :
  str_ltb (String a s) (String b t) = false ↔
  byte_of b < byte_of a ∨ (byte_of a = byte_of b ∧ str_ltb s t = false).
Proof.
  rewrite <- !not_true_iff_false, str_ltb_cons.
  destruct (str_ltb s t); destruct (Z.lt_trichotomy (byte_of a) (byte_of b)) as [?|[?|?]];
    intuition (congruence || lia).
Qed.

Lemma strict_weak_str : strict_weak str_ltb.
Proof.
  split.
  - intros s. induction s as [|a s IH]; [done|]. apply str_ltb_cons_false. auto.
  - intros s. induction s as [|a s IH]; intros [|b t] [|c u]; try done.
    rewrite !str_ltb_cons. intros [?|[? ?]] [?|[? ?]]; [left; lia..|].
    right. split; [lia | eauto].
  - intros s. induction s as [|a s IH]; intros [|b t] [|c u]; try done.
    rewrite !str_ltb_cons_false. intros [?|[? ?]] [?|[? ?]]; [left; lia..|].
    right. split; [lia | eauto].
Qed.

Lemma str_ltb_total s t : str_ltb s t = false → str_ltb t s = false → s = t.
Proof.
  revert t. induction s as [|a s IH]; intros [|b t]; try done.
  rewrite !str_ltb_cons_false. intros [?|[? ?]] [?|[? ?]]; try lia.
  f_equal; [by apply byte_of_inj | auto].
Qed.

(** The bytes of a string, as characters. *)
Lemma has_byte_false (p : ascii → bool) s :
  has_byte p s = false ↔ ∀ a, a ∈ String.list_ascii_of_string s → p a = false.
Proof.
  induction s as [|a s IH]; simpl; [split; [intros _ a; by rewrite elem_of_nil | done]|].
  rewrite orb_false_iff, IH. setoid_rewrite elem_of_cons. naive_solver.
Qed.

Definition lacks (sep : ascii) (s : string) : Prop := sep ∉ String.list_ascii_of_string s.

Lemma ContainsAny_lacks s chars c :
  ContainsAny s chars = false → c ∈ String.list_ascii_of_string chars → lacks c s.
Proof.
  unfold ContainsAny. rewrite has_byte_false. intros Hs Hc Hin.
  specialize (Hs _ Hin). rewrite has_byte_false in Hs. specialize (Hs _ Hc).
  by apply bool_decide_eq_false in Hs.
Qed.

Lemma Split_lacks sep s : lacks sep s → Split sep s = [s].
Proof.
  unfold lacks. induction s as [|a s IH]; simpl; [done|]. rewrite not_elem_of_cons.
  intros [Ha Hs]. rewrite bool_decide_eq_false_2 by congruence. by rewrite IH.
Qed.

#[export] Hint Resolve strict_weak_str : go.

(** * Prefixes and cuts *)

Lemma prefix_String a p b s :
  String.prefix (String a p) (String b s) = if ascii_dec a b then String.prefix p s else false.
Proof. reflexivity. Qed.

Lemma HasPrefix_spec s p : HasPrefix s p = true ↔ s = p +:+ str_drop (String.length p) s.
Proof.
  unfold HasPrefix. revert s. induction p as [|a p IH]; intros s; [by destruct s|].
  destruct s as [|b s]; [split; done|]. rewrite prefix_String. destruct (ascii_dec a b) as [->|Hab].
  - rewrite IH. change (String b p +:+ str_drop (String.length (String b p)) (String b s))
      with (String b (p +:+ str_drop (String.length p) s)).
    split; intros E; [by rewrite <- E|by injection E].
  - split; [done|]. intros [= E _]. congruence.
Qed.

Lemma str_drop_app p s : str_drop (String.length p) (p +:+ s) = s.
Proof. by induction p. Qed.

Lemma HasPrefix_app p s : HasPrefix (p +:+ s) p = true.
Proof. apply HasPrefix_spec. by rewrite str_drop_app. Qed.

Lemma str_app_assoc (a b c : string) : a +:+ (b +:+ c) = (a +:+ b) +:+ c.
Proof. induction a as [|x a IH]; [done|]. change (String x (a +:+ (b +:+ c)) = String x ((a +:+ b) +:+ c)). by rewrite IH. Qed.

Lemma Cut_Some s sep a b : Cut s sep = Some (a, b) → s = a +:+ (sep +:+ b).
Proof.
  revert a b. induction s as [|x s IH]; intros a b; cbn [Cut].
  - destruct (HasPrefix "" sep) eqn:E; [|done]. intros [= <- <-]. by apply HasPrefix_spec in E.
  - destruct (HasPrefix (String x s) sep) eqn:E.
    + intros [= <- <-]. by apply HasPrefix_spec in E.
    + destruct (Cut s sep) as [[a' b']|] eqn:E2; [|done]. intros [= <- <-].
      by rewrite (IH _ _ eq_refl).
Qed.

Lemma lacks_app c s t : lacks c (s +:+ t) ↔ lacks c s ∧ lacks c t.
Proof.
  unfold lacks. induction s as [|a s IH]; simpl.
  - rewrite elem_of_nil. tauto.
  - rewrite !not_elem_of_cons, IH. tauto.
Qed.
