(* ===== verification/GoTime.v ===== *)
(** Package [time]: the RFC 3339 text the storage adapters keep instants in. *)
From stdpp Require Import base gmap strings list pretty.
From Stdlib Require Import ZArith Lia Ascii.
From S2P Require Import Prelude GoStrings.

Open Scope Z_scope.

(** Year, month and day of a day number counted from 1970-01-01. *)
Definition civil_from_days (days : Z) : Z * Z * Z :=
  let z := days + 719468 in
  let era := z / 146097 in
  let doe := z mod 146097 in
  let yoe := (doe - doe / 1460 + doe / 36524 - doe / 146096) / 365 in
  let doy := doe - (365 * yoe + yoe / 4 - yoe / 100) in
  let mp := (5 * doy + 2) / 153 in
  let d := doy - (153 * mp + 2) / 5 + 1 in
  let m := if mp <? 10 then mp + 3 else mp - 9 in
  (yoe + era * 400 + (if m <=? 2 then 1 else 0), m, d).

(** [n] decimal digits of [z]. *)
Fixpoint pad_digits (n : nat) (z : Z) : string :=
  match n with
  | O => ""
  | S n' => pad_digits n' (z / 10) +:+ of_bytes [48 + z mod 10]
  end.

Fixpoint trim_zeros (s : string) : string :=
  match s with
  | EmptyString => EmptyString
  | String a s' =>
      match trim_zeros s' with
      | EmptyString => if bool_decide (a = "0"%char) then EmptyString else String a EmptyString
      | t => String a t
      end
  end.

(** [t.UTC().Format(time.RFC3339Nano)]: the fraction has no trailing zeros. *)
Definition FormatRFC3339Nano (t : time) : string :=
  let secs := t / Second in
  let nanos := t mod Second in
  let '(y, m, d) := civil_from_days (secs / 86400) in
  let sod := secs mod 86400 in
  let frac := trim_zeros (pad_digits 9 nanos) in
  pad_digits 4 y +:+ "-" +:+ pad_digits 2 m +:+ "-" +:+ pad_digits 2 d +:+ "T" +:+
  pad_digits 2 (sod / 3600) +:+ ":" +:+ pad_digits 2 (sod / 60 mod 60) +:+ ":" +:+
  pad_digits 2 (sod mod 60) +:+ (if bool_decide (frac = "") then "" else "." +:+ frac) +:+ "Z".

Example format_epoch : FormatRFC3339Nano 0 = "1970-01-01T00:00:00Z".
Proof. vm_compute. reflexivity. Qed.

Example format_reference :
  FormatRFC3339Nano (1136239445 * Second + 120000000) = "2006-01-02T22:04:05.12Z".
Proof. vm_compute. reflexivity. Qed.

Example format_leap_day : FormatRFC3339Nano (951782400 * Second) = "2000-02-29T00:00:00Z".
Proof. vm_compute. reflexivity. Qed.
