(* ===== verification/Sql.v ===== *)
(** The database connection the storage adapters run on ([database.go]): a
    state of tables and a schedule of faults.  A statement either takes effect
    as a whole or fails and changes nothing; a transaction that returns an
    error, or whose commit fails, is rolled back ([defer tx.Rollback()]). *)
From stdpp Require Import base gmap strings list.
From Stdlib Require Import ZArith Lia.
From S2P Require Import Prelude GoStrings.

Open Scope Z_scope.

(** What the driver reports when it does not succeed: an error of its own, or
    the cancellation of the call's context.  It knows none of the program's
    sentinel errors. *)
Inductive fault :=
  | DriverError (msg : string)
  | Cancelled.

Definition fault_error (f : fault) : error :=
  match f with DriverError msg => Plain msg | Cancelled => Sentinel ErrContextCanceled end.

Section database.
Context {T : Type}.

(** [faults]: what the driver reports for the next calls, [None] for success;
    past its end every call succeeds. *)
Record database := mkDatabase {
  tables : T;
  faults : list (option fault);
}.

Definition statement {A} (f : T → res (A * T)) : M database A := λ d,
  match faults d with
  | Some e :: fs => (Err (fault_error e), mkDatabase (tables d) fs)
  | fs =>
      match f (tables d) with
      | Ok (a, t) => (Ok a, mkDatabase t (tail fs))
      | Err e => (Err e, mkDatabase (tables d) (tail fs))
      end
  end.

(** [ExecContext] that cannot break a constraint, and [QueryContext]. *)
Definition ExecContext (f : T → T) : M database unit := statement (λ t, Ok (tt, f t)).
Definition QueryContext {A} (f : T → A) : M database A := statement (λ t, Ok (f t, t)).

Definition rollback_to (d0 d : database) : database := mkDatabase (tables d0) (faults d).

(** [tx, err := db.BeginTx(...); defer tx.Rollback(); body; tx.Commit()]. *)
Definition transaction {A} (onBegin onCommit : error → error) (body : M database A)
    : M database A := λ d,
  match ExecContext id d with
  | (Err e, d1) => (Err (onBegin e), d1)
  | (Ok _, d1) =>
      match body d1 with
      | (Err e, d2) => (Err e, rollback_to d d2)
      | (Ok a, d2) =>
          match ExecContext id d2 with
          | (Err e, d3) => (Err (onCommit e), rollback_to d d3)
          | (Ok _, d3) => (Ok a, d3)
          end
      end
  end.

Lemma statement_clean {A} (f : T → res (A * T)) : fails_clean tables (statement f).
Proof.
  intros d e d'. unfold statement. destruct (faults d) as [|[e0|] fs]; [..|];
    try (destruct (f (tables d)) as [[a t]|e1]; [done|]); by intros [= <- <-].
Qed.

Lemma statement_Ok {A} (f : T → res (A * T)) d a d' :
  statement f d = (Ok a, d') → f (tables d) = Ok (a, tables d').
Proof.
  unfold statement. destruct (faults d) as [|[e0|] fs]; [..|done|];
    destruct (f (tables d)) as [[b t]|e1]; try done; by intros [= -> <-].
Qed.

Lemma ExecContext_Ok (f : T → T) d u d' :
  ExecContext f d = (Ok u, d') → tables d' = f (tables d).
Proof. intros H. by apply statement_Ok in H as [= _ ->]. Qed.

Lemma ExecContext_clean (f : T → T) : fails_clean tables (ExecContext f).
Proof. apply statement_clean. Qed.

Lemma QueryContext_Ok {A} (f : T → A) d a d' :
  QueryContext f d = (Ok a, d') → a = f (tables d) ∧ tables d' = tables d.
Proof. intros H. by apply statement_Ok in H as [= -> ->]. Qed.

Lemma QueryContext_read_only {A} (f : T → A) : read_only tables (QueryContext f).
Proof.
  intros d [a|e] d' H; [by apply QueryContext_Ok in H as [_ ->]|by apply statement_clean in H].
Qed.

(** A failed query reports none of the program's own errors. *)
Lemma QueryContext_Err {A} (f : T → A) d e d' target :
  QueryContext f d = (Err e, d') → target ≠ ErrContextCanceled → errors_Is target e = false.
Proof.
  unfold QueryContext, statement. destruct (faults d) as [|[x|] fs]; [done| |done].
  intros [= <- _] Ht. destruct x; [done|]. cbn. by apply bool_decide_eq_false_2.
Qed.

(** A transaction that fails changes nothing, whatever its body had done. *)
Lemma transaction_clean {A} g h (body : M database A) : fails_clean tables (transaction g h body).
Proof.
  intros d e d'. unfold transaction.
  destruct (ExecContext id d) as [[u|e1] d1] eqn:E1.
  - destruct (body d1) as [[a|e2] d2]; [|by intros [= <- <-]].
    destruct (ExecContext id d2) as [[v|e3] d3]; [done|by intros [= <- <-]].
  - intros [= <- <-]. by eapply ExecContext_clean.
Qed.

Lemma transaction_Ok {A} g h (body : M database A) d a d' :
  transaction g h body d = (Ok a, d') →
  ∃ d1 d2, tables d1 = tables d ∧ body d1 = (Ok a, d2) ∧ tables d' = tables d2.
Proof.
  unfold transaction.
  destruct (ExecContext id d) as [[u|e1] d1] eqn:E1; [|done].
  destruct (body d1) as [[b|e2] d2] eqn:E2; [|done].
  destruct (ExecContext id d2) as [[v|e3] d3] eqn:E3; [|done].
  intros [= -> ->]. apply ExecContext_Ok in E1, E3. unfold id in *. eauto 6.
Qed.
End database.
Arguments database : clear implicits.
Arguments mkDatabase {_} _ _.

#[export] Hint Resolve statement_clean ExecContext_clean QueryContext_read_only transaction_clean : go.

(** [LOWER(x)] folds ASCII letters only. *)
Definition sql_lower (s : string) : string :=
  of_bytes (map (λ b, if ascii_upper b then b + 32 else b) (bytes_of s)).
