(* ===== verification/Users.v ===== *)
(** Accounts and authorization: [domain.User] and its permissions, the
    [ports.UserStore] interface with the promises the service relies on, and
    the operations of [services.UserService].

    The store is an arbitrary state [W] with operations that may fail; its
    laws speak of the accounts it holds, [accounts w].  The credential codec
    (bcrypt and AES-GCM) and MD5 are parameters. *)
From stdpp Require Import base gmap strings list.
From Stdlib Require Import ZArith Lia.
From S2P Require Import Prelude GoStrings.

Open Scope Z_scope.

(** * Package [domain] *)

Definition UserRole := string.
Definition Permission := string.

Definition UserRoleAdmin : UserRole := "admin".
Definition UserRoleUser : UserRole := "user".

Definition PermissionDashboardAccess : Permission := "dashboard.access".
Definition PermissionMonitoringView : Permission := "monitoring.view".
Definition PermissionSourcesManage : Permission := "sources.manage".
Definition PermissionSoulseekSearch : Permission := "soulseek.search".
Definition PermissionSoulseekAdd : Permission := "soulseek.add".
Definition PermissionSoulseekClient : Permission := "soulseek.client-search".
Definition PermissionUsersManage : Permission := "users.manage".
Definition PermissionCatalogManage : Permission := "catalog.manage".

Definition availablePermissions : list Permission :=
  [PermissionDashboardAccess; PermissionMonitoringView; PermissionSourcesManage;
   PermissionSoulseekSearch; PermissionSoulseekAdd; PermissionSoulseekClient;
   PermissionUsersManage; PermissionCatalogManage].

Record User := mkUser {
  Username : string;
  Role : UserRole;
  Permissions : list Permission;
  CreatedAt : time;
  UpdatedAt : time;
}.

Definition IsAdmin (u : User) : bool := bool_decide (Role u = UserRoleAdmin).

(** The loop of [HasPermission]: [None] when it returned [true] early,
    otherwise whether [sources.manage] was met. *)
Fixpoint hasPermission_loop (permission : Permission) (l : list Permission) (hasSourceManagement : bool)
    : option bool :=
  match l with
  | [] => Some hasSourceManagement
  | candidate :: l' =>
      if bool_decide (candidate = permission) then None
      else hasPermission_loop permission l'
             (if bool_decide (candidate = PermissionSourcesManage) then true else hasSourceManagement)
  end.

Definition HasPermission (u : User) (permission : Permission) : bool :=
  if IsAdmin u then true
  else match hasPermission_loop permission (Permissions u) false with
       | None => true
       | Some hasSourceManagement =>
           hasSourceManagement &&
           (bool_decide (permission = PermissionSoulseekSearch) ||
            bool_decide (permission = PermissionSoulseekAdd))
       end.

Definition EffectivePermissions (u : User) : list Permission :=
  List.filter (HasPermission u) availablePermissions.

Definition ValidPermission (permission : Permission) : bool :=
  existsb (λ candidate, bool_decide (candidate = permission)) availablePermissions.

Lemma hasPermission_loop_spec permission l acc :
  hasPermission_loop permission l acc =
  if bool_decide (permission ∈ l) then None
  else Some (acc || bool_decide (PermissionSourcesManage ∈ l)).
Proof.
  revert acc. induction l as [|c l IH]; intros acc; cbn [hasPermission_loop].
  - rewrite bool_decide_eq_false_2, (bool_decide_eq_false_2 (_ ∈ [])) by set_solver.
    by rewrite orb_false_r.
  - destruct (decide (c = permission)) as [->|Hc].
    { by rewrite !bool_decide_eq_true_2 by set_solver. }
    rewrite (bool_decide_eq_false_2 (c = permission)), IH by done.
    rewrite (bool_decide_ext (permission ∈ c :: l) (permission ∈ l)) by set_solver.
    destruct (bool_decide (permission ∈ l)); [done|]. f_equal.
    destruct (decide (c = PermissionSourcesManage)) as [->|Hs].
    + rewrite !(bool_decide_eq_true_2 (_ = _)), (bool_decide_eq_true_2 (_ ∈ _ :: l)) by set_solver.
      by rewrite orb_true_r.
    + rewrite (bool_decide_eq_false_2 (c = _)) by done.
      by rewrite (bool_decide_ext (_ ∈ c :: l) (PermissionSourcesManage ∈ l)) by set_solver.
Qed.

(** What [HasPermission] decides. *)
Lemma HasPermission_true u p :
  HasPermission u p = true ↔
  IsAdmin u = true ∨ p ∈ Permissions u ∨
  (PermissionSourcesManage ∈ Permissions u ∧
   (p = PermissionSoulseekSearch ∨ p = PermissionSoulseekAdd)).
Proof.
  unfold HasPermission. rewrite hasPermission_loop_spec.
  destruct (IsAdmin u); [tauto|].
  destruct (decide (p ∈ Permissions u)) as [Hp|Hp];
    [rewrite bool_decide_eq_true_2 by done; tauto | rewrite (bool_decide_eq_false_2 _ Hp)].
  rewrite orb_false_l, andb_true_iff, orb_true_iff, !bool_decide_eq_true. naive_solver.
Qed.

Lemma ValidPermission_true p : ValidPermission p = true ↔ p ∈ availablePermissions.
Proof.
  unfold ValidPermission. rewrite existsb_exists. split.
  - intros (c & Hc & ->%bool_decide_eq_true). by apply list_elem_of_In.
  - intros H%list_elem_of_In. exists p. by rewrite bool_decide_eq_true.
Qed.

(** * Package [ports]: the user store *)

Definition bytes := list Z.

Record UserCredential := mkCredential {
  cred_User : User;
  PasswordHash : bytes;
  EncryptedToken : bytes;
}.

Class UserStore (W : Type) := {
  store_Users : M W (list User);
  store_UserCredential : string → M W UserCredential;
  store_CreateUser : UserCredential → M W unit;
  store_UpdateUserPassword : string → bytes → bytes → M W unit;
  store_UpdateUserPermissions : string → list Permission → M W unit;
  store_DeleteUser : string → M W unit;
}.

(** What the service relies on about one stored account; permissions count as a set. *)
Record account := mkAccount {
  acc_role : UserRole;
  acc_permissions : gset Permission;
  acc_hash : bytes;
  acc_token : bytes;
}.

Definition account_of (c : UserCredential) : account :=
  {| acc_role := Role (cred_User c);
     acc_permissions := list_to_set (Permissions (cred_User c));
     acc_hash := PasswordHash c; acc_token := EncryptedToken c |}.

Definition user_matches (u : User) (a : account) : Prop :=
  Role u = acc_role a ∧ list_to_set (Permissions u) = acc_permissions a.

(** The contract of the store: reads do not change the accounts, a failed
    call changes none, and a successful one has its documented effect. *)
Class UserStoreLaws (W : Type) `{UserStore W} := {
  accounts : W → gmap string account;
  law_Users w l w' : store_Users w = (Ok l, w') →
    accounts w' = accounts w ∧ NoDup (map Username l) ∧
    ∀ name, match accounts w !! name with
            | Some a => ∃ u, u ∈ l ∧ Username u = name ∧ user_matches u a
            | None => ∀ u, u ∈ l → Username u ≠ name
            end;
  law_UserCredential name w c w' : store_UserCredential name w = (Ok c, w') →
    accounts w' = accounts w ∧ Username (cred_User c) = name ∧
    accounts w !! name = Some (account_of c);
  law_CreateUser c w u w' : store_CreateUser c w = (Ok u, w') →
    accounts w !! Username (cred_User c) = None ∧
    accounts w' = <[Username (cred_User c) := account_of c]> (accounts w);
  law_UpdateUserPassword name h t w u w' : store_UpdateUserPassword name h t w = (Ok u, w') →
    ∃ a, accounts w !! name = Some a ∧
    accounts w' = <[name := mkAccount (acc_role a) (acc_permissions a) h t]> (accounts w);
  law_UpdateUserPermissions name ps w u w' : store_UpdateUserPermissions name ps w = (Ok u, w') →
    ∃ a, accounts w !! name = Some a ∧
    accounts w' = <[name := mkAccount (acc_role a) (list_to_set ps) (acc_hash a) (acc_token a)]>
                    (accounts w);
  law_DeleteUser name w u w' : store_DeleteUser name w = (Ok u, w') →
    is_Some (accounts w !! name) ∧ accounts w' = delete name (accounts w);
  law_Users_err w e w' : store_Users w = (Err e, w') → accounts w' = accounts w;
  law_UserCredential_err n w e w' : store_UserCredential n w = (Err e, w') → accounts w' = accounts w;
  law_CreateUser_err c w e w' : store_CreateUser c w = (Err e, w') → accounts w' = accounts w;
  law_UpdateUserPassword_err n h t w e w' :
    store_UpdateUserPassword n h t w = (Err e, w') → accounts w' = accounts w;
  law_UpdateUserPermissions_err n ps w e w' :
    store_UpdateUserPermissions n ps w = (Err e, w') → accounts w' = accounts w;
  law_DeleteUser_err n w e w' : store_DeleteUser n w = (Err e, w') → accounts w' = accounts w;
}.

(** The credential codec: [Encode] draws randomness. *)
Record CredentialCodec := mkCodec {
  Encode : Z → string → res (bytes * bytes);
  Verify : bytes → string → res unit;
  DecryptToken : bytes → res string;
}.

(** * Package [services]: the user service *)

Section service.
Context `{Unicode} `{Runtime} {W : Type} `{UserStore W}.
(** The codec; the randomness it draws; MD5 in lower-case hexadecimal. *)
Context (codec : CredentialCodec) (rnd : Z) (md5_hex : string → string).

Definition invalidUser (msg : string) : error :=
  Errorf "" (Sentinel ErrInvalidUser) (": " +:+ msg).

Definition username_rune_ok (r : Z) : bool :=
  IsLetter r || IsDigit r || bool_decide (r ∈ bytes_of "._-").

Definition normalizeUsername (value : string) : res string :=
  let value := ToLower (TrimSpace value) in
  let count := RuneCountInString value in
  if (count <? 1) || (count >? 64) then Err (invalidUser "username must contain 1 to 64 characters")
  else if forallb username_rune_ok (runes value) then Ok value
  else Err (invalidUser "username contains an unsupported character").

Definition validatePassword (password : string) : res unit :=
  if (len password <? 8) || (len password >? 72)
  then Err (invalidUser "password must contain 8 to 72 bytes") else Ok tt.

Fixpoint normalizePermissions_loop (seen : gset Permission) (l : list Permission)
    : res (list Permission) :=
  match l with
  | [] => Ok []
  | permission :: l' =>
      if negb (ValidPermission permission) then Err (invalidUser "unsupported permission")
      else if bool_decide (permission ∈ seen) then normalizePermissions_loop seen l'
      else rest ← normalizePermissions_loop ({[permission]} ∪ seen) l';
           Ok (permission :: rest)
  end.

Definition normalizePermissions (permissions : list Permission) : res (list Permission) :=
  result ← normalizePermissions_loop ∅ permissions;
  Ok (sort_slice str_ltb result).

Definition newCredential (now : time) (username password : string) (role : UserRole)
    (permissions : list Permission) : res UserCredential :=
  match Encode codec rnd password with
  | Err e => Err (Errorf "encode user credentials: " e "")
  | Ok (passwordHash, encryptedToken) =>
      Ok (mkCredential (mkUser username role permissions now now) passwordHash encryptedToken)
  end.

Definition EnsureBootstrapAdmin (now : time) (username password : string) : M W unit :=
  users ← wrap_err (λ e, Errorf "list users before bootstrap: " e "") store_Users;
  if negb (bool_decide (users = [])) then mret tt
  else
    username ← lift (normalizeUsername username);
    if bool_decide (password = "") || (len password >? 72)
    then throw (invalidUser "bootstrap password must contain 1 to 72 bytes")
    else
      credential ← lift (newCredential now username password UserRoleAdmin []);
      wrap_err (λ e, Errorf "create bootstrap administrator: " e "") (store_CreateUser credential).

Definition authFailed {A} : M W A := throw (Sentinel ErrAuthenticationFailed).

Definition AuthenticatePassword (username password : string) : M W User :=
  match normalizeUsername username with
  | Err _ => authFailed
  | Ok username =>
      credential ← wrap_err (λ _, Sentinel ErrAuthenticationFailed) (store_UserCredential username);
      match Verify codec (PasswordHash credential) password with
      | Err _ => authFailed
      | Ok _ => mret (cred_User credential)
      end
  end.

Definition is_hex (r : Z) : bool := between 48 57 r || between 97 102 r || between 65 70 r.

(** [hex.DecodeString] succeeds. *)
Definition hex_ok (s : string) : bool :=
  Nat.even (String.length s) && forallb is_hex (bytes_of s).

Definition AuthenticateToken (username token salt : string) : M W User :=
  match normalizeUsername username with
  | Err _ => authFailed
  | Ok username =>
      if bool_decide (salt = "") || negb (len token =? 32) then authFailed
      else if negb (hex_ok token) then authFailed
      else
        credential ← wrap_err (λ _, Sentinel ErrAuthenticationFailed) (store_UserCredential username);
        match DecryptToken codec (EncryptedToken credential) with
        | Err _ => authFailed
        | Ok password =>
            let expected := md5_hex (password +:+ salt) in
            if bool_decide (ToLower token = expected)
            then mret (cred_User credential) else authFailed
        end
  end.

Definition forbidden {A} : M W A := throw (Sentinel ErrForbidden).

Definition ListUsers (actor : User) : M W (list User) :=
  if negb (HasPermission actor PermissionUsersManage) then forbidden else store_Users.

Definition CreateUser (now : time) (actor : User) (username password : string)
    (role : UserRole) (permissions : list Permission) : M W User :=
  if negb (HasPermission actor PermissionUsersManage) then forbidden
  else
    username ← lift (normalizeUsername username);
    _ ← lift (validatePassword password);
    if negb (bool_decide (role = UserRoleAdmin)) && negb (bool_decide (role = UserRoleUser))
    then throw (invalidUser "role must be admin or user")
    else
      permissions ← lift (normalizePermissions permissions);
      if negb (IsAdmin actor) &&
         (negb (bool_decide (role = UserRoleUser)) || negb (bool_decide (permissions = [])))
      then forbidden
      else
        let permissions := if bool_decide (role = UserRoleAdmin) then [] else permissions in
        credential ← lift (newCredential now username password role permissions);
        _ ← store_CreateUser credential;
        mret (cred_User credential).

Definition UpdatePassword (actor : User) (username password : string) : M W unit :=
  username ← lift (normalizeUsername username);
  _ ← (if negb (bool_decide (Username actor = username)) then
         if negb (HasPermission actor PermissionUsersManage) then forbidden
         else
           target ← store_UserCredential username;
           if IsAdmin (cred_User target) && negb (IsAdmin actor) then forbidden else mret tt
       else mret tt);
  _ ← lift (validatePassword password);
  '(passwordHash, encryptedToken) ←
    wrap_err (λ e, Errorf "encode user credentials: " e "") (lift (Encode codec rnd password));
  store_UpdateUserPassword username passwordHash encryptedToken.

(** The guard loop of [DeleteUser]: is [username] the only administrator? *)
Fixpoint lastAdministrator (username : string) (users todo : list User) : bool :=
  match todo with
  | [] => false
  | user :: todo' =>
      if negb (bool_decide (Username user = username)) || negb (IsAdmin user)
      then lastAdministrator username users todo'
      else Z.of_nat (length (List.filter IsAdmin users)) =? 1
  end.

Definition DeleteUser (actor : User) (username : string) : M W unit :=
  if negb (HasPermission actor PermissionUsersManage) then forbidden
  else
    username ← lift (normalizeUsername username);
    if bool_decide (Username actor = username)
    then throw (invalidUser "users cannot delete their own account")
    else
      target ← store_UserCredential username;
      if IsAdmin (cred_User target) && negb (IsAdmin actor) then forbidden
      else
        users ← store_Users;
        if lastAdministrator username users users then throw (Sentinel ErrLastAdministrator)
        else store_DeleteUser username.

Definition UpdatePermissions (now : time) (actor : User) (username : string)
    (permissions : list Permission) : M W User :=
  if negb (IsAdmin actor) then forbidden
  else
    username ← lift (normalizeUsername username);
    permissions ← lift (normalizePermissions permissions);
    credential ← store_UserCredential username;
    let user := cred_User credential in
    if IsAdmin user then throw (invalidUser "administrator permissions cannot be restricted")
    else
      _ ← store_UpdateUserPermissions username permissions;
      mret (mkUser (Username user) (Role user) permissions (CreatedAt user) now).

(** Every call a client of the service can make. *)
Inductive user_call :=
  | CallBootstrap (now : time) (username password : string)
  | CallAuthenticatePassword (username password : string)
  | CallAuthenticateToken (username token salt : string)
  | CallUsers (actor : User)
  | CallCreateUser (now : time) (actor : User) (username password : string)
      (role : UserRole) (permissions : list Permission)
  | CallUpdatePassword (actor : User) (username password : string)
  | CallDeleteUser (actor : User) (username : string)
  | CallUpdatePermissions (now : time) (actor : User) (username : string)
      (permissions : list Permission).

Definition run_call (c : user_call) : M W unit :=
  match c with
  | CallBootstrap now u p => EnsureBootstrapAdmin now u p
  | CallAuthenticatePassword u p => _ ← AuthenticatePassword u p; mret tt
  | CallAuthenticateToken u t s => _ ← AuthenticateToken u t s; mret tt
  | CallUsers a => _ ← ListUsers a; mret tt
  | CallCreateUser now a u p r ps => _ ← CreateUser now a u p r ps; mret tt
  | CallUpdatePassword a u p => UpdatePassword a u p
  | CallDeleteUser a u => DeleteUser a u
  | CallUpdatePermissions now a u ps => _ ← UpdatePermissions now a u ps; mret tt
  end.

(** [UpdatePassword] reads and checks its target before it takes the
    service's mutex; only the write that ends it holds the mutex. *)
Definition password_write := (string * bytes * bytes)%type.

Definition UpdatePassword_check (actor : User) (username password : string) : M W password_write :=
  username ← lift (normalizeUsername username);
  _ ← (if negb (bool_decide (Username actor = username)) then
         if negb (HasPermission actor PermissionUsersManage) then forbidden
         else
           target ← store_UserCredential username;
           if IsAdmin (cred_User target) && negb (IsAdmin actor) then forbidden else mret tt
       else mret tt);
  _ ← lift (validatePassword password);
  '(passwordHash, encryptedToken) ←
    wrap_err (λ e, Errorf "encode user credentials: " e "") (lift (Encode codec rnd password));
  mret (username, passwordHash, encryptedToken).

Definition UpdatePassword_write (x : password_write) : M W unit :=
  store_UpdateUserPassword x.1.1 x.1.2 x.2.

Lemma UpdatePassword_split actor username password w :
  UpdatePassword actor username password w =
  (x ← UpdatePassword_check actor username password; UpdatePassword_write x) w.
Proof.
  unfold UpdatePassword, UpdatePassword_check, mbind, M_bind, lift, wrap_err, forbidden, throw.
  destruct (normalizeUsername username) as [n|e]; [|done].
  destruct (negb (bool_decide (Username actor = n))).
  - destruct (negb (HasPermission actor PermissionUsersManage)); [done|].
    destruct (store_UserCredential n w) as [[c|e] w1]; [|done].
    destruct (IsAdmin (cred_User c) && negb (IsAdmin actor)); [done|]. cbn.
    destruct (validatePassword password) as [?|?]; [|done].
    by destruct (Encode codec rnd password) as [[h t]|?].
  - cbn. destruct (validatePassword password) as [?|?]; [|done].
    by destruct (Encode codec rnd password) as [[h t]|?].
Qed.

(** The service with calls in flight: the store, and the password writes
    whose checks have passed and that wait for the mutex.  The mutex makes
    every other changing call's reads and writes of the store one step
    ([CreateUser] reads nothing before it); a password is checked in one step
    and written in a later one, with any calls of others in between. *)
Inductive user_step : W * list password_write → W * list password_write → Prop :=
  | user_step_call c w r w' ps :
      (∀ actor u p, c ≠ CallUpdatePassword actor u p) →
      run_call c w = (r, w') → user_step (w, ps) (w', ps)
  | user_step_check actor u p w r w' ps :
      UpdatePassword_check actor u p w = (r, w') →
      user_step (w, ps) (w', match r with Ok x => x :: ps | Err _ => ps end)
  | user_step_write ps x ps' w r w' :
      UpdatePassword_write x w = (r, w') → user_step (w, ps ++ x :: ps') (w', ps ++ ps').
End service.

(** * Authorization: what a call may do to the accounts *)

Definition is_admin_account (a : account) : bool := bool_decide (acc_role a = UserRoleAdmin).

Definition has_admin (m : gmap string account) : Prop :=
  ∃ name a, m !! name = Some a ∧ is_admin_account a = true.

Section spec.
Context `{Unicode} (codec : CredentialCodec) (rnd : Z).

(** The effect a successful call has on the accounts, with who may cause it. *)
Definition call_effect (c : user_call) (m m' : gmap string account) : Prop :=
  match c with
  | CallBootstrap _ username password =>
      (m ≠ ∅ ∧ m' = m) ∨
      (m = ∅ ∧ ∃ name h t, normalizeUsername username = Ok name ∧
         Encode codec rnd password = Ok (h, t) ∧
         m' = {[name := mkAccount UserRoleAdmin ∅ h t]})
  | CallCreateUser _ actor username password role permissions =>
      HasPermission actor PermissionUsersManage = true ∧
      8 ≤ len password ≤ 72 ∧
      (role = UserRoleAdmin ∨ role = UserRoleUser) ∧
      (IsAdmin actor = false → role = UserRoleUser ∧ permissions = []) ∧
      ∃ name h t, normalizeUsername username = Ok name ∧ m !! name = None ∧
        Encode codec rnd password = Ok (h, t) ∧
        m' = <[name := mkAccount role
               (if bool_decide (role = UserRoleAdmin) then ∅ else list_to_set permissions) h t]> m
  | CallUpdatePassword actor username password =>
      ∃ name a h t, normalizeUsername username = Ok name ∧ m !! name = Some a ∧
        8 ≤ len password ≤ 72 ∧ Encode codec rnd password = Ok (h, t) ∧
        (Username actor = name ∨
         (HasPermission actor PermissionUsersManage = true ∧
          (is_admin_account a = true → IsAdmin actor = true))) ∧
        m' = <[name := mkAccount (acc_role a) (acc_permissions a) h t]> m
  | CallDeleteUser actor username =>
      HasPermission actor PermissionUsersManage = true ∧
      ∃ name a, normalizeUsername username = Ok name ∧ m !! name = Some a ∧
        Username actor ≠ name ∧
        (is_admin_account a = true → IsAdmin actor = true ∧ has_admin (delete name m)) ∧
        m' = delete name m
  | CallUpdatePermissions _ actor username permissions =>
      IsAdmin actor = true ∧
      ∃ name a, normalizeUsername username = Ok name ∧ m !! name = Some a ∧
        is_admin_account a = false ∧ Forall (.∈ availablePermissions) permissions ∧
        m' = <[name := mkAccount (acc_role a) (list_to_set permissions) (acc_hash a) (acc_token a)]> m
  | CallAuthenticatePassword _ _ | CallAuthenticateToken _ _ _ | CallUsers _ => m' = m
  end.
End spec.

Section lemmas.
Context `{Unicode} `{Runtime} {W : Type} `{UserStoreLaws W}.
Context (codec : CredentialCodec) (rnd : Z) (md5_hex : string → string).

Lemma store_Users_read_only : read_only accounts store_Users.
Proof. intros w [l|e] w' E; [by apply law_Users in E as [? _] | by eapply law_Users_err]. Qed.

Lemma store_UserCredential_read_only n : read_only accounts (store_UserCredential n).
Proof.
  intros w [c|e] w' E; [by apply law_UserCredential in E as [? _] | by eapply law_UserCredential_err].
Qed.

Lemma store_CreateUser_clean c : fails_clean accounts (store_CreateUser c).
Proof. intros w e w' E. by eapply law_CreateUser_err. Qed.

Lemma store_UpdateUserPassword_clean n h t : fails_clean accounts (store_UpdateUserPassword n h t).
Proof. intros w e w' E. by eapply law_UpdateUserPassword_err. Qed.

Lemma store_UpdateUserPermissions_clean n ps :
  fails_clean accounts (store_UpdateUserPermissions n ps).
Proof. intros w e w' E. by eapply law_UpdateUserPermissions_err. Qed.

Lemma store_DeleteUser_clean n : fails_clean accounts (store_DeleteUser n).
Proof. intros w e w' E. by eapply law_DeleteUser_err. Qed.

Hint Resolve store_Users_read_only store_UserCredential_read_only store_CreateUser_clean
  store_UpdateUserPassword_clean store_UpdateUserPermissions_clean store_DeleteUser_clean : go.

(** The first half of a password change changes nothing. *)
Lemma UpdatePassword_check_read_only actor u p :
  read_only accounts (UpdatePassword_check codec rnd actor u p).
Proof. unfold UpdatePassword_check, forbidden. go_clean. Qed.

Lemma run_call_fails_clean c : fails_clean accounts (run_call codec rnd md5_hex c).
Proof.
  destruct c; cbn [run_call];
    unfold EnsureBootstrapAdmin, AuthenticatePassword, AuthenticateToken, ListUsers, CreateUser,
      UpdatePassword, DeleteUser, UpdatePermissions, authFailed, forbidden; go_clean.
Qed.

(** [normalizePermissions] accepts exactly the known permissions and sorts out the duplicates. *)
Lemma normalizePermissions_loop_Ok seen l l' :
  normalizePermissions_loop seen l = Ok l' →
  Forall (.∈ availablePermissions) l ∧ NoDup l' ∧
  ∀ p, p ∈ l' ↔ p ∈ l ∧ p ∉ seen.
Proof.
  revert seen l'. induction l as [|p l IH]; intros seen l'; cbn [normalizePermissions_loop].
  { intros [= <-]. split_and!; [constructor..|set_solver]. }
  destruct (ValidPermission p) eqn:Hv; [|done]. apply ValidPermission_true in Hv. simpl negb; cbv iota.
  destruct (decide (p ∈ seen)) as [Hp|Hp].
  - rewrite bool_decide_eq_true_2 by done. intros (? & ? & Hl)%IH.
    split_and!; [by constructor|done|]. intros q. rewrite Hl. set_solver.
  - rewrite bool_decide_eq_false_2 by done.
    destruct (normalizePermissions_loop _ l) as [rest|] eqn:E; [|done]. intros [= <-].
    apply IH in E as (? & ? & Hl). split_and!; [by constructor| |].
    + constructor; [|done]. rewrite Hl. set_solver.
    + intros q. rewrite elem_of_cons, Hl. destruct (decide (q = p)); set_solver.
Qed.

Lemma normalizePermissions_loop_total seen l :
  Forall (.∈ availablePermissions) l → ∃ l', normalizePermissions_loop seen l = Ok l'.
Proof.
  intros Hl. revert seen. induction Hl as [|p l Hp _ IH]; intros seen; cbn [normalizePermissions_loop];
    [eauto|].
  rewrite (proj2 (ValidPermission_true p) Hp). simpl negb. cbv iota.
  destruct (bool_decide (p ∈ seen)); [apply IH|].
  destruct (IH ({[p]} ∪ seen)) as [l' ->]. by eexists.
Qed.

Lemma normalizePermissions_Ok l l' :
  normalizePermissions l = Ok l' →
  Forall (.∈ availablePermissions) l ∧ NoDup l' ∧ sorted_by str_ltb l' ∧ ∀ p, p ∈ l' ↔ p ∈ l.
Proof.
  unfold normalizePermissions. destruct (normalizePermissions_loop ∅ l) as [k|] eqn:E; [|done].
  intros [= <-]. apply normalizePermissions_loop_Ok in E as (? & ? & Hk).
  split_and!; [done|by rewrite sort_slice_perm|apply sort_slice_sorted; auto with go|].
  intros p. rewrite sort_slice_perm, Hk. set_solver.
Qed.

Lemma normalizePermissions_set l l' :
  normalizePermissions l = Ok l' → (list_to_set l' : gset Permission) = list_to_set l.
Proof. intros (_ & _ & _ & Hl)%normalizePermissions_Ok. set_solver. Qed.

Lemma validatePassword_Ok p u : validatePassword p = Ok u → 8 ≤ len p ≤ 72.
Proof. unfold validatePassword. destruct (_ || _) eqn:E; [done|]. intros _. go_lia. Qed.

Lemma newCredential_Ok now name p role ps c :
  newCredential codec rnd now name p role ps = Ok c →
  ∃ h t, Encode codec rnd p = Ok (h, t) ∧ Username (cred_User c) = name ∧
         account_of c = mkAccount role (list_to_set ps) h t.
Proof.
  unfold newCredential. destruct (Encode codec rnd p) as [[h t]|]; [|done].
  intros [= <-]. eauto.
Qed.

(** The guard loop finds a last administrator exactly when it is one. *)
Lemma lastAdministrator_false name users todo u :
  lastAdministrator name users todo = false → u ∈ todo → Username u = name → IsAdmin u = true →
  length (List.filter IsAdmin users) ≠ 1%nat.
Proof.
  induction todo as [|v todo IH]; cbn [lastAdministrator]; [set_solver|].
  intros Hg Hu Hn Ha. destruct (decide (Username v = name)) as [Hv|Hv].
  - rewrite bool_decide_eq_true_2 in Hg by done. destruct (IsAdmin v) eqn:Hav; cbn in Hg; [lia|].
    apply IH; [done| |done..]. apply elem_of_cons in Hu as [->|]; [congruence|done].
  - rewrite bool_decide_eq_false_2 in Hg by done. cbn in Hg.
    apply IH; [done| |done..]. apply elem_of_cons in Hu as [->|]; [done|done].
Qed.

Lemma NoDup_map_inj {A B} (f : A → B) (l : list A) x y :
  NoDup (map f l) → x ∈ l → y ∈ l → f x = f y → x = y.
Proof.
  induction l as [|z l IH]; simpl; [set_solver|]. intros [Hz Hnd]%NoDup_cons Hx Hy E.
  apply elem_of_cons in Hx as [->|Hx], Hy as [->|Hy]; auto.
  - contradict Hz. rewrite E. by apply list_elem_of_In, in_map, list_elem_of_In.
  - contradict Hz. rewrite <- E. by apply list_elem_of_In, in_map, list_elem_of_In.
Qed.

Lemma another_admin users u :
  NoDup (map Username users) → u ∈ users → IsAdmin u = true →
  length (List.filter IsAdmin users) ≠ 1%nat →
  ∃ v, v ∈ users ∧ IsAdmin v = true ∧ Username v ≠ Username u.
Proof.
  intros Hnd Hu Ha Hlen.
  assert (u ∈ List.filter IsAdmin users) as Hin by (apply list_elem_of_In, filter_In;
    split; [by apply list_elem_of_In | done]).
  apply list_elem_of_split in Hin as (l1 & l2 & Hf).
  assert (∃ v, v ∈ l1 ++ l2) as [v Hv].
  { destruct (l1 ++ l2) as [|v l] eqn:E; [|exists v; set_solver].
    apply app_eq_nil in E as [-> ->]. by rewrite Hf in Hlen. }
  assert (v ∈ List.filter IsAdmin users) as Hvf by (rewrite Hf; set_solver).
  apply list_elem_of_In, filter_In in Hvf as [Hvu Hva]. apply list_elem_of_In in Hvu.
  exists v. split_and!; [done..|]. intros Heq.
  assert (NoDup (map Username (List.filter IsAdmin users))) as Hnf.
  { clear -Hnd. induction users as [|x l IH]; simpl in *; [constructor|].
    apply NoDup_cons in Hnd as [Hx Hnd]. destruct (IsAdmin x); simpl; [|auto].
    constructor; [|auto]. contradict Hx. apply list_elem_of_In, in_map_iff in Hx as (y & <- & Hy).
    apply filter_In in Hy as [Hy _]. by apply list_elem_of_In, in_map. }
  rewrite Hf, map_app in Hnf. simpl in Hnf. apply NoDup_app in Hnf as (_ & Hd & Hn).
  apply NoDup_cons in Hn as [Hn _].
  apply elem_of_app in Hv as [Hv|Hv]; apply list_elem_of_In, (in_map Username), list_elem_of_In in Hv;
    rewrite Heq in Hv; [|done].
  by apply (Hd _ Hv); constructor.
Qed.

Ltac view_eqs :=
  repeat match goal with
  | E : store_Users _ = (Ok _, _) |- _ => apply law_Users in E as (? & ? & ?)
  | E : store_UserCredential _ _ = (Ok _, _) |- _ => apply law_UserCredential in E as (? & ? & ?)
  end.

Lemma EnsureBootstrapAdmin_effect now u p w w' :
  EnsureBootstrapAdmin codec rnd now u p w = (Ok tt, w') →
  call_effect codec rnd (CallBootstrap now u p) (accounts w) (accounts w').
Proof.
  unfold EnsureBootstrapAdmin. intros E. inv_ok E; view_eqs; cbn [call_effect].
  - left. split; [|done]. destruct a as [|u0 l]; [done|]. intros Hnil.
    match goal with X : ∀ _, _ |- _ => specialize (X (Username u0)) end.
    rewrite Hnil, lookup_empty in *. set_solver.
  - destruct (bool_decide_reflect (a = [])) as [->|]; [|done].
    assert (accounts w = ∅) as Hw.
    { apply map_eq. intros name. rewrite lookup_empty.
      match goal with X : ∀ _, _ |- _ => specialize (X name) end.
      destruct (accounts w !! name); [|done]. set_solver. }
    right. split; [done|].
    match goal with X : newCredential _ _ _ _ _ _ _ = _ |- _ =>
      apply newCredential_Ok in X as (h & t & He & Hu & Ha) end.
    apply law_CreateUser in E as (_ & ->). exists a0, h, t. split_and!; [done..|].
    rewrite Hu, Ha. match goal with X : accounts _ = _ |- _ => rewrite X end. by rewrite Hw.
Qed.

Lemma CreateUser_effect now actor u p role ps v w w' :
  CreateUser codec rnd now actor u p role ps w = (Ok v, w') →
  call_effect codec rnd (CallCreateUser now actor u p role ps) (accounts w) (accounts w').
Proof.
  unfold CreateUser, forbidden. intros E. inv_ok E. cbn [call_effect].
  apply validatePassword_Ok in Hm0.
  pose proof (normalizePermissions_set _ _ Hm1) as Hset.
  apply normalizePermissions_Ok in Hm1 as (_ & _ & _ & Hmem).
  apply newCredential_Ok in Hm2 as (h & t & He & Hu & Ha).
  apply law_CreateUser in Hm3 as [Hfree ->]. rewrite Hu in *.
  assert (role = UserRoleAdmin ∨ role = UserRoleUser) as Hrole.
  { destruct (bool_decide_reflect (role = UserRoleAdmin)); [auto|].
    destruct (bool_decide_reflect (role = UserRoleUser)); [auto|done]. }
  split_and!; [by destruct (HasPermission actor _)|lia..|done| |].
  - intros Hna. rewrite Hna in *. simpl in *. destruct (bool_decide_reflect (role = UserRoleUser)); [|done].
    split; [done|]. destruct (bool_decide_reflect (a1 = [])) as [->|]; [|done].
    destruct ps as [|q ps]; [done|]. exfalso. pose proof (proj2 (Hmem q)). set_solver.
  - exists a, h, t. split_and!; [done..|]. rewrite Ha. f_equal. f_equal.
    destruct (bool_decide _); [done|apply Hset].
Qed.

Lemma UpdatePassword_effect actor u p w w' :
  UpdatePassword codec rnd actor u p w = (Ok tt, w') →
  call_effect codec rnd (CallUpdatePassword actor u p) (accounts w) (accounts w').
Proof.
  unfold UpdatePassword, forbidden. intros E. inv_ok E; cbn [call_effect].
  all: try match goal with X : Encode _ _ _ = Ok _ |- _ => idtac end.
  all: match goal with X : validatePassword _ = Ok _ |- _ => apply validatePassword_Ok in X end.
  all: apply law_UpdateUserPassword in E as (acc & Hacc & ->); view_eqs.
  all: try match goal with X : accounts ?s = accounts ?w |- _ => rewrite X in * end.
  all: eexists _, acc, _, _; split_and!; try done; try lia; try by eauto.
  - destruct (bool_decide_reflect (Username actor = a)); [by left|]. simpl in *. right.
    split; [by destruct (HasPermission actor _)|]. intros Hadm.
    destruct (IsAdmin actor); [done|]. exfalso.
    match goal with X : _ !! a = Some (account_of ?c), Y : _ !! a = Some acc |- _ =>
      rewrite X in Y; injection Y as <- end.
    unfold is_admin_account, account_of in Hadm. simpl in Hadm.
    unfold IsAdmin in *. by rewrite Hadm in *.
  - left. by destruct (bool_decide_reflect (Username actor = a)).
Qed.

Lemma DeleteUser_effect actor u w w' :
  DeleteUser actor u w = (Ok tt, w') →
  call_effect codec rnd (CallDeleteUser actor u) (accounts w) (accounts w').
Proof.
  unfold DeleteUser, forbidden. intros E. inv_ok E. cbn [call_effect].
  destruct (bool_decide_reflect (Username actor = a)) as [|Hne]; [done|].
  apply law_DeleteUser in E as (_ & ->).
  apply law_UserCredential in Hm0 as (Hs0 & Hname & Hacc).
  apply law_Users in Hm1 as (Hs1 & Hnd & Hall). rewrite Hs1, Hs0 in *.
  split; [by destruct (HasPermission actor _)|].
  eexists a, _. split_and!; [done|exact Hacc|done| |done].
  unfold is_admin_account. cbn [acc_role account_of]. intros Hadm.
  assert (IsAdmin (cred_User a0) = true) as Hadm' by exact Hadm. rewrite Hadm' in *.
  split; [by destruct (IsAdmin actor)|].
  pose proof (Hall a) as Ha. rewrite Hacc in Ha. destruct Ha as (ua & Hua & Hna & Hra & _).
  assert (IsAdmin ua = true) as Huadm.
  { unfold IsAdmin in *. cbn [acc_role account_of] in Hra. by rewrite Hra. }
  destruct (another_admin a1 ua) as (v & Hv & Hva & Hvn); [done..| |].
  { by eapply lastAdministrator_false. }
  pose proof (Hall (Username v)) as Hvacc.
  destruct (accounts w !! Username v) as [b|] eqn:Eb; [|by destruct (Hvacc v Hv)].
  destruct Hvacc as (v' & Hv' & Hn' & Hr' & _).
  assert (v' = v) as ->.
  { apply (NoDup_map_inj Username a1); auto. }
  exists (Username v), b. split.
  - rewrite lookup_delete_ne; [done|congruence].
  - unfold is_admin_account. by rewrite <- Hr'.
Qed.

Lemma UpdatePermissions_effect now actor u ps v w w' :
  UpdatePermissions now actor u ps w = (Ok v, w') →
  call_effect codec rnd (CallUpdatePermissions now actor u ps) (accounts w) (accounts w').
Proof.
  unfold UpdatePermissions, forbidden. intros E. inv_ok E. cbn [call_effect].
  pose proof (normalizePermissions_set _ _ Hm0) as Hset.
  apply normalizePermissions_Ok in Hm0 as (Hv & _).
  apply law_UserCredential in Hm1 as (Hs1 & _ & Hacc).
  apply law_UpdateUserPermissions in Hm2 as (acc & Hacc' & ->). rewrite Hs1 in *.
  rewrite Hacc in Hacc'. injection Hacc' as <-.
  split; [by destruct (IsAdmin actor)|]. eexists a, _.
  split_and!; [done|exact Hacc|done|done|]. by rewrite Hset.
Qed.

Lemma run_call_effect c w w' :
  run_call codec rnd md5_hex c w = (Ok tt, w') →
  call_effect codec rnd c (accounts w) (accounts w').
Proof.
  destruct c; cbn [run_call]; intros E.
  - by apply EnsureBootstrapAdmin_effect.
  - inv_ok E. unfold AuthenticatePassword, authFailed in Hm. inv_ok Hm; view_eqs; done.
  - inv_ok E. unfold AuthenticateToken, authFailed in Hm. inv_ok Hm; view_eqs; done.
  - inv_ok E. unfold ListUsers, forbidden in Hm. inv_ok Hm; view_eqs; done.
  - inv_ok E. by eapply CreateUser_effect.
  - by eapply UpdatePassword_effect.
  - by eapply DeleteUser_effect.
  - inv_ok E. by eapply UpdatePermissions_effect.
Qed.
End lemmas.
