(* ===== verification/SqlUsers.v ===== *)
(** The user tables of [adapters/storage/sqlite/users.go] and the proof that
    they keep the contract of [ports.UserStore]. *)
From stdpp Require Import base gmap strings list.
From Stdlib Require Import ZArith Lia.
From S2P Require Import Prelude GoStrings Sql Users.

Open Scope Z_scope.

(** Table [users] by its primary key.  The rows of [user_permissions] of a user
    are kept with the user: their foreign key (ON DELETE CASCADE, enforced by
    [PRAGMA foreign_keys]) lets them exist only there. *)
Record user_row := mkUserRow {
  row_role : string;
  row_hash : bytes;
  row_token : bytes;
  row_created : time;
  row_updated : time;
  row_permissions : gset Permission;
}.

Notation user_tables := (gmap string user_row).

Section sqlite.
Context `{Runtime} (now : time).

Definition user_of_row (name : string) (r : user_row) : User :=
  mkUser name (row_role r) [] (row_created r) (row_updated r).

(** The rows of [SELECT username, permission ... ORDER BY LOWER(username), permission]. *)
Definition permission_rows (t : user_tables) : list (string * Permission) :=
  sort_slice (λ x y, str_ltb (sql_lower x.1) (sql_lower y.1) ||
                     (bool_decide (sql_lower x.1 = sql_lower y.1) && str_ltb x.2 y.2))
    (concat (map (λ x, map (pair x.1) (elements (row_permissions x.2))) (map_range t))).

Definition append_permission (users : list User) (row : string * Permission) : list User :=
  map (λ u, if bool_decide (Username u = row.1)
            then mkUser (Username u) (Role u) (Permissions u ++ [row.2]) (CreatedAt u) (UpdatedAt u)
            else u) users.

Definition loadUserPermissions (users : list User) : M (database user_tables) (list User) :=
  if bool_decide (users = []) then mret []
  else
    rows ← wrap_err (λ e, Errorf "query user permissions: " e "") (QueryContext permission_rows);
    mret (fold_left append_permission rows users).

Definition sqlUsers : M (database user_tables) (list User) :=
  users ← wrap_err (λ e, Errorf "query users: " e "")
    (QueryContext (λ t, sort_slice (λ x y, str_ltb (sql_lower (Username x)) (sql_lower (Username y)))
       (map (λ x, user_of_row x.1 x.2) (map_range t))));
  loadUserPermissions users.

Definition sqlUserCredential (username : string) : M (database user_tables) UserCredential :=
  row ← wrap_err (λ e, Errorf "query user credential: " e "")
    (QueryContext (λ t : user_tables, t !! username));
  match row with
  | None => throw (Sentinel ErrNotFound)
  | Some r =>
      users ← loadUserPermissions [user_of_row username r];
      match users with
      | user :: _ => mret (mkCredential user (row_hash r) (row_token r))
      | [] => throw (Plain "index out of range")
      end
  end.

(** [INSERT INTO user_permissions]: the primary key refuses a duplicate, the
    foreign key an unknown user. *)
Definition insertUserPermission (username : string) (p : Permission)
    : M (database user_tables) unit :=
  wrap_err (λ e, Errorf ("insert user permission " +:+ p +:+ ": ") e "")
    (statement (λ t : user_tables, match t !! username with
       | None => Err (Plain "FOREIGN KEY constraint failed")
       | Some r =>
           if bool_decide (p ∈ row_permissions r) then Err (Plain "UNIQUE constraint failed")
           else Ok (tt, <[username := mkUserRow (row_role r) (row_hash r) (row_token r)
                    (row_created r) (row_updated r) ({[p]} ∪ row_permissions r)]> t)
       end)).

Definition insertUserPermissions (username : string) (ps : list Permission)
    : M (database user_tables) unit := miter (insertUserPermission username) ps.

(** The rows-affected check after an UPDATE or DELETE of one row. *)
Definition update_row (what username : string) (f : user_row → option user_row)
    : M (database user_tables) unit :=
  changed ← wrap_err (λ e, Errorf (what +:+ ": ") e "")
    (statement (λ t : user_tables, match t !! username with
       | None => Ok (0, t)
       | Some r => Ok (1, partial_alter (λ _, f r) username t)
       end));
  if changed =? 0 then throw (Sentinel ErrNotFound) else mret tt.

Definition sqlCreateUser (c : UserCredential) : M (database user_tables) unit :=
  let u := cred_User c in
  transaction (λ e, Errorf "begin user creation: " e "") (λ e, Errorf "commit user creation: " e "")
    (changed ← wrap_err (λ e, Errorf "create user: " e "")
       (statement (λ t : user_tables,
          if negb (bool_decide (Role u = UserRoleAdmin)) && negb (bool_decide (Role u = UserRoleUser))
          then Err (Plain "CHECK constraint failed")
          else match t !! Username u with
               | Some _ => Ok (0, t)
               | None => Ok (1, <[Username u := mkUserRow (Role u) (PasswordHash c) (EncryptedToken c)
                                    (CreatedAt u) (UpdatedAt u) ∅]> t)
               end));
     if changed =? 0 then throw (Sentinel ErrAlreadyExists)
     else insertUserPermissions (Username u) (Permissions u)).

Definition sqlUpdateUserPassword (username : string) (h t : bytes) : M (database user_tables) unit :=
  update_row "update user password" username
    (λ r, Some (mkUserRow (row_role r) h t (row_created r) now (row_permissions r))).

Definition sqlDeleteUser (username : string) : M (database user_tables) unit :=
  update_row "delete user" username (λ _, None).

Definition sqlUpdateUserPermissions (username : string) (ps : list Permission)
    : M (database user_tables) unit :=
  transaction (λ e, Errorf "begin user permission update: " e "")
    (λ e, Errorf "commit user permission update: " e "")
    (_ ← update_row "touch updated user permissions" username
       (λ r, Some (mkUserRow (row_role r) (row_hash r) (row_token r) (row_created r) now
                     (row_permissions r)));
     _ ← wrap_err (λ e, Errorf "clear user permissions: " e "")
       (ExecContext (alter (λ r, mkUserRow (row_role r) (row_hash r) (row_token r) (row_created r)
                                   (row_updated r) ∅) username));
     insertUserPermissions username ps).

Definition sqlUserStore : UserStore (database user_tables) := {|
  store_Users := sqlUsers;
  store_UserCredential := sqlUserCredential;
  store_CreateUser := sqlCreateUser;
  store_UpdateUserPassword := sqlUpdateUserPassword;
  store_UpdateUserPermissions := sqlUpdateUserPermissions;
  store_DeleteUser := sqlDeleteUser;
|}.

#[local] Existing Instance sqlUserStore.

(** * The contract *)

Definition account_of_row (r : user_row) : account :=
  mkAccount (row_role r) (row_permissions r) (row_hash r) (row_token r).

Definition sql_accounts (d : database user_tables) : gmap string account :=
  account_of_row <$> tables d.

Lemma view_clean {A} (m : M (database user_tables) A) :
  fails_clean tables m → fails_clean sql_accounts m.
Proof. intros Hm d e d' E. unfold sql_accounts. by rewrite (Hm _ _ _ E). Qed.

Lemma view_read_only {A} (m : M (database user_tables) A) :
  read_only tables m → read_only sql_accounts m.
Proof. intros Hm d r d' E. unfold sql_accounts. by rewrite (Hm _ _ _ E). Qed.

Lemma sqlUsers_read_only : read_only tables sqlUsers.
Proof. unfold sqlUsers, loadUserPermissions. go_clean. Qed.

Lemma sqlUserCredential_read_only n : read_only tables (sqlUserCredential n).
Proof. unfold sqlUserCredential, loadUserPermissions. go_clean. Qed.

Lemma update_row_clean what n f : fails_clean tables (update_row what n f).
Proof.
  intros d e d'. unfold update_row, mbind, M_bind, wrap_err.
  destruct (statement _ d) as [[c|e1] d1] eqn:E.
  - apply statement_Ok in E. destruct (tables d !! n); injection E as <- E; simpl; [done|].
    intros [= <- <-]. congruence.
  - intros [= <- <-]. by eapply statement_clean.
Qed.

Lemma update_row_Ok what n f d u d' :
  update_row what n f d = (Ok u, d') →
  ∃ r, tables d !! n = Some r ∧ tables d' = partial_alter (λ _, f r) n (tables d).
Proof.
  unfold update_row. intros E. inv_ok E. apply statement_Ok in Hm.
  destruct (tables d !! n) as [r|]; injection Hm as Ha Ht; subst; [|done]. eauto.
Qed.

(** The permissions loaded for a user are the rows of the user. *)
Lemma append_permissions_spec rows users :
  fold_left append_permission rows users =
  map (λ u, mkUser (Username u) (Role u)
         (Permissions u ++ map snd (List.filter (λ x, bool_decide (Username u = x.1)) rows))
         (CreatedAt u) (UpdatedAt u)) users.
Proof.
  revert users. induction rows as [|x rows IH]; intros users; simpl.
  - rewrite <- (map_id users) at 1. apply map_ext. intros []. by rewrite app_nil_r.
  - rewrite IH. unfold append_permission. rewrite map_map. apply map_ext. intros [name role ps c up].
    simpl. destruct (bool_decide (name = x.1)); simpl; [|done]. by rewrite <- app_assoc.
Qed.

Lemma permission_rows_elem t name p :
  (name, p) ∈ permission_rows t ↔ ∃ r, t !! name = Some r ∧ p ∈ row_permissions r.
Proof.
  unfold permission_rows. rewrite sort_slice_perm. rewrite list_elem_of_In, in_concat. split.
  - intros (l & Hl & Hp). apply in_map_iff in Hl as ([n r] & <- & Hr). simpl in Hp.
    apply in_map_iff in Hp as (q & [= -> ->] & Hq).
    apply list_elem_of_In in Hr. rewrite map_range_perm, elem_of_map_to_list in Hr.
    apply list_elem_of_In, elem_of_elements in Hq. eauto.
  - intros (r & Hr & Hp). exists (map (pair name) (elements (row_permissions r))). split.
    + apply in_map_iff. exists (name, r). split; [done|].
      apply list_elem_of_In. by rewrite map_range_perm, elem_of_map_to_list.
    + apply in_map_iff. exists p. split; [done|]. by apply list_elem_of_In, elem_of_elements.
Qed.

Lemma loaded_permissions t name r :
  t !! name = Some r →
  list_to_set (map snd (List.filter (λ x, bool_decide (name = x.1)) (permission_rows t)))
  = row_permissions r.
Proof.
  intros Hr. apply set_eq. intros p. rewrite elem_of_list_to_set, list_elem_of_In, in_map_iff. split.
  - intros ([n q] & <- & Hq). apply filter_In in Hq as [Hq Hn]. simpl in *.
    apply bool_decide_eq_true in Hn as <-. apply list_elem_of_In, permission_rows_elem in Hq.
    destruct Hq as (r' & Hr' & Hq). congruence.
  - intros Hp. exists (name, p). split; [done|]. apply filter_In.
    rewrite bool_decide_eq_true. split; [|done].
    apply list_elem_of_In, permission_rows_elem. eauto.
Qed.

Lemma insertUserPermissions_Ok name ps d u d' r :
  insertUserPermissions name ps d = (Ok u, d') → tables d !! name = Some r →
  tables d' = <[name := mkUserRow (row_role r) (row_hash r) (row_token r) (row_created r)
                 (row_updated r) (list_to_set ps ∪ row_permissions r)]> (tables d).
Proof.
  unfold insertUserPermissions. revert d r. induction ps as [|p ps IH]; intros d r E Hr; simpl in E.
  - inv_ok E. rewrite insert_id; [done|]. rewrite Hr. destruct r; simpl. f_equal. f_equal. set_solver.
  - inv_ok E. unfold insertUserPermission in Hm. inv_ok Hm.
    apply statement_Ok in Hm. rewrite Hr in Hm.
    destruct (bool_decide _); [done|]. injection Hm as Ha Hs. symmetry in Hs.
    eapply IH in E as ->; [|rewrite Hs; apply lookup_insert_eq]. rewrite Hs, insert_insert_eq.
    simpl. f_equal. f_equal. set_solver.
Qed.

Lemma loadUserPermissions_Ok users d l d' :
  loadUserPermissions users d = (Ok l, d') →
  tables d' = tables d ∧ l = fold_left append_permission (permission_rows (tables d)) users.
Proof.
  unfold loadUserPermissions. intros E. inv_ok E.
  - destruct (bool_decide_reflect (users = [])) as [->|]; [|done]. split; [done|].
    by rewrite append_permissions_spec.
  - by apply QueryContext_Ok in Hm as [-> ->].
Qed.

Lemma sqlUserCredential_Ok name d c d' :
  sqlUserCredential name d = (Ok c, d') →
  tables d' = tables d ∧ Username (cred_User c) = name ∧
  ∃ r, tables d !! name = Some r ∧ account_of c = account_of_row r.
Proof.
  unfold sqlUserCredential. intros E. inv_ok E.
  apply QueryContext_Ok in Hm as [Ha Hs]. apply loadUserPermissions_Ok in Hm0 as [Hs0 Hl].
  rewrite append_permissions_spec in Hl. simpl in Hl. injection Hl as -> ->.
  rewrite Hs0, Hs. split_and!; [done..|]. exists u. split; [done|].
  unfold account_of, account_of_row. simpl. by rewrite (loaded_permissions _ _ u) by done.
Qed.

Lemma sqlUsers_Ok d l d' :
  sqlUsers d = (Ok l, d') →
  tables d' = tables d ∧
  ∃ users, users ≡ₚ map (λ x, user_of_row x.1 x.2) (map_to_list (tables d)) ∧
           l = fold_left append_permission (permission_rows (tables d)) users.
Proof.
  unfold sqlUsers. intros E. inv_ok E. apply QueryContext_Ok in Hm as [-> Hs].
  apply loadUserPermissions_Ok in E as [Hs' ->]. rewrite Hs', Hs. split; [done|].
  eexists. split; [|done]. by rewrite sort_slice_perm, map_range_perm.
Qed.

Lemma sqlUsers_spec d l d' :
  sqlUsers d = (Ok l, d') →
  tables d' = tables d ∧ NoDup (map Username l) ∧
  ∀ name, match tables d !! name with
          | Some r => ∃ u, u ∈ l ∧ Username u = name ∧ user_matches u (account_of_row r)
          | None => ∀ u, u ∈ l → Username u ≠ name
          end.
Proof.
  intros E. apply sqlUsers_Ok in E as (Hs & users & Hu & ->). split; [done|].
  rewrite append_permissions_spec. split.
  - rewrite map_map. simpl. rewrite Hu, map_map. simpl.
    apply NoDup_fst_map_to_list.
  - intros name. destruct (tables d !! name) as [r|] eqn:Er.
    + eexists. split; [apply list_elem_of_In, in_map, list_elem_of_In; rewrite Hu;
        apply list_elem_of_In, (in_map (λ x, user_of_row x.1 x.2) _ (name, r)), list_elem_of_In;
        by apply elem_of_map_to_list|].
      split; [done|]. split; [done|]. simpl. by apply loaded_permissions.
    + intros u Hin%list_elem_of_In <-. apply in_map_iff in Hin as (v & <- & Hv).
      apply list_elem_of_In in Hv. rewrite Hu in Hv.
      apply list_elem_of_In, in_map_iff in Hv as ([n r] & <- & Hv). simpl in *.
      apply list_elem_of_In, elem_of_map_to_list in Hv. congruence.
Qed.

Ltac by_fmap :=
  unfold sql_accounts;
  repeat match goal with
  | X : tables ?x = _ |- context [tables ?x] => rewrite X
  end;
  rewrite ?fmap_insert, ?fmap_delete, ?lookup_fmap.

Lemma sqlCreateUser_Ok c d u d' :
  sqlCreateUser c d = (Ok u, d') →
  sql_accounts d !! Username (cred_User c) = None ∧
  sql_accounts d' = <[Username (cred_User c) := account_of c]> (sql_accounts d).
Proof.
  unfold sqlCreateUser. intros (d1 & d2 & Hd1 & E & Hd2)%transaction_Ok. inv_ok E.
  apply statement_Ok in Hm. rewrite Hd1 in Hm.
  destruct (negb _ && negb _); [done|].
  destruct (tables d !! Username (cred_User c)) as [r|] eqn:Er; injection Hm as <- Hs; [done|].
  symmetry in Hs. eapply insertUserPermissions_Ok in E; [|rewrite Hs; apply lookup_insert_eq].
  rewrite Hs, insert_insert_eq in E. simpl in E. by_fmap. rewrite Er.
  split; [done|]. f_equal. unfold account_of_row, account_of. simpl. f_equal. set_solver.
Qed.

Lemma sqlUpdateUserPermissions_Ok n ps d u d' :
  sqlUpdateUserPermissions n ps d = (Ok u, d') →
  ∃ a, sql_accounts d !! n = Some a ∧
  sql_accounts d' = <[n := mkAccount (acc_role a) (list_to_set ps) (acc_hash a) (acc_token a)]>
                     (sql_accounts d).
Proof.
  unfold sqlUpdateUserPermissions. intros (d1 & d2 & Hd1 & E & Hd2)%transaction_Ok. inv_ok E.
  apply update_row_Ok in Hm as (r & Hr & Hs). rewrite Hd1 in *.
  apply ExecContext_Ok in Hm0. rewrite Hs in Hm0.
  change (partial_alter (λ _, Some ?x) n (tables d)) with (<[n:=x]> (tables d)) in Hm0.
  rewrite alter_insert_eq in Hm0.
  eapply insertUserPermissions_Ok in E; [|rewrite Hm0; apply lookup_insert_eq].
  rewrite Hm0, insert_insert_eq in E. simpl in E. exists (account_of_row r). by_fmap.
  rewrite Hr. split; [done|]. f_equal. unfold account_of_row. simpl.
  f_equal. set_solver.
Qed.

Definition sqlUserStore_laws : UserStoreLaws (database user_tables).
Proof.
  refine {| accounts := sql_accounts |}; cbn [store_Users store_UserCredential store_CreateUser
    store_UpdateUserPassword store_UpdateUserPermissions store_DeleteUser sqlUserStore].
  - intros w l w' (Hs & Hnd & Hl)%sqlUsers_spec. by_fmap. split_and!; [done..|].
    intros name. specialize (Hl name). rewrite lookup_fmap. by destruct (tables w !! name).
  - intros name w c w' (Hs & Hn & r & Hr & Hc)%sqlUserCredential_Ok. by_fmap.
    split_and!; [done..|]. by rewrite Hr, Hc.
  - intros c w u w'. apply sqlCreateUser_Ok.
  - intros n h t w u w' (r & Hr & Hs)%update_row_Ok. exists (account_of_row r).
    change (partial_alter (λ _, Some ?x) n ?m) with (<[n:=x]> m) in Hs. by_fmap.
    by rewrite Hr.
  - intros n ps w u w'. apply sqlUpdateUserPermissions_Ok.
  - intros n w u w' (r & Hr & Hs)%update_row_Ok.
    change (partial_alter (λ _, None) n ?m) with (delete n m) in Hs. by_fmap.
    rewrite Hr. split; [by eexists|done].
  - intros w e w' E. by apply (view_read_only _ sqlUsers_read_only) in E.
  - intros n w e w' E. by apply (view_read_only _ (sqlUserCredential_read_only n)) in E.
  - intros c w e w'. apply view_clean, transaction_clean.
  - intros n h t w e w'. apply view_clean, update_row_clean.
  - intros n ps w e w'. apply view_clean, transaction_clean.
  - intros n w e w'. apply view_clean, update_row_clean.
Defined.
End sqlite.
