(* ===== verification/UserTheorems.v ===== *)
(** Properties of the user service over any store that keeps its contract, and
    of the service on the SQLite tables. *)
From stdpp Require Import base gmap strings list relations.
From Stdlib Require Import ZArith Lia.
From S2P Require Import Prelude GoStrings Sql Users SqlUsers.

Open Scope Z_scope.

(** Who makes a call; the bootstrap and the logins are made by nobody. *)
Definition call_actor (c : user_call) : option User :=
  match c with
  | CallUsers actor | CallCreateUser _ actor _ _ _ _ | CallUpdatePassword actor _ _
  | CallDeleteUser actor _ | CallUpdatePermissions _ actor _ _ => Some actor
  | _ => None
  end.

Definition permissions_at (m : gmap string account) (name : string) : gset Permission :=
  match m !! name with Some a => acc_permissions a | None => ∅ end.

Section properties.
Context `{Unicode} `{Runtime} {W : Type} `{UserStoreLaws W}.
Context (codec : CredentialCodec) (rnd : Z) (md5_hex : string → string).

(** C1. Every call of the user service, on every branch: a call that fails
    changes no account, and a call that succeeds has exactly the effect
    [call_effect] allows to its caller (permission to manage users, the role
    and permissions a delegated manager may hand out, protection of
    administrators, password and permission validation included). *)
Theorem user_calls_refine_specification c w r w' :
  run_call codec rnd md5_hex c w = (r, w') →
  match r with
  | Ok _ => call_effect codec rnd c (accounts w) (accounts w')
  | Err _ => accounts w' = accounts w
  end.
Proof.
  intros E. destruct r as [[]|e]; [by apply (run_call_effect codec rnd md5_hex) in E|].
  by eapply run_call_fails_clean.
Qed.

Lemma effect_has_admin c m m' :
  call_effect codec rnd c m m' → has_admin m → has_admin m'.
Proof.
  intros He (n & a & Hn & Ha).
  assert (∀ name b, is_admin_account b = true ∨ name ≠ n → has_admin (<[name := b]> m)) as Hins.
  { intros name b Hb. destruct (decide (name = n)) as [->|Hne].
    - exists n, b. rewrite lookup_insert_eq. intuition.
    - exists n, a. by rewrite lookup_insert_ne. }
  destruct c; cbn [call_effect] in He; try (rewrite He; by exists n, a).
  - destruct He as [[_ ->]|[-> _]]; [by exists n, a|done].
  - destruct He as (_ & _ & _ & _ & name & h & t & _ & Hfree & _ & ->).
    apply Hins. right. congruence.
  - destruct He as (name & b & h & t & _ & Hb & _ & _ & _ & ->). apply Hins.
    destruct (decide (name = n)) as [->|]; [|by right]. left.
    rewrite Hn in Hb. by injection Hb as <-.
  - destruct He as (_ & name & b & _ & Hb & _ & Hadm & ->).
    destruct (decide (name = n)) as [->|Hne].
    + rewrite Hn in Hb. injection Hb as <-. by apply Hadm.
    + exists n, a. by rewrite lookup_delete_ne.
  - destruct He as (_ & name & b & _ & Hb & Hna & _ & ->). apply Hins.
    right. intros ->. rewrite Hn in Hb. injection Hb as <-. congruence.
Qed.

(** What a password write does to the accounts whenever it comes to run: the
    role and the permissions are those of that moment. *)
Lemma UpdatePassword_write_accounts x w r w' :
  UpdatePassword_write x w = (r, w') →
  accounts w' = accounts w ∨
  ∃ a, accounts w !! x.1.1 = Some a ∧
       accounts w' = <[x.1.1 := mkAccount (acc_role a) (acc_permissions a) x.1.2 x.2]> (accounts w).
Proof.
  unfold UpdatePassword_write. destruct r as [u|e]; intros E.
  - right. by eapply law_UpdateUserPassword.
  - left. by eapply law_UpdateUserPassword_err.
Qed.

(** Once there is an administrator there is one for ever: no interleaving of
    calls, by anyone and with any store failures, leaves the server without;
    a password may be written long after its target was checked. *)
Theorem an_administrator_always_remains s s' :
  rtc (user_step codec rnd md5_hex) s s' → has_admin (accounts s.1) → has_admin (accounts s'.1).
Proof.
  induction 1 as [|s1 s2 s3 Hs _ IH]; [done|]. intros Ha. apply IH. clear IH.
  destruct Hs as [c w r w' ps _ E|actor u p w r w' ps E|ps x ps' w r w' E]; simpl in *.
  - destruct r as [[]|e].
    + apply (run_call_effect codec rnd md5_hex) in E. by eapply effect_has_admin.
    + by rewrite (run_call_fails_clean codec rnd md5_hex c _ _ _ E).
  - by rewrite (UpdatePassword_check_read_only codec rnd actor u p _ _ _ E).
  - apply UpdatePassword_write_accounts in E as [->|(a & Hx & ->)]; [done|].
    destruct Ha as (n & b & Hn & Hb). destruct (decide (x.1.1 = n)) as [Hxn|Hne].
    + rewrite Hxn in *. exists n. eexists. rewrite lookup_insert_eq. split; [done|].
      rewrite Hn in Hx. by injection Hx as <-.
    + exists n, b. by rewrite lookup_insert_ne.
Qed.

(** C2. No privilege escalation: a call by someone who is not an
    administrator leaves every administrator's account (credentials
    included) as it is, makes nobody an administrator and gives nobody a
    permission. *)
Theorem delegated_managers_cannot_escalate c actor w r w' :
  call_actor c = Some actor → IsAdmin actor = false →
  (∀ a, accounts w !! Username actor = Some a → is_admin_account a = false) →
  run_call codec rnd md5_hex c w = (r, w') →
  (∀ name a, accounts w !! name = Some a → is_admin_account a = true →
             accounts w' !! name = Some a) ∧
  (∀ name a, accounts w' !! name = Some a → is_admin_account a = true →
             accounts w !! name = Some a) ∧
  (∀ name, permissions_at (accounts w') name ⊆ permissions_at (accounts w) name).
Proof.
  intros Hc Hna Hself E. unfold permissions_at. destruct r as [[]|e].
  2: { rewrite (run_call_fails_clean codec rnd md5_hex c _ _ _ E). naive_solver. }
  apply (run_call_effect codec rnd md5_hex) in E.
  destruct c; try discriminate Hc; injection Hc as ->; cbn [call_effect] in E.
  - rewrite E. naive_solver.
  - destruct E as (_ & _ & _ & Hrole & name & h & t & _ & Hfree & _ & ->).
    destruct (Hrole Hna) as [-> ->]. split_and!; intros n; [intros a|intros a|].
    + intros Hn Ha. rewrite lookup_insert_ne by congruence. done.
    + destruct (decide (name = n)) as [->|]; [rewrite lookup_insert_eq|by rewrite lookup_insert_ne].
      by intros [= <-].
    + destruct (decide (name = n)) as [->|]; [rewrite lookup_insert_eq|by rewrite lookup_insert_ne].
      simpl. set_solver.
  - destruct E as (name & b & h & t & _ & Hb & _ & _ & Hwho & ->).
    assert (is_admin_account b = false) as Hbn.
    { destruct Hwho as [<-|[_ Hb']]; [by apply Hself|].
      destruct (is_admin_account b); [by rewrite Hb' in Hna|done]. }
    split_and!; intros n; [intros a|intros a|].
    + intros Hn Ha. rewrite lookup_insert_ne by congruence. done.
    + destruct (decide (name = n)) as [->|]; [rewrite lookup_insert_eq|by rewrite lookup_insert_ne].
      intros [= <-] Ha. unfold is_admin_account in *. simpl in Ha. congruence.
    + destruct (decide (name = n)) as [->|]; [rewrite lookup_insert_eq, Hb|by rewrite lookup_insert_ne].
      done.
  - destruct E as (_ & name & b & _ & Hb & _ & Hadm & ->).
    assert (is_admin_account b = false) as Hbn.
    { destruct (is_admin_account b); [|done]. destruct Hadm; [done|congruence]. }
    split_and!; intros n; [intros a|intros a|].
    + intros Hn Ha. rewrite lookup_delete_ne by congruence. done.
    + rewrite lookup_delete_Some. by intros [_ ?].
    + destruct (decide (name = n)) as [->|]; [rewrite lookup_delete_eq|by rewrite lookup_delete_ne].
      set_solver.
  - destruct E as [Hadm _]. congruence.
Qed.
End properties.

Section login.
Context `{Unicode} `{Runtime} (dbnow : time).
Let dbstore : UserStore (database user_tables) := sqlUserStore dbnow.
#[local] Existing Instance dbstore.
Let dblaws : UserStoreLaws (database user_tables) := sqlUserStore_laws dbnow.
#[local] Existing Instance dblaws.
Context (codec : CredentialCodec) (rnd : Z) (md5_hex : string → string).

Lemma QueryContext_ok {T A} (f : T → A) d :
  faults d = [] → QueryContext f d = (Ok (f (tables d)), d).
Proof. unfold QueryContext, statement. destruct d as [t fs]. by intros [= ->]. Qed.

Lemma sqlUserCredential_found name d r :
  faults d = [] → tables d !! name = Some r →
  ∃ c, sqlUserCredential name d = (Ok c, d) ∧ account_of c = account_of_row r ∧
       Username (cred_User c) = name.
Proof.
  intros Hf Hr. destruct (sqlUserCredential name d) as [res d'] eqn:E.
  assert (∃ c, res = Ok c ∧ d' = d) as (c & -> & ->).
  { revert E. unfold sqlUserCredential, loadUserPermissions, mbind, M_bind, wrap_err.
    rewrite QueryContext_ok, Hr by done. simpl.
    rewrite QueryContext_ok by done. unfold mret, M_ret. rewrite append_permissions_spec. simpl.
    intros [= <- <-]. eauto. }
  exists c. split; [done|]. apply sqlUserCredential_Ok in E as (_ & Hn & r' & Hr' & Hc).
  rewrite Hr in Hr'. injection Hr' as <-. done.
Qed.

(** Creating a user and logging in round-trip on the SQLite store: with a
    working database, the new account accepts the password it was created
    with, both directly and as a salted token, and refuses every other. *)
Theorem created_user_can_log_in now actor username password role permissions
    (d : database user_tables) u d' :
  (∀ h t, Encode codec rnd password = Ok (h, t) →
     (∀ p, is_ok (Verify codec h p) = true ↔ p = password) ∧ DecryptToken codec t = Ok password) →
  CreateUser codec rnd now actor username password role permissions d = (Ok u, d') →
  faults d' = [] →
  (∃ v, AuthenticatePassword codec username password d' = (Ok v, d') ∧
        Username v = Username u ∧ Role v = role) ∧
  (∀ wrong, wrong ≠ password →
     AuthenticatePassword codec username wrong d' = (Err (Sentinel ErrAuthenticationFailed), d')) ∧
  (∀ salt token, salt ≠ "" → len token = 32 → hex_ok token = true →
     ToLower token = md5_hex (password +:+ salt) →
     ∃ v, AuthenticateToken codec md5_hex username token salt d' = (Ok v, d') ∧
          Username v = Username u ∧ Role v = role).
Proof.
  intros Hcodec E Hf.
  pose proof (CreateUser_effect codec rnd md5_hex now actor username password role permissions
    _ _ _ E) as (_ & _ & _ & _ & name & h & t & Hname & _ & Henc & Hacc).
  assert (Username u = name) as Hu.
  { unfold CreateUser, forbidden in E. inv_ok E. rewrite Hname in Hm. injection Hm as <-.
    by apply newCredential_Ok in Hm2 as (? & ? & _ & ? & _). }
  destruct (Hcodec h t Henc) as [Hv Ht].
  assert (∃ r, tables d' !! name = Some r ∧ row_hash r = h ∧ row_token r = t ∧ row_role r = role)
    as (r & Hr & Hrh & Hrt & Hrr).
  { change (sql_accounts d' = <[name := mkAccount role (if bool_decide (role = UserRoleAdmin) then ∅
        else list_to_set permissions) h t]> (sql_accounts d)) in Hacc.
    assert (sql_accounts d' !! name = Some (mkAccount role (if bool_decide (role = UserRoleAdmin)
      then ∅ else list_to_set permissions) h t)) as Hl by (rewrite Hacc; apply lookup_insert_eq).
    unfold sql_accounts in Hl. rewrite lookup_fmap_Some in Hl. destruct Hl as (r & Hr & ?).
    exists r. by injection Hr as <- _ <- <-. }
  destruct (sqlUserCredential_found name d' r Hf Hr) as (c & Hc & Hca & Hcn).
  injection Hca as Hc1 _ Hc2 Hc3.
  unfold AuthenticatePassword, AuthenticateToken, authFailed. rewrite Hname.
  unfold mbind, M_bind, wrap_err.
  change (store_UserCredential name) with (sqlUserCredential name).
  split_and!.
  - rewrite Hc. rewrite Hc2, Hrh. destruct (Verify codec h password) as [v|e] eqn:Ev.
    + exists (cred_User c). split; [done|]. split; congruence.
    + pose proof (proj2 (Hv password) eq_refl) as Hok. by rewrite Ev in Hok.
  - intros wrong Hw. rewrite Hc, Hc2, Hrh. destruct (Verify codec h wrong) as [v|e] eqn:Ev; [|done].
    exfalso. apply Hw, Hv. by rewrite Ev.
  - intros salt token Hs Hl Hh Hm. rewrite bool_decide_eq_false_2 by done.
    rewrite Hl, Hh. cbn beta iota zeta delta [negb orb Z.eqb Pos.eqb]. rewrite Hc, Hc3, Hrt, Ht. rewrite bool_decide_eq_true_2 by done.
    exists (cred_User c). split; [done|]. split; congruence.
Qed.
End login.

(** * Witnesses: a server with one administrator and one delegated manager *)

Definition toy_codec : CredentialCodec := {|
  Encode r p := Ok (bytes_of p, r :: bytes_of p);
  Verify h p := if bool_decide (h = bytes_of p) then Ok tt else Err (Plain "mismatch");
  DecryptToken t := Ok (of_bytes (tail t));
|}.

Definition toy_md5 (s : string) : string := "00112233445566778899aabbccddeeff".

Definition root_user : User := mkUser "root" UserRoleAdmin [] 0 0.
Definition manager_user : User := mkUser "bob" UserRoleUser [PermissionUsersManage] 0 0.

Definition toy_db : database (gmap string user_row) :=
  mkDatabase (<["root" := mkUserRow UserRoleAdmin [] [] 0 0 ∅]>
              {["bob" := mkUserRow UserRoleUser [] [] 0 0 {[PermissionUsersManage]}]}) [].

Definition create_call (actor : User) (role : UserRole) : user_call :=
  CallCreateUser 5 actor " Eve " "longpassword" role [].

#[local] Existing Instance ascii_unicode.
#[local] Existing Instance stable_runtime.

Definition toy_store : UserStore (database user_tables) := sqlUserStore 9.
#[local] Existing Instance toy_store.
Definition toy_laws : UserStoreLaws (database user_tables) := sqlUserStore_laws 9.
#[local] Existing Instance toy_laws.

Definition toy_run (c : user_call) := run_call toy_codec 7 toy_md5 c toy_db.

Lemma user_calls_refine_specification_witness :
  match (toy_run (create_call manager_user UserRoleUser)).1 with
  | Ok _ => call_effect toy_codec 7 (create_call manager_user UserRoleUser)
              (accounts toy_db) (accounts (toy_run (create_call manager_user UserRoleUser)).2)
  | Err _ => False
  end ∧
  (toy_run (create_call manager_user UserRoleAdmin)).1 = Err (Sentinel ErrForbidden).
Proof.
  split; [|vm_compute; reflexivity].
  pose proof (user_calls_refine_specification toy_codec 7 toy_md5
    (create_call manager_user UserRoleUser) toy_db _ _ (surjective_pairing _)) as X.
  unfold toy_run. destruct (run_call toy_codec 7 toy_md5 _ toy_db).1 eqn:E; [exact X|].
  vm_compute in E. discriminate E.
Defined.

Lemma toy_has_admin : has_admin (accounts toy_db).
Proof. exists "root", (mkAccount UserRoleAdmin ∅ [] []). split; vm_compute; reflexivity. Qed.

Lemma an_administrator_always_remains_witness :
  has_admin (accounts (toy_run (CallDeleteUser root_user "bob")).2).
Proof.
  apply (an_administrator_always_remains toy_codec 7 toy_md5 (toy_db, [])
    ((toy_run (CallDeleteUser root_user "bob")).2, [])).
  - apply rtc_once. apply (user_step_call _ _ _ (CallDeleteUser root_user "bob") _
      (toy_run (CallDeleteUser root_user "bob")).1 _ []); [done|]. apply surjective_pairing.
  - apply toy_has_admin.
Defined.

Lemma toy_manager_account :
  accounts toy_db !! Username manager_user =
  Some (mkAccount UserRoleUser {[PermissionUsersManage]} [] []).
Proof. vm_compute. reflexivity. Qed.

Lemma delegated_managers_cannot_escalate_witness :
  accounts (toy_run (create_call manager_user UserRoleUser)).2 !! "root" =
    Some (mkAccount UserRoleAdmin ∅ [] []).
Proof.
  eapply (delegated_managers_cannot_escalate toy_codec 7 toy_md5
    (create_call manager_user UserRoleUser) manager_user toy_db).
  - reflexivity.
  - reflexivity.
  - intros a Ha. rewrite toy_manager_account in Ha. injection Ha as <-. reflexivity.
  - apply surjective_pairing.
  - vm_compute. reflexivity.
  - reflexivity.
Defined.

Definition toy_created : res User * database user_tables :=
  CreateUser toy_codec 7 5 manager_user " Eve " "longpassword" UserRoleUser [] toy_db.

Lemma toy_created_ok : is_ok toy_created.1 = true ∧ faults toy_created.2 = [].
Proof. split; vm_compute; reflexivity. Qed.

Lemma toy_codec_lawful h t :
  Encode toy_codec 7 "longpassword" = Ok (h, t) →
  (∀ p, is_ok (Verify toy_codec h p) = true ↔ p = "longpassword") ∧
  DecryptToken toy_codec t = Ok "longpassword".
Proof.
  intros [= <- <-]. split; [|reflexivity]. intros p. split.
  - unfold toy_codec, Verify. case_bool_decide as Hp; [|done].
    intros _. rewrite <- (of_bytes_of p), <- Hp. reflexivity.
  - intros ->. vm_compute. reflexivity.
Qed.

Lemma created_user_can_log_in_witness :
  ∃ v, AuthenticatePassword toy_codec " Eve " "longpassword" toy_created.2 = (Ok v, toy_created.2) ∧
       Role v = UserRoleUser.
Proof.
  destruct toy_created_ok as [Hok Hf]. destruct toy_created as [[u|e] d'] eqn:E; [|discriminate Hok].
  destruct (created_user_can_log_in 9 toy_codec 7 toy_md5 5 manager_user " Eve " "longpassword"
    UserRoleUser [] toy_db u d' toy_codec_lawful E Hf) as [(v & Hv & _ & Hr) _].
  exists v. split; [exact Hv | exact Hr].
Defined.
