(* ===== verification/MediaCache.v ===== *)
(** The shared media cache: [services.MediaCache] over the interfaces
    [ports.BlobStore] (the bytes) and [ports.CacheMetadataStore] (the entries).

    Both stores are arbitrary states with operations that may fail, known by
    their contracts.  Every method holds the cache's mutex, so a method is one
    step; [Put] takes it after it has written the bytes. *)
From stdpp Require Import base gmap strings list.
From Stdlib Require Import ZArith Lia.
From S2P Require Import Prelude GoStrings GoTime.

Open Scope Z_scope.
Open Scope go_scope.

(** * Readers *)

Definition bytes := list Z.

(** An [io.Reader]: the chunks its reads deliver, then [io.EOF] or an error. *)
Record reader := mkReader {
  chunks : list bytes;
  read_error : option error;
}.

(** What [io.Copy] collects. *)
Definition read_all (r : reader) : res bytes :=
  match read_error r with
  | None => Ok (concat (chunks r))
  | Some e => Err e
  end.

(** [countingReader.bytes] once the reader is exhausted. *)
Definition counted (r : reader) : Z := i64_sum (map (λ c, Z.of_nat (length c)) (chunks r)).

(** * Ports *)

Class BlobStore (B : Type) := {
  blob_Open : string → M B bytes;
  blob_Put : string → reader → M B unit;
  blob_Delete : string → M B unit;
}.

(** Keys name files: several keys may name one file, and some name none. *)
Class BlobStoreLaws (B : Type) `{BlobStore B} := {
  blob_file : string → option string;
  blobs : B → gmap string bytes;
  law_blob_Open key b c b' : blob_Open key b = (Ok c, b') →
    blobs b' = blobs b ∧ ∃ f, blob_file key = Some f ∧ blobs b !! f = Some c;
  law_blob_Open_err key b e b' : blob_Open key b = (Err e, b') →
    blobs b' = blobs b ∧
    (errors_Is ErrNotFound e = true → ∀ f, blob_file key = Some f → blobs b !! f = None);
  law_blob_Put key r b u b' : blob_Put key r b = (Ok u, b') →
    ∃ f c, blob_file key = Some f ∧ read_all r = Ok c ∧ blobs b' = <[f := c]> (blobs b);
  law_blob_Put_err key r b e b' : blob_Put key r b = (Err e, b') → blobs b' = blobs b;
  law_blob_Delete key b u b' : blob_Delete key b = (Ok u, b') →
    ∃ f, blob_file key = Some f ∧ blobs b' = delete f (blobs b);
  law_blob_Delete_err key b e b' : blob_Delete key b = (Err e, b') →
    blobs b' = blobs b ∧
    (errors_Is ErrNotFound e = true → ∀ f, blob_file key = Some f → blobs b !! f = None);
}.

Record CacheEntry := mkEntry {
  Key : string;
  Size : Z;
  LastAccessed : time;
  Pinned : bool;
}.

Class CacheMetadataStore (C : Type) := {
  meta_CacheEntry : string → M C CacheEntry;
  meta_CacheEntries : M C (list CacheEntry);
  meta_SaveCacheEntry : CacheEntry → M C unit;
  meta_DeleteCacheEntry : string → M C unit;
}.

(** The order entries are listed in: by the text of the access time, then by key. *)
Definition lru_less (x y : CacheEntry) : bool :=
  let sx := FormatRFC3339Nano (LastAccessed x) in
  let sy := FormatRFC3339Nano (LastAccessed y) in
  str_ltb sx sy || (bool_decide (sx = sy) && str_ltb (Key x) (Key y)).

Class CacheMetadataLaws (C : Type) `{CacheMetadataStore C} := {
  entries : C → gmap string CacheEntry;
  law_entries_wf c k e : entries c !! k = Some e → Key e = k ∧ 0 ≤ Size e;
  law_CacheEntry k c e c' : meta_CacheEntry k c = (Ok e, c') →
    entries c' = entries c ∧ entries c !! k = Some e;
  law_CacheEntry_err k c e c' : meta_CacheEntry k c = (Err e, c') →
    entries c' = entries c ∧ (errors_Is ErrNotFound e = true → entries c !! k = None);
  law_CacheEntries c l c' : meta_CacheEntries c = (Ok l, c') →
    entries c' = entries c ∧ l ≡ₚ map snd (map_to_list (entries c)) ∧ sorted_by lru_less l;
  law_CacheEntries_err c e c' : meta_CacheEntries c = (Err e, c') → entries c' = entries c;
  law_SaveCacheEntry e c u c' : meta_SaveCacheEntry e c = (Ok u, c') →
    entries c' = <[Key e := e]> (entries c);
  law_SaveCacheEntry_err e c x c' : meta_SaveCacheEntry e c = (Err x, c') → entries c' = entries c;
  law_DeleteCacheEntry k c u c' : meta_DeleteCacheEntry k c = (Ok u, c') →
    entries c' = delete k (entries c);
  law_DeleteCacheEntry_err k c x c' : meta_DeleteCacheEntry k c = (Err x, c') → entries c' = entries c;
}.

(** * The cache *)

Record cache_world (B C : Type) := mkWorld {
  w_blobs : B;
  w_meta : C;
}.
Arguments mkWorld {_ _} _ _.
Arguments w_blobs {_ _} _.
Arguments w_meta {_ _} _.

Record CacheUsage := mkUsage {
  usage_Name : string;
  usage_Entries : Z;
  usage_PartialEntries : Z;
  usage_Size : Z;
}.

Record CacheStats := mkStats {
  Capacity : Z;
  Entries : Z;
  stats_Size : Z;
  PinnedEntries : Z;
  PinnedSize : Z;
  Components : list CacheUsage;
}.

Definition validCacheKey (key : string) : bool :=
  negb (bool_decide (key = "")) && negb (ContainsAny key "/\").

Definition mediaCacheBlobKey (key : string) : string := "media/" +:+ key.

Section cache.
Context {B C : Type} `{BlobStore B} `{CacheMetadataStore C}.
(** [maxBytes], positive by [NewMediaCache]. *)
Context (maxBytes : Z).

Definition on_blobs {A} (m : M B A) : M (cache_world B C) A :=
  zoom w_blobs (λ b w, mkWorld b (w_meta w)) m.
Definition on_meta {A} (m : M C A) : M (cache_world B C) A :=
  zoom w_meta (λ c w, mkWorld (w_blobs w) c) m.

Definition removeLocked (key : string) : M (cache_world B C) unit :=
  r ← try (on_blobs (blob_Delete (mediaCacheBlobKey key)));
  match r with
  | Err e =>
      if negb (errors_Is ErrNotFound e) then throw (Errorf "delete cached media bytes: " e "")
      else wrap_err (λ e, Errorf "delete cached media metadata: " e "")
             (on_meta (meta_DeleteCacheEntry key))
  | Ok _ => wrap_err (λ e, Errorf "delete cached media metadata: " e "")
              (on_meta (meta_DeleteCacheEntry key))
  end.

Fixpoint prune_loop (protectedKey : string) (l : list CacheEntry) (size : Z)
    : M (cache_world B C) Z :=
  match l with
  | [] => mret size
  | entry :: l' =>
      if size <=? maxBytes then mret size
      else if Pinned entry || bool_decide (Key entry = protectedKey)
      then prune_loop protectedKey l' size
      else
        _ ← wrap_err (λ e, Errorf ("evict cached media " +:+ Key entry +:+ ": ") e "")
              (removeLocked (Key entry));
        prune_loop protectedKey l' (size -% Size entry)
  end.

Definition pruneLocked (protectedKey : string) : M (cache_world B C) Z :=
  entries ← wrap_err (λ e, Errorf "list cached media: " e "") (on_meta meta_CacheEntries);
  prune_loop protectedKey entries (i64_sum (map Size entries)).

(** What [Put] does once it holds the mutex. *)
Definition Put_locked (now : time) (key : string) (size : Z) (pinned : bool)
    : M (cache_world B C) unit :=
  r ← try (on_meta (meta_SaveCacheEntry (mkEntry key size now pinned)));
  match r with
  | Err e =>
      _ ← try (on_blobs (blob_Delete (mediaCacheBlobKey key)));
      throw (Errorf ("record cached media " +:+ key +:+ ": ") e "")
  | Ok _ =>
      remaining ← pruneLocked key;
      if (remaining >? maxBytes) && negb pinned then
        _ ← wrap_err (λ e, Errorf ("discard over-capacity media " +:+ key +:+ ": ") e "")
              (removeLocked key);
        throw (Errorf ("cache media " +:+ key +:+ ": ") (Sentinel ErrCacheCapacity) "")
      else mret tt
  end.

Definition Put (now : time) (key : string) (source : reader) (pinned : bool)
    : M (cache_world B C) unit :=
  if negb (validCacheKey key) then throw (Plain "invalid media cache key")
  else
    _ ← wrap_err (λ e, Errorf ("store cached media " +:+ key +:+ ": ") e "")
          (on_blobs (blob_Put (mediaCacheBlobKey key) source));
    Put_locked now key (counted source) pinned.

Definition Open (now : time) (key : string) : M (cache_world B C) bytes :=
  entry ← on_meta (meta_CacheEntry key);
  r ← try (on_blobs (blob_Open (mediaCacheBlobKey key)));
  match r with
  | Err e =>
      if errors_Is ErrNotFound e then
        _ ← try (on_meta (meta_DeleteCacheEntry key));
        throw (Sentinel ErrNotFound)
      else throw (Errorf ("open cached media " +:+ key +:+ ": ") e "")
  | Ok content =>
      _ ← wrap_err (λ e, Errorf ("touch cached media " +:+ key +:+ ": ") e "")
            (on_meta (meta_SaveCacheEntry (mkEntry (Key entry) (Size entry) now (Pinned entry))));
      mret content
  end.

Definition SetPinned (key : string) (pinned : bool) : M (cache_world B C) unit :=
  entry ← on_meta (meta_CacheEntry key);
  _ ← wrap_err (λ e, Errorf ("set cached media pin " +:+ key +:+ ": ") e "")
        (on_meta (meta_SaveCacheEntry (mkEntry (Key entry) (Size entry) (LastAccessed entry) pinned)));
  if negb pinned then _ ← pruneLocked ""; mret tt else mret tt.

Definition Remove (key : string) : M (cache_world B C) unit := removeLocked key.

Definition Prune : M (cache_world B C) unit := _ ← pruneLocked ""; mret tt.

Definition stats_step (s : CacheStats) (e : CacheEntry) : CacheStats :=
  mkStats (Capacity s) (Entries s) (stats_Size s +% Size e)
    (if Pinned e then PinnedEntries s + 1 else PinnedEntries s)
    (if Pinned e then PinnedSize s +% Size e else PinnedSize s) (Components s).

Definition Stats : M (cache_world B C) CacheStats :=
  l ← on_meta meta_CacheEntries;
  let stats := fold_left stats_step l (mkStats maxBytes (Z.of_nat (length l)) 0 0 0 []) in
  mret (mkStats (Capacity stats) (Entries stats) (stats_Size stats) (PinnedEntries stats)
          (PinnedSize stats)
          (Components stats ++ [mkUsage "media" (Entries stats) 0 (stats_Size stats)])).
(** The calls that change the cache. *)
Inductive cache_call :=
  | CPut (now : time) (key : string) (source : reader) (pinned : bool)
  | COpen (now : time) (key : string)
  | CSetPinned (key : string) (pinned : bool)
  | CRemove (key : string)
  | CPrune.

Definition run_cache_call (c : cache_call) : M (cache_world B C) unit :=
  match c with
  | CPut now key source pinned => Put now key source pinned
  | COpen now key => _ ← Open now key; mret tt
  | CSetPinned key pinned => SetPinned key pinned
  | CRemove key => Remove key
  | CPrune => Prune
  end.

(** The key a call names, if any. *)
Definition call_key (c : cache_call) : option string :=
  match c with
  | CPut _ key _ _ | COpen _ key | CSetPinned key _ | CRemove key => Some key
  | CPrune => None
  end.
End cache.

(** * What the stores hold, and how the operations change it *)

Section lemmas.
Context {B C : Type} `{BlobStoreLaws B} `{CacheMetadataLaws C}.
Context (maxBytes : Z).

Definition cached (w : cache_world B C) : gmap string CacheEntry := entries (w_meta w).
Definition stored (w : cache_world B C) : gmap string bytes := blobs (w_blobs w).
Definition file_of (key : string) : option string := blob_file (mediaCacheBlobKey key).
Definition drop_file (key : string) (files : gmap string bytes) : gmap string bytes :=
  match file_of key with Some f => delete f files | None => files end.

Definition sizes (m : gmap string CacheEntry) : Z := Zsum (map Size (map snd (map_to_list m))).
Definition cached_bytes (w : cache_world B C) : Z := sizes (cached w).

(** What an unpinned entry other than the protected one is to [pruneLocked]. *)
Definition evictable (protectedKey : string) (e : CacheEntry) : bool :=
  negb (Pinned e || bool_decide (Key e = protectedKey)).

(** An entry has its bytes and they have the recorded size; bytes stored under
    a media key have an entry; every entry's key is one [Put] accepts. *)
Record coherent (w : cache_world B C) : Prop := {
  coh_valid k e : cached w !! k = Some e → validCacheKey k = true;
  coh_entry k e : cached w !! k = Some e →
    ∃ f c, file_of k = Some f ∧ stored w !! f = Some c ∧ Size e = Z.of_nat (length c);
  coh_blob k f c : validCacheKey k = true → file_of k = Some f → stored w !! f = Some c →
    is_Some (cached w !! k);
}.

(** Distinct media keys name distinct files. *)
Definition files_distinct : Prop := ∀ k1 k2 f,
  validCacheKey k1 = true → validCacheKey k2 = true →
  file_of k1 = Some f → file_of k2 = Some f → k1 = k2.

Lemma on_meta_run {A} (m : M C A) (w : cache_world B C) r w' :
  on_meta m w = (r, w') → ∃ c', m (w_meta w) = (r, c') ∧ w' = mkWorld (w_blobs w) c'.
Proof.
  unfold on_meta, zoom. destruct (m (w_meta w)) as [r1 c1]. intros [= <- <-]. eauto.
Qed.

Lemma on_blobs_run {A} (m : M B A) (w : cache_world B C) r w' :
  on_blobs m w = (r, w') → ∃ b', m (w_blobs w) = (r, b') ∧ w' = mkWorld b' (w_meta w).
Proof.
  unfold on_blobs, zoom. destruct (m (w_blobs w)) as [r1 b1]. intros [= <- <-]. eauto.
Qed.

Lemma save_Ok e w u w' :
  on_meta (B:=B) (meta_SaveCacheEntry e) w = (Ok u, w') →
  cached w' = <[Key e := e]> (cached w) ∧ stored w' = stored w.
Proof.
  intros (c' & Hc & ->)%on_meta_run. apply law_SaveCacheEntry in Hc. by split.
Qed.

Lemma save_Err e w x w' :
  on_meta (B:=B) (meta_SaveCacheEntry e) w = (Err x, w') →
  cached w' = cached w ∧ stored w' = stored w.
Proof.
  intros (c' & Hc & ->)%on_meta_run. apply law_SaveCacheEntry_err in Hc. by split.
Qed.

Lemma lookup_Ok k w e w' :
  on_meta (B:=B) (meta_CacheEntry k) w = (Ok e, w') →
  cached w' = cached w ∧ stored w' = stored w ∧ cached w !! k = Some e.
Proof.
  intros (c' & Hc & ->)%on_meta_run. apply law_CacheEntry in Hc as [? ?]. done.
Qed.

Lemma lookup_Err k w x w' :
  on_meta (B:=B) (meta_CacheEntry k) w = (Err x, w') →
  cached w' = cached w ∧ stored w' = stored w ∧
  (errors_Is ErrNotFound x = true → cached w !! k = None).
Proof.
  intros (c' & Hc & ->)%on_meta_run. by apply law_CacheEntry_err in Hc as [? ?].
Qed.

Lemma forget_Ok k w u w' :
  on_meta (B:=B) (meta_DeleteCacheEntry k) w = (Ok u, w') →
  cached w' = delete k (cached w) ∧ stored w' = stored w.
Proof.
  intros (c' & Hc & ->)%on_meta_run. by apply law_DeleteCacheEntry in Hc.
Qed.

Lemma forget_Err k w x w' :
  on_meta (B:=B) (meta_DeleteCacheEntry k) w = (Err x, w') →
  cached w' = cached w ∧ stored w' = stored w.
Proof.
  intros (c' & Hc & ->)%on_meta_run. by apply law_DeleteCacheEntry_err in Hc.
Qed.

(** Deleting a blob, seen through [errors.Is(err, ports.ErrNotFound)]. *)
Lemma discard_blob k w r w' :
  on_blobs (C:=C) (blob_Delete (mediaCacheBlobKey k)) w = (r, w') →
  cached w' = cached w ∧
  match r with
  | Ok _ => stored w' = drop_file k (stored w)
  | Err e => stored w' = stored w ∧
             (errors_Is ErrNotFound e = true → stored w = drop_file k (stored w))
  end.
Proof.
  intros (b' & Hb & ->)%on_blobs_run. split; [done|].
  unfold stored, drop_file, file_of; cbn. destruct r as [u|e].
  - apply law_blob_Delete in Hb as (f & -> & ->). done.
  - apply law_blob_Delete_err in Hb as [-> Hn]. split; [done|]. intros He.
    destruct (blob_file _) as [f|] eqn:Hf; [|done]. by rewrite delete_id by eauto.
Qed.

Lemma removeLocked_run k w r w' :
  removeLocked (B:=B) (C:=C) k w = (r, w') →
  match r with
  | Ok _ => cached w' = delete k (cached w) ∧ stored w' = drop_file k (stored w)
  | Err _ => cached w' = cached w ∧ (stored w' = stored w ∨ stored w' = drop_file k (stored w))
  end.
Proof.
  unfold removeLocked, mbind, M_bind, try, wrap_err.
  destruct (on_blobs _ w) as [r1 w1] eqn:E1. apply discard_blob in E1 as [Hc1 Hs1].
  assert (∀ r2 w2, on_meta (B:=B) (meta_DeleteCacheEntry k) w1 = (r2, w2) →
    stored w1 = drop_file k (stored w) →
    match r2 with
    | Ok _ => cached w2 = delete k (cached w) ∧ stored w2 = drop_file k (stored w)
    | Err _ => cached w2 = cached w ∧ stored w2 = drop_file k (stored w)
    end) as Hforget.
  { intros [u|e] w2 E2 Hs.
    - apply forget_Ok in E2 as [-> ->]. by rewrite Hc1.
    - apply forget_Err in E2 as [-> ->]. by rewrite Hc1. }
  destruct r1 as [u|e]; cbn.
  - destruct (on_meta _ w1) as [r2 w2]. specialize (Hforget _ _ eq_refl).
    destruct r2; intros [= <- <-]; naive_solver.
  - destruct Hs1 as [Hs1 Hn]. destruct (errors_Is ErrNotFound e); cbn.
    + destruct (on_meta _ w1) as [r2 w2]. specialize (Hforget _ _ eq_refl).
      rewrite Hs1 in Hforget. destruct r2; intros [= <- <-]; naive_solver.
    + intros [= <- <-]. auto.
Qed.

(** A call leaves an entry and its bytes alone. *)
Definition keeps (k : string) (w w' : cache_world B C) : Prop :=
  cached w' !! k = cached w !! k ∧
  (∀ f, file_of k = Some f → stored w' !! f = stored w !! f).

Lemma keeps_refl k w : keeps k w w.
Proof. done. Qed.

Lemma keeps_trans k w1 w2 w3 : keeps k w1 w2 → keeps k w2 w3 → keeps k w1 w3.
Proof.
  intros [Hc Hs] [Hc' Hs']. split; [congruence|]. intros f Hf. rewrite Hs', Hs; auto.
Qed.

Lemma keeps_same k w w' : cached w' = cached w → stored w' = stored w → keeps k w w'.
Proof. intros Hc Hs. split; [by rewrite Hc | intros; by rewrite Hs]. Qed.
Lemma removeLocked_keeps k k' w r w' :
  files_distinct → validCacheKey k = true → validCacheKey k' = true → k' ≠ k →
  removeLocked (B:=B) (C:=C) k' w = (r, w') → keeps k w w'.
Proof.
  intros Hfd Hk Hk' Hne Hr. apply removeLocked_run in Hr.
  assert (∀ f, file_of k = Some f → drop_file k' (stored w) !! f = stored w !! f) as Hdrop.
  { intros f Hf. unfold drop_file. destruct (file_of k') as [f'|] eqn:Hf'; [|done].
    apply lookup_delete_ne. intros ->. by apply Hne, (Hfd k' k f). }
  destruct r as [u|e].
  - destruct Hr as [Hc Hs]. split; [by rewrite Hc, lookup_delete_ne|].
    intros f Hf. rewrite Hs. auto.
  - destruct Hr as [Hc [Hs|Hs]]; (split; [by rewrite Hc|intros f Hf; rewrite Hs; auto]).
Qed.

Lemma prune_loop_keeps k p l size w r w' :
  files_distinct → validCacheKey k = true →
  Forall (λ e, validCacheKey (Key e) = true) l →
  Forall (λ e, evictable p e = true → Key e ≠ k) l →
  prune_loop (B:=B) (C:=C) maxBytes p l size w = (r, w') → keeps k w w'.
Proof.
  intros Hfd Hk Hvalid Hl. revert size w. induction l as [|e l IH]; intros size w; simpl.
  { intros [= <- <-]. apply keeps_refl. }
  apply Forall_cons in Hvalid as [Hve Hvalid]. apply Forall_cons in Hl as [Hne Hl].
  unfold evictable in Hne.
  destruct (size <=? maxBytes); [intros [= <- <-]; apply keeps_refl|].
  destruct (_ || _) eqn:He; [by apply IH|].
  unfold mbind, M_bind, wrap_err.
  destruct (removeLocked (Key e) w) as [[u|x] w1] eqn:Er; apply (removeLocked_keeps k) in Er; auto.
  - intros Hrun. eapply keeps_trans; [done|]. by eapply IH.
  - by intros [= <- <-].
Qed.

(** The store after the victims are gone. *)
Definition drop_entries (victims : list CacheEntry) (m : gmap string CacheEntry) :=
  fold_left (λ m v, delete (Key v) m) victims m.
Definition drop_files (victims : list CacheEntry) (m : gmap string bytes) :=
  fold_left (λ m v, drop_file (Key v) m) victims m.

Lemma drop_entries_lookup victims m k e :
  drop_entries victims m !! k = Some e ↔ m !! k = Some e ∧ k ∉ map Key victims.
Proof.
  revert m. induction victims as [|v vs IH]; intros m; simpl.
  { rewrite elem_of_nil. naive_solver. }
  rewrite IH, lookup_delete_Some, elem_of_cons. naive_solver.
Qed.

Lemma drop_files_lookup victims m f c :
  drop_files victims m !! f = Some c ↔
  m !! f = Some c ∧ ∀ v, v ∈ victims → file_of (Key v) ≠ Some f.
Proof.
  revert m. induction victims as [|v vs IH]; intros m; simpl.
  { split; [intros ?; split; [done|]; intros v; by rewrite elem_of_nil | by intros [? _]]. }
  rewrite IH. unfold drop_file. setoid_rewrite elem_of_cons.
  destruct (file_of (Key v)) as [g|] eqn:Hg.
  - rewrite lookup_delete_Some. split.
    + intros [[Hne Hm] Hv]. split; [done|]. intros v' [->|Hv']; [congruence|auto].
    + intros [Hm Hv]. split; [split; [|done]|]; [intros ->|]; naive_solver.
  - split; intros [Hm Hv]; (split; [done|]); [|auto]. intros v' [->|Hv']; [congruence|auto].
Qed.

Definition needed (size : Z) (victims : list CacheEntry) : Prop :=
  ∀ vs v, victims = vs ++ [v] → maxBytes < size - Zsum (map Size vs).

Lemma needed_cons size v vs :
  maxBytes < size → needed (size - Size v) vs → needed size (v :: vs).
Proof.
  intros Hs Hn [|v0 ws] x Hx; simplify_eq/=; [lia|]. specialize (Hn ws x eq_refl). lia.
Qed.

Lemma prune_loop_Ok p l size w size' w' :
  prune_loop (B:=B) (C:=C) maxBytes p l size w = (Ok size', w') →
  0 ≤ maxBytes → Forall (λ e, 0 ≤ Size e) l → Zsum (map Size l) ≤ size < 2 ^ 63 →
  ∃ victims rest,
    List.filter (evictable p) l = victims ++ rest ∧
    cached w' = drop_entries victims (cached w) ∧
    stored w' = drop_files victims (stored w) ∧
    size' = size - Zsum (map Size victims) ∧
    (size' ≤ maxBytes ∨ rest = []) ∧ needed size victims.
Proof.
  intros Hrun Hmax Hnn Hb. revert size w Hb Hrun.
  induction l as [|e l IH]; intros size w Hb; simpl in *.
  { intros [= <- <-]. exists [], []. repeat split; auto; [simpl; lia|]. by intros [|??] ?. }
  apply Forall_cons in Hnn as [He Hnn]. pose proof (Zsum_nonneg (map Size l)) as Hz.
  rewrite Forall_map in Hz. specialize (Hz Hnn).
  destruct (size <=? maxBytes) eqn:Hfit.
  { intros [= <- <-]. exists [], (List.filter (evictable p) (e :: l)).
    repeat split; auto; [simpl; lia|left; lia|]. by intros [|??] ?. }
  unfold evictable at 1. destruct (_ || _) eqn:Hev; simpl.
  { intros Hrun. apply IH in Hrun; auto with lia. }
  intros Hrun. inv_ok Hrun. apply removeLocked_run in Hm as [Hc Hs].
  rewrite i64_id in Hrun by (unfold in_i64; lia).
  apply IH in Hrun as (vs & rest & Hf & Hc' & Hs' & -> & Hend & Hneed); [|done|lia].
  exists (e :: vs), rest. rewrite Hf, Hc', Hs', Hc, Hs.
  repeat split; auto; [simpl; lia|]. apply needed_cons; [lia|done].
Qed.
Lemma sizes_delete m k e : m !! k = Some e → sizes m = Size e + sizes (delete k m).
Proof. intros Hm. unfold sizes. by rewrite <- (map_to_list_delete _ _ _ Hm). Qed.

Lemma sizes_insert m k e : 0 ≤ Size e → (∀ k' e', m !! k' = Some e' → 0 ≤ Size e') →
  sizes (<[k := e]> m) ≤ sizes m + Size e.
Proof.
  intros He Hm. rewrite (sizes_delete _ k e), delete_insert_eq by apply lookup_insert_eq.
  destruct (m !! k) as [e'|] eqn:Hk.
  - rewrite (sizes_delete m k e') by done. specialize (Hm _ _ Hk). lia.
  - rewrite delete_id by done. lia.
Qed.

Lemma drop_entries_sizes victims m :
  NoDup (map Key victims) → (∀ v, v ∈ victims → m !! Key v = Some v) →
  sizes (drop_entries victims m) = sizes m - Zsum (map Size victims).
Proof.
  revert m. induction victims as [|v vs IH]; intros m Hnd Hin; simpl; [lia|].
  apply NoDup_cons in Hnd as [Hv Hnd]. rewrite IH; [|done|].
  - rewrite (sizes_delete m (Key v) v) by (apply Hin; left). lia.
  - intros x Hx. rewrite lookup_delete_ne; [apply Hin; by right|].
    intros Heq. apply Hv. rewrite Heq. by apply list_elem_of_fmap_2.
Qed.

(** The list the eviction runs over. *)
Lemma listing_Ok w l w' :
  on_meta (B:=B) meta_CacheEntries w = (Ok l, w') →
  cached w' = cached w ∧ stored w' = stored w ∧ sorted_by lru_less l ∧
  NoDup (map Key l) ∧ (∀ e, e ∈ l ↔ cached w !! Key e = Some e) ∧
  (∀ k e, cached w !! k = Some e → k = Key e) ∧
  Forall (λ e, 0 ≤ Size e) l ∧ Zsum (map Size l) = cached_bytes w.
Proof.
  intros (c' & Hc & ->)%on_meta_run. apply law_CacheEntries in Hc as (Hc & Hl & Hs).
  unfold cached, stored, cached_bytes, sizes; cbn.
  assert (∀ k e, entries (w_meta w) !! k = Some e → k = Key e ∧ 0 ≤ Size e) as Hwf.
  { intros k e He. apply law_entries_wf in He as [<- ?]. done. }
  assert (∀ e, e ∈ l ↔ entries (w_meta w) !! Key e = Some e) as Hin.
  { intros e. rewrite Hl. change (map snd) with (fmap (M:=list) (@snd string CacheEntry)).
    rewrite list_elem_of_fmap. split.
    - intros ([k e'] & -> & He%elem_of_map_to_list). cbn. by destruct (Hwf _ _ He) as [<- _].
    - intros He. exists (Key e, e). by rewrite elem_of_map_to_list. }
  repeat split; auto.
  - rewrite Hl, map_map.
    rewrite (map_ext_in _ fst); [apply NoDup_fst_map_to_list|].
    intros [k e] He. apply list_elem_of_In, elem_of_map_to_list in He. cbn.
    by destruct (Hwf _ _ He).
  - apply Hin.
  - apply Hin.
  - intros k e He. by apply Hwf.
  - apply Forall_forall. intros e He. apply Hin in He. by apply Hwf in He as [_ ?].
  - by rewrite Hl.
Qed.
End lemmas.
