(* ===== verification/SqlCache.v ===== *)
(** Table [media_cache_entries] ([adapters/storage/sqlite/cache.go]) and the
    proof that it keeps the contract of [ports.CacheMetadataStore]. *)
From stdpp Require Import base gmap strings list.
From Stdlib Require Import ZArith Lia.
From S2P Require Import Prelude GoStrings GoTime Sql MediaCache.

Open Scope Z_scope.

(** A row.  Column [size_bytes] is checked to be non-negative; column
    [last_accessed_at] holds the RFC 3339 text of the instant, which
    [time.Parse] reads back and by which the rows are ordered. *)
Record cache_row := mkCacheRow {
  row_size_bytes : N;
  row_last_accessed : time;
  row_pinned : bool;
}.

Notation cache_table := (gmap string cache_row).

Section sqlite.
Context `{Runtime}.

Definition scanCacheEntry (key : string) (r : cache_row) : CacheEntry :=
  mkEntry key (Z.of_N (row_size_bytes r)) (row_last_accessed r) (row_pinned r).

Definition sqlCacheEntry (key : string) : M (database cache_table) CacheEntry :=
  row ← wrap_err (λ e, Errorf "query cache entry: " e "")
    (QueryContext (λ t : cache_table, t !! key));
  match row with
  | None => throw (Sentinel ErrNotFound)
  | Some r => mret (scanCacheEntry key r)
  end.

Definition sqlCacheEntries : M (database cache_table) (list CacheEntry) :=
  wrap_err (λ e, Errorf "query cache entries: " e "")
    (QueryContext (λ t : cache_table,
       sort_slice lru_less (map (λ x, scanCacheEntry x.1 x.2) (map_range t)))).

Definition sqlSaveCacheEntry (entry : CacheEntry) : M (database cache_table) unit :=
  wrap_err (λ e, Errorf ("save cache entry " +:+ Key entry +:+ ": ") e "")
    (statement (λ t : cache_table,
       if Size entry <? 0 then Err (Plain "CHECK constraint failed: size_bytes >= 0")
       else Ok (tt, <[Key entry :=
         mkCacheRow (Z.to_N (Size entry)) (LastAccessed entry) (Pinned entry)]> t))).

Definition sqlDeleteCacheEntry (key : string) : M (database cache_table) unit :=
  wrap_err (λ e, Errorf ("delete cache entry " +:+ key +:+ ": ") e "")
    (ExecContext (λ t : cache_table, delete key t)).

Definition sqlCacheStore : CacheMetadataStore (database cache_table) := {|
  meta_CacheEntry := sqlCacheEntry;
  meta_CacheEntries := sqlCacheEntries;
  meta_SaveCacheEntry := sqlSaveCacheEntry;
  meta_DeleteCacheEntry := sqlDeleteCacheEntry;
|}.

#[local] Existing Instance sqlCacheStore.

Definition sql_entries (d : database cache_table) : gmap string CacheEntry :=
  map_imap (λ k r, Some (scanCacheEntry k r)) (tables d).

Lemma sql_entries_lookup d k :
  sql_entries d !! k = scanCacheEntry k <$> tables d !! k.
Proof. unfold sql_entries. rewrite map_lookup_imap. by destruct (_ !! k). Qed.

Lemma sql_entries_values d :
  map snd (map_to_list (sql_entries d)) ≡ₚ
  map (λ x, scanCacheEntry x.1 x.2) (map_to_list (tables d)).
Proof.
  assert (map_to_list (sql_entries d) ≡ₚ
    map (λ x, (x.1, scanCacheEntry x.1 x.2)) (map_to_list (tables d))) as ->.
  { apply NoDup_Permutation.
    - apply NoDup_map_to_list.
    - apply (NoDup_fmap_1 fst). rewrite <- list_fmap_compose.
      apply NoDup_fst_map_to_list.
    - intros [k e]. rewrite elem_of_map_to_list, sql_entries_lookup.
      change (map ?f ?l) with (f <$> l). rewrite list_elem_of_fmap. split.
      + intros (r & Hr & ->)%fmap_Some. exists (k, r). by rewrite elem_of_map_to_list.
      + intros ([k' r] & Heq & Hr%elem_of_map_to_list). simplify_eq/=. by rewrite Hr. }
  by rewrite map_map.
Qed.

Lemma lru_strict_weak : strict_weak lru_less.
Proof.
  assert (∀ x y, lru_less x y = false ↔
    str_ltb (FormatRFC3339Nano (LastAccessed x)) (FormatRFC3339Nano (LastAccessed y)) = false ∧
    (FormatRFC3339Nano (LastAccessed x) = FormatRFC3339Nano (LastAccessed y) →
     str_ltb (Key x) (Key y) = false)) as Hf.
  { intros x y. unfold lru_less. rewrite orb_false_iff, andb_false_iff, bool_decide_eq_false.
    split; intros [Hs Ho]; (split; [done|]).
    - intros Heq. by destruct Ho.
    - destruct (decide (FormatRFC3339Nano (LastAccessed x) = FormatRFC3339Nano (LastAccessed y)));
        auto. }
  pose proof strict_weak_str as Hw. split.
  - intros x. apply Hf. split; [|intros _]; apply (sw_irrefl _ Hw).
  - intros x y z. unfold lru_less. rewrite !orb_true_iff, !andb_true_iff, !bool_decide_eq_true.
    intros [Hxy|[Hxy Kxy]] [Hyz|[Hyz Kyz]].
    + left. eapply (sw_trans _ Hw); eauto.
    + left. by rewrite <- Hyz.
    + left. by rewrite Hxy.
    + right. split; [congruence|]. eapply (sw_trans _ Hw); eauto.
  - intros x y z [Hyx Kyx]%Hf [Hzy Kzy]%Hf. apply Hf. split.
    + eapply (sw_negtrans _ Hw); eauto.
    + intros Heq. assert (FormatRFC3339Nano (LastAccessed z) = FormatRFC3339Nano (LastAccessed y)) as E.
      { apply str_ltb_total; [done|]. by rewrite Heq. }
      eapply (sw_negtrans _ Hw); [apply Kyx; congruence|auto].
Qed.

Lemma entries_read_only {A} (m : M (database cache_table) A) d r d' :
  read_only tables m → m d = (r, d') → sql_entries d' = sql_entries d.
Proof. intros Hm E. unfold sql_entries. by rewrite (Hm _ _ _ E). Qed.

Lemma entries_clean {A} (m : M (database cache_table) A) d e d' :
  fails_clean tables m → m d = (Err e, d') → sql_entries d' = sql_entries d.
Proof. intros Hm E. unfold sql_entries. by rewrite (Hm _ _ _ E). Qed.

Lemma sqlCacheEntry_read_only k : read_only tables (sqlCacheEntry k).
Proof. unfold sqlCacheEntry. go_clean. Qed.

Definition sqlCacheStore_laws : CacheMetadataLaws (database cache_table).
Proof.
  refine {| entries := sql_entries |}.
  - intros d k e. rewrite sql_entries_lookup. intros (r & _ & ->)%fmap_Some. cbn. split; [done|lia].
  - intros k d e d' E. split; [by eapply entries_read_only, E; apply sqlCacheEntry_read_only|].
    cbn in E. unfold sqlCacheEntry in E. inv_ok E. apply QueryContext_Ok in Hm as [Ha _].
    by rewrite sql_entries_lookup, <- Ha.
  - intros k d e d' E. split; [by eapply entries_read_only, E; apply sqlCacheEntry_read_only|].
    cbn in E. unfold sqlCacheEntry, mbind, M_bind, wrap_err in E.
    destruct (QueryContext _ d) as [[a|x] d1] eqn:Eq.
    + apply QueryContext_Ok in Eq as [-> _]. rewrite sql_entries_lookup.
      by destruct (tables d !! k).
    + injection E as <- <-. cbn. intros Hx. by rewrite (QueryContext_Err _ _ _ _ ErrNotFound Eq) in Hx.
  - intros d l d' E. split; [eapply entries_read_only, E; cbn; unfold sqlCacheEntries; go_clean|].
    cbn in E. unfold sqlCacheEntries in E. inv_ok E. apply QueryContext_Ok in E as [-> _].
    split; [|apply sort_slice_sorted, lru_strict_weak].
    rewrite sort_slice_perm, sql_entries_values. apply Permutation_map, map_range_perm.
  - intros d e d' E. eapply entries_read_only, E. cbn. unfold sqlCacheEntries. go_clean.
  - intros e d u d' E. cbn in E. unfold sqlSaveCacheEntry in E. inv_ok E. apply statement_Ok in E.
    destruct (Size e <? 0) eqn:Hs; [done|]. injection E as _ E.
    apply map_eq. intros k. rewrite sql_entries_lookup, <- E.
    destruct (decide (k = Key e)) as [->|Hk].
    + rewrite !lookup_insert_eq. cbn. f_equal. destruct e; cbn in *.
      unfold scanCacheEntry; cbn. f_equal. lia.
    + rewrite !lookup_insert_ne by done. by rewrite sql_entries_lookup.
  - intros e d x d' E. eapply entries_clean, E. cbn. unfold sqlSaveCacheEntry. go_clean.
  - intros k d u d' E. cbn in E. unfold sqlDeleteCacheEntry in E. inv_ok E. apply ExecContext_Ok in E.
    apply map_eq. intros k'. rewrite sql_entries_lookup, E.
    destruct (decide (k' = k)) as [->|Hk].
    + by rewrite !lookup_delete_eq.
    + rewrite !lookup_delete_ne by done. by rewrite sql_entries_lookup.
  - intros k d x d' E. eapply entries_clean, E. cbn. unfold sqlDeleteCacheEntry. go_clean.
Defined.
End sqlite.
