(* ===== verification/BlobFiles.v ===== *)
(** The blob store on a directory tree ([adapters/blob/filesystem/store.go])
    and the proof that it keeps the contract of [ports.BlobStore]. *)
From stdpp Require Import base gmap strings list.
From Stdlib Require Import ZArith Lia Ascii.
From S2P Require Import Prelude GoStrings MediaCache.

Open Scope Z_scope.

(** The files and directories under the store's root, by their path relative
    to it, and what the operating system reports for the next calls ([None]
    for success).  A temporary file exists only while [Put] runs. *)
Record file_system := mkFS {
  files : gmap string bytes;
  dirs : gset string;
  os_faults : list (option string);
}.

(** [Store.path], relative to the root. *)
Definition store_path (key : string) : res string :=
  if bool_decide (key = "") || HasPrefix key "/" then Err (Plain "invalid blob key")
  else
    let relative := Clean key in
    if bool_decide (relative = "..") || HasPrefix relative "../"
    then Err (Plain "blob key escapes storage root")
    else Ok relative.

Definition is_dir (fs : file_system) (p : string) : bool :=
  bool_decide (p = ".") || bool_decide (p ∈ dirs fs).

(** The directories above a path, outermost first. *)
Definition ancestors (p : string) : list string :=
  let parts := Split slash p in
  map (λ n, Join (take n parts) "/") (seq 1 (length parts - 1)).

Definition has_file (fs : file_system) (p : string) : bool := bool_decide (is_Some (files fs !! p)).

(** One system call: it fails as scheduled, or does [f]. *)
Definition os_call {A} (f : file_system → res A * file_system) : M file_system A := λ fs,
  match os_faults fs with
  | Some e :: rest => (Err (Plain e), mkFS (files fs) (dirs fs) rest)
  | rest => f (mkFS (files fs) (dirs fs) (tail rest))
  end.

Definition os_Open (p : string) : M file_system bytes := os_call (λ fs,
  match files fs !! p with
  | Some c => (Ok c, fs)
  | None =>
      if is_dir fs p then (Err (Plain "is a directory"), fs)
      else if existsb (has_file fs) (ancestors p) then (Err (Plain "not a directory"), fs)
      else (Err (Sentinel ErrOsNotExist), fs)
  end).

Definition os_MkdirAll (p : string) : M file_system unit := os_call (λ fs,
  if existsb (has_file fs) (ancestors p ++ [p]) then (Err (Plain "not a directory"), fs)
  else (Ok tt, mkFS (files fs) (list_to_set (ancestors p ++ [p]) ∪ dirs fs) (os_faults fs))).

Definition os_Rename_to (p : string) (content : bytes) : M file_system unit := os_call (λ fs,
  if is_dir fs p then (Err (Plain "file exists"), fs)
  else (Ok tt, mkFS (<[p := content]> (files fs)) (dirs fs) (os_faults fs))).

Definition os_Remove (p : string) : M file_system unit := os_call (λ fs,
  if has_file fs p then (Ok tt, mkFS (delete p (files fs)) (dirs fs) (os_faults fs))
  else if is_dir fs p then
    if existsb (λ q, bool_decide (p ∈ ancestors q) || (bool_decide (p = ".") && negb (bool_decide (q = "."))))
         (map fst (map_to_list (files fs)) ++ elements (dirs fs))
    then (Err (Plain "directory not empty"), fs)
    else (Ok tt, mkFS (files fs) (dirs fs ∖ {[p]}) (os_faults fs))
  else if existsb (has_file fs) (ancestors p) then (Err (Plain "not a directory"), fs)
  else (Err (Sentinel ErrOsNotExist), fs)).

(** [if os.IsNotExist(err) { return ports.ErrNotFound }], or the error wrapped. *)
Definition not_found (what : string) (e : error) : error :=
  if errors_Is ErrOsNotExist e then Sentinel ErrNotFound else Errorf what e "".

Definition fs_Open (key : string) : M file_system bytes :=
  path ← lift (store_path key);
  wrap_err (not_found "open blob: ") (os_Open path).

(** A call with no lasting effect on the tree that may fail: creating, syncing
    and closing the temporary file. *)
Definition os_nop : M file_system unit := os_call (λ fs, (Ok tt, fs)).

Definition fs_Put (key : string) (source : reader) : M file_system unit :=
  path ← lift (store_path key);
  _ ← wrap_err (λ e, Errorf "create blob directory: " e "") (os_MkdirAll (Dir path));
  _ ← wrap_err (λ e, Errorf "create temporary blob: " e "") os_nop;
  content ← wrap_err (λ e, Errorf "write blob: " e "") (_ ← os_nop; lift (read_all source));
  _ ← wrap_err (λ e, Errorf "sync blob: " e "") os_nop;
  _ ← wrap_err (λ e, Errorf "close blob: " e "") os_nop;
  wrap_err (λ e, Errorf "commit blob: " e "") (os_Rename_to path content).

Definition fs_Delete (key : string) : M file_system unit :=
  path ← lift (store_path key);
  wrap_err (not_found "delete blob: ") (os_Remove path).

Definition fsBlobStore : BlobStore file_system := {|
  blob_Open := fs_Open;
  blob_Put := fs_Put;
  blob_Delete := fs_Delete;
|}.

#[local] Existing Instance fsBlobStore.

(** * The contract *)

Definition fs_file (key : string) : option string :=
  match store_path key with Ok p => Some p | Err _ => None end.

Lemma os_call_Ok {A} (f : file_system → res A * file_system) fs a fs' :
  os_call f fs = (Ok a, fs') →
  ∃ fs1, files fs1 = files fs ∧ dirs fs1 = dirs fs ∧ f fs1 = (Ok a, fs').
Proof.
  unfold os_call. destruct (os_faults fs) as [|[e|] rest]; [..|done|]; intros E;
    eexists; split_and!; [| |exact E| | |exact E]; done.
Qed.

Lemma os_call_Err {A} (f : file_system → res A * file_system) fs e fs' :
  os_call f fs = (Err e, fs') →
  (∃ m, e = Plain m ∧ files fs' = files fs) ∨
  ∃ fs1, files fs1 = files fs ∧ dirs fs1 = dirs fs ∧ f fs1 = (Err e, fs').
Proof.
  unfold os_call. destruct (os_faults fs) as [|[m|] rest]; [|intros [= <- <-]; eauto|];
    intros E; right; eexists; split_and!; [| |exact E| | |exact E]; done.
Qed.

Lemma os_call_clean {A} (f : file_system → res A * file_system) :
  (∀ fs e fs', f fs = (Err e, fs') → files fs' = files fs) → fails_clean files (os_call f).
Proof.
  intros Hf fs e fs' E. apply os_call_Err in E as [(m & -> & E)|(fs1 & E1 & _ & E)]; [done|].
  by rewrite (Hf _ _ _ E).
Qed.

Lemma os_Open_read_only p : read_only files (os_Open p).
Proof.
  intros fs [c|e] fs' E.
  - apply os_call_Ok in E as (fs1 & E1 & _ & E). by go_split.
  - revert E. apply os_call_clean. intros fs1 e1 fs1' E1. by go_split.
Qed.

Lemma os_nop_read_only : read_only files os_nop.
Proof.
  intros fs [c|e] fs' E.
  - apply os_call_Ok in E as (fs1 & E1 & _ & [= _ <-]). done.
  - revert E. apply os_call_clean. by intros ? ? ? [=].
Qed.

Lemma os_MkdirAll_read_only p : read_only files (os_MkdirAll p).
Proof.
  intros fs [c|e] fs' E.
  - apply os_call_Ok in E as (fs1 & E1 & _ & E). by go_split.
  - revert E. apply os_call_clean. intros fs1 e1 fs1' E1. by go_split.
Qed.

Lemma os_Rename_clean p c : fails_clean files (os_Rename_to p c).
Proof. apply os_call_clean. intros fs e fs' E. by go_split. Qed.

Lemma os_Remove_clean p : fails_clean files (os_Remove p).
Proof. apply os_call_clean. intros fs e fs' E. by go_split. Qed.

#[local] Hint Resolve os_Open_read_only os_nop_read_only os_MkdirAll_read_only os_Rename_clean
  os_Remove_clean : go.

Lemma not_found_inv what e :
  errors_Is ErrNotFound (not_found what e) = true →
  errors_Is ErrOsNotExist e = true ∨ errors_Is ErrNotFound e = true.
Proof. unfold not_found. destruct (errors_Is ErrOsNotExist e); auto. Qed.

Lemma os_Open_missing p fs e fs' : os_Open p fs = (Err e, fs') →
  errors_Is ErrNotFound e = false ∧ (errors_Is ErrOsNotExist e = true → files fs !! p = None).
Proof.
  intros E. apply os_call_Err in E as [(m & -> & _)|(fs1 & E1 & _ & E)]; [done|].
  rewrite <- E1. by go_split.
Qed.

Lemma os_Remove_missing p fs e fs' : os_Remove p fs = (Err e, fs') →
  errors_Is ErrNotFound e = false ∧ (errors_Is ErrOsNotExist e = true → files fs !! p = None).
Proof.
  intros E. apply os_call_Err in E as [(m & -> & _)|(fs1 & E1 & _ & E)]; [done|].
  rewrite <- E1. unfold has_file in E. go_split; try done. split; [done|]. intros _.
  match goal with H : bool_decide _ = false |- _ => apply bool_decide_eq_false in H end.
  by apply eq_None_not_Some.
Qed.

Lemma wrap_err_Err_inv {S A} g (m : M S A) s e s' :
  wrap_err g m s = (Err e, s') → ∃ e0, m s = (Err e0, s') ∧ e = g e0.
Proof. unfold wrap_err. destruct (m s) as [[?|e0] ?]; [done|]. intros [= <- <-]. eauto. Qed.

Lemma store_path_not_NotFound key e : store_path key = Err e → errors_Is ErrNotFound e = false.
Proof. unfold store_path. intros E. by go_split; simplify_eq. Qed.

Lemma store_path_file key p : store_path key = Ok p → fs_file key = Some p.
Proof. unfold fs_file. by intros ->. Qed.

Lemma fs_missing {A} key what (m : string → M file_system A) fs e fs' :
  (∀ p fs e fs', m p fs = (Err e, fs') →
     errors_Is ErrNotFound e = false ∧ (errors_Is ErrOsNotExist e = true → files fs !! p = None)) →
  (path ← lift (store_path key); wrap_err (not_found what) (m path)) fs = (Err e, fs') →
  errors_Is ErrNotFound e = true → ∀ f, fs_file key = Some f → files fs !! f = None.
Proof.
  intros Hm E Hnf f Hf. unfold fs_file in Hf. unfold mbind, M_bind, lift in E.
  destruct (store_path key) as [p|e1] eqn:Hp; [|done]. injection Hf as ->.
  apply wrap_err_Err_inv in E as (e0 & E & ->). apply Hm in E as [Hn Hi].
  apply not_found_inv in Hnf as [?|?]; [auto|congruence].
Qed.

Lemma fs_Put_clean key r : fails_clean files (fs_Put key r).
Proof. unfold fs_Put. go_clean. Qed.

Lemma fs_Delete_clean key : fails_clean files (fs_Delete key).
Proof. unfold fs_Delete. go_clean. Qed.

Definition fsBlobStore_laws : BlobStoreLaws file_system.
Proof.
  refine {| blob_file := fs_file; blobs := files |}.
  - intros key fs c fs' E. cbn in E. unfold fs_Open in E. inv_ok E.
    split; [by eapply os_Open_read_only|]. apply store_path_file in Hm.
    apply os_call_Ok in E as (fs1 & E1 & _ & E). rewrite <- E1.
    destruct (files fs1 !! a) eqn:Hf; go_split; simplify_eq. eauto.
  - intros key fs e fs' E. split.
    + revert E. apply fails_clean_read_only. unfold blob_Open; cbn. unfold fs_Open. go_clean.
    + eapply fs_missing, E. apply os_Open_missing.
  - intros key r fs u fs' E. cbn in E. unfold fs_Put in E. inv_ok E.
    apply store_path_file in Hm. apply os_MkdirAll_read_only in Hm0.
    repeat match goal with Hn : os_nop _ = _ |- _ => apply os_nop_read_only in Hn end.
    apply os_call_Ok in E as (fs1 & E1 & _ & E).
    destruct (is_dir fs1 a); [done|]. injection E as _ <-. cbn. exists a.
    eexists. split_and!; [done|done|]. congruence.
  - intros key r fs e fs'. by apply fs_Put_clean.
  - intros key fs u fs' E. cbn in E. unfold fs_Delete in E. inv_ok E.
    apply store_path_file in Hm. exists a. split; [done|].
    apply os_call_Ok in E as (fs1 & <- & _ & E). unfold has_file in E.
    go_split; cbn; [done|]. rewrite delete_id; [done|].
    match goal with H : bool_decide _ = false |- _ => apply bool_decide_eq_false in H end.
    by apply eq_None_not_Some.
  - intros key fs e fs' E. split.
    + by eapply fs_Delete_clean.
    + eapply fs_missing, E. apply os_Remove_missing.
Defined.

(** * Media keys name distinct files *)

Lemma media_path key : validCacheKey key = true →
  fs_file (mediaCacheBlobKey key) = Some
    (if bool_decide (key = ".") then "media"
     else if bool_decide (key = "..") then "." else "media/" +:+ key).
Proof.
  unfold validCacheKey. intros [Hne Hs]%andb_true_iff.
  apply negb_true_iff in Hne, Hs. apply bool_decide_eq_false in Hne.
  assert (lacks slash key) as Hl by (eapply ContainsAny_lacks; [done|by left]).
  unfold fs_file, store_path, mediaCacheBlobKey.
  assert (Clean ("media/" +:+ key) =
    if bool_decide (key = ".") then "media"
    else if bool_decide (key = "..") then "." else "media/" +:+ key) as ->.
  { unfold Clean. change (HasPrefix ("media/" +:+ key) "/") with false.
    assert (Split slash ("media/" +:+ key) = ["media"; key]) as ->.
    { change (Split slash ("media/" +:+ key)) with ("media" :: Split slash key).
      by rewrite Split_lacks. }
    unfold clean_stack; cbn [fold_left]. unfold clean_step at 2; cbn.
    unfold clean_step. rewrite (bool_decide_eq_false_2 (key = "")) by done.
    destruct (decide (key = ".")) as [->|Hd]; [done|].
    destruct (decide (key = "..")) as [->|Hdd]; [done|].
    by rewrite (bool_decide_eq_false_2 (key = ".")), (bool_decide_eq_false_2 (key = "..")) by done. }
  destruct (decide (key = ".")) as [->|Hd]; [done|].
  destruct (decide (key = "..")) as [->|Hdd]; [done|].
  rewrite (bool_decide_eq_false_2 (key = ".")), (bool_decide_eq_false_2 (key = "..")) by done.
  done.
Qed.

#[local] Existing Instance fsBlobStore_laws.

Lemma media_files_distinct : files_distinct (B := file_system).
Proof.
  intros k1 k2 f H1 H2. unfold file_of; cbn. rewrite !media_path by done.
  repeat case_bool_decide; intros Hf1 Hf2; simplify_eq; done.
Qed.
