(* ===== verification/CacheTheorems.v ===== *)
(** What the media cache guarantees, over every pair of stores that keep their
    contracts, and on SQLite and the file system in particular. *)
From stdpp Require Import base gmap strings list sorting.
From Stdlib Require Import ZArith Lia Ascii.
From S2P Require Import Prelude GoStrings GoTime Sql MediaCache SqlCache BlobFiles.

Open Scope Z_scope.
Open Scope go_scope.

Section theorems.
Context {B C : Type} `{BlobStoreLaws B} `{CacheMetadataLaws C}.
Context (maxBytes : Z).

(** The victims an eviction chose, as [eviction_is_exact_lru] describes them. *)
Record eviction (p : string) (w w' : cache_world B C) (victims : list CacheEntry) : Prop := {
  ev_entries : cached w' = drop_entries victims (cached w);
  ev_files : stored w' = drop_files victims (stored w);
  ev_legal v : v ∈ victims → cached w !! Key v = Some v ∧ evictable p v = true;
  ev_enough : cached_bytes w' ≤ maxBytes ∨ ∀ k e, cached w' !! k = Some e → evictable p e = false;
  ev_lru v k e : v ∈ victims → cached w' !! k = Some e → evictable p e = true → lru_less e v = false;
  ev_needed : needed maxBytes (cached_bytes w) victims;
}.

Lemma pruneLocked_Ok p w n w' :
  0 ≤ maxBytes → cached_bytes w < 2 ^ 63 →
  pruneLocked maxBytes p w = (Ok n, w') →
  n = cached_bytes w' ∧ ∃ victims, eviction p w w' victims.
Proof.
  intros Hmax Hb Hrun. unfold pruneLocked in Hrun. inv_ok Hrun.
  apply listing_Ok in Hm as (Hc & Hs & Hsort & Hnd & Hin & Hkey & Hnn & Hsum).
  rewrite i64_sum_spec in Hrun; [|by apply Forall_map|lia].
  apply prune_loop_Ok in Hrun as (vs & rest & Hf & Hc' & Hs' & Hn & Hend & Hneed); [|done..|lia].
  rewrite Hsum in *. rewrite Hc in Hc'. rewrite Hs in Hs'.
  assert (∀ v, v ∈ vs ++ rest ↔ v ∈ a ∧ evictable p v = true) as Hvs.
  { intros v. by rewrite <- Hf, elem_of_filter_bool. }
  setoid_rewrite elem_of_app in Hvs.
  assert (NoDup (map Key vs)) as Hndv.
  { assert (NoDup (map Key (vs ++ rest))) as Hnd' by (rewrite <- Hf; by apply NoDup_map_filter).
    rewrite map_app in Hnd'. by apply NoDup_app in Hnd' as [? _]. }
  assert (cached_bytes w' = n) as Hbytes.
  { unfold cached_bytes. rewrite Hc', drop_entries_sizes; [done..|].
    intros v Hv. apply Hin, Hvs. auto. }
  assert (∀ k e, cached w' !! k = Some e → evictable p e = true → e ∈ rest) as Hrest.
  { intros k e He Hev. rewrite Hc' in He. apply drop_entries_lookup in He as [He Hk].
    pose proof (Hkey _ _ He) as ->. apply Hin in He.
    destruct (proj2 (Hvs e)) as [Hi|Hi]; [done| |done].
    destruct Hk. by apply list_elem_of_fmap_2. }
  split; [done|]. exists vs. split; try done.
  - intros v Hv. rewrite <- Hin. apply Hvs. auto.
  - rewrite Hbytes. destruct Hend as [?| ->]; [by left|right]. intros k e He.
    destruct (evictable p e) eqn:Hev; [|done]. exfalso. specialize (Hrest _ _ He Hev). 
    by rewrite elem_of_nil in Hrest.
  - intros v k e Hv He Hev. eapply sorted_by_app; [|done|by eapply Hrest].
    rewrite <- Hf. by apply sorted_by_filter.
Qed.

Lemma eviction_coherent p w w' vs :
  files_distinct (B := B) → coherent w → eviction p w w' vs → coherent w'.
Proof.
  intros Hfd Hco Hev. split.
  - intros k e He. rewrite (ev_entries _ _ _ _ Hev) in He.
    apply drop_entries_lookup in He as [He _]. by eapply coh_valid.
  - intros k e He. rewrite (ev_entries _ _ _ _ Hev) in He.
    apply drop_entries_lookup in He as [He Hk].
    destruct (coh_entry _ Hco _ _ He) as (f & c & Hf & Hc & Hsz).
    exists f, c. split_and!; [done| |done]. rewrite (ev_files _ _ _ _ Hev).
    apply drop_files_lookup. split; [done|]. intros v Hv Hfv. apply Hk.
    destruct (ev_legal _ _ _ _ Hev _ Hv) as [Hcv _].
    rewrite (Hfd k (Key v) f); [by apply list_elem_of_fmap_2|by eapply coh_valid..|done|done].
  - intros k f c Hk Hf Hc. rewrite (ev_files _ _ _ _ Hev) in Hc.
    apply drop_files_lookup in Hc as [Hc Hv].
    destruct (coh_blob _ Hco _ _ _ Hk Hf Hc) as [e He]. exists e.
    rewrite (ev_entries _ _ _ _ Hev). apply drop_entries_lookup. split; [done|].
    intros (v & -> & Hin)%list_elem_of_fmap. by apply (Hv v).
Qed.
Lemma remove_coherent k w u w' :
  files_distinct (B := B) → coherent w → validCacheKey k = true →
  removeLocked (B:=B) (C:=C) k w = (Ok u, w') → coherent w'.
Proof.
  intros Hfd Hco Hk Hr. apply removeLocked_run in Hr as [Hc Hs].
  split.
  - intros k' e. rewrite Hc, lookup_delete_Some. intros [_ ?]. by eapply coh_valid.
  - intros k' e. rewrite Hc, lookup_delete_Some. intros [Hne He].
    destruct (coh_entry _ Hco _ _ He) as (f & c & Hf & Hfc & Hsz). exists f, c.
    split_and!; [done| |done]. rewrite Hs. unfold drop_file.
    destruct (file_of k) as [f'|] eqn:Hf'; [|done]. apply lookup_delete_Some. split; [|done].
    intros ->. apply Hne. eapply Hfd; eauto using coh_valid.
  - intros k' f c Hk' Hf. rewrite Hs, Hc. unfold drop_file. intros Hfc.
    assert (k' ≠ k) as Hne.
    { intros ->. rewrite Hf in Hfc. by rewrite lookup_delete_eq in Hfc. }
    rewrite lookup_delete_ne by done. eapply (coh_blob _ Hco _ f c); [done..|].
    destruct (file_of k); [|done]. by apply lookup_delete_Some in Hfc as [_ ?].
Qed.

(** What [Put] has done when it starts to evict. *)
Record put_done (now : time) (key : string) (source : reader) (pinned : bool)
    (w ws : cache_world B C) : Prop := {
  pd_valid : validCacheKey key = true;
  pd_entry : cached ws = <[key := mkEntry key (counted source) now pinned]> (cached w);
  pd_file : ∃ f c, file_of key = Some f ∧ read_all source = Ok c ∧ stored ws = <[f := c]> (stored w);
}.

Lemma Put_run now key source pinned w r w' :
  Put maxBytes now key source pinned w = (r, w') →
  match r with
  | Ok _ => ∃ ws n, put_done now key source pinned w ws ∧
              pruneLocked maxBytes key ws = (Ok n, w') ∧ (n ≤ maxBytes ∨ pinned = true)
  | Err e => e = Errorf ("cache media " +:+ key +:+ ": ") (Sentinel ErrCacheCapacity) "" →
             ∃ ws wp n u, put_done now key source pinned w ws ∧
               pruneLocked maxBytes key ws = (Ok n, wp) ∧ maxBytes < n ∧ pinned = false ∧
               removeLocked key wp = (Ok u, w')
  end.
Proof.
  unfold Put. destruct (validCacheKey key) eqn:Hk; [|by intros [= <- <-]].
  cbn [negb]. unfold mbind at 1, M_bind at 1, wrap_err at 1.
  destruct (on_blobs _ w) as [[u|e] wb] eqn:Eb; [|by intros [= <- <-]].
  apply on_blobs_run in Eb as (b & Eb & ->). apply law_blob_Put in Eb as (f & c & Hf & Hc & Hb).
  unfold Put_locked. unfold mbind at 1, M_bind at 1, try at 1.
  destruct (on_meta _ _) as [[u1|e1] ws] eqn:Es; cycle 1.
  { unfold mbind, M_bind, try. destruct (on_blobs _ ws) as [r2 w2]. by intros [= <- <-]. }
  apply save_Ok in Es as [Hcs Hss].
  assert (put_done now key source pinned w ws) as Hpd.
  { split; [done|by rewrite Hcs|]. exists f, c. split_and!; [done..|]. rewrite Hss. exact Hb. }
  unfold mbind at 1, M_bind at 1.
  destruct (pruneLocked maxBytes key ws) as [[n|e2] wp] eqn:Ep; cycle 1.
  { intros [= <- <-] He. exfalso. clear -Ep He. subst e2.
    unfold pruneLocked, mbind, M_bind, wrap_err in Ep.
    destruct (on_meta _ ws) as [[l|?] wl]; [|done]. revert wl Ep.
    generalize (i64_sum (map Size l)). induction l as [|x l IH]; intros size wl; simpl; [done|].
    destruct (size <=? maxBytes); [done|]. destruct (_ || _); [by apply IH|].
    unfold mbind, M_bind, wrap_err. destruct (removeLocked (Key x) wl) as [[?|?] ?]; [by apply IH|done]. }
  destruct (n >? maxBytes) eqn:Hn; cbn [andb]; cycle 1.
  { intros [= <- <-]. exists ws, n. split_and!; [done..|]. left; lia. }
  destruct pinned; cbn [negb].
  { intros [= <- <-]. exists ws, n. auto. }
  unfold mbind, M_bind, wrap_err. destruct (removeLocked key wp) as [[u3|e3] w3] eqn:Er.
  - intros [= <- <-] _. exists ws, wp, n, u3. split_and!; auto; lia.
  - by intros [= <- <-] [=].
Qed.

Lemma counted_spec source c :
  read_all source = Ok c → Z.of_nat (length c) < 2 ^ 63 → counted source = Z.of_nat (length c).
Proof.
  unfold read_all, counted. destruct (read_error source); [done|]. intros [= <-] Hb.
  assert (Zsum (map (λ c, Z.of_nat (length c)) (chunks source)) =
    Z.of_nat (length (concat (chunks source)))) as Hs.
  { clear Hb. induction (chunks source) as [|x l IH]; simpl; [done|]. rewrite length_app. lia. }
  rewrite i64_sum_spec; [done| |lia]. apply Forall_map, Forall_forall. intros; lia.
Qed.

Lemma put_done_coherent now key source pinned w ws :
  files_distinct (B := B) → coherent w → put_done now key source pinned w ws →
  (∀ c, read_all source = Ok c → Z.of_nat (length c) < 2 ^ 63) → coherent ws.
Proof.
  intros Hfd Hco [Hk Hc (f & c & Hf & Hr & Hs)] Hb.
  pose proof (counted_spec _ _ Hr (Hb _ Hr)) as Hcount. split.
  - intros k e. rewrite Hc. intros [[<- _]|[_ ?]]%lookup_insert_Some; [done|by eapply coh_valid].
  - intros k e. rewrite Hc. intros [[<- <-]|[Hne He]]%lookup_insert_Some.
    + exists f, c. split_and!; [done| |done]. by rewrite Hs, lookup_insert_eq.
    + destruct (coh_entry _ Hco _ _ He) as (f' & c' & Hf' & Hc' & Hsz).
      exists f', c'. split_and!; [done| |done]. rewrite Hs, lookup_insert_ne; [done|].
      intros ->. apply Hne. eapply Hfd; eauto using coh_valid.
  - intros k f' c' Hk' Hf'. rewrite Hs, Hc. destruct (decide (k = key)) as [->|Hne].
    + rewrite lookup_insert_eq. eauto.
    + rewrite !lookup_insert_ne; [by eapply coh_blob|done|]. intros ->. by apply Hne, (Hfd k key f').
Qed.

(** No addition of the cache's accounting overflows during a [Put]. *)
Definition put_fits (w : cache_world B C) (source : reader) : Prop :=
  ∀ c, read_all source = Ok c → cached_bytes w + Z.of_nat (length c) < 2 ^ 63.

Lemma cached_bytes_nonneg (w : cache_world B C) : 0 ≤ cached_bytes w.
Proof.
  unfold cached_bytes, sizes. apply Zsum_nonneg, Forall_forall. intros z.
  intros (e & -> & ([k e'] & -> & He)%list_elem_of_fmap)%list_elem_of_fmap.
  apply elem_of_map_to_list in He. by apply law_entries_wf in He as [_ ?].
Qed.

Lemma put_done_fits now key source pinned w ws :
  put_done now key source pinned w ws → put_fits w source → cached_bytes ws < 2 ^ 63.
Proof.
  intros [Hk Hc (f & c & Hf & Hr & Hs)] Hb. specialize (Hb _ Hr).
  pose proof (cached_bytes_nonneg w). pose proof (counted_spec _ _ Hr ltac:(lia)) as Hcount.
  unfold cached_bytes. rewrite Hc.
  pose proof (sizes_insert (cached w) key (mkEntry key (counted source) now pinned)) as Hins.
  cbn in Hins. rewrite Hcount in *.
  assert (∀ k' e', cached w !! k' = Some e' → 0 ≤ Size e') as Hnn.
  { intros k' e' He. by apply law_entries_wf in He as [_ ?]. }
  specialize (Hins ltac:(lia) Hnn). unfold cached_bytes in *. lia.
Qed.
Lemma put_Ok_state now key source pinned w u w' :
  files_distinct (B := B) → 0 ≤ maxBytes → coherent w → put_fits w source →
  Put maxBytes now key source pinned w = (Ok u, w') →
  coherent w' ∧ (∃ f c, file_of key = Some f ∧ read_all source = Ok c ∧ stored w' !! f = Some c ∧
    cached w' !! key = Some (mkEntry key (Z.of_nat (length c)) now pinned)) ∧
  (pinned = false → cached_bytes w' ≤ maxBytes).
Proof.
  intros Hfd Hmax Hco Hb Hrun. apply Put_run in Hrun as (ws & n & Hpd & Hprune & Hn).
  assert (∀ c, read_all source = Ok c → Z.of_nat (length c) < 2 ^ 63) as Hlen.
  { intros c Hc. specialize (Hb _ Hc). pose proof (cached_bytes_nonneg w). lia. }
  assert (coherent ws) as Hcs by eauto using put_done_coherent.
  apply pruneLocked_Ok in Hprune as [-> [vs Hev]]; [|done|by eauto using put_done_fits].
  assert (coherent w') as Hco' by eauto using eviction_coherent.
  split; [done|]. split; [|intros ->; destruct Hn; [done|discriminate]].
  destruct (pd_file _ _ _ _ _ _ Hpd) as (f & c & Hf & Hr & Hs). exists f, c.
  rewrite <- (counted_spec _ _ Hr (Hlen _ Hr)).
  assert (cached w' !! key = Some (mkEntry key (counted source) now pinned)) as He.
  { rewrite (ev_entries _ _ _ _ Hev), drop_entries_lookup, (pd_entry _ _ _ _ _ _ Hpd).
    rewrite lookup_insert_eq. split; [done|]. intros (v & Hk & Hv)%list_elem_of_fmap.
    destruct (ev_legal _ _ _ _ Hev _ Hv) as [_ Hl]. unfold evictable in Hl.
    by rewrite <- Hk, bool_decide_eq_true_2, orb_true_r in Hl. }
  split_and!; [done|done| |done]. destruct (coh_entry _ Hco' _ _ He) as (f' & c' & Hf' & Hc' & _).
  assert (f' = f) as -> by congruence. rewrite (ev_files _ _ _ _ Hev) in Hc' |- *.
  rewrite drop_files_lookup, Hs, lookup_insert_eq. split; [done|].
  by apply drop_files_lookup in Hc' as [_ ?].
Qed.

(** C21. [MediaCache.Put], on a coherent cache whose sizes do not overflow: when
    it succeeds, the entry and the bytes of the key are the ones it was given,
    every entry still has its bytes, and unless the entry is pinned the whole
    cache fits its capacity; when it is refused for capacity, neither an entry
    nor bytes of the key are left, and the cache is coherent. *)
Theorem put_keeps_cache_within_capacity now key source pinned w r w' :
  files_distinct (B := B) → 0 ≤ maxBytes → coherent w → put_fits w source →
  Put maxBytes now key source pinned w = (r, w') →
  match r with
  | Ok _ =>
      coherent w' ∧ (pinned = false → cached_bytes w' ≤ maxBytes) ∧
      ∃ f c, file_of key = Some f ∧ read_all source = Ok c ∧ stored w' !! f = Some c ∧
        cached w' !! key = Some (mkEntry key (Z.of_nat (length c)) now pinned)
  | Err e =>
      e = Errorf ("cache media " +:+ key +:+ ": ") (Sentinel ErrCacheCapacity) "" →
      coherent w' ∧ pinned = false ∧ cached w' !! key = None ∧
      ∀ f, file_of key = Some f → stored w' !! f = None
  end.
Proof.
  intros Hfd Hmax Hco Hb Hrun. destruct r as [u|e].
  - apply put_Ok_state in Hrun as (? & ? & ?); auto.
  - intros He. apply Put_run in Hrun. destruct (Hrun He) as (ws & wp & n & u & Hpd & Hp & _ & -> & Hr).
    assert (coherent ws) as Hcs.
    { eapply put_done_coherent; [done..|]. intros c Hc. specialize (Hb _ Hc).
      pose proof (cached_bytes_nonneg w). lia. }
    apply pruneLocked_Ok in Hp as [-> [vs Hev]]; [|done|by eauto using put_done_fits].
    assert (coherent w') as Hco'.
    { eapply remove_coherent, Hr; [done| |apply Hpd]. by eauto using eviction_coherent. }
    apply removeLocked_run in Hr as [Hc Hs].
    split_and!; [done..|by rewrite Hc, lookup_delete_eq|].
    intros f Hf. rewrite Hs. unfold drop_file. by rewrite Hf, lookup_delete_eq.
Qed.

(** C22. [pruneLocked], the eviction every operation uses: it reports the size
    that is left; it removes only unpinned entries other than the protected
    one, with their bytes, and nothing else; no evictable entry it keeps comes
    before one it removed in the listing order; it stops as soon as the cache
    fits; and what is left fits, or has no evictable entry. *)
Theorem eviction_is_exact_lru p w n w' :
  0 ≤ maxBytes → cached_bytes w < 2 ^ 63 →
  pruneLocked maxBytes p w = (Ok n, w') →
  n = cached_bytes w' ∧ ∃ victims,
    (∀ k e, cached w' !! k = Some e ↔ cached w !! k = Some e ∧ k ∉ map Key victims) ∧
    (∀ f c, stored w' !! f = Some c ↔
            stored w !! f = Some c ∧ ∀ v, v ∈ victims → file_of (Key v) ≠ Some f) ∧
    (∀ v, v ∈ victims → cached w !! Key v = Some v ∧ Pinned v = false ∧ Key v ≠ p) ∧
    (∀ v k e, v ∈ victims → cached w' !! k = Some e → evictable p e = true → lru_less e v = false) ∧
    (∀ vs v, victims = vs ++ [v] → maxBytes < cached_bytes w - Zsum (map Size vs)) ∧
    (n ≤ maxBytes ∨ ∀ k e, cached w' !! k = Some e → Pinned e = true ∨ Key e = p).
Proof.
  intros Hmax Hb Hrun. apply pruneLocked_Ok in Hrun as [-> [vs Hev]]; [|done..].
  split; [done|]. exists vs. split_and!.
  - intros k e. rewrite (ev_entries _ _ _ _ Hev). apply drop_entries_lookup.
  - intros f c. rewrite (ev_files _ _ _ _ Hev). apply drop_files_lookup.
  - intros v Hv. destruct (ev_legal _ _ _ _ Hev _ Hv) as [? Hl]. unfold evictable in Hl.
    apply negb_true_iff, orb_false_iff in Hl as [? Hl]. by apply bool_decide_eq_false in Hl.
  - apply (ev_lru _ _ _ _ Hev).
  - apply (ev_needed _ _ _ _ Hev).
  - destruct (ev_enough _ _ _ _ Hev) as [?|Hall]; [by left|right]. intros k e He.
    specialize (Hall _ _ He). unfold evictable in Hall.
    apply negb_false_iff, orb_true_iff in Hall as [?|Hk]; [by left|].
    right. by apply bool_decide_eq_true in Hk.
Qed.

(** The preconditions of a call: [Put] must not overflow the accounting, and a
    removed key must be one [Put] accepts. *)
Definition call_fits (c : cache_call) (w : cache_world B C) : Prop :=
  match c with
  | CPut _ _ source _ => put_fits w source
  | CRemove key => validCacheKey key = true
  | _ => True
  end ∧ cached_bytes w < 2 ^ 63.

Lemma replace_coherent w ws e e' :
  coherent w → cached w !! Key e = Some e → Key e' = Key e → Size e' = Size e →
  cached ws = <[Key e' := e']> (cached w) → stored ws = stored w →
  coherent ws ∧ cached_bytes ws = cached_bytes w.
Proof.
  intros Hco He Hk Hsz Hc Hs. split; [split|].
  - intros k x. rewrite Hc. intros [[<- _]|[_ ?]]%lookup_insert_Some; [|by eapply coh_valid].
    rewrite Hk. by eapply coh_valid.
  - intros k x. rewrite Hc, Hs. intros [[<- <-]|[_ ?]]%lookup_insert_Some; [|by apply coh_entry].
    rewrite Hk, Hsz. by apply coh_entry.
  - intros k f c Hv Hf Hfc. rewrite Hs in Hfc. rewrite Hc.
    destruct (coh_blob _ Hco _ _ _ Hv Hf Hfc) as [x Hx].
    destruct (decide (k = Key e')) as [->|?]; [rewrite lookup_insert_eq|rewrite lookup_insert_ne]; eauto.
  - unfold cached_bytes. rewrite Hc, (sizes_delete _ (Key e') e') by apply lookup_insert_eq.
    rewrite delete_insert_eq, (sizes_delete (cached w) (Key e) e) by done. rewrite Hk. lia.
Qed.
Lemma Open_run now key w r w' :
  Open now key w = (r, w') →
  match r with
  | Ok c => ∃ e f, cached w !! key = Some e ∧ Key e = key ∧ file_of key = Some f ∧
              stored w !! f = Some c ∧ stored w' = stored w ∧
              cached w' = <[key := mkEntry key (Size e) now (Pinned e)]> (cached w)
  | Err x => stored w' = stored w ∧ (cached w' = cached w ∨ cached w' = delete key (cached w)) ∧
             (x = Sentinel ErrNotFound →
              cached w !! key = None ∨ ∀ f, file_of key = Some f → stored w !! f = None)
  end.
Proof.
  unfold Open. unfold mbind at 1, M_bind at 1.
  destruct (on_meta _ w) as [[e|x] w1] eqn:E1; cycle 1.
  { intros [= <- <-]. apply lookup_Err in E1 as (? & ? & Hn). split_and!; [done|by left|].
    intros ->. left. by apply Hn. }
  apply lookup_Ok in E1 as (Hc1 & Hs1 & He).
  assert (Key e = key) as <- by (by apply law_entries_wf in He as [? _]).
  unfold mbind at 1, M_bind at 1, try at 1.
  destruct (on_blobs _ w1) as [[c|x] w2] eqn:E2; apply on_blobs_run in E2 as (b & E2 & ->).
  - apply law_blob_Open in E2 as (Hb & f & Hf & Hc).
    unfold mbind, M_bind, wrap_err.
    destruct (on_meta _ _) as [[u|x] w3] eqn:E3.
    + intros [= <- <-]. apply save_Ok in E3 as [-> ->]. exists e, f.
      change (stored (mkWorld b (w_meta w1))) with (blobs b). rewrite Hb.
      split_and!; [done|done|done| | |].
      * rewrite <- Hs1. exact Hc.
      * rewrite <- Hs1. done.
      * change (cached (mkWorld b (w_meta w1))) with (cached w1). by rewrite Hc1.
    + intros [= <- <-]. apply save_Err in E3 as [Hc3 Hs3]. rewrite Hc3, Hs3.
      change (stored (mkWorld b (w_meta w1))) with (blobs b). rewrite Hb.
      split_and!; [exact Hs1|left; exact Hc1|done].
  - apply law_blob_Open_err in E2 as [Hb Hn].
    assert (stored (mkWorld b (w_meta w1)) = stored w) as Hs2.
    { rewrite <- Hs1. exact Hb. }
    assert (cached (mkWorld b (w_meta w1)) = cached w) as Hc2 by exact Hc1.
    destruct (errors_Is ErrNotFound x) eqn:Hx.
    + unfold mbind, M_bind, try. destruct (on_meta _ _) as [r3 w3] eqn:E3. intros [= <- <-].
      assert (stored w3 = stored w ∧ (cached w3 = cached w ∨ cached w3 = delete (Key e) (cached w)))
        as [? ?].
      { destruct r3; [apply forget_Ok in E3 as [-> ->]|apply forget_Err in E3 as [-> ->]];
          rewrite Hc2; auto. }
      split_and!; [done..|]. intros _. right. intros f Hf. unfold stored in *.
      rewrite <- Hs1. by apply Hn.
    + intros [= <- <-]. split_and!; [done|by left|]. intros [=].
Qed.

(** Coherence is an invariant of the cache: an entry has its bytes and their
    size is the recorded one, and no bytes are left without an entry.  Every
    call that succeeds preserves it. *)
Theorem cache_calls_keep_coherence c w u w' :
  files_distinct (B := B) → 0 ≤ maxBytes → coherent w → call_fits c w →
  run_cache_call maxBytes c w = (Ok u, w') → coherent w'.
Proof.
  intros Hfd Hmax Hco [Hfit Hb] Hrun.
  assert (∀ p ws n w2, coherent ws → cached_bytes ws < 2 ^ 63 →
    pruneLocked maxBytes p ws = (Ok n, w2) → coherent w2) as Hprune.
  { intros p ws n w2 Hws Hbs Hp. apply pruneLocked_Ok in Hp as [_ [vs Hev]]; [|done..].
    by eapply eviction_coherent. }
  destruct c as [now key src pinned|now key|key pinned|key|]; cbn [run_cache_call] in Hrun.
  - apply put_Ok_state in Hrun as (? & _); auto.
  - inv_ok Hrun. apply Open_run in Hm as (e & f & He & Hk & _ & _ & Hs & Hc).
    eapply (replace_coherent w _ e (mkEntry key (Size e) now (Pinned e))); try done.
    by rewrite Hk.
  - unfold SetPinned in Hrun. inv_ok Hrun; subst.
    + apply lookup_Ok in Hm as (Hc1 & Hs1 & He). apply save_Ok in Hm0 as [Hc2 Hs2].
      assert (Key a = key) as <- by (by apply law_entries_wf in He as [? _]).
      destruct (replace_coherent w s0 a (mkEntry (Key a) (Size a) (LastAccessed a) pinned)) as [? Hsz];
        try done; [by rewrite Hc2, Hc1|by rewrite Hs2, Hs1|].
      eapply Hprune; [done| |done]. by rewrite Hsz.
    + apply lookup_Ok in Hm as (Hc1 & Hs1 & He). apply save_Ok in Hm0 as [Hc2 Hs2].
      assert (Key a = key) as <- by (by apply law_entries_wf in He as [? _]).
      eapply (replace_coherent w _ a (mkEntry (Key a) (Size a) (LastAccessed a) pinned));
        try done; [by rewrite Hc2, Hc1|by rewrite Hs2, Hs1].
  - by eapply remove_coherent.
  - unfold Prune in Hrun. inv_ok Hrun. by eapply Hprune.
Qed.

Lemma prune_keeps k e p w r w' :
  files_distinct (B := B) → (∀ k e, cached w !! k = Some e → validCacheKey k = true) →
  cached w !! k = Some e → Pinned e = true ∨ k = p →
  pruneLocked maxBytes p w = (r, w') → keeps k w w'.
Proof.
  intros Hfd Hv He Hp. unfold pruneLocked, mbind, M_bind, wrap_err.
  destruct (on_meta _ w) as [[l|x] w1] eqn:E1.
  - apply listing_Ok in E1 as (Hc & Hs & _ & _ & Hin & _). intros Hrun.
    eapply keeps_trans; [by apply keeps_same|].
    eapply prune_loop_keeps, Hrun; [done|by eapply Hv|apply Forall_forall..].
    + intros x Hx. apply Hin in Hx. by eapply Hv.
    + intros x Hx Hev <-. apply Hin in Hx. assert (x = e) as -> by congruence.
      unfold evictable in Hev. destruct Hp as [Hp|Hp]; rewrite Hp in Hev; [done|].
      by rewrite bool_decide_eq_true_2, orb_true_r in Hev.
  - intros [= <- <-]. apply on_meta_run in E1 as (c & E1 & ->).
    apply law_CacheEntries_err in E1. by apply keeps_same.
Qed.
Lemma save_keeps k e w r w' :
  Key e ≠ k → on_meta (B:=B) (meta_SaveCacheEntry e) w = (r, w') → keeps k w w'.
Proof.
  intros Hne Hr. destruct r; [apply save_Ok in Hr as [Hc Hs]|apply save_Err in Hr as [Hc Hs]].
  - split; [by rewrite Hc, lookup_insert_ne|intros; by rewrite Hs].
  - by apply keeps_same.
Qed.

Lemma discard_keeps k key w r w' :
  files_distinct (B := B) → validCacheKey k = true → validCacheKey key = true → key ≠ k →
  on_blobs (C:=C) (blob_Delete (mediaCacheBlobKey key)) w = (r, w') → keeps k w w'.
Proof.
  intros Hfd Hk Hkey Hne Hr. apply discard_blob in Hr as [Hc Hs]. split; [by rewrite Hc|].
  intros f Hf. destruct r as [u|x]; [|by destruct Hs as [-> _]]. rewrite Hs. unfold drop_file.
  destruct (file_of key) as [f'|] eqn:Hf'; [|done]. apply lookup_delete_ne.
  intros ->. by apply Hne, (Hfd key k f).
Qed.

(** A [Put] of another key leaves a pinned entry and its bytes alone. *)
Lemma Put_keeps k e now key source pinned w r w' :
  files_distinct (B := B) → (∀ k e, cached w !! k = Some e → validCacheKey k = true) →
  cached w !! k = Some e → Pinned e = true → key ≠ k →
  Put maxBytes now key source pinned w = (r, w') → keeps k w w'.
Proof.
  intros Hfd Hv He Hp Hne. unfold Put. destruct (validCacheKey key) eqn:Hk; cycle 1.
  { intros [= <- <-]. apply keeps_refl. }
  cbn [negb]. unfold mbind at 1, M_bind at 1, wrap_err at 1.
  assert (validCacheKey k = true) as Hvk by eauto.
  destruct (on_blobs _ w) as [[u|x] wb] eqn:Eb; apply on_blobs_run in Eb as (b & Eb & ->); cycle 1.
  { intros [= <- <-]. apply keeps_same; [done|]. by apply law_blob_Put_err in Eb. }
  apply law_blob_Put in Eb as (f & c & Hf & Hc & Hb).
  assert (keeps k w (mkWorld b (w_meta w))) as Hkb.
  { split; [done|]. intros g Hg. unfold stored; cbn. rewrite Hb. apply lookup_insert_ne.
    intros ->. by apply Hne, (Hfd key k g). }
  set (wb := mkWorld b (w_meta w)) in *. intros Hrun. eapply keeps_trans; [exact Hkb|].
  assert (∀ k e, cached wb !! k = Some e → validCacheKey k = true) as Hvb by exact Hv.
  assert (cached wb !! k = Some e) as Heb by exact He. clearbody wb. clear Hb Hkb.
  unfold Put_locked, mbind at 1, M_bind at 1, try at 1 in Hrun.
  destruct (on_meta _ wb) as [[u1|x] ws] eqn:Es; pose proof (save_keeps k (mkEntry key (counted source) now pinned) _ _ _ Hne Es) as Hks;
    (eapply keeps_trans; [exact Hks|]); cycle 1.
  { unfold mbind, M_bind, try in Hrun. destruct (on_blobs _ ws) as [r2 w2] eqn:E2.
    injection Hrun as <- <-.
    exact (discard_keeps k key _ _ _ Hfd Hvk Hk Hne E2). }
  apply save_Ok in Es as [Hcs _].
  assert (∀ k e, cached ws !! k = Some e → validCacheKey k = true) as Hvs.
  { intros k' e'. rewrite Hcs. intros [[<- _]|[_ ?]]%lookup_insert_Some; eauto. }
  assert (cached ws !! k = Some e) as Hes by (destruct Hks as [-> _]; done).
  unfold mbind at 1, M_bind at 1 in Hrun.
  destruct (pruneLocked maxBytes key ws) as [[n|x] wp] eqn:Ep;
    pose proof (prune_keeps _ _ _ _ _ _ Hfd Hvs Hes (or_introl Hp) Ep) as Hkp;
    (eapply keeps_trans; [exact Hkp|]); [|injection Hrun as <- <-; apply keeps_refl].
  destruct (_ && _); [|injection Hrun as <- <-; apply keeps_refl].
  unfold mbind, M_bind, wrap_err in Hrun. destruct (removeLocked key wp) as [[u3|x] w3] eqn:Er;
    apply (removeLocked_keeps k) in Er; try done; by injection Hrun as <- <-.
Qed.

(** Pinned media survive: whatever a call on another key does, and however
    it ends, a pinned entry and its bytes are still there and unchanged. *)
Theorem pinned_media_survives c w r w' k e :
  files_distinct (B := B) → coherent w → call_fits c w →
  cached w !! k = Some e → Pinned e = true → call_key c ≠ Some k →
  run_cache_call maxBytes c w = (r, w') →
  cached w' !! k = Some e ∧ ∃ f b, file_of k = Some f ∧ stored w !! f = Some b ∧ stored w' !! f = Some b.
Proof.
  intros Hfd Hco Hfit He Hp Hck Hrun.
  assert (∀ k e, cached w !! k = Some e → validCacheKey k = true) as Hv by apply Hco.
  assert (keeps k w w') as [Hkc Hks].
  { destruct c as [now key src pinned|now key|key pinned|key|]; cbn in Hck, Hrun.
    - eapply Put_keeps; [..|exact Hrun]; eauto. congruence.
    - assert (key ≠ k) by congruence. unfold mbind, M_bind in Hrun.
      destruct (Open now key w) as [[a|x] w1] eqn:Eo; injection Hrun as <- <-; apply Open_run in Eo.
      + destruct Eo as (e1 & f & _ & _ & _ & _ & Hs & Hc).
        split; [by rewrite Hc, lookup_insert_ne|intros; by rewrite Hs].
      + destruct Eo as (Hs & [Hc|Hc] & _); (split; [rewrite Hc|intros; by rewrite Hs]); [done|].
        by rewrite lookup_delete_ne.
    - assert (key ≠ k) as Hne by congruence. unfold SetPinned, mbind at 1, M_bind at 1 in Hrun.
      destruct (on_meta _ w) as [[a|x] w1] eqn:E1; cycle 1.
      { injection Hrun as <- <-. apply lookup_Err in E1 as (? & ? & _). by apply keeps_same. }
      apply lookup_Ok in E1 as (Hc1 & Hs1 & Ha).
      assert (Key a = key) as <- by (by apply law_entries_wf in Ha as [? _]).
      eapply keeps_trans; [by apply keeps_same|]. unfold mbind at 1, M_bind at 1, wrap_err in Hrun.
      destruct (on_meta _ w1) as [[u|x] w2] eqn:E2;
        pose proof (save_keeps k (mkEntry (Key a) (Size a) (LastAccessed a) pinned) _ _ _ Hne E2) as Hk2;
        (eapply keeps_trans; [exact Hk2|]); [|injection Hrun as <- <-; apply keeps_refl].
      destruct pinned; [injection Hrun as <- <-; apply keeps_refl|]. cbn in Hrun.
      unfold mbind, M_bind in Hrun. destruct (pruneLocked maxBytes "" w2) as [r3 w3] eqn:E3.
      assert (keeps k w2 w3) as Hk3.
      { eapply prune_keeps, E3; [done| |by rewrite (proj1 Hk2), Hc1|by left].
        apply save_Ok in E2 as [Hc2 _]. intros k' e'. rewrite Hc2, Hc1.
        intros [[<- _]|[_ ?]]%lookup_insert_Some; eauto. }
      by destruct r3; injection Hrun as <- <-.
    - eapply removeLocked_keeps; [..|exact Hrun]; eauto; [apply Hfit|congruence].
    - unfold Prune, mbind, M_bind in Hrun.
      destruct (pruneLocked maxBytes "" w) as [r3 w3] eqn:E3.
      assert (keeps k w w3) by (eapply prune_keeps, E3; eauto).
      by destruct r3; injection Hrun as <- <-. }
  split; [by rewrite Hkc|]. destruct (coh_entry _ Hco _ _ He) as (f & b & Hf & Hb & _).
  exists f, b. split_and!; [done..|]. by rewrite Hks.
Qed.

(** A stored object reads back: after a successful [Put] the next [Open] of
    the key returns exactly the bytes [Put] was given, or fails because a store
    does; it never reports the key as missing. *)
Theorem put_then_open now key source pinned now' w u w1 r w2 :
  files_distinct (B := B) → 0 ≤ maxBytes → coherent w → put_fits w source →
  Put maxBytes now key source pinned w = (Ok u, w1) →
  Open now' key w1 = (r, w2) →
  match r with
  | Ok c => read_all source = Ok c
  | Err e => e ≠ Sentinel ErrNotFound
  end.
Proof.
  intros Hfd Hmax Hco Hb Hput Hopen.
  apply put_Ok_state in Hput as (_ & (f & c & Hf & Hr & Hs & Hc) & _); [|done..].
  apply Open_run in Hopen. destruct r as [c'|x].
  - destruct Hopen as (e & f' & _ & _ & Hf' & Hs' & _). congruence.
  - destruct Hopen as (_ & _ & Hx). intros ->. destruct (Hx eq_refl) as [?|Hn]; [congruence|].
    specialize (Hn _ Hf). congruence.
Qed.
End theorems.

(** * Witnesses: SQLite and the file system, ten bytes of capacity *)

#[local] Existing Instance stable_runtime.
#[local] Existing Instance sqlCacheStore.
#[local] Existing Instance sqlCacheStore_laws.
#[local] Existing Instance fsBlobStore.
#[local] Existing Instance fsBlobStore_laws.

Notation toy_world := (cache_world file_system (database cache_table)).

(** A pinned song of three bytes and an old one of four. *)
Definition toy_cache : toy_world :=
  mkWorld (mkFS (<["media/song" := [1; 2; 3]]> {["media/old" := [1; 2; 3; 4]]}) {["media"]} [])
    (mkDatabase (<["song" := mkCacheRow 3 100 true]> {["old" := mkCacheRow 4 50 false]}) []).

Definition toy_source (n : nat) : reader := mkReader [repeat 7 n] None.

Lemma toy_rows k e : cached toy_cache !! k = Some e →
  k = "song" ∧ e = mkEntry "song" 3 100 true ∨ k = "old" ∧ e = mkEntry "old" 4 50 false.
Proof.
  unfold cached; cbn [entries sqlCacheStore_laws]. rewrite sql_entries_lookup.
  intros (r & Hr & ->)%fmap_Some. cbn [w_meta toy_cache tables] in Hr.
  apply lookup_insert_Some in Hr as [[<- <-]|[_ [<- <-]%lookup_singleton_Some]]; auto.
Qed.

Lemma toy_files f c : stored toy_cache !! f = Some c →
  f = "media/song" ∧ c = [1; 2; 3] ∨ f = "media/old" ∧ c = [1; 2; 3; 4].
Proof.
  cbn. intros [[<- <-]|[_ [<- <-]%lookup_singleton_Some]]%lookup_insert_Some; auto.
Qed.

Lemma toy_song : cached toy_cache !! "song" = Some (mkEntry "song" 3 100 true).
Proof. vm_compute. reflexivity. Qed.

Lemma toy_old : cached toy_cache !! "old" = Some (mkEntry "old" 4 50 false).
Proof. vm_compute. reflexivity. Qed.

Lemma toy_bytes : cached_bytes toy_cache = 7.
Proof. vm_compute. reflexivity. Qed.

Lemma toy_coherent : coherent toy_cache.
Proof.
  split.
  - intros k e [[-> _]|[-> _]]%toy_rows; reflexivity.
  - intros k e [[-> ->]|[-> ->]]%toy_rows.
    + exists "media/song", [1; 2; 3]. split_and!; vm_compute; reflexivity.
    + exists "media/old", [1; 2; 3; 4]. split_and!; vm_compute; reflexivity.
  - intros k f c Hk Hf Hc. unfold file_of in Hf; cbn in Hf. rewrite media_path in Hf by done.
    apply Some_inj in Hf.
    apply toy_files in Hc. repeat case_bool_decide; destruct Hc as [[-> _]|[-> _]]; try discriminate.
    + apply (inj (String.append "media/") k "song") in Hf as ->. rewrite toy_song. eauto.
    + apply (inj (String.append "media/") k "old") in Hf as ->. rewrite toy_old. eauto.
Qed.

Lemma toy_fits n : (n ≤ 100)%nat → put_fits toy_cache (toy_source n).
Proof.
  intros Hn c [= <-]. rewrite toy_bytes, app_nil_r, repeat_length. lia.
Qed.

Definition toy_put (n : nat) := Put 10 200 "new" (toy_source n) false toy_cache.

Lemma toy_put_results :
  (toy_put 5).1 = Ok tt ∧
  (toy_put 8).1 = Err (Errorf "cache media new: " (Sentinel ErrCacheCapacity) "").
Proof. split; vm_compute; reflexivity. Qed.

Lemma put_keeps_cache_within_capacity_witness :
  cached_bytes (toy_put 5).2 ≤ 10 ∧ cached (toy_put 8).2 !! "new" = None.
Proof.
  destruct toy_put_results as [H5 H8].
  pose proof (put_keeps_cache_within_capacity 10 200 "new" (toy_source 5) false toy_cache _ _
    media_files_distinct ltac:(lia) toy_coherent (toy_fits 5 ltac:(lia)) (surjective_pairing _)) as X.
  pose proof (put_keeps_cache_within_capacity 10 200 "new" (toy_source 8) false toy_cache _ _
    media_files_distinct ltac:(lia) toy_coherent (toy_fits 8 ltac:(lia)) (surjective_pairing _)) as Y.
  change (Put 10 200 "new" (toy_source 5) false toy_cache) with (toy_put 5) in X.
  change (Put 10 200 "new" (toy_source 8) false toy_cache) with (toy_put 8) in Y.
  rewrite H5 in X. rewrite H8 in Y. split.
  - apply X. reflexivity.
  - apply (Y eq_refl).
Defined.

Definition toy_full : toy_world :=
  mkWorld (w_blobs toy_cache) (mkDatabase (<["new" := mkCacheRow 5 200 false]> (tables (w_meta toy_cache))) []).

Definition toy_pruned : res Z * toy_world := pruneLocked 10 "new" toy_full.

Lemma toy_pruned_run : pruneLocked 10 "new" toy_full = (Ok 8, toy_pruned.2).
Proof. rewrite (surjective_pairing (pruneLocked _ _ _)). f_equal. Qed.

Lemma toy_full_bytes : cached_bytes toy_full < 2 ^ 63.
Proof. vm_compute. reflexivity. Qed.

Lemma eviction_is_exact_lru_witness : cached_bytes toy_pruned.2 = 8.
Proof.
  symmetry. apply (eviction_is_exact_lru 10 "new" toy_full 8 toy_pruned.2).
  - lia.
  - exact toy_full_bytes.
  - exact toy_pruned_run.
Defined.

Lemma cache_calls_keep_coherence_witness :
  coherent (run_cache_call 10 (CSetPinned "song" false) toy_cache).2.
Proof.
  apply (cache_calls_keep_coherence 10 (CSetPinned "song" false) toy_cache tt).
  - exact media_files_distinct.
  - lia.
  - exact toy_coherent.
  - split; [exact I|]. rewrite toy_bytes. lia.
  - reflexivity.
Defined.

Lemma pinned_media_survives_witness :
  cached (toy_put 5).2 !! "song" = Some (mkEntry "song" 3 100 true).
Proof.
  apply (pinned_media_survives 10 (CPut 200 "new" (toy_source 5) false) toy_cache (toy_put 5).1).
  - exact media_files_distinct.
  - exact toy_coherent.
  - split; [apply toy_fits; lia|]. rewrite toy_bytes. lia.
  - exact toy_song.
  - reflexivity.
  - discriminate.
  - apply surjective_pairing.
Defined.

Lemma put_then_open_witness : ∃ c, (Open 300 "new" (toy_put 5).2).1 = Ok c ∧ c = repeat 7 5.
Proof.
  pose proof (put_then_open 10 200 "new" (toy_source 5) false 300 toy_cache tt (toy_put 5).2 _ _
    media_files_distinct ltac:(lia) toy_coherent (toy_fits 5 ltac:(lia)) eq_refl
    (surjective_pairing _)) as X.
  destruct (Open 300 "new" (toy_put 5).2).1 as [c|e] eqn:E.
  - exists c. split; [reflexivity|]. injection X as <-. reflexivity.
  - exfalso. clear X. assert (is_ok (Open 300 "new" (toy_put 5).2).1 = true) as Y
      by (vm_compute; reflexivity). rewrite E in Y. discriminate Y.
Defined.

(** The listing order compares access times as text, and RFC 3339 text drops
    trailing zeros: an entry last used at 0.12 s comes before one last used at
    0.1 s, so the eviction is not always of the least recently used. *)
Lemma listing_order_is_not_chronological :
  ∃ older newer, LastAccessed older < LastAccessed newer ∧ lru_less newer older = true.
Proof.
  exists (mkEntry "a" 1 100000000 false), (mkEntry "b" 1 120000000 false).
  split; [done | vm_compute; reflexivity].
Qed.
