(* ===== verification/GoHash.v ===== *)
(** Packages [crypto/sha256] and [encoding/base64] ([RawURLEncoding]), as far as
    identifiers use them. *)
From stdpp Require Import base strings list.
From Stdlib Require Import ZArith Lia Ascii.
From S2P Require Import Prelude GoStrings.

Open Scope Z_scope.

(** * SHA-256 (FIPS 180-4) on bytes *)

Definition w32 (x : Z) : Z := x mod 2 ^ 32.
Definition rotr (n x : Z) : Z := Z.lor (Z.shiftr x n) (w32 (Z.shiftl x (32 - n))).

(** The first primes, by trial division. *)
Definition is_prime (n : Z) : bool :=
  forallb (λ d, negb (n mod Z.of_nat d =? 0)) (seq 2 (Z.to_nat (Z.sqrt n) - 1)).

Definition primes (n : nat) : list Z :=
  take n (List.filter is_prime (map Z.of_nat (seq 2 400))).

(** The integer cube root, bit by bit from bit [k] down. *)
Fixpoint cube_root (k : nat) (r n : Z) : Z :=
  let r' := r + 2 ^ Z.of_nat k in
  let r := if r' ^ 3 <=? n then r' else r in
  match k with O => r | S k' => cube_root k' r n end.

(** The first 32 bits of the fractional parts of the cube roots of the first 64
    primes and of the square roots of the first 8. *)
Definition sha_k : list Z :=
  Eval vm_compute in map (λ p, w32 (cube_root 40 0 (p * 2 ^ 96))) (primes 64).

Definition sha_h0 : list Z :=
  Eval vm_compute in map (λ p, w32 (Z.sqrt (p * 2 ^ 64))) (primes 8).

(** Big-endian words and bytes. *)
Fixpoint be_words (bs : list Z) : list Z :=
  match bs with
  | a :: b :: c :: d :: r => (a * 2 ^ 24 + b * 2 ^ 16 + c * 2 ^ 8 + d) :: be_words r
  | _ => []
  end.

Definition be_bytes (n : nat) (x : Z) : list Z :=
  map (λ i, Z.shiftr x (8 * Z.of_nat i) mod 256) (rev (seq 0 n)).

Definition sha_pad (bs : list Z) : list Z :=
  let n := length bs in
  bs ++ [0x80] ++ repeat 0 (Z.to_nat ((55 - Z.of_nat n) mod 64)) ++ be_bytes 8 (8 * Z.of_nat n).

(** The message schedule, last word first. *)
Fixpoint sha_extend (n : nat) (ws : list Z) : list Z :=
  match n with
  | O => ws
  | S n' =>
      let w i := nth i ws 0 in
      let s0 := Z.lxor (Z.lxor (rotr 7 (w 14%nat)) (rotr 18 (w 14%nat))) (Z.shiftr (w 14%nat) 3) in
      let s1 := Z.lxor (Z.lxor (rotr 17 (w 1%nat)) (rotr 19 (w 1%nat))) (Z.shiftr (w 1%nat) 10) in
      sha_extend n' (w32 (w 15%nat + s0 + w 6%nat + s1) :: ws)
  end.

Definition sha_round (st : list Z) (kw : Z * Z) : list Z :=
  match st with
  | [a; b; c; d; e; f; g; h] =>
      let s1 := Z.lxor (Z.lxor (rotr 6 e) (rotr 11 e)) (rotr 25 e) in
      let ch := Z.lxor (Z.land e f) (Z.land (Z.lxor e 0xffffffff) g) in
      let t1 := h + s1 + ch + kw.1 + kw.2 in
      let s0 := Z.lxor (Z.lxor (rotr 2 a) (rotr 13 a)) (rotr 22 a) in
      let maj := Z.lxor (Z.lxor (Z.land a b) (Z.land a c)) (Z.land b c) in
      [w32 (t1 + s0 + maj); a; b; c; w32 (d + t1); e; f; g]
  | _ => st
  end.

Definition sha_block (h ws : list Z) : list Z :=
  let schedule := rev (sha_extend 48 (rev ws)) in
  zip_with (λ x y, w32 (x + y)) h (fold_left sha_round (zip sha_k schedule) h).

Fixpoint sha_blocks (n : nat) (h ws : list Z) : list Z :=
  match n with
  | O => h
  | S n' => sha_blocks n' (sha_block h (take 16 ws)) (drop 16 ws)
  end.

(** [sha256.Sum256]. *)
Definition Sum256 (bs : list Z) : list Z :=
  let ws := be_words (sha_pad bs) in
  concat (map (be_bytes 4) (sha_blocks (length ws / 16) sha_h0 ws)).

Example sha256_abc : take 4 (Sum256 (bytes_of "abc")) = [0xba; 0x78; 0x16; 0xbf].
Proof. vm_compute. reflexivity. Qed.

(** * Base 64, URL alphabet, no padding *)

Definition b64_char (v : Z) : ascii :=
  nth (Z.to_nat v)
    (String.list_ascii_of_string "ABCDEFGHIJKLMNOPQRSTUVWXYZabcdefghijklmnopqrstuvwxyz0123456789-_")
    "A"%char.

Fixpoint RawURLEncode (bs : list Z) : string :=
  match bs with
  | a :: b :: c :: r =>
      let v := a * 2 ^ 16 + b * 2 ^ 8 + c in
      String (b64_char (v / 2 ^ 18)) (String (b64_char (v / 2 ^ 12 mod 64))
        (String (b64_char (v / 2 ^ 6 mod 64)) (String (b64_char (v mod 64)) (RawURLEncode r))))
  | [a; b] =>
      let v := a * 2 ^ 10 + b * 2 ^ 2 in
      String (b64_char (v / 2 ^ 12)) (String (b64_char (v / 2 ^ 6 mod 64))
        (String (b64_char (v mod 64)) EmptyString))
  | [a] =>
      let v := a * 2 ^ 4 in String (b64_char (v / 2 ^ 6)) (String (b64_char (v mod 64)) EmptyString)
  | [] => EmptyString
  end.

Definition b64_value (a : ascii) : option Z :=
  let b := byte_of a in
  if between 65 90 b then Some (b - 65)
  else if between 97 122 b then Some (b - 71)
  else if between 48 57 b then Some (b + 4)
  else if b =? 45 then Some 62
  else if b =? 95 then Some 63
  else None.

(** Quanta of four characters; the last may have two or three, and the bits that
    are left over are not looked at. *)
Fixpoint b64_quanta (vs : list Z) : res (list Z) :=
  match vs with
  | [] => Ok []
  | [_] => Err (Plain "illegal base64 data")
  | [p; q] => Ok [(p * 2 ^ 6 + q) / 2 ^ 4]
  | [p; q; r] => let v := p * 2 ^ 12 + q * 2 ^ 6 + r in Ok [v / 2 ^ 10; v / 2 ^ 2 mod 256]
  | p :: q :: r :: t :: rest =>
      let v := p * 2 ^ 18 + q * 2 ^ 12 + r * 2 ^ 6 + t in
      match b64_quanta rest with
      | Err e => Err e
      | Ok bs => Ok (v / 2 ^ 16 :: v / 2 ^ 8 mod 256 :: v mod 256 :: bs)
      end
  end.

(** [RawURLEncoding.DecodeString]: line ends are skipped. *)
Definition RawURLDecode (s : string) : res (list Z) :=
  match mapM b64_value (List.filter (λ a, negb (bool_decide (a ∈ ["010"%char; "013"%char]))) (String.list_ascii_of_string s)) with
  | None => Err (Plain "illegal base64 data")
  | Some vs => b64_quanta vs
  end.

Definition byte_list (bs : list Z) : Prop := Forall (λ b, 0 ≤ b < 256) bs.

Lemma b64_char_inj u v : 0 ≤ u < 64 → 0 ≤ v < 64 → b64_char u = b64_char v → u = v.
Proof.
  intros Hu Hv He.
  assert (∀ x, 0 ≤ x < 64 → Z.of_nat (default 0%nat (fst <$> list_find (eq (b64_char x))
    (map b64_char (map Z.of_nat (seq 0 64))))) = x) as Hinv.
  { intros x Hx. assert (x = Z.of_nat (Z.to_nat x)) as -> by lia.
    assert (Z.to_nat x < 64)%nat as Hn by lia. revert Hn. generalize (Z.to_nat x). clear.
    intros n Hn. do 64 (destruct n as [|n]; [vm_compute; reflexivity|]). lia. }
  rewrite <- (Hinv u Hu), <- (Hinv v Hv), He. done.
Qed.

Lemma length_be_bytes n x : length (be_bytes n x) = n.
Proof. unfold be_bytes. by rewrite length_map, length_rev, length_seq. Qed.

Lemma be_bytes_range n x : byte_list (be_bytes n x).
Proof. apply Forall_map, Forall_forall. intros i _. cbn. apply Z.mod_pos_bound. lia. Qed.

Lemma Sum256_bytes bs : byte_list (Sum256 bs).
Proof.
  unfold Sum256, byte_list. generalize (sha_blocks (length (be_words (sha_pad bs)) / 16) sha_h0
    (be_words (sha_pad bs))). intros l. induction l as [|x l IH]; [constructor|].
  cbn [map concat]. apply Forall_app. split; [apply be_bytes_range|done].
Qed.

Lemma sha_round_length st kw : length (sha_round st kw) = length st.
Proof.
  do 8 (destruct st as [|? st]; [reflexivity|]). destruct st; reflexivity.
Qed.

Lemma sha_blocks_length n h ws : length h = 8%nat → length (sha_blocks n h ws) = 8%nat.
Proof.
  revert h ws. induction n as [|n IH]; intros h ws Hh; [done|]. cbn [sha_blocks]. apply IH.
  unfold sha_block. rewrite length_zip_with.
  assert (∀ l st, length (fold_left sha_round l st) = length st) as Hf.
  { induction l as [|x l IHl]; intros st; [done|]. cbn. by rewrite IHl, sha_round_length. }
  rewrite Hf, Hh. done.
Qed.

Lemma Sum256_length bs : length (Sum256 bs) = 32%nat.
Proof.
  unfold Sum256. pose proof (sha_blocks_length (length (be_words (sha_pad bs)) / 16) sha_h0
    (be_words (sha_pad bs)) eq_refl) as Hl. revert Hl.
  generalize (sha_blocks (length (be_words (sha_pad bs)) / 16) sha_h0 (be_words (sha_pad bs))).
  intros l Hl. do 8 (destruct l as [|? l]; [discriminate Hl|]). destruct l; [|discriminate Hl].
  cbn [map concat]. rewrite !length_app, !length_be_bytes. reflexivity.
Qed.

#[local] Ltac Zify.zify_post_hook ::= Z.to_euclidean_division_equations.

Lemma RawURLEncode_inj l k :
  byte_list l → byte_list k → length l = length k → RawURLEncode l = RawURLEncode k → l = k.
Proof.
  intros Hl Hk. revert k Hk. revert l Hl.
  fix IH 1. intros [|a [|b [|c l]]] Hl [|a' [|b' [|c' k]]] Hk; try done; unfold byte_list in *.
  - intros _ He. rewrite !Forall_cons in Hl, Hk. injection He as E1 E2.
    apply b64_char_inj in E1; [|lia..]. apply b64_char_inj in E2; [|lia..]. f_equal. lia.
  - intros _ He. rewrite !Forall_cons in Hl, Hk. injection He as E1 E2 E3.
    apply b64_char_inj in E1; [|lia..]. apply b64_char_inj in E2; [|lia..].
    apply b64_char_inj in E3; [|lia..].
    assert (a = a' ∧ b = b') as [-> ->] by lia. done.
  - intros Hlen He. rewrite !Forall_cons in Hl, Hk. cbn [RawURLEncode] in He.
    injection He as E1 E2 E3 E4 E5.
    apply b64_char_inj in E1; [|lia..]. apply b64_char_inj in E2; [|lia..].
    apply b64_char_inj in E3; [|lia..]. apply b64_char_inj in E4; [|lia..].
    assert (a = a' ∧ b = b' ∧ c = c') as (-> & -> & ->) by lia. do 3 f_equal.
    apply IH; [apply Hl|apply Hk|by injection Hlen|done].
Qed.

Lemma RawURLEncode_length12 l : length l = 12%nat → String.length (RawURLEncode l) = 16%nat.
Proof.
  intros Hl. do 12 (destruct l as [|? l]; [discriminate Hl|]).
  destruct l; [reflexivity|discriminate Hl].
Qed.

(** The six-bit values [RawURLEncode] writes. *)
Fixpoint b64_values (bs : list Z) : list Z :=
  match bs with
  | a :: b :: c :: r =>
      let v := a * 2 ^ 16 + b * 2 ^ 8 + c in
      v / 2 ^ 18 :: v / 2 ^ 12 mod 64 :: v / 2 ^ 6 mod 64 :: v mod 64 :: b64_values r
  | [a; b] => let v := a * 2 ^ 10 + b * 2 ^ 2 in [v / 2 ^ 12; v / 2 ^ 6 mod 64; v mod 64]
  | [a] => let v := a * 2 ^ 4 in [v / 2 ^ 6; v mod 64]
  | [] => []
  end.

Lemma RawURLEncode_values bs :
  String.list_ascii_of_string (RawURLEncode bs) = map b64_char (b64_values bs).
Proof.
  revert bs. fix IH 1. intros [|a [|b [|c r]]]; [reflexivity..|].
  cbn [RawURLEncode b64_values String.list_ascii_of_string map]. by rewrite <- (IH r).
Qed.

Lemma b64_values_range bs : byte_list bs → Forall (λ v, 0 ≤ v < 64) (b64_values bs).
Proof.
  revert bs. fix IH 1. intros [|a [|b [|c r]]] Hb; unfold byte_list in *; rewrite ?Forall_cons in Hb;
    cbn [b64_values]; repeat apply Forall_cons_2; try lia; try apply Forall_nil_2.
  apply IH. apply Hb.
Qed.

Lemma b64_quanta_values bs : byte_list bs → b64_quanta (b64_values bs) = Ok bs.
Proof.
  revert bs. fix IH 1. intros [|a [|b [|c r]]] Hb; unfold byte_list in *; rewrite ?Forall_cons in Hb;
    cbn [b64_values b64_quanta]; [reflexivity|..].
  - assert ((a * 2 ^ 4 / 2 ^ 6 * 2 ^ 6 + a * 2 ^ 4 mod 64) / 2 ^ 4 = a) as -> by lia. done.
  - set (v := a * 2 ^ 10 + b * 2 ^ 2).
    assert (v / 2 ^ 12 * 2 ^ 12 + v / 2 ^ 6 mod 64 * 2 ^ 6 + v mod 64 = v) as -> by lia.
    assert (v / 2 ^ 10 = a ∧ v / 2 ^ 2 mod 256 = b) as [-> ->] by lia. done.
  - rewrite (IH r) by apply Hb. set (v := a * 2 ^ 16 + b * 2 ^ 8 + c).
    assert (v / 2 ^ 18 * 2 ^ 18 + v / 2 ^ 12 mod 64 * 2 ^ 12 + v / 2 ^ 6 mod 64 * 2 ^ 6 + v mod 64 = v) as -> by lia.
    assert (v / 2 ^ 16 = a ∧ v / 2 ^ 8 mod 256 = b ∧ v mod 256 = c) as (-> & -> & ->) by lia. done.
Qed.

Lemma b64_value_char v : 0 ≤ v < 64 →
  b64_value (b64_char v) = Some v ∧ b64_char v ∉ ["010"%char; "013"%char].
Proof.
  intros Hv.
  assert (forallb (λ v, bool_decide (b64_value (b64_char v) = Some v ∧ b64_char v ∉ ["010"%char; "013"%char]))
    (map Z.of_nat (seq 0 64)) = true) as Hall by (vm_compute; reflexivity).
  rewrite forallb_forall in Hall. apply (bool_decide_eq_true_1 _), Hall, in_map_iff.
  exists (Z.to_nat v). split; [lia|]. apply in_seq. lia.
Qed.

(** What was encoded is decoded. *)
Lemma RawURLDecode_Encode bs : byte_list bs → RawURLDecode (RawURLEncode bs) = Ok bs.
Proof.
  intros Hb. unfold RawURLDecode. rewrite RawURLEncode_values.
  assert (mapM b64_value (List.filter (λ a, negb (bool_decide (a ∈ ["010"%char; "013"%char])))
    (map b64_char (b64_values bs))) = Some (b64_values bs)) as ->; [|by apply b64_quanta_values].
  apply b64_values_range in Hb. induction (b64_values bs) as [|v vs IH]; [done|].
  apply Forall_cons in Hb as [Hv Hvs]. apply b64_value_char in Hv as [Hval Hnl].
  cbn [map List.filter]. rewrite bool_decide_eq_false_2 by done. cbn [negb].
  apply mapM_Some. constructor; [done|]. apply mapM_Some. by apply IH.
Qed.
