(* ===== verification/Music.v ===== *)
(** The music model ([core/domain/music.go]): tracks, albums, artists,
    playlists, queues, annotations, and the identifiers the catalog derives
    from their names. *)
From stdpp Require Import base gmap strings list pretty.
From Stdlib Require Import ZArith Lia Ascii.
From S2P Require Import Prelude GoStrings GoHash.

Open Scope Z_scope.

(** * Data *)

Record SourceRef := mkRef {
  Provider : string;
  SourceKey : string;
}.

#[export] Instance SourceRef_eq_dec : EqDecision SourceRef.
Proof. solve_decision. Defined.

#[export] Instance SourceRef_countable : Countable SourceRef.
Proof.
  refine (inj_countable' (λ r, (Provider r, SourceKey r)) (λ x, mkRef x.1 x.2) _). by intros [].
Defined.

(** [Duration] in nanoseconds. *)
Record Track := mkTrack {
  ID : string;
  Title : string;
  Artist : string;
  ArtistID : string;
  Album : string;
  AlbumID : string;
  AlbumArtist : string;
  AlbumArtistID : string;
  TrackNumber : Z;
  DiscNumber : Z;
  Year : Z;
  Genre : string;
  Duration : Z;
  TrackSize : Z;
  BitRate : Z;
  Suffix : string;
  ContentType : string;
  CoverArtID : string;
}.

#[export] Instance Track_eq_dec : EqDecision Track.
Proof. solve_decision. Defined.

(** Assignments to fields of a track. *)
Definition with_id (id : string) (t : Track) : Track :=
  mkTrack id (Title t) (Artist t) (ArtistID t) (Album t) (AlbumID t) (AlbumArtist t) (AlbumArtistID t)
    (TrackNumber t) (DiscNumber t) (Year t) (Genre t) (Duration t) (TrackSize t) (BitRate t) (Suffix t)
    (ContentType t) (CoverArtID t).

Definition with_cover (cover : string) (t : Track) : Track :=
  mkTrack (ID t) (Title t) (Artist t) (ArtistID t) (Album t) (AlbumID t) (AlbumArtist t) (AlbumArtistID t)
    (TrackNumber t) (DiscNumber t) (Year t) (Genre t) (Duration t) (TrackSize t) (BitRate t) (Suffix t)
    (ContentType t) cover.

Definition with_album (album albumID albumArtist albumArtistID : string) (t : Track) : Track :=
  mkTrack (ID t) (Title t) (Artist t) (ArtistID t) album albumID albumArtist albumArtistID
    (TrackNumber t) (DiscNumber t) (Year t) (Genre t) (Duration t) (TrackSize t) (BitRate t) (Suffix t)
    (ContentType t) (CoverArtID t).

Definition with_size (size : Z) (t : Track) : Track :=
  mkTrack (ID t) (Title t) (Artist t) (ArtistID t) (Album t) (AlbumID t) (AlbumArtist t) (AlbumArtistID t)
    (TrackNumber t) (DiscNumber t) (Year t) (Genre t) (Duration t) size (BitRate t) (Suffix t)
    (ContentType t) (CoverArtID t).

Record SourceAvailability := mkAvailability {
  Peer : string;
  UploadSpeed : Z;
  QueueLength : Z;
  FreeUploadSlot : bool;
  RequiresApproval : bool;
}.

Record TrackSource := mkSource {
  ts_Track : Track;
  ts_Ref : SourceRef;
  DisplayPath : string;
  Availability : SourceAvailability;
  DiscoveredAt : time;
}.

(** * Identifiers *)

(** Packages [golang.org/x/text/unicode/norm] and [cases]. *)
Class TextNorm := {
  NFKC : string → string;
  CaseFold : string → string;
}.

Definition NUL : string := String "000"%char EmptyString.

(** What [StableID] hashes. *)
Definition id_input (kind : string) (parts : list string) : string := Join (kind :: parts) NUL.

Definition StableID (kind : string) (parts : list string) : string :=
  kind +:+ "_" +:+ RawURLEncode (take 12 (Sum256 (bytes_of (id_input kind parts)))).

Section identity.
Context `{Unicode} `{TextNorm}.

Definition CatalogNameKey (name : string) : string := CaseFold (NFKC (Join (Fields name) " ")).

Definition CanonicalArtistID (name : string) : string := StableID "artist" [CatalogNameKey name].

Definition CanonicalAlbumID (albumArtist album : string) : string :=
  StableID "album" [CanonicalArtistID albumArtist; CatalogNameKey album].

(** The loop over the digits a title starts with, at most [n] of them. *)
Fixpoint leading_digits (n : nat) (rs : list Z) : nat :=
  match n, rs with
  | S n', r :: rs' => if IsDigit r then S (leading_digits n' rs') else 0%nat
  | _, _ => 0%nat
  end.

Definition canonicalTrackTitle (value : string) : string * Z :=
  let key := CatalogNameKey value in
  let rs := runes key in
  let index := leading_digits 3 rs in
  match index, drop index rs with
  | O, _ | _, [] => (key, 0)
  | _, r :: _ =>
      if IsLetter r || IsDigit r then (key, 0)
      else
        match Atoi (of_runes (take index rs)) with
        | None => (key, 0)
        | Some number =>
            match drop_while (λ r, negb (IsLetter r) && negb (IsDigit r)) (drop index rs) with
            | [] => (key, 0)
            | rest => (TrimSpace (of_runes rest), number)
            end
        end
  end.

Definition identity_albumArtist (t : Track) : string :=
  let albumArtist := TrimSpace (AlbumArtist t) in
  if bool_decide (albumArtist = "") then Artist t else albumArtist.

Definition CanonicalTrackID (t : Track) : string :=
  let albumArtist := identity_albumArtist t in
  let '(title, inferredNumber) := canonicalTrackTitle (Title t) in
  let trackNumber := if TrackNumber t =? 0 then inferredNumber else TrackNumber t in
  StableID "track"
    [CanonicalAlbumID albumArtist (Album t); CanonicalArtistID (Artist t);
     Itoa (DiscNumber t); Itoa trackNumber; title].

Definition HasCanonicalTrackIdentity (t : Track) : bool :=
  negb (bool_decide (TrimSpace (Title t) = "")) && negb (bool_decide (TrimSpace (Artist t) = ""))
  && negb (bool_decide (TrimSpace (Album t) = "")).
End identity.

(** * Injectivity of the identifiers *)

(** A separator that does not occur in the first parts splits a string in one way. *)
Lemma append_sep_inj c x y r s :
  lacks c x → lacks c y → x +:+ String c r = y +:+ String c s → x = y ∧ r = s.
Proof.
  unfold lacks. revert y. induction x as [|a x IH]; intros [|b y] Hx Hy; simpl in *;
    rewrite ?not_elem_of_cons in *.
  - by intros [= ->].
  - intros [= -> _]. tauto.
  - intros [= -> _]. tauto.
  - intros [= -> E]. destruct (IH y) as [-> ->]; tauto.
Qed.

Definition all_but_last_lack (c : ascii) (l : list string) : Prop := Forall (lacks c) (removelast l).

Lemma Join_inj c l k :
  length l = length k → all_but_last_lack c l → all_but_last_lack c k →
  Join l (String c EmptyString) = Join k (String c EmptyString) → l = k.
Proof.
  unfold all_but_last_lack. revert k.
  induction l as [|x l IH]; intros [|y k] Hlen Hl Hk; try done.
  destruct l as [|x' l], k as [|y' k]; try done.
  - cbn. by intros ->.
  - change (removelast (x :: x' :: l)) with (x :: removelast (x' :: l)) in Hl.
    change (removelast (y :: y' :: k)) with (y :: removelast (y' :: k)) in Hk.
    apply Forall_cons in Hl as [Hx Hl]. apply Forall_cons in Hk as [Hy Hk].
    cbn [Join]. intros E. apply append_sep_inj in E as [-> E]; [|done..].
    f_equal. apply IH; auto.
Qed.

(** The truncated hash does not collide on two inputs. *)
Definition no_collision (a b : string) : Prop :=
  take 12 (Sum256 (bytes_of a)) = take 12 (Sum256 (bytes_of b)) → a = b.

Lemma take_byte_list n l : byte_list l → byte_list (take n l).
Proof. unfold byte_list. intros Hl. by apply Forall_take. Qed.

Lemma StableID_input kind p q :
  no_collision (id_input kind p) (id_input kind q) →
  StableID kind p = StableID kind q → id_input kind p = id_input kind q.
Proof.
  intros Hnc. unfold StableID. intros E. apply (inj (String.append kind)) in E.
  apply (inj (String.append "_")) in E. apply Hnc. revert E.
  apply RawURLEncode_inj; try apply take_byte_list, Sum256_bytes.
  by rewrite !length_take, !Sum256_length.
Qed.

Lemma b64_char_lacks c bs :
  c ∉ String.list_ascii_of_string "ABCDEFGHIJKLMNOPQRSTUVWXYZabcdefghijklmnopqrstuvwxyz0123456789-_" →
  lacks c (RawURLEncode bs).
Proof.
  intros Hc. assert (∀ v, b64_char v ≠ c) as Hv.
  { intros v E. apply Hc. rewrite <- E. unfold b64_char.
    destruct (decide (Z.to_nat v < 64)%nat) as [Hlt|Hge].
    - apply list_elem_of_In, nth_In. exact Hlt.
    - rewrite nth_overflow; [by left|]. cbn. lia. }
  unfold lacks. revert bs. fix IH 1. intros [|a [|b [|d r]]]; cbn [RawURLEncode];
    cbn [String.list_ascii_of_string]; rewrite ?not_elem_of_cons;
    repeat split; try (intros E; by eapply Hv); try apply not_elem_of_nil.
  apply IH.
Qed.

Lemma StableID_lacks kind parts : lacks "000" kind → lacks "000" (StableID kind parts).
Proof.
  intros Hk. unfold StableID. rewrite !lacks_app. split_and!; [done|by compute_done|].
  apply b64_char_lacks. by compute_done.
Qed.

Lemma pretty_N_go_lacks x s : lacks "000" s → lacks "000" (pretty_N_go x s).
Proof.
  revert s. induction (N.lt_wf_0 x) as [x _ IH]. intros s Hs.
  destruct (decide (x = 0%N)) as [->|Hx]; [by rewrite pretty_N_go_0|].
  rewrite pretty_N_go_step by lia. apply IH; [apply N.div_lt; lia|].
  unfold lacks. cbn. apply not_elem_of_cons. split; [|done].
  unfold pretty_N_char. by repeat (case_match; try done).
Qed.

Lemma Itoa_lacks z : lacks "000" (Itoa z).
Proof.
  assert (∀ n, lacks "000" (pretty (n : N))) as Hn.
  { intros n. unfold pretty, pretty_N. case_decide; [by compute_done|].
    apply pretty_N_go_lacks. by compute_done. }
  unfold Itoa, pretty, pretty_Z. destruct z as [|p|p]; [by compute_done|apply Hn|].
  change (lacks "000" ("-" +:+ pretty (N.pos p))). apply lacks_app. split; [by compute_done|apply Hn].
Qed.

Lemma id_input_inj kind p q :
  lacks "000" kind → length p = length q → p ≠ [] →
  all_but_last_lack "000" p → all_but_last_lack "000" q →
  id_input kind p = id_input kind q → p = q.
Proof.
  intros Hk Hlen Hp Hlp Hlq E. apply (Join_inj "000") in E; [by injection E|by cbn; f_equal| |];
    unfold all_but_last_lack; destruct p, q; try done; by constructor.
Qed.

Section theorems.
Context `{Unicode} `{TextNorm}.

(** What a track is identified by: the normalised names, the disc and track
    numbers, and the title without the number it may start with. *)
Definition track_number_of (t : Track) : Z :=
  if TrackNumber t =? 0 then (canonicalTrackTitle (Title t)).2 else TrackNumber t.

Definition track_identity (t : Track) : string * string * string * Z * Z * string :=
  (CatalogNameKey (identity_albumArtist t), CatalogNameKey (Album t), CatalogNameKey (Artist t),
   DiscNumber t, track_number_of t, (canonicalTrackTitle (Title t)).1).

(** The strings hashed for a track. *)
Definition track_id_parts (t : Track) : list string :=
  [CanonicalAlbumID (identity_albumArtist t) (Album t); CanonicalArtistID (Artist t);
   Itoa (DiscNumber t); Itoa (track_number_of t); (canonicalTrackTitle (Title t)).1].

Definition hashed (t : Track) : list string :=
  [id_input "artist" [CatalogNameKey (identity_albumArtist t)];
   id_input "artist" [CatalogNameKey (Artist t)];
   id_input "album" [CanonicalArtistID (identity_albumArtist t); CatalogNameKey (Album t)];
   id_input "track" (track_id_parts t)].

Definition no_collisions (t u : Track) : Prop :=
  ∀ a b, a ∈ hashed t → b ∈ hashed u → no_collision a b.

Lemma CanonicalTrackID_parts t : CanonicalTrackID t = StableID "track" (track_id_parts t).
Proof.
  unfold CanonicalTrackID, track_id_parts, track_number_of.
  by destruct (canonicalTrackTitle (Title t)).
Qed.

Lemma StableID_parts kind p q :
  lacks "000" kind → length p = length q → p ≠ [] →
  all_but_last_lack "000" p → all_but_last_lack "000" q →
  no_collision (id_input kind p) (id_input kind q) → StableID kind p = StableID kind q → p = q.
Proof. intros Hk Hlen Hp Hlp Hlq Hnc E. by eapply id_input_inj, StableID_input. Qed.

Lemma CanonicalArtistID_lacks name : lacks "000" (CanonicalArtistID name).
Proof. apply StableID_lacks. by compute_done. Qed.

Lemma CanonicalArtistID_inj x y :
  no_collision (id_input "artist" [CatalogNameKey x]) (id_input "artist" [CatalogNameKey y]) →
  CanonicalArtistID x = CanonicalArtistID y → CatalogNameKey x = CatalogNameKey y.
Proof.
  intros Hnc E. apply StableID_parts in E; [exact (f_equal (λ l, nth 0 l "") E)| | | | | |exact Hnc];
    try done; try by constructor.
  by compute_done.
Qed.

Lemma CanonicalAlbumID_inj aa al aa' al' :
  no_collision (id_input "album" [CanonicalArtistID aa; CatalogNameKey al])
    (id_input "album" [CanonicalArtistID aa'; CatalogNameKey al']) →
  CanonicalAlbumID aa al = CanonicalAlbumID aa' al' →
  CanonicalArtistID aa = CanonicalArtistID aa' ∧ CatalogNameKey al = CatalogNameKey al'.
Proof.
  intros Hnc E. apply StableID_parts in E; [| | | | | |exact Hnc].
  - split; [exact (f_equal (λ l, nth 0 l "") E)|exact (f_equal (λ l, nth 1 l "") E)].
  - by compute_done.
  - reflexivity.
  - discriminate.
  - repeat constructor. apply CanonicalArtistID_lacks.
  - repeat constructor. apply CanonicalArtistID_lacks.
Qed.

Lemma track_id_parts_lack t : all_but_last_lack "000" (track_id_parts t).
Proof.
  unfold all_but_last_lack, track_id_parts. cbn [removelast].
  repeat apply Forall_cons_2; try apply Itoa_lacks; try apply Forall_nil_2;
    apply StableID_lacks; by compute_done.
Qed.

(** The canonical track identifier is the identity of the recording: when
    the truncated hash does not collide on what is hashed for the two tracks,
    they get the same identifier exactly when album artist, album, artist,
    disc, track number and title agree after normalisation. *)
Theorem canonical_track_id_is_identity t u :
  no_collisions t u →
  CanonicalTrackID t = CanonicalTrackID u ↔ track_identity t = track_identity u.
Proof.
  intros Hnc. rewrite !CanonicalTrackID_parts. split.
  - intros E. apply StableID_parts in E;
      [| by compute_done | reflexivity | discriminate | apply track_id_parts_lack
      | apply track_id_parts_lack | apply Hnc; unfold hashed; do 3 right; by left].
    pose proof (f_equal (λ l, nth 0 l "") E) as Ealbum.
    pose proof (f_equal (λ l, nth 1 l "") E) as Eartist.
    pose proof (f_equal (λ l, nth 2 l "") E) as Edisc.
    pose proof (f_equal (λ l, nth 3 l "") E) as Enum.
    pose proof (f_equal (λ l, nth 4 l "") E) as Etitle.
    cbn [track_id_parts nth] in Ealbum, Eartist, Edisc, Enum, Etitle.
    apply (inj pretty) in Edisc, Enum.
    apply CanonicalArtistID_inj in Eartist; [|apply Hnc; unfold hashed; right; by left].
    apply CanonicalAlbumID_inj in Ealbum as [Eaa Ealbum];
      [|apply Hnc; unfold hashed; do 2 right; by left].
    apply CanonicalArtistID_inj in Eaa; [|apply Hnc; unfold hashed; by left].
    unfold track_identity. congruence.
  - unfold track_identity, track_id_parts, CanonicalAlbumID, CanonicalArtistID.
    intros [= -> -> -> -> -> ->]. done.
Qed.

(** A numbered title is the plain title: when the normalised title of one
    track is a number of up to three digits, some separators, and then the
    normalised title of the other, and the first has no track number while the
    second has that number, both get the same identifier. *)
Theorem numbered_title_is_plain_title t u ds seps rs n :
  runes (CatalogNameKey (Title t)) = ds ++ seps ++ rs →
  (1 ≤ length ds ≤ 3)%nat → Forall (λ r, IsDigit r = true) ds →
  seps ≠ [] → Forall (λ r, IsLetter r = false ∧ IsDigit r = false) seps →
  match rs with r :: _ => IsLetter r = true | [] => False end →
  Atoi (of_runes ds) = Some n → n ≠ 0 →
  CatalogNameKey (Title u) = TrimSpace (of_runes rs) →
  canonicalTrackTitle (Title u) = (CatalogNameKey (Title u), 0) →
  TrackNumber t = 0 → TrackNumber u = n →
  Artist t = Artist u → Album t = Album u → AlbumArtist t = AlbumArtist u →
  DiscNumber t = DiscNumber u →
  CanonicalTrackID t = CanonicalTrackID u.
Proof.
  intros Hrunes Hlen Hds Hne Hseps Hrs Hatoi Hn Hkey Hplain Ht Hu Ear Eal Eaa Edi.
  assert (canonicalTrackTitle (Title t) = (TrimSpace (of_runes rs), n)) as Htitle.
  { unfold canonicalTrackTitle. rewrite Hrunes.
    assert (∀ m l, Forall (λ r, IsDigit r = true) l → (length l ≤ m)%nat →
      leading_digits m (l ++ seps ++ rs) = length l) as Hlead.
    { intros m l. revert m. induction l as [|r l IH]; intros m Hl Hm.
      - destruct seps as [|s seps]; [done|]. apply Forall_cons in Hseps as [[_ Hs] _].
        destruct m; [done|]. cbn. by rewrite Hs.
      - apply Forall_cons in Hl as [Hr Hl]. destruct m as [|m]; cbn in *; [lia|].
        rewrite Hr, IH; [done|done|lia]. }
    rewrite Hlead by (done || lia). rewrite drop_app_length.
    destruct ds as [|d ds]; [cbn in Hlen; lia|].
    destruct seps as [|s seps]; [done|]. cbn [length app].
    pose proof Hseps as [[Hs1 Hs2] _]%Forall_cons.
    change (d :: ds ++ s :: seps ++ rs) with ((d :: ds) ++ (s :: seps ++ rs)).
    change (S (length ds)) with (length (d :: ds)). rewrite drop_app_length, take_app_length, Hatoi.
    rewrite Hs1, Hs2. cbn [orb].
    assert (drop_while (λ r, negb (IsLetter r) && negb (IsDigit r)) (s :: seps ++ rs) = rs) as ->.
    { change (s :: seps ++ rs) with ((s :: seps) ++ rs). clear -Hseps Hrs.
      induction Hseps as [|x l [Hx1 Hx2] Hl IH]; cbn.
      - destruct rs as [|r rs]; [done|]. cbn. by rewrite Hrs.
      - by rewrite Hx1, Hx2. }
    by destruct rs. }
  rewrite !CanonicalTrackID_parts. unfold track_id_parts, track_number_of, identity_albumArtist.
  rewrite Htitle, Hplain, Ht, Hu, Ear, Eal, Eaa, Edi, Hkey. cbn [fst snd].
  rewrite Z.eqb_refl. by apply Z.eqb_neq in Hn as ->.
Qed.
End theorems.

(** * Witnesses *)

#[local] Existing Instance ascii_unicode.

(** Normalisation of ASCII text: NFKC is the identity, folding lowers. *)
Definition ascii_norm : TextNorm := {| NFKC s := s; CaseFold := ToLower |}.
#[local] Existing Instance ascii_norm.

Definition plain_track (title : string) (number : Z) : Track :=
  mkTrack "" title "Can" "" "Tago Mago" "" "" "" number 1 1971 "" 0 0 0 "flac" "audio/flac" "".

(** [no_collisions], decided. *)
Definition collision_free (t u : Track) : bool :=
  forallb (λ a, forallb (λ b,
    implb (bool_decide (take 12 (Sum256 (bytes_of a)) = take 12 (Sum256 (bytes_of b))))
      (bool_decide (a = b))) (hashed u)) (hashed t).

Lemma collision_free_true t u : collision_free t u = true → no_collisions t u.
Proof.
  intros Hc a b Ha Hb Heq. unfold collision_free in Hc.
  rewrite forallb_forall in Hc. apply list_elem_of_In in Ha. specialize (Hc _ Ha).
  rewrite forallb_forall in Hc. apply list_elem_of_In in Hb. specialize (Hc _ Hb).
  rewrite (bool_decide_eq_true_2 _ Heq) in Hc. by apply bool_decide_eq_true in Hc.
Qed.

Lemma canonical_track_id_is_identity_witness :
  CanonicalTrackID (plain_track "Halleluhwah" 4) = CanonicalTrackID (plain_track " HALLELUHWAH" 4) ∧
  CanonicalTrackID (plain_track "Halleluhwah" 4) ≠ CanonicalTrackID (plain_track "Aumgn" 5).
Proof.
  split.
  - apply canonical_track_id_is_identity; [|vm_compute; reflexivity].
    apply collision_free_true. vm_compute. reflexivity.
  - intros E. apply canonical_track_id_is_identity in E.
    + vm_compute in E. discriminate E.
    + apply collision_free_true. vm_compute. reflexivity.
Defined.

Lemma numbered_title_is_plain_title_witness :
  CanonicalTrackID (plain_track "04 - Halleluhwah" 0) = CanonicalTrackID (plain_track "Halleluhwah" 4).
Proof.
  apply (numbered_title_is_plain_title (plain_track "04 - Halleluhwah" 0) (plain_track "Halleluhwah" 4)
    [48; 52] [32; 45; 32] (runes "halleluhwah") 4); try reflexivity; try discriminate.
  - cbn; lia.
  - repeat constructor.
  - repeat constructor.
Defined.
