(* ===== verification/Library.v ===== *)
(** The catalog tables and the statements on them
    ([adapters/storage/sqlite/catalog.go], [catalog_management.go],
    [source_writer.go], [track_pins.go], [settings.go]).

    A table is a map from its primary key to the rest of the row.  Rows that a
    foreign key with ON DELETE CASCADE ties to another table are deleted with
    the row they refer to ([cascade]).  Times are kept as instants; the texts the
    columns hold determine them and are used where rows are ordered by them. *)
From stdpp Require Import base gmap strings list sorting.
From Stdlib Require Import ZArith Lia.
From S2P Require Import Prelude GoStrings GoTime Sql Music.

Open Scope Z_scope.

(** * Tables *)

Record playlist_row := mkPlaylistRow {
  pl_owner : string;
  pl_name : string;
  pl_comment : string;
  pl_public : bool;
  pl_created : time;
  pl_changed : time;
  (** The rows of [playlist_tracks], by position. *)
  pl_tracks : list string;
}.

Record queue_row := mkQueueRow {
  q_current : string;
  q_position : Z;
  q_changed : time;
  q_changed_by : string;
  (** The rows of [play_queue_tracks], by position. *)
  q_tracks : list string;
}.

Record annotation_row := mkAnnotationRow {
  an_starred : time;
  an_rating : Z;
  an_plays : Z;
  an_last : time;
}.

Record artist_alias_row := mkArtistAliasRow {
  aa_name : string;
  aa_target : string;
  aa_target_name : string;
  aa_created : time;
}.

Record library := mkLibrary {
  tracks : gmap string Track;
  (** By the UNIQUE key (provider, source_key): track and discovery time. *)
  track_sources : gmap SourceRef (string * time);
  track_aliases : gmap string string;
  (** (provider, alias_id, track_id). *)
  album_aliases : gset (string * string * string);
  artist_aliases : gmap string artist_alias_row;
  playlists : gmap string playlist_row;
  play_queues : gmap string queue_row;
  (** By (owner, media_type, media_id). *)
  media_annotations : gmap (string * string * string) annotation_row;
  pinned_tracks : gmap string time;
  transfer_limits : option (Z * Z);
}.

Definition with_tracks (f : gmap string Track → gmap string Track) (t : library) : library :=
  mkLibrary (f (tracks t)) (track_sources t) (track_aliases t) (album_aliases t) (artist_aliases t)
    (playlists t) (play_queues t) (media_annotations t) (pinned_tracks t) (transfer_limits t).
Definition with_sources (f : gmap SourceRef (string * time) → gmap SourceRef (string * time))
    (t : library) : library :=
  mkLibrary (tracks t) (f (track_sources t)) (track_aliases t) (album_aliases t) (artist_aliases t)
    (playlists t) (play_queues t) (media_annotations t) (pinned_tracks t) (transfer_limits t).
Definition with_aliases (f : gmap string string → gmap string string) (t : library) : library :=
  mkLibrary (tracks t) (track_sources t) (f (track_aliases t)) (album_aliases t) (artist_aliases t)
    (playlists t) (play_queues t) (media_annotations t) (pinned_tracks t) (transfer_limits t).
Definition with_album_aliases
    (f : gset (string * string * string) → gset (string * string * string)) (t : library) : library :=
  mkLibrary (tracks t) (track_sources t) (track_aliases t) (f (album_aliases t)) (artist_aliases t)
    (playlists t) (play_queues t) (media_annotations t) (pinned_tracks t) (transfer_limits t).
Definition with_artist_aliases (f : gmap string artist_alias_row → gmap string artist_alias_row)
    (t : library) : library :=
  mkLibrary (tracks t) (track_sources t) (track_aliases t) (album_aliases t) (f (artist_aliases t))
    (playlists t) (play_queues t) (media_annotations t) (pinned_tracks t) (transfer_limits t).
Definition with_playlists (f : gmap string playlist_row → gmap string playlist_row)
    (t : library) : library :=
  mkLibrary (tracks t) (track_sources t) (track_aliases t) (album_aliases t) (artist_aliases t)
    (f (playlists t)) (play_queues t) (media_annotations t) (pinned_tracks t) (transfer_limits t).
Definition with_queues (f : gmap string queue_row → gmap string queue_row) (t : library) : library :=
  mkLibrary (tracks t) (track_sources t) (track_aliases t) (album_aliases t) (artist_aliases t)
    (playlists t) (f (play_queues t)) (media_annotations t) (pinned_tracks t) (transfer_limits t).
Definition with_annotations
    (f : gmap (string * string * string) annotation_row → gmap (string * string * string) annotation_row)
    (t : library) : library :=
  mkLibrary (tracks t) (track_sources t) (track_aliases t) (album_aliases t) (artist_aliases t)
    (playlists t) (play_queues t) (f (media_annotations t)) (pinned_tracks t) (transfer_limits t).
Definition with_pins (f : gmap string time → gmap string time) (t : library) : library :=
  mkLibrary (tracks t) (track_sources t) (track_aliases t) (album_aliases t) (artist_aliases t)
    (playlists t) (play_queues t) (media_annotations t) (f (pinned_tracks t)) (transfer_limits t).
Definition with_limits (f : option (Z * Z) → option (Z * Z)) (t : library) : library :=
  mkLibrary (tracks t) (track_sources t) (track_aliases t) (album_aliases t) (artist_aliases t)
    (playlists t) (play_queues t) (media_annotations t) (pinned_tracks t) (f (transfer_limits t)).

Notation db := (database library).

(** [ON DELETE CASCADE] of the three tables that refer to [tracks]. *)
Definition cascade (t : library) : library :=
  let known id := bool_decide (is_Some (tracks t !! id)) in
  with_sources (filter (λ x, known x.2.1 = true))
    (with_aliases (filter (λ x, known x.2 = true))
      (with_album_aliases (filter (λ x, known x.2 = true)) t)).

(** The foreign keys. *)
Record library_ok (t : library) : Prop := {
  ok_ids id tr : tracks t !! id = Some tr → ID tr = id;
  ok_sources r x : track_sources t !! r = Some x → is_Some (tracks t !! x.1);
  ok_aliases a id : track_aliases t !! a = Some id → is_Some (tracks t !! id);
  ok_album_aliases p a id : (p, a, id) ∈ album_aliases t → is_Some (tracks t !! id);
}.

(** [Duration.Milliseconds] when written, [time.Duration(ms) * time.Millisecond]
    when read; the album artist's id defaults to the artist's. *)
Definition Milliseconds (d : Z) : Z := Z.quot d (10 ^ 6).

Definition stored_track (t : Track) : Track :=
  mkTrack (ID t) (Title t) (Artist t) (ArtistID t) (Album t) (AlbumID t) (AlbumArtist t)
    (if bool_decide (AlbumArtistID t = "") then ArtistID t else AlbumArtistID t)
    (TrackNumber t) (DiscNumber t) (Year t) (Genre t) (i64 (Milliseconds (Duration t) * 10 ^ 6))
    (TrackSize t) (BitRate t) (Suffix t) (ContentType t) (CoverArtID t).

(** [formatOptionalTime]. *)
Definition time_text (t : time) : string := if IsZero t then "" else FormatRFC3339Nano t.

Section catalog.
Context `{Runtime} `{Unicode} `{TextNorm}.

(** * Reading *)

(** The first row of [SELECT id FROM tracks ... UNION ALL SELECT track_id FROM
    track_aliases ... LIMIT 1]. *)
Definition resolve_track (id : string) (t : library) : option string :=
  match tracks t !! id with Some _ => Some id | None => track_aliases t !! id end.

Definition resolveTrackID (id : string) : M db string :=
  r ← wrap_err (λ e, Errorf "resolve track ID: " e "") (QueryContext (resolve_track id));
  match r with Some x => mret x | None => throw (Sentinel ErrNotFound) end.

Definition getTrack (id : string) : M db Track :=
  resolvedID ← resolveTrackID id;
  r ← wrap_err (λ e, Errorf "query track: " e "") (QueryContext (λ t, tracks t !! resolvedID));
  match r with Some x => mret x | None => throw (Sentinel ErrNotFound) end.

(** The rank of a provider in [ORDER BY CASE provider ...]. *)
Definition provider_rank (p : string) : Z :=
  if bool_decide (p = "local") then 0
  else if bool_decide (p = "torrent") then 1
  else if bool_decide (p = "soulseek") then 2 else 3.

Definition source_less (x y : SourceRef * time) : bool :=
  let rx := provider_rank (Provider x.1) in
  let ry := provider_rank (Provider y.1) in
  (rx <? ry) || ((rx =? ry) &&
    (str_ltb (time_text y.2) (time_text x.2) || (bool_decide (time_text y.2 = time_text x.2) &&
      str_ltb (SourceKey x.1) (SourceKey y.1)))).

Definition source_rows (trackID : string) (t : library) : list (SourceRef * time) :=
  omap (λ x : SourceRef * (string * time),
          if bool_decide (x.2.1 = trackID) then Some (x.1, x.2.2) else None)
    (map_range (track_sources t)).

Definition Sources (trackID : string) : M db (list SourceRef) :=
  resolvedID ← resolveTrackID trackID;
  rows ← wrap_err (λ e, Errorf "query track sources: " e "")
    (QueryContext (λ t, sort_slice source_less (source_rows resolvedID t)));
  if bool_decide (rows = []) then throw (Sentinel ErrNotFound) else mret (map fst rows).

(** [ORDER BY disc_number, track_number, LOWER(title)]. *)
Definition album_less (x y : Track) : bool :=
  (DiscNumber x <? DiscNumber y) || ((DiscNumber x =? DiscNumber y) &&
    ((TrackNumber x <? TrackNumber y) || ((TrackNumber x =? TrackNumber y) &&
      str_ltb (sql_lower (Title x)) (sql_lower (Title y))))).

Definition select_tracks (p : Track → bool) (t : library) : list Track :=
  List.filter p (map snd (map_range (tracks t))).

Definition tracksByCanonicalAlbum (albumID : string) : M db (list Track) :=
  wrap_err (λ e, Errorf "query album tracks: " e "")
    (QueryContext (λ t, sort_slice album_less
       (select_tracks (λ x, bool_decide (AlbumID x = albumID)) t))).

Definition has_album_alias (albumID : string) (t : library) (x : Track) : bool :=
  existsb (λ a : string * string * string,
    bool_decide (a.1.2 = albumID) && bool_decide (a.2 = ID x)) (elements (album_aliases t)).

Definition TracksByAlbum (albumID : string) : M db (list Track) :=
  found ← tracksByCanonicalAlbum albumID;
  if bool_decide (found ≠ []) then mret found
  else wrap_err (λ e, Errorf "query album alias tracks: " e "")
    (QueryContext (λ t, sort_slice album_less (select_tracks (has_album_alias albumID t) t))).

(** * Artists *)

(** [artist_roles]: (id, name, album_id) of every album artist and artist. *)
Definition artist_roles (t : library) : list (string * string * string) :=
  let rows := map snd (map_range (tracks t)) in
  map (λ x, (AlbumArtistID x, AlbumArtist x, AlbumID x)) rows
  ++ map (λ x, (ArtistID x, Artist x, AlbumID x)) rows.

(** [resolved_roles]. *)
Definition resolve_role (t : library) (r : string * string * string) : string * string * string :=
  match artist_aliases t !! r.1.1 with
  | Some a => (aa_target a, aa_target_name a, r.2)
  | None => r
  end.

Record ArtistEntry := mkArtist {
  artist_ID : string;
  artist_Name : string;
  AlbumCount : Z;
}.

(** [MIN(name)] in binary collation. *)
Definition min_text (l : list string) : string :=
  match l with
  | [] => ""
  | x :: l' => fold_left (λ m y, if str_ltb y m then y else m) l' x
  end.

Definition select_artist (id : string) (t : library) : option ArtistEntry :=
  let group := List.filter (λ r : string * string * string, bool_decide (r.1.1 = id))
                 (map (resolve_role t) (artist_roles t)) in
  match group with
  | [] => None
  | _ => Some (mkArtist id (min_text (map (λ r, r.1.2) group))
                (Z.of_nat (size (list_to_set (C := gset string) (map snd group)))))
  end.

Definition artist_known (id : string) (t : library) : bool :=
  existsb (λ r : string * string * string, bool_decide (r.1.1 = id)) (artist_roles t)
  || bool_decide (is_Some (artist_aliases t !! id))
  || existsb (λ x : string * artist_alias_row, bool_decide (aa_target x.2 = id))
       (map_range (artist_aliases t)).

Definition alias_target (id : string) (t : library) : string :=
  match artist_aliases t !! id with Some a => aa_target a | None => id end.

Definition resolveArtistID (id : string) : M db string :=
  r ← wrap_err (λ e, Errorf "resolve artist ID: " e "")
    (QueryContext (λ t, if artist_known id t then Some (alias_target id t) else None));
  match r with Some x => mret x | None => throw (Sentinel ErrNotFound) end.

Definition getArtist (id : string) : M db ArtistEntry :=
  resolvedID ← resolveArtistID id;
  r ← wrap_err (λ e, Errorf "query artist: " e "") (QueryContext (select_artist resolvedID));
  match r with Some x => mret x | None => throw (Sentinel ErrNotFound) end.

Definition SetArtistAlias (now : time) (aliasID targetID : string) : M db artist_alias_row :=
  let aliasID := TrimSpace aliasID in
  let targetID := TrimSpace targetID in
  if bool_decide (aliasID = "") || bool_decide (targetID = "") || bool_decide (aliasID = targetID)
  then throw (Plain "artist alias and target must be different")
  else
    alias ← getArtist aliasID;
    targetID ← resolveArtistID targetID;
    if bool_decide (artist_ID alias = targetID) then throw (Plain "artist alias cycle")
    else
      target ← getArtist targetID;
      let fresh := mkArtistAliasRow (artist_Name alias) (artist_ID target) (artist_Name target) now in
      _ ← wrap_err (λ e, Errorf "save artist alias: " e "")
        (statement (λ t,
          if bool_decide (aliasID = artist_ID target) then Err (Plain "CHECK constraint failed: alias_id <> target_id")
          else Ok (tt, with_artist_aliases (λ m, <[aliasID :=
            match m !! aliasID with
            | Some old => mkArtistAliasRow (aa_name old) (aa_target fresh) (aa_target_name fresh) (aa_created old)
            | None => fresh
            end]> m) t)));
      mret fresh.

Definition DeleteArtistAlias (aliasID : string) : M db unit :=
  deleted ← wrap_err (λ e, Errorf "delete artist alias: " e "")
    (statement (λ t, match artist_aliases t !! aliasID with
       | Some _ => Ok (1, with_artist_aliases (delete aliasID) t)
       | None => Ok (0, t)
       end));
  if deleted =? 0 then throw (Sentinel ErrNotFound) else mret tt.

Definition ArtistAliases : M db (list (string * artist_alias_row)) :=
  wrap_err (λ e, Errorf "query artist aliases: " e "")
    (QueryContext (λ t,
       sort_slice (λ x y : string * artist_alias_row, str_ltb (sql_lower (aa_name x.2)) (sql_lower (aa_name y.2)))
         (map_range (artist_aliases t)))).

(** * Writing *)

(** [INSERT INTO tracks ... ON CONFLICT(id) DO UPDATE SET ...]. *)
Definition upsert_track (track : Track) : library → library :=
  with_tracks (<[ID track := stored_track track]>).

Definition insert_source (trackID : string) (ref : SourceRef) (discovered : time) (t : library)
    : res (unit * library) :=
  match tracks t !! trackID with
  | None => Err (Plain "FOREIGN KEY constraint failed")
  | Some _ =>
      match track_sources t !! ref with
      | Some _ => Err (Plain "UNIQUE constraint failed: track_sources.provider, track_sources.source_key")
      | None => Ok (tt, with_sources (<[ref := (trackID, discovered)]>) t)
      end
  end.

(** [ON CONFLICT(provider, source_key) DO UPDATE SET track_id, discovered_at]. *)
Definition upsert_source (trackID : string) (ref : SourceRef) (discovered : time) (t : library)
    : res (unit * library) :=
  match tracks t !! trackID with
  | None => Err (Plain "FOREIGN KEY constraint failed")
  | Some _ => Ok (tt, with_sources (<[ref := (trackID, discovered)]>) t)
  end.

Definition insert_album_alias (provider aliasID trackID : string) (t : library)
    : res (unit * library) :=
  match tracks t !! trackID with
  | None => Err (Plain "FOREIGN KEY constraint failed")
  | Some _ => Ok (tt, with_album_aliases (λ s, {[(provider, aliasID, trackID)]} ∪ s) t)
  end.

Definition set_optional {A} (k : string) (v : option A) (m : gmap string A) : gmap string A :=
  match v with Some x => <[k := x]> m | None => m end.

(** The first loop of [ReplaceProviderTracks]: [previousAlbums] and [previousAliases]. *)
Fixpoint previous_loop (provider : string) (sources : list TrackSource)
    (albums : gmap string string) (aliases : gmap string (list string))
    : M db (gmap string string * gmap string (list string)) :=
  match sources with
  | [] => mret (albums, aliases)
  | source :: rest =>
      let id := ID (ts_Track source) in
      album ← wrap_err (λ e, Errorf ("query previous album for track " +:+ id +:+ ": ") e "")
        (QueryContext (λ t, AlbumID <$> tracks t !! id));
      found ← wrap_err (λ e, Errorf ("query previous aliases for track " +:+ id +:+ ": ") e "")
        (QueryContext (λ t, omap (λ x : string * string * string,
           if bool_decide (x.1.1 = provider) && bool_decide (x.2 = id) then Some x.1.2 else None)
           (elements (album_aliases t))));
      previous_loop provider rest (set_optional id album albums)
        (<[id := default [] (aliases !! id) ++ found]> aliases)
  end.

(** The second loop: the tracks and their sources, collecting album aliases. *)
Fixpoint insert_loop (provider : string) (albums : gmap string string)
    (previousAliases : gmap string (list string)) (sources : list TrackSource)
    (aliases : list (string * string)) : M db (list (string * string)) :=
  match sources with
  | [] => mret aliases
  | source :: rest =>
      let track := ts_Track source in
      if negb (bool_decide (Provider (ts_Ref source) = provider)) then
        throw (Plain ("track " +:+ ID track +:+ " belongs to provider " +:+ Provider (ts_Ref source)))
      else
        _ ← wrap_err (λ e, Errorf ("insert track " +:+ ID track +:+ ": ") e "")
          (ExecContext (upsert_track track));
        _ ← wrap_err (λ e, Errorf ("insert source for track " +:+ ID track +:+ ": ") e "")
          (statement (insert_source (ID track) (ts_Ref source) (DiscoveredAt source)));
        let previous := default "" (albums !! ID track) in
        let moved := if negb (bool_decide (previous = "")) && negb (bool_decide (previous = AlbumID track))
                     then [(previous, ID track)] else [] in
        let kept := map (λ a, (a, ID track)) (default [] (previousAliases !! ID track)) in
        insert_loop provider albums previousAliases rest (aliases ++ moved ++ kept)
  end.

Fixpoint alias_loop (provider : string) (incoming : gset string) (aliases : list (string * string))
    : M db unit :=
  match aliases with
  | [] => mret tt
  | (aliasID, trackID) :: rest =>
      if bool_decide (aliasID = "") || bool_decide (trackID = "") then alias_loop provider incoming rest
      else if negb (bool_decide (trackID ∈ incoming)) then
        throw (Plain ("album alias " +:+ aliasID +:+ " refers to unknown provider track " +:+ trackID))
      else
        _ ← wrap_err (λ e, Errorf ("insert album alias " +:+ aliasID +:+ ": ") e "")
          (statement (insert_album_alias provider aliasID trackID));
        alias_loop provider incoming rest
  end.

Definition clear_provider_aliases (provider : string) : library → library :=
  with_album_aliases (filter (λ x, x.1.1 ≠ provider)).
Definition clear_provider_sources (provider : string) : library → library :=
  with_sources (filter (λ x, Provider x.1 ≠ provider)).

(** [DELETE FROM tracks WHERE NOT EXISTS (SELECT 1 FROM track_sources ...)]. *)
Definition clear_orphans (t : library) : library :=
  let sourced := list_to_set (C := gset string) (map (λ x, x.2.1) (map_to_list (track_sources t))) in
  cascade (with_tracks (filter (λ x, x.1 ∈ sourced)) t).

Definition ReplaceProviderTracks (provider : string) (sources : list TrackSource)
    (albumAliases : list (string * string)) : M db unit :=
  transaction (λ e, Errorf "begin catalog replacement: " e "")
    (λ e, Errorf "commit catalog replacement: " e "")
    (prev ← previous_loop provider sources ∅ ∅;
     _ ← wrap_err (λ e, Errorf "clear provider album aliases: " e "")
       (ExecContext (clear_provider_aliases provider));
     _ ← wrap_err (λ e, Errorf "clear provider sources: " e "")
       (ExecContext (clear_provider_sources provider));
     _ ← wrap_err (λ e, Errorf "clear orphaned tracks: " e "") (ExecContext clear_orphans);
     aliases ← insert_loop provider prev.1 prev.2 sources albumAliases;
     alias_loop provider (list_to_set (map (λ s, ID (ts_Track s)) sources)) aliases).

Definition UpdateTrack (track : Track) : M db unit :=
  transaction (λ e, Errorf "begin track update: " e "") (λ e, Errorf "commit track update: " e "")
    (previous ← wrap_err (λ e, Errorf "query track before update: " e "")
       (QueryContext (λ t, AlbumID <$> tracks t !! ID track));
     match previous with
     | None => throw (Sentinel ErrNotFound)
     | Some previousAlbumID =>
         _ ← wrap_err (λ e, Errorf ("update track " +:+ ID track +:+ ": ") e "")
           (ExecContext (with_tracks (alter (λ _, stored_track track) (ID track))));
         if negb (bool_decide (previousAlbumID = "")) && negb (bool_decide (previousAlbumID = AlbumID track))
         then wrap_err (λ e, Errorf ("preserve previous album for track " +:+ ID track +:+ ": ") e "")
           (ExecContext (λ t, with_album_aliases (λ s,
              list_to_set (omap (λ x : SourceRef * (string * time),
                 if bool_decide (x.2.1 = ID track)
                 then Some (Provider x.1, previousAlbumID, ID track) else None)
                 (map_to_list (track_sources t))) ∪ s) t))
         else mret tt
     end).

Record TrackMetadataPatch := mkPatch {
  patch_Title : option string;
  patch_Artist : option string;
  patch_Album : option string;
  patch_AlbumArtist : option string;
  patch_Genre : option string;
  patch_Year : option Z;
  patch_TrackNumber : option Z;
  patch_DiscNumber : option Z;
}.

(** [applyText] and its numeric counterpart.  The source ranges over a map of
    fields; every order gives the same track or the same error. *)
Definition applyText (target : string) (value : option string) : res string :=
  match value with
  | None => Ok target
  | Some v =>
      let clean := TrimSpace v in
      if bool_decide (clean = "") then Err (Plain "metadata values cannot be empty") else Ok clean
  end.

Definition applyNumber (target : Z) (value : option Z) : res Z :=
  match value with
  | None => Ok target
  | Some v => if v <? 0 then Err (Plain "metadata numbers cannot be negative") else Ok v
  end.

Definition UpdateTrackMetadata (id : string) (patch : TrackMetadataPatch) : M db Track :=
  track ← getTrack id;
  title ← lift (applyText (Title track) (patch_Title patch));
  artist ← lift (applyText (Artist track) (patch_Artist patch));
  album ← lift (applyText (Album track) (patch_Album patch));
  albumArtist ← lift (applyText (AlbumArtist track) (patch_AlbumArtist patch));
  let genre := match patch_Genre patch with Some g => TrimSpace g | None => Genre track end in
  year ← lift (applyNumber (Year track) (patch_Year patch));
  number ← lift (applyNumber (TrackNumber track) (patch_TrackNumber patch));
  disc ← lift (applyNumber (DiscNumber track) (patch_DiscNumber patch));
  let albumArtist := if bool_decide (albumArtist = "") then artist else albumArtist in
  let updated := mkTrack (ID track) title artist (CanonicalArtistID artist) album
    (CanonicalAlbumID albumArtist album) albumArtist (CanonicalArtistID albumArtist)
    number disc year genre (Duration track) (TrackSize track) (BitRate track) (Suffix track)
    (ContentType track) (CoverArtID track) in
  _ ← UpdateTrack updated;
  mret updated.

Definition saveTrackSource (source : TrackSource) : M db unit :=
  let track := ts_Track source in
  if bool_decide (ID track = "") || bool_decide (Provider (ts_Ref source) = "")
     || bool_decide (SourceKey (ts_Ref source) = "")
  then throw (Plain "track id, provider, and source key are required")
  else
    _ ← wrap_err (λ e, Errorf ("save track " +:+ ID track +:+ ": ") e "")
      (ExecContext (upsert_track track));
    wrap_err (λ e, Errorf ("save source for track " +:+ ID track +:+ ": ") e "")
      (statement (upsert_source (ID track) (ts_Ref source) (DiscoveredAt source))).

Definition SaveTrackSources (sources : list TrackSource) : M db unit :=
  if bool_decide (length sources = 0%nat) then mret tt
  else transaction (λ e, Errorf "begin track sources save: " e "")
    (λ e, Errorf "commit track sources save: " e "") (miter saveTrackSource sources).

Definition SaveTrackSource (source : TrackSource) : M db unit := SaveTrackSources [source].

Definition SaveTrackAlias (aliasID trackID : string) : M db unit :=
  if bool_decide (aliasID = "") || bool_decide (trackID = "") || bool_decide (aliasID = trackID)
  then mret tt
  else wrap_err (λ e, Errorf ("save track alias " +:+ aliasID +:+ ": ") e "")
    (statement (λ t, match tracks t !! trackID with
       | None => Err (Plain "FOREIGN KEY constraint failed")
       | Some _ => Ok (tt, with_aliases (<[aliasID := trackID]>) t)
       end)).

Definition SetTrackPinned (now : time) (trackID : string) (pinned : bool) : M db unit :=
  resolved ← resolveTrackID trackID;
  wrap_err (λ e, Errorf "set track pin: " e "")
    (ExecContext (with_pins (if pinned then <[resolved := now]> else delete resolved))).

Definition TrackPinned (trackID : string) : M db bool :=
  resolved ← resolveTrackID trackID;
  wrap_err (λ e, Errorf "query track pin: " e "")
    (QueryContext (λ t, bool_decide (is_Some (pinned_tracks t !! resolved)))).

Definition PinnedTracks : M db (list string) :=
  wrap_err (λ e, Errorf "query pinned tracks: " e "")
    (QueryContext (λ t, map fst (sort_slice (λ x y : string * time,
       str_ltb (FormatRFC3339Nano x.2) (FormatRFC3339Nano y.2) ||
       (bool_decide (FormatRFC3339Nano x.2 = FormatRFC3339Nano y.2) && str_ltb x.1 y.1))
       (map_range (pinned_tracks t))))).

Definition TransferLimits : M db (Z * Z) :=
  r ← wrap_err (λ e, Errorf "read torrent transfer settings: " e "") (QueryContext transfer_limits);
  match r with Some x => mret x | None => throw (Sentinel ErrNotFound) end.

Definition SaveTransferLimits (limits : Z * Z) : M db unit :=
  wrap_err (λ e, Errorf "save torrent transfer settings: " e "")
    (statement (λ t,
       if (limits.1 <? 0) || (limits.2 <? 0) then Err (Plain "CHECK constraint failed")
       else Ok (tt, with_limits (λ _, Some limits) t))).

(** * Search *)

Definition containsFolded (value foldedNeedle : string) : bool :=
  bool_decide (foldedNeedle = "") || Contains (ToLower value) foldedNeedle.

(** [page]: [items[offset:end]] with the sum in machine arithmetic. *)
Definition page {A} (items : list A) (offset count : Z) : list A :=
  let n := Z.of_nat (length items) in
  if (offset <? 0) || (count <=? 0) || (offset >=? n) then []
  else
    let e := i64 (offset + count) in
    let e := if (e <? offset) || (e >? n) then n else e in
    take (Z.to_nat (e - offset)) (drop (Z.to_nat offset) items).

Definition allTracks : M db (list Track) :=
  wrap_err (λ e, Errorf "query all tracks: " e "")
    (QueryContext (λ t, sort_slice (λ x y,
       str_ltb (sql_lower (Title x)) (sql_lower (Title y)) ||
       (bool_decide (sql_lower (Title x) = sql_lower (Title y)) &&
        str_ltb (sql_lower (Artist x)) (sql_lower (Artist y))))
       (map snd (map_range (tracks t))))).

(** The songs of [Search]. *)
Definition SearchSongs (text : string) (offset count : Z) : M db (list Track) :=
  songs ← allTracks;
  let needle := ToLower (TrimSpace text) in
  mret (page (List.filter (λ s, containsFolded (Title s) needle || containsFolded (Artist s) needle
                          || containsFolded (Album s) needle) songs) offset count).
End catalog.
