(* ===== verification/LibraryTheorems.v ===== *)
(** What the catalog guarantees: referential integrity of every operation, the
    exact effect of replacing a provider's tracks, and paging. *)
From stdpp Require Import base gmap strings list sorting.
From Stdlib Require Import ZArith Lia.
From S2P Require Import Prelude GoStrings GoTime Sql Music Library.

Open Scope Z_scope.

Section theorems.
Context `{Runtime} `{Unicode} `{TextNorm}.

(** * Referential integrity *)

(** A statement that keeps the foreign keys when it takes effect. *)
Definition keeps_ok {A} (m : M db A) : Prop :=
  ∀ d r d', m d = (r, d') → library_ok (tables d) → library_ok (tables d').

Lemma keeps_ok_read_only {A} (m : M db A) : read_only tables m → keeps_ok m.
Proof. intros Hm d r d' E Hok. by rewrite (Hm _ _ _ E). Qed.

Lemma keeps_ok_bind {A B} (m : M db A) (f : A → M db B) :
  keeps_ok m → (∀ a, keeps_ok (f a)) → keeps_ok (x ← m; f x).
Proof.
  intros Hm Hf d r d'. unfold mbind, M_bind. destruct (m d) as [[a|e] d1] eqn:E.
  - intros E2 Hok. eapply Hf; [exact E2|]. by eapply Hm.
  - intros [= <- <-] Hok. by eapply Hm.
Qed.

Lemma keeps_ok_wrap_err {A} g (m : M db A) : keeps_ok m → keeps_ok (wrap_err g m).
Proof.
  intros Hm d r d'. unfold wrap_err. destruct (m d) as [[a|e] d1] eqn:E;
    intros [= <- <-] Hok; by eapply Hm.
Qed.

Lemma keeps_ok_statement {A} (f : library → res (A * library)) :
  (∀ t a t', f t = Ok (a, t') → library_ok t → library_ok t') → keeps_ok (statement f).
Proof.
  intros Hf d [a|e] d' E Hok.
  - apply statement_Ok in E. by eapply Hf.
  - by rewrite (statement_clean _ _ _ _ E).
Qed.

Lemma keeps_ok_exec (f : library → library) :
  (∀ t, library_ok t → library_ok (f t)) → keeps_ok (ExecContext f).
Proof. intros Hf. apply keeps_ok_statement. intros t a t' [= _ <-]. auto. Qed.

Lemma keeps_ok_transaction {A} g h (m : M db A) : keeps_ok m → keeps_ok (transaction g h m).
Proof.
  intros Hm d [a|e] d' E Hok.
  - apply transaction_Ok in E as (d1 & d2 & E1 & E2 & ->). eapply Hm; [done|by rewrite E1].
  - by rewrite (transaction_clean _ _ _ _ _ _ E).
Qed.

Lemma keeps_ok_throw {A} e : keeps_ok (throw e : M db A).
Proof. by intros d r d' [= <- <-]. Qed.

Lemma keeps_ok_ret {A} (a : A) : keeps_ok (mret a).
Proof. by intros d r d' [= <- <-]. Qed.

Lemma keeps_ok_lift {A} (r : res A) : keeps_ok (lift r).
Proof. by intros d r' d' [= <- <-]. Qed.

Lemma upsert_track_ok tr t : library_ok t → library_ok (upsert_track tr t).
Proof.
  intros [Hi Hs Ha Hal].
  assert (∀ id, is_Some (tracks t !! id) → is_Some (tracks (upsert_track tr t) !! id)) as Hm.
  { intros id Hid. cbn. destruct (decide (id = ID tr)) as [->|?];
      [rewrite lookup_insert_eq; eauto|by rewrite lookup_insert_ne]. }
  split; cbn; intros; try (apply Hm; eauto).
  match goal with H : <[_:=_]> _ !! _ = _ |- _ =>
    apply lookup_insert_Some in H as [[<- <-]|[_ ?]] end; eauto.
Qed.

Lemma with_sources_ok ref id at_ t :
  is_Some (tracks t !! id) → library_ok t → library_ok (with_sources (<[ref := (id, at_)]>) t).
Proof.
  intros Hid [Hi Hs Ha Hal]. split; cbn; eauto.
  intros r x [[<- <-]|[_ ?]]%lookup_insert_Some; eauto.
Qed.

Lemma insert_source_ok id ref at_ t u t' :
  insert_source id ref at_ t = Ok (u, t') → library_ok t → library_ok t'.
Proof.
  unfold insert_source. destruct (tracks t !! id) eqn:Hid; [|done].
  destruct (track_sources t !! ref); [done|]. intros [= _ <-]. apply with_sources_ok. eauto.
Qed.

Lemma upsert_source_ok id ref at_ t u t' :
  upsert_source id ref at_ t = Ok (u, t') → library_ok t → library_ok t'.
Proof.
  unfold upsert_source. destruct (tracks t !! id) eqn:Hid; [|done].
  intros [= _ <-]. apply with_sources_ok. eauto.
Qed.

Lemma insert_album_alias_ok p a id t u t' :
  insert_album_alias p a id t = Ok (u, t') → library_ok t → library_ok t'.
Proof.
  unfold insert_album_alias. destruct (tracks t !! id) eqn:Hid; [|done].
  intros [= _ <-] [Hi Hs Ha Hal]. split; cbn; eauto.
  intros p' a' id' [[= -> -> ->]%elem_of_singleton|?]%elem_of_union; eauto.
Qed.

Lemma clear_orphans_ok t : library_ok t → library_ok (clear_orphans t).
Proof.
  intros [Hi Hs Ha Hal]. split; unfold clear_orphans, cascade; cbn.
  - intros id tr [? _]%map_lookup_filter_Some. eauto.
  - intros r x [_ Hk]%map_lookup_filter_Some. by apply bool_decide_eq_true in Hk.
  - intros a id [_ Hk]%map_lookup_filter_Some. by apply bool_decide_eq_true in Hk.
  - intros p a id [Hk _]%elem_of_filter. by apply bool_decide_eq_true in Hk.
Qed.

Lemma clear_provider_aliases_ok p t : library_ok t → library_ok (clear_provider_aliases p t).
Proof.
  intros [Hi Hs Ha Hal]. split; cbn; eauto. intros p' a id [_ ?]%elem_of_filter. eauto.
Qed.

Lemma clear_provider_sources_ok p t : library_ok t → library_ok (clear_provider_sources p t).
Proof.
  intros [Hi Hs Ha Hal]. split; cbn; eauto. intros r x [? _]%map_lookup_filter_Some. eauto.
Qed.

(** Operations on the tables no foreign key of the catalog mentions. *)
Lemma other_tables_ok t t' :
  tracks t' = tracks t → track_sources t' = track_sources t → track_aliases t' = track_aliases t →
  album_aliases t' = album_aliases t → library_ok t → library_ok t'.
Proof. intros E1 E2 E3 E4 [Hi Hs Ha Hal]. split; rewrite ?E1, ?E2, ?E3, ?E4; eauto. Qed.

#[local] Hint Resolve keeps_ok_read_only keeps_ok_throw keeps_ok_ret keeps_ok_lift : go.

Ltac keep :=
  intros;
  repeat match goal with
  | |- keeps_ok (if ?b then _ else _) => destruct b
  | |- keeps_ok (match ?b with _ => _ end) => destruct b
  | |- keeps_ok (mbind _ _) => apply keeps_ok_bind; [|intros ?]
  | |- keeps_ok (wrap_err _ _) => apply keeps_ok_wrap_err
  | |- keeps_ok (transaction _ _ _) => apply keeps_ok_transaction
  | |- keeps_ok (statement _) => apply keeps_ok_statement; intros ? ? ? ?
  | |- keeps_ok (ExecContext _) => apply keeps_ok_exec
  | |- keeps_ok (QueryContext _) => apply keeps_ok_read_only, QueryContext_read_only
  | |- keeps_ok (throw _) => apply keeps_ok_throw
  | |- keeps_ok (mret _) => apply keeps_ok_ret
  | |- keeps_ok (lift _) => apply keeps_ok_lift
  end.

Lemma previous_loop_read_only p l albums aliases : read_only tables (previous_loop p l albums aliases).
Proof.
  revert albums aliases. induction l as [|s l IH]; intros albums aliases; [apply read_only_ret|].
  cbn [previous_loop]. go_clean.
Qed.

Lemma insert_loop_keeps p albums prev l aliases : keeps_ok (insert_loop p albums prev l aliases).
Proof.
  revert aliases. induction l as [|s l IH]; intros aliases; cbn [insert_loop]; keep.
  - by apply upsert_track_ok.
  - by eapply insert_source_ok.
  - apply IH.
Qed.

Lemma alias_loop_keeps p incoming aliases : keeps_ok (alias_loop p incoming aliases).
Proof.
  induction aliases as [|[a id] l IH]; cbn [alias_loop]; keep; [done|by eapply insert_album_alias_ok|done].
Qed.

Lemma ReplaceProviderTracks_keeps p sources aliases : keeps_ok (ReplaceProviderTracks p sources aliases).
Proof.
  unfold ReplaceProviderTracks. keep.
  - apply keeps_ok_read_only, previous_loop_read_only.
  - by apply clear_provider_aliases_ok.
  - by apply clear_provider_sources_ok.
  - by apply clear_orphans_ok.
  - apply insert_loop_keeps.
  - apply alias_loop_keeps.
Qed.

Lemma resolveTrackID_read_only id : read_only tables (resolveTrackID id).
Proof. unfold resolveTrackID. go_clean. Qed.

Lemma getTrack_read_only id : read_only tables (getTrack id).
Proof. unfold getTrack, resolveTrackID. go_clean. Qed.

Lemma resolveArtistID_read_only id : read_only tables (resolveArtistID id).
Proof. unfold resolveArtistID. go_clean. Qed.

Lemma getArtist_read_only id : read_only tables (getArtist id).
Proof. unfold getArtist, resolveArtistID. go_clean. Qed.

Lemma UpdateTrack_keeps tr : keeps_ok (UpdateTrack tr).
Proof.
  unfold UpdateTrack. keep.
  - intros t [Hi Hs Ha Hal].
    assert (∀ id, is_Some (tracks t !! id) →
      is_Some (alter (λ _, stored_track tr) (ID tr) (tracks t) !! id)) as Hm.
    { intros id [x Hx]. destruct (decide (id = ID tr)) as [->|?];
        [rewrite lookup_alter_eq, Hx; eauto|rewrite lookup_alter_ne by done; eauto]. }
    split; cbn; eauto. intros id x Hx. destruct (decide (id = ID tr)) as [->|?].
    + rewrite lookup_alter_eq in Hx. apply fmap_Some in Hx as (? & _ & ->). done.
    + rewrite lookup_alter_ne in Hx by done. eauto.
  - intros t [Hi Hs Ha Hal]. split; cbn; eauto. intros p a' id [Hin|?]%elem_of_union; [|eauto].
    apply elem_of_list_to_set, list_elem_of_omap in Hin as ([r x] & Hin & Hx).
    apply elem_of_map_to_list in Hin. cbn in Hx. case_bool_decide as Hid; [|done].
    injection Hx as <- <- <-. rewrite <- Hid. by eapply Hs.
Qed.

Lemma saveTrackSource_keeps s : keeps_ok (saveTrackSource s).
Proof.
  unfold saveTrackSource. keep; [by apply upsert_track_ok|by eapply upsert_source_ok].
Qed.

(** The operations that change the catalog. *)
Inductive catalog_call :=
  | CallReplace (provider : string) (sources : list TrackSource) (aliases : list (string * string))
  | CallUpdateTrack (track : Track)
  | CallUpdateMetadata (id : string) (patch : TrackMetadataPatch)
  | CallSaveSources (sources : list TrackSource)
  | CallSaveAlias (aliasID trackID : string)
  | CallSetPinned (now : time) (trackID : string) (pinned : bool)
  | CallSetArtistAlias (now : time) (aliasID targetID : string)
  | CallDeleteArtistAlias (aliasID : string)
  | CallSaveLimits (limits : Z * Z).

Definition run_catalog_call (c : catalog_call) : M db unit :=
  match c with
  | CallReplace p sources aliases => ReplaceProviderTracks p sources aliases
  | CallUpdateTrack tr => UpdateTrack tr
  | CallUpdateMetadata id patch => _ ← UpdateTrackMetadata id patch; mret tt
  | CallSaveSources sources => SaveTrackSources sources
  | CallSaveAlias a id => SaveTrackAlias a id
  | CallSetPinned now id pinned => SetTrackPinned now id pinned
  | CallSetArtistAlias now a target => _ ← SetArtistAlias now a target; mret tt
  | CallDeleteArtistAlias a => DeleteArtistAlias a
  | CallSaveLimits limits => SaveTransferLimits limits
  end.

(** Referential integrity of the catalog: every operation, whether it
    succeeds or fails at any point, leaves each source, track alias and album
    alias pointing at an existing track, and each track under its own id. *)
Theorem catalog_calls_keep_integrity c d r d' :
  run_catalog_call c d = (r, d') → library_ok (tables d) → library_ok (tables d').
Proof.
  revert d r d'. change (keeps_ok (run_catalog_call c)).
  destruct c as [p l a|tr|id patch|l|a id|now id pinned|now a target|a|limits]; cbn [run_catalog_call].
  - apply ReplaceProviderTracks_keeps.
  - apply UpdateTrack_keeps.
  - unfold UpdateTrackMetadata. keep.
    + apply keeps_ok_read_only, getTrack_read_only.
    + apply UpdateTrack_keeps.
  - unfold SaveTrackSources. keep. induction l as [|s l IH]; cbn [miter]; [keep|].
    apply keeps_ok_bind; [apply saveTrackSource_keeps|done].
  - unfold SaveTrackAlias. keep. destruct (tracks _ !! id) eqn:Hid; [|done]. simplify_eq.
    intros [Hi Hs Ha Hal]. split; cbn; eauto.
    intros a' id' [[<- <-]|[_ ?]]%lookup_insert_Some; eauto.
  - unfold SetTrackPinned. keep; [apply keeps_ok_read_only, resolveTrackID_read_only|].
    intros t. by eapply other_tables_ok.
  - unfold SetArtistAlias. keep; try (apply keeps_ok_read_only;
      first [apply getArtist_read_only | apply resolveArtistID_read_only]).
    case_bool_decide; [done|]. simplify_eq. by eapply other_tables_ok.
  - unfold DeleteArtistAlias. keep. destruct (artist_aliases _ !! a); simplify_eq; [|done].
    by eapply other_tables_ok.
  - unfold SaveTransferLimits. keep. destruct (_ || _); [done|]. simplify_eq.
    by eapply other_tables_ok.
Qed.

(** * Editing a track's metadata *)

Definition text_edited (value : option string) (old new : string) : Prop :=
  match value with None => new = old | Some v => new = TrimSpace v ∧ new ≠ "" end.
Definition number_edited (value : option Z) (old new : Z) : Prop :=
  match value with None => new = old | Some v => new = v ∧ 0 ≤ v end.

(** What a patch makes of a track: the fields it names, cleaned, and the
    identifiers that follow from the names; everything else is as it was. *)
Record edited (patch : TrackMetadataPatch) (old new : Track) : Prop := {
  ed_Title : text_edited (patch_Title patch) (Title old) (Title new);
  ed_Artist : text_edited (patch_Artist patch) (Artist old) (Artist new);
  ed_Album : text_edited (patch_Album patch) (Album old) (Album new);
  ed_AlbumArtist :
    match patch_AlbumArtist patch with
    | None => AlbumArtist new = if decide (AlbumArtist old = "") then Artist new else AlbumArtist old
    | Some v => AlbumArtist new = TrimSpace v ∧ AlbumArtist new ≠ ""
    end;
  ed_Genre : Genre new = match patch_Genre patch with None => Genre old | Some v => TrimSpace v end;
  ed_Year : number_edited (patch_Year patch) (Year old) (Year new);
  ed_TrackNumber : number_edited (patch_TrackNumber patch) (TrackNumber old) (TrackNumber new);
  ed_DiscNumber : number_edited (patch_DiscNumber patch) (DiscNumber old) (DiscNumber new);
  ed_ArtistID : ArtistID new = CanonicalArtistID (Artist new);
  ed_AlbumArtistID : AlbumArtistID new = CanonicalArtistID (AlbumArtist new);
  ed_AlbumID : AlbumID new = CanonicalAlbumID (AlbumArtist new) (Album new);
  ed_rest : (ID new, Duration new, TrackSize new, BitRate new, Suffix new, ContentType new, CoverArtID new) =
            (ID old, Duration old, TrackSize old, BitRate old, Suffix old, ContentType old, CoverArtID old);
}.

Lemma applyText_edited old value new : applyText old value = Ok new → text_edited value old new.
Proof. unfold applyText, text_edited. destruct value as [v|]; [|by intros [= ->]]. case_bool_decide; [done|]. by intros [= <-]. Qed.

Lemma applyNumber_edited old value new : applyNumber old value = Ok new → number_edited value old new.
Proof. unfold applyNumber, number_edited. destruct value as [v|]; [|by intros [= ->]]. destruct (v <? 0) eqn:E; [done|]. intros [= <-]. split; [done|lia]. Qed.

(** A provider by which a track can be had. *)
Definition offered_by (t : library) (provider id : string) : Prop :=
  ∃ ref discovered, Provider ref = provider ∧ track_sources t !! ref = Some (id, discovered).

(** What an update of a track leaves in the tables. *)
Record track_updated (t t' : library) (old new : Track) : Prop := {
  tu_tracks : tracks t' = <[ID old := stored_track new]> (tracks t);
  tu_albums p a id : (p, a, id) ∈ album_aliases t' ↔
    (p, a, id) ∈ album_aliases t ∨ (id = ID old ∧ a = AlbumID old ∧ a ≠ "" ∧ a ≠ AlbumID new ∧ offered_by t p id);
  tu_rest : (track_sources t', track_aliases t', artist_aliases t', playlists t', play_queues t', media_annotations t',
             pinned_tracks t', transfer_limits t') =
            (track_sources t, track_aliases t, artist_aliases t, playlists t, play_queues t, media_annotations t,
             pinned_tracks t, transfer_limits t);
}.

Lemma getTrack_gives id d tr d' :
  getTrack id d = (Ok tr, d') →
  ∃ i, tables d' = tables d ∧ tracks (tables d) !! i = Some tr ∧ resolve_track id (tables d) = Some i.
Proof.
  unfold getTrack, resolveTrackID. intros E. apply bind_Ok_inv in E as (i & d1 & E1 & E).
  apply bind_Ok_inv in E1 as (o & d2 & E2 & E1). apply wrap_err_Ok_inv, QueryContext_Ok in E2 as [-> T2].
  destruct (resolve_track id (tables d)) as [j|] eqn:Ej; [|done]. apply ret_Ok_inv in E1 as [-> ->].
  apply bind_Ok_inv in E as (o & d3 & E3 & E). apply wrap_err_Ok_inv, QueryContext_Ok in E3 as [-> T3].
  rewrite T2 in *. destruct (tracks (tables d) !! j) as [x|] eqn:Ex; [|done]. apply ret_Ok_inv in E as [-> ->]. exists j. by rewrite T3.
Qed.

Lemma UpdateTrack_updates new d d' old :
  UpdateTrack new d = (Ok tt, d') → tracks (tables d) !! ID new = Some old → ID old = ID new →
  track_updated (tables d) (tables d') old new.
Proof.
  intros E Hold Hid. apply transaction_Ok in E as (d1 & d2 & E1 & E & ->). rewrite <- E1 in *. clear E1.
  apply bind_Ok_inv in E as (previous & d3 & Eq & E). apply wrap_err_Ok_inv, QueryContext_Ok in Eq as [-> E3].
  rewrite Hold in E. cbn in E. apply bind_Ok_inv in E as (u & d4 & Eu & E). apply wrap_err_Ok_inv, ExecContext_Ok in Eu. rewrite E3 in Eu.
  assert (alter (λ _, stored_track new) (ID new) (tracks (tables d1)) = <[ID old := stored_track new]> (tracks (tables d1))) as Ealter.
  { rewrite Hid. apply map_eq. intros i. destruct (decide (i = ID new)) as [->|?].
    - by rewrite lookup_alter_eq, lookup_insert_eq, Hold.
    - by rewrite lookup_alter_ne, lookup_insert_ne. }
  destruct (_ && _) eqn:Emoved.
  - apply wrap_err_Ok_inv, ExecContext_Ok in E. rewrite E, Eu. split; cbn; [exact Ealter| |done].
    apply andb_true_iff in Emoved as [Ha Hb]. apply negb_true_iff, bool_decide_eq_false in Ha, Hb.
    intros p a id. rewrite elem_of_union, elem_of_list_to_set, list_elem_of_omap. split.
    + intros [([ref [x at_]] & Hin & Hx)|?]; [right|by left]. apply elem_of_map_to_list in Hin. cbn in Hx.
      case_bool_decide; [|done]. injection Hx as <- <- <-. subst x. split_and!; [done|done|done|done|]. by exists ref, at_.
    + intros [?|(-> & -> & _ & _ & ref & at_ & <- & Hs)]; [by right|left]. exists (ref, (ID old, at_)). rewrite elem_of_map_to_list.
      split; [done|]. cbn. rewrite bool_decide_eq_true_2 by done. by rewrite Hid.
  - apply ret_Ok_inv in E as [_ ->]. rewrite Eu. split; cbn; [exact Ealter| |done].
    intros p a id. split; [by left|]. intros [?|(-> & -> & Ha & Hb & _)]; [done|].
    rewrite !bool_decide_eq_false_2 in Emoved by done. done.
Qed.

(** An album without tracks of its own is opened by its aliases. *)
Lemma former_album_opens album p d x :
  faults d = [] → (∀ i y, tracks (tables d) !! i = Some y → AlbumID y ≠ album) →
  tracks (tables d) !! ID x = Some x → (p, album, ID x) ∈ album_aliases (tables d) →
  ∃ l, (TracksByAlbum album d).1 = Ok l ∧ x ∈ l.
Proof.
  intros Hf Hnone Hx Ha. unfold TracksByAlbum, tracksByCanonicalAlbum, mbind, M_bind, wrap_err, QueryContext, statement.
  rewrite Hf. cbn. assert (select_tracks (λ y, bool_decide (AlbumID y = album)) (tables d) = []) as ->.
  { destruct (select_tracks _ _) as [|y l] eqn:E; [done|exfalso].
    assert (y ∈ select_tracks (λ y, bool_decide (AlbumID y = album)) (tables d)) as [Hin Hy]%elem_of_filter_bool by (rewrite E; by left).
    apply list_elem_of_fmap in Hin as ([i z] & -> & Hin). rewrite map_range_perm, elem_of_map_to_list in Hin. cbn in *.
    apply bool_decide_eq_true in Hy. by eapply Hnone. }
  assert (sort_slice album_less [] = []) as -> by (apply Permutation_nil_r, sort_slice_perm).
  rewrite bool_decide_eq_false_2 by auto. eexists. split; [done|].
  rewrite sort_slice_perm. unfold select_tracks. apply elem_of_filter_bool. split.
  - apply list_elem_of_fmap. exists (ID x, x). split; [done|]. by rewrite map_range_perm, elem_of_map_to_list.
  - unfold has_album_alias. apply existsb_exists. exists (p, album, ID x). split; [by apply list_elem_of_In, elem_of_elements|].
    cbn. by rewrite !bool_decide_eq_true_2.
Qed.

(** C23. Editing a track's metadata does exactly what the patch says.  An edit
    that fails changes nothing.  One that succeeds answers with the track under
    the identifier asked for, or that this is an alias of, with the fields of
    the patch, cleaned, and the identifiers of artist, album artist and album
    that follow from its names; that is what is stored, every other track and
    table is as it was, and of the album aliases only links from the track's
    former album are new, one for every provider that offers the track.  So
    when the former album has no tracks left, opening it still finds the
    track. *)
Theorem metadata_edits_are_exact id patch d r d' :
  UpdateTrackMetadata id patch d = (r, d') → library_ok (tables d) →
  match r with
  | Err _ => tables d' = tables d
  | Ok new => ∃ old,
      tracks (tables d) !! ID old = Some old ∧
      (id = ID old ∨ (tracks (tables d) !! id = None ∧ track_aliases (tables d) !! id = Some (ID old))) ∧
      edited patch old new ∧ track_updated (tables d) (tables d') old new ∧
      (faults d' = [] → AlbumID old ≠ "" → (∃ p, offered_by (tables d) p (ID old)) →
       (∀ i x, tracks (tables d') !! i = Some x → AlbumID x ≠ AlbumID old) →
       ∃ l, (TracksByAlbum (AlbumID old) d').1 = Ok l ∧ stored_track new ∈ l)
  end.
Proof.
  intros E Hok. destruct r as [new|e].
  2: { revert E. revert d e d' Hok. enough (fails_clean tables (UpdateTrackMetadata id patch)) as X by (intros; by eapply X).
       unfold UpdateTrackMetadata. pose proof (getTrack_read_only id). unfold UpdateTrack. go_clean. }
  unfold UpdateTrackMetadata in E. apply bind_Ok_inv in E as (old & d1 & Eg & E).
  assert (tables d1 = tables d ∧ tracks (tables d) !! ID old = Some old ∧
    (id = ID old ∨ (tracks (tables d) !! id = None ∧ track_aliases (tables d) !! id = Some (ID old)))) as (Ed1 & Hold & Hid).
  { apply getTrack_gives in Eg as (i & Ei & Ht & Hr). pose proof (ok_ids _ Hok _ _ Ht) as Hi. subst i. split_and!; [done|done|].
    unfold resolve_track in Hr. destruct (tracks (tables d) !! id) eqn:Et; [left; congruence|by right]. }
  rewrite <- Ed1 in *. clear Eg Ed1. inv_ok E.
  match goal with X : UpdateTrack ?x d1 = (Ok ?u, ?d2) |- _ =>
    destruct u; set (updated := x) in *; apply (UpdateTrack_updates updated d1 d2 old) in X as Hup; [|done|done]
  end.
  exists old. split_and!; [done|done| |done|].
  - split; cbn; try done; try (by apply applyText_edited); try (by apply applyNumber_edited); try (by destruct (patch_Genre patch)).
    match goal with X : applyText (AlbumArtist old) _ = Ok _ |- _ => apply applyText_edited in X as Hart; unfold text_edited in Hart end.
    destruct (patch_AlbumArtist patch) as [v|]; [|subst; case_bool_decide; by destruct (decide _)].
    destruct Hart as [-> Hv]. by rewrite bool_decide_eq_false_2.
  - intros Hf Ha (p & Hoff) Hnone. apply former_album_opens with (p := p); [done|done| |].
    + rewrite (tu_tracks _ _ _ _ Hup). apply lookup_insert_eq.
    + apply (tu_albums _ _ _ _ Hup). right. split_and!; try done. intros Heq.
      apply (Hnone (ID old) (stored_track updated)); [|done]. rewrite (tu_tracks _ _ _ _ Hup). apply lookup_insert_eq.
Qed.

(** * Replacing a provider's tracks *)

Definition source_id (s : TrackSource) : string := ID (ts_Track s).

Definition tracks_after (l : list TrackSource) (m : gmap string Track) : gmap string Track :=
  fold_left (λ m s, <[source_id s := stored_track (ts_Track s)]> m) l m.

Lemma tracks_after_out l m id : id ∉ map source_id l → tracks_after l m !! id = m !! id.
Proof.
  revert m. induction l as [|s l IH]; intros m; [done|]. cbn. rewrite not_elem_of_cons.
  intros [Hs Hl]. unfold tracks_after in IH. rewrite IH by done. by apply lookup_insert_ne.
Qed.

Lemma tracks_after_in l m id : id ∈ map source_id l →
  ∃ s, s ∈ l ∧ source_id s = id ∧ tracks_after l m !! id = Some (stored_track (ts_Track s)).
Proof.
  revert m. induction l as [|s l IH]; intros m; cbn; [by rewrite elem_of_nil|].
  intros Hid. destruct (decide (id ∈ map source_id l)) as [Hl|Hl].
  - destruct (IH (<[source_id s := stored_track (ts_Track s)]> m) Hl) as (s' & ? & ? & ?).
    exists s'. split; [by right|done].
  - apply elem_of_cons in Hid as [->|?]; [|done]. exists s. split_and!; [by left|done|].
    etrans; [by apply (tracks_after_out l)|]. apply lookup_insert_eq.
Qed.

Lemma previous_loop_Ok p l albums aliases d r d' :
  previous_loop p l albums aliases d = (Ok r, d') →
  (∀ id a, albums !! id = Some a → (∀ tr, tracks (tables d) !! id = Some tr → AlbumID tr = a) →
     r.1 !! id = Some a) ∧
  (∀ s tr, s ∈ l → tracks (tables d) !! source_id s = Some tr →
     (∀ a, albums !! source_id s = Some a → AlbumID tr = a) → r.1 !! source_id s = Some (AlbumID tr)) ∧
  (∀ id a, a ∈ default [] (aliases !! id) → a ∈ default [] (r.2 !! id)) ∧
  (∀ s a, s ∈ l → (p, a, source_id s) ∈ album_aliases (tables d) →
     a ∈ default [] (r.2 !! source_id s)).
Proof.
  revert albums aliases d. induction l as [|s l IH]; intros albums aliases d; cbn [previous_loop].
  { intros [= <- <-]. split_and!; [done| |done|]; intros ? ? ?%elem_of_nil; done. }
  intros E. inv_ok E. apply QueryContext_Ok in Hm as [-> T1], Hm0 as [-> T2].
  apply IH in E as (Ha & Hb & Hc & Hd). rewrite T2, T1 in Ha, Hb, Hd.
  fold (source_id s) in *. cbn [set_optional] in *.
  set (f := AlbumID <$> tracks (tables d) !! source_id s) in *.
  split_and!.
  - intros id a Hid Hcons. apply Ha; [|done]. unfold f, set_optional.
    destruct (tracks (tables d) !! source_id s) as [tr|] eqn:Htr; cbn; [|done].
    destruct (decide (id = source_id s)) as [->|Hne].
    + rewrite lookup_insert_eq. f_equal. by apply Hcons.
    + by rewrite lookup_insert_ne.
  - intros s' tr Hs' Htr Hcons. destruct (decide (source_id s' = source_id s)) as [Heq|Hne].
    + rewrite Heq in *. apply Ha; [|by intros tr' ?; simplify_eq]. unfold f. rewrite Htr. cbn.
      apply lookup_insert_eq.
    + apply elem_of_cons in Hs' as [->|Hs']; [done|]. apply Hb; [done|done|].
      unfold f, set_optional. destruct (AlbumID <$> _); [by rewrite lookup_insert_ne|done].
  - intros id a Hin. apply Hc. destruct (decide (id = source_id s)) as [->|Hne].
    + rewrite lookup_insert_eq. cbn. apply elem_of_app. by left.
    + by rewrite lookup_insert_ne.
  - intros s' a Hs' Hin. destruct (decide (source_id s' = source_id s)) as [Heq|Hne].
    + rewrite Heq in *. apply Hc. rewrite lookup_insert_eq. cbn. apply elem_of_app. right.
      rewrite T1. apply list_elem_of_omap. exists (p, a, source_id s).
      split; [by apply elem_of_elements|]. cbn. by rewrite !bool_decide_eq_true_2.
    + apply elem_of_cons in Hs' as [->|Hs']; [done|]. by apply Hd.
Qed.

Lemma insert_loop_Ok p albums prev l aliases d aliases' d' :
  insert_loop p albums prev l aliases d = (Ok aliases', d') →
  tracks (tables d') = tracks_after l (tracks (tables d)) ∧
  album_aliases (tables d') = album_aliases (tables d) ∧
  (∀ ref x, track_sources (tables d') !! ref = Some x ↔
     track_sources (tables d) !! ref = Some x ∨
     ∃ s, s ∈ l ∧ ts_Ref s = ref ∧ x = (source_id s, DiscoveredAt s)) ∧
  (∀ s, s ∈ l → Provider (ts_Ref s) = p) ∧
  (∀ x, x ∈ aliases → x ∈ aliases') ∧
  (∀ s a, s ∈ l → albums !! source_id s = Some a → a ≠ "" → a ≠ AlbumID (ts_Track s) →
     (a, source_id s) ∈ aliases') ∧
  (∀ s a, s ∈ l → a ∈ default [] (prev !! source_id s) → (a, source_id s) ∈ aliases').
Proof.
  revert aliases d. induction l as [|s l IH]; intros aliases d; cbn [insert_loop].
  { intros [= <- <-]. split_and!; try done; try (intros ? ? ?%elem_of_nil; done).
    - intros ref x. split; [by left|]. intros [?|(s & ?%elem_of_nil & _)]; done.
    - by intros s ?%elem_of_nil. }
  destruct (bool_decide (Provider (ts_Ref s) = p)) eqn:Hp; cbn [negb]; [|done].
  apply bool_decide_eq_true in Hp. intros E. inv_ok E.
  apply ExecContext_Ok in Hm. apply statement_Ok in Hm0.
  unfold insert_source in Hm0. rewrite Hm in Hm0. cbn in Hm0. rewrite lookup_insert_eq in Hm0.
  destruct (track_sources (tables d) !! ts_Ref s) eqn:Hfree; [done|].
  injection Hm0 as _ Ht. apply IH in E as (Htr & Hal & Hso & Hpr & Hsub & Hmov & Hkeep).
  rewrite <- Ht in *. cbn in Htr, Hal, Hso. fold (source_id s) in *.
  set (extra := _ ++ _) in Hsub. split_and!; [done|done| | | | | ].
  - intros ref x. rewrite Hso. setoid_rewrite elem_of_cons. split.
    + intros [[[<- <-]|[_ ?]]%lookup_insert_Some|(s' & ? & ? & ?)]; eauto 10.
    + intros [Hx|(s' & [->|Hs'] & <- & ->)]; [left|left|right; eauto].
      * rewrite lookup_insert_ne; [done|]. intros <-. congruence.
      * by rewrite lookup_insert_eq.
  - intros s' [->|?]%elem_of_cons; auto.
  - intros x Hx. apply Hsub. apply elem_of_app. by left.
  - intros s' b [->|Hs']%elem_of_cons Ha Hne Hmoved; [|by eapply Hmov].
    apply Hsub. apply elem_of_app. right. unfold extra. apply elem_of_app. left.
    rewrite Ha. cbn. rewrite !bool_decide_eq_false_2 by done. cbn. by left.
  - intros s' b [->|Hs']%elem_of_cons Ha; [|by eapply Hkeep].
    apply Hsub. apply elem_of_app. right. unfold extra. apply elem_of_app. right.
    change (map ?f ?l) with (f <$> l). by apply (list_elem_of_fmap_2 (λ a, (a, source_id s))).
Qed.

Lemma alias_loop_Ok p incoming l d u d' :
  alias_loop p incoming l d = (Ok u, d') →
  tracks (tables d') = tracks (tables d) ∧ track_sources (tables d') = track_sources (tables d) ∧
  (∀ x, x ∈ album_aliases (tables d) → x ∈ album_aliases (tables d')) ∧
  (∀ a id, (a, id) ∈ l → a ≠ "" → id ≠ "" → (p, a, id) ∈ album_aliases (tables d')).
Proof.
  revert d. induction l as [|[a id] l IH]; intros d; cbn [alias_loop].
  { intros [= <-]. subst. split_and!; try done. by intros a id ?%elem_of_nil. }
  destruct (bool_decide (a = "") || bool_decide (id = "")) eqn:He.
  { intros E. apply IH in E as (? & ? & ? & Hl). split_and!; try done.
    intros a' id' [[= -> ->]|?]%elem_of_cons Ha Hid; [|by apply Hl].
    by rewrite !bool_decide_eq_false_2 in He. }
  destruct (negb _); [done|]. intros E. inv_ok E. apply statement_Ok in Hm.
  unfold insert_album_alias in Hm. destruct (tracks (tables d) !! id); [|done].
  injection Hm as _ Ht. apply IH in E as (Htr & Hso & Hsub & Hl).
  rewrite <- Ht in Htr, Hso, Hsub. cbn in Htr, Hso, Hsub. split_and!; [done|done| |].
  - intros x Hx. apply Hsub. set_solver.
  - intros a' id' [[= -> ->]|?]%elem_of_cons Ha Hid; [|by apply Hl]. apply Hsub. set_solver.
Qed.
(** What is left of the catalog before the new tracks are written. *)
Definition sourced_elsewhere (p : string) (t : library) (id : string) : Prop :=
  ∃ ref x, track_sources t !! ref = Some x ∧ x.1 = id ∧ Provider ref ≠ p.

Lemma cleared_tracks p t id tr :
  tracks (clear_orphans (clear_provider_sources p (clear_provider_aliases p t))) !! id = Some tr ↔
  tracks t !! id = Some tr ∧ sourced_elsewhere p t id.
Proof.
  unfold clear_orphans, cascade; cbn. rewrite map_lookup_filter_Some.
  rewrite elem_of_list_to_set. change (map ?f ?l) with (f <$> l). rewrite list_elem_of_fmap. cbn.
  unfold sourced_elsewhere. split.
  - intros [Ht ([ref x] & -> & Hin)]. apply elem_of_map_to_list, map_lookup_filter_Some in Hin as [? ?].
    split; [done|]. exists ref, x. done.
  - intros [Ht (ref & x & Hx & <- & Hp)]. split; [done|]. exists (ref, x). split; [done|].
    by apply elem_of_map_to_list, map_lookup_filter_Some.
Qed.

Lemma cleared_sources p t ref x :
  library_ok t →
  track_sources (clear_orphans (clear_provider_sources p (clear_provider_aliases p t))) !! ref = Some x ↔
  track_sources t !! ref = Some x ∧ Provider ref ≠ p.
Proof.
  intros Hok. pose proof (cleared_tracks p t x.1) as Htr.
  unfold clear_orphans, cascade in *; cbn in *. rewrite !map_lookup_filter_Some. cbn.
  split; [by intros [[? ?] _]|]. intros [Hx Hp]. split; [done|]. apply bool_decide_eq_true_2.
  destruct (ok_sources _ Hok _ _ Hx) as [tr Ht]. exists tr. apply Htr. split; [done|].
  by exists ref, x.
Qed.

(** C24. [ReplaceProviderTracks] is atomic and exact.  When it fails nothing has
    changed.  When it succeeds, the provider's sources are the given ones and
    no others, other providers' sources are untouched, a track that was not
    given stays exactly when another provider has a source for it, a track that
    was given holds what was given last for it, and the album id a track had
    before, and every album alias it had, still lead to it. *)
Theorem replace_provider_tracks_is_exact p sources aliases d r d' :
  library_ok (tables d) → ReplaceProviderTracks p sources aliases d = (r, d') →
  let t := tables d in let t' := tables d' in
  match r with
  | Err _ => t' = t
  | Ok _ =>
      (∀ ref x, track_sources t' !! ref = Some x ↔
         (∃ s, s ∈ sources ∧ ts_Ref s = ref ∧ x = (source_id s, DiscoveredAt s)) ∨
         (track_sources t !! ref = Some x ∧ Provider ref ≠ p)) ∧
      (∀ s, s ∈ sources → Provider (ts_Ref s) = p) ∧
      (∀ id tr, id ∉ map source_id sources →
         tracks t' !! id = Some tr ↔ tracks t !! id = Some tr ∧ sourced_elsewhere p t id) ∧
      (∀ id, id ∈ map source_id sources → ∃ s, s ∈ sources ∧ source_id s = id ∧
         tracks t' !! id = Some (stored_track (ts_Track s))) ∧
      (∀ s tr, s ∈ sources → tracks t !! source_id s = Some tr → source_id s ≠ "" →
         AlbumID tr ≠ "" → AlbumID tr ≠ AlbumID (ts_Track s) →
         (p, AlbumID tr, source_id s) ∈ album_aliases t') ∧
      (∀ s a, s ∈ sources → (p, a, source_id s) ∈ album_aliases t → a ≠ "" → source_id s ≠ "" →
         (p, a, source_id s) ∈ album_aliases t')
  end.
Proof.
  intros Hok E. cbn. destruct r as [u|e]; [|by eapply transaction_clean].
  apply transaction_Ok in E as (d1 & d2 & T1 & E & ->). inv_ok E.
  pose proof (previous_loop_read_only _ _ _ _ _ _ _ Hm) as T2.
  apply previous_loop_Ok in Hm as (_ & Hprev & _ & Hkept). rewrite T1 in Hprev, Hkept.
  apply ExecContext_Ok in Hm0, Hm1, Hm2. rewrite T2, T1 in Hm0. rewrite Hm0 in Hm1. rewrite Hm1 in Hm2.
  apply insert_loop_Ok in Hm3 as (Htr & _ & Hso & Hpr & _ & Hmov & Hkeep).
  apply alias_loop_Ok in E as (Htr' & Hso' & _ & Hal). rewrite Hm2 in Htr, Hso.
  rewrite Htr', Hso', Htr. split_and!.
  - intros ref x. rewrite Hso, cleared_sources by done. tauto.
  - done.
  - intros id tr Hid. rewrite tracks_after_out by done. apply cleared_tracks.
  - intros id Hid. by apply tracks_after_in.
  - intros x tr Hs Hin Hid Hne Hm'. apply Hal; [|done|done].
    apply (Hmov x); [done| |done|done]. by apply Hprev.
  - intros x b Hs Hin Hb Hid. apply Hal; [|done|done]. apply Hkeep; [done|]. by apply Hkept.
Qed.

(** [page] is the window of [count] elements from [offset], clipped to the
    list, for every pair of machine integers, overflowing sums included. *)
Theorem page_is_the_clipped_window {A} (items : list A) offset count i :
  in_i64 offset → in_i64 count → Z.of_nat (length items) < 2 ^ 63 →
  page items offset count !! i =
    if decide (0 ≤ offset ∧ Z.of_nat i < count)
    then items !! (Z.to_nat offset + i)%nat else None.
Proof.
  unfold page, in_i64. intros Ho Hc Hn.
  destruct (offset <? 0) eqn:E1; [cbn; rewrite decide_False by lia; apply lookup_nil|].
  destruct (count <=? 0) eqn:E2; [cbn; rewrite decide_False by lia; apply lookup_nil|].
  destruct (offset >=? _) eqn:E3; cbn.
  { rewrite lookup_nil. case_decide; [|done]. symmetry. apply lookup_ge_None. lia. }
  set (e := if (i64 (offset + count) <? offset) || (i64 (offset + count) >? Z.of_nat (length items))
            then Z.of_nat (length items) else i64 (offset + count)).
  assert (e = Z.min (offset + count) (Z.of_nat (length items))) as He.
  { unfold e. destruct (decide (offset + count < 2 ^ 63)) as [Hb|Hb].
    - rewrite i64_id by (unfold in_i64; lia).
      destruct (offset + count <? offset) eqn:?, (offset + count >? Z.of_nat (length items)) eqn:?;
        cbn; lia.
    - assert (i64 (offset + count) = offset + count - 2 ^ 64) as Hi.
      { unfold i64. rewrite (Z.mod_eq _ (2 ^ 64)) by lia.
        assert ((offset + count + 2 ^ 63) / 2 ^ 64 = 1) as -> by (symmetry; apply (Z.div_unique _ _ _ (offset + count + 2 ^ 63 - 2 ^ 64)); lia).
        lia. }
      rewrite Hi. destruct (offset + count - 2 ^ 64 <? offset) eqn:?; cbn; lia. }
  case_decide as Hd.
  - destruct (decide (Z.of_nat i < e - offset)) as [Hi|Hi].
    + rewrite lookup_take, decide_True by lia. by rewrite lookup_drop.
    + rewrite lookup_take_ge by lia. symmetry. apply lookup_ge_None. lia.
  - apply lookup_take_ge. lia.
Qed.
End theorems.

(** * Witnesses *)

#[local] Existing Instance stable_runtime.
#[local] Existing Instance ascii_unicode.
#[local] Existing Instance ascii_norm.

Definition toy_track (id title artist album : string) : Track :=
  mkTrack id title artist artist album album artist artist 1 1 1970 "" 0 0 0 "flac" "audio/flac" "".

Definition toy_song : Track := toy_track "t1" "One" "A" "first".
Definition toy_lost : Track := toy_track "t2" "Two" "B" "second".
Definition toy_other : Track := toy_track "t3" "Three" "C" "third".

(** Three tracks: two only from the local provider, one also from a torrent. *)
Definition toy_library : library :=
  mkLibrary (<["t1" := toy_song]> (<["t2" := toy_lost]> {["t3" := toy_other]}))
    (<[mkRef "local" "1" := ("t1", 5)]> (<[mkRef "local" "2" := ("t2", 5)]>
       {[mkRef "torrent" "3" := ("t3", 5)]}))
    {["old" := "t2"]} {[("local", "ancient", "t1")]} ∅ ∅ ∅ ∅ ∅ None.

Definition toy_db : db := mkDatabase toy_library [].

Definition toy_source (track : Track) (key : string) : TrackSource :=
  mkSource track (mkRef "local" key) "" (mkAvailability "" 0 0 false false) 9.

(** A rescan finds the first track in another album and no longer the second. *)
Definition toy_rescan : list TrackSource := [toy_source (toy_track "t1" "One" "A" "renamed") "1"].

Definition toy_replaced : res unit * db := ReplaceProviderTracks "local" toy_rescan [] toy_db.

Lemma toy_replaced_ok : ReplaceProviderTracks "local" toy_rescan [] toy_db = (Ok tt, toy_replaced.2).
Proof. vm_compute. reflexivity. Qed.

Lemma toy_library_ok : library_ok toy_library.
Proof.
  split; cbn.
  - intros id tr [[<- <-]|[_ [[<- <-]|[_ [<- <-]%lookup_singleton_Some]]%lookup_insert_Some]]%lookup_insert_Some;
      reflexivity.
  - intros r x [[_ <-]|[_ [[_ <-]|[_ [_ <-]%lookup_singleton_Some]]%lookup_insert_Some]]%lookup_insert_Some;
      eexists; vm_compute; reflexivity.
  - intros a id [_ <-]%lookup_singleton_Some. eexists; vm_compute; reflexivity.
  - intros p a id [= -> -> ->]%elem_of_singleton. eexists; vm_compute; reflexivity.
Qed.

Lemma catalog_calls_keep_integrity_witness : library_ok (tables toy_replaced.2).
Proof.
  apply (catalog_calls_keep_integrity (CallReplace "local" toy_rescan []) toy_db (Ok tt)).
  - exact toy_replaced_ok.
  - exact toy_library_ok.
Defined.

(** The second track, by its alias, gets another album and a year. *)
Definition toy_patch : TrackMetadataPatch := mkPatch None None (Some " Live ") None None (Some 1999) None None.
Definition toy_edit : res Track * db := UpdateTrackMetadata "old" toy_patch toy_db.

Lemma toy_edit_ok : (Album <$> match toy_edit.1 with Ok x => Some x | Err _ => None end) = Some "Live" ∧ faults toy_edit.2 = [].
Proof. split; vm_compute; reflexivity. Qed.

Lemma toy_edit_albums : map_Forall (λ _ x, AlbumID x ≠ "second") (tracks (tables toy_edit.2)).
Proof. apply (bool_decide_eq_true_1 _). vm_compute. reflexivity. Qed.

Lemma metadata_edits_are_exact_witness :
  ∃ new l, toy_edit.1 = Ok new ∧ Year new = 1999 ∧ (TracksByAlbum "second" toy_edit.2).1 = Ok l ∧ stored_track new ∈ l.
Proof.
  pose proof (metadata_edits_are_exact "old" toy_patch toy_db toy_edit.1 toy_edit.2 (surjective_pairing _) toy_library_ok) as X.
  destruct toy_edit_ok as [Ho Hf]. destruct toy_edit.1 as [new|e] eqn:E; [|discriminate Ho].
  destruct X as (old & Hold & Hid & Hed & _ & Hopen). exists new.
  assert (old = toy_lost) as ->.
  { destruct Hid as [Hid|[_ Hid]].
    - exfalso. rewrite <- Hid in Hold. vm_compute in Hold. discriminate Hold.
    - assert (ID old = "t2") as Eid by (vm_compute in Hid; injection Hid; auto). rewrite Eid in Hold.
      vm_compute in Hold. injection Hold as <-. reflexivity. }
  destruct Hopen as (l & Hl & Hin).
  - exact Hf.
  - discriminate.
  - exists "local", (mkRef "local" "2"), 5. split; [reflexivity|vm_compute; reflexivity].
  - exact toy_edit_albums.
  - exists l. split; [reflexivity|]. split; [exact (proj1 (ed_Year _ _ _ Hed))|]. split; [exact Hl|exact Hin].
Defined.

Lemma toy_lookups :
  tracks toy_library !! "t1" = Some toy_song ∧ tracks (tables toy_replaced.2) !! "t2" = None.
Proof. split; vm_compute; reflexivity. Qed.

Lemma replace_provider_tracks_is_exact_witness :
  ("local", "first", "t1") ∈ album_aliases (tables toy_replaced.2) ∧
  ("local", "ancient", "t1") ∈ album_aliases (tables toy_replaced.2) ∧
  tracks (tables toy_replaced.2) !! "t3" = Some toy_other.
Proof.
  destruct (replace_provider_tracks_is_exact "local" toy_rescan [] toy_db _ _ toy_library_ok
    toy_replaced_ok) as (_ & _ & Hout & _ & Hmoved & Hkept). split_and!.
  - apply (Hmoved (toy_source (toy_track "t1" "One" "A" "renamed") "1") toy_song);
      [by left|exact (proj1 toy_lookups)|discriminate..].
  - apply (Hkept (toy_source (toy_track "t1" "One" "A" "renamed") "1"));
      [by left| |discriminate..]. cbn. apply elem_of_singleton. reflexivity.
  - apply Hout.
    + cbn. intros [=]%list_elem_of_singleton.
    + split; [vm_compute; reflexivity|]. exists (mkRef "torrent" "3"), ("t3", 5).
      split_and!; [vm_compute; reflexivity|reflexivity|discriminate].
Defined.

Lemma page_is_the_clipped_window_witness : page [1; 2; 3] 1 (2 ^ 63 - 1) !! 1%nat = Some 3.
Proof.
  rewrite (page_is_the_clipped_window [1; 2; 3] 1 (2 ^ 63 - 1) 1);
    [reflexivity|unfold in_i64; lia|unfold in_i64; lia|cbn; lia].
Defined.

(** Aliases are followed one step: after A is merged into B and B into C, looking
    up A still gives an artist of its own under the id B, which itself leads to C. *)
Definition alias_chain : M db (ArtistEntry * ArtistEntry) :=
  _ ← SetArtistAlias 1 "A" "B"; _ ← SetArtistAlias 2 "B" "C";
  a ← getArtist "A"; b ← getArtist "B"; mret (a, b).

Lemma artist_alias_chain_is_not_collapsed :
  (alias_chain toy_db).1 = Ok (mkArtist "B" "B" 1, mkArtist "C" "C" 2).
Proof. vm_compute. reflexivity. Qed.
