(* ===== verification/PlayQueues.v ===== *)
(** Play queues: [services.PlayQueueService] over [ports.PlayQueueStore], and
    the store on the tables [play_queues] and [play_queue_tracks]
    ([adapters/storage/sqlite/playqueue.go]). *)
From stdpp Require Import base gmap strings list sorting.
From Stdlib Require Import ZArith Lia.
From S2P Require Import Prelude GoStrings GoTime Sql Music Library.

Open Scope Z_scope.

Record PlayQueue := mkQueue {
  Owner : string;
  CurrentID : string;
  PositionMS : Z;
  Changed : time;
  ChangedBy : string;
  Tracks : list Track;
}.

(** [playQueueCatalog] and [ports.PlayQueueStore]. *)
Class TrackFinder (W : Type) := find_Track : string → M W Track.

Class PlayQueueStore (W : Type) := {
  store_PlayQueue : string → M W PlayQueue;
  store_SavePlayQueue : PlayQueue → M W unit;
}.

Definition maxPlayQueueTracks : Z := 10000.

Section service.
Context {W : Type} `{TrackFinder W} `{PlayQueueStore W}.

(** What [Get] does to the queue it has read. *)
Definition settle_queue (queue : PlayQueue) : PlayQueue :=
  match Tracks queue with
  | [] => mkQueue (Owner queue) "" 0 (Changed queue) (ChangedBy queue) (Tracks queue)
  | first :: _ =>
      if existsb (λ t, bool_decide (ID t = CurrentID queue)) (Tracks queue) then queue
      else mkQueue (Owner queue) (ID first) 0 (Changed queue) (ChangedBy queue) (Tracks queue)
  end.

Definition GetQueue (owner : string) : M W PlayQueue :=
  r ← try (store_PlayQueue owner);
  match r with
  | Err e =>
      if errors_Is ErrNotFound e then mret (mkQueue owner "" 0 time_unix_zero "" [])
      else throw e
  | Ok queue => mret (settle_queue queue)
  end.

Definition invalidPlayQueue {A} (msg : string) : M W A :=
  throw (Errorf msg (Sentinel ErrInvalidPlayQueue) "").

(** The loop over [trackIDs]: the tracks, and whether the current id was met. *)
Fixpoint resolve_queue (currentID : string) (ids : list string) (found : bool)
    : M W (list Track * bool) :=
  match ids with
  | [] => mret ([], found)
  | raw :: rest =>
      let id := TrimSpace raw in
      if bool_decide (id = "") then invalidPlayQueue "song id is empty: "
      else
        track ← wrap_err (λ e, Errorf ("resolve play queue song " +:+ id +:+ ": ") e "") (find_Track id);
        r ← resolve_queue currentID rest (found || bool_decide (id = currentID));
        mret (track :: r.1, r.2)
  end.

Definition SaveQueue (now : time) (owner : string) (trackIDs : list string) (currentID : string)
    (positionMS : Z) (changedBy : string) : M W PlayQueue :=
  if positionMS <? 0 then invalidPlayQueue "position must be non-negative: "
  else if Z.of_nat (length trackIDs) >? maxPlayQueueTracks then
    invalidPlayQueue "play queue cannot contain more than 10000 tracks: "
  else
    let currentID := TrimSpace currentID in
    let empty := bool_decide (trackIDs = []) in
    if negb empty && bool_decide (currentID = "") then
      invalidPlayQueue "current song is required for a non-empty queue: "
    else if empty && negb (bool_decide (currentID = "")) then
      invalidPlayQueue "current song must be empty when clearing the queue: "
    else
      r ← resolve_queue currentID trackIDs empty;
      if negb (r.2 : bool) then invalidPlayQueue "current song is not in the queue: "
      else
        let changedBy := TrimSpace changedBy in
        let changedBy := if bool_decide (changedBy = "") then "unknown" else changedBy in
        let position := if bool_decide (r.1 = []) then 0 else positionMS in
        let queue := mkQueue owner currentID position now changedBy r.1 in
        _ ← store_SavePlayQueue queue;
        mret queue.
End service.

(** * The SQLite store *)

Section sqlite.
Context `{Runtime}.

(** [JOIN ... ON track_id = tracks.id ... ORDER BY position]. *)
Definition join_tracks (ids : list string) (t : library) : list Track :=
  omap (λ id, tracks t !! id) ids.

Definition sqlPlayQueue (owner : string) : M db PlayQueue :=
  r ← wrap_err (λ e, Errorf "query play queue: " e "") (QueryContext (λ t, play_queues t !! owner));
  match r with
  | None => throw (Sentinel ErrNotFound)
  | Some row =>
      rows ← wrap_err (λ e, Errorf "query play queue tracks: " e "")
        (QueryContext (λ t,
           join_tracks (match play_queues t !! owner with Some q => q_tracks q | None => [] end) t));
      mret (mkQueue owner (q_current row) (q_position row) (q_changed row) (q_changed_by row) rows)
  end.

Definition upsert_queue (queue : PlayQueue) (t : library) : res (unit * library) :=
  if PositionMS queue <? 0 then Err (Plain "CHECK constraint failed: position_ms >= 0")
  else Ok (tt, with_queues (λ m, <[Owner queue := mkQueueRow (CurrentID queue) (PositionMS queue)
    (Changed queue) (ChangedBy queue)
    (match m !! Owner queue with Some old => q_tracks old | None => [] end)]> m) t).

Definition set_queue_tracks (owner : string) (f : list string → list string) : library → library :=
  with_queues (alter (λ q, mkQueueRow (q_current q) (q_position q) (q_changed q) (q_changed_by q)
    (f (q_tracks q))) owner).

(** [INSERT INTO play_queue_tracks] at the next position: the rows were just cleared. *)
Definition insert_queue_track (owner trackID : string) (t : library) : res (unit * library) :=
  match play_queues t !! owner with
  | None => Err (Plain "FOREIGN KEY constraint failed")
  | Some _ => Ok (tt, set_queue_tracks owner (λ l, l ++ [trackID]) t)
  end.

Definition sqlSavePlayQueue (queue : PlayQueue) : M db unit :=
  transaction (λ e, Errorf "begin play queue save: " e "") (λ e, Errorf "commit play queue save: " e "")
    (_ ← wrap_err (λ e, Errorf "save play queue: " e "") (statement (upsert_queue queue));
     _ ← wrap_err (λ e, Errorf "clear play queue tracks: " e "")
       (ExecContext (set_queue_tracks (Owner queue) (λ _, [])));
     _ ← wrap_err (λ e, Errorf "prepare play queue track insert: " e "") (ExecContext id);
     miter (λ track, wrap_err (λ e, Errorf ("insert play queue track " +:+ ID track +:+ ": ") e "")
              (statement (insert_queue_track (Owner queue) (ID track)))) (Tracks queue)).

Definition sqlTrackFinder : TrackFinder db := getTrack.
Definition sqlPlayQueueStore : PlayQueueStore db := {|
  store_PlayQueue := sqlPlayQueue;
  store_SavePlayQueue := sqlSavePlayQueue;
|}.
#[local] Existing Instance sqlTrackFinder.
#[local] Existing Instance sqlPlayQueueStore.

(** * Lemmas *)

Lemma getTrack_Ok id d tr d' : library_ok (tables d) → getTrack id d = (Ok tr, d') →
  tables d' = tables d ∧ tracks (tables d) !! ID tr = Some tr ∧ resolve_track id (tables d) = Some (ID tr).
Proof.
  intros Hok E. unfold getTrack, resolveTrackID in E. inv_ok E.
  apply QueryContext_Ok in Hm0 as [E0 T2], Hm as [E1 T1]. rewrite T2 in E1, T1.
  pose proof (ok_ids _ Hok _ _ (eq_sym E1)) as <-. done.
Qed.

Lemma resolve_queue_Ok current ids found d r d' :
  library_ok (tables d) → resolve_queue current ids found d = (Ok r, d') →
  tables d' = tables d ∧ length r.1 = length ids ∧
  (∀ tr, tr ∈ r.1 → tracks (tables d) !! ID tr = Some tr) ∧
  map Some (map ID r.1) = map (λ i, resolve_track (TrimSpace i) (tables d)) ids ∧
  (r.2 = true ↔ found = true ∨ current ∈ map TrimSpace ids).
Proof.
  intros Hok. revert found d Hok r. induction ids as [|i ids IH]; intros found d Hok r; cbn [resolve_queue].
  { intros [= <- <-]. split_and!; try done; [by intros tr ?%elem_of_nil|].
    cbn. rewrite elem_of_nil. tauto. }
  destruct (bool_decide (TrimSpace i = "")) eqn:Hi; [done|]. intros E. inv_ok E.
  apply getTrack_Ok in Hm as (T1 & Htr & Hres); [|done].
  apply IH in Hm0 as (T2 & Hlen & Hin & Hmap & Hfound); [|by rewrite T1].
  rewrite T1 in *. cbn. split_and!.
  - congruence.
  - by rewrite Hlen.
  - intros tr [->|?]%elem_of_cons; auto.
  - by rewrite Hres, Hmap.
  - rewrite Hfound, orb_true_iff, bool_decide_eq_true, elem_of_cons. naive_solver.
Qed.

Lemma insert_queue_tracks_Ok owner l d u d' row :
  play_queues (tables d) !! owner = Some row →
  miter (λ track, wrap_err (λ e, Errorf ("insert play queue track " +:+ ID track +:+ ": ") e "")
    (statement (insert_queue_track owner (ID track)))) l d = (Ok u, d') →
  tables d' = set_queue_tracks owner (λ k, k ++ map ID l) (tables d).
Proof.
  revert d row. induction l as [|tr l IH]; intros d row Hrow; cbn [miter].
  { intros [= _ <-]. unfold set_queue_tracks, with_queues. destruct (tables d); cbn in *. f_equal.
    symmetry. apply alter_id. intros q _. rewrite app_nil_r. by destruct q. }
  intros E. inv_ok E. apply statement_Ok in Hm. unfold insert_queue_track in Hm. rewrite Hrow in Hm.
  injection Hm as _ T1. eapply IH in E; [|rewrite <- T1; cbn; by rewrite lookup_alter_eq, Hrow].
  rewrite E, <- T1. unfold set_queue_tracks, with_queues; cbn. f_equal.
  rewrite alter_alter_eq. apply alter_ext. intros q _. cbn. by rewrite <- app_assoc.
Qed.

Lemma sqlSavePlayQueue_Ok q d u d' : sqlSavePlayQueue q d = (Ok u, d') →
  tables d' = with_queues (<[Owner q := mkQueueRow (CurrentID q) (PositionMS q) (Changed q)
    (ChangedBy q) (map ID (Tracks q))]>) (tables d) ∧ 0 ≤ PositionMS q.
Proof.
  intros E. apply transaction_Ok in E as (d1 & d2 & T1 & E & ->). inv_ok E.
  apply statement_Ok in Hm. unfold upsert_queue in Hm. destruct (PositionMS q <? 0) eqn:Hp; [done|].
  injection Hm as _ T2. apply ExecContext_Ok in Hm0, Hm1. unfold id in Hm1.
  eapply insert_queue_tracks_Ok in E;
    [|rewrite Hm1, Hm0, <- T2; cbn; rewrite lookup_alter_eq, lookup_insert_eq; done].
  split; [|lia]. rewrite E, Hm1, Hm0, <- T2, T1. unfold set_queue_tracks, with_queues; cbn. f_equal.
  by rewrite !alter_insert_eq.
Qed.

Lemma join_tracks_ids l t :
  (∀ tr, tr ∈ l → tracks t !! ID tr = Some tr) → join_tracks (map ID l) t = l.
Proof.
  unfold join_tracks. induction l as [|tr l IH]; intros Hl; [done|]. cbn.
  rewrite (Hl tr) by by left. f_equal. apply IH. intros x Hx. apply Hl. by right.
Qed.
Lemma sqlPlayQueue_Ok owner d q d' : sqlPlayQueue owner d = (Ok q, d') →
  tables d' = tables d ∧ ∃ row, play_queues (tables d) !! owner = Some row ∧
  q = mkQueue owner (q_current row) (q_position row) (q_changed row) (q_changed_by row)
        (join_tracks (q_tracks row) (tables d)).
Proof.
  intros E. unfold sqlPlayQueue in E. inv_ok E.
  apply QueryContext_Ok in Hm as [E1 T1], Hm0 as [-> T2]. split; [congruence|].
  rewrite T1, <- E1. eauto.
Qed.

Lemma sqlPlayQueue_found owner d row : faults d = [] → play_queues (tables d) !! owner = Some row →
  sqlPlayQueue owner d = (Ok (mkQueue owner (q_current row) (q_position row) (q_changed row)
    (q_changed_by row) (join_tracks (q_tracks row) (tables d))), d).
Proof.
  intros Hf Hr. destruct d as [t fs]. cbn in *. subst fs.
  unfold sqlPlayQueue, wrap_err, QueryContext, statement, mbind, M_bind. cbn. rewrite Hr. cbn. unfold mret, M_ret. by rewrite Hr.
Qed.

Lemma SaveQueue_Ok now owner ids current position by_ d q d' :
  library_ok (tables d) → SaveQueue now owner ids current position by_ d = (Ok q, d') →
  Owner q = owner ∧ CurrentID q = TrimSpace current ∧ 0 ≤ PositionMS q ∧
  (Tracks q ≠ [] → PositionMS q = position) ∧
  map Some (map ID (Tracks q)) = map (λ i, resolve_track (TrimSpace i) (tables d)) ids ∧
  (∀ tr, tr ∈ Tracks q → tracks (tables d) !! ID tr = Some tr) ∧
  (ids = [] ∨ TrimSpace current ∈ map TrimSpace ids) ∧
  tables d' = with_queues (<[owner := mkQueueRow (CurrentID q) (PositionMS q) (Changed q)
    (ChangedBy q) (map ID (Tracks q))]>) (tables d).
Proof.
  intros Hok E. unfold SaveQueue, invalidPlayQueue in E. inv_ok E.
  apply resolve_queue_Ok in Hm as (T1 & Hlen & Hin & Hmap & Hfound); [|done].
  apply sqlSavePlayQueue_Ok in Hm0 as [T2 Hpos]. cbn in *. rewrite T1 in T2.
  split_and!; try done.
  - intros Hne. by rewrite bool_decide_eq_false_2.
  - match goal with H : negb a.2 = false |- _ => apply negb_false_iff, Hfound in H as [Hb|?] end;
      [left|by right]. by apply bool_decide_eq_true in Hb.
Qed.

(** A saved play queue reads back: after [Save] succeeds, [Get] returns the
    same tracks in the same order; the current song and the position are the
    ones saved when the current song was named by its catalog id, and
    otherwise (it was named by an alias) the first song at position zero.
    [Save] accepts only queues whose songs all resolve, and stores exactly the
    songs the ids resolve to. *)
Theorem saved_play_queue_reads_back now owner ids current position by_ d q d1 :
  library_ok (tables d) → faults d1 = [] →
  SaveQueue now owner ids current position by_ d = (Ok q, d1) →
  map Some (map ID (Tracks q)) = map (λ i, resolve_track (TrimSpace i) (tables d)) ids ∧
  ∃ q', GetQueue owner d1 = (Ok q', d1) ∧ Tracks q' = Tracks q ∧
    (TrimSpace current ∈ map ID (Tracks q) →
       CurrentID q' = TrimSpace current ∧ PositionMS q' = position) ∧
    (TrimSpace current ∉ map ID (Tracks q) →
       PositionMS q' = 0 ∧ CurrentID q' = default "" (head (map ID (Tracks q)))).
Proof.
  intros Hok Hf E. apply SaveQueue_Ok in E as (Hown & Hcur & Hpos & Hposn & Hmap & Hin & _ & T); [|done].
  split; [done|].
  pose proof (sqlPlayQueue_found owner d1 (mkQueueRow (CurrentID q) (PositionMS q) (Changed q)
    (ChangedBy q) (map ID (Tracks q))) Hf) as Hget.
  rewrite T in Hget. specialize (Hget (lookup_insert_eq _ _ _)). cbn in Hget.
  set (q0 := mkQueue _ _ _ _ _ _) in Hget.
  exists (settle_queue q0). unfold GetQueue, mbind, M_bind, try.
  change (store_PlayQueue owner) with (sqlPlayQueue owner). rewrite Hget.
  assert (Tracks q0 = Tracks q) as Ht.
  { cbn. rewrite <- (join_tracks_ids (Tracks q) (tables d)) at 2 by done. done. }
  assert (CurrentID q0 = TrimSpace current ∧ PositionMS q0 = PositionMS q) as [Hc Hp] by done.
  clearbody q0. clear Hget. unfold settle_queue. rewrite Ht, Hc.
  destruct (Tracks q) as [|first rest] eqn:Htr; cbn [Tracks].
  { split_and!; [done|done| |done]. cbn. by rewrite elem_of_nil. }
  destruct (existsb _ _) eqn:Hex.
  - split_and!; [done|done| |].
    + intros _. split; [done|]. rewrite Hp. by apply Hposn.
    + intros Hn. exfalso. apply Hn. apply existsb_exists in Hex as (x & Hx & Hid).
      apply bool_decide_eq_true in Hid. rewrite <- Hid. apply list_elem_of_fmap_2, list_elem_of_In, Hx.
  - split_and!; [done|done| |done].
    intros Hn. exfalso. change (map ID ?l) with (ID <$> l) in Hn.
    apply list_elem_of_fmap in Hn as (x & Hid & Hx).
    assert (existsb (λ t : Track, bool_decide (ID t = TrimSpace current)) (first :: rest) = true) as Ht'.
    { apply existsb_exists. exists x. split; [by apply list_elem_of_In|]. by apply bool_decide_eq_true_2. }
    congruence.
Qed.

(** Whatever the catalog has become since the queue was saved, and however
    the queue got there, [Get] returns a consistent queue: an empty one without
    a current song, or one whose current song is among its songs. *)
Theorem play_queue_is_always_consistent owner d q d' :
  GetQueue owner d = (Ok q, d') →
  tables d' = tables d ∧
  ((Tracks q = [] ∧ CurrentID q = "" ∧ PositionMS q = 0) ∨
   ∃ tr, tr ∈ Tracks q ∧ ID tr = CurrentID q).
Proof.
  unfold GetQueue, mbind, M_bind, try. change (store_PlayQueue owner) with (sqlPlayQueue owner).
  destruct (sqlPlayQueue owner d) as [[q0|e] d1] eqn:E.
  - apply sqlPlayQueue_Ok in E as [T _]. intros [= <- <-]. split; [done|].
    unfold settle_queue. destruct (Tracks q0) as [|first rest] eqn:Ht; [by left|right].
    destruct (existsb _ _) eqn:Hex.
    + apply existsb_exists in Hex as (x & Hx & Hid). apply bool_decide_eq_true in Hid.
      exists x. rewrite Ht. split; [by apply list_elem_of_In|done].
    + exists first. cbn. split; [by left|done].
  - assert (tables d1 = tables d) as T.
    { eapply (fails_clean_read_only tables); [|exact E]. unfold sqlPlayQueue. go_clean. }
    destruct (errors_Is ErrNotFound e); [|done]. intros [= <- <-]. split; [done|]. by left.
Qed.
End sqlite.

(** * Witnesses *)

#[local] Existing Instance stable_runtime.
#[local] Existing Instance sqlTrackFinder.
#[local] Existing Instance sqlPlayQueueStore.

Definition queue_track (id : string) : Track :=
  mkTrack id id "A" "a" "B" "b" "A" "a" 1 1 1970 "" 0 0 0 "flac" "audio/flac" "".

(** Two tracks; the second is also known by an older id. *)
Definition toy_queue_db : db :=
  mkDatabase (mkLibrary (<["t1" := queue_track "t1"]> {["t2" := queue_track "t2"]}) ∅ {["old" := "t2"]}
    ∅ ∅ ∅ ∅ ∅ ∅ None) [].

Lemma toy_queue_library_ok : library_ok (tables toy_queue_db).
Proof.
  split; cbn.
  - intros id tr [[<- <-]|[_ [<- <-]%lookup_singleton_Some]]%lookup_insert_Some; reflexivity.
  - intros r x Hx. by rewrite lookup_empty in Hx.
  - intros a id [_ <-]%lookup_singleton_Some. eexists; vm_compute; reflexivity.
  - intros p a id. set_solver.
Qed.

Definition toy_save (current : string) : res PlayQueue * db :=
  SaveQueue 7 "ann" ["t1"; "old"] current 5000 "phone" toy_queue_db.

Definition toy_saved_queue (current : string) : PlayQueue :=
  mkQueue "ann" current 5000 7 "phone" [queue_track "t1"; queue_track "t2"].

Lemma toy_save_ok :
  toy_save "t1" = (Ok (toy_saved_queue "t1"), (toy_save "t1").2) ∧
  toy_save "old" = (Ok (toy_saved_queue "old"), (toy_save "old").2).
Proof. split; vm_compute; reflexivity. Qed.

Lemma saved_play_queue_reads_back_witness :
  ∃ q, GetQueue "ann" (toy_save "t1").2 = (Ok q, (toy_save "t1").2) ∧
       CurrentID q = "t1" ∧ PositionMS q = 5000.
Proof.
  destruct (saved_play_queue_reads_back 7 "ann" ["t1"; "old"] "t1" 5000 "phone" toy_queue_db
    (toy_saved_queue "t1") (toy_save "t1").2 toy_queue_library_ok eq_refl (proj1 toy_save_ok))
    as (_ & q & Hget & _ & Hcur & _).
  exists q. split; [exact Hget|]. apply Hcur. vm_compute. left.
Defined.

Definition toy_get : res PlayQueue * db := GetQueue "ann" (toy_save "old").2.

Lemma toy_get_ok :
  toy_get = (Ok (mkQueue "ann" "t1" 0 7 "phone" [queue_track "t1"; queue_track "t2"]), (toy_save "old").2).
Proof. vm_compute. reflexivity. Qed.

Lemma play_queue_is_always_consistent_witness :
  ∃ tr, tr ∈ [queue_track "t1"; queue_track "t2"] ∧ ID tr = "t1".
Proof.
  destruct (play_queue_is_always_consistent "ann" (toy_save "old").2
    (mkQueue "ann" "t1" 0 7 "phone" [queue_track "t1"; queue_track "t2"]) (toy_save "old").2 toy_get_ok)
    as [_ [(Hnil & _)|Hin]]; [discriminate Hnil|exact Hin].
Defined.

(** [Save] accepts a current song named by an alias and [Get] then forgets it:
    the saved position in the second song becomes the start of the first. *)
Lemma play_queue_forgets_aliased_current_song :
  ∃ saved q, (toy_save "old").1 = Ok saved ∧ PositionMS saved = 5000 ∧
    (GetQueue "ann" (toy_save "old").2).1 = Ok q ∧ CurrentID q = "t1" ∧ PositionMS q = 0.
Proof. do 2 eexists. vm_compute. split_and!; reflexivity. Qed.
