(* ===== verification/Playlists.v ===== *)
(** Playlists: [services.PlaylistService] over its catalog interface, and the
    store on the tables [playlists] and [playlist_tracks]
    ([adapters/storage/sqlite/playlists.go]). *)
From stdpp Require Import base gmap strings list sorting.
From Stdlib Require Import ZArith Lia.
From S2P Require Import Prelude GoStrings GoTime Sql Music Library PlayQueues.

Open Scope Z_scope.
Open Scope go_scope.

Record Playlist := mkPlaylist {
  list_ID : string;
  Name : string;
  Comment : string;
  list_Owner : string;
  Public : bool;
  Created : time;
  list_Changed : time;
  SongCount : Z;
  list_Duration : Z;
  list_Tracks : list Track;
}.

(** The playlist methods of [playlistCatalog]. *)
Class PlaylistStore (W : Type) := {
  store_Playlists : string → M W (list Playlist);
  store_Playlist : string → M W Playlist;
  store_SavePlaylist : Playlist → M W unit;
  store_DeletePlaylist : string → M W unit;
}.

Record PlaylistUpdate := mkUpdate {
  up_Name : option string;
  up_Comment : option string;
  up_Public : option bool;
  SongIDsToAdd : list string;
  SongIndexesToRemove : list Z;
}.

Definition track_durations (l : list Track) : Z := i64_sum (map Duration l).

Definition summarizePlaylist (p : Playlist) : Playlist :=
  mkPlaylist (list_ID p) (Name p) (Comment p) (list_Owner p) (Public p) (Created p) (list_Changed p)
    (Z.of_nat (length (list_Tracks p))) (track_durations (list_Tracks p)) (list_Tracks p).

(** The tracks whose index is not in [remove]. *)
Fixpoint keep_tracks (index : Z) (remove : gset Z) (l : list Track) : list Track :=
  match l with
  | [] => []
  | track :: rest =>
      if bool_decide (index ∈ remove) then keep_tracks (index + 1) remove rest
      else track :: keep_tracks (index + 1) remove rest
  end.

Section service.
Context {W : Type} `{TrackFinder W} `{PlaylistStore W}.
(** [newPlaylistID]: random; it may fail. *)
Context (newID : res string).

Definition invalidPlaylist {A} (msg : string) : M W A :=
  throw (Errorf msg (Sentinel ErrInvalidPlaylist) "").

Definition ListPlaylists (owner : string) : M W (list Playlist) := store_Playlists owner.

Definition GetPlaylist (owner id : string) : M W Playlist :=
  playlist ← store_Playlist id;
  if negb (bool_decide (list_Owner playlist = owner)) && negb (Public playlist)
  then throw (Sentinel ErrNotFound) else mret playlist.

Definition owned (owner id : string) : M W Playlist :=
  playlist ← store_Playlist id;
  if negb (bool_decide (list_Owner playlist = owner)) then throw (Sentinel ErrNotFound)
  else mret playlist.

Definition resolveTracks (ids : list string) : M W (list Track) :=
  mmap (λ id, wrap_err (λ e, Errorf ("resolve playlist song " +:+ id +:+ ": ") e "") (find_Track id)) ids.

Definition with_name (name : string) (p : Playlist) : Playlist :=
  mkPlaylist (list_ID p) name (Comment p) (list_Owner p) (Public p) (Created p) (list_Changed p)
    (SongCount p) (list_Duration p) (list_Tracks p).

Definition with_list (tracks : list Track) (now : time) (p : Playlist) : Playlist :=
  mkPlaylist (list_ID p) (Name p) (Comment p) (list_Owner p) (Public p) (Created p) now
    (SongCount p) (list_Duration p) tracks.

(** The playlist [CreateOrReplace] starts from. *)
Definition base_playlist (now : time) (owner id name : string) : M W Playlist :=
  if bool_decide (id = "") then
    if bool_decide (name = "") then invalidPlaylist "playlist name is required: "
    else
      id ← wrap_err (λ e, Errorf "create playlist id: " e "") (lift newID);
      mret (mkPlaylist id name "" owner false now time_zero 0 0 [])
  else
    playlist ← owned owner id;
    mret (if bool_decide (name = "") then playlist else with_name name playlist).

Definition CreateOrReplace (now : time) (owner id name : string) (songIDs : list string)
    : M W Playlist :=
  playlist ← base_playlist now owner id (TrimSpace name);
  tracks ← resolveTracks songIDs;
  let playlist := with_list tracks now playlist in
  _ ← store_SavePlaylist playlist;
  mret (summarizePlaylist playlist).

(** The loop that checks the indexes and collects them in a set. *)
Fixpoint remove_indexes (n : Z) (indexes : list Z) (remove : gset Z) : M W (gset Z) :=
  match indexes with
  | [] => mret remove
  | index :: rest =>
      if (index <? 0) || (index >=? n)
      then invalidPlaylist ("song index " +:+ Itoa index +:+ " is out of range: ")
      else remove_indexes n rest ({[index]} ∪ remove)
  end.

Definition updated_name (update : option string) (current : string) : M W string :=
  match update with
  | None => mret current
  | Some raw =>
      let name := TrimSpace raw in
      if bool_decide (name = "") then invalidPlaylist "playlist name cannot be empty: " else mret name
  end.

Definition UpdatePlaylist (now : time) (owner id : string) (update : PlaylistUpdate) : M W Playlist :=
  playlist ← owned owner id;
  name ← updated_name (up_Name update) (Name playlist);
  let playlist := mkPlaylist (list_ID playlist) name
    (default (Comment playlist) (up_Comment update)) (list_Owner playlist)
    (default (Public playlist) (up_Public update)) (Created playlist) (list_Changed playlist)
    (SongCount playlist) (list_Duration playlist) (list_Tracks playlist) in
  remove ← remove_indexes (Z.of_nat (length (list_Tracks playlist))) (SongIndexesToRemove update) ∅;
  let remaining := keep_tracks 0 remove (list_Tracks playlist) in
  added ← resolveTracks (SongIDsToAdd update);
  let playlist := with_list (remaining ++ added) now playlist in
  _ ← store_SavePlaylist playlist;
  mret (summarizePlaylist playlist).

Definition DeletePlaylist (owner id : string) : M W unit :=
  _ ← owned owner id;
  store_DeletePlaylist id.
End service.

(** * The SQLite store *)

Section sqlite.
Context `{Runtime}.

Definition playlist_of_row (id : string) (row : playlist_row) (l : list Track) : Playlist :=
  mkPlaylist id (pl_name row) (pl_comment row) (pl_owner row) (pl_public row) (pl_created row)
    (pl_changed row) (Z.of_nat (length l)) (track_durations l) l.

Definition sqlPlaylist (id : string) : M db Playlist :=
  r ← wrap_err (λ e, Errorf "query playlist: " e "") (QueryContext (λ t, playlists t !! id));
  match r with
  | None => throw (Sentinel ErrNotFound)
  | Some row =>
      l ← wrap_err (λ e, Errorf "query playlist tracks: " e "")
        (QueryContext (λ t,
           join_tracks (match playlists t !! id with Some p => pl_tracks p | None => [] end) t));
      mret (playlist_of_row id row l)
  end.

(** The summaries of [Playlists]: the counts and durations are of the joined
    tracks, whose stored durations are whole milliseconds; the sum is of
    milliseconds. *)
Definition sqlPlaylists (owner : string) : M db (list Playlist) :=
  wrap_err (λ e, Errorf "query playlists: " e "")
    (QueryContext (λ t,
       sort_slice (λ x y, str_ltb (sql_lower (Name x)) (sql_lower (Name y)))
         (omap (λ x : string * playlist_row,
            if bool_decide (pl_owner x.2 = owner) || pl_public x.2 then
              let l := join_tracks (pl_tracks x.2) t in
              Some (mkPlaylist x.1 (pl_name x.2) (pl_comment x.2) (pl_owner x.2) (pl_public x.2)
                (pl_created x.2) (pl_changed x.2) (Z.of_nat (length l))
                (i64 (Zsum (map (λ tr, Milliseconds (Duration tr)) l) * 10 ^ 6)) [])
            else None)
          (map_range (playlists t))))).

Definition upsert_playlist (p : Playlist) : library → library :=
  with_playlists (λ m, <[list_ID p :=
    match m !! list_ID p with
    | Some old => mkPlaylistRow (list_Owner p) (Name p) (Comment p) (Public p) (pl_created old)
                    (list_Changed p) (pl_tracks old)
    | None => mkPlaylistRow (list_Owner p) (Name p) (Comment p) (Public p) (Created p)
                (list_Changed p) []
    end]> m).

Definition set_playlist_tracks (id : string) (f : list string → list string) : library → library :=
  with_playlists (alter (λ p, mkPlaylistRow (pl_owner p) (pl_name p) (pl_comment p) (pl_public p)
    (pl_created p) (pl_changed p) (f (pl_tracks p))) id).

Definition insert_playlist_track (id trackID : string) (t : library) : res (unit * library) :=
  match playlists t !! id with
  | None => Err (Plain "FOREIGN KEY constraint failed")
  | Some _ => Ok (tt, set_playlist_tracks id (λ l, l ++ [trackID]) t)
  end.

Definition sqlSavePlaylist (p : Playlist) : M db unit :=
  transaction (λ e, Errorf "begin playlist save: " e "") (λ e, Errorf "commit playlist save: " e "")
    (_ ← wrap_err (λ e, Errorf "save playlist: " e "") (ExecContext (upsert_playlist p));
     _ ← wrap_err (λ e, Errorf "clear playlist tracks: " e "")
       (ExecContext (set_playlist_tracks (list_ID p) (λ _, [])));
     _ ← wrap_err (λ e, Errorf "prepare playlist track insert: " e "") (ExecContext id);
     miter (λ track, wrap_err (λ e, Errorf ("insert playlist track " +:+ ID track +:+ ": ") e "")
              (statement (insert_playlist_track (list_ID p) (ID track)))) (list_Tracks p)).

Definition sqlDeletePlaylist (id : string) : M db unit :=
  deleted ← wrap_err (λ e, Errorf "delete playlist: " e "")
    (statement (λ t, match playlists t !! id with
       | Some _ => Ok (1, with_playlists (delete id) t)
       | None => Ok (0, t)
       end));
  if deleted =? 0 then throw (Sentinel ErrNotFound) else mret tt.

Definition sqlPlaylistStore : PlaylistStore db := {|
  store_Playlists := sqlPlaylists;
  store_Playlist := sqlPlaylist;
  store_SavePlaylist := sqlSavePlaylist;
  store_DeletePlaylist := sqlDeletePlaylist;
|}.
#[local] Existing Instance sqlTrackFinder.
#[local] Existing Instance sqlPlaylistStore.

(** * Lemmas *)

Lemma keep_tracks_filter index remove l :
  keep_tracks index remove l =
  map snd (List.filter (λ x : Z * Track, negb (bool_decide (x.1 ∈ remove)))
    (zip (map (λ i, index + Z.of_nat i) (seq 0 (length l))) l)).
Proof.
  revert index. induction l as [|tr l IH]; intros index; [done|]. cbn [keep_tracks length seq map zip_with].
  rewrite <- seq_shift, map_map, IH. cbn [List.filter fst].
  assert (map (λ i, index + 1 + Z.of_nat i) (seq 0 (length l)) =
    map (λ x, index + Z.of_nat (S x)) (seq 0 (length l))) as -> by (apply map_ext; lia).
  rewrite Z.add_0_r. by destruct (bool_decide (index ∈ remove)).
Qed.

Lemma resolveTracks_Ok ids d l d' : library_ok (tables d) → resolveTracks ids d = (Ok l, d') →
  tables d' = tables d ∧ (∀ tr, tr ∈ l → tracks (tables d) !! ID tr = Some tr) ∧
  map Some (map ID l) = map (λ i, resolve_track i (tables d)) ids.
Proof.
  intros Hok. revert d Hok l. induction ids as [|i ids IH]; intros d Hok l; unfold resolveTracks in *;
    cbn [mmap].
  { intros [= <- <-]. split_and!; try done. by intros tr ?%elem_of_nil. }
  intros E. inv_ok E. apply getTrack_Ok in Hm as (T1 & Htr & Hres); [|done].
  apply IH in Hm0 as (T2 & Hin & Hmap); [|by rewrite T1]. rewrite T1 in *. split_and!.
  - congruence.
  - intros tr [->|?]%elem_of_cons; auto.
  - cbn. by rewrite Hres, Hmap.
Qed.

Lemma sqlPlaylist_Ok id d p d' : sqlPlaylist id d = (Ok p, d') →
  tables d' = tables d ∧ ∃ row, playlists (tables d) !! id = Some row ∧
  p = playlist_of_row id row (join_tracks (pl_tracks row) (tables d)).
Proof.
  intros E. unfold sqlPlaylist in E. inv_ok E.
  apply QueryContext_Ok in Hm as [E1 T1], Hm0 as [-> T2]. split; [congruence|].
  rewrite T1, <- E1. eauto.
Qed.

Lemma sqlPlaylist_read_only id : read_only tables (sqlPlaylist id).
Proof. unfold sqlPlaylist. go_clean. Qed.

Lemma owned_Ok owner id d p d' : owned owner id d = (Ok p, d') →
  tables d' = tables d ∧ ∃ row, playlists (tables d) !! id = Some row ∧ pl_owner row = owner ∧
  p = playlist_of_row id row (join_tracks (pl_tracks row) (tables d)).
Proof.
  intros E. unfold owned in E. inv_ok E. apply sqlPlaylist_Ok in Hm as (T & row & Hrow & ->).
  split; [done|]. exists row. split_and!; [done| |done].
  match goal with H : negb _ = false |- _ => apply negb_false_iff, bool_decide_eq_true in H; exact H end.
Qed.

Lemma insert_playlist_tracks_Ok id l d u d' row :
  playlists (tables d) !! id = Some row →
  miter (λ track, wrap_err (λ e, Errorf ("insert playlist track " +:+ ID track +:+ ": ") e "")
    (statement (insert_playlist_track id (ID track)))) l d = (Ok u, d') →
  tables d' = set_playlist_tracks id (λ k, k ++ map ID l) (tables d).
Proof.
  revert d row. induction l as [|tr l IH]; intros d row Hrow; cbn [miter].
  { intros [= _ <-]. unfold set_playlist_tracks, with_playlists. destruct (tables d); cbn in *. f_equal.
    symmetry. apply alter_id. intros q _. rewrite app_nil_r. by destruct q. }
  intros E. inv_ok E. apply statement_Ok in Hm. unfold insert_playlist_track in Hm. rewrite Hrow in Hm.
  injection Hm as _ T1. eapply IH in E; [|rewrite <- T1; cbn; by rewrite lookup_alter_eq, Hrow].
  rewrite E, <- T1. unfold set_playlist_tracks, with_playlists; cbn. f_equal.
  rewrite alter_alter_eq. apply alter_ext. intros q _. cbn. by rewrite <- app_assoc.
Qed.

(** The row a saved playlist leaves. *)
Definition saved_row (p : Playlist) (old : option playlist_row) : playlist_row :=
  mkPlaylistRow (list_Owner p) (Name p) (Comment p) (Public p)
    (match old with Some o => pl_created o | None => Created p end) (list_Changed p)
    (map ID (list_Tracks p)).

Lemma sqlSavePlaylist_Ok p d u d' : sqlSavePlaylist p d = (Ok u, d') →
  tables d' = with_playlists (<[list_ID p := saved_row p (playlists (tables d) !! list_ID p)]>) (tables d).
Proof.
  intros E. apply transaction_Ok in E as (d1 & d2 & T1 & E & ->). inv_ok E.
  apply ExecContext_Ok in Hm, Hm0, Hm1. unfold id in Hm1.
  eapply insert_playlist_tracks_Ok in E;
    [|rewrite Hm1, Hm0, Hm; cbn; rewrite lookup_alter_eq, lookup_insert_eq; done].
  rewrite E, Hm1, Hm0, Hm, T1. unfold set_playlist_tracks, with_playlists; cbn. f_equal.
  rewrite !alter_insert_eq. f_equal. unfold saved_row.
  by destruct (playlists (tables d) !! list_ID p).
Qed.

Lemma sqlSavePlaylist_clean p : fails_clean tables (sqlSavePlaylist p).
Proof. apply transaction_clean. Qed.
Lemma resolveTracks_read_only ids : read_only tables (resolveTracks (W := db) ids).
Proof.
  unfold resolveTracks. apply read_only_mmap. intros i. apply read_only_wrap_err.
  unfold find_Track, sqlTrackFinder, getTrack, resolveTrackID. go_clean.
Qed.

Lemma owned_read_only owner id : read_only tables (owned (W := db) owner id).
Proof.
  unfold owned. apply read_only_bind; [apply sqlPlaylist_read_only|]. intros p. go_clean.
Qed.

Lemma remove_indexes_read_only n l s : read_only tables (remove_indexes (W := db) n l s).
Proof.
  revert s. induction l as [|i l IH]; intros s; cbn [remove_indexes]; unfold invalidPlaylist; go_clean.
Qed.

Lemma remove_indexes_Ok n l s d r d' : remove_indexes (W := db) n l s d = (Ok r, d') →
  tables d' = tables d ∧ (∀ i, i ∈ r ↔ i ∈ s ∨ i ∈ l) ∧ (∀ i, i ∈ l → 0 ≤ i < n).
Proof.
  revert s. induction l as [|i l IH]; intros s; cbn [remove_indexes].
  { intros [= <- <-]. split_and!; [done| |]; intros i; rewrite elem_of_nil; tauto. }
  destruct (_ || _) eqn:Hi; [done|]. intros E. apply IH in E as (T & Hr & Hn).
  split_and!; [done| |].
  - intros j. rewrite Hr, elem_of_cons. set_solver.
  - intros j [->|?]%elem_of_cons; [lia|auto].
Qed.

#[local] Hint Resolve resolveTracks_read_only owned_read_only remove_indexes_read_only
  sqlSavePlaylist_clean : go.

Lemma UpdatePlaylist_clean now owner id up : fails_clean tables (UpdatePlaylist (W := db) now owner id up).
Proof.
  unfold UpdatePlaylist. apply fails_clean_bind; [apply owned_read_only|intros p].
  apply fails_clean_bind; [unfold updated_name, invalidPlaylist; go_clean|intros name].
  apply fails_clean_bind; [apply remove_indexes_read_only|intros remove].
  apply fails_clean_bind; [apply resolveTracks_read_only|intros added].
  apply fails_clean_ret, sqlSavePlaylist_clean.
Qed.

(** The tracks of a list whose position is not among [indexes]. *)
Definition without_indexes (indexes : list Z) (l : list Track) : list Track :=
  map snd (List.filter (λ x : Z * Track, negb (bool_decide (x.1 ∈ indexes)))
    (zip (map Z.of_nat (seq 0 (length l))) l)).

Lemma keep_tracks_without remove indexes l :
  (∀ i, i ∈ remove ↔ i ∈ indexes) → keep_tracks 0 remove l = without_indexes indexes l.
Proof.
  intros Hr. rewrite keep_tracks_filter. unfold without_indexes. f_equal.
  apply filter_ext. intros [i tr]. cbn. f_equal. apply bool_decide_ext, Hr.
Qed.

(** [Update] is exact and atomic.  When it fails the library is unchanged.
    When it succeeds, the actor owns the playlist, every index to remove is a
    position of the playlist, and what is stored is the playlist with exactly
    those positions removed, the added songs' tracks appended in order, the
    given fields replaced, its creation time kept, and nothing else changed;
    the summary returned counts what is stored. *)
Theorem playlist_update_is_exact now owner id up d r d' :
  library_ok (tables d) → UpdatePlaylist now owner id up d = (r, d') →
  match r with
  | Err _ => tables d' = tables d
  | Ok p =>
      ∃ row name added, playlists (tables d) !! id = Some row ∧ pl_owner row = owner ∧
        (match up_Name up with
         | None => name = pl_name row
         | Some raw => name = TrimSpace raw ∧ name ≠ ""
         end) ∧
        (let visible := join_tracks (pl_tracks row) (tables d) in
         (∀ i, i ∈ SongIndexesToRemove up → 0 ≤ i < Z.of_nat (length visible)) ∧
         map Some (map ID added) = map (λ i, resolve_track i (tables d)) (SongIDsToAdd up) ∧
         list_Tracks p = without_indexes (SongIndexesToRemove up) visible ++ added ∧
         SongCount p = Z.of_nat (length (list_Tracks p)) ∧
         tables d' = with_playlists (<[id := mkPlaylistRow owner name
           (default (pl_comment row) (up_Comment up)) (default (pl_public row) (up_Public up))
           (pl_created row) now (map ID (list_Tracks p))]>) (tables d))
  end.
Proof.
  intros Hok E. destruct r as [p|e]; [|by eapply UpdatePlaylist_clean].
  unfold UpdatePlaylist in E. inv_ok E. apply owned_Ok in Hm as (T1 & row & Hrow & Hown & ->).
  assert (tables s0 = tables s ∧ match up_Name up with
         | None => a0 = pl_name row | Some raw => a0 = TrimSpace raw ∧ a0 ≠ "" end) as [T2 Hname].
  { unfold updated_name in Hm0. destruct (up_Name up) as [raw|].
    - destruct (bool_decide (TrimSpace raw = "")) eqn:He; [done|]. injection Hm0 as <- <-.
      apply bool_decide_eq_false in He. by split_and!.
    - injection Hm0 as -> ->. done. }
  apply remove_indexes_Ok in Hm1 as (T3 & Hrem & Hrange).
  apply resolveTracks_Ok in Hm2 as (T4 & Hin & Hmap); [|by rewrite T3, T2, T1].
  apply sqlSavePlaylist_Ok in Hm3. rewrite T4, T3, T2, T1 in Hm3. rewrite T3, T2, T1 in Hmap.
  exists row, a0, a2. cbn in *. split_and!; try done.
  - by rewrite (keep_tracks_without _ (SongIndexesToRemove up)) by (intros i; rewrite Hrem; set_solver).
  - rewrite Hm3, Hrow. unfold saved_row; cbn. by rewrite Hown.
Qed.

(** The calls that change playlists, by the user who makes them. *)
Inductive playlist_call :=
  | CallCreateOrReplace (newID : res string) (now : time) (id name : string) (songIDs : list string)
  | CallUpdate (now : time) (id : string) (update : PlaylistUpdate)
  | CallDelete (id : string).

Definition run_playlist_call (actor : string) (c : playlist_call) : M db unit :=
  match c with
  | CallCreateOrReplace newID now id name songs =>
      _ ← CreateOrReplace newID now actor id name songs; mret tt
  | CallUpdate now id up => _ ← UpdatePlaylist now actor id up; mret tt
  | CallDelete id => DeletePlaylist actor id
  end.

Definition playlist_of (k : string) (d : db) : option playlist_row := playlists (tables d) !! k.

Lemma base_playlist_read_only newID now actor id name :
  read_only tables (base_playlist (W := db) newID now actor id name).
Proof. unfold base_playlist, invalidPlaylist. go_clean. Qed.

Lemma CreateOrReplace_Ok newID now actor id name songs d p d' :
  library_ok (tables d) → CreateOrReplace newID now actor id name songs d = (Ok p, d') →
  ∃ row k, tables d' = with_playlists (<[k := row]>) (tables d) ∧ pl_owner row = actor ∧
    ((id = "" ∧ newID = Ok k) ∨
     (k = id ∧ ∃ old, playlists (tables d) !! id = Some old ∧ pl_owner old = actor)).
Proof.
  intros Hok E. unfold CreateOrReplace in E. inv_ok E.
  assert (tables s = tables d) as T1 by (by eapply base_playlist_read_only).
  apply resolveTracks_Ok in Hm0 as (T & _ & _); [|by rewrite T1]. apply sqlSavePlaylist_Ok in Hm1.
  rewrite T, T1 in Hm1. unfold base_playlist in Hm. destruct (bool_decide (id = "")) eqn:Hid.
  - apply bool_decide_eq_true in Hid. destruct (bool_decide (TrimSpace name = "")); [done|].
    unfold mbind, M_bind, wrap_err, lift in Hm. destruct newID as [k|e]; [|done].
    injection Hm as <- <-. eexists _, k. split; [exact Hm1|]. split; [done|]. by left.
  - unfold mbind, M_bind in Hm. destruct (owned actor id d) as [[old|e] d1] eqn:Eo; [|done].
    apply owned_Ok in Eo as (_ & row & Hrow & Hown & ->). injection Hm as <- <-.
    destruct (bool_decide (TrimSpace name = "")); (eexists _, id;
      split; [exact Hm1|]; split; [done|]; right; eauto).
Qed.

Lemma CreateOrReplace_clean newID now actor id name songs :
  fails_clean tables (CreateOrReplace (W := db) newID now actor id name songs).
Proof.
  unfold CreateOrReplace. apply fails_clean_bind; [apply base_playlist_read_only|intros p].
  apply fails_clean_bind; [apply resolveTracks_read_only|intros l].
  apply fails_clean_ret, sqlSavePlaylist_clean.
Qed.

(** Only its owner changes a playlist: whatever call another user makes,
    and however it ends, the playlist keeps its row and its tracks; and a
    private playlist is not shown to anybody else.  (New identifiers are
    assumed fresh.) *)
Theorem only_the_owner_changes_a_playlist actor c d r d' k row :
  library_ok (tables d) → playlist_of k d = Some row → pl_owner row ≠ actor →
  (∀ newID now id name songs, c = CallCreateOrReplace newID now id name songs → newID ≠ Ok k) →
  run_playlist_call actor c d = (r, d') →
  playlist_of k d' = Some row ∧
  (pl_public row = false → ∀ p d2, GetPlaylist actor k d ≠ (Ok p, d2)).
Proof.
  intros Hok Hrow Hown Hfresh E. unfold playlist_of in *. split.
  - destruct c as [newID now id name songs|now id up|id]; cbn [run_playlist_call] in E.
    + unfold mbind, M_bind in E. destruct (CreateOrReplace newID now actor id name songs d)
        as [[p|e] d1] eqn:E1; injection E as <- <-.
      * apply CreateOrReplace_Ok in E1 as (row' & k' & -> & _ & Hk); [|done]. cbn.
        rewrite lookup_insert_ne; [done|]. intros ->.
        destruct Hk as [[_ Hn]|(-> & old & Hold & Ho)]; [by eapply Hfresh|congruence].
      * by rewrite (CreateOrReplace_clean _ _ _ _ _ _ _ _ _ E1).
    + unfold mbind, M_bind in E. destruct (UpdatePlaylist now actor id up d) as [r1 d1] eqn:E1.
      assert (playlists (tables d1) !! k = Some row) as Hd1.
      { destruct r1 as [p|e]; [|by rewrite (UpdatePlaylist_clean _ _ _ _ _ _ _ E1)].
        pose proof (playlist_update_is_exact _ _ _ _ _ _ _ Hok E1) as X. cbn in X.
        destruct X as (old & name & added & Hold & Ho & _ & _ & _ & _ & _ & ->). cbn.
        rewrite lookup_insert_ne; [done|]. intros ->. congruence. }
      by destruct r1; injection E as <- <-.
    + unfold DeletePlaylist, mbind, M_bind in E. destruct (owned actor id d) as [[p|e] d1] eqn:E1.
      * apply owned_Ok in E1 as (T & old & Hold & Ho & _). unfold store_DeletePlaylist in E; cbn in E.
        assert (id ≠ k) as Hne by (intros ->; congruence).
        unfold sqlDeletePlaylist, mbind, M_bind, wrap_err in E.
        destruct (statement _ d1) as [[n|e] d2] eqn:E2.
        -- apply statement_Ok in E2. rewrite T, Hold in E2. injection E2 as <- E2. cbn in E.
           injection E as <- <-. rewrite <- E2. cbn. by rewrite lookup_delete_ne.
        -- injection E as <- <-. apply statement_clean in E2. by rewrite E2, T.
      * injection E as <- <-. by rewrite (owned_read_only _ _ _ _ _ E1).
  - intros Hpub p d2 Eg. unfold GetPlaylist in Eg. inv_ok Eg. apply sqlPlaylist_Ok in Hm as (_ & row' & Hr & ->).
    rewrite Hrow in Hr. injection Hr as <-. cbn in *.
    rewrite Hpub, bool_decide_eq_false_2 in Heqb by done. done.
Qed.
End sqlite.

(** * Witnesses *)

#[local] Existing Instance stable_runtime.
#[local] Existing Instance sqlTrackFinder.
#[local] Existing Instance sqlPlaylistStore.

Definition toy_row : playlist_row := mkPlaylistRow "ann" "Mix" "" false 3 4 ["t1"; "t2"; "t1"].

Definition toy_playlist_db : db :=
  mkDatabase (with_playlists (λ _, {["p" := toy_row]}) (tables toy_queue_db)) [].

Lemma toy_playlist_library_ok : library_ok (tables toy_playlist_db).
Proof. destruct toy_queue_library_ok as [Hi Hs Ha Hal]. by split. Qed.

(** Drop the first song, append one by its older id. *)
Definition toy_update : PlaylistUpdate := mkUpdate None None (Some true) ["old"] [0].

Definition toy_updated : res Playlist * db := UpdatePlaylist 9 "ann" "p" toy_update toy_playlist_db.

Definition toy_updated_playlist : Playlist :=
  mkPlaylist "p" "Mix" "" "ann" true 3 9 3 0 [queue_track "t2"; queue_track "t1"; queue_track "t2"].

Lemma toy_updated_ok : toy_updated = (Ok toy_updated_playlist, toy_updated.2).
Proof. vm_compute. reflexivity. Qed.

Lemma playlist_update_is_exact_witness :
  ∃ added, list_Tracks toy_updated_playlist =
    without_indexes [0] [queue_track "t1"; queue_track "t2"; queue_track "t1"] ++ added ∧
    map ID added = ["t2"].
Proof.
  pose proof (playlist_update_is_exact 9 "ann" "p" toy_update toy_playlist_db _ _
    toy_playlist_library_ok toy_updated_ok) as X. cbv beta iota in X.
  destruct X as (row & name & added & Hrow & _ & _ & _ & Hmap & Ht & _).
  assert (row = toy_row) as -> by (apply (inj Some); rewrite <- Hrow; reflexivity).
  exists added. split; [exact Ht|]. destruct added as [|x [|y l]]; try discriminate Hmap.
  injection Hmap as Hx. cbn. by rewrite Hx.
Defined.

Definition toy_refused : res unit * db := run_playlist_call "bob" (CallDelete "p") toy_playlist_db.

Lemma only_the_owner_changes_a_playlist_witness : playlist_of "p" toy_refused.2 = Some toy_row.
Proof.
  apply (only_the_owner_changes_a_playlist "bob" (CallDelete "p") toy_playlist_db toy_refused.1).
  - exact toy_playlist_library_ok.
  - reflexivity.
  - discriminate.
  - discriminate.
  - apply surjective_pairing.
Defined.
