(* ===== verification/Annotations.v ===== *)
(** Stars, ratings and play counts: [services.AnnotationService] over the
    catalog, and the table [media_annotations]
    ([adapters/storage/sqlite/annotations.go]). *)
From stdpp Require Import base gmap strings list sorting.
From Stdlib Require Import ZArith Lia.
From S2P Require Import Prelude GoStrings GoTime Sql Music Library PlayQueues.

Open Scope Z_scope.

Definition MediaSong : string := "song".
Definition MediaAlbum : string := "album".
Definition MediaArtist : string := "artist".

Record MediaRef := mkMedia {
  media_Type : string;
  media_ID : string;
}.

#[export] Instance MediaRef_eq_dec : EqDecision MediaRef.
Proof. solve_decision. Defined.

Record MediaAnnotation := mkAnnotation {
  ann_Owner : string;
  ann_Media : MediaRef;
  StarredAt : time;
  Rating : Z;
  PlayCount : Z;
  LastPlayed : time;
}.

Record MediaAnnotationUpdate := mkAnnUpdate {
  upd_Owner : string;
  upd_Media : MediaRef;
  upd_StarredAt : option time;
  upd_Rating : option Z;
  PlayCountDelta : Z;
  upd_LastPlayed : option time;
}.

(** [annotationCatalog] and [ports.MediaAnnotationStore]. *)
Class AnnotationCatalog (W : Type) := {
  ann_Track : string → M W Track;
  ann_TracksByAlbum : string → M W (list Track);
  ann_Artist : string → M W ArtistEntry;
}.

Class AnnotationStore (W : Type) := {
  store_MediaAnnotations : string → M W (list MediaAnnotation);
  store_UpdateMediaAnnotations : list MediaAnnotationUpdate → M W unit;
}.

Record AlbumEntry := mkAlbum {
  album_ID : string;
  album_Name : string;
  album_Artist : string;
  album_ArtistID : string;
  album_Year : Z;
  album_Genre : string;
  album_SongCount : Z;
  album_Duration : Z;
  album_CoverArtID : string;
}.

Record StarredLibrary := mkStarred {
  starred_Artists : list ArtistEntry;
  starred_Albums : list AlbumEntry;
  starred_Tracks : list Track;
}.

Definition annotationAlbum (id : string) (first : Track) (rest : list Track) : AlbumEntry :=
  let all := first :: rest in
  mkAlbum id (Album first)
    (if bool_decide (AlbumArtist first = "") then Artist first else AlbumArtist first)
    (if bool_decide (AlbumArtistID first = "") then ArtistID first else AlbumArtistID first)
    (Year first) (Genre first) (Z.of_nat (length all)) (i64_sum (map Duration all)) (CoverArtID first).

Section service.
Context {W : Type} `{AnnotationCatalog W} `{AnnotationStore W}.

Definition invalidAnnotation {A} (msg : string) : M W A :=
  throw (Errorf msg (Sentinel ErrInvalidAnnotation) "").

Definition resolveRef (ref : MediaRef) : M W MediaRef :=
  let id := TrimSpace (media_ID ref) in
  if bool_decide (id = "") then invalidAnnotation "media id is empty: "
  else if bool_decide (media_Type ref = MediaSong) then
    _ ← ann_Track id; mret (mkMedia MediaSong id)
  else if bool_decide (media_Type ref = MediaAlbum) then
    tracks ← ann_TracksByAlbum id;
    if bool_decide (tracks = []) then throw (Sentinel ErrNotFound) else mret (mkMedia MediaAlbum id)
  else if bool_decide (media_Type ref = MediaArtist) then
    _ ← ann_Artist id; mret (mkMedia MediaArtist id)
  else if bool_decide (media_Type ref = "") then
    r ← try (ann_Track id);
    match r with
    | Ok _ => mret (mkMedia MediaSong id)
    | Err e =>
        if negb (errors_Is ErrNotFound e) then throw e
        else
          tracks ← ann_TracksByAlbum id;
          if negb (bool_decide (tracks = [])) then mret (mkMedia MediaAlbum id)
          else _ ← ann_Artist id; mret (mkMedia MediaArtist id)
    end
  else invalidAnnotation "unsupported media type: ".

Definition resolveRefs (refs : list MediaRef) : M W (list MediaRef) :=
  if bool_decide (refs = []) then invalidAnnotation "at least one media id is required: "
  else mmap resolveRef refs.

(** [now] is the clock, which is read once per reference. *)
Definition SetStarred (now : time) (owner : string) (refs : list MediaRef) (starred : bool) : M W unit :=
  resolved ← resolveRefs refs;
  store_UpdateMediaAnnotations
    (map (λ ref, mkAnnUpdate owner ref (Some (if starred then now else time_zero)) None 0 None) resolved).

Definition SetRating (owner : string) (ref : MediaRef) (rating : Z) : M W unit :=
  if (rating <? 0) || (rating >? 5) then invalidAnnotation "rating must be between 0 and 5: "
  else
    resolved ← resolveRef ref;
    store_UpdateMediaAnnotations [mkAnnUpdate owner resolved None (Some rating) 0 None].

Definition Scrobble (now : time) (owner : string) (ids : list string) (playedAt : list time)
    (submission : bool) : M W unit :=
  if bool_decide (ids = []) then invalidAnnotation "at least one song id is required: "
  else if negb (bool_decide (playedAt = [])) && negb (bool_decide (length playedAt = length ids))
  then invalidAnnotation "time parameter count must match id parameter count: "
  else
    resolved ← resolveRefs (map (mkMedia MediaSong) ids);
    if negb submission then mret tt
    else
      let times := if bool_decide (playedAt = []) then map (λ _, now) resolved else playedAt in
      store_UpdateMediaAnnotations
        (zip_with (λ ref at_, mkAnnUpdate owner ref None None 1 (Some at_)) resolved times).

(** The loop of [Starred]; the map of annotations it also returns is
    [annotationMap] of what was read. *)
Fixpoint starred_loop (items : list MediaAnnotation) (acc : StarredLibrary) : M W StarredLibrary :=
  match items with
  | [] => mret acc
  | a :: rest =>
      if IsZero (StarredAt a) then starred_loop rest acc
      else if bool_decide (media_Type (ann_Media a) = MediaSong) then
        r ← try (ann_Track (media_ID (ann_Media a)));
        match r with
        | Err e => if errors_Is ErrNotFound e then starred_loop rest acc else throw e
        | Ok track => starred_loop rest (mkStarred (starred_Artists acc) (starred_Albums acc)
                        (starred_Tracks acc ++ [track]))
        end
      else if bool_decide (media_Type (ann_Media a) = MediaAlbum) then
        tracks ← ann_TracksByAlbum (media_ID (ann_Media a));
        match tracks with
        | [] => starred_loop rest acc
        | first :: more => starred_loop rest (mkStarred (starred_Artists acc)
            (starred_Albums acc ++ [annotationAlbum (media_ID (ann_Media a)) first more])
            (starred_Tracks acc))
        end
      else if bool_decide (media_Type (ann_Media a) = MediaArtist) then
        r ← try (ann_Artist (media_ID (ann_Media a)));
        match r with
        | Err e => if errors_Is ErrNotFound e then starred_loop rest acc else throw e
        | Ok artist => starred_loop rest (mkStarred (starred_Artists acc ++ [artist])
                         (starred_Albums acc) (starred_Tracks acc))
        end
      else starred_loop rest acc
  end.

Definition Starred (owner : string) : M W (StarredLibrary * list MediaAnnotation) :=
  items ← store_MediaAnnotations owner;
  lib ← starred_loop items (mkStarred [] [] []);
  mret (lib, items).
End service.

(** * The SQLite store *)

Definition ann_key (u : MediaAnnotationUpdate) : string * string * string :=
  (upd_Owner u, media_Type (upd_Media u), media_ID (upd_Media u)).

Definition empty_annotation : annotation_row := mkAnnotationRow time_zero 0 0 time_zero.

(** The three statements of one update. *)
Definition insert_annotation (u : MediaAnnotationUpdate) (t : library) : res (unit * library) :=
  let ty := media_Type (upd_Media u) in
  if negb (bool_decide (ty ∈ [MediaSong; MediaAlbum; MediaArtist]))
  then Err (Plain "CHECK constraint failed: media_type")
  else Ok (tt, with_annotations (λ m,
    match m !! ann_key u with Some _ => m | None => <[ann_key u := empty_annotation]> m end) t).

Definition updated_row (u : MediaAnnotationUpdate) (a : annotation_row) : annotation_row :=
  mkAnnotationRow (default (an_starred a) (upd_StarredAt u)) (default (an_rating a) (upd_Rating u))
    (an_plays a + PlayCountDelta u) (default (an_last a) (upd_LastPlayed u)).

Definition row_valid (a : annotation_row) : bool :=
  (0 <=? an_rating a) && (an_rating a <=? 5) && (0 <=? an_plays a).

Definition update_annotation (u : MediaAnnotationUpdate) (t : library) : res (unit * library) :=
  match media_annotations t !! ann_key u with
  | None => Ok (tt, t)
  | Some a =>
      if row_valid (updated_row u a)
      then Ok (tt, with_annotations (<[ann_key u := updated_row u a]>) t)
      else Err (Plain "CHECK constraint failed: rating, play_count")
  end.

Definition is_empty_row (a : annotation_row) : bool :=
  IsZero (an_starred a) && (an_rating a =? 0) && (an_plays a =? 0) && IsZero (an_last a).

Definition delete_empty (u : MediaAnnotationUpdate) : library → library :=
  with_annotations (λ m,
    match m !! ann_key u with
    | Some a => if is_empty_row a then delete (ann_key u) m else m
    | None => m
    end).

Section sqlite.
Context `{Runtime} `{Unicode}.

Definition sqlUpdateMediaAnnotation (u : MediaAnnotationUpdate) : M db unit :=
  _ ← wrap_err (λ e, Errorf ("create media annotation " +:+ media_ID (upd_Media u) +:+ ": ") e "")
    (statement (insert_annotation u));
  _ ← wrap_err (λ e, Errorf ("update media annotation " +:+ media_ID (upd_Media u) +:+ ": ") e "")
    (statement (update_annotation u));
  wrap_err (λ e, Errorf ("remove empty media annotation " +:+ media_ID (upd_Media u) +:+ ": ") e "")
    (ExecContext (delete_empty u)).

Definition sqlUpdateMediaAnnotations (updates : list MediaAnnotationUpdate) : M db unit :=
  transaction (λ e, Errorf "begin media annotation save: " e "")
    (λ e, Errorf "commit media annotations: " e "") (miter sqlUpdateMediaAnnotation updates).

Definition annotation_less (x y : (string * string * string) * annotation_row) : bool :=
  let sx := time_text (an_starred x.2) in
  let sy := time_text (an_starred y.2) in
  str_ltb sy sx || (bool_decide (sx = sy) &&
    (str_ltb x.1.1.2 y.1.1.2 || (bool_decide (x.1.1.2 = y.1.1.2) && str_ltb x.1.2 y.1.2))).

Definition sqlMediaAnnotations (owner : string) : M db (list MediaAnnotation) :=
  wrap_err (λ e, Errorf "query media annotations: " e "")
    (QueryContext (λ t,
       map (λ x : (string * string * string) * annotation_row,
              mkAnnotation owner (mkMedia x.1.1.2 x.1.2) (an_starred x.2) (an_rating x.2) (an_plays x.2)
                (an_last x.2))
         (sort_slice annotation_less
           (List.filter (λ x : (string * string * string) * annotation_row, bool_decide (x.1.1.1 = owner))
             (map_range (media_annotations t)))))).

Definition sqlAnnotationCatalog : AnnotationCatalog db := {|
  ann_Track := getTrack;
  ann_TracksByAlbum := TracksByAlbum;
  ann_Artist := getArtist;
|}.
Definition sqlAnnotationStore : AnnotationStore db := {|
  store_MediaAnnotations := sqlMediaAnnotations;
  store_UpdateMediaAnnotations := sqlUpdateMediaAnnotations;
|}.
#[local] Existing Instance sqlAnnotationCatalog.
#[local] Existing Instance sqlAnnotationStore.

(** * What an update does to the table *)

Notation annotations := (gmap (string * string * string) annotation_row).

(** The row of a medium, the empty one when there is none. *)
Definition row_of (m : annotations) (k : string * string * string) : annotation_row :=
  default empty_annotation (m !! k).

(** Rows satisfy the table's checks, and none is empty. *)
Definition annotations_ok (m : annotations) : Prop :=
  ∀ k a, m !! k = Some a → row_valid a = true ∧ is_empty_row a = false.

Lemma sqlUpdate_one_Ok u d x d' : sqlUpdateMediaAnnotation u d = (Ok x, d') →
  let m := media_annotations (tables d) in
  let a := updated_row u (row_of m (ann_key u)) in
  row_valid a = true ∧
  tables d' = with_annotations (λ m, if is_empty_row a then delete (ann_key u) m
                                     else <[ann_key u := a]> m) (tables d).
Proof.
  intros E. unfold sqlUpdateMediaAnnotation in E. inv_ok E.
  apply statement_Ok in Hm, Hm0. apply ExecContext_Ok in E. cbn.
  unfold insert_annotation in Hm. destruct (negb _); [done|]. injection Hm as _ T1.
  unfold update_annotation in Hm0. rewrite <- T1 in Hm0. cbn in Hm0. unfold row_of.
  destruct (media_annotations (tables d) !! ann_key u) as [old|] eqn:Hold; cbn.
  - rewrite Hold in Hm0. destruct (row_valid (updated_row u old)) eqn:Hv; [|done].
    injection Hm0 as _ T2. split; [done|]. rewrite E, <- T2. unfold delete_empty, with_annotations; cbn.
    f_equal. rewrite Hold, lookup_insert_eq. destruct (is_empty_row _); [|done]. apply delete_insert_eq.
  - rewrite lookup_insert_eq in Hm0. destruct (row_valid (updated_row u empty_annotation)) eqn:Hv; [|done].
    injection Hm0 as _ T2. split; [done|]. rewrite E, <- T2. unfold delete_empty, with_annotations; cbn.
    f_equal. rewrite Hold, lookup_insert_eq, insert_insert_eq. destruct (is_empty_row _); [|done].
    by rewrite delete_insert_eq.
Qed.

Lemma time_zero_IsZero t : IsZero t = true → t = time_zero.
Proof. unfold IsZero. lia. Qed.

(** Seen through [row_of], an update is [updated_row] on its key. *)
Lemma row_of_update (u : MediaAnnotationUpdate) (m : annotations) (k : string * string * string) :
  let a := updated_row u (row_of m (ann_key u)) in
  row_of (if is_empty_row a then delete (ann_key u) m else <[ann_key u := a]> m) k =
  if decide (k = ann_key u) then a else row_of m k.
Proof.
  cbn. set (a := updated_row u _). unfold row_of at 1. destruct (is_empty_row a) eqn:He.
  - case_decide as Hk.
    + subst k. rewrite lookup_delete_eq. cbn. unfold is_empty_row in He.
      apply andb_true_iff in He as [He Hl]. apply andb_true_iff in He as [He Hp].
      apply andb_true_iff in He as [Hs Hr]. apply time_zero_IsZero in Hs, Hl.
      destruct a as [s r p l]; cbn in *. unfold empty_annotation. f_equal; lia.
    + by rewrite lookup_delete_ne.
  - case_decide as Hk; [subst k; by rewrite lookup_insert_eq|by rewrite lookup_insert_ne].
Qed.

Lemma update_keeps_ok (u : MediaAnnotationUpdate) (m : annotations) :
  let a := updated_row u (row_of m (ann_key u)) in
  row_valid a = true → annotations_ok m →
  annotations_ok (if is_empty_row a then delete (ann_key u) m else <[ann_key u := a]> m).
Proof.
  cbn. intros Hv Hok k x. destruct (is_empty_row _) eqn:He.
  - intros [_ ?]%lookup_delete_Some. by eapply Hok.
  - intros [[<- <-]|[_ ?]]%lookup_insert_Some; [done|by eapply Hok].
Qed.

(** A list of updates, applied in order. *)
Definition apply_updates (l : list MediaAnnotationUpdate) (k : string * string * string)
    (a : annotation_row) : annotation_row :=
  fold_left (λ a u, if decide (k = ann_key u) then updated_row u a else a) l a.

Lemma sqlUpdate_all_Ok l d x d' : miter sqlUpdateMediaAnnotation l d = (Ok x, d') →
  (∀ k, row_of (media_annotations (tables d')) k =
        apply_updates l k (row_of (media_annotations (tables d)) k)) ∧
  (annotations_ok (media_annotations (tables d)) → annotations_ok (media_annotations (tables d'))) ∧
  tables d' = with_annotations (λ _, media_annotations (tables d')) (tables d).
Proof.
  revert d. induction l as [|u l IH]; intros d; cbn [miter].
  { intros [= _ <-]. split_and!; [done|done|]. by destruct (tables d). }
  intros E. inv_ok E. apply sqlUpdate_one_Ok in Hm as [Hv T1].
  apply IH in E as (Hrow & Hok & T2). rewrite T1 in Hrow, Hok. cbn in Hrow, Hok.
  split_and!.
  - intros k. rewrite Hrow. pose proof (row_of_update u (media_annotations (tables d)) k) as Hu.
    cbn in Hu. rewrite Hu. cbn [apply_updates fold_left].
    destruct (decide (k = ann_key u)) as [->|]; done.
  - intros Hd. apply Hok. by apply update_keeps_ok.
  - rewrite T2, T1. by destruct (tables d).
Qed.
(** * The calls *)

Inductive annotation_call :=
  | CallSetStarred (now : time) (refs : list MediaRef) (starred : bool)
  | CallSetRating (ref : MediaRef) (rating : Z)
  | CallScrobble (now : time) (ids : list string) (playedAt : list time) (submission : bool).

Definition run_annotation_call (owner : string) (c : annotation_call) : M db unit :=
  match c with
  | CallSetStarred now refs starred => SetStarred now owner refs starred
  | CallSetRating ref rating => SetRating owner ref rating
  | CallScrobble now ids playedAt submission => Scrobble now owner ids playedAt submission
  end.

Lemma TracksByAlbum_read_only id : read_only tables (TracksByAlbum id).
Proof. unfold TracksByAlbum, tracksByCanonicalAlbum. go_clean. Qed.

Lemma ann_Track_read_only id : read_only tables (ann_Track (W := db) id).
Proof. unfold ann_Track, sqlAnnotationCatalog, getTrack, resolveTrackID. go_clean. Qed.

Lemma ann_Artist_read_only id : read_only tables (ann_Artist (W := db) id).
Proof. unfold ann_Artist, sqlAnnotationCatalog, getArtist, resolveArtistID. go_clean. Qed.

Lemma ann_TracksByAlbum_read_only id : read_only tables (ann_TracksByAlbum (W := db) id).
Proof. apply TracksByAlbum_read_only. Qed.

#[local] Hint Resolve ann_Track_read_only ann_Artist_read_only ann_TracksByAlbum_read_only : go.

Lemma resolveRef_read_only ref : read_only tables (resolveRef (W := db) ref).
Proof.
  unfold resolveRef, invalidAnnotation. go_clean.
Qed.

#[local] Hint Resolve resolveRef_read_only : go.

Lemma resolveRefs_read_only refs : read_only tables (resolveRefs (W := db) refs).
Proof. unfold resolveRefs, invalidAnnotation. go_clean. Qed.

#[local] Hint Resolve resolveRefs_read_only : go.

Lemma store_update_clean l : fails_clean tables (store_UpdateMediaAnnotations (W := db) l).
Proof. apply transaction_clean. Qed.

Lemma annotation_call_clean owner c : fails_clean tables (run_annotation_call owner c).
Proof.
  destruct c as [now refs starred|ref rating|now ids playedAt submission];
    cbn [run_annotation_call]; unfold SetStarred, SetRating, Scrobble, invalidAnnotation;
    repeat case_match; try (apply fails_clean_read_only; by eauto with go);
    (apply fails_clean_bind; [by eauto with go|intros resolved]);
    first [apply store_update_clean | apply fails_clean_read_only; by eauto with go].
Qed.

Lemma store_update_Ok l d x d' : store_UpdateMediaAnnotations (W := db) l d = (Ok x, d') →
  (∀ k, row_of (media_annotations (tables d')) k =
        apply_updates l k (row_of (media_annotations (tables d)) k)) ∧
  (annotations_ok (media_annotations (tables d)) → annotations_ok (media_annotations (tables d'))) ∧
  tables d' = with_annotations (λ _, media_annotations (tables d')) (tables d).
Proof.
  intros E. apply transaction_Ok in E as (d1 & d2 & T1 & E & T2).
  apply sqlUpdate_all_Ok in E as (Hrow & Hok & T). rewrite T1 in *. rewrite T2. done.
Qed.

(** A successful call is one batch of updates of the owner's rows. *)
Lemma annotation_call_Ok owner c d x d' : run_annotation_call owner c d = (Ok x, d') →
  tables d' = tables d ∨
  ∃ d1 l, tables d1 = tables d ∧ (∀ u, u ∈ l → upd_Owner u = owner) ∧
    store_UpdateMediaAnnotations l d1 = (Ok x, d').
Proof.
  destruct c as [now refs starred|ref rating|now ids playedAt submission]; cbn [run_annotation_call].
  - unfold SetStarred. intros E. inv_ok E. right. exists s.
    eexists. split; [by eapply resolveRefs_read_only|]. split; [|exact E].
    intros u Hu. change (map ?f ?l) with (f <$> l) in Hu. by apply list_elem_of_fmap in Hu as (r & -> & _).
  - unfold SetRating, invalidAnnotation. intros E. inv_ok E. right. exists s.
    eexists. split; [by eapply resolveRef_read_only|]. split; [|exact E].
    intros u ->%list_elem_of_singleton. done.
  - unfold Scrobble, invalidAnnotation. intros E. inv_ok E.
    + left. by eapply resolveRefs_read_only.
    + right. exists s. eexists. split; [by eapply resolveRefs_read_only|]. split; [|exact E].
      intros u Hu. apply list_elem_of_lookup in Hu as [i Hi].
      apply lookup_zip_with_Some in Hi as (r & t & -> & _ & _). done.
Qed.

Lemma apply_updates_other l k a owner :
  (∀ u, u ∈ l → upd_Owner u = owner) → k.1.1 ≠ owner → apply_updates l k a = a.
Proof.
  revert a. induction l as [|u l IH]; intros a Hl Hk; [done|]. cbn.
  rewrite decide_False; [apply IH; [|done]; intros v Hv; apply Hl; by right|].
  intros ->. apply Hk. cbn. apply Hl. by left.
Qed.

(** Annotations stay valid and private: whatever call a user makes, and
    however it ends, every stored row still has a rating from 0 to 5 and a
    non-negative play count and says something (rows that became empty are
    removed), and no other user's annotations change; a call that fails
    changes nothing at all. *)
Theorem annotation_calls_are_valid_and_private owner c d r d' :
  annotations_ok (media_annotations (tables d)) →
  run_annotation_call owner c d = (r, d') →
  annotations_ok (media_annotations (tables d')) ∧
  (∀ k, k.1.1 ≠ owner →
     row_of (media_annotations (tables d')) k = row_of (media_annotations (tables d)) k) ∧
  (is_ok r = false → tables d' = tables d).
Proof.
  intros Hok E. destruct r as [x|e].
  - apply annotation_call_Ok in E as [T|(d1 & l & T & Hl & E)].
    + rewrite T. done.
    + apply store_update_Ok in E as (Hrow & Hkeep & _). rewrite T in *. split_and!; [auto| |done].
      intros k Hk. rewrite Hrow. by eapply apply_updates_other.
  - by rewrite (annotation_call_clean _ _ _ _ _ E).
Qed.

(** How often a song is named. *)
Definition plays_of (owner : string) (ids : list string) (k : string * string * string) : Z :=
  Z.of_nat (length (List.filter (λ i, bool_decide (k = (owner, MediaSong, TrimSpace i))) ids)).

Lemma resolve_songs_Ok ids d l d' :
  mmap resolveRef (map (mkMedia MediaSong) ids) d = (Ok l, d') →
  l = map (λ i, mkMedia MediaSong (TrimSpace i)) ids.
Proof.
  revert d l. induction ids as [|i ids IH]; intros d l; cbn [map mmap]; [by intros [= <- _]|].
  intros E. inv_ok E. apply IH in Hm0 as ->. f_equal.
  unfold resolveRef, invalidAnnotation in Hm. cbn [media_ID media_Type] in Hm.
  rewrite (bool_decide_eq_true_2 (MediaSong = MediaSong)) in Hm by done.
  destruct (bool_decide (TrimSpace i = "")); [done|]. by inv_ok Hm.
Qed.

Lemma apply_plays owner ids times k a : length times = length ids →
  let a' := apply_updates (zip_with (λ ref at_, mkAnnUpdate owner ref None None 1 (Some at_))
              (map (λ i, mkMedia MediaSong (TrimSpace i)) ids) times) k a in
  an_plays a' = an_plays a + plays_of owner ids k ∧ an_starred a' = an_starred a ∧
  an_rating a' = an_rating a.
Proof.
  cbn. revert times a. induction ids as [|i ids IH]; intros [|t times] a Hlen; try done; cbn.
  { unfold plays_of; cbn. split_and!; [lia|done|done]. }
  unfold plays_of; cbn [List.filter]. 
  change (ann_key (mkAnnUpdate owner (mkMedia MediaSong (TrimSpace i)) None None 1 (Some t)))
    with (owner, MediaSong, TrimSpace i).
  destruct (decide (k = (owner, MediaSong, TrimSpace i))) as [Hk|Hk].
  - rewrite bool_decide_eq_true_2 by done. cbn [length].
    specialize (IH times (updated_row (mkAnnUpdate owner (mkMedia MediaSong (TrimSpace i)) None None 1
      (Some t)) a) ltac:(by injection Hlen)) as (Hp & Hs & Hr).
    unfold apply_updates in Hp, Hs, Hr. rewrite Hp, Hs, Hr. cbn. unfold plays_of.
    split_and!; [lia|done|done].
  - rewrite bool_decide_eq_false_2 by done.
    apply IH. by injection Hlen.
Qed.

(** [Scrobble] counts every play: when it succeeds as a submission, the play
    count of each song grows by the number of times the call names it, and
    stars and ratings stay; when it fails, or is not a submission, nothing
    changes.  A call with as many times as songs, or none, is the only kind
    accepted. *)
Theorem scrobble_counts_every_play now owner ids playedAt submission d r d' :
  Scrobble now owner ids playedAt submission d = (r, d') →
  if is_ok r && submission then
    ids ≠ [] ∧ (playedAt = [] ∨ length playedAt = length ids) ∧
    ∀ k, let before := row_of (media_annotations (tables d)) k in
         let after := row_of (media_annotations (tables d')) k in
         an_plays after = an_plays before + plays_of owner ids k ∧
         an_starred after = an_starred before ∧ an_rating after = an_rating before
  else tables d' = tables d.
Proof.
  intros E. destruct r as [x|e]; cbn [is_ok andb]; cycle 1.
  { by rewrite (annotation_call_clean owner (CallScrobble now ids playedAt submission) _ _ _ E). }
  unfold Scrobble, invalidAnnotation in E.
  destruct (bool_decide (ids = [])) eqn:Hids; [done|]. apply bool_decide_eq_false in Hids.
  destruct (negb _ && negb _) eqn:Htimes; [done|].
  assert (playedAt = [] ∨ length playedAt = length ids) as Hlen.
  { apply andb_false_iff in Htimes as [Ht|Ht]; apply negb_false_iff, bool_decide_eq_true in Ht; auto. }
  destruct submission; cbn [negb] in E; inv_ok E; cycle 1; [by eapply resolveRefs_read_only|].
  split_and!; [done|done|].
  assert (tables s = tables d) as T by (by eapply resolveRefs_read_only).
  unfold resolveRefs in Hm. rewrite bool_decide_eq_false_2 in Hm by (by destruct ids).
  apply resolve_songs_Ok in Hm as ->.
  apply store_update_Ok in E as (Hrow & _ & _). rewrite T in Hrow.
  intros k. cbn. rewrite Hrow. apply apply_plays.
  destruct Hlen as [->|Hl].
  - by rewrite bool_decide_eq_true_2, !length_map.
  - case_bool_decide as Hn; [subst; by destruct ids|done].
Qed.
End sqlite.

(** * Witnesses *)

#[local] Existing Instance stable_runtime.
#[local] Existing Instance ascii_unicode.
#[local] Existing Instance sqlAnnotationCatalog.
#[local] Existing Instance sqlAnnotationStore.

(** The two tracks of the queue examples, one of them rated. *)
Definition toy_annotation_db : db :=
  mkDatabase (with_annotations
    (λ _, {[("ann", MediaSong, "t1") := mkAnnotationRow time_zero 4 2 50]}) (tables toy_queue_db)) [].

Lemma toy_annotations_ok : annotations_ok (media_annotations (tables toy_annotation_db)).
Proof. intros k a. cbn. intros [<- <-]%lookup_singleton_Some. split; reflexivity. Qed.

Definition toy_scrobbled : res unit * db :=
  Scrobble 60 "ann" ["t1"; " t2"; "t1"] [] true toy_annotation_db.

Lemma toy_scrobbled_ok :
  Scrobble 60 "ann" ["t1"; " t2"; "t1"] [] true toy_annotation_db = (Ok tt, toy_scrobbled.2).
Proof. vm_compute. reflexivity. Qed.

Lemma annotation_calls_are_valid_and_private_witness :
  annotations_ok (media_annotations (tables toy_scrobbled.2)) ∧
  row_of (media_annotations (tables toy_scrobbled.2)) ("bob", MediaSong, "t1") = empty_annotation.
Proof.
  destruct (annotation_calls_are_valid_and_private "ann" (CallScrobble 60 ["t1"; " t2"; "t1"] [] true)
    toy_annotation_db (Ok tt) toy_scrobbled.2 toy_annotations_ok toy_scrobbled_ok) as (Hok & Hpriv & _).
  split; [exact Hok|]. rewrite Hpriv; [reflexivity|discriminate].
Defined.

Lemma scrobble_counts_every_play_witness :
  an_plays (row_of (media_annotations (tables toy_scrobbled.2)) ("ann", MediaSong, "t1")) = 4 ∧
  an_rating (row_of (media_annotations (tables toy_scrobbled.2)) ("ann", MediaSong, "t1")) = 4.
Proof.
  destruct (scrobble_counts_every_play 60 "ann" ["t1"; " t2"; "t1"] [] true toy_annotation_db (Ok tt)
    toy_scrobbled.2 toy_scrobbled_ok) as (_ & _ & Hk).
  destruct (Hk ("ann", MediaSong, "t1")) as (Hp & _ & Hr). rewrite Hp, Hr. split; reflexivity.
Defined.

(** Annotations are kept under the id the caller used: a star set through an
    older id of a track is not found under the id the track is listed with. *)
Lemma star_through_an_alias_is_not_on_the_track :
  ∃ d, SetStarred 60 "ann" [mkMedia MediaSong "old"] true toy_queue_db = (Ok tt, d) ∧
    option_map ID (match (getTrack "old" d).1 with Ok tr => Some tr | Err _ => None end) = Some "t2" ∧
    an_starred (row_of (media_annotations (tables d)) ("ann", MediaSong, "t2")) = time_zero ∧
    an_starred (row_of (media_annotations (tables d)) ("ann", MediaSong, "old")) = 60.
Proof. eexists. split; [vm_compute; reflexivity|]. split_and!; vm_compute; reflexivity. Qed.
