(* ===== verification/Services.v ===== *)
(** The services that combine providers: transfer limits
    ([core/services/settings.go]), download monitoring ([downloads.go]) and
    streaming ([streaming.go]). *)
From stdpp Require Import base gmap strings list sorting.
From Stdlib Require Import ZArith Lia.
From S2P Require Import Prelude GoStrings GoTime GoHash Sql Music Users MediaCache Library PlayQueues.

Open Scope Z_scope.
Open Scope go_scope.

(** * Transfer limits *)

Record TransferLimits := mkLimits {
  UploadBytesPerSecond : Z;
  DownloadBytesPerSecond : Z;
}.

Class TransferLimitStore (W : Type) := {
  limits_Load : M W TransferLimits;
  limits_Save : TransferLimits → M W unit;
}.

Class TransferLimitController (W : Type) := {
  ctl_Limits : M W TransferLimits;
  ctl_SetLimits : TransferLimits → M W unit;
}.

(** What is saved and what is in force; each interface leaves the other's alone
    and a call that fails changes nothing. *)
Class TransferLimitLaws (W : Type) `{TransferLimitStore W} `{TransferLimitController W} := {
  saved_limits : W → option TransferLimits;
  active_limits : W → TransferLimits;
  law_Load w r w' : limits_Load w = (r, w') →
    saved_limits w' = saved_limits w ∧ active_limits w' = active_limits w ∧
    match r with
    | Ok l => saved_limits w = Some l
    | Err e => errors_Is ErrNotFound e = true → saved_limits w = None
    end;
  law_Save l w r w' : limits_Save l w = (r, w') → active_limits w' = active_limits w ∧
    saved_limits w' = if is_ok r then Some l else saved_limits w;
  law_Limits w r w' : ctl_Limits w = (r, w') →
    saved_limits w' = saved_limits w ∧ active_limits w' = active_limits w ∧
    match r with Ok l => active_limits w = l | Err _ => True end;
  law_SetLimits l w r w' : ctl_SetLimits l w = (r, w') → saved_limits w' = saved_limits w ∧
    active_limits w' = if is_ok r then l else active_limits w;
}.

Section settings.
Context {W : Type} `{TransferLimitLaws W}.

Definition InitializeLimits : M W unit :=
  r ← try limits_Load;
  match r with
  | Err e => if errors_Is ErrNotFound e then mret tt
             else throw (Errorf "load transfer settings: " e "")
  | Ok limits => wrap_err (λ e, Errorf "apply stored transfer settings: " e "") (ctl_SetLimits limits)
  end.

Definition Limits (actor : User) : M W TransferLimits :=
  if negb (HasPermission actor PermissionSourcesManage) then throw (Sentinel ErrForbidden)
  else ctl_Limits.

Definition UpdateLimits (actor : User) (limits : TransferLimits) : M W TransferLimits :=
  if negb (HasPermission actor PermissionSourcesManage) then throw (Sentinel ErrForbidden)
  else if (UploadBytesPerSecond limits <? 0) || (DownloadBytesPerSecond limits <? 0)
  then throw (Errorf "" (Sentinel ErrInvalidSettings) ": transfer limits must be non-negative")
  else
    previous ← wrap_err (λ e, Errorf "read current transfer limits: " e "") ctl_Limits;
    _ ← wrap_err (λ e, Errorf "apply transfer limits: " e "") (ctl_SetLimits limits);
    r ← try (limits_Save limits);
    match r with
    | Err e => _ ← try (ctl_SetLimits previous); throw (Errorf "save transfer limits: " e "")
    | Ok _ => mret limits
    end.

Lemma UpdateLimits_Ok actor limits w l w' :
  UpdateLimits actor limits w = (Ok l, w') →
  l = limits ∧ HasPermission actor PermissionSourcesManage = true ∧
  0 ≤ UploadBytesPerSecond limits ∧ 0 ≤ DownloadBytesPerSecond limits ∧
  active_limits w' = limits ∧ saved_limits w' = Some limits.
Proof.
  unfold UpdateLimits. destruct (HasPermission actor PermissionSourcesManage); cbn [negb]; [|done].
  destruct (_ || _) eqn:Hneg; [done|]. apply orb_false_iff in Hneg as [Hu Hd].
  unfold mbind, M_bind, wrap_err, try, throw, mret, M_ret.
  destruct ctl_Limits as [[previous|e] w1] eqn:E1; [|done].
  destruct (ctl_SetLimits limits w1) as [[u|e] w2] eqn:E2; apply law_SetLimits in E2 as [S2 A2]; [|done].
  destruct (limits_Save limits w2) as [[v|e] w3] eqn:E3; apply law_Save in E3 as [A3 S3]; cbn in A2, S3.
  - intros [= <- <-]. split_and!; [done|done|lia|lia|congruence|done].
  - by destruct (ctl_SetLimits previous w3).
Qed.

(** C29. [UpdateLimits] keeps what is in force and what is saved together.  When
    it succeeds, the actor may manage sources, the limits are not negative, and
    both are the new limits; when it fails, the saved limits are unchanged, and
    so are the limits in force unless taking them back failed as well. *)
Theorem update_limits_keeps_force_and_store_together actor limits w r w' :
  UpdateLimits actor limits w = (r, w') →
  match r with
  | Ok l => l = limits ∧ HasPermission actor PermissionSourcesManage = true ∧
            0 ≤ UploadBytesPerSecond limits ∧ 0 ≤ DownloadBytesPerSecond limits ∧
            active_limits w' = limits ∧ saved_limits w' = Some limits
  | Err _ => saved_limits w' = saved_limits w ∧
             (active_limits w' = active_limits w ∨
              ∃ w1 e w2, ctl_SetLimits (active_limits w) w1 = (Err e, w2))
  end.
Proof.
  destruct r as [l|e]; [apply UpdateLimits_Ok|]. unfold UpdateLimits.
  destruct (negb _); [intros [= <- <-]; auto|]. destruct (_ || _); [intros [= <- <-]; auto|].
  unfold mbind, M_bind, wrap_err, try, throw, mret, M_ret.
  destruct ctl_Limits as [[previous|e1] w1] eqn:E1; apply law_Limits in E1 as (S1 & A1 & P1);
    [|intros [= <- <-]; auto].
  destruct (ctl_SetLimits limits w1) as [[u|e2] w2] eqn:E2; apply law_SetLimits in E2 as [S2 A2];
    cbn in A2; [|intros [= <- <-]; split; [congruence|left; congruence]].
  destruct (limits_Save limits w2) as [[v|e3] w3] eqn:E3; apply law_Save in E3 as [A3 S3]; cbn in S3; [done|].
  destruct (ctl_SetLimits previous w3) as [r4 w4] eqn:E4. intros [= <- <-].
  pose proof (law_SetLimits _ _ _ _ E4) as [S4 A4]. split; [congruence|]. destruct r4 as [x|x]; cbn in A4.
  - left. congruence.
  - right. rewrite P1. eauto.
Qed.
End settings.

(** A saved value and the one in force. *)
Definition limits_world : Type := option TransferLimits * TransferLimits.

#[local] Instance limits_world_store : TransferLimitStore limits_world := {|
  limits_Load w := (match w.1 with Some l => Ok l | None => Err (Sentinel ErrNotFound) end, w);
  limits_Save l w := (Ok tt, (Some l, w.2));
|}.

#[local] Instance limits_world_controller : TransferLimitController limits_world := {|
  ctl_Limits w := (Ok w.2, w);
  ctl_SetLimits l w := (Ok tt, (w.1, l));
|}.

#[local] Instance limits_world_laws : TransferLimitLaws limits_world.
Proof.
  refine {| saved_limits w := w.1; active_limits w := w.2 |}.
  - intros w r w' [= <- <-]. by destruct (w.1).
  - intros l w r w' [= <- <-]. done.
  - intros w r w' [= <- <-]. done.
  - intros l w r w' [= <- <-]. done.
Defined.

Definition sources_manager : User := mkUser "ann" UserRoleUser [PermissionSourcesManage] 0 0.

Lemma update_limits_keeps_force_and_store_together_witness :
  let w' : limits_world := (Some (mkLimits 10 20), mkLimits 10 20) in
  active_limits w' = mkLimits 10 20 ∧ saved_limits w' = Some (mkLimits 10 20).
Proof.
  cbv zeta.
  destruct (update_limits_keeps_force_and_store_together sources_manager (mkLimits 10 20)
    (None, mkLimits 1 2) (Ok (mkLimits 10 20)) (Some (mkLimits 10 20), mkLimits 10 20))
    as (_ & _ & _ & _ & Ha & Hs); [reflexivity|]. split; [exact Ha|exact Hs].
Defined.

(** * Download monitoring *)

Record TrackDownload := mkDownload {
  dl_ID : string;
  dl_Provider : string;
  dl_SourceID : string;
  dl_TrackID : string;
  dl_Name : string;
  dl_State : string;
  CompletedBytes : Z;
  TotalBytes : Z;
  dl_Error : string;
  StartedAt : time;
  UpdatedAt : time;
}.

(** The fields a job changes, and its states. *)
Definition with_progress (completedBytes totalBytes : Z) (now : time) (d : TrackDownload) : TrackDownload :=
  mkDownload (dl_ID d) (dl_Provider d) (dl_SourceID d) (dl_TrackID d) (dl_Name d) (dl_State d)
    completedBytes totalBytes (dl_Error d) (StartedAt d) now.

Definition with_state (state err : string) (d : TrackDownload) : TrackDownload :=
  mkDownload (dl_ID d) (dl_Provider d) (dl_SourceID d) (dl_TrackID d) (dl_Name d) state
    (CompletedBytes d) (TotalBytes d) err (StartedAt d) (UpdatedAt d).

Definition with_track_id (trackID : string) (d : TrackDownload) : TrackDownload :=
  mkDownload (dl_ID d) (dl_Provider d) (dl_SourceID d) trackID (dl_Name d) (dl_State d)
    (CompletedBytes d) (TotalBytes d) (dl_Error d) (StartedAt d) (UpdatedAt d).

Definition with_started (started : time) (d : TrackDownload) : TrackDownload :=
  mkDownload (dl_ID d) (dl_Provider d) (dl_SourceID d) (dl_TrackID d) (dl_Name d) (dl_State d)
    (CompletedBytes d) (TotalBytes d) (dl_Error d) started (UpdatedAt d).

Definition touched (now : time) (d : TrackDownload) : TrackDownload :=
  with_progress (CompletedBytes d) (TotalBytes d) now d.

Definition StateWaiting : string := "waiting".
Definition StateQueued : string := "queued".
Definition StateDownloading : string := "downloading".
Definition StateCached : string := "cached".
Definition StateFailed : string := "failed".
Definition StateCancelled : string := "cancelled".
Definition StateEvicted : string := "evicted".

(** A [TrackDownloadMonitor], which may be a [TrackDownloadController] too. *)
Record monitor (W : Type) := mkMonitor {
  mon_Downloads : M W (list TrackDownload);
  mon_Cancel : option (string → M W unit);
  mon_Retry : option (string → M W unit);
}.
Arguments mkMonitor {_} _ _ _.
Arguments mon_Downloads {_} _.
Arguments mon_Cancel {_} _.
Arguments mon_Retry {_} _.

(** Newest first, then by name. *)
Definition download_less (x y : TrackDownload) : bool :=
  if StartedAt x =? StartedAt y then str_ltb (dl_Name x) (dl_Name y) else StartedAt y <? StartedAt x.

Section downloads.
Context {W : Type} `{Runtime} (monitors : list (monitor W)).

Definition TrackDownloads : M W (list TrackDownload) :=
  items ← mmap (λ m, wrap_err (λ e, Errorf "read provider track downloads: " e "") (mon_Downloads m))
            monitors;
  mret (sort_slice download_less (concat items)).

(** [change]: the first controller that does not answer [ErrNotFound]. *)
Fixpoint change (operation : monitor W → option (M W unit)) (l : list (monitor W)) : M W unit :=
  match l with
  | [] => throw (Sentinel ErrNotFound)
  | m :: rest =>
      match operation m with
      | None => change operation rest
      | Some op =>
          r ← try op;
          match r with
          | Ok _ => mret tt
          | Err e => if negb (errors_Is ErrNotFound e) then throw e else change operation rest
          end
      end
  end.

Definition CancelTrackDownload (id : string) : M W unit :=
  change (λ m, option_map (λ f, f id) (mon_Cancel m)) monitors.

Definition RetryTrackDownload (id : string) : M W unit :=
  change (λ m, option_map (λ f, f id) (mon_Retry m)) monitors.
End downloads.

(** A monitor that disowns an operation: it cannot do it, or answers
    [ErrNotFound] and changes nothing. *)
Definition disowns {W} (operation : monitor W → option (M W unit)) (w : W) (m : monitor W) : Prop :=
  match operation m with
  | None => True
  | Some op => ∃ e, op w = (Err e, w) ∧ errors_Is ErrNotFound e = true
  end.

Lemma change_skips {W} (operation : monitor W → option (M W unit)) l k w :
  Forall (disowns operation w) l → change operation (l ++ k) w = change operation k w.
Proof.
  induction 1 as [|m l Hm Hl IH]; [done|]. cbn [app change]. unfold disowns in Hm.
  destruct (operation m) as [op|]; [|done]. destruct Hm as (e & He & Hn).
  unfold mbind, M_bind, try. by rewrite He, Hn.
Qed.

Lemma download_strict_weak : strict_weak download_less.
Proof.
  pose proof strict_weak_str as Hw. unfold download_less. split.
  - intros x. rewrite Z.eqb_refl. apply (sw_irrefl _ Hw).
  - intros x y z Hxy Hyz. destruct (StartedAt x =? StartedAt y) eqn:E1, (StartedAt y =? StartedAt z) eqn:E2.
    + assert (StartedAt x =? StartedAt z = true) as -> by lia. by eapply (sw_trans _ Hw).
    + assert (StartedAt x =? StartedAt z = false) as -> by lia. lia.
    + assert (StartedAt x =? StartedAt z = false) as -> by lia. lia.
    + assert (StartedAt x =? StartedAt z = false) as -> by lia. lia.
  - intros x y z Hyx Hzy. destruct (StartedAt y =? StartedAt x) eqn:E1, (StartedAt z =? StartedAt y) eqn:E2.
    + assert (StartedAt z =? StartedAt x = true) as -> by lia. by eapply (sw_negtrans _ Hw).
    + assert (StartedAt z =? StartedAt x = false) as -> by lia. lia.
    + assert (StartedAt z =? StartedAt x = false) as -> by lia. lia.
    + assert (StartedAt z =? StartedAt x = false) as -> by lia. lia.
Qed.

(** A download is cancelled or retried by the provider that owns it: when
    the providers before it disown the id without touching anything, the
    outcome and the effect are exactly the owner's; when all disown it the call
    reports [ErrNotFound] and changes nothing. *)
Theorem change_reaches_the_owner {W} (operation : monitor W → option (M W unit)) before owner after op w :
  Forall (disowns operation w) before →
  operation owner = Some op →
  change operation before w = (Err (Sentinel ErrNotFound), w) ∧
  (∀ r w', op w = (r, w') → match r with Err e => errors_Is ErrNotFound e = false | Ok _ => True end →
     change operation (before ++ owner :: after) w = (match r with Ok _ => Ok tt | Err e => Err e end, w')).
Proof.
  intros Hb Hop. split.
  - rewrite <- (app_nil_r before), change_skips by done. done.
  - intros r w' E Hr. rewrite change_skips by done. cbn [change]. rewrite Hop.
    unfold mbind, M_bind, try. rewrite E. destruct r as [u|e]; [done|]. by rewrite Hr.
Qed.

Definition toy_monitor (id : string) : monitor (list string) :=
  mkMonitor (λ w, (Ok [], w))
    (Some (λ x w, if bool_decide (x = id) then (Ok tt, x :: w) else (Err (Sentinel ErrNotFound), w))) None.

Lemma change_reaches_the_owner_witness :
  CancelTrackDownload [toy_monitor "a"; mkMonitor (λ w, (Ok [], w)) None None; toy_monitor "b"] "b" [] =
  (Ok tt, ["b"]).
Proof.
  destruct (change_reaches_the_owner (λ m, option_map (λ f, f "b") (mon_Cancel m))
    [toy_monitor "a"; mkMonitor (λ w, (Ok [], w)) None None] (toy_monitor "b") []
    (λ w, (Ok tt, "b" :: w)) []) as [_ Hrun].
  - constructor; [eexists; split; reflexivity|]. constructor; [exact I|constructor].
  - reflexivity.
  - exact (Hrun (Ok tt) ["b"] eq_refl I).
Defined.

(** * Streaming *)

(** The content is what reading the source to its end gives. *)
Record ResolvedSource := mkResolved {
  res_Content : bytes;
  res_Name : string;
  res_ContentType : string;
  res_Size : Z;
  res_ModTime : time;
  res_Revision : string;
}.

Definition with_revision (s : ResolvedSource) (revision : string) : ResolvedSource :=
  mkResolved (res_Content s) (res_Name s) (res_ContentType s) (res_Size s) (res_ModTime s) revision.

Section streaming.
Context {W : Type} `{TrackFinder W}.
(** [ports.Catalog.Sources]. *)
Context (cat_Sources : string → M W (list SourceRef)).
(** The registered providers, in the order of registration: name and [Resolve]. *)
Context (providers : list (string * (string → SourceRef → M W ResolvedSource))).
(** [ctx.Err()]. *)
Context (ctx_err : W → option error).

(** [registry]: the last registration of a name wins. *)
Definition find_provider (name : string) : option (string → SourceRef → M W ResolvedSource) :=
  snd <$> last (List.filter (λ p : string * _, bool_decide (p.1 = name)) providers).

(** [order]: the index of a name among the distinct names. *)
Fixpoint distinct_names (seen : list string) (l : list (string * (string → SourceRef → M W ResolvedSource)))
    : list string :=
  match l with
  | [] => seen
  | p :: l' => distinct_names (if bool_decide (p.1 ∈ seen) then seen else seen ++ [p.1]) l'
  end.

Definition providerOrder (name : string) : Z :=
  let names := distinct_names [] providers in
  match list_find (eq name) names with
  | Some (i, _) => Z.of_nat i
  | None => Z.of_nat (length names)
  end.

Fixpoint resolve_loop (trackID : string) (sources : list SourceRef) (errs : list error)
    : M W ResolvedSource :=
  match sources with
  | [] => throw (Errorf ("resolve track " +:+ trackID +:+ " from all sources: ") (Joined errs) "")
  | source :: rest =>
      match find_provider (Provider source) with
      | None => resolve_loop trackID rest
          (errs ++ [Plain ("source provider " +:+ Provider source +:+ " is not registered")])
      | Some resolve =>
          r ← try (resolve trackID source);
          match r with
          | Ok stream =>
              mret (if bool_decide (res_Revision stream = "")
                    then with_revision stream (StableID "source" [Provider source; SourceKey source])
                    else stream)
          | Err e =>
              cancelled ← gets ctx_err;
              match cancelled with
              | Some c => throw (Errorf ("resolve track " +:+ trackID +:+ ": ") c "")
              | None => resolve_loop trackID rest
                          (errs ++ [Errorf ("resolve " +:+ Provider source +:+ " source: ") e ""])
              end
          end
      end
  end.

Definition source_order (sources : list SourceRef) : list SourceRef :=
  sort_stable (λ x y, providerOrder (Provider x) <? providerOrder (Provider y)) sources.

Definition OpenStream (trackID : string) : M W ResolvedSource :=
  track ← wrap_err (λ e, Errorf ("find track " +:+ trackID +:+ ": ") e "") (find_Track trackID);
  sources ← wrap_err (λ e, Errorf ("find sources for track " +:+ trackID +:+ ": ") e "")
    (cat_Sources (ID track));
  resolve_loop (ID track) (source_order sources) [].

(** A source that cannot be resolved in a state, and the state it leaves. *)
Inductive unresolved (trackID : string) : W → list SourceRef → W → Prop :=
  | unresolved_nil w : unresolved trackID w [] w
  | unresolved_unknown w s l w' :
      find_provider (Provider s) = None → unresolved trackID w l w' → unresolved trackID w (s :: l) w'
  | unresolved_failed w s l resolve e w1 w' :
      find_provider (Provider s) = Some resolve → resolve trackID s w = (Err e, w1) →
      ctx_err w1 = None → unresolved trackID w1 l w' → unresolved trackID w (s :: l) w'.

Lemma resolve_loop_Ok trackID sources errs w stream w' :
  resolve_loop trackID sources errs w = (Ok stream, w') →
  ∃ before s after resolve w1 found, sources = before ++ s :: after ∧
    unresolved trackID w before w1 ∧ find_provider (Provider s) = Some resolve ∧
    resolve trackID s w1 = (Ok found, w') ∧
    stream = with_revision found (res_Revision stream) ∧ res_Revision stream ≠ "".
Proof.
  revert errs w. induction sources as [|s l IH]; intros errs w; cbn [resolve_loop]; [done|].
  destruct (find_provider (Provider s)) as [resolve|] eqn:Hp.
  - unfold mbind, M_bind, try, gets. destruct (resolve trackID s w) as [[found|e] w1] eqn:Er.
    + intros [= <- <-]. exists [], s, l, resolve, w, found. split_and!; try done; [constructor|..];
        destruct (bool_decide (res_Revision found = "")) eqn:Hr; cbn; try done.
      1: by destruct found. by apply bool_decide_eq_false in Hr.
    + destruct (ctx_err w1) eqn:Hc; [done|]. intros E.
      apply IH in E as (before & s' & after & res' & w2 & found & -> & Hu & ? & ? & ? & ?).
      exists (s :: before), s', after, res', w2, found. split_and!; try done.
      by eapply unresolved_failed.
  - intros E. apply IH in E as (before & s' & after & res' & w2 & found & -> & Hu & ? & ? & ? & ?).
    exists (s :: before), s', after, res', w2, found. split_and!; try done. by apply unresolved_unknown.
Qed.

Lemma resolve_loop_Err trackID sources errs w e w' :
  resolve_loop trackID sources errs w = (Err e, w') →
  unresolved trackID w sources w' ∨ ∃ c, ctx_err w' = Some c.
Proof.
  revert errs w. induction sources as [|s l IH]; intros errs w; cbn [resolve_loop].
  { intros [= _ <-]. left. constructor. }
  destruct (find_provider (Provider s)) as [resolve|] eqn:Hp.
  - unfold mbind, M_bind, try, gets. destruct (resolve trackID s w) as [[found|x] w1] eqn:Er; [done|].
    destruct (ctx_err w1) eqn:Hc; [intros [= _ <-]; right; eauto|]. intros E.
    apply IH in E as [Hu|?]; [left; by eapply unresolved_failed|by right].
  - intros E. apply IH in E as [Hu|?]; [left; by apply unresolved_unknown|by right].
Qed.

(** Streaming takes the first source that works.  The sources are tried in
    the order their providers were registered, the catalog's order within a
    provider, unregistered ones last.  When the stream opens, it is what some
    source resolved to and every source before it failed; when it
    does not, the track or its sources could not be read, every source
    failed, or the call was cancelled; and a stream always has a revision. *)
Theorem streaming_takes_the_first_working_source trackID w r w' :
  OpenStream trackID w = (r, w') →
  (∀ sources, source_order sources ≡ₚ sources ∧
     sorted_by (λ x y, providerOrder (Provider x) <? providerOrder (Provider y)) (source_order sources)) ∧
  match r with
  | Ok stream =>
      ∃ track w1 sources w2 before s after resolve w3 found,
        find_Track trackID w = (Ok track, w1) ∧ cat_Sources (ID track) w1 = (Ok sources, w2) ∧
        source_order sources = before ++ s :: after ∧ unresolved (ID track) w2 before w3 ∧
        find_provider (Provider s) = Some resolve ∧ resolve (ID track) s w3 = (Ok found, w') ∧
        stream = with_revision found (res_Revision stream) ∧ res_Revision stream ≠ ""
  | Err _ =>
      (∃ e, find_Track trackID w = (Err e, w')) ∨
      (∃ track w1 e, find_Track trackID w = (Ok track, w1) ∧ cat_Sources (ID track) w1 = (Err e, w')) ∨
      (∃ track w1 sources w2, find_Track trackID w = (Ok track, w1) ∧
         cat_Sources (ID track) w1 = (Ok sources, w2) ∧
         (unresolved (ID track) w2 (source_order sources) w' ∨ ∃ c, ctx_err w' = Some c))
  end.
Proof.
  intros E. split.
  { intros sources. split; [apply sort_stable_perm|]. apply sort_stable_sorted.
    apply (strict_weak_key (λ x, providerOrder (Provider x))). }
  unfold OpenStream, mbind at 1, M_bind at 1, wrap_err at 1 in E.
  destruct (find_Track trackID w) as [[track|e] w1] eqn:E1; [|injection E as <- <-; eauto].
  unfold mbind, M_bind, wrap_err in E.
  destruct (cat_Sources (ID track) w1) as [[sources|e] w2] eqn:E2; [|injection E as <- <-; eauto 8].
  destruct r as [stream|e].
  - apply resolve_loop_Ok in E as (before & s & after & resolve & w3 & found & ? & ? & ? & ? & ? & ?).
    by exists track, w1, sources, w2, before, s, after, resolve, w3, found.
  - apply resolve_loop_Err in E. right; right. by exists track, w1, sources, w2.
Qed.
End streaming.

(** Two providers, of which the first cannot read. *)
#[local] Instance toy_finder : TrackFinder unit :=
  λ id w, (Ok (mkTrack id id "A" "a" "B" "b" "A" "a" 1 1 1970 "" 0 0 0 "flac" "audio/flac" ""), w).

Definition toy_providers : list (string * (string → SourceRef → M unit ResolvedSource)) :=
  [("local", λ _ _ w, (Err (Plain "no such file"), w));
   ("torrent", λ _ s w, (Ok (mkResolved [1; 2; 3] "b.flac" "audio/flac" 3 0 (SourceKey s)), w))].

Definition toy_Sources (id : string) : M unit (list SourceRef) :=
  λ w, (Ok [mkRef "torrent" "h/1"; mkRef "gone" "x"; mkRef "local" "a.flac"], w).

Lemma streaming_takes_the_first_working_source_witness :
  ∃ before s after, source_order toy_providers
    [mkRef "torrent" "h/1"; mkRef "gone" "x"; mkRef "local" "a.flac"] = before ++ s :: after ∧
    unresolved toy_providers (λ _, None) "t1" tt before tt.
Proof.
  destruct (streaming_takes_the_first_working_source toy_Sources toy_providers (λ _, None) "t1" tt
    (Ok (mkResolved [1; 2; 3] "b.flac" "audio/flac" 3 0 "h/1")) tt) as [_ Hok]; [vm_compute; reflexivity|].
  destruct Hok as (tr & w1 & srcs & w2 & before & s & after & resolve & w3 & found & Ht & Hs & Ho & Hu & _).
  injection Ht as <- <-. injection Hs as <- <-. destruct w3. exists before, s, after. split; [exact Ho|exact Hu].
Defined.
