(* ===== verification/LibraryCache.v ===== *)
(** Combined cache accounting ([core/services/cache_status.go]) and the
    prefetching and pinning of library tracks ([core/services/library_cache.go]). *)
From stdpp Require Import base gmap strings list sorting relations.
From Stdlib Require Import ZArith Lia Ascii.
From S2P Require Import Prelude GoStrings GoTime Sql Music MediaCache Library PlayQueues.

Open Scope Z_scope.
Open Scope go_scope.

(** * Cache status *)

(** A [cacheUsageSource], which may be a [cacheEvictor] too. *)
Record cache_source (W : Type) := mkCacheSource {
  src_Usage : M W CacheUsage;
  src_Evict : option (Z → M W Z);
}.
Arguments mkCacheSource {_} _ _.
Arguments src_Usage {_} _.
Arguments src_Evict {_} _.

Section status.
Context {W : Type} (primary : M W CacheStats) (sources : list (cache_source W)).

Fixpoint usage_loop (l : list (cache_source W)) (stats : CacheStats) : M W CacheStats :=
  match l with
  | [] => mret stats
  | s :: rest =>
      usage ← wrap_err (λ e, Errorf "read provider cache usage: " e "") (src_Usage s);
      usage_loop rest (mkStats (Capacity stats) (Entries stats +% usage_Entries usage)
        (stats_Size stats +% usage_Size usage) (PinnedEntries stats) (PinnedSize stats)
        (Components stats ++ [usage]))
  end.

Definition StatusStats : M W CacheStats :=
  stats ← wrap_err (λ e, Errorf "read shared media cache usage: " e "") primary;
  usage_loop sources stats.

Fixpoint evict_loop (l : list (cache_source W)) (remaining : Z) : M W unit :=
  match l with
  | [] => mret tt
  | s :: rest =>
      match src_Evict s with
      | None => evict_loop rest remaining
      | Some evict =>
          freed ← wrap_err (λ e, Errorf "evict provider cache data: " e "") (evict remaining);
          let remaining := remaining -% freed in
          if remaining <=? 0 then mret tt else evict_loop rest remaining
      end
  end.

Definition StatusPrune : M W unit :=
  stats ← StatusStats;
  let remaining := stats_Size stats -% Capacity stats in
  if remaining <=? 0 then mret tt else evict_loop sources remaining.
End status.

(** * Pinning *)

(** [ports.TrackPinStore] and [ports.SourceManager.PinSource]. *)
Class PinStore (W : Type) := {
  pin_Set : string → bool → M W unit;
  pin_All : M W (list string);
}.

Class SourcePinner (W : Type) := pin_Source : string → bool → M W unit.

(** [pinned], [released] and [sources_of] are what the pin store, the torrent
    provider and the catalog hold; a call changes only its own part. *)
Class PinLaws (W : Type) `{PinStore W} `{SourcePinner W} `{TrackFinder W}
    (cat_Sources : string → M W (list SourceRef)) := {
  pinned : W → gset string;
  torrent_pins : W → gmap string bool;
  sources_of : W → string → list SourceRef;
  law_Track id w r w' : find_Track id w = (r, w') →
    pinned w' = pinned w ∧ torrent_pins w' = torrent_pins w ∧ sources_of w' = sources_of w;
  law_Sources id w r w' : cat_Sources id w = (r, w') →
    pinned w' = pinned w ∧ torrent_pins w' = torrent_pins w ∧ sources_of w' = sources_of w ∧
    match r with
    | Ok l => l = sources_of w id
    | Err e => errors_Is ErrNotFound e = true → sources_of w id = []
    end;
  law_pin_Set id b w r w' : pin_Set id b w = (r, w') →
    torrent_pins w' = torrent_pins w ∧ sources_of w' = sources_of w ∧
    pinned w' = if is_ok r then (if b : bool then {[id]} ∪ pinned w else pinned w ∖ {[id]}) else pinned w;
  law_pin_All w r w' : pin_All w = (r, w') →
    pinned w' = pinned w ∧ torrent_pins w' = torrent_pins w ∧ sources_of w' = sources_of w ∧
    match r with Ok l => ∀ x, x ∈ l ↔ x ∈ pinned w | Err _ => True end;
  law_pin_Source h b w r w' : pin_Source h b w = (r, w') →
    pinned w' = pinned w ∧ sources_of w' = sources_of w ∧
    match r with
    | Ok _ => torrent_pins w' = <[h := b]> (torrent_pins w)
    | Err e => torrent_pins w' = torrent_pins w ∧
               (errors_Is ErrNotFound e = true → torrent_pins w !! h = None)
    end;
}.

Section pinning.
Context {W : Type} `{PinStore W} `{SourcePinner W} `{TrackFinder W}.
Context (cat_Sources : string → M W (list SourceRef)).

Definition is_torrent_of (infoHash : string) (source : SourceRef) : bool :=
  bool_decide (Provider source = "torrent") && HasPrefix (SourceKey source) (infoHash +:+ "/").

(** The loop of [torrentHasPinnedTrack]: sources that cannot be read are skipped. *)
Fixpoint has_pinned_loop (infoHash : string) (ids : list string) : M W bool :=
  match ids with
  | [] => mret false
  | id :: rest =>
      r ← try (cat_Sources id);
      match r with
      | Err _ => has_pinned_loop infoHash rest
      | Ok sources =>
          if existsb (is_torrent_of infoHash) sources then mret true else has_pinned_loop infoHash rest
      end
  end.

Definition torrentHasPinnedTrack (infoHash : string) : M W bool :=
  trackIDs ← pin_All;
  has_pinned_loop infoHash trackIDs.

(** [strings.Cut(source.Key, "/")] of a torrent source with an info hash. *)
Definition torrent_hash (source : SourceRef) : option string :=
  if negb (bool_decide (Provider source = "torrent")) then None
  else
    match Cut (SourceKey source) "/" with
    | Some (infoHash, _) => if bool_decide (infoHash = "") then None else Some infoHash
    | None => None
    end.

Fixpoint pin_loop (pinned : bool) (sources : list SourceRef) : M W unit :=
  match sources with
  | [] => mret tt
  | source :: rest =>
      match torrent_hash source with
      | None => pin_loop pinned rest
      | Some infoHash =>
          keepPinned ← (if pinned then mret true else torrentHasPinnedTrack infoHash);
          r ← try (pin_Source infoHash keepPinned);
          match r with
          | Err e => if negb (errors_Is ErrNotFound e) then throw (Errorf "pin torrent source: " e "")
                     else pin_loop pinned rest
          | Ok _ => pin_loop pinned rest
          end
      end
  end.

(** [managed]: whether there is a [SourceManager]. *)
Definition SetLibraryTrackPinned (managed : bool) (trackID : string) (pinned : bool) : M W unit :=
  track ← find_Track trackID;
  _ ← pin_Set (ID track) pinned;
  if negb managed then mret tt
  else
    sources ← cat_Sources (ID track);
    pin_loop pinned sources.

(** [tracks_of]: [ports.Catalog.TracksByAlbum]; [start]: [queue] above the
    shared state. *)
Definition PrefetchTrack (start : string → M W unit) (managed : bool) (trackID : string) (pinned : bool)
    : M W unit :=
  track ← find_Track trackID;
  _ ← (if pinned then SetLibraryTrackPinned managed (ID track) true else mret tt);
  start (ID track).

Fixpoint prefetch_all (start : string → M W unit) (managed pinned : bool) (tracks : list Track) : M W unit :=
  match tracks with
  | [] => mret tt
  | track :: rest =>
      _ ← (if pinned then SetLibraryTrackPinned managed (ID track) true else mret tt);
      _ ← start (ID track);
      prefetch_all start managed pinned rest
  end.

Definition PrefetchAlbum (start : string → M W unit) (tracks_of : string → M W (list Track))
    (managed : bool) (albumID : string) (pinned : bool) : M W Z :=
  tracks ← tracks_of albumID;
  if bool_decide (length tracks = 0%nat) then throw (Sentinel ErrNotFound)
  else
    _ ← prefetch_all start managed pinned tracks;
    mret (Z.of_nat (length tracks)).

Context `{!PinLaws W cat_Sources}.

(** Some pinned track plays from the torrent. *)
Definition torrent_needed (w : W) (h : string) : Prop :=
  ∃ id s, id ∈ pinned w ∧ s ∈ sources_of w id ∧ torrent_hash s = Some h.

(** No torrent a pinned track plays from may be evicted. *)
Definition torrents_kept (w : W) : Prop := ∀ h, torrent_needed w h → torrent_pins w !! h ≠ Some false.

(** What one run of the pin loop leaves alone. *)
Definition pins_frame (w w' : W) : Prop := pinned w' = pinned w ∧ sources_of w' = sources_of w.

Lemma has_pinned_loop_run h ids w r w' :
  has_pinned_loop h ids w = (r, w') →
  pinned w' = pinned w ∧ torrent_pins w' = torrent_pins w ∧ sources_of w' = sources_of w ∧
  match r with
  | Ok b => (b = true → ∃ id s, id ∈ ids ∧ s ∈ sources_of w id ∧ is_torrent_of h s = true)
  | Err _ => False
  end.
Proof.
  revert w. induction ids as [|id ids IH]; intros w; cbn [has_pinned_loop]; [by intros [= <- <-]|].
  unfold mbind, M_bind, try. destruct (cat_Sources id w) as [[l|e] w1] eqn:E1;
    apply law_Sources in E1 as (P1 & T1 & S1 & R1).
  - destruct (existsb (is_torrent_of h) l) eqn:Hex.
    + intros [= <- <-]. split_and!; [done..|]. intros _. apply existsb_exists in Hex as (s & Hs & Hh).
      exists id, s. split_and!; [by left| |done]. rewrite <- R1. by apply list_elem_of_In.
    + intros E. apply IH in E as (P2 & T2 & S2 & R2). split_and!; try congruence.
      destruct r as [b|e]; [|done]. intros Hb. destruct (R2 Hb) as (id' & s & Hi & Hs & Hh).
      exists id', s. split_and!; [by right| |done]. by rewrite <- S1.
  - intros E. apply IH in E as (P2 & T2 & S2 & R2). split_and!; try congruence.
    destruct r as [b|x]; [|done]. intros Hb. destruct (R2 Hb) as (id' & s & Hi & Hs & Hh).
    exists id', s. split_and!; [by right| |done]. by rewrite <- S1.
Qed.

Lemma torrent_hash_prefix h s : torrent_hash s = Some h → is_torrent_of h s = true.
Proof.
  unfold torrent_hash, is_torrent_of. case_bool_decide; [|done]. cbn [negb andb].
  destruct (Cut (SourceKey s) "/") as [[a b]|] eqn:E; [|done]. case_bool_decide; [done|].
  intros [= <-]. apply Cut_Some in E as ->. rewrite str_app_assoc. apply HasPrefix_app.
Qed.

Lemma no_torrent_of_hash h s : is_torrent_of h s = false → torrent_hash s ≠ Some h.
Proof. intros Hn Hs. apply torrent_hash_prefix in Hs. congruence. Qed.

(** One call of the catalog, of the pins or of the source manager. *)
Inductive call_step : W → W → Prop :=
  | call_Track id w r w' : find_Track id w = (r, w') → call_step w w'
  | call_Sources id w r w' : cat_Sources id w = (r, w') → call_step w w'
  | call_Set id b w r w' : pin_Set id b w = (r, w') → call_step w w'
  | call_All w r w' : pin_All w = (r, w') → call_step w w'
  | call_PinSource h b w r w' : pin_Source h b w = (r, w') → call_step w w'.

(** On the way from [w] to [w'] the catalog fails to list the sources of a
    track that is there. *)
Definition read_fails (w w' : W) (id : string) : Prop :=
  ∃ w1 e w2, rtc call_step w w1 ∧ cat_Sources id w1 = (Err e, w2) ∧ errors_Is ErrNotFound e = false ∧ rtc call_step w2 w'.

Lemma read_fails_path w0 w w' w'' id :
  rtc call_step w0 w → read_fails w w' id → rtc call_step w' w'' → read_fails w0 w'' id.
Proof. intros Ha (w1 & e & w2 & Hb & E & He & Hc) Hd. exists w1, e, w2. split_and!; [by etrans|done|done|by etrans]. Qed.

Lemma has_pinned_loop_path h ids w r w' : has_pinned_loop h ids w = (r, w') → rtc call_step w w'.
Proof.
  revert w. induction ids as [|id ids IH]; intros w; cbn [has_pinned_loop]; [by intros [= _ <-]|].
  unfold mbind, M_bind, try. destruct (cat_Sources id w) as [[l|e] w1] eqn:E1; intros E; (eapply rtc_l; [by eapply call_Sources|]).
  - destruct (existsb (is_torrent_of h) l); [by injection E as _ <-|by apply IH in E].
  - by apply IH in E.
Qed.

(** A torrent that is no pinned track's, for all that could be read. *)
Lemma has_pinned_loop_false h ids w w' :
  has_pinned_loop h ids w = (Ok false, w') →
  ∀ id s, id ∈ ids → s ∈ sources_of w id → torrent_hash s = Some h → read_fails w w' id.
Proof.
  revert w. induction ids as [|id ids IH]; intros w; cbn [has_pinned_loop]; [intros _ ? ? ?%elem_of_nil; done|].
  unfold mbind, M_bind, try. destruct (cat_Sources id w) as [[l|e] w1] eqn:E1;
    pose proof (law_Sources _ _ _ _ E1) as (P1 & T1 & S1 & R1).
  - destruct (existsb (is_torrent_of h) l) eqn:Hex; [done|]. intros E id' s [->|Hid]%elem_of_cons Hs Hh.
    + exfalso. apply torrent_hash_prefix in Hh. apply not_true_iff_false in Hex. apply Hex, existsb_exists. exists s.
      split; [apply list_elem_of_In; by subst l|done].
    + apply (read_fails_path w w1 w' w'); [apply rtc_once; by eapply call_Sources| |done]. eapply IH; [done..| |done]. by rewrite S1.
  - intros E id' s [->|Hid]%elem_of_cons Hs Hh.
    + destruct (errors_Is ErrNotFound e) eqn:He; [rewrite (R1 eq_refl) in Hs; by apply elem_of_nil in Hs|].
      exists w, e, w1. split_and!; [done|done|done|by eapply has_pinned_loop_path].
    + apply (read_fails_path w w1 w' w'); [apply rtc_once; by eapply call_Sources| |done]. eapply IH; [done..| |done]. by rewrite S1.
Qed.

(** A pinned track plays from the torrent. *)
Definition needed_by (w : W) (h id : string) : Prop :=
  id ∈ pinned w ∧ ∃ s, s ∈ sources_of w id ∧ torrent_hash s = Some h.

Lemma needed_by_frame w w' h id : pins_frame w w' → needed_by w' h id ↔ needed_by w h id.
Proof. intros [Hp Hs]. unfold needed_by. by rewrite Hp, Hs. Qed.

Lemma torrentHasPinnedTrack_run h w r w' :
  torrentHasPinnedTrack h w = (r, w') →
  torrent_pins w' = torrent_pins w ∧ pins_frame w w' ∧ rtc call_step w w' ∧
  (r = Ok false → ∀ id, needed_by w h id → read_fails w w' id).
Proof.
  unfold torrentHasPinnedTrack, mbind, M_bind.
  destruct (pin_All w) as [[ids|e] w1] eqn:E0; pose proof (law_pin_All _ _ _ E0) as (P1 & T1 & S1 & R1).
  - intros E. pose proof (has_pinned_loop_run _ _ _ _ _ E) as (P2 & T2 & S2 & _).
    pose proof (has_pinned_loop_path _ _ _ _ _ E) as Hp. assert (call_step w w1) as Hs by by eapply call_All.
    split_and!; [congruence|split; congruence|by eapply rtc_l|]. intros -> id (Hid & s & Hin & Hh).
    apply (read_fails_path w w1 w' w'); [by apply rtc_once| |done]. eapply has_pinned_loop_false; [exact E|by apply R1| |done]. by rewrite S1.
  - intros [= <- <-]. split_and!; [done|by split| |done]. apply rtc_once. by eapply call_All.
Qed.

(** No torrent is released that a pinned track plays from, unless reading the
    track's sources has failed since [w0]. *)
Definition kept_since (w0 w : W) : Prop :=
  ∀ h id, needed_by w h id → torrent_pins w !! h = Some false → read_fails w0 w id.

Lemma kept_since_path w0 w w' :
  pins_frame w w' → torrent_pins w' = torrent_pins w → rtc call_step w w' → kept_since w0 w → kept_since w0 w'.
Proof.
  intros F T Hp Hk h id Hn Ht. rewrite T in Ht. apply (needed_by_frame w w') in Hn; [|done].
  eapply read_fails_path; [done|by apply (Hk h)|done].
Qed.

(** One call of [PinSource] that pins, or releases what is not needed for all that is known. *)
Lemma pin_Source_keeps w0 h b w r w' :
  pin_Source h b w = (r, w') → (b = false → ∀ id, needed_by w h id → read_fails w0 w id) → kept_since w0 w →
  kept_since w0 w' ∧ pins_frame w w'.
Proof.
  intros E Hb Hk. assert (rtc call_step w w') as Hp by (apply rtc_once; by eapply call_PinSource).
  apply law_pin_Source in E as (P & S & T). split; [|by split]. intros h' id Hn Ht.
  apply (needed_by_frame w w') in Hn; [|by split]. eapply read_fails_path; [done| |exact Hp].
  destruct r as [u|e]; [|destruct T as [T _]; rewrite T in Ht; by apply (Hk h')].
  rewrite T in Ht. apply lookup_insert_Some in Ht as [[<- ->]|[_ Ht]]; [by apply Hb|by apply (Hk h')].
Qed.

Lemma unpin_loop_keeps w0 l w r w' :
  pin_loop false l w = (r, w') → rtc call_step w0 w → kept_since w0 w → kept_since w0 w' ∧ pins_frame w w'.
Proof.
  revert w. induction l as [|s l IH]; intros w; cbn [pin_loop]; [intros [= <- <-] ?; split; [done|by split]|].
  destruct (torrent_hash s) as [h|]; [|apply IH]. unfold mbind, M_bind, try.
  destruct (torrentHasPinnedTrack h w) as [[b|e] w1] eqn:E1; apply torrentHasPinnedTrack_run in E1 as (T1 & F1 & Hp1 & R1);
    intros E Hw0 Hk; pose proof (kept_since_path w0 w w1 F1 T1 Hp1 Hk) as Hk1.
  2:{ injection E as _ <-. by split. }
  destruct (pin_Source h b w1) as [r2 w2] eqn:E2. assert (rtc call_step w1 w2) as Hp2 by (apply rtc_once; by eapply call_PinSource).
  apply (pin_Source_keeps w0) in E2 as [K2 F2]; [|intros ->|done].
  2:{ intros id Hn. apply (needed_by_frame w w1) in Hn; [|done]. eapply read_fails_path; [exact Hw0|by apply R1|done]. }
  assert (pins_frame w w2) as F3 by (destruct F1, F2; split; congruence).
  destruct r2 as [u|e]; [|destruct (negb _); [injection E as <- <-; by split|]];
    (apply IH in E as [K F]; [|by etrans; [|etrans]|done]; split; [done|]; destruct F3, F; split; congruence).
Qed.

Lemma pin_loop_run l w r w' :
  pin_loop true l w = (r, w') → pins_frame w w' ∧
  (∀ h, torrent_pins w !! h ≠ Some false → torrent_pins w' !! h ≠ Some false) ∧
  (is_ok r → ∀ h s, s ∈ l → torrent_hash s = Some h → torrent_pins w' !! h ≠ Some false).
Proof.
  revert w. induction l as [|s l IH]; intros w; cbn [pin_loop].
  { intros [= <- <-]. split_and!; [by split|done|]. intros _ h s ?%elem_of_nil; done. }
  destruct (torrent_hash s) as [h|] eqn:Hh.
  2:{ intros E. apply IH in E as (F & K & N). split_and!; [done|done|].
      intros Hr h' s' [->|Hs]%elem_of_cons Hs'; [congruence|by eapply N]. }
  unfold mbind, M_bind, try, mret, M_ret.
  destruct (pin_Source h true w) as [r1 w1] eqn:E1. apply law_pin_Source in E1 as (P1 & S1 & T1).
  assert (∀ h', torrent_pins w !! h' ≠ Some false → torrent_pins w1 !! h' ≠ Some false) as K1.
  { intros h' Hk. destruct r1 as [u|e]; [|by destruct T1 as [-> _]]. rewrite T1.
    destruct (decide (h = h')) as [->|Hne]; [by rewrite lookup_insert_eq|by rewrite lookup_insert_ne]. }
  assert (pin_loop true l w1 = (r, w') →
          torrent_pins w1 !! h ≠ Some false →
          pins_frame w w' ∧
  (∀ h, torrent_pins w !! h ≠ Some false → torrent_pins w' !! h ≠ Some false) ∧
  (is_ok r → ∀ h s', s' ∈ s :: l → torrent_hash s' = Some h → torrent_pins w' !! h ≠ Some false)) as Hgo.
  { intros E Hw1. apply IH in E as (F & K & N). split_and!; [destruct F; split; congruence|auto|].
    intros Hr h' s' [->|Hs]%elem_of_cons Hs'; [|by eapply N]. apply K. congruence. }
  destruct r1 as [u|e].
  - intros E. apply Hgo; [done|]. by rewrite T1, lookup_insert_eq.
  - destruct T1 as [T1 N1]. destruct (errors_Is ErrNotFound e); cbn [negb].
    + intros E. apply Hgo; [done|]. by rewrite T1, N1.
    + intros [= <- <-]. split_and!; [by split|done|done].
Qed.

(** C27. Torrents of pinned tracks are not released for eviction.  Let no torrent
    that a pinned track plays from be released, and let a track be pinned or
    unpinned, however the call ends.  If afterwards a torrent is released that
    a pinned track plays from, then either the call unpinned, and on its way
    the catalog failed to list that very track's sources (the service takes
    such a track for one that has none), or the call was to pin a track that
    was not pinned before and reported an error. *)
Theorem pinned_tracks_keep_their_torrents trackID b w r w' :
  SetLibraryTrackPinned true trackID b w = (r, w') → torrents_kept w →
  ∀ h id, needed_by w' h id → torrent_pins w' !! h = Some false →
    (b = false ∧ read_fails w w' id) ∨ (b = true ∧ id ∉ pinned w ∧ ∃ e, r = Err e).
Proof.
  unfold SetLibraryTrackPinned, mbind, M_bind. cbn [negb]. intros E Hk h id (Hid & s & Hs & Hh) Ht.
  assert (∀ w0, pinned w0 = pinned w → sources_of w0 = sources_of w → torrent_pins w0 = torrent_pins w →
    id ∈ pinned w0 → s ∈ sources_of w0 id → torrent_pins w0 !! h = Some false → False) as Hsame.
  { intros w0 P S T Hid0 Hs0 Ht0. rewrite P, S, T in *. apply (Hk h); [by exists id, s|done]. }
  destruct (find_Track trackID w) as [[track|e] w1] eqn:E1; pose proof (law_Track (cat_Sources := cat_Sources) _ _ _ _ E1) as (P1 & T1 & S1).
  2:{ injection E as _ <-. exfalso. by eapply (Hsame w1). }
  destruct (pin_Set (ID track) b w1) as [r2 w2] eqn:E2.
  pose proof (law_pin_Set (cat_Sources := cat_Sources) _ _ _ _ _ E2) as (T2 & S2 & P2). destruct r2 as [u|e]; cbn in P2.
  2:{ injection E as _ <-. exfalso. eapply (Hsame w2); congruence. }
  destruct (cat_Sources (ID track) w2) as [r3 w3] eqn:E3. pose proof (law_Sources _ _ _ _ E3) as (P3 & T3 & S3 & R3).
  destruct b.
  - right. split; [done|]. assert (pins_frame w3 w' ∧ ∀ h, torrent_pins w3 !! h ≠ Some false → torrent_pins w' !! h ≠ Some false) as [[Fp Fs] K].
    { destruct r3 as [l|e]; [|injection E as _ <-; by split]. by apply pin_loop_run in E as (F & K & _). }
    assert (id ∉ pinned w) as Hnew.
    { intros Hold. apply (K h); [|done]. rewrite T3, T2, T1. apply Hk. exists id, s. split_and!; [done| |done].
      by rewrite <- S1, <- S2, <- S3, <- Fs. }
    split; [done|]. destruct r as [u'|e]; [exfalso|by eexists].
    destruct r3 as [l|e]; [|done]. apply pin_loop_run in E as (_ & _ & N).
    rewrite Fp, P3, P2, P1, elem_of_union, elem_of_singleton in Hid. destruct Hid as [->|Hid]; [|done].
    eapply (N ltac:(done) h s); [|done|done]. rewrite R3. by rewrite <- S3, <- Fs.
  - left. split; [done|].
    assert (rtc call_step w w3) as Hp.
    { eapply rtc_l; [by eapply call_Track|]. eapply rtc_l; [by eapply call_Set|]. apply rtc_once. by eapply call_Sources. }
    assert (kept_since w w3) as Hk3.
    { intros h' id' (Hid' & s' & Hs' & Hh') Ht'. exfalso. rewrite T3, T2, T1 in Ht'. apply (Hk h'); [|done]. exists id', s'.
      rewrite P3, P2, P1, elem_of_difference in Hid'. split_and!; [apply Hid'| |done]. by rewrite <- S1, <- S2, <- S3. }
    destruct r3 as [l|e]; [|injection E as _ <-; apply (Hk3 h); [|done]; split; [done|by exists s]].
    apply (unpin_loop_keeps w) in E as [K _]; [|done|done]. apply (K h); [|done]. split; [done|by exists s].
Qed.
End pinning.

(** A world to pin in: two tracks of one torrent, and a catalog whose [fail]
    ids cannot be read. *)
Record pin_world := mkPinWorld {
  pw_pinned : gset string;
  pw_torrents : gmap string bool;
  pw_sources : gmap string (list SourceRef);
}.

Definition pin_track (id : string) : Track :=
  mkTrack id id "A" "a" "B" "b" "A" "a" 1 1 1970 "" 0 0 0 "flac" "audio/flac" "".

#[local] Instance pin_world_finder : TrackFinder pin_world := λ id w, (Ok (pin_track id), w).

#[local] Instance pin_world_store : PinStore pin_world := {|
  pin_Set id b w := (Ok tt, mkPinWorld (if b : bool then {[id]} ∪ pw_pinned w else pw_pinned w ∖ {[id]})
                              (pw_torrents w) (pw_sources w));
  pin_All w := (Ok (elements (pw_pinned w)), w);
|}.

#[local] Instance pin_world_pinner : SourcePinner pin_world := λ h b w,
  match pw_torrents w !! h with
  | None => (Err (Sentinel ErrNotFound), w)
  | Some _ => (Ok tt, mkPinWorld (pw_pinned w) (<[h := b]> (pw_torrents w)) (pw_sources w))
  end.

Definition pin_world_Sources (fail : string → bool) (id : string) : M pin_world (list SourceRef) := λ w,
  if fail id then (Err (Plain "disk I/O error"), w)
  else (Ok (default [] (pw_sources w !! id)), w).

#[local] Instance pin_world_laws fail : PinLaws pin_world (pin_world_Sources fail).
Proof.
  refine {| pinned := pw_pinned; torrent_pins := pw_torrents;
            sources_of w id := default [] (pw_sources w !! id) |}.
  - intros id w r w'. cbv [find_Track pin_world_finder]. by intros [= _ <-].
  - intros id w r w'. unfold pin_world_Sources. destruct (fail id); by intros [= <- <-].
  - intros id b w r w' [= <- <-]. done.
  - intros w r w' [= <- <-]. split_and!; [done..|]. intros x. apply elem_of_elements.
  - intros h b w r w'. unfold pin_Source, pin_world_pinner. destruct (pw_torrents w !! h) eqn:E;
      intros [= <- <-]; done.
Defined.

Definition pin_start : pin_world :=
  mkPinWorld {["t1"; "t2"]} {["h" := true]}
    (<["t1" := [mkRef "torrent" "h/1"]]> {["t2" := [mkRef "torrent" "h/2"]]}).

Definition unpin_t1 (fail : string → bool) : res unit * pin_world :=
  SetLibraryTrackPinned (pin_world_Sources fail) true "t1" false pin_start.

Lemma unpin_t1_run :
  unpin_t1 (λ _, false) = (Ok tt, (unpin_t1 (λ _, false)).2) ∧
  unpin_t1 (λ id, bool_decide (id = "t2")) = (Ok tt, (unpin_t1 (λ id, bool_decide (id = "t2"))).2).
Proof. split; vm_compute; reflexivity. Qed.

(** When the sources of another pinned track cannot be read, unpinning releases
    the torrent that track plays from: the read error is skipped. *)
Lemma unreadable_track_loses_its_torrent :
  let w := (unpin_t1 (λ id, bool_decide (id = "t2"))).2 in
  (unpin_t1 (λ id, bool_decide (id = "t2"))).1 = Ok tt ∧
  "t2" ∈ pw_pinned w ∧ pw_sources w !! "t2" = Some [mkRef "torrent" "h/2"] ∧
  pw_torrents w !! "h" = Some false.
Proof.
  cbv zeta. split_and!; [vm_compute; reflexivity| |vm_compute; reflexivity|vm_compute; reflexivity].
  refine (bool_decide_unpack ("t2" ∈ pw_pinned _) _). vm_compute. exact I.
Qed.

(** The theorem names the read that failed, and rules the release out when none can fail. *)
Definition t2_fails : pin_world → pin_world → string → Prop := read_fails (pin_world_Sources (λ id, bool_decide (id = "t2"))).

Lemma pinned_tracks_keep_their_torrents_witness :
  t2_fails pin_start (unpin_t1 (λ id, bool_decide (id = "t2"))).2 "t2" ∧
  pw_torrents (unpin_t1 (λ _, false)).2 !! "h" ≠ Some false.
Proof.
  assert (∀ fail, torrents_kept (pin_world_Sources fail) pin_start) as Hk.
  { intros fail h (id & src & _ & _ & _). cbn. intros [_ [=]]%lookup_singleton_Some. }
  assert (∀ fail w, pw_pinned w = {["t2"]} → pw_sources w = pw_sources pin_start →
    needed_by (pin_world_Sources fail) w "h" "t2") as Hn.
  { intros fail w Hp Hs. split; [cbn; rewrite Hp; by apply elem_of_singleton|]. exists (mkRef "torrent" "h/2").
    split; [cbn; rewrite Hs; vm_compute; left|reflexivity]. }
  split.
  - destruct (pinned_tracks_keep_their_torrents (pin_world_Sources (λ id, bool_decide (id = "t2"))) "t1" false pin_start
      _ _ (proj2 unpin_t1_run) (Hk _) "h" "t2") as [[_ Hf]|[Hb _]]; [|vm_compute; reflexivity|exact Hf|discriminate Hb].
    apply Hn; [vm_compute; reflexivity|vm_compute; reflexivity].
  - intros Ht. destruct (pinned_tracks_keep_their_torrents (pin_world_Sources (λ _, false)) "t1" false pin_start
      _ _ (proj1 unpin_t1_run) (Hk _) "h" "t2") as [[_ (w1 & e & w2 & _ & E & _)]|[Hb _]]; [|exact Ht| |discriminate Hb].
    + apply Hn; vm_compute; reflexivity.
    + discriminate E.
Defined.

(** * Prefetching *)

(** [active], and where each job is: waiting for a worker slot, running, or
    past its slot and about to be completed.  [workers] is a channel of
    capacity two. *)
Record prefetch_state := mkPrefetch {
  active : gset string;
  waiting : list string;
  running : list string;
  completing : list string;
}.

Definition worker_slots : nat := 2.

(** [queue]: the part under the mutex, and the goroutine it starts. *)
Definition queue (trackID : string) (s : prefetch_state) : prefetch_state :=
  if bool_decide (trackID ∈ active s) then s
  else mkPrefetch ({[trackID]} ∪ active s) (trackID :: waiting s) (running s) (completing s).

(** [complete]. *)
Definition complete (trackID : string) (active : gset string) : gset string := active ∖ {[trackID]}.

Inductive prefetch_step : prefetch_state → prefetch_state → Prop :=
  (** A call of [PrefetchTrack] or [PrefetchAlbum]. *)
  | step_queue id s : prefetch_step s (queue id s)
  (** [s.workers <- struct{}{}]: a free slot is taken. *)
  | step_acquire id s l1 l2 :
      waiting s = l1 ++ id :: l2 → (length (running s) < worker_slots)%nat →
      prefetch_step s (mkPrefetch (active s) (l1 ++ l2) (id :: running s) (completing s))
  (** [<-s.ctx.Done()] while waiting. *)
  | step_cancel id s l1 l2 :
      waiting s = l1 ++ id :: l2 →
      prefetch_step s (mkPrefetch (active s) (l1 ++ l2) (running s) (id :: completing s))
  (** The deferred [<-s.workers]. *)
  | step_release id s l1 l2 :
      running s = l1 ++ id :: l2 →
      prefetch_step s (mkPrefetch (active s) (waiting s) (l1 ++ l2) (id :: completing s))
  (** [s.complete(trackID)]. *)
  | step_complete id s l1 l2 :
      completing s = l1 ++ id :: l2 →
      prefetch_step s (mkPrefetch (complete id (active s)) (waiting s) (running s) (l1 ++ l2)).

Definition prefetch_start : prefetch_state := mkPrefetch ∅ [] [] [].

(** Every job, wherever it is. *)
Definition jobs (s : prefetch_state) : list string := waiting s ++ running s ++ completing s.

Record prefetch_ok (s : prefetch_state) : Prop := {
  po_nodup : NoDup (jobs s);
  po_active : ∀ id, id ∈ active s ↔ id ∈ jobs s;
  po_slots : (length (running s) ≤ worker_slots)%nat;
}.

Lemma prefetch_ok_move s s' :
  prefetch_ok s → jobs s' ≡ₚ jobs s → active s' = active s →
  (length (running s') ≤ worker_slots)%nat → prefetch_ok s'.
Proof.
  intros [Hnd Hact _] Hp Ha Hsl. split; [by rewrite Hp| |done]. intros id. by rewrite Ha, Hp.
Qed.

Lemma prefetch_step_ok s s' : prefetch_step s s' → prefetch_ok s → prefetch_ok s'.
Proof.
  intros Hstep Hok. pose proof Hok as [Hnd Hact Hsl]. destruct Hstep as
    [id s|id s l1 l2 Hw Hlt|id s l1 l2 Hw|id s l1 l2 Hr|id s l1 l2 Hc]; unfold jobs in *.
  - unfold queue. case_bool_decide as Hin; [done|]. split; unfold jobs; cbn; [| |done].
    + apply NoDup_cons. split; [|done]. by rewrite <- Hact.
    + intros x. by rewrite elem_of_union, elem_of_singleton, Hact, elem_of_cons.
  - apply (prefetch_ok_move s); [done| |done|cbn; lia]. unfold jobs. cbn. rewrite Hw. solve_Permutation.
  - apply (prefetch_ok_move s); [done| |done|done]. unfold jobs. cbn. rewrite Hw. solve_Permutation.
  - apply (prefetch_ok_move s); [done| |done|].
    + unfold jobs. cbn. rewrite Hr. solve_Permutation.
    + cbn. rewrite Hr, length_app in Hsl. cbn in Hsl. rewrite length_app. lia.
  - rewrite Hc in *.
    assert (waiting s ++ running s ++ l1 ++ id :: l2 ≡ₚ id :: (waiting s ++ running s ++ l1 ++ l2)) as Hp
      by solve_Permutation.
    split; unfold jobs; cbn; [|intros x|done].
    + rewrite Hp in Hnd. by apply NoDup_cons in Hnd as [_ ?].
    + rewrite Hp in Hnd. apply NoDup_cons in Hnd as [Hid _].
      unfold complete. rewrite elem_of_difference, elem_of_singleton, Hact, Hp, elem_of_cons.
      split; [by intros [[?|?] ?]|]. intros Hx. split; [by right|]. by intros ->.
Qed.

(** C28. Prefetching is bounded and single-flight: in every state that calls,
    workers and cancellation can reach, in any order, at most two jobs run, no
    track is prefetched twice at a time, exactly the tracks with a job are
    marked active, and a track whose jobs are done can be queued again. *)
Theorem prefetch_is_bounded_and_single_flight s :
  rtc prefetch_step prefetch_start s →
  (length (running s) ≤ 2)%nat ∧ NoDup (jobs s) ∧ (∀ id, id ∈ active s ↔ id ∈ jobs s) ∧
  (∀ id, id ∈ jobs (queue id s) ∧ (id ∉ jobs s → waiting (queue id s) = id :: waiting s)).
Proof.
  intros Hrun. assert (prefetch_ok s) as [Hnd Hact Hsl].
  { assert (prefetch_ok prefetch_start) as Hok.
    { split; cbn; [constructor|set_solver|lia]. }
    induction Hrun as [s|s1 s2 s3 Hstep _ IH]; [done|]. by apply IH, (prefetch_step_ok s1). }
  split_and!; [done|done|done|]. intros id. rewrite <- Hact. unfold queue. case_bool_decide as Hin.
  - split; [by apply Hact|done].
  - split; [|done]. unfold jobs. cbn. by left.
Qed.

Definition toy_active : gset string := active (queue "a" prefetch_start).
Definition toy_jobs : prefetch_state := queue "b" (mkPrefetch toy_active [] [] ["a"]).

Lemma prefetch_is_bounded_and_single_flight_witness :
  (length (running toy_jobs) ≤ 2)%nat ∧ NoDup (jobs toy_jobs).
Proof.
  split; apply (prefetch_is_bounded_and_single_flight toy_jobs);
    (apply (rtc_l _ _ (queue "a" prefetch_start)); [apply step_queue|];
     apply (rtc_l _ _ (mkPrefetch toy_active [] ["a"] []));
     [apply (step_acquire "a" (queue "a" prefetch_start) [] []); [reflexivity|apply Nat.ltb_lt; vm_compute; reflexivity]|];
     apply (rtc_l _ _ (mkPrefetch toy_active [] [] ["a"]));
     [apply (step_release "a" (mkPrefetch toy_active [] ["a"] []) [] []); reflexivity|];
     apply rtc_once; apply (step_queue "b" (mkPrefetch toy_active [] [] ["a"]))).
Defined.
