(* ===== verification/AuthLimit.v ===== *)
(** The limiter of failed logins ([observability/auth_limit.go]).

    Requests run concurrently: a request is two steps of the limiter, its
    arrival and its answer, and a run is any sequence of such steps, each at the
    time its critical section reads the clock. *)
From stdpp Require Import base gmap strings list sorting.
From Stdlib Require Import ZArith Lia Ascii.
From S2P Require Import Prelude GoStrings.

Open Scope Z_scope.
Open Scope go_scope.

Record authFailureState := mkAuthState {
  firstFailure : time;
  failures : Z;
  blockedUntil : time;
}.

Record AuthFailureLimiter := mkLimiter {
  states : gmap string authFailureState;
  attempts : Z;
}.

(** The value a Go map gives for a missing key. *)
Definition no_failures : authFailureState := mkAuthState time_zero 0 time_zero.

Definition state_of (key : string) (l : AuthFailureLimiter) : authFailureState :=
  default no_failures (states l !! key).

Definition NewAuthFailureLimiter : AuthFailureLimiter := mkLimiter ∅ 0.

(** The constructor's defaults: limit, window and blocking time. *)
Definition limiter_parameters (limit window blockFor : Z) : Z * Z * Z :=
  (if limit <=? 0 then 10 else limit, if window <=? 0 then Minute else window,
   if blockFor <=? 0 then Minute else blockFor).

(** [net.SplitHostPort]: the host when the address is well formed. *)
Definition split_host (hostport : string) : option string :=
  match last (Split ":" hostport) with
  | None => None
  | Some port =>
      if bool_decide (port = hostport) then None
      else
        let before := str_take (String.length hostport - String.length port - 1) hostport in
        match hostport with
        | String "["%char rest =>
            match Cut rest "]" with
            | Some (host, after) =>
                if bool_decide (after = ":" +:+ port) && negb (Contains host "[")
                   && negb (Contains after "[") && negb (Contains port "]")
                then Some host else None
            | None => None
            end
        | _ =>
            if Contains before ":" || Contains hostport "[" || Contains hostport "]" then None
            else Some before
        end
  end.

Example split_host_v4 : split_host "10.0.0.1:443" = Some "10.0.0.1".
Proof. reflexivity. Qed.

Example split_host_v6 : split_host "[::1]:443" = Some "::1" ∧ split_host "::1" = None.
Proof. split; reflexivity. Qed.

(** What [authFailureKey] reads of a request: the peer, the user name of
    [BasicAuth] and the query parameter [u]. *)
Record auth_request := mkAuthRequest {
  RemoteAddr : string;
  basic_username : string;
  query_u : string;
}.

Definition authFailureKey `{Unicode} (r : auth_request) : string :=
  let remote := default (RemoteAddr r) (split_host (RemoteAddr r)) in
  let username := if bool_decide (basic_username r = "") then query_u r else basic_username r in
  ToLower (TrimSpace remote) +:+ of_bytes [0] +:+ ToLower (TrimSpace username).

(** [d.Round(time.Second)] of a positive duration. *)
Definition round_second (d : Z) : Z :=
  let r := d mod Second in
  if r + r <? Second then d - r
  else if d + Second - r <? 2 ^ 63 then d + Second - r else 2 ^ 63 - 1.

Section limiter.
Context (limit window blockFor : Z).

Definition blockedFor (key : string) (now : time) (l : AuthFailureLimiter) : Z * AuthFailureLimiter :=
  let state := state_of key l in
  let remaining := time_Sub (blockedUntil state) now in
  if (remaining <=? 0) && negb (IsZero (blockedUntil state))
  then (0, mkLimiter (delete key (states l)) (attempts l))
  else (remaining, l).

(** The state after one more failure. *)
Definition add_failure (now : time) (state : authFailureState) : authFailureState :=
  let state :=
    if IsZero (firstFailure state) || (time_Sub now (firstFailure state) >=? window)
    then mkAuthState now 0 time_zero else state in
  let n := failures state +% 1 in
  mkAuthState (firstFailure state) n
    (if n >=? limit then time_Add now blockFor else blockedUntil state).

(** A state [recordFailure] sweeps. *)
Definition expired (now : time) (state : authFailureState) : bool :=
  (blockedUntil state <? now) && (time_Sub now (firstFailure state) >=? window).

Definition recordFailure (key : string) (now : time) (l : AuthFailureLimiter) : AuthFailureLimiter :=
  let sts := <[key := add_failure now (state_of key l)]> (states l) in
  let attempts := (attempts l + 1) mod 2 ^ 64 in
  mkLimiter (if attempts mod 256 =? 0 then filter (λ x, expired now x.2 = false) sts else sts) attempts.

(** [Wrap], before and after the handler runs. *)
Inductive decision :=
  | LetThrough
  | TooManyRequests (retryAfter : Z).

Definition refusal (retryAfter : Z) : decision :=
  if retryAfter >? 0 then TooManyRequests (Z.max 1 (Z.quot (round_second retryAfter) Second)) else LetThrough.

Definition arrive (key : string) (now : time) (l : AuthFailureLimiter) : decision * AuthFailureLimiter :=
  let '(retryAfter, l') := blockedFor key now l in (refusal retryAfter, l').

Definition answer (key : string) (status : Z) (now : time) (l : AuthFailureLimiter) : AuthFailureLimiter :=
  if status =? 401 then recordFailure key now l else l.

Inductive auth_event :=
  | Arrive (key : string)
  | Answer (key : string) (status : Z).

Definition event_key (e : auth_event) : string :=
  match e with Arrive k => k | Answer k _ => k end.

Definition auth_step (l : AuthFailureLimiter) (e : time * auth_event) : AuthFailureLimiter :=
  match e.2 with
  | Arrive key => (arrive key e.1 l).2
  | Answer key status => answer key status e.1 l
  end.

Definition auth_run (es : list (time * auth_event)) : AuthFailureLimiter :=
  fold_left auth_step es NewAuthFailureLimiter.

(** * The reference: one client, nothing swept *)

Definition client_step (s : option authFailureState) (e : time * auth_event) : option authFailureState :=
  match e.2 with
  | Arrive _ =>
      match s with
      | Some st => if negb (IsZero (blockedUntil st)) && (blockedUntil st <=? e.1) then None else s
      | None => None
      end
  | Answer _ status => if status =? 401 then Some (add_failure e.1 (default no_failures s)) else s
  end.

Definition client_run (es : list (time * auth_event)) : option authFailureState :=
  fold_left client_step es None.

(** The time a client is still refused for. *)
Definition client_blocked (now : time) (s : option authFailureState) : Z :=
  match s with
  | Some st => if IsZero (blockedUntil st) then 0 else Z.max 0 (time_Sub (blockedUntil st) now)
  | None => 0
  end.

Definition events_of (key : string) (es : list (time * auth_event)) : list (time * auth_event) :=
  List.filter (λ e, bool_decide (event_key e.2 = key)) es.

(** A clock that does not run backwards and is past the zero time. *)
Definition clock_ok (es : list (time * auth_event)) : Prop :=
  StronglySorted (λ x y, x.1 ≤ y.1) es ∧ Forall (λ e, time_zero < e.1) es.

Definition failed (e : time * auth_event) : bool :=
  match e.2 with Answer _ status => status =? 401 | Arrive _ => false end.

(** The times of a client's failures, the latest first. *)
Definition failure_times (es : list (time * auth_event)) : list time :=
  rev (map fst (List.filter failed es)).

Context (Hlimit : 0 < limit) (Hwindow : 0 < window < 2 ^ 63) (Hblock : 0 < blockFor < 2 ^ 63).

Lemma time_Sub_ge a b d : 0 < d < 2 ^ 63 → (time_Sub a b >=? d) = (a - b >=? d).
Proof. unfold time_Sub. intros Hd. lia. Qed.

Lemma time_Sub_pos a b : (time_Sub a b <=? 0) = (a <=? b).
Proof. unfold time_Sub. lia. Qed.

(** The limiter's entry for a client and the reference: equal, or swept. *)
Definition tracks (now : time) (a s : option authFailureState) : Prop :=
  match a, s with
  | Some x, Some y => x = y
  | None, None => True
  | None, Some y => expired now y = true
  | Some _, None => False
  end.

Lemma expired_later now now' st : now ≤ now' → expired now st = true → expired now' st = true.
Proof using Hwindow.
  unfold expired. intros Hle [? ?]%andb_true_iff. rewrite time_Sub_ge in * by lia.
  apply andb_true_iff. split; lia.
Qed.

Lemma tracks_later now now' a s : now ≤ now' → tracks now a s → tracks now' a s.
Proof using Hwindow. intros Hle. destruct a, s; cbn; auto. by apply expired_later. Qed.

Lemma add_failure_expired now st : expired now st = true → add_failure now st = add_failure now no_failures.
Proof.
  unfold expired. intros [_ Hw]%andb_true_iff. unfold add_failure. rewrite Hw, orb_true_r. done.
Qed.

Lemma tracks_failure now a s :
  tracks now a s → add_failure now (default no_failures a) = add_failure now (default no_failures s).
Proof.
  destruct a as [x|], s as [y|]; cbn; [by intros ->|done| |done]. intros He.
  by rewrite (add_failure_expired now y).
Qed.

Lemma recordFailure_lookup k key now l :
  states (recordFailure key now l) !! k = states (mkLimiter (<[key := add_failure now (state_of key l)]> (states l)) 0) !! k ∨
  (states (recordFailure key now l) !! k = None ∧
   ∃ st, <[key := add_failure now (state_of key l)]> (states l) !! k = Some st ∧ expired now st = true).
Proof.
  unfold recordFailure. cbn [states]. destruct (_ =? 0); [|by left].
  destruct (<[key:=_]> (states l) !! k) as [st|] eqn:E.
  - destruct (expired now st) eqn:He.
    + right. split; [|eauto]. apply map_lookup_filter_None. right. intros x Hx. cbn. congruence.
    + left. apply map_lookup_filter_Some. done.
  - left. apply map_lookup_filter_None. by left.
Qed.

Lemma auth_step_tracks k l s e :
  time_zero < e.1 → tracks e.1 (states l !! k) s →
  tracks e.1 (states (auth_step l e) !! k)
    (if bool_decide (event_key e.2 = k) then client_step s e else s).
Proof.
  destruct e as [now [key|key status]]; unfold auth_step, client_step, arrive, blockedFor, answer, state_of;
    cbn [fst snd event_key]; intros Hz Ht.
  - case_bool_decide as Hk; [subst key|].
    + destruct (states l !! k) as [x|] eqn:E, s as [y|]; cbn [tracks default] in Ht; cbn [from_option id];
        rewrite ?time_Sub_pos; [subst y|done|..].
      * rewrite andb_comm. destruct (_ && _); cbn [snd states]; [by rewrite lookup_delete_eq|by rewrite E].
      * cbn. rewrite andb_false_r. cbn. rewrite E. by destruct (_ && _).
      * cbn. rewrite andb_false_r. cbn. by rewrite E.
    + destruct (_ && _); cbn; [|done]. by rewrite lookup_delete_ne.
  - destruct (status =? 401); [|by destruct (bool_decide _)].
    destruct (recordFailure_lookup k key now l) as [E|[E (st & Hs & He)]]; rewrite E; cbn [states] in *;
      unfold state_of in *.
    + case_bool_decide as Hk; [subst key|by rewrite lookup_insert_ne].
      rewrite lookup_insert_eq. cbn. by apply tracks_failure.
    + case_bool_decide as Hk; [subst key|].
      * rewrite lookup_insert_eq in Hs. injection Hs as <-. cbn. by rewrite <- (tracks_failure now (states l !! k)).
      * rewrite lookup_insert_ne in Hs by done. rewrite Hs in Ht. destruct s; [|done]. cbn in *. by subst.
Qed.

Lemma auth_run_tracks es k now :
  clock_ok es → Forall (λ e, e.1 ≤ now) es →
  tracks now (states (auth_run es) !! k) (client_run (events_of k es)).
Proof.
  unfold auth_run, client_run, events_of. revert now.
  induction es as [|e es IH] using rev_ind; intros now [Hs Hz] Hn; [done|].
  rewrite fold_left_app, List.filter_app, fold_left_app. cbn [fold_left List.filter].
  apply StronglySorted_app in Hs as (Hle & Hs & _). apply Forall_app in Hz as [Hz He].
  apply Forall_app in Hn as [_ Hn]. rewrite Forall_singleton in Hn, He.
  apply (tracks_later e.1); [done|]. specialize (IH e.1). apply (auth_step_tracks k _ _ e) in IH; [|done|by split|].
  - revert IH. destruct (bool_decide _); done.
  - apply Forall_forall. intros x Hx. apply Hle; [done|by left].
Qed.

Lemma refusal_neg n : n ≤ 0 → refusal n = LetThrough.
Proof. unfold refusal. intros Hn. assert (n >? 0 = false) as -> by lia. done. Qed.

Lemma arrive_refusal k now l s :
  time_zero < now → tracks now (states l !! k) s → (arrive k now l).1 = refusal (client_blocked now s).
Proof.
  intros Hn Ht. unfold arrive, blockedFor, state_of.
  assert (time_Sub time_zero now ≤ 0) as Hneg by (unfold time_Sub; lia).
  destruct (states l !! k) as [x|], s as [y|]; cbn [tracks default from_option id] in *;
    [subst y|done| |]; rewrite time_Sub_pos; unfold client_blocked.
  - unfold IsZero. destruct (Z.eqb_spec (blockedUntil x) time_zero) as [->|Ez]; cbn.
    + rewrite andb_false_r. cbn. by rewrite !refusal_neg.
    + rewrite andb_true_r. destruct (blockedUntil x <=? now) eqn:E; cbn.
      * by rewrite !refusal_neg by (unfold time_Sub; lia).
      * f_equal. unfold time_Sub. lia.
  - cbn. rewrite andb_false_r. cbn.
    apply andb_true_iff in Ht as [Ht _]. rewrite !refusal_neg; try done.
    destruct (IsZero _); [done|]. unfold time_Sub. lia.
  - cbn. rewrite andb_false_r. cbn. by rewrite !refusal_neg.
Qed.

Lemma decision_of_client es k now :
  clock_ok (es ++ [(now, Arrive k)]) →
  (arrive k now (auth_run es)).1 = refusal (client_blocked now (client_run (events_of k es))).
Proof.
  intros [Hs Hz]. apply StronglySorted_app in Hs as (Hle & Hs & _). apply Forall_app in Hz as [Hz Hn].
  rewrite Forall_singleton in Hn. apply arrive_refusal; [done|]. apply auth_run_tracks; [by split|].
  apply Forall_forall. intros x Hx. apply (Hle x (now, Arrive k)); [done|by left].
Qed.

(** Clients do not affect one another: after any interleaving of arrivals
    and answers, the decision about a client is the one its own events alone
    determine, whatever the other clients did and whatever was swept. *)
Theorem clients_are_limited_separately es es' k now :
  clock_ok (es ++ [(now, Arrive k)]) → clock_ok (es' ++ [(now, Arrive k)]) →
  events_of k es = events_of k es' →
  (arrive k now (auth_run es)).1 = (arrive k now (auth_run es')).1.
Proof. intros H1 H2 He. by rewrite !decision_of_client, He. Qed.

Lemma add_failure_fresh now st :
  IsZero (firstFailure st) || (now - firstFailure st >=? window) = true →
  add_failure now st = mkAuthState now 1 (if 1 >=? limit then now + blockFor else time_zero).
Proof.
  intros Hr. unfold add_failure. rewrite time_Sub_ge, Hr by lia. done.
Qed.

Lemma add_failure_more now st :
  IsZero (firstFailure st) || (now - firstFailure st >=? window) = false →
  0 ≤ failures st < 2 ^ 62 →
  add_failure now st = mkAuthState (firstFailure st) (failures st + 1)
    (if failures st + 1 >=? limit then now + blockFor else blockedUntil st).
Proof.
  intros Hr Hn. unfold add_failure. rewrite time_Sub_ge, Hr by lia.
  rewrite i64_id by (unfold in_i64; lia). done.
Qed.

(** What the entry of a client says about its failures, the latest first. *)
Definition counted (fs : list time) (s : option authFailureState) : Prop :=
  match s with
  | None => True
  | Some st => ∃ recent before, fs = recent ++ before ∧ failures st = Z.of_nat (length recent) ∧
      last recent = Some (firstFailure st) ∧
      Forall (λ t, t - firstFailure st < window) recent ∧
      (blockedUntil st ≠ time_zero →
       limit ≤ failures st ∧ option_map (λ t, t + blockFor) (head recent) = Some (blockedUntil st))
  end.

Lemma counted_step fs s e :
  counted fs s → time_zero < e.1 → Z.of_nat (length fs) < 2 ^ 62 →
  counted (if failed e then e.1 :: fs else fs) (client_step s e).
Proof.
  intros Hc Hz Hlen. destruct e as [now [key|key status]]; unfold client_step, failed; cbn [fst snd] in *.
  - destruct s as [st|]; [|done]. by destruct (_ && _).
  - destruct (status =? 401); [|done].
    assert (∀ st before, IsZero (firstFailure st) || (now - firstFailure st >=? window) = true →
      counted (now :: before) (Some (add_failure now st))) as Hfresh.
    { intros st before Hr. rewrite add_failure_fresh by done. exists [now], before. cbn.
      split_and!; [done|done|done|constructor; [lia|done]|].
      destruct (1 >=? limit) eqn:E; [|done]. intros _. split; [lia|done]. }
    destruct s as [st|]; cbn [default from_option id]; [|by apply Hfresh].
    destruct (IsZero (firstFailure st) || (now - firstFailure st >=? window)) eqn:Hr; [by apply Hfresh|].
    destruct Hc as (recent & before & -> & Hn & Hl & Hw & Hb). rewrite length_app in Hlen.
    rewrite add_failure_more by (done || lia). apply orb_false_iff in Hr as [_ Hr].
    exists (now :: recent), before. cbn [firstFailure failures blockedUntil].
    split_and!; [done|cbn; lia| |constructor; [lia|done]|].
    + by destruct recent.
    + destruct (failures st + 1 >=? limit) eqn:E; [intros _; split; [lia|done]|].
      intros Hb'. destruct (Hb Hb') as [? ?]. lia.
Qed.

Lemma failure_times_app es es' : failure_times (es ++ es') = failure_times es' ++ failure_times es.
Proof. unfold failure_times. by rewrite List.filter_app, map_app, rev_app_distr. Qed.

Lemma failure_times_snoc es e :
  failure_times (es ++ [e]) = if failed e then e.1 :: failure_times es else failure_times es.
Proof. rewrite failure_times_app. unfold failure_times at 1. cbn. by destruct (failed e). Qed.

Lemma failure_times_length es : (length (failure_times es) ≤ length es)%nat.
Proof. unfold failure_times. rewrite length_rev, length_map. apply filter_length_le. Qed.

Lemma client_run_counted es :
  Forall (λ e, time_zero < e.1) es → Z.of_nat (length es) < 2 ^ 62 →
  counted (failure_times es) (client_run es).
Proof.
  unfold client_run. induction es as [|e es IH] using rev_ind; [done|]. intros Hz Hlen.
  apply Forall_app in Hz as [Hz He]. rewrite Forall_singleton in He. rewrite length_app in Hlen. change (length [e]) with 1%nat in Hlen.
  rewrite fold_left_app, failure_times_snoc. cbn [fold_left]. apply counted_step; [apply IH; [done|lia]|done|].
  eapply Z.le_lt_trans; [apply inj_le, failure_times_length|lia].
Qed.

(** Only repeated failures block: a request is refused only if the client's
    own latest 401 answers, at least [limit] of them, came within one window
    and the last of them less than the blocking time ago; a client whose answers
    were never 401 is always admitted. *)
Theorem only_repeated_failures_block es k now retryAfter :
  clock_ok (es ++ [(now, Arrive k)]) → Z.of_nat (length es) < 2 ^ 62 →
  (arrive k now (auth_run es)).1 = TooManyRequests retryAfter →
  1 ≤ retryAfter ∧
  ∃ recent before latest earliest, failure_times (events_of k es) = recent ++ before ∧
    limit ≤ Z.of_nat (length recent) ∧ head recent = Some latest ∧ last recent = Some earliest ∧
    Forall (λ t, t - earliest < window) recent ∧ now < latest + blockFor.
Proof.
  intros Hok Hlen. rewrite decision_of_client by done. destruct Hok as [_ Hz].
  apply Forall_app in Hz as [Hz _].
  assert (counted (failure_times (events_of k es)) (client_run (events_of k es))) as Hc.
  { apply client_run_counted.
    - apply Forall_forall. intros x [Hx _]%elem_of_filter_bool. rewrite Forall_forall in Hz. by apply Hz.
    - eapply Z.le_lt_trans; [|exact Hlen]. apply inj_le, sublist_length, sublist_filter_bool. }
  unfold refusal. destruct (client_blocked now (client_run (events_of k es)) >? 0) eqn:E; [|done].
  intros [= <-]. split; [lia|]. unfold client_blocked in E.
  destruct (client_run (events_of k es)) as [st|]; [|done].
  destruct (IsZero (blockedUntil st)) eqn:Ez; [done|]. unfold IsZero in Ez.
  destruct Hc as (recent & before & Hf & Hn & Hl & Hw & Hb). destruct Hb as [Hge Hu]; [lia|].
  destruct recent as [|latest recent]; [done|]. injection Hu as Hu.
  exists (latest :: recent), before, latest, (firstFailure st). split_and!; [done|lia|done|done|done|].
  revert E. unfold time_Sub. lia.
Qed.

Lemma client_run_snoc es e : client_run (es ++ [e]) = client_step (client_run es) e.
Proof. unfold client_run. by rewrite fold_left_app. Qed.

Lemma geb_lt a b : a < b → (a >=? b) = false.
Proof. lia. Qed.

Lemma geb_ge a b : b ≤ a → (a >=? b) = true.
Proof. lia. Qed.

(** Failures of one window, the latest first. *)
Definition one_window (fs : list time) : Prop :=
  match last fs with Some earliest => Forall (λ t, t - earliest < window) fs | None => True end.

Lemma one_window_cons t fs : one_window (t :: fs) → one_window fs.
Proof.
  unfold one_window. destruct fs as [|x fs]; [done|]. change (last (t :: x :: fs)) with (last (x :: fs)).
  destruct (last (x :: fs)); [|done]. by intros [_ ?]%Forall_cons.
Qed.

Lemma one_window_app fs fs' : one_window (fs ++ fs') → one_window fs'.
Proof. induction fs as [|t fs IH]; [done|]. intros Hw. by apply IH, (one_window_cons t). Qed.

Lemma last_In {A} (l : list A) x : last l = Some x → x ∈ l.
Proof. intros (l' & ->)%last_Some. apply elem_of_app. right. by left. Qed.

Lemma failure_times_zero es :
  Forall (λ e, time_zero < e.1) es → Forall (λ t, time_zero < t) (failure_times es).
Proof.
  induction es as [|e es IH] using rev_ind; [constructor|]. intros [Hz He]%Forall_app.
  rewrite Forall_singleton in He. rewrite failure_times_snoc. destruct (failed e); auto.
Qed.

(** One more failure of a client that is counting: the time of blocking is set
    when it is the last one allowed. *)
Lemma client_failure es now k :
  Forall (λ e, time_zero < e.1) (es ++ [(now, Answer k 401)]) →
  one_window (now :: failure_times es) → Z.of_nat (length (failure_times es)) < limit →
  limit < 2 ^ 62 →
  client_run es = match last (failure_times es) with
    | Some earliest => Some (mkAuthState earliest (Z.of_nat (length (failure_times es))) time_zero)
    | None => None
    end →
  client_run (es ++ [(now, Answer k 401)]) =
  Some (mkAuthState (default now (last (failure_times es))) (Z.of_nat (S (length (failure_times es))))
    (if Z.of_nat (S (length (failure_times es))) >=? limit then now + blockFor else time_zero)).
Proof.
  intros [Hz Hn]%Forall_app Hw Hlt Hlim Hrun. rewrite Forall_singleton in Hn. cbn in Hn.
  rewrite client_run_snoc, Hrun. unfold client_step. cbn [fst snd].
  change (401 =? 401) with true. cbn iota.
  destruct (last (failure_times es)) as [earliest|] eqn:E; cbn [default from_option id].
  - pose proof (failure_times_zero _ Hz) as Hfz. rewrite Forall_forall in Hfz.
    pose proof (Hfz _ (last_In _ _ E)) as He.
    assert (now - earliest < window) as Hnw.
    { unfold one_window in Hw. destruct (failure_times es) as [|x fs]; [done|].
      change (last (now :: x :: fs)) with (last (x :: fs)) in Hw. rewrite E in Hw.
      by apply Forall_cons in Hw as [? _]. }
    rewrite add_failure_more; cbn [firstFailure failures blockedUntil]; [|unfold IsZero; lia|lia].
    replace (Z.of_nat (length (failure_times es)) + 1) with (Z.of_nat (S (length (failure_times es)))) by lia.
    done.
  - apply last_None in E. rewrite E. rewrite add_failure_fresh by done. done.
Qed.

Lemma client_counting es :
  Forall (λ e, time_zero < e.1) es → one_window (failure_times es) →
  Z.of_nat (length (failure_times es)) < limit → limit < 2 ^ 62 →
  client_run es = match last (failure_times es) with
    | Some earliest => Some (mkAuthState earliest (Z.of_nat (length (failure_times es))) time_zero)
    | None => None
    end.
Proof.
  induction es as [|e es IH] using rev_ind; [done|]. intros Hz. pose proof Hz as [Hz1 He]%Forall_app.
  rewrite failure_times_snoc. destruct e as [now [key|key status]]; unfold failed; cbn [fst snd].
  - intros Hw Hlt Hlim. specialize (IH Hz1 Hw Hlt Hlim).
    rewrite client_run_snoc, IH. by destruct (last (failure_times es)).
  - destruct (status =? 401) eqn:Hs; intros Hw Hlt Hlim.
    + apply Z.eqb_eq in Hs as ->. cbn [length] in Hlt. rewrite client_failure; [|done|done|lia|done|].
      * rewrite geb_lt by exact Hlt. cbn [length].
        destruct (failure_times es) as [|x fs]; [done|].
        change (last (now :: x :: fs)) with (last (x :: fs)). destruct (last (x :: fs)) eqn:E; [done|].
        by apply last_None in E.
      * apply IH; [done|by eapply one_window_cons|lia|done].
    + specialize (IH Hz1 Hw Hlt Hlim). rewrite client_run_snoc, IH. unfold client_step. cbn [fst snd]. by rewrite Hs.
Qed.

(** Repeated failures do block: when a client's own events end with its
    [limit]-th 401 answer, all of them within one window, its next request is
    admitted if the blocking time has passed and refused otherwise, whatever
    other clients did in between; and before that it was never refused. *)
Theorem repeated_failures_block es own k latest now :
  clock_ok (es ++ [(now, Arrive k)]) → limit < 2 ^ 62 →
  events_of k es = own ++ [(latest, Answer k 401)] →
  one_window (failure_times (events_of k es)) →
  Z.of_nat (length (failure_times (events_of k es))) = limit →
  (arrive k now (auth_run es)).1 = refusal (latest + blockFor - now) ∧
  (∀ before after t, own = before ++ after → time_zero < t →
     client_blocked t (client_run before) = 0).
Proof.
  intros Hok Hlim Hown Hw Hn. rewrite decision_of_client by done. destruct Hok as [Hs Hz].
  apply Forall_app in Hz as [Hz Hnow]. rewrite Forall_singleton in Hnow. cbn in Hnow.
  assert (Forall (λ e, time_zero < e.1) (events_of k es)) as Hz'.
  { apply Forall_forall. intros x [Hx _]%elem_of_filter_bool. rewrite Forall_forall in Hz. by apply Hz. }
  assert (latest ≤ now) as Hle.
  { apply StronglySorted_app in Hs as (Hle & _ & _). apply (Hle (latest, Answer k 401) (now, Arrive k)); [|by left].
    assert ((latest, Answer k 401) ∈ events_of k es) as [Hx _]%elem_of_filter_bool; [|done].
    rewrite Hown. apply elem_of_app. right. by left. }
  rewrite Hown in *. rewrite failure_times_snoc in Hw, Hn. change (failed _) with true in Hw, Hn.
  cbn [fst snd length] in Hw, Hn.
  pose proof Hz' as [Hz1 Hl]%Forall_app. rewrite Forall_singleton in Hl. cbn in Hl. split.
  - rewrite client_failure; [|done|done|lia|done|].
    + rewrite geb_ge by (rewrite Hn; reflexivity). cbn [client_blocked blockedUntil].
      unfold IsZero. destruct (Z.eqb_spec (latest + blockFor) time_zero); [lia|].
      destruct (Z.le_gt_cases (latest + blockFor) now).
      * by rewrite !refusal_neg by (unfold time_Sub; lia).
      * f_equal. unfold time_Sub. lia.
    + apply client_counting; [done|by eapply one_window_cons|lia|done].
  - intros before after t -> Ht. rewrite failure_times_app in Hw, Hn. rewrite length_app in Hn.
    rewrite client_counting; [|by apply Forall_app in Hz1 as [? _]| |lia|done].
    + by destruct (last (failure_times before)).
    + by eapply one_window_app, one_window_cons.
Qed.
End limiter.

Definition toy_auth_events : list (time * auth_event) :=
  [(1, Arrive "a"); (2, Arrive "b"); (3, Answer "a" 401); (4, Answer "b" 200); (5, Answer "a" 401)].

(** A decidable form of [clock_ok], for concrete runs. *)
Fixpoint clock_from (t : time) (es : list (time * auth_event)) : bool :=
  match es with
  | [] => true
  | e :: es => (t <=? e.1) && clock_from e.1 es
  end.

Lemma clock_from_ok t es : time_zero < t → clock_from t es = true → clock_ok es ∧ Forall (λ e, t ≤ e.1) es.
Proof.
  revert t. induction es as [|e es IH]; intros t Ht; cbn [clock_from]; [repeat constructor|].
  intros [Hle He]%andb_true_iff. apply Z.leb_le in Hle. destruct (IH e.1) as [[Hs Hz] Hf]; [lia|done|].
  split; [split|].
  - constructor; [done|]. eapply Forall_impl; [exact Hf|]. done.
  - constructor; [lia|done].
  - constructor; [done|]. eapply Forall_impl; [exact Hf|]. intros x Hx. cbn in *. lia.
Qed.

Lemma clock_decide es : clock_from 0 es = true → clock_ok es.
Proof. intros Hc. by apply (clock_from_ok 0) in Hc as [? _]. Qed.

Lemma clients_are_limited_separately_witness :
  (arrive "a" 6 (auth_run 2 100 50 toy_auth_events)).1 =
  (arrive "a" 6 (auth_run 2 100 50 [(1, Arrive "a"); (3, Answer "a" 401); (5, Answer "a" 401)])).1.
Proof.
  apply (clients_are_limited_separately 2 100 50); [lia|by apply clock_decide|by apply clock_decide|reflexivity].
Defined.

Lemma only_repeated_failures_block_witness : 1 ≤ 1 ∧ ∃ recent before latest earliest,
  failure_times (events_of "a" toy_auth_events) = recent ++ before ∧ 2 ≤ Z.of_nat (length recent) ∧
  head recent = Some latest ∧ last recent = Some earliest ∧
  Forall (λ t, t - earliest < 100) recent ∧ 6 < latest + 50.
Proof.
  apply (only_repeated_failures_block 2 100 50) with (es := toy_auth_events) (k := "a") (now := 6) (retryAfter := 1);
    first [by apply clock_decide | vm_compute; reflexivity | lia].
Defined.

Lemma repeated_failures_block_witness :
  (arrive "a" 6 (auth_run 2 100 50 toy_auth_events)).1 = TooManyRequests 1.
Proof.
  destruct (repeated_failures_block 2 100 50) with (es := toy_auth_events) (k := "a") (latest := 5) (now := 6)
    (own := [(1, Arrive "a"); (3, Answer "a" 401)]) as [Hd _];
    [lia|lia|by apply clock_decide|lia|reflexivity| |reflexivity|].
  - change (Forall (λ t, t - 3 < 100) [5; 3]). repeat (constructor; [lia|]). constructor.
  - rewrite Hd. vm_compute. reflexivity.
Defined.

(** A request that was admitted before its client was blocked, and is answered
    401 a window after the first failure, starts a new count and lifts the
    blocking at once. *)
Lemma late_failure_lifts_the_blocking :
  let es := [(1, Arrive "a"); (1, Answer "a" 401); (90, Arrive "a"); (90, Arrive "a"); (95, Answer "a" 401)] in
  (arrive "a" 100 (auth_run 2 100 50 es)).1 = TooManyRequests 1 ∧
  (arrive "a" 102 (auth_run 2 100 50 (es ++ [(101, Answer "a" 401)]))).1 = LetThrough.
Proof. split; vm_compute; reflexivity. Qed.
