(* ===== verification/Scans.v ===== *)
(** The scan manager ([scanner/manager.go]) and the group of scanners
    ([scanner/group.go]).

    A scan is three steps of the manager: [begin] under its mutex, the run of
    the scanner, and [finish] under the mutex. *)
From stdpp Require Import base gmap strings list sorting relations.
From Stdlib Require Import ZArith Lia.
From S2P Require Import Prelude GoStrings.

Open Scope Z_scope.
Open Scope go_scope.

Record Warning := mkWarning {
  warn_Path : string;
  warn_Err : error;
}.

Record Report := mkReport {
  rep_Tracks : Z;
  rep_Warnings : list Warning;
}.

(** * Groups *)

Section group.
Context {W : Type}.

Fixpoint group_loop (runners : list (M W Report)) (combined : Report) : M W Report :=
  match runners with
  | [] => mret combined
  | runner :: rest =>
      report ← wrap_err (λ e, Errorf "scan music source: " e "") runner;
      group_loop rest (mkReport (rep_Tracks combined +% rep_Tracks report)
                         (rep_Warnings combined ++ rep_Warnings report))
  end.

Definition Group_Scan (runners : list (M W Report)) : M W Report := group_loop runners (mkReport 0 []).
End group.

(** * The manager *)

Record Run := mkRun {
  run_Trigger : string;
  run_Tracks : Z;
  run_Warnings : list string;
  run_Error : string;
  run_StartedAt : time;
  run_FinishedAt : time;
}.

Record Status := mkStatus {
  Scanning : bool;
  status_Count : Z;
  LastError : string;
  CurrentTrigger : string;
  LastStartedAt : time;
  LastFinishedAt : time;
  History : list Run;
}.

Definition status_start : Status := mkStatus false 0 "" "" time_zero time_zero [].

(** [begin]: [None] when a scan is running. *)
Definition begin (trigger : string) (now : time) (s : Status) : option Status :=
  if Scanning s then None
  else Some (mkStatus true (status_Count s) "" trigger now (LastFinishedAt s) (History s)).

Definition warning_text (w : Warning) : string := warn_Path w +:+ ": " +:+ Error (warn_Err w).

(** The loop over the warnings stops once 20 are kept. *)
Fixpoint keep_warnings (l : list Warning) (kept : list string) : list string :=
  match l with
  | [] => kept
  | w :: l' => if bool_decide (length kept = 20%nat) then kept else keep_warnings l' (kept ++ [warning_text w])
  end.

Definition finish (report : Report) (err : option error) (now : time) (s : Status) : Status :=
  let run := mkRun (CurrentTrigger s) (rep_Tracks report) (keep_warnings (rep_Warnings report) [])
    (match err with Some e => Error e | None => "" end) (LastStartedAt s) now in
  let history := run :: History s in
  mkStatus false
    (match err with Some _ => status_Count s | None => rep_Tracks report end)
    (match err with Some e => Error e | None => LastError s end)
    (CurrentTrigger s) (LastStartedAt s) now
    (if (20 <? length history)%nat then take 20 history else history).

(** A scan in flight: the trigger and the time it began with. *)
Record scan_world := mkScans {
  status : Status;
  in_flight : list (string * time);
}.

(** What the manager answers: whether a call began a scan, or how one ended. *)
Inductive scan_event :=
  | ScanBegan (trigger : string) (at_ : time)
  | ScanRefused (trigger : string)
  | ScanEnded (report : Report) (err : option error) (at_ : time).

(** Calls of [ScanNow] and [Start] and ticks of [StartPeriodic] try to begin;
    every runner that was begun may end, with any report. *)
Inductive scan_step : scan_world → scan_event → scan_world → Prop :=
  | step_begin w trigger now s :
      begin trigger now (status w) = Some s →
      scan_step w (ScanBegan trigger now) (mkScans s ((trigger, now) :: in_flight w))
  | step_refuse w trigger now :
      begin trigger now (status w) = None →
      scan_step w (ScanRefused trigger) w
  | step_finish w l1 job l2 report err now :
      in_flight w = l1 ++ job :: l2 →
      scan_step w (ScanEnded report err now) (mkScans (finish report err now (status w)) (l1 ++ l2)).

Definition scans_start : scan_world := mkScans status_start [].

Inductive scan_trace : list scan_event → scan_world → Prop :=
  | trace_nil : scan_trace [] scans_start
  | trace_snoc es w e w' : scan_trace es w → scan_step w e w' → scan_trace (es ++ [e]) w'.

(** The runs a trace of events stands for, the latest first: each end belongs
    to the beginning before it. *)
Fixpoint runs_of (open : option (string * time)) (es : list scan_event) (acc : list Run) : list Run :=
  match es with
  | [] => acc
  | ScanBegan trigger at_ :: es' => runs_of (Some (trigger, at_)) es' acc
  | ScanRefused _ :: es' => runs_of open es' acc
  | ScanEnded report err at_ :: es' =>
      match open with
      | Some (trigger, started) =>
          runs_of None es' (mkRun trigger (rep_Tracks report)
            (take 20 (map warning_text (rep_Warnings report)))
            (match err with Some e => Error e | None => "" end) started at_ :: acc)
      | None => runs_of None es' acc
      end
  end.

(** The scan a trace leaves open. *)
Fixpoint open_scan (open : option (string * time)) (es : list scan_event) : option (string * time) :=
  match es with
  | [] => open
  | ScanBegan trigger at_ :: es' => open_scan (Some (trigger, at_)) es'
  | ScanRefused _ :: es' => open_scan open es'
  | ScanEnded _ _ _ :: es' => open_scan None es'
  end.

Lemma keep_warnings_take l kept :
  (length kept ≤ 20)%nat → keep_warnings l kept = take 20 (kept ++ map warning_text l).
Proof.
  revert kept. induction l as [|w l IH]; intros kept Hk; cbn [keep_warnings map].
  - rewrite app_nil_r, take_ge; [done|lia].
  - case_bool_decide as Hlen.
    + rewrite take_app_le by lia. by rewrite take_ge by lia.
    + rewrite IH by (rewrite length_app; cbn; lia). by rewrite <- app_assoc.
Qed.

Lemma runs_of_snoc open es e acc :
  runs_of open (es ++ [e]) acc =
  match e, open_scan open es with
  | ScanEnded report err at_, Some (trigger, started) =>
      mkRun trigger (rep_Tracks report) (take 20 (map warning_text (rep_Warnings report)))
        (match err with Some x => Error x | None => "" end) started at_ :: runs_of open es acc
  | _, _ => runs_of open es acc
  end.
Proof.
  revert open acc. induction es as [|[trigger at_|trigger|report err at_] es IH]; intros open acc;
    cbn [app runs_of open_scan]; [|by rewrite IH..|destruct open as [[trigger started]|]; by rewrite IH].
  destruct e; by destruct open as [[]|].
Qed.

Lemma open_scan_snoc open es e :
  open_scan open (es ++ [e]) =
  match e with
  | ScanBegan trigger at_ => Some (trigger, at_)
  | ScanRefused _ => open_scan open es
  | ScanEnded _ _ _ => None
  end.
Proof. revert open. by induction es as [|[] es IH]; intros open; cbn; [destruct e|..]. Qed.

(** What a trace determines of the manager. *)
Record scans_ok (es : list scan_event) (w : scan_world) : Prop := {
  so_flight : in_flight w = match open_scan None es with Some job => [job] | None => [] end;
  so_scanning : Scanning (status w) = bool_decide (is_Some (open_scan None es));
  so_current job : open_scan None es = Some job → CurrentTrigger (status w) = job.1 ∧ LastStartedAt (status w) = job.2;
  so_history : History (status w) = take 20 (runs_of None es []);
}.

Lemma finish_history report err now s :
  History (finish report err now s) =
  take 20 (mkRun (CurrentTrigger s) (rep_Tracks report) (take 20 (map warning_text (rep_Warnings report)))
    (match err with Some e => Error e | None => "" end) (LastStartedAt s) now :: History s).
Proof.
  unfold finish. cbv zeta. cbn [History]. rewrite keep_warnings_take by (cbn; lia). cbn [app].
  generalize (mkRun (CurrentTrigger s) (rep_Tracks report) (take 20 (map warning_text (rep_Warnings report)))
    match err with Some e => Error e | None => "" end (LastStartedAt s) now :: History s).
  intros l. destruct (Nat.ltb_spec 20 (length l)); [done|]. by rewrite take_ge.
Qed.

Lemma scan_trace_ok es w : scan_trace es w → scans_ok es w.
Proof.
  induction 1 as [|es w e w' Ht [Hf Hs Hc Hh] Hstep]; [by split|].
  destruct Hstep as [w trigger now s Hb|w trigger now Hb|w l1 job l2 report err now Hj].
  - unfold begin in Hb. destruct (Scanning (status w)) eqn:E; [done|]. injection Hb as <-.
    split; [| |intros job'|]; rewrite ?runs_of_snoc, ?open_scan_snoc; cbn.
    + rewrite Hf. destruct (open_scan None es); [done|done].
    + done.
    + by intros [= <-].
    + done.
  - split; [| |intros job'|]; rewrite ?runs_of_snoc, ?open_scan_snoc; auto.
  - assert (open_scan None es = Some job ∧ l1 = [] ∧ l2 = []) as (Ho & -> & ->).
    { rewrite Hf in Hj. destruct (open_scan None es) as [j|]; [|by destruct l1].
      destruct l1 as [|? [|]]; [|done..]. by injection Hj as <- <-. }
    split; [| |intros job'|]; rewrite ?runs_of_snoc, ?open_scan_snoc.
    + done.
    + done.
    + done.
    + cbn [status]. rewrite finish_history, Hh, Ho. destruct job as [trigger started].
      destruct (Hc _ Ho) as [-> ->]. cbn [fst snd]. cbn [firstn]. f_equal. rewrite take_take. done.
Qed.

(** C30. One scan at a time, and an honest history: whatever calls, ticks and
    runners interleave, at most one scan is in flight, the manager says it is
    scanning exactly while one is, and its history is the 20 latest runs, each
    with the trigger and start of the scan that ended, its first 20 warnings and
    its error. *)
Theorem scans_are_exclusive_and_recorded es w :
  scan_trace es w →
  (length (in_flight w) ≤ 1)%nat ∧ (Scanning (status w) = true ↔ in_flight w ≠ []) ∧
  History (status w) = take 20 (runs_of None es []) ∧ (length (History (status w)) ≤ 20)%nat.
Proof.
  intros [Hf Hs Hc Hh]%scan_trace_ok. rewrite Hf, Hs, Hh. split_and!.
  - destruct (open_scan None es); cbn; lia.
  - rewrite bool_decide_eq_true. destruct (open_scan None es); split; try done; by intros [? ?].
  - done.
  - rewrite length_take. lia.
Qed.

(** The manager is never stuck: from every reachable state a scan can be
    running one step later; when it says it is scanning, the scan in flight can
    end whatever it reports, and after that the next call begins a scan. *)
Theorem scanning_always_ends es w trigger now :
  scan_trace es w →
  if Scanning (status w)
  then begin trigger now (status w) = None ∧
       ∀ report err at_, ∃ w', scan_step w (ScanEnded report err at_) w' ∧ in_flight w' = [] ∧
         is_Some (begin trigger now (status w'))
  else in_flight w = [] ∧ ∃ w', scan_step w (ScanBegan trigger now) w' ∧ in_flight w' = [(trigger, now)].
Proof.
  intros [Hf Hs Hc Hh]%scan_trace_ok. destruct (Scanning (status w)) eqn:E.
  - split; [unfold begin; by rewrite E|]. intros report err at_.
    symmetry in Hs. apply bool_decide_eq_true in Hs as [job Ho]. rewrite Ho in Hf.
    eexists. split; [apply (step_finish w [] job []); exact Hf|]. split; [done|]. cbn. eauto.
  - symmetry in Hs. apply bool_decide_eq_false in Hs. destruct (open_scan None es); [by destruct Hs; eauto|].
    split; [done|]. eexists. split; [eapply step_begin; unfold begin; by rewrite E|]. cbn. by rewrite Hf.
Qed.

Definition toy_scan_events : list scan_event :=
  [ScanBegan "manual" 10; ScanRefused "periodic"; ScanEnded (mkReport 3 []) None 12].

Definition toy_scanned : scan_world :=
  mkScans (mkStatus false 3 "" "manual" 10 12 [mkRun "manual" 3 [] "" 10 12]) [].

Definition toy_scanning : scan_world :=
  mkScans (mkStatus true 0 "" "manual" 10 time_zero []) [("manual", 10)].

Lemma toy_scan_trace : scan_trace toy_scan_events toy_scanned.
Proof.
  apply (trace_snoc [ScanBegan "manual" 10; ScanRefused "periodic"] toy_scanning);
    [apply (trace_snoc [ScanBegan "manual" 10] toy_scanning);
      [apply (trace_snoc [] scans_start); [constructor|by apply (step_begin scans_start)]|]|].
  - by apply (step_refuse toy_scanning "periodic" 11).
  - by apply (step_finish toy_scanning [] ("manual", 10) []).
Defined.

Lemma scans_are_exclusive_and_recorded_witness :
  History (status toy_scanned) = take 20 (runs_of None toy_scan_events []).
Proof. apply (scans_are_exclusive_and_recorded toy_scan_events toy_scanned toy_scan_trace). Defined.

Lemma scanning_always_ends_witness :
  ∃ w', scan_step toy_scanned (ScanBegan "periodic" 20) w' ∧ in_flight w' = [("periodic", 20)].
Proof. apply (scanning_always_ends toy_scan_events toy_scanned "periodic" 20 toy_scan_trace). Defined.
