(* ===== verification/Discovery.v ===== *)
(** Discovery of remote sources ([core/services/discovery.go]). *)
From stdpp Require Import base gmap strings list sorting.
From Stdlib Require Import ZArith Lia.
From S2P Require Import Prelude GoStrings GoTime Sql Music Library LibraryTheorems.

Open Scope Z_scope.
Open Scope go_scope.

Record SearchQuery := mkQuery {
  query_Text : string;
  query_Limit : Z;
}.

Record SourceCollection := mkCollection {
  coll_Name : string;
  coll_Artist : string;
  coll_CoverArtID : string;
  coll_Tracks : list TrackSource;
}.

Definition discoveryRetention : Z := 30 * Minute.
Definition discoveryAlternativeLimit : Z := 100.
Definition discoveryAlternativeMax : nat := 8.

Definition discoveryStopWords : gset string := {["a"; "an"; "and"; "of"; "the"]}.
Definition discoveryVersionTokens : gset string :=
  {["acoustic"; "cover"; "demo"; "instrumental"; "karaoke"; "live"; "remix"; "remixed"]}.

(** * Matching recordings *)

Section matching.
Context `{Unicode}.

Definition discoveryTokens (value : string) : list string :=
  FieldsFunc (ToLower value) (λ r, negb (IsLetter r) && negb (IsNumber r)).

Definition isNumericToken (value : string) : bool :=
  negb (bool_decide (value = "")) && forallb IsNumber (runes value).

Definition meaningfulDiscoveryTokens (value : string) (trimTrackNumber : bool) : list string :=
  let tokens := discoveryTokens value in
  let tokens := if trimTrackNumber then drop_while isNumericToken tokens else tokens in
  List.filter (λ token, negb (bool_decide (token ∈ discoveryStopWords))) tokens.

(** The first of the longest tokens. *)
Fixpoint longest_token (longest : string) (tokens : list string) : string :=
  match tokens with
  | [] => longest
  | token :: rest =>
      longest_token (if RuneCountInString token >? RuneCountInString longest then token else longest) rest
  end.

Definition discoveryAlternativeQuery (track : Track) : string :=
  let artistTokens := meaningfulDiscoveryTokens (Artist track) false in
  let titleTokens := meaningfulDiscoveryTokens (Title track) true in
  match titleTokens with
  | [] => ""
  | _ =>
      let query := match artistTokens with
                   | [] => []
                   | token :: rest => [longest_token token rest]
                   end in
      Join (query ++ titleTokens) " "
  end.

Definition haystack_of (candidate : TrackSource) : gset string :=
  list_to_set (discoveryTokens (Join [Artist (ts_Track candidate); Title (ts_Track candidate);
                                      DisplayPath candidate] " ")).

Definition selected_tokens (selected : Track) : list string :=
  meaningfulDiscoveryTokens (Artist selected) false ++ meaningfulDiscoveryTokens (Title selected) true.

Definition selected_versions (selected : Track) : gset string :=
  list_to_set (discoveryTokens (Title selected)) ∩ discoveryVersionTokens.

Definition sameDiscoveredRecording (selected : Track) (candidate : TrackSource) : bool :=
  let haystack := haystack_of candidate in
  if negb (forallb (λ token, bool_decide (token ∈ haystack)) (selected_tokens selected)) then false
  else if existsb (λ token, negb (eqb (bool_decide (token ∈ selected_versions selected))
                                      (bool_decide (token ∈ haystack))))
            (elements discoveryVersionTokens) then false
  else if (Duration selected >? 0) && (Duration (ts_Track candidate) >? 0) then
    let difference := Duration selected -% Duration (ts_Track candidate) in
    let difference := if difference <? 0 then i64 (- difference) else difference in
    negb (difference >? 20 * Second)
  else true.

Definition same_suffix (preferredSuffix : string) (x : TrackSource) : bool :=
  EqualFold (Suffix (ts_Track x)) preferredSuffix.

Definition betterDiscoveryAlternative (preferredSuffix : string) (left right : TrackSource) : bool :=
  let leftFormat := same_suffix preferredSuffix left in
  let rightFormat := same_suffix preferredSuffix right in
  if negb (eqb leftFormat rightFormat) then leftFormat
  else if negb (eqb (FreeUploadSlot (Availability left)) (FreeUploadSlot (Availability right)))
  then FreeUploadSlot (Availability left)
  else if negb (QueueLength (Availability left) =? QueueLength (Availability right))
  then QueueLength (Availability left) <? QueueLength (Availability right)
  else UploadSpeed (Availability left) >? UploadSpeed (Availability right).

(** * Alternative sources *)

Definition acceptable (selected : Track) (candidate : TrackSource) : bool :=
  negb (RequiresApproval (Availability candidate)) && sameDiscoveredRecording selected candidate.

Definition alternative_of (now : time) (selected : Track) (n : nat) (candidate : TrackSource) : TrackSource :=
  mkSource selected (ts_Ref candidate) (DisplayPath candidate) (Availability candidate)
    (time_Add now (- Z.of_nat n)).

Fixpoint alternatives_loop (now : time) (selected : Track) (results sources : list TrackSource)
    (seen : gset SourceRef) : list TrackSource :=
  match results with
  | [] => sources
  | candidate :: rest =>
      if RequiresApproval (Availability candidate) || negb (sameDiscoveredRecording selected candidate)
      then alternatives_loop now selected rest sources seen
      else if bool_decide (ts_Ref candidate ∈ seen) then alternatives_loop now selected rest sources seen
      else
        let sources := sources ++ [alternative_of now selected (length sources) candidate] in
        if bool_decide (length sources = discoveryAlternativeMax) then sources
        else alternatives_loop now selected rest sources ({[ts_Ref candidate]} ∪ seen)
  end.

Definition pick_alternatives (now : time) (selected : Track) (results : list TrackSource)
    : list TrackSource :=
  alternatives_loop now selected
    (sort_stable (betterDiscoveryAlternative (Suffix selected)) results) [] ∅.

(** The first candidate of each source. *)
Fixpoint first_of_refs (seen : gset SourceRef) (l : list TrackSource) : list TrackSource :=
  match l with
  | [] => []
  | x :: l' => if bool_decide (ts_Ref x ∈ seen) then first_of_refs seen l'
               else x :: first_of_refs ({[ts_Ref x]} ∪ seen) l'
  end.

Lemma alternatives_loop_spec now selected results sources seen :
  (length sources < discoveryAlternativeMax)%nat →
  alternatives_loop now selected results sources seen =
  sources ++ imap (λ i, alternative_of now selected (length sources + i))
    (take (discoveryAlternativeMax - length sources)
       (first_of_refs seen (List.filter (acceptable selected) results))).
Proof.
  revert sources seen. induction results as [|c results IH]; intros sources seen Hlen; cbn [alternatives_loop List.filter].
  { cbn. rewrite take_nil. cbn. by rewrite app_nil_r. }
  unfold acceptable at 1.
  destruct (RequiresApproval (Availability c)); cbn [orb negb andb]; [by apply IH|].
  destruct (sameDiscoveredRecording selected c); cbn [negb]; [|by apply IH].
  cbn [first_of_refs]. case_bool_decide as Hseen; [by apply IH|].
  assert (discoveryAlternativeMax - length sources = S (discoveryAlternativeMax - S (length sources)))%nat
    as Hsub by lia.
  rewrite Hsub. cbn [firstn imap]. rewrite Nat.add_0_r.
  case_bool_decide as Hfull; rewrite length_app, Nat.add_1_r in Hfull.
  - replace (discoveryAlternativeMax - S (length sources))%nat with 0%nat by lia. cbn. done.
  - rewrite IH by (rewrite length_app; cbn; lia). rewrite length_app, Nat.add_1_r, <- app_assoc. cbn [app].
    do 2 f_equal. apply imap_ext. intros i x _. cbn. f_equal. lia.
Qed.

Lemma first_of_refs_fresh seen l x : x ∈ first_of_refs seen l → x ∈ l ∧ ts_Ref x ∉ seen.
Proof.
  revert seen. induction l as [|y l IH]; intros seen; cbn [first_of_refs]; [by intros ?%elem_of_nil|].
  case_bool_decide as Hy.
  - intros [Hx Hs]%IH. split; [by right|done].
  - intros [->|Hx]%elem_of_cons; [split; [by left|done]|].
    apply IH in Hx as [Hx Hs]. split; [by right|]. set_solver.
Qed.

Lemma first_of_refs_NoDup seen l : NoDup (map ts_Ref (first_of_refs seen l)).
Proof.
  revert seen. induction l as [|y l IH]; intros seen; cbn [first_of_refs]; [constructor|].
  case_bool_decide; [apply IH|]. cbn. constructor; [|apply IH].
  change (map ts_Ref ?k) with (ts_Ref <$> k). rewrite list_elem_of_fmap.
  intros (x & Hx & Hin). apply first_of_refs_fresh in Hin as [_ Hin]. set_solver.
Qed.

Lemma first_of_refs_sublist seen l : sublist (first_of_refs seen l) l.
Proof.
  revert seen. induction l as [|y l IH]; intros seen; cbn [first_of_refs]; [constructor|].
  case_bool_decide; by constructor.
Qed.

Lemma first_of_refs_complete seen l c :
  c ∈ l → ts_Ref c ∈ seen ∨ ts_Ref c ∈ map ts_Ref (first_of_refs seen l).
Proof.
  revert seen. induction l as [|y l IH]; intros seen; [by intros ?%elem_of_nil|].
  cbn [first_of_refs]. intros [->|Hc]%elem_of_cons; case_bool_decide as Hy.
  - by left.
  - right. by left.
  - by apply IH.
  - destruct (IH ({[ts_Ref y]} ∪ seen) Hc) as [[->%elem_of_singleton|Hs]%elem_of_union|Hs];
      [right; by left|by left|right; by right].
Qed.

Lemma sublist_firstn {A} n (l : list A) : sublist (take n l) l.
Proof. apply sublist_take. Qed.

Lemma sorted_by_sublist {A} (less : A → A → bool) l k : sublist l k → sorted_by less k → sorted_by less l.
Proof.
  unfold sorted_by. intros Hs Hk. induction Hs as [|x l k Hs IH|x l k Hs IH]; [done|..];
    apply StronglySorted_inv in Hk as [Hk Hx]; [|by apply IH].
  constructor; [by apply IH|]. apply Forall_forall. intros y Hy. rewrite Forall_forall in Hx. apply Hx.
  eapply sublist_subseteq; [exact Hs|done].
Qed.

Lemma better_strict_weak suffix : strict_weak (betterDiscoveryAlternative suffix).
Proof.
  unfold betterDiscoveryAlternative. split.
  - intros x. rewrite !eqb_reflx, Z.eqb_refl. cbn. lia.
  - intros x y z. destruct (same_suffix suffix x), (same_suffix suffix y), (same_suffix suffix z),
      (FreeUploadSlot (Availability x)), (FreeUploadSlot (Availability y)), (FreeUploadSlot (Availability z));
      cbn [eqb negb]; try done; repeat case_match; lia.
  - intros x y z. destruct (same_suffix suffix x), (same_suffix suffix y), (same_suffix suffix z),
      (FreeUploadSlot (Availability x)), (FreeUploadSlot (Availability y)), (FreeUploadSlot (Availability z));
      cbn [eqb negb]; try done; repeat case_match; lia.
Qed.
End matching.

(** [c] is at least as good a copy as [d]: first the format wanted, then a free
    upload slot, then the shorter queue, then the faster peer. *)
Definition preferred `{Unicode} (suffix : string) (c d : TrackSource) : Prop :=
  let format x := EqualFold (Suffix (ts_Track x)) suffix in
  (format d = true → format c = true) ∧
  (format c = format d →
    (FreeUploadSlot (Availability d) = true → FreeUploadSlot (Availability c) = true) ∧
    (FreeUploadSlot (Availability c) = FreeUploadSlot (Availability d) →
      QueueLength (Availability c) ≤ QueueLength (Availability d) ∧
      (QueueLength (Availability c) = QueueLength (Availability d) →
        UploadSpeed (Availability d) ≤ UploadSpeed (Availability c)))).

Lemma not_better_preferred `{Unicode} suffix c d : betterDiscoveryAlternative suffix d c = false → preferred suffix c d.
Proof.
  unfold betterDiscoveryAlternative, preferred, same_suffix.
  destruct (EqualFold (Suffix (ts_Track d)) suffix), (EqualFold (Suffix (ts_Track c)) suffix),
    (FreeUploadSlot (Availability d)), (FreeUploadSlot (Availability c)); cbn [eqb negb]; try done;
    destruct (QueueLength (Availability d) =? QueueLength (Availability c)) eqn:E; cbn [negb]; intros Hb;
    (split; [done|intros ?; try done; split; [done|intros ?; try done; lia]]).
Qed.

Lemma StronglySorted_impl {A} (P Q : A → A → Prop) l :
  (∀ x y, P x y → Q x y) → StronglySorted P l → StronglySorted Q l.
Proof. intros HPQ. induction 1 as [|x l Hs IH Hx]; constructor; [done|]. eapply Forall_impl; [exact Hx|]. auto. Qed.

(** The best distinct copies of a recording among search results: at most
    eight, of distinct references, all copies of it that need no approval, best
    first by format, free slot, queue and speed; and a copy is left out only when
    its source is picked already or eight are. *)
Record best_copies `{Unicode} (selected : Track) (results copies : list TrackSource) : Prop := {
  bc_few : (length copies ≤ 8)%nat;
  bc_distinct : NoDup (map ts_Ref copies);
  bc_sorted : StronglySorted (preferred (Suffix selected)) copies;
  bc_found c : c ∈ copies → c ∈ results ∧ RequiresApproval (Availability c) = false ∧
    sameDiscoveredRecording selected c = true;
  bc_complete c : c ∈ results → RequiresApproval (Availability c) = false → sameDiscoveredRecording selected c = true →
    ts_Ref c ∈ map ts_Ref copies ∨ length copies = 8%nat;
}.

(** The sources picked for a track are those, numbered by strictly decreasing
    discovery times. *)
Lemma alternatives_are_the_best_distinct_copies `{Unicode} now selected results :
  ∃ copies, best_copies selected results copies ∧
    pick_alternatives now selected results = imap (alternative_of now selected) copies.
Proof.
  set (better := betterDiscoveryAlternative (Suffix selected)).
  set (picked := take 8 (first_of_refs ∅ (List.filter (acceptable selected) (sort_stable better results)))).
  exists picked. split; [split|].
  - unfold picked. rewrite length_take. lia.
  - unfold picked. eapply sublist_NoDup; [apply (first_of_refs_NoDup ∅)|].
    apply (fmap_sublist ts_Ref), sublist_firstn.
  - eapply StronglySorted_impl; [intros x y; apply not_better_preferred|].
    eapply sorted_by_sublist; [apply sublist_firstn|].
    eapply sorted_by_sublist; [apply first_of_refs_sublist|].
    apply sorted_by_filter, sort_stable_sorted, better_strict_weak.
  - intros c Hc. apply (sublist_subseteq _ _ (sublist_firstn _ _)) in Hc.
    apply first_of_refs_fresh in Hc as [Hc _]. apply elem_of_filter_bool in Hc as [Hc Ha].
    rewrite sort_stable_perm in Hc. unfold acceptable in Ha. apply andb_true_iff in Ha as [Ha Hs].
    split_and!; [done|by destruct (RequiresApproval _)|done].
  - intros c Hc Hr Hsame. assert (acceptable selected c = true) as Ha by (unfold acceptable; by rewrite Hr, Hsame).
    destruct (first_of_refs_complete ∅ (List.filter (acceptable selected) (sort_stable better results)) c)
      as [?%elem_of_empty|Hin]; [|done|].
    + apply elem_of_filter_bool. by rewrite sort_stable_perm.
    + unfold picked. rewrite length_take. destruct (Nat.le_gt_cases 8
        (length (first_of_refs ∅ (List.filter (acceptable selected) (sort_stable better results))))); [right; lia|].
      left. by rewrite take_ge by lia.
  - unfold pick_alternatives. rewrite alternatives_loop_spec by (unfold discoveryAlternativeMax; cbn; lia). done.
Qed.

(** * The service *)

(** [ports.TrackSourceWriter], and [ports.TrackAliasWriter] when the catalog is
    one. *)
Class TrackSourceWriter (C : Type) := {
  writer_SaveTrackSources : list TrackSource → M C unit;
  writer_SaveTrackAlias : option (string → string → M C unit);
}.

(** The maps under the service's mutex, the network the provider searches and
    the catalog. *)
Record discovery_world (N C : Type) := mkDiscovery {
  dw_results : gmap string TrackSource;
  dw_collections : gmap string (SourceCollection * time);
  dw_net : N;
  dw_cat : C;
}.
Arguments mkDiscovery {_ _} _ _ _ _.
Arguments dw_results {_ _} _.
Arguments dw_collections {_ _} _.
Arguments dw_net {_ _} _.
Arguments dw_cat {_ _} _.

Section service.
Context {N C : Type} `{Unicode} `{TextNorm} `{TrackSourceWriter C}.
(** [provider.Search], and [BrowseCollection] when the provider is a browser. *)
Context (provider_Search : SearchQuery → M N (list TrackSource)).
Context (provider_Browse : option (TrackSource → M N SourceCollection)).

Definition on_net {A} (m : M N A) : M (discovery_world N C) A :=
  zoom dw_net (λ n w, mkDiscovery (dw_results w) (dw_collections w) n (dw_cat w)) m.
Definition on_cat {A} (m : M C A) : M (discovery_world N C) A :=
  zoom dw_cat (λ c w, mkDiscovery (dw_results w) (dw_collections w) (dw_net w) c) m.

Definition set_collection (id : string) (x : option (SourceCollection * time)) (w : discovery_world N C) :=
  mkDiscovery (dw_results w) (partial_alter (λ _, x) id (dw_collections w)) (dw_net w) (dw_cat w).

Definition stale (now : time) (result : TrackSource) : bool :=
  IsZero (DiscoveredAt result) || (time_Sub now (DiscoveredAt result) >? discoveryRetention).

(** The first loop of [Search]. *)
Definition drop_stale (now : time) (w : discovery_world N C) : discovery_world N C :=
  mkDiscovery (filter (λ x, stale now x.2 = false) (dw_results w))
    (filter (λ x, option_map (stale now) (dw_results w !! x.1) ≠ Some true) (dw_collections w))
    (dw_net w) (dw_cat w).

Definition keep_result (w : discovery_world N C) (result : TrackSource) : discovery_world N C :=
  mkDiscovery (<[ID (ts_Track result) := result]> (dw_results w))
    (delete (ID (ts_Track result)) (dw_collections w)) (dw_net w) (dw_cat w).

Definition Search (now : time) (query : SearchQuery) : M (discovery_world N C) (list TrackSource) :=
  results ← on_net (provider_Search query);
  _ ← modify (λ w, fold_left keep_result results (drop_stale now w));
  mret results.

(** Errors of the provider are not reported: there are no alternatives then. *)
Definition findAlternativeSources (now : time) (selected : Track)
    : M (discovery_world N C) (list TrackSource) :=
  let query := discoveryAlternativeQuery selected in
  if bool_decide (query = "") then mret []
  else
    r ← try (on_net (provider_Search (mkQuery query discoveryAlternativeLimit)));
    match r with
    | Err _ => mret []
    | Ok results => mret (pick_alternatives now selected results)
    end.

Definition with_track (t : Track) (s : TrackSource) : TrackSource :=
  mkSource t (ts_Ref s) (DisplayPath s) (Availability s) (DiscoveredAt s).

Definition logical_track (t : Track) : Track :=
  if HasCanonicalTrackIdentity t then with_id (CanonicalTrackID t) t else t.

Definition added_sources (logical : Track) (result : TrackSource) (alternatives : list TrackSource)
    : list TrackSource :=
  map (with_track logical)
    (List.filter (λ a, negb (bool_decide (ts_Ref a = ts_Ref result))) alternatives ++ [result]).

Definition save_alias (id trackID : string) : M (discovery_world N C) unit :=
  match writer_SaveTrackAlias with
  | Some save =>
      if bool_decide (id = trackID) then mret tt
      else wrap_err (λ e, Errorf "save discovered track alias: " e "") (on_cat (save id trackID))
  | None => mret tt
  end.

Definition Add (now : time) (id : string) : M (discovery_world N C) Track :=
  found ← gets (λ w, dw_results w !! id);
  match found with
  | None => throw (Sentinel ErrDiscoveryResultNotFound)
  | Some result =>
      alternatives ← findAlternativeSources now (ts_Track result);
      let logicalTrack := logical_track (ts_Track result) in
      _ ← wrap_err (λ e, Errorf "save discovered track: " e "")
        (on_cat (writer_SaveTrackSources (added_sources logicalTrack result alternatives)));
      _ ← save_alias id (ID logicalTrack);
      mret logicalTrack
  end.

Definition Refresh (now : time) (track : Track) : M (discovery_world N C) unit :=
  sources ← findAlternativeSources now track;
  if bool_decide (length sources = 0%nat) then throw (Sentinel ErrDiscoveryResultNotFound)
  else wrap_err (λ e, Errorf "save alternative track sources: " e "") (on_cat (writer_SaveTrackSources sources)).

Definition forget (id : string) (w : discovery_world N C) : discovery_world N C :=
  mkDiscovery (delete id (dw_results w)) (delete id (dw_collections w)) (dw_net w) (dw_cat w).

Definition Result (now : time) (id : string) : M (discovery_world N C) (option TrackSource) :=
  found ← gets (λ w, dw_results w !! id);
  match found with
  | None => mret None
  | Some result =>
      if stale now result then _ ← modify (forget id); mret None else mret (Some result)
  end.

Definition browse_collection (now : time) (id : string) (result : TrackSource)
    : M (discovery_world N C) SourceCollection :=
  match provider_Browse with
  | None => throw (Sentinel ErrCollectionBrowsingUnsupported)
  | Some browse =>
      collection ← wrap_err (λ e, Errorf "browse discovered collection: " e "") (on_net (browse result));
      if bool_decide (length (coll_Tracks collection) = 0%nat)
      then throw (Plain "discovered collection has no tracks")
      else
        _ ← modify (set_collection id (Some (collection, now)));
        mret collection
  end.

Definition PreviewCollection (now : time) (id : string) : M (discovery_world N C) SourceCollection :=
  found ← gets (λ w, dw_results w !! id);
  cached ← gets (λ w, dw_collections w !! id);
  match found with
  | None => throw (Sentinel ErrDiscoveryResultNotFound)
  | Some result =>
      match cached with
      | Some (value, cachedAt) =>
          if time_Sub now cachedAt <=? discoveryRetention then mret value
          else browse_collection now id result
      | None => browse_collection now id result
      end
  end.

Definition AddCollection (now : time) (id : string) : M (discovery_world N C) SourceCollection :=
  collection ← PreviewCollection now id;
  _ ← wrap_err (λ e, Errorf "save discovered collection: " e "")
    (on_cat (writer_SaveTrackSources (coll_Tracks collection)));
  mret collection.

(** Neither looking for alternatives nor previewing touches the catalog. *)
Lemma findAlternativeSources_keeps now selected : read_only dw_cat (findAlternativeSources now selected).
Proof.
  intros w r w'. unfold findAlternativeSources, mbind, M_bind, try, on_net, zoom, mret, M_ret.
  case_bool_decide; [by intros [= <- <-]|]. destruct (provider_Search _ _) as [[results|e] n]; by intros [= <- <-].
Qed.

(** What the provider answers to the search for other copies of [selected]:
    nothing when there is nothing to search for or the search fails. *)
Definition search_answer (selected : Track) (w : discovery_world N C) : list TrackSource :=
  if bool_decide (discoveryAlternativeQuery selected = "") then []
  else match (provider_Search (mkQuery (discoveryAlternativeQuery selected) 100) (dw_net w)).1 with
       | Ok results => results
       | Err _ => []
       end.

Lemma findAlternativeSources_best now selected w :
  ∃ copies w', best_copies selected (search_answer selected w) copies ∧ dw_cat w' = dw_cat w ∧
    findAlternativeSources now selected w = (Ok (imap (alternative_of now selected) copies), w').
Proof.
  assert (best_copies selected [] []) as Hnil by (split; [cbn; lia|constructor|constructor|by intros ? ?%elem_of_nil..]).
  unfold search_answer, findAlternativeSources, mbind, M_bind, try, on_net, zoom, mret, M_ret.
  case_bool_decide; [by exists [], w|]. change discoveryAlternativeLimit with 100.
  destruct (provider_Search _ _) as [[results|e] n]; cbn [fst];
    [|by exists [], (mkDiscovery (dw_results w) (dw_collections w) n (dw_cat w))].
  destruct (alternatives_are_the_best_distinct_copies now selected results) as (copies & Hc & ->).
  exists copies, (mkDiscovery (dw_results w) (dw_collections w) n (dw_cat w)). by split_and!.
Qed.

Lemma alternatives_refs now selected copies : map ts_Ref (imap (alternative_of now selected) copies) = map ts_Ref copies.
Proof.
  change (map ts_Ref ?l) with (ts_Ref <$> l). rewrite fmap_imap. erewrite imap_ext; [apply imap_const|]. done.
Qed.
End service.

(** * Over the SQLite catalog *)

#[export] Instance sqlTrackSourceWriter : TrackSourceWriter db := {|
  writer_SaveTrackSources := SaveTrackSources;
  writer_SaveTrackAlias := Some SaveTrackAlias;
|}.

Definition saved_source (t : library) (s : TrackSource) : library :=
  with_sources (<[ts_Ref s := (ID (ts_Track s), DiscoveredAt s)]>) (upsert_track (ts_Track s) t).

Lemma saveTrackSource_Ok s d u d' :
  saveTrackSource s d = (Ok u, d') → tables d' = saved_source (tables d) s.
Proof.
  unfold saveTrackSource. destruct (_ || _); [done|]. intros E.
  apply bind_Ok_inv in E as (a & d1 & E1 & E2). apply wrap_err_Ok_inv, ExecContext_Ok in E1.
  apply wrap_err_Ok_inv, statement_Ok in E2. unfold upsert_source in E2. rewrite E1 in E2.
  destruct (tracks _ !! ID (ts_Track s)); [|done]. by injection E2 as <-.
Qed.

Lemma SaveTrackSources_Ok l d u d' :
  SaveTrackSources l d = (Ok u, d') → tables d' = fold_left saved_source l (tables d).
Proof.
  unfold SaveTrackSources. case_bool_decide as Hl.
  { destruct l; [|done]. by intros [= <- <-]. }
  intros (d1 & d2 & <- & E & ->)%transaction_Ok. clear Hl. revert d1 u E.
  induction l as [|s l IH]; intros d1 u E; cbn [miter] in E; [by injection E as <- <-|].
  apply bind_Ok_inv in E as (a & d3 & E1 & E2). cbn [fold_left].
  apply saveTrackSource_Ok in E1 as <-. by eapply IH.
Qed.

Lemma SaveTrackSources_clean l : fails_clean tables (SaveTrackSources l).
Proof. unfold SaveTrackSources. case_bool_decide; [by intros ? ? ?|apply transaction_clean]. Qed.

(** Saving sources that all carry one track. *)
Lemma saved_sources_of_track track l t :
  Forall (λ s, ts_Track s = track) l → l ≠ [] →
  let t' := fold_left saved_source l t in
  tracks t' = <[ID track := stored_track track]> (tracks t) ∧ track_aliases t' = track_aliases t ∧
  (∀ ref, ref ∉ map ts_Ref l → track_sources t' !! ref = track_sources t !! ref) ∧
  (NoDup (map ts_Ref l) → ∀ s, s ∈ l → track_sources t' !! ts_Ref s = Some (ID track, DiscoveredAt s)).
Proof.
  cbv zeta. intros Hl Hne. induction l as [|s l IH] using rev_ind; [done|]. clear Hne.
  apply Forall_app in Hl as [Hl Hs]. rewrite Forall_singleton in Hs. rewrite fold_left_app. cbn [fold_left].
  rewrite map_app. change (map ts_Ref [s]) with [ts_Ref s].
  unfold saved_source at 1 3 5 7. cbn [tracks track_aliases track_sources with_sources upsert_track with_tracks].
  rewrite Hs. destruct l as [|x l].
  { cbn. split_and!; [done|done| |].
    - intros ref Hr. rewrite lookup_insert_ne; [done|]. set_solver.
    - intros _ s' ->%list_elem_of_singleton. apply lookup_insert_eq. }
  destruct (IH Hl) as (IHt & IHa & IHo & IHs); [done|].
  unfold upsert_track. cbn [tracks track_aliases track_sources with_tracks]. split_and!.
  - rewrite IHt. apply insert_insert_eq.
  - done.
  - intros ref Hr. rewrite elem_of_app, list_elem_of_singleton in Hr.
    rewrite lookup_insert_ne by (intros Heq; apply Hr; by right). apply IHo. tauto.
  - intros (Hnd & Hd & _)%NoDup_app s' [Hs'| ->%list_elem_of_singleton]%elem_of_app; [|apply lookup_insert_eq].
    rewrite lookup_insert_ne; [by apply IHs|]. intros Heq. apply (Hd (ts_Ref s')); [|rewrite Heq; by left].
    change (ts_Ref s' ∈ ts_Ref <$> x :: l). by apply list_elem_of_fmap_2.
Qed.

Lemma SaveTrackAlias_Ok a id d u d' :
  SaveTrackAlias a id d = (Ok u, d') →
  tracks (tables d') = tracks (tables d) ∧ track_sources (tables d') = track_sources (tables d) ∧
  (a ≠ "" → id ≠ "" → a ≠ id → track_aliases (tables d') !! a = Some id).
Proof.
  unfold SaveTrackAlias. destruct (_ || _) eqn:Hc.
  { intros [= <- <-]. split_and!; [done|done|]. intros Ha Hi Hai. exfalso.
    rewrite !orb_true_iff, !bool_decide_eq_true in Hc. tauto. }
  intros E%wrap_err_Ok_inv%statement_Ok. cbn beta in E. destruct (tracks (tables d) !! id); [|done].
  injection E as _ <-. split_and!; [done|done|]. intros _ _ _. apply lookup_insert_eq.
Qed.

Lemma SaveTrackAlias_clean a id : fails_clean tables (SaveTrackAlias a id).
Proof.
  unfold SaveTrackAlias. destruct (_ || _); [by intros ? ? ?|]. apply fails_clean_wrap_err, statement_clean.
Qed.

Section added.
Context {N : Type} `{Unicode} `{TextNorm} (provider_Search : SearchQuery → M N (list TrackSource)).

Lemma added_sources_track logical result alternatives :
  Forall (λ s, ts_Track s = logical) (added_sources logical result alternatives).
Proof. unfold added_sources. apply Forall_map, Forall_true. done. Qed.

Lemma added_sources_refs logical result alternatives :
  map ts_Ref (added_sources logical result alternatives) =
  map ts_Ref (List.filter (λ a, negb (bool_decide (ts_Ref a = ts_Ref result))) alternatives) ++ [ts_Ref result].
Proof. unfold added_sources. rewrite map_map, map_app. done. Qed.

Lemma added_sources_NoDup logical result alternatives :
  NoDup (map ts_Ref alternatives) → NoDup (map ts_Ref (added_sources logical result alternatives)).
Proof.
  intros Hnd. rewrite added_sources_refs. apply NoDup_app. split_and!.
  - by apply NoDup_map_filter.
  - intros ref Hr ->%list_elem_of_singleton.
    change (map ts_Ref ?k) with (ts_Ref <$> k) in Hr. apply list_elem_of_fmap in Hr as (a & Ha & Hin).
    apply elem_of_filter_bool in Hin as [_ Hin]. rewrite bool_decide_eq_true_2 in Hin; done.
  - apply NoDup_singleton.
Qed.

(** What saving the sources of an added result leaves in the catalog. *)
Lemma added_sources_saved logical result alternatives t :
  NoDup (map ts_Ref alternatives) →
  let t' := fold_left saved_source (added_sources logical result alternatives) t in
  tracks t' = <[ID logical := stored_track logical]> (tracks t) ∧
  track_sources t' !! ts_Ref result = Some (ID logical, DiscoveredAt result) ∧
  (∀ a, a ∈ alternatives → ts_Ref a ≠ ts_Ref result →
     track_sources t' !! ts_Ref a = Some (ID logical, DiscoveredAt a)) ∧
  (∀ ref, ref ≠ ts_Ref result → ref ∉ map ts_Ref alternatives →
     track_sources t' !! ref = track_sources t !! ref).
Proof.
  intros Hnd. cbv zeta.
  destruct (saved_sources_of_track logical (added_sources logical result alternatives) t) as (Ht & Ha & Ho & Hs).
  { apply added_sources_track. }
  { intros Hnil. apply (f_equal (map ts_Ref)) in Hnil. rewrite added_sources_refs in Hnil.
    by destruct (map ts_Ref _) in Hnil. }
  specialize (Hs (added_sources_NoDup _ _ _ Hnd)). split_and!.
  - done.
  - apply (Hs (with_track logical result)). unfold added_sources. change (map ?f ?l) with (f <$> l).
    apply list_elem_of_fmap_2, elem_of_app. right. by left.
  - intros a Hin Hne. apply (Hs (with_track logical a)). unfold added_sources. change (map ?f ?l) with (f <$> l).
    apply list_elem_of_fmap_2, elem_of_app. left. apply elem_of_filter_bool. split; [done|].
    by rewrite bool_decide_eq_false_2.
  - intros ref Hne Hni. apply Ho. rewrite added_sources_refs, elem_of_app, list_elem_of_singleton.
    intros [Hin|?]; [|done]. apply Hni. eapply sublist_subseteq; [|exact Hin].
    apply (fmap_sublist ts_Ref), sublist_filter_bool.
Qed.

(** The catalog [t'] holds the logical track of [result], which is [t]'s but
    for that, and attached to it the selected source and the given copies in
    their order, other sources as in [t]. *)
Definition attaches (now : time) (result : TrackSource) (copies : list TrackSource) (t t' : library) : Prop :=
  let logical := logical_track (ts_Track result) in
  tracks t' = <[ID logical := stored_track logical]> (tracks t) ∧
  track_sources t' !! ts_Ref result = Some (ID logical, DiscoveredAt result) ∧
  (∀ n c, copies !! n = Some c → ts_Ref c ≠ ts_Ref result →
     track_sources t' !! ts_Ref c = Some (ID logical, time_Add now (- Z.of_nat n))) ∧
  (∀ ref, ref ≠ ts_Ref result → ref ∉ map ts_Ref copies → track_sources t' !! ref = track_sources t !! ref).

Lemma added_attaches now result copies t : NoDup (map ts_Ref copies) →
  attaches now result copies t (fold_left saved_source
    (added_sources (logical_track (ts_Track result)) result (imap (alternative_of now (ts_Track result)) copies)) t).
Proof.
  intros Hnd.
  destruct (added_sources_saved (logical_track (ts_Track result)) result (imap (alternative_of now (ts_Track result)) copies) t)
    as (Ht & Hres & Halt & Hoth); [by rewrite alternatives_refs|].
  split_and!; [done|done| |by rewrite alternatives_refs in Hoth].
  intros n c Hc Hne. apply (Halt (alternative_of now (ts_Track result) n c)); [|done].
  apply list_elem_of_lookup_2 with n. by rewrite list_lookup_imap, Hc.
Qed.

End added.

Definition found_source (id key : string) : TrackSource :=
  mkSource (mkTrack id "Song" "Band" "" "Album" "" "" "" 0 0 0 "" 0 10 0 "flac" "audio/flac" "")
    (mkRef "soulseek" key) "Band/Song.flac" (mkAvailability "p" 0 0 true false) 5.

#[local] Existing Instance ascii_unicode.
#[local] Existing Instance ascii_norm.

Definition toy_search : SearchQuery → M unit (list TrackSource) :=
  λ _ n, (Ok [found_source "s1" "a"; found_source "s2" "b"], n).

Definition toy_discovery : discovery_world unit db :=
  mkDiscovery {["s1" := found_source "s1" "a"]} ∅ tt
    (mkDatabase (mkLibrary ∅ ∅ ∅ ∅ ∅ ∅ ∅ ∅ ∅ None) []).

Definition toy_added : res Track * discovery_world unit db := Add toy_search 10 "s1" toy_discovery.

Lemma toy_added_ok : toy_added = (Ok (logical_track (ts_Track (found_source "s1" "a"))), toy_added.2).
Proof. vm_compute. reflexivity. Qed.

