(* ===== verification/Paths.v ===== *)
(** Paths as lists of elements: [path.Clean] and [filepath.Join] on names that
    stay where they are put. *)
From stdpp Require Import base strings list.
From Stdlib Require Import ZArith Lia Ascii.
From S2P Require Import Prelude GoStrings.

Open Scope Z_scope.

(** An element [Clean] keeps and that does not lead upwards. *)
Definition kept (e : string) : Prop := e ≠ "" ∧ e ≠ "." ∧ lacks slash e.
Definition proper (e : string) : Prop := kept e ∧ e ≠ "..".

Definition abs_path (names : list string) : string := "/" +:+ Join names "/".

Lemma list_ascii_app s t :
  String.list_ascii_of_string (s +:+ t) = String.list_ascii_of_string s ++ String.list_ascii_of_string t.
Proof.
  induction s as [|a s IH]; [done|]. change (String a s +:+ t) with (String a (s +:+ t)). cbn. by rewrite IH.
Qed.

Lemma lacks_cons sep a s : lacks sep (String a s) ↔ a ≠ sep ∧ lacks sep s.
Proof. unfold lacks. cbn. rewrite not_elem_of_cons. naive_solver. Qed.

Lemma str_app_nil_r s : s +:+ "" = s.
Proof. induction s as [|a s IH]; [done|]. change (String a (s +:+ "") = String a s). by rewrite IH. Qed.

Lemma Split_not_nil sep s : Split sep s ≠ [].
Proof. destruct s as [|a s]; cbn [Split]; [done|]. case_bool_decide; [done|]. by destruct (Split sep s). Qed.

Lemma Split_app sep s t : lacks sep s → Split sep (s +:+ String sep t) = s :: Split sep t.
Proof.
  induction s as [|a s IH].
  - intros _. change ("" +:+ String sep t) with (String sep t). cbn [Split]. by rewrite bool_decide_eq_true_2.
  - intros [Ha Hs]%lacks_cons. change (String a s +:+ String sep t) with (String a (s +:+ String sep t)).
    cbn [Split]. rewrite bool_decide_eq_false_2 by done. by rewrite IH.
Qed.

Lemma Join_cons x y l sep : Join (x :: y :: l) sep = x +:+ sep +:+ Join (y :: l) sep.
Proof. done. Qed.

Lemma Split_Join l : l ≠ [] → Forall (lacks slash) l → Split slash (Join l "/") = l.
Proof.
  induction l as [|x l IH]; [done|]. intros _ [Hx Hl]%Forall_cons. destruct l as [|y l].
  - cbn [Join]. by apply Split_lacks.
  - rewrite Join_cons. change ("/" +:+ Join (y :: l) "/") with (String slash (Join (y :: l) "/")).
    rewrite Split_app by done. by rewrite IH.
Qed.

Lemma Join_Split s : Join (Split slash s) "/" = s.
Proof.
  induction s as [|a s IH]; [done|]. cbn [Split]. case_bool_decide as Ha.
  - subst a. pose proof (Split_not_nil slash s). destruct (Split slash s) as [|w ws] eqn:E; [done|].
    rewrite Join_cons, IH. done.
  - pose proof (Split_not_nil slash s). destruct (Split slash s) as [|w ws] eqn:E; [done|].
    rewrite <- IH. by destruct ws.
Qed.

Lemma Split_elements s : Forall (lacks slash) (Split slash s).
Proof.
  induction s as [|a s IH]; cbn [Split]; [repeat constructor; by intros ?%elem_of_nil|].
  case_bool_decide as Ha; [constructor; [by intros ?%elem_of_nil|done]|].
  destruct (Split slash s) as [|w ws]; [repeat constructor; apply lacks_cons; split; [done|by intros ?%elem_of_nil]|].
  apply Forall_cons in IH as [Hw Hws]. constructor; [by apply lacks_cons|done].
Qed.

(** What the stack of [Clean] looks like: names above, leading dots below. *)
Definition stack_ok (rooted : bool) (stack : list string) : Prop :=
  ∃ names n, stack = names ++ replicate n ".." ∧ Forall proper names ∧ (rooted = true → n = 0%nat).

Lemma clean_step_ok rooted stack e :
  lacks slash e → stack_ok rooted stack → stack_ok rooted (clean_step rooted stack e).
Proof.
  intros He (names & n & -> & Hn & Hr). unfold clean_step.
  destruct (bool_decide (e = "") || bool_decide (e = ".")) eqn:E; [by exists names, n|].
  apply orb_false_iff in E as [E1%bool_decide_eq_false E2%bool_decide_eq_false].
  case_bool_decide as Hd.
  - subst e. destruct names as [|top names]; cbn [app].
    + destruct n as [|n]; cbn [replicate].
      * destruct rooted; [by exists [], 0%nat|]. exists [], 1%nat. by split_and!.
      * rewrite bool_decide_eq_true_2 by done. exists [], (S (S n)). split_and!; [done|constructor|].
        intros H. by specialize (Hr H).
    + apply Forall_cons in Hn as [[_ Ht] Hn]. rewrite bool_decide_eq_false_2 by done. by exists names, n.
  - exists (e :: names), n. split_and!; [done| |done]. constructor; [|done]. by split.
Qed.

Lemma clean_stack_ok rooted elems : Forall (lacks slash) elems → stack_ok rooted (clean_stack rooted elems).
Proof.
  unfold clean_stack. assert (stack_ok rooted []) as Hs by (exists [], 0%nat; by split_and!).
  revert Hs. generalize (@nil string) as stack.
  induction elems as [|e elems IH]; intros stack Hs He; cbn [fold_left]; [done|].
  apply Forall_cons in He as [He Hes]. apply IH; [|done]. by apply clean_step_ok.
Qed.

Lemma clean_step_proper rooted stack e : proper e → clean_step rooted stack e = e :: stack.
Proof.
  intros [(H1 & H2 & _) H3]. unfold clean_step.
  by rewrite !bool_decide_eq_false_2 by done.
Qed.

Lemma fold_clean_proper rooted names stack :
  Forall proper names → fold_left (clean_step rooted) names stack = rev names ++ stack.
Proof.
  revert stack. induction names as [|e names IH]; intros stack; [done|]. intros [He Hn]%Forall_cons.
  cbn [fold_left rev]. rewrite clean_step_proper, IH by done. by rewrite <- app_assoc.
Qed.

Lemma proper_lacks e : proper e → lacks slash e.
Proof. by intros [(_ & _ & ?) _]. Qed.

Lemma Forall_proper_lacks names : Forall proper names → Forall (lacks slash) names.
Proof. intros H. eapply Forall_impl; [exact H|]. apply proper_lacks. Qed.

(** [Clean] of an absolute path that continues with more elements. *)
Lemma Clean_abs root elems :
  Forall proper root → elems ≠ [] → Forall (lacks slash) elems →
  Clean (abs_path root +:+ "/" +:+ Join elems "/") =
  abs_path (rev (fold_left (clean_step true) elems (rev root))).
Proof.
  intros Hr Hne He. unfold Clean.
  assert (HasPrefix (abs_path root +:+ "/" +:+ Join elems "/") "/" = true) as ->.
  { unfold abs_path. rewrite <- str_app_assoc. apply HasPrefix_app. }
  assert (clean_stack true (Split slash (abs_path root +:+ "/" +:+ Join elems "/")) =
          fold_left (clean_step true) elems (rev root)) as ->.
  { unfold abs_path, clean_stack. rewrite <- str_app_assoc.
    change ("/" +:+ (Join root "/" +:+ ("/" +:+ Join elems "/"))) with
      ("" +:+ String slash (Join root "/" +:+ ("/" +:+ Join elems "/"))).
    rewrite Split_app by (by intros ?%elem_of_nil). cbn [fold_left].
    change (clean_step true [] "") with (@nil string).
    assert (∀ stack : list string, fold_left (clean_step true)
       (Split slash (Join root "/" +:+ ("/" +:+ Join elems "/"))) stack =
       fold_left (clean_step true) elems (rev root ++ stack)) as Hgo; [|by rewrite Hgo, app_nil_r].
    induction root as [|x root IH]; intros stack.
    - change (Join [] "/" +:+ ("/" +:+ Join elems "/")) with ("" +:+ String slash (Join elems "/")).
      rewrite Split_app by (by intros ?%elem_of_nil). cbn [fold_left].
      rewrite Split_Join by done. by destruct stack.
    - apply Forall_cons in Hr as [Hx Hr]. destruct root as [|y root].
      + change (Join [x] "/" +:+ ("/" +:+ Join elems "/")) with (x +:+ String slash (Join elems "/")).
        rewrite Split_app by (by apply proper_lacks). cbn [fold_left]. rewrite clean_step_proper by done.
        rewrite Split_Join by done. done.
      + rewrite Join_cons. rewrite <- !str_app_assoc.
        change (x +:+ ("/" +:+ (Join (y :: root) "/" +:+ ("/" +:+ Join elems "/")))) with
          (x +:+ String slash (Join (y :: root) "/" +:+ ("/" +:+ Join elems "/"))).
        rewrite Split_app by (by apply proper_lacks). cbn [fold_left]. rewrite clean_step_proper by done.
        rewrite IH by done. cbn [rev]. by rewrite <- !app_assoc. }
  unfold abs_path. by case_bool_decide.
Qed.

Lemma rev_replicate {A} n (x : A) : rev (replicate n x) = replicate n x.
Proof.
  induction n as [|n IH]; [done|]. cbn [replicate rev]. rewrite IH. clear IH.
  induction n as [|n IH]; [done|]. cbn [replicate app]. by rewrite IH.
Qed.

(** A path that is clean and does not climb stays below wherever it is put. *)
Lemma clean_path_stays p :
  Clean p = p → p ≠ ".." → HasPrefix p "../" = false →
  ∃ names, Forall proper names ∧
    ∀ rooted stack, fold_left (clean_step rooted) (Split slash p) stack = rev names ++ stack.
Proof.
  intros Hc Hdd Hup. unfold Clean in Hc.
  pose proof (clean_stack_ok (HasPrefix p "/") (Split slash p) (Split_elements p)) as (names & n & Hst & Hn & Hr).
  rewrite Hst in Hc. exists (rev names).
  assert (Forall proper (rev names)) as Hn' by (by apply List.Forall_rev).
  split; [done|]. intros rooted stack.
  destruct (HasPrefix p "/") eqn:Hroot.
  - rewrite (Hr eq_refl) in Hc. cbn [replicate] in Hc. rewrite app_nil_r in Hc.
    rewrite bool_decide_eq_false_2 in Hc by done. rewrite <- Hc.
    change ("/" +:+ Join (rev names) "/") with ("" +:+ String slash (Join (rev names) "/")).
    rewrite Split_app by (by intros ?%elem_of_nil). cbn [fold_left].
    change (clean_step rooted stack "") with stack.
    destruct (rev names) as [|x l] eqn:E; [by destruct stack|]. rewrite Split_Join; [|done|].
    + by rewrite fold_clean_proper by done.
    + by apply Forall_proper_lacks.
  - change ("" +:+ Join (rev (names ++ replicate n "..")) "/") with (Join (rev (names ++ replicate n "..")) "/") in Hc.
    rewrite rev_app_distr, rev_replicate in Hc. destruct n as [|n].
    + cbn [replicate app] in Hc. destruct (bool_decide (Join (rev names) "/" = "")) eqn:Hempty; [apply bool_decide_eq_true in Hempty|].
      * destruct (rev names) as [|x l] eqn:E.
        -- by rewrite <- Hc.
        -- exfalso. apply Forall_cons in Hn' as [[[Hx _] _] _]. destruct l; cbn [Join] in Hempty; [done|].
           by destruct x.
      * rewrite <- Hc. destruct (rev names) as [|x l] eqn:E; [done|]. rewrite Split_Join; [|done|].
        -- by rewrite fold_clean_proper by done.
        -- by apply Forall_proper_lacks.
    + exfalso. cbn [replicate app] in Hc. destruct (replicate n ".." ++ rev names) as [|x l] eqn:E.
      * cbn [Join] in Hc. by apply Hdd.
      * rewrite Join_cons in Hc. rewrite bool_decide_eq_false_2 in Hc by done. rewrite <- Hc in Hup.
        change (".." +:+ "/" +:+ Join (x :: l) "/") with ("../" +:+ Join (x :: l) "/") in Hup.
        by rewrite HasPrefix_app in Hup.
Qed.

Lemma Split_lacks_all e : lacks slash e → Split slash e = [e].
Proof. apply Split_lacks. Qed.

Lemma JoinPath_inside root h p :
  Forall proper root → proper h → p ≠ "" → Clean p = p → p ≠ ".." → HasPrefix p "../" = false →
  ∃ names, Forall proper names ∧ JoinPath [abs_path root; h; p] = abs_path (root ++ h :: names).
Proof.
  intros Hr Hh Hp Hc Hdd Hup. destruct (clean_path_stays p Hc Hdd Hup) as (names & Hn & Hfold).
  exists names. split; [done|].
  assert (h ≠ "") as Hh0 by (by destruct Hh as [[? _] _]).
  assert (abs_path root ≠ "") as Hr0 by discriminate.
  unfold JoinPath. cbn [List.filter]. rewrite !bool_decide_eq_false_2 by assumption. cbn [negb].
  rewrite Join_cons. rewrite <- (Join_Split p) at 1. pose proof (Split_not_nil slash p).
  destruct (Split slash p) as [|x l] eqn:E; [done|].
  change (Join [h; Join (x :: l) "/"] "/") with (Join (h :: x :: l) "/").
  rewrite Clean_abs; [|done|done|constructor; [by apply proper_lacks|rewrite <- E; apply Split_elements]].
  change (fold_left (clean_step true) (h :: x :: l) (rev root)) with
    (fold_left (clean_step true) (x :: l) (clean_step true (rev root) h)).
  rewrite clean_step_proper, Hfold by done.
  rewrite rev_app_distr, rev_involutive. cbn [rev]. rewrite rev_involutive, <- app_assoc. done.
Qed.

Lemma lacks_slash_prefix s t : lacks slash s → s ≠ "" → HasPrefix (s +:+ t) "/" = false.
Proof.
  destruct s as [|a s]; [done|]. intros [Ha _]%lacks_cons _. apply not_true_is_false.
  intros [=E]%HasPrefix_spec. by apply Ha.
Qed.

Lemma Clean_proper parts : parts ≠ [] → Forall proper parts → Clean (Join parts "/") = Join parts "/".
Proof.
  intros Hne Hp. unfold Clean. destruct parts as [|x parts]; [done|].
  pose proof Hp as [Hx _]%Forall_cons.
  assert (HasPrefix (Join (x :: parts) "/") "/" = false) as ->.
  { destruct parts as [|y parts].
    - cbn [Join]. rewrite <- (str_app_nil_r x). apply lacks_slash_prefix; [by apply proper_lacks|by destruct Hx as [[? _] _]].
    - rewrite Join_cons. apply lacks_slash_prefix; [by apply proper_lacks|by destruct Hx as [[? _] _]]. }
  unfold clean_stack. rewrite Split_Join; [|done|by apply Forall_proper_lacks].
  rewrite fold_clean_proper, app_nil_r, rev_involutive by done.
  change ("" +:+ Join (x :: parts) "/") with (Join (x :: parts) "/").
  rewrite bool_decide_eq_false_2; [done|]. destruct Hx as [[Hx _] _].
  destruct parts; [done|]. rewrite Join_cons. by destruct x.
Qed.

Lemma Join_app l k : l ≠ [] → k ≠ [] → Join (l ++ k) "/" = Join l "/" +:+ "/" +:+ Join k "/".
Proof.
  intros Hl Hk. induction l as [|x l IH]; [done|]. destruct l as [|y l].
  - by destruct k.
  - change ((x :: y :: l) ++ k) with (x :: y :: l ++ k). rewrite !Join_cons.
    change (y :: l ++ k) with ((y :: l) ++ k). rewrite IH by done. by rewrite !str_app_assoc.
Qed.

Lemma JoinPath_proper root names :
  Forall proper root → names ≠ [] → Forall proper names →
  JoinPath (abs_path root :: names) = abs_path (root ++ names).
Proof.
  intros Hr Hn Hp.
  assert (List.filter (λ e, negb (bool_decide (e = ""))) (abs_path root :: names) = abs_path root :: names) as Hf.
  { cbn [List.filter]. rewrite bool_decide_eq_false_2 by done. cbn [negb]. f_equal. clear Hn.
    induction Hp as [|e l [[He _] _] _ IH]; [done|]. cbn. rewrite bool_decide_eq_false_2 by done. cbn. by rewrite IH. }
  unfold JoinPath. rewrite Hf. destruct names as [|x l]; [done|]. rewrite Join_cons.
  rewrite Clean_abs by (try done; by apply Forall_proper_lacks). by rewrite fold_clean_proper, rev_app_distr, !rev_involutive.
Qed.

(** * Names of files *)

Lemma last_dot_suffix s e : last_dot s = Some e → ∃ t, s = t +:+ e.
Proof.
  revert e. induction s as [|a s IH]; intros e; cbn [last_dot]; [done|].
  destruct (last_dot s) as [e'|]; [intros [= <-]; destruct (IH e' eq_refl) as [t ->]; by exists (String a t)|].
  case_bool_decide; [|done]. intros [= <-]. by exists "".
Qed.

Lemma Ext_suffix name e : lacks slash name → e ≠ "" → Ext name = e → ∃ t, name = t +:+ e.
Proof.
  intros Hl He. unfold Ext, last_elem. rewrite Split_lacks_all by done. cbn.
  destruct (last_dot name) as [e'|] eqn:E; cbn; [|done]. intros <-. by apply last_dot_suffix.
Qed.

Lemma str_app_inj_suffix s t u v : String.length u = String.length v → s +:+ u = t +:+ v → u = v.
Proof.
  intros Hl E. apply (f_equal String.list_ascii_of_string) in E. rewrite !list_ascii_app in E.
  assert (∀ x, length (String.list_ascii_of_string x) = String.length x) as Hlen by (induction x; cbn; auto).
  apply app_inj_2 in E as [_ E]; [|by rewrite !Hlen].
  by rewrite <- (String.string_of_list_ascii_of_string u), E, String.string_of_list_ascii_of_string.
Qed.

Lemma abs_path_inj l x y : Forall proper l → proper x → proper y → abs_path (l ++ [x]) = abs_path (l ++ [y]) → x = y.
Proof.
  intros Hl Hx Hy. unfold abs_path. intros E. injection E as E. change (Join (l ++ [x]) "/" = Join (l ++ [y]) "/") in E.
  apply (f_equal (Split slash)) in E. rewrite !Split_Join in E.
  - by apply app_inv_head in E as [= ->].
  - by destruct l.
  - apply Forall_proper_lacks, Forall_app. split; [done|by constructor].
  - by destruct l.
  - apply Forall_proper_lacks, Forall_app. split; [done|by constructor].
Qed.

Lemma abs_path_ends l x : ∃ s, abs_path (l ++ [x]) = s +:+ x.
Proof.
  unfold abs_path. destruct l as [|y l]; [by exists "/"|]. rewrite (Join_app (y :: l) [x]) by done. change (Join [x] "/") with x.
  exists ("/" +:+ Join (y :: l) "/" +:+ "/"). by rewrite <- !str_app_assoc.
Qed.

Section entries.
Context (state : list string) (Hstate : Forall proper state).

Definition entry_path (name : string) : string := JoinPath [abs_path state; name].

Lemma entry_path_inj n m : proper n → proper m → entry_path n = entry_path m → n = m.
Proof.
  intros Hn Hm. unfold entry_path. rewrite !JoinPath_proper by (try done; by constructor). by apply abs_path_inj.
Qed.

(** A temporary file is not taken for a record. *)
Lemma entry_not_temporary name path : proper name → Ext name = ".json" → entry_path name ≠ path +:+ ".tmp".
Proof.
  intros Hn He. apply Ext_suffix in He as [t ->]; [|by apply proper_lacks|done].
  unfold entry_path. rewrite JoinPath_proper by (try done; by constructor).
  destruct (abs_path_ends state (t +:+ ".json")) as [s ->]. rewrite str_app_assoc. intros E.
  change ".json" with ("." +:+ "json") in E. change ".tmp" with ("" +:+ ".tmp") in E. rewrite !str_app_assoc in E.
  by apply str_app_inj_suffix in E.
Qed.
End entries.
