(* ===== verification/AudioFormats.v ===== *)
(** Supported audio formats ([audioformat/format.go]). *)
From stdpp Require Import base gmap strings list.
From Stdlib Require Import ZArith Lia.
From S2P Require Import Prelude GoStrings.

Open Scope Z_scope.

Record Format := mkFormat {
  fmt_Suffix : string;
  fmt_ContentType : string;
}.

Definition supported : gmap string Format := list_to_map
  [(".aac", mkFormat "aac" "audio/aac"); (".aif", mkFormat "aif" "audio/aiff");
   (".aiff", mkFormat "aiff" "audio/aiff"); (".alac", mkFormat "alac" "audio/mp4");
   (".ape", mkFormat "ape" "audio/ape"); (".flac", mkFormat "flac" "audio/flac");
   (".m4a", mkFormat "m4a" "audio/mp4"); (".m4b", mkFormat "m4b" "audio/mp4");
   (".mp3", mkFormat "mp3" "audio/mpeg"); (".mpc", mkFormat "mpc" "audio/x-musepack");
   (".oga", mkFormat "oga" "audio/ogg"); (".ogg", mkFormat "ogg" "audio/ogg");
   (".opus", mkFormat "opus" "audio/ogg"); (".wav", mkFormat "wav" "audio/wav");
   (".wma", mkFormat "wma" "audio/x-ms-wma"); (".wv", mkFormat "wv" "audio/wavpack")].

Section formats.
Context `{Unicode}.

Definition ByExtension (extension : string) : option Format :=
  let extension := ToLower (TrimSpace extension) in
  let extension :=
    if negb (bool_decide (extension = "")) && negb (HasPrefix extension ".") then "." +:+ extension
    else extension in
  supported !! extension.

Definition FromPath (name : string) : option Format := ByExtension (Ext name).
End formats.
