(* ===== verification/TorrentNames.v ===== *)
(** What the torrent provider reads off file and directory names
    ([torrent/provider.go], from [bestArtwork] on): provisional titles, artists
    and albums, and the artwork that goes with a track. *)
From stdpp Require Import base gmap strings list.
From Stdlib Require Import ZArith Lia Ascii.
From S2P Require Import Prelude GoStrings Music AudioFormats.

Open Scope Z_scope.

Definition torrent_Name : string := "torrent".

Record catalogFile := mkCatalogFile {
  cf_parts : list string;
  cf_length : Z;
  cf_extension : string;
  cf_contentType : string;
}.

Definition all_but_last {A} (l : list A) : list A := removelast l.

Definition HasAnyPrefix (s : string) (prefixes : list string) : bool := existsb (HasPrefix s) prefixes.

Section names.
Context `{Unicode} `{TextNorm}.

Definition isTrackSeparator (value : Z) : bool :=
  IsSpace value || (value =? 46) || (value =? 45) || (value =? 95).

(** At most [n] ASCII digits at the beginning of a string. *)
Fixpoint digits_prefix (n : nat) (s : string) : nat :=
  match n, s with
  | S n', String a s' => if ascii_digit (byte_of a) then S (digits_prefix n' s') else 0%nat
  | _, _ => 0%nat
  end.

Definition titleAndNumber (value : string) : string * Z :=
  let value := TrimSpace value in
  let index := digits_prefix 3 value in
  match index, str_drop index value with
  | O, _ | _, EmptyString => (value, 0)
  | _, String b _ =>
      if negb (isTrackSeparator (byte_of b)) then (value, 0)
      else
        match Atoi (str_take index value) with
        | None => (value, 0)
        | Some number =>
            let title := TrimLeftFunc (str_drop index value) isTrackSeparator in
            if bool_decide (title = "") then (value, 0) else (title, number)
        end
  end.

Fixpoint TrimLeft (s cutset : string) : string :=
  match s with
  | String a s' => if ContainsAny (String a EmptyString) cutset then TrimLeft s' cutset else s
  | EmptyString => EmptyString
  end.

Definition leadingYear (value : string) : Z :=
  let value := TrimLeft value " ([{" in
  if (String.length value <? 4)%nat then 0
  else match Atoi (str_take 4 value) with
       | Some year => if (year <? 1900) || (year >? 2100) then 0 else year
       | None => 0
       end.

Definition disc_number_after (value prefix : string) : Z * bool :=
  let remainder := TrimLeftFunc (TrimPrefix value prefix)
    (λ c, IsSpace c || (c =? 46) || (c =? 45) || (c =? 95) || (c =? 0x2116)) in
  let stop := digits_prefix (String.length remainder) remainder in
  match stop with
  | O => (0, false)
  | _ => match Atoi (str_take stop remainder) with
         | Some number => (number, number >? 0)
         | None => (0, false)
         end
  end.

(** The first prefix that matches decides. *)
Fixpoint first_disc_prefix (value : string) (prefixes : list string) : Z * bool :=
  match prefixes with
  | [] => (0, false)
  | prefix :: rest =>
      if HasPrefix value prefix then disc_number_after value prefix else first_disc_prefix value rest
  end.

Definition discDirectoryNumber (value : string) : Z * bool :=
  first_disc_prefix (ToLower (TrimSpace value)) ["cd"; "disc"; "disk"; "диск"].

Definition collection_markers : list string :=
  ["альбом"; "сингл"; "сборник"; "компиляц"; "юбилей"; "неофициаль";
   "релиз"; "albums"; "singles"; "compilation"; "collection"; "bootleg"; "releases"].

Definition collectionDirectory (value : string) : bool :=
  let value := TrimLeftFunc (ToLower (TrimSpace value))
    (λ c, IsDigit c || IsSpace c || (c =? 46) || (c =? 45) || (c =? 95)) in
  existsb (Contains value) collection_markers.

(** The loop over [prefixes] goes on when nothing is left behind the prefix. *)
Fixpoint strip_artist_prefix (value lower : string) (prefixes : list string) : string :=
  match prefixes with
  | [] => value
  | prefix :: rest =>
      if HasPrefix lower prefix then
        let name := TrimSpace (str_drop (String.length prefix) value) in
        if bool_decide (name = "") then strip_artist_prefix value lower rest else name
      else strip_artist_prefix value lower rest
  end.

Definition normalizedArtistDirectory (value : string) : string :=
  let value := TrimSpace value in
  strip_artist_prefix value (ToLower value) ["группа "; "группа: "].

(** [for index := 1; index < albumIndex; index++]: the collection directory
    nearest to the root. *)
Fixpoint collection_index (directories : list string) (index : nat) (n : nat) : option nat :=
  match n with
  | O => None
  | S n' =>
      if collectionDirectory (nth index directories "") then Some index
      else collection_index directories (S index) n'
  end.

(** The branch for files at least two directories deep. *)
Definition nested_artist_album (directories : list string) (rootArtist : option string)
    : string * string * Z :=
  let last := (length directories - 1)%nat in
  let '(number, ok) := discDirectoryNumber (nth last directories "") in
  let disc := ok && (1 <? last)%nat in
  let albumIndex := if disc then (last - 1)%nat else last in
  let album := nth albumIndex directories "" in
  let artistIndex :=
    match collection_index directories 1 (albumIndex - 1) with
    | Some index => (index - 1)%nat
    | None => (albumIndex - 1)%nat
    end in
  let artist := nth artistIndex directories "" in
  let artist := match artistIndex, rootArtist with O, Some a => TrimSpace a | _, _ => artist end in
  (artist, album, if disc then number else 0).

Definition provisionalArtistAlbum (parts : list string) : string * string * Z :=
  let root := nth 0 parts "" in
  let single := bool_decide (length parts = 1%nat) in
  let root := if single then TrimSuffix root (Ext root) else root in
  let split := Cut root " - " in
  let directories := all_but_last parts in
  let flat := (length directories <=? 1)%nat in
  let '(artist, album, discNumber) :=
    match split with
    | Some (rootArtist, rootAlbum) =>
        if single then (TrimSpace rootArtist, "Unknown Album", 0)
        else if flat then (TrimSpace rootArtist, TrimSpace rootAlbum, 0)
        else nested_artist_album directories (Some rootArtist)
    | None =>
        if flat then ("Unknown Artist", root, 0) else nested_artist_album directories None
    end in
  let artist := if bool_decide (artist = "") then "Unknown Artist" else artist in
  (normalizedArtistDirectory artist, if bool_decide (album = "") then root else album, discNumber).

Definition track_title (parts : list string) : string * Z :=
  let fileName := default "" (last parts) in
  let '(title, trackNumber) := titleAndNumber (TrimSuffix fileName (Ext fileName)) in
  match length parts, Cut title " - " with
  | 1%nat, Some (_, candidate) =>
      (if bool_decide (TrimSpace candidate = "") then title else TrimSpace candidate, trackNumber)
  | _, _ => (title, trackNumber)
  end.

Definition torrent_source_key (infoHash : string) (parts : list string) : string :=
  infoHash +:+ "/" +:+ Join parts "/".

Definition makeTrack (infoHash : string) (parts : list string) (size : Z)
    (extension contentType : string) : TrackSource :=
  let '(title, trackNumber) := track_title parts in
  let '(artist, album, discNumber) := provisionalArtistAlbum parts in
  let artistID := CanonicalArtistID artist in
  let track := mkTrack "" title artist artistID album (CanonicalAlbumID artist album) artist artistID
    trackNumber discNumber (leadingYear album) "" 0 size 0 (TrimPrefix extension ".") contentType "" in
  let track := mkTrack (CanonicalTrackID track) title artist artistID album (CanonicalAlbumID artist album)
    artist artistID trackNumber discNumber (leadingYear album) "" 0 size 0 (TrimPrefix extension ".")
    contentType "" in
  mkSource track (mkRef torrent_Name (torrent_source_key infoHash parts)) ""
    (mkAvailability "" 0 0 false false) time_zero.

Definition logicalTrackID (infoHash logicalPath : string) (size : Z) : string :=
  let extension := ToLower (Ext logicalPath) in
  let contentType := match ByExtension extension with Some f => fmt_ContentType f | None => "" end in
  ID (ts_Track (makeTrack infoHash (Split slash logicalPath) size extension contentType)).

(** * Artwork *)

Definition torrentArtworkPriority (name : string) : Z :=
  let stem := ToLower (TrimSuffix name (Ext name)) in
  if bool_decide (stem ∈ ["cover"; "folder"; "front"; "albumart"]) then 0
  else if HasAnyPrefix stem ["cover"; "folder"; "front"; "albumart"] then 1
  else if HasAnyPrefix stem ["scan"; "img"; "image"; "artwork"; "booklet"] then 30
  else if HasAnyPrefix stem ["cd"; "disc"; "disk"] then 40
  else if HasPrefix stem "back" || HasPrefix stem "rear" then 80
  else 50.

Definition directory_of (parts : list string) : string := Join (all_but_last parts) "/".

(** How deep below the album a candidate lies, [None] when elsewhere. *)
Definition artwork_depth (albumDirectory : string) (candidate : catalogFile) : option Z :=
  let candidateDirectory := directory_of (cf_parts candidate) in
  if bool_decide (candidateDirectory = albumDirectory) then Some 0
  else if HasPrefix candidateDirectory (albumDirectory +:+ "/")
  then Some (Count (TrimPrefix candidateDirectory (albumDirectory +:+ "/")) slash + 1)
  else None.

Definition artwork_score (albumDirectory : string) (candidate : catalogFile) : option Z :=
  option_map (λ depth, depth * 10 + torrentArtworkPriority (default "" (last (cf_parts candidate))))
    (artwork_depth albumDirectory candidate).

Definition logical_path (c : catalogFile) : string := Join (cf_parts c) "/".

(** The loop; [best] is the best candidate so far with its score. *)
Fixpoint best_artwork_loop (albumDirectory : string) (candidates : list catalogFile)
    (best : option (catalogFile * Z)) : option catalogFile :=
  match candidates with
  | [] => fst <$> best
  | candidate :: rest =>
      best_artwork_loop albumDirectory rest
        match artwork_score albumDirectory candidate with
        | None => best
        | Some score =>
            match best with
            | None => Some (candidate, score)
            | Some (b, bestScore) =>
                if (score <? bestScore) ||
                   ((score =? bestScore) && str_ltb (logical_path candidate) (logical_path b))
                then Some (candidate, score) else best
            end
        end
  end.

Definition bestArtwork (audioParts : list string) (candidates : list catalogFile) : option catalogFile :=
  best_artwork_loop (directory_of audioParts) candidates None.

(** Better artwork: a smaller score, then a smaller path. *)
Definition artwork_before (albumDirectory : string) (x y : catalogFile) : Prop :=
  match artwork_score albumDirectory x, artwork_score albumDirectory y with
  | Some s, Some t => s < t ∨ (s = t ∧ str_ltb (logical_path x) (logical_path y) = true)
  | _, _ => False
  end.

Lemma artwork_before_trans d x y z : artwork_before d x y → artwork_before d y z → artwork_before d x z.
Proof.
  unfold artwork_before. destruct (artwork_score d x), (artwork_score d y), (artwork_score d z); try done.
  intros [?|[-> H1]] [?|[-> H2]]; [left; lia..|right; split; [done|]].
  by eapply (sw_trans _ strict_weak_str).
Qed.

(** [b] is a best candidate of [l]. *)
Definition is_best (d : string) (l : list catalogFile) (best : option (catalogFile * Z)) : Prop :=
  match best with
  | None => ∀ c, c ∈ l → artwork_score d c = None
  | Some (b, s) => b ∈ l ∧ artwork_score d b = Some s ∧ ∀ c, c ∈ l → ¬ artwork_before d c b
  end.

Lemma best_artwork_loop_best d l seen best :
  is_best d seen best → match best_artwork_loop d l best with
  | None => ∀ c, c ∈ seen ++ l → artwork_score d c = None
  | Some b => b ∈ seen ++ l ∧ is_Some (artwork_score d b) ∧ ∀ c, c ∈ seen ++ l → ¬ artwork_before d c b
  end.
Proof.
  revert seen best. induction l as [|c l IH]; intros seen best Hb; cbn [best_artwork_loop].
  - rewrite app_nil_r. destruct best as [[b s]|]; cbn; [|done]. destruct Hb as (H1 & H2 & H3). eauto.
  - replace (seen ++ c :: l) with ((seen ++ [c]) ++ l) by (by rewrite <- app_assoc). apply IH.
    destruct (artwork_score d c) as [score|] eqn:Hc.
    + destruct best as [[b s]|]; cbn [is_best] in *.
      * destruct Hb as (Hin & Hs & Hmin).
        destruct ((score <? s) || ((score =? s) && str_ltb (logical_path c) (logical_path b))) eqn:E; cbn [is_best].
        -- assert (artwork_before d c b) as Hcb.
           { unfold artwork_before. rewrite Hc, Hs. apply orb_true_iff in E as [E|[E1 E2]%andb_true_iff];
               [left; lia|right; split; [lia|done]]. }
           split_and!; [apply elem_of_app; right; by left|done|]. intros x [Hx|Hx%list_elem_of_singleton]%elem_of_app.
           ++ intros Hxc. apply (Hmin x Hx). by eapply artwork_before_trans.
           ++ subst x. unfold artwork_before. rewrite Hc. intros [?|[_ Hlt]]; [lia|].
              by rewrite (sw_irrefl _ strict_weak_str) in Hlt.
        -- split_and!; [apply elem_of_app; by left|done|]. intros x [Hx|Hx%list_elem_of_singleton]%elem_of_app; [by apply Hmin|].
           subst x. unfold artwork_before. rewrite Hc, Hs. intros [?|[? Hlt]]; [lia|].
           apply orb_false_iff in E as [_ E]. rewrite Hlt, andb_true_r in E. lia.
      * split_and!; [apply elem_of_app; right; by left|done|].
        intros x [Hx|Hx%list_elem_of_singleton]%elem_of_app; unfold artwork_before.
        -- rewrite (Hb x Hx). by intros [].
        -- subst x. rewrite Hc. intros [?|[_ Hlt]]; [lia|]. by rewrite (sw_irrefl _ strict_weak_str) in Hlt.
    + destruct best as [[b s]|]; cbn [is_best] in *.
      * destruct Hb as (Hin & Hs & Hmin). split_and!; [apply elem_of_app; by left|done|].
        intros x [Hx|Hx%list_elem_of_singleton]%elem_of_app; [by apply Hmin|]. subst x. unfold artwork_before. rewrite Hc. by intros [].
      * intros x [Hx|Hx%list_elem_of_singleton]%elem_of_app; [by apply Hb|by subst].
Qed.

(** The artwork of a track is the best image of its album: it lies in the
    album's directory or below, no candidate has a better score, nor the same
    score and a smaller path, none is chosen only when no image lies there, and
    the choice does not depend on the order of the files. *)
Theorem artwork_is_the_best_of_the_album audioParts candidates candidates' :
  candidates ≡ₚ candidates' →
  (∀ x y, x ∈ candidates → y ∈ candidates → logical_path x = logical_path y → x = y) →
  bestArtwork audioParts candidates = bestArtwork audioParts candidates' ∧
  match bestArtwork audioParts candidates with
  | None => ∀ c, c ∈ candidates → artwork_depth (directory_of audioParts) c = None
  | Some b => b ∈ candidates ∧ is_Some (artwork_depth (directory_of audioParts) b) ∧
              ∀ c, c ∈ candidates → ¬ artwork_before (directory_of audioParts) c b
  end.
Proof.
  intros Hp Hinj. unfold bestArtwork. set (d := directory_of audioParts).
  assert (is_best d [] None) as Hstart by (intros c Hc; by apply elem_of_nil in Hc).
  pose proof (best_artwork_loop_best d candidates [] None Hstart) as H1.
  pose proof (best_artwork_loop_best d candidates' [] None Hstart) as H2. cbn [app] in H1, H2.
  assert (∀ c, artwork_depth d c = None ↔ artwork_score d c = None) as Hscore.
  { intros c. unfold artwork_score. by destruct (artwork_depth d c). }
  assert (∀ c, is_Some (artwork_score d c) → is_Some (artwork_depth d c)) as Hsome.
  { intros c. unfold artwork_score. destruct (artwork_depth d c); [done|]. by intros [? ?]. }
  split.
  - destruct (best_artwork_loop d candidates None) as [b|], (best_artwork_loop d candidates' None) as [b'|]; [| | |done].
    + destruct H1 as (Hb & [s Hs] & Hmin), H2 as (Hb' & [s' Hs'] & Hmin'). rewrite <- Hp in Hb'. f_equal.
      apply Hinj; [done..|]. specialize (Hmin b' Hb'). rewrite Hp in Hb. specialize (Hmin' b Hb).
      unfold artwork_before in Hmin, Hmin'. rewrite Hs, Hs' in *.
      assert (s = s') as -> by (destruct (Z.lt_trichotomy s s') as [?|[?|?]]; [exfalso; tauto|done|exfalso; tauto]).
      apply str_ltb_total; apply not_true_is_false; tauto.
    + destruct H1 as (Hb & [s Hs] & _). rewrite Hp in Hb. rewrite (H2 b Hb) in Hs. done.
    + destruct H2 as (Hb & [s Hs] & _). rewrite <- Hp in Hb. rewrite (H1 b' Hb) in Hs. done.
  - destruct (best_artwork_loop d candidates None) as [b|].
    + destruct H1 as (Hb & Hs & Hmin). auto.
    + intros c Hc. apply Hscore. by apply H1.
Qed.
End names.

Definition image (parts : list string) : catalogFile := mkCatalogFile parts 10 ".jpg" "image/jpeg".

Lemma artwork_is_the_best_of_the_album_witness :
  @bestArtwork ascii_unicode ["B"; "A"; "1.flac"] [image ["B"; "A"; "scans"; "x.jpg"]; image ["B"; "A"; "cover.jpg"]] =
  @bestArtwork ascii_unicode ["B"; "A"; "1.flac"] [image ["B"; "A"; "cover.jpg"]; image ["B"; "A"; "scans"; "x.jpg"]].
Proof.
  apply (@artwork_is_the_best_of_the_album ascii_unicode).
  - constructor.
  - intros x y Hx Hy. rewrite !elem_of_cons in Hx, Hy.
    destruct Hx as [->|[->|Hx%elem_of_nil]], Hy as [->|[->|Hy%elem_of_nil]]; try done; discriminate.
Defined.

Example titles :
  titleAndNumber "01 - Song" = ("Song", 1) ∧ titleAndNumber "2001" = ("2001", 0) ∧ titleAndNumber "7" = ("7", 0).
Proof. split_and!; reflexivity. Qed.

#[local] Existing Instance ascii_unicode.

Example nested_discs : provisionalArtistAlbum ["Band"; "1999 Album"; "CD 2"; "01.flac"] = ("Band", "1999 Album", 2).
Proof. vm_compute. reflexivity. Qed.

Example flat_album : provisionalArtistAlbum ["Band - Album"; "01.flac"] = ("Band", "Album", 0).
Proof. vm_compute. reflexivity. Qed.
