(* ===== verification/TorrentFiles.v ===== *)
(** The files of the torrent provider ([torrent/provider.go]): source keys and
    where they lead, the markers of a source, the catalog of a torrent and the
    migration of caches that were not kept apart by torrent.

    The disk is a map from the path of a regular file to its contents, with a
    schedule of failures; directories are made as needed.  Looking whether a
    file exists does not fail ([fileExists] answers false on any error). *)
From stdpp Require Import base gmap strings list.
From Stdlib Require Import ZArith Lia Ascii.
From S2P Require Import Prelude GoStrings Sql Paths Music AudioFormats TorrentNames.

Open Scope Z_scope.

(** * Source keys *)

Definition hex_digit (a : ascii) : bool :=
  let b := byte_of a in ascii_digit b || between 97 102 b || between 65 70 b.

(** [hex.DecodeString]: the error it reports, if any. *)
Definition hex_error (s : string) : option error :=
  if has_byte (λ a, negb (hex_digit a)) s then Some (Plain "encoding/hex: invalid byte")
  else if Nat.odd (String.length s) then Some (Plain "encoding/hex: odd length hex string")
  else None.

Definition parseSourceKey (key : string) : res (string * string) :=
  match Cut key "/" with
  | None => Err (Plain "invalid torrent source key")
  | Some (infoHash, logicalPath) =>
      if bool_decide (logicalPath = "") || negb (String.length infoHash =? 40)%nat
      then Err (Plain "invalid torrent source key")
      else
        match hex_error infoHash with
        | Some e => Err (Errorf "invalid torrent info hash: " e "")
        | None =>
            if negb (bool_decide (Clean logicalPath = logicalPath)) || HasPrefix logicalPath "../"
            then Err (Plain "invalid torrent source path")
            else Ok (infoHash, logicalPath)
        end
  end.

(** * The disk *)

Notation bytes := (list Z) (only parsing).
Notation disk := (database (gmap string bytes)).

Definition fileExists (p : string) (t : gmap string bytes) : bool := bool_decide (is_Some (t !! p)).

Definition os_MkdirAll {A} : M (database (gmap string A)) unit := ExecContext id.

Definition os_WriteFile {A} (p : string) (contents : A) : M (database (gmap string A)) unit :=
  ExecContext <[p := contents]>.

(** [os.Stat] of a regular file, and [os.ReadFile]. *)
Definition os_ReadFile {A} (p : string) : M (database (gmap string A)) A :=
  statement (λ t, match t !! p with
    | None => Err (Sentinel ErrOsNotExist)
    | Some contents => Ok (contents, t)
    end).

Definition os_Rename {A} (src dst : string) : M (database (gmap string A)) unit :=
  statement (λ t, match t !! src with
    | None => Err (Sentinel ErrOsNotExist)
    | Some contents => Ok (tt, <[dst := contents]> (delete src t))
    end).

Definition os_Remove {A} (p : string) : M (database (gmap string A)) unit :=
  statement (λ t, match t !! p with
    | None => Err (Sentinel ErrOsNotExist)
    | Some _ => Ok (tt, delete p t)
    end).

(** [if err := os.Remove(p); err != nil && !os.IsNotExist(err) { return wrap err }]. *)
Definition remove_if_there {A} (wrap : error → error) (p : string) : M (database (gmap string A)) unit :=
  r ← try (os_Remove p);
  match r with
  | Err e => if errors_Is ErrOsNotExist e then mret tt else throw (wrap e)
  | Ok _ => mret tt
  end.

(** * Torrents *)

(** [metainfo.Info]: [BestName] and, for every file of [UpvertedFiles], its
    [BestPath] and length. *)
Record torrent_info := mkInfo {
  BestName : string;
  info_files : list (list string * Z);
}.

Fixpoint safe_parts (fileParts : list string) : res (list string) :=
  match fileParts with
  | [] => Ok []
  | part :: rest =>
      let part := TrimSpace part in
      if bool_decide (part = "") || bool_decide (part = ".") || bool_decide (part = "..")
         || ContainsAny part "/\"
      then Err (Plain ("torrent contains unsafe path component " +:+ part))
      else match safe_parts rest with Ok parts => Ok (part :: parts) | Err e => Err e end
  end.

Definition safePath (root : string) (fileParts : list string) : res (list string) :=
  match safe_parts fileParts with Ok parts => Ok (root :: parts) | Err e => Err e end.

Section files.
Context (metadataRoot dataRoot : string).

Definition cachePath (infoHash logicalPath : string) : string := JoinPath [dataRoot; infoHash; logicalPath].

Definition sourceMarkerPath (id state : string) : string := JoinPath [metadataRoot; id +:+ "." +:+ state].

Definition sourceMarkerExists (id state : string) (t : gmap string bytes) : bool :=
  fileExists (sourceMarkerPath id state) t.

Definition validateSourceID (id : string) : M disk unit :=
  if negb (String.length id =? 40)%nat then throw (Plain "invalid torrent info hash")
  else
    match hex_error id with
    | Some e => throw (Errorf "invalid torrent info hash: " e "")
    | None =>
        r ← try (statement (λ t, match t !! JoinPath [metadataRoot; id +:+ ".torrent"] with
                   | None => Err (Sentinel ErrOsNotExist)
                   | Some _ => Ok (tt, t)
                   end));
        match r with
        | Err e => if errors_Is ErrOsNotExist e then throw (Sentinel ErrNotFound)
                   else throw (Errorf "stat torrent metadata: " e "")
        | Ok _ => mret tt
        end
    end.

Definition setSourceMarker (id state : string) (enabled : bool) : M disk unit :=
  if negb enabled
  then remove_if_there (λ e, Errorf ("remove torrent " +:+ state +:+ " marker: ") e "")
         (sourceMarkerPath id state)
  else
    _ ← wrap_err (λ e, Errorf "create torrent metadata directory: " e "") os_MkdirAll;
    wrap_err (λ e, Errorf ("write torrent " +:+ state +:+ " marker: ") e "")
      (os_WriteFile (sourceMarkerPath id state) []).

Definition PinTorrentSource (id : string) (pinned : bool) : M disk unit :=
  _ ← validateSourceID id;
  setSourceMarker id "pinned" pinned.

(** [CachedPath] past its look at the source key: the file must be complete. *)
Definition complete_file (infoHash logicalPath : string) (expectedSize : Z) (t : gmap string bytes)
    : option string :=
  let mediaPath := cachePath infoHash logicalPath in
  match t !! mediaPath with
  | Some contents =>
      if (expectedSize >? 0) && negb (Z.of_nat (length contents) =? expectedSize) then None
      else Some mediaPath
  | None => None
  end.

(** * Legacy caches *)

Definition legacyVerificationMarker : string := ".peerphonic-legacy-unverified".

Definition legacy_marker (infoHash : string) : string :=
  JoinPath [dataRoot; infoHash; legacyVerificationMarker].

(** Which file moves where, and whether it is complete. *)
Definition legacy_move (infoHash logicalPath : string) (t : gmap string bytes)
    : option (string * string * bool) :=
  let legacyPath := JoinPath [dataRoot; logicalPath] in
  let targetPath := cachePath infoHash logicalPath in
  if bool_decide (legacyPath = targetPath) then None
  else if fileExists targetPath t || fileExists (targetPath +:+ ".part") t then None
  else if fileExists legacyPath t then Some (legacyPath, targetPath, true)
  else if fileExists (legacyPath +:+ ".part") t
  then Some (legacyPath +:+ ".part", targetPath +:+ ".part", false)
  else None.

Definition migrateLegacyFileLocked (infoHash logicalPath : string) : M disk unit :=
  move ← gets (λ d : disk, legacy_move infoHash logicalPath (tables d));
  match move with
  | None => mret tt
  | Some (sourcePath, destinationPath, movedComplete) =>
      _ ← wrap_err (λ e, Errorf "create isolated torrent cache directory: " e "") os_MkdirAll;
      _ ← (if movedComplete : bool then
             wrap_err (λ e, Errorf "mark migrated torrent cache for verification: " e "")
               (os_WriteFile (legacy_marker infoHash) [])
           else mret tt);
      wrap_err (λ e, Errorf ("move legacy torrent cache file " +:+ sourcePath +:+ ": ") e "")
        (os_Rename sourcePath destinationPath)
  end.

Definition migrateLegacyFile (infoHash logicalPath : string) : M disk unit :=
  if bool_decide (dataRoot = "") then mret tt else migrateLegacyFileLocked infoHash logicalPath.

(** Every file of a torrent, by its checked parts. *)
Definition each_file (name : string) (f : list string → M disk unit) (file : list string * Z) : M disk unit :=
  parts ← lift (safePath name file.1);
  f parts.

Definition migrateLegacyData (infoHash : string) (info : torrent_info) : M disk unit :=
  if bool_decide (dataRoot = "") then mret tt
  else
    miter (each_file (TrimSpace (BestName info)) (λ parts, migrateLegacyFileLocked infoHash (Join parts "/")))
      (info_files info).

Definition prepare_file (infoHash : string) (parts : list string) : M disk unit :=
  let completePath := cachePath infoHash (Join parts "/") in
  there ← gets (λ d : disk, fileExists completePath (tables d));
  if negb there then mret tt
  else
    both ← gets (λ d : disk, fileExists (completePath +:+ ".part") (tables d));
    if both : bool
    then throw (Plain ("both complete and partial cache files exist for " +:+ completePath))
    else wrap_err (λ e, Errorf ("prepare migrated cache file " +:+ completePath +:+ ": ") e "")
           (os_Rename completePath (completePath +:+ ".part")).

Definition prepareLegacyData (infoHash : string) (info : torrent_info) : M disk unit :=
  if bool_decide (dataRoot = "") then mret tt
  else
    marked ← gets (λ d : disk, fileExists (legacy_marker infoHash) (tables d));
    if negb marked then mret tt
    else
      _ ← miter (each_file (TrimSpace (BestName info)) (prepare_file infoHash)) (info_files info);
      remove_if_there (λ e, Errorf "remove migrated cache verification marker: " e "") (legacy_marker infoHash).

Definition reconcile_file (infoHash : string) (parts : list string) : M disk unit :=
  let completePath := cachePath infoHash (Join parts "/") in
  both ← gets (λ d : disk, fileExists completePath (tables d) && fileExists (completePath +:+ ".part") (tables d));
  if negb both then mret tt
  else remove_if_there (λ e, Errorf ("remove stale complete cache file " +:+ completePath +:+ ": ") e "")
         completePath.

Definition reconcileCacheData (infoHash : string) (info : torrent_info) : M disk unit :=
  if bool_decide (dataRoot = "") then mret tt
  else miter (each_file (TrimSpace (BestName info)) (reconcile_file infoHash)) (info_files info).

(** [CachedPath]. *)
Definition CachedPath (ref : SourceRef) (expectedSize : Z) : M disk (option string) :=
  if negb (bool_decide (Provider ref = torrent_Name)) then mret None
  else
    match parseSourceKey (SourceKey ref) with
    | Err _ => mret None
    | Ok (infoHash, logicalPath) =>
        r ← try (migrateLegacyFile infoHash logicalPath);
        match r with
        | Err _ => mret None
        | Ok _ => gets (λ d : disk, complete_file infoHash logicalPath expectedSize (tables d))
        end
    end.
End files.

(** * Reading a torrent *)

Definition imageContentTypes : gmap string string := list_to_map
  [(".gif", "image/gif"); (".jpeg", "image/jpeg"); (".jpg", "image/jpeg");
   (".png", "image/png"); (".webp", "image/webp")].

Record torrent_catalog := mkTorrentCatalog {
  tc_InfoHash : string;
  tc_Name : string;
  tc_Tracks : list TrackSource;
}.

(** What the provider remembers of the torrents it read: artwork by
    identifier, tracks by source key, files by source key. *)
Record registries := mkRegistries {
  artworks : gmap string SourceRef;
  trackIDs : gmap string string;
  cacheFiles : gmap string (string * string);
}.

Section catalog.
Context `{Unicode} `{TextNorm}.

Definition torrent_contentType (name : string) : string :=
  let extension := ToLower (Ext name) in
  match ByExtension extension with
  | Some format => fmt_ContentType format
  | None => default "" (imageContentTypes !! extension)
  end.

(** The first loop of [ReadCatalog]. *)
Fixpoint classify (name : string) (files : list (list string * Z)) (audio artwork : list catalogFile)
    : res (list catalogFile * list catalogFile) :=
  match files with
  | [] => Ok (audio, artwork)
  | (path, length) :: rest =>
      match safePath name path with
      | Err e => Err e
      | Ok parts =>
          let extension := ToLower (Ext (default "" (last parts))) in
          match ByExtension extension with
          | Some format =>
              classify name rest (audio ++ [mkCatalogFile parts length extension (fmt_ContentType format)]) artwork
          | None =>
              match imageContentTypes !! extension with
              | Some contentType =>
                  classify name rest audio (artwork ++ [mkCatalogFile parts length extension contentType])
              | None => classify name rest audio artwork
              end
          end
      end
  end.

Definition register_cache_file (infoHash : string) (parts : list string) (r : registries) : registries :=
  mkRegistries (artworks r) (trackIDs r)
    (<[torrent_source_key infoHash parts := (infoHash, Join parts "/")]> (cacheFiles r)).

(** The second loop: one audio file. *)
Definition read_audio (infoHash : string) (artworkFiles : list catalogFile) (file : catalogFile)
    (r : registries) : TrackSource * registries :=
  let track := makeTrack infoHash (cf_parts file) (cf_length file) (cf_extension file) (cf_contentType file) in
  let r := mkRegistries (artworks r) (<[SourceKey (ts_Ref track) := ID (ts_Track track)]> (trackIDs r)) (cacheFiles r) in
  let r := register_cache_file infoHash (cf_parts file) r in
  match bestArtwork (cf_parts file) artworkFiles with
  | None => (track, r)
  | Some artwork =>
      let logicalPath := logical_path artwork in
      let id := StableID "torrentart" [infoHash; logicalPath] in
      (mkSource (with_cover id (ts_Track track)) (ts_Ref track) (DisplayPath track) (Availability track)
         (DiscoveredAt track),
       mkRegistries (<[id := mkRef torrent_Name (infoHash +:+ "/" +:+ logicalPath)]> (artworks r))
         (trackIDs r) (cacheFiles r))
  end.

Fixpoint read_audio_files (infoHash : string) (artworkFiles files : list catalogFile) (r : registries)
    : list TrackSource * registries :=
  match files with
  | [] => ([], r)
  | file :: rest =>
      let '(track, r) := read_audio infoHash artworkFiles file r in
      let '(tracks, r) := read_audio_files infoHash artworkFiles rest r in
      (track :: tracks, r)
  end.

Definition register_artwork_file (infoHash : string) (r : registries) (file : catalogFile) : registries :=
  register_cache_file infoHash (cf_parts file) r.

(** [ReadCatalog]; [decoded] is what [metainfo.Load] and [UnmarshalInfo] make of
    the reader: the hash of the info dictionary and the dictionary. *)
Definition ReadCatalog (dataRoot : string) (decoded : res (string * torrent_info))
    : M (registries * disk) torrent_catalog :=
  '(infoHash, info) ← lift decoded;
  let name := TrimSpace (BestName info) in
  if bool_decide (name = "") then throw (Plain "torrent name is empty")
  else
    _ ← wrap_err (λ e, Errorf "migrate legacy torrent cache: " e "")
      (zoom snd (λ d w, (w.1, d)) (migrateLegacyData dataRoot infoHash info));
    '(audioFiles, artworkFiles) ← lift (classify name (info_files info) [] []);
    tracks ← (λ w : registries * disk,
      let '(tracks, r) := read_audio_files infoHash artworkFiles audioFiles w.1 in (Ok tracks, (r, w.2)));
    _ ← modify (λ w : registries * disk,
      (fold_left (register_artwork_file infoHash) artworkFiles w.1, w.2));
    mret (mkTorrentCatalog infoHash name tracks).
End catalog.
