(* ===== verification/TorrentPaths.v ===== *)
(** Where the torrent provider reads and writes: source keys lead into the
    directory of their torrent, catalogued tracks have keys that parse back,
    and migrated files are verified before they count as complete. *)
From stdpp Require Import base gmap strings list.
From Stdlib Require Import ZArith Lia Ascii.
From S2P Require Import Prelude GoStrings Sql Paths Music AudioFormats TorrentNames TorrentFiles.

Open Scope Z_scope.

(** * Keys *)

Lemma str_length_app s t : String.length (s +:+ t) = (String.length s + String.length t)%nat.
Proof. induction s as [|a s IH]; [done|]. change (S (String.length (s +:+ t)) = S (String.length s + String.length t)). by rewrite IH. Qed.

Lemma hex_lacks_slash s : hex_error s = None → lacks slash s.
Proof.
  unfold hex_error. destruct (has_byte _ s) eqn:E; [done|]. intros _ Hin.
  rewrite has_byte_false in E. specialize (E _ Hin). done.
Qed.

Lemma info_hash_proper h : String.length h = 40%nat → hex_error h = None → proper h.
Proof.
  intros Hl Hh. split; [split_and!; [..|by apply hex_lacks_slash]|]; intros ->; done.
Qed.

Lemma parseSourceKey_Ok key h l :
  parseSourceKey key = Ok (h, l) →
  key = h +:+ "/" +:+ l ∧ proper h ∧ l ≠ "" ∧ Clean l = l ∧ HasPrefix l "../" = false.
Proof.
  unfold parseSourceKey. destruct (Cut key "/") as [[a b]|] eqn:Hc; [|done].
  destruct (bool_decide (b = "") || negb (String.length a =? 40)%nat) eqn:E1; [done|].
  destruct (hex_error a) eqn:Hx; [done|].
  destruct (negb (bool_decide (Clean b = b)) || HasPrefix b "../") eqn:E2; [done|]. intros [= <- <-].
  apply orb_false_iff in E1 as [Hb%bool_decide_eq_false Hl%negb_false_iff%Nat.eqb_eq].
  apply orb_false_iff in E2 as [Hcl%negb_false_iff%bool_decide_eq_true Hp].
  apply Cut_Some in Hc as ->. split_and!; try done. by apply info_hash_proper.
Qed.

Lemma JoinPath_parent root h : Forall proper root → proper h → JoinPath [abs_path root; h; ".."] = abs_path root.
Proof.
  intros Hr Hh. assert (h ≠ "") as Hh0 by (by destruct Hh as [[? _] _]).
  assert (abs_path root ≠ "") as Hr0 by discriminate.
  unfold JoinPath. cbn [List.filter]. rewrite !bool_decide_eq_false_2 by done. cbn [negb].
  rewrite Join_cons. rewrite Clean_abs; [|done|done|].
  - cbn [fold_left]. rewrite (clean_step_proper _ _ h) by done.
    assert (clean_step true (h :: rev root) ".." = rev root) as ->.
    { change (clean_step true (h :: rev root) "..") with
        (if bool_decide (h = "..") then ".." :: h :: rev root else rev root).
      rewrite bool_decide_eq_false_2; [done|]. by destruct Hh as [_ ?]. }
    by rewrite rev_involutive.
  - constructor; [by apply proper_lacks|]. constructor; [|constructor].
    unfold lacks. cbn. rewrite !not_elem_of_cons. split_and!; [done|done|by intros ?%elem_of_nil].
Qed.

(** Source keys stay inside: whatever key is presented, if it is accepted
    it names a torrent by its hash, its file lies in that torrent's own
    directory below the data directory (for the path [..] it is the data
    directory itself, which is no file), and so does nothing else: the key is
    exactly the hash and the path. *)
Theorem source_keys_stay_inside root key infoHash logicalPath :
  Forall proper root → parseSourceKey key = Ok (infoHash, logicalPath) →
  key = infoHash +:+ "/" +:+ logicalPath ∧ proper infoHash ∧
  if bool_decide (logicalPath = "..") then cachePath (abs_path root) infoHash logicalPath = abs_path root
  else ∃ names, Forall proper names ∧
       cachePath (abs_path root) infoHash logicalPath = abs_path (root ++ infoHash :: names).
Proof.
  intros Hr (Hk & Hh & Hne & Hc & Hp)%parseSourceKey_Ok. split; [done|]. split; [done|]. unfold cachePath.
  case_bool_decide as Hd; [subst; by apply JoinPath_parent|]. by apply JoinPath_inside.
Qed.

(** * Catalogued tracks *)

Lemma Cut_slash h t : lacks slash h → Cut (h +:+ "/" +:+ t) "/" = Some (h, t).
Proof.
  induction h as [|a h IH].
  - intros _. change ("" +:+ "/" +:+ t) with (String slash t). cbn [Cut].
    assert (HasPrefix (String slash t) "/" = true) as -> by apply (HasPrefix_app "/" t). done.
  - intros [Ha Hh]%lacks_cons.
    change (String a h +:+ "/" +:+ t) with (String a (h +:+ "/" +:+ t)). cbn [Cut].
    assert (HasPrefix (String a (h +:+ "/" +:+ t)) "/" = false) as ->.
    { apply not_true_is_false. intros [=E]%HasPrefix_spec. by apply Ha. }
    by rewrite IH.
Qed.

Lemma torrent_key_parses h parts :
  String.length h = 40%nat → hex_error h = None → parts ≠ [] → Forall proper parts →
  parseSourceKey (torrent_source_key h parts) = Ok (h, Join parts "/").
Proof.
  intros Hl Hx Hne Hp. unfold parseSourceKey, torrent_source_key.
  rewrite Cut_slash by (by apply hex_lacks_slash). rewrite Hl, Hx, Clean_proper by done.
  rewrite (bool_decide_eq_true_2 (Join parts "/" = Join parts "/")) by done. cbn [negb orb Nat.eqb].
  destruct parts as [|x parts]; [done|]. apply Forall_cons in Hp as [Hx0 Hp]. destruct Hx0 as [(Hx1 & Hx2 & Hx3) Hx4].
  rewrite bool_decide_eq_false_2.
  2:{ destruct parts; [done|]. rewrite Join_cons. by destruct x. }
  cbn [orb]. destruct (HasPrefix (Join (x :: parts) "/") "../") eqn:E; [|done]. exfalso.
  apply HasPrefix_spec in E. set (r := str_drop _ _) in E. clearbody r.
  assert (Split slash (Join (x :: parts) "/") = x :: parts) as Hs.
  { apply Split_Join; [done|]. constructor; [done|]. by apply Forall_proper_lacks. }
  rewrite E in Hs. change ("../" +:+ r) with (".." +:+ String slash r) in Hs.
  rewrite Split_app in Hs.
  - by injection Hs as <- _.
  - unfold lacks. cbn. rewrite !not_elem_of_cons. split_and!; [done|done|by intros ?%elem_of_nil].
Qed.

Lemma safe_parts_proper fileParts parts : safe_parts fileParts = Ok parts → Forall proper parts.
Proof.
  revert parts. induction fileParts as [|p rest IH]; intros parts; cbn [safe_parts]; [by intros [= <-]|].
  destruct (_ || ContainsAny (TrimSpace p) "/\") eqn:E; [done|].
  destruct (safe_parts rest) as [l|e]; [|done]. intros [= <-]. constructor; [|by apply IH].
  apply orb_false_iff in E as [E Hc]. apply orb_false_iff in E as [E Hd%bool_decide_eq_false].
  apply orb_false_iff in E as [He%bool_decide_eq_false Hdot%bool_decide_eq_false].
  split; [split_and!; try done|done]. eapply ContainsAny_lacks; [exact Hc|]. by left.
Qed.

Lemma safePath_proper root fileParts parts :
  safePath root fileParts = Ok parts → proper root → parts ≠ [] ∧ Forall proper parts.
Proof.
  unfold safePath. destruct (safe_parts fileParts) as [l|e] eqn:E; [|done]. intros [= <-] Hr.
  split; [done|]. constructor; [done|]. by eapply safe_parts_proper.
Qed.

Section catalogued.
Context `{Unicode} `{TextNorm}.

Definition part_id (parts : list string) : string := ID (ts_Track (makeTrack "" parts 0 "" "")).

Lemma makeTrack_ID h parts size extension contentType :
  ID (ts_Track (makeTrack h parts size extension contentType)) = part_id parts.
Proof.
  unfold part_id, makeTrack. destruct (track_title parts) as [title number].
  by destruct (provisionalArtistAlbum parts) as [[artist album] disc].
Qed.

Lemma makeTrack_Ref h parts size extension contentType :
  ts_Ref (makeTrack h parts size extension contentType) = mkRef torrent_Name (torrent_source_key h parts).
Proof.
  unfold makeTrack. destruct (track_title parts) as [title number].
  by destruct (provisionalArtistAlbum parts) as [[artist album] disc].
Qed.

Lemma str_app_inj s t t' : s +:+ t = s +:+ t' → t = t'.
Proof.
  induction s as [|a s IH]; [done|]. change (String a (s +:+ t) = String a (s +:+ t') → t = t').
  intros [=E]. by apply IH.
Qed.

Lemma torrent_source_key_inj h parts parts' :
  Forall proper parts → Forall proper parts' → parts ≠ [] → parts' ≠ [] →
  torrent_source_key h parts = torrent_source_key h parts' → parts = parts'.
Proof.
  unfold torrent_source_key. intros Hp Hp' Hne Hne' E%str_app_inj%str_app_inj.
  rewrite <- (Split_Join parts), <- (Split_Join parts'), E; try done; by apply Forall_proper_lacks.
Qed.

Lemma classify_parts name files audio artwork audio' artwork' :
  proper name → classify name files audio artwork = Ok (audio', artwork') →
  Forall (λ f, cf_parts f ≠ [] ∧ Forall proper (cf_parts f)) audio →
  Forall (λ f, cf_parts f ≠ [] ∧ Forall proper (cf_parts f)) audio'.
Proof.
  intros Hn. revert audio artwork. induction files as [|[path length] files IH]; intros audio artwork; cbn [classify].
  { by intros [= <- <-]. }
  destruct (safePath name path) as [parts|e] eqn:Hs; [|done].
  apply safePath_proper in Hs as [Hne Hp]; [|done].
  destruct (ByExtension _) as [format|]; [|destruct (imageContentTypes !! _); apply IH].
  intros E Ha. eapply IH; [exact E|]. apply Forall_app. split; [done|]. repeat constructor; done.
Qed.

(** What reading one more audio file registers. *)
Lemma read_audio_registers h art file r track r' :
  read_audio h art file r = (track, r') →
  ts_Ref track = mkRef torrent_Name (torrent_source_key h (cf_parts file)) ∧
  ID (ts_Track track) = part_id (cf_parts file) ∧
  trackIDs r' = <[torrent_source_key h (cf_parts file) := part_id (cf_parts file)]> (trackIDs r) ∧
  cacheFiles r' = <[torrent_source_key h (cf_parts file) := (h, Join (cf_parts file) "/")]> (cacheFiles r).
Proof.
  unfold read_audio. cbv zeta. rewrite makeTrack_Ref, makeTrack_ID. cbn [SourceKey].
  destruct (bestArtwork (cf_parts file) art) as [artwork|]; intros [= <- <-]; cbn [ts_Ref ts_Track];
    rewrite ?makeTrack_Ref, ?makeTrack_ID; [|done].
  split_and!; try done. cbn. apply makeTrack_ID.
Qed.

Definition registered (h : string) (r : registries) (track : TrackSource) : Prop :=
  ∃ parts, parts ≠ [] ∧ Forall proper parts ∧ ts_Ref track = mkRef torrent_Name (torrent_source_key h parts) ∧
    trackIDs r !! torrent_source_key h parts = Some (ID (ts_Track track)) ∧
    cacheFiles r !! torrent_source_key h parts = Some (h, Join parts "/").

Lemma read_audio_files_registers h art files r tracks r' :
  Forall (λ f, cf_parts f ≠ [] ∧ Forall proper (cf_parts f)) files →
  read_audio_files h art files r = (tracks, r') →
  (∀ key, key ∉ map (λ f, torrent_source_key h (cf_parts f)) files →
     trackIDs r' !! key = trackIDs r !! key ∧ cacheFiles r' !! key = cacheFiles r !! key) ∧
  (∀ f, f ∈ files → trackIDs r' !! torrent_source_key h (cf_parts f) = Some (part_id (cf_parts f)) ∧
     cacheFiles r' !! torrent_source_key h (cf_parts f) = Some (h, Join (cf_parts f) "/")) ∧
  Forall (registered h r') tracks.
Proof.
  intros Hf. revert r tracks r'. induction files as [|f files IH]; intros r tracks r'; cbn [read_audio_files].
  { intros [= <- <-]. split_and!; [done|by intros f ?%elem_of_nil|constructor]. }
  apply Forall_cons in Hf as [[Hne Hp] Hf].
  destruct (read_audio h art f r) as [track r1] eqn:E1. apply read_audio_registers in E1 as (Hr & Hi & Ht & Hc).
  destruct (read_audio_files h art files r1) as [rest r2] eqn:E2. intros [= <- <-].
  destruct (IH Hf _ _ _ E2) as (Hout & Hin & Hreg).
  assert (trackIDs r2 !! torrent_source_key h (cf_parts f) = Some (part_id (cf_parts f)) ∧
          cacheFiles r2 !! torrent_source_key h (cf_parts f) = Some (h, Join (cf_parts f) "/")) as [H1 H2].
  { destruct (decide (torrent_source_key h (cf_parts f) ∈ map (λ f, torrent_source_key h (cf_parts f)) files)) as [Hk|Hk].
    - change (map ?g ?l) with (g <$> l) in Hk. apply list_elem_of_fmap in Hk as (g & Hkey & Hg).
      rewrite Forall_forall in Hf. destruct (Hf g Hg) as [Hgn Hgp].
      apply torrent_source_key_inj in Hkey; [|done..]. rewrite Hkey. by apply Hin.
    - destruct (Hout _ Hk) as [-> ->]. rewrite Ht, Hc. by rewrite !lookup_insert_eq. }
  split_and!.
  - intros key Hkey. cbn [map] in Hkey. apply not_elem_of_cons in Hkey as [Hk1 Hk2].
    destruct (Hout _ Hk2) as [-> ->]. rewrite Ht, Hc. by rewrite !lookup_insert_ne by done.
  - intros g [->|Hg]%elem_of_cons; [done|by apply Hin].
  - constructor; [|done]. exists (cf_parts f). rewrite Hi. done.
Qed.

Lemma register_artwork_files_keep h art r track :
  registered h r track → registered h (fold_left (register_artwork_file h) art r) track.
Proof.
  revert r. induction art as [|f art IH]; intros r (parts & Hne & Hp & Hr & Ht & Hc); cbn [fold_left].
  { exists parts. done. }
  apply IH. exists parts. split_and!; try done. unfold register_artwork_file, register_cache_file. cbn [cacheFiles].
  destruct (decide (torrent_source_key h (cf_parts f) = torrent_source_key h parts)) as [E|E].
  - rewrite E, lookup_insert_eq. unfold torrent_source_key in E. by apply str_app_inj, str_app_inj in E as ->.
  - by rewrite lookup_insert_ne.
Qed.

(** A catalogued track can be found again: of a torrent whose name is one
    path element, every track the catalog lists has a key that parses back to
    the torrent's hash and the track's path, that path is below the torrent's
    own directory, and the provider remembers the track and the file under
    that key. *)
Theorem catalogued_tracks_parse_back dataRoot root infoHash info w catalog w' :
  ReadCatalog dataRoot (Ok (infoHash, info)) w = (Ok catalog, w') →
  String.length infoHash = 40%nat → hex_error infoHash = None → proper (TrimSpace (BestName info)) →
  Forall proper root →
  tc_InfoHash catalog = infoHash ∧
  ∀ track, track ∈ tc_Tracks catalog →
    ∃ parts names, Forall proper parts ∧ Forall proper names ∧ Provider (ts_Ref track) = torrent_Name ∧
      parseSourceKey (SourceKey (ts_Ref track)) = Ok (infoHash, Join parts "/") ∧
      cachePath (abs_path root) infoHash (Join parts "/") = abs_path (root ++ infoHash :: names) ∧
      trackIDs w'.1 !! SourceKey (ts_Ref track) = Some (ID (ts_Track track)) ∧
      cacheFiles w'.1 !! SourceKey (ts_Ref track) = Some (infoHash, Join parts "/").
Proof.
  intros E Hl Hx Hn Hroot. unfold ReadCatalog in E.
  apply bind_Ok_inv in E as ([h i] & w1 & E1 & E). injection E1 as <- <- <-.
  destruct (bool_decide (TrimSpace (BestName info) = "")); [done|].
  apply bind_Ok_inv in E as ([] & w2 & _ & E). apply bind_Ok_inv in E as ([audio artwork] & w3 & E2 & E).
  apply lift_Ok_inv in E2 as [Hcl ->]. apply bind_Ok_inv in E as (tracks & w4 & E3 & E).
  apply bind_Ok_inv in E as ([] & w5 & E4 & E). injection E4 as <-. injection E as <- <-.
  destruct (read_audio_files infoHash artwork audio w2.1) as [ts r] eqn:Er. injection E3 as <- <-.
  split; [done|]. cbn [tc_Tracks fst]. intros track Htrack.
  assert (Forall (λ f, cf_parts f ≠ [] ∧ Forall proper (cf_parts f)) audio) as Haudio.
  { eapply classify_parts; [exact Hn|exact Hcl|constructor]. }
  apply read_audio_files_registers in Er as (_ & _ & Hreg); [|done].
  rewrite Forall_forall in Hreg. specialize (Hreg _ Htrack).
  apply (register_artwork_files_keep infoHash artwork) in Hreg as (parts & Hne & Hp & Href & Ht & Hc).
  pose proof (torrent_key_parses infoHash parts Hl Hx Hne Hp) as Hparse.
  pose proof (parseSourceKey_Ok _ _ _ Hparse) as (_ & Hh & Hj & Hclean & Hup).
  assert (Join parts "/" ≠ "..") as Hdd.
  { intros Hj'. assert (Split slash (Join parts "/") = parts) as Hs by
      (apply Split_Join; [done|by apply Forall_proper_lacks]). rewrite Hj' in Hs.
    change (Split slash "..") with [".."] in Hs. subst parts. apply Forall_cons in Hp as [[_ ?] _]. done. }
  destruct (JoinPath_inside root infoHash (Join parts "/") Hroot Hh Hj Hclean Hdd Hup) as (names & Hnames & Hpath).
  exists parts, names. rewrite Href. done.
Qed.
End catalogued.

(** * Legacy caches *)

Section legacy.
Context (dataRoot infoHash : string) (info : torrent_info).

(** The paths of a torrent's files in its own directory. *)
Definition file_path (parts : list string) : string := cachePath dataRoot infoHash (Join parts "/").

Definition info_parts : list (list string) :=
  omap (λ file, match safePath (TrimSpace (BestName info)) file.1 with Ok parts => Some parts | Err _ => None end)
    (info_files info).

(** No file of the torrent has the path of another's partial data or of the
    marker, and the marker is not a legacy file. *)
Definition paths_apart : Prop :=
  (∀ p q, p ∈ info_parts → q ∈ info_parts → file_path p ≠ file_path q +:+ ".part") ∧
  (∀ p, p ∈ info_parts → file_path p ≠ legacy_marker dataRoot infoHash ∧
        file_path p +:+ ".part" ≠ legacy_marker dataRoot infoHash ∧
        JoinPath [dataRoot; Join p "/"] ≠ legacy_marker dataRoot infoHash ∧
        JoinPath [dataRoot; Join p "/"] +:+ ".part" ≠ legacy_marker dataRoot infoHash).

(** A loop over the files that succeeds runs its body on the checked parts. *)
Lemma miter_each_file (f : list string → M disk unit) (P : gmap string bytes → Prop) files d u d' :
  (∀ parts d u d', parts ∈ omap (λ file, match safePath (TrimSpace (BestName info)) file.1 with
       Ok parts => Some parts | Err _ => None end) files →
     f parts d = (Ok u, d') → P (tables d) → P (tables d')) →
  miter (each_file (TrimSpace (BestName info)) f) files d = (Ok u, d') → P (tables d) → P (tables d').
Proof.
  revert d u. induction files as [|file files IH]; intros d u Hf E HP; cbn [miter] in E; [by injection E as <- <-|].
  apply bind_Ok_inv in E as ([] & d1 & E1 & E2). unfold each_file in E1.
  apply bind_Ok_inv in E1 as (parts & d2 & E3 & E4). apply lift_Ok_inv in E3 as [Hs ->].
  eapply IH; [|exact E2|].
  - intros p x y z Hp. apply Hf. cbn [omap list_omap]. rewrite Hs. by right.
  - eapply Hf; [|exact E4|exact HP]. cbn [omap list_omap]. rewrite Hs. by left.
Qed.

(** After the files were migrated, a complete file that was not there before
    means that the torrent is marked for verification. *)
Definition new_means_marked (t0 t : gmap string bytes) : Prop :=
  is_Some (t !! legacy_marker dataRoot infoHash) ∨
  ∀ p c, p ∈ info_parts → t !! file_path p = Some c → t0 !! file_path p = Some c.

Lemma os_Rename_Ok src dst d u d' :
  os_Rename src dst (d : disk) = (Ok u, d') →
  ∃ c, tables d !! src = Some c ∧ tables d' = <[dst := c]> (delete src (tables d)).
Proof.
  intros E%statement_Ok. cbn beta in E. destruct (tables d !! src) as [c|]; [|done].
  injection E as _ <-. eauto.
Qed.

Lemma migrate_file_new_means_marked t0 parts d u d' :
  paths_apart → parts ∈ info_parts →
  migrateLegacyFileLocked dataRoot infoHash (Join parts "/") d = (Ok u, d') →
  new_means_marked t0 (tables d) → new_means_marked t0 (tables d').
Proof.
  intros [Hq Hm] Hparts. destruct (Hm _ Hparts) as (Hm1 & Hm2 & Hm3 & Hm4).
  unfold migrateLegacyFileLocked. unfold mbind at 1, M_bind at 1, gets.
  destruct (legacy_move dataRoot infoHash (Join parts "/") (tables d)) as [[[src dst] complete]|] eqn:Emove;
    [|by intros [= _ <-]].
  unfold legacy_move in Emove. destruct (bool_decide _); [done|]. destruct (_ || _); [done|]. intros E Hnew.
  apply bind_Ok_inv in E as ([] & d1 & E1%wrap_err_Ok_inv%ExecContext_Ok & E).
  apply bind_Ok_inv in E as ([] & d2 & E2 & E%wrap_err_Ok_inv%os_Rename_Ok).
  destruct E as (c & Hc & Hd'). unfold id in E1.
  destruct (fileExists (JoinPath [dataRoot; Join parts "/"]) (tables d)); [|destruct (fileExists _ _); [|done]];
    injection Emove as <- <- <-.
  - apply wrap_err_Ok_inv, ExecContext_Ok in E2. left. rewrite Hd', lookup_insert_ne by done.
    rewrite lookup_delete_ne by done. rewrite E2, lookup_insert_eq. eauto.
  - injection E2 as <-. rewrite Hd'. destruct Hnew as [Hmark|Hnew].
    + left. rewrite lookup_insert_ne by done. rewrite lookup_delete_ne by done. by rewrite E1.
    + right. intros p c' Hp. rewrite lookup_insert_ne by (intros Heq; by apply (Hq p parts)).
      intros [_ Hl]%lookup_delete_Some. rewrite E1 in Hl. by apply Hnew.
Qed.

Lemma prepare_file_removes parts p d u d' :
  paths_apart → parts ∈ info_parts → p ∈ info_parts →
  prepare_file dataRoot infoHash parts d = (Ok u, d') →
  (p = parts ∨ tables d !! file_path p = None) → tables d' !! file_path p = None.
Proof.
  intros [Hq _] Hparts Hp E Hnone. unfold prepare_file in E. unfold mbind at 1, M_bind at 1, gets at 1 in E.
  fold (file_path parts) in E. unfold fileExists at 1 in E.
  case_bool_decide as He; cbn [negb] in E.
  - apply bind_Ok_inv in E as (both & d1 & E1 & E). injection E1 as <- <-.
    destruct (fileExists _ _); [done|]. apply wrap_err_Ok_inv, os_Rename_Ok in E as (c & _ & ->).
    rewrite lookup_insert_ne by (intros Heq; by apply (Hq p parts)).
    apply lookup_delete_None. destruct Hnone as [->|?]; auto.
  - injection E as _ <-. destruct Hnone as [->|?]; [|done]. by apply eq_None_not_Some.
Qed.

Lemma prepare_files_remove p files d u d' :
  paths_apart →
  (∀ q, q ∈ omap (λ file, match safePath (TrimSpace (BestName info)) file.1 with
     Ok parts => Some parts | Err _ => None end) files → q ∈ info_parts) → p ∈ info_parts →
  miter (each_file (TrimSpace (BestName info)) (prepare_file dataRoot infoHash)) files d = (Ok u, d') →
  (p ∈ omap (λ file, match safePath (TrimSpace (BestName info)) file.1 with
     Ok parts => Some parts | Err _ => None end) files ∨ tables d !! file_path p = None) →
  tables d' !! file_path p = None.
Proof.
  intros Hap Hsub Hp. revert d u. induction files as [|file files IH]; intros d u E Hn; cbn [miter] in E.
  { injection E as _ <-. destruct Hn as [?%elem_of_nil|?]; done. }
  apply bind_Ok_inv in E as ([] & d1 & E1 & E2). unfold each_file in E1.
  apply bind_Ok_inv in E1 as (parts & d2 & E3 & E4). apply lift_Ok_inv in E3 as [Hs ->].
  cbn [omap list_omap] in Hsub, Hn. rewrite Hs in Hsub, Hn.
  eapply IH; [|exact E2|]; [intros q Hq; apply Hsub; by right|].
  assert (parts ∈ info_parts) as Hparts by (apply Hsub; by left).
  destruct Hn as [[->|Hin]%elem_of_cons|Hnone].
  - right. eapply prepare_file_removes; [done|exact Hparts|done|exact E4|by left].
  - by left.
  - right. eapply prepare_file_removes; [done|exact Hparts|done|exact E4|by right].
Qed.

(** Migrated files are verified again: when the legacy data of a torrent
    was migrated and prepared, a file that is complete now was complete in the
    torrent's own directory before, with the same contents; everything that
    moved there counts as partial until its pieces are checked. *)
Theorem migrated_files_are_not_complete d u d1 v d2 parts contents :
  paths_apart → parts ∈ info_parts →
  migrateLegacyData dataRoot infoHash info d = (Ok u, d1) →
  prepareLegacyData dataRoot infoHash info d1 = (Ok v, d2) →
  tables d2 !! file_path parts = Some contents → tables d !! file_path parts = Some contents.
Proof.
  intros Hap Hparts Em Ep Hc. unfold migrateLegacyData, prepareLegacyData in *.
  case_bool_decide; [injection Em as _ <-; injection Ep as _ <-; done|].
  assert (new_means_marked (tables d) (tables d1)) as Hnew.
  { eapply (miter_each_file _ (new_means_marked (tables d))); [|exact Em|by right].
    intros p x y z Hp. by apply migrate_file_new_means_marked. }
  unfold mbind at 1, M_bind at 1, gets at 1 in Ep. unfold fileExists at 1 in Ep.
  case_bool_decide as Hmark; cbn [negb] in Ep.
  - apply bind_Ok_inv in Ep as ([] & d3 & E3 & E4). exfalso.
    assert (tables d3 !! file_path parts = None) as Hnone.
    { eapply prepare_files_remove; [done| |exact Hparts|exact E3|by left]. done. }
    unfold remove_if_there in E4. apply bind_Ok_inv in E4 as (r & d4 & E5 & E6). unfold try in E5.
    destruct (os_Remove (legacy_marker dataRoot infoHash) d3) as [r' d5] eqn:Er. injection E5 as <- <-.
    assert (tables d5 !! file_path parts = None) as Hnone5.
    { destruct r' as [x|e]; [|by apply statement_clean in Er as ->].
      apply statement_Ok in Er. cbn beta in Er. destruct (tables d3 !! legacy_marker dataRoot infoHash); [|done].
      injection Er as _ <-. apply lookup_delete_None. by right. }
    destruct r' as [x|e]; [|destruct (errors_Is _ _); [|done]]; injection E6 as _ <-; congruence.
  - injection Ep as _ <-. destruct Hnew as [?|Hnew]; [done|]. by apply Hnew.
Qed.
End legacy.

Definition toy_hash : string := "0123456789abcdef0123456789abcdef01234567".

Lemma toy_names_proper : Forall proper ["srv"; "data"].
Proof.
  repeat constructor; try discriminate; unfold lacks; cbn; rewrite !not_elem_of_cons;
    split_and!; try discriminate; by intros ?%elem_of_nil.
Qed.

Lemma source_keys_stay_inside_witness :
  ∃ names, cachePath (abs_path ["srv"; "data"]) toy_hash "A/1.flac" =
           abs_path (["srv"; "data"] ++ toy_hash :: names).
Proof.
  destruct (source_keys_stay_inside ["srv"; "data"] (toy_hash +:+ "/A/1.flac") toy_hash "A/1.flac"
    toy_names_proper eq_refl) as (_ & _ & names & _ & Hpath).
  exists names. exact Hpath.
Defined.

(** A key whose path is [..] is accepted and leads to the data directory. *)
Lemma parent_path_is_accepted :
  parseSourceKey (toy_hash +:+ "/..") = Ok (toy_hash, "..") ∧
  cachePath "/srv/data" toy_hash ".." = "/srv/data".
Proof. split; vm_compute; reflexivity. Qed.

#[local] Existing Instance ascii_unicode.
#[local] Existing Instance ascii_norm.

Definition toy_torrent : torrent_info := mkInfo "srv" [(["1.flac"], 7); (["cover.jpg"], 2)].
Definition toy_read : res torrent_catalog * (registries * disk) :=
  ReadCatalog "/srv/data" (Ok (toy_hash, toy_torrent)) (mkRegistries ∅ ∅ ∅, mkDatabase ∅ []).
Definition toy_catalog : torrent_catalog :=
  mkTorrentCatalog toy_hash "srv"
    [mkSource (with_cover (StableID "torrentart" [toy_hash; "srv/cover.jpg"])
       (ts_Track (makeTrack toy_hash ["srv"; "1.flac"] 7 ".flac" "audio/flac")))
       (mkRef torrent_Name (toy_hash +:+ "/srv/1.flac")) "" (mkAvailability "" 0 0 false false) time_zero].

Lemma toy_read_ok : toy_read = (Ok toy_catalog, toy_read.2).
Proof. vm_compute. reflexivity. Qed.

Lemma catalogued_tracks_parse_back_witness :
  ∃ parts, parseSourceKey (toy_hash +:+ "/srv/1.flac") = Ok (toy_hash, Join parts "/").
Proof.
  destruct (catalogued_tracks_parse_back "/srv/data" ["srv"; "data"] toy_hash toy_torrent
    (mkRegistries ∅ ∅ ∅, mkDatabase ∅ []) toy_catalog toy_read.2 toy_read_ok eq_refl eq_refl
    (Forall_inv toy_names_proper) toy_names_proper) as [_ Hall].
  destruct (Hall _ (list_elem_of_here _ _)) as (parts & names & _ & _ & _ & Hparse & _).
  exists parts. exact Hparse.
Defined.

(** A legacy cache of one complete track. *)
Definition toy_disk : disk := mkDatabase {["/srv/data/srv/1.flac" := [1; 2; 3]]} [].
Definition toy_migrated : res unit * disk := migrateLegacyData "/srv/data" toy_hash toy_torrent toy_disk.
Definition toy_prepared : res unit * disk := prepareLegacyData "/srv/data" toy_hash toy_torrent toy_migrated.2.

Lemma toy_legacy_runs :
  migrateLegacyData "/srv/data" toy_hash toy_torrent toy_disk = (Ok tt, toy_migrated.2) ∧
  prepareLegacyData "/srv/data" toy_hash toy_torrent toy_migrated.2 = (Ok tt, toy_prepared.2) ∧
  tables toy_prepared.2 !! ("/srv/data/" +:+ toy_hash +:+ "/srv/1.flac.part") = Some [1; 2; 3].
Proof. split_and!; vm_compute; reflexivity. Qed.

Definition toy_complete : disk :=
  mkDatabase {["/srv/data/" +:+ toy_hash +:+ "/srv/1.flac" := [1; 2; 3]]} [].

Lemma toy_paths_apart : paths_apart "/srv/data" toy_hash toy_torrent.
Proof.
  assert (info_parts toy_torrent = [["srv"; "1.flac"]; ["srv"; "cover.jpg"]]) as E by (vm_compute; reflexivity).
  split.
  - intros p q. rewrite E, !elem_of_cons. intros [->|[->|[]%elem_of_nil]] [->|[->|[]%elem_of_nil]];
      intros Heq; vm_compute in Heq; discriminate Heq.
  - intros p. rewrite E, !elem_of_cons. intros [->|[->|[]%elem_of_nil]]; split_and!;
      intros Heq; vm_compute in Heq; discriminate Heq.
Qed.

Lemma migrated_files_are_not_complete_witness :
  ∃ contents, tables toy_complete !! file_path "/srv/data" toy_hash ["srv"; "1.flac"] = Some contents.
Proof.
  exists [1; 2; 3].
  apply (migrated_files_are_not_complete "/srv/data" toy_hash toy_torrent toy_complete tt
    (migrateLegacyData "/srv/data" toy_hash toy_torrent toy_complete).2 tt
    (prepareLegacyData "/srv/data" toy_hash toy_torrent
      (migrateLegacyData "/srv/data" toy_hash toy_torrent toy_complete).2).2).
  - exact toy_paths_apart.
  - vm_compute. left.
  - vm_compute. reflexivity.
  - vm_compute. reflexivity.
  - vm_compute. reflexivity.
Defined.

(** The name of a torrent is not checked: a torrent named with dots moves files
    from outside the data directory when it is read. *)
Lemma torrent_name_escapes_the_data_directory :
  let t := mkInfo "../../etc/passwd" [([], 3)] in
  let d : disk := mkDatabase {["/etc/passwd" := [1; 2; 3]]} [] in
  tables (migrateLegacyData "/srv/data" toy_hash t d).2 !! "/etc/passwd" = None ∧
  tables (migrateLegacyData "/srv/data" toy_hash t d).2 !! "/srv/etc/passwd" = Some [1; 2; 3].
Proof. cbv zeta. split; vm_compute; reflexivity. Qed.
