(* ===== verification/BoundedReader.v ===== *)
(** The reader of one file of a torrent ([boundedReader] of
    [torrent/provider.go]). *)
From stdpp Require Import base list relations strings.
From Stdlib Require Import ZArith Lia.
From S2P Require Import Prelude GoStrings.

Open Scope Z_scope.

(** The torrent client's reader: a read returns bytes and possibly an error at
    once, [in_Seek] takes an offset and its origin. *)
Class ReadSeekCloser (I : Type) := {
  in_Read : Z → I → list Z * option error * I;
  in_Seek : Z → Z → I → res Z * I;
  in_Close : I → option error * I;
}.

(** It reads a content from a position on.  A piece may be shared with the next
    file, so the content may go on behind the file's end. *)
Class ReadSeekCloserLaws (I : Type) `{ReadSeekCloser I} (content : list Z) := {
  in_pos : I → Z;
  law_in_pos i : 0 ≤ in_pos i;
  law_in_Read n i bs e i' : in_Read n i = (bs, e, i') → 0 ≤ n →
    Z.of_nat (length bs) ≤ n ∧ bs = take (length bs) (drop (Z.to_nat (in_pos i)) content) ∧
    in_pos i' = in_pos i + Z.of_nat (length bs);
  law_in_Seek offset whence i r i' : in_Seek offset whence i = (r, i') →
    in_pos i' = match r with Ok p => p | Err _ => in_pos i end;
  law_in_Close i e i' : in_Close i = (e, i') → in_pos i' = in_pos i;
}.

Section reader.
Context {I : Type} `{ReadSeekCloser I}.

(** [completions] and [closes] count the calls of [onComplete] and [onClose],
    which are set. *)
Record boundedReader := mkReader {
  inner : I;
  position : Z;
  file_length : Z;
  readStarted : bool;
  contiguous : bool;
  completed : bool;
  closedOnce : bool;
  completions : nat;
  closes : nat;
}.

Definition newReader (i : I) (length : Z) : boundedReader :=
  mkReader i 0 length false true false false 0 0.

Definition Read (n : Z) (r : boundedReader) : list Z * option error * boundedReader :=
  if position r >=? file_length r then ([], Some (Sentinel ErrEOF), r)
  else
    let remaining := file_length r - position r in
    let n := if n >? remaining then remaining else n in
    let '(bs, err, i) := in_Read n (inner r) in
    let started := readStarted r || (0 <? Z.of_nat (length bs)) in
    let position := position r + Z.of_nat (length bs) in
    let completes := (position >=? file_length r) && contiguous r && negb (completed r) in
    (bs,
     match err with
     | None => if position >=? file_length r then Some (Sentinel ErrEOF) else None
     | Some _ => err
     end,
     mkReader i position (file_length r) started (contiguous r) (completes || completed r) (closedOnce r)
       (if completes then S (completions r) else completions r) (closes r)).

Definition Seek (offset whence : Z) (r : boundedReader) : res Z * boundedReader :=
  let '(p, i) := in_Seek offset whence (inner r) in
  (p, match p with
      | Ok pos =>
          mkReader i pos (file_length r) (readStarted r)
            (if negb (readStarted r) then pos =? 0
             else if negb (pos =? position r) then false else contiguous r)
            (completed r) (closedOnce r) (completions r) (closes r)
      | Err _ =>
          mkReader i (position r) (file_length r) (readStarted r) (contiguous r) (completed r) (closedOnce r)
            (completions r) (closes r)
      end).

Definition Close (r : boundedReader) : option error * boundedReader :=
  let '(err, i) := in_Close (inner r) in
  (err, mkReader i (position r) (file_length r) (readStarted r) (contiguous r) (completed r) true
          (completions r) (if closedOnce r then closes r else S (closes r))).

(** A use of the reader: calls in any order, and the bytes each read returned
    with the position it read them at. *)
Inductive reader_step : boundedReader → list (Z * list Z) → boundedReader → Prop :=
  | step_read r n bs err r' :
      0 ≤ n → Read n r = (bs, err, r') → reader_step r [(position r, bs)] r'
  | step_seek r offset whence p r' : Seek offset whence r = (p, r') → reader_step r [] r'
  | step_close r err r' : Close r = (err, r') → reader_step r [] r'.

Inductive reader_run (r0 : boundedReader) : list (Z * list Z) → boundedReader → Prop :=
  | run_nil : reader_run r0 [] r0
  | run_snoc reads r new r' : reader_run r0 reads r → reader_step r new r' → reader_run r0 (reads ++ new) r'.

Context (content : list Z) `{!ReadSeekCloserLaws I content}.

(** The bytes read so far, one read after the other. *)
Definition delivered (reads : list (Z * list Z)) : list Z := concat (map snd reads).

Record reader_ok (len : Z) (reads : list (Z * list Z)) (r : boundedReader) : Prop := {
  ro_length : file_length r = len;
  ro_position : position r = in_pos (inner r);
  ro_unstarted : readStarted r = false → delivered reads = [] ∧ (contiguous r = true → position r = 0);
  ro_contiguous : readStarted r = true → contiguous r = true →
    delivered reads = take (Z.to_nat (position r)) content ∧ position r ≤ len;
  ro_reads : Forall (λ x, 0 ≤ x.1 ∧ (x.2 ≠ [] → x.1 + Z.of_nat (length x.2) ≤ len) ∧
                          x.2 = take (length x.2) (drop (Z.to_nat x.1) content)) reads;
  ro_completions : completions r = if completed r then 1%nat else 0%nat;
  ro_completed : completed r = true → ∃ before, before `prefix_of` reads ∧
    delivered before = take (Z.to_nat len) content;
  ro_closes : closes r = if closedOnce r then 1%nat else 0%nat;
}.

Lemma delivered_snoc reads x : delivered (reads ++ [x]) = delivered reads ++ x.2.
Proof. unfold delivered. rewrite map_app, concat_app. cbn. by rewrite app_nil_r. Qed.

Lemma take_drop_app {A} (l : list A) p bs :
  bs = take (length bs) (drop p l) → (p ≤ length l)%nat ∨ bs = [] →
  take p l ++ bs = take (p + length bs) l.
Proof.
  intros Hbs Hp. rewrite Hbs at 1. rewrite take_take_drop. done.
Qed.

Lemma prefix_app_snoc {A} (l k : list A) x : l `prefix_of` k → l `prefix_of` k ++ [x].
Proof. apply prefix_app_r. Qed.

Lemma Read_ok len reads r n bs err r' :
  0 ≤ n → reader_ok len reads r → Read n r = (bs, err, r') → reader_ok len (reads ++ [(position r, bs)]) r'.
Proof.
  intros Hn [Hlen Hpos Hun Hcont Hreads Hcomp Hdone Hcl]. unfold Read. rewrite Hlen.
  pose proof (law_in_pos (content := content) (inner r)) as Hp0.
  destruct (position r >=? len) eqn:Hge.
  - intros [= <- <- <-]. split; rewrite ?delivered_snoc, ?app_nil_r; auto.
    + apply Forall_app. split; [done|]. constructor; [|constructor]. cbn. split_and!; [lia|done|done].
    + intros Hc. destruct (Hdone Hc) as (before & Hpre & Hd). exists before. split; [by apply prefix_app_snoc|done].
  - set (m := if n >? len - position r then len - position r else n).
    assert (0 ≤ m ∧ m ≤ len - position r) as [Hm0 Hm] by (unfold m; destruct (n >? _) eqn:?; lia).
    destruct (in_Read m (inner r)) as [[bs' e] i] eqn:E. intros [= <- <- <-].
    apply law_in_Read in E as (Hl & Hbs & Hi); [|done]. rewrite <- Hpos in Hbs.
    assert (contiguous r = true → delivered reads = take (Z.to_nat (position r)) content) as Hbefore.
    { intros Hc. destruct (readStarted r) eqn:Hs; [by apply Hcont|].
      destruct (Hun eq_refl) as [-> Hz]. by rewrite (Hz Hc). }
    assert (contiguous r = true →
      delivered reads ++ bs' = take (Z.to_nat (position r + Z.of_nat (length bs'))) content) as Hafter.
    { intros Hc. rewrite (Hbefore Hc). rewrite Z2Nat.inj_add, Nat2Z.id by lia.
      rewrite Hbs at 1. apply take_take_drop. }
    split; cbn [file_length position inner readStarted contiguous completed completions closes closedOnce];
      rewrite ?delivered_snoc; cbn [snd].
    + done.
    + lia.
    + intros [Hs Hb]%orb_false_iff. destruct (Hun Hs) as [-> Hz]. destruct bs'; [|discriminate].
      split; [done|]. intros Hc. rewrite (Hz Hc). done.
    + intros _ Hc. split; [by apply Hafter|lia].
    + apply Forall_app. split; [done|]. constructor; [|constructor]. cbn. split_and!; [lia|lia|done].
    + rewrite Hcomp. destruct ((_ >=? _) && contiguous r), (completed r); done.
    + destruct (completed r) eqn:Hd; [|rewrite orb_false_r, andb_true_r].
      * intros _. destruct (Hdone eq_refl) as (before & Hpre & Hb). exists before. split; [by apply prefix_app_snoc|done].
      * intros [Hge' Hc]%andb_true_iff. exists (reads ++ [(position r, bs')]). split; [done|].
        rewrite delivered_snoc. cbn [snd]. rewrite (Hafter Hc). f_equal. lia.
    + done.
Qed.

Lemma Seek_ok len reads r offset whence p r' :
  reader_ok len reads r → Seek offset whence r = (p, r') → reader_ok len reads r'.
Proof.
  intros [Hlen Hpos Hun Hcont Hreads Hcomp Hdone Hcl]. unfold Seek.
  destruct (in_Seek offset whence (inner r)) as [[pos|e] i] eqn:E; intros [= <- <-];
    pose proof E as E'; apply (law_in_Seek (content := content)) in E'; cbn in E'.
  - split; cbn [file_length position inner readStarted contiguous completed completions closes closedOnce]; auto.
    + intros Hs. destruct (Hun Hs) as [Hd _]. rewrite Hs. cbn. split; [done|lia].
    + intros Hs. rewrite Hs. cbn. destruct (pos =? position r) eqn:Hq; [|done]. cbn. intros Hc.
      apply Z.eqb_eq in Hq as ->. by apply Hcont.
  - split; cbn [file_length position inner readStarted contiguous completed completions closes closedOnce]; auto.
    lia.
Qed.

Lemma Close_ok len reads r err r' :
  reader_ok len reads r → Close r = (err, r') → reader_ok len reads r'.
Proof.
  intros [Hlen Hpos Hun Hcont Hreads Hcomp Hdone Hcl]. unfold Close.
  destruct (in_Close (inner r)) as [e i] eqn:E. intros [= <- <-].
  apply (law_in_Close (content := content)) in E.
  split; cbn [file_length position inner readStarted contiguous completed completions closes closedOnce]; auto.
  - lia.
  - rewrite Hcl. by destruct (closedOnce r).
Qed.

Lemma reader_run_ok i len reads r :
  in_pos i = 0 → reader_run (newReader i len) reads r → reader_ok len reads r.
Proof.
  intros Hi. induction 1 as [|reads r new r' _ IH Hs].
  - split; cbn; auto; done.
  - destruct Hs as [r n bs err r' Hn E|r offset whence p r' E|r err r' E]; rewrite ?app_nil_r.
    + by eapply Read_ok.
    + by eapply Seek_ok.
    + by eapply Close_ok.
Qed.

(** However the reader of a file inside a torrent is used, it never
    returns a byte that lies behind the file's end, even where the content goes
    on there; each read returns the content at the reader's position; the file
    is reported complete at most once, and only when the bytes returned until
    then, put together, are the file; and its closing is reported at most once. *)
Theorem reader_stays_in_its_file i len reads r :
  in_pos i = 0 → reader_run (newReader i len) reads r →
  (∀ p bs, (p, bs) ∈ reads →
     0 ≤ p ∧ (bs ≠ [] → p + Z.of_nat (length bs) ≤ len) ∧
     bs = take (length bs) (drop (Z.to_nat p) content)) ∧
  (completions r ≤ 1)%nat ∧
  (completions r = 1%nat → ∃ before, before `prefix_of` reads ∧
     delivered before = take (Z.to_nat len) content) ∧
  (closes r ≤ 1)%nat.
Proof.
  intros Hi Hrun. destruct (reader_run_ok _ _ _ _ Hi Hrun) as [_ _ _ _ Hreads Hcomp Hdone Hcl].
  split_and!.
  - intros p bs Hin. rewrite Forall_forall in Hreads. exact (Hreads _ Hin).
  - rewrite Hcomp. destruct (completed r); lia.
  - intros Hc. apply Hdone. rewrite Hcomp in Hc. by destruct (completed r).
  - rewrite Hcl. destruct (closedOnce r); lia.
Qed.
End reader.

Lemma take_length_take {A} m (l : list A) : take (length (take m l)) l = take m l.
Proof. revert m. induction l as [|x l IH]; intros [|m]; cbn; [done..|by rewrite IH]. Qed.

(** A reader over a list: the content and the position. *)
#[export] Instance list_reader (content : list Z) : ReadSeekCloser N := {
  in_Read n i :=
    let bs := take (Z.to_nat n) (drop (N.to_nat i) content) in
    (bs, None, (i + N.of_nat (length bs))%N);
  in_Seek offset whence i :=
    if (offset <? 0) || negb (whence =? 0) then (Err (Plain "unsupported seek"), i)
    else (Ok offset, Z.to_N offset);
  in_Close i := (None, i);
}.

#[export] Instance list_reader_laws (content : list Z) :
  @ReadSeekCloserLaws N (list_reader content) content.
Proof.
  refine {| in_pos i := Z.of_N i |}.
  - lia.
  - cbn. intros n i bs e i' [= <- <- <-] Hn. rewrite length_take.
    replace (Z.to_nat (Z.of_N i)) with (N.to_nat i) by lia. split_and!.
    + lia.
    + symmetry. rewrite <- length_take. apply take_length_take.
    + lia.
  - cbn. intros offset whence i r i'. destruct (_ || _) eqn:E; intros [= <- <-]; [done|].
    apply orb_false_iff in E as [E _]. lia.
  - cbn. by intros i e i' [= <- <-].
Defined.

(** A file of three bytes in a piece of five: a read of two bytes, then one of
    ten, then the end and the closing. *)
Lemma reader_stays_in_its_file_witness :
  let content := [1; 2; 3; 4; 5] in
  ∃ r : @boundedReader N,
    reader_run (H := list_reader content) (newReader 0%N 3) [(0, [1; 2]); (2, [3]); (3, [])] r ∧
    completions r = 1%nat ∧ closes r = 1%nat ∧ (completions r ≤ 1)%nat.
Proof.
  intros content.
  pose (r := mkReader 3%N 3 3 true true true true 1 1).
  assert (reader_run (H := list_reader content) (newReader 0%N 3) [(0, [1; 2]); (2, [3]); (3, [])] r) as Hrun.
  { apply (run_snoc (H := list_reader content) _ [(0, [1; 2]); (2, [3]); (3, [])]
             (mkReader 3%N 3 3 true true true false 1 0) [] r);
      [|by apply (step_close (H := list_reader content) _ None)].
    apply (run_snoc (H := list_reader content) _ [(0, [1; 2]); (2, [3])]
             (mkReader 3%N 3 3 true true true false 1 0) [(3, [])]);
      [|by apply (step_read (H := list_reader content) (mkReader 3%N 3 3 true true true false 1 0) 4 [] (Some (Sentinel ErrEOF)))].
    apply (run_snoc (H := list_reader content) _ [(0, [1; 2])]
             (mkReader 2%N 2 3 true true false false 0 0) [(2, [3])]);
      [|by apply (step_read (H := list_reader content) (mkReader 2%N 2 3 true true false false 0 0) 10 [3] (Some (Sentinel ErrEOF)))].
    apply (run_snoc (H := list_reader content) _ [] (newReader 0%N 3) [(0, [1; 2])]);
      [|by apply (step_read (H := list_reader content) (newReader 0%N 3) 2 [1; 2] None)].
    apply run_nil. }
  exists r. split_and!; [done..|].
  assert (in_pos (ReadSeekCloserLaws := list_reader_laws content) 0%N = 0) as Hi by reflexivity.
  destruct (reader_stays_in_its_file (H := list_reader content) content 0%N 3 _ r Hi Hrun) as (_ & Hc & _). done.
Defined.
