(* ===== verification/Counting.v ===== *)
(** Counters kept in Go maps, and what they count: the elements of a list, which
    stands for what is running, that a function assigns to the key. *)
From stdpp Require Import base gmap strings list.
From Stdlib Require Import ZArith Lia.
From S2P Require Import Prelude.

Open Scope Z_scope.

(** [counts[key]++] of a Go map. *)
Definition count_up (key : string) (counts : gmap string Z) : gmap string Z :=
  <[key := default 0 (counts !! key) + 1]> counts.

(** A counter that goes down to zero leaves the map. *)
Definition count_down (key : string) (counts : gmap string Z) : gmap string Z :=
  if default 0 (counts !! key) <=? 1 then delete key counts
  else <[key := default 0 (counts !! key) - 1]> counts.

Section counting.
Context {T : Type}.

Definition count_of (f : T → option string) (h : string) (ts : list T) : nat :=
  length (List.filter (λ t, bool_decide (f t = Some h)) ts).

(** A Go map counts what [f] finds: a missing key is zero. *)
Definition counts (f : T → option string) (ts : list T) (m : gmap string Z) : Prop :=
  ∀ h, default 0 (m !! h) = Z.of_nat (count_of f h ts).

Lemma count_of_cons f h t ts :
  count_of f h (t :: ts) = ((if bool_decide (f t = Some h) then 1 else 0) + count_of f h ts)%nat.
Proof. unfold count_of. cbn. by destruct (bool_decide _). Qed.

Lemma filter_perm_length {A} (f : A → bool) l k : l ≡ₚ k → length (List.filter f l) = length (List.filter f k).
Proof.
  induction 1 as [| x l k _ IH | x y l | l k j _ IH1 _ IH2]; cbn; [done| | |congruence].
  - destruct (f x); cbn; congruence.
  - by destruct (f x), (f y).
Qed.

Lemma counts_perm f ts ts' m : ts ≡ₚ ts' → counts f ts m → counts f ts' m.
Proof. intros Hp Hc h. rewrite (Hc h). unfold count_of. by rewrite (filter_perm_length _ _ _ Hp). Qed.

Lemma counts_none f t ts m : f t = None → counts f (t :: ts) m ↔ counts f ts m.
Proof.
  intros Hf. unfold counts. split; intros Hc h; specialize (Hc h); rewrite count_of_cons, Hf in *; done.
Qed.

Lemma counts_swap f t t' ts m : f t = f t' → counts f (t :: ts) m → counts f (t' :: ts) m.
Proof. intros Hf Hc h. specialize (Hc h). by rewrite count_of_cons, Hf, <- count_of_cons in Hc. Qed.

Lemma counts_up f t h ts m : f t = Some h → counts f ts m → counts f (t :: ts) (count_up h m).
Proof.
  intros Hf Hc k. unfold count_up. rewrite count_of_cons, Hf. pose proof (Hc k) as Hk.
  destruct (decide (h = k)) as [->|Hne].
  - rewrite lookup_insert_eq, bool_decide_eq_true_2 by done. cbn [default]. rewrite Hk. cbn. lia.
  - rewrite lookup_insert_ne, bool_decide_eq_false_2 by congruence. done.
Qed.

Lemma counts_down f t h ts m : f t = Some h → counts f (t :: ts) m → counts f ts (count_down h m).
Proof.
  intros Hf Hc k. pose proof (Hc k) as Hk. pose proof (Hc h) as Hh. rewrite count_of_cons, Hf in Hk, Hh.
  rewrite (bool_decide_eq_true_2 (Some h = Some h)) in Hh by done. unfold count_down.
  destruct (_ <=? 1) eqn:E; destruct (decide (h = k)) as [->|Hne].
  - rewrite lookup_delete_eq. apply Z.leb_le in E. cbn. lia.
  - rewrite lookup_delete_ne by done. rewrite bool_decide_eq_false_2 in Hk by congruence. done.
  - rewrite lookup_insert_eq. cbn. lia.
  - rewrite lookup_insert_ne by done. rewrite bool_decide_eq_false_2 in Hk by congruence. done.
Qed.
Lemma count_of_omap f h ts : count_of f h ts = length (List.filter (λ x, bool_decide (x = h)) (omap f ts : list string)).
Proof.
  unfold count_of. induction ts as [|t ts IH]; [done|]. cbn. destruct (f t) as [x|]; cbn.
  - destruct (decide (x = h)) as [->|Hne].
    + rewrite !bool_decide_eq_true_2 by done. cbn. by rewrite IH.
    + rewrite !bool_decide_eq_false_2 by congruence. done.
  - rewrite bool_decide_eq_false_2 by done. done.
Qed.

Lemma counts_omap f ts ts' m :  (omap f ts' : list string) = omap f ts → counts f ts m → counts f ts' m.
Proof. intros E Hc h. by rewrite count_of_omap, E, <- count_of_omap. Qed.
End counting.
