(* ===== verification/TorrentJobs.v ===== *)
(** The caching jobs of the torrent provider ([torrent/downloads.go], and
    [retain], [release], [Evict], [RemoveSource] and [open] of
    [torrent/provider.go]).

    The state of the provider is split the way its mutexes split it, and its
    goroutines are part of it: [go] starts one, and [TorrentSwarm] says what
    each may do next.  The torrent client belongs to another project: what it
    answers ([BytesCompleted], the files of a torrent, whether it can be
    started) is an argument of the operations.  The counts of [active] and
    [streams] count goroutines and open readers and are taken as unbounded. *)
From stdpp Require Import base gmap strings list.
From Stdlib Require Import ZArith Lia Ascii.
From S2P Require Import Prelude GoStrings Sql Paths Music Services AudioFormats Counting TorrentNames TorrentFiles.

Open Scope Z_scope.
Open Scope go_scope.

(** * The state *)

(** [*torrentclient.File]: which file it points to, and its length. *)
Record tfile := mkTFile {
  tf_id : N;
  tf_Length : Z;
}.

#[export] Instance tfile_eq_dec : EqDecision tfile.
Proof. solve_decision. Defined.

Record downloadRecord := mkRecord {
  Download : TrackDownload;
  dr_Source : SourceRef;
  dr_LogicalPath : string;
}.

Definition record_id (r : downloadRecord) : string := dl_ID (Download r).
Definition record_source (r : downloadRecord) : string := dl_SourceID (Download r).

(** Under [cacheMu]; [onCacheChanged] says whether the handler is set. *)
Record cacheState := mkCache {
  c_files : gmap string (string * string);
  active : gmap string Z;
  streams : gmap string Z;
  lastAccessed : gmap string time;
  onCacheChanged : bool;
}.

(** Under [completionMu]. *)
Record completionState := mkCompletion {
  c_trackIDs : gmap string string;
  completed : gmap string bool;
  onCompleted : bool;
  closing : bool;
}.

(** Under [downloadMu], and the tokens in [downloadSlots]; [cancelled] says
    whether [downloadCtx] is done. *)
Record downloadState := mkDownloads {
  downloads : gmap string downloadRecord;
  activeDownloads : gmap string tfile;
  pendingDownloads : gmap string tfile;
  downloadSlots : nat;
  cancelled : bool;
}.

(** The locks a goroutine holds while it calls [release]: [operation] for
    reading, [downloadMu]. *)
Record locks := mkLocks {
  l_operation : bool;
  l_downloadMu : bool;
}.

Record evictionCandidate := mkCandidate {
  ec_key : string;
  ec_infoHash : string;
  ec_path : string;
  ec_lastAccessed : time;
  ec_size : Z;
}.

(** A goroutine and the point it is at.  A monitor knows only the identifier of
    its download; the torrent it works for is written beside it. *)
Inductive task :=
  | Waiting (record : downloadRecord) (file : tfile)
  | Slotted (record : downloadRecord) (file : tfile)
  | Monitoring (h id : string) (file : tfile)
  | Notifying (h id : string) (record : downloadRecord)
  | Monitored (h id : string)
  | Ending (h : string)
  | Draining
  | Opening (h key : string)
  | Resuming (entries : list string)
  | Streaming (h key : string)
  | Handling (h : string)
  | Releasing (held : locks) (next : option task)
  | Pruning (held : locks) (next : option task) (bytes : Z)
  | Evicting (held : locks) (next : option task) (bytes freed : Z) (dropped : gset string)
      (candidates : list evictionCandidate).

(** What reading and decoding a file of the job directory gives. *)
Notation job_files := (database (gmap string (res downloadRecord))).

Record provider := mkProvider {
  cache : cacheState;
  completion : completionState;
  download : downloadState;
  jobs : job_files;
  files : database (gmap string (list Z));
  attached : gset string;
  tasks : list task;
}.

Definition set_cache (f : cacheState → cacheState) (p : provider) : provider :=
  mkProvider (f (cache p)) (completion p) (download p) (jobs p) (files p) (attached p) (tasks p).
Definition set_completion (f : completionState → completionState) (p : provider) : provider :=
  mkProvider (cache p) (f (completion p)) (download p) (jobs p) (files p) (attached p) (tasks p).
Definition set_download (f : downloadState → downloadState) (p : provider) : provider :=
  mkProvider (cache p) (completion p) (f (download p)) (jobs p) (files p) (attached p) (tasks p).
Definition set_jobs (d : job_files) (p : provider) : provider :=
  mkProvider (cache p) (completion p) (download p) d (files p) (attached p) (tasks p).
Definition set_files (d : database (gmap string (list Z))) (p : provider) : provider :=
  mkProvider (cache p) (completion p) (download p) (jobs p) d (attached p) (tasks p).
Definition set_attached (f : gset string → gset string) (p : provider) : provider :=
  mkProvider (cache p) (completion p) (download p) (jobs p) (files p) (f (attached p)) (tasks p).
Definition set_tasks (l : list task) (p : provider) : provider :=
  mkProvider (cache p) (completion p) (download p) (jobs p) (files p) (attached p) l.

Definition go (t : task) (p : provider) : provider := set_tasks (t :: tasks p) p.

Definition on_jobs {A} (m : M job_files A) : M provider A := zoom jobs set_jobs m.
Definition on_files {A} (m : M (database (gmap string (list Z))) A) : M provider A := zoom files set_files m.

(** [New] and [NewStreaming]: nothing is known, and [MaxActiveDownloads] is
    three unless it is set to a positive number. *)
Definition defaultMaxActiveDownloads : Z := 3.

Definition max_downloads (configured : Z) : nat :=
  Z.to_nat (if configured <=? 0 then defaultMaxActiveDownloads else configured).

Definition New (d : job_files) (f : database (gmap string (list Z))) : provider :=
  mkProvider (mkCache ∅ ∅ ∅ ∅ false) (mkCompletion ∅ ∅ false false) (mkDownloads ∅ ∅ ∅ 0 false) d f ∅ [].

(** * Counting what is in use *)

Definition decrementCount (key : string) (counts : gmap string Z) : gmap string Z :=
  if default 0 (counts !! key) <=? 1 then delete key counts
  else <[key := default 0 (counts !! key) - 1]> counts.

Definition retain (infoHash key : string) (now : time) : provider → provider :=
  set_cache (λ c, mkCache (c_files c) (count_up infoHash (active c)) (streams c)
    (<[key := now]> (lastAccessed c)) (onCacheChanged c)).

Definition retainStream (infoHash key : string) (now : time) : provider → provider :=
  set_cache (λ c, mkCache (c_files c) (count_up infoHash (active c)) (count_up infoHash (streams c))
    (<[key := now]> (lastAccessed c)) (onCacheChanged c)).

(** [release] and [releaseStream] up to the call of the handler, which is the
    task [Releasing]. *)
Definition release_count (infoHash : string) : provider → provider :=
  set_cache (λ c, mkCache (c_files c) (decrementCount infoHash (active c)) (streams c)
    (lastAccessed c) (onCacheChanged c)).

Definition release (infoHash : string) (held : locks) (next : option task) (p : provider) : provider :=
  go (Releasing held next) (release_count infoHash p).

Definition releaseStream (infoHash : string) (p : provider) : provider :=
  go (Releasing (mkLocks false false) None)
    (set_cache (λ c, mkCache (c_files c) (decrementCount infoHash (active c))
       (decrementCount infoHash (streams c)) (lastAccessed c) (onCacheChanged c)) p).

Definition registerTrack (sourceKey trackID : string) : provider → provider :=
  set_completion (λ c, mkCompletion (<[sourceKey := trackID]> (c_trackIDs c)) (completed c) (onCompleted c) (closing c)).

Definition forget_completed (sourceKey : string) : provider → provider :=
  set_completion (λ c, mkCompletion (c_trackIDs c) (delete sourceKey (completed c)) (onCompleted c) (closing c)).

(** [notifyCompleted]; its caller holds the torrent, so its two critical
    sections are one step. *)
Definition notifyCompleted (ref : SourceRef) (now : time) (p : provider) : provider :=
  match parseSourceKey (SourceKey ref) with
  | Err _ => p
  | Ok (infoHash, _) =>
      let c := completion p in
      if bool_decide (default "" (c_trackIDs c !! SourceKey ref) = "") || negb (onCompleted c) || closing c
         || default false (completed c !! SourceKey ref)
      then p
      else
        go (Handling infoHash)
          (retain infoHash (SourceKey ref) now
             (set_completion (λ c, mkCompletion (c_trackIDs c) (<[SourceKey ref := true]> (completed c))
                (onCompleted c) (closing c)) p))
  end.

(** * Jobs on disk *)

Definition map_download (f : TrackDownload → TrackDownload) (r : downloadRecord) : downloadRecord :=
  mkRecord (f (Download r)) (dr_Source r) (dr_LogicalPath r).

Section provider.
Context `{Runtime} `{Unicode} `{TextNorm} (metadataRoot dataRoot : string).

Definition downloadDirectory : string := JoinPath [metadataRoot; "downloads"].

Definition downloadRecordPath (id : string) : string := JoinPath [downloadDirectory; TrimSpace id +:+ ".json"].

Definition persistDownloadLocked (record : downloadRecord) : M job_files unit :=
  if bool_decide (metadataRoot = "") then mret tt
  else
    _ ← wrap_err (λ e, Errorf "create torrent download directory: " e "") os_MkdirAll;
    let recordPath := downloadRecordPath (record_id record) in
    let temporaryPath := recordPath +:+ ".tmp" in
    _ ← wrap_err (λ e, Errorf "write torrent download job: " e "") (os_WriteFile temporaryPath (Ok record));
    wrap_err (λ e, Errorf "commit torrent download job: " e "") (os_Rename temporaryPath recordPath).

(** [_ = p.persistDownloadLocked(record)]. *)
Definition persist_quietly (record : downloadRecord) (p : provider) : provider :=
  set_jobs (persistDownloadLocked record (jobs p)).2 p.

Definition readDownloadRecord (recordPath : string) : M job_files downloadRecord :=
  contents ← wrap_err (λ e, Errorf ("read torrent download job " +:+ Base recordPath +:+ ": ") e "")
    (os_ReadFile recordPath);
  record ← wrap_err (λ e, Errorf ("decode torrent download job " +:+ Base recordPath +:+ ": ") e "")
    (lift contents);
  let invalid := throw (Plain ("invalid torrent download job " +:+ Base recordPath)) in
  match parseSourceKey (SourceKey (dr_Source record)) with
  | Err _ => invalid
  | Ok (infoHash, logicalPath) =>
      let expectedID := StableID "download" [Provider (dr_Source record); SourceKey (dr_Source record)] in
      if negb (bool_decide (infoHash = record_source record))
         || negb (bool_decide (logicalPath = dr_LogicalPath record))
         || negb (bool_decide (Provider (dr_Source record) = torrent_Name))
         || negb (bool_decide (record_id record = expectedID))
         || negb (bool_decide (dl_Provider (Download record) = torrent_Name))
      then invalid
      else if bool_decide (dl_TrackID (Download record) = "")
      then mret (map_download
             (with_track_id (logicalTrackID infoHash logicalPath (TotalBytes (Download record)))) record)
      else mret record
  end.

(** * The life of a job *)

(** [p.downloads[id] = record]. *)
Definition put_record_at (id : string) (r : downloadRecord) : provider → provider :=
  set_download (λ d, mkDownloads (<[id := r]> (downloads d)) (activeDownloads d)
    (pendingDownloads d) (downloadSlots d) (cancelled d)).

Definition put_record (r : downloadRecord) : provider → provider := put_record_at (record_id r) r.

Definition put_active (id : string) (file : tfile) : provider → provider :=
  set_download (λ d, mkDownloads (downloads d) (<[id := file]> (activeDownloads d))
    (pendingDownloads d) (downloadSlots d) (cancelled d)).

Definition drop_active (id : string) : provider → provider :=
  set_download (λ d, mkDownloads (downloads d) (delete id (activeDownloads d))
    (pendingDownloads d) (downloadSlots d) (cancelled d)).

Definition put_pending (id : string) (file : tfile) : provider → provider :=
  set_download (λ d, mkDownloads (downloads d) (activeDownloads d)
    (<[id := file]> (pendingDownloads d)) (downloadSlots d) (cancelled d)).

Definition drop_pending (id : string) : provider → provider :=
  set_download (λ d, mkDownloads (downloads d) (activeDownloads d)
    (delete id (pendingDownloads d)) (downloadSlots d) (cancelled d)).

Definition take_slot : provider → provider :=
  set_download (λ d, mkDownloads (downloads d) (activeDownloads d) (pendingDownloads d)
    (S (downloadSlots d)) (cancelled d)).

Definition free_slot : provider → provider :=
  set_download (λ d, mkDownloads (downloads d) (activeDownloads d) (pendingDownloads d)
    (pred (downloadSlots d)) (cancelled d)).

(** [beginTrackDownloadLocked]; [bytes] is what [BytesCompleted] answers. *)
Definition beginTrackDownloadLocked (now : time) (bytes : Z) (record : downloadRecord) (file : tfile)
    (p : provider) : bool * provider :=
  let completed := Z.min bytes (tf_Length file) in
  let record := map_download (with_progress completed (tf_Length file) now) record in
  if tf_Length file <=? completed then
    let record := map_download (with_state StateCached "") record in
    (false, persist_quietly record (put_record record p))
  else
    let record := map_download (with_state StateDownloading "") record in
    (true,
     go (Monitoring (record_source record) (record_id record) file)
       (persist_quietly record
          (put_active (record_id record) file
             (put_record record (forget_completed (SourceKey (dr_Source record)) p))))).

(** [scheduleTrackDownloadLocked]; [max] is the capacity of [downloadSlots] and
    [next] what the goroutine goes on with, [operation] still read-locked. *)
Definition scheduleTrackDownloadLocked (max : nat) (now : time) (bytes : Z) (record : downloadRecord)
    (file : tfile) (next : option task) (p : provider) : provider :=
  let go_on p := match next with Some t => go t p | None => p end in
  let p := retain (record_source record) (SourceKey (dr_Source record)) now p in
  if (downloadSlots (download p) <? max)%nat then
    let '(begun, p) := beginTrackDownloadLocked now bytes record file (take_slot p) in
    if begun then go_on p
    else release (record_source record) (mkLocks true true) next (free_slot p)
  else
    let record := map_download (touched now) (map_download (with_state StateWaiting "") record) in
    go_on (go (Waiting record file)
      (persist_quietly record (put_pending (record_id record) file (put_record record p)))).

(** [queueTrackDownload]. *)
Definition queueTrackDownload (max : nat) (now : time) (bytes : Z) (ref : SourceRef)
    (infoHash logicalPath : string) (file : tfile) (next : option task) (p : provider) : provider :=
  let known := default "" (c_trackIDs (completion p) !! SourceKey ref) in
  let '(trackID, p) :=
    if bool_decide (known = "")
    then let trackID := logicalTrackID infoHash logicalPath (tf_Length file) in
         (trackID, registerTrack (SourceKey ref) trackID p)
    else (known, p) in
  let id := StableID "download" [Provider ref; SourceKey ref] in
  let record := mkRecord
    (mkDownload id torrent_Name infoHash trackID (Base logicalPath) StateDownloading
       (Z.min bytes (tf_Length file)) (tf_Length file) "" now now) ref logicalPath in
  let record :=
    match downloads (download p) !! id with
    | None => record
    | Some existing =>
        let record := map_download (with_started (StartedAt (Download existing))) record in
        if bool_decide (dl_TrackID (Download record) = "")
        then map_download (with_track_id (dl_TrackID (Download existing))) record else record
    end in
  if bool_decide (is_Some (activeDownloads (download p) !! id))
     || bool_decide (is_Some (pendingDownloads (download p) !! id))
  then match next with Some t => go t p | None => p end
  else scheduleTrackDownloadLocked max now bytes record file next p.

(** [waitForDownloadSlot] once it has a slot. *)
Definition slotted (now : time) (bytes : Z) (record : downloadRecord) (file : tfile) (p : provider) : provider :=
  let id := record_id record in
  let pending := pendingDownloads (download p) !! id in
  let exists_ := bool_decide (is_Some (downloads (download p) !! id)) in
  let p := drop_pending id p in
  let leave p := release (record_source record) (mkLocks false true) None (free_slot p) in
  if negb exists_ || negb (bool_decide (pending = Some file)) then leave p
  else
    let '(begun, p) := beginTrackDownloadLocked now bytes record file p in
    if begun then p else leave p.

(** [waitForDownloadSlot] when [downloadCtx] is done first. *)
Definition waiting_cancelled (record : downloadRecord) (p : provider) : provider :=
  release (record_source record) (mkLocks false false) None (drop_pending (record_id record) p).

(** One turn of the loop of [monitorTrackDownload] up to its [select]: what the
    goroutine does next, [None] when it waits for the next tick. *)
Definition monitor_turn (now : time) (bytes : Z) (h id : string) (file : tfile) (p : provider)
    : option task * provider :=
  let completed := Z.min bytes (tf_Length file) in
  match downloads (download p) !! id with
  | None => (Some (Monitored h id), p)
  | Some record =>
      let record := map_download (with_progress completed (TotalBytes (Download record)) now) record in
      if tf_Length file <=? completed then
        let record := map_download (with_state StateCached "") record in
        (Some (Notifying h id record), persist_quietly record (put_record_at id record p))
      else (None, put_record_at id record p)
  end.

(** The zero record, which a missing identifier reads as. *)
Definition record_zero : downloadRecord :=
  mkRecord (mkDownload "" "" "" "" "" "" 0 0 "" time_zero time_zero) (mkRef "" "") "".

(** The deferred function of [monitorTrackDownload] under [downloadMu]. *)
Definition monitor_ends (id : string) (p : provider) : provider :=
  go (Ending (record_source (default record_zero (downloads (download p) !! id)))) (drop_active id p).

(** * Failed, evicted and removed jobs *)

Definition markDownloadFailed (now : time) (id : string) (failure : error) (p : provider) : provider :=
  match downloads (download p) !! id with
  | None => p
  | Some record =>
      let record := map_download (touched now) (map_download (with_state StateFailed (Error failure)) record) in
      persist_quietly record (put_record_at id record p)
  end.

Definition markDownloadEvicted (now : time) (sourceKey : string) (p : provider) : provider :=
  let id := StableID "download" [torrent_Name; sourceKey] in
  match downloads (download p) !! id with
  | None => p
  | Some record =>
      if bool_decide (is_Some (activeDownloads (download p) !! id)) then p
      else
        let record := map_download (with_state StateEvicted (dl_Error (Download record))) record in
        let record := map_download (with_progress 0 (TotalBytes (Download record)) now) record in
        persist_quietly record (forget_completed (SourceKey (dr_Source record)) (put_record_at id record p))
  end.

Definition drop_record (id : string) : provider → provider :=
  set_download (λ d, mkDownloads (delete id (downloads d)) (delete id (activeDownloads d))
    (pendingDownloads d) (downloadSlots d) (cancelled d)).

(** [removeDownloadsForSource]. *)
Definition removeDownloadsForSource (infoHash : string) : M provider unit := λ p,
  miter (λ x : string * downloadRecord,
    if negb (bool_decide (record_source x.2 = infoHash)) then mret tt
    else
      _ ← modify (drop_record x.1);
      on_jobs (remove_if_there (λ e, Errorf "remove torrent download job: " e "") (downloadRecordPath x.1)))
    (map_range (downloads (download p))) p.

(** [TrackDownloads]: [bytes] is what [BytesCompleted] answers for a file;
    [ctx_Err] may report a cancellation before each job. *)
Definition ctx_Err {T} : M (database T) unit := λ d,
  match faults d with
  | Some Cancelled :: fs => (Err (fault_error Cancelled), mkDatabase (tables d) fs)
  | _ => (Ok tt, d)
  end.

Definition list_download (now : time) (bytes : tfile → Z) (x : string * downloadRecord)
    : M provider TrackDownload :=
  let '(id, record) := x in
  _ ← on_jobs ctx_Err;
  activeFile ← gets (λ p, activeDownloads (download p) !! id);
  match activeFile with
  | Some file =>
      let total := TotalBytes (Download record) in
      let record := map_download (with_progress (Z.min (bytes file) total) total now) record in
      record ← (if total <=? CompletedBytes (Download record) then
                  let record := map_download (with_state StateCached "") record in
                  _ ← on_jobs (persistDownloadLocked record);
                  mret record
                else mret record);
      _ ← modify (put_record_at id record);
      mret (Download record)
  | None =>
      there ← gets (λ p, fileExists (cachePath dataRoot (record_source record) (dr_LogicalPath record)) (tables (files p)));
      if bool_decide (dl_State (Download record) = StateCached) && negb there then
        let record := map_download (with_state StateEvicted (dl_Error (Download record))) record in
        let record := map_download (with_progress 0 (TotalBytes (Download record)) now) record in
        _ ← modify (put_record_at id record);
        _ ← on_jobs (persistDownloadLocked record);
        mret (Download record)
      else mret (Download record)
  end.

Definition TorrentTrackDownloads (now : time) (bytes : tfile → Z) : M provider (list TrackDownload) :=
  records ← gets (λ p, map_range (downloads (download p)));
  result ← mmap (list_download now bytes) records;
  mret (sort_slice download_less result).

(** * Using a torrent *)

(** What the torrent client answers when a torrent is opened: whether it runs,
    the metadata file (its hash and its decoded info), whether the torrent can
    be described and added, whether its info came before the context was done,
    its files by path, and whether the pieces of a partial file could be
    verified. *)
Record swarm := mkSwarm {
  sw_client : option error;
  sw_metadata : res (string * res torrent_info);
  sw_spec : option error;
  sw_add : option error;
  sw_info : option error;
  sw_files : list (string * tfile);
  sw_verify : option error;
}.

Definition fails_with {S} (wrap : error → error) (e : option error) : M S unit :=
  match e with Some e => throw (wrap e) | None => mret tt end.

Definition unavailable (post : string) : error := Errorf "" (Sentinel ErrSourceUnavailable) post.

Definition find_file (sw : swarm) (logicalPath : string) : option tfile :=
  snd <$> List.find (λ x, bool_decide (x.1 = logicalPath)) (sw_files sw).

(** [ensureClient] as far as its answers go: the client is started by the first
    call, its configuration is the torrent library's. *)
Definition ensureClient (sw : swarm) : M provider unit :=
  if bool_decide (metadataRoot = "") || bool_decide (dataRoot = "")
  then throw (unavailable ": torrent streaming is not configured")
  else fails_with id (sw_client sw).

(** [open] up to its call of [queueTrackDownload]: the torrent, the path inside
    it and the file. *)
Definition open_torrent (sw : swarm) (ref : SourceRef) : M provider (string * string * tfile) :=
  '(infoHash, logicalPath) ← lift (parseSourceKey (SourceKey ref));
  paused ← gets (λ p, sourceMarkerExists metadataRoot infoHash "paused" (tables (files p)));
  if paused : bool then throw (unavailable ": torrent source is paused")
  else
    _ ← ensureClient sw;
    '(hash, info) ← (match sw_metadata sw with
      | Ok x => mret x
      | Err e => if errors_Is ErrOsNotExist e then throw (unavailable ": torrent metadata is missing")
                 else throw (Errorf ("load torrent " +:+ infoHash +:+ ": ") e "")
      end);
    if negb (bool_decide (hash = infoHash))
    then throw (unavailable ": torrent metadata hash does not match source")
    else
      info ← wrap_err (λ e, Errorf ("decode torrent " +:+ infoHash +:+ ": ") e "") (lift info);
      _ ← wrap_err (λ e, Errorf ("migrate torrent " +:+ infoHash +:+ " cache: ") e "")
            (on_files (migrateLegacyData dataRoot infoHash info));
      _ ← wrap_err (λ e, Errorf ("prepare torrent " +:+ infoHash +:+ " cache verification: ") e "")
            (on_files (prepareLegacyData dataRoot infoHash info));
      _ ← wrap_err (λ e, Errorf ("reconcile torrent " +:+ infoHash +:+ " cache: ") e "")
            (on_files (reconcileCacheData dataRoot infoHash info));
      _ ← fails_with (λ e, Errorf ("create torrent " +:+ infoHash +:+ " spec: ") e "") (sw_spec sw);
      _ ← fails_with (λ e, Errorf ("add torrent " +:+ infoHash +:+ ": ") e "") (sw_add sw);
      _ ← modify (set_attached (λ a, {[infoHash]} ∪ a));
      _ ← fails_with id (sw_info sw);
      match find_file sw logicalPath with
      | None => throw (unavailable (": torrent file " +:+ logicalPath +:+ " is missing"))
      | Some file =>
          partial ← gets (λ p, fileExists (cachePath dataRoot infoHash logicalPath +:+ ".part") (tables (files p)));
          _ ← (if partial : bool
               then fails_with (λ e, Errorf ("verify cached torrent file " +:+ logicalPath +:+ ": ") e "") (sw_verify sw)
               else mret tt);
          mret (infoHash, logicalPath, file)
      end.

(** [resumeTrackDownload] up to its critical section. *)
Definition resume_torrent (sw : swarm) (record : downloadRecord) : M provider tfile :=
  '(hash, info) ← wrap_err (λ e, Errorf "load torrent metadata: " e "") (lift (sw_metadata sw));
  if negb (bool_decide (hash = record_source record))
  then throw (Plain "torrent metadata hash does not match download source")
  else
    _ ← ensureClient sw;
    _ ← fails_with (λ e, Errorf "create torrent spec: " e "") (sw_spec sw);
    _ ← fails_with (λ e, Errorf "attach torrent: " e "") (sw_add sw);
    _ ← modify (set_attached (λ a, {[record_source record]} ∪ a));
    _ ← fails_with id (sw_info sw);
    match find_file sw (dr_LogicalPath record) with
    | None => throw (Plain ("torrent track " +:+ dr_LogicalPath record +:+ " is missing"))
    | Some file => mret file
    end.

(** Its critical section. *)
Definition resume_schedule (max : nat) (now : time) (bytes : Z) (record : downloadRecord) (file : tfile)
    (next : option task) (p : provider) : provider :=
  let id := record_id record in
  if bool_decide (activeDownloads (download p) !! id = None)
     && bool_decide (pendingDownloads (download p) !! id = None)
  then scheduleTrackDownloadLocked max now bytes record file next p
  else match next with Some t => go t p | None => p end.

(** The body of the loop of [ResumeTrackDownloads] for one job file that was
    read: it is remembered unless it is known, and the record returned is
    scheduled again when its work is unfinished and its source not paused. *)
Definition remember_job (record : downloadRecord) (p : provider) : provider :=
  let p :=
    match downloads (download p) !! record_id record with
    | Some _ => p
    | None => persist_quietly record (put_record record p)
    end in
  if bool_decide (dl_TrackID (Download record) = "") then p
  else registerTrack (SourceKey (dr_Source record)) (dl_TrackID (Download record)) p.

Definition to_resume (record : downloadRecord) (p : provider) : bool :=
  (bool_decide (dl_State (Download record) = StateWaiting)
   || bool_decide (dl_State (Download record) = StateDownloading))
  && negb (sourceMarkerExists metadataRoot (record_source record) "paused" (tables (files p))).

(** One job file of [ResumeTrackDownloads]; [next] is the rest of the loop. *)
Definition resume_entry (max : nat) (now : time) (bytes : tfile → Z) (world : downloadRecord → swarm)
    (recordPath : string)
    (next : option task) (p : provider) : option error * provider :=
  let go_on p := match next with Some t => go t p | None => p end in
  match on_jobs (readDownloadRecord recordPath) p with
  | (Err e, p) => (Some e, go_on p)
  | (Ok record, p) =>
      let p := remember_job record p in
      if negb (to_resume record p) then (None, go_on p)
      else
        match resume_torrent (world record) record p with
        | (Ok file, p) => (None, resume_schedule max now (bytes file) record file next p)
        | (Err e, p) =>
            (Some (Errorf ("resume " +:+ dl_Name (Download record) +:+ ": ") e ""),
             go_on (markDownloadFailed now (record_id record) e p))
        end
  end.

(** * Removing and evicting *)

(** [dropTorrent]. *)
Definition dropTorrent (infoHash : string) : provider → provider :=
  set_attached (λ a, a ∖ {[infoHash]}).

(** [RemoveSource] once the torrent is dropped: its metadata, markers, jobs and
    data go. *)
Definition remove_files (id : string) (deleteData : bool) : M provider unit :=
  r ← try (on_files (os_Remove (JoinPath [metadataRoot; id +:+ ".torrent"])));
  _ ← (match r with
       | Ok _ => mret tt
       | Err e => if errors_Is ErrOsNotExist e then throw (Sentinel ErrNotFound)
                  else throw (Errorf "remove torrent metadata: " e "")
       end);
  _ ← on_files (miter (λ state, remove_if_there (λ e, Errorf ("remove torrent " +:+ state +:+ " marker: ") e "")
                                  (sourceMarkerPath metadataRoot id state)) ["paused"; "pinned"]);
  _ ← removeDownloadsForSource id;
  if deleteData
  then wrap_err (λ e, Errorf "remove torrent cache data: " e "")
         (on_files (ExecContext (filter (λ x, HasPrefix x.1 (JoinPath [dataRoot; id] +:+ "/") = false))))
  else mret tt.

Definition RemoveSource (id : string) (deleteData : bool) : M provider unit :=
  _ ← on_files (validateSourceID metadataRoot id);
  _ ← on_files ctx_Err;
  busy ← gets (λ p, 0 <? default 0 (active (cache p) !! id));
  if busy : bool then throw (Sentinel ErrSourceBusy)
  else
    _ ← modify (dropTorrent id);
    remove_files id deleteData.

(** [evictionCandidates]; [ModTime] and [allocated] are what the file system
    reports of a file. *)
Definition candidate_of (ModTime allocated : string → Z) (accessed : gmap string time)
    (x : string * (string * string)) : M (database (gmap string (list Z))) (option evictionCandidate) :=
  let '(key, (infoHash, logicalPath)) := x in
  let found filePath :=
    let last := default time_zero (accessed !! key) in
    Some (mkCandidate key infoHash filePath (if IsZero last then ModTime filePath else last) (allocated filePath)) in
  let filePath := cachePath dataRoot infoHash logicalPath in
  let inspect e filePath := Errorf ("inspect cached torrent file " +:+ filePath +:+ ": ") e "" in
  _ ← ctx_Err;
  r ← try (os_ReadFile filePath);
  match r with
  | Ok _ => mret (found filePath)
  | Err e =>
      if negb (errors_Is ErrOsNotExist e) then throw (inspect e filePath)
      else
        let filePath := filePath +:+ ".part" in
        r ← try (os_ReadFile filePath);
        match r with
        | Ok _ => mret (found filePath)
        | Err e => if errors_Is ErrOsNotExist e then mret None else throw (inspect e filePath)
        end
  end.

Definition evictionCandidates (ModTime allocated : string → Z) : M provider (list evictionCandidate) :=
  c ← gets cache;
  found ← on_files (mmap (candidate_of ModTime allocated (lastAccessed c)) (map_range (c_files c)));
  mret (omap id found).

Definition before (x y : evictionCandidate) : bool := ec_lastAccessed x <? ec_lastAccessed y.

Definition forget_access (key : string) : provider → provider :=
  set_cache (λ c, mkCache (c_files c) (active c) (streams c) (delete key (lastAccessed c)) (onCacheChanged c)).

Definition may_evict (candidate : evictionCandidate) (p : provider) : bool :=
  negb (0 <? default 0 (active (cache p) !! ec_infoHash candidate))
  && negb (sourceMarkerExists metadataRoot (ec_infoHash candidate) "pinned" (tables (files p))).

(** The body of the loop of [Evict] for one candidate: the bytes freed and the
    torrents dropped after it. *)
Definition evict_one (now : time) (candidate : evictionCandidate) (freed : Z) (dropped : gset string)
    : M provider (Z * gset string) :=
  _ ← on_files ctx_Err;
  may ← gets (may_evict candidate);
  if negb may then mret (freed, dropped)
  else
    _ ← (if bool_decide (ec_infoHash candidate ∈ dropped) then mret tt
         else modify (dropTorrent (ec_infoHash candidate)));
    let dropped := {[ec_infoHash candidate]} ∪ dropped in
    r ← try (on_files (os_Remove (ec_path candidate)));
    match r with
    | Err e =>
        if errors_Is ErrOsNotExist e then mret (freed, dropped)
        else throw (Errorf ("remove cached torrent file " +:+ ec_path candidate +:+ ": ") e "")
    | Ok _ =>
        _ ← modify (λ p, forget_access (ec_key candidate) (markDownloadEvicted now (ec_key candidate) p));
        mret (freed +% ec_size candidate, dropped)
    end.

(** The loop ends once enough is freed, which it never is before a removal. *)
Fixpoint evict_loop (now : time) (bytes freed : Z) (dropped : gset string) (candidates : list evictionCandidate)
    : M provider Z :=
  match candidates with
  | [] => mret freed
  | candidate :: rest =>
      '(freed', dropped) ← evict_one now candidate freed dropped;
      if bytes <=? freed' then mret freed'
      else evict_loop now bytes freed' dropped rest
  end.

Definition Evict (ModTime allocated : string → Z) (now : time) (bytes : Z) : M provider Z :=
  if bytes <=? 0 then mret 0
  else
    candidates ← evictionCandidates ModTime allocated;
    evict_loop now bytes 0 ∅ (sort_slice before candidates).

(** * Resuming *)

(** [os.ReadDir] and the filter of the loop: the job files, by name. *)
Definition job_entries (t : gmap string (res downloadRecord)) : list string :=
  List.filter (λ path, bool_decide (Ext path = ".json")) (sort_stable str_ltb (map fst (map_to_list t))).

Fixpoint resume_loop (max : nat) (now : time) (bytes : tfile → Z) (world : downloadRecord → swarm)
    (entries : list string) (resumeErrors : list error) (p : provider) : res unit * provider :=
  match entries with
  | [] => (if bool_decide (length resumeErrors = 0%nat) then Ok tt else Err (Joined resumeErrors), p)
  | path :: rest =>
      match on_jobs ctx_Err p with
      | (Err e, p) => (Err (Joined (resumeErrors ++ [e])), p)
      | (Ok _, p) =>
          let '(failure, p) := resume_entry max now bytes world path None p in
          resume_loop max now bytes world rest
            (resumeErrors ++ match failure with Some e => [e] | None => [] end) p
      end
  end.

Definition ResumeTrackDownloads (max : nat) (now : time) (bytes : tfile → Z) (world : downloadRecord → swarm)
    (p : provider) : res unit * provider :=
  match on_jobs (QueryContext job_entries) p with
  | (Err e, p) => if errors_Is ErrOsNotExist e then (Ok tt, p)
                  else (Err (Errorf "read torrent download jobs: " e ""), p)
  | (Ok entries, p) => resume_loop max now bytes world entries [] p
  end.
End provider.
