(* ===== verification/TorrentSwarm.v ===== *)
(** The goroutines of the torrent provider: what each may do next, that
    everything in use is counted, that nothing in use is evicted or removed,
    and that no job keeps a slot for ever. *)
From stdpp Require Import base gmap strings list relations.
From Stdlib Require Import ZArith Lia Ascii.
From S2P Require Import Prelude GoStrings Sql Paths Music Services TorrentNames TorrentFiles Counting TorrentJobs.

Open Scope Z_scope.

(** * What a goroutine holds *)

(** The torrent it has retained. *)
Fixpoint holds (t : task) : option string :=
  match t with
  | Waiting r _ | Slotted r _ => Some (record_source r)
  | Monitoring h _ _ | Notifying h _ _ | Monitored h _ | Ending h | Streaming h _ | Handling h => Some h
  | Draining | Opening _ _ | Resuming _ => None
  | Releasing _ next | Pruning _ next _ | Evicting _ next _ _ _ _ =>
      match next with Some t => holds t | None => None end
  end.

Definition streams_of (t : task) : option string :=
  match t with Streaming h _ => Some h | _ => None end.

(** Whether it has taken one of the download slots. *)
Fixpoint uses_slot (t : task) : bool :=
  match t with
  | Slotted _ _ | Monitoring _ _ _ | Notifying _ _ _ | Monitored _ _ | Ending _ | Draining => true
  | Waiting _ _ | Opening _ _ | Resuming _ | Streaming _ _ | Handling _ => false
  | Releasing _ next | Pruning _ next _ | Evicting _ next _ _ _ _ =>
      match next with Some t => uses_slot t | None => false end
  end.

(** The download whose job it is. *)
Definition job_id (t : task) : option string :=
  match t with
  | Waiting r _ | Slotted r _ => Some (record_id r)
  | Monitoring _ id _ | Notifying _ id _ | Monitored _ id => Some id
  | _ => None
  end.

(** The locks it holds: [operation] for reading and for writing, [downloadMu]. *)
Definition reads_operation (t : task) : bool :=
  match t with
  | Opening _ _ | Resuming _ => true
  | Releasing held _ | Pruning held _ _ | Evicting held _ _ _ _ _ => l_operation held
  | _ => false
  end.

Definition writes_operation (t : task) : bool :=
  match t with Evicting _ _ _ _ _ _ => true | _ => false end.

Definition locks_downloads (t : task) : bool :=
  match t with
  | Releasing held _ | Pruning held _ _ | Evicting held _ _ _ _ _ => l_downloadMu held
  | _ => false
  end.

Definition may_read (p : provider) : Prop := Forall (λ t, writes_operation t = false) (tasks p).
Definition may_write (p : provider) : Prop :=
  Forall (λ t, writes_operation t = false ∧ reads_operation t = false) (tasks p).
Definition may_lock (p : provider) : Prop := Forall (λ t, locks_downloads t = false) (tasks p).

Definition go_on (next : option task) (p : provider) : provider :=
  match next with Some t => go t p | None => p end.

Definition no_locks : locks := mkLocks false false.

(** What a step shows to the outside. *)
Inductive event :=
  | Internal
  | Evicts (candidate : evictionCandidate)
  | Removes (id : string) (r : res unit).

Section swarm.
Context `{Runtime} `{Unicode} `{TextNorm} (metadataRoot dataRoot : string) (max : nat).

(** [p] without the goroutine [t], which is about to take its step. *)
Definition running (p : provider) (t : task) (q : provider) : Prop :=
  ∃ rest, tasks p ≡ₚ t :: rest ∧ q = set_tasks rest p.

(** Calls from outside: [Resolve] and [OpenArtwork], closing a reader, reading a
    file to its end, resuming, pruning, removing, listing, and [Close]; the
    torrent client and the operator change files. *)
Inductive call_step (p : provider) : event → provider → Prop :=
  | step_register key trackID : call_step p Internal (registerTrack key trackID p)
  | step_catalog key h path :
      call_step p Internal (set_cache (λ c, mkCache (<[key := (h, path)]> (c_files c)) (active c) (streams c)
                                    (lastAccessed c) (onCacheChanged c)) p)
  | step_handlers changed done_ :
      call_step p Internal
        (set_cache (λ c, mkCache (c_files c) (active c) (streams c) (lastAccessed c) changed)
           (set_completion (λ c, mkCompletion (c_trackIDs c) (completed c) done_ (closing c)) p))
  | step_open sw now bytes ref h path file p1 :
      may_read p → may_lock p →
      open_torrent metadataRoot dataRoot sw ref p = (Ok (h, path, file), p1) →
      call_step p Internal
        (queueTrackDownload metadataRoot max now bytes ref h path file (Some (Opening h (SourceKey ref))) p1)
  | step_open_fails sw ref e p1 :
      may_read p → open_torrent metadataRoot dataRoot sw ref p = (Err e, p1) → call_step p Internal p1
  | step_opened now h key q :
      running p (Opening h key) q → call_step p Internal (go (Streaming h key) (retainStream h key now q))
  | step_read_all now h ref q :
      running p (Streaming h (SourceKey ref)) q → call_step p Internal (notifyCompleted ref now p)
  | step_close_stream h key q :
      running p (Streaming h key) q → call_step p Internal (releaseStream h q)
  | step_resume entries : may_read p → call_step p Internal (go (Resuming entries) p)
  | step_prune_call bytes : 0 < bytes → call_step p Internal (go (Pruning no_locks None bytes) p)
  | step_remove id deleteData r p' :
      may_write p → may_lock p →
      RemoveSource metadataRoot dataRoot id deleteData p = (r, p') → call_step p (Removes id r) p'
  | step_list now bytes r p' :
      may_lock p → TorrentTrackDownloads metadataRoot dataRoot now bytes p = (r, p') → call_step p Internal p'
  | step_close :
      call_step p Internal
        (set_cache (λ c, mkCache (c_files c) (active c) (streams c) (lastAccessed c) false)
           (set_completion (λ c, mkCompletion (c_trackIDs c) (completed c) (onCompleted c) true)
              (set_download (λ d, mkDownloads (downloads d) (activeDownloads d) (pendingDownloads d)
                 (downloadSlots d) true) p)))
  | step_disk d : call_step p Internal (set_files d p).

(** The goroutines of jobs, of readers and of completion handlers. *)
Inductive job_step (p : provider) : provider → Prop :=
  | step_slot r f q :
      running p (Waiting r f) q → (downloadSlots (download p) < max)%nat →
      job_step p (go (Slotted r f) (take_slot q))
  | step_wait_cancelled r f q :
      running p (Waiting r f) q → cancelled (download p) = true → may_lock p →
      job_step p (waiting_cancelled r q)
  | step_slotted now bytes r f q :
      running p (Slotted r f) q → may_lock p → job_step p (slotted metadataRoot now bytes r f q)
  | step_monitor now bytes h id f q next p1 :
      running p (Monitoring h id f) q → may_lock p →
      monitor_turn metadataRoot now bytes h id f q = (next, p1) →
      job_step p (go (default (Monitoring h id f) next) p1)
  | step_monitor_cancelled h id f q :
      running p (Monitoring h id f) q → cancelled (download p) = true →
      job_step p (go (Monitored h id) q)
  | step_notify now h id record q :
      running p (Notifying h id record) q →
      job_step p (go (Monitored h id) (notifyCompleted (dr_Source record) now q))
  | step_monitored h id q :
      running p (Monitored h id) q → may_lock p → job_step p (monitor_ends id q)
  | step_ending h q :
      running p (Ending h) q → job_step p (release h no_locks (Some Draining) q)
  | step_drain q : running p Draining q → job_step p (free_slot q)
  | step_handled h q : running p (Handling h) q → job_step p (release h no_locks None q).

(** [release] calls the handler, which calls [Evict] when there is too much to
    keep; [ResumeTrackDownloads] goes through its job files. *)
Inductive release_step (p : provider) : event → provider → Prop :=
  | step_released held next q : running p (Releasing held next) q → release_step p Internal (go_on next q)
  | step_prune held next bytes q :
      running p (Releasing held next) q → onCacheChanged (cache p) = true → 0 < bytes →
      release_step p Internal (go (Pruning held next bytes) q)
  | step_evict ModTime allocated held next bytes q candidates p1 :
      running p (Pruning held next bytes) q → may_write p →
      evictionCandidates dataRoot ModTime allocated q = (Ok candidates, p1) →
      release_step p Internal (go (Evicting held next bytes 0 ∅ (sort_slice before candidates)) p1)
  | step_evict_fails ModTime allocated held next bytes q e p1 :
      running p (Pruning held next bytes) q → may_write p →
      evictionCandidates dataRoot ModTime allocated q = (Err e, p1) → release_step p Internal (go_on next p1)
  | step_evict_one now held next bytes freed dropped c rest q freed' dropped' p1 :
      running p (Evicting held next bytes freed dropped (c :: rest)) q →
      may_lock p ∨ may_evict metadataRoot c q = false →
      evict_one metadataRoot now c freed dropped q = (Ok (freed', dropped'), p1) →
      release_step p (Evicts c)
        (if bytes <=? freed' then go_on next p1
         else go (Evicting held next bytes freed' dropped' rest) p1)
  | step_evict_one_fails now held next bytes freed dropped c rest q e p1 :
      running p (Evicting held next bytes freed dropped (c :: rest)) q →
      may_lock p ∨ may_evict metadataRoot c q = false →
      evict_one metadataRoot now c freed dropped q = (Err e, p1) →
      release_step p (Evicts c) (go_on next p1)
  | step_evicted held next bytes freed dropped q :
      running p (Evicting held next bytes freed dropped []) q → release_step p Internal (go_on next q)
  | step_resume_entry now bytes world path rest q e p' :
      running p (Resuming (path :: rest)) q → may_lock p →
      resume_entry metadataRoot dataRoot max now bytes world path (Some (Resuming rest)) q = (e, p') →
      release_step p Internal p'
  | step_resumed entries q : running p (Resuming entries) q → release_step p Internal q.

Inductive pstep (p : provider) : event → provider → Prop :=
  | pstep_call e p' : call_step p e p' → pstep p e p'
  | pstep_job p' : job_step p p' → pstep p Internal p'
  | pstep_release e p' : release_step p e p' → pstep p e p'.

Inductive reachable : provider → Prop :=
  | reach_new d f : reachable (New d f)
  | reach_step p e p' : reachable p → pstep p e p' → reachable p'.

(** * Counting *)

Definition busy_slots (ts : list task) : nat := length (List.filter uses_slot ts).

(** * Jobs *)

(** Which torrent each download belongs to. *)
Definition sources (p : provider) : gmap string string := record_source <$> downloads (download p).

(** What comes after a [release] holds nothing, or only a slot to free. *)
Definition after_ok (t : task) : Prop :=
  match t with
  | Releasing _ next | Pruning _ next _ | Evicting _ next _ _ _ _ =>
      match next with
      | None | Some (Opening _ _) | Some (Resuming _) | Some Draining => True
      | _ => False
      end
  | _ => True
  end.

(** A goroutine that holds nothing may come and go. *)
Definition idle (t : task) : Prop :=
  match t with Opening _ _ | Resuming _ => True | Releasing _ None => True | Pruning _ None _ => True | _ => False end.

Definition job_ok (p : provider) (t : task) : Prop :=
  match t with
  | Waiting r f | Slotted r f =>
      pendingDownloads (download p) !! record_id r = Some f ∧ sources p !! record_id r = Some (record_source r)
  | Monitoring h id _ | Notifying h id _ | Monitored h id =>
      is_Some (activeDownloads (download p) !! id) ∧ sources p !! id = Some h
  | _ => after_ok t
  end.

(** The invariant, with the goroutines that count given apart: a step takes the
    one it runs out of the provider's list. *)
Record consistent (ts : list task) (p : provider) : Prop := {
  cs_active : counts holds ts (active (cache p));
  cs_streams : counts streams_of ts (streams (cache p));
  cs_slots : downloadSlots (download p) = busy_slots ts;
  cs_max : (busy_slots ts ≤ max)%nat;
  cs_unique : NoDup (omap job_id ts);
  cs_jobs : Forall (job_ok p) ts;
}.

Definition core (p : provider) :=
  (active (cache p), streams (cache p), sources p, activeDownloads (download p), pendingDownloads (download p),
   downloadSlots (download p)).

Lemma consistent_core ts p p' : core p' = core p → consistent ts p → consistent ts p'.
Proof.
  unfold core. intros [= E1 E2 E3 E4 E5 E6] [Ha Hs Hsl Hm Hu Hj]. split; rewrite ?E1, ?E2, ?E6; try done.
  eapply Forall_impl; [exact Hj|]. intros t. unfold job_ok. by rewrite E3, E4, E5.
Qed.

Lemma consistent_perm ts ts' p : ts ≡ₚ ts' → consistent ts p → consistent ts' p.
Proof.
  intros Hp [Ha Hs Hsl Hm Hu Hj].
  assert (busy_slots ts' = busy_slots ts) as E by (symmetry; by apply filter_perm_length).
  split; rewrite ?E; try done.
  - by eapply counts_perm.
  - by eapply counts_perm.
  - by rewrite <- Hp.
  - by rewrite <- Hp.
Qed.

Lemma consistent_idle t ts p : idle t → consistent (t :: ts) p ↔ consistent ts p.
Proof.
  intros Ht.
  assert (holds t = None ∧ streams_of t = None ∧ uses_slot t = false ∧ job_id t = None ∧ job_ok p t)
    as (Hh & Hs & Hu & Hj & Hok).
  { destruct t as [| | | | | | | | | | |? []|? [] ?|]; done. }
  split; intros [H1' H2' H3 H4 H5 H6].
  - unfold busy_slots in *. cbn [List.filter] in *. rewrite Hu in *. cbn in H5. rewrite Hj in H5.
    apply Forall_cons in H6 as [_ H6]. split; try done; by eapply counts_none.
  - unfold busy_slots in *. split; try done; [by apply counts_none|by apply counts_none|..];
      unfold busy_slots; cbn; rewrite ?Hu, ?Hj; try done.
    by constructor.
Qed.

(** * Steps in the middle

    [good p t]: the goroutine [t] is not on the list, but counts. *)
Definition Inv (p : provider) : Prop := consistent (tasks p) p.
Definition good (p : provider) (t : task) : Prop := consistent (t :: tasks p) p.

Lemma good_go p t : good p t → Inv (go t p).
Proof. intros Hg. eapply consistent_core; [|exact Hg]. done. Qed.

Lemma running_good p t q : running p t q → Inv p → good q t.
Proof.
  intros (rest & Hp & ->) Hi. unfold good. cbn [tasks set_tasks].
  eapply consistent_core; [|by eapply consistent_perm]. done.
Qed.

Lemma good_idle p t : idle t → good p t ↔ Inv p.
Proof. apply consistent_idle. Qed.

Lemma Inv_go_idle p t : idle t → Inv p → Inv (go t p).
Proof. intros Ht Hi. apply good_go. by apply good_idle. Qed.

(** Changing what counts: the counters, the slots and the jobs. *)
Lemma good_change p p' t t' :
  good p t → tasks p' = tasks p →
  counts holds (t' :: tasks p) (active (cache p')) → counts streams_of (t' :: tasks p) (streams (cache p')) →
  (downloadSlots (download p') + (if uses_slot t then 1 else 0) =
   downloadSlots (download p) + (if uses_slot t' then 1 else 0))%nat →
  (uses_slot t' = true → uses_slot t = true ∨ (downloadSlots (download p) < max)%nat) →
  match job_id t' with Some id => id ∉ omap job_id (tasks p) | None => True end →
  Forall (job_ok p') (t' :: tasks p) → good p' t'.
Proof.
  intros [H1' H2' H3 H4 H5 H6] Ht Hc Hs Hd Hm Hj Hjobs. unfold good. rewrite Ht.
  assert (∀ x, busy_slots (x :: tasks p) = ((if uses_slot x then 1 else 0) + busy_slots (tasks p))%nat) as Hb.
  { intros x. unfold busy_slots. cbn. by destruct (uses_slot x). }
  split; try done.
  - rewrite Hb in *. lia.
  - rewrite Hb in *. destruct (uses_slot t'), (uses_slot t); lia.
  - cbn in H5 |- *. destruct (job_id t); [apply NoDup_cons in H5 as [_ H5]|]; (destruct (job_id t'); [by constructor|done]).
Qed.

Lemma good_jobs p t : good p t → Forall (job_ok p) (t :: tasks p).
Proof. by intros [_ _ _ _ _ ?]. Qed.

Lemma job_ok_core p p' : core p' = core p → ∀ t, job_ok p t → job_ok p' t.
Proof. unfold core. intros [= _ _ E3 E4 E5 _] t. unfold job_ok. by rewrite E3, E4, E5. Qed.

Lemma jobs_core p p' ts : core p' = core p → Forall (job_ok p) ts → Forall (job_ok p') ts.
Proof. intros Hc Hj. eapply Forall_impl; [exact Hj|]. by apply job_ok_core. Qed.

(** Operations that leave the jobs alone. *)
Definition same_jobs (p p' : provider) : Prop :=
  sources p' = sources p ∧ activeDownloads (download p') = activeDownloads (download p) ∧
  pendingDownloads (download p') = pendingDownloads (download p).

Lemma same_jobs_ok p p' ts : same_jobs p p' → Forall (job_ok p) ts → Forall (job_ok p') ts.
Proof.
  intros (E3 & E4 & E5) Hj. eapply Forall_impl; [exact Hj|]. intros t. unfold job_ok. by rewrite E3, E4, E5.
Qed.

Lemma good_plain p p' t t' :
  good p t → tasks p' = tasks p → same_jobs p p' → downloadSlots (download p') = downloadSlots (download p) →
  uses_slot t' = uses_slot t → job_id t' = None → after_ok t' →
  counts holds (t' :: tasks p) (active (cache p')) → counts streams_of (t' :: tasks p) (streams (cache p')) →
  good p' t'.
Proof.
  intros Hg Ht Hsj Hd Hu Hj Ha Hc Hs. eapply good_change; [exact Hg|exact Ht|exact Hc|exact Hs|..].
  - rewrite Hu, Hd. done.
  - rewrite Hu. auto.
  - by rewrite Hj.
  - pose proof (good_jobs _ _ Hg) as Hjobs. apply Forall_cons in Hjobs as [_ Hjobs].
    constructor; [|by eapply same_jobs_ok]. by destruct t'.
Qed.

Lemma good_counts p t : good p t → counts holds (t :: tasks p) (active (cache p)) ∧
  counts streams_of (t :: tasks p) (streams (cache p)).
Proof. by intros [? ? _ _ _ _]. Qed.

Lemma Inv_counts p : Inv p → counts holds (tasks p) (active (cache p)) ∧ counts streams_of (tasks p) (streams (cache p)).
Proof. by intros [? ? _ _ _ _]. Qed.

Lemma good_Draining_Inv p : good p Draining → Inv (free_slot p).
Proof.
  intros Hg. apply (good_idle _ (Resuming [])); [done|]. destruct (good_counts _ _ Hg) as [Hc Hs].
  eapply (good_change p _ Draining); [exact Hg|done|..]; cbn [free_slot set_download cache download downloadSlots].
  - by eapply counts_swap; [|eassumption].
  - by eapply counts_swap; [|eassumption].
  - destruct Hg as [_ _ H3 _ _ _]. cbn in *. rewrite H3. cbn. lia.
  - done.
  - done.
  - pose proof (good_jobs _ _ Hg) as Hj. apply Forall_cons in Hj as [_ Hj]. constructor; [done|].
    eapply same_jobs_ok; [done|exact Hj].
Qed.

Lemma good_retain p h key now : Inv p → good (retain h key now p) (Handling h).
Proof.
  intros Hi. assert (good p (Resuming [])) as Hg by (by apply good_idle).
  destruct (Inv_counts _ Hi) as [Hc Hs].
  eapply good_plain; [exact Hg|done|done|done|done|done|done|..]; cbn [retain set_cache cache active streams].
  - by eapply counts_up.
  - by apply counts_none.
Qed.

Lemma good_retainStream p h key now : Inv p → good (retainStream h key now p) (Streaming h key).
Proof.
  intros Hi. assert (good p (Resuming [])) as Hg by (by apply good_idle).
  destruct (Inv_counts _ Hi) as [Hc Hs].
  eapply good_plain; [exact Hg|done|done|done|done|done|done|..]; cbn [retainStream set_cache cache active streams].
  - by eapply counts_up.
  - by eapply counts_up.
Qed.

Lemma good_release_count p h t t' :
  good p t → holds t = Some h → streams_of t = None → streams_of t' = None → holds t' = None →
  uses_slot t' = uses_slot t → job_id t' = None → after_ok t' → good (release_count h p) t'.
Proof.
  intros Hg Hh Hst Hst' Hh' Hu Hj Ha. destruct (good_counts _ _ Hg) as [Hc Hs].
  eapply good_plain; [exact Hg|done|done|done|done|done|done|..]; cbn [release_count set_cache cache active streams].
  - apply counts_none; [done|]. by eapply counts_down; [|exact Hc].
  - eapply counts_swap; [|exact Hs]. congruence.
Qed.

(** What [open] and the loop of [ResumeTrackDownloads] go on with. *)
Definition idle_next (next : option task) : Prop :=
  match next with None | Some (Opening _ _) | Some (Resuming _) => True | _ => False end.

Lemma Inv_release p h held next : good p (Handling h) → idle_next next → Inv (release h held next p).
Proof.
  intros Hg Hn. apply good_go.
  eapply good_release_count; [exact Hg|done|done|done|..]; destruct next as [[]|]; done.
Qed.

Lemma Inv_releaseStream p h key : good p (Streaming h key) → Inv (releaseStream h p).
Proof.
  intros Hg. destruct (good_counts _ _ Hg) as [Hc Hs]. apply good_go.
  eapply good_plain; [exact Hg|done|done|done|done|done|done|..]; cbn [set_cache cache active streams].
  - apply counts_none; [done|]. by eapply counts_down; [|exact Hc].
  - apply counts_none; [done|]. by eapply counts_down; [|exact Hs].
Qed.

Lemma good_take_slot p h : good p (Handling h) → (downloadSlots (download p) < max)%nat → good (take_slot p) (Ending h).
Proof.
  intros Hg Hlt. destruct (good_counts _ _ Hg) as [Hc Hs].
  eapply good_change; [exact Hg|done|..]; cbn [take_slot set_download cache download downloadSlots].
  - by eapply counts_swap; [|eassumption].
  - by eapply counts_swap; [|eassumption].
  - cbn. lia.
  - auto.
  - done.
  - pose proof (good_jobs _ _ Hg) as Hj. apply Forall_cons in Hj as [_ Hj]. constructor; [done|].
    eapply same_jobs_ok; [done|exact Hj].
Qed.

Lemma good_free_slot p h : good p (Ending h) → good (free_slot p) (Handling h).
Proof.
  intros Hg. destruct (good_counts _ _ Hg) as [Hc Hs].
  eapply good_change; [exact Hg|done|..]; cbn [free_slot set_download cache download downloadSlots].
  - by eapply counts_swap; [|eassumption].
  - by eapply counts_swap; [|eassumption].
  - destruct Hg as [_ _ H3 _ _ _]. cbn in *. rewrite H3. cbn. lia.
  - done.
  - done.
  - pose proof (good_jobs _ _ Hg) as Hj. apply Forall_cons in Hj as [_ Hj]. constructor; [done|].
    eapply same_jobs_ok; [done|exact Hj].
Qed.

(** * Jobs begin, wait and end *)

Definition fresh (id : string) (p : provider) : Prop := id ∉ omap job_id (tasks p).

Lemma sources_put id r p : sources (put_record_at id r p) = <[id := record_source r]> (sources p).
Proof. unfold sources. cbn. by rewrite fmap_insert. Qed.

Lemma persist_core record p : core (persist_quietly metadataRoot record p) = core p ∧
  tasks (persist_quietly metadataRoot record p) = tasks p.
Proof. done. Qed.

(** What happens to one download leaves the other jobs as they are. *)
Lemma jobs_frame id p p' ts :
  (∀ k, k ≠ id → sources p' !! k = sources p !! k ∧
     activeDownloads (download p') !! k = activeDownloads (download p) !! k ∧
     pendingDownloads (download p') !! k = pendingDownloads (download p) !! k) →
  id ∉ omap job_id ts → Forall (job_ok p) ts → Forall (job_ok p') ts.
Proof.
  intros Hk Hid Hj. apply Forall_forall. intros t Ht. rewrite Forall_forall in Hj. specialize (Hj _ Ht).
  assert (∀ k, job_id t = Some k → k ≠ id) as Hne.
  { intros k Hk' ->. apply Hid. apply list_elem_of_omap. eauto. }
  destruct t; cbn [job_ok job_id] in *; try done;
    (specialize (Hne _ eq_refl); destruct (Hk _ Hne) as (E1 & E2 & E3); by rewrite ?E1, ?E2, ?E3).
Qed.

(** Nothing changed for the other downloads. *)
Ltac other_jobs :=
  intros ? ?; unfold sources, put_record; cbn; rewrite ?fmap_insert, ?fmap_delete; split_and!;
  rewrite ?lookup_insert_ne, ?lookup_delete_ne by (by intros <-); done.

(** A change of the jobs around one download. *)
Lemma good_job p p' t t' id :
  good p t → tasks p' = tasks p → cache p' = cache p →
  downloadSlots (download p') = downloadSlots (download p) → fresh id p →
  (∀ k, k ≠ id → sources p' !! k = sources p !! k ∧
     activeDownloads (download p') !! k = activeDownloads (download p) !! k ∧
     pendingDownloads (download p') !! k = pendingDownloads (download p) !! k) →
  holds t' = holds t → streams_of t' = streams_of t → uses_slot t' = uses_slot t →
  match job_id t' with Some k => k = id | None => True end → job_ok p' t' → good p' t'.
Proof.
  intros Hg Ht Hc Hd Hf Hk Hh Hs Hu Hj Hok. destruct (good_counts _ _ Hg) as [Hca Hcs].
  eapply good_change; [exact Hg|exact Ht|..].
  - rewrite Hc. by eapply counts_swap; [|exact Hca].
  - rewrite Hc. by eapply counts_swap; [|exact Hcs].
  - rewrite Hd, Hu. done.
  - rewrite Hu. auto.
  - destruct (job_id t'); [by subst|done].
  - pose proof (good_jobs _ _ Hg) as Hjobs. apply Forall_cons in Hjobs as [_ Hjobs].
    constructor; [done|]. by eapply jobs_frame.
Qed.

Lemma good_begin now bytes r f p b p' :
  good p (Ending (record_source r)) → fresh (record_id r) p →
  beginTrackDownloadLocked metadataRoot now bytes r f p = (b, p') →
  (if b then Inv p' else good p' (Ending (record_source r)) ∧ tasks p' = tasks p).
Proof.
  intros Hg Hf. unfold beginTrackDownloadLocked. destruct (_ <=? _); intros [= <- <-].
  - split; [|done]. eapply (good_job _ _ _ _ (record_id r)); [exact Hg|done..| |done|done|done|done|done].
    other_jobs.
  - apply good_go. eapply (good_job _ _ _ _ (record_id r)); [exact Hg|done..| |done|done|done|done|].
    + other_jobs.
    + cbn [job_ok]. split; [cbn; rewrite lookup_insert_eq; eauto|].
      change (sources (persist_quietly _ _ (put_active _ _ ?q))) with (sources q). unfold put_record.
      by rewrite sources_put, lookup_insert_eq.
Qed.

Lemma Inv_go_on next p : idle_next next → Inv p → Inv (go_on next p).
Proof. destruct next as [[]|]; try done; intros _; by apply Inv_go_idle. Qed.

Lemma Inv_schedule now bytes r f next p :
  Inv p → fresh (record_id r) p → idle_next next →
  Inv (scheduleTrackDownloadLocked metadataRoot max now bytes r f next p).
Proof.
  intros Hi Hf Hn. unfold scheduleTrackDownloadLocked.
  set (p1 := retain _ _ _ _). assert (good p1 (Handling (record_source r))) as Hg by (by apply good_retain).
  destruct (_ <? max)%nat eqn:Hlt.
  - apply Nat.ltb_lt in Hlt. destruct (beginTrackDownloadLocked _ _ _ _ _ _) as [b p2] eqn:E.
    apply good_begin in E; [|by apply good_take_slot|done]. destruct b; [by apply (Inv_go_on next)|].
    apply Inv_release; [|done]. apply good_free_slot, E.
  - apply (Inv_go_on next); [done|]. apply good_go.
    eapply (good_job p1 _ _ _ (record_id r)); [exact Hg|done..| |done|done|done|done|].
    + other_jobs.
    + cbn [job_ok]. split; [cbn; by rewrite lookup_insert_eq|].
      change (sources (persist_quietly _ _ (put_pending _ _ ?q))) with (sources q). unfold put_record.
      by rewrite sources_put, lookup_insert_eq.
Qed.

(** A download without an entry in the two maps has no job. *)
Lemma fresh_of_maps id p :
  Inv p → activeDownloads (download p) !! id = None → pendingDownloads (download p) !! id = None → fresh id p.
Proof.
  intros [_ _ _ _ _ Hj] Ha Hp (t & Ht & Hid)%list_elem_of_omap. rewrite Forall_forall in Hj. specialize (Hj _ Ht).
  destruct t; cbn [job_id job_ok] in *; try done; injection Hid as Hid; subst.
  all: try (destruct Hj as [Hj _]; congruence).
  all: destruct Hj as [[? Hj] _]; congruence.
Qed.

Lemma Inv_core p p' : core p' = core p → tasks p' = tasks p → Inv p → Inv p'.
Proof. intros Hc Ht Hi. unfold Inv. rewrite Ht. by eapply consistent_core. Qed.

Lemma Inv_queue now bytes ref h path f next p :
  Inv p → idle_next next → Inv (queueTrackDownload metadataRoot max now bytes ref h path f next p).
Proof.
  intros Hi Hn. unfold queueTrackDownload.
  destruct (if bool_decide (_ = "") then _ else _) as [trackID q] eqn:Eq.
  assert (Inv q) as Hq.
  { destruct (bool_decide _); injection Eq as <- <-; [|done]. by eapply Inv_core; [..|exact Hi]. }
  clear Eq. cbv zeta. set (record := match downloads (download q) !! _ with Some _ => _ | None => _ end).
  assert (record_id record = StableID "download" [Provider ref; SourceKey ref]) as Eid.
  { unfold record. destruct (downloads _ !! _); [|done]. by destruct (bool_decide _). }
  destruct (bool_decide _) eqn:Ha; [by apply (Inv_go_on next)|].
  destruct (bool_decide (is_Some (pendingDownloads _ !! _))) eqn:Hp; [by apply (Inv_go_on next)|]. cbn [orb].
  apply Inv_schedule; [done| |done]. rewrite Eid. apply bool_decide_eq_false in Ha, Hp.
  apply fresh_of_maps; [done|by apply eq_None_not_Some..].
Qed.

Lemma Inv_resume_schedule now bytes r f next p :
  Inv p → idle_next next → Inv (resume_schedule metadataRoot max now bytes r f next p).
Proof.
  intros Hi Hn. unfold resume_schedule.
  destruct (_ && _) eqn:E; [|by apply (Inv_go_on next)].
  apply andb_true_iff in E as [Ea Ep]. apply bool_decide_eq_true in Ea, Ep.
  apply Inv_schedule; [done|by apply fresh_of_maps|done].
Qed.

(** The goroutine of a download in the middle of its step is its only job. *)
Lemma good_fresh p t id : good p t → job_id t = Some id → fresh id p.
Proof. intros [_ _ _ _ Hu _] Hj. cbn in Hu. rewrite Hj in Hu. by apply NoDup_cons in Hu as [? _]. Qed.

(** [pending != file] never holds there, and the record is there. *)
Lemma Inv_slotted now bytes r f p :
  good p (Slotted r f) → Inv (slotted metadataRoot now bytes r f p).
Proof.
  intros Hg. pose proof (good_fresh _ _ _ Hg eq_refl) as Hf.
  pose proof (good_jobs _ _ Hg) as Hj. apply Forall_cons in Hj as [[Hp Hs] _].
  unfold slotted. rewrite Hp. rewrite bool_decide_eq_true_2.
  2:{ unfold sources in Hs. rewrite lookup_fmap in Hs. destruct (downloads _ !! _); [eauto|done]. }
  rewrite bool_decide_eq_true_2 by done. cbn [negb orb].
  assert (good (drop_pending (record_id r) p) (Ending (record_source r))) as Hg'.
  { eapply (good_job _ _ _ _ (record_id r)); [exact Hg|done..| |done|done|done|done|done].
    other_jobs. }
  destruct (beginTrackDownloadLocked _ _ _ _ _ _) as [b p2] eqn:E.
  apply good_begin in E; [|done|done]. destruct b; [done|]. destruct E as [E _].
  apply Inv_release; [by apply good_free_slot|done].
Qed.

Lemma Inv_waiting_cancelled r f p : good p (Waiting r f) → Inv (waiting_cancelled r p).
Proof.
  intros Hg. pose proof (good_fresh _ _ _ Hg eq_refl) as Hf. unfold waiting_cancelled.
  apply Inv_release; [|done].
  eapply (good_job _ _ _ _ (record_id r)); [exact Hg|done..| |done|done|done|done|done].
  other_jobs.
Qed.

Lemma good_monitor_turn now bytes h id f p next p1 :
  good p (Monitoring h id f) → monitor_turn metadataRoot now bytes h id f p = (next, p1) →
  good p1 (default (Monitoring h id f) next).
Proof.
  intros Hg. pose proof (good_fresh _ _ _ Hg eq_refl) as Hf.
  pose proof (good_jobs _ _ Hg) as Hj. apply Forall_cons in Hj as [[Ha Hs] _]. unfold monitor_turn.
  unfold sources in Hs. rewrite lookup_fmap in Hs.
  destruct (downloads (download p) !! id) as [r|] eqn:Er; [|done]. cbn in Hs. injection Hs as Hs.
  assert (∀ p' r' t', core p' = core (put_record_at id r' p) → tasks p' = tasks p → cache p' = cache p →
    record_source r' = h → holds t' = Some h → streams_of t' = None → uses_slot t' = true → job_id t' = Some id →
    (job_ok p' t' ↔ is_Some (activeDownloads (download p') !! id) ∧ sources p' !! id = Some h) → good p' t') as Hput.
  { intros p' r' t' Hc Ht Hca Hr Hh Hst Hu Hj' Hok.
    unfold core in Hc. injection Hc as E1 E2 E3 E4 E5 E6. rewrite sources_put in E3.
    eapply (good_job _ _ _ _ id); [exact Hg|done|done|done|done| |done|done|done| |].
    - intros k Hk. rewrite E3, E4, E5, lookup_insert_ne by (by intros <-). done.
    - by rewrite Hj'.
    - apply Hok. rewrite E3, E4, lookup_insert_eq, Hr. done. }
  destruct (_ <=? _); intros [= <- <-]; cbn [default].
  - eapply Hput; [reflexivity|done..].
  - eapply Hput; [reflexivity|done..].
Qed.

Lemma Inv_monitor_ends h id p : good p (Monitored h id) → Inv (monitor_ends id p).
Proof.
  intros Hg. pose proof (good_fresh _ _ _ Hg eq_refl) as Hf.
  pose proof (good_jobs _ _ Hg) as Hj. apply Forall_cons in Hj as [[Ha Hs] _].
  unfold monitor_ends. unfold sources in Hs. rewrite lookup_fmap in Hs.
  destruct (downloads (download p) !! id) as [r|] eqn:Er; [|done]. injection Hs as <-. cbn [default].
  apply good_go. eapply (good_job _ _ _ _ id); [exact Hg|done|done|done|done| |done|done|done|done|done].
  other_jobs.
Qed.

Lemma Inv_notify now ref p : Inv p → Inv (notifyCompleted ref now p).
Proof.
  intros Hi. unfold notifyCompleted. destruct (parseSourceKey _) as [[h path]|e]; [|done].
  destruct (_ || _); [done|]. apply good_go, good_retain. by eapply Inv_core; [..|exact Hi].
Qed.

Lemma good_notify now ref p t : good p t → good (notifyCompleted ref now p) t.
Proof.
  intros Hg0. pose proof (good_go _ _ Hg0) as Hg. apply (Inv_notify now ref) in Hg. unfold notifyCompleted in *.
  cbn [go set_tasks completion] in *. destruct (parseSourceKey _) as [[h path]|e]; [|exact Hg0].
  destruct (_ || _); [exact Hg0|]. unfold good. eapply consistent_perm; [apply Permutation_swap|].
  eapply consistent_core; [|exact Hg]. done.
Qed.

(** * Calls that only use the disk or the client *)

Definition view (p : provider) := (core p, tasks p).

Lemma view_inv p p' : view p' = view p → core p' = core p ∧ tasks p' = tasks p ∧ sources p' = sources p.
Proof.
  intros Hv. assert (core p' = core p) as Hc by exact (f_equal fst Hv).
  split_and!; [done|exact (f_equal snd Hv)|]. unfold core in Hc. by injection Hc.
Qed.

Lemma Inv_view p p' : view p' = view p → Inv p → Inv p'.
Proof. intros (Hc & Ht & _)%view_inv. by apply Inv_core. Qed.

Lemma good_view p p' t : view p' = view p → good p t → good p' t.
Proof. intros (Hc & Ht & _)%view_inv Hg. unfold good. rewrite Ht. by eapply consistent_core. Qed.

Lemma on_files_view {A} (m : M (database (gmap string (list Z))) A) : read_only view (on_files m).
Proof. intros p r p'. unfold on_files, zoom. destruct (m _) as [r' d]. by intros [= <- <-]. Qed.

Lemma on_jobs_view {A} (m : M job_files A) : read_only view (on_jobs m).
Proof. intros p r p'. unfold on_jobs, zoom. destruct (m _) as [r' d]. by intros [= <- <-]. Qed.

Lemma attached_view f : read_only view (modify (set_attached f)).
Proof. by intros p r p' [= <- <-]. Qed.

Lemma fails_with_view w e : read_only view (fails_with (S := provider) w e).
Proof. destruct e; intros p r p'; by intros [= <- <-]. Qed.

#[local] Hint Resolve on_files_view on_jobs_view attached_view fails_with_view : go.

Ltac view_only := repeat (apply read_only_bind; [solve [auto with go]|intros ?]); auto with go.

Lemma ensureClient_view sw : read_only view (ensureClient metadataRoot dataRoot sw).
Proof. unfold ensureClient. destruct (_ || _); auto with go. Qed.

#[local] Hint Resolve ensureClient_view : go.

Lemma open_torrent_view sw ref : read_only view (open_torrent metadataRoot dataRoot sw ref).
Proof.
  unfold open_torrent. apply read_only_bind; [auto with go|]. intros [h path].
  apply read_only_bind; [auto with go|]. intros [|]; [auto with go|]. apply read_only_bind; [auto with go|]. intros _.
  apply read_only_bind; [destruct (sw_metadata sw) as [?|e]; [|destruct (errors_Is _ e)]; auto with go|].
  intros [hash info]. destruct (negb _); [auto with go|]. view_only.
  destruct (find_file _ _); [|auto with go]. apply read_only_bind; [auto with go|]. intros there.
  apply read_only_bind; [destruct there; auto with go|auto with go].
Qed.

Lemma resume_torrent_view sw record : read_only view (resume_torrent metadataRoot dataRoot sw record).
Proof.
  unfold resume_torrent. apply read_only_bind; [auto with go|]. intros [hash info].
  destruct (negb _); [auto with go|]. view_only. destruct (find_file _ _); auto with go.
Qed.

Lemma evictionCandidates_view ModTime allocated : read_only view (evictionCandidates dataRoot ModTime allocated).
Proof. unfold evictionCandidates. view_only. Qed.

(** Records may change, but not the torrent of a download. *)
Lemma put_same_source id r p : sources p !! id = Some (record_source r) → view (put_record_at id r p) = view p.
Proof.
  intros Hs. unfold view, core. rewrite sources_put, insert_id by done. done.
Qed.

Lemma sources_of id r p : downloads (download p) !! id = Some r → sources p !! id = Some (record_source r).
Proof. intros E. unfold sources. by rewrite lookup_fmap, E. Qed.

Lemma persist_view r p : view (persist_quietly metadataRoot r p) = view p.
Proof. done. Qed.

Lemma markDownloadFailed_view now id e p : view (markDownloadFailed metadataRoot now id e p) = view p.
Proof.
  unfold markDownloadFailed. destruct (downloads _ !! id) as [r|] eqn:E; [|done].
  rewrite persist_view. apply put_same_source. exact (sources_of _ _ _ E).
Qed.

Lemma markDownloadEvicted_view now key p : view (markDownloadEvicted metadataRoot now key p) = view p.
Proof.
  unfold markDownloadEvicted. destruct (downloads _ !! _) as [r|] eqn:E; [|done].
  destruct (bool_decide _); [done|]. rewrite persist_view.
  change (view (put_record_at (StableID "download" [torrent_Name; key])
    (map_download (with_progress 0 (TotalBytes (Download r)) now)
       (map_download (with_state StateEvicted (dl_Error (Download r))) r)) p) = view p).
  apply put_same_source. exact (sources_of _ _ _ E).
Qed.

Lemma evict_one_view now c freed dropped : read_only view (evict_one metadataRoot now c freed dropped).
Proof.
  unfold evict_one. apply read_only_bind; [auto with go|]. intros _. apply read_only_bind; [auto with go|].
  intros may. destruct (negb may); [auto with go|].
  apply read_only_bind; [destruct (bool_decide _); [auto with go|apply attached_view]|]. intros _.
  apply read_only_bind; [auto with go|]. intros [u|e]; [|destruct (errors_Is _ e); auto with go].
  apply read_only_bind; [|auto with go]. intros p r p' [= <- <-].
  rewrite <- (markDownloadEvicted_view now (ec_key c) p). done.
Qed.

Lemma list_download_view now bytes x p r p' :
  sources p !! x.1 = Some (record_source x.2) →
  list_download metadataRoot dataRoot now bytes x p = (r, p') → view p' = view p.
Proof.
  intros Hs. destruct x as [id record]. cbn [fst snd] in Hs. unfold list_download.
  assert (∀ r' q, record_source r' = record_source record → view q = view p → view (put_record_at id r' q) = view p) as Hput.
  { intros r' q Hr Hq. rewrite <- Hq. apply put_same_source.
    apply view_inv in Hq as (_ & _ & ->). by rewrite Hr. }
  unfold mbind at 1, M_bind at 1. destruct (on_jobs ctx_Err p) as [[u|e] p1] eqn:E1;
    apply on_jobs_view in E1; [|by intros [= <- <-]].
  unfold mbind at 1, M_bind at 1, gets at 1. destruct (activeDownloads _ !! id) as [f|].
  - destruct (_ <=? _); intros E.
    + unfold mbind, M_bind in E.
      destruct (on_jobs _ p1) as [[v|e] p2] eqn:E2; apply on_jobs_view in E2; injection E as _ <-;
        [apply Hput; [done|]|]; congruence.
    + injection E as _ <-. by apply Hput.
  - unfold mbind at 1, M_bind at 1, gets at 1. destruct (_ && _); [|by intros [= <- <-]].
    intros E. unfold mbind, M_bind, modify in E.
    destruct (on_jobs _ _) as [[v|e] p2] eqn:E2; apply on_jobs_view in E2; injection E as _ <-;
      rewrite E2; by apply Hput.
Qed.

Lemma TrackDownloads_view now bytes p r p' :
  TorrentTrackDownloads metadataRoot dataRoot now bytes p = (r, p') → view p' = view p.
Proof.
  unfold TorrentTrackDownloads, mbind, M_bind, gets. intros E.
  assert (∀ l q r q', Forall (λ x, sources q !! x.1 = Some (record_source x.2)) l →
    mmap (list_download metadataRoot dataRoot now bytes) l q = (r, q') → view q' = view q) as Hm.
  { induction l as [|x l IH]; intros q r0 q' Hl; [by intros [= <- <-]|].
    apply Forall_cons in Hl as [Hx Hl]. cbn [mmap]. unfold mbind, M_bind.
    destruct (list_download _ _ _ _ x q) as [[y|e] q1] eqn:E1;
      apply (list_download_view _ _ _ _ _ _ Hx) in E1 as Hv; [|by intros [= <- <-]].
    destruct (mmap _ l q1) as [[ys|e] q2] eqn:E2; intros [= <- <-]; (rewrite <- Hv; eapply IH; [|exact E2]);
      apply view_inv in Hv as (_ & _ & ->); done. }
  destruct (mmap _ _ p) as [[l|e] p1] eqn:Em; injection E as _ <-; eapply Hm; try exact Em;
    apply Forall_forall; intros [id r0] Hin; apply sources_of; apply elem_of_map_to_list;
    by rewrite <- map_range_perm.
Qed.

(** * Removing a source *)

Lemma drop_record_sources k p : sources (drop_record k p) = delete k (sources p).
Proof. unfold sources. cbn. by rewrite fmap_delete. Qed.

(** A torrent nobody holds has no jobs, so its records can go. *)
Lemma Inv_drop_record k h p :
  Inv p → count_of holds h (tasks p) = 0%nat → (∀ h', sources p !! k = Some h' → h' = h) → Inv (drop_record k p).
Proof.
  intros Hi Hc Hk. apply (good_idle _ (Resuming [])); [done|].
  eapply (good_job p _ (Resuming []) _ k); [by apply good_idle|done|done|done| | |done|done|done|done|done]; [|other_jobs].
  intros (t & Ht & Hid)%list_elem_of_omap. destruct Hi as [_ _ _ _ _ Hj]. rewrite Forall_forall in Hj.
  specialize (Hj _ Ht).
  assert (∃ h', holds t = Some h' ∧ sources p !! k = Some h') as (h' & Hh & Hs).
  { destruct t; cbn [job_id job_ok holds] in *; try done; injection Hid as Hid; subst; destruct Hj as [_ Hj]; eauto. }
  apply Hk in Hs as ->. assert (t ∈ List.filter (λ t, bool_decide (holds t = Some h)) (tasks p)) as Hin.
  { apply elem_of_filter_bool. split; [done|]. by apply bool_decide_eq_true. }
  unfold count_of in Hc. by destruct (List.filter _ _); [apply elem_of_nil in Hin|].
Qed.

Lemma Inv_removeDownloads h p r p' :
  Inv p → count_of holds h (tasks p) = 0%nat → removeDownloadsForSource metadataRoot h p = (r, p') → Inv p'.
Proof.
  intros Hi Hc. unfold removeDownloadsForSource.
  assert (∀ l q, Inv q → tasks q = tasks p → (∀ k h', sources q !! k = Some h' → sources p !! k = Some h') →
    (∀ x, x ∈ l → x ∈ map_range (downloads (download p))) →
    ∀ r q', miter (λ x : string * downloadRecord,
      if negb (bool_decide (record_source x.2 = h)) then mret tt
      else _ ← modify (drop_record x.1);
           on_jobs (remove_if_there (λ e, Errorf "remove torrent download job: " e "") (downloadRecordPath metadataRoot x.1))) l q
      = (r, q') → Inv q') as Hm.
  { induction l as [|x l IH]; intros q Hq Ht Hs Hl r0 q'; [by intros [= <- <-]|]. cbn [miter]. unfold mbind at 1, M_bind at 1.
    destruct (bool_decide (record_source x.2 = h)) eqn:E; cbn [negb].
    2:{ cbn. apply IH; auto. intros y Hy. apply Hl. by right. }
    apply bool_decide_eq_true in E. unfold mbind at 1, M_bind at 1, modify at 1.
    assert (Inv (drop_record x.1 q)) as Hq1.
    { eapply (Inv_drop_record _ h); [done|by rewrite Ht|]. intros h' Hh'. apply Hs in Hh'.
      assert (x ∈ map_range (downloads (download p))) as Hx by (apply Hl; by left).
      destruct x as [k rec]. rewrite map_range_perm, elem_of_map_to_list in Hx.
      apply sources_of in Hx. cbn in *. congruence. }
    destruct (on_jobs _ (drop_record x.1 q)) as [[u|e] q1] eqn:E1; apply on_jobs_view in E1; intros E2.
    - eapply IH; [eapply Inv_view; [exact E1|exact Hq1]| | | |exact E2].
      + apply view_inv in E1 as (_ & -> & _). exact Ht.
      + apply view_inv in E1 as (_ & _ & ->). intros k h'. rewrite drop_record_sources.
        intros [_ Hk]%lookup_delete_Some. by apply Hs.
      + intros y Hy. apply Hl. by right.
    - injection E2 as _ <-. eapply Inv_view; [exact E1|exact Hq1]. }
  eapply Hm; auto.
Qed.

Lemma Inv_remove_files h deleteData p r p' :
  Inv p → count_of holds h (tasks p) = 0%nat → remove_files metadataRoot dataRoot h deleteData p = (r, p') → Inv p'.
Proof.
  intros Hi Hc. unfold remove_files.
  assert (∀ (m m' : M provider unit), read_only view m →
    (∀ q r q', Inv q → count_of holds h (tasks q) = 0%nat → m' q = (r, q') → Inv q') →
    ∀ q r q', Inv q → count_of holds h (tasks q) = 0%nat → (_ ← m; m') q = (r, q') → Inv q') as Hbind.
  { intros m m' Hm Hm' q r0 q' Hq Hcq. unfold mbind, M_bind. destruct (m q) as [[u|e] q1] eqn:E; apply Hm in E as Hv.
    - apply Hm'; [by eapply Inv_view|]. by apply view_inv in Hv as (_ & -> & _).
    - intros [= _ <-]. by eapply Inv_view. }
  unfold mbind at 1, M_bind at 1, try at 1. destruct (on_files _ p) as [r1 p1] eqn:E1. apply on_files_view in E1.
  assert (count_of holds h (tasks p1) = 0%nat) as Hc1 by (by apply view_inv in E1 as (_ & -> & _)).
  apply (Inv_view _ _ E1) in Hi. revert Hi Hc1. apply Hbind.
  { destruct r1 as [u|e]; [|destruct (errors_Is _ e)]; auto with go. }
  apply Hbind; [auto with go|]. intros q r0 q' Hq Hcq. unfold mbind, M_bind.
  destruct (removeDownloadsForSource _ _ q) as [[u|e] q1] eqn:E; apply Inv_removeDownloads in E; try done.
  - intros E2. eapply Inv_view; [|exact E]. destruct deleteData; [|by injection E2 as _ <-].
    eapply (read_only_wrap_err view); [|exact E2]. apply on_files_view.
  - by intros [= _ <-].
Qed.

(** What [RemoveSource] and [Evict] would take away. *)
Definition kept (p : provider) := (tables (files p), attached p, downloads (download p)).

Lemma on_files_kept {A} (m : M (database (gmap string (list Z))) A) : read_only tables m → read_only kept (on_files m).
Proof.
  intros Hm p r p'. unfold on_files, zoom. destruct (m _) as [r' d] eqn:E. intros [= <- <-].
  apply Hm in E. unfold kept. cbn. by rewrite E.
Qed.

Lemma ctx_Err_read_only {T} : read_only (tables (T := T)) ctx_Err.
Proof. intros d r d'. unfold ctx_Err. destruct (faults d) as [|[[]|] fs]; by intros [= <- <-]. Qed.

Lemma validateSourceID_read_only id : read_only tables (validateSourceID metadataRoot id).
Proof.
  unfold validateSourceID. destruct (negb _); [auto with go|]. destruct (hex_error id); [auto with go|].
  apply read_only_bind; [apply read_only_try|].
  - intros d [a|e] d' E; [|by apply statement_clean in E]. apply statement_Ok in E. cbn beta in E.
    destruct (tables d !! _); [by injection E as _ <-|done].
  - intros [u|e]; [auto with go|]. destruct (errors_Is _ e); auto with go.
Qed.

Lemma counted h p : Inv p → default 0 (active (cache p) !! h) = Z.of_nat (count_of holds h (tasks p)).
Proof. intros [Hc _ _ _ _ _]. apply Hc. Qed.

Lemma RemoveSource_ok id deleteData p r p' :
  Inv p → RemoveSource metadataRoot dataRoot id deleteData p = (r, p') →
  Inv p' ∧ (count_of holds id (tasks p) ≠ 0%nat → is_ok r = false ∧ kept p' = kept p).
Proof.
  intros Hi. unfold RemoveSource, mbind at 1, M_bind at 1.
  destruct (on_files (validateSourceID _ _) p) as [r1 p1] eqn:E1.
  pose proof (on_files_view _ _ _ _ E1) as V1.
  pose proof (on_files_kept _ (validateSourceID_read_only id) _ _ _ E1) as K1.
  pose proof (Inv_view _ _ V1 Hi) as Hi1. destruct r1 as [u|e]; [|by intros [= <- <-]].
  unfold mbind at 1, M_bind at 1. destruct (on_files ctx_Err p1) as [r2 p2] eqn:E2.
  pose proof (on_files_view _ _ _ _ E2) as V2.
  pose proof (on_files_kept _ ctx_Err_read_only _ _ _ E2) as K2.
  destruct r2 as [v|e].
  2:{ intros [= <- <-]. split; [by eapply Inv_view|]. intros _. split; [done|congruence]. }
  pose proof (Inv_view _ _ V2 Hi1) as Hi2. unfold mbind at 1, M_bind at 1, gets at 1.
  assert (tasks p2 = tasks p) as Ht.
  { apply view_inv in V1 as (_ & <- & _). by apply view_inv in V2 as (_ & <- & _). }
  rewrite (counted _ _ Hi2), Ht. destruct (0 <? _) eqn:Hb.
  { intros [= <- <-]. split; [done|]. intros _. split; [done|congruence]. }
  apply Z.ltb_ge in Hb. assert (count_of holds id (tasks p) = 0%nat) as Hz by lia. intros E. split; [|done].
  unfold mbind at 1, M_bind at 1, modify at 1 in E.
  set (p3 := dropTorrent id p2) in *. assert (Inv p3) as Hi3 by (by eapply (Inv_view p2)).
  assert (tasks p3 = tasks p) as Ht3 by exact Ht. clearbody p3.
  eapply Inv_remove_files; [exact Hi3|by rewrite Ht3|exact E].
Qed.

(** * The invariant of every run *)

Lemma Inv_remember record p : Inv p → Inv (remember_job metadataRoot record p).
Proof.
  intros Hi. unfold remember_job.
  assert (Inv (match downloads (download p) !! record_id record with
    | Some _ => p | None => persist_quietly metadataRoot record (put_record record p) end)) as Hq.
  { destruct (downloads _ !! _) eqn:E; [done|]. apply (good_idle _ (Resuming [])); [done|].
    eapply (good_job p _ (Resuming []) _ (record_id record));
      [by apply good_idle|done|done|done| |other_jobs|done|done|done|done|done].
    intros (t & Ht & Hid)%list_elem_of_omap. destruct Hi as [_ _ _ _ _ Hj]. rewrite Forall_forall in Hj.
    specialize (Hj _ Ht). assert (sources p !! record_id record = None) as Hn by (unfold sources; by rewrite lookup_fmap, E).
    destruct t; cbn [job_id job_ok] in *; try done; injection Hid as Hid; subst; destruct Hj as [_ Hj]; congruence. }
  revert Hq. generalize (match downloads (download p) !! record_id record with
    | Some _ => p | None => persist_quietly metadataRoot record (put_record record p) end).
  intros q Hq. destruct (bool_decide _); [done|]. by eapply Inv_core; [..|exact Hq].
Qed.

Lemma Inv_resume_entry now bytes world path next p e p' :
  Inv p → idle_next next →
  resume_entry metadataRoot dataRoot max now bytes world path next p = (e, p') → Inv p'.
Proof.
  intros Hi Hn. unfold resume_entry. destruct (on_jobs _ p) as [r p1] eqn:E1.
  apply on_jobs_view in E1. apply (Inv_view _ _ E1) in Hi.
  destruct r as [record|err]; [|intros [= _ <-]; by apply (Inv_go_on next)].
  apply (Inv_remember record) in Hi. destruct (negb _); [intros [= _ <-]; by apply (Inv_go_on next)|].
  destruct (resume_torrent _ _ _ _ _) as [r p2] eqn:E2. apply resume_torrent_view in E2. apply (Inv_view _ _ E2) in Hi.
  destruct r as [f|err]; intros [= _ <-]; [by apply Inv_resume_schedule|].
  apply (Inv_go_on next); [done|]. eapply Inv_view; [apply markDownloadFailed_view|done].
Qed.

Lemma good_next p t held next :
  good p t → t = Releasing held next ∨ (∃ bytes, t = Pruning held next bytes) ∨
    (∃ bytes freed dropped l, t = Evicting held next bytes freed dropped l) →
  Inv (go_on next p).
Proof.
  intros Hg Ht. destruct (good_counts _ _ Hg) as [Hc Hst].
  pose proof (good_jobs _ _ Hg) as Hj. apply Forall_cons in Hj as [Hj _].
  assert (holds t = match next with Some t => holds t | None => None end ∧ streams_of t = None ∧
    uses_slot t = match next with Some t => uses_slot t | None => false end ∧
    match next with None | Some (Opening _ _) | Some (Resuming _) | Some Draining => True | _ => False end)
    as (Eh & Es & Eu & En).
  { destruct Ht as [->|[[? ->]|(? & ? & ? & ? & ->)]]; done. }
  destruct next as [t'|].
  - apply good_go. eapply good_plain; [exact Hg|done|done|done|done|by destruct t'|by destruct t'|..].
    + by eapply counts_swap; [|exact Hc].
    + eapply counts_swap; [|exact Hst]. rewrite Es. by destruct t'.
  - eapply (good_idle _ (Resuming [])); [done|].
    eapply good_plain; [exact Hg|done|done|done|done|done|done|..].
    + by eapply counts_swap; [|exact Hc].
    + by eapply counts_swap; [|exact Hst].
Qed.

Lemma good_same p t t' :
  good p t → holds t' = holds t → streams_of t' = streams_of t → uses_slot t' = uses_slot t → job_id t' = None →
  after_ok t' → Inv (go t' p).
Proof.
  intros Hg Hh Hs Hu Hj Ha. apply good_go. destruct (good_counts _ _ Hg) as [Hc Hst].
  eapply good_plain; [exact Hg|done|done|done|done|done|done|..].
  - by eapply counts_swap; [|exact Hc].
  - by eapply counts_swap; [|exact Hst].
Qed.

(** The goroutine a step runs is in the middle of its step. *)
Ltac step_cases Hi Hs :=
  destruct Hs; try match goal with Hr : running _ _ _ |- _ => pose proof (running_good _ _ _ Hr Hi) as Hg end.

Lemma call_step_Inv p e p' : Inv p → call_step p e p' → Inv p'.
Proof.
  intros Hi Hs. step_cases Hi Hs.
  - by eapply Inv_core; [..|exact Hi].
  - by eapply Inv_core; [..|exact Hi].
  - by eapply Inv_core; [..|exact Hi].
  - match goal with E : open_torrent _ _ _ _ _ = _ |- _ => apply open_torrent_view in E; apply (Inv_view _ _ E) in Hi end.
    by apply Inv_queue.
  - match goal with E : open_torrent _ _ _ _ _ = _ |- _ => apply open_torrent_view in E end.
    by eapply Inv_view.
  - apply good_go, good_retainStream. by eapply good_idle; [|exact Hg].
  - by apply Inv_notify.
  - by eapply Inv_releaseStream.
  - by apply Inv_go_idle.
  - by apply Inv_go_idle.
  - match goal with E : RemoveSource _ _ _ _ _ = _ |- _ => by eapply RemoveSource_ok in E as [? _] end.
  - match goal with E : TorrentTrackDownloads _ _ _ _ _ = _ |- _ => apply TrackDownloads_view in E end.
    by eapply Inv_view.
  - by eapply Inv_core; [..|exact Hi].
  - by eapply Inv_core; [..|exact Hi].
Qed.

Lemma job_step_Inv p p' : Inv p → job_step p p' → Inv p'.
Proof.
  intros Hi Hs. step_cases Hi Hs.
  - apply good_go. destruct (good_counts _ _ Hg) as [Hc Hst].
    pose proof (good_jobs _ _ Hg) as Hj.
    eapply good_change; [exact Hg|done|..].
    + by eapply counts_swap; [|exact Hc].
    + by eapply counts_swap; [|exact Hst].
    + cbn. lia.
    + destruct H2 as (rest & _ & ->). auto.
    + exact (good_fresh _ _ _ Hg eq_refl).
    + apply Forall_cons in Hj as [Hj Hjs]. constructor; [exact Hj|exact Hjs].
  - by eapply Inv_waiting_cancelled.
  - by apply Inv_slotted.
  - apply good_go. eapply good_monitor_turn; [exact Hg|eassumption].
  - apply good_go. pose proof (good_fresh _ _ _ Hg eq_refl) as Hf.
    pose proof (good_jobs _ _ Hg) as Hj. apply Forall_cons in Hj as [Hj _].
    by eapply (good_job _ _ _ _ id); [exact Hg|..].
  - apply good_go, good_notify. pose proof (good_fresh _ _ _ Hg eq_refl) as Hf.
    pose proof (good_jobs _ _ Hg) as Hj. apply Forall_cons in Hj as [Hj _].
    by eapply (good_job _ _ _ _ id); [exact Hg|..].
  - by eapply Inv_monitor_ends.
  - apply good_go. by eapply good_release_count; [exact Hg|..].
  - by apply good_Draining_Inv.
  - by apply Inv_release.
Qed.

Lemma release_step_Inv p e p' : Inv p → release_step p e p' → Inv p'.
Proof.
  intros Hi Hs. step_cases Hi Hs.
  - eapply good_next; [exact Hg|]. eauto.
  - pose proof (good_jobs _ _ Hg) as Hj. apply Forall_cons in Hj as [Hj _].
    by apply (good_same _ _ (Pruning held next bytes) Hg).
  - pose proof (good_jobs _ _ Hg) as Hj. apply Forall_cons in Hj as [Hj _].
    match goal with E : evictionCandidates _ _ _ _ = _ |- _ => apply evictionCandidates_view in E;
      pose proof (good_view _ _ _ E Hg) as Hg1 end.
    by apply (good_same _ _ (Evicting held next bytes 0 ∅ (sort_slice before candidates)) Hg1).
  - match goal with E : evictionCandidates _ _ _ _ = _ |- _ => apply evictionCandidates_view in E;
      pose proof (good_view _ _ _ E Hg) as Hg1 end.
    eapply good_next; [exact Hg1|]. eauto.
  - pose proof (good_jobs _ _ Hg) as Hj. apply Forall_cons in Hj as [Hj _].
    match goal with E : evict_one _ _ _ _ _ _ = _ |- _ => apply evict_one_view in E;
      pose proof (good_view _ _ _ E Hg) as Hg1 end.
    destruct (bytes <=? freed').
    + eapply good_next; [exact Hg1|]. eauto 8.
    + by apply (good_same _ _ (Evicting held next bytes freed' dropped' rest) Hg1).
  - match goal with E : evict_one _ _ _ _ _ _ = _ |- _ => apply evict_one_view in E;
      pose proof (good_view _ _ _ E Hg) as Hg1 end.
    eapply good_next; [exact Hg1|]. eauto 8.
  - eapply good_next; [exact Hg|]. eauto 8.
  - eapply (Inv_resume_entry _ _ _ _ (Some (Resuming rest)) q); [|done|eassumption].
    by eapply good_idle; [|exact Hg].
  - by eapply good_idle; [|exact Hg].
Qed.

Lemma pstep_Inv p e p' : Inv p → pstep p e p' → Inv p'.
Proof.
  intros Hi [e' p1 Hs|p1 Hs|e' p1 Hs];
    [by eapply call_step_Inv|by eapply job_step_Inv|by eapply release_step_Inv].
Qed.

Lemma reachable_Inv p : reachable p → Inv p.
Proof.
  induction 1 as [d f|p e p' _ IH Hs]; [|by eapply pstep_Inv].
  split; try done; try (intros h; by rewrite lookup_empty); [cbn; lia|by constructor].
Qed.

(** * What steps leave alone

    Everything but a goroutine's own step only adds goroutines, and everything
    but [dropTorrent] only attaches torrents. *)
Definition extends (p p' : provider) : Prop :=
  (∃ new, tasks p' = new ++ tasks p) ∧ attached p ⊆ attached p'.

#[local] Instance extends_preorder : PreOrder extends.
Proof.
  split.
  - intros p. split; [by exists []|done].
  - intros p q r [[l Hl] Ha] [[k Hk] Hb]. split; [|by etransitivity].
    exists (k ++ l). by rewrite Hk, Hl, app_assoc.
Qed.

Definition grows {A} (m : M provider A) : Prop := ∀ p r p', m p = (r, p') → extends p p'.

Lemma extends_same p p' : tasks p' = tasks p → attached p' = attached p → extends p p'.
Proof. intros Ht Ha. split; [by exists []|by rewrite Ha]. Qed.

Lemma extends_go t p : extends p (go t p).
Proof. split; [by exists [t]|done]. Qed.

Lemma extends_go_on next p : extends p (go_on next p).
Proof. destruct next; [apply extends_go|reflexivity]. Qed.

Lemma grows_bind {A B} (m : M provider A) (f : A → M provider B) : grows m → (∀ a, grows (f a)) → grows (x ← m; f x).
Proof.
  intros Hm Hf p r p'. unfold mbind, M_bind. destruct (m p) as [[a|e] p1] eqn:E; apply Hm in E.
  - intros E2. apply Hf in E2. by etransitivity.
  - by intros [= _ <-].
Qed.

Lemma grows_ret {A} (a : A) : grows (mret a).
Proof. intros p r p' [= _ <-]. reflexivity. Qed.

Lemma grows_throw {A} e : grows (throw e : M provider A).
Proof. intros p r p' [= _ <-]. reflexivity. Qed.

Lemma grows_gets {A} (f : provider → A) : grows (gets f).
Proof. intros p r p' [= _ <-]. reflexivity. Qed.

Lemma grows_lift {A} (x : res A) : grows (lift x).
Proof. intros p r p' [= _ <-]. reflexivity. Qed.

Lemma grows_wrap {A} w (m : M provider A) : grows m → grows (wrap_err w m).
Proof.
  intros Hm p r p'. unfold wrap_err. destruct (m p) as [[a|e] p1] eqn:E; apply Hm in E; by intros [= _ <-].
Qed.

Lemma grows_files {A} (m : M (database (gmap string (list Z))) A) : grows (on_files m).
Proof. intros p r p'. unfold on_files, zoom. destruct (m _). intros [= _ <-]. by apply extends_same. Qed.

Lemma grows_jobs {A} (m : M job_files A) : grows (on_jobs m).
Proof. intros p r p'. unfold on_jobs, zoom. destruct (m _). intros [= _ <-]. by apply extends_same. Qed.

Lemma grows_attach h : grows (modify (set_attached (λ a, {[h]} ∪ a))).
Proof. intros p r p' [= _ <-]. split; [by exists []|]. cbn. set_solver. Qed.

Lemma grows_fails w e : grows (fails_with (S := provider) w e).
Proof. destruct e; [apply grows_throw|apply grows_ret]. Qed.

#[local] Hint Resolve grows_ret grows_throw grows_gets grows_lift grows_wrap grows_files grows_jobs grows_attach
  grows_fails : grow.

Ltac grow_all :=
  repeat first
    [ solve [auto with grow]
    | apply grows_bind; [|intros ?]
    | match goal with
      | |- grows (let '_ := ?x in _) => destruct x
      | |- grows (if ?b then _ else _) => destruct b
      | |- grows (match ?x with _ => _ end) => destruct x
      end ].

Lemma open_torrent_grows sw ref : grows (open_torrent metadataRoot dataRoot sw ref).
Proof. unfold open_torrent, ensureClient. grow_all. Qed.

Lemma resume_torrent_grows sw record : grows (resume_torrent metadataRoot dataRoot sw record).
Proof. unfold resume_torrent, ensureClient. grow_all. Qed.

Lemma evictionCandidates_grows ModTime allocated : grows (evictionCandidates dataRoot ModTime allocated).
Proof. unfold evictionCandidates. grow_all. Qed.

Lemma list_downloads_grow now bytes : grows (TorrentTrackDownloads metadataRoot dataRoot now bytes).
Proof.
  unfold TorrentTrackDownloads. apply grows_bind; [auto with grow|]. intros l. apply grows_bind; [|auto with grow].
  induction l as [|[id record] l IH]; [apply grows_ret|]. cbn [mmap]. apply grows_bind; [|intros y; grow_all].
  unfold list_download.
  assert (∀ r, grows (modify (put_record_at id r))) as Hp by (intros r p r' p' [= _ <-]; by apply extends_same).
  pose proof Hp as Hp'. repeat first [solve [auto with grow]|apply Hp|apply grows_bind; [|intros ?]
    |match goal with |- grows (if ?b then _ else _) => destruct b
                   | |- grows (match ?x with _ => _ end) => destruct x end].
Qed.

Lemma begin_extends now bytes r f p b p' :
  beginTrackDownloadLocked metadataRoot now bytes r f p = (b, p') → extends p p'.
Proof.
  unfold beginTrackDownloadLocked. destruct (_ <=? _); intros [= _ <-]; [by apply extends_same|].
  split; [by eexists [_]|done].
Qed.

Lemma schedule_extends now bytes r f next p :
  extends p (scheduleTrackDownloadLocked metadataRoot max now bytes r f next p).
Proof.
  unfold scheduleTrackDownloadLocked. destruct (_ <? max)%nat.
  - destruct (beginTrackDownloadLocked _ _ _ _ _ _) as [b p2] eqn:E. apply begin_extends in E.
    assert (extends p p2) as Hp2 by (etransitivity; [|exact E]; by apply extends_same).
    destruct b; etransitivity; [exact Hp2|apply (extends_go_on next)|exact Hp2|].
    split; [by eexists [_]|done].
  - etransitivity; [|apply (extends_go_on next)]. split; [by eexists [_]|done].
Qed.

Lemma queue_extends now bytes ref h path f next p :
  extends p (queueTrackDownload metadataRoot max now bytes ref h path f next p).
Proof.
  unfold queueTrackDownload. destruct (if bool_decide (_ = "") then _ else _) as [trackID q] eqn:Eq.
  assert (extends p q) as Hq.
  { destruct (bool_decide _); injection Eq as _ <-; by apply extends_same. }
  cbv zeta. destruct (_ || _); (etransitivity; [exact Hq|]); [apply (extends_go_on next)|apply schedule_extends].
Qed.

Lemma slotted_extends now bytes r f p : extends p (slotted metadataRoot now bytes r f p).
Proof.
  unfold slotted. destruct (_ || _); [split; [by eexists [_]|done]|].
  destruct (beginTrackDownloadLocked _ _ _ _ _ _) as [b p2] eqn:E. apply begin_extends in E.
  assert (extends p p2) as Hp2 by (etransitivity; [|exact E]; by apply extends_same).
  destruct b; [done|]. etransitivity; [exact Hp2|]. split; [by eexists [_]|done].
Qed.

Lemma monitor_turn_extends now bytes h id f p next p1 :
  monitor_turn metadataRoot now bytes h id f p = (next, p1) → extends p p1.
Proof. unfold monitor_turn. repeat case_match; intros [= _ <-]; by apply extends_same. Qed.

Lemma notify_extends ref now p : extends p (notifyCompleted ref now p).
Proof.
  unfold notifyCompleted. destruct (parseSourceKey _) as [[h path]|e]; [|reflexivity].
  destruct (_ || _); [reflexivity|]. split; [by eexists [_]|done].
Qed.

Lemma mark_failed_extends now id e p : extends p (markDownloadFailed metadataRoot now id e p).
Proof. unfold markDownloadFailed. case_match; [by apply extends_same|reflexivity]. Qed.

Lemma resume_entry_extends now bytes world path next p e p' :
  resume_entry metadataRoot dataRoot max now bytes world path next p = (e, p') → extends p p'.
Proof.
  unfold resume_entry. destruct (on_jobs _ p) as [r p1] eqn:E1. apply grows_jobs in E1.
  destruct r as [record|err]; [|intros [= _ <-]; etransitivity; [exact E1|apply (extends_go_on next)]].
  assert (extends p (remember_job metadataRoot record p1)) as Hr.
  { etransitivity; [exact E1|]. unfold remember_job. by repeat case_match; apply extends_same. }
  destruct (negb _); [intros [= _ <-]; etransitivity; [exact Hr|apply (extends_go_on next)]|].
  destruct (resume_torrent _ _ _ _ _) as [r p2] eqn:E2. apply resume_torrent_grows in E2.
  destruct r as [f|err]; intros [= _ <-]; (etransitivity; [exact Hr|]); (etransitivity; [exact E2|]).
  - unfold resume_schedule. destruct (_ && _); [apply schedule_extends|apply (extends_go_on next)].
  - etransitivity; [apply mark_failed_extends|apply (extends_go_on next)].
Qed.

Lemma running_attached p t q p' : running p t q → extends q p' → attached p ⊆ attached p'.
Proof. intros (rest & _ & ->) [_ Ha]. exact Ha. Qed.

Lemma running_tasks p t q p' x : running p t q → extends q p' → x ∈ tasks p → x = t ∨ x ∈ tasks p'.
Proof.
  intros (rest & Hp & ->) [[new Hn] _] Hx. rewrite Hn. cbn [tasks set_tasks].
  rewrite Hp in Hx. apply elem_of_cons in Hx as [->|Hx]; [by left|right]. apply elem_of_app. by right.
Qed.

(** The step of a goroutine extends what the others leave. *)
Lemma job_step_extends p p' : job_step p p' → ∃ t q, running p t q ∧ extends q p' ∧ ∀ held next bytes, t ≠ Pruning held next bytes.
Proof.
  intros Hs. destruct Hs; match goal with Hr : running p ?t ?q |- _ => exists t, q; split; [exact Hr|split; [|done]] end.
  - split; [by eexists [_]|done].
  - split; [by eexists [_]|done].
  - apply slotted_extends.
  - match goal with E : monitor_turn _ _ _ _ _ _ _ = _ |- _ => apply monitor_turn_extends in E as Hm end.
    etransitivity; [exact Hm|apply extends_go].
  - apply extends_go.
  - etransitivity; [apply notify_extends|apply extends_go].
  - split; [by eexists [_]|done].
  - split; [by eexists [_]|done].
  - by apply extends_same.
  - split; [by eexists [_]|done].
Qed.

Lemma release_step_extends p p' : release_step p Internal p' → ∃ t q, running p t q ∧ extends q p' ∧
  ∀ held next bytes, t = Pruning held next bytes → may_write p.
Proof.
  intros Hs. inversion Hs; subst; match goal with Hr : running p ?t ?q |- _ => exists t, q; split; [exact Hr|split; [|done]] end.
  - apply extends_go_on.
  - apply extends_go.
  - match goal with E : evictionCandidates _ _ _ _ = _ |- _ => apply evictionCandidates_grows in E end.
    etransitivity; [eassumption|apply extends_go].
  - match goal with E : evictionCandidates _ _ _ _ = _ |- _ => apply evictionCandidates_grows in E end.
    etransitivity; [eassumption|apply extends_go_on].
  - apply extends_go_on.
  - by eapply resume_entry_extends.
  - reflexivity.
Qed.

Lemma call_step_extends p p' : call_step p Internal p' →
  extends p p' ∨ ∃ t q, running p t q ∧ extends q p' ∧ ∀ held next bytes, t ≠ Pruning held next bytes.
Proof.
  intros Hs. inversion Hs; subst; try (left; by apply extends_same); try (left; apply extends_go).
  - left. etransitivity; [eapply open_torrent_grows; eassumption|apply queue_extends].
  - left. by eapply open_torrent_grows.
  - right. eexists _, _. split; [eassumption|]. split; [split; [by eexists [_]|done]|done].
  - left. apply notify_extends.
  - right. eexists _, _. split; [eassumption|]. split; [split; [by eexists [_]|done]|done].
  - left. by eapply list_downloads_grow.
Qed.

Lemma internal_attached p p' : pstep p Internal p' → attached p ⊆ attached p'.
Proof.
  intros Hs. inversion Hs as [e p1 Hc|p1 Hj|e p1 Hr]; subst.
  - apply call_step_extends in Hc as [[_ Ha]|(t & q & Hrun & He & _)]; [done|by eapply running_attached].
  - apply job_step_extends in Hj as (t & q & Hrun & He & _). by eapply running_attached.
  - apply release_step_extends in Hr as (t & q & Hrun & He & _). by eapply running_attached.
Qed.

(** * What is taken away *)

Lemma removed_file path d r d' : os_Remove (A := list Z) path d = (r, d') →
  tables d' = tables d ∨ tables d' = delete path (tables d).
Proof.
  destruct r as [u|e]; intros E; [right|left; by apply statement_clean in E].
  apply statement_Ok in E. cbn beta in E. destruct (tables d !! path); [by injection E as _ <-|done].
Qed.

Lemma evict_one_effect now c freed dropped p r p' :
  evict_one metadataRoot now c freed dropped p = (r, p') →
  (tables (files p') = tables (files p) ∧ attached p' = attached p) ∨
  (may_evict metadataRoot c p = true ∧
   (tables (files p') = tables (files p) ∨ tables (files p') = delete (ec_path c) (tables (files p))) ∧
   (attached p' = attached p ∨ attached p' = attached p ∖ {[ec_infoHash c]})).
Proof.
  unfold evict_one, mbind at 1, M_bind at 1. destruct (on_files ctx_Err p) as [r1 p1] eqn:E1.
  pose proof (on_files_kept _ ctx_Err_read_only _ _ _ E1) as K.
  assert (cache p1 = cache p) as Hc.
  { unfold on_files, zoom in E1. destruct (ctx_Err _). by injection E1 as _ <-. }
  unfold kept in K. injection K as Kf Ka Kd. clear E1 Kd.
  destruct r1 as [u|e]; [|intros [= _ <-]; left; done].
  unfold mbind at 1, M_bind at 1, gets at 1.
  assert (may_evict metadataRoot c p1 = may_evict metadataRoot c p) as -> by (unfold may_evict; by rewrite Hc, Kf).
  destruct (may_evict metadataRoot c p); cbn [negb]; [|intros [= _ <-]; left; done].
  rewrite <- Kf, <- Ka. clear Kf Ka Hc. intros E. right. split; [done|]. unfold mbind at 1, M_bind at 1 in E.
  set (p2 := if bool_decide (ec_infoHash c ∈ dropped) then p1 else dropTorrent (ec_infoHash c) p1).
  assert ((if bool_decide (ec_infoHash c ∈ dropped) then mret tt else modify (dropTorrent (ec_infoHash c))) p1
          = (Ok tt, p2)) as E2 by (unfold p2; by destruct (bool_decide _)).
  rewrite E2 in E. clear E2.
  assert (files p2 = files p1 ∧ (attached p2 = attached p1 ∨ attached p2 = attached p1 ∖ {[ec_infoHash c]})) as [Hf Ha].
  { unfold p2. destruct (bool_decide _); auto. }
  rewrite <- Hf. clearbody p2. unfold mbind at 1, M_bind at 1, try, on_files, zoom in E.
  destruct (os_Remove (ec_path c) (files p2)) as [r3 d] eqn:E3. apply removed_file in E3.
  destruct r3 as [v|e]; [|destruct (errors_Is _ e); injection E as _ <-; auto].
  injection E as _ <-. unfold forget_access, markDownloadEvicted. by repeat case_match.
Qed.

Lemma release_step_evicts p c p' :
  release_step p (Evicts c) p' →
  (tables (files p') = tables (files p) ∧ attached p' = attached p) ∨
  (may_evict metadataRoot c p = true ∧
   (tables (files p') = tables (files p) ∨ tables (files p') = delete (ec_path c) (tables (files p))) ∧
   (attached p' = attached p ∨ attached p' = attached p ∖ {[ec_infoHash c]})).
Proof.
  intros Hs.
  assert (∃ now freed dropped t q r p1, running p t q ∧ evict_one metadataRoot now c freed dropped q = (r, p1) ∧
    files p' = files p1 ∧ attached p' = attached p1) as (now & freed & dropped & t & q & r & p1 & Hrun & E & -> & ->).
  { inversion Hs; subst; do 7 eexists; (split; [eassumption|]); (split; [eassumption|]).
    - by destruct (_ <=? _); [destruct next|].
    - by destruct next. }
  destruct Hrun as (rest & _ & ->). by apply evict_one_effect in E.
Qed.

(** * What a removal may take *)

(** What belongs to a source on disk: its torrent file, its markers and its data. *)
Definition source_path (id path : string) : Prop :=
  path = JoinPath [metadataRoot; id +:+ ".torrent"] ∨ path = sourceMarkerPath metadataRoot id "paused" ∨
  path = sourceMarkerPath metadataRoot id "pinned" ∨ HasPrefix path (JoinPath [dataRoot; id] +:+ "/") = true.

(** Only what belongs to [id] has gone since [p]. *)
Record spares (id : string) (p q : provider) : Prop := {
  sp_attached : attached p ∖ {[id]} ⊆ attached q ∧ attached q ⊆ attached p;
  sp_downloads k record : downloads (download p) !! k = Some record → record_source record ≠ id →
    downloads (download q) !! k = Some record;
  sp_records : downloads (download q) ⊆ downloads (download p);
  sp_files path : ¬ source_path id path → tables (files q) !! path = tables (files p) !! path;
}.

Definition sparing (id : string) (p : provider) {A} (m : M provider A) : Prop :=
  ∀ q r q', spares id p q → m q = (r, q') → spares id p q'.

Lemma sparing_bind id p {A B} (m : M provider A) (f : A → M provider B) :
  sparing id p m → (∀ a, sparing id p (f a)) → sparing id p (x ← m; f x).
Proof.
  intros Hm Hf q r q' Hq. unfold mbind, M_bind. destruct (m q) as [[a|e] q1] eqn:E.
  - apply (Hm _ _ _ Hq) in E. by apply Hf.
  - apply (Hm _ _ _ Hq) in E. by intros [= _ <-].
Qed.

Lemma sparing_pure id p {A} (m : M provider A) : (∀ q, (m q).2 = q) → sparing id p m.
Proof. intros Hm q r q' Hq E. specialize (Hm q). rewrite E in Hm. cbn in Hm. by subst. Qed.

Lemma sparing_try id p {A} (m : M provider A) : sparing id p m → sparing id p (try m).
Proof. intros Hm q r q' Hq. unfold try. destruct (m q) as [x q1] eqn:E. intros [= _ <-]. by eapply Hm. Qed.

Lemma sparing_wrap id p {A} w (m : M provider A) : sparing id p m → sparing id p (wrap_err w m).
Proof.
  intros Hm q r q' Hq. unfold wrap_err. destruct (m q) as [[x|e] q1] eqn:E; intros [= _ <-]; by eapply Hm.
Qed.

Lemma sparing_jobs id p {A} (m : M job_files A) : sparing id p (on_jobs m).
Proof.
  intros q r q' [Ha Hd Hr Hf]. unfold on_jobs, zoom. destruct (m _) as [x d]. intros [= _ <-]. by split.
Qed.

(** The files may change as long as other sources keep theirs. *)
Definition clears (id : string) {A} (m : M (database (gmap string (list Z))) A) : Prop :=
  ∀ d r d', m d = (r, d') → ∀ path, ¬ source_path id path → tables d' !! path = tables d !! path.

Lemma sparing_files id p {A} (m : M (database (gmap string (list Z))) A) : clears id m → sparing id p (on_files m).
Proof.
  intros Hm q r q' [Ha Hd Hr Hf]. unfold on_files, zoom. destruct (m _) as [x d] eqn:E. intros [= _ <-].
  split; [done|done|done|]. intros path Hp. cbn. by rewrite (Hm _ _ _ E _ Hp), Hf.
Qed.

Lemma clears_read_only id {A} (m : M (database (gmap string (list Z))) A) : read_only tables m → clears id m.
Proof. intros Hm d r d' E path _. by rewrite (Hm _ _ _ E). Qed.

Lemma clears_bind id {A B} (m : M (database (gmap string (list Z))) A) (f : A → M _ B) :
  clears id m → (∀ a, clears id (f a)) → clears id (x ← m; f x).
Proof.
  intros Hm Hf d r d'. unfold mbind, M_bind. destruct (m d) as [[a|e] d1] eqn:E; intros E2 path Hp.
  - by rewrite (Hf _ _ _ _ E2 _ Hp), (Hm _ _ _ E _ Hp).
  - injection E2 as _ <-. by apply (Hm _ _ _ E).
Qed.

Lemma clears_remove id path : source_path id path → clears id (os_Remove (A := list Z) path).
Proof.
  intros Hp d r d' E other Ho. apply removed_file in E as [->| ->]; [done|]. apply lookup_delete_ne. by intros ->.
Qed.

Lemma clears_try id {A} (m : M (database (gmap string (list Z))) A) : clears id m → clears id (try m).
Proof. intros Hm d r d'. unfold try. destruct (m d) as [x d1] eqn:E. intros [= _ <-]. by eapply Hm. Qed.

Lemma clears_remove_if_there id w path : source_path id path → clears id (remove_if_there (A := list Z) w path).
Proof.
  intros Hp. unfold remove_if_there. apply clears_bind; [by apply clears_try, clears_remove|].
  intros [u|e]; [|destruct (errors_Is _ e)]; apply clears_read_only; auto with go.
Qed.

Lemma clears_data id :
  clears id (ExecContext (filter (λ x : string * list Z, HasPrefix x.1 (JoinPath [dataRoot; id] +:+ "/") = false))).
Proof.
  intros d [u|e] d' E path Hp; [|apply statement_clean in E; by rewrite E].
  apply ExecContext_Ok in E. rewrite E. unfold source_path in Hp.
  assert (HasPrefix path (JoinPath [dataRoot; id] +:+ "/") = false) as Hn.
  { destruct (HasPrefix _ _); [|done]. destruct Hp. eauto. }
  destruct (tables d !! path) as [b|] eqn:Eb; [by apply map_lookup_filter_Some|].
  apply map_lookup_filter_None. by left.
Qed.

Lemma sparing_records id p : sparing id p (removeDownloadsForSource metadataRoot id).
Proof.
  intros q r q' Hq. unfold removeDownloadsForSource.
  assert (∀ l, (∀ x, x ∈ l → downloads (download p) !! x.1 = Some x.2) →
    sparing id p (miter (λ x : string * downloadRecord,
      if negb (bool_decide (record_source x.2 = id)) then mret tt
      else _ ← modify (drop_record x.1);
           on_jobs (remove_if_there (λ e, Errorf "remove torrent download job: " e "") (downloadRecordPath metadataRoot x.1))) l))
    as Hm.
  { induction l as [|x l IH]; intros Hl; [by apply sparing_pure|]. cbn [miter].
    apply sparing_bind; [|intros _; apply IH; intros y Hy; apply Hl; by right].
    destruct (bool_decide _) eqn:E; cbn [negb]; [|by apply sparing_pure]. apply bool_decide_eq_true in E.
    apply sparing_bind; [|intros _; apply sparing_jobs].
    intros q1 r1 q1' [Ha Hd Hr Hf] [= _ <-]. split; [done| | |done].
    - intros k record Hk Hn. cbn. rewrite lookup_delete_ne; [by apply Hd|]. intros <-.
      rewrite (Hl x) in Hk by left. by injection Hk as <-.
    - cbn. etransitivity; [apply delete_subseteq|exact Hr]. }
  apply Hm; [|exact Hq]. intros [k x]. rewrite map_range_perm, elem_of_map_to_list. cbn. intros Hk.
  eapply lookup_weaken; [exact Hk|apply Hq].
Qed.

Lemma RemoveSource_spares id deleteData p r p' :
  RemoveSource metadataRoot dataRoot id deleteData p = (r, p') → spares id p p'.
Proof.
  assert (spares id p p) as Hp by (split; [set_solver|done|done|done]).
  intros E. revert E. apply (fun H : sparing id p (RemoveSource metadataRoot dataRoot id deleteData) => H p r p' Hp).
  unfold RemoveSource. apply sparing_bind; [apply sparing_files, clears_read_only, validateSourceID_read_only|intros _].
  apply sparing_bind; [apply sparing_files, clears_read_only, ctx_Err_read_only|intros _].
  apply sparing_bind; [by apply sparing_pure|intros []; [by apply sparing_pure|]].
  apply sparing_bind.
  { intros q r1 q1 [[Ha Hb] Hd Hr Hf] [= _ <-]. split; [cbn; set_solver|done|done|done]. }
  intros _. unfold remove_files. apply sparing_bind.
  { apply sparing_try, sparing_files, clears_remove. by left. }
  intros x. apply sparing_bind; [destruct x as [u|e]; [|destruct (errors_Is _ e)]; by apply sparing_pure|intros _].
  apply sparing_bind.
  { apply sparing_files. cbn [miter]. apply clears_bind; [apply clears_remove_if_there; right; by left|intros _].
    apply clears_bind; [apply clears_remove_if_there; right; right; by left|intros _].
    apply clears_read_only. auto with go. }
  intros _. apply sparing_bind; [apply sparing_records|intros _].
  destruct deleteData; [|by apply sparing_pure]. apply sparing_wrap, sparing_files, clears_data.
Qed.

(** C32. Everything in use is counted: whatever opens, reads, closes, resumes,
    removes, prunes and shuts down, and however the goroutines interleave, a
    torrent's [active] count is the number of goroutines and open readers that
    hold it, its [streams] count the number of open readers, the slots in use
    are those of the running jobs and never more than configured, and a download
    never has two jobs. *)
Theorem torrents_in_use_are_counted p :
  reachable p →
  (∀ h, default 0 (active (cache p) !! h) = Z.of_nat (count_of holds h (tasks p))) ∧
  (∀ h, default 0 (streams (cache p) !! h) = Z.of_nat (count_of streams_of h (tasks p))) ∧
  downloadSlots (download p) = busy_slots (tasks p) ∧ (busy_slots (tasks p) ≤ max)%nat ∧
  NoDup (omap job_id (tasks p)).
Proof. intros [Ha Hs Hsl Hm Hu _]%reachable_Inv. done. Qed.

(** C33. Nothing in use is taken away. A step that evicts a file removes only
    that file and detaches only its torrent, and only when no goroutine or open
    reader holds the torrent and it is not pinned. Removing a source that a
    goroutine or an open reader holds fails and takes nothing; a source that
    nobody holds is removed on request, pinned or not, and then nothing of
    another source goes: neither its torrent nor its downloads nor any file
    but the removed source's torrent file, markers and data. No other step
    detaches a torrent. *)
Theorem nothing_in_use_is_taken_away p e p' :
  reachable p → pstep p e p' →
  match e with
  | Internal => attached p ⊆ attached p'
  | Evicts c =>
      (tables (files p') = tables (files p) ∧ attached p' = attached p) ∨
      ((∀ t, t ∈ tasks p → holds t ≠ Some (ec_infoHash c)) ∧
       sourceMarkerExists metadataRoot (ec_infoHash c) "pinned" (tables (files p)) = false ∧
       (tables (files p') = tables (files p) ∨ tables (files p') = delete (ec_path c) (tables (files p))) ∧
       (attached p' = attached p ∨ attached p' = attached p ∖ {[ec_infoHash c]}))
  | Removes id r =>
      ((∃ t, t ∈ tasks p ∧ holds t = Some id) →
       is_ok r = false ∧ tables (files p') = tables (files p) ∧ attached p' = attached p ∧
       downloads (download p') = downloads (download p)) ∧
      attached p ∖ {[id]} ⊆ attached p' ∧
      (∀ k record, downloads (download p) !! k = Some record → record_source record ≠ id →
         downloads (download p') !! k = Some record) ∧
      (∀ path, ¬ source_path id path → tables (files p') !! path = tables (files p) !! path)
  end.
Proof.
  intros Hi%reachable_Inv Hs.
  assert (∀ h, (∃ t, t ∈ tasks p ∧ holds t = Some h) → count_of holds h (tasks p) ≠ 0%nat) as Hcount.
  { intros h (t & Ht & Hh) Hz. unfold count_of in Hz.
    assert (t ∈ List.filter (λ t, bool_decide (holds t = Some h)) (tasks p)) as Hin.
    { apply elem_of_filter_bool. split; [done|]. by apply bool_decide_eq_true. }
    by destruct (List.filter _ _); [apply elem_of_nil in Hin|]. }
  destruct e as [|c|id r].
  - by apply internal_attached.
  - inversion Hs as [? ? Hc| |? ? Hr]; subst; [by inversion Hc|]. 
    apply release_step_evicts in Hr as [?|(Hmay & Hf & Ha)]; [by left|right].
    unfold may_evict in Hmay. apply andb_true_iff in Hmay as [Hb Hpin].
    split_and!; [|by destruct (sourceMarkerExists _ _ _ _)|done|done].
    intros t Ht Hh. pose proof (counted (ec_infoHash c) p Hi) as Hn.
    assert (count_of holds (ec_infoHash c) (tasks p) ≠ 0%nat) as Hz by eauto.
    destruct (0 <? _) eqn:Hlt in Hb; [done|]. apply Z.ltb_ge in Hlt. lia.
  - inversion Hs as [? ? Hc| |? ? Hr]; subst; [|by inversion Hr]. inversion Hc; subst.
    match goal with E : RemoveSource _ _ _ _ _ = _ |- _ =>
      apply RemoveSource_spares in E as Hspares; apply RemoveSource_ok in E as [_ Hk]; [|done] end.
    split; [|by destruct Hspares as [[? _] ? _ ?]]. intros Hin. destruct (Hk (Hcount _ Hin)) as [Hr Hkept]. unfold kept in Hkept. injection Hkept as Hf Ha Hd.
    done.
Qed.

(** * Jobs come to an end *)

(** How much a goroutine still has to do before its slot, its torrent and the
    locks it holds are free; readers and completion handlers do not count. *)
Fixpoint work (t : task) : nat :=
  match t with
  | Waiting _ _ => 9
  | Slotted _ _ => 8
  | Monitoring _ _ _ => 7
  | Notifying _ _ _ => 6
  | Monitored _ _ => 5
  | Ending _ => 4
  | Draining => 1
  | Releasing _ next | Pruning _ next _ | Evicting _ next _ _ _ _ =>
      S (match next with Some t => work t | None => 0 end)
  | Opening _ _ | Resuming _ | Streaming _ _ | Handling _ => 0
  end.

Definition prunes (t : task) : bool :=
  match t with Pruning _ _ _ | Evicting _ _ _ _ _ _ => true | _ => false end.

Definition total_work (ts : list task) : nat := sum_list_with work ts.

Definition no_pruning (ts : list task) : Prop := Forall (λ t, prunes t = false) ts.

(** What goroutines do by themselves: the steps of jobs and of what follows a
    release, but no call, so that nothing closes the provider or a reader. *)
Inductive own_step (p : provider) : provider → Prop :=
  | own_job p' : job_step p p' → own_step p p'
  | own_released held next q : running p (Releasing held next) q → own_step p (go_on next q).

Lemma own_step_pstep p p' : own_step p p' → pstep p Internal p'.
Proof. intros [? ?|? ? ? ?]; [by apply pstep_job|]. apply pstep_release. by eapply step_released. Qed.

(** One step that leaves less to do. *)
Definition progress (p : provider) : Prop :=
  ∃ p', own_step p p' ∧ no_pruning (tasks p') ∧ (total_work (tasks p') < total_work (tasks p))%nat.

Lemma total_work_perm ts ts' : ts ≡ₚ ts' → total_work ts = total_work ts'.
Proof. unfold total_work. induction 1; cbn; lia. Qed.

Lemma running_work p t q : running p t q → total_work (tasks p) = (work t + total_work (tasks q))%nat ∧
  (no_pruning (tasks p) → no_pruning (tasks q) ∧ prunes t = false).
Proof.
  intros (rest & Hp & ->). cbn [tasks set_tasks]. rewrite (total_work_perm _ _ Hp). split; [done|].
  unfold no_pruning. rewrite Hp. intros [? ?]%Forall_cons. done.
Qed.

Lemma progress_by p t q p' ts :
  running p t q → no_pruning (tasks p) → own_step p p' → tasks p' = ts ++ tasks q →
  no_pruning ts → (total_work ts < work t)%nat → progress p.
Proof.
  intros Hr Hn Hs Ht Hts Hw. apply running_work in Hr as [Hwork Hq]. destruct (Hq Hn) as [Hnq _].
  exists p'. split; [done|]. rewrite Ht, Hwork. unfold no_pruning, total_work in *. rewrite Forall_app, sum_list_with_app.
  split; [done|lia].
Qed.

Lemma in_running p t : t ∈ tasks p → ∃ q, running p t q.
Proof. intros (l & k & E)%list_elem_of_split. exists (set_tasks (l ++ k) p), (l ++ k). split; [|done]. rewrite E. by rewrite Permutation_middle. Qed.


Lemma slotted_tasks now bytes r f p :
  ∃ t, tasks (slotted metadataRoot now bytes r f p) = [t] ++ tasks p ∧ (work t < 8)%nat ∧ prunes t = false.
Proof.
  unfold slotted. destruct (_ || _); [eexists; split; [reflexivity|split; [cbn; lia|done]]|].
  unfold beginTrackDownloadLocked. destruct (_ <=? _); (eexists; split; [reflexivity|split; [cbn; lia|done]]).
Qed.

Lemma monitor_last_turn now h id f p :
  ∃ t p1, monitor_turn metadataRoot now (tf_Length f) h id f p = (Some t, p1) ∧ tasks p1 = tasks p ∧
    (work t < 7)%nat ∧ prunes t = false.
Proof.
  unfold monitor_turn. rewrite Z.min_id, Z.leb_refl.
  destruct (downloads _ !! id); do 2 eexists; (split; [reflexivity|split_and!; [done|cbn; lia|done]]).
Qed.

Lemma notify_tasks ref now p : ∃ ts, tasks (notifyCompleted ref now p) = ts ++ tasks p ∧ total_work ts = 0%nat ∧ no_pruning ts.
Proof.
  unfold notifyCompleted, no_pruning. destruct (parseSourceKey _) as [[h path]|e]; [|by exists []].
  destruct (_ || _); [by exists []|]. exists [Handling h]. split_and!; [done|done|by repeat constructor].
Qed.

(** A [release] ends at once when nothing has to be pruned. *)
Lemma progress_releasing p held next :
  no_pruning (tasks p) → Inv p → Releasing held next ∈ tasks p → progress p.
Proof.
  intros Hn [_ _ _ _ _ Hj] Hin. rewrite Forall_forall in Hj. specialize (Hj _ Hin). cbn in Hj.
  destruct (in_running _ _ Hin) as [q Hq].
  assert (own_step p (go_on next q)) as Hs by (by eapply own_released).
  destruct next as [t|].
  - eapply (progress_by _ _ _ _ [t] Hq Hn Hs); [done| |unfold total_work; cbn; lia].
    destruct t; try done; by repeat constructor.
  - by eapply (progress_by _ _ _ _ [] Hq Hn Hs); [|constructor|cbn; lia].
Qed.

(** With [downloadMu] free every job but a waiting one has a step. *)
Lemma progress_job p t :
  no_pruning (tasks p) → may_lock p → t ∈ tasks p → uses_slot t = true → (∀ held next, t ≠ Releasing held next) →
  progress p.
Proof.
  intros Hn Hl Hin Hu Hr. destruct (in_running _ _ Hin) as [q Hq].
  assert (prunes t = false) as Hp by (unfold no_pruning in Hn; rewrite Forall_forall in Hn; by apply Hn).
  destruct t as [| r f | h id f | h id record | h id | h | | | | | | | |]; try done.
  - destruct (slotted_tasks 0 0 r f q) as (t & Ht & Hw & Hpt).
    eapply (progress_by _ _ _ _ [t] Hq Hn); [apply own_job; by eapply step_slotted|exact Ht|by repeat constructor|].
    unfold total_work. cbn. lia.
  - destruct (monitor_last_turn 0 h id f q) as (t & p1 & E & Ht & Hw & Hpt).
    eapply (progress_by _ _ _ _ [t] Hq Hn); [apply own_job; by eapply step_monitor| |by repeat constructor|].
    + cbn. by rewrite Ht.
    + unfold total_work. cbn. lia.
  - destruct (notify_tasks (dr_Source record) 0 q) as (ts & Ht & Hw & Hpt).
    eapply (progress_by _ _ _ _ (Monitored h id :: ts) Hq Hn);
      [apply own_job; by eapply step_notify| |by constructor|].
    + cbn. by rewrite Ht.
    + unfold total_work in *. cbn. lia.
  - eapply (progress_by _ _ _ _ [_] Hq Hn); [apply own_job; by eapply step_monitored|done|by repeat constructor|].
    unfold total_work. cbn. lia.
  - eapply (progress_by _ _ _ _ [_] Hq Hn); [apply own_job; by eapply step_ending|done|by repeat constructor|].
    unfold total_work. cbn. lia.
  - eapply (progress_by _ _ _ _ [] Hq Hn); [apply own_job; by eapply step_drain|done|constructor|cbn; lia].
  - by edestruct Hr.
Qed.

Lemma progress_waiting p r f :
  no_pruning (tasks p) → (downloadSlots (download p) < max)%nat → Waiting r f ∈ tasks p → progress p.
Proof.
  intros Hn Hs Hin. destruct (in_running _ _ Hin) as [q Hq].
  eapply (progress_by _ _ _ _ [_] Hq Hn); [apply own_job; by eapply step_slot|done|by repeat constructor|].
  unfold total_work. cbn. lia.
Qed.

Lemma some_task (f : task → bool) (ts : list task) : (∃ t, t ∈ ts ∧ f t = true) ∨ (∀ t, t ∈ ts → f t = false).
Proof.
  induction ts as [|t ts [(x & Hx & Hf)|IH]]; [right; by intros t ?%elem_of_nil|left; exists x; split; [by right|done]|].
  destruct (f t) eqn:E; [left; exists t; split; [by left|done]|right]. intros x [->|Hx]%elem_of_cons; auto.
Qed.

Lemma work_or_progress p : (0 < max)%nat → Inv p → no_pruning (tasks p) → total_work (tasks p) = 0%nat ∨ progress p.
Proof.
  intros Hm Hi Hn.
  assert (∀ t, t ∈ tasks p → prunes t = false) as Hnp by (unfold no_pruning in Hn; by rewrite Forall_forall in Hn).
  destruct (some_task (λ t, match t with Releasing _ _ => true | _ => false end) (tasks p)) as [(t & Hin & Ht)|Hnr].
  { destruct t; try done. right. by eapply progress_releasing. }
  assert (may_lock p) as Hl.
  { unfold may_lock. apply Forall_forall. intros t Hin. specialize (Hnr _ Hin). specialize (Hnp _ Hin). by destruct t. }
  destruct (some_task uses_slot (tasks p)) as [(t & Hin & Ht)|Hnu].
  { right. eapply progress_job; eauto. intros held next ->. by apply Hnr in Hin. }
  destruct (some_task (λ t, match t with Waiting _ _ => true | _ => false end) (tasks p)) as [(t & Hin & Ht)|Hnw].
  { destruct t as [r f| | | | | | | | | | | | |]; try done. right. eapply (progress_waiting _ r f); [done| |done].
    destruct Hi as [_ _ -> _ _ _]. unfold busy_slots. destruct (List.filter uses_slot (tasks p)) as [|x l] eqn:E; [cbn; lia|].
    assert (x ∈ List.filter uses_slot (tasks p)) as [Hx Hu]%elem_of_filter_bool by (rewrite E; by left).
    by rewrite (Hnu _ Hx) in Hu. }
  left. unfold total_work. clear -Hnr Hnu Hnw Hnp. induction (tasks p) as [|t ts IH]; [done|]. cbn.
  rewrite IH by (intros ? ?; first [apply Hnr|apply Hnu|apply Hnw|apply Hnp]; by right).
  specialize (Hnr t ltac:(by left)). specialize (Hnu t ltac:(by left)). specialize (Hnw t ltac:(by left)).
  specialize (Hnp t ltac:(by left)). by destruct t.
Qed.

(** C34. Jobs come to an end and give everything back: from every reachable
    state in which nothing is being pruned, the goroutines can go on by
    themselves, the bytes arriving and nobody calling or closing anything, until
    no job and no release is left; so a job that is not cancelled notices that
    its file is complete. Then every slot is free again, and only open readers
    and completion handlers still hold a torrent. *)
Theorem jobs_give_everything_back p :
  (0 < max)%nat → reachable p → no_pruning (tasks p) →
  ∃ p', rtc own_step p p' ∧ downloadSlots (download p') = 0%nat ∧
    ∀ t, t ∈ tasks p' → job_id t = None ∧ uses_slot t = false ∧
      (is_Some (holds t) → (∃ h key, t = Streaming h key) ∨ ∃ h, t = Handling h).
Proof.
  intros Hm Hr%reachable_Inv Hn. remember (total_work (tasks p)) as w eqn:Hw. revert p Hr Hn Hw.
  induction w as [w IH] using lt_wf_ind. intros p Hi Hn Hw.
  destruct (work_or_progress p Hm Hi Hn) as [Hz|(p1 & Hs & Hn1 & Hlt)].
  - exists p. split; [constructor|].
    assert (∀ t, t ∈ tasks p → work t = 0%nat) as Hzero.
    { intros t Hin. apply (sum_list_with_in _ work) in Hin. unfold total_work in Hz. lia. }
    assert (∀ t, t ∈ tasks p → job_id t = None ∧ uses_slot t = false ∧
      (is_Some (holds t) → (∃ h key, t = Streaming h key) ∨ ∃ h, t = Handling h)) as Ht.
    { intros t Hin. specialize (Hzero _ Hin). destruct t; cbn in Hzero; try lia; split_and!; try done; try (by intros []);
        intros _; eauto. }
    split; [|done]. destruct Hi as [_ _ -> _ _ _]. unfold busy_slots.
    destruct (List.filter uses_slot (tasks p)) as [|x l] eqn:E; [done|].
    assert (x ∈ List.filter uses_slot (tasks p)) as [Hx Hu]%elem_of_filter_bool by (rewrite E; by left).
    destruct (Ht _ Hx) as (_ & Hf & _). congruence.
  - destruct (IH (total_work (tasks p1))) with (p := p1) as (p' & Hrtc & Hd); [lia|by eapply pstep_Inv, own_step_pstep|done|done|].
    exists p'. split; [|done]. by eapply rtc_l.
Qed.

(** * Pruning while a lock is held *)


(** A goroutine that holds [operation] for reading and calls [Evict], which
    waits until nobody does, never gets on. *)
Lemma blocked_step p e p' held next bytes :
  l_operation held = true → Pruning held next bytes ∈ tasks p → pstep p e p' → Pruning held next bytes ∈ tasks p'.
Proof.
  intros Hl Hin Hs.
  assert (¬ may_write p) as Hw.
  { unfold may_write. rewrite Forall_forall. intros Hall. destruct (Hall _ Hin) as [_ Hr]. cbn in Hr. congruence. }
  destruct Hs as [e p' Hc|p' Hj|e p' Hr].
  - destruct e as [|c|id r]; [|by inversion Hc|inversion Hc; subst; done].
    apply call_step_extends in Hc as [[[new ->] _]|(t & q & Hrun & He & Ht)]; [apply elem_of_app; by right|].
    destruct (running_tasks _ _ _ _ _ Hrun He Hin) as [E|?]; [by destruct (Ht held next bytes)|done].
  - apply job_step_extends in Hj as (t & q & Hrun & He & Ht).
    destruct (running_tasks _ _ _ _ _ Hrun He Hin) as [E|?]; [by destruct (Ht held next bytes)|done].
  - destruct e as [|c|id r]; [| |by inversion Hr].
    + apply release_step_extends in Hr as (t & q & Hrun & He & Ht).
      destruct (running_tasks _ _ _ _ _ Hrun He Hin) as [E|?]; [|done]. by destruct Hw; eapply Ht.
    + inversion Hr; subst; match goal with Hrun : running _ _ ?q, E : evict_one _ _ _ _ _ ?q = _ |- _ =>
        apply evict_one_view, view_inv in E as (_ & Et & _); destruct Hrun as (others & Hp & ->);
        rewrite Hp in Hin; apply elem_of_cons in Hin as [?|Hin]; [done|] end;
        [destruct (_ <=? _); [destruct next0|]|destruct next0]; cbn; rewrite ?Et, ?elem_of_cons; auto.
Qed.

Lemma blocked_for_ever p p' held next bytes :
  l_operation held = true → Pruning held next bytes ∈ tasks p → rtc (λ p p', ∃ e, pstep p e p') p p' →
  Pruning held next bytes ∈ tasks p'.
Proof. intros Hl Hin Hr. induction Hr as [|p q p' [e Hs] _ IH]; [done|]. apply IH. by eapply blocked_step. Qed.
End swarm.

(** * A provider at work *)

#[local] Existing Instance stable_runtime.
#[local] Existing Instance ascii_unicode.
#[local] Existing Instance ascii_norm.

Definition song_hash : string := "0123456789abcdef0123456789abcdef01234567".
Definition song_ref : SourceRef := mkRef torrent_Name (song_hash +:+ "/a.flac").
Definition song_file : tfile := mkTFile 1 10.
Definition song_swarm : swarm :=
  mkSwarm None (Ok (song_hash, Ok (mkInfo "a.flac" [([], 10)]))) None None None [("a.flac", song_file)] None.

(** One torrent is known, the handlers are set, and its file is opened. *)
Definition idle_provider : provider :=
  let p := New (mkDatabase ∅ []) (mkDatabase {["/m/" +:+ song_hash +:+ ".torrent" := []]} []) in
  set_cache (λ c, mkCache (c_files c) (active c) (streams c) (lastAccessed c) true)
    (set_completion (λ c, mkCompletion (c_trackIDs c) (completed c) true (closing c)) p).
Definition opened_torrent : res (string * string * tfile) * provider :=
  open_torrent "/m" "/d" song_swarm song_ref idle_provider.
Definition after_open (bytes : Z) : provider :=
  queueTrackDownload "/m" 2 0 bytes song_ref song_hash "a.flac" song_file
    (Some (Opening song_hash (SourceKey song_ref))) opened_torrent.2.

Lemma opened_torrent_ok : opened_torrent = (Ok (song_hash, "a.flac", song_file), opened_torrent.2).
Proof. vm_compute. reflexivity. Qed.

Lemma after_open_reachable bytes : reachable "/m" "/d" 2 (after_open bytes).
Proof.
  assert (reachable "/m" "/d" 2 idle_provider) as Hi.
  { eapply reach_step; [apply reach_new|]. apply pstep_call. apply (step_handlers _ _ _ _ true true). }
  eapply reach_step; [exact Hi|]. apply pstep_call.
  eapply (step_open _ _ _ _ song_swarm 0 bytes song_ref); [| |exact opened_torrent_ok]; by constructor.
Qed.

Lemma after_open_tasks :
  tasks (after_open 5) = [Opening song_hash (SourceKey song_ref);
    Monitoring song_hash (StableID "download" [torrent_Name; SourceKey song_ref]) song_file].
Proof. reflexivity. Qed.

Lemma torrents_in_use_are_counted_witness :
  default 0 (active (cache (after_open 5)) !! song_hash) = 1 ∧ downloadSlots (download (after_open 5)) = 1%nat.
Proof.
  destruct (torrents_in_use_are_counted "/m" "/d" 2 (after_open 5) (after_open_reachable 5)) as (Ha & _ & Hs & _).
  rewrite Ha, Hs, after_open_tasks. split; reflexivity.
Defined.

(** The reader of the file is given out. *)
Definition streaming_provider : provider :=
  go (Streaming song_hash (SourceKey song_ref))
    (retainStream song_hash (SourceKey song_ref) 0 (set_tasks (tail (tasks (after_open 5))) (after_open 5))).

Lemma streaming_reachable : reachable "/m" "/d" 2 streaming_provider.
Proof.
  eapply reach_step; [apply (after_open_reachable 5)|]. apply pstep_call.
  eapply (step_opened _ _ _ _ 0 song_hash (SourceKey song_ref)). exists (tail (tasks (after_open 5))).
  rewrite after_open_tasks. done.
Qed.

Lemma streaming_tasks : tasks streaming_provider =
  [Streaming song_hash (SourceKey song_ref);
   Monitoring song_hash (StableID "download" [torrent_Name; SourceKey song_ref]) song_file].
Proof. unfold streaming_provider. cbn [go retainStream set_cache set_tasks tasks]. by rewrite after_open_tasks. Qed.

Lemma streaming_is_free : may_write streaming_provider ∧ may_lock streaming_provider.
Proof. unfold may_write, may_lock. rewrite streaming_tasks. split; by repeat constructor. Qed.

Lemma nothing_in_use_is_taken_away_witness :
  let '(r, p') := RemoveSource "/m" "/d" song_hash true streaming_provider in
  attached p' = attached streaming_provider ∧ is_ok r = false.
Proof.
  destruct (RemoveSource "/m" "/d" song_hash true streaming_provider) as [r p'] eqn:E.
  assert (pstep "/m" "/d" 2 streaming_provider (Removes song_hash r) p') as Hs.
  { apply pstep_call. eapply (step_remove _ _ _ _ song_hash true); [apply streaming_is_free..|exact E]. }
  assert (∃ t, t ∈ tasks streaming_provider ∧ holds t = Some song_hash) as Hin.
  { exists (Streaming song_hash (SourceKey song_ref)). rewrite streaming_tasks. split; [by left|done]. }
  destruct (nothing_in_use_is_taken_away "/m" "/d" 2 _ _ _ streaming_reachable Hs) as [Hheld _].
  destruct (Hheld Hin) as (Hr & _ & Ha & _).
  split; [exact Ha|exact Hr].
Defined.

Lemma jobs_give_everything_back_witness :
  ∃ p', rtc (own_step "/m" 2) (after_open 5) p' ∧ downloadSlots (download p') = 0%nat.
Proof.
  assert (no_pruning (tasks (after_open 5))) as Hn by (rewrite after_open_tasks; by repeat constructor).
  destruct (jobs_give_everything_back "/m" "/d" 2 (after_open 5) ltac:(lia) (after_open_reachable 5) Hn)
    as (p' & Hr & Hs & _).
  by exists p'.
Defined.

(** Opening a file that is complete already releases its torrent while [open]
    still holds [operation] and [downloadMu]; with the cache over its capacity
    the handler then calls [Evict], which waits for [operation] for ever, and
    every later call that needs one of the two locks waits with it. *)
Lemma opening_a_cached_file_can_block_for_ever :
  ∃ p next, reachable "/m" "/d" 2 p ∧
    ∀ p', rtc (λ p p', ∃ e, pstep "/m" "/d" 2 p e p') p p' →
      Pruning (mkLocks true true) next 1 ∈ tasks p' ∧ ¬ may_write p' ∧ ¬ may_lock p'.
Proof.
  set (next := Some (Opening song_hash (SourceKey song_ref))).
  assert (tasks (after_open 10) = [Releasing (mkLocks true true) next]) as Ht by reflexivity.
  exists (go (Pruning (mkLocks true true) next 1) (set_tasks [] (after_open 10))), next. split.
  - eapply reach_step; [apply (after_open_reachable 10)|]. apply pstep_release.
    eapply (step_prune _ _ _ _ (mkLocks true true) next 1); [|reflexivity|lia]. exists []. by rewrite Ht.
  - intros p' Hr. apply (blocked_for_ever _ _ _ _ _ (mkLocks true true) next 1) in Hr; [|done|by left].
    split; [done|]. unfold may_write, may_lock. rewrite !Forall_forall.
    split; intros Hall; [by destruct (Hall _ Hr)|by specialize (Hall _ Hr)].
Qed.
