(* ===== verification/TorrentManage.v ===== *)
(** What the torrent provider offers to the services beside its jobs
    ([torrent/provider.go]): resolving a source, transfer limits, the usage of
    its cache, its transfers, and managing sources.  The limits it keeps and
    those the SQLite catalog stores discharge the interface [UpdateLimits] is
    proved against. *)
From stdpp Require Import base gmap strings list.
From Stdlib Require Import ZArith Lia Ascii.
From S2P Require Import Prelude GoStrings Sql Paths Music MediaCache Library Services TorrentNames TorrentFiles.
From S2P Require Import TorrentJobs.

Open Scope Z_scope.
Open Scope go_scope.

(** [domain.SourceTransfer]. *)
Record SourceTransfer := mkTransfer {
  tr_Provider : string;
  tr_ID : string;
  tr_Name : string;
  tr_CompletedBytes : Z;
  tr_TotalBytes : Z;
  tr_DownloadedBytes : Z;
  tr_UploadedBytes : Z;
  tr_DownloadLimit : Z;
  tr_UploadLimit : Z;
  tr_Peers : Z;
  tr_ActivePeers : Z;
  tr_ConnectedSeeders : Z;
  tr_ActiveStreams : Z;
  tr_Seeding : bool;
}.

(** [domain.ManagedSource]. *)
Record ManagedSource := mkManaged {
  ms_Provider : string;
  ms_ID : string;
  ms_Name : string;
  ms_Tracks : Z;
  ms_Attached : bool;
  ms_Paused : bool;
  ms_Pinned : bool;
}.

(** The rest of [Provider]: the artwork it knows, the limits of its options,
    whether the client runs and what its limiters were last set to ([None] is
    [rate.Inf]), and the attached torrents whose data is disallowed. *)
Record manager := mkManager {
  mg_provider : provider;
  mg_artworks : gmap string SourceRef;
  mg_limits : TransferLimits;
  mg_running : bool;
  mg_rates : option Z * option Z;
  mg_disallowed : gset string;
}.

Definition set_provider (p : provider) (m : manager) : manager :=
  mkManager p (mg_artworks m) (mg_limits m) (mg_running m) (mg_rates m) (mg_disallowed m).
Definition set_limits (l : TransferLimits) (rates : option Z * option Z) (m : manager) : manager :=
  mkManager (mg_provider m) (mg_artworks m) l (mg_running m) rates (mg_disallowed m).
Definition set_disallowed (f : gset string → gset string) (m : manager) : manager :=
  mkManager (mg_provider m) (mg_artworks m) (mg_limits m) (mg_running m) (mg_rates m) (f (mg_disallowed m)).

Definition on_provider {A} (f : M provider A) : M manager A := zoom mg_provider set_provider f.

(** * Transfer limits *)

(** [setRateLimit] on a limiter that is there. *)
Definition rate_of (bytesPerSecond : Z) : option Z := if 0 <? bytesPerSecond then Some bytesPerSecond else None.

(** [if err := ctx.Err(); err != nil { return err }] of a call that uses no
    disk. *)
Definition check_context {S} (ctx : option error) : M S unit :=
  match ctx with Some e => throw e | None => mret tt end.

Definition TorrentLimits (ctx : option error) : M manager TransferLimits :=
  _ ← check_context ctx;
  gets mg_limits.

Definition SetTransferLimits (ctx : option error) (limits : TransferLimits) : M manager unit :=
  _ ← check_context ctx;
  if (UploadBytesPerSecond limits <? 0) || (DownloadBytesPerSecond limits <? 0)
  then throw (Plain "transfer limits must be non-negative")
  else modify (λ m, set_limits limits
         (if mg_running m
          then (rate_of (UploadBytesPerSecond limits), rate_of (DownloadBytesPerSecond limits))
          else mg_rates m) m).

(** * Sources *)

Section manage.
Context `{Runtime} `{Unicode} `{TextNorm} (metadataRoot dataRoot : string) (max : nat).

(** [open]: the torrent, the job and the reader, whose bytes are [contents]. *)
Definition open (sw : swarm) (now : time) (bytes : Z) (contents : list Z) (ref : SourceRef)
    : M provider ResolvedSource :=
  '(infoHash, logicalPath, file) ← open_torrent metadataRoot dataRoot sw ref;
  _ ← modify (queueTrackDownload metadataRoot max now bytes ref infoHash logicalPath file None);
  _ ← modify (λ p, go (Streaming infoHash (SourceKey ref)) (retainStream infoHash (SourceKey ref) now p));
  mret (mkResolved contents (Base logicalPath) (torrent_contentType logicalPath) (tf_Length file) time_zero
          (SourceKey ref)).

Definition Resolve (sw : swarm) (now : time) (bytes : Z) (contents : list Z) (trackID : string) (ref : SourceRef)
    : M provider ResolvedSource :=
  if negb (bool_decide (Provider ref = torrent_Name))
  then throw (Plain ("cannot resolve provider " +:+ Provider ref))
  else
    _ ← modify (λ p, if bool_decide (trackID = "") then p else registerTrack (SourceKey ref) trackID p);
    open sw now bytes contents ref.

Definition OpenArtwork (sw : swarm) (now : time) (bytes : Z) (contents : list Z) (id : string)
    : M manager ResolvedSource :=
  found ← gets (λ m, mg_artworks m !! id);
  match found with
  | None => throw (Sentinel ErrNotFound)
  | Some ref => on_provider (open sw now bytes contents ref)
  end.

(** [CacheUsage]: what the walk over the regular files below the data directory
    adds up; [allocated] is the disk space of a file. *)
Definition add_usage (allocated : string → Z) (usage : CacheUsage) (path : string) : CacheUsage :=
  let size := usage_Size usage +% allocated path in
  if HasPrefix (Base path) ".torrent.db"
  then mkUsage (usage_Name usage) (usage_Entries usage) (usage_PartialEntries usage) size
  else mkUsage (usage_Name usage) (usage_Entries usage +% 1)
         (if HasSuffix (Base path) ".part" then usage_PartialEntries usage +% 1 else usage_PartialEntries usage) size.

Definition data_paths (t : gmap string (list Z)) : list string :=
  List.filter (λ path, HasPrefix path (dataRoot +:+ "/")) (sort_stable str_ltb (map fst (map_to_list t))).

Definition TorrentCacheUsage (allocated : string → Z) : M provider CacheUsage :=
  paths ← wrap_err (λ e, Errorf "inspect torrent cache: " e "") (on_files (QueryContext data_paths));
  mret (fold_left (add_usage allocated) paths (mkUsage torrent_Name 0 0 0)).

(** [Transfers]; [torrents] is what the client says of the torrents it has, with
    limits and streams still empty. *)
Definition transfer_less (x y : SourceTransfer) : bool :=
  if bool_decide (tr_Name x = tr_Name y) then str_ltb (tr_ID x) (tr_ID y) else str_ltb (tr_Name x) (tr_Name y).

Definition with_limits_and_streams (limits : TransferLimits) (counts : gmap string Z) (t : SourceTransfer)
    : SourceTransfer :=
  mkTransfer torrent_Name (tr_ID t) (tr_Name t) (tr_CompletedBytes t) (tr_TotalBytes t) (tr_DownloadedBytes t)
    (tr_UploadedBytes t) (DownloadBytesPerSecond limits) (UploadBytesPerSecond limits) (tr_Peers t)
    (tr_ActivePeers t) (tr_ConnectedSeeders t) (default 0 (counts !! tr_ID t)) (tr_Seeding t).

Definition Transfers (ctx : option error) (torrents : list SourceTransfer) : M manager (list SourceTransfer) :=
  running ← gets mg_running;
  if negb running then mret []
  else
    counts ← gets (λ m, streams (cache (mg_provider m)));
    limits ← TorrentLimits ctx;
    _ ← (if bool_decide (torrents = []) then mret tt else check_context ctx);
    mret (sort_slice transfer_less (map (with_limits_and_streams limits counts) torrents)).

(** [ManagedSources]; [decode] is what [metainfo.Load] and [UnmarshalInfo] make
    of a file. *)
Definition torrent_entries (t : gmap string (list Z)) : list string :=
  List.filter (λ path, HasPrefix path (metadataRoot +:+ "/") && EqualFold (Ext path) ".torrent"
                       && bool_decide (JoinPath [metadataRoot; Base path] = path))
    (sort_stable str_ltb (map fst (map_to_list t))).

Definition on_registries {A} (f : M (registries * database (gmap string (list Z))) A) : M manager A :=
  zoom (λ m, (mkRegistries (mg_artworks m) (c_trackIDs (completion (mg_provider m))) (c_files (cache (mg_provider m))),
              files (mg_provider m)))
    (λ x m, mkManager
       (set_files x.2
          (set_cache (λ c, mkCache (TorrentFiles.cacheFiles x.1) (active c) (streams c) (lastAccessed c) (onCacheChanged c))
             (set_completion (λ c, mkCompletion (TorrentFiles.trackIDs x.1) (completed c) (onCompleted c) (closing c))
                (mg_provider m))))
       (artworks x.1) (mg_limits m) (mg_running m) (mg_rates m) (mg_disallowed m)) f.

Definition managed_source (decode : list Z → res (string * torrent_info)) (path : string) : M manager ManagedSource :=
  _ ← on_provider (on_files ctx_Err);
  contents ← wrap_err (λ e, Errorf ("open torrent metadata " +:+ Base path +:+ ": ") e "")
    (on_provider (on_files (os_ReadFile path)));
  catalog ← wrap_err (λ e, Errorf ("read torrent metadata " +:+ Base path +:+ ": ") e "")
    (on_registries (ReadCatalog dataRoot (decode contents)));
  let id := tc_InfoHash catalog in
  gets (λ m,
    let p := mg_provider m in
    mkManaged torrent_Name id (tc_Name catalog) (Z.of_nat (length (tc_Tracks catalog)))
      (bool_decide (id ∈ attached p))
      (sourceMarkerExists metadataRoot id "paused" (tables (files p)))
      (sourceMarkerExists metadataRoot id "pinned" (tables (files p)))).

Definition managed_less (x y : ManagedSource) : bool :=
  if bool_decide (ms_Name x = ms_Name y) then str_ltb (ms_ID x) (ms_ID y) else str_ltb (ms_Name x) (ms_Name y).

Definition ManagedSources (decode : list Z → res (string * torrent_info)) : M manager (list ManagedSource) :=
  entries ← wrap_err (λ e, Errorf "read torrent metadata directory: " e "")
    (on_provider (on_files (QueryContext torrent_entries)));
  result ← mmap (managed_source decode) entries;
  mret (sort_slice managed_less result).

(** [setSourcePaused]: an attached torrent stops or takes up its transfers. *)
Definition setSourcePaused (id : string) (paused : bool) : M manager unit :=
  _ ← on_provider (on_files (validateSourceID metadataRoot id));
  _ ← on_provider (on_files (setSourceMarker metadataRoot id "paused" paused));
  modify (λ m,
    if negb (mg_running m) || negb (bool_decide (id ∈ attached (mg_provider m))) then m
    else set_disallowed (λ s, if paused then {[id]} ∪ s else s ∖ {[id]}) m).

Definition PauseSource (id : string) : M manager unit := setSourcePaused id true.

Definition ResumeSource (now : time) (bytes : tfile → Z) (world : downloadRecord → swarm) (id : string)
    : M manager unit :=
  _ ← setSourcePaused id false;
  on_provider (ResumeTrackDownloads metadataRoot dataRoot max now bytes world).
End manage.

(** * The limits of the catalog and of the provider *)

(** The catalog and the provider side by side, as [cmd/peerphonic] wires them. *)
Definition limits_app : Type := Library.db * manager.

#[export] Instance torrent_limit_store : TransferLimitStore limits_app := {|
  limits_Load := zoom fst (λ d w, (d, w.2)) (x ← Library.TransferLimits; mret (mkLimits x.1 x.2));
  limits_Save l := zoom fst (λ d w, (d, w.2))
    (Library.SaveTransferLimits (UploadBytesPerSecond l, DownloadBytesPerSecond l));
|}.

#[export] Instance torrent_limit_controller (ctx : option error) : TransferLimitController limits_app := {|
  ctl_Limits := zoom snd (λ m w, (w.1, m)) (TorrentLimits ctx);
  ctl_SetLimits l := zoom snd (λ m w, (w.1, m)) (SetTransferLimits ctx l);
|}.

Definition stored_limits (w : limits_app) : option TransferLimits :=
  (λ x : Z * Z, mkLimits x.1 x.2) <$> transfer_limits (tables w.1).

(** The SQLite table and the running provider keep what the settings service
    relies on. *)
#[export] Instance torrent_limits_lawful (ctx : option error) :
  @TransferLimitLaws limits_app torrent_limit_store (torrent_limit_controller ctx).
Proof.
  refine {| saved_limits := stored_limits; active_limits w := mg_limits w.2 |}.
  - intros [d m] r w'. unfold limits_Load, torrent_limit_store, Library.TransferLimits, zoom, mbind, M_bind, wrap_err.
    cbn [fst snd]. destruct (QueryContext transfer_limits d) as [[x|e] d1] eqn:E.
    + apply QueryContext_Ok in E as [-> E]. unfold stored_limits.
      destruct (transfer_limits (tables d)) as [x|] eqn:Hx; intros [= <- <-]; cbn; by rewrite E, Hx.
    + intros [= <- <-]. unfold stored_limits. cbn.
      pose proof (QueryContext_Err _ _ _ _ ErrNotFound E ltac:(done)) as Hn.
      apply QueryContext_read_only in E. rewrite E, Hn. done.
  - intros l [d m] r w'. unfold limits_Save, torrent_limit_store, SaveTransferLimits, zoom, wrap_err.
    cbn [fst snd]. destruct (statement _ d) as [[u|e] d1] eqn:E; intros [= <- <-]; (split; [done|]);
      unfold stored_limits; cbn [fst is_ok].
    + apply statement_Ok in E. cbn [fst snd] in E. destruct (_ || _); [done|]. injection E as _ <-.
      cbn. by destruct l.
    + apply statement_clean in E. by rewrite E.
  - intros [d m] r w'. unfold ctl_Limits, torrent_limit_controller, TorrentLimits, zoom, check_context.
    destruct ctx; intros [= <- <-]; done.
  - intros l [d m] r w'. unfold ctl_SetLimits, torrent_limit_controller, SetTransferLimits, zoom, check_context.
    destruct ctx as [e|]; [intros [= <- <-]; done|]. unfold mbind, M_bind, mret, M_ret. cbn [snd].
    destruct (_ || _); intros [= <- <-]; done.
Defined.

(** [UpdateLimits] over the real store and the real provider. *)
Lemma torrent_limits_are_saved_and_in_force ctx actor limits w l w' :
  UpdateLimits (H := torrent_limit_store) (H0 := torrent_limit_controller ctx) actor limits w = (Ok l, w') →
  mg_limits w'.2 = limits ∧ stored_limits w' = Some limits.
Proof.
  intros E. apply (UpdateLimits_Ok (H1 := torrent_limits_lawful ctx)) in E as (_ & _ & _ & _ & Ha & Hs). done.
Qed.
