(* ===== verification/Scanner.v ===== *)
(** The scanner of the music directory and the enrichment of tracks
    ([scanner/scanner.go], [scanner/enricher.go]).

    The extractor of tags and the store of artwork are other components: they
    are calls on the state a scan runs in.  The walk over the directory is the
    list of the visits the callback gets. *)
From stdpp Require Import base gmap strings list sorting.
From Stdlib Require Import ZArith Lia Ascii.
From S2P Require Import Prelude GoStrings GoHash Sql Music Library LibraryTheorems PlayQueues AudioFormats Scans.

Open Scope Z_scope.
Open Scope go_scope.

Definition LocalProvider : string := "local".

Record Metadata := mkMetadata {
  md_Title : string;
  md_Artist : string;
  md_Album : string;
  md_AlbumArtist : string;
  md_AlbumArtistExplicit : bool;
  md_TrackNumber : Z;
  md_DiscNumber : Z;
  md_Year : Z;
  md_Genre : string;
  md_Duration : Z;
  md_Size : Z;
  md_BitRate : Z;
  md_Suffix : string;
  md_ContentType : string;
  md_Artwork : option (list Z);
}.

(** * Metadata of one track *)

Definition or_else (value fallback : string) : string := if bool_decide (value = "") then fallback else value.

Section metadata.
Context `{Unicode} `{TextNorm}.

Definition ApplyMetadata (track : Track) (m : Metadata) : Track :=
  let albumArtistName := or_else (or_else (TrimSpace (md_AlbumArtist m)) (TrimSpace (md_Artist m))) "Unknown Artist" in
  let trackArtist := or_else (TrimSpace (md_Artist m)) albumArtistName in
  let albumName := or_else (TrimSpace (md_Album m)) "Unknown Album" in
  let title := or_else (TrimSpace (md_Title m)) (Title track) in
  mkTrack (ID track) title trackArtist (CanonicalArtistID trackArtist) albumName
    (CanonicalAlbumID albumArtistName albumName) albumArtistName (CanonicalArtistID albumArtistName)
    (md_TrackNumber m) (md_DiscNumber m) (md_Year m) (TrimSpace (md_Genre m)) (md_Duration m) (md_Size m)
    (md_BitRate m) (md_Suffix m) (md_ContentType m) (CoverArtID track).

Definition map_track (f : Track → Track) (s : TrackSource) : TrackSource :=
  mkSource (f (ts_Track s)) (ts_Ref s) (DisplayPath s) (Availability s) (DiscoveredAt s).

Definition with_canonical_id (t : Track) : Track := with_id (CanonicalTrackID t) t.

(** [makeTrack]. *)
Definition local_track (key : string) (m : Metadata) : TrackSource :=
  let track := mkTrack (StableID "track" [LocalProvider; key]) (TrimSuffix (Base key) (Ext key))
    "" "" "" "" "" "" 0 0 0 "" 0 0 0 "" "" "" in
  mkSource (with_canonical_id (ApplyMetadata track m)) (mkRef LocalProvider key) ""
    (mkAvailability "" 0 0 false false) time_zero.

(** * Compilations *)

Definition lower_trim (s : string) : string := ToLower (TrimSpace s).

Definition isGenericCompilationAlbumName (value : string) : bool :=
  bool_decide (lower_trim value ∈ ["various artists"; "various"; "va"; "v/a"; "unknown album"]).

Definition isVariousArtistName (value : string) : bool :=
  bool_decide (lower_trim value ∈ ["various artists"; "various"; "va"; "v/a"]).

(** The directory a track is grouped by, if it is in one. *)
Definition group_of (s : TrackSource) : option string :=
  let directory := Dir (SourceKey (ts_Ref s)) in
  if bool_decide (directory = ".") || bool_decide (directory = "/") then None else Some directory.

Definition add_to_group (groups : gmap string (list nat)) (x : nat * TrackSource) : gmap string (list nat) :=
  match group_of x.2 with
  | None => groups
  | Some directory => <[directory := default [] (groups !! directory) ++ [x.1]]> groups
  end.

Definition groups_of (tracks : list TrackSource) : gmap string (list nat) :=
  fold_left add_to_group (imap (λ i s, (i, s)) tracks) ∅.

(** The tracks of a group, by their indexes. *)
Definition members (tracks : list TrackSource) (indexes : list nat) : list TrackSource :=
  omap (λ i, tracks !! i) indexes.

Definition album_names (l : list TrackSource) : gmap string string :=
  fold_left (λ names s,
    let name := TrimSpace (Album (ts_Track s)) in
    if bool_decide (name = "") then names else <[ToLower name := name]> names) l ∅.

Definition compilationAlbumName (l : list TrackSource) (directory : string) : string :=
  match map_to_list (album_names l) with
  | [(folded, name)] => if isGenericCompilationAlbumName folded then Base directory else name
  | _ => Base directory
  end.

(** Whether the tracks of a directory are a compilation; the loop over the one
    element of [albumArtists] sees that element. *)
Definition is_compilation (explicitAlbumArtists : gmap string bool) (l : list TrackSource) : bool :=
  let artists := list_to_set (C := gset string) (map (λ s, lower_trim (Artist (ts_Track s))) l) in
  let albumArtists := list_to_set (C := gset string) (map (λ s, lower_trim (AlbumArtist (ts_Track s))) l) in
  let hasExplicitAlbumArtist := existsb (λ s, default false (explicitAlbumArtists !! SourceKey (ts_Ref s))) l in
  let oneAlbumArtistIsVarious := match elements albumArtists with [a] => isVariousArtistName a | _ => false end in
  (2 <=? length l)%nat && (2 <=? size artists)%nat &&
  ((1 <? size albumArtists)%nat || negb hasExplicitAlbumArtist ||
   ((size albumArtists =? 1)%nat && oneAlbumArtistIsVarious)).

Definition as_compilation (albumName : string) (s : TrackSource) : TrackSource :=
  let albumArtist := "Various Artists" in
  map_track (with_album albumName (CanonicalAlbumID albumArtist albumName) albumArtist (CanonicalArtistID albumArtist)) s.

(** The body of the loop over [groups]. *)
Definition normalize_group (explicitAlbumArtists : gmap string bool) (tracks : list TrackSource)
    (group : string * list nat) : list TrackSource :=
  let '(directory, indexes) := group in
  let l := members tracks indexes in
  if is_compilation explicitAlbumArtists l
  then fold_left (λ ts i, alter (as_compilation (compilationAlbumName l directory)) i ts) indexes tracks
  else tracks.

Definition normalizeCompilationAlbums `{Runtime} (tracks : list TrackSource) (explicitAlbumArtists : gmap string bool)
    : list TrackSource :=
  fold_left (normalize_group explicitAlbumArtists) (map_range (groups_of tracks)) tracks.

(** [changedAlbumAliases]; the range over the set visits it in any order. *)
Definition changed_alias (originalAlbumIDs : gmap string string) (s : TrackSource) : option (string * string) :=
  let originalID := default "" (originalAlbumIDs !! SourceKey (ts_Ref s)) in
  if negb (bool_decide (originalID = "")) && negb (bool_decide (originalID = AlbumID (ts_Track s)))
  then Some (originalID, ID (ts_Track s)) else None.

Definition changedAlbumAliases `{Runtime} (tracks : list TrackSource) (originalAlbumIDs : gmap string string)
    : list (string * string) :=
  map fst (map_range (list_to_map (M := gmap (string * string) unit)
    (map (λ x, (x, tt)) (omap (changed_alias originalAlbumIDs) tracks)))).
End metadata.

(** * Scanning *)

(** One call of the callback of [filepath.WalkDir]: the path, the error the walk
    reports, whether the entry is a directory, what [Info] gives (whether the
    file is regular, its time and size) and the path relative to the root. *)
Record file_info := mkFileInfo {
  fi_Regular : bool;
  fi_ModTime : time;
  fi_Size : Z;
}.

Record visit := mkVisit {
  v_path : string;
  v_walkErr : option error;
  v_dir : bool;
  v_info : res file_info;
  v_rel : res string;
}.

Section scan.
Context `{Runtime} `{Unicode} `{TextNorm} {A : Type}.
(** The extractor of tags, the artwork store when there is one, [ctx.Err()], and
    whether the catalog is a [TrackAliasWriter] is settled: SQLite is. *)
Context (Extract : string → file_info → M A Metadata) (Put : option (list Z → M A string)).
Context (ctx_err : A → option error).

(** What the callback collects. *)
Record scan_state := mkScanState {
  ss_tracks : list TrackSource;
  ss_warnings : list Warning;
  ss_artworkIDs : gmap (list Z) string;
  ss_explicit : gmap string bool;
  ss_original : gmap string string;
}.

Definition warn (path : string) (e : error) (s : scan_state) : scan_state :=
  mkScanState (ss_tracks s) (ss_warnings s ++ [mkWarning path e]) (ss_artworkIDs s) (ss_explicit s) (ss_original s).

(** The cover of a track: the identifier artwork with the same digest has
    already, or the one the store gives. *)
Definition cover_of (path : string) (artwork : option (list Z)) (s : scan_state) : M A (option string * scan_state) :=
  match artwork, Put with
  | Some data, Some put =>
      let digest := Sum256 data in
      match ss_artworkIDs s !! digest with
      | Some coverArtID => mret (Some coverArtID, s)
      | None =>
          r ← try (put data);
          match r with
          | Err e => mret (None, warn path (Errorf "store artwork: " e "") s)
          | Ok coverArtID =>
              mret (Some coverArtID,
                mkScanState (ss_tracks s) (ss_warnings s) (<[digest := coverArtID]> (ss_artworkIDs s))
                  (ss_explicit s) (ss_original s))
          end
      end
  | _, _ => mret (None, s)
  end.

Definition scanned_track (key : string) (info : file_info) (m : Metadata) (cover : option string) : TrackSource :=
  let track := local_track key m in
  let t := match cover with Some c => with_cover c (ts_Track track) | None => ts_Track track end in
  mkSource t (ts_Ref track) (DisplayPath track) (Availability track) (fi_ModTime info).

Definition visit_file (v : visit) (s : scan_state) : M A scan_state :=
  match v_info v with
  | Err e => mret (warn (v_path v) e s)
  | Ok info =>
      if negb (fi_Regular info) then mret s
      else
        r ← try (Extract (v_path v) info);
        match r with
        | Err e => mret (warn (v_path v) e s)
        | Ok m =>
            match v_rel v with
            | Err e => mret (warn (v_path v) e s)
            | Ok key =>
                let s := mkScanState (ss_tracks s) (ss_warnings s) (ss_artworkIDs s)
                  (<[key := md_AlbumArtistExplicit m]> (ss_explicit s))
                  (<[key := AlbumID (ts_Track (local_track key m))]> (ss_original s)) in
                '(cover, s) ← cover_of (v_path v) (md_Artwork m) s;
                mret (mkScanState (ss_tracks s ++ [scanned_track key info m cover]) (ss_warnings s)
                  (ss_artworkIDs s) (ss_explicit s) (ss_original s))
            end
        end
  end.

Definition isSupported (path : string) : bool := match FromPath path with Some _ => true | None => false end.

(** The callback; a directory that cannot be read is skipped by the walk. *)
Definition visit_one (s : scan_state) (v : visit) : M A scan_state :=
  cancelled ← gets ctx_err;
  match cancelled with
  | Some e => throw e
  | None =>
      match v_walkErr v with
      | Some e => mret (warn (v_path v) e s)
      | None => if v_dir v || negb (isSupported (v_path v)) then mret s else visit_file v s
      end
  end.

Fixpoint walk (visits : list visit) (s : scan_state) : M A scan_state :=
  match visits with
  | [] => mret s
  | v :: rest => s ← visit_one s v; walk rest s
  end.

Definition save_local_alias (s : TrackSource) : M Library.db unit :=
  wrap_err (λ e, Errorf "save local track alias: " e "")
    (SaveTrackAlias (StableID "track" [LocalProvider; SourceKey (ts_Ref s)]) (ID (ts_Track s))).

(** The tracks the scan publishes and the aliases of the albums it moved. *)
Definition published (s : scan_state) : list TrackSource * list (string * string) :=
  let tracks := map (map_track with_canonical_id) (normalizeCompilationAlbums (ss_tracks s) (ss_explicit s)) in
  (tracks, changedAlbumAliases tracks (ss_original s)).

(** [Scan]; [root] is what [filepath.Abs] and [os.Stat] say of the directory. *)
Definition Scan (root : res unit) (visits : list visit) : M (A * Library.db) Report :=
  _ ← lift root;
  s ← wrap_err (λ e, Errorf "walk music directory: " e "")
    (zoom fst (λ a w, (a, w.2)) (walk visits (mkScanState [] [] ∅ ∅ ∅)));
  let '(tracks, aliases) := published s in
  _ ← wrap_err (λ e, Errorf "replace local catalog: " e "")
    (zoom snd (λ d w, (w.1, d)) (ReplaceProviderTracks LocalProvider tracks aliases));
  _ ← zoom snd (λ d w, (w.1, d)) (miter save_local_alias tracks);
  mret (mkReport (Z.of_nat (length tracks)) (ss_warnings s)).

(** * Enrichment *)

(** [EnrichTrack]: the track as it leaves it, also when it fails on the artwork;
    [stat] is what the file system says of the file. *)
Definition EnrichTrack (stat : string → res file_info) (track : Track) (mediaPath : string)
    : A → (res unit * Track) * A := λ a,
  match stat mediaPath with
  | Err e => ((Err (Errorf "stat completed track: " e ""), track), a)
  | Ok info =>
      if negb (fi_Regular info) || ((0 <? TrackSize track) && negb (fi_Size info =? TrackSize track))
      then ((Err (Plain ("completed track has unexpected size " +:+ Itoa (fi_Size info) +:+ ", want " +:+
                         Itoa (TrackSize track))), track), a)
      else
        match Extract mediaPath info a with
        | (Err e, a) => ((Err (Errorf "extract completed track metadata: " e ""), track), a)
        | (Ok m, a) =>
            let enriched := with_album (Album track) (AlbumID track) (AlbumArtist track) (AlbumArtistID track)
              (ApplyMetadata track m) in
            match md_Artwork m, Put with
            | Some data, Some put =>
                match put data a with
                | (Err e, a) => ((Err (Errorf "store completed track artwork: " e ""), enriched), a)
                | (Ok coverArtID, a) => ((Ok tt, with_cover coverArtID enriched), a)
                end
            | _, _ => ((Ok tt, enriched), a)
            end
        end
  end.

Definition EnrichWithExpectedSize (stat : string → res file_info) (trackID mediaPath : string) (expectedSize : Z)
    : M (A * Library.db) unit :=
  track ← wrap_err (λ e, Errorf "find completed track: " e "") (zoom snd (λ d w, (w.1, d)) (getTrack trackID));
  let track := if 0 <? expectedSize then with_size expectedSize track else track in
  enriched ← (λ w : A * Library.db,
    match EnrichTrack stat track mediaPath w.1 with
    | ((Ok _, track), a) => (Ok track, (a, w.2))
    | ((Err e, _), a) => (Err e, (a, w.2))
    end);
  wrap_err (λ e, Errorf "update completed track metadata: " e "")
    (zoom snd (λ d w, (w.1, d)) (UpdateTrack enriched)).

Definition Enrich (stat : string → res file_info) (trackID mediaPath : string) : M (A * Library.db) unit :=
  EnrichWithExpectedSize stat trackID mediaPath 0.
End scan.

(** * Compilations are settled directory by directory *)

Section compilations.
Context `{Unicode} `{TextNorm}.
Implicit Types (tracks : list TrackSource) (s : TrackSource) (d : string).

Definition in_directory d s : bool := bool_decide (group_of s = Some d).

Definition positions d tracks : list nat :=
  omap (λ x, if in_directory d x.2 then Some x.1 else None) (imap (λ i s, (i, s)) tracks).

Lemma positions_snoc d tracks s :
  positions d (tracks ++ [s]) = positions d tracks ++ (if in_directory d s then [length tracks] else []).
Proof.
  unfold positions. rewrite imap_app, omap_app. f_equal. cbn. rewrite Nat.add_0_r.
  by destruct (in_directory d s).
Qed.

Lemma groups_of_snoc tracks s : groups_of (tracks ++ [s]) = add_to_group (groups_of tracks) (length tracks, s).
Proof. unfold groups_of. rewrite imap_app, fold_left_app. cbn. by rewrite Nat.add_0_r. Qed.

Lemma groups_positions tracks d :
  groups_of tracks !! d = match positions d tracks with [] => None | l => Some l end.
Proof.
  induction tracks as [|s tracks IH] using rev_ind; [apply lookup_empty|].
  rewrite groups_of_snoc, positions_snoc. unfold add_to_group, in_directory. cbn [fst snd].
  destruct (group_of s) as [d'|]; [|by rewrite app_nil_r].
  destruct (decide (d' = d)) as [->|Hne].
  - rewrite lookup_insert_eq, bool_decide_eq_true_2 by done. rewrite IH. by destruct (positions d tracks).
  - rewrite lookup_insert_ne, bool_decide_eq_false_2, app_nil_r by congruence. done.
Qed.

Lemma elem_of_positions d tracks i :
  i ∈ positions d tracks ↔ ∃ s, tracks !! i = Some s ∧ in_directory d s = true.
Proof.
  unfold positions. rewrite list_elem_of_omap. split.
  - intros ([j s] & Hin & E). apply elem_of_lookup_imap in Hin as (k & s' & [= -> ->] & Hk). cbn in E.
    destruct (in_directory d s') eqn:Hd; [|done]. injection E as ->. eauto.
  - intros (s & Hs & Hd). exists (i, s). split; [|cbn; by rewrite Hd].
    apply elem_of_lookup_imap. eauto.
Qed.

Lemma positions_NoDup d tracks : NoDup (positions d tracks).
Proof.
  induction tracks as [|s tracks IH] using rev_ind; [constructor|]. rewrite positions_snoc.
  apply NoDup_app. split_and!; [done| |destruct (in_directory d s); [apply NoDup_singleton|constructor]].
  intros i (x & Hx & _)%elem_of_positions. apply lookup_lt_Some in Hx.
  destruct (in_directory d s); [|by apply not_elem_of_nil]. rewrite list_elem_of_singleton. lia.
Qed.

(** The tracks at the positions of a directory, after all were mapped. *)
Lemma members_positions (f : TrackSource → TrackSource) d tracks :
  members (map f tracks) (positions d tracks) = map f (List.filter (in_directory d) tracks).
Proof.
  assert (∀ more, members (map f (tracks ++ more)) (positions d tracks) = map f (List.filter (in_directory d) tracks)) as Hm.
  { induction tracks as [|s tracks IH] using rev_ind; intros more; [done|].
    rewrite positions_snoc, List.filter_app, <- app_assoc. unfold members in *. rewrite omap_app, IH.
    rewrite (map_app f (List.filter (in_directory d) tracks)). f_equal. cbn. destruct (in_directory d s); [|done]. cbn.
    rewrite map_app, lookup_app_r by (by rewrite length_map). rewrite length_map, Nat.sub_diag. done. }
  specialize (Hm []). by rewrite app_nil_r in Hm.
Qed.

Lemma fold_alter_lookup {B} (g : B → B) (l : list B) idxs i : NoDup idxs →
  fold_left (λ ts i, alter g i ts) idxs l !! i = (if bool_decide (i ∈ idxs) then g <$> l !! i else l !! i).
Proof.
  revert l. induction idxs as [|k idxs IH]; intros l Hnd; cbn [fold_left].
  { by rewrite bool_decide_eq_false_2 by (by apply not_elem_of_nil). }
  apply NoDup_cons in Hnd as [Hk Hnd]. rewrite IH by done. destruct (decide (i = k)) as [->|Hne].
  - rewrite bool_decide_eq_false_2, bool_decide_eq_true_2 by (done || by left). apply list_lookup_alter_eq.
  - rewrite list_lookup_alter_ne by done. case_bool_decide as H1; case_bool_decide as H2; try done.
    + by destruct H2; right.
    + by apply elem_of_cons in H2 as [?|?].
Qed.

Lemma alter_positions (f g : TrackSource → TrackSource) d tracks :
  fold_left (λ ts i, alter g i ts) (positions d tracks) (map f tracks) =
  map (λ s, if in_directory d s then g (f s) else f s) tracks.
Proof.
  apply list_eq. intros i. rewrite fold_alter_lookup by apply positions_NoDup.
  change (map ?h ?l) with (h <$> l). rewrite !list_lookup_fmap.
  destruct (tracks !! i) as [s|] eqn:Hs; cbn; [|by destruct (bool_decide _)].
  destruct (in_directory d s) eqn:Hd.
  - rewrite bool_decide_eq_true_2; [done|]. apply elem_of_positions. eauto.
  - rewrite bool_decide_eq_false_2; [done|]. intros (s' & Hs' & Hd')%elem_of_positions. congruence.
Qed.

(** What becomes of a track: a reference definition that looks only at the
    tracks of its own directory. *)
Definition normalized (explicitAlbumArtists : gmap string bool) tracks s : TrackSource :=
  match group_of s with
  | None => s
  | Some d =>
      let l := List.filter (in_directory d) tracks in
      if is_compilation explicitAlbumArtists l then as_compilation (compilationAlbumName l d) s else s
  end.

(** The state of the loop when the directories [ds] are done. *)
Definition settled explicitAlbumArtists tracks (ds : list string) s : TrackSource :=
  match group_of s with
  | None => s
  | Some d => if bool_decide (d ∈ ds) then normalized explicitAlbumArtists tracks s else s
  end.

Lemma normalize_group_step explicit tracks ds d :
  d ∉ ds →
  normalize_group explicit (map (settled explicit tracks ds) tracks) (d, positions d tracks) =
  map (settled explicit tracks (d :: ds)) tracks.
Proof.
  intros Hd. unfold normalize_group. rewrite members_positions.
  assert (map (settled explicit tracks ds) (List.filter (in_directory d) tracks) = List.filter (in_directory d) tracks) as ->.
  { rewrite <- (map_id (List.filter (in_directory d) tracks)) at 2. apply map_ext_in. intros s [_ Hs]%filter_In.
    unfold in_directory in Hs. apply bool_decide_eq_true in Hs. unfold settled. rewrite Hs.
    by rewrite bool_decide_eq_false_2. }
  assert (∀ s, in_directory d s = true → settled explicit tracks ds s = s ∧
    settled explicit tracks (d :: ds) s = normalized explicit tracks s) as Hin.
  { intros s Hs. unfold in_directory in Hs. apply bool_decide_eq_true in Hs. unfold settled. rewrite Hs.
    rewrite bool_decide_eq_false_2, bool_decide_eq_true_2 by (done || by left). done. }
  assert (∀ s, in_directory d s = false → settled explicit tracks (d :: ds) s = settled explicit tracks ds s) as Hout.
  { intros s Hs. unfold in_directory in Hs. apply bool_decide_eq_false in Hs. unfold settled.
    destruct (group_of s) as [d'|]; [|done]. assert (d' ≠ d) as Hne by congruence.
    case_bool_decide as H1; case_bool_decide as H2; try done.
    - by apply elem_of_cons in H1 as [?|?].
    - by destruct H1; right. }
  assert (∀ s, in_directory d s = true → normalized explicit tracks s =
    if is_compilation explicit (List.filter (in_directory d) tracks)
    then as_compilation (compilationAlbumName (List.filter (in_directory d) tracks) d) s else s) as Hnorm.
  { intros s Hs. unfold in_directory in Hs. apply bool_decide_eq_true in Hs. unfold normalized. by rewrite Hs. }
  destruct (is_compilation explicit _) eqn:Hc.
  - rewrite alter_positions. apply map_ext. intros s. destruct (in_directory d s) eqn:Hs; [|by rewrite Hout].
    destruct (Hin _ Hs) as [-> ->]. by rewrite Hnorm.
  - apply map_ext. intros s. destruct (in_directory d s) eqn:Hs; [|by rewrite Hout].
    destruct (Hin _ Hs) as [-> ->]. by rewrite Hnorm.
Qed.

Lemma normalize_all `{Runtime} explicit tracks :
  normalizeCompilationAlbums tracks explicit = map (normalized explicit tracks) tracks.
Proof.
  unfold normalizeCompilationAlbums.
  assert (∀ order ds, NoDup (map fst order) → (∀ d l, (d, l) ∈ order → d ∉ ds ∧ l = positions d tracks) →
    fold_left (normalize_group explicit) order (map (settled explicit tracks ds) tracks) =
    map (settled explicit tracks (rev (map fst order) ++ ds)) tracks) as Hloop.
  { induction order as [|[d l] order IH]; intros ds Hnd Hin; [done|]. cbn [fold_left map fst rev] in *.
    apply NoDup_cons in Hnd as [Hd Hnd]. destruct (Hin d l) as [Hds ->]; [by left|].
    rewrite normalize_group_step by done. rewrite IH; [by rewrite <- app_assoc|done|].
    intros d' l' Hin'. destruct (Hin d' l') as [Hds' ->]; [by right|]. split; [|done].
    rewrite not_elem_of_cons. split; [|done]. intros ->. apply Hd.
    change (map fst order) with (fst <$> order). apply (list_elem_of_fmap_2 fst _ _ Hin'). }
  assert (map (settled explicit tracks []) tracks = tracks) as E.
  { rewrite <- (map_id tracks) at 3. apply map_ext. intros s. unfold settled. destruct (group_of s); [|done].
    by rewrite bool_decide_eq_false_2 by (by apply not_elem_of_nil). }
  rewrite <- E at 2. rewrite Hloop.
  - apply map_ext_in. intros s Hs. unfold settled. destruct (group_of s) as [d|] eqn:Hg; [|by unfold normalized; rewrite Hg].
    rewrite bool_decide_eq_true_2; [done|]. apply elem_of_app. left.
    rewrite <- Permutation_rev. change (map fst ?l) with (fst <$> l).
    assert (is_Some (groups_of tracks !! d)) as [l Hl].
    { rewrite groups_positions. apply list_elem_of_In, list_elem_of_lookup in Hs as [i Hi].
      assert (i ∈ positions d tracks) as Hp.
      { apply elem_of_positions. exists s. split; [done|]. unfold in_directory. by apply bool_decide_eq_true_2. }
      destruct (positions d tracks); [by apply elem_of_nil in Hp|eauto]. }
    apply (list_elem_of_fmap_2 fst _ (d, l)). rewrite map_range_perm. by apply elem_of_map_to_list.
  - rewrite map_range_perm. apply NoDup_fst_map_to_list.
  - intros d l Hin. split; [apply not_elem_of_nil|]. rewrite map_range_perm, elem_of_map_to_list, groups_positions in Hin.
    destruct (positions d tracks); [done|]. congruence.
Qed.

(** ** The rule for compilations, read off the tracks of a directory *)

Definition artist_name s : string := lower_trim (Artist (ts_Track s)).
Definition album_artist_name s : string := lower_trim (AlbumArtist (ts_Track s)).
Definition album_name s : string := TrimSpace (Album (ts_Track s)).

(** The tracks [l] of one directory are a compilation when they are by several
    artists, unless an album artist unites them: one that all of them have, some
    of them from their tags, and that is not a name for various artists. *)
Definition is_a_compilation (explicitAlbumArtists : gmap string bool) (l : list TrackSource) : Prop :=
  (∃ s s', s ∈ l ∧ s' ∈ l ∧ artist_name s ≠ artist_name s') ∧
  ((∃ s s', s ∈ l ∧ s' ∈ l ∧ album_artist_name s ≠ album_artist_name s') ∨
   (∀ s, s ∈ l → explicitAlbumArtists !! SourceKey (ts_Ref s) ≠ Some true) ∨
   (∀ s, s ∈ l → lower_trim (album_artist_name s) ∈ ["various artists"; "various"; "va"; "v/a"])).

(** [name] is the album that the tracks have in common: all that name an album
    name this one, but for the case of letters, the last of them in this
    spelling, and it says more than that the artists are various. *)
Definition common_album (l : list TrackSource) (name : string) : Prop :=
  (∃ before s after, l = before ++ s :: after ∧ album_name s = name ∧ name ≠ "" ∧ ∀ x, x ∈ after → album_name x = "") ∧
  (∀ x, x ∈ l → album_name x = "" ∨ ToLower (album_name x) = ToLower name) ∧
  lower_trim (ToLower name) ∉ ["various artists"; "various"; "va"; "v/a"; "unknown album"].

(** The album of a compilation: the common one, or the name of the directory. *)
Definition compilation_album (l : list TrackSource) (d album : string) : Prop :=
  common_album l album ∨ ((∀ name, ¬ common_album l name) ∧ album = Base d).

Lemma several_values {A} (f : A → string) (l : list A) :
  (1 < size (list_to_set (C := gset string) (map f l)))%nat ↔ ∃ x y, x ∈ l ∧ y ∈ l ∧ f x ≠ f y.
Proof.
  assert (∀ z, z ∈ list_to_set (C := gset string) (map f l) ↔ ∃ x, z = f x ∧ x ∈ l) as Hel.
  { intros z. rewrite elem_of_list_to_set. change (map f l) with (f <$> l). apply list_elem_of_fmap. }
  split.
  - intros Hs. destruct l as [|x l]; [change (1 < size (∅ : gset string))%nat in Hs; rewrite size_empty in Hs; lia|].
    destruct (decide (Forall (λ y, f y = f x) l)) as [Hall|Hn].
    + assert (list_to_set (C := gset string) (map f (x :: l)) ⊆ {[f x]}) as Hsub%subseteq_size.
      { intros z (y & -> & Hy)%Hel. apply elem_of_singleton. apply elem_of_cons in Hy as [->|Hy]; [done|].
        rewrite Forall_forall in Hall. by apply Hall. }
      rewrite size_singleton in Hsub. lia.
    + apply not_Forall_Exists in Hn; [|intros y; apply _]. apply Exists_exists in Hn as (y & Hy & Hne).
      exists y, x. split_and!; [by right|by left|done].
  - intros (x & y & Hx & Hy & Hne).
    assert (({[f x; f y]} : gset string) ⊆ list_to_set (map f l)) as Hsub%subseteq_size.
    { intros z. rewrite elem_of_union, !elem_of_singleton. intros [->| ->]; apply Hel; eauto. }
    rewrite size_union, !size_singleton in Hsub by set_solver. lia.
Qed.

Lemma explicit_album_artist (explicit : gmap string bool) (l : list TrackSource) :
  existsb (λ s, default false (explicit !! SourceKey (ts_Ref s))) l = false ↔
  ∀ s, s ∈ l → explicit !! SourceKey (ts_Ref s) ≠ Some true.
Proof.
  induction l as [|s l IH]; [split; [by intros _ s ?%elem_of_nil|done]|].
  cbn [existsb]. rewrite orb_false_iff, IH. setoid_rewrite elem_of_cons.
  destruct (explicit !! SourceKey (ts_Ref s)) as [[]|] eqn:E; naive_solver congruence.
Qed.

(** One name for all: the loop over the only element of the set sees it. *)
Lemma one_value_various {A} (f : A → string) (l : list A) :
  l ≠ [] → (size (list_to_set (C := gset string) (map f l)) ≤ 1)%nat →
  match elements (list_to_set (C := gset string) (map f l)) with [a] => isVariousArtistName a | _ => false end = true ↔
  ∀ x, x ∈ l → lower_trim (f x) ∈ ["various artists"; "various"; "va"; "v/a"].
Proof.
  intros Hnil Hsize. destruct l as [|x l]; [done|].
  assert (∀ y, y ∈ x :: l → f y = f x) as Hall.
  { intros y Hy. destruct (decide (f y = f x)) as [|Hne]; [done|]. exfalso.
    assert (1 < size (list_to_set (C := gset string) (map f (x :: l))))%nat; [|lia].
    apply several_values. exists y, x. split_and!; [done|by left|done]. }
  assert (list_to_set (C := gset string) (map f (x :: l)) = {[f x]}) as ->.
  { apply set_eq. intros z. rewrite elem_of_list_to_set, elem_of_singleton. change (map f (x :: l)) with (f <$> (x :: l)).
    rewrite list_elem_of_fmap. split; [by intros (y & -> & ?%Hall)|intros ->; exists x; split; [done|by left]]. }
  rewrite elements_singleton. unfold isVariousArtistName. rewrite bool_decide_eq_true. split.
  - intros Hx y Hy. by rewrite (Hall y Hy).
  - intros Hx. apply Hx. by left.
Qed.

Lemma is_compilation_spec explicit l : is_compilation explicit l = true ↔ is_a_compilation explicit l.
Proof.
  unfold is_compilation, is_a_compilation. rewrite !andb_true_iff, !orb_true_iff, negb_true_iff, explicit_album_artist.
  rewrite !Nat.leb_le, Nat.ltb_lt, andb_true_iff, Nat.eqb_eq.
  rewrite <- (several_values artist_name), <- (several_values album_artist_name).
  assert ((1 < size (list_to_set (C := gset string) (map artist_name l)))%nat → (2 ≤ length l)%nat) as Hlen.
  { intros (x & y & Hx & Hy & Hne)%several_values. destruct l as [|a [|b l]]; [by apply elem_of_nil in Hx| |cbn; lia].
    apply list_elem_of_singleton in Hx as ->, Hy as ->. done. }
  fold artist_name album_artist_name. unfold artist_name, album_artist_name in *.
  destruct l as [|x l]; [split; [intros [[Hl _] _]; cbn in Hl; lia|intros [Hl%Hlen _]; cbn in Hl; lia]|].
  pose proof (one_value_various (λ s, lower_trim (AlbumArtist (ts_Track s))) (x :: l) ltac:(done)) as Hone.
  assert (0 < size (list_to_set (C := gset string) (map (λ s, lower_trim (AlbumArtist (ts_Track s))) (x :: l))))%nat as Hpos.
  { apply Nat.neq_0_lt_0. intros Hz%size_empty_inv. set_solver. }
  split.
  - intros [[Hl Ha] [[?|?]|[He Hv]]]; (split; [lia|]); [by left|by right; left|right; right].
    apply Hone; [lia|done].
  - intros [Ha Hb]. split; [split; [by apply Hlen|lia]|]. destruct Hb as [?|[?|Hb]]; [by left; left|by left; right|].
    destruct (decide (1 < size (list_to_set (C := gset string) (map (λ s, lower_trim (AlbumArtist (ts_Track s))) (x :: l))))%nat);
      [by left; left|right]. split; [lia|]. apply Hone; [lia|done].
Qed.

Lemma album_names_lookup l k n :
  album_names l !! k = Some n ↔
  ∃ before s after, l = before ++ s :: after ∧ album_name s = n ∧ n ≠ "" ∧ ToLower n = k ∧
    ∀ x, x ∈ after → album_name x = "" ∨ ToLower (album_name x) ≠ k.
Proof.
  set (latest l := ∃ before s after, l = before ++ s :: after ∧ album_name s = n ∧ n ≠ "" ∧ ToLower n = k ∧
    ∀ x, x ∈ after → album_name x = "" ∨ ToLower (album_name x) ≠ k).
  change (album_names l !! k = Some n ↔ latest l).
  assert (∀ l s, latest (l ++ [s]) ↔ (album_name s = n ∧ n ≠ "" ∧ ToLower n = k) ∨
    ((album_name s = "" ∨ ToLower (album_name s) ≠ k) ∧ latest l)) as Hsnoc.
  { intros l' s. split.
    - intros (before & s0 & after & E & Hn & Hne & Hk & Ha). destruct after as [|y after _] using rev_ind.
      + apply app_inj_tail in E as [_ ->]. by left.
      + rewrite app_comm_cons, app_assoc in E. apply app_inj_tail in E as [-> ->]. right. split.
        * apply Ha. apply elem_of_app. right. by left.
        * exists before, s0, after. split_and!; try done. intros x Hx. apply Ha. apply elem_of_app. by left.
    - intros [(Hn & Hne & Hk)|[Hs (before & s0 & after & -> & Hn & Hne & Hk & Ha)]].
      + exists l', s, []. split_and!; try done. by intros x ?%elem_of_nil.
      + exists before, s0, (after ++ [s]). split_and!; try done; [by rewrite <- app_assoc|].
        intros x [Hx| ->%list_elem_of_singleton]%elem_of_app; auto. }
  induction l as [|s l IH] using rev_ind.
  { split; [unfold album_names; cbn [fold_left]; by rewrite lookup_empty|]. by intros ([] & ? & ? & ? & _). }
  rewrite Hsnoc, <- IH. unfold album_names at 1. rewrite fold_left_app. cbn [fold_left]. fold (album_names l).
  fold (album_name s). case_bool_decide as He; [rewrite He; naive_solver|].
  rewrite lookup_insert_Some. naive_solver.
Qed.

Lemma common_album_names l name :
  common_album l name ↔
  album_names l = {[ToLower name := name]} ∧ isGenericCompilationAlbumName (ToLower name) = false.
Proof.
  unfold common_album, isGenericCompilationAlbumName. rewrite bool_decide_eq_false. split.
  - intros ((before & s & after & -> & Hs & Hne & Ha) & Hsame & Hg). split; [|done].
    assert (album_names (before ++ s :: after) !! ToLower name = Some name) as Hname.
    { apply album_names_lookup. exists before, s, after. split_and!; auto. }
    apply map_eq. intros k. destruct (decide (k = ToLower name)) as [->|Hk]; [by rewrite lookup_singleton_eq|].
    rewrite lookup_singleton_ne by done. apply eq_None_not_Some. intros [n Hn].
    apply album_names_lookup in Hn as (b' & s' & a' & E & Hs' & Hn' & Hk' & _).
    assert (s' ∈ before ++ s :: after) as Hin by (rewrite E; apply elem_of_app; right; by left).
    apply Hsame in Hin as [|Hin]; congruence.
  - intros [E Hg].
    assert (album_names l !! ToLower name = Some name) as Hn by (by rewrite E, lookup_singleton_eq).
    assert (∀ x, x ∈ l → album_name x = "" ∨ ToLower (album_name x) = ToLower name) as Hsame.
    { intros x Hx. destruct (decide (album_name x = "")) as [|Hne]; [by left|right].
      destruct (decide (ToLower (album_name x) = ToLower name)) as [|Hd]; [done|]. exfalso.
      assert (is_Some (album_names l !! ToLower (album_name x))) as [n Hx'];
        [|by rewrite E, lookup_singleton_ne in Hx' by done].
      clear -Hx Hne. induction l as [|s l IH] using rev_ind; [by apply elem_of_nil in Hx|].
      unfold album_names. rewrite fold_left_app. cbn [fold_left]. fold (album_names l). fold (album_name s).
      apply elem_of_app in Hx as [Hx| ->%list_elem_of_singleton].
      - case_bool_decide; [by apply IH|]. apply lookup_insert_is_Some'. right. by apply IH.
      - rewrite bool_decide_eq_false_2 by done. rewrite lookup_insert_eq. eauto. }
    split_and!; [|done|done]. apply album_names_lookup in Hn as (before & s & after & -> & Hs & Hne & _ & Ha).
    exists before, s, after. split_and!; try done. intros x Hx. destruct (Ha x Hx) as [|Hd]; [done|].
    destruct (Hsame x) as [|Hs']; [apply elem_of_app; right; by right|done|by destruct Hd].
Qed.

Lemma compilationAlbumName_spec l d : compilation_album l d (compilationAlbumName l d).
Proof.
  assert (∀ name, common_album l name → map_to_list (album_names l) = [(ToLower name, name)]) as Hcommon.
  { intros name [-> _]%common_album_names. by rewrite map_to_list_singleton. }
  unfold compilation_album, compilationAlbumName.
  destruct (map_to_list (album_names l)) as [|[k n] [|]] eqn:E; try (right; split; [by intros name ?%Hcommon|done]).
  assert (album_names l = {[k := n]}) as Hm.
  { apply map_to_list_inj. by rewrite E, map_to_list_singleton. }
  assert (k = ToLower n) as ->.
  { assert (album_names l !! k = Some n) as Hn by (by rewrite Hm, lookup_singleton_eq).
    by apply album_names_lookup in Hn as (_ & _ & _ & _ & _ & _ & <- & _). }
  destruct (isGenericCompilationAlbumName _) eqn:Hg.
  - right. split; [|done]. intros name Hc. pose proof (Hcommon _ Hc) as Hl. injection Hl as _ <-.
    apply common_album_names in Hc as [_ Hc]. congruence.
  - left. by apply common_album_names.
Qed.

(** C35. Compilations are settled directory by directory: whatever order the map
    of directories is visited in, the tracks keep their order, and a track that
    lies in a directory whose tracks are a compilation gets the album of that
    compilation, by various artists, and keeps everything else, while every
    other track stays as it is. *)
Theorem compilations_are_settled_by_directory `{Runtime} explicitAlbumArtists tracks :
  let result := normalizeCompilationAlbums tracks explicitAlbumArtists in
  length result = length tracks ∧
  ∀ i s, tracks !! i = Some s →
    let d := Dir (SourceKey (ts_Ref s)) in
    let l := List.filter (λ x, bool_decide (Dir (SourceKey (ts_Ref x)) = d)) tracks in
    if decide (d ≠ "." ∧ d ≠ "/")
    then (is_a_compilation explicitAlbumArtists l → ∃ album, compilation_album l d album ∧
            result !! i = Some (map_track (with_album album (CanonicalAlbumID "Various Artists" album) "Various Artists"
                                             (CanonicalArtistID "Various Artists")) s)) ∧
         (¬ is_a_compilation explicitAlbumArtists l → result !! i = Some s)
    else result !! i = Some s.
Proof.
  cbv zeta. rewrite normalize_all. split; [apply length_map|]. intros i s Hs.
  change (map ?f ?l) with (f <$> l). rewrite list_lookup_fmap, Hs. cbn. unfold normalized, group_of.
  destruct (decide _) as [[H1' H2']|Hn].
  - rewrite !bool_decide_eq_false_2 by done. cbn [orb].
    assert (List.filter (in_directory (Dir (SourceKey (ts_Ref s)))) tracks =
      List.filter (λ x, bool_decide (Dir (SourceKey (ts_Ref x)) = Dir (SourceKey (ts_Ref s)))) tracks) as ->.
    { apply filter_ext. intros x. unfold in_directory, group_of. apply bool_decide_ext.
      destruct (bool_decide (_ = ".")) eqn:E1; destruct (bool_decide (_ = "/")) eqn:E2; cbn [orb];
        rewrite ?bool_decide_eq_true in *; split; try congruence. }
    split; [intros ->%is_compilation_spec|intros Hc].
    + eexists. split; [apply compilationAlbumName_spec|done].
    + destruct (is_compilation _ _) eqn:E; [|done]. by apply is_compilation_spec in E.
  - destruct (bool_decide (_ = ".")) eqn:E1; [done|]. destruct (bool_decide (_ = "/")) eqn:E2; [done|].
    apply bool_decide_eq_false in E1, E2. by destruct Hn.
Qed.
End compilations.

(** * Enrichment keeps a track where it is *)

Section enrichment.
Context `{Runtime} `{Unicode} `{TextNorm} {A : Type}.
Context (Extract : string → file_info → M A Metadata) (Put : option (list Z → M A string)).

Lemma UpdateTrack_same_album track old d u d' :
  tracks (tables d) !! ID track = Some old → AlbumID track = AlbumID old →
  UpdateTrack track d = (Ok u, d') → tables d' = with_tracks (alter (λ _, stored_track track) (ID track)) (tables d).
Proof.
  intros Ho Ha E. unfold UpdateTrack in E. apply transaction_Ok in E as (d1 & d2 & T1 & E & ->).
  inv_ok E; apply QueryContext_Ok in Hm as [Hs T2]; rewrite T1, Ho in Hs; injection Hs as ->.
  - by rewrite Ha, (bool_decide_eq_true_2 (AlbumID old = AlbumID old)), andb_false_r in Heqb.
  - apply ExecContext_Ok in Hm0. by rewrite Hm0, T2, T1.
Qed.

(** What [EnrichTrack] makes of a track. *)
Definition enriched (old : Track) (m : Metadata) (cover : string) : Track :=
  with_cover cover (with_album (Album old) (AlbumID old) (AlbumArtist old) (AlbumArtistID old) (ApplyMetadata old m)).

Lemma EnrichTrack_Ok stat track mediaPath a u track' a' :
  EnrichTrack Extract Put stat track mediaPath a = ((Ok u, track'), a') →
  ∃ info m a1 cover, stat mediaPath = Ok info ∧ fi_Regular info = true ∧
    (0 < TrackSize track → fi_Size info = TrackSize track) ∧ Extract mediaPath info a = (Ok m, a1) ∧
    track' = enriched track m cover ∧
    (cover = CoverArtID track ∨ ∃ data put a2, md_Artwork m = Some data ∧ Put = Some put ∧ put data a1 = (Ok cover, a2)).
Proof.
  unfold EnrichTrack. destruct (stat mediaPath) as [info|e]; [|done]. destruct (_ || _) eqn:Hc; [done|].
  apply orb_false_iff in Hc as [Hreg Hsize]. apply negb_false_iff in Hreg.
  assert (0 < TrackSize track → fi_Size info = TrackSize track) as Hs.
  { intros Hp. apply andb_false_iff in Hsize as [?|Hz]; [lia|]. apply negb_false_iff in Hz. lia. }
  destruct (Extract mediaPath info a) as [[m|e] a1] eqn:Ex; [|done].
  assert (∀ t, t = with_album (Album track) (AlbumID track) (AlbumArtist track) (AlbumArtistID track)
    (ApplyMetadata track m) → t = enriched track m (CoverArtID track)) as Hplain by (by intros t ->).
  destruct (md_Artwork m) as [data|] eqn:Hd; [destruct Put as [put|] eqn:Hput|].
  - destruct (put data a1) as [[cover|e] a2] eqn:Ep; [|done]. intros [= _ <- <-].
    exists info, m, a1, cover. split_and!; try done. right. by exists data, put, a2.
  - intros [= _ <- <-]. exists info, m, a1, (CoverArtID track). split_and!; auto.
  - intros [= _ <- <-]. exists info, m, a1, (CoverArtID track). split_and!; auto.
Qed.

(** Enriching a completed track keeps it where it is: when it succeeds, the
    file was a regular file of the expected size, and only the row of that track
    changed, to its metadata with the identifier, the album and the album artist
    it had before; when it fails, the catalog is as it was. *)
Theorem enrichment_keeps_identity stat trackID mediaPath expectedSize w r w' :
  library_ok (tables w.2) →
  EnrichWithExpectedSize Extract Put stat trackID mediaPath expectedSize w = (r, w') →
  match r with
  | Err _ => tables w'.2 = tables w.2
  | Ok _ =>
      ∃ old info m cover, tracks (tables w.2) !! ID old = Some old ∧
        resolve_track trackID (tables w.2) = Some (ID old) ∧
        stat mediaPath = Ok info ∧ fi_Regular info = true ∧
        (let size := if 0 <? expectedSize then expectedSize else TrackSize old in 0 < size → fi_Size info = size) ∧
        (∃ a a', Extract mediaPath info a = (Ok m, a')) ∧
        let new := stored_track (enriched old m cover) in
        tables w'.2 = with_tracks <[ID old := new]> (tables w.2) ∧
        ID new = ID old ∧ Album new = Album old ∧ AlbumID new = AlbumID old ∧ AlbumArtist new = AlbumArtist old
  end.
Proof.
  intros Hok. destruct w as [a d]. cbn [snd] in *.
  unfold EnrichWithExpectedSize, mbind at 1, M_bind at 1, wrap_err at 1, zoom at 1. cbn [snd].
  destruct (getTrack trackID d) as [[old|e] d1] eqn:Eg;
    [|intros [= <- <-]; by apply getTrack_read_only in Eg].
  apply getTrack_Ok in Eg as (T1 & Ho & Hres); [|done].
  set (track := if 0 <? expectedSize then with_size expectedSize old else old).
  unfold mbind at 1, M_bind at 1. cbn [fst snd].
  destruct (EnrichTrack Extract Put stat track mediaPath a) as [[[u|e] track'] a'] eqn:Ee;
    [|intros [= <- <-]; exact T1].
  apply EnrichTrack_Ok in Ee as (info & m & a1 & cover & Hst & Hreg & Hsize & Hex & -> & _).
  unfold wrap_err, zoom. cbn [snd].
  destruct (UpdateTrack (enriched track m cover) d1) as [[v|e] d2] eqn:Eu; intros [= <- <-]; cbn [snd].
  - assert (enriched track m cover = enriched old m cover) as Heq by (unfold track; by destruct (0 <? expectedSize)).
    rewrite Heq in Eu. apply (UpdateTrack_same_album _ old) in Eu; [|by rewrite T1|done].
    exists old, info, m, cover. split_and!; try done.
    + intros Hp. unfold track in *. by destruct (0 <? expectedSize); apply Hsize.
    + by exists a, a1.
    + rewrite Eu, T1. change (ID (enriched old m cover)) with (ID old). unfold with_tracks. f_equal.
      apply map_eq. intros k.
      destruct (decide (k = ID old)) as [->|Hne].
      * by rewrite lookup_insert_eq, lookup_alter_eq, Ho.
      * by rewrite lookup_insert_ne, lookup_alter_ne.
  - unfold UpdateTrack in Eu. apply transaction_clean in Eu. by rewrite Eu.
Qed.
End enrichment.

(** A track whose file was completed. *)
#[local] Existing Instance ascii_unicode.
#[local] Existing Instance ascii_norm.

Definition toy_metadata : Metadata :=
  mkMetadata "Song" "Ann" "Other album" "Bob" true 1 1 2001 "Rock" 1000000 3 320 "mp3" "audio/mpeg" None.

Definition toy_Extract (path : string) (info : file_info) : M unit Metadata := mret toy_metadata.
Definition toy_stat (path : string) : res file_info := Ok (mkFileInfo true 0 3).

Definition toy_enriched : res unit * (unit * Library.db) :=
  EnrichWithExpectedSize toy_Extract None toy_stat "t1" "/song.mp3" 3
    (tt, toy_queue_db).

Lemma toy_enriched_ok : toy_enriched = (Ok tt, toy_enriched.2).
Proof. vm_compute. reflexivity. Qed.

Lemma enrichment_keeps_identity_witness :
  ∃ old m cover, ID old = "t1" ∧
    tables toy_enriched.2.2 =
      with_tracks <[ID old := stored_track (enriched old m cover)]> (tables toy_queue_db).
Proof.
  destruct (enrichment_keeps_identity toy_Extract None toy_stat "t1" "/song.mp3" 3
    (tt, toy_queue_db) (Ok tt) toy_enriched.2 toy_queue_library_ok toy_enriched_ok)
    as (old & info & m & cover & _ & Hr & _ & _ & _ & _ & Ht & _).
  assert (resolve_track "t1" (tables toy_queue_db) = Some "t1") as E by (vm_compute; reflexivity).
  cbn [snd] in Hr. rewrite E in Hr. injection Hr as Hr. by exists old, m, cover.
Defined.
