(* ===== verification/TorrentScan.v ===== *)
(** Scanning the directory of torrent files, importing one, and managing the
    sources ([scanner/torrents]). *)
From stdpp Require Import base gmap strings list.
From Stdlib Require Import ZArith Lia Ascii.
From S2P Require Import Prelude GoStrings Sql Music Library LibraryTheorems Scans Scanner TorrentNames TorrentFiles.
From S2P Require Import TorrentJobs TorrentManage.

Open Scope Z_scope.
Open Scope go_scope.

(** One call of the walk's callback for a torrent file: what opening and
    decoding it gives ([metainfo.Load] and [UnmarshalInfo]), closing it, and
    [Info]. *)
Record torrent_visit := mkTorrentVisit {
  tv_path : string;
  tv_walkErr : option error;
  tv_dir : bool;
  tv_open : res (res (string * torrent_info));
  tv_closeErr : option error;
  tv_info : res time;
}.

Section scan.
Context `{Runtime} `{Unicode} `{TextNorm} {A : Type}.
Context (root dataRoot : string).
Context (Extract : option (string → file_info → M A Metadata)) (Put : option (list Z → M A string)).
Context (ctx_err : A → option error).

(** The provider's memory and disk, the extractor and artwork, the catalog. *)
Record scan_world := mkScanWorld {
  sw_provider : registries * disk;
  sw_app : A;
  sw_db : Library.db;
}.

Definition on_torrents {B} (m : M (registries * disk) B) : M scan_world B :=
  zoom sw_provider (λ p w, mkScanWorld p (sw_app w) (sw_db w)) m.
Definition on_app {B} (m : M A B) : M scan_world B :=
  zoom sw_app (λ a w, mkScanWorld (sw_provider w) a (sw_db w)) m.
Definition on_db {B} (m : M Library.db B) : M scan_world B :=
  zoom sw_db (λ d w, mkScanWorld (sw_provider w) (sw_app w) d) m.

Record torrent_scan_state := mkTorrentScan {
  ts_tracks : list TrackSource;
  ts_warnings : list Warning;
  ts_seen : gset string;
  ts_done : bool;
}.

Definition torrent_warn (path : string) (e : option error) (s : torrent_scan_state) : torrent_scan_state :=
  match e with
  | None => s
  | Some e => mkTorrentScan (ts_tracks s) (ts_warnings s ++ [mkWarning path e]) (ts_seen s) (ts_done s)
  end.

Definition enrich_now (extract : string → file_info → M A Metadata) (stat : string → res file_info)
    (track : Track) (cachedPath : string) : M scan_world (res unit * Track) := λ w,
  let '(r, a) := EnrichTrack extract Put stat track cachedPath (sw_app w) in
  (Ok r, mkScanWorld (sw_provider w) a (sw_db w)).

(** The metadata of a file that is cached completely; what [os.Stat] says of it
    is [stat].  The track keeps what was applied when the artwork fails. *)
Definition enrich_cached (stat : string → res file_info) (track : TrackSource) (s : torrent_scan_state)
    : M scan_world (TrackSource * torrent_scan_state) :=
  match Extract with
  | None => mret (track, s)
  | Some extract =>
      cached ← on_torrents (zoom snd (λ d w, (w.1, d)) (CachedPath dataRoot (ts_Ref track) (TrackSize (ts_Track track))));
      match cached with
      | None => mret (track, s)
      | Some cachedPath =>
          r ← enrich_now extract stat (ts_Track track) cachedPath;
          mret (map_track (λ _, r.2) track,
                torrent_warn cachedPath (match r.1 with Ok _ => None | Err e => Some e end) s)
      end
  end.

Fixpoint scan_tracks (stat : string → res file_info) (info : res time) (tracks : list TrackSource)
    (s : torrent_scan_state) : M scan_world torrent_scan_state :=
  match tracks with
  | [] => mret s
  | track :: rest =>
      if bool_decide (SourceKey (ts_Ref track) ∈ ts_seen s) then scan_tracks stat info rest s
      else
        '(track, s) ← enrich_cached stat track
          (mkTorrentScan (ts_tracks s) (ts_warnings s) ({[SourceKey (ts_Ref track)]} ∪ ts_seen s) (ts_done s));
        let track := match info with
          | Ok modTime => mkSource (ts_Track track) (ts_Ref track) (DisplayPath track) (Availability track) modTime
          | Err _ => track
          end in
        scan_tracks stat info rest (mkTorrentScan (ts_tracks s ++ [track]) (ts_warnings s) (ts_seen s) (ts_done s))
  end.

Definition visit_torrent (stat : string → res file_info) (v : torrent_visit) (s : torrent_scan_state)
    : M scan_world torrent_scan_state :=
  match tv_open v with
  | Err e => mret (torrent_warn (tv_path v) (Some e) s)
  | Ok decoded =>
      r ← try (on_torrents (ReadCatalog dataRoot decoded));
      match r with
      | Err e => mret (torrent_warn (tv_path v) (Some e) s)
      | Ok metadata =>
          let s := torrent_warn (tv_path v) (tv_closeErr v) s in
          let s := torrent_warn (tv_path v) (match tv_info v with Err e => Some e | Ok _ => None end) s in
          scan_tracks stat (tv_info v) (tc_Tracks metadata) s
      end
  end.

(** The callback; [fs.SkipAll] ends the walk when the root is missing. *)
Definition torrent_visit_one (stat : string → res file_info) (s : torrent_scan_state) (v : torrent_visit)
    : M scan_world torrent_scan_state :=
  if ts_done s then mret s
  else
    cancelled ← gets (λ w, ctx_err (sw_app w));
    match cancelled with
    | Some e => throw e
    | None =>
        match tv_walkErr v with
        | Some e =>
            if errors_Is ErrOsNotExist e && bool_decide (tv_path v = root)
            then mret (mkTorrentScan (ts_tracks s) (ts_warnings s) (ts_seen s) true)
            else mret (torrent_warn (tv_path v) (Some e) s)
        | None =>
            if tv_dir v || negb (EqualFold (Ext (Base (tv_path v))) ".torrent") then mret s
            else visit_torrent stat v s
        end
    end.

Fixpoint torrent_walk (stat : string → res file_info) (visits : list torrent_visit) (s : torrent_scan_state)
    : M scan_world torrent_scan_state :=
  match visits with
  | [] => mret s
  | v :: rest => s ← torrent_visit_one stat s v; torrent_walk stat rest s
  end.

Definition TorrentScan (stat : string → res file_info) (visits : list torrent_visit) : M scan_world Report :=
  s ← wrap_err (λ e, Errorf "walk torrent metadata directory: " e "")
    (torrent_walk stat visits (mkTorrentScan [] [] ∅ false));
  _ ← wrap_err (λ e, Errorf "replace torrent catalog: " e "")
    (on_db (ReplaceProviderTracks torrent_Name (ts_tracks s) []));
  mret (mkReport (Z.of_nat (length (ts_tracks s))) (ts_warnings s)).

(** A scan publishes no source twice. *)
Definition no_repeats (s : torrent_scan_state) : Prop :=
  NoDup (map (λ t, SourceKey (ts_Ref t)) (ts_tracks s)) ∧
  ∀ t, t ∈ ts_tracks s → SourceKey (ts_Ref t) ∈ ts_seen s.

Lemma torrent_warn_repeats path e s : no_repeats s → no_repeats (torrent_warn path e s).
Proof. by destruct e. Qed.

Lemma enrich_cached_same stat track s w track' s' w' :
  enrich_cached stat track s w = (Ok (track', s'), w') →
  ts_Ref track' = ts_Ref track ∧ ts_tracks s' = ts_tracks s ∧ ts_seen s' = ts_seen s.
Proof.
  unfold enrich_cached. destruct Extract as [extract|]; [|by intros [= <- <- _]].
  unfold mbind, M_bind. destruct (on_torrents _ w) as [[[cachedPath|]|e] w1]; [| |done].
  - unfold enrich_now. destruct (EnrichTrack _ _ _ _ _ _) as [[r track1] a]. intros [= <- <- _].
    split; [done|]. by destruct r.
  - by intros [= <- <- _].
Qed.

Lemma scan_tracks_repeats stat info tracks s w s' w' :
  no_repeats s → scan_tracks stat info tracks s w = (Ok s', w') → no_repeats s'.
Proof.
  revert s w. induction tracks as [|track rest IH]; intros s w Hs; cbn [scan_tracks]; [by intros [= <- _]|].
  case_bool_decide as Hseen; [by apply IH|]. unfold mbind, M_bind.
  destruct (enrich_cached _ _ _ w) as [[[track' s1]|e] w1] eqn:E; [|done].
  apply enrich_cached_same in E as (Hr & Ht & Hn). cbn in Ht, Hn. apply IH.
  assert (∀ t, ts_Ref t = ts_Ref track →
    no_repeats (mkTorrentScan (ts_tracks s1 ++ [t]) (ts_warnings s1) (ts_seen s1) (ts_done s1))) as Hadd.
  { intros t Href. destruct Hs as [Hnd Hin]. unfold no_repeats. cbn. rewrite Ht, Hn, map_app. split.
    - apply NoDup_app. split_and!; [done| |apply NoDup_singleton]. intros k Hk Hk'.
      apply list_elem_of_singleton in Hk'. subst k. cbn in Hk. rewrite Href in Hk.
      change (map ?f ?l) with (f <$> l) in Hk. apply list_elem_of_fmap in Hk as (x & Hx & Hin').
      apply Hin in Hin'. by rewrite <- Hx in Hin'.
    - intros x [Hx|Hx%list_elem_of_singleton]%elem_of_app; [|subst; rewrite Href; set_solver].
      apply Hin in Hx. set_solver. }
  destruct info; by apply Hadd.
Qed.

(** However many torrent files carry the same torrent, each of its tracks is
    published once. *)
Lemma torrent_scan_has_no_repeats stat visits s w s' w' :
  no_repeats s → torrent_walk stat visits s w = (Ok s', w') → no_repeats s'.
Proof.
  revert s w. induction visits as [|v rest IH]; intros s w Hs; cbn [torrent_walk]; [by intros [= <- _]|].
  unfold mbind at 1, M_bind at 1. destruct (torrent_visit_one stat s v w) as [[s1|e] w1] eqn:E; [|done].
  apply IH. clear IH. unfold torrent_visit_one in E. destruct (ts_done s); [by injection E as <- _|].
  unfold mbind at 1, M_bind at 1, gets in E. destruct (ctx_err _); [done|].
  destruct (tv_walkErr v) as [e|].
  { destruct (_ && _); injection E as <- _; done. }
  destruct (_ || _); [by injection E as <- _|]. unfold visit_torrent in E.
  destruct (tv_open v) as [decoded|e]; [|by injection E as <- _].
  unfold mbind at 1, M_bind at 1, try in E. destruct (on_torrents _ w) as [[metadata|e] w2].
  - eapply scan_tracks_repeats; [|exact E]. by repeat apply torrent_warn_repeats.
  - by injection E as <- _.
Qed.
End scan.

(** * Importing *)

Record SourceImportResult := mkImportResult {
  imp_SourceID : string;
  imp_Name : string;
  imp_Tracks : Z;
}.

Section import.
Context `{Runtime} `{Unicode} `{TextNorm} {A : Type}.
Context (root dataRoot : string) (decode : list Z → res (string * torrent_info)).
Context (ScanNow : M (registries * disk) Report).

(** [Import]: [source] is what reading the upload to its end gives, and
    [temporaryPath] the name [os.CreateTemp] makes up.  Syncing and closing fail
    like a statement that changes nothing. *)
Definition fill_import (temporaryPath target : string) (contents : list Z) : M disk unit :=
  _ ← wrap_err (λ e, Errorf "write torrent metadata: " e "") (os_WriteFile temporaryPath contents);
  _ ← wrap_err (λ e, Errorf "sync torrent metadata: " e "") (ExecContext id);
  _ ← wrap_err (λ e, Errorf "close torrent metadata: " e "") (ExecContext id);
  wrap_err (λ e, Errorf "commit torrent metadata: " e "") (os_Rename temporaryPath target).

(** [defer os.Remove(temporaryPath)]. *)
Definition removing (temporaryPath : string) {B} (m : M disk B) : M disk B := λ d,
  let '(r, d) := m d in (r, (os_Remove temporaryPath d).2).

Definition write_import (temporaryPath target : string) (contents : list Z) : M disk unit :=
  _ ← wrap_err (λ e, Errorf "create torrent metadata directory: " e "") os_MkdirAll;
  _ ← wrap_err (λ e, Errorf "create temporary torrent metadata: " e "") (os_WriteFile temporaryPath []);
  removing temporaryPath (fill_import temporaryPath target contents).

Definition Import (temporaryPath : string) (source : res (list Z)) : M (registries * disk) SourceImportResult :=
  contents ← wrap_err (λ e, Errorf "read torrent upload: " e "") (lift source);
  metadata ← ReadCatalog dataRoot (decode contents);
  let target := JoinPath [root; tc_InfoHash metadata +:+ ".torrent"] in
  _ ← zoom snd (λ d w, (w.1, d)) (write_import temporaryPath target contents);
  _ ← wrap_err (λ e, Errorf "scan imported torrent metadata: " e "") ScanNow;
  mret (mkImportResult (tc_InfoHash metadata) (tc_Name metadata) (Z.of_nat (length (tc_Tracks metadata)))).

Section atomic.
Context (temporaryPath target : string) (Hne : temporaryPath ≠ target).

Definition target_of (d : disk) : option (list Z) := tables d !! target.

Lemma statement_keeps {B} (f : gmap string (list Z) → res (B * gmap string (list Z))) :
  (∀ t b t', f t = Ok (b, t') → t' !! target = t !! target) → read_only target_of (statement f).
Proof.
  intros Hf d r d' E. unfold target_of. destruct r as [b|e].
  - apply statement_Ok in E. by eapply Hf.
  - by apply statement_clean in E as ->.
Qed.

Lemma write_temporary_keeps contents : read_only target_of (os_WriteFile temporaryPath contents).
Proof. apply statement_keeps. intros t b t' [= _ <-]. by rewrite lookup_insert_ne. Qed.

Lemma exec_id_keeps : read_only target_of (ExecContext id).
Proof. apply statement_keeps. by intros t b t' [= _ <-]. Qed.

Lemma remove_temporary_keeps : read_only target_of (os_Remove temporaryPath).
Proof.
  apply statement_keeps. intros t b t' E. destruct (t !! temporaryPath); [|done].
  injection E as _ <-. by rewrite lookup_delete_ne.
Qed.

Lemma fill_import_clean contents : fails_clean target_of (fill_import temporaryPath target contents).
Proof.
  unfold fill_import.
  do 3 (apply fails_clean_bind; [apply read_only_wrap_err; auto using write_temporary_keeps, exec_id_keeps|intros _]).
  apply fails_clean_wrap_err. intros d e d' E. apply statement_clean in E. unfold target_of. by rewrite E.
Qed.

Lemma fill_import_Ok contents d u d' :
  fill_import temporaryPath target contents d = (Ok u, d') → target_of d' = Some contents.
Proof.
  intros E. unfold target_of. apply bind_Ok_inv in E as (? & d4 & E4%wrap_err_Ok_inv%ExecContext_Ok & E).
  apply bind_Ok_inv in E as (? & d5 & E5%wrap_err_Ok_inv%ExecContext_Ok & E).
  apply bind_Ok_inv in E as (? & d6 & E6%wrap_err_Ok_inv%ExecContext_Ok & E).
  apply wrap_err_Ok_inv, statement_Ok in E. unfold id in *. rewrite E6, E5, E4, lookup_insert_eq in E.
  injection E as _ <-. by rewrite lookup_insert_eq.
Qed.

(** The upload is written as a whole or the old file stays. *)
Lemma import_is_atomic contents d r d' :
  write_import temporaryPath target contents d = (r, d') →
  tables d' !! target = if is_ok r then Some contents else tables d !! target.
Proof.
  unfold write_import. intros E.
  assert (read_only target_of (wrap_err (λ e, Errorf "create torrent metadata directory: " e "") (os_MkdirAll (A := list Z)))) as Hdir
    by apply read_only_wrap_err, exec_id_keeps.
  assert (read_only target_of (wrap_err (λ e, Errorf "create temporary torrent metadata: " e "") (os_WriteFile temporaryPath []))) as Htmp
    by apply read_only_wrap_err, write_temporary_keeps.
  unfold mbind, M_bind in E.
  destruct (wrap_err _ os_MkdirAll d) as [[?|?] d1] eqn:E1; apply Hdir in E1; [|by injection E as <- <-].
  destruct (wrap_err _ (os_WriteFile _ _) d1) as [[?|?] d2] eqn:E2; apply Htmp in E2; rewrite E1 in E2; [|by injection E as <- <-].
  unfold removing in E. destruct (fill_import _ _ _ d2) as [r3 d3] eqn:E3.
  destruct (os_Remove temporaryPath d3) as [r4 d4] eqn:E4. apply remove_temporary_keeps in E4.
  injection E as <- <-. change (target_of d4 = if is_ok r3 then Some contents else target_of d). rewrite E4, <- E2.
  destruct r3; [by eapply fill_import_Ok|by eapply fill_import_clean].
Qed.
End atomic.
End import.

(** * Managing *)

Section manage.
Context `{Runtime} `{Unicode} `{TextNorm} (metadataRoot dataRoot : string).

(** [SourceManager] hands its calls on, and scans again after a removal. *)
Definition ManagerRemoveSource (ScanNow : M provider Report) (id : string) (deleteData : bool) : M provider unit :=
  _ ← RemoveSource metadataRoot dataRoot id deleteData;
  _ ← wrap_err (λ e, Errorf "synchronize catalog after source removal: " e "") ScanNow;
  mret tt.
End manage.
