(* ===== verification/SoulseekRefs.v ===== *)
(** References to files of Soulseek peers and where the provider keeps them
    ([decodeRemoteFileRef] and the functions from [sanitizedFilename] on of
    [soulseek/download.go]). *)
From stdpp Require Import base gmap strings list.
From Stdlib Require Import ZArith Lia Ascii.
From S2P Require Import Prelude GoStrings GoHash Paths Music AudioFormats.

Open Scope Z_scope.

Definition soulseek_Name : string := "soulseek".

(** * References *)

Record remoteFileRef := mkRemote {
  rf_Peer : string;
  rf_Path : string;
  rf_Size : Z;
}.

#[export] Instance remoteFileRef_eq_dec : EqDecision remoteFileRef.
Proof. solve_decision. Defined.

(** Package [encoding/json] on this struct.  A string whose bytes are not UTF-8
    is not written as it is, so the round trip is promised for the others. *)
Class RemoteJSON := {
  Marshal_remote : remoteFileRef → list Z;
  Unmarshal_remote : list Z → res remoteFileRef;
}.

Definition valid_utf8 (s : string) : Prop := of_runes (runes s) = s.

Class RemoteJSONLaws `{RemoteJSON} := {
  law_Marshal_bytes r : byte_list (Marshal_remote r);
  law_Unmarshal r : valid_utf8 (rf_Peer r) → valid_utf8 (rf_Path r) →
    Unmarshal_remote (Marshal_remote r) = Ok r;
}.

Definition trimmed (r : remoteFileRef) : remoteFileRef :=
  mkRemote (TrimSpace (rf_Peer r)) (TrimSpace (rf_Path r)) (rf_Size r).

Definition remote_ok (r : remoteFileRef) : bool :=
  negb (bool_decide (rf_Peer r = "")) && negb (bool_decide (rf_Path r = "")) && (0 <? rf_Size r).

Section refs.
Context `{RemoteJSON}.

Definition encodeRemoteFileRef (r : remoteFileRef) : string := RawURLEncode (Marshal_remote r).

Definition decodeRemoteFileRef (key : string) : res remoteFileRef :=
  match RawURLDecode key with
  | Err e => Err (Errorf "decode Soulseek source reference: " e "")
  | Ok encoded =>
      match Unmarshal_remote encoded with
      | Err e => Err (Errorf "decode Soulseek source reference: " e "")
      | Ok remote =>
          if remote_ok (trimmed remote) then Ok (trimmed remote)
          else Err (Plain "invalid Soulseek source reference")
      end
  end.
End refs.

(** * Names on this side *)

Definition is_separator (r : Z) : bool := (r =? 47) || (r =? 92).
Definition backslash : ascii := "\"%char.

Fixpoint map_bytes (f : ascii → ascii) (s : string) : string :=
  match s with
  | EmptyString => EmptyString
  | String a s' => String (f a) (map_bytes f s')
  end.

Definition sanitized_byte (a : ascii) : ascii :=
  if bool_decide (a = "000"%char) || bool_decide (a = slash) || bool_decide (a = backslash) then "_"%char else a.

Definition sanitizedPathSegment (value : string) : string :=
  let value := map_bytes sanitized_byte value in
  if bool_decide (value = ".") || bool_decide (value = "..") then "_" else value.

Definition sanitizedFilename (path : string) : string :=
  match last (FieldsFunc path is_separator) with
  | None => "audio"
  | Some part => sanitizedPathSegment part
  end.

(** [strings.ReplaceAll(path, "\\", "/")]. *)
Definition with_slashes (path : string) : string :=
  map_bytes (λ a, if bool_decide (a = backslash) then slash else a) path.

Fixpoint span_bytes (p : ascii → bool) (s : string) : nat :=
  match s with
  | String a s' => if p a then S (span_bytes p s') else 0%nat
  | EmptyString => 0%nat
  end.

Definition separator_byte (a : ascii) : bool := is_separator (byte_of a).
Definition letter_byte (a : ascii) : bool := ascii_upper (byte_of a) || ascii_lower (byte_of a).
Definition alnum_byte (a : ascii) : bool := letter_byte a || ascii_digit (byte_of a).

(** [[/\\]?] at the end of the patterns. *)
Definition drop_separator (s : string) : string :=
  match s with
  | String a s' => if separator_byte a then s' else s
  | EmptyString => s
  end.

(** The patterns are anchored, so [ReplaceAllString] drops one match at most. *)
Definition strip_driveRoot (s : string) : string :=
  match s with
  | String a (String c s') => if letter_byte a && bool_decide (c = ":"%char) then drop_separator s' else s
  | _ => s
  end.

Definition strip_uncRoot (s : string) : string :=
  match s with
  | String a (String b s') =>
      let n := span_bytes (λ a, negb (separator_byte a)) s' in
      if separator_byte a && separator_byte b && (1 <=? n)%nat then drop_separator (str_drop n s') else s
  | _ => s
  end.

Definition strip_soulseekQtRoot (s : string) : string :=
  let rest := str_drop 2 s in
  let n := span_bytes alnum_byte rest in
  if HasPrefix s "@@" && (5 <=? n)%nat then drop_separator (str_drop n rest) else s.

Definition sanitizedRemoteDirectory (path : string) : string :=
  let path := strip_soulseekQtRoot (strip_uncRoot (strip_driveRoot (with_slashes path))) in
  let parts := FieldsFunc path is_separator in
  if (length parts <=? 1)%nat then "" else JoinPath (map sanitizedPathSegment (removelast parts)).

Definition final_path (downloadsDir trackID name : string) : string := JoinPath [downloadsDir; trackID; name].

Definition incomplete_path (incompleteDir : string) (remote : remoteFileRef) (name : string) : string :=
  JoinPath [incompleteDir; sanitizedPathSegment (rf_Peer remote); sanitizedRemoteDirectory (rf_Path remote); name].

Example drive_root : sanitizedRemoteDirectory "C:\Music\..\Album\01.mp3" = "Music/_/Album".
Proof. vm_compute. reflexivity. Qed.

Example qt_root : sanitizedRemoteDirectory "@@abcde\Music\Album\01.mp3" = "Music/Album".
Proof. vm_compute. reflexivity. Qed.

Example unc_root : sanitizedRemoteDirectory "\\server\Music\01.mp3" = "Music".
Proof. vm_compute. reflexivity. Qed.

(** * Everything stays inside *)

(** [Forall] over a list that is written out. *)
Ltac each_of := repeat apply Forall_cons_2; try apply Forall_nil_2.

Lemma str_length_map f s : String.length (map_bytes f s) = String.length s.
Proof. induction s as [|a s IH]; cbn; [done|by rewrite IH]. Qed.

Lemma map_bytes_lacks f c s : (∀ a, f a ≠ c) → lacks c (map_bytes f s).
Proof.
  intros Hf. unfold lacks. induction s as [|a s IH]; cbn; [by intros ?%elem_of_nil|].
  apply not_elem_of_cons. split; [|done]. intros E. by apply (Hf a).
Qed.

Lemma sanitized_proper value : value ≠ "" → proper (sanitizedPathSegment value).
Proof.
  intros Hv. unfold sanitizedPathSegment. set (v := map_bytes sanitized_byte value).
  assert (v ≠ "") as Hn.
  { intros E. apply Hv. pose proof (str_length_map sanitized_byte value) as Hl. fold v in Hl. rewrite E in Hl.
    by destruct value. }
  assert (lacks slash v) as Hs.
  { apply map_bytes_lacks. intros a. unfold sanitized_byte. destruct (_ || _) eqn:E; [done|].
    apply orb_false_iff in E as [[_ E]%orb_false_iff _]. by apply bool_decide_eq_false in E. }
  destruct (bool_decide (v = ".")) eqn:E1; [cbn [orb]; repeat split; try done; by compute_done|].
  destruct (bool_decide (v = "..")) eqn:E2; [cbn [orb]; repeat split; try done; by compute_done|].
  apply bool_decide_eq_false in E1, E2. cbn [orb]. done.
Qed.

Lemma decode_rune_width b bs : (1 ≤ (decode_rune (b :: bs)).2)%nat.
Proof. unfold decode_rune. repeat case_match; cbn; lia. Qed.

Lemma segments_fuel_nonempty fuel bs x : x ∈ segments_fuel fuel bs → x.2 ≠ [].
Proof.
  revert bs. induction fuel as [|fuel IH]; intros bs; [by intros ?%elem_of_nil|].
  destruct bs as [|b bs]; cbn [segments_fuel]; [by intros ?%elem_of_nil|].
  pose proof (decode_rune_width b bs) as Hw. destruct (decode_rune (b :: bs)) as [r w]. cbn in Hw.
  intros [-> |Hx]%elem_of_cons; [|by apply IH in Hx]. cbn. destruct w; [lia|done].
Qed.

Lemma fields_aux_elems {A} (p : A → bool) cur l x :
  x ∈ fields_aux p cur l → x ≠ [] ∧ ∀ y, y ∈ x → y ∈ cur ∨ y ∈ l.
Proof.
  revert cur x. induction l as [|a l IH]; intros cur x; cbn [fields_aux].
  - destruct cur; [by intros ?%elem_of_nil|]. intros ->%list_elem_of_singleton. split; [done|]. by left.
  - assert (∀ z, z ∈ fields_aux p [] l → z ≠ [] ∧ ∀ y, y ∈ z → y ∈ cur ∨ y ∈ a :: l) as Hrest.
    { intros z Hz. apply IH in Hz as [Hn Hy]. split; [done|]. intros y [?%elem_of_nil|?]%Hy; [done|]. right. by right. }
    destruct (p a).
    + destruct cur as [|c cur]; [apply Hrest|]. intros [-> |Hx]%elem_of_cons; [|by apply Hrest].
      split; [done|]. by left.
    + intros Hx. apply IH in Hx as [Hn Hy]. split; [done|]. intros y [[?|?%list_elem_of_singleton]%elem_of_app|?]%Hy.
      * by left.
      * subst. right. by left.
      * right. by right.
Qed.

Lemma of_bytes_nonempty l : l ≠ [] → of_bytes l ≠ "".
Proof. by destruct l. Qed.

Lemma FieldsFunc_nonempty s p x : x ∈ FieldsFunc s p → x ≠ "".
Proof.
  unfold FieldsFunc. change (map ?f ?l) with (f <$> l). intros (l & -> & Hl)%list_elem_of_fmap.
  apply fields_aux_elems in Hl as [Hn Hy]. unfold of_segments. apply of_bytes_nonempty.
  destruct l as [|y l]; [done|]. destruct (Hy y) as [?%elem_of_nil|Hin]; [by left|done|].
  apply segments_fuel_nonempty in Hin. cbn. by destruct y.2.
Qed.

Lemma sanitizedFilename_proper path : proper (sanitizedFilename path).
Proof.
  unfold sanitizedFilename. destruct (last _) as [part|] eqn:E; [|by repeat split; try done; compute_done].
  apply sanitized_proper, (FieldsFunc_nonempty path is_separator). by apply last_Some_elem_of.
Qed.

Lemma JoinPath_relative names : names ≠ [] → Forall proper names → JoinPath names = Join names "/".
Proof.
  intros Hn Hp. unfold JoinPath.
  assert (List.filter (λ e, negb (bool_decide (e = ""))) names = names) as ->.
  { clear Hn. induction Hp as [|e l [[He _] _] _ IH]; [done|]. cbn. rewrite bool_decide_eq_false_2 by done.
    cbn. by rewrite IH. }
  destruct names; [done|]. by apply Clean_proper.
Qed.

Lemma sanitizedRemoteDirectory_proper path :
  ∃ names, Forall proper names ∧ sanitizedRemoteDirectory path = Join names "/".
Proof.
  unfold sanitizedRemoteDirectory. set (p := strip_soulseekQtRoot _). set (parts := FieldsFunc p is_separator).
  destruct (length parts <=? 1)%nat eqn:E; [by exists []|].
  assert (Forall proper (map sanitizedPathSegment (removelast parts))) as Hp.
  { apply Forall_map, Forall_forall. intros x Hx. apply sanitized_proper, (FieldsFunc_nonempty p is_separator).
    fold parts. rewrite (app_removelast_last "" (l := parts)) by (intros E'; by rewrite E' in E).
    apply elem_of_app. by left. }
  exists (map sanitizedPathSegment (removelast parts)). split; [done|]. apply JoinPath_relative; [|done].
  apply Nat.leb_gt in E. destruct parts as [|x [|y l]]; cbn in *; [lia|lia|done].
Qed.

(** Joining a path of proper names in between is joining the names. *)
Lemma JoinPath_nested root x names n :
  Forall proper root → proper x → Forall proper names → proper n →
  JoinPath [abs_path root; x; Join names "/"; n] = abs_path (root ++ x :: names ++ [n]).
Proof.
  intros Hr Hx Hns Hn. destruct names as [|y l].
  - transitivity (JoinPath [abs_path root; x; n]); [|apply JoinPath_proper; try done; by each_of].
    unfold JoinPath. cbn [List.filter]. by rewrite (bool_decide_eq_true_2 (Join [] "/" = "")).
  - assert (Forall proper (x :: (y :: l) ++ [n])) as Hall.
    { apply Forall_cons_2; [done|]. apply Forall_app. split; [done|by each_of]. }
    rewrite <- JoinPath_proper by done.
    assert (∀ e, proper e → bool_decide (e = "") = false) as Hne by (intros e [[He _] _]; by apply bool_decide_eq_false_2).
    assert (∀ k, Forall proper k → List.filter (λ e, negb (bool_decide (e = ""))) k = k) as Hf.
    { intros k. induction 1 as [|e k He _ IH]; [done|]. cbn. rewrite Hne by done. cbn. by rewrite IH. }
    unfold JoinPath. cbn [List.filter]. rewrite (bool_decide_eq_false_2 (abs_path root = "")) by done.
    rewrite (Hne x Hx), (Hne n Hn). cbn [negb].
    assert (bool_decide (Join (y :: l) "/" = "") = false) as ->.
    { apply bool_decide_eq_false_2. apply Forall_cons in Hns as [[[Hy _] _] _]. destruct l; [done|]. rewrite Join_cons. by destruct y. }
    cbn [negb]. apply Forall_cons in Hall as [_ Hall]. rewrite Hf by done. f_equal.
    rewrite (Join_cons (abs_path root) x ((y :: l) ++ [n])). rewrite Join_cons. do 2 f_equal.
    change (x :: (y :: l) ++ [n]) with ([x] ++ ((y :: l) ++ [n])). rewrite (Join_app [x]), (Join_app (y :: l) [n]) by done.
    done.
Qed.

(** A stable identifier is the name of a directory. *)
Lemma StableID_proper kind parts : kind ≠ "" → lacks slash kind → proper (StableID kind parts).
Proof.
  intros Hk Hs. unfold StableID.
  assert (lacks slash (kind +:+ "_" +:+ RawURLEncode (take 12 (Sum256 (bytes_of (id_input kind parts)))))) as Hl.
  { rewrite !lacks_app. split_and!; [done|by compute_done|]. apply b64_char_lacks. by compute_done. }
  repeat split; try done; try (by destruct kind); intros E.
  - destruct kind as [|a [|b kind]]; [done|injection E; discriminate|injection E; discriminate].
  - destruct kind as [|a [|b [|c kind]]]; [done|injection E; discriminate|injection E; discriminate|injection E; discriminate].
Qed.

(** What starts with an ASCII character that is not a space is not blank. *)
Lemma TrimSpace_starts a s : byte_of a < 128 → IsSpace (byte_of a) = false → TrimSpace (String a s) ≠ "".
Proof.
  intros Ha Hs. unfold TrimSpace. change (segments (String a s))
    with (let '(r, w) := decode_rune (bytes_of (String a s)) in
          (r, take w (bytes_of (String a s))) :: segments_fuel (String.length s) (drop w (bytes_of (String a s)))).
  change (bytes_of (String a s)) with (byte_of a :: bytes_of s). unfold decode_rune.
  destruct (byte_of a <? 0x80) eqn:E; [|lia]. cbn [drop_while fst]. rewrite Hs. unfold drop_while_end.
  set (l := segments_fuel _ _). cbn [rev]. unfold of_segments.
  assert (∀ k x, IsSpace x.1 = false → ∃ k', drop_while (λ x : Z * list Z, IsSpace x.1) (k ++ [x]) = k' ++ [x]) as Hdrop.
  { intros k x Hx. induction k as [|y k IH]; cbn; [rewrite Hx; by exists []|]. destruct (IsSpace y.1); [done|].
    by exists (y :: k). }
  destruct (Hdrop (rev l) (byte_of a, take 1 (byte_of a :: bytes_of s)) Hs) as [k' ->].
  rewrite rev_app_distr. cbn. done.
Qed.

Lemma soulseek_id_not_blank parts : TrimSpace (StableID soulseek_Name parts) ≠ "".
Proof. by apply TrimSpace_starts. Qed.

(** C36. The files of a Soulseek track stay inside the two directories the
    provider was given, whatever the peer calls them: under the track's
    directory the downloaded file, under the peer's the incomplete one, both
    with the same proper name. *)
Theorem soulseek_files_stay_inside downloads incomplete trackID remote :
  Forall proper downloads → Forall proper incomplete → proper trackID → rf_Peer remote ≠ "" →
  let name := sanitizedFilename (rf_Path remote) in
  ∃ peer directory, proper name ∧ proper peer ∧ Forall proper directory ∧
    final_path (abs_path downloads) trackID name = abs_path (downloads ++ [trackID; name]) ∧
    incomplete_path (abs_path incomplete) remote name = abs_path (incomplete ++ peer :: directory ++ [name]).
Proof.
  intros Hd Hi Ht Hp name. assert (proper name) as Hn by apply sanitizedFilename_proper.
  destruct (sanitizedRemoteDirectory_proper (rf_Path remote)) as (names & Hns & E).
  exists (sanitizedPathSegment (rf_Peer remote)), names.
  assert (proper (sanitizedPathSegment (rf_Peer remote))) as Hpeer by by apply sanitized_proper.
  split_and!; try done.
  - apply JoinPath_proper; [done|done|by each_of].
  - unfold incomplete_path. rewrite E. by apply JoinPath_nested.
Qed.

Lemma soulseek_files_stay_inside_witness :
  ∃ peer directory,
    incomplete_path "/data/incomplete" (mkRemote "../peer" "C:\Music\..\a.mp3" 3) "a.mp3" =
      abs_path (["data"; "incomplete"] ++ peer :: directory ++ ["a.mp3"]).
Proof.
  assert (∀ e, bool_decide (e = "") = false → bool_decide (e = ".") = false → bool_decide (e = "..") = false →
    bool_decide (lacks slash e) = true → proper e) as Hp.
  { intros e H1%bool_decide_eq_false H2%bool_decide_eq_false H3%bool_decide_eq_false H4%bool_decide_eq_true. done. }
  destruct (soulseek_files_stay_inside ["data"; "downloads"] ["data"; "incomplete"] "track_x"
    (mkRemote "../peer" "C:\Music\..\a.mp3" 3)) as (peer & directory & _ & _ & _ & _ & E).
  - repeat constructor; apply Hp; vm_compute; reflexivity.
  - repeat constructor; apply Hp; vm_compute; reflexivity.
  - apply Hp; vm_compute; reflexivity.
  - discriminate.
  - exists peer, directory. exact E.
Defined.

(** A toy JSON for the concrete examples: every reference is to one file. *)
Definition toy_json : RemoteJSON := {|
  Marshal_remote r := bytes_of (rf_Path r);
  Unmarshal_remote bs := Ok (mkRemote "peer" "a.mp3" 3);
|}.

(** A codec for the concrete examples that keeps the laws: lengths and the size in unary. *)
Fixpoint read_unary (bs : list Z) : option (nat * list Z) :=
  match bs with
  | [] => None
  | b :: bs =>
      if b =? 0 then Some (0%nat, bs)
      else match read_unary bs with Some (n, rest) => Some (S n, rest) | None => None end
  end.

Definition write_unary (n : nat) : list Z := replicate n 1 ++ [0].

Lemma read_write_unary n bs : read_unary (write_unary n ++ bs) = Some (n, bs).
Proof. unfold write_unary. induction n as [|n IH]; [done|]. cbn in *. by rewrite IH. Qed.

Definition write_string (s : string) : list Z := write_unary (String.length s) ++ bytes_of s.

Definition read_string (bs : list Z) : option (string * list Z) :=
  match read_unary bs with
  | Some (n, rest) => Some (of_bytes (take n rest), drop n rest)
  | None => None
  end.

Lemma read_write_string s bs : read_string (write_string s ++ bs) = Some (s, bs).
Proof.
  unfold read_string, write_string. rewrite <- app_assoc, read_write_unary, <- (length_bytes_of s).
  by rewrite take_app_length, drop_app_length, of_bytes_of.
Qed.

Definition plain_json : RemoteJSON := {|
  Marshal_remote r := write_string (rf_Peer r) ++ write_string (rf_Path r) ++
    (if rf_Size r <? 0 then [1] else [0]) ++ write_unary (Z.to_nat (Z.abs (rf_Size r)));
  Unmarshal_remote bs :=
    match read_string bs with
    | Some (peer, bs) =>
        match read_string bs with
        | Some (path, sign :: bs) =>
            match read_unary bs with
            | Some (n, []) => Ok (mkRemote peer path (if sign =? 0 then Z.of_nat n else - Z.of_nat n))
            | _ => Err (Plain "invalid size")
            end
        | _ => Err (Plain "invalid path")
        end
    | None => Err (Plain "invalid peer")
    end;
|}.

Lemma write_unary_bytes n : byte_list (write_unary n).
Proof. unfold byte_list, write_unary. apply Forall_app. split; [by apply Forall_replicate|by repeat constructor]. Qed.

Lemma write_string_bytes s : byte_list (write_string s).
Proof.
  unfold write_string, byte_list. apply Forall_app. split; [apply write_unary_bytes|].
  induction s as [|a s IH]; cbn; [constructor|]. constructor; [apply byte_of_range|done].
Qed.

Lemma plain_json_laws : @RemoteJSONLaws plain_json.
Proof.
  split.
  - intros r. cbn. unfold byte_list. rewrite !Forall_app. split_and!; try apply write_string_bytes; try apply write_unary_bytes.
    by destruct (rf_Size r <? 0); repeat constructor.
  - intros [peer path size] _ _. cbn [Unmarshal_remote Marshal_remote plain_json rf_Peer rf_Path rf_Size]. rewrite read_write_string, read_write_string.
    destruct (Z.ltb_spec size 0); cbn [app]; rewrite <- (app_nil_r (write_unary _)), read_write_unary; cbn; repeat f_equal; lia.
Qed.
