(* ===== verification/SoulseekClient.v ===== *)
(** The HTTP client of slskd ([soulseek/slskd.go], [doJSON] and
    [acquirePeerOperation]): what its answers mean, when a call is tried again,
    and the gates that let one operation per peer through at a time.

    What the HTTP client of the standard library reports for a request is an
    argument: its error, or the status code, the text of the body and what
    decoding the body gives. *)
From stdpp Require Import base gmap strings list.
From Stdlib Require Import ZArith Lia.
From S2P Require Import Prelude GoStrings Counting.

Open Scope Z_scope.
Open Scope go_scope.

(** * Answers *)

Record answer (A : Type) := mkAnswer {
  StatusCode : Z;
  ans_Text : string;
  ans_Body : res A;
}.
Arguments mkAnswer {_} _ _ _.
Arguments StatusCode {_} _.
Arguments ans_Text {_} _.
Arguments ans_Body {_} _.

Definition unavailable (message : string) : error := Errorf "" (Sentinel ErrSourceUnavailable) (": " +:+ message).

Definition slskdHTTPError (statusCode : Z) (message : string) : error :=
  StatusError statusCode ("slskd returned HTTP " +:+ Itoa statusCode +:+ ": " +:+ message).

(** [doJSON]: [None] when there is nothing to decode. *)
Definition doJSON {A} (reply : res (answer A)) : res (option A) :=
  match reply with
  | Err e => Err (unavailable (Error e))
  | Ok a =>
      let status := StatusCode a in
      if (status =? 401) || (status =? 403) then Err (unavailable "slskd rejected the API key")
      else if (status <? 200) || (300 <=? status) then
        let responseErr := slskdHTTPError status (TrimSpace (ans_Text a)) in
        if (status =? 408) || (status =? 429) || (500 <=? status)
        then Err (Errorf2 (Sentinel ErrSourceUnavailable) ": " responseErr)
        else Err responseErr
      else if status =? 204 then Ok None
      else
        match ans_Body a with
        | Err e => Err (Errorf "decode slskd response: " e "")
        | Ok body => Ok (Some body)
        end
  end.

Definition isSlskdHTTPStatus (e : error) (status : Z) : bool := bool_decide (errors_As_status e = Some status).

Definition temporarySlskdError `{Unicode} (e : error) : bool :=
  if errors_Is ErrContextCanceled e then false
  else if errors_Is ErrDeadlineExceeded e then true
  else
    match errors_As_status e with
    | Some code => (code =? 429) || (500 <=? code)
    | None =>
        let message := ToLower (Error e) in
        Contains message "timeout" || Contains message "timed out"
        || Contains message "connection reset" || Contains message "connection refused"
    end.

Definition peerBusyRetryAttempts : nat := 4.

(** The loop of [doPeerJSON], with the gate held: the reply to every attempt, and
    what [ctx.Err()] says while it waits for the next one. *)
Fixpoint peer_attempts {A} (attempts : nat) (replies : list (res (answer A))) (waits : list (option error))
    : res (option A) :=
  match attempts, replies with
  | S attempts, reply :: replies =>
      match doJSON reply with
      | Ok a => Ok a
      | Err e =>
          if negb (isSlskdHTTPStatus e 429) || (attempts =? 0)%nat then Err e
          else
            match waits with
            | Some cancelled :: _ => Err (unavailable ("wait to retry slskd peer operation: " +:+ Error cancelled))
            | _ => peer_attempts attempts replies (tail waits)
            end
      end
  | _, _ => Err (unavailable "no reply")
  end.

Definition doPeerJSON {A} (replies : list (res (answer A))) (waits : list (option error)) : res (option A) :=
  peer_attempts peerBusyRetryAttempts replies waits.

(** * One operation per peer *)

Definition peer_key `{Unicode} (peer : string) : string := ToLower (TrimSpace peer).

(** [peerOperationGate]: whether the one place of [semaphore] is taken. *)
Record peerOperationGate := mkGate {
  semaphore : bool;
  users : Z;
}.

(** Where a call is: waiting for the place, having it, or having given it back;
    with the address of the gate it found. *)
Inductive call_point := WaitsGate | HasGate | LeavesGate.

Record peer_call := mkCall {
  call_point_of : call_point;
  call_key : string;
  call_gate : N;
}.

Record peer_gates := mkGates {
  gates : gmap N peerOperationGate;
  peerOperations : gmap string N;
  calls : list peer_call;
}.

Definition has_gate (c : peer_call) : bool := match call_point_of c with HasGate => true | _ => false end.

Definition add_users (n : Z) (g : peerOperationGate) : peerOperationGate := mkGate (semaphore g) (users g + n).
Definition set_semaphore (b : bool) (g : peerOperationGate) : peerOperationGate := mkGate b (users g).

(** The first critical section of [acquirePeerOperation]. *)
Definition enter_gate (key : string) (s : peer_gates) : peer_gates :=
  match peerOperations s !! key with
  | Some g => mkGates (alter (add_users 1) g (gates s)) (peerOperations s) (mkCall WaitsGate key g :: calls s)
  | None =>
      let g := N.of_nat (size (gates s)) in
      mkGates (<[g := mkGate false 1]> (gates s)) (<[key := g]> (peerOperations s)) (mkCall WaitsGate key g :: calls s)
  end.

Definition releasePeerOperation (key : string) (g : N) (s : peer_gates) : peer_gates :=
  let gs := alter (add_users (-1)) g (gates s) in
  let unused := match gs !! g with Some x => users x =? 0 | None => false end in
  mkGates gs (if unused && bool_decide (peerOperations s !! key = Some g) then delete key (peerOperations s)
              else peerOperations s) (calls s).

(** [p] without the call [t], which takes its step. *)
Definition calling (s : peer_gates) (t : peer_call) (rest : list peer_call) : Prop := calls s ≡ₚ t :: rest.

Definition with_calls (l : list peer_call) (s : peer_gates) : peer_gates := mkGates (gates s) (peerOperations s) l.

Inductive gate_step (s : peer_gates) : peer_gates → Prop :=
  | gate_enter key : gate_step s (enter_gate key s)
  | gate_acquire key g x rest :
      calling s (mkCall WaitsGate key g) rest → gates s !! g = Some x → semaphore x = false →
      gate_step s (mkGates (alter (set_semaphore true) g (gates s)) (peerOperations s) (mkCall HasGate key g :: rest))
  | gate_cancel key g rest :
      calling s (mkCall WaitsGate key g) rest → gate_step s (releasePeerOperation key g (with_calls rest s))
  | gate_leave key g rest :
      calling s (mkCall HasGate key g) rest →
      gate_step s (mkGates (alter (set_semaphore false) g (gates s)) (peerOperations s) (mkCall LeavesGate key g :: rest))
  | gate_left key g rest :
      calling s (mkCall LeavesGate key g) rest → gate_step s (releasePeerOperation key g (with_calls rest s)).

Inductive gates_reachable : peer_gates → Prop :=
  | gates_new : gates_reachable (mkGates ∅ ∅ [])
  | gates_step s s' : gates_reachable s → gate_step s s' → gates_reachable s'.

(** * At most one at a time *)

Definition of_gate (g : N) (c : peer_call) : bool := bool_decide (call_gate c = g).
Definition in_gate (g : N) (c : peer_call) : bool := has_gate c && of_gate g c.

Definition gate_ok (s : peer_gates) (g : N) (x : peerOperationGate) : Prop :=
  users x = Z.of_nat (length (List.filter (of_gate g) (calls s))) ∧
  length (List.filter (in_gate g) (calls s)) = (if semaphore x then 1%nat else 0%nat).

Record gates_ok (s : peer_gates) : Prop := {
  go_addresses g : is_Some (gates s !! g) ↔ (g < N.of_nat (size (gates s)))%N;
  go_gates g x : gates s !! g = Some x → gate_ok s g x;
  go_calls : Forall (λ c, peerOperations s !! call_key c = Some (call_gate c)) (calls s);
  go_known k g : peerOperations s !! k = Some g → is_Some (gates s !! g) ∧ ∃ c, c ∈ calls s ∧ call_gate c = g;
  go_inj k k' g : peerOperations s !! k = Some g → peerOperations s !! k' = Some g → k = k';
}.

Lemma gates_ok_perm l s : calls s ≡ₚ l → gates_ok s → gates_ok (with_calls l s).
Proof.
  intros Hp [Ha Hg Hc Hk Hi]. split; try done.
  - intros g x Hx. destruct (Hg g x Hx) as [Hu Hs]. unfold gate_ok. cbn [calls with_calls].
    by rewrite <- !(filter_perm_length _ _ _ Hp).
  - cbn. by rewrite <- Hp.
  - intros k g Hkg. destruct (Hk k g Hkg) as [Hs (c & Hc' & E)]. split; [done|]. exists c. split; [|done].
    cbn. by rewrite <- Hp.
Qed.

Lemma size_alter f g (m : gmap N peerOperationGate) : size (alter f g m) = size m.
Proof.
  rewrite <- !size_dom. f_equal. apply set_eq. intros k. rewrite !elem_of_dom, lookup_alter_is_Some. done.
Qed.

(** The gate of one call changes; the other gates do not notice. *)
Lemma gates_ok_alter f key g a b rest s :
  gates_ok (with_calls (mkCall a key g :: rest) s) →
  (∀ x, gates s !! g = Some x → gate_ok (with_calls (mkCall a key g :: rest) s) g x →
        gate_ok (with_calls (mkCall b key g :: rest) s) g (f x)) →
  gates_ok (mkGates (alter f g (gates s)) (peerOperations s) (mkCall b key g :: rest)).
Proof.
  intros [Ha Hg Hc Hk Hi] Hf. split; cbn [gates peerOperations calls] in *.
  - intros g'. rewrite size_alter, lookup_alter_is_Some. apply Ha.
  - intros g' x Hx. destruct (decide (g' = g)) as [->|Hne].
    + rewrite lookup_alter_eq in Hx. destruct (gates s !! g) as [y|] eqn:Ey; [|done]. injection Hx as <-.
      apply Hf; [done|]. by apply Hg.
    + rewrite lookup_alter_ne in Hx by done. destruct (Hg g' x Hx) as [Hu Hs]. unfold gate_ok in *.
      cbn [calls with_calls List.filter] in *. unfold in_gate, of_gate in *. cbn [call_gate] in *.
      rewrite (bool_decide_eq_false_2 (g = g')) in * by done. rewrite andb_false_r in *. done.
  - apply Forall_cons in Hc as [Hc1 Hc]. by constructor.
  - intros k g' Hkg. destruct (Hk k g' Hkg) as [Hs (c & [-> |Hin]%elem_of_cons & E)];
      (split; [by rewrite lookup_alter_is_Some|]).
    + exists (mkCall b key g). split; [by left|done].
    + exists c. split; [by right|done].
  - done.
Qed.

Lemma gate_ok_of l s g x : gate_ok (with_calls l s) g x ↔
  users x = Z.of_nat (length (List.filter (of_gate g) l)) ∧
  length (List.filter (in_gate g) l) = (if semaphore x then 1%nat else 0%nat).
Proof. done. Qed.

Lemma filter_own a key g rest :
  length (List.filter (of_gate g) (mkCall a key g :: rest)) = S (length (List.filter (of_gate g) rest)) ∧
  length (List.filter (in_gate g) (mkCall a key g :: rest)) =
    ((match a with HasGate => 1 | _ => 0 end) + length (List.filter (in_gate g) rest))%nat.
Proof.
  unfold in_gate, of_gate, has_gate. cbn [List.filter call_gate call_point_of].
  rewrite bool_decide_eq_true_2 by done. rewrite andb_true_r. by destruct a.
Qed.

Lemma enter_gate_ok key s : gates_ok s → gates_ok (enter_gate key s).
Proof.
  intros Hok. unfold enter_gate. destruct (peerOperations s !! key) as [g|] eqn:Ek.
  - pose proof Hok as [Ha Hg Hc Hk Hi]. split; cbn [gates peerOperations calls].
    + intros g'. rewrite size_alter, lookup_alter_is_Some. apply Ha.
    + intros g' x Hx. unfold gate_ok. cbn [calls]. destruct (decide (g' = g)) as [->|Hne].
      * rewrite lookup_alter_eq in Hx. destruct (gates s !! g) as [y|] eqn:Ey; [|done]. injection Hx as <-.
        destruct (Hg g y Ey) as [Hu Hs]. destruct (filter_own WaitsGate key g (calls s)) as [-> ->]. cbn. split; [lia|done].
      * rewrite lookup_alter_ne in Hx by done. destruct (Hg g' x Hx) as [Hu Hs]. cbn [List.filter].
        unfold in_gate, of_gate in *. cbn. by rewrite bool_decide_eq_false_2.
    + by constructor.
    + intros k g' Hkg. destruct (Hk k g' Hkg) as [Hs (c & Hin & E)]. split; [by rewrite lookup_alter_is_Some|].
      exists c. split; [by right|done].
    + done.
  - destruct Hok as [Ha Hg Hc Hk Hi]. set (g := N.of_nat (size (gates s))).
    assert (gates s !! g = None) as Hfresh.
    { apply eq_None_not_Some. intros H'%Ha. subst g. lia. }
    assert (∀ c, c ∈ calls s → call_gate c ≠ g) as Hother.
    { intros c Hin E. rewrite Forall_forall in Hc. specialize (Hc c Hin). rewrite E in Hc.
      destruct (Hk _ _ Hc) as [[y Hy] _]. congruence. }
    assert (List.filter (of_gate g) (calls s) = [] ∧ List.filter (in_gate g) (calls s) = []) as [Ho1 Ho2].
    { unfold in_gate, of_gate. revert Hother. clear. induction (calls s) as [|c l IH]; intros Ho; [done|].
      cbn. rewrite (bool_decide_eq_false_2 (call_gate c = g)) by (apply Ho; by left). rewrite andb_false_r.
      apply IH. intros c' Hc'. apply Ho. by right. }
    split; cbn [gates peerOperations calls].
    + intros g'. rewrite map_size_insert_None by done. destruct (decide (g' = g)) as [->|Hne].
      * rewrite lookup_insert_eq. subst g. split; [intros _; lia|by eauto].
      * rewrite lookup_insert_ne by done. rewrite Ha. subst g. lia.
    + intros g' x Hx. unfold gate_ok. cbn [calls]. destruct (decide (g' = g)) as [->|Hne].
      * rewrite lookup_insert_eq in Hx. injection Hx as <-.
        destruct (filter_own WaitsGate key g (calls s)) as [-> ->]. by rewrite Ho1, Ho2.
      * rewrite lookup_insert_ne in Hx by done. destruct (Hg g' x Hx) as [Hu Hs]. cbn [List.filter].
        unfold in_gate, of_gate in *. cbn. by rewrite bool_decide_eq_false_2.
    + constructor; [by rewrite lookup_insert_eq|]. eapply Forall_impl; [exact Hc|]. cbn. intros c E.
      rewrite lookup_insert_ne; [done|]. intros E'. rewrite <- E' in E. congruence.
    + intros k g' Hkg. destruct (decide (k = key)) as [->|Hne].
      * rewrite lookup_insert_eq in Hkg. injection Hkg as <-. split; [by rewrite lookup_insert_eq|].
        exists (mkCall WaitsGate key g). split; [by left|done].
      * rewrite lookup_insert_ne in Hkg by done. destruct (Hk k g' Hkg) as [[y Hy] (c & Hin & E)].
        split; [rewrite lookup_insert_ne by congruence; eauto|]. exists c. split; [by right|done].
    + intros k k' g' H1 H2. destruct (decide (k = key)) as [->|Hne], (decide (k' = key)) as [->|Hne'];
        rewrite ?lookup_insert_eq, ?lookup_insert_ne in * by done; try done; [| |by eapply Hi].
      * injection H1 as <-. destruct (Hk k' g H2) as [[y Hy] _]. congruence.
      * injection H2 as <-. destruct (Hk k g H1) as [[y Hy] _]. congruence.
Qed.

Lemma release_gate_ok a key g rest s :
  a ≠ HasGate → gates_ok (with_calls (mkCall a key g :: rest) s) →
  gates_ok (releasePeerOperation key g (with_calls rest s)).
Proof.
  intros Ha' [Ha Hg Hc Hk Hi]. cbn [with_calls gates peerOperations calls] in *.
  apply Forall_cons in Hc as [Hkey Hc]. cbn in Hkey. destruct (Hk key g Hkey) as [[x Hx] _].
  destruct (Hg g x Hx) as [Hu Hs]. cbn [calls with_calls] in Hu, Hs.
  destruct (filter_own a key g rest) as [F1 F2]. rewrite F1 in Hu. rewrite F2 in Hs.
  unfold releasePeerOperation. cbn [with_calls gates peerOperations calls].
  rewrite lookup_alter_eq, Hx. cbn [fmap option_fmap option_map add_users users]. rewrite bool_decide_eq_true_2 by done.
  rewrite andb_true_r. set (unused := users x + -1 =? 0).
  assert (∀ k g', (if unused then delete key (peerOperations s) else peerOperations s) !! k = Some g' →
    peerOperations s !! k = Some g' ∧ (unused = true → k ≠ key)) as Hsub.
  { intros k g'. destruct unused; [|done]. intros [? ?]%lookup_delete_Some. done. }
  assert (unused = true → ∀ c, c ∈ rest → call_gate c ≠ g) as Hgone.
  { intros E%Z.eqb_eq c Hin Ec. assert (length (List.filter (of_gate g) rest) = 0%nat) as El by lia.
    apply length_zero_iff_nil in El. assert (c ∈ List.filter (of_gate g) rest) as Hf.
    { apply elem_of_filter_bool. split; [done|]. by apply bool_decide_eq_true_2. }
    rewrite El in Hf. by apply elem_of_nil in Hf. }
  split; cbn [gates peerOperations calls].
  - intros g'. rewrite size_alter, lookup_alter_is_Some. apply Ha.
  - intros g' y Hy. unfold gate_ok. cbn [calls]. destruct (decide (g' = g)) as [->|Hne].
    + rewrite lookup_alter_eq, Hx in Hy. injection Hy as <-. cbn. split; [lia|]. by destruct a.
    + rewrite lookup_alter_ne in Hy by done. destruct (Hg g' y Hy) as [Hu' Hs'].
      cbn [calls with_calls List.filter] in Hu', Hs'. unfold in_gate, of_gate in *. cbn [call_gate] in *.
      rewrite (bool_decide_eq_false_2 (g = g')) in Hu', Hs' by done. rewrite andb_false_r in Hs'. done.
  - rewrite Forall_forall in Hc |- *. intros c Hin. specialize (Hc c Hin). destruct unused eqn:Eu; [|done].
    rewrite lookup_delete_ne; [done|]. intros E. apply (Hgone eq_refl c Hin). rewrite <- E in Hc. congruence.
  - intros k g' Hkg. apply Hsub in Hkg as [Hkg Hne]. destruct (Hk k g' Hkg) as [Hs' (c & Hin & E)].
    split; [by rewrite lookup_alter_is_Some|]. apply elem_of_cons in Hin as [-> |Hin]; [|by exists c].
    cbn in E. subst g'. assert (k = key) as -> by by eapply Hi.
    destruct unused eqn:Eu; [by destruct (Hne eq_refl)|]. apply Z.eqb_neq in Eu.
    destruct (List.filter (of_gate g) rest) as [|c l] eqn:El; [cbn in Hu; lia|].
    assert (c ∈ List.filter (of_gate g) rest) as [Hin Hc']%elem_of_filter_bool by (rewrite El; by left).
    exists c. split; [done|]. by apply bool_decide_eq_true in Hc'.
  - intros k k' g' [H1 _]%Hsub [H2 _]%Hsub. by eapply Hi.
Qed.

Lemma gate_step_ok s s' : gates_ok s → gate_step s s' → gates_ok s'.
Proof.
  intros Hok. destruct 1 as [key|key g x rest Hc Hx Hs|key g rest Hc|key g rest Hc|key g rest Hc].
  - by apply enter_gate_ok.
  - apply (gates_ok_alter _ _ _ WaitsGate); [by apply gates_ok_perm|]. intros y Hy. rewrite Hy in Hx. injection Hx as ->.
    rewrite !gate_ok_of. destruct (filter_own WaitsGate key g rest) as [-> ->], (filter_own HasGate key g rest) as [-> ->].
    cbn. rewrite Hs. intros [? ?]. split; [done|lia].
  - by apply (release_gate_ok WaitsGate); [|apply gates_ok_perm].
  - apply (gates_ok_alter _ _ _ HasGate); [by apply gates_ok_perm|]. intros y Hy.
    rewrite !gate_ok_of. destruct (filter_own HasGate key g rest) as [-> ->], (filter_own LeavesGate key g rest) as [-> ->].
    cbn. intros [? E]. split; [done|]. destruct (semaphore y); lia.
  - by apply (release_gate_ok LeavesGate); [|apply gates_ok_perm].
Qed.

Lemma gates_reachable_ok s : gates_reachable s → gates_ok s.
Proof.
  induction 1 as [|s s' _ IH Hstep]; [|by eapply gate_step_ok]. split; cbn; try done.
  - intros g. rewrite lookup_empty, map_size_empty. split; [by intros [? ?]|lia].
Qed.

Lemma filter_le_one {A} (f : A → bool) l x y i j :
  (length (List.filter f l) ≤ 1)%nat → l !! i = Some x → l !! j = Some y → f x = true → f y = true → i = j.
Proof.
  revert i j. induction l as [|a l IH]; intros i j Hl Hi Hj Hx Hy; [done|].
  assert (∀ n z, l !! n = Some z → f z = true → f a = true → False) as Hno.
  { intros n z Hn Hz Ha. cbn in Hl. rewrite Ha in Hl. cbn in Hl.
    assert (z ∈ List.filter f l) as Hin.
    { apply elem_of_filter_bool. split; [|done]. by eapply list_elem_of_lookup_2. }
    destruct (List.filter f l); [by apply elem_of_nil in Hin|cbn in Hl; lia]. }
  destruct i as [|i], j as [|j]; cbn in Hi, Hj; try done.
  - injection Hi as ->. destruct (Hno j y Hj Hy Hx).
  - injection Hj as ->. destruct (Hno i x Hi Hx Hy).
  - f_equal. apply IH; try done. cbn in Hl. destruct (f a); cbn in Hl; lia.
Qed.

(** Operations on one peer are taken one at a time: of the calls in flight
    at most one has the gate of its peer; a gate is kept exactly as long as some
    call needs it; and a call that waits while nobody has the gate of its peer
    may go on, whatever calls for other peers do. *)
Theorem one_operation_per_peer s :
  gates_reachable s →
  (∀ i j c d, calls s !! i = Some c → calls s !! j = Some d → call_key c = call_key d →
    has_gate c = true → has_gate d = true → i = j) ∧
  (∀ key, is_Some (peerOperations s !! key) ↔ ∃ c, c ∈ calls s ∧ call_key c = key) ∧
  (∀ c, c ∈ calls s → call_point_of c = WaitsGate →
    (∀ d, d ∈ calls s → call_key d = call_key c → has_gate d = false) →
    ∃ s', gate_step s s' ∧ mkCall HasGate (call_key c) (call_gate c) ∈ calls s').
Proof.
  intros [Ha Hg Hc Hk Hi]%gates_reachable_ok. rewrite Forall_forall in Hc. split_and!.
  - intros i j c d Hci Hdj Ekey Hhc Hhd.
    pose proof (Hc c (list_elem_of_lookup_2 _ _ _ Hci)) as E1. pose proof (Hc d (list_elem_of_lookup_2 _ _ _ Hdj)) as E2.
    destruct (Hk _ _ E1) as [[x Hx] _]. destruct (Hg _ x Hx) as [_ Hs].
    eapply (filter_le_one (in_gate (call_gate c))); [rewrite Hs; destruct (semaphore x); lia|done|done| |];
      unfold in_gate, of_gate; rewrite ?Hhc, ?Hhd; apply bool_decide_eq_true_2; [done|]. congruence.
  - intros key. split.
    + intros [g Hg']. destruct (Hk key g Hg') as [_ (c & Hin & E)]. exists c. split; [done|].
      eapply Hi; [by apply Hc|]. by rewrite E.
    + intros (c & Hin & <-). rewrite (Hc c Hin). eauto.
  - intros [pt key g] Hin Ept Hno. cbn in *. subst pt. pose proof (Hc _ Hin) as Ekey. cbn in Ekey.
    destruct (Hk key g Ekey) as [[x Hx] _]. destruct (Hg g x Hx) as [_ Hs].
    apply elem_of_Permutation in Hin as [rest Hrest].
    eexists. split; [eapply (gate_acquire s key g x rest); [done|done|]|by left].
    destruct (semaphore x); [|done]. destruct (List.filter (in_gate g) (calls s)) as [|d l] eqn:El; [done|].
    assert (d ∈ List.filter (in_gate g) (calls s)) as [Hd Hf]%elem_of_filter_bool by (rewrite El; by left).
    apply andb_true_iff in Hf as [Hhas Hof%bool_decide_eq_true]. rewrite (Hno d) in Hhas; [done|done|].
    eapply Hi; [by apply Hc|]. by rewrite Hof.
Qed.

Definition two_calls : peer_gates := enter_gate "bob" (enter_gate "ann" (enter_gate "ann" (mkGates ∅ ∅ []))).

Lemma one_operation_per_peer_witness :
  gates_reachable two_calls ∧ is_Some (peerOperations two_calls !! "ann").
Proof.
  assert (gates_reachable two_calls) as Hr.
  { do 3 (eapply gates_step; [|apply gate_enter]). apply gates_new. }
  split; [exact Hr|]. apply (one_operation_per_peer two_calls Hr).
  exists (mkCall WaitsGate "ann" 0%N). split; [|reflexivity]. vm_compute. right. left.
Defined.
