(* ===== verification/SoulseekSearch.v ===== *)
(** Searching Soulseek and looking through a peer's directory
    ([soulseek/slskd.go]).

    What slskd answers is an argument: the replies to the requests of one search
    and what its waits end with.  The body of an answer is decoded on top of the
    search that is already there, so it is a function on searches. *)
From stdpp Require Import base gmap strings list.
From Stdlib Require Import ZArith Lia Ascii.
From S2P Require Import Prelude GoStrings GoHash Paths Music AudioFormats Discovery SoulseekRefs SoulseekClient.

Open Scope Z_scope.
Open Scope go_scope.

(** * What slskd sends *)

Record slskdFile := mkFile {
  f_Filename : string;
  f_Extension : string;
  f_Size : Z;
  f_Length : option Z;
  f_BitRate : option Z;
}.

Record slskdSearchResponse := mkResponse {
  Username : string;
  Files : list slskdFile;
  LockedFiles : list slskdFile;
  HasFreeUploadSlot : bool;
  r_QueueLength : Z;
  r_UploadSpeed : Z;
}.

Record slskdSearch := mkSearch {
  search_ID : string;
  IsComplete : bool;
  Responses : list slskdSearchResponse;
}.

Record slskdDirectory := mkDirectory {
  dir_Name : string;
  dir_Files : list slskdFile;
}.

Definition no_search : slskdSearch := mkSearch "" false [].

(** The request that starts a search. *)
Record searchPayload := mkPayload {
  SearchText : string;
  SearchTimeout : Z;
  ResponseLimit : Z;
  FileLimit : Z;
}.

Definition searchTimeoutMilliseconds : Z := 5000.
Definition searchMaxLimit : Z := 200.
Definition searchStartRetryAttempts : nat := 3.

(** How the wait after a poll ends. *)
Inductive poll_wait := PollCancelled (e : error) | PollDeadline | PollTick.

(** * Files as tracks *)

Definition artworkExtensions : list string := ["gif"; "jpeg"; "jpg"; "png"].
Definition remoteArtworkPrefix : string := "soulseek_art_".
Definition maxRemoteArtworkSize : Z := 32 * 2 ^ 20.

(** [strings.LastIndexAny] for ASCII characters. *)
Fixpoint last_index (p : ascii → bool) (s : string) : option nat :=
  match s with
  | EmptyString => None
  | String a s' =>
      match last_index p s' with
      | Some i => Some (S i)
      | None => if p a then Some 0%nat else None
      end
  end.

Definition remoteDirectory (path : string) : string :=
  match last_index separator_byte (TrimSpace path) with
  | None | Some O => ""
  | Some index => str_take index path
  end.

(** [strings.Trim(s, "/")]. *)
Definition trim_slashes (s : string) : string :=
  String.string_of_list_ascii
    (drop_while_end (λ a, bool_decide (a = slash)) (drop_while (λ a, bool_decide (a = slash)) (String.list_ascii_of_string s))).

Definition normalized_directory (value : string) : string := trim_slashes (with_slashes (TrimSpace value)).

Definition filesForDirectory (directories : list slskdDirectory) (requested : string) : list slskdFile :=
  match List.find (λ d, bool_decide (normalized_directory (dir_Name d) = normalized_directory requested)) directories with
  | Some d => dir_Files d
  | None => match directories with [d] => dir_Files d | _ => [] end
  end.

Definition provisionalArtistAlbum (displayPath : string) : string * string :=
  let parts := rev (FieldsFunc displayPath is_separator) in
  let named fallback part := match TrimSpace <$> part with
    | Some name => if bool_decide (name = "") then fallback else name | None => fallback end in
  (named "Unknown Artist" (parts !! 2%nat), named "Unknown Album" (parts !! 1%nat)).

(** Up to three digits at the start of the title. *)
Fixpoint digit_bytes (n : nat) (s : string) : nat :=
  match n, s with
  | S n, String a s => if ascii_digit (byte_of a) then S (digit_bytes n s) else 0%nat
  | _, _ => 0%nat
  end.

Definition provisionalTrackNumber (title : string) : Z :=
  let digits := TrimSpace title in
  match digit_bytes 3 digits with
  | O => 0
  | e => default 0 (Atoi (str_take e digits))
  end.

Section search.
Context `{Runtime} `{RemoteJSON} `{Unicode} `{TextNorm}.

Definition fileExtension (file : slskdFile) : string :=
  let extension := ToLower (TrimPrefix (TrimSpace (f_Extension file)) ".") in
  if bool_decide (extension = "") then TrimPrefix (ToLower (Ext (f_Filename file))) "." else extension.

(** The fields of a track that a search and a directory listing fill alike. *)
Definition remote_track (peer artist album cover : string) (file : slskdFile) (format : Format) : Track :=
  let displayPath := with_slashes (f_Filename file) in
  mkTrack (StableID soulseek_Name [peer; f_Filename file; Itoa (f_Size file)])
    (TrimSuffix (Base displayPath) (Ext displayPath)) artist (CanonicalArtistID artist)
    album (CanonicalAlbumID artist album) artist (CanonicalArtistID artist) 0 0 0 ""
    (match f_Length file with Some n => if 0 <? n then i64 (n * Second) else 0 | None => 0 end)
    (f_Size file)
    (match f_BitRate file with Some n => if 0 <? n then n else 0 | None => 0 end)
    (fmt_Suffix format) (fmt_ContentType format) cover.

Definition remote_ref (peer : string) (file : slskdFile) : SourceRef :=
  mkRef soulseek_Name (encodeRemoteFileRef (mkRemote peer (f_Filename file) (f_Size file))).

(** * Results of a search *)

Definition candidates_of (response : slskdSearchResponse) : list (slskdSearchResponse * slskdFile * bool) :=
  map (λ file, (response, file, false)) (Files response) ++ map (λ file, (response, file, true)) (LockedFiles response).

Definition result_of (discoveredAt : time) (c : slskdSearchResponse * slskdFile * bool) : option TrackSource :=
  let '(response, file, requires) := c in
  match ByExtension (fileExtension file) with
  | None => None
  | Some format =>
      if bool_decide (TrimSpace (f_Filename file) = "") then None
      else
        let displayPath := with_slashes (f_Filename file) in
        let '(artist, album) := provisionalArtistAlbum displayPath in
        Some (mkSource (remote_track (Username response) artist album "" file format)
                (remote_ref (Username response) file) displayPath
                (mkAvailability (Username response) (r_UploadSpeed response) (r_QueueLength response)
                   (HasFreeUploadSlot response) requires)
                discoveredAt)
  end.

(** The loops of [mapSearchResults], with the results so far. *)
Fixpoint map_loop {A} (f : A → option TrackSource) (limit : Z) (results : list TrackSource) (l : list A) : list TrackSource :=
  match l with
  | [] => results
  | x :: l =>
      match f x with
      | None => map_loop f limit results l
      | Some r =>
          let results := results ++ [r] in
          if limit <=? Z.of_nat (length results) then results else map_loop f limit results l
      end
  end.

Definition mapSearchResults (discoveredAt : time) (responses : list slskdSearchResponse) (limit : Z) : list TrackSource :=
  map_loop (result_of discoveredAt) limit [] (responses ≫= candidates_of).

Definition result_text (r : TrackSource) : string :=
  ToLower (Join [Artist (ts_Track r); Album (ts_Track r); Title (ts_Track r); DisplayPath r] " ").

Definition matches_terms (terms : list string) (r : TrackSource) : bool := forallb (Contains (result_text r)) terms.

Definition filterSearchResults (results : list TrackSource) (query : string) (limit : Z) : list TrackSource :=
  let terms := Fields (ToLower query) in
  map_loop (λ r, if matches_terms terms r then Some r else None) limit [] results.

Definition searchFallbackTerm (query : string) : string :=
  match Fields (ToLower query) with
  | [] | [_] => ""
  | term :: rest => longest_token term rest
  end.

(** * A search *)

(** What the client keeps of its searches: whether it was closed, and the
    searches it will delete from slskd. *)
Record search_state := mkSearchState {
  searchClosed : bool;
  to_delete : list string;
}.

Definition scheduleDeleteSearch (id : string) (s : search_state) : search_state :=
  if searchClosed s then s else mkSearchState (searchClosed s) (to_delete s ++ [id]).

(** slskd: the replies to the start of a search and what [ctx.Err()] says while
    the client waits to try again; the replies to the polls and their waits. *)
Record slskd := mkSlskd {
  starts : searchPayload → list (res (answer (slskdSearch → slskdSearch)) * option error);
  polls : string → list (res (answer (slskdSearch → slskdSearch)) * poll_wait);
}.

Definition decoded (search : slskdSearch) (reply : option (slskdSearch → slskdSearch)) : slskdSearch :=
  match reply with Some f => f search | None => search end.

Fixpoint start_attempts (attempts : nat) (replies : list (res (answer (slskdSearch → slskdSearch)) * option error))
    : res slskdSearch :=
  match attempts, replies with
  | S attempts, (reply, waited) :: replies =>
      match doJSON reply with
      | Ok body => Ok (decoded no_search body)
      | Err e =>
          if negb (temporarySlskdError e) || (attempts =? 0)%nat then Err e
          else match waited with Some cancelled => Err cancelled | None => start_attempts attempts replies end
      end
  | _, _ => Err (unavailable "no reply")
  end.

Definition startSearch (server : slskd) (payload : searchPayload) : res slskdSearch :=
  start_attempts searchStartRetryAttempts (starts server payload).

(** The loop of [searchOnce]; [None] when it still waits after these polls. *)
Fixpoint poll_loop (now : time) (limit : Z) (search : slskdSearch)
    (replies : list (res (answer (slskdSearch → slskdSearch)) * poll_wait)) : option (res (list TrackSource)) :=
  if IsComplete search then Some (Ok (mapSearchResults now (Responses search) limit))
  else
    match replies with
    | [] => None
    | (reply, waited) :: replies =>
        match doJSON reply with
        | Err e => Some (Err (Errorf "poll slskd search: " e ""))
        | Ok body =>
            let search := decoded search body in
            if IsComplete search then Some (Ok (mapSearchResults now (Responses search) limit))
            else
              match waited with
              | PollCancelled e => Some (Err e)
              | PollDeadline => Some (Ok (mapSearchResults now (Responses search) limit))
              | PollTick => poll_loop now limit search replies
              end
        end
    end.

Definition searchOnce (now : time) (server : slskd) (text : string) (limit : Z) (s : search_state)
    : option (res (list TrackSource)) * search_state :=
  match startSearch server (mkPayload text searchTimeoutMilliseconds limit (i64 (limit * 4))) with
  | Err e => (Some (Err (Errorf "start slskd search: " e "")), s)
  | Ok search =>
      if bool_decide (search_ID search = "")
      then (Some (Err (Plain "start slskd search: response did not include an id")), s)
      else (poll_loop now limit search (polls server (search_ID search)), scheduleDeleteSearch (search_ID search) s)
  end.

Definition clamped_limit (limit : Z) : Z :=
  let limit := if limit <=? 0 then 50 else limit in
  if searchMaxLimit <? limit then searchMaxLimit else limit.

Definition Search (now : time) (server : slskd) (query : SearchQuery) (s : search_state)
    : option (res (list TrackSource)) * search_state :=
  let text := TrimSpace (query_Text query) in
  if (RuneCountInString text <? 3) || (200 <? RuneCountInString text)
  then (Some (Err (Plain "search query must contain between 3 and 200 characters")), s)
  else
    let limit := clamped_limit (query_Limit query) in
    match searchOnce now server text limit s with
    | (Some (Ok []), s) =>
        let fallback := searchFallbackTerm text in
        if bool_decide (fallback = "") then (Some (Ok []), s)
        else
          match searchOnce now server fallback (Z.min (Z.max (limit * 4) 50) searchMaxLimit) s with
          | (Some (Ok results), s) => (Some (Ok (filterSearchResults results text limit)), s)
          | other => other
          end
    | other => other
    end.

(** * A peer's directory *)

Definition is_preferred (base : string) : Z :=
  match list_find (λ preferred, base = preferred) ["cover"; "folder"; "front"; "album"] with
  | Some (i, _) => Z.of_nat i
  | None => 10
  end.

Definition cover_score (file : slskdFile) : option Z :=
  if negb (bool_decide (fileExtension file ∈ artworkExtensions)) || (f_Size file <=? 0)
     || (maxRemoteArtworkSize <? f_Size file)
  then None
  else Some (is_preferred (ToLower (TrimSuffix (Base (with_slashes (f_Filename file))) (Ext (f_Filename file))))).

(** The loop over the files, with the best so far. *)
Fixpoint best_cover (bestScore : Z) (best : option slskdFile) (files : list slskdFile) : option slskdFile :=
  match files with
  | [] => best
  | file :: files =>
      match cover_score file with
      | None => best_cover bestScore best files
      | Some score =>
          if score <? bestScore then best_cover score (Some file) files else best_cover bestScore best files
      end
  end.

Definition remoteCoverID (peer : string) (files : list slskdFile) : string :=
  match best_cover 100 None files with
  | None => ""
  | Some best => remoteArtworkPrefix +:+ encodeRemoteFileRef (mkRemote peer (f_Filename best) (f_Size best))
  end.

Definition with_track_number (n : Z) (t : Track) : Track :=
  mkTrack (ID t) (Title t) (Artist t) (ArtistID t) (Album t) (AlbumID t) (AlbumArtist t) (AlbumArtistID t)
    n (DiscNumber t) (Year t) (Genre t) (Duration t) (TrackSize t) (BitRate t) (Suffix t) (ContentType t) (CoverArtID t).

Definition listed_track (peer artist album cover : string) (availability : SourceAvailability) (discoveredAt : time)
    (file : slskdFile) : option TrackSource :=
  match ByExtension (fileExtension file) with
  | None => None
  | Some format =>
      if bool_decide (TrimSpace (f_Filename file) = "") || (f_Size file <=? 0) then None
      else
        let track := remote_track peer artist album cover file format in
        let track := with_track_number (provisionalTrackNumber (Title track)) track in
        Some (mkSource (with_id (CanonicalTrackID track) track) (remote_ref peer file)
                (with_slashes (f_Filename file)) availability discoveredAt)
  end.

Definition browse_less (x y : TrackSource) : bool :=
  let left := TrackNumber (ts_Track x) in
  let right := TrackNumber (ts_Track y) in
  if (0 <? left) && (0 <? right) && negb (left =? right) then left <? right
  else str_ltb (ToLower (DisplayPath x)) (ToLower (DisplayPath y)).

(** [replies] and [waits] are those of [doPeerJSON].  [browse_less] is not an
    order, so of the sorted list nothing is known but its elements: see
    [browse_less_goes_in_circles]. *)
Definition BrowseCollection (discoveredAt : time) (replies : list (res (answer (list slskdDirectory))))
    (waits : list (option error)) (anchor : TrackSource) : res SourceCollection :=
  if negb (bool_decide (Provider (ts_Ref anchor) = soulseek_Name))
  then Err (Plain ("unexpected provider " +:+ Provider (ts_Ref anchor)))
  else if RequiresApproval (Availability anchor)
  then Err (unavailable "remote directory requires peer approval")
  else
    match decodeRemoteFileRef (SourceKey (ts_Ref anchor)) with
    | Err e => Err e
    | Ok remote =>
        let directory := remoteDirectory (rf_Path remote) in
        if bool_decide (directory = "") then Err (Plain "Soulseek result does not belong to a directory")
        else
          match doPeerJSON replies waits with
          | Err e => Err (Errorf "browse Soulseek directory: " e "")
          | Ok body =>
              let files := filesForDirectory (default [] body) directory in
              if bool_decide (length files = 0%nat)
              then Err (Plain "Soulseek directory is empty or no longer available")
              else
                let '(artist, album) := provisionalArtistAlbum (rf_Path remote) in
                let coverID := remoteCoverID (rf_Peer remote) files in
                let tracks := omap (listed_track (rf_Peer remote) artist album coverID (Availability anchor) discoveredAt) files in
                Ok (mkCollection album artist coverID (sort_slice browse_less tracks))
          end
    end.

(** * Results *)

Lemma map_loop_take {A} (f : A → option TrackSource) limit results l :
  0 < limit → Z.of_nat (length results) < limit →
  map_loop f limit results l = take (Z.to_nat limit) (results ++ omap f l).
Proof.
  intros Hl. revert results. induction l as [|x l IH]; intros results Hr; cbn.
  - rewrite app_nil_r. by rewrite take_ge by lia.
  - destruct (f x) as [r|]; [|by apply IH]. rewrite length_app. cbn.
    destruct (Z.leb_spec limit (Z.of_nat (length results + 1))).
    + assert (Z.to_nat limit = length (results ++ [r])) as -> by (rewrite length_app; cbn; lia).
      change (r :: omap f l) with ([r] ++ omap f l). by rewrite app_assoc, take_app_length.
    + rewrite IH by (rewrite length_app; cbn; lia). by rewrite <- app_assoc.
Qed.

Lemma mapSearchResults_spec now responses limit :
  0 < limit →
  mapSearchResults now responses limit = take (Z.to_nat limit) (omap (result_of now) (responses ≫= candidates_of)).
Proof. intros Hl. unfold mapSearchResults. by rewrite map_loop_take by (cbn; lia). Qed.

Lemma omap_guard {A} (p : A → bool) l : omap (λ x, if p x then Some x else None) l = List.filter p l.
Proof. induction l as [|x l IH]; [done|]. cbn. destruct (p x); by rewrite IH. Qed.

Lemma filterSearchResults_spec results query limit :
  0 < limit →
  filterSearchResults results query limit =
    take (Z.to_nat limit) (List.filter (matches_terms (Fields (ToLower query))) results).
Proof. intros Hl. unfold filterSearchResults. by rewrite map_loop_take, omap_guard by (cbn; lia). Qed.

(** What a result says is what slskd said of the file. *)
Definition found (now : time) (r : TrackSource) : Prop :=
  ∃ response file requires format,
    result_of now (response, file, requires) = Some r ∧ ByExtension (fileExtension file) = Some format ∧
    (Suffix (ts_Track r), ContentType (ts_Track r)) = (fmt_Suffix format, fmt_ContentType format) ∧
    ts_Ref r = remote_ref (Username response) file ∧ TrackSize (ts_Track r) = f_Size file ∧
    ID (ts_Track r) = StableID soulseek_Name [Username response; f_Filename file; Itoa (f_Size file)].

Lemma result_of_found now c r : result_of now c = Some r → found now r.
Proof.
  destruct c as [[response file] requires]. intros E. exists response, file, requires. unfold result_of in E |- *.
  destruct (ByExtension (fileExtension file)) as [format|] eqn:Ef; [|done]. exists format. revert E.
  case_bool_decide; [done|]. destruct (provisionalArtistAlbum _) as [artist album]. intros [= <-]. done.
Qed.

Lemma poll_loop_results now limit search replies rs :
  poll_loop now limit search replies = Some (Ok rs) → ∃ responses, rs = mapSearchResults now responses limit.
Proof.
  revert search. induction replies as [|[reply waited] replies IH]; intros search; cbn.
  - destruct (IsComplete search); [|done]. intros [= <-]. eauto.
  - destruct (IsComplete search); [intros [= <-]; eauto|]. destruct (doJSON reply) as [body|e]; [|done].
    destruct (IsComplete (decoded search body)); [intros [= <-]; eauto|].
    destruct waited; [done|intros [= <-]; eauto|apply IH].
Qed.

Lemma searchOnce_results now server text limit s rs s' :
  0 < limit → searchOnce now server text limit s = (Some (Ok rs), s') →
  Z.of_nat (length rs) ≤ limit ∧ Forall (found now) rs.
Proof.
  intros Hl. unfold searchOnce. destruct (startSearch _ _) as [search|e]; [|done]. destruct (bool_decide _); [done|].
  intros [= E <-]. apply poll_loop_results in E as [responses ->]. rewrite mapSearchResults_spec by done.
  split; [rewrite length_take; lia|]. apply Forall_take, Forall_forall. intros r (c & _ & Hc)%list_elem_of_omap.
  by eapply result_of_found.
Qed.

(** A search returns at most the number of results that was asked for, 50
    if none was and never more than 200; every result is a supported audio file
    that slskd reported, under the reference and the identifier of that file;
    and when nothing was found for the whole text and the longest word was
    searched instead, only results in which every word of the text occurs. *)
Theorem search_is_bounded_and_relevant now server query s rs s' :
  Search now server query s = (Some (Ok rs), s') →
  let limit := clamped_limit (query_Limit query) in
  let text := TrimSpace (query_Text query) in
  1 ≤ limit ≤ 200 ∧ Z.of_nat (length rs) ≤ limit ∧ Forall (found now) rs ∧
  3 ≤ RuneCountInString text ≤ 200 ∧
  ((∃ s1, searchOnce now server text limit s = (Some (Ok rs), s1)) ∨
   Forall (λ r, ∀ term, term ∈ Fields (ToLower text) → Contains (result_text r) term = true) rs).
Proof.
  intros E limit text. assert (1 ≤ limit ≤ 200) as Hlim.
  { unfold limit, clamped_limit, searchMaxLimit. destruct (query_Limit query <=? 0) eqn:E1; destruct (200 <? _) eqn:E2; lia. }
  revert E. unfold Search. fold text. fold limit.
  destruct ((RuneCountInString text <? 3) || (200 <? RuneCountInString text)) eqn:El; [done|].
  apply orb_false_iff in El as [El1 El2].
  destruct (searchOnce now server text limit s) as [[[[|r0 rs0]|e]|] s1] eqn:E1; try done.
  - case_bool_decide as Ef; [intros [= <- <-]; split_and!; try (cbn; lia); try apply Forall_nil_2; left; eauto|].
    destruct (searchOnce _ _ (searchFallbackTerm text) _ s1) as [[[rs1|e]|] s2] eqn:E2; [|done|done].
    intros [= <- <-]. apply searchOnce_results in E2 as [_ Hf]; [|unfold searchMaxLimit; lia].
    rewrite filterSearchResults_spec by lia. split_and!; try lia; [rewrite length_take; lia| |right].
    + apply Forall_take. rewrite Forall_forall in Hf |- *. intros r [Hr _]%elem_of_filter_bool. by apply Hf.
    + apply Forall_take, Forall_forall. intros r [_ Hr]%elem_of_filter_bool term Ht. unfold matches_terms in Hr.
      rewrite forallb_forall in Hr. apply Hr. by apply list_elem_of_In.
  - intros [= <- <-]. apply searchOnce_results in E1 as E2; [|lia]. destruct E2. split_and!; try lia; try done. left. eauto.
Qed.

(** * A search ends *)

Lemma poll_loop_ends now limit search replies :
  Exists (λ x, x.2 ≠ PollTick) replies → is_Some (poll_loop now limit search replies).
Proof.
  intros He. revert search. induction He as [[reply waited] replies Hw|[reply waited] replies _ IH]; intros search; cbn.
  - destruct (IsComplete search); [done|]. destruct (doJSON reply) as [body|e]; [|done].
    destruct (IsComplete _); [done|]. by destruct waited.
  - destruct (IsComplete search); [done|]. destruct (doJSON reply) as [body|e]; [|done].
    destruct (IsComplete _); [done|]. by destruct waited.
Qed.

(** The identifier slskd gave to the search of a text, if it gave one. *)
Definition started_ids (server : slskd) (text : string) (limit : Z) : list string :=
  match startSearch server (mkPayload text searchTimeoutMilliseconds limit (i64 (limit * 4))) with
  | Ok search => if bool_decide (search_ID search = "") then [] else [search_ID search]
  | Err _ => []
  end.

Definition was_started (server : slskd) (id : string) : Prop :=
  id ≠ "" ∧ ∃ payload search, startSearch server payload = Ok search ∧ search_ID search = id.

Lemma started_ids_started server text limit :
  Forall (was_started server) (started_ids server text limit) ∧ (length (started_ids server text limit) ≤ 1)%nat.
Proof.
  unfold started_ids. destruct (startSearch _ _) as [search|e] eqn:E; [|split; [by apply Forall_nil_2|cbn; lia]].
  case_bool_decide; (split; [|cbn; lia]); [by apply Forall_nil_2|]. apply Forall_cons_2; [|by apply Forall_nil_2].
  split; [done|eauto].
Qed.

Lemma searchOnce_ends now server text limit s :
  (∀ id, Exists (λ x, x.2 ≠ PollTick) (polls server id)) → searchClosed s = false →
  ∃ r s', searchOnce now server text limit s = (Some r, s') ∧ searchClosed s' = false ∧
    to_delete s' = to_delete s ++ started_ids server text limit.
Proof.
  intros Hp Hs. unfold searchOnce, started_ids. destruct (startSearch _ _) as [search|e].
  - case_bool_decide.
    + eexists _, s. split_and!; [done|done|by rewrite app_nil_r].
    + destruct (poll_loop_ends now limit search _ (Hp (search_ID search))) as [r ->].
      exists r, (scheduleDeleteSearch (search_ID search) s). unfold scheduleDeleteSearch. by rewrite Hs.
  - eexists _, s. split_and!; [done|done|by rewrite app_nil_r].
Qed.

(** A search always ends, and what it started at slskd is cleaned up: when
    no wait for results lasts for ever, a search of any text has an outcome, and
    whatever the outcome is, the searches that slskd gave an identifier to, at
    most two, have been put on the list of those to be deleted, and nothing else
    has. *)
Theorem searches_end_and_are_deleted now server query s :
  (∀ id, Exists (λ x, x.2 ≠ PollTick) (polls server id)) → searchClosed s = false →
  ∃ r s' ids, Search now server query s = (Some r, s') ∧ to_delete s' = to_delete s ++ ids ∧ (length ids ≤ 2)%nat ∧
    Forall (was_started server) ids.
Proof.
  intros Hp Hs. unfold Search. set (text := TrimSpace (query_Text query)). set (limit := clamped_limit (query_Limit query)).
  destruct (_ || _); [eexists _, s, []; split_and!; [done|by rewrite app_nil_r|cbn; lia|by apply Forall_nil_2]|].
  destruct (searchOnce_ends now server text limit s Hp Hs) as (r1 & s1 & -> & Hs1 & Hd1).
  destruct (started_ids_started server text limit) as [Hf1 Hl1].
  assert (∀ r : res (list TrackSource), ∃ r' s' ids, (Some r, s1) = (Some r', s') ∧ to_delete s' = to_delete s ++ ids ∧ (length ids ≤ 2)%nat ∧
    Forall (was_started server) ids) as Hone.
  { intros r. exists r, s1, (started_ids server text limit). split_and!; [done|done|lia|done]. }
  destruct r1 as [[|x rs]|e]; [|apply Hone..]. case_bool_decide; [apply Hone|].
  set (limit2 := Z.min _ _). set (text2 := searchFallbackTerm text).
  destruct (searchOnce_ends now server text2 limit2 s1 Hp Hs1) as (r2 & s2 & -> & _ & Hd2).
  destruct (started_ids_started server text2 limit2) as [Hf2 Hl2].
  assert (∃ ids, to_delete s2 = to_delete s ++ ids ∧ (length ids ≤ 2)%nat ∧ Forall (was_started server) ids) as (ids & Hids).
  { exists (started_ids server text limit ++ started_ids server text2 limit2).
    split_and!; [by rewrite Hd2, Hd1, app_assoc|rewrite length_app; lia|by apply Forall_app]. }
  destruct r2 as [rs|e]; eexists _, s2, ids; done.
Qed.

(** * What was found can be had *)

Definition file_ok (peer : string) (file : slskdFile) : Prop :=
  peer ≠ "" ∧ TrimSpace peer = peer ∧ valid_utf8 peer ∧ f_Filename file ≠ "" ∧
  TrimSpace (f_Filename file) = f_Filename file ∧ valid_utf8 (f_Filename file) ∧ 0 < f_Size file.

Lemma remote_ref_decodes `{!RemoteJSONLaws} peer file :
  file_ok peer file →
  decodeRemoteFileRef (SourceKey (remote_ref peer file)) = Ok (mkRemote peer (f_Filename file) (f_Size file)).
Proof.
  intros (Hp & Htp & Hvp & Hf & Htf & Hvf & Hsize). unfold decodeRemoteFileRef. cbn [SourceKey remote_ref].
  unfold encodeRemoteFileRef. rewrite RawURLDecode_Encode by apply law_Marshal_bytes. rewrite law_Unmarshal by done.
  unfold trimmed. cbn [rf_Peer rf_Path rf_Size]. rewrite Htp, Htf. unfold remote_ok. cbn [rf_Peer rf_Path rf_Size].
  rewrite !bool_decide_eq_false_2 by done. cbn. destruct (Z.ltb_spec 0 (f_Size file)); [done|lia].
Qed.

Lemma best_cover_in bestScore best files file :
  best_cover bestScore best files = Some file →
  best = Some file ∨ file ∈ files ∧ is_Some (cover_score file).
Proof.
  revert bestScore best. induction files as [|x files IH]; intros bestScore best; cbn; [by left|].
  destruct (cover_score x) as [score|] eqn:Es.
  - destruct (score <? bestScore).
    + intros [[= ->]|[Hin Hs]]%IH; right; [split; [by left|done]|split; [by right|done]].
    + intros [?|[Hin Hs]]%IH; [by left|right; split; [by right|done]].
  - intros [?|[Hin Hs]]%IH; [by left|right; split; [by right|done]].
Qed.

(** The first of the files with the lowest score. *)
Lemma best_cover_lowest bestScore best files x s :
  x ∈ files → cover_score x = Some s → s < bestScore →
  ∃ file s', best_cover bestScore best files = Some file ∧ cover_score file = Some s' ∧ s' ≤ s.
Proof.
  intros Hx Hs. revert bestScore best Hx. induction files as [|y files IH]; intros bestScore best Hx Hlt;
    [by apply elem_of_nil in Hx|]. cbn.
  assert (∀ b sc, cover_score b = Some sc → sc ≤ s → ∃ file s', best_cover sc (Some b) files = Some file ∧
    cover_score file = Some s' ∧ s' ≤ s) as Hkeep.
  { clear -Hs. induction files as [|z files IH]; intros b sc Hb Hle; cbn; [eauto|].
    destruct (cover_score z) as [sz|] eqn:Ez; [|by apply IH]. destruct (Z.ltb_spec sz sc); [apply IH; [done|lia]|by apply IH]. }
  apply elem_of_cons in Hx as [<-|Hx].
  - rewrite Hs. destruct (Z.ltb_spec s bestScore); [|lia]. by apply Hkeep.
  - destruct (cover_score y) as [sy|] eqn:Ey; [|by apply IH]. destruct (Z.ltb_spec sy bestScore); [|by apply IH].
    destruct (decide (sy ≤ s)); [by apply Hkeep|]. apply IH; [done|lia].
Qed.

Lemma listed_track_inv peer artist album cover availability now file r :
  listed_track peer artist album cover availability now file = Some r →
  0 < f_Size file ∧ f_Filename file ≠ "" ∧ ts_Ref r = remote_ref peer file ∧ TrackSize (ts_Track r) = f_Size file ∧
  Artist (ts_Track r) = artist ∧ AlbumArtist (ts_Track r) = artist ∧ Album (ts_Track r) = album ∧
  CoverArtID (ts_Track r) = cover ∧ Availability r = availability ∧ ID (ts_Track r) = CanonicalTrackID (ts_Track r) ∧
  ∃ format, ByExtension (fileExtension file) = Some format ∧ Suffix (ts_Track r) = fmt_Suffix format ∧
    ContentType (ts_Track r) = fmt_ContentType format.
Proof.
  unfold listed_track. destruct (ByExtension _) as [format|] eqn:Ef; [|done].
  case_bool_decide as Hn; [done|]. destruct (Z.leb_spec (f_Size file) 0); [done|]. cbn [orb]. intros [= <-].
  assert (f_Filename file ≠ "") by (intros E; by rewrite E in Hn). split_and!; try done. by exists format.
Qed.

(** What a search or a directory shows can be asked for: the reference in a
    result decodes to exactly the peer, the path and the size slskd reported,
    for names without blanks at their ends and a file that is not empty, and a
    track of a search has the identifier under which its source is downloaded
    when the catalog does not know it. *)
Theorem found_files_can_be_resolved `{!RemoteJSONLaws} now response file requires r :
  file_ok (Username response) file →
  (result_of now (response, file, requires) = Some r →
   ∃ remote, decodeRemoteFileRef (SourceKey (ts_Ref r)) = Ok remote ∧
     remote = mkRemote (Username response) (f_Filename file) (f_Size file) ∧
     ID (ts_Track r) = StableID soulseek_Name [rf_Peer remote; rf_Path remote; Itoa (rf_Size remote)] ∧
     Availability r = mkAvailability (Username response) (r_UploadSpeed response) (r_QueueLength response)
       (HasFreeUploadSlot response) requires) ∧
  (∀ artist album cover availability,
   listed_track (Username response) artist album cover availability now file = Some r →
   decodeRemoteFileRef (SourceKey (ts_Ref r)) = Ok (mkRemote (Username response) (f_Filename file) (f_Size file))).
Proof.
  intros Hok. split.
  - intros E. exists (mkRemote (Username response) (f_Filename file) (f_Size file)).
    unfold result_of in E. destruct (ByExtension _) as [format|]; [|done]. revert E. case_bool_decide; [done|].
    destruct (provisionalArtistAlbum _) as [artist album]. intros [= <-]. split_and!; try done. by apply remote_ref_decodes.
  - intros artist album cover availability E. apply listed_track_inv in E as (_ & _ & -> & _). by apply remote_ref_decodes.
Qed.

(** ** The directory asked for *)

(** What [value] names without the blanks and the slashes at its ends, either
    kind of slash being a separator. *)
Definition bare_directory (value core : string) : Prop :=
  ∃ before after, String.list_ascii_of_string (with_slashes (TrimSpace value)) =
      before ++ String.list_ascii_of_string core ++ after ∧
    Forall (λ a, a = slash) before ∧ Forall (λ a, a = slash) after ∧
    head (String.list_ascii_of_string core) ≠ Some slash ∧ last (String.list_ascii_of_string core) ≠ Some slash.

Definition same_directory (x y : string) : Prop := ∃ core, bare_directory x core ∧ bare_directory y core.

(** [directory] is what the path of a file has before its last separator. *)
Definition directory_of_file (path directory : string) : Prop :=
  ∃ before separator name,
    String.list_ascii_of_string (TrimSpace path) = before ++ separator :: name ∧ before ≠ [] ∧
    (separator = slash ∨ separator = backslash) ∧ slash ∉ name ∧ backslash ∉ name ∧
    directory = str_take (length before) path.

(** The files of a listing that answer for [directory]: those of the first
    directory of that name, or of the only one listed. *)
Definition files_of_directory (listing : list slskdDirectory) (directory : string) (files : list slskdFile) : Prop :=
  (∃ before d after, listing = before ++ d :: after ∧ same_directory (dir_Name d) directory ∧
     (∀ x, x ∈ before → ¬ same_directory (dir_Name x) directory) ∧ files = dir_Files d) ∨
  ((∀ x, x ∈ listing → ¬ same_directory (dir_Name x) directory) ∧ ∃ d, listing = [d] ∧ files = dir_Files d).

(** A file that becomes a track. *)
Definition playable (file : slskdFile) : bool :=
  bool_decide (is_Some (ByExtension (fileExtension file))) && negb (bool_decide (TrimSpace (f_Filename file) = "")) &&
  (0 <? f_Size file).

Lemma drop_while_slashes (l : list ascii) :
  ∃ before, l = before ++ drop_while (λ a, bool_decide (a = slash)) l ∧ Forall (λ a, a = slash) before ∧
    head (drop_while (λ a, bool_decide (a = slash)) l) ≠ Some slash.
Proof.
  induction l as [|a l (before & IH & Hb & Hh)]; [by exists []|]. cbn. case_bool_decide as Ha.
  - exists (a :: before). split_and!; [cbn; by f_equal|by constructor|done].
  - exists []. split_and!; [done|done|]. cbn. congruence.
Qed.

Lemma drop_while_bare (before core : list ascii) :
  Forall (λ a, a = slash) before → head core ≠ Some slash →
  drop_while (λ a, bool_decide (a = slash)) (before ++ core) = core.
Proof.
  intros Hb Hc. induction Hb as [|a before -> Hb IH]; cbn [app drop_while].
  - destruct core as [|c core]; [done|]. cbn. rewrite bool_decide_eq_false_2; [done|]. intros ->. by destruct Hc.
  - by rewrite bool_decide_eq_true_2.
Qed.

Lemma bare_directory_normalized value core : bare_directory value core ↔ normalized_directory value = core.
Proof.
  unfold bare_directory, normalized_directory, trim_slashes, drop_while_end.
  generalize (String.list_ascii_of_string (with_slashes (TrimSpace value))) as l. intros l. split.
  - intros (before & after & -> & Hb & Ha & Hh & Hl).
    assert (drop_while (λ a, bool_decide (a = slash)) (before ++ String.list_ascii_of_string core ++ after) =
      drop_while (λ a, bool_decide (a = slash)) (String.list_ascii_of_string core ++ after)) as ->.
    { clear -Hb. induction Hb as [|a before -> Hb IH]; [done|]. cbn [app drop_while]. by rewrite bool_decide_eq_true_2. }
    rewrite <- (String.string_of_list_ascii_of_string core) at 2. f_equal.
    destruct (String.list_ascii_of_string core) as [|c cs] eqn:Ec.
    + pose proof (drop_while_bare after [] Ha ltac:(done)) as E. rewrite app_nil_r in E. cbn [app]. by rewrite E.
    + pose proof (drop_while_bare [] ((c :: cs) ++ after) ltac:(by constructor) Hh) as E. rewrite app_nil_l in E.
      rewrite E. clear E.
      rewrite rev_app_distr, drop_while_bare; [apply rev_involutive|by apply Forall_rev|].
      intros E. apply Hl. rewrite <- (rev_involutive (c :: cs)).
      destruct (rev (c :: cs)) as [|x xs]; [done|]. injection E as ->. cbn. by rewrite last_snoc.
  - intros <-. destruct (drop_while_slashes l) as (before & El & Hb & Hh).
    set (l1 := drop_while _ l) in *. destruct (drop_while_slashes (rev l1)) as (after & Er & Ha & Hl).
    set (l2 := drop_while _ (rev l1)) in *. rewrite String.list_ascii_of_string_of_list_ascii.
    assert (l1 = rev l2 ++ rev after) as E1 by (by rewrite <- rev_app_distr, <- Er, rev_involutive).
    exists before, (rev after). rewrite <- E1. split_and!; [done|done|by apply Forall_rev| |].
    + destruct (rev l2) as [|x xs] eqn:E2; [done|]. rewrite E1 in Hh. exact Hh.
    + destruct l2 as [|x xs]; [done|]. cbn. rewrite last_snoc. exact Hl.
Qed.

Lemma same_directory_normalized x y : same_directory x y ↔ normalized_directory x = normalized_directory y.
Proof.
  unfold same_directory. setoid_rewrite bare_directory_normalized. split; [by intros (core & -> & ->)|].
  intros E. by exists (normalized_directory y).
Qed.

Lemma filesForDirectory_spec listing directory :
  filesForDirectory listing directory ≠ [] → files_of_directory listing directory (filesForDirectory listing directory).
Proof.
  unfold filesForDirectory, files_of_directory. setoid_rewrite same_directory_normalized.
  destruct (List.find _ listing) as [d|] eqn:E; intros Hf.
  - left. induction listing as [|x listing IH]; [done|]. cbn [List.find] in E. case_bool_decide as Hx.
    + injection E as ->. exists [], d, listing. split_and!; [done|done|by intros ? ?%elem_of_nil|done].
    + destruct (IH E) as (before & d' & after & -> & Hd & Hb & Hfd). exists (x :: before), d', after.
      split_and!; try done. intros y [->|Hy]%elem_of_cons; [done|by apply Hb].
  - right. split; [|destruct listing as [|d [|]]; try done; eauto].
    intros x Hx. apply list_elem_of_In in Hx. apply (List.find_none _ _ E) in Hx. by apply bool_decide_eq_false in Hx.
Qed.

Lemma last_index_spec p s i : last_index p s = Some i →
  ∃ before a after, String.list_ascii_of_string s = before ++ a :: after ∧ length before = i ∧ p a = true ∧
    ∀ x, x ∈ after → p x = false.
Proof.
  revert i. induction s as [|a s IH]; intros i; cbn [last_index]; [done|].
  destruct (last_index p s) as [j|] eqn:E.
  - intros [= <-]. destruct (IH j eq_refl) as (before & x & after & Hs & Hl & Hx & Ha).
    exists (a :: before), x, after. cbn. by rewrite Hs, Hl.
  - destruct (p a) eqn:Ha; [|done]. intros [= <-]. exists [], a, (String.list_ascii_of_string s). split_and!; try done.
    clear -E. induction s as [|b s IH]; [by intros x ?%elem_of_nil|]. cbn in E |- *.
    destruct (last_index p s); [done|]. destruct (p b) eqn:Hb; [done|]. intros x [->|Hx]%elem_of_cons; auto.
Qed.

Lemma separator_byte_spec a : separator_byte a = true ↔ a = slash ∨ a = backslash.
Proof. destruct a as [[] [] [] [] [] [] [] []]; vm_compute; naive_solver. Qed.

Lemma remoteDirectory_spec path : remoteDirectory path ≠ "" → directory_of_file path (remoteDirectory path).
Proof.
  unfold remoteDirectory. destruct (last_index _ _) as [[|i]|] eqn:E; try done. intros _.
  apply last_index_spec in E as (before & a & after & Hs & Hl & Ha & Hafter). apply separator_byte_spec in Ha.
  exists before, a, after. rewrite Hl. split_and!; try done.
  - by destruct before.
  - intros Hin%Hafter. by vm_compute in Hin.
  - intros Hin%Hafter. by vm_compute in Hin.
Qed.

Lemma listed_track_playable peer artist album cover availability now files :
  map ts_Ref (omap (listed_track peer artist album cover availability now) files) =
  map (remote_ref peer) (List.filter playable files).
Proof.
  induction files as [|file files IH]; [done|]. cbn [omap list_omap List.filter]. unfold listed_track at 1, playable at 1.
  destruct (ByExtension _) as [format|]; [|by rewrite bool_decide_eq_false_2 by (by intros [])].
  rewrite (bool_decide_eq_true_2 (is_Some _)) by eauto. case_bool_decide; cbn [orb negb andb]; [done|].
  destruct (Z.leb_spec (f_Size file) 0), (Z.ltb_spec 0 (f_Size file)); try lia; [done|]. cbn [map]. by f_equal.
Qed.

(** C37. A browsed directory comes out as one album: the directory is the one
    the anchor's file is in, its files are those that slskd lists for it (the
    first directory of that name, or the only one listed), and the collection
    has the artist and the album that the anchor's path names and exactly one
    track for every supported and not empty audio file of the directory, in some
    order, of that artist and album, with the directory's cover and the anchor's
    availability, a reference to the file at the same peer, a positive size, a
    known suffix and content type, and its canonical identifier; and the cover is
    an image that is not too large and than which no other image of the
    directory has a better name. *)
Theorem a_browsed_directory_is_one_album now replies waits anchor coll :
  BrowseCollection now replies waits anchor = Ok coll →
  ∃ remote directory listing files, decodeRemoteFileRef (SourceKey (ts_Ref anchor)) = Ok remote ∧
    directory_of_file (rf_Path remote) directory ∧ doPeerJSON replies waits = Ok listing ∧
    files_of_directory (default [] listing) directory files ∧
    (coll_Artist coll, coll_Name coll) = provisionalArtistAlbum (rf_Path remote) ∧
    map ts_Ref (coll_Tracks coll) ≡ₚ map (remote_ref (rf_Peer remote)) (List.filter playable files) ∧
    Forall (λ r, ∃ file format, file ∈ files ∧ ts_Ref r = remote_ref (rf_Peer remote) file ∧
      0 < TrackSize (ts_Track r) ∧ ByExtension (fileExtension file) = Some format ∧
      Suffix (ts_Track r) = fmt_Suffix format ∧ ContentType (ts_Track r) = fmt_ContentType format ∧
      (Artist (ts_Track r), AlbumArtist (ts_Track r), Album (ts_Track r), CoverArtID (ts_Track r)) =
        (coll_Artist coll, coll_Artist coll, coll_Name coll, coll_CoverArtID coll) ∧
      Availability r = Availability anchor ∧ ID (ts_Track r) = CanonicalTrackID (ts_Track r)) (coll_Tracks coll) ∧
    (∀ x s, x ∈ files → cover_score x = Some s → s < 100 →
      ∃ file s', file ∈ files ∧ cover_score file = Some s' ∧ s' ≤ s ∧
        coll_CoverArtID coll =
          remoteArtworkPrefix +:+ encodeRemoteFileRef (mkRemote (rf_Peer remote) (f_Filename file) (f_Size file))).
Proof.
  unfold BrowseCollection. destruct (negb _); [done|]. destruct (RequiresApproval _); [done|].
  destruct (decodeRemoteFileRef _) as [remote|e] eqn:Ed; [|done]. case_bool_decide as Hdir; [done|].
  destruct (doPeerJSON replies waits) as [body|e]; [|done]. set (files := filesForDirectory _ _).
  case_bool_decide as Hfiles; [done|]. destruct (provisionalArtistAlbum (rf_Path remote)) as [artist album] eqn:Ea.
  intros [= <-]. exists remote, (remoteDirectory (rf_Path remote)), body, files.
  cbn [coll_Artist coll_Name coll_CoverArtID coll_Tracks].
  split_and!; [done|by apply remoteDirectory_spec|done| |done| | |].
  - apply filesForDirectory_spec. intros E. apply Hfiles. unfold files. by rewrite E.
  - rewrite <- (listed_track_playable _ artist album (remoteCoverID (rf_Peer remote) files) (Availability anchor) now).
    change (map ts_Ref ?l) with (ts_Ref <$> l). by rewrite sort_slice_perm.
  - rewrite Forall_forall. intros r Hr. rewrite sort_slice_perm in Hr. apply list_elem_of_omap in Hr as (file & Hin & Hl).
    apply listed_track_inv in Hl as (Hs & _ & Href & Hsize & Ha & Haa & Hal & Hc & Hav & Hid & format & Hf & Hsuf & Hct).
    exists file, format. rewrite Ha, Haa, Hal, Hc. split_and!; try done. lia.
  - intros x s Hx Hs Hlt. destruct (best_cover_lowest 100 None files x s Hx Hs Hlt) as (file & s' & Hb & Hs' & Hle).
    exists file, s'. apply best_cover_in in Hb as Hin. destruct Hin as [?|[Hin _]]; [done|].
    split_and!; try done. unfold remoteCoverID. by rewrite Hb.
Qed.
End search.

(** * Concrete inputs *)

Section examples.
#[local] Existing Instances stable_runtime ascii_unicode.

#[local] Instance toy_norm : TextNorm := {| NFKC s := s; CaseFold := ToLower |}.
#[local] Existing Instances plain_json plain_json_laws.

#[local] Notation song := (mkFile "Band\Album\01 Song.mp3" "" 3 (Some 200) None).
#[local] Notation cover := (mkFile "Band\Album\cover.jpg" "" 9 None None).
#[local] Notation band := (mkResponse "peer" [song] [] true 0 0).
#[local] Notation anchor :=
  (mkSource (mkTrack "" "" "" "" "" "" "" "" 0 0 0 "" 0 0 0 "" "" "") (remote_ref "peer" song) ""
     (mkAvailability "peer" 0 0 true false) 0).
#[local] Notation server :=
  (mkSlskd (λ _, [(Ok (mkAnswer 200 "" (Ok (λ _, mkSearch "s1" false []))), None)])
     (λ _, [(Ok (mkAnswer 200 "" (Ok (λ _, mkSearch "s1" true [band]))), PollDeadline)])).

Lemma search_is_bounded_and_relevant_witness :
  ∃ rs s', Search 0 server (mkQuery "song" 1) (mkSearchState false []) = (Some (Ok rs), s') ∧ length rs = 1%nat ∧
    Z.of_nat (length rs) ≤ 1.
Proof.
  destruct (Search 0 server (mkQuery "song" 1) (mkSearchState false [])) as [[[rs|e]|] s'] eqn:E;
    [|by vm_compute in E..]. exists rs, s'. split_and!; [done|by vm_compute in E; injection E as <- <-|].
  apply (search_is_bounded_and_relevant 0 server (mkQuery "song" 1) (mkSearchState false []) rs s' E).
Defined.

Lemma searches_end_and_are_deleted_witness :
  ∃ r s' ids, Search 0 server (mkQuery "song" 1) (mkSearchState false []) = (Some r, s') ∧ to_delete s' = ids ∧
    Forall (was_started server) ids.
Proof.
  destruct (searches_end_and_are_deleted 0 server (mkQuery "song" 1) (mkSearchState false [])) as (r & s' & ids & E & Hd & _ & Hf).
  - intros id. by constructor.
  - done.
  - by exists r, s', ids.
Defined.

Lemma a_browsed_directory_is_one_album_witness :
  ∃ coll, BrowseCollection 0 [Ok (mkAnswer 200 "" (Ok [mkDirectory "Band\Album" [song; cover]]))] [] anchor = Ok coll ∧
    length (coll_Tracks coll) = 1%nat ∧ Forall (λ r, 0 < TrackSize (ts_Track r)) (coll_Tracks coll).
Proof.
  destruct (BrowseCollection 0 [Ok (mkAnswer 200 "" (Ok [mkDirectory "Band\Album" [song; cover]]))] [] anchor)
    as [coll|e] eqn:E; [|by vm_compute in E].
  exists coll. split_and!; [done|by vm_compute in E; injection E as <-|].
  destruct (a_browsed_directory_is_one_album _ _ _ _ _ E) as (remote & directory & listing & files & _ & _ & _ & _ & _ & _ & Hall & _).
  eapply Forall_impl; [exact Hall|]. by intros r (file & format & _ & _ & Hs & _).
Defined.

Lemma found_files_can_be_resolved_witness :
  ∃ r, result_of 0 (band, song, false) = Some r ∧
    decodeRemoteFileRef (SourceKey (ts_Ref r)) = Ok (mkRemote "peer" "Band\Album\01 Song.mp3" 3).
Proof.
  destruct (result_of 0 (band, song, false)) as [r|] eqn:E; [|by vm_compute in E]. exists r. split; [done|].
  assert (file_ok "peer" song) as Hok by (repeat split; vm_compute; done).
  destruct (proj1 (found_files_can_be_resolved 0 band song false r Hok) E) as (remote & Hd & -> & _). exact Hd.
Defined.

(** The comparison of [BrowseCollection] is not an order: numbers decide
    between two tracks that have one, paths between all others. *)
Lemma browse_less_goes_in_circles :
  let track number path :=
    mkSource (mkTrack "" "" "" "" "" "" "" "" number 0 0 "" 0 0 0 "" "" "") (mkRef soulseek_Name "") path
      (mkAvailability "" 0 0 true false) 0 in
  browse_less (track 2 "a") (track 0 "b") = true ∧ browse_less (track 0 "b") (track 1 "c") = true ∧
  browse_less (track 1 "c") (track 2 "a") = true.
Proof. by vm_compute. Qed.

(** An empty file is found but cannot be resolved. *)
Lemma empty_files_are_found_in_vain :
  ∃ r, result_of 0 (mkResponse "peer" [] [] true 0 0, mkFile "a.mp3" "" 0 None None, false) = Some r ∧
    decodeRemoteFileRef (SourceKey (ts_Ref r)) = Err (Plain "invalid Soulseek source reference").
Proof. eexists. split; vm_compute; reflexivity. Qed.
End examples.
