(* ===== verification/GrowingFile.v ===== *)
(** A track that is played while it arrives ([soulseek/growing_file.go]): reads
    go to the file that is complete, or else to the part that is there, and wait
    for more.

    A [look] is one turn of the loop of [Read]: what the two files were found to
    be, and what ended the wait after them. *)
From stdpp Require Import base list strings.
From Stdlib Require Import ZArith Lia.
From S2P Require Import Prelude GoStrings GoHash.

Open Scope Z_scope.

Notation bytes := (list Z).

(** [os.Open] of one path; an open file has contents and may fail to seek, to
    read or to close. *)
Inductive attempt :=
  | NotThere
  | CannotOpen (e : error)
  | Opened (contents : bytes) (seekErr readErr closeErr : option error).

(** The case of the [select] that was taken. *)
Inductive wait :=
  | FileClosed
  | JobDone (err : option error) (finalStat : res unit)
  | WaitedEnough.

Record look := mkLook {
  l_final : attempt;
  l_incomplete : attempt;
  l_wait : wait;
}.

Record growingFile := mkGrowing {
  g_size : Z;
  g_offset : Z;
}.

Definition at_offset (offset : Z) (f : growingFile) : growingFile := mkGrowing (g_size f) offset.

(** [file.Read] of at most [n] bytes from [offset] on. *)
Definition read_at (contents : bytes) (offset n : Z) : bytes :=
  take (Z.to_nat n) (drop (Z.to_nat offset) contents).

(** One path: bytes, an error, or nothing yet, with the error of opening it. *)
Definition try_path (n : Z) (f : growingFile) (a : attempt) : option error * option (res bytes) :=
  match a with
  | NotThere => (None, None)
  | CannotOpen e => (Some e, None)
  | Opened contents seekErr readErr closeErr =>
      let n := Z.min n (g_size f - g_offset f) in
      let bs := match readErr with Some _ => [] | None => read_at contents (g_offset f) n end in
      match seekErr, bs, readErr, closeErr with
      | Some e, _, _, _ => (None, Some (Err (Errorf "seek growing Soulseek file: " e "")))
      | None, _ :: _, _, _ => (None, Some (Ok bs))
      | None, [], Some e, _ => (None, Some (Err (Errorf "read growing Soulseek file: " e "")))
      | None, [], None, Some e => (None, Some (Err (Errorf "close growing Soulseek file: " e "")))
      | None, [], None, None => (None, None)
      end
  end.

(** One turn of the loop; [None] when it goes round again. *)
Definition Read_once (n : Z) (f : growingFile) (l : look) : option (res bytes) :=
  if g_offset f >=? g_size f then Some (Err (Sentinel ErrEOF))
  else
    match try_path n f (l_final l) with
    | (_, Some r) => Some r
    | (openErr, None) =>
        match try_path n f (l_incomplete l) with
        | (_, Some r) => Some r
        | (openErr', None) =>
            match l_wait l with
            | FileClosed => Some (Err (Sentinel ErrOsClosed))
            | JobDone (Some e) _ => Some (Err e)
            | JobDone None finalStat =>
                match (match openErr' with Some e => Some e | None => openErr end), finalStat with
                | Some e, _ => Some (Err (Errorf "open completed Soulseek file: " e ""))
                | None, Err e => Some (Err (Errorf "open completed Soulseek file: " e ""))
                | None, Ok _ => None
                end
            | WaitedEnough => None
            end
        end
    end.

(** [Read] into a buffer of [n] bytes; [None] when it still waits after these looks. *)
Fixpoint Read_loop (n : Z) (f : growingFile) (looks : list look) : option (res bytes) :=
  match looks with
  | [] => None
  | l :: looks => match Read_once n f l with Some r => Some r | None => Read_loop n f looks end
  end.

Definition Read (n : Z) (f : growingFile) (looks : list look) : option (res bytes * growingFile) :=
  if n =? 0 then Some (Ok [], f)
  else
    match Read_loop n f looks with
    | None => None
    | Some (Err e) => Some (Err e, f)
    | Some (Ok bs) => Some (Ok bs, at_offset (i64 (g_offset f + Z.of_nat (length bs))) f)
    end.

(** [io.SeekStart], [io.SeekCurrent], [io.SeekEnd]. *)
Definition Seek (offset whence : Z) (f : growingFile) : res Z * growingFile :=
  let next :=
    if whence =? 0 then Ok offset
    else if whence =? 1 then Ok (i64 (g_offset f + offset))
    else if whence =? 2 then Ok (i64 (g_size f + offset))
    else Err (Plain "invalid seek origin") in
  match next with
  | Err e => (Err e, f)
  | Ok next => if next <? 0 then (Err (Plain "negative seek position"), f) else (Ok next, at_offset next f)
  end.

(** * What is read is the track *)

Section reads.
Context (track : bytes).

(** What the peer has sent so far, or the whole of it. *)
Definition part_of_track (a : attempt) : Prop :=
  match a with Opened contents _ _ _ => contents `prefix_of` track | _ => True end.

Definition look_ok (l : look) : Prop := part_of_track (l_final l) ∧ part_of_track (l_incomplete l).

Record reads_track (f : growingFile) : Prop := {
  rt_size : g_size f = Z.of_nat (length track);
  rt_offset : 0 ≤ g_offset f < 2 ^ 63;
  rt_bound : Z.of_nat (length track) < 2 ^ 63;
}.

(** The [m] bytes of the track that come next. *)
Definition next_bytes (f : growingFile) (bs : bytes) : Prop :=
  bs = take (length bs) (drop (Z.to_nat (g_offset f)) track).

Lemma read_at_prefix contents offset n :
  contents `prefix_of` track → 0 ≤ n →
  let bs := read_at contents offset n in
  bs = take (length bs) (drop (Z.to_nat offset) track) ∧ Z.of_nat (length bs) ≤ n.
Proof.
  intros [rest ->] Hn bs. split; [|unfold bs, read_at; rewrite length_take; lia].
  unfold bs, read_at. set (m := Z.to_nat offset). rewrite drop_app, length_take.
  set (here := drop m contents). destruct (decide (Z.to_nat n ≤ length here)%nat) as [Hl|Hl].
  - rewrite Nat.min_l by lia. by rewrite take_app_le.
  - rewrite Nat.min_r by lia. rewrite take_app_le by lia. by rewrite !take_ge by lia.
Qed.

Lemma try_path_reads n f a e bs :
  part_of_track a → 0 < n → g_offset f < g_size f → try_path n f a = (e, Some (Ok bs)) →
  bs ≠ [] ∧ next_bytes f bs ∧ Z.of_nat (length bs) ≤ Z.min n (g_size f - g_offset f).
Proof.
  intros Ha Hn Hlt. destruct a as [|e'|contents seekErr readErr closeErr]; cbn; [done|done|].
  destruct readErr as [re|].
  - destruct seekErr; [done|]. done.
  - destruct (read_at_prefix contents (g_offset f) (Z.min n (g_size f - g_offset f)) Ha ltac:(lia)) as [E Hle].
    destruct seekErr; [done|]. destruct (read_at _ _ _) as [|b l] eqn:Er; [by destruct closeErr|].
    intros [= _ <-]. done.
Qed.

Lemma Read_once_reads n f l bs :
  look_ok l → 0 < n → Read_once n f l = Some (Ok bs) →
  bs ≠ [] ∧ next_bytes f bs ∧ Z.of_nat (length bs) ≤ Z.min n (g_size f - g_offset f).
Proof.
  intros [Hf Hi] Hn. unfold Read_once. destruct (g_offset f >=? g_size f) eqn:E; [done|].
  destruct (try_path n f (l_final l)) as [e1 [r1|]] eqn:E1.
  - intros [= ->]. eapply try_path_reads; [exact Hf|done|lia|exact E1].
  - destruct (try_path n f (l_incomplete l)) as [e2 [r2|]] eqn:E2.
    + intros [= ->]. eapply try_path_reads; [exact Hi|done|lia|exact E2].
    + destruct (l_wait l) as [|[e|] st|]; [done|done| |done]. destruct e2, e1, st; done.
Qed.

Lemma Read_loop_reads n f looks bs :
  Forall look_ok looks → 0 < n → Read_loop n f looks = Some (Ok bs) →
  bs ≠ [] ∧ next_bytes f bs ∧ Z.of_nat (length bs) ≤ Z.min n (g_size f - g_offset f).
Proof.
  induction 1 as [|l looks Hl _ IH]; intros Hn; cbn; [done|]. destruct (Read_once n f l) as [r|] eqn:E; [|by apply IH].
  intros [= ->]. by eapply Read_once_reads.
Qed.

Lemma growing_Read_ok n f looks bs f' :
  reads_track f → Forall look_ok looks → 0 < n → Read n f looks = Some (Ok bs, f') →
  bs ≠ [] ∧ next_bytes f bs ∧ Z.of_nat (length bs) ≤ n ∧ reads_track f' ∧
  g_offset f' = g_offset f + Z.of_nat (length bs) ∧ g_offset f' ≤ g_size f'.
Proof.
  intros [Hs Ho Hb] Hl Hn. unfold Read. destruct (n =? 0) eqn:E; [lia|].
  destruct (Read_loop n f looks) as [[bs'|e]|] eqn:Er; [|done|done]. intros [= -> <-].
  destruct (Read_loop_reads n f looks bs Hl Hn Er) as (Hne & Hnext & Hle).
  assert (i64 (g_offset f + Z.of_nat (length bs)) = g_offset f + Z.of_nat (length bs)) as Ei.
  { apply i64_id. unfold in_i64. lia. }
  cbn. rewrite Ei. split_and!; try done; [lia| |lia]. split; cbn; [done|lia|done].
Qed.

Lemma Read_err n f looks e f' : Read n f looks = Some (Err e, f') → f' = f.
Proof.
  unfold Read. destruct (n =? 0); [done|]. destruct (Read_loop n f looks) as [[bs'|e']|]; [done| |done]. by intros [= _ <-].
Qed.

(** A player: reads of these sizes, each after some looks, until one fails. *)
Fixpoint play (f : growingFile) (calls : list (Z * list look)) : option (bytes * option error) :=
  match calls with
  | [] => Some ([], None)
  | (n, looks) :: calls =>
      match Read n f looks with
      | None => None
      | Some (Err e, _) => Some ([], Some e)
      | Some (Ok bs, f) =>
          match play f calls with None => None | Some (rest, e) => Some (bs ++ rest, e) end
      end
  end.

Lemma take_drop_add (l : bytes) m n : take m l ++ take n (drop m l) = take (m + n) l.
Proof. revert l. induction m as [|m IH]; intros l; [done|]. destruct l as [|x l]; cbn; [by rewrite take_nil|]. by rewrite IH. Qed.

Lemma play_reads f calls bs e :
  reads_track f → Forall (λ x, 0 < x.1 ∧ Forall look_ok x.2) calls → play f calls = Some (bs, e) → next_bytes f bs.
Proof.
  intros Hf Hcalls. revert f bs e Hf. induction Hcalls as [|[n looks] calls [Hn Hl] _ IH]; intros f bs e Hf; cbn.
  - by intros [= <- _].
  - cbn in Hn, Hl. destruct (Read n f looks) as [[[bs1|e1] f1]|] eqn:Er; [| by intros [= <- _]|done].
    destruct (growing_Read_ok _ _ _ _ _ Hf Hl Hn Er) as (_ & Hnext & _ & Hf1 & Ho & _).
    destruct (play f1 calls) as [[rest e2]|] eqn:Ep; [|done]. intros [= <- <-].
    specialize (IH f1 rest e2 Hf1 Ep). unfold next_bytes in *.
    rewrite Ho in IH. replace (Z.to_nat (g_offset f + Z.of_nat (length bs1))) with (Z.to_nat (g_offset f) + length bs1)%nat in IH
      by (destruct Hf; lia).
    rewrite <- drop_drop in IH. rewrite length_app. rewrite <- take_drop_add. by rewrite <- Hnext, <- IH.
Qed.

(** ** The end *)

(** The download's own error is not the end of a file. *)
Definition not_end (l : look) : Prop := ∀ st, l_wait l ≠ JobDone (Some (Sentinel ErrEOF)) st.

Lemma Read_once_end n f l :
  not_end l → Read_once n f l = Some (Err (Sentinel ErrEOF)) → g_size f ≤ g_offset f.
Proof.
  intros Hl. unfold Read_once. destruct (g_offset f >=? g_size f) eqn:E; [lia|].
  assert (∀ a e r, try_path n f a = (e, Some r) → r ≠ Err (Sentinel ErrEOF)) as Htry.
  { intros [|e'|contents seekErr readErr closeErr] e r; cbn; [done|done|].
    destruct seekErr; [by intros [= _ <-]|]. destruct readErr; [by intros [= _ <-]|].
    destruct (read_at _ _ _); [destruct closeErr|]; by intros [= _ <-]. }
  destruct (try_path n f (l_final l)) as [e1 [r1|]] eqn:E1; [intros [= ->]; by apply Htry in E1|].
  destruct (try_path n f (l_incomplete l)) as [e2 [r2|]] eqn:E2; [intros [= ->]; by apply Htry in E2|].
  destruct (l_wait l) as [|[e|] st|] eqn:Ew; [done| | |done].
  - intros [= ->]. by destruct (Hl st).
  - destruct e2, e1, st; done.
Qed.

Lemma Read_end n f looks f' :
  Forall not_end looks → Read n f looks = Some (Err (Sentinel ErrEOF), f') → g_size f ≤ g_offset f.
Proof.
  intros Hl. unfold Read. destruct (n =? 0); [done|].
  assert (Read_loop n f looks = Some (Err (Sentinel ErrEOF)) → g_size f ≤ g_offset f) as Hloop.
  { induction Hl as [|l looks Hl _ IH]; cbn; [done|]. destruct (Read_once n f l) as [r|] eqn:E; [|done].
    intros [= ->]. by eapply Read_once_end. }
  destruct (Read_loop n f looks) as [[bs|e]|]; [done| |done]. intros [= -> _]. by apply Hloop.
Qed.

Lemma play_end f calls bs :
  reads_track f → Forall (λ x, 0 < x.1 ∧ Forall look_ok x.2 ∧ Forall not_end x.2) calls →
  play f calls = Some (bs, Some (Sentinel ErrEOF)) → Z.of_nat (length bs) = Z.max 0 (g_size f - g_offset f).
Proof.
  intros Hf Hcalls. revert f bs Hf. induction Hcalls as [|[n looks] calls (Hn & Hl & Hne) _ IH]; intros f bs Hf; cbn; [done|].
  cbn in Hn, Hl, Hne. destruct (Read n f looks) as [[[bs1|e1] f1]|] eqn:Er; [| |done].
  - destruct (growing_Read_ok _ _ _ _ _ Hf Hl Hn Er) as (_ & _ & _ & Hf1 & Ho & Hle).
    destruct (play f1 calls) as [[rest e2]|] eqn:Ep; [|done]. intros [= <- ->].
    specialize (IH f1 rest Hf1 Ep). rewrite length_app.
    assert (g_size f1 = g_size f) as Es by (destruct Hf, Hf1; congruence). lia.
  - intros [= <- ->]. apply Read_end in Er; [|done]. cbn. lia.
Qed.

(** ** It does not wait for what is there *)

(** A look that gives [Read] something to return. *)
Definition ready (f : growingFile) (l : look) : Prop :=
  g_size f ≤ g_offset f ∨ l_wait l = FileClosed ∨ (∃ e st, l_wait l = JobDone (Some e) st) ∨
  ∃ contents, (l_final l = Opened contents None None None ∨ l_incomplete l = Opened contents None None None) ∧
    g_offset f < Z.of_nat (length contents).

Lemma try_path_ready n f contents :
  0 < n → 0 ≤ g_offset f < g_size f → g_offset f < Z.of_nat (length contents) →
  ∃ e r, try_path n f (Opened contents None None None) = (e, Some r).
Proof.
  intros Hn Ho Hl. cbn. destruct (read_at _ _ _) as [|b bs] eqn:E; [|eauto].
  apply (f_equal length) in E. unfold read_at in E. rewrite length_take, length_drop in E. cbn in E. lia.
Qed.

Lemma Read_once_ready n f l : 0 < n → 0 ≤ g_offset f → ready f l → is_Some (Read_once n f l).
Proof.
  intros Hn Ho Hr. unfold Read_once. destruct (g_offset f >=? g_size f) eqn:E; [done|].
  destruct (try_path n f (l_final l)) as [e1 [r1|]] eqn:E1; [done|].
  destruct (try_path n f (l_incomplete l)) as [e2 [r2|]] eqn:E2; [done|].
  destruct Hr as [?|[-> |[(e & st & ->)|(contents & Hc & Hl)]]]; [lia|done|done|].
  destruct (try_path_ready n f contents Hn ltac:(lia) Hl) as (e & r & Et).
  destruct Hc as [Hc|Hc]; rewrite Hc in *; congruence.
Qed.

(** C14. A track that is played while it arrives is the track: whatever part of
    it the two files hold when they are looked at, the bytes that reads of any
    sizes return one after the other are the bytes of the track from the offset
    on, the end is reported only when all of them have been returned, a read
    never waits when a file has more than was read, the download has failed or
    the file was closed, and a seek goes where it says or does not move. *)
Theorem growing_reads_are_the_track f calls :
  reads_track f → Forall (λ x, 0 < x.1 ∧ Forall look_ok x.2 ∧ Forall not_end x.2) calls →
  (∀ bs e, play f calls = Some (bs, e) →
     bs = take (length bs) (drop (Z.to_nat (g_offset f)) track) ∧
     (e = Some (Sentinel ErrEOF) → bs = drop (Z.to_nat (g_offset f)) track)) ∧
  (∀ n looks, 0 < n → Exists (ready f) looks → is_Some (Read n f looks)) ∧
  (∀ offset whence r f', Seek offset whence f = (r, f') →
     match r with Ok p => 0 ≤ p ∧ f' = at_offset p f | Err _ => f' = f end).
Proof.
  intros Hf Hcalls. split_and!.
  - intros bs e Hp. assert (next_bytes f bs) as Hnext.
    { eapply play_reads; [exact Hf| |exact Hp]. eapply Forall_impl; [exact Hcalls|]. by intros x (? & ? & ?). }
    split; [exact Hnext|]. intros ->. apply play_end in Hp; [|done|done]. unfold next_bytes in Hnext. destruct Hf.
    rewrite Hnext. apply take_ge. rewrite length_drop. lia.
  - intros n looks Hn Hr. unfold Read. destruct (n =? 0) eqn:E; [lia|].
    assert (is_Some (Read_loop n f looks)) as [r ->]; [|by destruct r].
    induction Hr as [l looks Hl|l looks _ IH]; cbn.
    + destruct (Read_once_ready n f l Hn ltac:(destruct Hf; lia) Hl) as [r ->]. done.
    + by destruct (Read_once n f l).
  - intros offset whence r f'. unfold Seek. destruct (if whence =? 0 then _ else _) as [next|e]; [|by intros [= <- <-]].
    destruct (next <? 0) eqn:E; intros [= <- <-]; [done|]. split; [lia|done].
Qed.
End reads.

(** Two reads, the first while only the beginning is there. *)
Lemma growing_reads_are_the_track_witness :
  ∃ bs, play (mkGrowing 4 0)
    [(3, [mkLook NotThere NotThere WaitedEnough; mkLook NotThere (Opened [1; 2] None None None) WaitedEnough]);
     (3, [mkLook (Opened [1; 2; 3; 4] None None None) NotThere (JobDone None (Ok tt))]);
     (3, [mkLook NotThere NotThere WaitedEnough])] = Some (bs, Some (Sentinel ErrEOF)) ∧ bs = [1; 2; 3; 4].
Proof.
  exists [1; 2; 3; 4]. split; [reflexivity|].
  refine (proj2 (proj1 (growing_reads_are_the_track [1; 2; 3; 4] (mkGrowing 4 0)
    [(3, [mkLook NotThere NotThere WaitedEnough; mkLook NotThere (Opened [1; 2] None None None) WaitedEnough]);
     (3, [mkLook (Opened [1; 2; 3; 4] None None None) NotThere (JobDone None (Ok tt))]);
     (3, [mkLook NotThere NotThere WaitedEnough])] _ _) [1; 2; 3; 4] (Some (Sentinel ErrEOF)) eq_refl) eq_refl).
  - split; cbn; lia.
  - assert (∀ c, bool_decide (c `prefix_of` [1; 2; 3; 4]) = true → part_of_track [1; 2; 3; 4] (Opened c None None None)) as Hc.
    { intros c Hc. by apply bool_decide_eq_true in Hc. }
    repeat (apply Forall_cons_2 || apply Forall_nil_2); repeat split;
      repeat (apply Forall_cons_2 || apply Forall_nil_2); try (cbn; lia); try (repeat split; try done; by apply Hc);
      by intros st.
Defined.

(** The download is over, the file is there but shorter than announced: no turn
    of the loop ends and none of them waits. *)
Lemma a_short_file_is_read_for_ever n f contents :
  Z.of_nat (length contents) ≤ g_offset f < g_size f →
  ∀ looks, Forall (λ l, l = mkLook (Opened contents None None None) NotThere (JobDone None (Ok tt))) looks →
  Read_loop n f looks = None.
Proof.
  intros Hl looks. induction 1 as [|l looks -> _ IH]; cbn; [done|]. unfold Read_once. cbn [l_final l_incomplete l_wait].
  destruct (g_offset f >=? g_size f) eqn:E; [lia|]. cbn. unfold read_at. rewrite drop_ge by lia. rewrite take_nil. exact IH.
Qed.
