(* ===== verification/SoulseekJobs.v ===== *)
(** The download coordinator of the Soulseek provider ([soulseek/download.go],
    [soulseek/monitoring.go], [soulseek/persistence.go]): its state and the
    operations on it.

    A job is shared between the maps [jobs] and [records], the goroutines that
    work for it and the readers that wait for it, so jobs live on a heap and
    are referred to by their address.  A goroutine is a [thread] at the point it
    has reached; [SoulseekRuns] says what each may do next.  What slskd answers
    and what the clock says are arguments of the operations. *)
From stdpp Require Import base gmap strings list.
From Stdlib Require Import ZArith Lia Ascii.
From S2P Require Import Prelude GoStrings Sql Paths Music Services Counting TorrentFiles SoulseekRefs SoulseekClient.

Open Scope Z_scope.
Open Scope go_scope.

(** * The state *)

(** [done] is closed when [j_finished] is set; [ready] is closed once.
    [j_cancel] is the context whose [CancelFunc] the job holds. *)
Record downloadJob := mkJob {
  j_key : string;
  j_trackID : string;
  j_remote : remoteFileRef;
  j_batchID : string;
  j_transferID : string;
  j_finalPath : string;
  j_incompletePath : string;
  j_ready : bool;
  j_download : TrackDownload;
  j_err : option error;
  j_finished : bool;
  j_monitoring : bool;
  j_lastPersist : time;
  j_cancel : option N;
  j_slotHeld : bool;
  j_retryCount : Z;
}.

Record persistedDownloadJob := mkPersisted {
  p_Download : TrackDownload;
  p_Key : string;
  p_TrackID : string;
  p_Remote : remoteFileRef;
  p_BatchID : string;
  p_TransferID : string;
  p_RetryCount : Z;
}.

(** What slskd says of a batch of transfers. *)
Record slskdDownloadTransfer := mkTransfer {
  tr_ID : string;
  tr_Filename : string;
  tr_State : string;
  tr_BytesTransferred : Z;
  tr_Exception : string;
}.

Record slskdDownloadBatch := mkBatch {
  b_ID : string;
  b_Transfers : list slskdDownloadTransfer;
}.

Record slskdDownloadBatchResponse := mkBatchResponse {
  br_Batch : slskdDownloadBatch;
  br_Failures : list (string * string);
}.

(** The context of a goroutine: one made by [startEnqueue], or the
    coordinator's own. *)
Notation context := (option N) (only parsing).

(** A goroutine and the point it is at.  [next] is what follows [finishJob];
    [reading] says that the caller has begun a read of the source. *)
Inductive thread :=
  | Acquiring (p ctx : N)
  | Acquired (p ctx : N)
  | Enqueueing (p : N) (ctx : context) (attempt : Z)
  | EnqueueFailed (p : N) (ctx : context) (attempt : Z) (e : error)
  | Backoff (p : N) (ctx : context) (attempt : Z)
  | Enqueued (p : N) (ctx : context)
  | Monitoring (p : N) (batchID : string) (errors : Z)
  | WaitingFinal (p : N)
  | TransferFailed (p : N) (transfer : slskdDownloadTransfer)
  | EndMonitoring (p : N)
  | Finishing (p : N) (state : string) (err : option error) (next : option thread)
  | Closing (p : N) (releaseSlot : bool) (next : option thread)
  | Saving (p : N) (next : option thread)
  | Removing (p : N) (next : option thread)
  | Completing (p : N)
  | Ensuring (key trackID name : string) (remote : remoteFileRef) (reading : bool)
  | NewJob (p : N) (key : string) (reading : bool)
  | WaitingReady (p : N) (key : string) (reading : bool)
  | Prebuffering (p : N) (key : string)
  | Reading (key : string)
  | Unread (key : string)
  | Cancelling (p : N)
  | Resuming (ps : list N)
  | Restored (p : N) (batchID : string) (rest : list N)
  | Evicting (bytes freed : Z) (candidates : list (N * string)).

(** What reading and decoding a file of the job directory gives. *)
Notation job_files := (database (gmap string (res persistedDownloadJob))).

Record coordinator := mkCoordinator {
  heap : gmap N downloadJob;
  c_jobs : gmap string N;
  c_records : gmap string N;
  c_active : gmap string Z;
  gate : Z;
  stopped : bool;
  cancelled : gset N;
  contexts : N;
  loadErrors : list error;
  state_dir : job_files;
  media : disk;
  threads : list thread;
}.

Definition set_heap (f : gmap N downloadJob → gmap N downloadJob) (c : coordinator) : coordinator :=
  mkCoordinator (f (heap c)) (c_jobs c) (c_records c) (c_active c) (gate c) (stopped c) (cancelled c)
    (contexts c) (loadErrors c) (state_dir c) (media c) (threads c).
Definition set_jobs (f : gmap string N → gmap string N) (c : coordinator) : coordinator :=
  mkCoordinator (heap c) (f (c_jobs c)) (c_records c) (c_active c) (gate c) (stopped c) (cancelled c)
    (contexts c) (loadErrors c) (state_dir c) (media c) (threads c).
Definition set_records (f : gmap string N → gmap string N) (c : coordinator) : coordinator :=
  mkCoordinator (heap c) (c_jobs c) (f (c_records c)) (c_active c) (gate c) (stopped c) (cancelled c)
    (contexts c) (loadErrors c) (state_dir c) (media c) (threads c).
Definition set_active (f : gmap string Z → gmap string Z) (c : coordinator) : coordinator :=
  mkCoordinator (heap c) (c_jobs c) (c_records c) (f (c_active c)) (gate c) (stopped c) (cancelled c)
    (contexts c) (loadErrors c) (state_dir c) (media c) (threads c).
Definition set_gate (f : Z → Z) (c : coordinator) : coordinator :=
  mkCoordinator (heap c) (c_jobs c) (c_records c) (c_active c) (f (gate c)) (stopped c) (cancelled c)
    (contexts c) (loadErrors c) (state_dir c) (media c) (threads c).
Definition set_contexts (s : bool) (k : gset N) (n : N) (c : coordinator) : coordinator :=
  mkCoordinator (heap c) (c_jobs c) (c_records c) (c_active c) (gate c) s k
    n (loadErrors c) (state_dir c) (media c) (threads c).
Definition set_load_errors (l : list error) (c : coordinator) : coordinator :=
  mkCoordinator (heap c) (c_jobs c) (c_records c) (c_active c) (gate c) (stopped c) (cancelled c)
    (contexts c) l (state_dir c) (media c) (threads c).
Definition set_state_dir (d : job_files) (c : coordinator) : coordinator :=
  mkCoordinator (heap c) (c_jobs c) (c_records c) (c_active c) (gate c) (stopped c) (cancelled c)
    (contexts c) (loadErrors c) d (media c) (threads c).
Definition set_media (d : disk) (c : coordinator) : coordinator :=
  mkCoordinator (heap c) (c_jobs c) (c_records c) (c_active c) (gate c) (stopped c) (cancelled c)
    (contexts c) (loadErrors c) (state_dir c) d (threads c).
Definition set_threads (l : list thread) (c : coordinator) : coordinator :=
  mkCoordinator (heap c) (c_jobs c) (c_records c) (c_active c) (gate c) (stopped c) (cancelled c)
    (contexts c) (loadErrors c) (state_dir c) (media c) l.

Definition go (t : thread) (c : coordinator) : coordinator := set_threads (t :: threads c) c.
Definition go_on (next : option thread) (c : coordinator) : coordinator :=
  match next with Some t => go t c | None => c end.

Definition on_state {A} (m : M job_files A) : M coordinator A := zoom state_dir set_state_dir m.
Definition on_media {A} (m : M disk A) : M coordinator A := zoom media set_media m.

(** * Jobs *)

Definition with_transfer (batchID transferID : string) (j : downloadJob) : downloadJob :=
  mkJob (j_key j) (j_trackID j) (j_remote j) batchID transferID (j_finalPath j) (j_incompletePath j)
    (j_ready j) (j_download j) (j_err j) (j_finished j) (j_monitoring j) (j_lastPersist j) (j_cancel j)
    (j_slotHeld j) (j_retryCount j).
Definition map_job_download (f : TrackDownload → TrackDownload) (j : downloadJob) : downloadJob :=
  mkJob (j_key j) (j_trackID j) (j_remote j) (j_batchID j) (j_transferID j) (j_finalPath j) (j_incompletePath j)
    (j_ready j) (f (j_download j)) (j_err j) (j_finished j) (j_monitoring j) (j_lastPersist j) (j_cancel j)
    (j_slotHeld j) (j_retryCount j).
Definition with_ready (j : downloadJob) : downloadJob :=
  mkJob (j_key j) (j_trackID j) (j_remote j) (j_batchID j) (j_transferID j) (j_finalPath j) (j_incompletePath j)
    true (j_download j) (j_err j) (j_finished j) (j_monitoring j) (j_lastPersist j) (j_cancel j)
    (j_slotHeld j) (j_retryCount j).
Definition with_monitoring (b : bool) (j : downloadJob) : downloadJob :=
  mkJob (j_key j) (j_trackID j) (j_remote j) (j_batchID j) (j_transferID j) (j_finalPath j) (j_incompletePath j)
    (j_ready j) (j_download j) (j_err j) (j_finished j) b (j_lastPersist j) (j_cancel j)
    (j_slotHeld j) (j_retryCount j).
Definition with_lastPersist (now : time) (j : downloadJob) : downloadJob :=
  mkJob (j_key j) (j_trackID j) (j_remote j) (j_batchID j) (j_transferID j) (j_finalPath j) (j_incompletePath j)
    (j_ready j) (j_download j) (j_err j) (j_finished j) (j_monitoring j) now (j_cancel j)
    (j_slotHeld j) (j_retryCount j).
Definition with_cancel (ctx : N) (j : downloadJob) : downloadJob :=
  mkJob (j_key j) (j_trackID j) (j_remote j) (j_batchID j) (j_transferID j) (j_finalPath j) (j_incompletePath j)
    (j_ready j) (j_download j) (j_err j) (j_finished j) (j_monitoring j) (j_lastPersist j) (Some ctx)
    (j_slotHeld j) (j_retryCount j).
Definition with_slot (j : downloadJob) : downloadJob :=
  mkJob (j_key j) (j_trackID j) (j_remote j) (j_batchID j) (j_transferID j) (j_finalPath j) (j_incompletePath j)
    (j_ready j) (j_download j) (j_err j) (j_finished j) (j_monitoring j) (j_lastPersist j) (j_cancel j)
    true (j_retryCount j).
Definition with_retry (j : downloadJob) : downloadJob :=
  mkJob (j_key j) (j_trackID j) (j_remote j) "" "" (j_finalPath j) (j_incompletePath j)
    (j_ready j) (j_download j) (j_err j) (j_finished j) (j_monitoring j) (j_lastPersist j) (j_cancel j)
    (j_slotHeld j) (j_retryCount j + 1).
Definition with_finished (err : option error) (j : downloadJob) : downloadJob :=
  mkJob (j_key j) (j_trackID j) (j_remote j) (j_batchID j) (j_transferID j) (j_finalPath j) (j_incompletePath j)
    (j_ready j) (j_download j) err true (j_monitoring j) (j_lastPersist j) None false (j_retryCount j).

(** The state, the error and [UpdatedAt] of the download, set together. *)
Definition report (state err : string) (now : time) : downloadJob → downloadJob :=
  map_job_download (λ d, touched now (with_state state err d)).

Definition job_state (j : downloadJob) : string := dl_State (j_download j).

Definition get (p : N) (c : coordinator) : option downloadJob := heap c !! p.
Definition update (p : N) (f : downloadJob → downloadJob) : coordinator → coordinator :=
  set_heap (alter f p).

(** The address of the next job. *)
Definition fresh_address (c : coordinator) : N := N.of_nat (size (heap c)).

Definition stateContains `{Unicode} (state flag : string) : bool :=
  existsb (λ value, EqualFold (TrimSpace value) flag) (FieldsFunc state (λ r, (r =? 44) || (r =? 124))).

Definition transferSucceeded `{Unicode} (state : string) : bool :=
  stateContains state "Completed" && stateContains state "Succeeded".

Definition transferFailed `{Unicode} (state : string) : bool :=
  stateContains state "Completed" &&
  existsb (stateContains state) ["Errored"; "Rejected"; "Cancelled"; "TimedOut"; "Aborted"].

Definition retryableTransferFailure `{Unicode} (transfer : slskdDownloadTransfer) : bool :=
  if stateContains (tr_State transfer) "TimedOut" || stateContains (tr_State transfer) "Aborted" then true
  else if negb (stateContains (tr_State transfer) "Errored") then false
  else existsb (Contains (ToLower (tr_Exception transfer)))
         ["timeout"; "timed out"; "disconnect"; "temporarily unavailable"; "connection reset"].

Section coordinator.
Context `{Runtime} `{RemoteJSON} `{Unicode}.
Context (downloadsDir incompleteDir stateDir : string) (MaxActive RetryAttempts : Z).

(** * Jobs on disk *)

Definition recordPath (id : string) : string := JoinPath [stateDir; TrimSpace id +:+ ".json"].

Definition persisted (j : downloadJob) : persistedDownloadJob :=
  mkPersisted (j_download j) (j_key j) (j_trackID j) (j_remote j) (j_batchID j) (j_transferID j) (j_retryCount j).

Definition write_record (record : persistedDownloadJob) : M job_files unit :=
  let path := recordPath (dl_ID (p_Download record)) in
  let temporaryPath := path +:+ ".tmp" in
  _ ← wrap_err (λ e, Errorf "write Soulseek download job: " e "") (os_WriteFile temporaryPath (Ok record));
  wrap_err (λ e, Errorf "commit Soulseek download job: " e "") (os_Rename temporaryPath path).

Definition persistJob (now : time) (p : N) : M coordinator unit := λ c,
  match get p c with
  | None => (Ok tt, c)
  | Some j =>
      match on_state (write_record (persisted j)) c with
      | (Err e, c) => (Err e, c)
      | (Ok _, c) => (Ok tt, update p (with_lastPersist now) c)
      end
  end.

(** [_ = c.persistJob(job)]. *)
Definition persist_quietly (now : time) (p : N) (c : coordinator) : coordinator := (persistJob now p c).2.

(** * Asking for a download *)

Definition download_id (key : string) : string := StableID "download" [soulseek_Name; key].

Definition new_job (now : time) (key trackID name : string) (remote : remoteFileRef) : downloadJob :=
  mkJob key trackID remote "" "" (final_path downloadsDir trackID name) (incomplete_path incompleteDir remote name)
    false
    (mkDownload (download_id key) soulseek_Name (rf_Peer remote) trackID name StateWaiting 0 (rf_Size remote) "" now now)
    None false false time_zero None false 0.

Definition cached_job (completedAt : time) (key trackID name : string) (remote : remoteFileRef) : downloadJob :=
  mkJob key trackID remote "" "" (final_path downloadsDir trackID name) "" true
    (mkDownload (download_id key) soulseek_Name (rf_Peer remote) trackID name StateCached (rf_Size remote)
       (rf_Size remote) "" completedAt completedAt)
    None true false time_zero None false 0.

Definition as_cached (size : Z) (now : time) (d : TrackDownload) : TrackDownload :=
  with_progress size size now (with_state StateCached "" d).

Definition rememberCached (now modTime : time) (key trackID name : string) (remote : remoteFileRef)
    (c : coordinator) : coordinator :=
  let id := download_id key in
  match c_records c !! id with
  | Some p => persist_quietly now p (update p (map_job_download (as_cached (rf_Size remote) now)) c)
  | None =>
      let p := fresh_address c in
      persist_quietly now p
        (set_records <[id := p]> (set_heap <[p := cached_job modTime key trackID name remote]> c))
  end.

Definition beginRead (key : string) : coordinator → coordinator := set_active (count_up key).

Definition endRead (key : string) : coordinator → coordinator :=
  set_active (λ active,
    if default 0 (active !! key) <=? 1 then delete key active
    else <[key := default 0 (active !! key) - 1]> active).

(** [resolve] while it holds [cacheMu]: the file is there, or a download is
    needed.  [modTime] is the time of the file. *)
Definition resolve (now modTime : time) (key trackID : string) (remote : remoteFileRef) : M coordinator unit :=
  let trackID :=
    if bool_decide (TrimSpace trackID = "")
    then StableID soulseek_Name [rf_Peer remote; rf_Path remote; Itoa (rf_Size remote)] else trackID in
  let name := sanitizedFilename (rf_Path remote) in
  let finalPath := final_path downloadsDir trackID name in
  info ← try (on_media (os_ReadFile finalPath));
  match info with
  | Ok contents =>
      let size := Z.of_nat (length contents) in
      if negb (size =? rf_Size remote)
      then throw (Plain ("cached Soulseek file has size " +:+ Itoa size +:+ ", want " +:+ Itoa (rf_Size remote)))
      else
        _ ← wrap_err (λ e, Errorf "open cached Soulseek file: " e "") (on_media (os_ReadFile finalPath));
        _ ← modify (rememberCached now modTime key trackID name remote);
        modify (λ c, go (Reading key) (beginRead key c))
  | Err e =>
      if errors_Is ErrOsNotExist e
      then modify (λ c, go (Ensuring key trackID name remote true) (beginRead key c))
      else throw (Errorf "inspect cached Soulseek file: " e "")
  end.

(** [Resolve] up to the point where it waits. *)
Definition Resolve (now modTime : time) (trackID : string) (ref : SourceRef) : M coordinator unit :=
  if negb (bool_decide (Provider ref = soulseek_Name)) then throw (Plain ("unexpected provider " +:+ Provider ref))
  else
    remote ← lift (decodeRemoteFileRef (SourceKey ref));
    resolve now modTime (SourceKey ref) trackID remote.

(** [ensureDownload] under [mu]. *)
Definition ensureDownload (now : time) (key trackID name : string) (remote : remoteFileRef) (reading : bool)
    (c : coordinator) : coordinator :=
  match c_jobs c !! key with
  | Some p => go (WaitingReady p key reading) c
  | None =>
      let p := fresh_address c in
      go (NewJob p key reading)
        (set_records <[download_id key := p]>
           (set_jobs <[key := p]> (set_heap <[p := new_job now key trackID name remote]> c)))
  end.

(** What a caller does when its download cannot be had. *)
Definition giving_back (key : string) (reading : bool) : option thread := if reading then Some (Unread key) else None.

Definition startEnqueue (p : N) (c : coordinator) : coordinator :=
  let ctx := contexts c in
  go (Acquiring p ctx) (update p (with_cancel ctx) (set_contexts (stopped c) (cancelled c) (ctx + 1)%N c)).

(** The rest of [ensureDownload] for a job it has made. *)
Definition start_job (now : time) (p : N) (key : string) (reading : bool) (c : coordinator) : coordinator :=
  match persistJob now p c with
  | (Err e, c) => go (Finishing p StateFailed (Some e) (giving_back key reading)) c
  | (Ok _, c) => go (WaitingReady p key reading) (startEnqueue p c)
  end.

(** Which case of a [select] is taken. *)
Inductive wakeup := ByContext (e : error) | ByDone | ByDeadline | ByTick.

(** [waitForInitialData] after one look at the [sizes] of the files that are
    there; [None] when it looks again. *)
Definition waitForInitialData (bytes : Z) (sizes : list Z) (w : wakeup) (j : downloadJob) : option (option error) :=
  if existsb (λ size, Z.max bytes 1 <=? size) sizes then Some None
  else match w with
  | ByContext e => Some (Some e)
  | ByDone => if j_finished j then Some (j_err j) else None
  | ByDeadline => Some None
  | ByTick => None
  end.

(** [waitUntilEnqueued]; [None] while it waits. *)
Definition waitUntilEnqueued (w : wakeup) (j : downloadJob) : option (option error) :=
  match w with
  | ByContext e => Some (Some (unavailable ("wait for Soulseek download enqueue: " +:+ Error e)))
  | _ => if j_ready j then Some (j_err j) else None
  end.

(** * Enqueueing *)

Definition release_gate : coordinator → coordinator := set_gate (λ active, if 0 <? active then active - 1 else active).

(** [startEnqueue]'s goroutine once it has a slot. *)
Definition acquired (now : time) (p ctx : N) (c : coordinator) : coordinator :=
  match get p c with
  | None => c
  | Some j =>
      if j_finished j then release_gate c
      else
        let c := update p (λ j, with_slot (report StateQueued (dl_Error (j_download j)) now j)) c in
        go (Enqueueing p (Some ctx) 1) (persist_quietly now p c)
  end.

(** The first failure's message, when it says something. *)
Definition refusal (r : slskdDownloadBatchResponse) : string :=
  match br_Failures r with
  | (_, message) :: _ =>
      if bool_decide (TrimSpace message = "") then "slskd did not enqueue the file" else message
  | [] => "slskd did not enqueue the file"
  end.

Definition enqueue_error (r : slskdDownloadBatchResponse) : option error :=
  if bool_decide (b_ID (br_Batch r) = "") || bool_decide (length (b_Transfers (br_Batch r)) = 0%nat)
  then Some (Plain ("enqueue Soulseek download: " +:+ refusal r)) else None.

(** [enqueue] from the answer on; without a body the answer is empty. *)
Definition enqueue (now : time) (p : N) (reply : res (option slskdDownloadBatchResponse)) : M coordinator unit :=
  answered ← wrap_err (λ e, Errorf "enqueue Soulseek download: " e "") (lift reply);
  let response := default (mkBatchResponse (mkBatch "" []) []) answered in
  match enqueue_error response with
  | Some e => throw e
  | None =>
      let transferID := match b_Transfers (br_Batch response) with t :: _ => tr_ID t | [] => "" end in
      _ ← modify (update p (λ j, report StateQueued "" now (with_transfer (b_ID (br_Batch response)) transferID j)));
      persistJob now p
  end.

(** [enqueueWithRetry] when an attempt has been answered; the context says who
    called it: the goroutine of [startEnqueue] or the monitor. *)
Definition enqueue_answered (now : time) (p : N) (ctx : context) (attempt : Z)
    (reply : res (option slskdDownloadBatchResponse)) (c : coordinator) : coordinator :=
  match enqueue now p reply c with
  | (Ok _, c) => go (Enqueued p ctx) c
  | (Err e, c) => go (EnqueueFailed p ctx attempt e) c
  end.

Definition after_enqueue (p : N) (ctx : context) : option thread :=
  match ctx with Some _ => None | None => Some (EndMonitoring p) end.

Definition enqueue_failed (now : time) (p : N) (ctx : context) (attempt : Z) (e : error) (c : coordinator) : coordinator :=
  if negb (temporarySlskdError e) || (attempt =? RetryAttempts)
  then go (Finishing p StateFailed (Some e) (after_enqueue p ctx)) c
  else
    let message := "temporary source error; retry " +:+ Itoa attempt +:+ " of " +:+ Itoa RetryAttempts in
    go (Backoff p ctx attempt) (persist_quietly now p (update p (report StateWaiting message now) c)).

Definition backoff_over (now : time) (p : N) (ctx : context) (attempt : Z) (c : coordinator) : coordinator :=
  go (Enqueueing p ctx (attempt + 1)) (update p (report StateQueued "" now) c).

Definition backoff_cancelled (p : N) (ctx : context) (e : error) (c : coordinator) : coordinator :=
  go (Finishing p StateFailed (Some (Errorf "enqueue Soulseek download: " e "")) (after_enqueue p ctx)) c.

Definition context_done (ctx : context) (c : coordinator) : bool :=
  stopped c || match ctx with Some k => bool_decide (k ∈ cancelled c) | None => false end.

(** [startMonitor]: [beginMonitoring] and the goroutine. *)
Definition startMonitor (p : N) (batchID : string) (c : coordinator) : coordinator :=
  match get p c with
  | None => c
  | Some j =>
      if j_finished j || j_monitoring j then c
      else go (Monitoring p batchID 0) (update p (with_monitoring true) c)
  end.

Definition job_batch (p : N) (c : coordinator) : string := match get p c with Some j => j_batchID j | None => "" end.

Definition enqueued (p : N) (ctx : context) (c : coordinator) : coordinator :=
  let batchID := job_batch p c in
  match ctx with
  | Some _ => startMonitor p batchID (update p with_ready c)
  | None => go (Monitoring p batchID 0) c
  end.

(** * Monitoring *)

Definition updateTransfer (now : time) (transfer : slskdDownloadTransfer) (j : downloadJob) : bool * downloadJob :=
  if j_finished j then (false, j)
  else
    let transferID := if bool_decide (tr_ID transfer = "") then j_transferID j else tr_ID transfer in
    let d := j_download j in
    let bytes := Z.min (tr_BytesTransferred transfer) (TotalBytes d) in
    let state := tr_State transfer in
    let state :=
      if stateContains state "InProgress" then StateDownloading
      else if stateContains state "Queued" || stateContains state "Requested" || stateContains state "Initializing"
      then StateQueued else dl_State d in
    let changed := negb (bool_decide (j_transferID j = transferID)) || negb (CompletedBytes d =? bytes)
                   || negb (bool_decide (dl_State d = state)) in
    (changed,
     with_transfer (j_batchID j) transferID
       (map_job_download (λ d, with_progress bytes (TotalBytes d) (if changed then now else UpdatedAt d)
          (with_state state (dl_Error d) d)) j)).

Definition prepareAutomaticRetry (now : time) (message : string) (j : downloadJob) : option downloadJob :=
  if j_finished j || (RetryAttempts - 1 <=? j_retryCount j) then None
  else Some (report StateWaiting message now (with_retry j)).

(** [finishJob] as the monitor calls it. *)
Definition monitor_fails (p : N) (e : error) : thread := Finishing p StateFailed (Some e) (Some (EndMonitoring p)).

Definition poll_failed (p : N) (batchID : string) (errors : Z) (e : error) : thread :=
  if 5 <=? errors + 1 then monitor_fails p (Errorf "monitor Soulseek download: " e "")
  else Monitoring p batchID (errors + 1).

(** One answer of slskd to the monitor. *)
Definition poll_answered (now : time) (p : N) (batchID : string) (batch : slskdDownloadBatch) (c : coordinator)
    : coordinator :=
  match b_Transfers batch, get p c with
  | [], _ => go (monitor_fails p (Plain "monitor Soulseek download: batch has no transfers")) c
  | transfer :: _, None => c
  | transfer :: _, Some j =>
      let '(changed, j') := updateTransfer now transfer j in
      let c := update p (λ _, j') c in
      let '(saved, c) :=
        if changed && (Second <=? time_Sub now (j_lastPersist j')) then persistJob now p c else (Ok tt, c) in
      match saved with
      | Err e => go (monitor_fails p e) c
      | Ok _ =>
          if transferSucceeded (tr_State transfer) then go (WaitingFinal p) c
          else if transferFailed (tr_State transfer) then go (TransferFailed p transfer) c
          else go (Monitoring p batchID 0) c
      end
  end.

(** [waitForFinalFile] and what follows; [now] is after the deadline or not. *)
Definition final_file (late : bool) (p : N) : M coordinator thread :=
  j ← gets (get p);
  let path := match j with Some j => j_finalPath j | None => "" end in
  info ← try (on_media (os_ReadFile path));
  match info with
  | Ok _ => mret (Finishing p StateCached None (Some (Completing p)))
  | Err e =>
      if negb (errors_Is ErrOsNotExist e)
      then mret (monitor_fails p (Errorf "inspect completed Soulseek download: " e ""))
      else if late
      then mret (monitor_fails p (Plain "completed Soulseek download did not appear in the shared downloads directory"))
      else mret (WaitingFinal p)
  end.

Definition transfer_failed (now : time) (p : N) (transfer : slskdDownloadTransfer) (c : coordinator) : coordinator :=
  let message := TrimSpace (tr_Exception transfer) in
  let message := if bool_decide (message = "") then tr_State transfer else message in
  let state := if stateContains (tr_State transfer) "Cancelled" then StateCancelled else StateFailed in
  let fail c := go (Finishing p state (Some (Plain ("Soulseek download failed: " +:+ message))) (Some (EndMonitoring p))) c in
  if retryableTransferFailure transfer then
    match get p c with
    | None => c
    | Some j =>
        match prepareAutomaticRetry now ("temporary transfer failure; retrying: " +:+ message) j with
        | None => fail c
        | Some j' =>
            match persistJob now p (update p (λ _, j') c) with
            | (Err e, c) => go (monitor_fails p e) c
            | (Ok _, c) => go (Enqueueing p None 1) c
            end
        end
    end
  else fail c.

(** * Finishing *)

Definition finished_download (state : string) (err : option error) (now : time) (d : TrackDownload) : TrackDownload :=
  let d := touched now (with_state state (dl_Error d) d) in
  if bool_decide (state = StateCached) then with_progress (TotalBytes d) (TotalBytes d) now (with_state state "" d)
  else match err with Some e => with_state state (Error e) d | None => d end.

(** [finishJob] under the job's mutex, and the call of [cancel]. *)
Definition finish (now : time) (p : N) (state : string) (err : option error) (next : option thread) (c : coordinator)
    : coordinator :=
  match get p c with
  | None => c
  | Some j =>
      if j_finished j then go_on next c
      else
        let c := update p (λ j, map_job_download (finished_download state err now) (with_finished err j)) c in
        let c := match j_cancel j with
                 | Some ctx => set_contexts (stopped c) ({[ctx]} ∪ cancelled c) (contexts c) c
                 | None => c
                 end in
        go (Closing p (j_slotHeld j) next) c
  end.

Definition close_job (p : N) (releaseSlot : bool) (next : option thread) (c : coordinator) : coordinator :=
  let c := if releaseSlot then release_gate c else c in
  go (Saving p next) (update p with_ready c).

Definition removeJob (p : N) (c : coordinator) : coordinator :=
  match get p c with
  | None => c
  | Some j => set_jobs (λ jobs, if bool_decide (jobs !! j_key j = Some p) then delete (j_key j) jobs else jobs) c
  end.

(** * Listing, cancelling, trying again *)

(** [snapshot]: a cached file that is gone has been evicted. *)
Definition snapshot (now : time) (p : N) : M coordinator (TrackDownload * bool) :=
  c ← gets (λ c, c);
  match get p c with
  | None => throw (Sentinel ErrNotFound)
  | Some j =>
      if bool_decide (job_state j = StateCached) then
        info ← try (on_media (os_ReadFile (j_finalPath j)));
        match info with
        | Err e =>
            if errors_Is ErrOsNotExist e then
              let j' := map_job_download (λ d, with_progress 0 (TotalBytes d) now (with_state StateEvicted (dl_Error d) d)) j in
              _ ← modify (update p (λ _, j'));
              mret (j_download j', true)
            else mret (j_download j, false)
        | Ok _ => mret (j_download j, false)
        end
      else mret (j_download j, false)
  end.

Definition list_job (now : time) (cancelled : option error) (x : string * N) : M coordinator TrackDownload :=
  match cancelled with
  | Some e => throw e
  | None =>
      '(download, changed) ← snapshot now x.2;
      _ ← (if changed : bool then persistJob now x.2 else mret tt);
      mret download
  end.

Definition TrackDownloads (now : time) (cancelled : option error) : M coordinator (list TrackDownload) :=
  records ← gets (λ c, map_range (c_records c));
  result ← mmap (list_job now cancelled) records;
  mret (sort_slice download_less result).

Definition cancelled_error : error := Plain "Soulseek download cancelled".

(** [cancel] up to the request it makes, if it makes one. *)
Definition CancelTrackDownload (id : string) : M coordinator unit :=
  c ← gets (λ c, c);
  match c_records c !! id with
  | None => throw (Sentinel ErrNotFound)
  | Some p =>
      match get p c with
      | None => throw (Sentinel ErrNotFound)
      | Some j =>
          if negb (bool_decide (job_state j ∈ [StateWaiting; StateQueued; StateDownloading]))
          then throw (Plain ("download " +:+ id +:+ " is not active"))
          else if bool_decide (rf_Peer (j_remote j) = "") || bool_decide (j_transferID j = "") then
            _ ← modify (λ c, match j_cancel j with
                             | Some ctx => set_contexts (stopped c) ({[ctx]} ∪ cancelled c) (contexts c) c
                             | None => c
                             end);
            modify (go (Finishing p StateCancelled (Some cancelled_error) None))
          else modify (go (Cancelling p))
      end
  end.

(** The answer to the request to cancel the transfer. *)
Definition cancel_answered (p : N) (reply : res (option unit)) : M coordinator unit :=
  _ ← wrap_err (λ e, Errorf "cancel slskd download: " e "") (lift reply);
  modify (go (Finishing p StateCancelled (Some cancelled_error) None)).

Definition RetryTrackDownload (id : string) : M coordinator unit :=
  c ← gets (λ c, c);
  match c_records c !! id with
  | None => throw (Sentinel ErrNotFound)
  | Some p =>
      match get p c with
      | None => throw (Sentinel ErrNotFound)
      | Some j =>
          if negb (bool_decide (job_state j ∈ [StateFailed; StateCancelled; StateEvicted]))
          then throw (Plain ("download " +:+ id +:+ " is not retryable"))
          else modify (go (Ensuring (j_key j) (j_trackID j) (dl_Name (j_download j)) (j_remote j) false))
      end
  end.

(** * Evicting *)

(** A record that may go: its file is there, nobody reads it, it is not pinned. *)
Definition may_evict (pinned : string → bool) (c : coordinator) (p : N) : option (N * string * time) :=
  match get p c with
  | None => None
  | Some j =>
      if bool_decide (job_state j = StateCached) && (default 0 (c_active c !! j_key j) =? 0)
         && negb (pinned (j_trackID j))
      then Some (p, j_finalPath j, UpdatedAt (j_download j)) else None
  end.

Definition before (x y : N * string * time) : bool := x.2 <? y.2.

(** [evict] under [mu]; it holds [cacheMu] to its end. *)
Definition evict (pinned : string → bool) (bytesToFree : Z) (c : coordinator) : coordinator :=
  if bytesToFree <=? 0 then c
  else
    let candidates := sort_slice before (omap (λ x, may_evict pinned c x.2) (map_range (c_records c))) in
    go (Evicting bytesToFree 0 (map fst candidates)) c.

Definition markEvicted (now : time) (p : N) : M coordinator unit :=
  _ ← modify (update p (map_job_download (λ d,
        with_progress 0 (TotalBytes d) now (with_state StateEvicted "" d))));
  wrap_err (λ e, Errorf "persist evicted Soulseek download: " e "") (persistJob now p).

(** One turn of the loop: the bytes freed so far, and whether the file was
    removed, after which the loop may stop; the directory goes too if it is
    empty.  [ModTime] and size are the file's. *)
Definition evict_one (now : time) (freed : Z) (p : N) (path : string) : M coordinator (Z * bool) :=
  info ← try (on_media (os_ReadFile path));
  match info with
  | Err e =>
      if errors_Is ErrOsNotExist e then _ ← markEvicted now p; mret (freed, false)
      else throw (Errorf "inspect cached Soulseek file for eviction: " e "")
  | Ok contents =>
      _ ← wrap_err (λ e, Errorf "evict cached Soulseek file: " e "") (on_media (os_Remove path));
      let freed := freed +% Z.of_nat (length contents) in
      _ ← markEvicted now p;
      mret (freed, true)
  end.

(** * Starting *)

(** [resume] for one job, up to the place it takes without waiting. *)
Definition resume_job (p : N) (rest : list N) (c : coordinator) : coordinator :=
  match get p c with
  | None => go (Resuming rest) c
  | Some j =>
      if bool_decide (job_state j = StateWaiting) && bool_decide (j_batchID j = "")
      then go (Resuming rest) (startEnqueue p c)
      else if bool_decide (j_batchID j = "")
      then go (Finishing p StateFailed (Some (Plain "resume Soulseek download: missing slskd batch ID"))
                 (Some (Resuming rest))) c
      else go (Restored p (j_batchID j) rest) (set_gate (λ active, active + 1) c)
  end.

Definition resume_monitor (p : N) (batchID : string) (rest : list N) (c : coordinator) : coordinator :=
  go (Resuming rest) (startMonitor p batchID (update p with_slot c)).

Definition readPersistedJob (path : string) : M job_files persistedDownloadJob :=
  contents ← wrap_err (λ e, Errorf ("read Soulseek download job " +:+ Base path +:+ ": ") e "") (os_ReadFile path);
  record ← wrap_err (λ e, Errorf ("decode Soulseek download job " +:+ Base path +:+ ": ") e "") (lift contents);
  if negb (bool_decide (dl_ID (p_Download record) = download_id (p_Key record)))
     || negb (bool_decide (dl_Provider (p_Download record) = soulseek_Name))
     || negb (bool_decide (dl_TrackID (p_Download record) = p_TrackID record))
     || bool_decide (TrimSpace (p_TrackID record) = "")
     || negb (remote_ok (p_Remote record))
     || bool_decide (TrimSpace (p_Key record) = "")
  then throw (Plain ("invalid Soulseek download job " +:+ Base path))
  else
    match decodeRemoteFileRef (p_Key record) with
    | Ok decoded =>
        if bool_decide (decoded = p_Remote record) then mret record
        else throw (Plain ("invalid Soulseek source in job " +:+ Base path))
    | Err _ => throw (Plain ("invalid Soulseek source in job " +:+ Base path))
    end.

(** A record as a job again, before its file is looked for. *)
Definition loaded_job (record : persistedDownloadJob) : downloadJob :=
  let name := sanitizedFilename (rf_Path (p_Remote record)) in
  mkJob (p_Key record) (p_TrackID record) (p_Remote record) (p_BatchID record) (p_TransferID record)
    (final_path downloadsDir (p_TrackID record) name) (incomplete_path incompleteDir (p_Remote record) name)
    false (p_Download record) None false false time_zero None false (p_RetryCount record).

(** [close(job.done)] and [markEnqueued] of a job that is over, with its download. *)
Definition over (f : TrackDownload → TrackDownload) (j : downloadJob) : downloadJob :=
  with_ready (with_finished None (map_job_download f j)).

(** [restoreJob] given what [os.Stat] says of the file: its size. *)
Definition restoreJob (info : res Z) (record : persistedDownloadJob) : res downloadJob :=
  let job := loaded_job record in
  let state := dl_State (p_Download record) in
  match info with
  | Ok size =>
      if negb (size =? rf_Size (p_Remote record))
      then Ok (over (λ d, with_progress 0 (TotalBytes d) (UpdatedAt d) (with_state StateEvicted "" d)) job)
      else Ok (over (λ d, with_progress (rf_Size (p_Remote record)) (TotalBytes d) (UpdatedAt d)
                            (with_state StateCached "" d)) job)
  | Err e =>
      if negb (errors_Is ErrOsNotExist e) then Err (Errorf "inspect cached file: " e "")
      else if bool_decide (state = StateWaiting) && bool_decide (p_BatchID record = "") then Ok job
      else if bool_decide (state = StateQueued) || bool_decide (state = StateDownloading) then
        if bool_decide (p_BatchID record = "") || bool_decide (p_TransferID record = "")
        then Ok (over (with_state StateFailed "active Soulseek job is missing slskd transfer identifiers") job)
        else Ok (with_ready job)
      else if bool_decide (state = StateCached)
      then Ok (over (λ d, with_progress 0 (TotalBytes d) (UpdatedAt d) (with_state StateEvicted (dl_Error d) d)) job)
      else Ok (over (λ d, d) job)
  end.

(** The loop of [loadRecords] for one entry of the directory. *)
Definition load_entry (now : time) (name : string) (c : coordinator) : coordinator :=
  let fail e c := set_load_errors (loadErrors c ++ [e]) c in
  if negb (bool_decide (Ext name = ".json")) then c
  else
    match on_state (readPersistedJob (JoinPath [stateDir; name])) c with
    | (Err e, c) => fail e c
    | (Ok record, c) =>
        let job := loaded_job record in
        let '(info, c) := try (on_media (os_ReadFile (j_finalPath job))) c in
        let info := match info with
          | Ok (Ok contents) => Ok (Z.of_nat (length contents)) | Ok (Err e) => Err e | Err e => Err e end in
        match restoreJob info record with
        | Err e => fail (Errorf ("restore Soulseek download job " +:+ name +:+ ": ") e "") c
        | Ok job =>
            let p := fresh_address c in
            let c := set_records <[dl_ID (p_Download record) := p]> (set_heap <[p := job]> c) in
            let c := if j_finished job then c else set_jobs <[p_Key record := p]> c in
            match persistJob now p c with
            | (Err e, c) => fail e c
            | (Ok _, c) => c
            end
        end
    end.

(** [newDownloadCoordinator] on a directory with these files, and [resume],
    which has been called when requests are served. *)
Definition newDownloadCoordinator (now : time) (entries : list string) (d : job_files) (files : disk) : coordinator :=
  fold_left (λ c name, load_entry now name c) entries
    (mkCoordinator ∅ ∅ ∅ ∅ 0 false ∅ 0 [] d files []).

Definition resume (c : coordinator) : coordinator := go (Resuming (map snd (map_range (c_jobs c)))) c.
End coordinator.
