(* ===== verification/SoulseekRuns.v ===== *)
(** The goroutines of the Soulseek download coordinator: what each may do next,
    and what holds whatever way they interleave.

    A step is what a goroutine does between two points where others may act: one
    critical section, with the save of the job that follows it. *)
From stdpp Require Import base gmap strings list relations.
From Stdlib Require Import ZArith Lia Ascii.
From S2P Require Import Prelude GoStrings Sql Paths Music Services Counting TorrentFiles.
From S2P Require Import SoulseekRefs SoulseekClient SoulseekJobs.

Open Scope Z_scope.

(** * Steps *)

Inductive event :=
  | Internal
  | Posts (p : N)
  | Completes (p : N)
  | Removes (p : N) (path : string).

Definition resuming (t : thread) : bool :=
  match t with
  | Resuming _ | Restored _ _ _ => true
  | Finishing _ _ _ (Some (Resuming _)) | Closing _ _ (Some (Resuming _))
  | Saving _ (Some (Resuming _)) | Removing _ (Some (Resuming _)) => true
  | _ => false
  end.

Definition evicting (t : thread) : bool := match t with Evicting _ _ _ => true | _ => false end.

(** Requests are served once the downloads have been resumed; [cacheMu] is free. *)
Definition serving (c : coordinator) : Prop := Forall (λ t, resuming t = false) (threads c).
Definition cache_free (c : coordinator) : Prop := Forall (λ t, evicting t = false) (threads c).

(** [c] without the goroutine [t], which is about to take its step. *)
Definition running (c : coordinator) (t : thread) (q : coordinator) : Prop :=
  ∃ rest, threads c ≡ₚ t :: rest ∧ q = set_threads rest c.

Section runs.
Context `{Runtime} `{RemoteJSON} `{Unicode}.
Context (downloadsDir incompleteDir stateDir : string) (MaxActive RetryAttempts : Z).

(** Requests, and what happens outside: files that slskd writes, the end. *)
Inductive request_step (c : coordinator) : coordinator → Prop :=
  | req_resolve now modTime trackID ref r c' :
      serving c → cache_free c →
      Resolve downloadsDir stateDir now modTime trackID ref c = (r, c') → request_step c c'
  | req_cancel id r c' : serving c → CancelTrackDownload id c = (r, c') → request_step c c'
  | req_retry id r c' : serving c → RetryTrackDownload id c = (r, c') → request_step c c'
  | req_list now e r c' : serving c → TrackDownloads stateDir now e c = (r, c') → request_step c c'
  | req_evict pinned bytes : cache_free c → request_step c (evict pinned bytes c)
  | req_close key q : running c (Reading key) q → request_step c (endRead key q)
  | req_stop : request_step c (set_contexts true (cancelled c) (contexts c) c)
  | req_disk d : request_step c (set_media d c).

(** Callers of [resolve] and [retry] on their way. *)
Inductive caller_step (c : coordinator) : coordinator → Prop :=
  | step_ensure now key trackID name remote reading q :
      running c (Ensuring key trackID name remote reading) q →
      caller_step c (ensureDownload downloadsDir incompleteDir now key trackID name remote reading q)
  | step_new_job now p key reading q :
      running c (NewJob p key reading) q → caller_step c (start_job stateDir now p key reading q)
  | step_ready p key reading w j q :
      running c (WaitingReady p key reading) q → get p c = Some j → waitUntilEnqueued w j = Some None →
      caller_step c (if reading then go (Prebuffering p key) q else q)
  | step_not_ready p key reading w j e q :
      running c (WaitingReady p key reading) q → get p c = Some j → waitUntilEnqueued w j = Some (Some e) →
      caller_step c (go_on (giving_back key reading) q)
  | step_prebuffered p key bytes sizes w j q :
      running c (Prebuffering p key) q → get p c = Some j → waitForInitialData bytes sizes w j = Some None →
      caller_step c (go (Reading key) q)
  | step_no_data p key bytes sizes w j e q :
      running c (Prebuffering p key) q → get p c = Some j → waitForInitialData bytes sizes w j = Some (Some e) →
      caller_step c (go (Unread key) q)
  | step_unread key q : running c (Unread key) q → caller_step c (endRead key q)
  | step_cancelled p reply r q c' :
      running c (Cancelling p) q → cancel_answered p reply q = (r, c') → caller_step c c'.

(** The goroutine of [startEnqueue], up to the monitor. *)
Inductive enqueue_step (c : coordinator) : event → coordinator → Prop :=
  | step_acquire p ctx q :
      running c (Acquiring p ctx) q → gate c < MaxActive →
      enqueue_step c Internal (go (Acquired p ctx) (set_gate (λ active, active + 1) q))
  | step_not_acquired p ctx q :
      running c (Acquiring p ctx) q → context_done (Some ctx) c = true → enqueue_step c Internal q
  | step_acquired now p ctx q :
      running c (Acquired p ctx) q → enqueue_step c Internal (acquired stateDir now p ctx q)
  | step_enqueue now p ctx attempt reply q :
      running c (Enqueueing p ctx attempt) q →
      enqueue_step c (Posts p) (enqueue_answered stateDir now p ctx attempt reply q)
  | step_enqueue_failed now p ctx attempt e q :
      running c (EnqueueFailed p ctx attempt e) q →
      enqueue_step c Internal (enqueue_failed stateDir RetryAttempts now p ctx attempt e q)
  | step_again now p ctx attempt q :
      running c (Backoff p ctx attempt) q → enqueue_step c Internal (backoff_over now p ctx attempt q)
  | step_not_again p ctx attempt e q :
      running c (Backoff p ctx attempt) q → context_done ctx c = true →
      enqueue_step c Internal (backoff_cancelled p ctx e q)
  | step_enqueued p ctx q : running c (Enqueued p ctx) q → enqueue_step c Internal (enqueued p ctx q).

(** The monitor of a download, and [finishJob]. *)
Inductive monitor_step (c : coordinator) : event → coordinator → Prop :=
  | step_finished p batchID errors j q :
      running c (Monitoring p batchID errors) q → get p c = Some j → j_finished j = true →
      monitor_step c Internal (go (EndMonitoring p) q)
  | step_stopped p batchID errors q :
      running c (Monitoring p batchID errors) q → stopped c = true →
      monitor_step c Internal (go (EndMonitoring p) q)
  | step_poll_failed p batchID errors e q :
      running c (Monitoring p batchID errors) q → monitor_step c Internal (go (poll_failed p batchID errors e) q)
  | step_poll now p batchID errors batch q :
      running c (Monitoring p batchID errors) q →
      monitor_step c Internal (poll_answered stateDir now p batchID batch q)
  | step_final late p q t q' :
      running c (WaitingFinal p) q → final_file late p q = (Ok t, q') → monitor_step c Internal (go t q')
  | step_transfer_failed now p transfer q :
      running c (TransferFailed p transfer) q →
      monitor_step c Internal (transfer_failed stateDir RetryAttempts now p transfer q)
  | step_end p q : running c (EndMonitoring p) q → monitor_step c Internal (update p (with_monitoring false) q)
  | step_completed p q : running c (Completing p) q → monitor_step c (Completes p) (go (EndMonitoring p) q)
  | step_finish now p st e next q :
      running c (Finishing p st e next) q → monitor_step c Internal (finish now p st e next q)
  | step_close p slot next q :
      running c (Closing p slot next) q → monitor_step c Internal (close_job p slot next q)
  | step_save now p next q :
      running c (Saving p next) q → monitor_step c Internal (go (Removing p next) (persist_quietly stateDir now p q))
  | step_remove p next q :
      running c (Removing p next) q → monitor_step c Internal (go_on next (removeJob p q)).

(** [resume] and [evict], which go through lists. *)
Inductive list_step (c : coordinator) : event → coordinator → Prop :=
  | step_resume p rest q :
      running c (Resuming (p :: rest)) q → list_step c Internal (resume_job p rest q)
  | step_resumed q : running c (Resuming []) q → list_step c Internal q
  | step_restored p batchID rest q :
      running c (Restored p batchID rest) q → list_step c Internal (resume_monitor p batchID rest q)
  | step_evict now bytes freed p path rest q freed' removed q' :
      running c (Evicting bytes freed ((p, path) :: rest)) q →
      evict_one stateDir now freed p path q = (Ok (freed', removed), q') →
      list_step c (if removed then Removes p path else Internal)
        (if removed && (bytes <=? freed') then q' else go (Evicting bytes freed' rest) q')
  | step_evict_fails now bytes freed p path rest q e q' :
      running c (Evicting bytes freed ((p, path) :: rest)) q →
      evict_one stateDir now freed p path q = (Err e, q') → list_step c (Removes p path) q'
  | step_evicted bytes freed q : running c (Evicting bytes freed []) q → list_step c Internal q.

Inductive sstep (c : coordinator) : event → coordinator → Prop :=
  | sstep_request c' : request_step c c' → sstep c Internal c'
  | sstep_caller c' : caller_step c c' → sstep c Internal c'
  | sstep_enqueue e c' : enqueue_step c e c' → sstep c e c'
  | sstep_monitor e c' : monitor_step c e c' → sstep c e c'
  | sstep_list e c' : list_step c e c' → sstep c e c'.

(** * What a goroutine holds and is responsible for *)

(** The source it reads. *)
Definition reads (t : thread) : option string :=
  match t with
  | Ensuring key _ _ _ true | NewJob _ key true | WaitingReady _ key true => Some key
  | Prebuffering _ key | Reading key | Unread key => Some key
  | Finishing _ _ _ (Some (Unread key)) | Closing _ _ (Some (Unread key))
  | Saving _ (Some (Unread key)) | Removing _ (Some (Unread key)) => Some key
  | _ => None
  end.

(** The jobs that [resume] still has to go through. *)
Definition to_resume (t : thread) : list N :=
  match t with
  | Resuming ps => ps
  | Restored _ _ ps => ps
  | Finishing _ _ _ (Some (Resuming ps)) | Closing _ _ (Some (Resuming ps))
  | Saving _ (Some (Resuming ps)) | Removing _ (Some (Resuming ps)) => ps
  | _ => []
  end.

(** The job it carries on. *)
Definition job_of (t : thread) : list N :=
  match t with
  | NewJob p _ _ | Acquiring p _ | Acquired p _ | Enqueueing p _ _ | EnqueueFailed p _ _ _ | Backoff p _ _
  | Enqueued p _ | Monitoring p _ _ | WaitingFinal p | TransferFailed p _ | Restored p _ _ => [p]
  | _ => []
  end.

Definition works (t : thread) : list N := job_of t ++ to_resume t.

Definition finishing (t : thread) : list N := match t with Finishing p _ _ _ => [p] | _ => [] end.
Definition closing (t : thread) : list N := match t with Closing p _ _ => [p] | _ => [] end.
Definition cancelling (t : thread) : list N := match t with Cancelling p => [p] | _ => [] end.

(** A job is cared for by the goroutine that carries it on or finishes it. *)
Definition cares (t : thread) : list N := works t ++ finishing t.

(** A place among the active downloads that no job has. *)
Definition owns_slot (t : thread) : bool :=
  match t with Acquired _ _ | Restored _ _ _ | Closing _ true _ => true | _ => false end.

(** What never changes in a job. *)
Record jident := mkIdent {
  i_path : string;
  i_track : string;
  i_remote : remoteFileRef;
  i_id : string;
  i_provider : string;
  i_download_track : string;
}.

Definition ident_of (j : downloadJob) : jident :=
  mkIdent (j_finalPath j) (j_trackID j) (j_remote j) (dl_ID (j_download j)) (dl_Provider (j_download j))
    (dl_TrackID (j_download j)).

(** A record of the job will be read back. *)
Definition key_ok (key trackID : string) (remote : remoteFileRef) : Prop :=
  TrimSpace trackID ≠ "" ∧ decodeRemoteFileRef key = Ok remote.

Definition ident_ok (key : string) (i : jident) : Prop :=
  i_id i = download_id key ∧ i_provider i = soulseek_Name ∧ i_download_track i = i_track i ∧
  key_ok key (i_track i) (i_remote i).

(** Jobs as far as the protocol goes. *)
Record jview := mkView {
  v_key : string;
  v_ident : jident;
  v_finished : bool;
  v_slot : bool;
  v_cancel : option N;
  v_monitoring : bool;
  v_ready : bool;
}.

Definition view_of (j : downloadJob) : jview :=
  mkView (j_key j) (ident_of j) (j_finished j) (j_slotHeld j) (j_cancel j) (j_monitoring j) (j_ready j).

Definition v_path (v : jview) : string := i_path (v_ident v).

Definition views (c : coordinator) : gmap N jview := view_of <$> heap c.

Definition b2z (b : bool) : Z := if b then 1 else 0.

Definition slots_held (m : gmap N jview) : Z := Zsum (map (λ x, b2z (v_slot x.2)) (map_to_list m)).
Definition slots_owned (ts : list thread) : Z := Zsum (map (λ t, b2z (owns_slot t)) ts).

Definition fresh_view (v : jview) : Prop := v_slot v = false ∧ v_monitoring v = false.

Definition has_view (c : coordinator) (p : N) (P : jview → Prop) : Prop := ∃ v, views c !! p = Some v ∧ P v.

Definition anything (v : jview) : Prop := True.
Definition is_finished (v : jview) : Prop := v_finished v = true.

(** What [next] may be. *)
Definition next_ok (c : coordinator) (next : option thread) : Prop :=
  match next with
  | None | Some (Unread _) | Some (Resuming _) => True
  | Some (EndMonitoring p) | Some (Completing p) => has_view c p anything
  | _ => False
  end.

Definition owns_context (ctx : context) (v : jview) : Prop :=
  match ctx with
  | Some k => (v_finished v = true ∨ v_cancel v = Some k) ∧ v_monitoring v = false
  | None => True
  end.

Definition thread_ok (c : coordinator) (t : thread) : Prop :=
  Forall (λ p, has_view c p (λ v, fresh_view v ∧ v_finished v = false ∧ v_cancel v = None)) (to_resume t) ∧
  match t with
  | NewJob p _ _ => has_view c p (λ v, fresh_view v ∧ v_cancel v = None)
  | Acquiring p ctx | Acquired p ctx => has_view c p (λ v, fresh_view v ∧ owns_context (Some ctx) v)
  | Enqueueing p ctx _ | EnqueueFailed p ctx _ _ | Backoff p ctx _ | Enqueued p ctx =>
      has_view c p (owns_context ctx)
  | Restored p _ _ => has_view c p (λ v, fresh_view v ∧ v_finished v = false)
  | Monitoring p _ _ | WaitingFinal p | TransferFailed p _ | EndMonitoring p | Completing p
  | WaitingReady p _ _ | Prebuffering p _ | Cancelling p => has_view c p anything
  | Finishing p _ _ next => has_view c p anything ∧ next_ok c next
  | Closing p _ next | Saving p next | Removing p next => has_view c p is_finished ∧ next_ok c next
  | Ensuring key trackID _ remote _ => key_ok key trackID remote
  | Evicting _ _ candidates =>
      Forall (λ x, has_view c x.1 (λ v, v_path v = x.2 ∧ default 0 (c_active c !! v_key v) = 0)) candidates
  | _ => True
  end.

(** The jobs [resume] has still to see: nobody finishes or cancels them. *)
Definition pending (t : thread) : list N := to_resume t ++ (match t with Restored p _ _ => [p] | _ => [] end).
Definition blocks (t : thread) : list N := finishing t ++ cancelling t.

#[local] Arguments views : simpl never.

Record consistent (ts : list thread) (c : coordinator) : Prop := {
  cs_addresses p : is_Some (views c !! p) ↔ (p < fresh_address c)%N;
  cs_jobs k p : c_jobs c !! k = Some p → has_view c p (λ v, v_key v = k);
  cs_records id p : c_records c !! id = Some p → has_view c p (λ v, id = download_id (v_key v));
  cs_ident p v : views c !! p = Some v → ident_ok (v_key v) (v_ident v);
  cs_live p v : views c !! p = Some v → v_finished v = false → c_jobs c !! v_key v = Some p;
  cs_over p v : views c !! p = Some v → v_finished v = true → v_slot v = false;
  cs_contexts p v k : views c !! p = Some v → v_cancel v = Some k → (k < contexts c)%N;
  cs_owner p q v w k : views c !! p = Some v → views c !! q = Some w →
    v_cancel v = Some k → v_cancel w = Some k → p = q;
  cs_bound k : k ∈ cancelled c → (k < contexts c)%N;
  cs_active : counts reads ts (c_active c);
  cs_gate : gate c = slots_held (views c) + slots_owned ts;
  cs_unique : NoDup (ts ≫= works);
  cs_threads : Forall (thread_ok c) ts;
  cs_alive p v : stopped c = false → views c !! p = Some v → v_finished v = false → p ∈ ts ≫= cares;
  cs_cancelled p v k : views c !! p = Some v → v_finished v = false → v_cancel v = Some k → k ∈ cancelled c →
    p ∈ ts ≫= finishing;
  cs_ready p v : views c !! p = Some v → v_finished v = true → v_ready v = false → p ∈ ts ≫= closing;
  cs_resume p : p ∈ ts ≫= pending → p ∉ ts ≫= blocks;
}.

Definition core (c : coordinator) :=
  (views c, c_jobs c, c_records c, c_active c, gate c, stopped c, cancelled c, contexts c).

Lemma fresh_address_views c : fresh_address c = N.of_nat (size (views c)).
Proof. unfold fresh_address, views. by rewrite map_size_fmap. Qed.

Lemma has_view_core c c' p P : views c' = views c → has_view c p P → has_view c' p P.
Proof. unfold has_view. by intros ->. Qed.

Lemma thread_ok_core c c' t : views c' = views c → c_active c' = c_active c → thread_ok c t → thread_ok c' t.
Proof. unfold thread_ok, has_view, next_ok, has_view. by intros -> ->. Qed.

Lemma runs_core ts c c' : core c' = core c → consistent ts c → consistent ts c'.
Proof.
  unfold core. intros [= E1 E2 E3 E4 E5 E6 E7 E8] Hc. destruct Hc.
  split; rewrite ?E1, ?E2, ?E3, ?E4, ?E5, ?E6, ?E7, ?E8; rewrite ?fresh_address_views in *; rewrite ?E1; try done.
  - intros k p Hk. apply (has_view_core c); [done|by apply cs_jobs0].
  - intros id p Hk. apply (has_view_core c); [done|by apply cs_records0].
  - eapply Forall_impl; [exact cs_threads0|]. intros t. by apply thread_ok_core.
Qed.

Lemma slots_owned_app ts ts' : slots_owned (ts ++ ts') = slots_owned ts + slots_owned ts'.
Proof. unfold slots_owned. by rewrite map_app, Zsum_app. Qed.

Lemma slots_held_fresh p v m : m !! p = None → slots_held (<[p := v]> m) = b2z (v_slot v) + slots_held m.
Proof. intros Hp. unfold slots_held. rewrite map_to_list_insert by done. done. Qed.

Lemma slots_held_alter f p v m :
  m !! p = Some v → slots_held (alter f p m) = slots_held m - b2z (v_slot v) + b2z (v_slot (f v)).
Proof.
  intros Hp.
  assert (alter f p m = <[p := f v]> (delete p m)) as ->.
  { apply map_eq. intros q. destruct (decide (q = p)) as [->|Hne].
    - by rewrite lookup_alter_eq, Hp, lookup_insert_eq.
    - by rewrite lookup_alter_ne, lookup_insert_ne, lookup_delete_ne. }
  rewrite slots_held_fresh by apply lookup_delete_eq.
  rewrite <- (insert_delete_id m p v Hp) at 2. rewrite slots_held_fresh by apply lookup_delete_eq. lia.
Qed.

Lemma Zsum_zero l : Forall (λ z, z = 0) l → Zsum l = 0.
Proof. induction 1 as [|z l -> _ IH]; [done|]. exact IH. Qed.

Lemma runs_perm ts ts' c : ts ≡ₚ ts' → consistent ts c → consistent ts' c.
Proof.
  intros Hp Hc. destruct Hc.
  assert (∀ f : thread → list N, ts ≫= f ≡ₚ ts' ≫= f) as Hb by (intros f; by apply bind_Permutation_proper || by rewrite Hp).
  split; try done.
  - by eapply counts_perm.
  - rewrite cs_gate0. unfold slots_owned. by rewrite Hp.
  - by rewrite <- Hb.
  - by rewrite <- Hp.
  - intros p v ? ? ?. rewrite <- Hb. by eapply cs_alive0.
  - intros p v k ? ? ? ?. rewrite <- Hb. by eapply cs_cancelled0.
  - intros p v ? ? ?. rewrite <- Hb. by eapply cs_ready0.
  - intros p. rewrite <- !Hb. apply cs_resume0.
Qed.

(** * One goroutine acts

    What other goroutines know of a job stays true. *)
Definition keeps (v v' : jview) : Prop :=
  (v_slot v = false → v_slot v' = false) ∧ (v_monitoring v = false → v_monitoring v' = false) ∧
  (v_cancel v = None → v_cancel v' = None) ∧ (v_finished v = true → v_finished v' = true) ∧
  (v_finished v' = true ∨ v_cancel v' = v_cancel v).

Record job_change (t : thread) (ts' rest : list thread) (c c' : coordinator) (p : N) (v v' : jview) : Prop := {
  jc_key : v_key v' = v_key v;
  jc_ident : v_ident v' = v_ident v;
  jc_finished : v_finished v = true → v_finished v' = true;
  jc_over : v_finished v' = true → v_slot v' = false;
  jc_others : p ∈ works t ∨ keeps v v' ∧ (v_finished v' = v_finished v ∨ p ∉ rest ≫= pending);
  jc_cancel : v_cancel v' = v_cancel v ∨ v_cancel v' = None ∨
    v_cancel v' = Some (contexts c) ∧ contexts c' = (contexts c + 1)%N;
  jc_ready : v_finished v' = true → v_ready v' = false → p ∈ (ts' ++ rest) ≫= closing;
}.

(** The goroutine [t] goes on as [ts'] and changes the job at [p] by [f]. *)
Record act (t : thread) (ts' rest : list thread) (c c' : coordinator) (p : N) (f : jview → jview) : Prop := {
  ac_views : views c' = alter f p (views c);
  ac_job v : views c !! p = Some v → job_change t ts' rest c c' p v (f v);
  ac_records : c_records c' = c_records c;
  ac_stopped : stopped c' = stopped c;
  ac_contexts : (contexts c ≤ contexts c')%N;
  ac_jobs k q : c_jobs c' !! k = Some q → c_jobs c !! k = Some q;
  ac_jobs_live k q : c_jobs c !! k = Some q → c_jobs c' !! k = Some q ∨ has_view c' q is_finished;
  ac_active : counts reads (ts' ++ rest) (c_active c');
  ac_unread k : default 0 (c_active c !! k) = 0 → default 0 (c_active c' !! k) = 0;
  ac_gate : gate c' + match views c !! p with Some v => b2z (v_slot v) - b2z (v_slot (f v)) | None => 0 end
            + b2z (owns_slot t) = gate c + slots_owned ts';
  ac_works : (ts' ≫= works) ⊆+ works t;
  ac_threads : Forall (thread_ok c') ts';
  ac_cares q v : q ∈ cares t → stopped c = false → views c' !! q = Some v → v_finished v = false →
    q ∈ (ts' ++ rest) ≫= cares;
  ac_finishing q v k : q ∈ finishing t → views c' !! q = Some v → v_finished v = false → v_cancel v = Some k →
    q ∈ (ts' ++ rest) ≫= finishing;
  ac_cancelled k : k ∈ cancelled c' → k ∈ cancelled c ∨ (k < contexts c)%N ∧
    ∀ q v, views c' !! q = Some v → v_finished v = false → v_cancel v = Some k → q ∈ (ts' ++ rest) ≫= finishing;
  ac_closing q v : q ∈ closing t → views c' !! q = Some v → v_ready v = false → q ∈ (ts' ++ rest) ≫= closing;
  ac_pending q : q ∈ ts' ≫= pending → q ∈ pending t;
  ac_blocks q : q ∈ ts' ≫= blocks → q ∈ blocks t ∨ q ∉ (ts' ++ rest) ≫= pending;
}.

Lemma in_bind (f : thread → list N) p ts : p ∈ ts ≫= f ↔ ∃ t, t ∈ ts ∧ p ∈ f t.
Proof. rewrite list_elem_of_bind. naive_solver. Qed.

Lemma in_bind_app (f : thread → list N) p ts ts' : p ∈ (ts ++ ts') ≫= f ↔ p ∈ ts ≫= f ∨ p ∈ ts' ≫= f.
Proof. by rewrite bind_app, elem_of_app. Qed.

Lemma in_bind_cons (f : thread → list N) p t ts : p ∈ (t :: ts) ≫= f ↔ p ∈ f t ∨ p ∈ ts ≫= f.
Proof. cbn. by rewrite elem_of_app. Qed.

Lemma alter_views_inv {f : jview → jview} {p q : N} {v} {m : gmap N jview} : alter f p m !! q = Some v →
  (q = p ∧ ∃ v0, m !! p = Some v0 ∧ v = f v0) ∨ (q ≠ p ∧ m !! q = Some v).
Proof.
  destruct (decide (q = p)) as [->|Hne].
  - rewrite lookup_alter_eq. destruct (m !! p) as [v0|]; [|done]. intros [= <-]. left. eauto.
  - rewrite lookup_alter_ne by done. auto.
Qed.

Lemma works_apart t rest p t0 : NoDup ((t :: rest) ≫= works) → p ∈ works t → t0 ∈ rest → p ∉ works t0.
Proof.
  cbn. intros (_ & Hd & _)%NoDup_app Hp Ht0 Hp0. apply (Hd p Hp). apply in_bind. eauto.
Qed.

Section act.
Context (t : thread) (ts' rest : list thread) (c c' : coordinator) (p : N) (f : jview → jview).
Context (Hc : consistent (t :: rest) c) (Ha : act t ts' rest c c' p f).

Lemma has_view_act q P (P' : jview → Prop) :
  has_view c q P → (∀ v, q ≠ p → P v → P' v) →
  (∀ v, q = p → views c !! p = Some v → job_change t ts' rest c c' p v (f v) → P v → P' (f v)) →
  has_view c' q P'.
Proof.
  intros (v & Hv & HP) Hne Heq. unfold has_view. rewrite (ac_views _ _ _ _ _ _ _ Ha).
  destruct (decide (q = p)) as [->|Hq].
  - exists (f v). rewrite lookup_alter_eq, Hv. split; [done|]. apply Heq; try done. by eapply ac_job.
  - exists v. rewrite lookup_alter_ne by done. auto.
Qed.

Lemma has_view_any q : has_view c q anything → has_view c' q anything.
Proof. intros Hq. by eapply has_view_act. Qed.

Lemma has_view_finished q : has_view c q is_finished → has_view c' q is_finished.
Proof. intros Hq. eapply has_view_act; [exact Hq|done|]. intros v _ _ Hj. apply (jc_finished _ _ _ _ _ _ _ _ Hj). Qed.

Lemma next_ok_act next : next_ok c next → next_ok c' next.
Proof. destruct next as [[]|]; cbn; try done; apply has_view_any. Qed.

(** What a goroutine knows of the job it carries on, it still knows. *)
Lemma has_view_works t0 q (P : jview → Prop) :
  t0 ∈ rest → q ∈ works t0 → (∀ v v', keeps v v' → v_finished v' = v_finished v ∨ p ∉ rest ≫= pending → q = p → P v → P v') →
  has_view c q P → has_view c' q P.
Proof.
  intros Ht0 Hq Hkeep HP. eapply has_view_act; [exact HP|done|]. intros v -> Hv Hj HPv.
  destruct (jc_others _ _ _ _ _ _ _ _ Hj) as [Hw|[Hk Hf]].
  - destruct Hc. by destruct (works_apart _ _ _ _ cs_unique0 Hw Ht0).
  - by eapply Hkeep.
Qed.

Lemma keeps_fresh v v' : keeps v v' → fresh_view v → fresh_view v'.
Proof. unfold keeps, fresh_view. naive_solver. Qed.

Lemma keeps_context ctx v v' : keeps v v' → owns_context ctx v → owns_context ctx v'.
Proof.
  destruct ctx as [k|]; [|done]. unfold keeps, owns_context. intros (_ & Hm & _ & Hf & [?|Ek]) [Ho ?]; split; auto.
  rewrite Ek. destruct Ho; auto.
Qed.

Lemma to_resume_act t0 : t0 ∈ rest → thread_ok c t0 →
  Forall (λ p, has_view c' p (λ v, fresh_view v ∧ v_finished v = false ∧ v_cancel v = None)) (to_resume t0).
Proof.
  intros Ht0 [Hr _]. rewrite Forall_forall in Hr |- *. intros q Hq.
  apply (has_view_works t0); [done|unfold works; set_solver| |by apply Hr].
  intros v v' Hk Hf -> (Hv1 & Hv2 & Hv3). split_and!; [by eapply keeps_fresh| |by apply Hk].
  destruct Hf as [->|Hf]; [done|]. destruct Hf. apply in_bind. exists t0. split; [done|]. unfold pending. set_solver.
Qed.

Lemma thread_ok_act t0 : t0 ∈ rest → thread_ok c t0 → thread_ok c' t0.
Proof.
  intros Ht0 Hok. split; [by eapply to_resume_act|]. destruct Hok as [_ Hok].
  assert (∀ q, q ∈ job_of t0 → q ∈ works t0) as Hw by (unfold works; set_solver).
  destruct t0; cbn in Hok, Hw |- *; try done.
  - apply (has_view_works (Acquiring p0 ctx)); [done|apply Hw; by left| |done].
    intros v v' Hk _ -> [? ?]. split; [by eapply keeps_fresh|by apply (keeps_context (Some ctx) v)].
  - apply (has_view_works (Acquired p0 ctx)); [done|apply Hw; by left| |done].
    intros v v' Hk _ -> [? ?]. split; [by eapply keeps_fresh|by apply (keeps_context (Some ctx) v)].
  - apply (has_view_works (Enqueueing p0 ctx attempt)); [done|apply Hw; by left| |done].
    intros v v' Hk _ ->. by apply keeps_context.
  - apply (has_view_works (EnqueueFailed p0 ctx attempt e)); [done|apply Hw; by left| |done].
    intros v v' Hk _ ->. by apply keeps_context.
  - apply (has_view_works (Backoff p0 ctx attempt)); [done|apply Hw; by left| |done].
    intros v v' Hk _ ->. by apply keeps_context.
  - apply (has_view_works (Enqueued p0 ctx)); [done|apply Hw; by left| |done].
    intros v v' Hk _ ->. by apply keeps_context.
  - by apply has_view_any.
  - by apply has_view_any.
  - by apply has_view_any.
  - by apply has_view_any.
  - destruct Hok. split; [by apply has_view_any|by apply next_ok_act].
  - destruct Hok. split; [by apply has_view_finished|by apply next_ok_act].
  - destruct Hok. split; [by apply has_view_finished|by apply next_ok_act].
  - destruct Hok. split; [by apply has_view_finished|by apply next_ok_act].
  - by apply has_view_any.
  - apply (has_view_works (NewJob p0 key reading)); [done|apply Hw; by left| |done].
    intros v v' Hk _ _ [? ?]. split; [by eapply keeps_fresh|by apply Hk].
  - by apply has_view_any.
  - by apply has_view_any.
  - by apply has_view_any.
  - apply (has_view_works (Restored p0 batchID rest0)); [done|apply Hw; by left| |done].
    intros v v' Hk Hf -> [? ?]. split; [by eapply keeps_fresh|]. destruct Hf as [->|Hf]; [done|]. destruct Hf.
    apply in_bind. eexists. split; [done|]. unfold pending. set_solver.
  - rewrite Forall_forall in Hok |- *. intros [q path] Hin. specialize (Hok _ Hin). cbn in Hok |- *.
    eapply has_view_act; [exact Hok| |].
    + intros v _ [? ?]. split; [done|]. by eapply ac_unread.
    + intros v -> _ Hj [? ?]. unfold v_path. rewrite (jc_ident _ _ _ _ _ _ _ _ Hj), (jc_key _ _ _ _ _ _ _ _ Hj).
      split; [done|]. by eapply ac_unread.
Qed.

Lemma act_view q v : views c' !! q = Some v →
  ∃ v0, views c !! q = Some v0 ∧ (v_key v = v_key v0 ∧ v_ident v = v_ident v0) ∧ (v_finished v0 = true → v_finished v = true) ∧
    (v_finished v = true → v_slot v = false) ∧
    (v_cancel v = v_cancel v0 ∨ v_cancel v = None ∨
     q = p ∧ v_cancel v = Some (contexts c) ∧ contexts c' = (contexts c + 1)%N) ∧
    (v_finished v = true → v_ready v = false → q ∈ (ts' ++ rest) ≫= closing).
Proof.
  rewrite (ac_views _ _ _ _ _ _ _ Ha). intros [(-> & v0 & Hv & ->)|[Hne Hv]]%alter_views_inv.
  - exists v0. pose proof (ac_job _ _ _ _ _ _ _ Ha v0 Hv) as Hj. destruct Hj. split_and!; try done. naive_solver.
  - exists v. split_and!; auto; [by apply (cs_over _ _ Hc q)|]. intros Hf Hr.
    pose proof (cs_ready _ _ Hc q v Hv Hf Hr) as Hin. apply in_bind_cons in Hin as [Hin|Hin].
    + eapply ac_closing; [done|done| |done]. rewrite (ac_views _ _ _ _ _ _ _ Ha). by rewrite lookup_alter_ne.
    + apply in_bind_app. by right.
Qed.

Lemma act_some q : is_Some (views c' !! q) ↔ is_Some (views c !! q).
Proof. rewrite (ac_views _ _ _ _ _ _ _ Ha). by rewrite lookup_alter_is_Some. Qed.

Lemma act_addresses q : is_Some (views c' !! q) ↔ (q < fresh_address c')%N.
Proof.
  rewrite act_some, (cs_addresses _ _ Hc), !fresh_address_views, (ac_views _ _ _ _ _ _ _ Ha).
  assert (size (alter f p (views c)) = size (views c)) as ->; [|done].
  rewrite <- !size_dom. f_equal. apply set_eq. intros k. by rewrite !elem_of_dom, lookup_alter_is_Some.
Qed.

Lemma act_owner q r v w k : views c' !! q = Some v → views c' !! r = Some w →
  v_cancel v = Some k → v_cancel w = Some k → q = r.
Proof.
  intros Hv Hw Ev Ew. destruct (act_view q v Hv) as (v0 & Hv0 & _ & _ & _ & Hcv & _).
  destruct (act_view r w Hw) as (w0 & Hw0 & _ & _ & _ & Hcw & _).
  assert (∀ x u, views c !! x = Some u → v_cancel u = Some (contexts c) → False) as Hno.
  { intros x u Hx Hu. pose proof (cs_contexts _ _ Hc x u _ Hx Hu). lia. }
  destruct Hcv as [Ecv|[Ecv|(-> & Ecv & _)]]; [|congruence|]; destruct Hcw as [Ecw|[Ecw|(-> & Ecw & _)]]; try congruence.
  - apply (cs_owner _ _ Hc q r v0 w0 k); congruence.
  - exfalso. apply (Hno q v0); congruence.
  - exfalso. apply (Hno r w0); congruence.
Qed.

Lemma act_gate : gate c' = slots_held (views c') + slots_owned (ts' ++ rest).
Proof.
  pose proof (ac_gate _ _ _ _ _ _ _ Ha) as Hg. rewrite (ac_views _ _ _ _ _ _ _ Ha), slots_owned_app.
  pose proof (cs_gate _ _ Hc) as Hg0. change (slots_owned (t :: rest)) with (b2z (owns_slot t) + slots_owned rest) in Hg0.
  destruct (views c !! p) as [v|] eqn:Hv.
  - rewrite (slots_held_alter f p v) by done. lia.
  - assert (alter f p (views c) = views c) as ->; [|lia]. apply map_eq. intros q.
    destruct (decide (q = p)) as [->|Hne]; [by rewrite lookup_alter_eq, Hv|by rewrite lookup_alter_ne].
Qed.

Lemma act_unique : NoDup ((ts' ++ rest) ≫= works).
Proof.
  rewrite bind_app. pose proof (cs_unique _ _ Hc) as Hu. cbn in Hu.
  destruct (submseteq_Permutation _ _ (ac_works _ _ _ _ _ _ _ Ha)) as [k Hk]. rewrite Hk, <- app_assoc in Hu.
  apply NoDup_app in Hu as (H1' & H2' & H3'). apply NoDup_app in H3' as (_ & _ & H4').
  apply NoDup_app. split_and!; [done| |done]. intros x Hx Hx'. apply (H2' x Hx). apply elem_of_app. by right.
Qed.

Lemma act_alive q v : stopped c' = false → views c' !! q = Some v → v_finished v = false → q ∈ (ts' ++ rest) ≫= cares.
Proof.
  rewrite (ac_stopped _ _ _ _ _ _ _ Ha). intros Hs Hv Hf. destruct (act_view q v Hv) as (v0 & Hv0 & _ & Hmono & _).
  assert (v_finished v0 = false) as Hf0 by (destruct (v_finished v0); [by rewrite Hmono in Hf|done]).
  pose proof (cs_alive _ _ Hc q v0 Hs Hv0 Hf0) as Hin. apply in_bind_cons in Hin as [Hin|Hin].
  - by eapply ac_cares.
  - apply in_bind_app. by right.
Qed.

Lemma act_cancelled q v k : views c' !! q = Some v → v_finished v = false → v_cancel v = Some k → k ∈ cancelled c' →
  q ∈ (ts' ++ rest) ≫= finishing.
Proof.
  intros Hv Hnf Hk Hin. destruct (ac_cancelled _ _ _ _ _ _ _ Ha k Hin) as [Hold|[_ Hall]]; [|by eapply Hall].
  destruct (act_view q v Hv) as (v0 & Hv0 & _ & Hmono & _ & Hcv & _).
  assert (v_finished v0 = false) as Hf0 by (destruct (v_finished v0); [by rewrite Hmono in Hnf|done]).
  destruct Hcv as [Ecv|[Ecv|(-> & Ecv & _)]].
  - pose proof (cs_cancelled _ _ Hc q v0 k Hv0 Hf0) as Hf. rewrite Ecv in Hk. apply Hf in Hk as Hin'; [|done].
    apply in_bind_cons in Hin' as [Hin'|Hin'].
    + eapply ac_finishing; [done|done|done|done|]. by rewrite Ecv.
    + apply in_bind_app. by right.
  - congruence.
  - assert (k = contexts c) as -> by congruence. pose proof (cs_bound _ _ Hc _ Hold). lia.
Qed.

Lemma act_resume q : q ∈ (ts' ++ rest) ≫= pending → q ∉ (ts' ++ rest) ≫= blocks.
Proof.
  intros Hq Hb. apply in_bind_app in Hb as [Hb|Hb].
  - destruct (ac_blocks _ _ _ _ _ _ _ Ha q Hb) as [Hb'|Hb']; [|done].
    apply (cs_resume _ _ Hc q); [|apply in_bind_cons; by left]. apply in_bind_cons.
    apply in_bind_app in Hq as [Hq|Hq]; [left; by eapply ac_pending|by right].
  - apply (cs_resume _ _ Hc q); [|apply in_bind_cons; by right]. apply in_bind_cons.
    apply in_bind_app in Hq as [Hq|Hq]; [left; by eapply ac_pending|by right].
Qed.

Lemma act_consistent : consistent (ts' ++ rest) c'.
Proof.
  split.
  - apply act_addresses.
  - intros k q Hq. apply (ac_jobs _ _ _ _ _ _ _ Ha) in Hq. apply (cs_jobs _ _ Hc) in Hq.
    eapply has_view_act; [exact Hq|done|]. intros v _ _ Hj E. by rewrite (jc_key _ _ _ _ _ _ _ _ Hj).
  - intros id q Hq. rewrite (ac_records _ _ _ _ _ _ _ Ha) in Hq. apply (cs_records _ _ Hc) in Hq.
    eapply has_view_act; [exact Hq|done|]. intros v _ _ Hj E. by rewrite (jc_key _ _ _ _ _ _ _ _ Hj).
  - intros q v Hv. destruct (act_view q v Hv) as (v0 & Hv0 & [-> ->] & _). by apply (cs_ident _ _ Hc q).
  - intros q v Hv Hf. destruct (act_view q v Hv) as (v0 & Hv0 & [-> _] & Hmono & _).
    assert (v_finished v0 = false) as Hf0 by (destruct (v_finished v0); [by rewrite Hmono in Hf|done]).
    destruct (ac_jobs_live _ _ _ _ _ _ _ Ha _ _ (cs_live _ _ Hc q v0 Hv0 Hf0)) as [E|(w & Hw & Hwf)]; [done|].
    rewrite Hv in Hw. injection Hw as <-. unfold is_finished in Hwf. congruence.
  - intros q v Hv. by destruct (act_view q v Hv) as (v0 & _ & _ & _ & ? & _).
  - intros q v k Hv Hk. destruct (act_view q v Hv) as (v0 & Hv0 & _ & _ & _ & Hcv & _).
    pose proof (ac_contexts _ _ _ _ _ _ _ Ha). destruct Hcv as [Ecv|[Ecv|(-> & Ecv & E)]]; [|congruence|].
    + rewrite Ecv in Hk. pose proof (cs_contexts _ _ Hc q v0 k Hv0 Hk). lia.
    + assert (k = contexts c) as -> by congruence. lia.
  - apply act_owner.
  - intros k Hk. pose proof (ac_contexts _ _ _ _ _ _ _ Ha).
    destruct (ac_cancelled _ _ _ _ _ _ _ Ha k Hk) as [Hold|[Hb _]]; [apply (cs_bound _ _ Hc) in Hold|]; lia.
  - apply (ac_active _ _ _ _ _ _ _ Ha).
  - apply act_gate.
  - apply act_unique.
  - apply Forall_app. split; [apply (ac_threads _ _ _ _ _ _ _ Ha)|]. pose proof (cs_threads _ _ Hc) as Hts.
    apply Forall_cons in Hts as [_ Hts]. rewrite Forall_forall in Hts |- *. intros t0 Ht0. apply thread_ok_act; auto.
  - apply act_alive.
  - apply act_cancelled.
  - intros q v Hv. by destruct (act_view q v Hv) as (v0 & _ & _ & _ & _ & _ & ?).
  - apply act_resume.
Qed.
End act.

(** * Nothing but the goroutine itself changes *)

Lemma alter_absent (f : jview → jview) p (m : gmap N jview) : m !! p = None → alter f p m = m.
Proof.
  intros Hp. apply map_eq. intros q. destruct (decide (q = p)) as [->|Hne].
  - by rewrite lookup_alter_eq, Hp.
  - by rewrite lookup_alter_ne.
Qed.

Definition Inv (c : coordinator) : Prop := consistent (threads c) c.

(** The goroutine [t] of [c], which is not on its list, counts. *)
Definition good (c : coordinator) (t : thread) : Prop := consistent (t :: threads c) c.

Record follows (c : coordinator) (t : thread) (ts' : list thread) : Prop := {
  fo_reads : omap reads ts' = omap reads [t];
  fo_owns : slots_owned ts' = b2z (owns_slot t);
  fo_works : (ts' ≫= works) ⊆+ works t;
  fo_threads : Forall (thread_ok c) ts';
  fo_cares q v : q ∈ cares t → stopped c = false → views c !! q = Some v → v_finished v = false →
    q ∈ (ts' ++ threads c) ≫= cares;
  fo_finishing q v k : q ∈ finishing t → views c !! q = Some v → v_finished v = false → v_cancel v = Some k →
    q ∈ ts' ≫= finishing;
  fo_closing q v : q ∈ closing t → views c !! q = Some v → v_ready v = false → q ∈ ts' ≫= closing;
  fo_pending q : q ∈ ts' ≫= pending → q ∈ pending t;
  fo_blocks q : q ∈ ts' ≫= blocks → q ∈ blocks t ∨ q ∉ (ts' ++ threads c) ≫= pending;
}.

Lemma good_follows c c' t ts' :
  good c t → core c' = core c → threads c' = ts' ++ threads c → follows c t ts' → Inv c'.
Proof.
  intros Hg Hcore Ht [Hr Ho Hw Hth Hca Hfi Hcl Hpe Hbl]. unfold Inv. rewrite Ht.
  pose proof Hcore as [= E1 E2 E3 E4 E5 E6 E7 E8].
  assert (views c !! fresh_address c = None) as Hnone.
  { apply eq_None_not_Some. rewrite (cs_addresses _ _ Hg). lia. }
  eapply (act_consistent t ts' (threads c) c c' (fresh_address c) id Hg). split; rewrite ?E1, ?E2, ?E3, ?E4, ?E5, ?E6, ?E7, ?E8; try done.
  - by rewrite alter_absent.
  - by rewrite Hnone.
  - auto.
  - eapply counts_omap; [|apply (cs_active _ _ Hg)]. rewrite omap_app, Hr. cbn. by destruct (reads t).
  - rewrite Hnone, Ho. lia.
  - eapply Forall_impl; [exact Hth|]. intros t0. by apply thread_ok_core.
  - intros q v k Hq Hv Hf Hk. apply in_bind_app. left. by eapply Hfi.
  - auto.
  - intros q v Hq Hv Hk. apply in_bind_app. left. by eapply Hcl.
Qed.

Lemma taken_good c t q : running c t q → Inv c → good q t.
Proof.
  intros (rest & Hp & ->) Hi. unfold good. cbn [threads set_threads].
  eapply runs_core; [|eapply runs_perm; [exact Hp|exact Hi]]. done.
Qed.

(** A goroutine that is responsible for nothing may come. *)
Lemma good_Resuming_nil c : Inv c ↔ good c (Resuming []).
Proof.
  unfold Inv, good. split; intros Hc; destruct Hc; split; try done.
  - constructor; [|done]. split; [by apply Forall_nil_2|done].
  - by apply Forall_cons in cs_threads0 as [_ ?].
Qed.

End runs.
