(* ===== verification/SoulseekSteps.v ===== *)
(** What each step of the Soulseek download coordinator does to the consistency
    of its state ([SoulseekRuns]): one lemma per step. *)
From stdpp Require Import base gmap strings list relations.
From Stdlib Require Import ZArith Lia Ascii.
From S2P Require Import Prelude GoStrings Sql Paths Music Services Counting TorrentFiles.
From S2P Require Import SoulseekRefs SoulseekClient SoulseekJobs SoulseekRuns.

Open Scope Z_scope.

#[local] Arguments views : simpl never.

Section steps.
Context `{Runtime} `{RemoteJSON} `{Unicode}.
Context (downloadsDir incompleteDir stateDir : string) (MaxActive RetryAttempts : Z).

(** ** Operations the protocol does not see *)

Definition quiet (f : downloadJob → downloadJob) : Prop := ∀ j, view_of (f j) = view_of j.

Lemma quiet_update p f c : quiet f → views (update p f c) = views c.
Proof.
  intros Hf. unfold views. cbn. apply map_eq. intros q. rewrite !lookup_fmap.
  destruct (decide (q = p)) as [->|Hne].
  - rewrite lookup_alter_eq. destruct (heap c !! p); cbn; [by rewrite Hf|done].
  - by rewrite lookup_alter_ne.
Qed.

Lemma views_update p f g c : (∀ j, view_of (f j) = g (view_of j)) → views (update p f c) = alter g p (views c).
Proof.
  intros Hf. unfold views. cbn. apply map_eq. intros q. rewrite !lookup_fmap.
  destruct (decide (q = p)) as [->|Hne].
  - rewrite !lookup_alter_eq, lookup_fmap. destruct (heap c !! p); cbn; [by rewrite Hf|done].
  - by rewrite !lookup_alter_ne, lookup_fmap.
Qed.

(** The same to the protocol, goroutines included. *)
Definition seen (c : coordinator) := (core c, threads c).

Lemma seen_update p f c : quiet f → seen (update p f c) = seen c.
Proof. intros Hf. unfold seen, core. by rewrite quiet_update. Qed.

Lemma seen_persist now p c : seen (persist_quietly stateDir now p c) = seen c.
Proof.
  unfold persist_quietly, persistJob. destruct (get p c) as [j|]; [|done].
  unfold on_state, zoom. destruct (write_record stateDir (persisted j) (state_dir c)) as [[u|e] d]; [|done].
  cbn [snd]. by rewrite seen_update.
Qed.

Lemma persistJob_seen now p : read_only seen (persistJob stateDir now p).
Proof.
  intros c r c' E. replace c' with (persist_quietly stateDir now p c); [apply seen_persist|].
  unfold persist_quietly. by rewrite E.
Qed.

Lemma on_media_seen {A} (m : M disk A) : read_only seen (on_media m).
Proof. intros c r c'. unfold on_media, zoom. destruct (m (media c)) as [r' d]. by intros [= <- <-]. Qed.

Lemma seen_core c c' : seen c' = seen c → core c' = core c ∧ threads c' = threads c.
Proof. unfold seen. apply pair_equal_spec. Qed.

(** ** Jobs, one critical section at a time *)

Lemma job_view c t p P : good c t → thread_ok c t → has_view c p P → ∃ j, get p c = Some j ∧ views c !! p = Some (view_of j) ∧ P (view_of j).
Proof.
  intros _ _ (v & Hv & HP). unfold views in Hv. rewrite lookup_fmap in Hv. unfold get.
  destruct (heap c !! p) as [j|] eqn:E; [|done]. injection Hv as <-. exists j. split_and!; try done.
  unfold views. by rewrite lookup_fmap, E.
Qed.

Lemma good_ok c t : good c t → thread_ok c t.
Proof. intros Hg. pose proof (cs_threads _ _ Hg) as Ht. by apply Forall_cons in Ht as [? _]. Qed.

Lemma good_seen c c' t : seen c' = seen c → good c t → good c' t.
Proof. intros [E1 E2]%seen_core Hg. unfold good. rewrite E2. by eapply runs_core. Qed.

Lemma Inv_seen c c' : seen c' = seen c → Inv c → Inv c'.
Proof. intros [E1 E2]%seen_core Hg. unfold Inv. rewrite E2. by eapply runs_core. Qed.

Lemma Inv_go c t : good c t → Inv (go t c).
Proof. intros Hg. eapply runs_core; [|exact Hg]. done. Qed.

Lemma good_drop c t : good c t → follows c t [] → Inv c.
Proof. intros Hg Hf. by eapply (good_follows c c t []). Qed.

Lemma good_then c t t' : good c t → follows c t [t'] → good c t'.
Proof.
  intros Hg Hf. assert (Inv (go t' c)) as Hi by (by eapply (good_follows c _ t [t'])).
  eapply runs_core; [|exact Hi]. done.
Qed.

Lemma has_view_weaken c p P Q : has_view c p P → (∀ v, P v → Q v) → has_view c p Q.
Proof. intros (v & Hv & HP) HPQ. exists v. auto. Qed.

Lemma has_view_anything c p P : has_view c p P → has_view c p anything.
Proof. intros Hp. by eapply has_view_weaken. Qed.

Lemma pending_works t p : p ∈ pending t → p ∈ works t.
Proof. unfold pending, works. destruct t; cbn; set_solver. Qed.

(** Nobody waits to resume the job a goroutine carries on. *)
Lemma good_not_pending c t p : good c t → p ∈ works t → p ∉ threads c ≫= pending.
Proof.
  intros Hg Hp (t0 & Ht0 & Hp0%pending_works)%in_bind.
  by apply (works_apart t (threads c) p t0 (cs_unique _ _ Hg) Hp Ht0).
Qed.

(** Proves [follows] where one goroutine takes the place of another. *)
Ltac each_thread :=
  lazymatch goal with
  | |- Forall (thread_ok _) _ =>
      repeat (apply Forall_cons_2; [split; [try by apply Forall_nil_2|cbn]|]);
      try apply Forall_nil_2; try (split; [|done]); try done;
      try (by eauto); try (by eapply has_view_anything)
  | |- _ ⊆+ _ => try apply submseteq_nil_l
  | Hg : good ?c ?t |- ∀ q, q ∈ [?p] → q ∈ [] ∨ q ∉ threads ?c ≫= pending =>
      try (intros q ->%list_elem_of_singleton; right; apply (good_not_pending c t p Hg); by left)
  | _ => idtac
  end.
Ltac follow :=
  split; cbn; rewrite ?app_nil_r; each_thread; try done; try (by eauto); try set_solver.

Lemma read_only_modify (g : coordinator → coordinator) : (∀ c, seen (g c) = seen c) → read_only seen (modify g).
Proof. intros Hg c r c' [= <- <-]. apply Hg. Qed.

Lemma quiet_report st e now : quiet (report st e now).
Proof. by intros []. Qed.

Lemma enqueue_seen now p reply : read_only seen (enqueue stateDir now p reply).
Proof.
  unfold enqueue. apply read_only_bind; [by go_clean|]. intros answered. destruct (enqueue_error _); [by go_clean|].
  apply read_only_bind; [apply read_only_modify; intros c; by apply seen_update; intros []|]. intros _.
  apply persistJob_seen.
Qed.

Lemma Inv_enqueue_answered now p ctx attempt reply c :
  good c (Enqueueing p ctx attempt) → Inv (enqueue_answered stateDir now p ctx attempt reply c).
Proof.
  intros Hg. unfold enqueue_answered. destruct (enqueue stateDir now p reply c) as [[u|e] c1] eqn:E;
    apply enqueue_seen in E; apply Inv_go;
    (eapply good_then; [eapply good_seen; [exact E|exact Hg]|]);
    pose proof (good_ok _ _ (good_seen _ _ _ E Hg)) as [_ Hok]; cbn in Hok; follow.
Qed.

Lemma Inv_enqueue_failed now p ctx attempt e c :
  good c (EnqueueFailed p ctx attempt e) → Inv (enqueue_failed stateDir RetryAttempts now p ctx attempt e c).
Proof.
  intros Hg. pose proof (good_ok _ _ Hg) as [_ Hok]. cbn in Hok. unfold enqueue_failed. destruct (_ || _).
  - apply Inv_go. eapply good_then; [exact Hg|]. destruct ctx; follow.
  - apply Inv_go. set (c1 := persist_quietly stateDir now p (update p _ c)).
    assert (seen c1 = seen c) as E by (unfold c1; rewrite seen_persist; apply seen_update, quiet_report).
    apply (good_seen _ _ _ E) in Hg. pose proof (good_ok _ _ Hg) as [_ Hok']. cbn in Hok'.
    eapply good_then; [exact Hg|]. follow.
Qed.

Lemma Inv_backoff_over now p ctx attempt c : good c (Backoff p ctx attempt) → Inv (backoff_over now p ctx attempt c).
Proof.
  intros Hg. unfold backoff_over. apply Inv_go.
  assert (seen (update p (report StateQueued "" now) c) = seen c) as E by (apply seen_update, quiet_report).
  apply (good_seen _ _ _ E) in Hg. pose proof (good_ok _ _ Hg) as [_ Hok']. cbn in Hok'.
  eapply good_then; [exact Hg|]. follow.
Qed.

Lemma Inv_backoff_cancelled p ctx attempt e c : good c (Backoff p ctx attempt) → Inv (backoff_cancelled p ctx e c).
Proof.
  intros Hg. pose proof (good_ok _ _ Hg) as [_ Hok]. cbn in Hok. apply Inv_go.
  eapply good_then; [exact Hg|]. destruct ctx; follow.
Qed.

Lemma view_get p c j : get p c = Some j → views c !! p = Some (view_of j).
Proof. unfold get, views. rewrite lookup_fmap. by intros ->. Qed.

Lemma get_view p c v : views c !! p = Some v → ∃ j, get p c = Some j ∧ v = view_of j.
Proof. unfold get, views. rewrite lookup_fmap. destruct (heap c !! p) as [j|]; [|done]. intros [= <-]. eauto. Qed.

(** The monitor. *)
Definition watching (t : thread) (p : N) : Prop :=
  (∃ batchID errors, t = Monitoring p batchID errors) ∨ t = WaitingFinal p ∨ ∃ transfer, t = TransferFailed p transfer.

Lemma good_watch c t t' p : watching t p → watching t' p → good c t → good c t'.
Proof.
  intros Hw Hw' Hg. pose proof (good_ok _ _ Hg) as [_ Hok]. eapply good_then; [exact Hg|].
  destruct Hw as [(?&?& ->)|[-> |(? & ->)]], Hw' as [(?&?& ->)|[-> |(? & ->)]]; cbn in Hok; follow.
Qed.

Lemma good_watch_finish c t p st e next :
  watching t p → (next = Some (EndMonitoring p) ∨ next = Some (Completing p)) → good c t → good c (Finishing p st e next).
Proof.
  intros Hw Hn Hg. pose proof (good_ok _ _ Hg) as [_ Hok]. eapply good_then; [exact Hg|].
  assert (has_view c p anything) as Hp by (destruct Hw as [(?&?& ->)|[-> |(? & ->)]]; exact Hok).
  destruct Hw as [(?&?& ->)|[-> |(? & ->)]], Hn as [-> | ->]; follow.
Qed.

Lemma good_watch_over c t p :
  watching t p → (stopped c = true ∨ has_view c p is_finished) → good c t → good c (EndMonitoring p).
Proof.
  intros Hw Hover Hg. pose proof (good_ok _ _ Hg) as [_ Hok]. eapply good_then; [exact Hg|].
  assert (∀ q v, q ∈ [p] → stopped c = false → views c !! q = Some v → v_finished v = false → False) as Ho.
  { intros q v ->%list_elem_of_singleton Hs Hv Hf. destruct Hover as [|(w & Hw' & Hwf)]; [congruence|].
    unfold is_finished in Hwf. congruence. }
  destruct Hw as [(?&?& ->)|[-> |(? & ->)]]; follow; intros q v ? ? ? ?; exfalso; by eapply Ho.
Qed.

Lemma quiet_updateTransfer now transfer j : view_of (updateTransfer now transfer j).2 = view_of j.
Proof. unfold updateTransfer. by destruct (j_finished j). Qed.

Lemma seen_put p j j' c : get p c = Some j → view_of j' = view_of j → seen (update p (λ _, j') c) = seen c.
Proof.
  intros Hp Hv. unfold seen, core. f_equal. assert (views (update p (λ _, j') c) = views c) as ->; [|done].
  apply map_eq. intros q. unfold views, get in *. cbn. rewrite !lookup_fmap. destruct (decide (q = p)) as [->|Hne].
  - rewrite lookup_alter_eq, Hp. cbn. by rewrite Hv.
  - by rewrite lookup_alter_ne.
Qed.

Lemma Inv_poll_answered now p batchID errors batch c :
  good c (Monitoring p batchID errors) → Inv (poll_answered stateDir now p batchID batch c).
Proof.
  intros Hg. assert (watching (Monitoring p batchID errors) p) as Hw by (left; eauto).
  assert (watching (WaitingFinal p) p) as Hw1 by (right; by left).
  pose proof (good_ok _ _ Hg) as [_ Hok]. cbn in Hok. destruct Hok as (v & Hv & _).
  apply get_view in Hv as (j & Hj & _). unfold poll_answered.
  destruct (b_Transfers batch) as [|transfer l].
  { apply Inv_go, (good_watch_finish _ (Monitoring p batchID errors)); auto. }
  rewrite Hj. pose proof (quiet_updateTransfer now transfer j) as Hq.
  destruct (updateTransfer now transfer j) as [changed j'] eqn:Eu. cbn [snd] in Hq.
  set (c1 := update p (λ _, j') c). assert (seen c1 = seen c) as E1 by by apply (seen_put p j).
  destruct (if changed && _ then _ else _) as [saved c2] eqn:Es.
  assert (seen c2 = seen c) as E2.
  { destruct (changed && _); [|by injection Es as <- <-]. apply persistJob_seen in Es. congruence. }
  apply (good_seen _ _ _ E2) in Hg. destruct saved as [u|e].
  - destruct (transferSucceeded _); [|destruct (transferFailed _)]; apply Inv_go.
    + by apply (good_watch _ (Monitoring p batchID errors) _ p).
    + apply (good_watch _ (Monitoring p batchID errors) _ p); [done| |done]. right. right. eauto.
    + apply (good_watch _ (Monitoring p batchID errors) _ p); [done| |done]. left. eauto.
  - apply Inv_go, (good_watch_finish _ (Monitoring p batchID errors)); auto.
Qed.

Lemma Inv_poll_failed p batchID errors e c :
  good c (Monitoring p batchID errors) → Inv (go (poll_failed p batchID errors e) c).
Proof.
  intros Hg. assert (watching (Monitoring p batchID errors) p) as Hw by (left; eauto). apply Inv_go. unfold poll_failed.
  destruct (5 <=? errors + 1).
  - apply (good_watch_finish _ (Monitoring p batchID errors)); auto.
  - apply (good_watch _ (Monitoring p batchID errors) _ p); [done| |done]. left. eauto.
Qed.

Lemma final_file_seen late p : read_only seen (final_file late p).
Proof.
  unfold final_file. apply read_only_bind; [by go_clean|]. intros j. apply read_only_bind; [|by go_clean].
  apply read_only_try, on_media_seen.
Qed.

Lemma Inv_final_file late p c t c' : good c (WaitingFinal p) → final_file late p c = (Ok t, c') → Inv (go t c').
Proof.
  intros Hg E. pose proof (final_file_seen _ _ _ _ _ E) as Hs. apply (good_seen _ _ _ Hs) in Hg. apply Inv_go.
  assert (watching (WaitingFinal p) p) as Hw by (right; by left).
  unfold final_file in E. apply bind_Ok_inv in E as (j & c1 & _ & E). apply bind_Ok_inv in E as (info & c2 & _ & E).
  destruct info as [u|e].
  - apply ret_Ok_inv in E as [-> _]. apply (good_watch_finish _ (WaitingFinal p)); auto.
  - destruct (negb _); [|destruct late]; apply ret_Ok_inv in E as [-> _];
      [apply (good_watch_finish _ (WaitingFinal p)); auto..|done].
Qed.

Lemma Inv_transfer_failed now p transfer c :
  good c (TransferFailed p transfer) → Inv (transfer_failed stateDir RetryAttempts now p transfer c).
Proof.
  intros Hg. assert (watching (TransferFailed p transfer) p) as Hw by (right; right; eauto).
  pose proof (good_ok _ _ Hg) as [_ Hok]. cbn in Hok. destruct Hok as (v & Hv & _).
  apply get_view in Hv as (j & Hj & _). unfold transfer_failed.
  assert (∀ st e, Inv (go (Finishing p st e (Some (EndMonitoring p))) c)) as Hfail.
  { intros st e. apply Inv_go, (good_watch_finish _ (TransferFailed p transfer)); auto. }
  destruct (retryableTransferFailure transfer); [|apply Hfail]. rewrite Hj.
  destruct (prepareAutomaticRetry _ _ _ j) as [j'|] eqn:Er; [|apply Hfail].
  assert (seen (update p (λ _, j') c) = seen c) as E1.
  { apply (seen_put p j); [done|]. unfold prepareAutomaticRetry in Er. destruct (_ || _); [done|]. by injection Er as <-. }
  destruct (persistJob stateDir now p _) as [[u|e] c2] eqn:Es; apply persistJob_seen in Es; rewrite E1 in Es;
    apply (good_seen _ _ _ Es) in Hg; apply Inv_go.
  - pose proof (good_ok _ _ Hg) as [_ Hok]. cbn in Hok. eapply good_then; [exact Hg|]. follow.
  - apply (good_watch_finish _ (TransferFailed p transfer)); auto.
Qed.

(** Proves the parts of [act] that nothing changes. *)
Ltac acting :=
  split; try done; try (by intros; left); try (by intros; auto); try (by intros ? ?; cbn; set_solver);
  try (by intros; cbn in *; set_solver).

Lemma Inv_end_monitoring p c : good c (EndMonitoring p) → Inv (update p (with_monitoring false) c).
Proof.
  intros Hg. set (f v := mkView (v_key v) (v_ident v) (v_finished v) (v_slot v) (v_cancel v) false (v_ready v)).
  assert (views (update p (with_monitoring false) c) = alter f p (views c)) as Ev by by apply views_update.
  apply (act_consistent (EndMonitoring p) [] (threads c) c _ p f Hg). acting.
  - intros v Hv. split; cbn; auto.
    + apply (cs_over _ _ Hg p v Hv).
    + right. split; [|by left]. unfold keeps. cbn. split_and!; auto.
    + apply (cs_ready _ _ Hg p v Hv).
  - apply (cs_active _ _ Hg).
  - cbn. destruct (views c !! p); cbn; lia.
Qed.

Lemma finish_ident st e now j :
  ident_of (map_job_download (finished_download st e now) (with_finished e j)) = ident_of j.
Proof. unfold ident_of. cbn. unfold finished_download. by destruct (bool_decide _), e. Qed.

(** [finishJob] under the job's mutex. *)
Definition finish_view (v : jview) : jview :=
  mkView (v_key v) (v_ident v) true false None (v_monitoring v) (v_ready v).

Lemma good_go_on c t next :
  good c t → to_resume t = match next with Some (Resuming ps) => ps | _ => [] end →
  works t = to_resume t → pending t = to_resume t → owns_slot t = false →
  reads t = match next with Some (Unread key) => Some key | _ => None end →
  next_ok c next → thread_ok c t →
  (∀ q v, q ∈ finishing t → views c !! q = Some v → v_finished v = true) →
  (∀ q v, q ∈ closing t → views c !! q = Some v → v_ready v = true) →
  Inv (go_on next c).
Proof.
  intros Hg Hr Hw Hpe Ho Hre Hn [Hres _] Hf Hc.
  assert (threads (go_on next c) = option_list next ++ threads c) as Ht by by destruct next.
  apply (good_follows c _ t (option_list next) Hg); [by destruct next|done|].
  assert (to_resume t = option_list next ≫= to_resume) as Hr'.
  { rewrite Hr. destruct next as [[]|]; cbn; by rewrite ?app_nil_r. }
  assert (∀ q, q ∈ option_list next ≫= blocks → False) as Hnb.
  { destruct next as [[]|]; cbn; try done; set_solver. }
  split.
  - cbn. rewrite Hre. by destruct next as [[]|].
  - rewrite Ho. by destruct next as [[]|].
  - rewrite Hw, Hr'. destruct next as [[]|]; cbn; by rewrite ?app_nil_r.
  - destruct next as [t0|]; [|done]. cbn. constructor; [|done]. split; [|by destruct t0].
    rewrite Hr' in Hres. cbn in Hres. by rewrite app_nil_r in Hres.
  - intros q v. unfold cares. rewrite Hw, elem_of_app. intros [Hq|Hq] _ Hv Hfin.
    + rewrite Hr' in Hq. apply in_bind_app. left. destruct next as [[]|]; try done. unfold works. cbn in *. set_solver.
    + pose proof (Hf q v Hq Hv). congruence.
  - intros q v k Hq Hv Hvf _. pose proof (Hf q v Hq Hv). congruence.
  - intros q v Hq Hv Hk. pose proof (Hc q v Hq Hv). congruence.
  - intros q. rewrite Hpe, Hr'. destruct next as [[]|]; cbn; try done. set_solver.
  - intros q Hq. by destruct (Hnb q Hq).
Qed.

Lemma Inv_finish now p st e next c : good c (Finishing p st e next) → Inv (finish now p st e next c).
Proof.
  intros Hg. pose proof (good_ok _ _ Hg) as Hok. pose proof Hok as [Hres [(v & Hv & _) Hn]].
  destruct (get_view _ _ _ Hv) as (j & Hj & ->). unfold finish. rewrite Hj. destruct (j_finished j) eqn:Ef.
  { apply (good_go_on c (Finishing p st e next)); try done;
      try (by destruct next as [[]|]; unfold pending; cbn; rewrite ?app_nil_r).
    - intros q w ->%list_elem_of_singleton Hw. rewrite Hv in Hw. by injection Hw as <-.
    - intros q w Hq. by apply elem_of_nil in Hq. }
  set (c1 := update p _ c). set (c2 := match j_cancel j with Some _ => _ | None => c1 end).
  assert (views c2 = alter finish_view p (views c)) as Ev.
  { transitivity (views c1); [unfold c2; by destruct (j_cancel j)|].
    apply views_update. intros j0. unfold view_of. by rewrite finish_ident. }
  assert (core c2 = (views c2, c_jobs c, c_records c, c_active c, gate c, stopped c,
    match j_cancel j with Some ctx => {[ctx]} ∪ cancelled c | None => cancelled c end, contexts c) ∧
    threads c2 = threads c) as [Hcore Hth].
  { unfold c2, core. by destruct (j_cancel j). }
  injection Hcore as E2 E3 E4 E5 E6 E7 E8. unfold Inv. cbn [threads go set_threads]. rewrite Hth.
  change (Closing p (j_slotHeld j) next :: threads c) with ([Closing p (j_slotHeld j) next] ++ threads c).
  eapply runs_core with (c := c2); [done|].
  apply (act_consistent (Finishing p st e next) _ (threads c) c _ p finish_view Hg).
  split; rewrite ?E2, ?E3, ?E4, ?E5, ?E6, ?E7, ?E8; try done.
  - intros w Hw. split; cbn; auto.
    + right. split; [unfold keeps; cbn; split_and!; auto|]. right. intros Hin.
      apply (cs_resume _ _ Hg p); apply in_bind_cons; [by right|left]. unfold blocks. cbn. set_solver.
    + intros _ _. set_solver.
  - auto.
  - eapply counts_swap; [|apply (cs_active _ _ Hg)]. by destruct next as [[]|].
  - rewrite Hv. cbn. destruct (j_slotHeld j); cbn; lia.
  - cbn. rewrite app_nil_r. by destruct next as [[]|].
  - constructor; [|done]. split.
    + rewrite Forall_forall in Hres |- *. intros q Hq. destruct (decide (q = p)) as [->|Hne].
      * exfalso. apply (cs_resume _ _ Hg p); apply in_bind_cons; left.
        -- unfold pending. destruct next as [[]|]; cbn in Hq |- *; set_solver.
        -- unfold blocks. cbn. set_solver.
      * destruct (Hres q) as (w & Hw & HP); [by destruct next as [[]|]|]. exists w. split; [|done].
        by rewrite Ev, lookup_alter_ne.
    + split.
      * exists (finish_view (view_of j)). split; [|done]. by rewrite Ev, lookup_alter_eq, Hv.
      * destruct next as [[]|]; try done; destruct Hn as (w & Hw & _); unfold next_ok, has_view; rewrite Ev;
          (destruct (decide (p0 = p)) as [->|Hne]; [rewrite lookup_alter_eq, Hv|rewrite lookup_alter_ne, Hw by done]; by eexists).
  - intros q w Hq _ Hw Hf. unfold cares in Hq. apply elem_of_app in Hq as [Hq|Hq].
    + apply in_bind_app. left. apply in_bind_cons. left. unfold cares, works in *. cbn in *. destruct next as [[]|]; set_solver.
    + cbn in Hq. apply list_elem_of_singleton in Hq. subst q. rewrite Ev, lookup_alter_eq, Hv in Hw. by injection Hw as <-.
  - intros q w k Hq%list_elem_of_singleton Hw Hk. subst q. rewrite Ev, lookup_alter_eq, Hv in Hw. by injection Hw as <-.
  - intros k Hk. destruct (j_cancel j) as [ctx|] eqn:Ec; [|by left]. apply elem_of_union in Hk as [->%elem_of_singleton|?]; [|by left].
    right. split; [by apply (cs_contexts _ _ Hg p (view_of j))|]. intros q w Hw Hnf Hcw. rewrite Ev in Hw.
    apply alter_views_inv in Hw as [(-> & w0 & _ & ->)|[Hne Hw]]; [done|]. destruct Hne.
    by apply (cs_owner _ _ Hg q p w (view_of j) ctx).
  - intros q w Hq. by apply elem_of_nil in Hq.
  - intros q. cbn. rewrite app_nil_r. unfold pending. destruct next as [[]|]; cbn; set_solver.
  - intros q. cbn. rewrite app_nil_r. intros Hq. by apply elem_of_nil in Hq.
Qed.

Lemma slots_nonneg m ts : 0 ≤ slots_held m ∧ 0 ≤ slots_owned ts.
Proof.
  split; apply Zsum_nonneg, Forall_map, Forall_forall; intros x _; cbn; unfold b2z; by destruct (_ : bool).
Qed.

Lemma gate_owned c t : good c t → owns_slot t = true → 0 < gate c.
Proof.
  intros Hg Ho. rewrite (cs_gate _ _ Hg).
  change (slots_owned (t :: threads c)) with (b2z (owns_slot t) + slots_owned (threads c)). rewrite Ho.
  destruct (slots_nonneg (views c) (threads c)). cbn. lia.
Qed.

Definition ready_view (v : jview) : jview :=
  mkView (v_key v) (v_ident v) (v_finished v) (v_slot v) (v_cancel v) (v_monitoring v) true.

Lemma has_view_alter g p c c' q P (P' : jview → Prop) :
  views c' = alter g p (views c) → has_view c q P → (∀ v, P v → P' v) → (∀ v, P v → P' (g v)) → has_view c' q P'.
Proof.
  intros Ev (v & Hv & HP) H1' H2'. unfold has_view. rewrite Ev. destruct (decide (q = p)) as [->|Hne].
  - exists (g v). rewrite lookup_alter_eq, Hv. auto.
  - exists v. rewrite lookup_alter_ne by done. auto.
Qed.

Lemma next_ok_alter g p c c' next : views c' = alter g p (views c) → next_ok c next → next_ok c' next.
Proof. intros Ev. destruct next as [[]|]; cbn; try done; intros Hp; by eapply has_view_alter. Qed.

Lemma Inv_close p slot next c : good c (Closing p slot next) → Inv (close_job p slot next c).
Proof.
  intros Hg. pose proof (good_ok _ _ Hg) as [Hres [Hfin Hn]]. unfold close_job.
  set (c1 := if slot then release_gate c else c). set (c2 := update p with_ready c1).
  assert (views c2 = alter ready_view p (views c)) as Ev.
  { transitivity (alter ready_view p (views c1)); [by apply views_update|]. unfold c1. by destruct slot. }
  assert (gate c2 = gate c - b2z slot) as Eg.
  { unfold c2, c1. destruct slot; cbn; [|lia]. pose proof (gate_owned c _ Hg eq_refl). destruct (0 <? gate c) eqn:E; lia. }
  assert (threads c2 = threads c) as Hth by (unfold c2, c1; by destruct slot).
  assert (c_jobs c2 = c_jobs c ∧ c_records c2 = c_records c ∧ c_active c2 = c_active c ∧ stopped c2 = stopped c ∧
    cancelled c2 = cancelled c ∧ contexts c2 = contexts c) as (E1 & E2 & E3 & E4 & E5 & E6).
  { unfold c2, c1. by destruct slot. }
  unfold Inv. cbn [threads go set_threads]. rewrite Hth.
  apply (runs_core _ c2); [done|].
  apply (act_consistent (Closing p slot next) [Saving p next] (threads c) c _ p ready_view Hg).
  split; rewrite ?E1, ?E2, ?E3, ?E4, ?E5, ?E6; try done.
  - intros v Hv. split; cbn; auto; [by apply (cs_over _ _ Hg p)| |done].
    right. split; [unfold keeps; cbn; split_and!; auto|by left].
  - auto.
  - eapply counts_swap; [|apply (cs_active _ _ Hg)]. by destruct next as [[]|].
  - rewrite Eg. unfold slots_owned. cbn. destruct (views c !! p); cbn; destruct slot; cbn; lia.
  - cbn. rewrite app_nil_r. by destruct next as [[]|].
  - constructor; [|done]. split.
    + eapply Forall_impl; [destruct next as [[]|]; exact Hres|]. cbn. intros q Hq.
      eapply has_view_alter; [exact Ev|exact Hq|done|]. intros v (Hf & ? & ?). done.
    + split; [eapply has_view_alter; [exact Ev|exact Hfin|done|done]|by eapply next_ok_alter].
  - intros q v Hq _ Hv Hf. apply in_bind_app. left. unfold cares, works in *. cbn in *. destruct next as [[]|]; set_solver.
  - intros q v k Hq. by apply elem_of_nil in Hq.
  - by left.
  - intros q v Hq%list_elem_of_singleton Hv. subst q. rewrite Ev in Hv.
    apply alter_views_inv in Hv as [(_ & v0 & _ & ->)|[? _]]; done.
  - intros q. cbn. rewrite app_nil_r. unfold pending. destruct next as [[]|]; cbn; set_solver.
  - intros q Hq. cbn in Hq. by apply elem_of_nil in Hq.
Qed.

Lemma Inv_save now p next c : good c (Saving p next) → Inv (go (Removing p next) (persist_quietly stateDir now p c)).
Proof.
  intros Hg. apply (good_seen _ _ _ (seen_persist now p c)) in Hg. apply Inv_go.
  pose proof (good_ok _ _ Hg) as [Hres [Hf Hn]]. eapply good_then; [exact Hg|].
  split; cbn; rewrite ?app_nil_r; try done; try (by destruct next as [[]|]).
  - constructor; [|done]. split; [by destruct next as [[]|]|done].
  - intros q v Hq _ _ _. apply elem_of_app. by left.
  - set_solver.
Qed.

(** [removeJob]: a job that is over leaves the map. *)
Lemma Inv_remove p next c : good c (Removing p next) → Inv (go_on next (removeJob p c)).
Proof.
  intros Hg. pose proof (good_ok _ _ Hg) as [Hres [Hfin Hn]].
  assert (good (removeJob p c) (Removing p next)) as Hg'.
  { destruct Hfin as (v & Hv & Hf). destruct (get_view _ _ _ Hv) as (j & Hj & ->). unfold removeJob. rewrite Hj.
    set (c1 := set_jobs _ c). destruct Hg. unfold good. change (threads c1) with (threads c).
    split; try done.
    - intros k q Hk. apply cs_jobs. cbn in Hk. destruct (bool_decide _); [by apply lookup_delete_Some in Hk as [_ ?]|done].
    - intros q v Hq Hqf. change (views c1) with (views c) in Hq. cbn. case_bool_decide as Hp; [|by eapply cs_live].
      rewrite lookup_delete_ne; [by eapply cs_live|]. intros E.
      pose proof (cs_live q v Hq Hqf) as Hl. rewrite <- E, Hp in Hl. injection Hl as ->.
      rewrite Hv in Hq. injection Hq as <-. unfold is_finished in Hf. congruence. }
  assert (thread_ok (removeJob p c) (Removing p next)) as Hok by by apply good_ok.
  apply (good_go_on _ (Removing p next)); try done; try (by destruct next as [[]|]; unfold pending; cbn; rewrite ?app_nil_r).
  - destruct Hok as [_ [_ ?]]. done.
  - intros q v Hq. by apply elem_of_nil in Hq.
  - intros q v Hq. by apply elem_of_nil in Hq.
Qed.

(** ** A place among the active downloads *)

Lemma good_gate_up c t t' :
  good c t →
  reads t' = reads t → owns_slot t = false → owns_slot t' = true → works t' = works t → pending t' ⊆ pending t →
  finishing t = [] → closing t = [] → finishing t' = [] → cancelling t' = [] →
  thread_ok (set_gate (λ active, active + 1) c) t' → Inv (go t' (set_gate (λ active, active + 1) c)).
Proof.
  intros Hg Hr Ho Ho' Hw Hp Hf Hcl Hf' Hca' Hok. set (c1 := set_gate _ c) in *.
  assert (views c !! fresh_address c = None) as Hnone.
  { apply eq_None_not_Some. rewrite (cs_addresses _ _ Hg). lia. }
  apply Inv_go. apply (act_consistent t [t'] (threads c) c c1 (fresh_address c) id Hg). split; try done.
  - by rewrite alter_absent.
  - by rewrite Hnone.
  - auto.
  - eapply counts_swap; [|apply (cs_active _ _ Hg)]. done.
  - rewrite Hnone. unfold slots_owned. cbn. rewrite Ho, Ho'. cbn. lia.
  - cbn. by rewrite app_nil_r, Hw.
  - by constructor.
  - intros q v Hq _ _ _. apply in_bind_app. left. apply in_bind_cons. left. unfold cares in *. rewrite Hw.
    rewrite Hf, app_nil_r in Hq. apply elem_of_app. by left.
  - rewrite Hf. intros q v k Hq. by apply elem_of_nil in Hq.
  - auto.
  - rewrite Hcl. intros q v Hq. by apply elem_of_nil in Hq.
  - intros q. cbn. rewrite app_nil_r. apply Hp.
  - intros q. cbn. unfold blocks. rewrite Hf', Hca'. intros Hq. by apply elem_of_nil in Hq.
Qed.

Lemma Inv_acquire p ctx c : good c (Acquiring p ctx) → Inv (go (Acquired p ctx) (set_gate (λ active, active + 1) c)).
Proof.
  intros Hg. pose proof (good_ok _ _ Hg) as [_ Hok]. apply (good_gate_up c (Acquiring p ctx)); done.
Qed.

Lemma Inv_not_acquired p ctx c :
  context_done (Some ctx) c = true → good c (Acquiring p ctx) → Inv c.
Proof.
  intros Hdone Hg. pose proof (good_ok _ _ Hg) as [_ (v & Hv & _ & [Hown _])].
  eapply good_drop; [exact Hg|]. follow.
  - intros q w ->%list_elem_of_singleton Hs Hw Hf. rewrite Hv in Hw. injection Hw as <-.
    destruct Hown as [?|Hcan]; [congruence|]. unfold context_done in Hdone. rewrite Hs in Hdone.
    apply bool_decide_eq_true in Hdone. pose proof (cs_cancelled _ _ Hg p v ctx Hv Hf Hcan Hdone) as Hin.
    apply in_bind_cons in Hin as [Hin|Hin]; [by apply elem_of_nil in Hin|].
    apply in_bind in Hin as (t & Ht & Hp). apply in_bind. exists t. split; [done|]. unfold cares. set_solver.
Qed.

Definition slot_view (v : jview) : jview :=
  mkView (v_key v) (v_ident v) (v_finished v) true (v_cancel v) (v_monitoring v) (v_ready v).

Lemma Inv_acquired now p ctx c : good c (Acquired p ctx) → Inv (acquired stateDir now p ctx c).
Proof.
  intros Hg. pose proof (good_ok _ _ Hg) as [_ (v & Hv & [Hslot Hmon] & Hown)].
  destruct (get_view _ _ _ Hv) as (j & Hj & ->). unfold acquired. rewrite Hj.
  pose proof (gate_owned c _ Hg eq_refl) as Hgate.
  destruct (j_finished j) eqn:Ef.
  - assert (views c !! fresh_address c = None) as Hnone.
    { apply eq_None_not_Some. rewrite (cs_addresses _ _ Hg). lia. }
    apply (act_consistent (Acquired p ctx) [] (threads c) c _ (fresh_address c) id Hg). acting.
    + by rewrite alter_absent.
    + apply (cs_active _ _ Hg).
    + rewrite Hnone. cbn. destruct (0 <? gate c) eqn:E; lia.
    + apply submseteq_nil_l.
    + intros q w ->%list_elem_of_singleton _ Hw Hf. change (views (release_gate c)) with (views c) in Hw.
      rewrite Hv in Hw. injection Hw as <-. cbn in Hf. congruence.
  - set (c1 := update p _ c). assert (views c1 = alter slot_view p (views c)) as Ev by by apply views_update.
    apply Inv_go. apply (good_seen c1); [apply seen_persist|].
    apply (act_consistent (Acquired p ctx) [Enqueueing p (Some ctx) 1] (threads c) c c1 p slot_view Hg). acting.
    + intros w Hw. rewrite Hv in Hw. injection Hw as <-. split; cbn; auto; [congruence|left; by left|congruence].
    + eapply counts_swap; [|apply (cs_active _ _ Hg)]. done.
    + rewrite Hv. unfold slots_owned. cbn in *. rewrite Hslot. cbn. lia.
    + constructor; [|done]. split; [done|]. exists (slot_view (view_of j)). split; [by rewrite Ev, lookup_alter_eq, Hv|].
      exact Hown.
Qed.

(** ** Starting the goroutine of a download *)

Definition cancel_view (k : N) (v : jview) : jview :=
  mkView (v_key v) (v_ident v) (v_finished v) (v_slot v) (Some k) (v_monitoring v) (v_ready v).

Lemma views_startEnqueue p c : views (startEnqueue p c) = alter (cancel_view (contexts c)) p (views c).
Proof. by apply (views_update p _ (cancel_view (contexts c)) (set_contexts (stopped c) (cancelled c) (contexts c + 1)%N c)). Qed.

Lemma Inv_startEnqueue c t t' p :
  good c t → has_view c p (λ v, fresh_view v ∧ v_cancel v = None) →
  works t = p :: works t' → reads t' = reads t → owns_slot t = false → owns_slot t' = false →
  finishing t = [] → closing t = [] → blocks t' = [] → pending t' ⊆ pending t →
  thread_ok (startEnqueue p c) t' → Inv (go t' (startEnqueue p c)).
Proof.
  intros Hg (v & Hv & Hfresh & Hnone) Hw Hr Ho Ho' Hf Hcl Hb Hp Hok.
  pose proof (views_startEnqueue p c) as Ev. set (c1 := startEnqueue p c) in *.
  apply Inv_go. apply (act_consistent t [t'; Acquiring p (contexts c)] (threads c) c c1 p (cancel_view (contexts c)) Hg).
  split; try done.
  - intros w Hw'. split; cbn; auto.
    + apply (cs_over _ _ Hg p w Hw').
    + left. rewrite Hw. by left.
    + intros Hfin Hready. pose proof (cs_ready _ _ Hg p w Hw' Hfin Hready) as Hin. cbn in Hin.
      rewrite Hcl in Hin. apply elem_of_app in Hin as [Hin|Hin]; [by apply elem_of_nil in Hin|]. set_solver.
  - cbn. lia.
  - auto.
  - eapply counts_omap; [|apply (cs_active _ _ Hg)]. cbn. by rewrite Hr.
  - rewrite Hv. unfold slots_owned. cbn. rewrite Ho, Ho'. cbn. lia.
  - cbn. rewrite Hw. apply Permutation_submseteq. by rewrite Permutation_app_comm.
  - constructor; [done|]. constructor; [|done]. split; [by apply Forall_nil_2|].
    exists (cancel_view (contexts c) v). split; [by rewrite Ev, lookup_alter_eq, Hv|].
    destruct Hfresh. split; [done|]. split; [by right|done].
  - intros q w Hq _ _ _. unfold cares in Hq. rewrite Hf, app_nil_r, Hw in Hq. cbn. unfold cares. set_solver.
  - rewrite Hf. intros q w k Hq. by apply elem_of_nil in Hq.
  - by left.
  - rewrite Hcl. intros q w Hq. by apply elem_of_nil in Hq.
  - intros q. cbn. unfold pending. cbn. rewrite app_nil_r. apply Hp.
  - intros q. cbn. rewrite Hb. intros Hq. by apply elem_of_nil in Hq.
Qed.

Lemma Inv_start_job now p key reading c :
  good c (NewJob p key reading) → Inv (start_job stateDir now p key reading c).
Proof.
  intros Hg. unfold start_job. destruct (persistJob stateDir now p c) as [[u|e] c1] eqn:Es;
    apply persistJob_seen in Es; apply (good_seen _ _ _ Es) in Hg; clear Es;
    pose proof (good_ok _ _ Hg) as [_ Hok]; cbn in Hok.
  - apply (Inv_startEnqueue c1 (NewJob p key reading)); try done; try (by destruct reading).
    split; [by apply Forall_nil_2|]. eapply has_view_alter; [apply views_startEnqueue|exact Hok|done|done].
  - apply Inv_go. eapply good_then; [exact Hg|]. destruct reading; follow.
Qed.

(** ** The monitor starts *)

Lemma Inv_enqueued p ctx c : good c (Enqueued p ctx) → Inv (enqueued p ctx c).
Proof.
  intros Hg. pose proof (good_ok _ _ Hg) as [_ Hok]. cbn in Hok. destruct ctx as [k|]; cbn.
  2:{ apply Inv_go. eapply good_then; [exact Hg|]. follow. }
  destruct Hok as (v & Hv & Hown & Hmon). destruct (get_view _ _ _ Hv) as (j & Hj & ->).
  set (c1 := update p with_ready c). assert (views c1 = alter ready_view p (views c)) as E1 by by apply views_update.
  unfold startMonitor. change (get p c1) with (alter with_ready p (heap c) !! p). unfold get in Hj.
  rewrite lookup_alter_eq, Hj. cbn in Hmon. cbn [fmap option_fmap option_map].
  change (j_finished (with_ready j)) with (j_finished j). change (j_monitoring (with_ready j)) with (j_monitoring j).
  rewrite Hmon, orb_false_r. destruct (j_finished j) eqn:Ef.
  - apply (act_consistent (Enqueued p (Some k)) [] (threads c) c c1 p ready_view Hg). acting.
    + intros w Hw. split; cbn; auto; [by apply (cs_over _ _ Hg p)|left; by left|done].
    + apply (cs_active _ _ Hg).
    + rewrite Hv. unfold slots_owned. cbn. lia.
    + apply submseteq_nil_l.
    + intros q w ->%list_elem_of_singleton _ Hw Hf. rewrite E1, lookup_alter_eq, Hv in Hw.
      injection Hw as <-. cbn in Hf. congruence.
  - apply Inv_go. set (c2 := update p (with_monitoring true) c1).
    set (f v := mkView (v_key v) (v_ident v) (v_finished v) (v_slot v) (v_cancel v) true true).
    assert (views c2 = alter f p (views c)) as E2.
    { unfold c2. rewrite (views_update p _ (λ v, mkView (v_key v) (v_ident v) (v_finished v) (v_slot v) (v_cancel v) true (v_ready v)))
        by done. by rewrite E1, alter_alter_eq. }
    apply (act_consistent (Enqueued p (Some k)) [Monitoring p (job_batch p c) 0] (threads c) c c2 p f Hg). acting.
    + intros w Hw. split; cbn; auto; [by apply (cs_over _ _ Hg p)|left; by left|done].
    + eapply counts_swap; [|apply (cs_active _ _ Hg)]. done.
    + rewrite Hv. unfold slots_owned. cbn. lia.
    + constructor; [|done]. split; [by apply Forall_nil_2|]. exists (f (view_of j)).
      split; [by rewrite E2, lookup_alter_eq, Hv|done].
Qed.

(** ** Resuming *)

Lemma Inv_resume_job p rest c : good c (Resuming (p :: rest)) → Inv (resume_job p rest c).
Proof.
  intros Hg. pose proof (good_ok _ _ Hg) as [Hres _]. cbn in Hres. apply Forall_cons in Hres as [Hp Hres].
  pose proof Hp as (v & Hv & Hfresh & Hunfin & Hnone). destruct (get_view _ _ _ Hv) as (j & Hj & ->).
  assert (NoDup (p :: rest)) as [Hnotin _]%NoDup_cons.
  { pose proof (cs_unique _ _ Hg) as Hu. cbn in Hu. rewrite app_comm_cons in Hu. by apply NoDup_app in Hu as [? _]. }
  unfold resume_job. rewrite Hj. destruct (bool_decide (job_state j = StateWaiting) && _).
  - apply (Inv_startEnqueue c (Resuming (p :: rest))); try done.
    + by exists (view_of j).
    + unfold pending. cbn. set_solver.
    + split; [|done]. cbn. rewrite Forall_forall in Hres |- *. intros q Hq. destruct (Hres q Hq) as (w & Hw & HP).
      exists w. split; [|done]. rewrite views_startEnqueue, lookup_alter_ne; [done|]. by intros ->.
  - destruct (bool_decide (j_batchID j = "")).
    + apply Inv_go. eapply good_then; [exact Hg|]. split; cbn; rewrite ?app_nil_r; try done; try (by set_solver).
      * by apply submseteq_cons.
      * constructor; [|done]. split; [exact Hres|]. split; [by eapply has_view_anything|done].
      * intros q ->%list_elem_of_singleton. right. unfold pending at 1. cbn. rewrite !elem_of_app.
        intros [?|Hin]; [done|]. refine (good_not_pending c _ p Hg _ Hin). by left.
    + apply (good_gate_up c (Resuming (p :: rest))); try done.
      * unfold pending. cbn. set_solver.
      * split; [exact Hres|]. eapply has_view_weaken; [exact Hp|]. by intros w (? & ? & ?).
Qed.

Lemma Inv_resumed c : good c (Resuming []) → Inv c.
Proof. apply good_Resuming_nil. Qed.

Lemma Inv_resume_monitor p batchID rest c :
  good c (Restored p batchID rest) → Inv (resume_monitor p batchID rest c).
Proof.
  intros Hg. pose proof (good_ok _ _ Hg) as [Hres Hok]. cbn in Hres, Hok.
  destruct Hok as (v & Hv & [Hslot Hmon] & Hunfin). destruct (get_view _ _ _ Hv) as (j & Hj & ->).
  cbn in Hmon, Hunfin, Hslot. unfold resume_monitor, startMonitor.
  change (get p (update p with_slot c)) with (alter with_slot p (heap c) !! p). unfold get in Hj.
  rewrite lookup_alter_eq, Hj. cbn [fmap option_fmap option_map].
  change (j_finished (with_slot j)) with (j_finished j). change (j_monitoring (with_slot j)) with (j_monitoring j).
  rewrite Hmon, Hunfin. cbn [orb]. set (c2 := update p (with_monitoring true) _).
  set (f v := mkView (v_key v) (v_ident v) (v_finished v) true (v_cancel v) true (v_ready v)).
  assert (views c2 = alter f p (views c)) as E2.
  { unfold c2. rewrite (views_update p _ (λ v, mkView (v_key v) (v_ident v) (v_finished v) (v_slot v) (v_cancel v) true (v_ready v)))
      by done. by rewrite (views_update p _ slot_view), alter_alter_eq. }
  assert (NoDup (p :: rest)) as [Hnotin _]%NoDup_cons.
  { pose proof (cs_unique _ _ Hg) as Hu. cbn in Hu. rewrite app_comm_cons in Hu. by apply NoDup_app in Hu as [? _]. }
  apply Inv_go, (runs_core _ c2); [done|].
  apply (act_consistent (Restored p batchID rest) [Resuming rest; Monitoring p batchID 0] (threads c) c c2 p f Hg). acting.
  - intros w Hw. rewrite Hv in Hw. injection Hw as <-. split; cbn; auto; [congruence|left; by left|congruence].
  - eapply counts_omap; [|apply (cs_active _ _ Hg)]. done.
  - rewrite Hv. unfold slots_owned. cbn. rewrite Hslot. cbn. lia.
  - cbn. apply Permutation_submseteq. by rewrite Permutation_app_comm.
  - constructor; [|constructor; [|done]]; split; try done.
    + cbn. rewrite Forall_forall in Hres |- *. intros q Hq. destruct (Hres q Hq) as (w & Hw & HP).
      exists w. split; [|done]. rewrite E2, lookup_alter_ne; [done|]. by intros ->.
    + exists (f (view_of j)). split; [by rewrite E2, lookup_alter_eq, Hv|done].
Qed.

(** ** A job is made *)

Definition idle (t : thread) : Prop :=
  finishing t = [] ∧ closing t = [] ∧ blocks t = [] ∧ pending t = [] ∧ owns_slot t = false.

(** [c'] is [c] with a job of view [v] at the fresh address. *)
Record makes (v : jview) (c c' : coordinator) : Prop := {
  mk_views : views c' = <[fresh_address c := v]> (views c);
  mk_view : fresh_view v ∧ v_cancel v = None;
  mk_ident : ident_ok (v_key v) (v_ident v);
  mk_records : c_records c' = <[download_id (v_key v) := fresh_address c]> (c_records c);
  mk_jobs : if v_finished v then v_ready v = true ∧ c_jobs c' = c_jobs c
            else c_jobs c !! v_key v = None ∧ c_jobs c' = <[v_key v := fresh_address c]> (c_jobs c);
  mk_rest : (c_active c', gate c', stopped c', cancelled c', contexts c') =
            (c_active c, gate c, stopped c, cancelled c, contexts c);
}.

Section makes.
Context (v : jview) (c c' : coordinator) (t t' : thread).
Context (Hm : makes v c c') (Hg : good c t) (Hi : idle t) (Hi' : idle t') (Hw : works t = []).

Lemma fresh_none : views c !! fresh_address c = None.
Proof. apply eq_None_not_Some. rewrite (cs_addresses _ _ Hg). lia. Qed.

Lemma makes_has_view q P : has_view c q P → has_view c' q P.
Proof.
  intros (w & Hq & HP). exists w. split; [|done]. rewrite (mk_views _ _ _ Hm), lookup_insert_ne; [done|].
  intros <-. by rewrite fresh_none in Hq.
Qed.

Lemma makes_lookup q w : views c' !! q = Some w → (q = fresh_address c ∧ w = v) ∨ (q ≠ fresh_address c ∧ views c !! q = Some w).
Proof.
  rewrite (mk_views _ _ _ Hm). intros [[<- <-]|[Hne Hq]]%lookup_insert_Some; [by left|right; by split].
Qed.

Lemma makes_thread_ok t0 : thread_ok c t0 → thread_ok c' t0.
Proof.
  pose proof (mk_rest _ _ _ Hm) as [= Ea _ _ _ _]. intros [Hr Hok].
  assert (∀ next, next_ok c next → next_ok c' next) as Hnext.
  { intros [[]|]; cbn; try done; apply makes_has_view. }
  split; [eapply Forall_impl; [exact Hr|]; intros q; apply makes_has_view|].
  destruct t0; cbn in Hok |- *; try done; try (by apply makes_has_view);
    try (destruct Hok; split; [by apply makes_has_view|by apply Hnext]).
  rewrite Ea. eapply Forall_impl; [exact Hok|]. intros x. apply makes_has_view.
Qed.

Lemma makes_bind (f : thread → list N) q : f t = [] → q ∈ (t :: threads c) ≫= f → q ∈ (t' :: threads c) ≫= f.
Proof. intros Hf. rewrite !in_bind_cons, Hf. intros [Hq|?]; [by apply elem_of_nil in Hq|by right]. Qed.

Lemma fresh_not_worked_for : fresh_address c ∉ threads c ≫= works.
Proof.
  intros (t0 & Ht0 & Hq)%in_bind. pose proof (cs_threads _ _ Hg) as Hts.
  apply Forall_cons in Hts as [_ Hts]. rewrite Forall_forall in Hts. specialize (Hts t0 Ht0).
  assert (has_view c (fresh_address c) anything) as (w & Hin & _); [|by rewrite fresh_none in Hin].
  apply elem_of_app in Hq as [Hq|Hq].
  - destruct Hts as [_ Hts]. destruct t0; try (by apply elem_of_nil in Hq); apply list_elem_of_singleton in Hq; subst;
      cbn in Hts; try destruct ctx; by eapply has_view_anything.
  - destruct Hts as [Hts _]. rewrite Forall_forall in Hts. by eapply has_view_anything, Hts.
Qed.

Lemma makes_consistent :
  (if v_finished v then works t' = [] else works t' = [fresh_address c]) →
  reads t' = reads t → thread_ok c' t' → consistent (t' :: threads c) c'.
Proof.
  intros Hw' Hr Hok. destruct (mk_view _ _ _ Hm) as [[Hslot Hmon] Hcan]. pose proof (mk_jobs _ _ _ Hm) as Hj.
  pose proof (mk_rest _ _ _ Hm) as [= Ea Eg Es Ec Ek]. destruct Hi as (Hf & Hcl & Hb & Hp & Ho), Hi' as (Hf' & Hcl' & Hb' & Hp' & Ho').
  assert (∀ q w k, views c' !! q = Some w → v_cancel w = Some k → q ≠ fresh_address c ∧ views c !! q = Some w) as Hold.
  { intros q w k [[-> ->]|?]%makes_lookup Hk; [congruence|done]. }
  split; rewrite ?Ea, ?Eg, ?Es, ?Ec, ?Ek.
  - intros q. rewrite fresh_address_views, (mk_views _ _ _ Hm), (map_size_insert_None _ _ _ fresh_none), lookup_insert_is_Some.
    rewrite (cs_addresses _ _ Hg), fresh_address_views. destruct (decide (N.of_nat (size (views c)) = q)); lia.
  - intros k q Hq. destruct (v_finished v).
    + destruct Hj as [_ Ej]. rewrite Ej in Hq. by apply makes_has_view, (cs_jobs _ _ Hg).
    + destruct Hj as [_ Ej]. rewrite Ej in Hq. apply lookup_insert_Some in Hq as [[<- <-]|[_ Hq]].
      * exists v. by rewrite (mk_views _ _ _ Hm), lookup_insert_eq.
      * by apply makes_has_view, (cs_jobs _ _ Hg).
  - intros id q. rewrite (mk_records _ _ _ Hm). intros [[<- <-]|[_ Hq]]%lookup_insert_Some.
    + exists v. by rewrite (mk_views _ _ _ Hm), lookup_insert_eq.
    + by apply makes_has_view, (cs_records _ _ Hg).
  - intros q w [[-> ->]|[_ Hq]]%makes_lookup; [apply (mk_ident _ _ _ Hm)|by apply (cs_ident _ _ Hg q)].
  - intros q w [[-> ->]|[Hne Hq]]%makes_lookup Hunf.
    + rewrite Hunf in Hj. destruct Hj as [_ ->]. by rewrite lookup_insert_eq.
    + pose proof (cs_live _ _ Hg q w Hq Hunf) as Hl. destruct (v_finished v); destruct Hj as [Hj ->]; [done|].
      rewrite lookup_insert_ne; [done|]. congruence.
  - intros q w [[-> ->]|[Hne Hq]]%makes_lookup Hfin; [done|by apply (cs_over _ _ Hg q)].
  - intros q w k Hq Hk. destruct (Hold q w k Hq Hk) as [_ Hq']. by apply (cs_contexts _ _ Hg q w).
  - intros q r w u k Hq Hr' Hkw Hku. apply (cs_owner _ _ Hg q r w u k); try done;
      [by eapply (Hold q)|by eapply (Hold r)].
  - apply (cs_bound _ _ Hg).
  - eapply counts_swap; [|apply (cs_active _ _ Hg)]. done.
  - rewrite (mk_views _ _ _ Hm), (slots_held_fresh _ _ _ fresh_none), Hslot, (cs_gate _ _ Hg).
    unfold slots_owned. cbn. rewrite Ho, Ho'. cbn. lia.
  - pose proof (cs_unique _ _ Hg) as Hu. cbn in Hu |- *. rewrite Hw in Hu. destruct (v_finished v); rewrite Hw'; [done|].
    apply NoDup_app. split_and!; [by apply NoDup_singleton| |done]. intros q ->%list_elem_of_singleton Hin.
    by apply fresh_not_worked_for.
  - constructor; [done|]. pose proof (cs_threads _ _ Hg) as Hts. apply Forall_cons in Hts as [_ Hts].
    eapply Forall_impl; [exact Hts|apply makes_thread_ok].
  - intros q w Hs [[-> ->]|[Hne Hq]]%makes_lookup Hunf.
    + rewrite Hunf in Hw'. apply in_bind_cons. left. unfold cares. rewrite Hw'. set_solver.
    + apply makes_bind; [unfold cares; by rewrite Hw, Hf|]. by apply (cs_alive _ _ Hg q w).
  - intros q w k Hq Hunf Hk Hin. destruct (Hold q w k Hq Hk) as [_ Hq']. apply makes_bind; [done|].
    by apply (cs_cancelled _ _ Hg q w k).
  - intros q w [[-> ->]|[Hne Hq]]%makes_lookup Hfin Hready.
    + rewrite Hfin in Hj. destruct Hj. congruence.
    + apply makes_bind; [done|]. by apply (cs_ready _ _ Hg q w).
  - intros q. rewrite !in_bind_cons, Hp', Hb'. intros [Hq|Hq]; [by apply elem_of_nil in Hq|].
    intros [Hq'|Hq']; [by apply elem_of_nil in Hq'|].
    apply (cs_resume _ _ Hg q); apply in_bind_cons; by right.
Qed.
End makes.

Lemma views_insert p j c : views (set_heap <[p := j]> c) = <[p := view_of j]> (views c).
Proof. unfold views. cbn. apply fmap_insert. Qed.

Lemma Inv_ensure now key trackID name remote reading c :
  good c (Ensuring key trackID name remote reading) →
  Inv (ensureDownload downloadsDir incompleteDir now key trackID name remote reading c).
Proof.
  intros Hg. unfold ensureDownload. destruct (c_jobs c !! key) as [p|] eqn:Ek; apply Inv_go.
  - eapply good_then; [exact Hg|]. pose proof (cs_jobs _ _ Hg key p Ek) as Hp. destruct reading; follow.
  - set (j := new_job downloadsDir incompleteDir now key trackID name remote). set (c' := set_records _ _).
    assert (views c' = <[fresh_address c := view_of j]> (views c)) as Ev by apply (views_insert _ j c).
    assert (makes (view_of j) c c') as Hm by (pose proof (good_ok _ _ Hg) as [_ Hok]; by split).
    apply (makes_consistent (view_of j) c c' (Ensuring key trackID name remote reading)); try done; try (by destruct reading).
    split; [by apply Forall_nil_2|]. exists (view_of j). by rewrite Ev, lookup_insert_eq.
Qed.

Lemma Inv_rememberCached now modTime key trackID name remote c :
  key_ok key trackID remote → Inv c → Inv (rememberCached downloadsDir stateDir now modTime key trackID name remote c).
Proof.
  intros Hkey Hi. unfold rememberCached. destruct (c_records c !! download_id key) as [p|] eqn:Er.
  - apply (Inv_seen c); [|done]. rewrite seen_persist. by apply seen_update; intros [].
  - set (j := cached_job downloadsDir modTime key trackID name remote). set (c' := set_records _ _).
    apply (Inv_seen c'); [apply seen_persist|]. apply good_Resuming_nil. apply good_Resuming_nil in Hi.
    assert (makes (view_of j) c c') as Hm by (split; try done; apply (views_insert _ j c)).
    by apply (makes_consistent (view_of j) c c' (Resuming [])).
Qed.

(** ** Reading *)

Lemma Inv_ready p key reading c :
  good c (WaitingReady p key reading) → Inv (if reading then go (Prebuffering p key) c else c).
Proof.
  intros Hg. pose proof (good_ok _ _ Hg) as [_ Hok]. cbn in Hok. destruct reading.
  - apply Inv_go. eapply good_then; [exact Hg|]. follow.
  - eapply good_drop; [exact Hg|]. follow.
Qed.

Lemma Inv_not_ready p key reading c :
  good c (WaitingReady p key reading) → Inv (go_on (giving_back key reading) c).
Proof.
  intros Hg. pose proof (good_ok _ _ Hg) as [_ Hok]. cbn in Hok. destruct reading.
  - apply Inv_go. eapply good_then; [exact Hg|]. follow.
  - eapply good_drop; [exact Hg|]. follow.
Qed.

Lemma Inv_prebuffered p key t c :
  t = Reading key ∨ t = Unread key → good c (Prebuffering p key) → Inv (go t c).
Proof.
  intros Ht Hg. pose proof (good_ok _ _ Hg) as [_ Hok]. cbn in Hok.
  apply Inv_go. eapply good_then; [exact Hg|]. destruct Ht as [-> | ->]; follow.
Qed.

(** The counter changes with the goroutine that reads. *)
Lemma Inv_endRead key t c : t = Reading key ∨ t = Unread key → good c t → Inv (endRead key c).
Proof.
  intros Ht Hg. assert (views c !! fresh_address c = None) as Hnone by by eapply fresh_none.
  apply (act_consistent t [] (threads c) c (endRead key c) (fresh_address c) id Hg).
  assert (reads t = Some key ∧ works t = [] ∧ finishing t = [] ∧ closing t = [] ∧ owns_slot t = false)
    as (Hr & Hw & Hf & Hcl & Ho) by by destruct Ht as [-> | ->].
  split; try done; try (by intros; left); try (by intros ? Hq; apply elem_of_nil in Hq); auto.
  - change (views (endRead key c)) with (views c). by rewrite alter_absent.
  - by rewrite Hnone.
  - apply (counts_down reads t); [done|]. apply (cs_active _ _ Hg).
  - intros k. cbn. destruct (_ <=? 1); destruct (decide (k = key)) as [->|Hne].
    + by rewrite lookup_delete_eq.
    + by rewrite lookup_delete_ne.
    + intros E. pose proof (cs_active _ _ Hg key) as Hc. rewrite count_of_cons, Hr, bool_decide_eq_true_2 in Hc by done. lia.
    + by rewrite lookup_insert_ne.
  - rewrite Hnone, Ho. unfold slots_owned. cbn. lia.
  - rewrite Hw. done.
  - intros q v. unfold cares. rewrite Hw, Hf. intros Hq. by apply elem_of_nil in Hq.
  - rewrite Hf. intros q v k Hq. by apply elem_of_nil in Hq.
  - rewrite Hcl. intros q v Hq. by apply elem_of_nil in Hq.
Qed.

(** A read of a source begins only when nothing is being evicted. *)
Lemma Inv_beginRead key t c :
  Inv c → cache_free c → idle t → works t = [] → reads t = Some key →
  (∀ c', thread_ok c' t) → Inv (go t (beginRead key c)).
Proof.
  intros Hi Hfree (Hf & Hcl & Hb & Hp & Ho) Hw Hr Hany. apply Inv_go. unfold good.
  destruct Hi. unfold cache_free in Hfree. split; try done.
  - apply (counts_up reads t); done.
  - change (gate (beginRead key c)) with (gate c). change (views (beginRead key c)) with (views c).
    rewrite cs_gate. unfold slots_owned, Zsum. cbn. rewrite Ho. cbn. lia.
  - cbn. by rewrite Hw.
  - constructor; [done|]. rewrite Forall_forall in cs_threads, Hfree |- *. intros t0 Ht0.
    pose proof (Hfree t0 Ht0) as He. destruct (cs_threads t0 Ht0) as [? Hok0]. split; [done|]. by destruct t0.
  - intros p v Hs Hv Hunf. apply in_bind_cons. right. by eapply cs_alive.
  - intros p v k Hv Hunf Hk Hin. apply in_bind_cons. right. by eapply cs_cancelled.
  - intros p v Hv Hfin Hready. apply in_bind_cons. right. by eapply cs_ready.
  - intros p. rewrite !in_bind_cons, Hp, Hb. intros [Hq|Hq]; [by apply elem_of_nil in Hq|].
    intros [Hq'|Hq']; [by apply elem_of_nil in Hq'|]. by eapply cs_resume.
Qed.

(** ** Requests *)

Lemma Inv_spawn t c :
  Inv c → works t = [] → reads t = None → owns_slot t = false → pending t = [] → thread_ok c t →
  (∀ q, q ∈ blocks t → q ∉ threads c ≫= pending) → Inv (go t c).
Proof.
  intros Hi%good_Resuming_nil Hw Hr Ho Hp Hok Hb. apply Inv_go. eapply good_then; [exact Hi|].
  split; cbn; rewrite ?Hr, ?Ho, ?Hw, ?Hp, ?app_nil_r; try done.
  - by constructor.
  - intros q v Hq. by apply elem_of_nil in Hq.
  - intros q v k Hq. by apply elem_of_nil in Hq.
  - intros q v Hq. by apply elem_of_nil in Hq.
  - intros q Hq. right. by apply Hb.
Qed.

Lemma serving_pending c q : serving c → q ∉ threads c ≫= pending.
Proof.
  unfold serving. rewrite Forall_forall. intros Hs (t & Ht & Hq)%in_bind. specialize (Hs t Ht). unfold pending in Hq.
  destruct t; cbn in Hs, Hq; try (by apply elem_of_nil in Hq); try done; destruct next as [[]|]; try done; by apply elem_of_nil in Hq.
Qed.

(** What holds before an operation, and after it whatever its result. *)
Definition leads {A} (P : coordinator → Prop) (m : M coordinator A) (Q : coordinator → Prop) : Prop :=
  ∀ c r c', P c → m c = (r, c') → Q c'.

Lemma leads_bind {A B} (m : M coordinator A) (f : A → M coordinator B) P P' (Q : coordinator → Prop) :
  leads P m P' → (∀ c, P' c → Q c) → (∀ a, leads P' (f a) Q) → leads P (mbind f m) Q.
Proof.
  intros Hm Herr Hf c r c' HP. cbn. unfold mbind, M_bind. destruct (m c) as [[a|e] c1] eqn:Em.
  - intros E. eapply Hf; [|exact E]. by eapply Hm.
  - intros [= <- <-]. apply Herr. by eapply Hm.
Qed.

Lemma leads_seen {A} (m : M coordinator A) (P : coordinator → Prop) :
  read_only seen m → (∀ c c', seen c' = seen c → P c → P c') → leads P m P.
Proof. intros Hm HP c r c' Hc E. eapply HP; [|exact Hc]. by eapply Hm. Qed.

Lemma leads_modify (g : coordinator → coordinator) (P Q : coordinator → Prop) :
  (∀ c, P c → Q (g c)) → leads P (modify g) Q.
Proof. intros Hg c r c' Hc [= <- <-]. by apply Hg. Qed.

Definition Inv_free (c : coordinator) : Prop := Inv c ∧ cache_free c.

Lemma Inv_free_seen c c' : seen c' = seen c → Inv_free c → Inv_free c'.
Proof.
  intros E [Hi Hf]. split; [by eapply Inv_seen|]. apply seen_core in E as [_ E]. unfold cache_free. by rewrite E.
Qed.

Lemma rememberCached_threads now modTime key trackID name remote c :
  threads (rememberCached downloadsDir stateDir now modTime key trackID name remote c) = threads c.
Proof.
  unfold rememberCached. destruct (c_records c !! _).
  - apply (seen_core (update n (map_job_download (as_cached (rf_Size remote) now)) c)), seen_persist.
  - transitivity (threads (set_records <[download_id key := fresh_address c]>
      (set_heap <[fresh_address c := cached_job downloadsDir modTime key trackID name remote]> c))); [|done].
    apply seen_core, seen_persist.
Qed.

Lemma Inv_reading t key c :
  t = Reading key ∨ (∃ trackID name remote, t = Ensuring key trackID name remote true ∧ key_ok key trackID remote) →
  Inv_free c → Inv (go t (beginRead key c)).
Proof.
  intros Ht [Hi Hf]. destruct Ht as [-> |(?&?&?& -> &?)]; apply Inv_beginRead; try done;
    intros c'; (split; [by apply Forall_nil_2|done]).
Qed.

Lemma resolve_leads now modTime key trackID remote :
  decodeRemoteFileRef key = Ok remote →
  leads Inv_free (resolve downloadsDir stateDir now modTime key trackID remote) Inv.
Proof.
  intros Hkey. unfold resolve. set (trackID' := if bool_decide _ then _ else _).
  assert (key_ok key trackID' remote) as Hok.
  { split; [|done]. unfold trackID'. case_bool_decide; [apply soulseek_id_not_blank|done]. }
  eapply leads_bind; [apply leads_seen; [apply read_only_try, on_media_seen|apply Inv_free_seen]|by intros c []|].
  intros [contents|e].
  - destruct (negb _); [by intros c r c' [] [= <- <-]|].
    eapply leads_bind; [apply leads_seen; [apply read_only_wrap_err, on_media_seen|apply Inv_free_seen]|by intros c []|].
    intros _. apply (leads_bind _ _ _ Inv_free); [|by intros c []|].
    + apply leads_modify. intros c [Hi Hf]. split; [by apply Inv_rememberCached|].
      unfold cache_free. by rewrite rememberCached_threads.
    + intros _. apply leads_modify. intros c. apply Inv_reading. by left.
  - destruct (errors_Is ErrOsNotExist e); [|by intros c r c' [] [= <- <-]].
    apply leads_modify. intros c. apply Inv_reading. right. eauto 6.
Qed.

Lemma Inv_Resolve now modTime trackID ref c r c' :
  Inv c → cache_free c → Resolve downloadsDir stateDir now modTime trackID ref c = (r, c') → Inv c'.
Proof.
  intros Hi Hf. unfold Resolve. destruct (negb _); [by intros [= <- <-]|]. cbn. unfold mbind, M_bind, lift.
  destruct (decodeRemoteFileRef _) as [remote|e] eqn:Ed; [|by intros [= <- <-]]. by apply resolve_leads.
Qed.

(** [job.cancel()] and the goroutine that finishes the job. *)
Definition cancel_context (j : downloadJob) (c : coordinator) : coordinator :=
  match j_cancel j with
  | Some ctx => set_contexts (stopped c) ({[ctx]} ∪ cancelled c) (contexts c) c
  | None => c
  end.

Lemma Inv_cancel p j st e c :
  Inv c → serving c → get p c = Some j → Inv (go (Finishing p st e None) (cancel_context j c)).
Proof.
  intros Hi Hs Hj. pose proof (view_get _ _ _ Hj) as Hv. apply good_Resuming_nil in Hi as Hg.
  set (c1 := cancel_context j c). assert (views c1 = views c ∧ threads c1 = threads c) as [Ev Et].
  { unfold c1, cancel_context. by destruct (j_cancel j). }
  assert ((c_jobs c1, c_records c1, c_active c1, gate c1, stopped c1, contexts c1) =
          (c_jobs c, c_records c, c_active c, gate c, stopped c, contexts c)) as [= E1 E2 E3 E4 E5 E6].
  { unfold c1, cancel_context. by destruct (j_cancel j). }
  pose proof (fresh_none c _ Hg) as Hnone. apply Inv_go. unfold good. rewrite Et.
  apply (act_consistent (Resuming []) [Finishing p st e None] (threads c) c c1 (fresh_address c) id Hg).
  split; rewrite ?Ev, ?E1, ?E2, ?E3, ?E4, ?E5, ?E6; try done; try (by intros ? ? Hq; apply elem_of_nil in Hq); auto.
  - by rewrite alter_absent.
  - by rewrite Hnone.
  - eapply counts_omap; [|apply (cs_active _ _ Hg)]. done.
  - rewrite Hnone. unfold slots_owned. cbn. lia.
  - constructor; [|done]. split; [by apply Forall_nil_2|]. split; [|done]. exists (view_of j). by rewrite Ev.
  - intros q v k Hq. by apply elem_of_nil in Hq.
  - intros k Hk. unfold c1, cancel_context in Hk. destruct (j_cancel j) as [ctx|] eqn:Ec; [|by left].
    apply elem_of_union in Hk as [->%elem_of_singleton|?]; [|by left]. right.
    split; [by apply (cs_contexts _ _ Hg p (view_of j))|]. intros q v Hq _ Hk.
    rewrite (cs_owner _ _ Hg q p v (view_of j) ctx Hq Hv Hk Ec). set_solver.
  - intros q Hq. right. intros Hp. apply in_bind_cons in Hp as [Hp|Hp]; [by apply elem_of_nil in Hp|].
    by apply (serving_pending c q Hs).
Qed.

Lemma Inv_CancelTrackDownload id c r c' :
  Inv c → serving c → CancelTrackDownload id c = (r, c') → Inv c'.
Proof.
  intros Hi Hs. unfold CancelTrackDownload, gets, throw. cbn. unfold mbind, M_bind.
  destruct (c_records c !! id) as [p|]; [|by intros [= <- <-]].
  destruct (get p c) as [j|] eqn:Hj; [|by intros [= <- <-]].
  destruct (negb _); [by intros [= <- <-]|]. unfold modify. destruct (_ || _); intros [= <- <-].
  - by apply (Inv_cancel p j).
  - apply Inv_spawn; try done.
    + split; [by apply Forall_nil_2|]. exists (view_of j). by rewrite (view_get _ _ _ Hj).
    + intros q _. by apply serving_pending.
Qed.

Lemma Inv_cancel_answered p reply c r c' :
  good c (Cancelling p) → cancel_answered p reply c = (r, c') → Inv c'.
Proof.
  intros Hg. pose proof (good_ok _ _ Hg) as [_ Hok]. cbn in Hok.
  assert (p ∉ threads c ≫= pending) as Hp.
  { intros Hin. apply (cs_resume _ _ Hg p); apply in_bind_cons; [by right|left]. unfold blocks. cbn. set_solver. }
  unfold cancel_answered, modify. cbn. unfold mbind, M_bind, wrap_err, lift.
  destruct reply as [u|e]; intros [= <- <-].
  - apply Inv_go. eapply good_then; [exact Hg|]. follow.
  - eapply good_drop; [exact Hg|]. follow.
Qed.

Lemma Inv_RetryTrackDownload id c r c' : Inv c → RetryTrackDownload id c = (r, c') → Inv c'.
Proof.
  intros Hi. unfold RetryTrackDownload, gets, throw. cbn. unfold mbind, M_bind.
  destruct (c_records c !! id) as [p|]; [|by intros [= <- <-]].
  destruct (get p c) as [j|] eqn:Hj; [|by intros [= <- <-]]. destruct (negb _); [by intros [= <- <-]|].
  unfold modify. intros [= <- <-]. apply Inv_spawn; try done.
  - split; [by apply Forall_nil_2|]. by destruct (cs_ident _ _ Hi p _ (view_get _ _ _ Hj)) as (_ & _ & _ & Hok).
  - intros q Hq. by apply elem_of_nil in Hq.
Qed.

Lemma quiet_download f :
  (∀ d, (dl_ID (f d), dl_Provider (f d), dl_TrackID (f d)) = (dl_ID d, dl_Provider d, dl_TrackID d)) →
  quiet (map_job_download f).
Proof. intros Hf j. unfold view_of, ident_of. cbn. by injection (Hf (j_download j)) as -> -> ->. Qed.

Lemma snapshot_seen now p : read_only seen (snapshot now p).
Proof.
  intros c r c'. unfold snapshot, gets, throw. cbn. unfold mbind, M_bind.
  destruct (get p c) as [j|] eqn:Hj; [|by intros [= <- <-]].
  destruct (bool_decide _); [|by intros [= <- <-]]. unfold try.
  destruct (on_media (os_ReadFile (j_finalPath j)) c) as [info c1] eqn:Em. apply on_media_seen in Em as Es.
  assert (heap c1 = heap c) as Eh.
  { unfold on_media, zoom in Em. destruct (os_ReadFile _ _). by injection Em as <- <-. }
  destruct info as [u|e]; [by intros [= <- <-]|]. destruct (errors_Is ErrOsNotExist e); [|by intros [= <- <-]].
  unfold modify. intros [= <- <-]. rewrite <- Es. apply (seen_put p j); [|by destruct j]. unfold get. by rewrite Eh.
Qed.

Lemma TrackDownloads_seen now e : read_only seen (TrackDownloads stateDir now e).
Proof.
  unfold TrackDownloads. apply read_only_bind; [by go_clean|]. intros records.
  apply read_only_bind; [|by go_clean]. apply read_only_mmap. intros [id p]. unfold list_job.
  destruct e as [e|]; [by go_clean|]. apply read_only_bind; [apply snapshot_seen|]. intros [download changed].
  apply read_only_bind; [|by go_clean]. destruct changed; [apply persistJob_seen|by go_clean].
Qed.

(** ** Evicting *)

Lemma may_evict_view pinned c p q path t :
  may_evict pinned c p = Some (q, path, t) →
  has_view c q (λ v, v_path v = path ∧ default 0 (c_active c !! v_key v) = 0).
Proof.
  unfold may_evict. destruct (get p c) as [j|] eqn:Hj; [|done]. destruct (_ && _ && _) eqn:E; [|done].
  intros [= <- <- <-]. apply andb_true_iff in E as [[_ E]%andb_true_iff _]. exists (view_of j).
  split; [by apply view_get|]. split; [done|]. cbn. lia.
Qed.

Lemma Inv_evict pinned bytes c : Inv c → Inv (evict pinned bytes c).
Proof.
  intros Hi. unfold evict. destruct (bytes <=? 0); [done|]. apply Inv_spawn; try done.
  - split; [by apply Forall_nil_2|]. rewrite Forall_forall. intros x Hx. apply list_elem_of_fmap in Hx as ([[q path] t] & -> & Hin).
    rewrite sort_slice_perm in Hin. apply list_elem_of_omap in Hin as ([k p] & _ & Hm). by eapply may_evict_view.
  - intros q Hq. by apply elem_of_nil in Hq.
Qed.

Lemma markEvicted_seen now p : read_only seen (markEvicted stateDir now p).
Proof.
  unfold markEvicted. apply read_only_bind; [apply read_only_modify; intros c; by apply seen_update, quiet_download|].
  intros _. apply read_only_wrap_err, persistJob_seen.
Qed.

Lemma evict_one_seen now freed p path : read_only seen (evict_one stateDir now freed p path).
Proof.
  unfold evict_one. apply read_only_bind; [apply read_only_try, on_media_seen|]. intros [contents|e].
  - apply read_only_bind; [apply read_only_wrap_err, on_media_seen|]. intros _.
    apply read_only_bind; [apply markEvicted_seen|]. intros _. by go_clean.
  - destruct (errors_Is ErrOsNotExist e); [|by go_clean].
    apply read_only_bind; [apply markEvicted_seen|]. intros _. by go_clean.
Qed.

Lemma good_evicting_drop bytes freed l c : good c (Evicting bytes freed l) → Inv c.
Proof. intros Hg. eapply good_drop; [exact Hg|]. follow. Qed.

Lemma Inv_evict_one now bytes freed p path rest r c c' :
  good c (Evicting bytes freed ((p, path) :: rest)) → evict_one stateDir now freed p path c = (r, c') →
  Inv c' ∧ ∀ freed', Inv (go (Evicting bytes freed' rest) c').
Proof.
  intros Hg E%evict_one_seen. apply (good_seen _ _ _ E) in Hg. split; [by eapply good_evicting_drop|].
  intros freed'. apply Inv_go. pose proof (good_ok _ _ Hg) as [_ Hok]. cbn in Hok. apply Forall_cons in Hok as [_ Hok].
  eapply good_then; [exact Hg|]. follow.
Qed.

(** * Every step *)

Lemma Inv_stop c : Inv c → Inv (set_contexts true (cancelled c) (contexts c) c).
Proof. intros Hi. destruct Hi. split; try done. Qed.

Lemma Inv_request c c' : request_step downloadsDir stateDir c c' → Inv c → Inv c'.
Proof.
  intros [now modTime trackID ref r c1 ? ? E|id r c1 Hs E|id r c1 Hs E|now e r c1 Hs E|pinned bytes Hf|key q Hr| |d] Hi.
  - by eapply Inv_Resolve.
  - by eapply Inv_CancelTrackDownload.
  - by eapply Inv_RetryTrackDownload.
  - eapply Inv_seen; [|exact Hi]. by eapply TrackDownloads_seen.
  - by apply Inv_evict.
  - apply (taken_good _ _ _ Hr) in Hi. eapply Inv_endRead; [|exact Hi]. by left.
  - by apply Inv_stop.
  - by eapply Inv_seen; [|exact Hi].
Qed.

Lemma Inv_caller c c' : caller_step downloadsDir incompleteDir stateDir c c' → Inv c → Inv c'.
Proof.
  intros Hs Hi. destruct Hs as [now key trackID name remote reading q Hr|now p key reading q Hr|p key reading w j q Hr _ _|
    p key reading w j e q Hr _ _|p key bytes sizes w j q Hr _ _|p key bytes sizes w j e q Hr _ _|key q Hr|p reply r q c1 Hr E];
    apply (taken_good _ _ _ Hr) in Hi.
  - by apply Inv_ensure.
  - by apply Inv_start_job.
  - by apply Inv_ready.
  - by eapply Inv_not_ready.
  - eapply Inv_prebuffered; [by left|done].
  - eapply Inv_prebuffered; [by right|done].
  - eapply Inv_endRead; [by right|done].
  - by eapply Inv_cancel_answered.
Qed.

Lemma context_done_running c t q ctx : running c t q → context_done ctx q = context_done ctx c.
Proof. by intros (rest & _ & ->). Qed.

Lemma Inv_enqueue_step c e c' : enqueue_step stateDir MaxActive RetryAttempts c e c' → Inv c → Inv c'.
Proof.
  intros Hs Hi. destruct Hs as [p ctx q Hr _|p ctx q Hr Hd|now p ctx q Hr|now p ctx attempt reply q Hr|
    now p ctx attempt e q Hr|now p ctx attempt q Hr|p ctx attempt e q Hr _|p ctx q Hr]; apply (taken_good _ _ _ Hr) in Hi.
  - by apply Inv_acquire.
  - apply (Inv_not_acquired p ctx); [|done]. by rewrite (context_done_running _ _ _ _ Hr).
  - by apply Inv_acquired.
  - by apply Inv_enqueue_answered.
  - by apply Inv_enqueue_failed.
  - by apply Inv_backoff_over.
  - by eapply Inv_backoff_cancelled.
  - by apply Inv_enqueued.
Qed.

Lemma Inv_completed p c : good c (Completing p) → Inv (go (EndMonitoring p) c).
Proof.
  intros Hg. pose proof (good_ok _ _ Hg) as [_ Hok]. cbn in Hok. apply Inv_go. eapply good_then; [exact Hg|]. follow.
Qed.

Lemma Inv_monitor_step c e c' : monitor_step stateDir RetryAttempts c e c' → Inv c → Inv c'.
Proof.
  intros Hs Hi. destruct Hs as [p batchID errors j q Hr Hj Hf|p batchID errors q Hr Hst|p batchID errors e q Hr|
    now p batchID errors batch q Hr|late p q t q1 Hr E|now p transfer q Hr|p q Hr|p q Hr|now p st e next q Hr|
    p slot next q Hr|now p next q Hr|p next q Hr]; apply (taken_good _ _ _ Hr) in Hi; destruct Hr as (rest & _ & ->).
  - apply Inv_go. eapply good_watch_over; [left; eauto| |exact Hi]. right. exists (view_of j). split; [|done].
    by apply view_get.
  - apply Inv_go. eapply good_watch_over; [left; eauto| |exact Hi]. by left.
  - by apply Inv_poll_failed.
  - by eapply Inv_poll_answered.
  - by eapply Inv_final_file.
  - by apply Inv_transfer_failed.
  - by apply Inv_end_monitoring.
  - by apply Inv_completed.
  - by apply Inv_finish.
  - by apply Inv_close.
  - by apply Inv_save.
  - by apply Inv_remove.
Qed.

Lemma Inv_list_step c e c' : list_step stateDir c e c' → Inv c → Inv c'.
Proof.
  intros Hs Hi. destruct Hs as [p rest q Hr|q Hr|p batchID rest q Hr|now bytes freed p path rest q freed' removed q1 Hr E|
    now bytes freed p path rest q e q1 Hr E|bytes freed q Hr]; apply (taken_good _ _ _ Hr) in Hi.
  - by apply Inv_resume_job.
  - by apply Inv_resumed.
  - by apply Inv_resume_monitor.
  - destruct (Inv_evict_one _ _ _ _ _ _ _ _ _ Hi E) as [H1' H2']. by destruct (removed && _).
  - apply (Inv_evict_one _ _ _ _ _ _ _ _ _ Hi E).
  - by eapply good_evicting_drop.
Qed.

Lemma Inv_step c e c' :
  sstep downloadsDir incompleteDir stateDir MaxActive RetryAttempts c e c' → Inv c → Inv c'.
Proof.
  intros [c1 Hs|c1 Hs|e1 c1 Hs|e1 c1 Hs|e1 c1 Hs].
  - by eapply Inv_request.
  - by eapply Inv_caller.
  - by eapply Inv_enqueue_step.
  - by eapply Inv_monitor_step.
  - by eapply Inv_list_step.
Qed.
End steps.
