(* ===== verification/SoulseekLoad.v ===== *)
(** The Soulseek downloads on disk ([soulseek/persistence.go]): what is saved is
    read back, and a coordinator that starts on the files of an earlier one is
    consistent ([SoulseekRuns]). *)
From stdpp Require Import base gmap strings list.
From Stdlib Require Import ZArith Lia Ascii.
From S2P Require Import Prelude GoStrings Sql Paths Music Services Counting TorrentFiles.
From S2P Require Import GoHash SoulseekRefs SoulseekClient SoulseekJobs SoulseekRuns SoulseekSteps.

Open Scope Z_scope.

#[local] Arguments views : simpl never.

Section load.
Context `{Runtime} `{RemoteJSON} `{Unicode}.
Context (downloadsDir incompleteDir : string) (state : list string) (Hstate : Forall proper state).

Notation stateDir := (abs_path state).
Notation entry_path := (Paths.entry_path state).
(** * What is on disk *)

(** Every record is in the file named after its download. *)
Definition own_files (entries : list string) (files : gmap string (res persistedDownloadJob)) : Prop :=
  ∀ name record, name ∈ entries → Ext name = ".json" → files !! entry_path name = Some (Ok record) →
    dl_ID (p_Download record) = download_id (p_Key record) →
    entry_path name = recordPath stateDir (download_id (p_Key record)).

Lemma write_record_files record d r d' :
  write_record stateDir record d = (r, d') →
  let path := recordPath stateDir (dl_ID (p_Download record)) in
  tables d' = tables d ∨ tables d' = <[path +:+ ".tmp" := Ok record]> (tables d) ∨
  r = Ok tt ∧ tables d' = <[path := Ok record]> (delete (path +:+ ".tmp") (<[path +:+ ".tmp" := Ok record]> (tables d))).
Proof.
  unfold write_record. cbn. set (path := recordPath _ _). set (tmp := path +:+ ".tmp").
  unfold mbind, M_bind, wrap_err. destruct (os_WriteFile tmp (Ok record) d) as [[u|e] d1] eqn:E1.
  - apply ExecContext_Ok in E1. destruct (os_Rename tmp path d1) as [[u'|e'] d2] eqn:E2.
    + apply statement_Ok in E2. rewrite E1, lookup_insert_eq in E2. injection E2 as _ E2.
      intros [= <- <-]. right. right. by destruct u'.
    + apply statement_clean in E2. intros [= <- <-]. right. left. congruence.
  - apply ExecContext_clean in E1. intros [= <- <-]. left. congruence.
Qed.

Lemma write_record_own entries record d r d' :
  Forall proper entries → dl_ID (p_Download record) = download_id (p_Key record) →
  own_files entries (tables d) → write_record stateDir record d = (r, d') → own_files entries (tables d').
Proof.
  intros Hp Hid Ho Hw name rec Hn He Hf Hrec. rewrite Forall_forall in Hp.
  assert (entry_path name ≠ recordPath stateDir (dl_ID (p_Download record)) +:+ ".tmp") as Hne.
  { apply (entry_not_temporary _ Hstate); [by apply Hp|done]. }
  apply write_record_files in Hw as [E|[E|[_ E]]]; rewrite E in Hf.
  - by apply (Ho name rec).
  - rewrite lookup_insert_ne in Hf by done. by apply (Ho name rec).
  - apply lookup_insert_Some in Hf as [[E1 [= <-]]|[_ Hf]]; [by rewrite <- E1, Hid|].
    rewrite lookup_delete_ne, lookup_insert_ne in Hf by done. by apply (Ho name rec).
Qed.

(** What [readPersistedJob] accepts. *)
Definition record_ok (record : persistedDownloadJob) : Prop :=
  dl_ID (p_Download record) = download_id (p_Key record) ∧ dl_Provider (p_Download record) = soulseek_Name ∧
  dl_TrackID (p_Download record) = p_TrackID record ∧ TrimSpace (p_TrackID record) ≠ "" ∧
  remote_ok (p_Remote record) = true ∧ TrimSpace (p_Key record) ≠ "" ∧
  decodeRemoteFileRef (p_Key record) = Ok (p_Remote record).

Lemma readPersistedJob_inv path d record d' :
  readPersistedJob path d = (Ok record, d') →
  tables d' = tables d ∧ tables d !! path = Some (Ok record) ∧ record_ok record.
Proof.
  unfold readPersistedJob. intros E. apply bind_Ok_inv in E as (contents & d1 & E1 & E).
  apply wrap_err_Ok_inv, statement_Ok in E1. destruct (tables d !! path) as [c0|] eqn:Ef; [|done].
  injection E1 as <- Et. apply bind_Ok_inv in E as (rec & d2 & E2 & E).
  apply wrap_err_Ok_inv, lift_Ok_inv in E2 as [-> ->].
  destruct (negb _ || _ || _ || _ || _ || _) eqn:Eb; [done|].
  destruct (decodeRemoteFileRef (p_Key rec)) as [decoded|e] eqn:Ed; [|done].
  case_bool_decide as Er; [|done]. apply ret_Ok_inv in E as [-> ->]. split_and!; [done|done|].
  rewrite !orb_false_iff in Eb. destruct Eb as (((((B1&B2)&B3)&B4)&B5)&B6).
  apply negb_false_iff, bool_decide_eq_true in B1, B2, B3. apply bool_decide_eq_false in B4, B6.
  apply negb_false_iff in B5. unfold record_ok. rewrite Ed, Er. done.
Qed.

Lemma readPersistedJob_reads path d record :
  faults d = [] → tables d !! path = Some (Ok record) → record_ok record →
  readPersistedJob path d = (Ok record, d).
Proof.
  intros Hf Hp (B1 & B2 & B3 & B4 & B5 & B6 & B7). unfold readPersistedJob. cbn. unfold mbind, M_bind, wrap_err, os_ReadFile, statement, lift.
  rewrite Hf, Hp. cbn. rewrite B1, B2, B3, B5, B7. rewrite !bool_decide_eq_true_2 by done.
  rewrite !bool_decide_eq_false_2 by done. cbn. rewrite bool_decide_eq_true_2 by done. destruct d as [t f]. cbn in *. by subst.
Qed.

(** * Jobs made from records *)

Lemma restoreJob_view info record job :
  restoreJob downloadsDir incompleteDir info record = Ok job →
  v_key (view_of job) = p_Key record ∧
  v_ident (view_of job) = ident_of (loaded_job downloadsDir incompleteDir record) ∧
  fresh_view (view_of job) ∧ v_cancel (view_of job) = None ∧ (v_finished (view_of job) = true → v_ready (view_of job) = true).
Proof.
  unfold restoreJob. intros E. repeat case_match; try done; injection E as <-; cbn; split_and!; try done.
Qed.

(** * Loading *)

(** The coordinator after the entries [done] of the directory. *)
Record loaded (done : list string) (c : coordinator) : Prop := {
  ld_threads : threads c = [];
  ld_rest : (c_active c, gate c, stopped c, cancelled c, contexts c) = (∅, 0, false, ∅, 0%N);
  ld_addresses p : is_Some (views c !! p) ↔ (p < fresh_address c)%N;
  ld_views p v : views c !! p = Some v →
    fresh_view v ∧ v_cancel v = None ∧ (v_finished v = true → v_ready v = true) ∧ ident_ok (v_key v) (v_ident v);
  ld_jobs k p : c_jobs c !! k = Some p → has_view c p (λ v, v_key v = k ∧ v_finished v = false);
  ld_records id p : c_records c !! id = Some p → has_view c p (λ v, id = download_id (v_key v));
  ld_live p v : views c !! p = Some v → v_finished v = false → c_jobs c !! v_key v = Some p;
  ld_known k : is_Some (c_jobs c !! k) → is_Some (c_records c !! download_id k);
  ld_done id : is_Some (c_records c !! id) → ∃ name, name ∈ done ∧ entry_path name = recordPath stateDir id;
}.

Lemma loaded_seen done c c' : seen c' = seen c → loaded done c → loaded done c'.
Proof.
  intros [Ec Et]%seen_core Hl. injection Ec as E1 E2 E3 E4 E5 E6 E7 E8. destruct Hl.
  split; unfold has_view; rewrite ?fresh_address_views, ?Et, ?E1, ?E2, ?E3, ?E4, ?E5, ?E6, ?E7, ?E8; try done.
  intros p. rewrite <- fresh_address_views. apply ld_addresses0.
Qed.

Lemma loaded_more done name c : loaded done c → loaded (name :: done) c.
Proof.
  intros Hl. destruct Hl. split; try done. intros id Hid. destruct (ld_done0 id Hid) as (n & Hn & E).
  exists n. split; [by right|done].
Qed.

(** A record whose file was not among them makes a new job. *)
Lemma loaded_insert done name c job :
  loaded done c → Forall proper (name :: done) → name ∉ done →
  entry_path name = recordPath stateDir (download_id (j_key job)) →
  fresh_view (view_of job) → v_cancel (view_of job) = None →
  (j_finished job = true → j_ready job = true) → ident_ok (j_key job) (ident_of job) →
  let p := fresh_address c in
  let c1 := set_records <[download_id (j_key job) := p]> (set_heap <[p := job]> c) in
  loaded (name :: done) (if j_finished job then c1 else set_jobs <[j_key job := p]> c1).
Proof.
  intros Hl Hp Hnew Hpath Hfresh Hcan Hready Hid p c1. destruct Hl.
  assert (c_records c !! download_id (j_key job) = None) as Hnone.
  { apply eq_None_not_Some. intros (m & Hm & E)%ld_done0. rewrite <- Hpath in E. rewrite Forall_forall in Hp.
    apply (entry_path_inj _ Hstate) in E; [by subst| |]; apply Hp; [by right|by left]. }
  assert (c_jobs c !! j_key job = None) as Hnojob.
  { apply eq_None_not_Some. intros [x Hx]%ld_known0. by rewrite Hnone in Hx. }
  assert (views c !! p = None) as Hfree.
  { apply eq_None_not_Some. rewrite ld_addresses0. unfold p. lia. }
  set (c2 := if j_finished job then c1 else set_jobs <[j_key job := p]> c1).
  assert (views c2 = <[p := view_of job]> (views c)) as Ev.
  { transitivity (views (set_heap <[p := job]> c)); [unfold c2; by destruct (j_finished job)|apply views_insert]. }
  assert (c_records c2 = <[download_id (j_key job) := p]> (c_records c)) as Er by (unfold c2; by destruct (j_finished job)).
  assert (∀ q P, has_view c q P → has_view c2 q P) as Hold.
  { intros q P (v & Hv & HP). exists v. rewrite Ev, lookup_insert_ne; [done|]. intros <-. by rewrite Hfree in Hv. }
  assert (has_view c2 p (λ v, v = view_of job)) as Hnewv by (exists (view_of job); by rewrite Ev, lookup_insert_eq).
  split.
  - unfold c2. by destruct (j_finished job).
  - unfold c2. by destruct (j_finished job).
  - intros q. rewrite fresh_address_views, Ev, (map_size_insert_None _ _ _ Hfree), lookup_insert_is_Some, ld_addresses0.
    rewrite fresh_address_views. unfold p. rewrite fresh_address_views. destruct (decide (N.of_nat (size (views c)) = q)); lia.
  - intros q v. rewrite Ev. intros [[<- <-]|[_ Hv]]%lookup_insert_Some; [by split_and!|by apply (ld_views0 q)].
  - intros k q Hk. unfold c2 in Hk. destruct (j_finished job) eqn:Ef; [by apply Hold, ld_jobs0|].
    cbn in Hk. apply lookup_insert_Some in Hk as [[<- <-]|[_ Hk]]; [|by apply Hold, ld_jobs0].
    eapply has_view_weaken; [exact Hnewv|]. by intros v ->.
  - intros id q. rewrite Er. intros [[<- <-]|[_ Hv]]%lookup_insert_Some; [|by apply Hold, ld_records0].
    eapply has_view_weaken; [exact Hnewv|]. by intros v ->.
  - intros q v. rewrite Ev. intros [[<- <-]|[Hne Hv]]%lookup_insert_Some Hf.
    + unfold c2. cbn in Hf. rewrite Hf. cbn. by rewrite lookup_insert_eq.
    + pose proof (ld_live0 q v Hv Hf) as Hj. unfold c2. destruct (j_finished job); [done|]. cbn.
      rewrite lookup_insert_ne; [done|]. congruence.
  - intros k Hk. rewrite Er. apply lookup_insert_is_Some'. unfold c2 in Hk.
    destruct (j_finished job); [right; by apply ld_known0|]. cbn in Hk.
    apply lookup_insert_is_Some' in Hk as [<-|Hk]; [by left|right; by apply ld_known0].
  - intros id. rewrite Er. intros [<-|Hid']%lookup_insert_is_Some'; [exists name; split; [by left|done]|].
    destruct (ld_done0 id Hid') as (n & Hn & E). exists n. split; [by right|done].
Qed.

Lemma on_state_core {A} (m : M job_files A) c r c' :
  on_state m c = (r, c') →
  seen c' = seen c ∧ heap c' = heap c ∧ ∃ d, m (state_dir c) = (r, d) ∧ state_dir c' = d.
Proof. unfold on_state, zoom. destruct (m (state_dir c)) as [r0 d]. intros [= <- <-]. split_and!; eauto. Qed.

Lemma persistJob_files now p c r c' entries :
  (∀ q v, views c !! q = Some v → ident_ok (v_key v) (v_ident v)) → Forall proper entries →
  own_files entries (tables (state_dir c)) → persistJob stateDir now p c = (r, c') →
  own_files entries (tables (state_dir c')).
Proof.
  intros Hid Hp Ho. unfold persistJob. destruct (get p c) as [j|] eqn:Hj; [|by intros [= <- <-]].
  destruct (on_state _ c) as [[u|e] c1] eqn:E; apply on_state_core in E as (_ & _ & d & Ew & <-); intros [= <- <-];
    eapply (write_record_own entries); try done; destruct (Hid p _ (view_get _ _ _ Hj)) as (E & _); exact E.
Qed.

Lemma os_ReadFile_tables {A} path : read_only tables (@os_ReadFile A path).
Proof.
  intros d r d' E. destruct r as [a|e]; [|by eapply statement_clean].
  apply statement_Ok in E. destruct (tables d !! path); [|done]. by injection E as _ ->.
Qed.

Lemma readPersistedJob_tables path : read_only tables (readPersistedJob path).
Proof.
  unfold readPersistedJob. apply read_only_bind; [apply read_only_wrap_err, os_ReadFile_tables|]. intros contents.
  apply read_only_bind; [by go_clean|]. intros record. destruct (_ || _); [by go_clean|].
  destruct (decodeRemoteFileRef _); [destruct (bool_decide _)|]; by go_clean.
Qed.

Lemma load_entry_loaded now name done c :
  loaded done c → Forall proper (name :: done) → name ∉ done →
  (Ext name = ".json" → ∀ record, tables (state_dir c) !! entry_path name = Some (Ok record) →
     dl_ID (p_Download record) = download_id (p_Key record) →
     entry_path name = recordPath stateDir (download_id (p_Key record))) →
  let c' := load_entry downloadsDir incompleteDir stateDir now name c in
  loaded (name :: done) c' ∧
  ∀ entries, Forall proper entries → own_files entries (tables (state_dir c)) →
    own_files entries (tables (state_dir c')).
Proof.
  intros Hl Hp Hnew Hown. unfold load_entry. case_bool_decide as He; cbn [negb]; [|split; [by apply loaded_more|done]].
  specialize (Hown He). fold (entry_path name).
  destruct (on_state (readPersistedJob (entry_path name)) c) as [[record|e] c1] eqn:E1;
    apply on_state_core in E1 as (Es & Eh & d & Er & Ed); pose proof (readPersistedJob_tables _ _ _ _ Er) as Et;
    apply (loaded_seen _ _ _ Es) in Hl.
  2:{ cbv zeta. split; [|intros entries; cbn; by rewrite Ed, Et].
      apply loaded_more. by apply (loaded_seen done c1). }
  apply readPersistedJob_inv in Er as (_ & Ef & Hid & Hprov & Htrack & Hblank & _ & _ & Hdec).
  specialize (Hown record Ef Hid). rewrite <- Et, <- Ed. clear Es Eh Et Ed Ef.
  destruct (try _ c1) as [info c2] eqn:E2. unfold try in E2.
  destruct (on_media _ c1) as [r2 c2'] eqn:Em. injection E2 as <- <-.
  assert (seen c2' = seen c1 ∧ state_dir c2' = state_dir c1) as [Es2 Esd].
  { unfold on_media, zoom in Em. destruct (os_ReadFile _ _). by injection Em as <- <-. }
  apply (loaded_seen _ _ _ Es2) in Hl. rewrite <- Esd. clear Es2 Esd Em.
  set (info := match r2 with Ok contents => _ | Err e => _ end).
  destruct (restoreJob downloadsDir incompleteDir info record) as [job|e] eqn:Ej.
  2:{ split; [|done]. apply loaded_more. by apply (loaded_seen done c2'). }
  apply restoreJob_view in Ej as (Ek & Ei & Hfresh & Hcan & Hready). cbn in Ek, Ei, Hready, Hcan.
  set (c3 := set_records _ _). set (c4 := if j_finished job then c3 else _).
  assert (loaded (name :: done) c4) as Hl4.
  { unfold c4, c3. rewrite Hid, <- Ek. apply loaded_insert; try done; [by rewrite Ek|].
    rewrite Ek, Ei. unfold ident_ok. cbn. done. }
  assert (∀ q v, views c4 !! q = Some v → ident_ok (v_key v) (v_ident v)) as Hids.
  { intros q v Hv. by destruct (ld_views _ _ Hl4 q v Hv) as (_ & _ & _ & ?). }
  assert (state_dir c4 = state_dir c2') as Esd by (unfold c4, c3; by destruct (j_finished job)).
  destruct (persistJob stateDir now (fresh_address c2') c4) as [[u|e] c5] eqn:Ep;
    (split; [|intros entries Hpe Ho; rewrite <- Esd in Ho; by eapply persistJob_files in Ep]);
    apply persistJob_seen in Ep; by apply (loaded_seen _ c4).
Qed.

Lemma load_all_loaded now entries done c :
  loaded done c → Forall proper (entries ++ done) → NoDup (entries ++ done) → own_files entries (tables (state_dir c)) →
  let c' := fold_left (λ c name, load_entry downloadsDir incompleteDir stateDir now name c) entries c in
  loaded (rev entries ++ done) c' ∧
  ∀ names, Forall proper names → own_files names (tables (state_dir c)) → own_files names (tables (state_dir c')).
Proof.
  revert done c. induction entries as [|name entries IH]; intros seen c Hl Hp Hnd Ho; [by split|]. cbn [fold_left rev].
  cbn in Hp, Hnd. apply Forall_cons in Hp as [Hn Hp]. apply NoDup_cons in Hnd as [Hnot Hnd].
  rewrite not_elem_of_app in Hnot. destruct Hnot as [Hnot1 Hnot2]. apply Forall_app in Hp as [Hpe Hpd].
  destruct (load_entry_loaded now name seen c) as [Hl' Ho']; try done.
  - by constructor.
  - intros He record Hf Hid. apply (Ho name record); [by left|done..].
  - rewrite <- app_assoc. refine ((λ X, conj (proj1 X) (λ names Hns Hon, proj2 X names Hns (Ho' names Hns Hon)))
      (IH (name :: seen) _ Hl' _ _ _)).
    + apply Forall_app. split; [done|by constructor].
    + rewrite <- Permutation_middle. constructor; [|done]. by rewrite not_elem_of_app.
    + apply Ho'; [done|]. intros n record Hn'. apply (Ho n record). by right.
Qed.

(** * [resume] after loading *)

Lemma slots_held_none m : (∀ p v, m !! p = Some v → v_slot v = false) → slots_held m = 0.
Proof.
  intros Hs. unfold slots_held. apply Zsum_zero, Forall_map, Forall_forall. intros [p v] Hin.
  apply elem_of_map_to_list in Hin. cbn. by rewrite (Hs p v Hin).
Qed.

Lemma resume_Inv done c : loaded done c → Inv (resume c).
Proof.
  intros Hl. destruct Hl. injection ld_rest0 as E1 E2 E3 E4 E5. apply Inv_go. unfold good. rewrite ld_threads0.
  set (l := map snd (map_range (c_jobs c))).
  assert (∀ p, p ∈ l ↔ ∃ k, c_jobs c !! k = Some p) as Hin.
  { intros p. unfold l. rewrite list_elem_of_fmap. setoid_rewrite map_range_perm. split.
    - intros ([k q] & -> & Hk). exists k. by apply elem_of_map_to_list.
    - intros [k Hk]. exists (k, p). split; [done|]. by apply elem_of_map_to_list. }
  assert (NoDup l) as Hnd.
  { unfold l. rewrite map_range_perm. apply NoDup_fmap_2_strong; [|apply NoDup_map_to_list].
    intros [k p] [k' p'] Hk Hk' E. cbn in E. subst p'. apply elem_of_map_to_list in Hk, Hk'.
    apply ld_jobs0 in Hk as (v & Hv & <- & _). apply ld_jobs0 in Hk' as (v' & Hv' & <- & _). congruence. }
  split; rewrite ?E1, ?E2, ?E3, ?E4, ?E5; try done.
  - intros k p Hk. eapply has_view_weaken; [by apply ld_jobs0|]. by intros v [].
  - intros p v Hv. by destruct (ld_views0 p v Hv) as (_ & _ & _ & ?).
  - intros p v Hv _. by destruct (ld_views0 p v Hv) as ([? _] & _).
  - intros p v k Hv. destruct (ld_views0 p v Hv) as (_ & -> & _). done.
  - intros p q v w k Hv. destruct (ld_views0 p v Hv) as (_ & -> & _). done.
  - rewrite slots_held_none; [done|]. intros p v Hv. by destruct (ld_views0 p v Hv) as ([? _] & _).
  - cbn. by rewrite app_nil_r.
  - constructor; [|done]. split; [|done]. apply Forall_forall. intros p [k Hk]%Hin.
    destruct (ld_jobs0 k p Hk) as (v & Hv & _ & Hf). exists v. destruct (ld_views0 p v Hv) as (? & ? & _). done.
  - intros p v _ Hv Hf. apply in_bind_cons. left. unfold cares, works. cbn. rewrite app_nil_r. apply Hin.
    eexists. by apply ld_live0.
  - intros p v Hv Hf Hr. destruct (ld_views0 p v Hv) as (_ & _ & Hok & _). by rewrite Hok in Hr.
  - intros p _ Hb. apply in_bind_cons in Hb as [Hb|Hb]; by apply elem_of_nil in Hb.
Qed.

Definition started (d : job_files) (files : disk) : coordinator := mkCoordinator ∅ ∅ ∅ ∅ 0 false ∅ 0 [] d files [].

Lemma started_loaded (d : job_files) files : loaded [] (started d files).
Proof.
  split; try done.
  - intros p. unfold fresh_address. cbn. split; [by intros [v Hv]|]. rewrite map_size_empty. lia.
  - intros id. by intros [x Hx].
Qed.

Lemma new_loaded now entries (d : job_files) files :
  Forall proper entries → NoDup entries → own_files entries (tables d) →
  loaded (rev entries) (newDownloadCoordinator downloadsDir incompleteDir stateDir now entries d files).
Proof.
  intros Hp Hnd Ho. unfold newDownloadCoordinator. fold (started d files).
  rewrite <- (app_nil_r (rev entries)). apply load_all_loaded; rewrite ?app_nil_r; try done. apply started_loaded.
Qed.

Lemma started_Inv now entries (d : job_files) files :
  Forall proper entries → NoDup entries → own_files entries (tables d) →
  Inv (resume (newDownloadCoordinator downloadsDir incompleteDir stateDir now entries d files)).
Proof. intros Hp Hnd Ho. by eapply resume_Inv, new_loaded. Qed.

(** * What was saved is read back *)

Lemma decode_remote_ok key remote : decodeRemoteFileRef key = Ok remote → remote_ok remote = true.
Proof.
  unfold decodeRemoteFileRef. destruct (RawURLDecode key) as [bs|e]; [|done].
  destruct (Unmarshal_remote bs) as [r|e]; [|done]. destruct (remote_ok (trimmed r)) eqn:E; [|done]. by intros [= <-].
Qed.

Lemma persisted_job_read now p c c' j :
  Inv c → get p c = Some j → TrimSpace (j_key j) ≠ "" → faults (state_dir c') = [] →
  persistJob stateDir now p c = (Ok tt, c') →
  readPersistedJob (recordPath stateDir (download_id (j_key j))) (state_dir c') = (Ok (persisted j), state_dir c').
Proof.
  intros Hi Hj Hk Hf Hp. destruct (cs_ident _ _ Hi p _ (view_get _ _ _ Hj)) as (E1 & E2 & E3 & E4 & E5). cbn in *.
  unfold persistJob in Hp. rewrite Hj in Hp. destruct (on_state _ c) as [[u|e] c1] eqn:Eo; [|done].
  apply on_state_core in Eo as (_ & _ & d & Ew & Ed). injection Hp as <-. cbn [state_dir update set_heap] in *.
  apply readPersistedJob_reads; [done| |].
  - unfold write_record in Ew. apply bind_Ok_inv in Ew as (u1 & d1 & E & Ew).
    apply wrap_err_Ok_inv, ExecContext_Ok in E. apply wrap_err_Ok_inv, statement_Ok in Ew.
    rewrite E, lookup_insert_eq in Ew. injection Ew as _ Ew. rewrite Ed, <- Ew. cbn. rewrite E1. apply lookup_insert_eq.
  - unfold record_ok. cbn. split_and!; try done. by eapply decode_remote_ok.
Qed.

End load.
