(* ===== verification/SoulseekRestart.v ===== *)
(** A restart of the Soulseek downloads ([newDownloadCoordinator], [loadRecords]
    and [resume]): what an earlier coordinator saved are the downloads of the
    next one. *)
From stdpp Require Import base gmap strings list.
From Stdlib Require Import ZArith Lia Ascii.
From S2P Require Import Prelude GoStrings Sql Paths Music Services Counting TorrentFiles GoHash SoulseekRefs SoulseekClient SoulseekJobs SoulseekRuns SoulseekSteps SoulseekLoad.

Open Scope Z_scope.

#[local] Arguments views : simpl never.

Section restart.
Context `{Runtime} `{RemoteJSON} `{Unicode}.
Context (downloadsDir incompleteDir : string) (state : list string) (Hstate : Forall proper state).

Notation stateDir := (abs_path state).
Notation entry_path := (Paths.entry_path state).

(** What is found where a finished download is kept. *)
Definition found (files : disk) (path : string) : res Z :=
  match (os_ReadFile path files).1 with
  | Ok contents => Ok (Z.of_nat (length contents))
  | Err e => Err e
  end.

Lemma os_ReadFile_steady {A} path (d : database (gmap string A)) :
  faults d = [] → os_ReadFile path d = ((os_ReadFile path d).1, d).
Proof.
  intros Hf. unfold os_ReadFile, statement. destruct d as [t fs]. cbn in *. subst fs. by destruct (t !! path).
Qed.

Lemma write_record_working record d : faults d = [] →
  ∃ d', write_record stateDir record d = (Ok tt, d') ∧ faults d' = [].
Proof.
  intros Hf. unfold write_record, mbind, M_bind, wrap_err, os_WriteFile, os_Rename, ExecContext, statement.
  destruct d as [t fs]. cbn in *. subst fs. cbn. rewrite lookup_insert_eq. eexists. by split.
Qed.

(** A save leaves the files of other downloads alone. *)
Lemma persistJob_others now p c r c' j path :
  get p c = Some j → path ≠ recordPath stateDir (dl_ID (j_download j)) → (∀ q, path ≠ q +:+ ".tmp") →
  persistJob stateDir now p c = (r, c') →
  tables (state_dir c') !! path = tables (state_dir c) !! path ∧
  (heap c' = heap c ∨ heap c' = alter (with_lastPersist now) p (heap c)) ∧
  (c_records c', c_jobs c', media c') = (c_records c, c_jobs c, media c) ∧
  (faults (state_dir c) = [] → faults (state_dir c') = []).
Proof.
  intros Hj Hne Htmp. unfold persistJob. rewrite Hj. destruct (on_state _ c) as [r1 c1] eqn:E.
  assert (tables (state_dir c1) !! path = tables (state_dir c) !! path ∧ heap c1 = heap c ∧
    (c_records c1, c_jobs c1, media c1) = (c_records c, c_jobs c, media c) ∧
    (faults (state_dir c) = [] → faults (state_dir c1) = [])) as (X1 & X2 & X3 & X4).
  { unfold on_state, zoom in E. destruct (write_record _ _ _) as [r2 d] eqn:Ew. injection E as <- <-. split_and!; try done.
    - cbn [state_dir set_state_dir]. specialize (Htmp (recordPath stateDir (dl_ID (j_download j)))).
      apply write_record_files in Ew as [E|[E|[_ E]]]; rewrite E; cbn [persisted p_Download] in *.
      + done.
      + by rewrite lookup_insert_ne.
      + by rewrite lookup_insert_ne, lookup_delete_ne, lookup_insert_ne.
    - intros Hf. destruct (write_record_working (persisted j) _ Hf) as (d' & E & Hf').
      rewrite Ew in E. by injection E as _ ->. }
  destruct r1 as [u|e]; intros [= _ <-]; cbn [update set_heap heap state_dir c_records c_jobs media]; split_and!; try done;
    rewrite X2; [by right|by left].
Qed.

Lemma persistJob_saves now p c j :
  get p c = Some j → faults (state_dir c) = [] →
  ∃ c', persistJob stateDir now p c = (Ok tt, c') ∧ get p c' = Some (with_lastPersist now j) ∧
    tables (state_dir c') !! recordPath stateDir (dl_ID (j_download j)) = Some (Ok (persisted j)) ∧
    (c_records c', c_jobs c', media c') = (c_records c, c_jobs c, media c) ∧ faults (state_dir c') = [].
Proof.
  intros Hj Hf. destruct (write_record_working (persisted j) _ Hf) as (d' & E & Hf').
  unfold persistJob. rewrite Hj. unfold on_state, zoom. rewrite E. eexists. split; [done|]. split_and!; try done.
  - unfold get in *. cbn. rewrite lookup_alter_eq, Hj. done.
  - cbn [update set_heap state_dir set_state_dir].
    unfold write_record in E. apply bind_Ok_inv in E as (u1 & d1 & E & Ew).
    apply wrap_err_Ok_inv, ExecContext_Ok in E. apply wrap_err_Ok_inv, statement_Ok in Ew.
    rewrite E, lookup_insert_eq in Ew. injection Ew as Ew. rewrite <- Ew. apply lookup_insert_eq.
Qed.

Definition working (files : disk) (c : coordinator) : Prop := faults (state_dir c) = [] ∧ faults files = [] ∧ media c = files.

(** Reading the entry of a saved download makes its job. *)
Lemma load_entry_hit now name record job files c :
  working files c → Ext name = ".json" → tables (state_dir c) !! entry_path name = Some (Ok record) → record_ok record →
  entry_path name = recordPath stateDir (dl_ID (p_Download record)) →
  restoreJob downloadsDir incompleteDir (found files (j_finalPath (loaded_job downloadsDir incompleteDir record))) record = Ok job →
  let c' := load_entry downloadsDir incompleteDir stateDir now name c in
  working files c' ∧ ∃ p, get p c' = Some (with_lastPersist now job) ∧ c_records c' !! dl_ID (p_Download record) = Some p ∧
    (j_finished job = false → c_jobs c' !! p_Key record = Some p) ∧
    tables (state_dir c') !! entry_path name = Some (Ok (persisted job)).
Proof.
  intros (Hf & Hg & Hm) He Ht Hok Hpath Hjob c'.
  assert (load_entry downloadsDir incompleteDir stateDir now name c = c') as E by done. clearbody c'. revert E. unfold load_entry. rewrite bool_decide_eq_true_2 by done. cbn [negb].
  fold (entry_path name). unfold on_state at 1, zoom at 1. rewrite (readPersistedJob_reads _ _ _ Hf Ht Hok).
  unfold try, on_media, zoom. cbn [media set_state_dir]. rewrite Hm, (os_ReadFile_steady _ files Hg). cbv zeta.
  match goal with |- context [restoreJob downloadsDir incompleteDir ?i record] =>
    replace i with (found files (j_finalPath (loaded_job downloadsDir incompleteDir record)))
      by (unfold found; by destruct (os_ReadFile _ files).1)
  end. rewrite Hjob.
  set (c1 := set_media files (set_state_dir (state_dir c) c)). set (p := fresh_address c1).
  set (c2 := set_records _ _). set (c3 := if j_finished job then c2 else _).
  assert (get p c3 = Some job) as Hget.
  { transitivity (get p c2); [unfold c3; by destruct (j_finished job)|]. unfold get. cbn. apply lookup_insert_eq. }
  assert (state_dir c3 = state_dir c) as Hs3 by (unfold c3; by destruct (j_finished job)).
  assert (dl_ID (j_download job) = dl_ID (p_Download record)) as Hid.
  { revert Hjob. unfold restoreJob. intros E. repeat case_match; try done; injection E as <-; done. }
  destruct (persistJob_saves now p c3 job Hget ltac:(by rewrite Hs3)) as (c4 & -> & Hp & Hsaved & Hsame & Hf').
  intros <-. injection Hsame as Hr Hj Hmedia. split.
  - split_and!; [done|done|]. rewrite Hmedia. unfold c3. by destruct (j_finished job).
  - exists p. split_and!; [done| | |].
    + rewrite Hr. unfold c3. destruct (j_finished job); cbn; apply lookup_insert_eq.
    + rewrite Hj. unfold c3. intros ->. cbn. apply lookup_insert_eq.
    + by rewrite Hpath, <- Hid.
Qed.

Lemma readPersistedJob_steady path d : faults d = [] → (readPersistedJob path d).2 = d.
Proof.
  intros Hf. unfold readPersistedJob, mbind, M_bind, wrap_err. rewrite os_ReadFile_steady by done.
  destruct (os_ReadFile path d).1 as [[record|e]|e]; cbn; [|done..].
  destruct (_ || _); [done|]. destruct (decodeRemoteFileRef _); [|done]. by destruct (bool_decide _).
Qed.

Lemma loaded_fresh names c p j : loaded state names c → get p c = Some j → p ≠ fresh_address c.
Proof. intros Hl Hj%view_get. pose proof (proj1 (ld_addresses _ _ _ Hl p) (mk_is_Some _ _ Hj)). lia. Qed.

(** What the entries of other downloads leave alone. *)
Record kept (name : string) (c c' : coordinator) : Prop := {
  kp_file : tables (state_dir c') !! entry_path name = tables (state_dir c) !! entry_path name;
  kp_working files : working files c → working files c';
  kp_job q j : get q c = Some j → get q c' = Some j;
  kp_record id q : entry_path name = recordPath stateDir id → c_records c !! id = Some q → c_records c' !! id = Some q;
  kp_key k q : entry_path name = recordPath stateDir (download_id k) → c_jobs c !! k = Some q → c_jobs c' !! k = Some q;
}.

Lemma load_entry_others now name other names c :
  loaded state names c → proper name → proper other → Ext name = ".json" → other ≠ name →
  (Ext other = ".json" → ∀ record, tables (state_dir c) !! entry_path other = Some (Ok record) →
     dl_ID (p_Download record) = download_id (p_Key record) →
     entry_path other = recordPath stateDir (download_id (p_Key record))) →
  kept name c (load_entry downloadsDir incompleteDir stateDir now other c).
Proof.
  intros Hl Hpn Hpo He Hne Hown.
  assert (entry_path other ≠ entry_path name) as Hpath by (intros X; by apply (entry_path_inj _ Hstate) in X).
  unfold load_entry. case_bool_decide as Heo; cbn [negb]; [|by split]. specialize (Hown Heo).
  fold (entry_path other). unfold on_state, zoom. destruct (readPersistedJob (entry_path other) (state_dir c)) as [r1 d] eqn:E1.
  pose proof (readPersistedJob_tables _ _ _ _ E1) as Et.
  assert (faults (state_dir c) = [] → d = state_dir c) as Hd.
  { intros Hf. pose proof (readPersistedJob_steady (entry_path other) _ Hf) as X. by rewrite E1 in X. }
  destruct r1 as [record|e].
  2: { split; try done. - cbn. by rewrite Et. - intros files (Hf & Hg & Hm). by rewrite (Hd Hf). }
  apply readPersistedJob_inv in E1 as (_ & Ef & Hid & _). specialize (Hown record Ef Hid).
  unfold try, on_media, zoom. cbn [media set_state_dir]. destruct (os_ReadFile _ (media c)) as [r2 m] eqn:Em.
  set (c2 := set_media m _). set (info := match r2 with Ok _ => _ | Err _ => _ end).
  assert (∀ files, working files c → working files c2) as Hw.
  { intros files (Hf & Hg & Hm). unfold c2. rewrite (Hd Hf). split_and!; [done..|]. cbn.
    rewrite Hm, os_ReadFile_steady in Em by done. congruence. }
  destruct (restoreJob _ _ _ record) as [job|e] eqn:Ej; [|split; try done; cbn; by rewrite Et].
  assert (dl_ID (j_download job) = download_id (p_Key record)) as Hidj.
  { rewrite <- Hid. revert Ej. unfold restoreJob. intros E. repeat case_match; try done; by injection E as <-. }
  set (p := fresh_address c2). set (c3 := set_records _ _). set (c4 := if j_finished job then c3 else _).
  assert (get p c4 = Some job ∧ state_dir c4 = d ∧ media c4 = m ∧ heap c4 = <[p := job]> (heap c) ∧
    c_records c4 = <[dl_ID (p_Download record) := p]> (c_records c) ∧
    (c_jobs c4 = c_jobs c ∨ c_jobs c4 = <[p_Key record := p]> (c_jobs c))) as (Hget & Hs4 & Hm4 & Hh4 & Hr4 & Hj4).
  { unfold c4, c3. destruct (j_finished job); split_and!; try done; try (by left); try (by right);
      unfold get; cbn; apply lookup_insert_eq. }
  destruct (persistJob stateDir now p c4) as [r5 c5] eqn:Ep.
  apply (persistJob_others now p c4 r5 c5 job (entry_path name)) in Ep as (Hfile & Hheap & Hsame & Hf5);
    [|done|by rewrite Hidj, <- Hown|by intros q; apply (entry_not_temporary _ Hstate)].
  injection Hsame as Hr5 Hj5 Hm5. rewrite Hs4 in *.
  assert (kept name c c5) as Hk.
  { split.
    - by rewrite Hfile, Et.
    - intros files Hwf. destruct (Hw files Hwf) as (Hf & Hg & Hm). split_and!; [by apply Hf5|done|by rewrite Hm5, Hm4].
    - intros q j Hq. pose proof (loaded_fresh _ _ _ _ Hl Hq) as Hqp. unfold get in *.
      assert (heap c4 !! q = Some j) as Hq4 by (rewrite Hh4, lookup_insert_ne; [done|]; intros X; apply Hqp; symmetry; exact X).
      destruct Hheap as [-> | ->]; [done|]. rewrite lookup_alter_ne; [done|]. intros X. apply Hqp; symmetry; exact X.
    - intros id q Hpid Hq. rewrite Hr5, Hr4, lookup_insert_ne; [done|]. intros <-. rewrite Hid, <- Hown in Hpid. congruence.
    - intros k q Hpk Hq. rewrite Hj5. destruct Hj4 as [-> | ->]; [done|]. rewrite lookup_insert_ne; [done|].
      intros <-. rewrite <- Hown in Hpk. congruence. }
  destruct r5; [done|]. destruct Hk. by split.
Qed.
Lemma kept_trans name c1 c2 c3 : kept name c1 c2 → kept name c2 c3 → kept name c1 c3.
Proof. intros [] []. split; [congruence|auto..]. Qed.

Lemma load_all_others now name entries names c :
  loaded state names c → proper name → Ext name = ".json" → Forall proper (entries ++ names) → NoDup (entries ++ names) →
  name ∉ entries → own_files state entries (tables (state_dir c)) →
  kept name c (fold_left (λ c name, load_entry downloadsDir incompleteDir stateDir now name c) entries c).
Proof.
  intros Hl Hn He. revert names c Hl. induction entries as [|other entries IH]; intros names c Hl Hp Hnd Hin Ho; [by split|].
  cbn in Hp, Hnd. pose proof Hp as Hp0. apply Forall_cons in Hp as [Hpo Hp]. apply NoDup_cons in Hnd as [Hnot Hnd].
  apply not_elem_of_cons in Hin as [Hne Hin]. apply Forall_app in Hp as [Hpe Hpd]. cbn [fold_left].
  rewrite not_elem_of_app in Hnot. destruct Hnot as [Hnot1 Hnot2].
  destruct (load_entry_loaded downloadsDir incompleteDir state Hstate now other names c) as [Hl' Ho']; try done.
  { by constructor. }
  { intros Heo record Hf Hid. apply (Ho other record); [by left|done..]. }
  eapply kept_trans; [apply (load_entry_others now name other names c); try done|apply (IH (other :: names)); try done].
  - intros Heo record Hf Hid. apply (Ho other record); [by left|done..].
  - apply Forall_app. split; [done|by constructor].
  - rewrite <- Permutation_middle. constructor; [|done]. by rewrite not_elem_of_app.
  - apply Ho'; [done|]. intros n record Hn'. apply (Ho n record). by right.
Qed.

(** Every saved download of the directory is a download of the new coordinator. *)
Lemma restarted_job now d files entries name record job :
  Forall proper entries → NoDup entries → own_files state entries (tables d) → faults d = [] → faults files = [] →
  name ∈ entries → Ext name = ".json" → tables d !! entry_path name = Some (Ok record) → record_ok record →
  restoreJob downloadsDir incompleteDir (found files (j_finalPath (loaded_job downloadsDir incompleteDir record))) record = Ok job →
  let c := newDownloadCoordinator downloadsDir incompleteDir stateDir now entries d files in
  working files c ∧ ∃ q, get q c = Some (with_lastPersist now job) ∧ c_records c !! download_id (p_Key record) = Some q ∧
    (j_finished job = false → c_jobs c !! p_Key record = Some q) ∧
    tables (state_dir c) !! entry_path name = Some (Ok (persisted job)).
Proof.
  intros Hp Hnd Ho Hf Hg Hin He Ht Hok Hjob. unfold newDownloadCoordinator. fold (started d files).
  pose proof (started_loaded state d files) as Hl0. assert (working files (started d files)) as Hw0 by done.
  assert (entry_path name = recordPath stateDir (download_id (p_Key record))) as Hpath by (apply (Ho name record); [done..|apply Hok]).
  apply list_elem_of_split in Hin as (before & after & ->). rewrite fold_left_app. cbn [fold_left].
  apply NoDup_app in Hnd as (Hnd1 & Hdis & [Hna Hnd2]%NoDup_cons). apply Forall_app in Hp as [Hp1 [Hpn Hp2]%Forall_cons].
  assert (name ∉ before) as Hnb by (intros Hb; eapply Hdis; [done|by left]).
  set (c0 := started d files) in *. set (load := λ c name, load_entry _ _ _ now name c).
  assert (own_files state before (tables (state_dir c0))) as Ho1 by (intros n r Hn; apply Ho, elem_of_app; by left).
  assert (own_files state (name :: after) (tables (state_dir c0))) as Ho2 by (intros n r Hn; apply Ho, elem_of_app; by right).
  destruct (load_all_others now name before [] c0) as [Kf Kw _ _ _]; rewrite ?app_nil_r; try done.
  destruct (load_all_loaded downloadsDir incompleteDir state Hstate now before [] c0) as [Hl1 Hown1]; rewrite ?app_nil_r; try done.
  fold load in Kf, Kw, Hl1, Hown1. set (c1 := fold_left load before c0) in *. rewrite app_nil_r in Hl1.
  specialize (Hown1 (name :: after) ltac:(by constructor) Ho2).
  assert (tables (state_dir c1) !! entry_path name = Some (Ok record)) as Ht1 by (rewrite Kf; exact Ht).
  destruct (load_entry_hit now name record job files c1) as (Hw2 & q & Hq & Hr & Hj & Hs); try done; [by apply Kw| |].
  { destruct Hok as [-> _]. done. }
  destruct (load_entry_loaded downloadsDir incompleteDir state Hstate now name (rev before) c1) as [Hl2 Hown2]; try done.
  { constructor; [done|]. by apply List.Forall_rev. }
  { intros Hb. by apply list_elem_of_In, in_rev, list_elem_of_In in Hb. }
  { intros Hext r. apply (Hown1 name r); [by left|done]. }
  destruct (load_all_others now name after (name :: rev before) (load c1 name)) as [Kf' Kw' Kq Kr Kj]; try done.
  { apply Forall_app. split; [done|]. constructor; [done|]. by apply List.Forall_rev. }
  { apply NoDup_app. split_and!; [done| |].
    - intros x Hx [->|Hb]%elem_of_cons; [done|]. apply list_elem_of_In, in_rev, list_elem_of_In in Hb.
      eapply Hdis; [done|by right].
    - constructor; [by rewrite list_elem_of_In, <- in_rev, <- list_elem_of_In|]. by apply NoDup_ListNoDup, NoDup_rev, NoDup_ListNoDup. }
  { intros n r Hn. exact (Hown2 (name :: after) ltac:(by constructor) Hown1 n r ltac:(by right)). }
  fold load in Kf', Kw', Kq, Kr, Kj. destruct Hok as (Hid & _). rewrite Hid in Hr. cbv zeta. split; [by apply Kw'|].
  exists q. split_and!; [by apply Kq|by apply Kr| |etrans; [exact Kf'|exact Hs]].
  intros Hjf. apply Kj; [done|]. by apply Hj.
Qed.
(** What [restoreJob] makes of a saved job. *)
Lemma restoreJob_saved info j job :
  restoreJob downloadsDir incompleteDir info (persisted j) = Ok job →
  (j_key job, j_trackID job, j_remote job, j_batchID job, j_transferID job, j_retryCount job) =
    (j_key j, j_trackID j, j_remote j, j_batchID j, j_transferID j, j_retryCount j) ∧
  (∀ size, info = Ok size → job_state job = if size =? rf_Size (j_remote j) then StateCached else StateEvicted) ∧
  (j_finished job = false ↔ (∃ e, info = Err e) ∧
     (job_state j = StateWaiting ∧ j_batchID j = "" ∨
      (job_state j = StateQueued ∨ job_state j = StateDownloading) ∧ j_batchID j ≠ "" ∧ j_transferID j ≠ "")) ∧
  (j_finished job = false → j_download job = j_download j).
Proof.
  unfold restoreJob. cbn [persisted p_Download p_Remote p_BatchID p_TransferID].
  change (dl_State (j_download j)) with (job_state j). destruct info as [size|e].
  - destruct (size =? rf_Size (j_remote j)) eqn:Es; cbn [negb]; intros [= <-]; (split; [done|]);
      (split; [intros ? [= <-]; by rewrite Es|split; [|done]]); split; [done|by intros [[? ?] _]|done|by intros [[? ?] _]].
  - destruct (errors_Is ErrOsNotExist e); cbn [negb]; [|done]. assert (∃ e', @Err Z e = Err e') as He by eauto.
    destruct (bool_decide (job_state j = StateWaiting)) eqn:Ew;
      [apply bool_decide_eq_true in Ew; rewrite Ew|apply bool_decide_eq_false in Ew];
      destruct (bool_decide (j_batchID j = "")) eqn:Eb; [apply bool_decide_eq_true in Eb|apply bool_decide_eq_false in Eb|
        apply bool_decide_eq_true in Eb|apply bool_decide_eq_false in Eb]; cbn [andb orb];
      repeat case_bool_decide; cbn [orb]; intros [= <-]; split_and!; try done; cbn; naive_solver.
Qed.

Lemma restoreJob_record_ok info record job :
  record_ok record → restoreJob downloadsDir incompleteDir info record = Ok job → record_ok (persisted job).
Proof.
  intros (B1 & B2 & B3 & B4 & B5 & B6 & B7). unfold restoreJob. intros E. repeat case_match; try done; injection E as <-; by split_and!.
Qed.

(** An unfinished download that was restored is taken up where it was left. *)
Lemma resume_restored q rest c job :
  get q c = Some job → (job_state job = StateWaiting ∧ j_batchID job = "" ∨ job_state job ≠ StateWaiting ∧ j_batchID job ≠ "") →
  resume_job q rest c =
    if bool_decide (job_state job = StateWaiting) then go (Resuming rest) (startEnqueue q c)
    else go (Restored q (j_batchID job) rest) (set_gate (λ active, active + 1) c).
Proof.
  intros Hq Hj. unfold resume_job. rewrite Hq. destruct Hj as [[-> ->]|[Hs Hb]]; [by rewrite !bool_decide_eq_true_2|].
  by rewrite !bool_decide_eq_false_2.
Qed.

End restart.

(** * A concrete restart *)

#[local] Existing Instances stable_runtime ascii_unicode toy_json.

Definition saved_record : persistedDownloadJob :=
  mkPersisted (mkDownload (download_id "YQ") soulseek_Name "peer" "t" "a.mp3" StateWaiting 0 3 "" 0 0)
    "YQ" "t" (mkRemote "peer" "a.mp3" 3) "" "" 0.
Definition saved_name : string := download_id "YQ" +:+ ".json".
Definition saved_dir : database (gmap string (res persistedDownloadJob)) :=
  mkDatabase {["/s/" +:+ saved_name := Ok saved_record]} [].
Definition no_media : database (gmap string bytes) := mkDatabase ∅ [].
Definition first_run : coordinator := resume (newDownloadCoordinator "/d" "/i" "/s" 0 [saved_name] saved_dir no_media).
Definition saved_job : downloadJob := with_lastPersist 0 (loaded_job "/d" "/i" saved_record).
Definition second_run : coordinator :=
  newDownloadCoordinator "/d" "/i" "/s" 7 [saved_name] (state_dir (persistJob "/s" 5 0 first_run).2) no_media.

Lemma saved_name_proper : Forall proper [saved_name].
Proof.
  constructor; [|done].
  assert (bool_decide (saved_name ≠ "" ∧ saved_name ≠ "." ∧ lacks slash saved_name ∧ saved_name ≠ "..") = true) as Hb
    by (vm_compute; reflexivity).
  apply bool_decide_eq_true in Hb. by repeat split; apply Hb.
Qed.

Lemma state_proper : Forall proper ["s"].
Proof. constructor; [|done]. by repeat split; compute_done. Qed.

Lemma saved_own (d : database (gmap string (res persistedDownloadJob))) :
  p_Key <$> (tables d !! ("/s/" +:+ saved_name) ≫= λ r, match r with Ok record => Some record | Err _ => None end) = Some "YQ" →
  own_files ["s"] [saved_name] (tables d).
Proof.
  intros Hk n record ->%list_elem_of_singleton _ Hf _.
  change (entry_path ["s"] saved_name) with ("/s/" +:+ saved_name) in *. rewrite Hf in Hk. injection Hk as ->. reflexivity.
Qed.

