(* ===== verification/SoulseekTheorems.v ===== *)
(** What holds of the Soulseek download coordinator whatever way its goroutines
    interleave, from the start on ([SoulseekRuns], [SoulseekSteps],
    [SoulseekLoad]). *)
From stdpp Require Import base gmap strings list.
From Stdlib Require Import ZArith Lia Ascii.
From S2P Require Import Prelude GoStrings Sql Paths Music Services Counting TorrentFiles.
From S2P Require Import SoulseekRefs SoulseekClient SoulseekJobs SoulseekRuns SoulseekSteps SoulseekLoad.

Open Scope Z_scope.

#[local] Arguments views : simpl never.

Section reached.
Context `{Runtime} `{RemoteJSON} `{Unicode}.
Context (downloadsDir incompleteDir stateDir : string) (MaxActive RetryAttempts : Z).

(** What happened on the way from [c0], the last event first. *)
Inductive reached (c0 : coordinator) : list event → coordinator → Prop :=
  | reached_start : reached c0 [] c0
  | reached_step es c e c' :
      reached c0 es c → sstep downloadsDir incompleteDir stateDir MaxActive RetryAttempts c e c' →
      reached c0 (e :: es) c'.

Lemma reached_Inv c0 es c : Inv c0 → reached c0 es c → Inv c.
Proof. intros H0' Hr. induction Hr as [|es c e c' _ IH Hs]; [done|]. by eapply Inv_step. Qed.

Lemma Inv_job c p j : get p c = Some j → views c !! p = Some (view_of j).
Proof. apply view_get. Qed.

(** ** What a goroutine can do next *)

Definition own_step (c : coordinator) (e : event) (c' : coordinator) : Prop :=
  (caller_step downloadsDir incompleteDir stateDir c c' ∧ e = Internal) ∨
  enqueue_step stateDir MaxActive RetryAttempts c e c' ∨ monitor_step stateDir RetryAttempts c e c' ∨
  list_step stateDir c e c'.

Definition can_step (c : coordinator) : Prop := ∃ e c', own_step c e c'.

Lemma running_takes c t : t ∈ threads c → ∃ q, running c t q.
Proof. intros [rest Hp]%elem_of_Permutation. by exists (set_threads rest c), rest. Qed.

Lemma caller_can c c' : caller_step downloadsDir incompleteDir stateDir c c' → can_step c.
Proof. intros Hs. exists Internal, c'. by left. Qed.
Lemma enqueue_can c e c' : enqueue_step stateDir MaxActive RetryAttempts c e c' → can_step c.
Proof. intros Hs. exists e, c'. right. by left. Qed.
Lemma monitor_can c e c' : monitor_step stateDir RetryAttempts c e c' → can_step c.
Proof. intros Hs. exists e, c'. right. right. by left. Qed.
Lemma list_can c e c' : list_step stateDir c e c' → can_step c.
Proof. intros Hs. exists e, c'. right. right. by right. Qed.

Lemma final_file_answers late p c : ∃ t c', final_file late p c = (Ok t, c').
Proof.
  unfold final_file, gets, try. cbn. unfold mbind, M_bind. destruct (on_media _ c) as [r c1].
  destruct r as [u|e]; [by eexists _, _|]. destruct (negb _); [by eexists _, _|]. destruct late; by eexists _, _.
Qed.

(** A goroutine that carries on, finishes or closes a job is never stuck, but
    for the one that waits for its turn. *)
Lemma busy_can_step c t :
  t ∈ threads c → (∃ p, p ∈ cares t ∨ p ∈ closing t) → (∀ p ctx, t ≠ Acquiring p ctx) → can_step c.
Proof.
  intros Ht [p Hp] Hna. destruct (running_takes c t Ht) as [q Hq].
  destruct t; try (by eapply enqueue_can; econstructor); try (by eapply monitor_can; econstructor);
    try (by eapply caller_can; econstructor); try (by unfold cares in Hp; cbn in Hp; set_solver).
  - destruct (final_file_answers false p0 q) as (t & c1 & E). eapply monitor_can. by eapply step_final.
  - destruct ps as [|x ps]; eapply list_can; [by eapply step_resumed|by eapply step_resume].
  - eapply list_can. by eapply step_restored.
  Unshelve. all: first [exact 0|exact (Plain "")|exact (Ok None)|exact (Ok (Some tt))|exact (mkBatch "" [])].
Qed.

Lemma Zsum_positive {A} (f : A → bool) l : 0 < Zsum (map (λ x, b2z (f x)) l) → ∃ x, x ∈ l ∧ f x = true.
Proof.
  induction l as [|x l IH]; cbn; [lia|]. destruct (f x) eqn:E; [intros _; exists x; split; [by left|done]|].
  cbn. intros (y & Hy & Hf)%IH. exists y. split; [by right|done].
Qed.

Lemma Zsum_count {A} (f : A → bool) l : Zsum (map (λ x, b2z (f x)) l) = Z.of_nat (length (List.filter f l)).
Proof. 
  induction l as [|x l IH]; [done|].
  change (b2z (f x) + Zsum (map (λ x, b2z (f x)) l) = Z.of_nat (length (List.filter f (x :: l)))).
  rewrite IH. cbn. destruct (f x); cbn; lia.
Qed.

Lemma Inv_alive c p j :
  Inv c → stopped c = false → get p c = Some j → j_finished j = false → ∃ t, t ∈ threads c ∧ p ∈ cares t.
Proof. intros Hi Hs Hj Hf. apply in_bind. by apply (cs_alive _ _ Hi p (view_of j)); [|apply view_get|]. Qed.

(** Who has a place among the active downloads is not waiting for one. *)
Lemma slot_holder_can_step c : Inv c → stopped c = false → 0 < gate c → can_step c.
Proof.
  intros Hi Hs Hg. rewrite (cs_gate _ _ Hi) in Hg.
  assert (0 < slots_held (views c) ∨ 0 < slots_owned (threads c)) as [Hheld|Hown] by lia.
  - apply Zsum_positive in Hheld as ([q v] & Hq & Hslot). apply elem_of_map_to_list in Hq. cbn in Hslot.
    assert (v_finished v = false) as Hf.
    { destruct (v_finished v) eqn:E; [|done]. pose proof (cs_over _ _ Hi q v Hq E). congruence. }
    pose proof (cs_alive _ _ Hi q v Hs Hq Hf) as (t & Ht & Hc)%in_bind.
    apply (busy_can_step c t Ht); [by exists q; left|]. intros p ctx ->.
    apply list_elem_of_singleton in Hc. subst q. pose proof (cs_threads _ _ Hi) as Hts. rewrite Forall_forall in Hts.
    destruct (Hts _ Ht) as [_ (w & Hw & [Hws _] & _)]. congruence.
  - apply Zsum_positive in Hown as (t & Ht & Ho). apply (busy_can_step c t Ht); [|by intros p ctx ->].
    destruct t; try done; cbn in Ho |- *.
    + exists p. left. by left.
    + exists p. right. by left.
    + exists p. left. by left.
Qed.

(** ** Evicting *)

Lemma evicting_unread c t bytes freed p path rest q :
  Inv c → running c (Evicting bytes freed ((p, path) :: rest)) q →
  t ∈ threads c → ∃ j, get p c = Some j ∧ j_finalPath j = path ∧ reads t ≠ Some (j_key j).
Proof.
  intros Hi (l & Hp & _) Ht. pose proof (cs_threads _ _ Hi) as Hts. rewrite Forall_forall in Hts.
  destruct (Hts (Evicting bytes freed ((p, path) :: rest))) as [_ Hok]; [rewrite Hp; by left|]. cbn in Hok.
  apply Forall_cons in Hok as [(v & Hv & Hpath & Hactive) _]. destruct (get_view _ _ _ Hv) as (j & Hj & ->).
  exists j. split_and!; [done|done|]. intros Hr. pose proof (cs_active _ _ Hi (j_key j)) as Hc.
  cbn in Hactive. rewrite Hactive in Hc. unfold count_of in Hc.
  assert (t ∈ List.filter (λ t, bool_decide (reads t = Some (j_key j))) (threads c)) as Hin.
  { apply elem_of_filter_bool. split; [done|]. by apply bool_decide_eq_true. }
  destruct (List.filter _ _); [by apply elem_of_nil in Hin|done].
Qed.

(** ** The limit on active downloads

    [resume] takes a place for every transfer it restores without asking the
    gate; everybody else asks. *)

Definition weight (t : thread) : Z := Z.of_nat (length (to_resume t)).
Definition weights (ts : list thread) : Z := Zsum (map weight ts).

Definition room (n : Z) (c : coordinator) : Prop :=
  gate c + weights (threads c) ≤ Z.max 0 MaxActive + n ∧ weights (threads c) ≤ n.

(** [c'] comes from [c], where the goroutine [t] was taken from the list, with
    no more places taken and no more to resume. *)
Definition calm (t : thread) (c c' : coordinator) : Prop :=
  gate c' ≤ gate c ∧ weights (threads c') ≤ weight t + weights (threads c).

Lemma weights_cons t ts : weights (t :: ts) = weight t + weights ts.
Proof. done. Qed.

Lemma weight_nonneg t : 0 ≤ weight t.
Proof. unfold weight. lia. Qed.

Lemma room_taken n c t q : running c t q → room n c → gate q + weight t + weights (threads q) ≤ Z.max 0 MaxActive + n ∧ weight t + weights (threads q) ≤ n.
Proof.
  intros (rest & Hp & ->). unfold room, weights. cbn. rewrite Hp. cbn. lia.
Qed.

Lemma calm_room n c t q c' : running c t q → calm t q c' → room n c → room n c'.
Proof. intros Hq [H1' H2'] Hr. apply (room_taken _ _ _ _ Hq) in Hr. unfold room. lia. Qed.

Lemma calm_seen c c1 t c' : seen c1 = seen c → calm t c1 c' → calm t c c'.
Proof. intros [[= _ _ _ _ Eg _ _ _] Et]%seen_core [H1' H2']. split; [by rewrite <- Eg|by rewrite <- Et]. Qed.

Lemma seen_still c c' : seen c' = seen c → gate c' = gate c ∧ threads c' = threads c.
Proof. by intros [[= _ _ _ _ Eg _ _ _] Et]%seen_core. Qed.

Lemma calm_drop t c c' : seen c' = seen c → calm t c c'.
Proof. intros [Eg Et]%seen_still. pose proof (weight_nonneg t). split; rewrite ?Eg, ?Et; lia. Qed.

Lemma calm_go t t' c c' : seen c' = seen c → weight t' ≤ weight t → calm t c (go t' c').
Proof. intros [Eg Et]%seen_still Hw. unfold calm. cbn [gate threads go set_threads]. rewrite weights_cons, Eg, Et. lia. Qed.

Lemma calm_go_on t next c c' :
  seen c' = seen c → match next with Some t' => weight t' ≤ weight t | None => True end → calm t c (go_on next c').
Proof. intros Hs Hw. destruct next as [t'|]; [by apply calm_go|by apply calm_drop]. Qed.

Lemma still_calm t c c' : gate c' = gate c → threads c' = threads c → calm t c c'.
Proof. intros Eg Et. pose proof (weight_nonneg t). split; rewrite ?Eg, ?Et; lia. Qed.

Lemma calm_go_still t t' c c' : gate c' ≤ gate c → threads c' = threads c → weight t' ≤ weight t → calm t c (go t' c').
Proof. intros Eg Et Hw. unfold calm. cbn [gate threads go set_threads]. rewrite weights_cons, Et. lia. Qed.

(** [c1], made on the way, differs from [c] in nothing that counts here. *)
Ltac still :=
  first [ apply calm_go_still | apply still_calm ]; try (cbn; lia); try done.

Lemma gate_released c : gate (release_gate c) ≤ gate c.
Proof. cbn. destruct (0 <? gate c) eqn:E; lia. Qed.

Lemma calm_startEnqueue t t' p c : weight t' ≤ weight t → calm t c (go t' (startEnqueue p c)).
Proof. intros Hw. unfold calm. cbn [gate threads go set_threads startEnqueue update set_heap set_contexts]. rewrite !weights_cons.
  change (weight (Acquiring p (contexts c))) with 0. lia.
Qed.

Lemma calm_startMonitor t p batchID c c1 :
  gate c1 = gate c → threads c1 = threads c → calm t c (startMonitor p batchID c1).
Proof.
  intros Eg Et. unfold startMonitor. destruct (get p c1) as [j|]; [|by apply still_calm].
  destruct (_ || _); [by apply still_calm|]. apply calm_go_still; [cbn; lia|done|]. apply weight_nonneg.
Qed.

Lemma calm_any t t' c c' : gate c' = gate c → threads c' = threads c → to_resume t' = [] → calm t c (go t' c').
Proof.
  intros Eg Et Hw. apply calm_go_still; [lia|done|]. unfold weight at 1. rewrite Hw. apply weight_nonneg.
Qed.

Lemma calm_next t next c c' :
  gate c' = gate c → threads c' = threads c → weight t = match next with Some t' => weight t' | None => 0 end →
  calm t c (go_on next c').
Proof. intros Eg Et Hw. destruct next as [t'|]; [apply calm_go_still; [lia|done|lia]|by apply still_calm]. Qed.

Lemma persist_still now p c :
  gate (persist_quietly stateDir now p c) = gate c ∧ threads (persist_quietly stateDir now p c) = threads c.
Proof. apply seen_still, seen_persist. Qed.

Lemma calm_caller_step c c' :
  caller_step downloadsDir incompleteDir stateDir c c' → ∃ t q, running c t q ∧ calm t q c'.
Proof.
  intros Hs. destruct Hs as [now key trackID name remote reading q Hr|now p key reading q Hr|p key reading w j q Hr _ _|
    p key reading w j e q Hr _ _|p key bytes sizes w j q Hr _ _|p key bytes sizes w j e q Hr _ _|key q Hr|p reply r q c1 Hr E];
    (eexists _, q; split; [exact Hr|]).
  - unfold ensureDownload. destruct (c_jobs q !! key); by apply calm_any.
  - unfold start_job. destruct (persistJob stateDir now p q) as [[u|e] c1] eqn:Es; apply persistJob_seen in Es.
    + by apply (calm_seen q c1), calm_startEnqueue.
    + apply seen_still in Es as [Eg Et]. apply calm_any; [done|done|]. by destruct reading.
  - destruct reading; [by apply calm_any|by apply still_calm].
  - destruct reading; [by apply calm_any|by apply still_calm].
  - by apply calm_any.
  - by apply calm_any.
  - by apply still_calm.
  - unfold cancel_answered, modify in E. cbn in E. unfold mbind, M_bind, wrap_err, lift in E.
    destruct reply as [u|e]; injection E as <- <-; [by apply calm_any|by apply still_calm].
Qed.

Lemma calm_enqueue_step c e c' :
  enqueue_step stateDir MaxActive RetryAttempts c e c' →
  (∃ p ctx q, running c (Acquiring p ctx) q ∧ gate c < MaxActive ∧ c' = go (Acquired p ctx) (set_gate (λ active, active + 1) q)) ∨
  ∃ t q, running c t q ∧ calm t q c'.
Proof.
  intros Hs. destruct Hs as [p ctx q Hr Hlt|p ctx q Hr Hd|now p ctx q Hr|now p ctx attempt reply q Hr|
    now p ctx attempt e q Hr|now p ctx attempt q Hr|p ctx attempt e q Hr _|p ctx q Hr];
    [left; eauto 6|right; eexists _, q; (split; [exact Hr|])..].
  - by apply still_calm.
  - unfold acquired. destruct (get p q) as [j|]; [|by apply still_calm]. destruct (j_finished j).
    + split; [apply gate_released|]. change (threads (release_gate q)) with (threads q).
      pose proof (weight_nonneg (Acquired p ctx)). lia.
    + match goal with |- calm _ _ (go _ (persist_quietly _ _ _ ?c1)) => destruct (persist_still now p c1) as [Eg Et] end.
      by apply calm_any.
  - unfold enqueue_answered. destruct (enqueue stateDir now p reply q) as [[u|e] c1] eqn:E;
      apply enqueue_seen, seen_still in E as [Eg Et]; by apply calm_any.
  - unfold enqueue_failed. destruct (_ || _); [apply calm_any; [done|done|by destruct ctx]|].
    match goal with |- calm _ _ (go _ (persist_quietly _ _ _ ?c1)) => destruct (persist_still now p c1) as [Eg Et] end.
    by apply calm_any.
  - by apply calm_any.
  - apply calm_any; [done|done|by destruct ctx].
  - unfold enqueued. destruct ctx as [k|]; [by apply calm_startMonitor|by apply calm_any].
Qed.

Lemma final_file_still late p q t c' :
  final_file late p q = (Ok t, c') → gate c' = gate q ∧ threads c' = threads q ∧ to_resume t = [].
Proof.
  intros E. destruct (seen_still q c') as [Eg Et]; [by eapply final_file_seen|]. split_and!; [done|done|].
  unfold final_file in E. apply bind_Ok_inv in E as (j & c1 & _ & E). apply bind_Ok_inv in E as (info & c2 & _ & E).
  destruct info as [u|e]; [by apply ret_Ok_inv in E as [-> _]|].
  destruct (negb _); [|destruct late]; by apply ret_Ok_inv in E as [-> _].
Qed.

Lemma calm_poll_answered now p batchID errors batch q :
  calm (Monitoring p batchID errors) q (poll_answered stateDir now p batchID batch q).
Proof.
  unfold poll_answered. destruct (b_Transfers batch) as [|transfer l]; [by apply calm_any|].
  destruct (get p q) as [j|]; [|by apply still_calm].
  destruct (updateTransfer now transfer j) as [changed j']. set (c1 := update p (λ _, j') q).
  destruct (if changed && _ then _ else _) as [saved c2] eqn:Es.
  assert (gate c2 = gate q ∧ threads c2 = threads q) as [Eg Et].
  { destruct (changed && _); [apply persistJob_seen, seen_still in Es as [-> ->]|injection Es as _ <-]; done. }
  destruct saved as [u|e]; [destruct (transferSucceeded _); [|destruct (transferFailed _)]|]; by apply calm_any.
Qed.

Lemma calm_transfer_failed now p transfer q :
  calm (TransferFailed p transfer) q (transfer_failed stateDir RetryAttempts now p transfer q).
Proof.
  unfold transfer_failed. destruct (retryableTransferFailure transfer); [|by apply calm_any].
  destruct (get p q) as [j|]; [|by apply still_calm]. destruct (prepareAutomaticRetry _ _ _ j) as [j'|]; [|by apply calm_any].
  destruct (persistJob stateDir now p _) as [[u|e] c2] eqn:Es; apply persistJob_seen, seen_still in Es as [Eg Et];
    by apply calm_any.
Qed.

Lemma calm_after t next c c' d :
  gate c' = gate c → threads c' = threads c → next_ok d next →
  to_resume t = match next with Some (Resuming ps) => ps | _ => [] end → calm t c (go_on next c').
Proof.
  intros Eg Et Hn Hr. destruct next as [t'|]; [|by apply still_calm]. apply calm_go_still; [lia|done|].
  unfold weight. rewrite Hr. by destruct t'.
Qed.

Lemma calm_finish now p st e next q d : next_ok d next → calm (Finishing p st e next) q (finish now p st e next q).
Proof.
  intros Hn. unfold finish. destruct (get p q) as [j|]; [|by apply still_calm]. destruct (j_finished j).
  - eapply calm_after; [done|done|exact Hn|]. by destruct next as [[]|].
  - apply calm_go_still; [by destruct (j_cancel j)|by destruct (j_cancel j)|]. by destruct next as [[]|].
Qed.

Lemma calm_close p slot next q : calm (Closing p slot next) q (close_job p slot next q).
Proof.
  unfold close_job. apply calm_go_still; [|by destruct slot|by destruct next as [[]|]].
  destruct slot; [apply gate_released|done].
Qed.

Lemma removeJob_still p q : gate (removeJob p q) = gate q ∧ threads (removeJob p q) = threads q.
Proof. unfold removeJob. by destruct (get p q). Qed.

Lemma calm_monitor_step c e c' :
  Inv c → monitor_step stateDir RetryAttempts c e c' → ∃ t q, running c t q ∧ calm t q c'.
Proof.
  intros Hi Hs. destruct Hs as [p batchID errors j q Hr Hj Hf|p batchID errors q Hr Hst|p batchID errors e q Hr|
    now p batchID errors batch q Hr|late p q t q1 Hr E|now p transfer q Hr|p q Hr|p q Hr|now p st e next q Hr|
    p slot next q Hr|now p next q Hr|p next q Hr]; (eexists _, q; split; [exact Hr|]);
    pose proof (good_ok _ _ (taken_good _ _ _ Hr Hi)) as [_ Hok].
  - by apply calm_any.
  - by apply calm_any.
  - unfold poll_failed. destruct (5 <=? errors + 1); by apply calm_any.
  - apply calm_poll_answered.
  - apply final_file_still in E as (Eg & Et & Ht). by apply calm_any.
  - apply calm_transfer_failed.
  - by apply still_calm.
  - by apply calm_any.
  - destruct Hok as [_ Hn]. by eapply calm_finish.
  - apply calm_close.
  - destruct (persist_still now p q) as [Eg Et]. apply calm_go_still; [lia|done|by destruct next as [[]|]].
  - destruct Hok as [_ Hn]. destruct (removeJob_still p q) as [Eg Et]. eapply calm_after; [done|done|exact Hn|].
    by destruct next as [[]|].
Qed.

Lemma room_list_step n c e c' : Inv c → list_step stateDir c e c' → room n c → room n c'.
Proof.
  intros Hi Hs. destruct Hs as [p rest q Hr|q Hr|p batchID rest q Hr|now bytes freed p path rest q freed' removed q1 Hr E|
    now bytes freed p path rest q e q1 Hr E|bytes freed q Hr].
  - intros Hroom. pose proof (room_taken _ _ _ _ Hr Hroom) as Hq. unfold resume_job.
    assert (weight (Resuming (p :: rest)) = 1 + weight (Resuming rest)) as Hw by (unfold weight; cbn [to_resume length]; lia).
    destruct (get p q) as [j|].
    + destruct (bool_decide (job_state j = StateWaiting) && _); [|destruct (bool_decide (j_batchID j = ""))].
      * eapply calm_room; [exact Hr|apply calm_startEnqueue; lia|done].
      * eapply calm_room; [exact Hr|apply calm_go_still; [lia|done|]|done]. change (weight (Finishing _ _ _ _)) with (weight (Resuming rest)). lia.
      * unfold room. cbn [gate threads go set_threads set_gate]. rewrite weights_cons.
        change (weight (Restored p (j_batchID j) rest)) with (weight (Resuming rest)). lia.
    + eapply calm_room; [exact Hr|apply calm_go_still; [lia|done|lia]|done].
  - eapply calm_room; [exact Hr|]. by apply still_calm.
  - eapply calm_room; [exact Hr|]. unfold resume_monitor.
    destruct (calm_startMonitor (Resuming []) p batchID (update p with_slot q) (update p with_slot q)) as [Hg Hw]; [done|done|].
    change (weight (Resuming [])) with 0 in Hw. unfold calm. cbn [gate threads go set_threads] in *. rewrite weights_cons.
    change (weight (Restored p batchID rest)) with (weight (Resuming rest)). cbn in Hg. 
    change (threads (update p with_slot q)) with (threads q) in Hw. lia.
  - eapply calm_room; [exact Hr|]. apply evict_one_seen, seen_still in E as [Eg Et].
    destruct (removed && _); [by apply still_calm|by apply calm_any].
  - eapply calm_room; [exact Hr|]. apply evict_one_seen, seen_still in E as [Eg Et]. by apply still_calm.
  - eapply calm_room; [exact Hr|]. by apply still_calm.
Qed.

Lemma room_still n c c' : gate c' = gate c → threads c' = threads c → room n c → room n c'.
Proof. unfold room. by intros -> ->. Qed.

Lemma room_seen n c c' : seen c' = seen c → room n c → room n c'.
Proof. intros [Eg Et]%seen_still. by apply room_still. Qed.

Lemma room_go n t c c' : gate c' = gate c → threads c' = threads c → to_resume t = [] → room n c → room n (go t c').
Proof.
  unfold room. intros Eg Et Ht. cbn [gate threads go set_threads]. rewrite weights_cons, Eg, Et.
  unfold weight. rewrite Ht. cbn. done.
Qed.

Lemma rememberCached_gate now modTime key trackID name remote c :
  gate (rememberCached downloadsDir stateDir now modTime key trackID name remote c) = gate c.
Proof. unfold rememberCached. destruct (c_records c !! _); exact (proj1 (persist_still _ _ _)). Qed.

Lemma room_resolve n now modTime key trackID remote :
  leads (room n) (resolve downloadsDir stateDir now modTime key trackID remote) (room n).
Proof.
  assert (∀ A (m : M coordinator A), read_only seen m → leads (room n) m (room n)) as Hquiet.
  { intros A m Hm. apply leads_seen; [done|]. intros c c'. apply room_seen. }
  assert (∀ e, leads (room n) (throw e : M coordinator unit) (room n)) as Hthrow by by intros e c r c' Hc [= <- <-].
  unfold resolve. set (trackID' := if bool_decide _ then _ else _).
  eapply leads_bind; [apply Hquiet, read_only_try, on_media_seen|done|]. intros [contents|e].
  - destruct (negb _); [apply Hthrow|].
    eapply leads_bind; [apply Hquiet, read_only_wrap_err, on_media_seen|done|]. intros _.
    eapply (leads_bind _ _ _ (room n)); [|done|].
    + apply leads_modify. intros c. apply room_still; [apply rememberCached_gate|apply rememberCached_threads].
    + intros _. apply leads_modify. intros c. by apply room_go.
  - destruct (errors_Is ErrOsNotExist e); [|apply Hthrow]. apply leads_modify. intros c. by apply room_go.
Qed.

Lemma room_request n c c' : request_step downloadsDir stateDir c c' → room n c → room n c'.
Proof.
  intros [now modTime trackID ref r c1 _ _ E|id r c1 Hs E|id r c1 Hs E|now e r c1 Hs E|pinned bytes Hf|key q Hr| |d].
  - unfold Resolve in E. destruct (negb _); [by injection E as <- <-|]. cbn in E. unfold mbind, M_bind, lift in E.
    destruct (decodeRemoteFileRef _); [|by injection E as <- <-]. intros Hroom. by eapply room_resolve.
  - unfold CancelTrackDownload, gets, throw, modify in E. cbn in E. unfold mbind, M_bind in E.
    destruct (c_records c !! id) as [p|]; [|by injection E as <- <-].
    destruct (get p c) as [j|]; [|by injection E as <- <-]. destruct (negb _); [by injection E as <- <-|].
    destruct (_ || _); injection E as <- <-; apply room_go; try done; by destruct (j_cancel j).
  - unfold RetryTrackDownload, gets, throw, modify in E. cbn in E. unfold mbind, M_bind in E.
    destruct (c_records c !! id) as [p|]; [|by injection E as <- <-].
    destruct (get p c) as [j|]; [|by injection E as <- <-]. destruct (negb _); injection E as <- <-; [done|].
    by apply room_go.
  - apply room_seen. by eapply TrackDownloads_seen.
  - unfold evict. destruct (bytes <=? 0); [done|]. by apply room_go.
  - eapply calm_room; [exact Hr|]. by apply still_calm.
  - by apply room_still.
  - by apply room_still.
Qed.

Lemma room_step n c e c' :
  Inv c → 0 ≤ n → sstep downloadsDir incompleteDir stateDir MaxActive RetryAttempts c e c' → room n c → room n c'.
Proof.
  intros Hi Hn [c1 Hs|c1 Hs|e1 c1 Hs|e1 c1 Hs|e1 c1 Hs].
  - by apply room_request.
  - apply calm_caller_step in Hs as (t & q & Hq & Hc). by eapply calm_room.
  - apply calm_enqueue_step in Hs as [(p & ctx & q & Hq & Hlt & ->)|(t & q & Hq & Hc)]; [|by eapply calm_room].
    intros Hroom. pose proof (room_taken _ _ _ _ Hq Hroom) as Hq'. destruct Hq as (rest & _ & ->). cbn [gate threads set_threads] in Hq'.
    unfold room. cbn [gate threads go set_threads set_gate]. rewrite weights_cons.
    change (weight (Acquired p ctx)) with 0. change (weight (Acquiring p ctx)) with 0 in Hq'. lia.
  - apply calm_monitor_step in Hs as (t & q & Hq & Hc); [|done]. by eapply calm_room.
  - by eapply room_list_step.
Qed.

Lemma room_reached n c0 es c : Inv c0 → 0 ≤ n → room n c0 → reached c0 es c → room n c.
Proof.
  intros Hi Hn H0' Hr. induction Hr as [|es c e c' Hr IH Hs]; [done|]. eapply room_step; [by eapply reached_Inv|done..].
Qed.

Lemma slots_within n c : Inv c → room n c →
  Z.of_nat (length (List.filter (λ x, j_slotHeld x.2) (map_to_list (heap c)))) ≤ Z.max 0 MaxActive + n.
Proof.
  intros Hi [Hroom _]. assert (0 ≤ weights (threads c)) as Hw.
  { apply Zsum_nonneg, Forall_map, Forall_forall. intros t _. apply weight_nonneg. }
  rewrite (cs_gate _ _ Hi) in Hroom. pose proof (proj2 (slots_nonneg (views c) (threads c))) as Ho.
  assert (slots_held (views c) = Z.of_nat (length (List.filter (λ x, j_slotHeld x.2) (map_to_list (heap c))))) as <-; [|lia].
  unfold slots_held, views. rewrite map_to_list_fmap, <- list_fmap_compose. apply Zsum_count.
Qed.
End reached.

(** * Theorems *)

Section theorems.
Context `{Runtime} `{RemoteJSON} `{Unicode}.
Context (downloadsDir incompleteDir : string) (state : list string) (MaxActive RetryAttempts : Z).

Notation reached := (reached downloadsDir incompleteDir (abs_path state) MaxActive RetryAttempts).
Notation can_step := (can_step downloadsDir incompleteDir (abs_path state) MaxActive RetryAttempts).

(** The directory of the jobs as the coordinator leaves it: every record in the
    file named after its download. *)
Record directory_ok (entries : list string) (d : job_files) : Prop := {
  do_state : Forall proper state;
  do_entries : Forall proper entries;
  do_distinct : NoDup entries;
  do_own : own_files state entries (tables d);
}.

(** The coordinator that starts on these files. *)
Definition started (now : time) (entries : list string) (d : job_files) (files : disk) : coordinator :=
  resume (newDownloadCoordinator downloadsDir incompleteDir (abs_path state) now entries d files).

Lemma reached_consistent now entries d files es c :
  directory_ok entries d → reached (started now entries d files) es c → Inv c.
Proof. intros []. apply reached_Inv. by apply started_Inv. Qed.

(** C10. No download is forgotten and the coordinator never comes to a
    standstill: unless it has been closed, every download that is not over has a
    goroutine that works for it, a download that is over lets its waiters go or
    has a goroutine about to let them go, and in both cases some goroutine can
    take its next step, whatever the others do: a full gate means that one of
    those that have a place can move. *)
Theorem no_download_is_forgotten now entries d files es c p j :
  directory_ok entries d → 1 ≤ MaxActive → reached (started now entries d files) es c → stopped c = false → get p c = Some j →
  (j_finished j = false → (∃ t, t ∈ threads c ∧ p ∈ cares t) ∧ can_step c) ∧
  (j_finished j = true → j_ready j = true ∨ (∃ slot next, Closing p slot next ∈ threads c) ∧ can_step c).
Proof.
  intros Hi0 Hmax Hr Hs Hj. pose proof (reached_consistent _ _ _ _ _ _ Hi0 Hr) as Hi. split; intros Hf.
  - destruct (Inv_alive c p j Hi Hs Hj Hf) as (t & Ht & Hc). split; [by exists t|].
    assert ((∃ q ctx, t = Acquiring q ctx) ∨ ∀ q ctx, t ≠ Acquiring q ctx) as [Ha|Ha] by (destruct t; eauto).
    + destruct Ha as (q & ctx & ->). destruct (running_takes c _ Ht) as [c1 Hq].
      destruct (decide (gate c < MaxActive)) as [Hlt|Hge]; [by eapply enqueue_can, step_acquire|].
      apply slot_holder_can_step; [done..|lia].
    + apply (busy_can_step _ _ _ _ _ c t Ht); [by exists p; left|done].
  - destruct (j_ready j) eqn:Er; [by left|right].
    pose proof (cs_ready _ _ Hi p (view_of j) (view_get _ _ _ Hj) Hf Er) as (t & Ht & Hc)%in_bind.
    split; [|by apply (busy_can_step _ _ _ _ _ c t Ht); [exists p; right|intros q ctx ->; by apply elem_of_nil in Hc]].
    destruct t; try (by apply elem_of_nil in Hc). apply list_elem_of_singleton in Hc. subst. eauto.
Qed.

(** C9. A source is downloaded once at a time, and the counts are right: two
    downloads of one source that are not over are the same one, and it is the
    one that requests are sent to; every entry of the two maps is a download of
    that source; a download that is over has no place among the active ones, and
    as many places are taken as downloads have one or goroutines are about to
    give or return one; the counter of a source's readers is the number of
    goroutines that read it. *)
Theorem soulseek_single_flight now entries d files es c :
  directory_ok entries d → reached (started now entries d files) es c →
  (∀ p q j k, get p c = Some j → get q c = Some k → j_finished j = false → j_finished k = false →
     j_key j = j_key k → p = q ∧ c_jobs c !! j_key j = Some p) ∧
  (∀ key p, c_jobs c !! key = Some p → ∃ j, get p c = Some j ∧ j_key j = key) ∧
  (∀ id p, c_records c !! id = Some p → ∃ j, get p c = Some j ∧ id = download_id (j_key j)) ∧
  (∀ p j, get p c = Some j → j_finished j = true → j_slotHeld j = false) ∧
  gate c = Z.of_nat (length (List.filter (λ x, j_slotHeld x.2) (map_to_list (heap c)))) +
           Z.of_nat (length (List.filter owns_slot (threads c))) ∧
  (∀ key, default 0 (c_active c !! key) =
     Z.of_nat (length (List.filter (λ t, bool_decide (reads t = Some key)) (threads c)))).
Proof.
  intros Hi0 Hr. pose proof (reached_consistent _ _ _ _ _ _ Hi0 Hr) as Hi. split_and!.
  - intros p q j k Hj Hk Hfj Hfk E.
    pose proof (cs_live _ _ Hi p _ (view_get _ _ _ Hj) Hfj) as E1.
    pose proof (cs_live _ _ Hi q _ (view_get _ _ _ Hk) Hfk) as E2. cbn in E1, E2. split; congruence.
  - intros key p (v & Hv & <-)%(cs_jobs _ _ Hi). destruct (get_view _ _ _ Hv) as (j & Hj & ->). eauto.
  - intros id p (v & Hv & ->)%(cs_records _ _ Hi). destruct (get_view _ _ _ Hv) as (j & Hj & ->). eauto.
  - intros p j Hj. apply (cs_over _ _ Hi p _ (view_get _ _ _ Hj)).
  - rewrite (cs_gate _ _ Hi). f_equal.
    + unfold slots_held, views. rewrite map_to_list_fmap, <- list_fmap_compose. apply Zsum_count.
    + apply Zsum_count.
  - apply (cs_active _ _ Hi).
Qed.

(** C11. Eviction does not take the file from under a reader: whatever happened
    before, and although the candidates were chosen earlier, when the file of a
    download is removed it is the file of that download's source, and no caller
    is reading that source, waiting for its first bytes or about to. *)
Theorem read_sources_are_kept now entries d files es c p path c' :
  directory_ok entries d → reached (started now entries d files) es c →
  sstep downloadsDir incompleteDir (abs_path state) MaxActive RetryAttempts c (Removes p path) c' →
  ∃ j, get p c = Some j ∧ j_finalPath j = path ∧ ∀ t, t ∈ threads c → reads t ≠ Some (j_key j).
Proof.
  intros Hi0 Hr Hs. pose proof (reached_consistent _ _ _ _ _ _ Hi0 Hr) as Hi.
  assert (∃ bytes freed rest q, running c (Evicting bytes freed ((p, path) :: rest)) q) as (bytes & freed & rest & q & Hq).
  { inversion Hs as [| |e1 c1 Hs1|e1 c1 Hs1|e1 c1 Hs1]; subst; inversion Hs1; subst; eauto.
    destruct removed; [|done]. simplify_eq. eauto. }
  destruct (running_takes c (Evicting bytes freed ((p, path) :: rest))) as [q' Hq'].
  { destruct Hq as (l & Hp & _). rewrite Hp. by left. }
  destruct (evicting_unread c (Evicting bytes freed ((p, path) :: rest)) _ _ _ _ _ _ Hi Hq') as (j & Hj & Hpath & _).
  { destruct Hq as (l & Hp & _). rewrite Hp. by left. }
  exists j. split_and!; [done|done|]. intros t Ht.
  destruct (evicting_unread c t _ _ _ _ _ _ Hi Hq' Ht) as (j' & Hj' & _ & Hne). congruence.
Qed.

(** C12. The limit on active downloads holds: however the goroutines
    interleave, no more downloads have a place at once than [MaxActive] and the
    unfinished ones that were found on disk at the start, which get their place
    back without asking. *)
Theorem active_downloads_are_limited now entries d files es c :
  directory_ok entries d → reached (started now entries d files) es c →
  Z.of_nat (length (List.filter (λ x, j_slotHeld x.2) (map_to_list (heap c)))) ≤
    Z.max 0 MaxActive + Z.of_nat (size (c_jobs (started now entries d files))).
Proof.
  intros Hd Hr. eapply slots_within; [by eapply reached_consistent|].
  pose proof (do_state _ _ Hd) as Hstate. destruct Hd as [_ Hp Hnd Ho].
  eapply (room_reached _ _ _ _ _ _ (started now entries d files)); [by apply started_Inv|lia| |exact Hr].
  pose proof (new_loaded downloadsDir incompleteDir state Hstate now entries d files Hp Hnd Ho) as Hl.
  unfold started, room. set (c1 := newDownloadCoordinator _ _ _ _ _ _ _) in *. cbn [gate threads go set_threads resume c_jobs].
  rewrite (ld_threads _ _ _ Hl). pose proof (ld_rest _ _ _ Hl) as [= _ -> _ _ _].
  assert (length (map snd (map_range (c_jobs c1))) = size (c_jobs c1)) as El.
  { change (map snd ?l) with (snd <$> l). by rewrite length_fmap, map_range_perm, length_map_to_list. }
  rewrite weights_cons. change (weight (Resuming ?l)) with (Z.of_nat (length l)). rewrite El. cbn. lia.
Qed.
End theorems.

(** * What the model shows of the code *)

Section shown.
Context `{Runtime} `{RemoteJSON} `{Unicode}.
Context (downloadsDir incompleteDir stateDir : string).

(** An answer to the request that is on its way when the user cancels: the
    download is over but is reported, and saved, as queued, and can be neither
    cancelled nor tried again. *)
Lemma late_answer_hides_the_cancellation now p r c j :
  get p c = Some j → j_finished j = true → enqueue_error r = None → dl_ID (j_download j) = download_id (j_key j) →
  c_records c !! download_id (j_key j) = Some p →
  let c' := (enqueue stateDir now p (Ok (Some r)) c).2 in
  ∃ j', get p c' = Some j' ∧ j_finished j' = true ∧ job_state j' = StateQueued ∧ j_key j' = j_key j ∧
    (RetryTrackDownload (download_id (j_key j)) c').1 =
      Err (Plain ("download " +:+ download_id (j_key j) +:+ " is not retryable")).
Proof.
  intros Hj Hf Hr Hid Hrec c'.
  set (j1 := report StateQueued "" now (with_transfer (b_ID (br_Batch r))
    (match b_Transfers (br_Batch r) with t :: _ => tr_ID t | [] => "" end) j)).
  assert (∃ j', get p c' = Some j' ∧ (j_finished j', job_state j', j_key j') = (true, StateQueued, j_key j) ∧
    c_records c' = c_records c) as (j' & Hj' & [= E1 E2 E3] & Hrec').
  { unfold c', enqueue, wrap_err, lift, mbind, M_bind, modify. cbv beta iota zeta. cbn [default]. change (id r) with r. rewrite Hr.
    unfold persistJob. set (c1 := update p _ c). assert (get p c1 = Some j1) as Hj1.
    { unfold get, c1. cbn. unfold get in Hj. by rewrite lookup_alter_eq, Hj. }
    rewrite Hj1. destruct (on_state _ c1) as [[u|e] c2] eqn:Eo; apply on_state_core in Eo as (Es & Eh & _); cbn [snd].
    - exists (with_lastPersist now j1). unfold get in *. cbn. rewrite lookup_alter_eq, Eh, Hj1. cbn. rewrite Hf.
      split_and!; [done|done|]. apply seen_core in Es as [[= _ _ Er _ _ _ _ _] _]. exact Er.
    - exists j1. unfold get in *. rewrite Eh, Hj1. cbn. rewrite Hf. split_and!; [done|done|].
      apply seen_core in Es as [[= _ _ Er _ _ _ _ _] _]. exact Er. }
  exists j'. split_and!; try done. unfold RetryTrackDownload, gets. cbn. unfold mbind, M_bind.
  rewrite Hrec', Hrec, Hj', E2. done.
Qed.

(** Two files of one track with the same name on two peers' disks are one file here. *)
Lemma sources_share_a_file now now' key key' trackID remote remote' :
  sanitizedFilename (rf_Path remote) = sanitizedFilename (rf_Path remote') →
  j_finalPath (new_job downloadsDir incompleteDir now key trackID (sanitizedFilename (rf_Path remote)) remote) =
  j_finalPath (new_job downloadsDir incompleteDir now' key' trackID (sanitizedFilename (rf_Path remote')) remote').
Proof. cbn. by intros ->. Qed.
End shown.

(** * The theorems on concrete runs *)

#[local] Existing Instances stable_runtime ascii_unicode toy_json.

#[local] Notation run_start files := (started "/d" "/i" ["state"] 0 [] (mkDatabase ∅ []) (mkDatabase files [])).
#[local] Notation run := (reached "/d" "/i" "/state" 1 3).
#[local] Notation source := (mkRef soulseek_Name "YQ").

Lemma free_of (f : thread → bool) ts : forallb (λ t, negb (f t)) ts = true → Forall (λ t, f t = false) ts.
Proof. rewrite forallb_forall, Forall_forall. intros Hf t Ht%list_elem_of_In. by apply Hf, negb_true_iff in Ht. Qed.

Lemma first_runs t ts c : threads c = t :: ts → running c t (set_threads ts c).
Proof. intros E. exists ts. by rewrite E. Qed.

Lemma empty_directory_ok : directory_ok ["state"] [] (mkDatabase ∅ []).
Proof.
  split; [|done|constructor|by intros name record Hn%elem_of_nil]. constructor; [|done]. by repeat split; compute_done.
Qed.

(** A request for a source that nobody has asked for makes a download. *)
Lemma run_of_a_download :
  ∃ es c, run (run_start ∅) es c ∧ stopped c = false ∧ size (c_jobs (run_start ∅)) = 0%nat ∧
    ∃ j, get 0 c = Some j ∧ j_finished j = false.
Proof.
  set (c0 := run_start ∅). set (c1 := set_threads [] c0).
  set (c2 := (Resolve "/d" "/state" 0 0 "t" source c1).2).
  set (c3 := ensureDownload "/d" "/i" 0 "YQ" "t" "a.mp3" (mkRemote "peer" "a.mp3" 3) true (set_threads [] c2)).
  exists [Internal; Internal; Internal], c3. split_and!; [|by vm_compute|by vm_compute|].
  - eapply reached_step; [eapply reached_step; [eapply reached_step; [apply reached_start|]|]|].
    + apply sstep_list. apply (step_resumed _ c0 c1). by apply first_runs.
    + apply sstep_request. apply (req_resolve _ _ c1 0 0 "t" source (Resolve "/d" "/state" 0 0 "t" source c1).1 c2);
        [by apply free_of..|]. unfold c2. by destruct (Resolve _ _ _ _ _ _ _).
    + apply sstep_caller. apply step_ensure. by apply first_runs; vm_compute.
  - eexists. split; vm_compute; reflexivity.
Qed.

(** A source that is there is read and closed; then it may be evicted. *)
Lemma run_to_eviction :
  ∃ es c c', run (run_start {["/d/t/a.mp3" := [1; 2; 3]]}) es c ∧
    sstep "/d" "/i" "/state" 1 3 c (Removes 0 "/d/t/a.mp3") c'.
Proof.
  set (files := {["/d/t/a.mp3" := [1; 2; 3]]} : gmap string bytes).
  set (c0 := run_start files). set (c1 := set_threads [] c0).
  set (c2 := (Resolve "/d" "/state" 0 0 "t" source c1).2).
  set (c3 := endRead "YQ" (set_threads [] c2)). set (c4 := evict (λ _, false) 1 c3).
  set (q := set_threads [] c4).
  exists [Internal; Internal; Internal; Internal], c4, (evict_one "/state" 0 0 0 "/d/t/a.mp3" q).2. split.
  - eapply reached_step; [eapply reached_step; [eapply reached_step; [eapply reached_step; [apply reached_start|]|]|]|].
    + apply sstep_list. apply (step_resumed _ c0 c1). by apply first_runs.
    + apply sstep_request. apply (req_resolve _ _ c1 0 0 "t" source (Resolve "/d" "/state" 0 0 "t" source c1).1 c2);
        [by apply free_of..|]. unfold c2. by destruct (Resolve _ _ _ _ _ _ _).
    + apply sstep_request. apply req_close. by apply first_runs; vm_compute.
    + apply sstep_request. apply req_evict. apply free_of. by vm_compute.
  - apply sstep_list. eapply (step_evict "/state" c4 0 1 0 0 "/d/t/a.mp3" [] q 3 true _).
    + by apply first_runs; vm_compute.
    + by vm_compute.
Qed.

Lemma no_download_is_forgotten_witness :
  ∃ c p j, get p c = Some j ∧ j_finished j = false ∧ ∃ t, t ∈ threads c ∧ p ∈ cares t.
Proof.
  destruct run_of_a_download as (es & c & Hr & Hs & _ & j & Hj & Hf). exists c, 0%N, j. split_and!; [done|done|].
  apply (no_download_is_forgotten "/d" "/i" ["state"] 1 3 0 [] (mkDatabase ∅ []) (mkDatabase ∅ []) es c 0 j
    empty_directory_ok (Z.le_refl 1) Hr Hs Hj); done.
Defined.

Lemma soulseek_single_flight_witness :
  ∃ c p j, get p c = Some j ∧ c_jobs c !! j_key j = Some p ∧
    gate c = Z.of_nat (length (List.filter (λ x, j_slotHeld x.2) (map_to_list (heap c)))) +
             Z.of_nat (length (List.filter owns_slot (threads c))).
Proof.
  destruct run_of_a_download as (es & c & Hr & Hs & _ & j & Hj & Hf). exists c, 0%N, j.
  destruct (soulseek_single_flight "/d" "/i" ["state"] 1 3 0 [] (mkDatabase ∅ []) (mkDatabase ∅ []) es c
    empty_directory_ok Hr) as (Hone & _ & _ & _ & Hgate & _).
  split_and!; [done| |done]. apply (Hone 0%N 0%N j j); done.
Defined.

Lemma active_downloads_are_limited_witness :
  ∃ c, is_Some (get 0 c) ∧ Z.of_nat (length (List.filter (λ x, j_slotHeld x.2) (map_to_list (heap c)))) ≤ 1.
Proof.
  destruct run_of_a_download as (es & c & Hr & Hs & Hn & j & Hj & Hf). exists c. split; [by exists j|].
  pose proof (active_downloads_are_limited "/d" "/i" ["state"] 1 3 0 [] (mkDatabase ∅ []) (mkDatabase ∅ []) es c
    empty_directory_ok Hr) as Hl. rewrite Hn in Hl. exact Hl.
Defined.

Lemma read_sources_are_kept_witness :
  ∃ c j, get 0 c = Some j ∧ j_finalPath j = "/d/t/a.mp3" ∧ ∀ t, t ∈ threads c → reads t ≠ Some (j_key j).
Proof.
  destruct run_to_eviction as (es & c & c' & Hr & Hs). exists c.
  exact (read_sources_are_kept "/d" "/i" ["state"] 1 3 0 [] (mkDatabase ∅ [])
    (mkDatabase {["/d/t/a.mp3" := [1; 2; 3]]} []) es c 0 "/d/t/a.mp3" c' empty_directory_ok Hr Hs).
Defined.
