(* ===== verification/SoulseekArtwork.v ===== *)
(** Covers from Soulseek ([soulseek/artwork.go]): a cover is downloaded once,
    whoever asks for it meanwhile waits for that download.

    Downloads live on a heap; a goroutine is an [art_thread] at the point it has
    reached.  What slskd answers is an argument. *)
From stdpp Require Import base gmap strings list.
From Stdlib Require Import ZArith Lia Ascii.
From S2P Require Import Prelude GoStrings Sql Paths Music TorrentFiles.
From S2P Require Import SoulseekRefs SoulseekClient SoulseekJobs SoulseekSearch.

Open Scope Z_scope.
Open Scope go_scope.

(** [done] is closed when [a_finished] is set. *)
Record artworkDownload := mkArt {
  a_finalPath : string;
  a_err : option error;
  a_finished : bool;
}.

(** A caller of [OpenArtwork] that makes the request, the monitor and its wait
    for the file, and a caller that waits for the download. *)
Inductive art_thread :=
  | ArtEnqueue (p : N) (destination finalPath name : string) (remote : remoteFileRef)
  | ArtMonitor (p : N) (destination batchID : string) (errors : Z)
  | ArtFinal (p : N) (destination : string)
  | ArtWait (p : N) (finalPath name : string) (size : Z).

Record art_state := mkArtState {
  artworkJobs : gmap string N;
  art_heap : gmap N artworkDownload;
  art_media : disk;
  art_stopped : bool;
  art_threads : list art_thread;
}.

Definition art_with (jobs : gmap string N) (heap : gmap N artworkDownload) (ts : list art_thread) (s : art_state) : art_state :=
  mkArtState jobs heap (art_media s) (art_stopped s) ts.
Definition art_go (t : art_thread) (s : art_state) : art_state := art_with (artworkJobs s) (art_heap s) (t :: art_threads s) s.
Definition art_set_media (d : disk) (s : art_state) : art_state :=
  mkArtState (artworkJobs s) (art_heap s) d (art_stopped s) (art_threads s).
Definition art_set_threads (ts : list art_thread) (s : art_state) : art_state := art_with (artworkJobs s) (art_heap s) ts s.
Definition art_fresh (s : art_state) : N := N.of_nat (size (art_heap s)).

Record artwork_source := mkArtSource {
  as_Content : bytes;
  as_Name : string;
  as_ContentType : string;
}.

Section artwork.
Context `{RemoteJSON} `{Unicode}.
Context (downloadsDir : string).

Definition artwork_content_type (name : string) : string :=
  if HasSuffix (ToLower name) ".jpg" then "image/jpeg" else "image/" +:+ TrimPrefix (ToLower (Ext name)) ".".

Definition openRemoteArtwork (path name : string) (size : Z) : M disk artwork_source :=
  contents ← os_ReadFile path;
  if negb (Z.of_nat (length contents) =? size)
  then throw (Plain ("cached Soulseek artwork has size " +:+ Itoa (Z.of_nat (length contents)) +:+ ", want " +:+ Itoa size))
  else
    _ ← wrap_err (λ e, Errorf "open cached Soulseek artwork: " e "") (os_ReadFile path : M disk bytes);
    mret (mkArtSource contents name (artwork_content_type name)).

Definition on_art_media {A} (m : M disk A) : M art_state A := zoom art_media art_set_media m.

(** [ensureArtworkDownload] up to the request. *)
Definition ensureArtworkDownload (destination finalPath name : string) (remote : remoteFileRef) (s : art_state) : art_state :=
  match artworkJobs s !! destination with
  | Some p => art_go (ArtWait p finalPath name (rf_Size remote)) s
  | None =>
      let p := art_fresh s in
      art_with (<[destination := p]> (artworkJobs s)) (<[p := mkArt finalPath None false]> (art_heap s))
        (ArtEnqueue p destination finalPath name remote :: art_threads s) s
  end.

(** [OpenArtwork]: the cover, or [None] when the caller goes on to wait for it. *)
Definition OpenArtwork (id : string) : M art_state (option artwork_source) :=
  if negb (HasPrefix id remoteArtworkPrefix) then throw (Sentinel ErrNotFound)
  else
    let key := TrimPrefix id remoteArtworkPrefix in
    match decodeRemoteFileRef key with
    | Err _ => throw (Sentinel ErrNotFound)
    | Ok remote =>
        let extension := TrimPrefix (ToLower (Ext (rf_Path remote))) "." in
        if negb (bool_decide (extension ∈ artworkExtensions)) || (maxRemoteArtworkSize <? rf_Size remote)
        then throw (Sentinel ErrNotFound)
        else
          let destination := StableID "soulseek-cover" [key] in
          let name := sanitizedFilename (rf_Path remote) in
          let finalPath := final_path downloadsDir destination name in
          opened ← try (on_art_media (openRemoteArtwork finalPath name (rf_Size remote)));
          match opened with
          | Ok cover => mret (Some cover)
          | Err e =>
              if negb (errors_Is ErrOsNotExist e) then throw e
              else _ ← modify (ensureArtworkDownload destination finalPath name remote); mret None
          end
    end.

Definition finishArtworkDownload (destination : string) (p : N) (err : option error) (s : art_state) : art_state :=
  match art_heap s !! p with
  | None => s
  | Some j =>
      if a_finished j then s
      else
        let jobs :=
          match err with
          | None => artworkJobs s
          | Some _ => if bool_decide (artworkJobs s !! destination = Some p) then delete destination (artworkJobs s)
                      else artworkJobs s
          end in
        art_with jobs (<[p := mkArt (a_finalPath j) err true]> (art_heap s)) (art_threads s) s
  end.

(** The answer to the request of [ensureArtworkDownload]; the caller goes on to wait. *)
Definition artwork_enqueued (p : N) (destination finalPath name : string) (remote : remoteFileRef)
    (reply : res (option slskdDownloadBatchResponse)) (s : art_state) : art_state :=
  match reply with
  | Err e => finishArtworkDownload destination p (Some (Errorf "enqueue Soulseek artwork: " e "")) s
  | Ok body =>
      let response := default (mkBatchResponse (mkBatch "" []) []) body in
      if bool_decide (b_ID (br_Batch response) = "") || bool_decide (length (b_Transfers (br_Batch response)) = 0%nat)
      then
        let message :=
          match br_Failures response with
          | (_, message) :: _ =>
              if bool_decide (TrimSpace message = "") then "slskd did not enqueue the artwork" else message
          | [] => "slskd did not enqueue the artwork"
          end in
        finishArtworkDownload destination p (Some (Plain message)) s
      else art_go (ArtWait p finalPath name (rf_Size remote)) (art_go (ArtMonitor p destination (b_ID (br_Batch response)) 0) s)
  end.

(** One answer to [monitorArtworkDownload]. *)
Definition artwork_polled (p : N) (destination batchID : string) (errors : Z) (reply : res (option slskdDownloadBatch))
    (s : art_state) : art_state :=
  let finish e := finishArtworkDownload destination p (Some e) s in
  match reply with
  | Err e =>
      if errors_Is ErrContextCanceled e then finish e
      else if 5 <=? errors + 1 then finish (Errorf "monitor Soulseek artwork: " e "")
      else art_go (ArtMonitor p destination batchID (errors + 1)) s
  | Ok batch =>
      match b_Transfers (default (mkBatch "" []) batch) with
      | [] => finish (Plain "monitor Soulseek artwork: batch has no transfers")
      | transfer :: _ =>
          if transferSucceeded (tr_State transfer) then art_go (ArtFinal p destination) s
          else if transferFailed (tr_State transfer) then
            let message := TrimSpace (tr_Exception transfer) in
            finish (Plain ("Soulseek artwork download failed: " +:+
              (if bool_decide (message = "") then tr_State transfer else message)))
          else art_go (ArtMonitor p destination batchID 0) s
      end
  end.

(** [waitForFinalFile]; [late] after its deadline. *)
Definition artwork_final (late : bool) (p : N) (destination : string) : M art_state unit :=
  j ← gets (λ s, art_heap s !! p);
  let path := match j with Some j => a_finalPath j | None => "" end in
  info ← try (on_art_media (os_ReadFile path));
  match info with
  | Ok _ => modify (finishArtworkDownload destination p None)
  | Err e =>
      if negb (errors_Is ErrOsNotExist e)
      then modify (finishArtworkDownload destination p (Some (Errorf "inspect completed Soulseek download: " e "")))
      else if late
      then modify (finishArtworkDownload destination p
             (Some (Plain "completed Soulseek download did not appear in the shared downloads directory")))
      else modify (art_go (ArtFinal p destination))
  end.

(** A caller whose download is over. *)
Definition artwork_waited (p : N) (finalPath name : string) (size : Z) : M art_state artwork_source :=
  j ← gets (λ s, art_heap s !! p);
  match j with
  | None => throw (Sentinel ErrNotFound)
  | Some j =>
      match a_err j with
      | Some e => throw e
      | None => on_art_media (openRemoteArtwork finalPath name size)
      end
  end.

(** * Steps *)

Definition art_running (s : art_state) (t : art_thread) (q : art_state) : Prop :=
  ∃ rest, art_threads s ≡ₚ t :: rest ∧ q = art_set_threads rest s.

Inductive art_step (s : art_state) : art_state → Prop :=
  | art_open id r s' : OpenArtwork id s = (r, s') → art_step s s'
  | art_enqueue p destination finalPath name remote reply q :
      art_running s (ArtEnqueue p destination finalPath name remote) q →
      art_step s (artwork_enqueued p destination finalPath name remote reply q)
  | art_poll p destination batchID errors reply q :
      art_running s (ArtMonitor p destination batchID errors) q →
      art_step s (artwork_polled p destination batchID errors reply q)
  | art_closed p destination batchID errors q :
      art_running s (ArtMonitor p destination batchID errors) q → art_stopped s = true →
      art_step s (finishArtworkDownload destination p (Some (Sentinel ErrContextCanceled)) q)
  | art_file late p destination r q s' :
      art_running s (ArtFinal p destination) q → artwork_final late p destination q = (r, s') → art_step s s'
  | art_waited p finalPath name size j r q s' :
      art_running s (ArtWait p finalPath name size) q → art_heap s !! p = Some j → a_finished j = true →
      artwork_waited p finalPath name size q = (r, s') → art_step s s'
  | art_gives_up p finalPath name size q : art_running s (ArtWait p finalPath name size) q → art_step s q
  | art_disk d : art_step s (art_set_media d s)
  | art_stop : art_step s (mkArtState (artworkJobs s) (art_heap s) (art_media s) true (art_threads s)).

Inductive art_reached (s0 : art_state) : art_state → Prop :=
  | art_start : art_reached s0 s0
  | art_next s s' : art_reached s0 s → art_step s s' → art_reached s0 s'.

(** * One download per cover *)

(** The download a goroutine carries on, and the one it waits for. *)
Definition worker (t : art_thread) : list (string * N) :=
  match t with
  | ArtEnqueue p destination _ _ _ | ArtMonitor p destination _ _ | ArtFinal p destination => [(destination, p)]
  | ArtWait _ _ _ _ => []
  end.

Definition waits_for (t : art_thread) : list N := match t with ArtWait p _ _ _ => [p] | _ => [] end.

Record art_ok (ts : list art_thread) (s : art_state) : Prop := {
  ao_addresses p : is_Some (art_heap s !! p) ↔ (p < art_fresh s)%N;
  ao_jobs d p : artworkJobs s !! d = Some p → ∃ j, art_heap s !! p = Some j ∧ (a_finished j = true → a_err j = None);
  ao_apart d e p : artworkJobs s !! d = Some p → artworkJobs s !! e = Some p → d = e;
  ao_unique : NoDup (ts ≫= worker);
  ao_worker d p : (d, p) ∈ ts ≫= worker →
    artworkJobs s !! d = Some p ∧ ∃ j, art_heap s !! p = Some j ∧ a_finished j = false;
  ao_unfinished p j : art_heap s !! p = Some j → a_finished j = false → ∃ d, (d, p) ∈ ts ≫= worker;
  ao_waits p : p ∈ ts ≫= waits_for → is_Some (art_heap s !! p);
}.

Definition art_Inv (s : art_state) : Prop := art_ok (art_threads s) s.
Definition art_core (s : art_state) := (artworkJobs s, art_heap s).

Lemma art_ok_core ts s s' : art_core s' = art_core s → art_ok ts s → art_ok ts s'.
Proof. intros [= E1 E2] []. split; unfold art_fresh; rewrite ?E1, ?E2; done. Qed.

Lemma art_ok_threads ts ts' s :
  ts' ≫= worker ≡ₚ ts ≫= worker → (∀ p, p ∈ ts' ≫= waits_for → p ∈ ts ≫= waits_for ∨ is_Some (art_heap s !! p)) →
  art_ok ts s → art_ok ts' s.
Proof.
  intros Hw Hp []. split; try done.
  - by rewrite Hw.
  - intros d p. rewrite Hw. apply ao_worker0.
  - intros p j Hj Hf. destruct (ao_unfinished0 p j Hj Hf) as [d Hd]. exists d. by rewrite Hw.
  - intros p [Hin|?]%Hp; [by apply ao_waits0|done].
Qed.

Lemma art_taken s t q : art_running s t q → art_Inv s → art_ok (t :: art_threads q) q.
Proof.
  intros (rest & Hp & ->) Hi. apply (art_ok_core _ s); [done|]. cbn. eapply art_ok_threads; [| |exact Hi].
  - by rewrite Hp.
  - intros p. rewrite Hp. by left.
Qed.

(** A goroutine that is at another point of the same download. *)
Lemma art_goes_on t t' q :
  worker t' = worker t → waits_for t' = [] → art_ok (t :: art_threads q) q → art_Inv (art_go t' q).
Proof.
  intros Hw Hn Hq. apply (art_ok_core _ q); [done|]. cbn. eapply art_ok_threads; [| |exact Hq].
  - cbn. by rewrite Hw.
  - intros p. cbn. rewrite Hn. intros Hin. left. apply elem_of_app. by right.
Qed.

Lemma art_seen q q' t : art_core q' = art_core q → art_threads q' = art_threads q →
  art_ok (t :: art_threads q) q → art_ok (t :: art_threads q') q'.
Proof. intros Hc -> Hq. by eapply art_ok_core. Qed.

(** The goroutine that carries on a download ends it. *)
Lemma art_finishes t destination p err q :
  worker t = [(destination, p)] → art_ok (t :: art_threads q) q → art_Inv (finishArtworkDownload destination p err q).
Proof.
  intros Hw Hq. pose proof Hq as []. cbn in *. rewrite Hw in *.
  destruct (ao_worker0 destination p) as (Hjob & j & Hj & Hf); [by left|].
  unfold finishArtworkDownload. rewrite Hj, Hf. rewrite bool_decide_eq_true_2 by done.
  set (jobs := match err with Some _ => _ | None => _ end). cbn in ao_unique0. apply NoDup_cons in ao_unique0 as [Hnot Hnd].
  assert (∀ d x, jobs !! d = Some x → artworkJobs q !! d = Some x ∧ (x = p → err = None)) as Hjobs.
  { intros d x. unfold jobs. destruct err; [|done]. intros [Hne Hd]%lookup_delete_Some. split; [done|].
    intros ->. by destruct (Hne (ao_apart0 _ _ _ Hjob Hd)). }
  assert (∀ d x, (d, x) ∈ art_threads q ≫= worker → x ≠ p) as Hother.
  { intros d x Hin ->. destruct (ao_worker0 d p) as [Hd _]; [by right|]. apply Hnot. by rewrite (ao_apart0 _ _ _ Hjob Hd). }
  split; cbn.
  - intros x. unfold art_fresh. cbn. rewrite map_size_insert_Some by (by exists j). rewrite lookup_insert_is_Some'.
    rewrite ao_addresses0. split; [intros [<-|?]; [apply ao_addresses0; eauto|done]|by right].
  - intros d x [Hd He]%Hjobs. destruct (decide (x = p)) as [->|Hne].
    + exists (mkArt (a_finalPath j) err true). rewrite lookup_insert_eq. cbn. auto.
    + rewrite lookup_insert_ne by done. by apply (ao_jobs0 d).
  - intros d e x [Hd _]%Hjobs [He _]%Hjobs. by eapply ao_apart0.
  - done.
  - intros d x Hin. destruct (ao_worker0 d x) as (Hd & jx & Hx & Hfx); [by right|]. pose proof (Hother d x Hin) as Hne.
    split; [|exists jx; by rewrite lookup_insert_ne].
    unfold jobs. destruct err; [|done]. rewrite lookup_delete_ne; [done|]. intros <-. congruence.
  - intros x jx. intros [[<- <-]|[Hne Hx]]%lookup_insert_Some; [done|]. intros Hfx.
    destruct (ao_unfinished0 x jx Hx Hfx) as [d [[= -> ->]|?]%elem_of_cons]; [done|eauto].
  - intros x Hin. apply lookup_insert_is_Some'. right. apply ao_waits0. apply elem_of_app. by right.
Qed.

Lemma art_ensures destination finalPath name remote s :
  art_Inv s → art_Inv (ensureArtworkDownload destination finalPath name remote s).
Proof.
  intros Hi. pose proof Hi as []. unfold ensureArtworkDownload. destruct (artworkJobs s !! destination) as [p|] eqn:Ed.
  - apply (art_ok_core _ s); [done|]. cbn. eapply art_ok_threads; [| |exact Hi]; [done|]. cbn. intros q.
    intros [->|?]%elem_of_cons; [right; destruct (ao_jobs0 _ _ Ed) as (j & -> & _); eauto|by left].
  - assert (art_heap s !! art_fresh s = None) as Hnone.
    { apply eq_None_not_Some. rewrite ao_addresses0. lia. }
    assert (∀ d x, artworkJobs s !! d = Some x → x ≠ art_fresh s) as Hne.
    { intros d x Hd ->. destruct (ao_jobs0 _ _ Hd) as (j & Hj & _). congruence. }
    split; cbn.
    + intros x. unfold art_fresh at 2. cbn. rewrite (map_size_insert_None _ _ _ Hnone), lookup_insert_is_Some', ao_addresses0.
      unfold art_fresh. lia.
    + intros d x. intros [[<- <-]|[_ Hd]]%lookup_insert_Some.
      * exists (mkArt finalPath None false). by rewrite lookup_insert_eq.
      * rewrite lookup_insert_ne by (intros <-; by apply (Hne _ _ Hd)). by apply (ao_jobs0 d).
    + intros d e x. intros [[<- <-]|[Hnd Hd]]%lookup_insert_Some [[<- E]|[Hne' He]]%lookup_insert_Some; try done.
      * by destruct (Hne _ _ He).
      * subst x. by destruct (Hne _ _ Hd).
      * by eapply ao_apart0.
    + apply NoDup_cons. split; [|done]. intros Hin. destruct (ao_worker0 _ _ Hin) as [? _]. congruence.
    + intros d x. intros [[= -> ->]|Hin]%elem_of_cons.
      * rewrite !lookup_insert_eq. split; [done|]. eexists. split; [done|done].
      * destruct (ao_worker0 _ _ Hin) as (Hd & j & Hj & Hf). rewrite !lookup_insert_ne.
        -- eauto.
        -- intros <-. congruence.
        -- intros <-. congruence.
    + intros x j. intros [[<- <-]|[_ Hx]]%lookup_insert_Some Hf; [exists destination; by left|].
      destruct (ao_unfinished0 _ _ Hx Hf) as [d Hd]. exists d. by right.
    + intros x Hin. apply lookup_insert_is_Some'. right. by apply ao_waits0.
Qed.

(** The next point of a goroutine that carries on a download. *)
Ltac carries_on Hq :=
  first [by (eapply art_finishes; [|exact Hq]) | by (eapply art_goes_on; [| |exact Hq])].

Lemma art_media_seen {A} (m : M disk A) s r s' :
  on_art_media m s = (r, s') → art_core s' = art_core s ∧ art_threads s' = art_threads s.
Proof. unfold on_art_media, zoom. destruct (m (art_media s)) as [x d]. by intros [= _ <-]. Qed.

Lemma art_media_ok {A} (m : M disk A) t q r q' :
  on_art_media m q = (r, q') → art_ok (t :: art_threads q) q → art_ok (t :: art_threads q') q'.
Proof. intros [? ?]%art_media_seen. by apply art_seen. Qed.

(** The goroutine of a caller that is served, or that has gone. *)
Lemma art_leaves t q : worker t = [] → art_ok (t :: art_threads q) q → art_Inv q.
Proof.
  intros Hw. unfold art_Inv. apply art_ok_threads; [by cbn; rewrite Hw|]. intros p Hin. left. cbn. apply elem_of_app. by right.
Qed.

Lemma art_opened id s r s' : OpenArtwork id s = (r, s') → art_Inv s → art_Inv s'.
Proof.
  unfold OpenArtwork. intros E Hi. destruct (negb _); [by injection E as _ <-|].
  destruct (decodeRemoteFileRef _) as [remote|e]; [|by injection E as _ <-]. destruct (_ || _); [by injection E as _ <-|].
  unfold mbind, M_bind, try in E. destruct (on_art_media _ s) as [o s1] eqn:Eo. apply art_media_seen in Eo as [Hc Ht].
  assert (art_Inv s1) as H1 by (unfold art_Inv in *; rewrite Ht; by apply (art_ok_core _ s)).
  destruct o as [cover|e]; [by injection E as _ <-|]. destruct (negb _); [by injection E as _ <-|].
  injection E as _ <-. by apply art_ensures.
Qed.

(** A goroutine that starts to wait for a download there is. *)
Lemma art_waits p path name size q j : art_heap q !! p = Some j → art_Inv q → art_Inv (art_go (ArtWait p path name size) q).
Proof.
  intros Hj Hq. apply (art_ok_core _ q); [done|]. cbn. eapply art_ok_threads; [| |exact Hq]; [done|].
  intros x [->|?]%elem_of_cons; [right; eauto|by left].
Qed.

Lemma art_enqueued_Inv p destination path name remote reply q :
  art_ok (ArtEnqueue p destination path name remote :: art_threads q) q →
  art_Inv (artwork_enqueued p destination path name remote reply q).
Proof.
  intros Hq. unfold artwork_enqueued. destruct reply as [body|e]; [|by (eapply art_finishes; [|exact Hq])].
  destruct (_ || _); [by (eapply art_finishes; [|exact Hq])|].
  destruct (ao_worker _ _ Hq destination p) as (_ & j & Hj & _); [by left|].
  apply (art_waits _ _ _ _ _ j); [done|]. by (eapply art_goes_on; [| |exact Hq]).
Qed.

Lemma art_polled_Inv p destination batchID errors reply q :
  art_ok (ArtMonitor p destination batchID errors :: art_threads q) q →
  art_Inv (artwork_polled p destination batchID errors reply q).
Proof.
  intros Hq. unfold artwork_polled.
  destruct reply as [batch|e]; [destruct (b_Transfers _) as [|transfer ts]|];
    repeat case_match; carries_on Hq.
Qed.

Lemma art_final_Inv late p destination r q q' :
  art_ok (ArtFinal p destination :: art_threads q) q → artwork_final late p destination q = (r, q') → art_Inv q'.
Proof.
  intros Hq. unfold artwork_final, mbind, M_bind, gets, try, modify.
  destruct (on_art_media _ q) as [info q1] eqn:E. apply (art_media_ok _ _ _ _ _ E) in Hq.
  repeat case_match; intros [= _ <-]; simplify_eq; carries_on Hq.
Qed.

Lemma art_Inv_step s s' : art_Inv s → art_step s s' → art_Inv s'.
Proof.
  intros Hi Hs. destruct Hs as [id r s' E|p d path name remote reply q Hq|p d batch errors reply q Hq|p d batch errors q Hq _
    |late p d r q s' Hq E|p path name size j r q s' Hq _ _ E|p path name size q Hq|d|];
    try (apply art_taken in Hq; [|done]).
  - by eapply art_opened.
  - by apply art_enqueued_Inv.
  - by apply art_polled_Inv.
  - by (eapply art_finishes; [|exact Hq]).
  - by eapply art_final_Inv.
  - unfold artwork_waited, mbind, M_bind, gets in E. apply (art_leaves (ArtWait p path name size)); [done|].
    repeat case_match; [by injection E as _ <-| |by injection E as _ <-]. by eapply art_media_ok.
  - by apply (art_leaves (ArtWait p path name size)).
  - by apply (art_ok_core _ s).
  - by apply (art_ok_core _ s).
Qed.

Record art_idle (s : art_state) : Prop := {
  ai_jobs : artworkJobs s = ∅;
  ai_heap : art_heap s = ∅;
  ai_threads : art_threads s = [];
}.

Lemma art_reached_Inv s0 s : art_idle s0 → art_reached s0 s → art_Inv s.
Proof.
  intros [Ej Eh Et]. induction 1 as [|s s' _ IH Hs]; [|by eapply art_Inv_step].
  unfold art_Inv. rewrite Et. split; unfold art_fresh; rewrite ?Ej, ?Eh; cbn.
  - intros p. rewrite lookup_empty, map_size_empty. split; [by intros []|cbn; lia].
  - done.
  - done.
  - constructor.
  - intros d p []%elem_of_nil.
  - done.
  - intros p []%elem_of_nil.
Qed.

Lemma worker_single t d p : (d, p) ∈ worker t → worker t = [(d, p)].
Proof. by destruct t; cbn; [intros ->%list_elem_of_singleton..|intros ?%elem_of_nil]. Qed.

(** A cover that is served is an image whose identifier was decoded, of the size
    announced, which is not above the limit. *)
Lemma covers_have_the_announced_size id cover s s' :
  OpenArtwork id s = (Ok (Some cover), s') →
  ∃ remote, id = remoteArtworkPrefix +:+ TrimPrefix id remoteArtworkPrefix ∧
    decodeRemoteFileRef (TrimPrefix id remoteArtworkPrefix) = Ok remote ∧
    Z.of_nat (length (as_Content cover)) = rf_Size remote ∧ rf_Size remote ≤ maxRemoteArtworkSize ∧
    TrimPrefix (ToLower (Ext (rf_Path remote))) "." ∈ artworkExtensions ∧ as_Name cover = sanitizedFilename (rf_Path remote).
Proof.
  unfold OpenArtwork. destruct (HasPrefix _ _) eqn:Ep; [|done]. cbn [negb].
  destruct (decodeRemoteFileRef _) as [remote|e]; [|done]. destruct (_ || _) eqn:Eg; [done|]. intros E. inv_ok E; [|done].
  exists remote. apply orb_false_iff in Eg as [Eext%negb_false_iff%bool_decide_eq_true Esize%Z.ltb_ge].
  injection E as ->. revert Hm. unfold try. destruct (on_art_media _ s) as [r s1] eqn:Em. intros [= -> ->].
  unfold on_art_media, zoom in Em. destruct (openRemoteArtwork _ _ _ _) as [r d] eqn:Eo. injection Em as -> <-.
  unfold openRemoteArtwork in Eo. inv_ok Eo. cbn. split_and!; try done.
  - apply HasPrefix_spec in Ep as Es. unfold TrimPrefix. by rewrite Ep.
  - by apply negb_false_iff, Z.eqb_eq in Heqb.
Qed.

(** Covers are downloaded once at a time and nobody waits in vain: however
    callers, monitors and answers interleave, each unfinished download is the
    one registered for its cover and is carried on by exactly one goroutine; no
    two goroutines carry on a download of the same cover; whoever waits waits
    for a download that is over or that a goroutine carries on; and of the
    downloads that are over only successful ones stay registered. *)
Theorem covers_are_downloaded_once s0 s :
  art_idle s0 → art_reached s0 s →
  (∀ p j, art_heap s !! p = Some j → a_finished j = false →
     ∃ d t, t ∈ art_threads s ∧ worker t = [(d, p)] ∧ artworkJobs s !! d = Some p) ∧
  NoDup ((art_threads s ≫= worker).*1) ∧
  (∀ t p, t ∈ art_threads s → p ∈ waits_for t →
     ∃ j, art_heap s !! p = Some j ∧ (a_finished j = false → ∃ d t', t' ∈ art_threads s ∧ worker t' = [(d, p)])) ∧
  (∀ d p, artworkJobs s !! d = Some p → ∃ j, art_heap s !! p = Some j ∧ (a_finished j = true → a_err j = None)).
Proof.
  intros H0' Hr. pose proof (art_reached_Inv _ _ H0' Hr) as Hi.
  assert (∀ p j, art_heap s !! p = Some j → a_finished j = false →
     ∃ d t, t ∈ art_threads s ∧ worker t = [(d, p)] ∧ artworkJobs s !! d = Some p) as Hw.
  { intros p j Hj Hf. destruct (ao_unfinished _ _ Hi _ _ Hj Hf) as [d Hd].
    pose proof (ao_worker _ _ Hi _ _ Hd) as [Hjob _]. apply list_elem_of_bind in Hd as (t & Ht & Hin).
    exists d, t. split_and!; [done|by apply worker_single|done]. }
  split_and!; [done| | |].
  - apply NoDup_fmap_fst; [|apply (ao_unique _ _ Hi)]. intros d p q Hp Hq.
    apply (ao_worker _ _ Hi) in Hp as [Hp _], Hq as [Hq _]. congruence.
  - intros t p Ht Hp. destruct (ao_waits _ _ Hi p) as [j Hj]; [apply list_elem_of_bind; eauto|].
    exists j. split; [done|]. intros Hf. destruct (Hw p j Hj Hf) as (d & t' & ? & ? & _). eauto.
  - apply (ao_jobs _ _ Hi).
Qed.

Lemma absent_cover path name size files s :
  art_media s = mkDatabase files [] → files !! path = None →
  on_art_media (openRemoteArtwork path name size) s = (Err (Sentinel ErrOsNotExist), art_set_media (art_media s) s).
Proof.
  intros Hm Hn. unfold on_art_media, zoom, openRemoteArtwork, mbind, M_bind, os_ReadFile, statement.
  rewrite Hm. cbn. by rewrite Hn.
Qed.

(** A cover that was downloaded and is removed later is not downloaded again:
    the finished download stays registered, so a caller waits for it, finds it
    over, and gets no cover. *)
Lemma a_removed_cover_stays_away id remote files s p j :
  let destination := StableID "soulseek-cover" [TrimPrefix id remoteArtworkPrefix] in
  let name := sanitizedFilename (rf_Path remote) in
  let path := final_path downloadsDir destination name in
  HasPrefix id remoteArtworkPrefix = true → decodeRemoteFileRef (TrimPrefix id remoteArtworkPrefix) = Ok remote →
  TrimPrefix (ToLower (Ext (rf_Path remote))) "." ∈ artworkExtensions → rf_Size remote ≤ maxRemoteArtworkSize →
  art_media s = mkDatabase files [] → files !! path = None →
  artworkJobs s !! destination = Some p → art_heap s !! p = Some j → a_finished j = true → a_err j = None →
  ∃ q, OpenArtwork id s = (Ok None, q) ∧ artworkJobs q = artworkJobs s ∧ art_heap q = art_heap s ∧
    art_threads q = ArtWait p path name (rf_Size remote) :: art_threads s ∧
    (artwork_waited p path name (rf_Size remote) (art_set_threads (art_threads s) q)).1 = Err (Sentinel ErrOsNotExist).
Proof.
  cbn zeta. intros Hp Hd Hext Hsize Hmedia Hnone Hjob Hj Hf He.
  unfold OpenArtwork. rewrite Hp, Hd. cbn [negb]. rewrite bool_decide_eq_true_2 by done.
  replace (_ <? _) with false by (symmetry; by apply Z.ltb_ge). cbn [negb orb].
  unfold mbind, M_bind, try. rewrite (absent_cover _ _ _ files) by done. cbn [errors_Is].
  eexists. split; [done|]. unfold ensureArtworkDownload. cbn [artworkJobs art_set_media]. rewrite Hjob. split_and!; [done..|].
  unfold artwork_waited, mbind, M_bind, gets. cbn [art_heap art_set_threads art_with art_go art_set_media]. rewrite Hj, He.
  by rewrite (absent_cover _ _ _ files).
Qed.
End artwork.

(** * A concrete run *)

Section examples.
#[local] Existing Instances ascii_unicode plain_json.

#[local] Notation cover_id := (remoteArtworkPrefix +:+ encodeRemoteFileRef (mkRemote "peer" "A\c.jpg" 9)).
#[local] Notation idle := (mkArtState ∅ ∅ (mkDatabase ∅ []) false []).

Lemma covers_are_downloaded_once_witness :
  ∃ s j, art_heap s !! 0%N = Some j ∧ a_finished j = false ∧
    ∃ d t, t ∈ art_threads s ∧ worker t = [(d, 0%N)] ∧ artworkJobs s !! d = Some 0%N.
Proof.
  destruct (OpenArtwork "/d" cover_id idle) as [r s] eqn:E.
  assert (∃ j, art_heap s !! 0%N = Some j ∧ a_finished j = false) as (j & Hj & Hf).
  { vm_compute in E. injection E as _ <-. eexists. by vm_compute. }
  pose proof (art_next "/d" idle idle s (art_start "/d" idle) (art_open "/d" idle cover_id r s E)) as Hr.
  clear E. exists s, j. split; [exact Hj|]. split; [exact Hf|].
  assert (art_idle idle) as Hi by (split; reflexivity).
  destruct (covers_are_downloaded_once "/d" idle s Hi Hr) as (Hw & _). exact (Hw 0%N j Hj Hf).
Defined.
End examples.
