(* ===== verification/MagnetImports.v ===== *)
(** Magnet imports ([scanner/torrents/magnet_importer.go]): the jobs that fetch
    a magnet's metadata and hand it to the importer of torrent files.

    [metainfo.ParseMagnetUri] is third-party code and a parameter; the fetcher's
    and the importer's answers are arguments of the steps.  A goroutine of [run]
    is a [worker] at the point it has reached; a file of the imports directory
    holds a record, or the error of decoding it. *)
From stdpp Require Import base gmap strings list.
From Stdlib Require Import ZArith Lia Ascii.
From S2P Require Import Prelude GoStrings Sql Paths TorrentFiles TorrentPaths TorrentScan.

Open Scope Z_scope.
Open Scope go_scope.

(** * Data *)

Definition SourceImportStateFetching : string := "fetching_metadata".
Definition SourceImportStateScanning : string := "scanning".
Definition SourceImportStateReady : string := "ready".
Definition SourceImportStateFailed : string := "failed".

Record SourceImport := mkSourceImport {
  si_ID : string;
  si_Provider : string;
  si_Name : string;
  si_SourceID : string;
  si_Tracks : Z;
  si_State : string;
  si_Error : string;
  si_CreatedAt : time;
  si_UpdatedAt : time;
}.

Record magnetImportRecord := mkImportRecord {
  mr_Import : SourceImport;
  mr_URI : string;
}.

Definition mr_State (r : magnetImportRecord) : string := si_State (mr_Import r).

Notation import_files := (database (gmap string (res magnetImportRecord))).

(** The info hash in hexadecimal, and the display name. *)
Class Magnets := { ParseMagnetUri : string → res (string * string) }.

Class MagnetsLaws `{Magnets} := {
  law_magnet_hash uri id name : ParseMagnetUri uri = Ok (id, name) → String.length id = 40%nat ∧ hex_error id = None;
  law_magnet_empty id name : ParseMagnetUri "" ≠ Ok (id, name);
}.

(** [run], from its start to its deferred calls. *)
Inductive worker :=
  | Started (id : string)
  | Fetching (id uri : string)
  | Fetched (id : string) (contents : list Z)
  | Importing (id : string) (contents : list Z)
  | Waiting (id : string) (contents : list Z)
  | Succeeded (id : string) (result : SourceImportResult)
  | Failing (id : string) (cause : error)
  | Leaving (id : string).

Definition worker_id (w : worker) : string :=
  match w with
  | Started id | Fetching id _ | Fetched id _ | Importing id _ | Waiting id _ | Succeeded id _ | Failing id _ | Leaving id => id
  end.

Record magnet_importer := mkImporter {
  m_jobs : gmap string magnetImportRecord;
  m_active : gset string;
  m_closed : bool;
  m_dir : import_files;
  m_workers : list worker;
}.

Definition set_imports (f : gmap string magnetImportRecord → gmap string magnetImportRecord) (m : magnet_importer)
    : magnet_importer := mkImporter (f (m_jobs m)) (m_active m) (m_closed m) (m_dir m) (m_workers m).
Definition set_dir (d : import_files) (m : magnet_importer) : magnet_importer :=
  mkImporter (m_jobs m) (m_active m) (m_closed m) d (m_workers m).
Definition set_workers (ws : list worker) (m : magnet_importer) : magnet_importer :=
  mkImporter (m_jobs m) (m_active m) (m_closed m) (m_dir m) ws.
Definition set_running (f : gset string → gset string) (m : magnet_importer) : magnet_importer :=
  mkImporter (m_jobs m) (f (m_active m)) (m_closed m) (m_dir m) (m_workers m).
Definition add_worker (w : worker) (m : magnet_importer) : magnet_importer := set_workers (w :: m_workers m) m.

Section imports.
Context `{Runtime} `{Unicode} `{Magnets}.
(** [root], with its [imports] directory, and the name [os.CreateTemp] makes up. *)
Context (root temporaryPath : string).

Definition import_path (name : string) : string := JoinPath [root; name].
Definition record_path (id : string) : string := import_path (id +:+ ".json").

(** * Records on disk *)

Definition fill_record (record : magnetImportRecord) : M import_files unit :=
  _ ← wrap_err (λ e, Errorf "secure temporary magnet import job: " e "") (ExecContext id);
  _ ← wrap_err (λ e, Errorf "encode magnet import job: " e "") (os_WriteFile temporaryPath (Ok record));
  _ ← wrap_err (λ e, Errorf "sync magnet import job: " e "") (ExecContext id);
  _ ← wrap_err (λ e, Errorf "close magnet import job: " e "") (ExecContext id);
  wrap_err (λ e, Errorf "commit magnet import job: " e "")
    (os_Rename temporaryPath (record_path (si_ID (mr_Import record)))).

(** [persistLocked], with its deferred [os.Remove]; an empty file decodes to an error. *)
Definition commit_record (record : magnetImportRecord) : M import_files unit := λ d,
  let '(r, d) := fill_record record d in (r, (os_Remove temporaryPath d).2).

Definition persistLocked (record : magnetImportRecord) : M import_files unit :=
  _ ← wrap_err (λ e, Errorf "create magnet import job directory: " e "") os_MkdirAll;
  _ ← wrap_err (λ e, Errorf "create temporary magnet import job: " e "")
        (os_WriteFile temporaryPath (Err (Sentinel ErrEOF)));
  commit_record record.

Definition on_dir {A} (m : M import_files A) : M magnet_importer A := zoom m_dir set_dir m.

(** [load]: the entries of the directory that are no directories. *)
Definition load_record (name : string) (jobs : gmap string magnetImportRecord)
    : M import_files (gmap string magnetImportRecord) :=
  if negb (bool_decide (Ext name = ".json")) then mret jobs
  else
    contents ← wrap_err (λ e, Errorf ("read magnet import job " +:+ name +:+ ": ") e "") (os_ReadFile (import_path name));
    record ← wrap_err (λ e, Errorf ("decode magnet import job " +:+ name +:+ ": ") e "") (lift contents);
    if bool_decide (si_ID (mr_Import record) = "") || bool_decide (mr_URI record = "")
    then throw (Plain ("magnet import job " +:+ name +:+ " is incomplete"))
    else mret (<[si_ID (mr_Import record) := record]> jobs).

Fixpoint load (entries : list string) (jobs : gmap string magnetImportRecord)
    : M import_files (gmap string magnetImportRecord) :=
  match entries with
  | [] => mret jobs
  | name :: rest => jobs ← load_record name jobs; load rest jobs
  end.

(** * Requests *)

Definition startLocked (id : string) (m : magnet_importer) : magnet_importer :=
  if bool_decide (id ∈ m_active m) then m
  else add_worker (Started id) (set_running (λ active, {[id]} ∪ active) m).

Definition unfinished (r : magnetImportRecord) : bool :=
  bool_decide (mr_State r = SourceImportStateFetching) || bool_decide (mr_State r = SourceImportStateScanning).

(** [NewMagnetImporter]: [entries] are the names of the directory, the error
    that reading it gives, or [None] when there is no such directory. *)
Definition NewMagnetImporter (entries : option (res (list string))) (d : import_files) : res magnet_importer * import_files :=
  let start jobs d :=
    fold_left (λ m '(id, record), if unfinished record then startLocked id m else m) (map_range jobs)
      (mkImporter jobs ∅ false d []) in
  match entries with
  | None => (Ok (start ∅ d), d)
  | Some (Err e) => (Err (Errorf "read magnet import jobs: " e ""), d)
  | Some (Ok names) =>
      match load names ∅ d with
      | (Ok jobs, d) => (Ok (start jobs d), d)
      | (Err e, d) => (Err e, d)
      end
  end.

(** The record of a new request. *)
Definition requested (now : time) (id name uri : string) (existing : option magnetImportRecord) : magnetImportRecord :=
  let createdAt :=
    match existing with
    | Some r => if IsZero (si_CreatedAt (mr_Import r)) then now else si_CreatedAt (mr_Import r)
    | None => now
    end in
  mkImportRecord (mkSourceImport id "torrent" (TrimSpace name) id 0 SourceImportStateFetching "" createdAt now) uri.

Definition ImportURI (now : time) (cancelled : option error) (uri : string) : M magnet_importer SourceImport :=
  match cancelled with
  | Some e => throw e
  | None =>
      let uri := TrimSpace uri in
      match ParseMagnetUri uri with
      | Err e => throw (Errorf "parse magnet URI: " e "")
      | Ok (id, name) =>
          existing ← gets (λ m, m_jobs m !! id);
          let again :=
            let record := requested now id name uri existing in
            _ ← modify (set_imports <[id := record]>);
            saved ← try (on_dir (persistLocked record));
            match saved with
            | Err e => _ ← modify (set_imports (delete id)); throw e
            | Ok _ => _ ← modify (startLocked id); mret (mr_Import record)
            end in
          match existing with
          | Some r => if bool_decide (mr_State r = SourceImportStateFailed) then again else mret (mr_Import r)
          | None => again
          end
      end
  end.

(** [SourceImports]. *)
Definition import_before (x y : SourceImport) : bool :=
  if si_UpdatedAt x =? si_UpdatedAt y then str_ltb (si_ID x) (si_ID y) else si_UpdatedAt y <? si_UpdatedAt x.

Definition SourceImports (m : magnet_importer) : list SourceImport :=
  sort_slice import_before (map (λ x, mr_Import x.2) (map_range (m_jobs m))).

(** * The goroutine *)

Definition with_import_state (state message : string) (now : time) (r : magnetImportRecord) : magnetImportRecord :=
  let i := mr_Import r in
  mkImportRecord (mkSourceImport (si_ID i) (si_Provider i) (si_Name i) (si_SourceID i) (si_Tracks i) state message
    (si_CreatedAt i) now) (mr_URI r).

Definition with_result (result : SourceImportResult) (now : time) (r : magnetImportRecord) : magnetImportRecord :=
  let i := mr_Import r in
  mkImportRecord (mkSourceImport (si_ID i) (si_Provider i) (imp_Name result) (imp_SourceID result) (imp_Tracks result)
    SourceImportStateReady "" (si_CreatedAt i) now) (mr_URI r).

(** A job is changed and saved; [missing] when there is no such job. *)
Definition change_job (id : string) (f : magnetImportRecord → magnetImportRecord) (missing : res unit)
    : M magnet_importer unit :=
  existing ← gets (λ m, m_jobs m !! id);
  match existing with
  | None => lift missing
  | Some r => _ ← modify (set_imports <[id := f r]>); on_dir (persistLocked (f r))
  end.

Definition setState (now : time) (id state : string) : M magnet_importer unit :=
  change_job id (with_import_state state "" now) (Err (Sentinel ErrNotFound)).

Definition complete (now : time) (id : string) (result : SourceImportResult) (m : magnet_importer) : magnet_importer :=
  (change_job id (with_result result now) (Ok tt) m).2.

Definition fail (now : time) (id : string) (cause : error) (m : magnet_importer) : magnet_importer :=
  (change_job id (with_import_state SourceImportStateFailed (Error cause) now) (Ok tt) m).2.

(** What the goroutine does next; [None] when it is over. *)
Inductive answer_of :=
  | NoAnswer
  | FetchAnswer (reply : res (list Z))
  | ImportAnswer (reply : res SourceImportResult).

Definition run_step (now : time) (a : answer_of) (w : worker) (m : magnet_importer) : magnet_importer :=
  match w, a with
  | Started id, _ =>
      match m_jobs m !! id with
      | None => add_worker (Leaving id) m
      | Some record => add_worker (Fetching id (mr_URI record)) m
      end
  | Fetching id uri, FetchAnswer (Ok contents) => add_worker (Fetched id contents) m
  | Fetching id uri, FetchAnswer (Err e) =>
      if m_closed m then add_worker (Leaving id) m
      else add_worker (Failing id (Errorf "fetch torrent metadata: " e "")) m
  | Fetched id contents, _ =>
      match setState now id SourceImportStateScanning m with
      | (Ok _, m) => add_worker (Importing id contents) m
      | (Err e, m) => add_worker (Failing id e) m
      end
  | Importing id contents, ImportAnswer (Ok result) => add_worker (Succeeded id result) m
  | Importing id contents, ImportAnswer (Err e) =>
      if m_closed m then add_worker (Leaving id) m
      else if negb (errors_Is ErrScanInProgress e)
      then add_worker (Failing id (Errorf "import fetched torrent metadata: " e "")) m
      else add_worker (Waiting id contents) m
  | Waiting id contents, _ => add_worker (Importing id contents) m
  | Succeeded id result, _ => add_worker (Leaving id) (complete now id result m)
  | Failing id cause, _ => add_worker (Leaving id) (fail now id cause m)
  | Leaving id, _ => set_running (λ active, active ∖ {[id]}) m
  | _, _ => add_worker w m
  end.

(** * Steps *)

Definition working (m : magnet_importer) (w : worker) (q : magnet_importer) : Prop :=
  ∃ rest, m_workers m ≡ₚ w :: rest ∧ q = set_workers rest m.

Inductive import_step (m : magnet_importer) : magnet_importer → Prop :=
  | step_request now cancelled uri r m' : ImportURI now cancelled uri m = (r, m') → import_step m m'
  | step_run now a w q : working m w q → import_step m (run_step now a w q)
  | step_stop_waiting id contents q :
      working m (Waiting id contents) q → m_closed m = true → import_step m (add_worker (Leaving id) q)
  | step_close : import_step m (mkImporter (m_jobs m) (m_active m) true (m_dir m) (m_workers m)).

Inductive imports_reached (m0 : magnet_importer) : magnet_importer → Prop :=
  | imports_start : imports_reached m0 m0
  | imports_next m m' : imports_reached m0 m → import_step m m' → imports_reached m0 m'.
End imports.

(** * The invariant *)

Section facts.
Context `{Runtime} `{Unicode} `{Magnets}.
Context (root temporaryPath : string).

Notation ImportURI := (ImportURI root temporaryPath).
Notation persistLocked := (persistLocked root temporaryPath).
Notation run_step := (run_step root temporaryPath).
Notation import_step := (import_step root temporaryPath).
Notation imports_reached := (imports_reached root temporaryPath).
Notation change_job := (change_job root temporaryPath).

Definition leaving (w : worker) : bool := match w with Leaving _ => true | _ => false end.

(** What a goroutine may rely on at the point it has reached. *)
Definition point_ok (jobs : gmap string magnetImportRecord) (w : worker) : Prop :=
  match w with
  | Started id | Fetching id _ | Fetched id _ | Failing id _ => ∃ r, jobs !! id = Some r ∧ unfinished r = true
  | Importing id _ | Waiting id _ | Succeeded id _ => ∃ r, jobs !! id = Some r ∧ mr_State r = SourceImportStateScanning
  | Leaving _ => True
  end.

Record imports_ok (ws : list worker) (m : magnet_importer) : Prop := {
  io_distinct : NoDup (map worker_id ws);
  io_active id : id ∈ m_active m ↔ id ∈ map worker_id ws;
  io_points : Forall (point_ok (m_jobs m)) ws;
  io_scanning id r : m_jobs m !! id = Some r → mr_State r = SourceImportStateScanning →
    m_closed m = true ∨ ∃ w, w ∈ ws ∧ worker_id w = id ∧ leaving w = false;
}.

Definition imports_Inv (m : magnet_importer) : Prop := imports_ok (m_workers m) m.

(** How a job may change. *)
Inductive moves : option magnetImportRecord → option magnetImportRecord → Prop :=
  | moves_not o : moves o o
  | moves_requested o r : match o with Some x => mr_State x = SourceImportStateFailed | None => True end →
      mr_State r = SourceImportStateFetching → moves o (Some r)
  | moves_withdrawn x : mr_State x = SourceImportStateFailed → moves (Some x) None
  | moves_scanning x r : unfinished x = true → mr_State r = SourceImportStateScanning → moves (Some x) (Some r)
  | moves_ready x r : mr_State x = SourceImportStateScanning → mr_State r = SourceImportStateReady → moves (Some x) (Some r)
  | moves_failed x r : unfinished x = true → mr_State r = SourceImportStateFailed → moves (Some x) (Some r).

Lemma on_dir_seen {A} (f : M import_files A) m r m' :
  on_dir f m = (r, m') → ∃ d, m' = set_dir d m.
Proof. unfold on_dir, zoom. destruct (f (m_dir m)) as [x d]. intros [= _ <-]. eauto. Qed.

Lemma change_job_run id f missing m r m' :
  change_job id f missing m = (r, m') →
  match m_jobs m !! id with
  | None => r = missing ∧ m' = m
  | Some x => ∃ d, m' = set_dir d (set_imports <[id := f x]> m)
  end.
Proof.
  unfold MagnetImports.change_job, mbind, M_bind, gets, modify. destruct (m_jobs m !! id) as [x|] eqn:E; cbn.
  - intros (d & ->)%on_dir_seen. eauto.
  - by intros [= <- <-].
Qed.

(** What a request does: nothing to the jobs, or it makes one that is not there
    or has failed anew and starts its goroutine, or takes it back. *)
Lemma ImportURI_run now cancelled uri m r m' :
  ImportURI now cancelled uri m = (r, m') →
  m' = m ∨ ∃ id name d, ParseMagnetUri (TrimSpace uri) = Ok (id, name) ∧
    match m_jobs m !! id with Some x => mr_State x = SourceImportStateFailed | None => True end ∧
    (m' = set_dir d (set_imports (delete id) m) ∨
     m' = startLocked id (set_dir d (set_imports <[id := requested now id name (TrimSpace uri) (m_jobs m !! id)]> m))).
Proof.
  unfold MagnetImports.ImportURI. destruct cancelled as [e|]; [intros [= _ <-]; by left|].
  destruct (ParseMagnetUri _) as [[id name]|e]; [|intros [= _ <-]; by left].
  unfold mbind, M_bind, gets, modify, try. set (record := requested _ _ _ _ _).
  assert (∀ r m', (let '(o, s) := on_dir (persistLocked record) (set_imports <[id := record]> m) in
      match o with
      | Ok _ => (Ok (mr_Import record), startLocked id s)
      | Err e => (Err e, set_imports (delete id) s)
      end) = (r, m') → ∃ d, m' = set_dir d (set_imports (delete id) m) ∨
        m' = startLocked id (set_dir d (set_imports <[id := record]> m))) as Hagain.
  { intros r0 m0. destruct (on_dir _ _) as [o s] eqn:E. apply on_dir_seen in E as [d ->].
    destruct o; intros [= _ <-]; exists d; [by right|left]. unfold set_imports, set_dir. cbn. by rewrite delete_insert_eq. }
  destruct (m_jobs m !! id) as [x|] eqn:Ex; [case_bool_decide as Hs|].
  - intros E. destruct (Hagain r m') as [d Hd]; [|right; exists id, name, d; rewrite Ex; auto].
    revert E. by destruct (on_dir _ _) as [[u|e] s].
  - intros [= _ <-]. by left.
  - intros E. destruct (Hagain r m') as [d Hd]; [|right; exists id, name, d; rewrite Ex; auto].
    revert E. by destruct (on_dir _ _) as [[u|e] s].
Qed.

Lemma point_ok_other jobs jobs' w :
  jobs' !! worker_id w = jobs !! worker_id w → point_ok jobs w → point_ok jobs' w.
Proof. intros E. destruct w; cbn in *; try rewrite E; done. Qed.

Lemma imports_ok_perm ws ws' m : ws ≡ₚ ws' → imports_ok ws m → imports_ok ws' m.
Proof.
  intros Hp []. split.
  - change (map worker_id ?l) with (worker_id <$> l). by rewrite <- Hp.
  - intros id. rewrite io_active0. change (map worker_id ?l) with (worker_id <$> l). by rewrite Hp.
  - by rewrite <- Hp.
  - intros id r Hr Hs. destruct (io_scanning0 _ _ Hr Hs) as [?|(w & Hw & ?)]; [by left|]. rewrite Hp in Hw. eauto.
Qed.

Lemma working_ok m w q : working m w q → imports_Inv m → imports_ok (w :: m_workers q) q.
Proof. intros (rest & Hp & ->) Hi. destruct (imports_ok_perm _ _ _ Hp Hi). by split. Qed.

(** A goroutine that goes on, having changed at most its own job. *)
Lemma goes_on w w' q m :
  imports_ok (w :: m_workers q) q → worker_id w' = worker_id w →
  m_active m = m_active q → m_closed m = m_closed q → m_workers m = w' :: m_workers q →
  (∀ id, id ≠ worker_id w → m_jobs m !! id = m_jobs q !! id) → point_ok (m_jobs m) w' →
  (leaving w' = true → ∀ r, m_jobs m !! worker_id w = Some r → mr_State r = SourceImportStateScanning → m_closed m = true) →
  imports_Inv m.
Proof.
  intros [Hd Ha Hp Hs] Hid Ea Ec Ew Hj Hw Hl. unfold imports_Inv. rewrite Ew. apply Forall_cons in Hp as [_ Hp].
  cbn in Hd, Ha. apply NoDup_cons in Hd as [Hn Hd]. split; cbn.
  - rewrite Hid. by apply NoDup_cons.
  - intros id. rewrite Ea, Hid. apply Ha.
  - apply Forall_cons. split; [done|]. rewrite Forall_forall in *. intros x Hx.
    apply (point_ok_other (m_jobs q)); [|by apply Hp]. apply Hj. intros E. apply Hn. rewrite <- E.
    apply list_elem_of_fmap. eauto.
  - intros id r Hr Hsc. destruct (decide (id = worker_id w)) as [->|Hne].
    + destruct (leaving w') eqn:El; [left; by eapply Hl|]. right. exists w'. split_and!; [by left|done|done].
    + rewrite Hj in Hr by done. destruct (Hs _ _ Hr Hsc) as [?|(x & Hx & Hxi & Hxl)]; [left; congruence|].
      right. exists x. split_and!; [|done|done]. apply elem_of_cons in Hx as [->|?]; [done|by right].
Qed.

(** A goroutine that goes on without touching the jobs. *)
Lemma goes_on_only w w' q :
  imports_ok (w :: m_workers q) q → worker_id w' = worker_id w → point_ok (m_jobs q) w' →
  (leaving w' = true → m_closed q = true ∨ ∀ r, m_jobs q !! worker_id w = Some r → mr_State r ≠ SourceImportStateScanning) →
  imports_Inv (add_worker w' q).
Proof.
  intros Hq Hid Hp Hl. eapply (goes_on w w' q); try done. intros El r Hr Hs. destruct (Hl El) as [?|Hn]; [done|by destruct (Hn r)].
Qed.

(** All of the invariant but what is owed to jobs. *)
Definition staffed (m : magnet_importer) : Prop :=
  NoDup (map worker_id (m_workers m)) ∧ (∀ id, id ∈ m_active m ↔ id ∈ map worker_id (m_workers m)) ∧
  Forall (point_ok (m_jobs m)) (m_workers m).

Lemma start_staffed id m :
  staffed m → (id ∉ m_active m → ∃ r, m_jobs m !! id = Some r ∧ unfinished r = true) → staffed (startLocked id m).
Proof.
  intros Hi Hj. unfold startLocked. case_bool_decide as Ha; [done|]. specialize (Hj Ha). destruct Hi as (Hd & Hac & Hp).
  split_and!; cbn.
  - apply NoDup_cons. by rewrite <- Hac.
  - intros x. rewrite elem_of_union, elem_of_singleton, elem_of_cons, Hac. naive_solver.
  - apply Forall_cons. by split.
Qed.

Lemma start_ok id m :
  imports_Inv m → (id ∉ m_active m → ∃ r, m_jobs m !! id = Some r ∧ unfinished r = true) → imports_Inv (startLocked id m).
Proof.
  intros [? ? ? Hs] Hj. destruct (start_staffed id m) as (? & ? & ?); [done|done|]. split; [done|done|done|].
  unfold startLocked in *. case_bool_decide; [done|]. cbn. intros x r Hx Hsc.
  destruct (Hs x r Hx Hsc) as [?|(w & ? & ?)]; [by left|]. right. exists w. split; [by right|done].
Qed.

(** A job that is over or not there has no goroutine but one that leaves, and
    may be changed. *)
Lemma idle_job m id w :
  match m_jobs m !! id with Some x => mr_State x = SourceImportStateFailed | None => True end →
  imports_Inv m → w ∈ m_workers m → worker_id w = id → leaving w = true.
Proof.
  intros Hid Hi Hw <-. pose proof (proj1 (Forall_forall _ _) (io_points _ _ Hi) _ Hw) as Hp.
  destruct w; try done; cbn in Hp, Hid; destruct Hp as (r & E & Hr); rewrite E in Hid; unfold unfinished in Hr; by rewrite Hid in Hr.
Qed.

Lemma idle_job_changes m m' id :
  imports_Inv m → match m_jobs m !! id with Some x => mr_State x = SourceImportStateFailed | None => True end →
  (∀ i, i ≠ id → m_jobs m' !! i = m_jobs m !! i) → (∀ r, m_jobs m' !! id = Some r → mr_State r ≠ SourceImportStateScanning) →
  m_active m' = m_active m → m_closed m' = m_closed m → m_workers m' = m_workers m → imports_Inv m'.
Proof.
  intros Hi Hid Hj Hs Ea Ec Ew. pose proof Hi as [Hd Hac Hp Hsc]. split; rewrite ?Ew; try done.
  - intros x. by rewrite Ea.
  - rewrite Forall_forall in *. intros w Hw. destruct (decide (worker_id w = id)) as [E|Hne].
    + pose proof (idle_job m id w Hid Hi Hw E) as Hl. by destruct w.
    + apply (point_ok_other (m_jobs m)); [by apply Hj|by apply Hp].
  - intros x r Hx Hst. destruct (decide (x = id)) as [->|Hne]; [by destruct (Hs r)|].
    rewrite Hj in Hx by done. rewrite Ec. by eapply Hsc.
Qed.

Lemma request_ok now cancelled uri m r m' : ImportURI now cancelled uri m = (r, m') → imports_Inv m → imports_Inv m'.
Proof.
  intros E Hi. apply ImportURI_run in E as [->|(id & name & d & _ & Hid & [->| ->])]; [done| |].
  - apply (idle_job_changes m _ id); try done; cbn; [intros i Hne; by rewrite lookup_delete_ne|by rewrite lookup_delete_eq].
  - apply start_ok.
    + apply (idle_job_changes m _ id); try done; cbn; [intros i Hne; by rewrite lookup_insert_ne|].
      rewrite lookup_insert_eq. by intros r0 [= <-].
    + intros _. cbn. rewrite lookup_insert_eq. by eexists.
Qed.

(** A goroutine that changes its own job and goes on. *)
Lemma own_job w w' id f missing q r q' x :
  imports_ok (w :: m_workers q) q → worker_id w = id → worker_id w' = id → m_jobs q !! id = Some x →
  change_job id f missing q = (r, q') → (∀ jobs, jobs !! id = Some (f x) → point_ok jobs w') →
  (leaving w' = true → mr_State (f x) ≠ SourceImportStateScanning) → imports_Inv (add_worker w' q').
Proof.
  intros Hq Hid Hid' Hx E Hp Hl. apply change_job_run in E. rewrite Hx in E. destruct E as [d ->].
  apply (goes_on w w' q); try done; cbn; [congruence| | |].
  - intros i Hne. rewrite lookup_insert_ne; [done|]. congruence.
  - apply Hp. by rewrite lookup_insert_eq.
  - intros El r0. rewrite Hid, lookup_insert_eq. intros [= <-] Hs. by destruct (Hl El).
Qed.

Lemma unfinished_not_over r : unfinished r = true → mr_State r ≠ SourceImportStateReady ∧ mr_State r ≠ SourceImportStateFailed.
Proof. unfold unfinished. rewrite orb_true_iff, !bool_decide_eq_true. by intros [-> | ->]. Qed.

Lemma run_step_ok now a w m q : working m w q → imports_Inv m → imports_Inv (run_step now a w q).
Proof.
  intros Hw Hi. pose proof (working_ok _ _ _ Hw Hi) as Hq.
  pose proof (proj1 (proj1 (Forall_cons _ _ _) (io_points _ _ Hq))) as Hp.
  destruct w as [id|id uri|id contents|id contents|id contents|id result|id cause|id]; cbn [MagnetImports.run_step].
  - destruct Hp as (r & E & Hr). rewrite E. apply (goes_on_only _ _ _ Hq); [done|by exists r|done].
  - destruct a as [|[contents|e]|]; try (apply (goes_on_only _ _ _ Hq); done).
    destruct (m_closed q) eqn:Ec; apply (goes_on_only _ _ _ Hq); try done. intros _. by left.
  - destruct Hp as (x & Hx & Hr). destruct (setState _ _ _ _ _ _) as [[u|e] q'] eqn:E.
    + eapply (own_job _ _ id _ _ q _ q' x); try done. intros jobs Ej. by eexists.
    + eapply (own_job _ _ id _ _ q _ q' x); try done. intros jobs Ej. by eexists.
  - destruct a as [| |[result|e]]; try (apply (goes_on_only _ _ _ Hq); done).
    destruct (m_closed q) eqn:Ec; [apply (goes_on_only _ _ _ Hq); try done; by left|].
    destruct Hp as (r & Hr & Hs). case_match; apply (goes_on_only _ _ _ Hq); try done; exists r; [|done].
    split; [done|]. unfold unfinished. by rewrite Hs.
  - by apply (goes_on_only _ _ _ Hq).
  - destruct Hp as (x & Hx & Hs). unfold complete. destruct (MagnetImports.change_job _ _ _ _ _ _) as [r q'] eqn:E.
    eapply (own_job _ _ id _ _ q _ q' x); try done.
  - destruct Hp as (x & Hx & Hs). unfold fail. destruct (MagnetImports.change_job _ _ _ _ _ _) as [r q'] eqn:E.
    eapply (own_job _ _ id _ _ q _ q' x); try done.
  - destruct Hq as [Hd Ha Hpts Hs]. apply Forall_cons in Hpts as [_ Hpts]. cbn in Hd, Ha. apply NoDup_cons in Hd as [Hn Hd].
    split; cbn; try done.
    + intros x. rewrite elem_of_difference, elem_of_singleton, Ha, elem_of_cons. split; [naive_solver|].
      intros Hx. split; [by right|]. by intros ->.
    + intros x r Hx Hsc. destruct (Hs x r Hx Hsc) as [?|(w & Hw' & Hid & Hl)]; [by left|]. right.
      apply elem_of_cons in Hw' as [->|?]; [done|eauto].
Qed.

Lemma step_ok m m' : import_step m m' → imports_Inv m → imports_Inv m'.
Proof.
  intros Hs Hi. destruct Hs as [now cancelled uri r m' E|now a w q Hw|id contents q Hw Hc|].
  - by eapply request_ok.
  - by eapply run_step_ok.
  - pose proof (working_ok _ _ _ Hw Hi) as Hq. apply (goes_on_only _ _ _ Hq); try done. intros _. left.
    by destruct Hw as (rest & _ & ->).
  - destruct Hi as [? ? ? Hs]. split; try done. intros id r Hr Hst. by left.
Qed.

(** * New importers *)

Lemma start_fold l m :
  staffed m → NoDup l.*1 →
  (∀ id r, (id, r) ∈ l → m_jobs m !! id = Some r) →
  let m' := fold_left (λ m '(id, record), if unfinished record then startLocked id m else m) l m in
  staffed m' ∧ m_jobs m' = m_jobs m ∧ m_closed m' = m_closed m ∧ m_dir m' = m_dir m ∧
  (∀ w, w ∈ m_workers m' → w ∈ m_workers m ∨ ∃ id, w = Started id) ∧
  ∀ id, id ∈ m_active m' ↔ id ∈ m_active m ∨ ∃ r, (id, r) ∈ l ∧ unfinished r = true.
Proof.
  cbn zeta. revert m. induction l as [|[i r] l IH]; intros m Hi Hnd Hl.
  - split_and!; try done; [by left|]. intros id. split; [by left|]. intros [?|(r & []%elem_of_nil & _)]; done.
  - apply NoDup_cons in Hnd as [_ Hnd]. cbn [fold_left]. set (m1 := if unfinished r then startLocked i m else m).
    assert (m_jobs m1 = m_jobs m ∧ m_closed m1 = m_closed m ∧ m_dir m1 = m_dir m ∧ staffed m1 ∧
      (∀ w, w ∈ m_workers m1 → w ∈ m_workers m ∨ ∃ id, w = Started id) ∧
      ∀ id, id ∈ m_active m1 ↔ id ∈ m_active m ∨ id = i ∧ unfinished r = true) as (Ej & Ec & Ed & Hi1 & Hw1 & Ha1).
    { unfold m1. destruct (unfinished r) eqn:Er; [|split_and!; try done; [by left|intros id; naive_solver]].
      assert (staffed (startLocked i m)) as Hs.
      { apply start_staffed; [done|]. intros _. exists r. split; [apply Hl; by left|done]. }
      split_and!; [| | |exact Hs| |]; unfold startLocked in *; case_bool_decide as Hb; try done; cbn.
      - by left.
      - intros w [->|?]%elem_of_cons; [right; eauto|by left].
      - intros id. split; [by left|]. intros [?|[-> _]]; done.
      - intros id. rewrite elem_of_union, elem_of_singleton. naive_solver. }
    destruct (IH m1) as (G1 & G2 & G3 & G4 & G5 & G6); [done|done| |].
    { intros id x Hx. rewrite Ej. apply Hl. by right. }
    split_and!; [done|congruence|congruence|congruence| |].
    + intros w [Hw|?]%G5; [by apply Hw1|by right].
    + intros id. rewrite G6, Ha1. setoid_rewrite elem_of_cons. naive_solver.
Qed.

Lemma new_importer_ok entries d m0 d0 :
  NewMagnetImporter root entries d = (Ok m0, d0) →
  imports_Inv m0 ∧ m_dir m0 = d0 ∧ m_closed m0 = false ∧ (∀ w, w ∈ m_workers m0 → ∃ id, w = Started id) ∧
  (∀ id, id ∈ m_active m0 ↔ ∃ r, m_jobs m0 !! id = Some r ∧ unfinished r = true) ∧
  match entries with
  | Some (Ok names) => load root names ∅ d = (Ok (m_jobs m0), d0)
  | Some (Err _) => False
  | None => m_jobs m0 = ∅ ∧ d0 = d
  end.
Proof.
  unfold NewMagnetImporter. intros E.
  assert (∀ jobs d1, let m := fold_left (λ m '(id, record), if unfinished record then startLocked id m else m) (map_range jobs)
      (mkImporter jobs ∅ false d1 []) in
    imports_Inv m ∧ m_dir m = d1 ∧ m_closed m = false ∧ (∀ w, w ∈ m_workers m → ∃ id, w = Started id) ∧
    (∀ id, id ∈ m_active m ↔ ∃ r, jobs !! id = Some r ∧ unfinished r = true) ∧ m_jobs m = jobs) as Hstart.
  { intros jobs d1 m. pose proof (start_fold (map_range jobs) (mkImporter jobs ∅ false d1 [])) as Hf. cbn zeta in Hf. fold m in Hf.
    destruct Hf as (G1 & G2 & G3 & G4 & G5 & G6).
    - split_and!; cbn; [constructor| |constructor]. intros id. by rewrite elem_of_nil, elem_of_empty.
    - change (map fst ?l) with (fst <$> l). rewrite map_range_perm. apply NoDup_fst_map_to_list.
    - intros id r. rewrite map_range_perm. by intros ?%elem_of_map_to_list.
    - cbn [m_active m_jobs m_closed m_dir m_workers] in G2, G3, G4, G5, G6.
      assert (∀ id, id ∈ m_active m ↔ ∃ r, jobs !! id = Some r ∧ unfinished r = true) as Ha.
      { intros id. rewrite G6, elem_of_empty. setoid_rewrite map_range_perm. setoid_rewrite elem_of_map_to_list. naive_solver. }
      assert (∀ w, w ∈ m_workers m → ∃ id, w = Started id) as Hw.
      { intros w [[]%elem_of_nil|?]%G5. done. }
      split_and!; try done. destruct G1 as (Hd & Hac & Hp). split; [done|done|done|].
      rewrite G2. intros id r Hr Hs. right. assert (id ∈ m_active m) as Hin.
      { apply Ha. exists r. split; [done|]. unfold unfinished. rewrite Hs. done. }
      apply Hac, list_elem_of_fmap in Hin as (w & -> & Hin). destruct (Hw w Hin) as [id ->]. eauto. }
  destruct entries as [[names|e]|]; [| |].
  - destruct (load root names ∅ d) as [[jobs|e] d1]; [|done]. injection E as <- <-.
    destruct (Hstart jobs d1) as (? & ? & ? & ? & ? & E). split_and!; try done; by rewrite E.
  - done.
  - injection E as <- <-. destruct (Hstart ∅ d) as (? & ? & ? & ? & ? & E). split_and!; try done; by rewrite E.
Qed.

Lemma reached_ok m0 m : imports_Inv m0 → imports_reached m0 m → imports_Inv m.
Proof. intros Hi. induction 1 as [|m m' _ IH Hs]; [done|]. by eapply step_ok. Qed.

(** * The states of a job *)

Lemma moves_at id (jobs jobs' : gmap string magnetImportRecord) :
  (∀ i, i ≠ id → jobs' !! i = jobs !! i) → moves (jobs !! id) (jobs' !! id) → ∀ i, moves (jobs !! i) (jobs' !! i).
Proof. intros Hj Hm i. destruct (decide (i = id)) as [->|Hne]; [done|]. rewrite Hj by done. constructor. Qed.

Lemma request_moves now cancelled uri m r m' :
  ImportURI now cancelled uri m = (r, m') → ∀ i, moves (m_jobs m !! i) (m_jobs m' !! i).
Proof.
  intros E. apply ImportURI_run in E as [->|(id & name & d & _ & Hid & [->| ->])]; [constructor| |].
  - apply (moves_at id); cbn; [intros i Hne; by rewrite lookup_delete_ne|]. rewrite lookup_delete_eq.
    destruct (m_jobs m !! id); by constructor.
  - set (m1 := set_dir _ _). assert (m_jobs (startLocked id m1) = m_jobs m1) as ->.
    { unfold startLocked. by case_bool_decide. }
    apply (moves_at id); cbn; [intros i Hne; by rewrite lookup_insert_ne|]. rewrite lookup_insert_eq. by apply moves_requested.
Qed.

Lemma change_moves id f missing q r q' x :
  change_job id f missing q = (r, q') → m_jobs q !! id = Some x → moves (Some x) (Some (f x)) →
  ∀ i, moves (m_jobs q !! i) (m_jobs q' !! i).
Proof.
  intros E Hx Hm. apply change_job_run in E. rewrite Hx in E. destruct E as [d ->].
  apply (moves_at id); cbn; [intros i Hne; by rewrite lookup_insert_ne|]. by rewrite lookup_insert_eq, Hx.
Qed.

Lemma run_step_moves now a w m q :
  working m w q → imports_Inv m → ∀ i, moves (m_jobs q !! i) (m_jobs (run_step now a w q) !! i).
Proof.
  intros Hw Hi. pose proof (working_ok _ _ _ Hw Hi) as Hq.
  pose proof (proj1 (proj1 (Forall_cons _ _ _) (io_points _ _ Hq))) as Hp.
  destruct w as [id|id uri|id contents|id contents|id contents|id result|id cause|id];
    cbn [MagnetImports.run_step]; cbn [point_ok] in Hp;
    try (repeat case_match; intros i; constructor).
  - destruct Hp as (x & Hx & Hr). destruct (setState _ _ _ _ _ _) as [[u|e] q'] eqn:E; cbn;
      (eapply change_moves; [exact E|exact Hx|by apply moves_scanning]).
  - destruct Hp as (x & Hx & Hr). unfold complete. destruct (MagnetImports.change_job _ _ _ _ _ _) as [r q'] eqn:E. cbn.
    eapply change_moves; [exact E|exact Hx|by apply moves_ready].
  - destruct Hp as (x & Hx & Hr). unfold fail. destruct (MagnetImports.change_job _ _ _ _ _ _) as [r q'] eqn:E. cbn.
    eapply change_moves; [exact E|exact Hx|by apply moves_failed].
Qed.

Lemma step_moves m m' : import_step m m' → imports_Inv m → ∀ i, moves (m_jobs m !! i) (m_jobs m' !! i).
Proof.
  intros Hs Hi. destruct Hs as [now cancelled uri r m' E|now a w q Hw|id contents q Hw Hc|].
  - by eapply request_moves.
  - pose proof (run_step_moves now a w m q Hw Hi) as Hm. by destruct Hw as (rest & _ & ->).
  - destruct Hw as (rest & _ & ->). constructor.
  - constructor.
Qed.

(** C17. Imports only move forward: however requests, goroutines and answers
    interleave, also after a restart, a job goes from fetching to scanning to
    ready, or fails; a job that is ready stays as it is; only a failed one, or
    one that is not there, is requested anew.  Every import has at most one
    goroutine, [active] names exactly the imports that have one, a goroutine
    that is not leaving has a job that is not over, and while the importer is
    open a job that is scanning has its goroutine. *)
Theorem imports_move_forward entries d m0 d0 m m' :
  NewMagnetImporter root entries d = (Ok m0, d0) → imports_reached m0 m → import_step m m' →
  (∀ id, moves (m_jobs m !! id) (m_jobs m' !! id)) ∧
  (∀ id r, m_jobs m !! id = Some r → mr_State r = SourceImportStateReady → m_jobs m' !! id = Some r) ∧
  NoDup (map worker_id (m_workers m')) ∧ (∀ id, id ∈ m_active m' ↔ id ∈ map worker_id (m_workers m')) ∧
  (∀ w, w ∈ m_workers m' → leaving w = false → ∃ r, m_jobs m' !! worker_id w = Some r ∧ unfinished r = true) ∧
  (∀ id r, m_jobs m' !! id = Some r → mr_State r = SourceImportStateScanning → m_closed m' = false →
     ∃ w, w ∈ m_workers m' ∧ worker_id w = id ∧ leaving w = false).
Proof.
  intros Hn Hr Hs. apply new_importer_ok in Hn as (Hi0 & _). pose proof (reached_ok _ _ Hi0 Hr) as Hi.
  pose proof (step_ok _ _ Hs Hi) as [Hd Ha Hp Hsc]. pose proof (step_moves _ _ Hs Hi) as Hm. split_and!; try done.
  - intros id r Hid Hready. specialize (Hm id). rewrite Hid in Hm.
    inversion Hm as [o E1 E2|o r' Ho Hr' E1 E2|x Hx E1 E2|x r' Hx Hr' E1 E2|x r' Hx Hr' E1 E2|x r' Hx Hr' E1 E2]; subst; try done.
    + by rewrite Hready in Ho.
    + by rewrite Hready in Hx.
    + by apply unfinished_not_over in Hx as [? _].
    + by rewrite Hready in Hx.
    + by apply unfinished_not_over in Hx as [? _].
  - intros w Hw Hl. rewrite Forall_forall in Hp. specialize (Hp w Hw).
    destruct w; try done; cbn in *; destruct Hp as (r & ? & Hst); exists r; split; try done; unfold unfinished; by rewrite Hst.
  - intros id r Hid Hst Hc. destruct (Hsc id r Hid Hst) as [?|?]; [congruence|done].
Qed.
End facts.

(** * On disk *)

Section restart.
Context `{Runtime} `{Unicode} `{MagnetsLaws}.
Context (dir : list string) (tmp : string).
Context (Hdir : Forall proper dir) (Htmp : proper tmp) (Hext : Ext tmp ≠ ".json").

Notation root := (abs_path dir).
Notation temporaryPath := (entry_path dir tmp).
Notation persistLocked := (persistLocked root temporaryPath).
Notation import_step := (import_step root temporaryPath).
Notation imports_reached := (imports_reached root temporaryPath).
Notation change_job := (change_job root temporaryPath).
Notation run_step := (run_step root temporaryPath).

Definition is_hash (id : string) : Prop := String.length id = 40%nat ∧ hex_error id = None.

Lemma last_dot_app s t e : last_dot t = Some e → last_dot (s +:+ t) = Some e.
Proof.
  intros Ht. induction s as [|a s IH]; [done|]. change (String a s +:+ t) with (String a (s +:+ t)).
  cbn [last_dot]. by rewrite IH.
Qed.

Lemma lacks_both sep s t : lacks sep s → lacks sep t → lacks sep (s +:+ t).
Proof.
  intros Hs Ht. induction s as [|a s IH]; [done|]. change (String a s +:+ t) with (String a (s +:+ t)).
  apply lacks_cons in Hs as [Ha Hs]. apply lacks_cons. auto.
Qed.

Lemma record_name id : is_hash id → proper (id +:+ ".json") ∧ Ext (id +:+ ".json") = ".json".
Proof.
  intros [Hl Hh]. assert (lacks slash (id +:+ ".json")) as Hn.
  { apply lacks_both; [by apply hex_lacks_slash|]. by vm_compute; repeat (apply not_elem_of_cons; split; [done|]); apply not_elem_of_nil. }
  split.
  - assert (id ≠ "") by (intros ->; done). destruct id as [|a id]; [done|].
    repeat split; try done; intros E; apply (f_equal String.length) in E; cbn in E, Hl; rewrite str_length_app in E; cbn in E; lia.
  - unfold Ext, last_elem. rewrite Split_lacks_all by done. cbn. by rewrite (last_dot_app id ".json" ".json").
Qed.

Lemma record_not_temporary id : is_hash id → record_path root id ≠ temporaryPath.
Proof.
  intros Hh E. apply record_name in Hh as [Hp He]. apply (entry_path_inj dir Hdir) in E; [|done|done]. by rewrite E in He.
Qed.

Lemma record_path_inj id i : is_hash id → is_hash i → record_path root id = record_path root i → id = i.
Proof.
  intros Hh Hi E. apply (entry_path_inj dir Hdir) in E; [|by apply record_name..].
  destruct Hh as [Hl _], Hi as [Hl' _]. clear -E Hl Hl'. assert (String.length id = String.length i) as Hlen by congruence. clear Hl Hl'.
  revert i E Hlen. induction id as [|a id IH]; intros [|b i] E Hlen; try done.
  change (String a (id +:+ ".json") = String b (i +:+ ".json")) in E. injection E as -> E.
  injection Hlen as Hlen. by rewrite (IH i).
Qed.

Lemma persist_saves record d :
  is_hash (si_ID (mr_Import record)) → faults d = [] →
  ∃ d', persistLocked record d = (Ok tt, d') ∧ faults d' = [] ∧
    tables d' = delete temporaryPath (<[record_path root (si_ID (mr_Import record)) := Ok record]> (tables d)).
Proof.
  intros Hh Hf. pose proof (record_not_temporary _ Hh) as Hne. destruct d as [t fs]. cbn in Hf. subst fs.
  unfold MagnetImports.persistLocked, commit_record, fill_record, os_MkdirAll, os_WriteFile, os_Rename, os_Remove, ExecContext, statement.
  unfold mbind, M_bind, wrap_err. cbn. rewrite lookup_insert_eq. cbn.
  rewrite lookup_insert_ne, lookup_delete_eq by done. cbn. eexists. split_and!; [done|done|]. cbn.
  rewrite !insert_insert_eq, delete_insert_eq. by rewrite delete_insert_ne.
Qed.

(** What the disk does not fail, and every job and nothing else is saved on. *)
Record saved (jobs : gmap string magnetImportRecord) (d : import_files) : Prop := {
  sv_faults : faults d = [];
  sv_jobs id r : jobs !! id = Some r →
    is_hash id ∧ si_ID (mr_Import r) = id ∧ mr_URI r ≠ "" ∧ tables d !! record_path root id = Some (Ok r);
  sv_files name : proper name → Ext name = ".json" → is_Some (tables d !! entry_path dir name) →
    ∃ id, name = id +:+ ".json" ∧ is_Some (jobs !! id);
}.

Definition stored (m : magnet_importer) : Prop := saved (m_jobs m) (m_dir m).

Lemma persist_saved jobs record d r d' :
  saved jobs d → is_hash (si_ID (mr_Import record)) → mr_URI record ≠ "" → persistLocked record d = (r, d') →
  r = Ok tt ∧ saved (<[si_ID (mr_Import record) := record]> jobs) d'.
Proof.
  intros [Hf Hj Hn] Hh Hu E. destruct (persist_saves record d Hh Hf) as (d1 & E1 & Hf1 & Ht1).
  rewrite E1 in E. injection E as <- <-. split; [done|]. set (id := si_ID (mr_Import record)) in *. split; [done| |].
  - intros i x. rewrite Ht1. intros [[<- <-]|[Hne Hx]]%lookup_insert_Some.
    + split_and!; try done. rewrite lookup_delete_ne by (apply not_eq_sym; by apply record_not_temporary). by rewrite lookup_insert_eq.
    + destruct (Hj _ _ Hx) as (Hi & ? & ? & Hp). split_and!; try done.
      rewrite lookup_delete_ne by (apply not_eq_sym; by apply record_not_temporary).
      rewrite lookup_insert_ne; [done|]. intros Ep. apply Hne. by apply record_path_inj.
  - intros name Hp He. rewrite Ht1. intros [c [Hne Hc]%lookup_delete_Some].
    apply lookup_insert_Some in Hc as [[Ep _]|[Hne' Hc]].
    + exists id. apply (entry_path_inj dir Hdir) in Ep; [|by apply record_name|done]. split; [done|].
      rewrite lookup_insert_eq. by eexists.
    + destruct (Hn name Hp He) as (i & -> & Hi); [by eexists|]. exists i. split; [done|].
      destruct (decide (i = id)) as [->|?]; [rewrite lookup_insert_eq; by eexists|by rewrite lookup_insert_ne].
Qed.

Lemma change_stored id f missing m r m' :
  stored m → (∀ x, si_ID (mr_Import (f x)) = si_ID (mr_Import x) ∧ mr_URI (f x) = mr_URI x) →
  change_job id f missing m = (r, m') → stored m'.
Proof.
  intros Hs Hf. unfold MagnetImports.change_job, mbind, M_bind, gets, modify. destruct (m_jobs m !! id) as [x|] eqn:Ex; cbn; [|by intros [= _ <-]].
  unfold on_dir, zoom. cbn. destruct (MagnetImports.persistLocked _ _ _ _) as [r0 d] eqn:E. intros [= _ <-].
  destruct (sv_jobs _ _ Hs _ _ Ex) as (Hh & Hid & Hu & _). destruct (Hf x) as [E1 E2].
  destruct (persist_saved (m_jobs m) (f x) (m_dir m) r0 d Hs) as [_ Hsv]; [by rewrite E1, Hid|by rewrite E2|exact E|].
  rewrite E1, Hid in Hsv. exact Hsv.
Qed.

Lemma ImportURI_stored now cancelled uri m r m' :
  stored m → ImportURI root temporaryPath now cancelled uri m = (r, m') → stored m'.
Proof.
  intros Hs. unfold ImportURI. destruct cancelled as [e|]; [by intros [= _ <-]|].
  destruct (ParseMagnetUri _) as [[id name]|e] eqn:Ep; [|by intros [= _ <-]].
  assert (is_hash id) as Hh by by apply law_magnet_hash in Ep.
  assert (TrimSpace uri ≠ "") as Hu by (intros Eu; rewrite Eu in Ep; by apply law_magnet_empty in Ep).
  unfold mbind, M_bind, gets, modify, try. set (record := requested _ _ _ _ _).
  assert (∀ r m', (let '(o, s) := on_dir (persistLocked record) (set_imports <[id := record]> m) in
      match o with
      | Ok _ => (Ok (mr_Import record), startLocked id s)
      | Err e => (Err e, set_imports (delete id) s)
      end) = (r, m') → stored m') as Hagain.
  { intros r0 m0. unfold on_dir, zoom. cbn. destruct (MagnetImports.persistLocked _ _ _ _) as [o d] eqn:E.
    destruct (persist_saved (m_jobs m) record (m_dir m) o d Hs) as [-> Hsv]; [done|done|exact E|]. intros [= _ <-].
    unfold startLocked. by case_bool_decide. }
  destruct (m_jobs m !! id) as [x|] eqn:Ex; [case_bool_decide as Hst|].
  - intros E. apply (Hagain r m'). revert E. by destruct (on_dir _ _) as [[u|e] s].
  - by intros [= _ <-].
  - intros E. apply (Hagain r m'). revert E. by destruct (on_dir _ _) as [[u|e] s].
Qed.

Lemma step_stored m m' : import_step m m' → stored m → stored m'.
Proof.
  intros Hstep Hs. destruct Hstep as [now cancelled uri r m' E|now a w q Hw|id contents q Hw Hc|].
  - by eapply ImportURI_stored.
  - destruct Hw as (rest & _ & ->). assert (stored (set_workers rest m)) as Hq by done.
    destruct w; cbn [MagnetImports.run_step]; try (repeat case_match; exact Hq).
    + destruct (setState _ _ _ _ _ _) as [[u|e] q'] eqn:E; (assert (stored q') as Hq' by (by eapply change_stored; [exact Hq| |exact E]); exact Hq').
    + unfold complete. destruct (MagnetImports.change_job _ _ _ _ _ _) as [r q'] eqn:E.
      assert (stored q') as Hq' by (by eapply change_stored; [exact Hq| |exact E]). exact Hq'.
    + unfold fail. destruct (MagnetImports.change_job _ _ _ _ _ _) as [r q'] eqn:E.
      assert (stored q') as Hq' by (by eapply change_stored; [exact Hq| |exact E]). exact Hq'.
  - by destruct Hw as (rest & _ & ->).
  - done.
Qed.

(** * Restarts *)

(** [os.ReadDir]: the names of the files of the directory. *)
Definition lists (names : list string) (d : import_files) : Prop :=
  ∀ name, name ∈ names ↔ proper name ∧ is_Some (tables d !! entry_path dir name).

Lemma str_app_inj_prefix s t u : s +:+ u = t +:+ u → s = t.
Proof.
  intros E. apply (f_equal String.list_ascii_of_string) in E. rewrite !list_ascii_app in E. apply app_inv_tail in E.
  by rewrite <- (String.string_of_list_ascii_of_string s), E, String.string_of_list_ascii_of_string.
Qed.

Lemma load_record_saved jobs acc d id r :
  saved jobs d → jobs !! id = Some r → load_record root (id +:+ ".json") acc d = (Ok (<[id := r]> acc), d).
Proof.
  intros [Hf Hj _] Hr. destruct (Hj _ _ Hr) as (Hh & Hid & Hu & Hp). unfold load_record.
  rewrite (proj2 (record_name id Hh)). cbn [negb]. rewrite bool_decide_eq_true_2 by done. cbn [negb].
  destruct d as [t fs]. cbn in *. subst fs. unfold mbind, M_bind, wrap_err, os_ReadFile, statement, lift. cbn.
  unfold record_path in Hp. rewrite Hp. cbn. rewrite Hid.
  rewrite bool_decide_eq_false_2, bool_decide_eq_false_2 by (try done; by intros ->; destruct Hh). done.
Qed.

Lemma load_saved jobs d l acc :
  saved jobs d → Forall (λ name, proper name ∧ is_Some (tables d !! entry_path dir name)) l →
  ∃ loaded, load root l acc d = (Ok loaded, d) ∧
    ∀ id, loaded !! id = if bool_decide (id +:+ ".json" ∈ l) then jobs !! id else acc !! id.
Proof.
  intros Hs Hl. revert acc. induction Hl as [|name l [Hp Hin] _ IH]; intros acc.
  - exists acc. split; [done|]. intros id. by rewrite bool_decide_eq_false_2 by apply not_elem_of_nil.
  - cbn [load]. unfold mbind, M_bind. destruct (decide (Ext name = ".json")) as [He|He].
    + destruct (sv_files _ _ Hs name Hp He Hin) as (i & -> & r & Hr). rewrite (load_record_saved jobs acc d i r) by done.
      destruct (IH (<[i := r]> acc)) as (loaded & E & Hl). exists loaded. split; [done|]. intros id. rewrite Hl.
      destruct (decide (id = i)) as [->|Hne].
      * rewrite lookup_insert_eq, Hr. rewrite (bool_decide_eq_true_2 (_ ∈ _ :: _)) by by left. by case_bool_decide.
      * rewrite lookup_insert_ne by done. rewrite (bool_decide_ext (id +:+ ".json" ∈ l) (id +:+ ".json" ∈ (i +:+ ".json") :: l)); [done|].
        rewrite elem_of_cons. split; [by right|]. intros [E'|?]; [|done]. by apply str_app_inj_prefix in E'.
    + unfold load_record. rewrite bool_decide_eq_false_2 by done. cbn [negb mret M_ret].
      destruct (IH acc) as (loaded & E & Hl). exists loaded. split; [done|]. intros id. rewrite Hl.
      rewrite (bool_decide_ext (id +:+ ".json" ∈ l) (id +:+ ".json" ∈ name :: l)); [done|].
      rewrite elem_of_cons. split; [by right|]. intros [<-|?]; [|done].
      destruct He. unfold Ext, last_elem. rewrite Split_lacks_all by by apply proper_lacks. cbn. by rewrite (last_dot_app id ".json" ".json").
Qed.

Lemma load_lists jobs d names :
  saved jobs d → lists names d → load root names ∅ d = (Ok jobs, d).
Proof.
  intros Hs Hn. destruct (load_saved jobs d names ∅ Hs) as (loaded & E & Hl).
  { apply Forall_forall. intros name. apply Hn. }
  rewrite E. repeat f_equal. apply map_eq. intros id. rewrite Hl, lookup_empty. case_bool_decide as Hb; [done|].
  destruct (jobs !! id) as [r|] eqn:Er; [|done]. destruct Hb. apply Hn.
  destruct (sv_jobs _ _ Hs _ _ Er) as (Hh & _ & _ & Hp). split; [by apply record_name|]. eexists. exact Hp.
Qed.

(** An importer that began without files, and every one started on the files
    of another, wherever that one stopped. *)
Inductive imports_lived : magnet_importer → Prop :=
  | lived_fresh m d : NewMagnetImporter root None (mkDatabase ∅ []) = (Ok m, d) → imports_lived m
  | lived_step m m' : imports_lived m → import_step m m' → imports_lived m'
  | lived_restart m names m' d : imports_lived m → lists names (m_dir m) →
      NewMagnetImporter root (Some (Ok names)) (m_dir m) = (Ok m', d) → imports_lived m'.

Lemma lived_stored m : imports_lived m → stored m.
Proof.
  induction 1 as [m d E|m m' _ IH Hs|m names m' d _ IH Hn E].
  - apply new_importer_ok in E as (_ & Ed & _ & _ & _ & Ej & ->). unfold stored. rewrite Ej, Ed. split; [done| |].
    + intros id r Hr. by rewrite lookup_empty in Hr.
    + intros name _ _ [c Hc]. cbn in Hc. by rewrite lookup_empty in Hc.
  - by eapply step_stored.
  - apply new_importer_ok in E as (_ & Ed & _ & _ & _ & El). rewrite (load_lists _ _ _ IH Hn) in El.
    injection El as Ej E. unfold stored. by rewrite <- Ej, Ed, <- E.
Qed.

(** Imports survive a restart: when the disk does not fail, wherever the
    importer stops, a new one on its files has exactly the same jobs, in the
    same states, and a goroutine for each of those, and only those, that are
    not over, also for one that had been left without. *)
Theorem imports_survive_a_restart m names :
  imports_lived m → lists names (m_dir m) →
  ∃ m', NewMagnetImporter root (Some (Ok names)) (m_dir m) = (Ok m', m_dir m) ∧ m_jobs m' = m_jobs m ∧
    (∀ id r, m_jobs m !! id = Some r → tables (m_dir m) !! record_path root id = Some (Ok r)) ∧
    ∀ id, Started id ∈ m_workers m' ↔ ∃ r, m_jobs m !! id = Some r ∧ unfinished r = true.
Proof.
  intros Hl Hn. pose proof (lived_stored _ Hl) as Hs. pose proof (load_lists _ _ _ Hs Hn) as El.
  assert (∃ m', NewMagnetImporter root (Some (Ok names)) (m_dir m) = (Ok m', m_dir m)) as [m' E].
  { unfold NewMagnetImporter. rewrite El. by eexists. }
  exists m'. split; [done|]. apply new_importer_ok in E as (Hi & _ & _ & Hw & Ha & El'). rewrite El in El'. injection El' as Ej.
  split_and!; [done| |].
  - intros id r Hr. by destruct (sv_jobs _ _ Hs _ _ Hr) as (_ & _ & _ & ?).
  - intros id. rewrite Ej, <- Ha, (io_active _ _ Hi). split.
    + intros Hin. apply list_elem_of_fmap. by exists (Started id).
    + intros (w & -> & Hin)%list_elem_of_fmap. destruct (Hw w Hin) as [i ->]. done.
Qed.
End restart.

(** * What the model shows of the code, and concrete inputs *)

Section examples.
#[local] Existing Instances stable_runtime ascii_unicode.

#[local] Notation toy_id := "0123456789012345678901234567890123456789".
#[local] Instance toy_magnets : Magnets := {|
  ParseMagnetUri uri := if bool_decide (uri = "magnet:a") then Ok (toy_id, "Album") else Err (Plain "invalid magnet URI");
|}.

#[local] Instance toy_magnets_laws : MagnetsLaws.
Proof.
  split.
  - intros uri id name. cbn. case_bool_decide; [|done]. by intros [= <- _].
  - done.
Qed.

#[local] Notation request := (ImportURI (abs_path ["d"]) (entry_path ["d"] "tmp") 0 None "magnet:a").
#[local] Notation next := (run_step (abs_path ["d"]) (entry_path ["d"] "tmp") 0).
#[local] Notation reached := (imports_reached (abs_path ["d"]) (entry_path ["d"] "tmp")).

Definition toy_importer : magnet_importer := mkImporter ∅ ∅ false (mkDatabase ∅ []) [].

(** The only goroutine of an importer takes its step. *)
Definition toy_next (a : answer_of) (m : magnet_importer) : magnet_importer :=
  match m_workers m with [w] => next a w (set_workers [] m) | _ => m end.

Lemma toy_next_reached m0 a m : reached m0 m → reached m0 (toy_next a m).
Proof.
  intros Hr. unfold toy_next. destruct (m_workers m) as [|w [|]] eqn:E; try done.
  eapply imports_next; [done|]. apply step_run. exists []. by rewrite E.
Qed.

Lemma toy_request_reached m0 m : reached m0 m → reached m0 (request m).2.
Proof. intros Hr. eapply imports_next; [done|]. eapply (step_request _ _ _ 0 None "magnet:a"). exact (surjective_pairing _). Qed.

(** A request for an import that says it is fetching starts nothing. *)
Lemma fetching_is_not_started_again m r :
  m_jobs m !! toy_id = Some r → mr_State r = SourceImportStateFetching → request m = (Ok (mr_Import r), m).
Proof.
  intros Hr Hs. assert (ParseMagnetUri (TrimSpace "magnet:a") = Ok (toy_id, "Album")) as Ep by by vm_compute.
  unfold ImportURI. rewrite Ep. unfold mbind, M_bind, gets. rewrite Hr. by rewrite Hs.
Qed.

(** A failed import that is requested again before its goroutine has left is
    saved and reported as fetching, but nothing fetches it, and requesting it
    again does not help: it stays so until the server restarts. *)
Lemma retry_is_lost_while_the_goroutine_leaves :
  ∃ m r, reached toy_importer m ∧ m_jobs m !! toy_id = Some r ∧ mr_State r = SourceImportStateFetching ∧
    m_workers m = [] ∧ m_closed m = false ∧ request m = (Ok (mr_Import r), m).
Proof.
  set (m1 := toy_next NoAnswer (toy_next (FetchAnswer (Err (Plain "no peers"))) (toy_next NoAnswer (request toy_importer).2))).
  set (m := toy_next NoAnswer (request m1).2). exists m.
  assert (reached toy_importer m) as Hm.
  { do 2 first [apply toy_next_reached | apply toy_request_reached].
    do 3 apply toy_next_reached. apply toy_request_reached. apply imports_start. }
  destruct (m_jobs m !! toy_id) as [r|] eqn:Hr; [|by vm_compute in Hr]. exists r.
  assert (mr_State r = SourceImportStateFetching) as Hs by (vm_compute in Hr; injection Hr as <-; reflexivity).
  assert (m_workers m = []) as Hw by (vm_compute; reflexivity).
  assert (m_closed m = false) as Hc by (vm_compute; reflexivity).
  pose proof (fetching_is_not_started_again m r Hr Hs) as Hf. clearbody m.
  split_and!; [exact Hm|reflexivity|exact Hs|exact Hw|exact Hc|exact Hf].
Qed.

Lemma imports_move_forward_witness :
  moves (m_jobs toy_importer !! toy_id) (m_jobs (request toy_importer).2 !! toy_id) ∧
  length (m_workers (request toy_importer).2) = 1%nat.
Proof.
  assert (NewMagnetImporter (abs_path ["d"]) None (mkDatabase ∅ []) = (Ok toy_importer, mkDatabase ∅ [])) as Hn by by vm_compute.
  split; [|by vm_compute].
  destruct (imports_move_forward (abs_path ["d"]) (entry_path ["d"] "tmp") None (mkDatabase ∅ []) toy_importer (mkDatabase ∅ [])
    toy_importer (request toy_importer).2) as [Hm _]; [exact Hn|apply imports_start| |apply Hm].
  eapply (step_request _ _ _ 0 None "magnet:a"). exact (surjective_pairing _).
Defined.

Lemma toy_proper : Forall proper ["d"] ∧ proper "tmp".
Proof. split; repeat constructor; try discriminate; unfold lacks; by compute_done. Qed.

Lemma toy_lists : lists ["d"] [toy_id +:+ ".json"] (m_dir (request toy_importer).2).
Proof.
  assert (proper (toy_id +:+ ".json")) as Hn by (apply record_name; split; vm_compute; reflexivity).
  intros name. rewrite list_elem_of_singleton. split.
  - intros ->. split; [exact Hn|]. vm_compute. by eexists.
  - intros [Hp [c Hc]].
    assert (tables (m_dir (request toy_importer).2) =
      {[entry_path ["d"] (toy_id +:+ ".json") :=
        Ok (requested 0 toy_id "Album" "magnet:a" None)]}) as Et by (vm_compute; reflexivity).
    rewrite Et in Hc. apply lookup_singleton_Some in Hc as [E _]. symmetry.
    apply (entry_path_inj ["d"]) in E; [exact E|apply toy_proper|exact Hn|exact Hp].
Qed.

Lemma imports_survive_a_restart_witness :
  ∃ m', NewMagnetImporter (abs_path ["d"]) (Some (Ok [toy_id +:+ ".json"])) (m_dir (request toy_importer).2) =
    (Ok m', m_dir (request toy_importer).2) ∧ Started toy_id ∈ m_workers m'.
Proof.
  destruct (imports_survive_a_restart ["d"] "tmp") with (m := (request toy_importer).2) (names := [toy_id +:+ ".json"])
    as (m' & E & _ & _ & Hw); [apply toy_proper|apply toy_proper|done| |apply toy_lists|].
  - eapply lived_step; [eapply lived_fresh|eapply (step_request _ _ _ 0 None "magnet:a")]; [by vm_compute|].
    exact (surjective_pairing _).
  - exists m'. split; [exact E|]. apply Hw. exists (requested 0 toy_id "Album" "magnet:a" None). split; by vm_compute.
Defined.
End examples.
