(* ===== verification/Backup.v ===== *)
(** Backup and restore ([backup/archive.go], [backup/restore.go]).

    The tar and gzip formats, the manifest's JSON and the snapshot of the
    database are other packages' code and are parameters.  A call of the
    operating system is a statement on a map from paths to nodes that may fail
    as scheduled; creating a directory and syncing change nothing in the map. *)
From stdpp Require Import base gmap strings list.
From Stdlib Require Import ZArith Lia Ascii.
From S2P Require Import Prelude GoStrings GoTime GoHash Sql Paths TorrentFiles.

Open Scope Z_scope.
Open Scope go_scope.

(** * The file system *)

Inductive node :=
  | Regular (contents : list Z)
  | Symlink (target : string)
  | Irregular.

Notation file_system := (database (gmap string node)).

Definition os_Lstat (p : string) : M file_system node := os_ReadFile p.

(** Following at most 40 symbolic links, as Linux does. *)
Fixpoint followed (n : nat) (t : gmap string node) (p : string) : res node :=
  match t !! p with
  | None => Err (Sentinel ErrOsNotExist)
  | Some (Symlink q) =>
      match n with
      | O => Err (Plain "too many levels of symbolic links")
      | S n' => followed n' t q
      end
  | Some x => Ok x
  end.

(** [os.Stat], and [os.Open] of the node it finds. *)
Definition os_Stat (p : string) : M file_system node :=
  statement (λ t, match followed 40 t p with Ok x => Ok (x, t) | Err e => Err e end).

(** [io.Copy] from an open file. *)
Definition read_node (x : node) : M file_system (list Z) :=
  statement (λ t, match x with Regular bs => Ok (bs, t) | _ => Err (Plain "is a directory") end).

Definition os_Create (p : string) : M file_system unit :=
  statement (λ t, match t !! p with
    | Some _ => Err (Plain "file exists")
    | None => Ok (tt, <[p := Regular []]> t)
    end).

Definition os_Link (src dst : string) : M file_system unit :=
  statement (λ t, match t !! src, t !! dst with
    | None, _ => Err (Sentinel ErrOsNotExist)
    | Some _, Some _ => Err (Plain "file exists")
    | Some x, None => Ok (tt, <[dst := x]> t)
    end).

(** [os.RemoveAll] of a directory with the given files. *)
Definition os_RemoveAll (paths : list string) : M file_system unit :=
  ExecContext (λ t, fold_left (λ t p, delete p t) paths t).

(** A call that changes no file, and the cancellation of the context. *)
Definition os_call : M file_system unit := ExecContext id.
Definition ctx_Err : M file_system unit := λ d,
  match faults d with
  | Some Cancelled :: fs => (Err (Sentinel ErrContextCanceled), mkDatabase (tables d) fs)
  | fs => (Ok tt, mkDatabase (tables d) (tail fs))
  end.

(** [defer cleanup()], its error ignored. *)
Definition deferring {A} (cleanup : M file_system unit) (m : M file_system A) : M file_system A := λ d,
  let '(r, d) := m d in (r, (cleanup d).2).

(** * Manifests and archives *)

Definition FormatVersion : Z := 1.
Definition manifestSizeLimit : Z := 2 ^ 20.

Record ManifestFile := mkManifestFile {
  mf_Name : string;
  mf_Size : Z;
  mf_SHA256 : string;
}.

Record Manifest := mkManifest {
  mn_FormatVersion : Z;
  mn_CreatedAt : string;
  mn_Files : list ManifestFile;
}.

(** An entry [tar.Reader.Next] reports: reading it gives [te_data] and then its
    end or an error. *)
Record tar_entry := mkTarEntry {
  te_Name : string;
  te_regular : bool;
  te_Size : Z;
  te_data : list Z;
  te_error : option error;
}.

Class Archives := {
  marshal_manifest : Manifest → list Z;
  unmarshal_manifest : list Z → res Manifest;
  pack : time → list (string * list Z) → list Z;
  (** the entries and what ends them, [None] for [io.EOF] *)
  unpack : list Z → res (list tar_entry * option error);
}.

Definition packed_entry (x : string * list Z) : tar_entry := mkTarEntry x.1 true (Z.of_nat (length x.2)) x.2 None.

Class ArchivesLaws `{Archives} := {
  law_manifest m : unmarshal_manifest (marshal_manifest m ++ [10]) = Ok m;
  law_archive t l : unpack (pack t l) = Ok (map packed_entry l, None);
}.

Definition hex_digit (v : Z) : Z := if v <? 10 then 48 + v else 87 + v.
Definition hex_EncodeToString (bs : list Z) : string :=
  of_bytes (concat (map (λ b, [hex_digit (b / 16); hex_digit (b mod 16)]) bs)).

Definition manifest_file (name : string) (contents : list Z) : ManifestFile :=
  mkManifestFile name (Z.of_nat (length contents)) (hex_EncodeToString (Sum256 contents)).

(** [path] of a file for [name]. *)
Record archiveFile := mkArchiveFile {
  af_name : string;
  af_path : string;
}.

Definition inspectFile (file : archiveFile) : M file_system ManifestFile :=
  let name := af_name file in
  source ← wrap_err (λ e, Errorf ("open backup file " +:+ name +:+ ": ") e "") (os_Stat (af_path file));
  copied ← try (read_node source);
  closed ← try os_call;
  match copied with
  | Err e => throw (Errorf ("hash backup file " +:+ name +:+ ": ") e "")
  | Ok contents =>
      match closed with
      | Err e => throw (Errorf ("close backup file " +:+ name +:+ ": ") e "")
      | Ok _ => mret (manifest_file name contents)
      end
  end.

Section backup.
Context `{Archives}.
(** The names the operating system makes up. *)
Context (workspace temporaryPath : string) (stagedPaths : list string).

Definition work_path (name : string) : string := JoinPath [workspace; name].
Definition database_name : string := "peerphonic.db".
Definition key_name : string := "peerphonic.db.auth.key".
Definition work_files : list string := [work_path database_name; work_path key_name].

(** * Create *)

Record Options := mkOptions {
  o_OutputPath : string;
  o_CredentialKeyPath : string;
}.

Definition ensureMissing (path : string) : M file_system unit :=
  r ← try (os_Lstat path);
  match r with
  | Ok _ => throw (Plain ("backup output " +:+ path +:+ " already exists"))
  | Err e => if errors_Is ErrOsNotExist e then mret tt else throw (Errorf "inspect backup output: " e "")
  end.

Definition ensureCredentialKey (path : string) : M file_system unit :=
  info ← wrap_err (λ e, Errorf "stat credential key: " e "") (os_Stat path);
  match info with
  | Regular contents =>
      if Z.of_nat (length contents) =? 32 then mret tt
      else throw (Plain ("credential key " +:+ path +:+ " must be a 32-byte regular file"))
  | _ => throw (Plain ("credential key " +:+ path +:+ " must be a 32-byte regular file"))
  end.

(** [writeFile]: the header's size and the contents are those of one open file. *)
Definition writeFile (file : archiveFile) : M file_system (string * list Z) :=
  source ← os_Stat (af_path file);
  _ ← os_call;
  _ ← ctx_Err;
  contents ← read_node source;
  mret (af_name file, contents).

Fixpoint writeFiles (files : list archiveFile) : M file_system (list (string * list Z)) :=
  match files with
  | [] => mret []
  | file :: rest => entry ← writeFile file; entries ← writeFiles rest; mret (entry :: entries)
  end.

(** The writers and the file are closed after the first error too, which
    changes nothing: the file is removed then. *)
Definition writeArchive (outputPath : string) (createdAt : time) (manifest : list Z) (files : list archiveFile)
    : M file_system unit :=
  _ ← wrap_err (λ e, Errorf "create temporary backup archive: " e "") (os_Create temporaryPath);
  deferring (os_Remove temporaryPath)
    (_ ← wrap_err (λ e, Errorf "protect backup archive: " e "") os_call;
     _ ← wrap_err (λ e, Errorf "write backup archive: " e "")
           (_ ← os_call;
            entries ← writeFiles files;
            _ ← os_call;
            _ ← os_WriteFile temporaryPath (Regular (pack createdAt (("manifest.json", manifest) :: entries)));
            _ ← os_call; os_call);
     wrap_err (λ e, Errorf "commit backup archive: " e "") (os_Link temporaryPath outputPath)).

Fixpoint inspectFiles (files : list archiveFile) : M file_system (list ManifestFile) :=
  match files with
  | [] => mret []
  | file :: rest => entry ← inspectFile file; entries ← inspectFiles rest; mret (entry :: entries)
  end.

Definition Create (createdAt : time) (snapshotter : option (string → M file_system unit)) (options : Options)
    : M file_system Manifest :=
  match snapshotter with
  | None => throw (Plain "metadata snapshotter is required")
  | Some Snapshot =>
      if bool_decide (o_OutputPath options = "") then throw (Plain "backup output path is required")
      else if bool_decide (o_CredentialKeyPath options = "") then throw (Plain "credential key path is required")
      else
        _ ← ensureMissing (o_OutputPath options);
        _ ← ensureCredentialKey (o_CredentialKeyPath options);
        _ ← wrap_err (λ e, Errorf "create backup directory: " e "") os_MkdirAll;
        _ ← wrap_err (λ e, Errorf "create backup workspace: " e "") os_call;
        deferring (os_RemoveAll work_files)
          (_ ← wrap_err (λ e, Errorf "snapshot metadata: " e "") (Snapshot (work_path database_name));
           let files := [mkArchiveFile database_name (work_path database_name);
                         mkArchiveFile key_name (o_CredentialKeyPath options)] in
           entries ← inspectFiles files;
           let manifest := mkManifest FormatVersion (FormatRFC3339Nano createdAt) entries in
           _ ← writeArchive (o_OutputPath options) createdAt (marshal_manifest manifest ++ [10]) files;
           mret manifest)
  end.

(** * Restore *)

Record RestoreOptions := mkRestoreOptions {
  ro_InputPath : string;
  ro_DatabasePath : string;
  ro_CredentialKeyPath : string;
  ro_Force : bool;
}.

Record restoreTarget := mkTarget {
  rt_source : string;
  rt_destination : string;
}.

Definition allowed (name : string) : bool :=
  bool_decide (name = "manifest.json") || bool_decide (name = database_name) || bool_decide (name = key_name).

(** What the loop of [extractAndVerify] keeps. *)
Record extraction := mkExtraction {
  ex_files : gmap string string;
  ex_manifest : option (list Z);
}.

Definition copied_text (name : string) (written size : Z) (why : string) : string :=
  "extract backup entry " +:+ name +:+ ": copied " +:+ Itoa written +:+ " of " +:+ Itoa size +:+ " bytes: " +:+ why.

Definition extract_entry (header : tar_entry) (x : extraction) : M file_system extraction :=
  let name := te_Name header in
  if negb (allowed name) || negb (te_regular header) || negb (bool_decide (default "" (ex_files x !! name) = ""))
     || (bool_decide (name = "manifest.json") && bool_decide (is_Some (ex_manifest x)))
  then throw (Plain ("unexpected or duplicate backup entry " +:+ name))
  else if bool_decide (name = "manifest.json") then
    if (te_Size header <? 0) || (manifestSizeLimit <? te_Size header)
    then throw (Plain ("backup manifest has invalid size " +:+ Itoa (te_Size header)))
    else
      let manifestJSON := firstn (Z.to_nat (manifestSizeLimit + 1)) (te_data header) in
      _ ← wrap_err (λ e, Errorf "read backup manifest: " e "")
            (_ ← os_call;
             match te_error header with
             | Some e => if Z.of_nat (length (te_data header)) <=? manifestSizeLimit then throw e else mret tt
             | None => mret tt
             end);
      if negb (Z.of_nat (length manifestJSON) =? te_Size header)
      then throw (Plain ("read backup manifest: copied " +:+ Itoa (Z.of_nat (length manifestJSON)) +:+ " of " +:+
                           Itoa (te_Size header) +:+ " bytes"))
      else mret (mkExtraction (ex_files x) (Some manifestJSON))
  else
    let path := work_path name in
    _ ← wrap_err (λ e, Errorf ("create restored " +:+ name +:+ ": ") e "") (os_Create path);
    copied ← try (_ ← ctx_Err;
                  _ ← os_WriteFile path (Regular (te_data header));
                  match te_error header with Some e => throw e | None => mret tt end);
    closed ← try os_call;
    let written := Z.of_nat (length (te_data header)) in
    match copied with
    | Err e => throw (Plain (copied_text name written (te_Size header) (Error e)))
    | Ok _ =>
        match closed with
        | Err e => throw (Plain (copied_text name written (te_Size header) (Error e)))
        | Ok _ =>
            if written =? te_Size header then mret (mkExtraction (<[name := path]> (ex_files x)) (ex_manifest x))
            else throw (Plain (copied_text name written (te_Size header) "<nil>"))
        end
    end.

Fixpoint extract_entries (headers : list tar_entry) (ended : option error) (x : extraction) : M file_system extraction :=
  _ ← ctx_Err;
  _ ← wrap_err (λ e, Errorf "read backup archive: " e "") os_call;
  match headers with
  | [] => match ended with None => mret x | Some e => throw (Errorf "read backup archive: " e "") end
  | header :: rest => x ← extract_entry header x; extract_entries rest ended x
  end.

Fixpoint verify_files (files : list ManifestFile) (extracted : gmap string string) (seen : gset string)
    : M file_system (gset string) :=
  match files with
  | [] => mret seen
  | entry :: rest =>
      let name := mf_Name entry in
      let path := default "" (extracted !! name) in
      if bool_decide (path = "") || bool_decide (name ∈ seen)
         || negb (bool_decide (name = database_name) || bool_decide (name = key_name))
      then throw (Plain ("invalid backup manifest entry " +:+ name))
      else
        actual ← inspectFile (mkArchiveFile name path);
        if negb (mf_Size actual =? mf_Size entry) || negb (bool_decide (mf_SHA256 actual = mf_SHA256 entry))
        then throw (Plain ("backup entry " +:+ name +:+ " failed checksum verification"))
        else verify_files rest extracted ({[name]} ∪ seen)
  end.

Definition extractAndVerify (inputPath : string) : M file_system (Manifest * gmap string string) :=
  input ← wrap_err (λ e, Errorf "open backup archive: " e "") (os_Stat inputPath);
  data ← wrap_err (λ e, Errorf "open compressed backup: " e "") (read_node input);
  '(headers, ended) ← wrap_err (λ e, Errorf "open compressed backup: " e "") (lift (unpack data));
  x ← extract_entries headers ended (mkExtraction ∅ None);
  match ex_manifest x with
  | None => throw (Plain "backup manifest is missing")
  | Some manifestJSON =>
      manifest ← wrap_err (λ e, Errorf "decode backup manifest: " e "") (lift (unmarshal_manifest manifestJSON));
      if negb (mn_FormatVersion manifest =? FormatVersion)
      then throw (Plain ("unsupported backup format version " +:+ Itoa (mn_FormatVersion manifest)))
      else if negb (length (mn_Files manifest) =? 2)%nat
      then throw (Plain "backup manifest must contain exactly two files")
      else
        seen ← verify_files (mn_Files manifest) (ex_files x) ∅;
        if bool_decide (database_name ∈ seen) && bool_decide (key_name ∈ seen) then mret (manifest, ex_files x)
        else throw (Plain "backup is incomplete")
  end.

Fixpoint prepareTargets (targets : list restoreTarget) (force : bool) : M file_system unit :=
  match targets with
  | [] => mret tt
  | target :: rest =>
      let destination := rt_destination target in
      _ ← wrap_err (λ e, Errorf "create restore target directory: " e "") os_MkdirAll;
      info ← try (os_Lstat destination);
      match info with
      | Err e =>
          if errors_Is ErrOsNotExist e then prepareTargets rest force
          else throw (Errorf ("inspect restore target " +:+ destination +:+ ": ") e "")
      | Ok (Regular _) =>
          if negb force
          then throw (Plain ("restore target " +:+ destination +:+
                              " already exists; stop the server and use --force to replace it"))
          else prepareTargets rest force
      | Ok _ => throw (Plain ("restore target " +:+ destination +:+ " is not a regular file"))
      end
  end.

(** [t.UTC().Format("20060102T150405.000000000Z")]. *)
Definition restore_stamp (t : time) : string :=
  let secs := t / Second in
  let '(y, m, d) := civil_from_days (secs / 86400) in
  let sod := secs mod 86400 in
  pad_digits 4 y +:+ pad_digits 2 m +:+ pad_digits 2 d +:+ "T" +:+ pad_digits 2 (sod / 3600) +:+
  pad_digits 2 (sod / 60 mod 60) +:+ pad_digits 2 (sod mod 60) +:+ "." +:+ pad_digits 9 (t mod Second) +:+ "Z".

Definition backup_path (timestamp : string) (destination : string) : string :=
  destination +:+ ".before-restore-" +:+ timestamp.

(** Iterating over a map gives its entries in some order. *)
Fixpoint rename_back (l : list (string * string)) : M file_system unit :=
  match l with
  | [] => mret tt
  | (destination, backupPath) :: rest => _ ← try (os_Rename backupPath destination); rename_back rest
  end.

Context `{Runtime}.

Definition rollbackBackups (backups : gmap string string) : M file_system unit := rename_back (map_range backups).

(** A target's new contents beside it. *)
Definition stage (staged : string) (target : restoreTarget) : M file_system unit :=
  _ ← ctx_Err;
  _ ← wrap_err (λ e, Errorf "stage restore target: " e "") (os_Create staged);
  _ ← os_call;
  source ← os_Stat (rt_source target);
  wrap_err (λ e, Errorf ("stage restore target " +:+ rt_destination target +:+ ": ") e "")
    (_ ← ctx_Err;
     contents ← read_node source;
     _ ← os_WriteFile staged (Regular contents);
     _ ← os_call; _ ← os_call; os_call).

Fixpoint stage_all (l : list (string * restoreTarget)) : M file_system unit :=
  match l with
  | [] => mret tt
  | (staged, target) :: rest => _ ← stage staged target; stage_all rest
  end.

(** The files that are there are kept under another name. *)
Fixpoint preserve (timestamp : string) (targets : list restoreTarget) (backups : gmap string string)
    : M file_system (gmap string string) :=
  match targets with
  | [] => mret backups
  | target :: rest =>
      let destination := rt_destination target in
      info ← try (os_Lstat destination);
      match info with
      | Err e =>
          if errors_Is ErrOsNotExist e then preserve timestamp rest backups
          else _ ← rollbackBackups backups; throw e
      | Ok _ =>
          let backupPath := backup_path timestamp destination in
          renamed ← try (os_Rename destination backupPath);
          match renamed with
          | Err e =>
              _ ← rollbackBackups backups;
              throw (Errorf ("preserve existing restore target " +:+ destination +:+ ": ") e "")
          | Ok _ => preserve timestamp rest (<[destination := backupPath]> backups)
          end
      end
  end.

Fixpoint remove_all (paths : list string) : M file_system unit :=
  match paths with
  | [] => mret tt
  | path :: rest => _ ← try (os_Remove path); remove_all rest
  end.

Fixpoint commit_all (force : bool) (l : list (string * restoreTarget)) (committed : list string)
    (backups : gmap string string) : M file_system unit :=
  match l with
  | [] => mret tt
  | (staged, target) :: rest =>
      let destination := rt_destination target in
      r ← try (if force then os_Rename staged destination
               else _ ← os_Link staged destination; os_Remove staged);
      match r with
      | Err e =>
          _ ← remove_all committed;
          _ ← rollbackBackups backups;
          throw (Errorf ("commit restore target " +:+ destination +:+ ": ") e "")
      | Ok _ => commit_all force rest (committed ++ [destination]) backups
      end
  end.

(** Removing a staged file is deferred once the file has been created. *)
Definition commitTargets (now : time) (targets : list restoreTarget) (force : bool) : M file_system (list string) :=
  let timestamp := restore_stamp now in
  let staged := zip stagedPaths targets in
  deferring (remove_all stagedPaths)
    (_ ← stage_all staged;
     backups ← (if force then preserve timestamp targets ∅ else mret ∅);
     _ ← commit_all force staged [] backups;
     mret (sort_slice str_ltb (map snd (map_range backups)))).

Record RestoreResult := mkRestoreResult {
  rr_Manifest : Manifest;
  rr_Replaced : list string;
}.

Definition Restore (now : time) (options : RestoreOptions) : M file_system RestoreResult :=
  if bool_decide (ro_InputPath options = "") || bool_decide (ro_DatabasePath options = "")
     || bool_decide (ro_CredentialKeyPath options = "")
  then throw (Plain "backup input, database, and credential key paths are required")
  else
    _ ← wrap_err (λ e, Errorf "create restore workspace directory: " e "") os_MkdirAll;
    _ ← wrap_err (λ e, Errorf "create restore workspace: " e "") os_call;
    deferring (os_RemoveAll work_files)
      ('(manifest, extracted) ← extractAndVerify (ro_InputPath options);
       let targets := [mkTarget (default "" (extracted !! database_name)) (ro_DatabasePath options);
                       mkTarget (default "" (extracted !! key_name)) (ro_CredentialKeyPath options)] in
       _ ← prepareTargets targets (ro_Force options);
       replaced ← commitTargets now targets (ro_Force options);
       mret (mkRestoreResult manifest replaced)).
End backup.
