(* ===== verification/BackupTheorems.v ===== *)
(** Restoring a backup changes both files or nothing, and what was backed up is
    what is restored ([Backup]).

    [budget] counts the faults that are still to come. *)
From stdpp Require Import base gmap strings list.
From Stdlib Require Import ZArith Lia Ascii.
From S2P Require Import Prelude GoStrings GoTime GoHash Sql Paths TorrentFiles Backup.

Open Scope Z_scope.

(** A disk without faults to come. *)
Notation files t := (mkDatabase t ([] : list (option fault))).

(** * Faults to come *)

Section budget.
Context {T : Type}.

Definition budget (d : database T) : nat := length (omap id (faults d)).

(** A statement fails as scheduled, which uses up a fault, or does what it does. *)
Lemma statement_cases {A} (f : T → res (A * T)) d r d' :
  statement f d = (r, d') →
  (∃ e, r = Err (fault_error e)) ∧ tables d' = tables d ∧ (budget d' < budget d)%nat ∨
  (budget d' = budget d ∧ match f (tables d) with
                          | Ok (a, t) => r = Ok a ∧ tables d' = t
                          | Err e => r = Err e ∧ tables d' = tables d
                          end).
Proof.
  unfold statement, budget. destruct (faults d) as [|[e|] fs] eqn:Ef; cbn.
  - intros E. right. destruct (f (tables d)) as [[a t]|e]; injection E as <- <-; done.
  - intros [= <- <-]. left. cbn. split; [by eexists|]. split; [done|lia].
  - intros E. right. destruct (f (tables d)) as [[a t]|e]; injection E as <- <-; done.
Qed.

Lemma fault_is_not_missing e : errors_Is ErrOsNotExist (fault_error e) = false.
Proof. by destruct e. Qed.
End budget.

(** * What an operation leaves alone *)

Definition at_path (p : string) (d : file_system) : option node := tables d !! p.

Lemma statement_leaves {A} p (f : gmap string node → res (A * gmap string node)) :
  (∀ t a t', f t = Ok (a, t') → t' !! p = t !! p) → read_only (at_path p) (statement f).
Proof.
  intros Hf d r d' E. unfold at_path. apply statement_cases in E as [(_ & -> & _)|[_ E]]; [done|].
  destruct (f (tables d)) as [[a t]|e] eqn:Ef; destruct E as [_ ->]; [|done]. by eapply Hf.
Qed.

Lemma Stat_leaves p q : read_only (at_path p) (os_Stat q).
Proof. apply statement_leaves. intros t a t'. by destruct (followed 40 t q) as [x|e]; [intros [= _ <-]|]. Qed.

Lemma Lstat_leaves p q : read_only (at_path p) (os_Lstat q).
Proof. apply statement_leaves. intros t a t'. by destruct (t !! q); [intros [= _ <-]|]. Qed.

Lemma read_node_leaves p x : read_only (at_path p) (read_node x).
Proof. apply statement_leaves. intros t a t'. by destruct x; [intros [= _ <-]|..]. Qed.

Lemma call_leaves p : read_only (at_path p) os_call.
Proof. apply statement_leaves. by intros t a t' [= _ <-]. Qed.

Lemma MkdirAll_leaves p : read_only (at_path p) os_MkdirAll.
Proof. apply statement_leaves. by intros t a t' [= _ <-]. Qed.

Lemma ctx_leaves p : read_only (at_path p) ctx_Err.
Proof. intros d r d'. unfold ctx_Err, at_path. by destruct (faults d) as [|[[]|]]; intros [= <- <-]. Qed.

Lemma Create_leaves p q : p ≠ q → read_only (at_path p) (os_Create q).
Proof.
  intros Hne. apply statement_leaves. intros t a t'. destruct (t !! q); [done|]. intros [= _ <-]. by rewrite lookup_insert_ne.
Qed.

Lemma WriteFile_leaves p q (x : node) : p ≠ q → read_only (at_path p) (os_WriteFile q x).
Proof. intros Hne. apply statement_leaves. intros t a t' [= _ <-]. by rewrite lookup_insert_ne. Qed.

Lemma Remove_leaves p q : p ≠ q → read_only (at_path p) (os_Remove q).
Proof.
  intros Hne. apply statement_leaves. intros t a t'. destruct (t !! q); [|done]. intros [= _ <-]. by rewrite lookup_delete_ne.
Qed.

Lemma Rename_leaves p q q' : p ≠ q → p ≠ q' → read_only (at_path p) (os_Rename q q').
Proof.
  intros Hne Hne'. apply statement_leaves. intros t a t'. destruct (t !! q); [|done]. intros [= _ <-].
  by rewrite lookup_insert_ne, lookup_delete_ne.
Qed.

Lemma Link_leaves p q q' : p ≠ q' → read_only (at_path p) (os_Link q q').
Proof.
  intros Hne. apply statement_leaves. intros t a t'. destruct (t !! q), (t !! q'); try done. intros [= _ <-].
  by rewrite lookup_insert_ne.
Qed.

Lemma RemoveAll_leaves p l : p ∉ l → read_only (at_path p) (os_RemoveAll l).
Proof.
  intros Hn. apply statement_leaves. intros t a t' [= _ <-]. revert t. induction l as [|q l IH]; intros t; [done|].
  apply not_elem_of_cons in Hn as [Hne Hn]. cbn. rewrite (IH Hn). by rewrite lookup_delete_ne.
Qed.

#[local] Hint Resolve Stat_leaves Lstat_leaves read_node_leaves call_leaves MkdirAll_leaves ctx_leaves
  Create_leaves WriteFile_leaves Remove_leaves Rename_leaves Link_leaves RemoveAll_leaves : go.

(** Takes an operation apart that leaves a view alone. *)
Ltac leaves :=
  intros;
  repeat match goal with
  | |- read_only _ (mbind _ _) => apply read_only_bind; [|intros ?]
  | |- read_only _ (wrap_err _ _) => apply read_only_wrap_err
  | |- read_only _ (try _) => apply read_only_try
  | |- read_only _ (match ?x with _ => _ end) => destruct x
  | |- read_only _ (let '(_, _) := ?x in _) => destruct x
  | |- read_only _ _ => solve [auto with go]
  end.

Lemma inspect_leaves p file : read_only (at_path p) (inspectFile file).
Proof. unfold inspectFile. leaves. Qed.

Lemma prepare_leaves p targets force : read_only (at_path p) (prepareTargets targets force).
Proof. induction targets as [|x l IH]; cbn [prepareTargets]; leaves. Qed.

Lemma verify_leaves p files extracted seen : read_only (at_path p) (verify_files files extracted seen).
Proof. revert seen. induction files as [|x l IH]; intros seen; cbn [verify_files]; leaves; apply inspect_leaves. Qed.

#[local] Hint Resolve inspect_leaves prepare_leaves verify_leaves : go.

Section restore.
Context `{Archives} `{Runtime}.
Context (workspace temporaryPath : string) (stagedPaths : list string).

Notation work_path := (work_path workspace).
Notation work_files := (work_files workspace).
Notation extract_entry := (extract_entry workspace).
Notation extract_entries := (extract_entries workspace).
Notation extractAndVerify := (extractAndVerify workspace).

Lemma allowed_work name : allowed name = true → name ≠ "manifest.json" → work_path name ∈ work_files.
Proof.
  unfold allowed, Backup.work_files. rewrite !orb_true_iff, !bool_decide_eq_true. intros [[?| ->]| ->] ?; [done|by left|].
  right. by left.
Qed.

Lemma extract_entry_leaves p header x : p ∉ work_files → read_only (at_path p) (extract_entry header x).
Proof.
  intros Hp. unfold Backup.extract_entry. destruct (negb (allowed _) || _ || _ || _) eqn:Eg; [auto with go|].
  destruct (decide (te_Name header = "manifest.json")) as [Hm|Hm];
    [rewrite bool_decide_eq_true_2 by done; by leaves|rewrite bool_decide_eq_false_2 by done].
  assert (p ≠ work_path (te_Name header)) as Hne.
  { intros ->. apply Hp. apply allowed_work; [|done]. by destruct (allowed _). }
  leaves.
Qed.

Lemma extract_leaves p headers ended x : p ∉ work_files → read_only (at_path p) (extract_entries headers ended x).
Proof.
  intros Hp. revert x. induction headers as [|h l IH]; intros x; cbn [Backup.extract_entries]; leaves.
  by apply extract_entry_leaves.
Qed.

Lemma extractAndVerify_leaves p inputPath : p ∉ work_files → read_only (at_path p) (extractAndVerify inputPath).
Proof. intros Hp. unfold Backup.extractAndVerify. leaves. by apply extract_leaves. Qed.

(** * What was verified *)

(** An extracted file is in the workspace, under its own name. *)
Definition extraction_ok (x : extraction) (t : gmap string node) : Prop :=
  ∀ name path, ex_files x !! name = Some path → path = work_path name ∧ path ∈ work_files ∧ ∃ bs, t !! path = Some (Regular bs).

Lemma leaves_all {A} (m : M file_system A) : (∀ p, read_only (at_path p) m) → read_only tables m.
Proof. intros Hm d r d' E. apply map_eq. intros p. by apply (Hm p _ _ _ E). Qed.

Lemma try_Ok_inv {S A} (m : M S A) s x s' : try m s = (Ok x, s') → m s = (x, s').
Proof. unfold try. destruct (m s). by intros [= -> ->]. Qed.

Lemma Stat_Ok p d x d' : os_Stat p d = (Ok x, d') → followed 40 (tables d) p = Ok x ∧ tables d' = tables d.
Proof. intros E. apply statement_Ok in E. destruct (followed _ _ _); [by injection E as -> ->|done]. Qed.

Lemma read_node_Ok x d bs d' : read_node x d = (Ok bs, d') → x = Regular bs ∧ tables d' = tables d.
Proof. intros E. apply statement_Ok in E. destruct x; [by injection E as -> ->|done..]. Qed.

Lemma followed_regular t p bs : t !! p = Some (Regular bs) → followed 40 t p = Ok (Regular bs).
Proof. intros E. cbn [followed]. by rewrite E. Qed.

Lemma inspectFile_Ok name path d m d' :
  inspectFile (mkArchiveFile name path) d = (Ok m, d') →
  tables d' = tables d ∧ ∃ bs, followed 40 (tables d) path = Ok (Regular bs) ∧ m = manifest_file name bs.
Proof.
  intros E. split; [by apply (leaves_all _ (λ p, inspect_leaves p _) _ _ _ E)|]. unfold inspectFile in E. cbn in E.
  apply bind_Ok_inv in E as (source & d1 & E1 & E). apply wrap_err_Ok_inv, Stat_Ok in E1 as [Ef Et].
  apply bind_Ok_inv in E as (copied & d2 & E2 & E). apply bind_Ok_inv in E as (closed & d3 & E3 & E).
  destruct copied as [contents|e]; [|done]. destruct closed; [|done]. apply ret_Ok_inv in E as [-> _].
  apply try_Ok_inv, read_node_Ok in E2 as [-> _]. eauto.
Qed.

Lemma extract_entry_ok header x d x' d' :
  extraction_ok x (tables d) → extract_entry header x d = (Ok x', d') → extraction_ok x' (tables d').
Proof.
  intros Hx. unfold Backup.extract_entry. destruct (negb (allowed _) || _ || _ || _) eqn:Eg; [done|].
  assert (allowed (te_Name header) = true) as Ha by (by destruct (allowed _)).
  destruct (decide (te_Name header = "manifest.json")) as [Hm|Hm];
    [rewrite bool_decide_eq_true_2 by done|rewrite bool_decide_eq_false_2 by done].
  - intros E. destruct (_ || _) in E; [done|]. apply bind_Ok_inv in E as (u & d1 & E1 & E).
    assert (tables d1 = tables d) as Et.
    { revert E1. apply (leaves_all (wrap_err _ _)). leaves. }
    destruct (negb _) in E; [done|]. apply ret_Ok_inv in E as [-> ->]. intros name path. rewrite Et. by apply Hx.
  - pose proof (allowed_work _ Ha Hm) as Hw. set (path := work_path (te_Name header)) in *. intros E.
    apply bind_Ok_inv in E as (u & d1 & E1 & E). apply wrap_err_Ok_inv in E1.
    apply bind_Ok_inv in E as (copied & d2 & E2 & E). apply bind_Ok_inv in E as (closed & d3 & E3 & E).
    destruct copied as [u2|]; [|done]. destruct closed as [u3|]; [|done]. destruct (_ =? _) in E; [|done].
    apply ret_Ok_inv in E as [-> ->]. apply try_Ok_inv in E2 as Ec. apply bind_Ok_inv in Ec as (u4 & d4 & E4 & Ec). apply bind_Ok_inv in Ec as (u5 & d5 & E5 & Ec).
    assert (tables d3 = tables d2) as Et3 by (revert E3; apply (leaves_all (try _)); leaves).
    assert (tables d2 = tables d5) as Et2 by (by destruct (te_error header); [done|apply ret_Ok_inv in Ec as [_ ->]]).
    assert (tables d4 = tables d1) as Et4 by (revert E4; apply (leaves_all ctx_Err); leaves).
    apply ExecContext_Ok in E5. rewrite Et4 in E5. apply statement_Ok in E1. destruct (tables d !! path) eqn:Ep; [done|].
    injection E1 as _ E1. rewrite Et3, Et2, E5, <- E1, insert_insert_eq. intros name q. cbn. intros [[<- <-]|[Hne Hq]]%lookup_insert_Some.
    + split_and!; [done|done|]. rewrite lookup_insert_eq. by eexists.
    + destruct (Hx _ _ Hq) as (-> & ? & bs & Hbs). split_and!; [done|done|]. exists bs. rewrite lookup_insert_ne; [done|]. congruence.
Qed.

Lemma extract_entries_ok headers ended x d x' d' :
  extraction_ok x (tables d) → extract_entries headers ended x d = (Ok x', d') → extraction_ok x' (tables d').
Proof.
  revert x d. induction headers as [|h l IH]; intros x d Hx E; cbn [Backup.extract_entries] in E;
    apply bind_Ok_inv in E as (u & d1 & E1 & E); apply bind_Ok_inv in E as (u2 & d2 & E2 & E);
    (assert (tables d1 = tables d) as Et1 by (revert E1; apply (leaves_all ctx_Err); leaves));
    (assert (tables d2 = tables d1) as Et2 by (revert E2; apply (leaves_all (wrap_err _ _)); leaves)).
  - destruct ended; [done|]. apply ret_Ok_inv in E as [-> ->]. by rewrite Et2, Et1.
  - apply bind_Ok_inv in E as (x1 & d3 & E3 & E). eapply IH; [|exact E]. eapply extract_entry_ok; [|exact E3]. by rewrite Et2, Et1.
Qed.

(** A manifest entry that describes the extracted file. *)
Definition describes (t : gmap string node) (extracted : gmap string string) (m : ManifestFile) : Prop :=
  ∃ bs, extracted !! mf_Name m = Some (work_path (mf_Name m)) ∧ t !! work_path (mf_Name m) = Some (Regular bs) ∧
    m = manifest_file (mf_Name m) bs.

Lemma verify_files_Ok files extracted seen d seen' d' :
  extraction_ok (mkExtraction extracted None) (tables d) → verify_files files extracted seen d = (Ok seen', d') →
  (∀ n, n ∈ seen' → n ∈ seen ∨ n ∈ map mf_Name files) ∧ Forall (describes (tables d) extracted) files.
Proof.
  revert seen d. induction files as [|m l IH]; intros seen d Hx E; cbn [verify_files] in E.
  - apply ret_Ok_inv in E as [-> _]. split; [by left|constructor].
  - destruct (_ || _) eqn:Eg; [done|]. rewrite !orb_false_iff in Eg. destruct Eg as [[Ep%bool_decide_eq_false _] _].
    destruct (extracted !! mf_Name m) as [path|] eqn:Epath; [|done].
    destruct (Hx _ _ Epath) as (-> & _ & bs & Hbs).
    apply bind_Ok_inv in E as (actual & d1 & E1 & E). apply inspectFile_Ok in E1 as (Et & bs' & Hf & ->). cbn [default] in Hf. unfold id in Hf.
    rewrite (followed_regular _ _ _ Hbs) in Hf. injection Hf as <-.
    destruct (negb _ || _) eqn:Ec; [done|]. apply orb_false_iff in Ec as [Es%negb_false_iff%Z.eqb_eq Eh%negb_false_iff%bool_decide_eq_true].
    destruct (IH ({[mf_Name m]} ∪ seen) d1) as [Hs Hd]; [by rewrite Et|exact E|]. split.
    + intros n [Hn|?]%Hs; [|right; by right]. apply elem_of_union in Hn as [->%elem_of_singleton|?]; [right; by left|by left].
    + constructor; [|by rewrite <- Et]. exists bs. split_and!; [done|done|]. destruct m as [nm sz sh]. unfold manifest_file in *.
      cbn [mf_Name mf_Size mf_SHA256] in *. by rewrite Es, Eh.
Qed.

Lemma both_files (files : list ManifestFile) :
  length files = 2%nat → database_name ∈ map mf_Name files → key_name ∈ map mf_Name files →
  ∃ a b, files ≡ₚ [a; b] ∧ mf_Name a = database_name ∧ mf_Name b = key_name.
Proof.
  destruct files as [|a [|b [|c l]]]; try done. intros _ Hd Hk. cbn in Hd, Hk. rewrite !elem_of_cons, elem_of_nil in Hd, Hk.
  destruct Hd as [Ha|[Hb|[]]].
  - exists a, b. split_and!; [done|done|]. destruct Hk as [Hk|[Hk|[]]]; [|done]. by rewrite <- Ha in Hk.
  - exists b, a. split_and!; [apply Permutation_swap|done|]. destruct Hk as [Hk|[Hk|[]]]; [done|]. by rewrite <- Hb in Hk.
Qed.

(** What [extractAndVerify] lets through: both files, in the workspace, as the
    manifest describes them. *)
Definition verified (manifest : Manifest) (extracted : gmap string string) (t : gmap string node) : Prop :=
  ∃ db key, mn_Files manifest ≡ₚ [manifest_file database_name db; manifest_file key_name key] ∧
    extracted !! database_name = Some (work_path database_name) ∧ extracted !! key_name = Some (work_path key_name) ∧
    t !! work_path database_name = Some (Regular db) ∧ t !! work_path key_name = Some (Regular key).

Lemma extractAndVerify_Ok inputPath d manifest extracted d' :
  extractAndVerify inputPath d = (Ok (manifest, extracted), d') → verified manifest extracted (tables d').
Proof.
  unfold Backup.extractAndVerify. intros E.
  apply bind_Ok_inv in E as (input & d1 & _ & E). apply bind_Ok_inv in E as (data & d2 & _ & E).
  apply bind_Ok_inv in E as ([headers ended] & d3 & _ & E). apply bind_Ok_inv in E as (x & d4 & E4 & E).
  apply extract_entries_ok in E4; [|by intros name path ?]. destruct (ex_manifest x) as [json|]; [|done].
  apply bind_Ok_inv in E as (m & d5 & E5 & E). apply wrap_err_Ok_inv, lift_Ok_inv in E5 as [_ ->].
  destruct (negb (_ =? FormatVersion)); [done|]. destruct (negb _) eqn:El; [done|]. apply negb_false_iff, Nat.eqb_eq in El.
  apply bind_Ok_inv in E as (seen & d6 & E6 & E). destruct (_ && _) eqn:Es; [|done]. apply ret_Ok_inv in E as [[= -> ->] ->].
  apply andb_true_iff in Es as [Hd%bool_decide_eq_true Hk%bool_decide_eq_true].
  assert (tables d6 = tables d4) as Et by (revert E6; apply (leaves_all (verify_files _ _ _)); auto with go).
  apply verify_files_Ok in E6 as [Hs Hf]; [|by destruct x].
  destruct (both_files (mn_Files m)) as (a & b & Hp & Ha & Hb); [done|..].
  { destruct (Hs _ Hd) as [[]%elem_of_empty|?]; done. }
  { destruct (Hs _ Hk) as [[]%elem_of_empty|?]; done. }
  rewrite Hp in Hf. apply Forall_cons in Hf as [(db & Hxa & Hta & Ea) Hf]. apply Forall_singleton in Hf as (key & Hxb & Htb & Eb).
  rewrite Ha in Hxa, Hta, Ea. rewrite Hb in Hxb, Htb, Eb. exists db, key. rewrite Et. split_and!; try done. by rewrite <- Ea, <- Eb.
Qed.

(** * Committing and rolling back *)

Section commit.
(** The files once the new contents are staged, and the destinations. *)
Context (t1 : gmap string node) (ds : list string) (timestamp : string).
Notation bk := (backup_path timestamp).
Context (Hapart : NoDup (ds ++ map bk ds ++ stagedPaths)) (Hfree : ∀ p, p ∈ ds → t1 !! bk p = None).

Lemma bk_apart p q : p ∈ ds → q ∈ ds → p ≠ bk q ∧ (bk p = bk q → p = q) ∧ p ∉ stagedPaths ∧ bk p ∉ stagedPaths.
Proof.
  intros Hp Hq. apply NoDup_app in Hapart as (_ & Hd & Hn). apply NoDup_app in Hn as (Hb & Hs & _).
  assert (∀ x, x ∈ ds → bk x ∈ map bk ds) as Hin by (intros x Hx; apply list_elem_of_fmap; eauto).
  split_and!.
  - intros ->. apply (Hd _ Hp). apply elem_of_app. left. by apply Hin.
  - intros E. clear -Hb Hp Hq E. induction ds as [|x l IH]; [by apply elem_of_nil in Hp|]. cbn in Hb. apply NoDup_cons in Hb as [Hn Hb].
    apply elem_of_cons in Hp as [->|Hp], Hq as [->|Hq]; [done| | |by apply IH].
    + destruct Hn. rewrite E. apply list_elem_of_fmap. eauto.
    + destruct Hn. rewrite <- E. apply list_elem_of_fmap. eauto.
  - intros ?. apply (Hd _ Hp). apply elem_of_app. by right.
  - by apply Hs, Hin.
Qed.

(** Paths this part of the program has no business with. *)
Definition foreign (p : string) : Prop := p ∉ ds ∧ p ∉ map bk ds ∧ p ∉ stagedPaths.

(** The files that remain to be renamed back, by their destinations. *)
Record half_back (l : list (string * string)) (t : gmap string node) : Prop := {
  hb_pairs x : x ∈ l → x.1 ∈ ds ∧ x.2 = bk x.1 ∧ is_Some (t1 !! x.1);
  hb_kept p : p ∈ ds → p ∈ l.*1 → t !! bk p = t1 !! p;
  hb_back p : p ∈ ds → p ∉ l.*1 → t !! p = t1 !! p ∧ t !! bk p = None;
  hb_foreign p : foreign p → t !! p = t1 !! p;
}.

Definition all_back (t : gmap string node) : Prop := ∀ p, p ∉ stagedPaths → t !! p = t1 !! p.

Lemma rename_back_all l d r d' :
  NoDup l.*1 → budget d = 0%nat → half_back l (tables d) → rename_back l d = (r, d') → all_back (tables d').
Proof.
  revert d. induction l as [|[p b] l IH]; intros d Hnd Hb [Hpairs Hkept Hback Hfor] E; cbn [rename_back] in E.
  - injection E as _ <-. intros q Hq. destruct (decide (q ∈ ds)) as [Hd|Hd].
    + apply Hback; [done|]. by apply not_elem_of_nil.
    + destruct (decide (q ∈ map bk ds)) as [Hbk|Hbk]; [|by apply Hfor].
      apply list_elem_of_fmap in Hbk as (x & -> & Hx). rewrite (Hfree x Hx). apply Hback; [done|by apply not_elem_of_nil].
  - destruct (Hpairs (p, b)) as (Hp & Eb & x & Hx); [by left|]. cbn in Hp, Eb, Hx. subst b.
    apply NoDup_cons in Hnd as [Hnl Hnd]. unfold mbind, M_bind, try in E. destruct (os_Rename (bk p) p d) as [o d1] eqn:Er.
    apply statement_cases in Er as [(_ & _ & ?)|[Hb1 Er]]; [lia|].
    rewrite Hkept, Hx in Er by (try done; by left). destruct Er as [-> Et1].
    apply (IH d1); [done|congruence| |exact E]. split.
    + intros y Hy. apply Hpairs. by right.
    + intros q Hq Hql. assert (q ≠ p) as Hne by (intros ->; done). destruct (bk_apart p q Hp Hq) as (Hpq & Hinj & _).
      rewrite Et1, lookup_insert_ne, lookup_delete_ne by (try done; intros E'; by apply Hne, eq_sym, Hinj).
      apply Hkept; [done|by right].
    + intros q Hq Hql. rewrite Et1. destruct (decide (q = p)) as [->|Hne].
      * rewrite lookup_insert_eq. split; [done|]. destruct (bk_apart p p Hp Hp) as (Hpp & _).
        by rewrite lookup_insert_ne, lookup_delete_eq.
      * destruct (bk_apart p q Hp Hq) as (Hpq & Hinj & _), (bk_apart q p Hq Hp) as (Hqp & _).
        destruct (Hback q Hq) as [E1 E2]; [by intros [?|?]%elem_of_cons|].
        rewrite lookup_insert_ne, lookup_delete_ne by (try done; by apply not_eq_sym).
        rewrite lookup_insert_ne, lookup_delete_ne by (try done; intros E'; by apply Hne, eq_sym, Hinj). done.
    + intros q (Hq1 & Hq2 & Hq3). rewrite Et1. assert (bk p ∈ map bk ds) by (apply list_elem_of_fmap; eauto).
      rewrite lookup_insert_ne, lookup_delete_ne by (intros <-; done). by apply Hfor.
Qed.

Lemma rename_back_Ok l d : (rename_back l d).1 = Ok tt.
Proof.
  revert d. induction l as [|[p b] l IH]; intros d; [done|]. cbn [rename_back]. unfold mbind, M_bind, try.
  destruct (os_Rename b p d). apply IH.
Qed.

(** The backups kept so far. *)
Definition kept_backups (B : gmap string string) : Prop :=
  ∀ p b, B !! p = Some b → p ∈ ds ∧ b = bk p ∧ is_Some (t1 !! p).

Lemma rollback_all B d :
  budget d = 0%nat → kept_backups B →
  (∀ p, p ∈ ds → is_Some (B !! p) → tables d !! bk p = t1 !! p) →
  (∀ p, p ∈ ds → B !! p = None → tables d !! p = t1 !! p ∧ tables d !! bk p = None) →
  (∀ p, foreign p → tables d !! p = t1 !! p) →
  all_back (tables (rollbackBackups B d).2).
Proof.
  intros Hb HB Hk Hn Hf. unfold rollbackBackups. destruct (rename_back (map_range B) d) as [o d1] eqn:E.
  assert (∀ p b, (p, b) ∈ map_range B ↔ B !! p = Some b) as Hin.
  { intros p b. rewrite map_range_perm. apply elem_of_map_to_list. }
  assert (∀ p, p ∈ (map_range B).*1 ↔ is_Some (B !! p)) as Hin1.
  { intros p. rewrite list_elem_of_fmap. split.
    - intros ([q b] & -> & Hq%Hin). by eexists.
    - intros [b Hb']. exists (p, b). split; [done|]. by apply Hin. }
  eapply (rename_back_all (map_range B) d); [|done| |exact E].
  - rewrite map_range_perm. apply NoDup_fst_map_to_list.
  - split; [|intros p Hp; rewrite Hin1; by apply Hk| |done].
    + intros [p b] Hx%Hin. destruct (HB _ _ Hx) as (? & ? & ?). done.
    + intros p Hp Hnp. apply Hn; [done|]. apply eq_None_not_Some. by rewrite <- Hin1.
Qed.

Lemma after_rollback {A} B e d (r : res A) d' :
  (_ ← rollbackBackups B; throw e) d = (r, d') → r = Err e ∧ d' = (rollbackBackups B d).2.
Proof.
  unfold mbind, M_bind, rollbackBackups. pose proof (rename_back_Ok (map_range B) d) as Ho.
  destruct (rename_back (map_range B) d) as [o d1]. cbn in Ho. subst o. by intros [= <- <-].
Qed.

(** Halfway through keeping the old files. *)
Record moved (B : gmap string string) (rest : list string) (t : gmap string node) : Prop := {
  mv_backups : kept_backups B;
  mv_moved p : p ∈ ds → is_Some (B !! p) → t !! p = None ∧ t !! bk p = t1 !! p;
  mv_not p : p ∈ ds → B !! p = None → t !! p = t1 !! p ∧ t !! bk p = None ∧ (p ∈ rest ∨ t1 !! p = None);
  mv_foreign p : foreign p → t !! p = t1 !! p;
  mv_staged s : s ∈ stagedPaths → t !! s = t1 !! s;
  mv_rest : NoDup rest ∧ ∀ p, p ∈ rest → p ∈ ds ∧ B !! p = None;
}.

Lemma moved_rollback B rest d : budget d = 0%nat → moved B rest (tables d) → all_back (tables (rollbackBackups B d).2).
Proof.
  intros Hb []. apply rollback_all; try done.
  - intros p Hp Hs. by apply mv_moved0.
  - intros p Hp Hn. by destruct (mv_not0 p Hp Hn) as (? & ? & _).
Qed.

Lemma moved_next B p rest t : moved B (p :: rest) t → t !! p = None → moved B rest t.
Proof.
  intros [HB Hm Hn Hf Hs [Hnd Hr]] Hp. apply NoDup_cons in Hnd as [Hnp Hnd]. split; try done.
  - intros q Hq Hqn. destruct (Hn q Hq Hqn) as (E & Eb & [[->|?]%elem_of_cons|?]); split_and!; try done; [|by left|by right].
    right. congruence.
  - split; [done|]. intros q Hq. apply Hr. by right.
Qed.

Lemma moved_one B p rest t x :
  moved B (p :: rest) t → t !! p = Some x → moved (<[p := bk p]> B) rest (<[bk p := x]> (delete p t)).
Proof.
  intros [HB Hm Hn Hf Hs [Hnd Hr]] Hx. apply NoDup_cons in Hnd as [Hnp Hnd].
  destruct (Hr p) as [Hp HBp]; [by left|]. destruct (Hn p Hp HBp) as (E & Eb & _).
  destruct (bk_apart p p Hp Hp) as (Hpp & _ & Hsp & Hsb).
  assert (∀ q, q ∈ ds → q ≠ p → ∀ x : node, <[bk p := x]> (delete p t) !! q = t !! q ∧ <[bk p := x]> (delete p t) !! bk q = t !! bk q) as Hother.
  { intros q Hq Hne y. destruct (bk_apart q p Hq Hp) as (Hqp & Hinj & _), (bk_apart p q Hp Hq) as (Hpq & _).
    rewrite !lookup_insert_ne, !lookup_delete_ne by (try done; try (by apply not_eq_sym); intros E'; by apply Hne, Hinj). done. }
  split.
  - intros q b [[<- <-]|[_ Hq]]%lookup_insert_Some; [|by apply HB]. split_and!; [done|done|]. rewrite <- E. by eexists.
  - intros q Hq Hsome. destruct (decide (q = p)) as [->|Hne].
    + rewrite lookup_insert_eq, lookup_insert_ne, lookup_delete_eq by (by apply not_eq_sym). split; [done|congruence].
    + rewrite lookup_insert_ne in Hsome by done. destruct (Hother q Hq Hne x) as [-> ->]. by apply Hm.
  - intros q Hq [Hnone Hne]%lookup_insert_None. apply not_eq_sym in Hne. destruct (Hother q Hq Hne x) as [-> ->].
    destruct (Hn q Hq Hnone) as (? & ? & [[?|?]%elem_of_cons|?]); split_and!; try done; [by left|by right].
  - intros q (Hq1 & Hq2 & Hq3). assert (bk p ∈ map bk ds) by (apply list_elem_of_fmap; eauto).
    rewrite lookup_insert_ne, lookup_delete_ne by (intros <-; done). by apply Hf.
  - intros s Hst. rewrite lookup_insert_ne, lookup_delete_ne by (intros <-; done). by apply Hs.
  - split; [done|]. intros q Hq. destruct (Hr q) as [? ?]; [by right|]. split; [done|]. rewrite lookup_insert_ne; [done|].
    intros ->. done.
Qed.

Lemma preserve_ok targets B d r d' :
  (budget d ≤ 1)%nat → moved B (map rt_destination targets) (tables d) → preserve timestamp targets B d = (r, d') →
  match r with
  | Ok B' => moved B' [] (tables d') ∧ (budget d' ≤ 1)%nat
  | Err _ => all_back (tables d')
  end.
Proof.
  revert B d. induction targets as [|x l IH]; intros B d Hb Hm E; cbn [preserve] in E; [by injection E as <- <-|].
  set (p := rt_destination x) in *. change (map rt_destination (x :: l)) with (p :: map rt_destination l) in Hm.
  unfold mbind at 1, M_bind at 1, try at 1 in E. destruct (os_Lstat p d) as [o d1] eqn:El.
  apply statement_cases in El as [([e ->] & Et & Hb1)|[Hb1 El]].
  - rewrite fault_is_not_missing in E. apply after_rollback in E as [-> ->]. eapply moved_rollback; [lia|]. rewrite Et. exact Hm.
  - destruct (tables d !! p) as [y|] eqn:Ep; destruct El as [-> Et].
    + unfold mbind at 1, M_bind at 1, try at 1 in E. destruct (os_Rename p _ d1) as [o2 d2] eqn:Er.
      apply statement_cases in Er as [([e ->] & Et2 & Hb2)|[Hb2 Er]].
      * apply after_rollback in E as [-> ->]. eapply moved_rollback; [lia|]. rewrite Et2, Et. exact Hm.
      * rewrite Et, Ep in Er. destruct Er as [-> Et2]. apply (IH (<[p := bk p]> B) d2); [lia| |exact E]. rewrite Et2. by apply moved_one.
    + cbn in E. apply (IH B d1); [lia| |exact E]. rewrite Et. by eapply moved_next.
Qed.

(** The new contents of a destination. *)
Context (new : string → node).

(** Halfway through putting the new files in place. *)
Record committing (B : gmap string string) (C : list string) (l : list (string * restoreTarget)) (t : gmap string node) : Prop := {
  cm_backups : kept_backups B;
  cm_all p : p ∈ ds → B !! p = None → t1 !! p = None;
  cm_kept p : p ∈ ds → t !! bk p = t1 !! p;
  cm_done p : p ∈ ds → t !! p = if bool_decide (p ∈ C) then Some (new p) else None;
  cm_foreign p : foreign p → t !! p = t1 !! p;
  cm_staged s x : (s, x) ∈ l → s ∈ stagedPaths ∧ rt_destination x ∈ ds ∧ t !! s = Some (new (rt_destination x));
  cm_rest : NoDup l.*1;
}.

Lemma remove_all_run C d : budget d = 0%nat →
  ∃ d', remove_all C d = (Ok tt, d') ∧ budget d' = 0%nat ∧ ∀ p, tables d' !! p = if bool_decide (p ∈ C) then None else tables d !! p.
Proof.
  revert d. induction C as [|q C IH]; intros d Hb; cbn [remove_all].
  - exists d. split_and!; [done|done|]. intros p. by rewrite bool_decide_eq_false_2 by apply not_elem_of_nil.
  - unfold mbind, M_bind, try. destruct (os_Remove q d) as [o d1] eqn:E.
    apply statement_cases in E as [(_ & _ & ?)|[Hb1 E]]; [lia|].
    assert (∀ p, tables d1 !! p = if bool_decide (p = q) then None else tables d !! p) as E1.
    { intros p. destruct (tables d !! q) as [y|] eqn:Eq; destruct E as [_ ->]; case_bool_decide as Hp.
      - subst p. by rewrite lookup_delete_eq.
      - by rewrite lookup_delete_ne.
      - by subst p.
      - done. }
    destruct (IH d1) as (d2 & -> & Hb2 & E2); [lia|]. exists d2. split_and!; [done|done|]. intros p. rewrite E2, E1.
    repeat case_bool_decide; try done; set_solver.
Qed.

Lemma commit_undone B C l d :
  budget d = 0%nat → committing B C l (tables d) → (∀ p, p ∈ C → p ∈ ds) →
  all_back (tables (rollbackBackups B (remove_all C d).2).2).
Proof.
  intros Hb [HB Ha Hk Hd Hf _ _] HC. destruct (remove_all_run C d Hb) as (d1 & -> & Hb1 & Et). cbn.
  assert (∀ p, p ∈ ds → bk p ∉ C) as Hbk.
  { intros p Hp Hin. destruct (bk_apart (bk p) p (HC _ Hin) Hp) as [? _]. done. }
  apply rollback_all; [done|done|..].
  - intros p Hp _. rewrite Et, bool_decide_eq_false_2 by by apply Hbk. by apply Hk.
  - intros p Hp Hn. rewrite !Et. rewrite (bool_decide_eq_false_2 (bk p ∈ C)) by by apply Hbk.
    rewrite (Ha p Hp Hn), Hk, (Ha p Hp Hn) by done. split; [|done]. case_bool_decide; [done|]. rewrite Hd by done.
    by rewrite bool_decide_eq_false_2.
  - intros p (Hp1 & Hp2 & Hp3). rewrite Et, bool_decide_eq_false_2 by (intros ?; by apply Hp1, HC). by apply Hf.
Qed.

Lemma commit_ok l B C d r d' :
  (budget d ≤ 1)%nat → committing B C l (tables d) → (∀ p, p ∈ C → p ∈ ds) →
  commit_all true l C B d = (r, d') →
  match r with
  | Ok _ => committing B (C ++ map (λ x, rt_destination x.2) l) [] (tables d')
  | Err _ => all_back (tables d')
  end.
Proof.
  revert C d. induction l as [|[s x] l IH]; intros C d Hb Hm HC E; cbn [commit_all] in E.
  { injection E as <- <-. by rewrite app_nil_r. }
  set (p := rt_destination x) in *. unfold mbind at 1, M_bind at 1, try at 1 in E.
  destruct (os_Rename s p d) as [o d1] eqn:Er.
  destruct (cm_staged _ _ _ _ Hm s x) as (Hs & Hp & Hst); [by left|]. fold p in Hp, Hst.
  apply statement_cases in Er as [([e ->] & Et & Hb1)|[Hb1 Er]].
  - unfold mbind at 1, M_bind at 1 in E. destruct (remove_all_run C d1) as (d2 & Er & _); [lia|]. rewrite Er in E.
    apply after_rollback in E as [-> ->]. replace d2 with (remove_all C d1).2 by by rewrite Er.
    apply (commit_undone B C ((s, x) :: l)); [lia|by rewrite Et|done].
  - rewrite Hst in Er. destruct Er as [-> Et]. change (map ?f ((s, x) :: l)) with ([p] ++ map f l). rewrite app_assoc. apply (IH (C ++ [p]) d1); [lia| | |exact E].
    + destruct Hm as [HB Ha Hk Hd Hf Hl Hnd]. apply NoDup_cons in Hnd as [Hns Hnd].
      destruct (bk_apart p p Hp Hp) as (_ & _ & Hps & _). split; try done; rewrite ?Et.
      * intros q Hq. destruct (bk_apart p q Hp Hq) as (Hpq & _), (bk_apart q q Hq Hq) as (_ & _ & _ & Hqs).
        rewrite lookup_insert_ne, lookup_delete_ne by (try done; intros ->; done). by apply Hk.
      * intros q Hq. destruct (bk_apart q q Hq Hq) as (_ & _ & Hqs & _). destruct (decide (q = p)) as [->|Hne].
        -- rewrite lookup_insert_eq, bool_decide_eq_true_2; [done|]. apply elem_of_app. right. by left.
        -- rewrite lookup_insert_ne, lookup_delete_ne by (try (by apply not_eq_sym); intros <-; done). rewrite Hd by done.
           assert (bool_decide (q ∈ C) = bool_decide (q ∈ C ++ [p])) as -> by (apply bool_decide_ext; set_solver). done.
      * intros q (Hq1 & Hq2 & Hq3). rewrite lookup_insert_ne, lookup_delete_ne by (intros <-; done). by apply Hf.
      * intros s' y Hin. destruct (Hl s' y) as (? & ? & Hy); [by right|]. split_and!; [done|done|].
        assert (s' ≠ s) by (intros ->; apply Hns; apply list_elem_of_fmap; exists (s, y); done).
        rewrite lookup_insert_ne, lookup_delete_ne; [done|by apply not_eq_sym|]. intros <-. done.
    + intros q. rewrite elem_of_app, list_elem_of_singleton. intros [?| ->]; [by apply HC|done].
Qed.
End commit.

(** * Staging *)

Lemma stage_leaves p s x : p ≠ s → read_only (at_path p) (stage s x).
Proof. intros Hp. unfold stage. leaves. Qed.

Lemma stage_Ok s x d u d' bs :
  tables d !! rt_source x = Some (Regular bs) → s ≠ rt_source x → stage s x d = (Ok u, d') →
  tables d' !! s = Some (Regular bs).
Proof.
  intros Hsrc Hne E. unfold stage in E.
  apply bind_Ok_inv in E as (u1 & d1 & E1 & E). apply bind_Ok_inv in E as (u2 & d2 & E2 & E). apply wrap_err_Ok_inv in E2.
  apply bind_Ok_inv in E as (u3 & d3 & E3 & E). apply bind_Ok_inv in E as (source & d4 & E4 & E). apply wrap_err_Ok_inv in E.
  assert (at_path (rt_source x) d3 = Some (Regular bs)) as H3.
  { rewrite (call_leaves _ _ _ _ E3), (Create_leaves _ s (not_eq_sym Hne) _ _ _ E2), (ctx_leaves _ _ _ _ E1). done. }
  apply Stat_Ok in E4 as [Ef _]. rewrite (followed_regular _ _ _ H3) in Ef. injection Ef as <-.
  apply bind_Ok_inv in E as (u5 & d5 & _ & E). apply bind_Ok_inv in E as (c & d6 & E6 & E).
  apply read_node_Ok in E6 as [[= <-] _]. apply bind_Ok_inv in E as (u7 & d7 & E7 & E). apply ExecContext_Ok in E7.
  assert (at_path s d' = at_path s d7) as Hs.
  { assert (read_only (at_path s) (_ ← os_call; _ ← os_call; os_call)) as Hr by leaves. by apply (Hr _ _ _ E). }
  unfold at_path in Hs. by rewrite Hs, E7, lookup_insert_eq.
Qed.

Lemma stage_all_leaves p l : p ∉ l.*1 → read_only (at_path p) (stage_all l).
Proof.
  induction l as [|[s x] l IH]; intros Hp; cbn [stage_all]; [leaves|]. apply not_elem_of_cons in Hp as [Hs Hp].
  apply read_only_bind; [by apply stage_leaves|]. intros _. by apply IH.
Qed.

Lemma stage_all_Ok l d u d' (new : restoreTarget → list Z) :
  NoDup l.*1 → (∀ s x, (s, x) ∈ l → rt_source x ∉ l.*1 ∧ tables d !! rt_source x = Some (Regular (new x))) →
  stage_all l d = (Ok u, d') → ∀ s x, (s, x) ∈ l → tables d' !! s = Some (Regular (new x)).
Proof.
  revert d. induction l as [|[s x] l IH]; intros d Hnd Hl E s' x' Hin; [by apply elem_of_nil in Hin|].
  cbn [stage_all] in E. apply bind_Ok_inv in E as (u1 & d1 & E1 & E). apply NoDup_cons in Hnd as [Hns Hnd].
  destruct (Hl s x) as [Hx Hsrc]; [by left|]. apply not_elem_of_cons in Hx as [Hxs _].
  apply elem_of_cons in Hin as [[= -> ->]|Hin].
  - pose proof (stage_all_leaves s l Hns _ _ _ E) as Hs. unfold at_path in Hs. rewrite Hs. cbn in Hxs.
    by eapply stage_Ok; [exact Hsrc|by apply not_eq_sym|exact E1].
  - eapply (IH d1); [done| |exact E|exact Hin]. intros s2 x2 Hin2. destruct (Hl s2 x2) as [Hx2 Hs2]; [by right|].
    apply not_elem_of_cons in Hx2 as [Hne Hx2]. split; [done|].
    pose proof (stage_leaves (rt_source x2) s x Hne _ _ _ E1) as Hs. unfold at_path in Hs. by rewrite Hs.
Qed.

Lemma deferring_run {A} cleanup (m : M file_system A) d r d' :
  deferring cleanup m d = (r, d') → ∃ d1, m d = (r, d1) ∧ d' = (cleanup d1).2.
Proof. unfold deferring. destruct (m d) as [x d1]. intros [= <- <-]. eauto. Qed.

Lemma leaves_after {A} (m : M file_system A) p d : read_only (at_path p) m → tables (m d).2 !! p = tables d !! p.
Proof. intros Hm. destruct (m d) as [r d'] eqn:E. by apply (Hm _ _ _ E). Qed.

Lemma remove_all_leaves p l : p ∉ l → read_only (at_path p) (remove_all l).
Proof.
  induction l as [|q l IH]; intros Hp; cbn [remove_all]; [leaves|]. apply not_elem_of_cons in Hp as [Hq Hp].
  apply read_only_bind; [by leaves|]. intros _. by apply IH.
Qed.

(** Nothing adds faults. *)
Definition spends {A} (m : M file_system A) : Prop := ∀ d r d', m d = (r, d') → (budget d' ≤ budget d)%nat.

Lemma spends_statement {A} (f : gmap string node → res (A * gmap string node)) : spends (statement f).
Proof. intros d r d' E. apply statement_cases in E as [(_ & _ & ?)|[? _]]; lia. Qed.

Lemma spends_ctx : spends ctx_Err.
Proof. intros d r d'. unfold ctx_Err, budget. destruct (faults d) as [|[[]|]] eqn:E; intros [= <- <-]; cbn; rewrite ?E; cbn; lia. Qed.

Lemma spends_bind {A B} (m : M file_system A) (f : A → M file_system B) :
  spends m → (∀ a, spends (f a)) → spends (x ← m; f x).
Proof.
  intros Hm Hf d r d'. unfold mbind, M_bind. destruct (m d) as [[a|e] d1] eqn:E.
  - intros H2. transitivity (budget d1); [by eapply Hf|by eapply Hm].
  - intros [= <- <-]. by eapply Hm.
Qed.

Lemma spends_wrap {A} g (m : M file_system A) : spends m → spends (wrap_err g m).
Proof. intros Hm d r d'. unfold wrap_err. destruct (m d) as [[a|e] d1] eqn:E; intros [= <- <-]; by eapply Hm. Qed.

Lemma spends_try {A} (m : M file_system A) : spends m → spends (try m).
Proof. intros Hm d r d'. unfold try. destruct (m d) as [x d1] eqn:E. intros [= <- <-]. by eapply Hm. Qed.

Lemma spends_none {A} (x : res A) : spends (λ d, (x, d)).
Proof. by intros d r d' [= <- <-]. Qed.

Ltac spending :=
  intros;
  repeat match goal with
  | |- spends (mbind _ _) => apply spends_bind; [|intros ?]
  | |- spends (wrap_err _ _) => apply spends_wrap
  | |- spends (try _) => apply spends_try
  | |- spends (match ?x with _ => _ end) => destruct x
  | |- spends _ => first [ apply spends_statement | apply spends_ctx | apply spends_none | solve [auto] ]
  end.

Lemma stage_spends s x : spends (stage s x).
Proof. unfold stage. spending. Qed.

Lemma inspect_spends file : spends (inspectFile file).
Proof. unfold inspectFile. spending. Qed.

Lemma extract_entry_spends header x : spends (extract_entry header x).
Proof. unfold Backup.extract_entry. spending. Qed.

Lemma extract_spends headers ended x : spends (extract_entries headers ended x).
Proof.
  revert x. induction headers as [|h l IH]; intros x; cbn [Backup.extract_entries]; spending. apply extract_entry_spends.
Qed.

Lemma verify_spends files extracted seen : spends (verify_files files extracted seen).
Proof. revert seen. induction files as [|x l IH]; intros seen; cbn [verify_files]; spending. apply inspect_spends. Qed.

Lemma prepare_spends targets force : spends (prepareTargets targets force).
Proof. induction targets as [|x l IH]; cbn [prepareTargets]; spending. Qed.

Lemma extractAndVerify_spends inputPath : spends (extractAndVerify inputPath).
Proof. unfold Backup.extractAndVerify. spending; [apply extract_spends|apply verify_spends]. Qed.

Lemma stage_all_spends l : spends (stage_all l).
Proof.
  induction l as [|[s x] l IH]; cbn [stage_all]; [by intros d r d' [= <- <-]|]. apply spends_bind; [apply stage_spends|done].
Qed.

(** Keeping the old files and putting the new ones in their place. *)
Lemma swap_ok timestamp targets new d r d' :
  let ds := map rt_destination targets in
  let bk := backup_path timestamp in
  length stagedPaths = length targets → NoDup (ds ++ map bk ds ++ stagedPaths) → (∀ p, p ∈ ds → tables d !! bk p = None) →
  (∀ s x, (s, x) ∈ zip stagedPaths targets → tables d !! s = Some (Regular (new (rt_destination x)))) →
  (budget d ≤ 1)%nat →
  (backups ← preserve timestamp targets ∅;
   _ ← commit_all true (zip stagedPaths targets) [] backups;
   mret (sort_slice str_ltb (map snd (map_range backups)))) d = (r, d') →
  match r with
  | Ok _ => (∀ p, p ∈ ds → tables d' !! p = Some (Regular (new p)) ∧ tables d' !! bk p = tables d !! p) ∧
            ∀ p, p ∉ ds → p ∉ map bk ds → p ∉ stagedPaths → tables d' !! p = tables d !! p
  | Err _ => ∀ p, p ∉ stagedPaths → tables d' !! p = tables d !! p
  end.
Proof.
  intros ds bk Hlen Hap Hfree Hst Hb E. unfold mbind at 1, M_bind at 1 in E.
  destruct (preserve timestamp targets ∅ d) as [o d1] eqn:Ep.
  apply (preserve_ok (tables d) ds timestamp Hap Hfree) in Ep; [|done|].
  2: { split; try done; [intros p Hp [b Hx]; by rewrite lookup_empty in Hx| |].
       - intros p Hp _. split_and!; [done|by apply Hfree|by left].
       - split; [by apply NoDup_app in Hap as [? _]|]. intros p Hp. split; [done|apply lookup_empty]. }
  destruct o as [B|e]; [|injection E as <- <-; exact Ep]. destruct Ep as [Hm Hb1].
  unfold mbind at 1, M_bind at 1 in E. destruct (commit_all true _ [] B d1) as [o d2] eqn:Ec.
  apply (commit_ok (tables d) ds timestamp Hap Hfree (λ p, Regular (new p))) in Ec; [|done| |by intros p ?%elem_of_nil].
  2: { destruct Hm as [HB Hm Hn Hf Hs _]. split; try done.
       - intros p Hp HBp. by destruct (Hn p Hp HBp) as (_ & _ & [?%elem_of_nil|?]).
       - intros p Hp. destruct (B !! p) as [b|] eqn:EB; [by apply Hm; [|eexists]|].
         destruct (Hn p Hp EB) as (_ & -> & [?%elem_of_nil|?]); done.
       - intros p Hp. rewrite bool_decide_eq_false_2 by apply not_elem_of_nil.
         destruct (B !! p) as [b|] eqn:EB; [by apply Hm; [|eexists]|].
         destruct (Hn p Hp EB) as (-> & _ & [?%elem_of_nil|?]); done.
       - intros s x Hin. pose proof (Hst s x Hin) as E1. apply list_elem_of_lookup in Hin as [i Hi].
         apply lookup_zip_with_Some in Hi as (s' & x' & [= -> ->] & Hs' & Hx'). apply list_elem_of_lookup_2 in Hs', Hx'.
         split_and!; [done| |by rewrite Hs]. apply list_elem_of_fmap. eauto.
       - rewrite fst_zip by lia. by apply NoDup_app in Hap as (_ & _ & (_ & _ & ?)%NoDup_app). }
  destruct o as [u|e]; [|injection E as <- <-; exact Ec]. injection E as <- <-. destruct Ec as [_ _ Hk Hd Hf _ _].
  cbn [app] in Hd. split; [|intros p ? ? ?; by apply Hf]. intros p Hp. split; [|by apply Hk]. rewrite Hd, bool_decide_eq_true_2; [done| |done].
  assert (map (λ x, rt_destination x.2) (zip stagedPaths targets) = ds) as ->; [|done].
  unfold ds. rewrite <- (snd_zip stagedPaths targets) at 2 by lia. change (map ?f ?l) with (f <$> l). by rewrite <- list_fmap_compose.
Qed.

Lemma commitTargets_ok now targets new d r d' :
  let ds := map rt_destination targets in
  let bk := backup_path (restore_stamp now) in
  length stagedPaths = length targets → NoDup (ds ++ map bk ds ++ stagedPaths) → (∀ p, p ∈ ds → tables d !! bk p = None) →
  (∀ x, x ∈ targets → rt_source x ∉ stagedPaths ∧ tables d !! rt_source x = Some (Regular (new (rt_destination x)))) →
  (budget d ≤ 1)%nat → commitTargets stagedPaths now targets true d = (r, d') →
  (∀ p, p ∉ ds → p ∉ map bk ds → p ∉ stagedPaths → tables d' !! p = tables d !! p) ∧
  match r with
  | Ok _ => ∀ p, p ∈ ds → tables d' !! p = Some (Regular (new p)) ∧ tables d' !! bk p = tables d !! p
  | Err _ => ∀ p, p ∉ stagedPaths → tables d' !! p = tables d !! p
  end.
Proof.
  intros ds bk Hlen Hap Hfree Hsrc Hb E. unfold commitTargets in E. apply deferring_run in E as (d1 & E & ->).
  assert (∀ p, p ∉ stagedPaths → tables (remove_all stagedPaths d1).2 !! p = tables d1 !! p) as Hrm.
  { intros p Hp. by apply leaves_after, remove_all_leaves. }
  assert ((zip stagedPaths targets).*1 = stagedPaths) as Hz1 by (apply fst_zip; lia).
  assert ((zip stagedPaths targets).*2 = targets) as Hz2 by (apply snd_zip; lia).
  assert (NoDup stagedPaths) as Hns by (apply NoDup_app in Hap as (_ & _ & (_ & _ & ?)%NoDup_app); done).
  assert (∀ p, p ∈ ds → p ∉ stagedPaths ∧ bk p ∉ stagedPaths) as Hst.
  { intros p Hp. destruct (bk_apart ds _ Hap p p Hp Hp) as (_ & _ & ? & ?). done. }
  destruct (stage_all (zip stagedPaths targets) d) as [[u|e] d2] eqn:Es.
  2: { unfold mbind, M_bind in E. rewrite Es in E. injection E as <- <-.
       assert (∀ p, p ∉ stagedPaths → tables (remove_all stagedPaths d2).2 !! p = tables d !! p) as Hall.
       { intros p Hp. rewrite Hrm by done. apply (stage_all_leaves p (zip stagedPaths targets)) in Es; [exact Es|by rewrite Hz1]. }
       split; [|done]. intros p _ _. apply Hall. }
  unfold mbind at 1, M_bind at 1 in E. rewrite Es in E.
  assert (∀ p, p ∉ stagedPaths → tables d2 !! p = tables d !! p) as H2.
  { intros p Hp. apply (stage_all_leaves p (zip stagedPaths targets)) in Es; [exact Es|by rewrite Hz1]. }
  pose proof (stage_all_spends _ _ _ _ Es) as Hb2.
  apply (swap_ok _ _ new) in E; [|done|done|intros p Hp; rewrite H2 by (by apply Hst); by apply Hfree| |lia].
  2: { intros s x Hin. revert s x Hin. eapply stage_all_Ok; [by rewrite Hz1| |exact Es]. intros s x Hin. rewrite Hz1. apply Hsrc.
       rewrite <- Hz2. apply list_elem_of_fmap. by exists (s, x). }
  destruct r as [l|e].
  - destruct E as [Hd Hf]. split.
    + intros p Hp1 Hp2 Hp3. rewrite Hrm, Hf by done. by apply H2.
    + intros p Hp. destruct (Hst p Hp) as [Hp1 Hp2], (Hd p Hp) as [E1 E2]. split; [by rewrite Hrm, E1|]. rewrite Hrm, <- H2 by done. exact E2.
  - assert (∀ p, p ∉ stagedPaths → tables (remove_all stagedPaths d1).2 !! p = tables d !! p) as Hall.
    { intros p Hp. rewrite Hrm, E by done. by apply H2. }
    split; [|done]. intros p _ _. apply Hall.
Qed.

(** * The theorem *)

(** The two destinations, the names their old files get, and the names the
    operating system makes up are different, and the latter are not there yet. *)
Record names_apart (now : time) (options : RestoreOptions) (t : gmap string node) : Prop := {
  na_staged : length stagedPaths = 2%nat;
  na_apart : let ds := [ro_DatabasePath options; ro_CredentialKeyPath options] in
    NoDup (ds ++ map (backup_path (restore_stamp now)) ds ++ stagedPaths ++ work_files);
  na_free : ∀ p, p ∈ map (backup_path (restore_stamp now)) [ro_DatabasePath options; ro_CredentialKeyPath options] →
    t !! p = None;
}.

(** The part of [Restore] that its cleaning up follows. *)
Definition restore_body (now : time) (options : RestoreOptions) : M file_system RestoreResult :=
  '(manifest, extracted) ← extractAndVerify (ro_InputPath options);
  let targets := [mkTarget (default "" (extracted !! database_name)) (ro_DatabasePath options);
                  mkTarget (default "" (extracted !! key_name)) (ro_CredentialKeyPath options)] in
  _ ← prepareTargets targets (ro_Force options);
  replaced ← commitTargets stagedPaths now targets (ro_Force options);
  mret (mkRestoreResult manifest replaced).

Lemma restore_body_ok now options d r d' :
  names_apart now options (tables d) → ro_Force options = true → (budget d ≤ 1)%nat → restore_body now options d = (r, d') →
  let ds := [ro_DatabasePath options; ro_CredentialKeyPath options] in
  let bk := backup_path (restore_stamp now) in
  (∀ p, p ∉ ds → p ∉ map bk ds → p ∉ stagedPaths → p ∉ work_files → tables d' !! p = tables d !! p) ∧
  match r with
  | Ok result => ∃ db key,
      mn_Files (rr_Manifest result) ≡ₚ [manifest_file database_name db; manifest_file key_name key] ∧
      tables d' !! ro_DatabasePath options = Some (Regular db) ∧ tables d' !! ro_CredentialKeyPath options = Some (Regular key) ∧
      ∀ p, p ∈ ds → tables d' !! bk p = tables d !! p
  | Err _ => ∀ p, p ∉ stagedPaths → p ∉ work_files → tables d' !! p = tables d !! p
  end.
Proof.
  intros [Hlen Hap Hfree] Hforce Hb E ds bk. unfold restore_body in E. unfold mbind at 1, M_bind at 1 in E.
  destruct (extractAndVerify (ro_InputPath options) d) as [x d1] eqn:Ex.
  assert (∀ p, p ∉ work_files → tables d1 !! p = tables d !! p) as H1.
  { intros p Hp. by apply (extractAndVerify_leaves p _ Hp _ _ _ Ex). }
  pose proof (extractAndVerify_spends _ _ _ _ Ex) as Hb1.
  destruct x as [[manifest extracted]|e]; [|injection E as <- <-; split; [auto|by intros p _ ?; apply H1]].
  apply extractAndVerify_Ok in Ex as (db & key & Hfiles & Hxd & Hxk & Htd & Htk). rewrite Hxd, Hxk in E. cbn [default from_option] in E.
  unfold id in E. set (targets := [mkTarget (work_path database_name) _; _]) in E. rewrite Hforce in E.
  unfold mbind at 1, M_bind at 1 in E. destruct (prepareTargets targets true d1) as [y d2] eqn:Ep.
  pose proof (prepare_spends _ _ _ _ _ Ep) as Hb2.
  assert (tables d2 = tables d1) as Et2 by (apply (leaves_all (prepareTargets targets true)) in Ep; auto with go).
  destruct y as [u|e]; [|injection E as <- <-; rewrite Et2; split; [auto|by intros p _ ?; apply H1]].
  unfold mbind, M_bind in E. destruct (commitTargets stagedPaths now targets true d2) as [z d3] eqn:Ec.
  apply NoDup_app in Hap as (Hnd & Hd1 & (Hnb & Hd2 & (Hns & Hd3 & Hnw)%NoDup_app)%NoDup_app).
  assert (∀ p, p ∈ ds ∨ p ∈ map bk ds → p ∉ work_files) as Hw.
  { intros p [Hp|Hp] Hin; [apply (Hd1 p Hp)|apply (Hd2 p Hp)]; rewrite !elem_of_app; auto. }
  assert (ro_DatabasePath options ≠ ro_CredentialKeyPath options) as Hne.
  { intros E'. apply NoDup_cons in Hnd as [Hn _]. apply Hn. rewrite E'. by left. }
  apply (commitTargets_ok now targets (λ p, if bool_decide (p = ro_DatabasePath options) then db else key)) in Ec;
    [|done| | | |lia].
  - destruct Ec as [Hother Hres]. split.
    + intros p ? ? ? Hpw. destruct z; injection E as <- <-; rewrite Hother, Et2 by done; by apply H1.
    + destruct z as [l|e]; injection E as <- <-.
      * exists db, key. cbn [rr_Manifest]. split_and!; [done|..].
        -- destruct (Hres (ro_DatabasePath options)) as [-> _]; [by left|]. by rewrite bool_decide_eq_true_2.
        -- destruct (Hres (ro_CredentialKeyPath options)) as [-> _]; [right; by left|]. by rewrite bool_decide_eq_false_2 by by apply not_eq_sym.
        -- intros p Hp. transitivity (tables d2 !! p); [by apply Hres|]. rewrite Et2. apply H1, Hw. by left.
      * intros p Hps Hpw. rewrite Hres, Et2 by done. by apply H1.
  - apply NoDup_app. split_and!; [done| |apply NoDup_app; split_and!; [done| |done]].
    + intros p Hp Hin. apply (Hd1 p Hp). apply elem_of_app in Hin as [?|?]; rewrite !elem_of_app; auto.
    + intros p Hp Hin. apply (Hd2 p Hp). apply elem_of_app. by left.
  - intros p Hp. assert (bk p ∈ map bk ds) as Hbp by (apply list_elem_of_fmap; eauto).
    change (tables d2 !! bk p = None). rewrite Et2, H1 by (apply Hw; by right). by apply Hfree.
  - intros x Hx. assert (∀ p, p ∈ work_files → p ∉ stagedPaths) as Hws by (intros p Hp Hin; by apply (Hd3 p Hin)).
    rewrite Et2. apply elem_of_cons in Hx as [->|Hx]; cbn.
    + split; [apply Hws; by left|]. by rewrite bool_decide_eq_true_2.
    + apply list_elem_of_singleton in Hx as ->. cbn. split; [apply Hws; right; by left|].
      by rewrite bool_decide_eq_false_2 by by apply not_eq_sym.
Qed.

(** C15. Restoring with force is all or nothing: if at most one call of the
    operating system fails, then either both files have the contents that the
    archive's manifest describes, the manifest lists exactly these two, and the
    old files are kept under the other names; or the restore reports an error
    and every file is as it was before, also the two that had been moved away.
    Whatever the archive contains, no other file changes. *)
Theorem restore_is_all_or_nothing now options d r d' :
  names_apart now options (tables d) → ro_Force options = true → (budget d ≤ 1)%nat →
  Restore workspace stagedPaths now options d = (r, d') →
  let ds := [ro_DatabasePath options; ro_CredentialKeyPath options] in
  let bk := backup_path (restore_stamp now) in
  (∀ p, p ∉ ds → p ∉ map bk ds → p ∉ stagedPaths → p ∉ work_files → tables d' !! p = tables d !! p) ∧
  match r with
  | Ok result => ∃ db key,
      mn_Files (rr_Manifest result) ≡ₚ [manifest_file database_name db; manifest_file key_name key] ∧
      tables d' !! ro_DatabasePath options = Some (Regular db) ∧ tables d' !! ro_CredentialKeyPath options = Some (Regular key) ∧
      ∀ p, p ∈ ds → tables d' !! bk p = tables d !! p
  | Err _ => ∀ p, p ∉ stagedPaths → p ∉ work_files → tables d' !! p = tables d !! p
  end.
Proof.
  intros Hn Hforce Hb E ds bk. unfold Restore in E. destruct (_ || _) in E; [by injection E as <- <-|].
  unfold mbind at 1, M_bind at 1 in E. destruct (wrap_err _ os_MkdirAll d) as [[u|e] d1] eqn:E1;
    (assert (tables d1 = tables d) as Et1 by (revert E1; apply (leaves_all (wrap_err _ _)); leaves)); [|injection E as <- <-; by rewrite Et1].
  unfold mbind at 1, M_bind at 1 in E. destruct (wrap_err _ os_call d1) as [[u2|e] d2] eqn:E2;
    (assert (tables d2 = tables d1) as Et2 by (revert E2; apply (leaves_all (wrap_err _ _)); leaves)); [|injection E as <- <-; by rewrite Et2, Et1].
  assert (budget d2 ≤ budget d)%nat as Hb2.
  { transitivity (budget d1); [revert E2|revert E1]; apply spends_wrap; apply spends_statement. }
  apply deferring_run in E as (d3 & E & ->). apply (restore_body_ok now options d2) in E; [|by rewrite Et2, Et1|done|lia].
  fold ds bk in E. rewrite Et2, Et1 in E. destruct E as [Hf Hr].
  assert (∀ p, p ∉ work_files → tables (os_RemoveAll work_files d3).2 !! p = tables d3 !! p) as Hrm.
  { intros p Hp. by apply leaves_after, RemoveAll_leaves. }
  destruct Hn as [_ Hap _]. fold ds bk in Hap. cbn zeta in Hap. apply NoDup_app in Hap as (_ & Hd1 & (_ & Hd2 & _)%NoDup_app).
  assert (∀ p, p ∈ ds ∨ p ∈ map bk ds → p ∉ work_files) as Hw.
  { intros p [Hp|Hp] Hin; [apply (Hd1 p Hp)|apply (Hd2 p Hp)]; rewrite !elem_of_app; auto. }
  split; [intros p ? ? ? ?; rewrite Hrm by done; by apply Hf|]. destruct r as [result|e].
  - destruct Hr as (db & key & Hm & H1 & H2 & H3). exists db, key. split_and!; [done| | |].
    + rewrite Hrm; [done|]. apply Hw. left. by left.
    + rewrite Hrm; [done|]. apply Hw. left. right. by left.
    + intros p Hp. rewrite Hrm; [by apply H3|]. apply Hw. right. apply list_elem_of_fmap. eauto.
  - intros p ? ?. rewrite Hrm by done. by apply Hr.
Qed.

(** * Runs without faults *)

Lemma bind_run {S A B} (m : M S A) (f : A → M S B) s a s1 : m s = (Ok a, s1) → (x ← m; f x) s = f a s1.
Proof. unfold mbind, M_bind. by intros ->. Qed.

Lemma wrap_run {S A} g (m : M S A) s a s1 : m s = (Ok a, s1) → wrap_err g m s = (Ok a, s1).
Proof. unfold wrap_err. by intros ->. Qed.

Lemma try_run {S A} (m : M S A) s x s1 : m s = (x, s1) → try m s = (Ok x, s1).
Proof. unfold try. by intros ->. Qed.

Lemma stat_run t p x : followed 40 t p = Ok x → os_Stat p (files t) = (Ok x, files t).
Proof. intros E. unfold os_Stat, statement. cbn [faults tables tail]. by rewrite E. Qed.

Lemma create_run t p : t !! p = None → os_Create p (files t) = (Ok tt, files (<[p := Regular []]> t)).
Proof. intros E. unfold os_Create, statement. cbn. by rewrite E. Qed.

Lemma write_run t p (x : node) : os_WriteFile p x (files t) = (Ok tt, files (<[p := x]> t)).
Proof. done. Qed.

Lemma call_run t : os_call (files t) = (Ok tt, files t).
Proof. done. Qed.

Lemma ctx_run t : ctx_Err (files t) = (Ok tt, files t).
Proof. done. Qed.

Lemma read_run t bs : read_node (Regular bs) (files t) = (Ok bs, files t).
Proof. done. Qed.

Lemma rename_run (t : gmap string node) p q x : t !! p = Some x → os_Rename p q (files t) = (Ok tt, files (<[q := x]> (delete p t))).
Proof. intros E. unfold os_Rename, statement. cbn. by rewrite E. Qed.

Lemma link_run t p q x : t !! p = Some x → t !! q = None → os_Link p q (files t) = (Ok tt, files (<[q := x]> t)).
Proof. intros E1 E2. unfold os_Link, statement. cbn. by rewrite E1, E2. Qed.

Lemma remove_run (t : gmap string node) p x : t !! p = Some x → os_Remove p (files t) = (Ok tt, files (delete p t)).
Proof. intros E. unfold os_Remove, statement. cbn. by rewrite E. Qed.

Lemma stage_run t s x bs :
  t !! s = None → t !! rt_source x = Some (Regular bs) → stage s x (files t) = (Ok tt, files (<[s := Regular bs]> t)).
Proof.
  intros Hs Hx. assert (s ≠ rt_source x) as Hne by (intros E; congruence). unfold stage.
  erewrite bind_run by apply ctx_run. erewrite bind_run by (by apply wrap_run, create_run). erewrite bind_run by apply call_run.
  erewrite bind_run by (apply stat_run, followed_regular; by rewrite lookup_insert_ne).
  apply wrap_run. erewrite bind_run by apply ctx_run. erewrite bind_run by apply read_run.
  erewrite bind_run by apply write_run. erewrite !bind_run by apply call_run. by rewrite call_run, insert_insert_eq.
Qed.

Lemma preserve_run timestamp targets B t :
  (∀ p q, p ∈ map rt_destination targets → q ∈ map rt_destination targets → p ≠ backup_path timestamp q) →
  ∃ B' t', preserve timestamp targets B (files t) = (Ok B', files t') ∧
    (∀ p, p ∈ map rt_destination targets → t' !! p = None) ∧
    ∀ p, p ∉ map rt_destination targets → p ∉ map (backup_path timestamp) (map rt_destination targets) → t' !! p = t !! p.
Proof.
  revert B t. induction targets as [|x l IH]; intros B t Hne; cbn [preserve].
  { exists B, t. split_and!; [done|by intros p ?%elem_of_nil|done]. }
  set (p := rt_destination x) in *. cbn [map] in Hne. fold p in Hne.
  assert (∃ B1 t1, (info ← try (os_Lstat p);
      match info with
      | Ok _ => renamed ← try (os_Rename p (backup_path timestamp p));
                match renamed with
                | Ok _ => preserve timestamp l (<[p := backup_path timestamp p]> B)
                | Err e => _ ← rollbackBackups B; throw (Errorf ("preserve existing restore target " +:+ p +:+ ": ") e "")
                end
      | Err e => if errors_Is ErrOsNotExist e then preserve timestamp l B else _ ← rollbackBackups B; throw e
      end) (files t) = preserve timestamp l B1 (files t1) ∧ t1 !! p = None ∧
      ∀ q, q ≠ p → q ≠ backup_path timestamp p → t1 !! q = t !! q) as (B1 & t1 & E1 & Hp1 & Ho1).
  { destruct (t !! p) as [y|] eqn:Ep.
    - exists (<[p := backup_path timestamp p]> B), (<[backup_path timestamp p := y]> (delete p t)). split_and!.
      + erewrite bind_run by (apply try_run; unfold os_Lstat, os_ReadFile, statement; cbn; rewrite Ep; reflexivity).
        cbv beta iota. erewrite bind_run by (by apply try_run, rename_run). done.
      + rewrite lookup_insert_ne, lookup_delete_eq; [done|]. apply not_eq_sym. apply Hne; by left.
      + intros q ? ?. by rewrite lookup_insert_ne, lookup_delete_ne.
    - exists B, t. split_and!; [|done|done].
      erewrite bind_run by (apply try_run; unfold os_Lstat, os_ReadFile, statement; cbn; rewrite Ep; reflexivity). done. }
  destruct (IH B1 t1) as (B' & t' & E & Hd & Ho); [intros q r Hq Hr; apply Hne; by right|].
  exists B', t'. split_and!; [by rewrite <- E, <- E1| |].
  - intros q Hq. destruct (decide (q ∈ map rt_destination l)) as [?|Hnl]; [by apply Hd|].
    cbn [map] in Hq. apply elem_of_cons in Hq as [->|?]; [|done]. rewrite Ho; [done|done|].
    intros (r & E2 & Hr)%list_elem_of_fmap. apply (Hne p r); [by left|by right|done].
  - intros q Hq Hb. cbn [map] in Hq, Hb. apply not_elem_of_cons in Hq as [Hqp Hq], Hb as [Hqb Hb].
    rewrite Ho by done. by apply Ho1.
Qed.

Lemma commit_one_run (force : bool) (t : gmap string node) s p x :
  t !! s = Some x → t !! p = None →
  (if force then os_Rename s p else _ ← os_Link s p; os_Remove s) (files t) =
    (Ok tt, files (<[p := x]> (delete s t))).
Proof.
  intros Hs Hp. destruct force; [by apply rename_run|]. erewrite bind_run by (by apply link_run).
  assert (p ≠ s) by (intros ->; congruence). erewrite remove_run by (by rewrite lookup_insert_ne). by rewrite delete_insert_ne.
Qed.

Lemma commit_run force (l : list (string * restoreTarget)) C B t (new : string → node) :
  let ds := map (λ x, rt_destination x.2) l in
  NoDup l.*1 → NoDup ds →
  (∀ s x, (s, x) ∈ l → s ∉ ds ∧ t !! s = Some (new (rt_destination x)) ∧ t !! rt_destination x = None) →
  ∃ t', commit_all force l C B (files t) = (Ok tt, files t') ∧
    (∀ p, p ∈ ds → t' !! p = Some (new p)) ∧ ∀ p, p ∉ l.*1 → p ∉ ds → t' !! p = t !! p.
Proof.
  revert C t. induction l as [|[s x] l IH]; intros C t ds Hns Hnd Hl.
  { exists t. split_and!; [done|by intros p ?%elem_of_nil|done]. }
  unfold ds in *. clear ds. set (p := rt_destination x) in *. cbn [map fmap list_fmap] in *. apply NoDup_cons in Hns as [Hsl Hns], Hnd as [Hpl Hnd].
  cbn [snd fst] in *. fold p in Hpl, Hl |- *.
  destruct (Hl s x) as (Hsd & Hs & Hp); [by left|]. fold p in Hs, Hp. apply not_elem_of_cons in Hsd as [Hsp Hsd].
  destruct (IH (C ++ [p]) (<[p := new p]> (delete s t))) as (t' & E & Hd & Ho); [done|done| |].
  { intros s' y Hin. destruct (Hl s' y) as (Hs'd & Hs' & Hy); [by right|]. apply not_elem_of_cons in Hs'd as [Hs'p Hs'd].
    assert (s' ≠ s) by (intros ->; apply Hsl; apply list_elem_of_fmap; exists (s, y); done).
    assert (rt_destination y ∈ map (λ x, rt_destination x.2) l) as Hyd by (apply list_elem_of_fmap; exists (s', y); done).
    split_and!; [done| |].
    - by rewrite lookup_insert_ne, lookup_delete_ne by by apply not_eq_sym.
    - rewrite lookup_insert_ne, lookup_delete_ne; [done|intros E'; apply Hsd; by rewrite E'|intros E'; apply Hpl; by rewrite E']. }
  exists t'. split_and!.
  - cbn [commit_all]. fold p. erewrite bind_run by (by apply try_run, commit_one_run). done.
  - intros q [->|Hq]%elem_of_cons; [|by apply Hd]. destruct (decide (p ∈ l.*1)) as [Hpl1|Hpl1].
    + apply list_elem_of_fmap in Hpl1 as ([s' y] & -> & Hin). destruct (Hl s' y) as (Hs'd & _); [by right|].
      apply not_elem_of_cons in Hs'd as [? _]. done.
    + rewrite Ho by done. by rewrite lookup_insert_eq.
  - intros q [? ?]%not_elem_of_cons [? ?]%not_elem_of_cons. rewrite Ho by done.
    by rewrite lookup_insert_ne, lookup_delete_ne by by apply not_eq_sym.
Qed.

Lemma prepare_run targets force t :
  (∀ x, x ∈ targets → t !! rt_destination x = None ∨ force = true ∧ ∃ bs, t !! rt_destination x = Some (Regular bs)) →
  prepareTargets targets force (files t) = (Ok tt, files t).
Proof.
  induction targets as [|x l IH]; intros Hx; [done|]. cbn [prepareTargets].
  erewrite bind_run by by apply wrap_run.
  destruct (Hx x) as [E|[-> [bs E]]]; [by left| |];
    (erewrite bind_run by (apply try_run; unfold os_Lstat, os_ReadFile, statement; cbn; rewrite E; reflexivity));
    cbn; apply IH; intros y Hy; apply Hx; by right.
Qed.

Lemma inspect_run t name path bs :
  t !! path = Some (Regular bs) → inspectFile (mkArchiveFile name path) (files t) = (Ok (manifest_file name bs), files t).
Proof.
  intros Hp. unfold inspectFile. cbn [af_name af_path].
  erewrite bind_run by (by apply wrap_run, stat_run, followed_regular).
  erewrite bind_run by (apply try_run, read_run). erewrite bind_run by (apply try_run, call_run). done.
Qed.

Lemma extract_manifest_run t json x :
  ex_files x !! "manifest.json" = None → ex_manifest x = None → Z.of_nat (length json) ≤ manifestSizeLimit →
  extract_entry (packed_entry ("manifest.json", json)) x (files t) = (Ok (mkExtraction (ex_files x) (Some json)), files t).
Proof.
  intros Hx Hm Hl. unfold Backup.extract_entry, packed_entry. cbn [te_Name te_regular te_Size te_data te_error fst snd].
  rewrite Hx, Hm. cbn [negb orb andb allowed default from_option]. rewrite !bool_decide_eq_true_2 by done. cbn [negb orb andb].
  rewrite (bool_decide_eq_false_2 (is_Some None)) by by intros []. cbn [andb].
  assert ((Z.of_nat (length json) <? 0) || (manifestSizeLimit <? Z.of_nat (length json)) = false) as ->.
  { apply orb_false_iff. split; apply Z.ltb_ge; lia. }
  change (allowed "manifest.json") with true. cbn [negb orb]. erewrite bind_run by (apply wrap_run; erewrite bind_run by apply call_run; reflexivity).
  rewrite take_ge by lia. by rewrite Z.eqb_refl.
Qed.

Lemma extract_file_run t name bs x :
  name = database_name ∨ name = key_name → ex_files x !! name = None → t !! work_path name = None →
  extract_entry (packed_entry (name, bs)) x (files t) =
    (Ok (mkExtraction (<[name := work_path name]> (ex_files x)) (ex_manifest x)), files (<[work_path name := Regular bs]> t)).
Proof.
  intros Hname Hx Ht. unfold Backup.extract_entry, packed_entry. cbn [te_Name te_regular te_Size te_data te_error fst snd].
  rewrite Hx. assert (allowed name = true) as -> by (by destruct Hname as [->| ->]).
  assert (bool_decide (name = "manifest.json") = false) as -> by (by destruct Hname as [->| ->]).
  cbn [negb orb andb default from_option]. rewrite (bool_decide_eq_true_2 (id "" = "")) by done. cbn [negb orb].
  erewrite bind_run by (by apply wrap_run, create_run).
  erewrite bind_run by (apply try_run; erewrite bind_run by apply ctx_run; erewrite bind_run by apply write_run; reflexivity).
  erewrite bind_run by (apply try_run, call_run). rewrite Z.eqb_refl. by rewrite insert_insert_eq.
Qed.

Definition backup_entries (m : Manifest) (db key : list Z) : list (string * list Z) :=
  [("manifest.json", marshal_manifest m ++ [10]); (database_name, db); (key_name, key)].

(** The manifest of a backup of two files. *)
Definition manifest_of (createdAt : time) (db key : list Z) : Manifest :=
  mkManifest FormatVersion (FormatRFC3339Nano createdAt) [manifest_file database_name db; manifest_file key_name key].

Definition small (m : Manifest) : Prop := Z.of_nat (length (marshal_manifest m ++ [10])) ≤ manifestSizeLimit.

Definition unpacked (db key : list Z) (t : gmap string node) : gmap string node :=
  <[work_path key_name := Regular key]> (<[work_path database_name := Regular db]> t).

Definition extracted_files : gmap string string :=
  <[key_name := work_path key_name]> (<[database_name := work_path database_name]> ∅).

Lemma verify_run m db key t (extracted : gmap string string) seen rest :
  extracted !! mf_Name m = Some (work_path (mf_Name m)) → work_path (mf_Name m) ≠ "" → mf_Name m ∉ seen →
  mf_Name m = database_name ∨ mf_Name m = key_name → m = manifest_file (mf_Name m) db →
  t !! work_path (mf_Name m) = Some (Regular db) → key = {[mf_Name m]} ∪ seen →
  verify_files (m :: rest) extracted seen (files t) = verify_files rest extracted key (files t).
Proof.
  intros Hx Hne Hs Hn Hm Ht ->. cbn [verify_files]. rewrite Hx. cbn [default from_option]. unfold id.
  rewrite (bool_decide_eq_false_2 (_ = "")), (bool_decide_eq_false_2 (_ ∈ seen)) by done.
  assert (bool_decide (mf_Name m = database_name) || bool_decide (mf_Name m = key_name) = true) as ->.
  { destruct Hn as [->| ->]; [by rewrite bool_decide_eq_true_2|]. by rewrite (bool_decide_eq_true_2 (key_name = key_name)), orb_true_r. }
  cbn [negb orb]. erewrite bind_run by by apply inspect_run. rewrite <- Hm, Z.eqb_refl, bool_decide_eq_true_2 by done. done.
Qed.

Lemma extractAndVerify_run `{!ArchivesLaws} inputPath t c createdAt db key :
  let m := manifest_of createdAt db key in
  small m → NoDup work_files → (∀ p, p ∈ work_files → p ≠ "" ∧ t !! p = None) →
  t !! inputPath = Some (Regular (pack c (backup_entries m db key))) →
  extractAndVerify inputPath (files t) = (Ok (m, extracted_files), files (unpacked db key t)).
Proof.
  intros m Hsmall Hnd Hw Hin. unfold Backup.extractAndVerify.
  destruct (Hw (work_path database_name)) as [Hd0 Hd]; [by left|]. destruct (Hw (work_path key_name)) as [Hk0 Hk]; [right; by left|].
  assert (work_path key_name ≠ work_path database_name) as Hne.
  { intros E. apply NoDup_cons in Hnd as [Hn _]. apply Hn. rewrite <- E. by left. }
  erewrite bind_run by (by apply wrap_run, stat_run, followed_regular). erewrite bind_run by (apply wrap_run, read_run).
  erewrite bind_run by (apply wrap_run; rewrite law_archive; reflexivity). cbv beta iota.
  assert (extract_entries (map packed_entry (backup_entries m db key)) None (mkExtraction ∅ None) (files t) =
    (Ok (mkExtraction extracted_files (Some (marshal_manifest m ++ [10]))), files (unpacked db key t))) as Hx.
  { unfold backup_entries. cbn [map Backup.extract_entries].
    erewrite bind_run by apply ctx_run. erewrite bind_run by (apply wrap_run, call_run).
    erewrite bind_run by (by apply extract_manifest_run). erewrite bind_run by apply ctx_run. erewrite bind_run by (apply wrap_run, call_run).
    erewrite bind_run by (apply extract_file_run; [by left|done|done]).
    erewrite bind_run by apply ctx_run. erewrite bind_run by (apply wrap_run, call_run).
    erewrite bind_run by (apply extract_file_run; [by right|done|by rewrite lookup_insert_ne by by apply not_eq_sym]).
    erewrite bind_run by apply ctx_run. by erewrite bind_run by (apply wrap_run, call_run). }
  erewrite bind_run by exact Hx. cbn [ex_manifest ex_files]. erewrite bind_run by (apply wrap_run; rewrite law_manifest; reflexivity).
  unfold m at 1, manifest_of at 1. cbn [mn_FormatVersion]. rewrite Z.eqb_refl. cbn [negb].
  unfold m at 1, manifest_of at 1. cbn [mn_Files length Nat.eqb negb].
  unfold m at 1, manifest_of at 1. cbn [mn_Files].
  assert (verify_files [manifest_file database_name db; manifest_file key_name key] extracted_files ∅ (files (unpacked db key t)) =
    (Ok ({[key_name]} ∪ ({[database_name]} ∪ ∅)), files (unpacked db key t))) as Hv.
  { erewrite (verify_run (manifest_file database_name db)); [|done|done|apply not_elem_of_empty|by left|done| |reflexivity].
    - erewrite (verify_run (manifest_file key_name key)); [done|done|done| |by right|done| |reflexivity].
      + cbn [mf_Name manifest_file]. by rewrite elem_of_union, elem_of_singleton, elem_of_empty; intros [|[]].
      + unfold unpacked. by rewrite lookup_insert_eq.
    - unfold unpacked. cbn [mf_Name manifest_file]. by rewrite lookup_insert_ne, lookup_insert_eq. }
  erewrite bind_run by exact Hv. rewrite !bool_decide_eq_true_2 by set_solver. done.
Qed.

Lemma deferred_run {A} cleanup (m : M file_system A) s r s1 : m s = (r, s1) → deferring cleanup m s = (r, (cleanup s1).2).
Proof. unfold deferring. by intros ->. Qed.

(** Removing files leaves the others, and no fault to come. *)
Lemma removals_run l t : ∃ t', (remove_all l (files t)).2 = files t' ∧ ∀ p, p ∉ l → t' !! p = t !! p.
Proof.
  revert t. induction l as [|q l IH]; intros t; [by exists t|]. cbn [remove_all].
  assert (∃ r t1, try (os_Remove q) (files t) = (Ok r, files t1) ∧ ∀ p, p ≠ q → t1 !! p = t !! p) as (r & t1 & E & H1).
  { unfold try, os_Remove, statement. cbn. destruct (t !! q) eqn:Eq; cbn.
    - eexists _, _. split; [done|]. intros p Hp. by rewrite lookup_delete_ne.
    - by eexists _, _. }
  erewrite bind_run by exact E. destruct (IH t1) as (t' & E' & H'). exists t'. split; [done|].
  intros p [? ?]%not_elem_of_cons. rewrite H' by done. by apply H1.
Qed.

Lemma RemoveAll_run l t :
  ∃ t', (os_RemoveAll l (files t)).2 = files t' ∧ ∀ p, p ∉ l → t' !! p = t !! p.
Proof.
  exists (fold_left (λ t p, delete p t) l t). split; [done|]. revert t.
  induction l as [|q l IH]; intros t p Hp; [done|]. apply not_elem_of_cons in Hp as [? Hp]. cbn [fold_left].
  rewrite IH by done. by rewrite lookup_delete_ne.
Qed.

Lemma stage_all_run l t (new : string → node) :
  NoDup l.*1 →
  (∀ s x, (s, x) ∈ l → t !! s = None ∧ ∃ bs, new (rt_destination x) = Regular bs ∧ t !! rt_source x = Some (Regular bs)) →
  ∃ t', stage_all l (files t) = (Ok tt, files t') ∧ (∀ s x, (s, x) ∈ l → t' !! s = Some (new (rt_destination x))) ∧
    ∀ p, p ∉ l.*1 → t' !! p = t !! p.
Proof.
  revert t. induction l as [|[s x] l IH]; intros t Hnd Hl.
  { exists t. split_and!; [done|by intros s x ?%elem_of_nil|done]. }
  cbn [fmap list_fmap fst] in Hnd. apply NoDup_cons in Hnd as [Hs Hnd].
  destruct (Hl s x) as (Hsf & bs & Hnew & Hsrc); [by left|].
  destruct (IH (<[s := Regular bs]> t)) as (t' & E & Ht & Ho); [done| |].
  { intros s' y Hin. destruct (Hl s' y) as (? & bs' & ? & Hy); [by right|].
    assert (s ≠ s') by (intros ->; apply Hs, list_elem_of_fmap; by exists (s', y)).
    rewrite lookup_insert_ne by done. split; [done|]. exists bs'. split; [done|]. rewrite lookup_insert_ne; [done|congruence]. }
  exists t'. split_and!.
  - cbn [stage_all]. by erewrite bind_run by by apply stage_run.
  - intros s' y [[= -> ->]|Hin]%elem_of_cons; [|by apply Ht]. by rewrite Ho, Hnew, lookup_insert_eq.
  - intros p Hp. cbn [fmap list_fmap fst] in Hp. apply not_elem_of_cons in Hp as [? Hp]. by rewrite Ho, lookup_insert_ne.
Qed.

Lemma commitTargets_run now targets (force : bool) t (new : string → node) :
  let ds := map rt_destination targets in
  let bk := backup_path (restore_stamp now) in
  length stagedPaths = length targets → NoDup (ds ++ map bk ds ++ stagedPaths) → (∀ s, s ∈ stagedPaths → t !! s = None) →
  (∀ x, x ∈ targets → ∃ bs, new (rt_destination x) = Regular bs ∧ t !! rt_source x = Some (Regular bs)) →
  (force = false → ∀ p, p ∈ ds → t !! p = None) →
  ∃ l t', commitTargets stagedPaths now targets force (files t) = (Ok l, files t') ∧ ∀ p, p ∈ ds → t' !! p = Some (new p).
Proof.
  intros ds bk Hlen Hap Hfree Hsrc Hforce. unfold commitTargets.
  assert ((zip stagedPaths targets).*1 = stagedPaths) as Hz1 by (apply fst_zip; lia).
  assert (map (λ x, rt_destination x.2) (zip stagedPaths targets) = ds) as Hz2.
  { unfold ds. rewrite <- (snd_zip stagedPaths targets) at 2 by lia. change (map ?f ?l) with (f <$> l). by rewrite <- list_fmap_compose. }
  pose proof Hap as (Hnd & _ & (_ & _ & Hns)%NoDup_app)%NoDup_app.
  destruct (stage_all_run (zip stagedPaths targets) t new) as (t1 & E1 & Hs1 & Ho1); [by rewrite Hz1| |].
  { intros s x Hin. split; [apply Hfree; apply elem_of_zip_l in Hin; done|]. apply Hsrc. by apply elem_of_zip_r in Hin. }
  rewrite Hz1 in Ho1.
  assert (∀ p, p ∈ ds → p ∉ stagedPaths ∧ bk p ∉ stagedPaths) as Hst.
  { intros p Hp. destruct (bk_apart ds _ Hap p p Hp Hp) as (_ & _ & ? & ?). done. }
  assert (∃ B t2, (if force then preserve (restore_stamp now) targets ∅ else mret ∅) (files t1) = (Ok B, files t2) ∧
    (∀ p, p ∈ ds → t2 !! p = None) ∧ ∀ p, p ∉ ds → p ∉ map bk ds → t2 !! p = t1 !! p) as (B & t2 & E2 & Hd2 & Ho2).
  { destruct force.
    - apply preserve_run. intros p q Hp Hq E. by destruct (bk_apart ds _ Hap p q Hp Hq) as (? & _).
    - exists ∅, t1. split_and!; [done| |done]. intros p Hp. rewrite Ho1 by by apply Hst. by apply Hforce. }
  destruct (commit_run force (zip stagedPaths targets) [] B t2 new) as (t3 & E3 & Hd3 & _); [by rewrite Hz1|by rewrite Hz2| |].
  { intros s x Hin. rewrite Hz2. pose proof (elem_of_zip_l _ _ _ _ Hin) as Hs.
    assert (rt_destination x ∈ ds) as Hx by (apply list_elem_of_fmap; exists x; split; [done|]; by apply elem_of_zip_r in Hin).
    split_and!; [intros Hsd; by destruct (Hst s Hsd)| |by apply Hd2]. rewrite Ho2; [by apply Hs1|intros Hsd; by destruct (Hst s Hsd)|].
    intros (q & -> & Hq)%list_elem_of_fmap. by destruct (Hst q Hq). }
  destruct (removals_run stagedPaths t3) as (t4 & E4 & Ho4).
  eexists _, t4. split.
  - erewrite deferred_run.
    2: { erewrite bind_run by exact E1. erewrite bind_run by exact E2. erewrite bind_run by exact E3. reflexivity. }
    by rewrite E4.
  - intros p Hp. rewrite Ho4 by by apply Hst. apply Hd3. by rewrite Hz2.
Qed.

(** The names that the operating system makes up are new. *)
Definition new_names (names : list string) (t : gmap string node) : Prop := ∀ p, p ∈ names → p ≠ "" ∧ t !! p = None.

Record can_restore (now : time) (options : RestoreOptions) (t : gmap string node) : Prop := {
  cr_apart : names_apart now options t;
  cr_new : new_names (stagedPaths ++ work_files) t;
  cr_given : ro_InputPath options ≠ "" ∧ ro_DatabasePath options ≠ "" ∧ ro_CredentialKeyPath options ≠ "";
  cr_target : ∀ p, p ∈ [ro_DatabasePath options; ro_CredentialKeyPath options] →
    t !! p = None ∨ ro_Force options = true ∧ ∃ bs, t !! p = Some (Regular bs);
}.

Lemma Restore_run `{!ArchivesLaws} now options t c createdAt db key :
  let m := manifest_of createdAt db key in
  small m → can_restore now options t → t !! ro_InputPath options = Some (Regular (pack c (backup_entries m db key))) →
  ∃ l t', Restore workspace stagedPaths now options (files t) = (Ok (mkRestoreResult m l), files t') ∧
    t' !! ro_DatabasePath options = Some (Regular db) ∧ t' !! ro_CredentialKeyPath options = Some (Regular key).
Proof.
  intros m Hsmall [[Hlen Hap _] Hnew (Hi & Hd & Hk) Htarget] Hin. cbn zeta in Hap. unfold Restore.
  rewrite !bool_decide_eq_false_2 by done. cbn [orb].
  pose proof Hap as (Hnd & Hd1 & (_ & Hd2 & (_ & Hd3 & Hnw)%NoDup_app)%NoDup_app)%NoDup_app.
  assert (∀ p, p ∈ [ro_DatabasePath options; ro_CredentialKeyPath options] → p ∉ work_files) as Hdw.
  { intros p Hp Hw. apply (Hd1 p Hp). rewrite !elem_of_app. auto. }
  assert (ro_DatabasePath options ≠ ro_CredentialKeyPath options) as Hne.
  { intros E'. apply NoDup_cons in Hnd as [Hn _]. apply Hn. rewrite E'. by left. }
  assert (work_path database_name ≠ work_path key_name) as Hwne.
  { intros E. apply NoDup_cons in Hnw as [Hn _]. apply Hn. rewrite E. by left. }
  assert (∀ p, p ∉ work_files → unpacked db key t !! p = t !! p) as Hun.
  { intros p Hp. unfold unpacked. rewrite !lookup_insert_ne; [done|intros E; apply Hp; rewrite <- E; set_solver..]. }
  set (targets := [mkTarget (work_path database_name) (ro_DatabasePath options); mkTarget (work_path key_name) (ro_CredentialKeyPath options)]).
  destruct (commitTargets_run now targets (ro_Force options) (unpacked db key t)
    (λ p, Regular (if bool_decide (p = ro_DatabasePath options) then db else key))) as (l & t' & Ec & Hc).
  { done. }
  { pose proof Hap as Hx. rewrite !(assoc_L (++)) in Hx. apply NoDup_app in Hx as [Hx _]. by rewrite <- !(assoc_L (++)) in Hx. }
  { intros s Hs. rewrite Hun by by apply Hd3. apply Hnew. apply elem_of_app. by left. }
  { intros x Hx. eexists. split; [done|]. apply elem_of_cons in Hx as [->|[->|[]%elem_of_nil]%elem_of_cons]; cbn.
    - rewrite bool_decide_eq_true_2 by done. unfold unpacked. by rewrite lookup_insert_ne, lookup_insert_eq.
    - rewrite bool_decide_eq_false_2 by by apply not_eq_sym. unfold unpacked. by rewrite lookup_insert_eq. }
  { intros Hf p Hp. rewrite Hun by by apply Hdw. destruct (Htarget p Hp) as [|[? _]]; [done|congruence]. }
  destruct (RemoveAll_run work_files t') as (t2 & E2 & H2).
  exists l, t2. split_and!.
  - erewrite bind_run by by apply wrap_run. erewrite bind_run by apply wrap_run, call_run.
    erewrite deferred_run; [by rewrite E2|].
    erewrite bind_run by (eapply extractAndVerify_run; [done|done| |exact Hin]; intros p Hp; apply Hnew, elem_of_app; by right).
    cbv beta iota. unfold extracted_files at 1 2. rewrite lookup_insert_ne, lookup_insert_eq by done.
    change (extracted_files !! key_name) with (Some (work_path key_name)). cbn [default from_option].
    erewrite bind_run.
    2: { apply (prepare_run targets). intros x Hx. assert (rt_destination x ∈ [ro_DatabasePath options; ro_CredentialKeyPath options]) as Hxd
           by (apply (list_elem_of_fmap_2 rt_destination) in Hx; exact Hx).
         rewrite Hun by by apply Hdw. by apply Htarget. }
    by erewrite bind_run by exact Ec.
  - rewrite H2, Hc by (try (by apply Hdw; left); left). by rewrite bool_decide_eq_true_2.
  - rewrite H2, Hc by (try (by apply Hdw; right; left); right; left). by rewrite bool_decide_eq_false_2 by by apply not_eq_sym.
Qed.

(** What [Create] needs; [Snapshot] writes the contents [db] of the database. *)
Record can_create (Snapshot : string → M file_system unit) (options : Options) (db key : list Z) (t : gmap string node) : Prop := {
  cc_given : o_OutputPath options ≠ "" ∧ o_CredentialKeyPath options ≠ "";
  cc_apart : NoDup (o_OutputPath options :: temporaryPath :: work_files);
  cc_new : new_names (o_OutputPath options :: temporaryPath :: work_files) t;
  cc_key : t !! o_CredentialKeyPath options = Some (Regular key) ∧ length key = 32%nat;
  cc_snapshot : Snapshot (work_path database_name) (files t) = (Ok tt, files (<[work_path database_name := Regular db]> t));
}.

Lemma writeFile_run t name path bs :
  t !! path = Some (Regular bs) → writeFile (mkArchiveFile name path) (files t) = (Ok (name, bs), files t).
Proof.
  intros Hp. unfold writeFile. cbn [af_name af_path].
  erewrite bind_run by (by apply stat_run, followed_regular). erewrite bind_run by apply call_run.
  erewrite bind_run by apply ctx_run. by erewrite bind_run by apply read_run.
Qed.

Lemma writeArchive_run outputPath createdAt manifest p1 p2 n1 n2 (t : gmap string node) b1 b2 :
  t !! p1 = Some (Regular b1) → t !! p2 = Some (Regular b2) → t !! temporaryPath = None → t !! outputPath = None →
  outputPath ≠ temporaryPath →
  writeArchive temporaryPath outputPath createdAt manifest [mkArchiveFile n1 p1; mkArchiveFile n2 p2] (files t) =
    (Ok tt, files (<[outputPath := Regular (pack createdAt [("manifest.json", manifest); (n1, b1); (n2, b2)])]> t)).
Proof.
  intros H1 H2 Ht Ho Hne. unfold Backup.writeArchive.
  assert (p1 ≠ temporaryPath ∧ p2 ≠ temporaryPath) as [Hp1 Hp2] by (split; congruence).
  erewrite bind_run by (by apply wrap_run, create_run).
  erewrite deferred_run.
  2: { erewrite bind_run by apply wrap_run, call_run.
       erewrite bind_run.
       2: { apply wrap_run. erewrite bind_run by apply call_run.
            erewrite bind_run.
            2: { cbn [writeFiles]. erewrite bind_run by (apply writeFile_run; by rewrite lookup_insert_ne by by apply not_eq_sym).
                 erewrite bind_run; [reflexivity|]. erewrite bind_run by (apply writeFile_run; by rewrite lookup_insert_ne by by apply not_eq_sym).
                 reflexivity. }
            erewrite bind_run by apply call_run. erewrite bind_run by apply write_run.
            erewrite bind_run by apply call_run. apply call_run. }
       apply wrap_run, link_run; [by rewrite lookup_insert_eq|]. by rewrite !lookup_insert_ne by by apply not_eq_sym. }
  erewrite remove_run by (rewrite lookup_insert_ne by done; apply lookup_insert_eq). cbn. do 2 f_equal.
  rewrite delete_insert_ne, insert_insert_eq, delete_insert_id; done.
Qed.

Lemma Create_run Snapshot options createdAt db key t :
  let m := manifest_of createdAt db key in
  can_create Snapshot options db key t →
  ∃ t1, Create workspace temporaryPath createdAt (Some Snapshot) options (files t) = (Ok m, files t1) ∧
    t1 !! o_OutputPath options = Some (Regular (pack createdAt (backup_entries m db key))) ∧
    ∀ p, p ≠ o_OutputPath options → t1 !! p = t !! p.
Proof.
  intros m [[Ho Hk] Hap Hnew [Hkey Hlen] Hsnap]. unfold Backup.Create. rewrite !bool_decide_eq_false_2 by done.
  apply NoDup_cons in Hap as [Hot [Htw Hnw]%NoDup_cons]. apply not_elem_of_cons in Hot as [Hot How].
  assert (∀ p, p ∈ work_files → o_CredentialKeyPath options ≠ p) as Hkw.
  { intros p Hp E. destruct (Hnew p) as [_ Hn]; [by do 2 right|]. congruence. }
  destruct (Hnew (o_OutputPath options)) as [_ Hof]; [by left|]. destruct (Hnew temporaryPath) as [_ Htf]; [right; by left|].
  set (t1 := <[work_path database_name := Regular db]> t) in *.
  assert (t1 !! work_path database_name = Some (Regular db)) as Hdb by apply lookup_insert_eq.
  assert (t1 !! o_CredentialKeyPath options = Some (Regular key)) as Hk1.
  { unfold t1. rewrite lookup_insert_ne; [done|]. apply not_eq_sym, Hkw. by left. }
  assert (∀ p, p ∉ work_files → t1 !! p = t !! p) as H1.
  { intros p Hp. unfold t1. rewrite lookup_insert_ne; [done|]. intros E. apply Hp. rewrite <- E. by left. }
  set (archive := Regular (pack createdAt (backup_entries m db key))). set (t2 := <[o_OutputPath options := archive]> t1).
  destruct (RemoveAll_run work_files t2) as (t3 & E3 & H3). exists t3. split_and!.
  - unfold ensureMissing. erewrite bind_run.
    2: { erewrite bind_run; [|apply try_run; unfold os_Lstat, os_ReadFile, statement; cbn; rewrite Hof; reflexivity]. reflexivity. }
    erewrite bind_run.
    2: { unfold ensureCredentialKey. erewrite bind_run by (by apply wrap_run, stat_run, followed_regular).
         cbv beta iota. by replace (Z.of_nat (length key) =? 32) with true by (by rewrite Hlen). }
    erewrite bind_run by by apply wrap_run. erewrite bind_run by apply wrap_run, call_run.
    erewrite deferred_run; [by rewrite E3|].
    erewrite bind_run by (apply wrap_run, Hsnap). cbn [inspectFiles].
    erewrite bind_run.
    2: { erewrite bind_run by by apply inspect_run. erewrite bind_run; [reflexivity|].
         erewrite bind_run by by apply inspect_run. reflexivity. }
    fold (manifest_of createdAt db key). fold m.
    erewrite bind_run; [reflexivity|]. apply writeArchive_run; [done|done| | |done]; by rewrite H1.
  - rewrite H3 by done. apply lookup_insert_eq.
  - intros p Hp. destruct (decide (p ∈ work_files)) as [Hw|Hw].
    + destruct (Hnew p) as [_ ->]; [by do 2 right|]. revert E3. cbn. intros [= <-]. clear -Hw.
      apply elem_of_cons in Hw as [->| ->%list_elem_of_singleton]; [|apply lookup_delete_eq].
      destruct (decide (work_path key_name = work_path database_name)) as [->|?]; [apply lookup_delete_eq|].
      rewrite lookup_delete_ne by done. apply lookup_delete_eq.
    + rewrite H3 by done. unfold t2. rewrite lookup_insert_ne by by apply not_eq_sym. by apply H1.
Qed.

(** Without force a destination counts as committed only when its staged name
    is gone too: if removing that name fails, the new file stays behind although
    the restore has failed. *)
Lemma a_failed_remove_leaves_the_destination s x rest (t : gmap string node) bs e :
  t !! s = Some (Regular bs) → t !! rt_destination x = None →
  let '(r, d') := commit_all false ((s, x) :: rest) [] ∅ (mkDatabase t [None; Some e]) in
  (∃ err, r = Err err) ∧ tables d' !! rt_destination x = Some (Regular bs).
Proof.
  intros Hs Hx. assert (map_range (∅ : gmap string string) = []) as Hm.
  { apply Permutation_nil_r. rewrite map_range_perm. by rewrite map_to_list_empty. }
  cbn [commit_all]. unfold mbind at 1, M_bind at 1, try at 1.
  unfold mbind at 1, M_bind at 1, os_Link at 1, statement at 1. cbn [faults tables tail]. rewrite Hs, Hx.
  unfold os_Remove at 1, statement at 1. cbn [faults tables tail]. cbn. unfold rollbackBackups. rewrite Hm. cbn.
  split; [by eexists|]. apply lookup_insert_eq.
Qed.
End restore.

(** C16. What was backed up is what is restored: on a disk without faults, with
    room for new names and a key file of 32 bytes, [Create] writes an archive and
    changes no other file, and wherever that archive has been copied to, a
    restore from it, to targets that are free or with force, succeeds, reports
    the same manifest, and leaves the backed-up database and key at the targets. *)
Theorem what_was_backed_up_is_restored `{ArchivesLaws, Runtime} workspace temporaryPath Snapshot options createdAt db key t :
  let m := manifest_of createdAt db key in
  can_create workspace temporaryPath Snapshot options db key t → small m →
  ∃ archive t1,
    Create workspace temporaryPath createdAt (Some Snapshot) options (files t) = (Ok m, files t1) ∧
    t1 !! o_OutputPath options = Some (Regular archive) ∧ (∀ p, p ≠ o_OutputPath options → t1 !! p = t !! p) ∧
    ∀ workspace' stagedPaths now roptions t2,
      can_restore workspace' stagedPaths now roptions t2 → t2 !! ro_InputPath roptions = Some (Regular archive) →
      ∃ l t3, Restore workspace' stagedPaths now roptions (files t2) = (Ok (mkRestoreResult m l), files t3) ∧
        t3 !! ro_DatabasePath roptions = Some (Regular db) ∧ t3 !! ro_CredentialKeyPath roptions = Some (Regular key).
Proof.
  intros m Hc Hsmall. destruct (Create_run _ _ _ _ createdAt _ _ _ Hc) as (t1 & E & Ho & Hf).
  eexists _, t1. split_and!; [exact E|exact Ho|exact Hf|]. intros workspace' stagedPaths now roptions t2 Hr Hin.
  by eapply Restore_run.
Qed.

(** * At a concrete disk *)

Definition manifest_code (m : Manifest) : Z * string * list (string * Z * string) :=
  (mn_FormatVersion m, mn_CreatedAt m, map (λ f, (mf_Name f, mf_Size f, mf_SHA256 f)) (mn_Files m)).
Definition manifest_decode (x : Z * string * list (string * Z * string)) : Manifest :=
  mkManifest x.1.1 x.1.2 (map (λ f, mkManifestFile f.1.1 f.1.2 f.2) x.2).

Definition number_archives : Archives := {|
  marshal_manifest m := [Z.pos (encode (manifest_code m))];
  unmarshal_manifest bs :=
    match bs with
    | Z.pos p :: _ => match decode p with Some x => Ok (manifest_decode x) | None => Err (Plain "invalid") end
    | _ => Err (Plain "invalid")
    end;
  pack t l := [Z.pos (encode l)];
  unpack bs :=
    match bs with
    | Z.pos p :: _ => match decode p with Some l => Ok (map packed_entry l, None) | None => Err (Plain "gzip: invalid header") end
    | _ => Err (Plain "gzip: invalid header")
    end;
|}.

Lemma number_archives_laws : @ArchivesLaws number_archives.
Proof.
  split.
  - intros [v c fs]. cbn. rewrite decode_encode. unfold manifest_decode, manifest_code. cbn. do 2 f_equal.
    rewrite map_map. rewrite <- (map_id fs) at 2. apply map_ext. by intros [].
  - intros t l. cbn. by rewrite decode_encode.
Qed.

Definition wit_key : list Z := repeat 7 32.
Definition wit_db : list Z := [1; 2; 3].
Definition wit_disk : gmap string node := {["/data/key" := Regular wit_key; "/data/live.db" := Regular wit_db]}.
Definition wit_Snapshot (p : string) : M file_system unit := os_WriteFile p (Regular wit_db).
Definition wit_restore : RestoreOptions := mkRestoreOptions "/backups/b.tar.gz" "/data/live.db" "/data/key" true.

Lemma wit_names : names_apart "/data/w" ["/data/s1"; "/data/s2"] 0 wit_restore wit_disk.
Proof.
  split; [done| |].
  - cbn zeta. apply (bool_decide_unpack _). vm_compute. exact I.
  - intros p Hp. apply elem_of_cons in Hp as [->|Hp]; [by vm_compute|].
    apply list_elem_of_singleton in Hp as ->. by vm_compute.
Qed.

Lemma restore_is_all_or_nothing_witness :
  let d := mkDatabase wit_disk [None; None; None; Some Cancelled] in
  let r := @Restore number_archives "/data/w" ["/data/s1"; "/data/s2"] stable_runtime 0 wit_restore d in
  match r.1 with
  | Ok _ => False
  | Err _ => ∀ p, p ∉ ["/data/s1"; "/data/s2"] → p ∉ work_files "/data/w" → tables r.2 !! p = wit_disk !! p
  end.
Proof.
  pose proof (@restore_is_all_or_nothing number_archives stable_runtime "/data/w" ["/data/s1"; "/data/s2"] 0 wit_restore
    (mkDatabase wit_disk [None; None; None; Some Cancelled]) _ _ wit_names eq_refl (le_n 1) (surjective_pairing _)) as [_ H].
  vm_compute. vm_compute in H. exact H.
Defined.

Definition wit_options : Options := mkOptions "/backups/b.tar.gz" "/data/key".

(** The live files are backed up and put back over themselves. *)
Lemma what_was_backed_up_is_restored_witness :
  let m := @manifest_of 0 wit_db wit_key in
  ∃ archive t1,
    @Create number_archives "/backups/w" "/backups/t" 0 (Some wit_Snapshot) wit_options (files wit_disk) = (Ok m, files t1) ∧
    t1 !! "/backups/b.tar.gz" = Some (Regular archive) ∧
    ∃ l t3, @Restore number_archives "/data/w" ["/data/s1"; "/data/s2"] stable_runtime 0 wit_restore (files t1) =
        (Ok (mkRestoreResult m l), files t3) ∧
      t3 !! "/data/live.db" = Some (Regular wit_db) ∧ t3 !! "/data/key" = Some (Regular wit_key).
Proof.
  assert (∀ p, p ∈ ["/backups/b.tar.gz"; "/backups/t"] ++ work_files "/backups/w" → p ≠ "" ∧ wit_disk !! p = None) as Hnew.
  { intros p Hp. assert (Forall (λ p, p ≠ "" ∧ wit_disk !! p = None) (["/backups/b.tar.gz"; "/backups/t"] ++ work_files "/backups/w")) as HF
      by (apply (bool_decide_unpack _); vm_compute; exact I). rewrite Forall_forall in HF. by apply HF. }
  destruct (@what_was_backed_up_is_restored number_archives number_archives_laws stable_runtime "/backups/w" "/backups/t"
    wit_Snapshot wit_options 0 wit_db wit_key wit_disk) as (archive & t1 & E & Ho & Hf & Hr).
  - split; [done| |exact Hnew|done|done]. apply (bool_decide_unpack _). vm_compute. exact I.
  - change (2 ≤ 2 ^ 20). lia.
  - exists archive, t1. split; [exact E|]. split; [exact Ho|]. apply (Hr "/data/w" ["/data/s1"; "/data/s2"] 0 wit_restore t1); [|exact Ho].
    destruct wit_names as [H1 H2 H3]. split; [split; [done|done|]| | |].
    + intros p Hp. rewrite Hf; [by apply H3|]. intros ->. clear -Hp. revert Hp. apply (bool_decide_unpack (_ ∉ _)). vm_compute. exact I.
    + intros p Hp. assert (Forall (λ p, p ≠ "/backups/b.tar.gz" ∧ p ≠ "" ∧ wit_disk !! p = None) (["/data/s1"; "/data/s2"] ++ work_files "/data/w"))
        as HF by (apply (bool_decide_unpack _); vm_compute; exact I). rewrite Forall_forall in HF.
      destruct (HF p Hp) as (Hp1 & Hp2 & Hp3). split; [exact Hp2|]. rewrite (Hf p Hp1). exact Hp3.
    + split_and!; discriminate.
    + intros p Hp. right. split; [reflexivity|]. apply elem_of_cons in Hp as [->|Hp].
      * exists wit_db. change (ro_DatabasePath wit_restore) with "/data/live.db". rewrite (Hf "/data/live.db") by discriminate. reflexivity.
      * apply list_elem_of_singleton in Hp as ->. exists wit_key. change (ro_CredentialKeyPath wit_restore) with "/data/key". rewrite (Hf "/data/key") by discriminate. reflexivity.
Defined.
