(* ===== verification/Transcoding.v ===== *)
(** Cached transcoding ([core/services/transcoding.go]): one transcode for a
    key at a time, copied into the media cache while a client reads it.

    The transcoder itself runs FFmpeg: what it answers and what reading it gives
    are arguments of the steps.  A caller of [Transcode] is a [thread] at the
    point it has reached; once it has a stream, the same thread is that stream
    with its pipe and the goroutine that puts what comes out of the pipe into
    the cache.  A step is one critical section, or one move through a pipe. *)
From stdpp Require Import base gmap strings list.
From Stdlib Require Import ZArith Lia.
From S2P Require Import Prelude GoStrings GoTime GoHash MediaCache Music Services.

Open Scope Z_scope.
Open Scope go_scope.

(** * Names and keys *)

Record AudioTranscodeOptions := mkTranscodeOptions {
  opt_TrackID : string;
  opt_Format : string;
  opt_BitRate : Z;
}.

Definition defaultCachedMP3BitRate : Z := 192.
Definition DownloadStateTranscoding : string := "transcoding".

Section names.
Context `{Unicode} `{TextNorm}.

(** The options as [Transcode] first rewrites them. *)
Definition settled (options : AudioTranscodeOptions) : AudioTranscodeOptions :=
  let format := ToLower (TrimSpace (opt_Format options)) in
  mkTranscodeOptions (opt_TrackID options) format
    (if (opt_BitRate options =? 0) && bool_decide (format = "mp3") then defaultCachedMP3BitRate else opt_BitRate options).

Definition transcodeCacheKey (source : ResolvedSource) (options : AudioTranscodeOptions) : string :=
  let revision :=
    if bool_decide (res_Revision source = "")
    then res_Name source +:+ ":" +:+ Itoa (res_Size source) +:+ ":" +:+ FormatRFC3339Nano (res_ModTime source)
    else res_Revision source in
  StableID "transcode" [opt_TrackID options; revision; opt_Format options; Itoa (opt_BitRate options)].

Definition replaceAudioExtension (name extension : string) : string :=
  let current := Ext name in
  if bool_decide (current = "") then name +:+ extension else TrimSuffix name current +:+ extension.

Definition contentTypeForTranscode (format : string) : string :=
  if EqualFold (TrimPrefix format ".") "mp3" then "audio/mpeg" else "application/octet-stream".
End names.

(** * State *)

(** What a caller asks for, with the key and the name made of it. *)
Record request := mkRequest {
  rq_key : string;
  rq_name : string;
  rq_source : ResolvedSource;
  rq_options : AudioTranscodeOptions;
}.

(** The goroutine that puts into the cache: what it has read from the pipe, and
    at last the value it has sent. *)
Inductive put_point :=
  | Put_starting
  | Copying (taken : list bytes)
  | Put_stored (taken : list bytes)
  | Put_done (result : option error).

(** A client between two calls; in [cacheWriter.Write] with what the pipe has
    not taken yet and what the source said with it; or waiting for the cache. *)
Inductive stream_point :=
  | Idle
  | Writing (rest chunk : bytes) (readErr : option error)
  | Finalizing (streamErr : option error).

(** What a transcoder's reader said to one [Read]: a chunk, or an error, or both. *)
Notation answer := (bytes * option error)%type.

(** All that a reader gave, when it ended: its chunks up to the first error,
    if that is the end of the stream. *)
Fixpoint output (said : list answer) : option bytes :=
  match said with
  | [] => None
  | (chunk, None) :: said => app chunk <$> output said
  | (chunk, Some e) :: _ => if errors_Is ErrEOF e then Some chunk else None
  end.

(** [s_source] records the answers of the transcoder's reader, one for every
    call of [Read]; the program has no such field. *)
Record stream := mkStream {
  s_point : stream_point;
  s_put : put_point;
  s_end : option (option error);  (* [finished], and what the writer was closed with *)
  s_closed : bool;
  s_completed : Z;
  s_lastProgress : time;
  s_source : list answer;
}.

Inductive point :=
  | Opening
  | Recording (content : bytes)
  | Registering
  | Waiting (flight : nat)
  | Reopening
  | Delegating
  | Failing_start (cause : error)
  | Streaming (s : stream)
  | Answered (r : res bytes).

Record thread := mkThread {
  th_request : request;
  th_point : point;
}.

Definition th_key (t : thread) : string := rq_key (th_request t).

(** [tc_results] are the flights that are done with their errors.
    [tc_complete] records, where the transcoders' readers are read, the outputs
    that were given to their end, with the keys they were asked for; the
    program has no such field, and nothing but [heard] writes it. *)
Record transcoder (W : Type) := mkTranscoder {
  tc_flights : gmap string nat;
  tc_results : gmap nat (option error);
  tc_jobs : gmap string TrackDownload;
  tc_next : nat;
  tc_threads : gmap nat thread;
  tc_cache : W;
  tc_complete : list (string * bytes);
}.
Arguments mkTranscoder {_} _ _ _ _ _ _ _.
Arguments tc_flights {_} _.
Arguments tc_results {_} _.
Arguments tc_jobs {_} _.
Arguments tc_next {_} _.
Arguments tc_threads {_} _.
Arguments tc_cache {_} _.
Arguments tc_complete {_} _.

Section transcoding.
Context `{Runtime} `{Unicode} `{TextNorm} {B C : Type} `{BlobStore B} `{CacheMetadataStore C}.
Context (maxBytes : Z).

Notation world := (cache_world B C).
Notation T := (transcoder world).

Definition set_flights (f : gmap string nat → gmap string nat) (c : T) : T :=
  mkTranscoder (f (tc_flights c)) (tc_results c) (tc_jobs c) (tc_next c) (tc_threads c) (tc_cache c) (tc_complete c).
Definition set_results (f : gmap nat (option error) → gmap nat (option error)) (c : T) : T :=
  mkTranscoder (tc_flights c) (f (tc_results c)) (tc_jobs c) (tc_next c) (tc_threads c) (tc_cache c) (tc_complete c).
Definition set_jobs (f : gmap string TrackDownload → gmap string TrackDownload) (c : T) : T :=
  mkTranscoder (tc_flights c) (tc_results c) (f (tc_jobs c)) (tc_next c) (tc_threads c) (tc_cache c) (tc_complete c).
Definition set_threads (f : gmap nat thread → gmap nat thread) (c : T) : T :=
  mkTranscoder (tc_flights c) (tc_results c) (tc_jobs c) (tc_next c) (f (tc_threads c)) (tc_cache c) (tc_complete c).
Definition set_cache (w : world) (c : T) : T :=
  mkTranscoder (tc_flights c) (tc_results c) (tc_jobs c) (tc_next c) (tc_threads c) w (tc_complete c).
Definition completed_output (key : string) (bs : bytes) (c : T) : T :=
  mkTranscoder (tc_flights c) (tc_results c) (tc_jobs c) (tc_next c) (tc_threads c) (tc_cache c) ((key, bs) :: tc_complete c).

(** A thread moves on. *)
Definition at_point (i : nat) (t : thread) (p : point) (c : T) : T := set_threads <[i := mkThread (th_request t) p]> c.

(** * Jobs and flights *)

Definition no_job : TrackDownload := mkDownload "" "" "" "" "" "" 0 0 "" 0 0.

Definition recordJobLocked (now : time) (r : request) (state : string) (completed total : Z) (message : string) (c : T) : T :=
  let key := rq_key r in
  let job := default no_job (tc_jobs c !! key) in
  let job :=
    if bool_decide (dl_ID job = "")
    then mkDownload (StableID "download" ["transcode"; key]) "transcode" (res_Revision (rq_source r))
           (opt_TrackID (rq_options r)) (rq_name r) "" 0 0 "" now now
    else job in
  set_jobs <[key := mkDownload (dl_ID job) (dl_Provider job) (dl_SourceID job) (dl_TrackID job) (dl_Name job)
                      state completed total message (StartedAt job) now]> c.

Definition recordCached (now : time) (r : request) (size : Z) (c : T) : T :=
  recordJobLocked now r StateCached size size "" c.

Definition updateProgress (now : time) (key : string) (completed : Z) (c : T) : T :=
  let job := default no_job (tc_jobs c !! key) in
  set_jobs <[key := mkDownload (dl_ID job) (dl_Provider job) (dl_SourceID job) (dl_TrackID job) (dl_Name job)
                      DownloadStateTranscoding completed (TotalBytes job) (dl_Error job) (StartedAt job) now]> c.

Definition finishFlight (now : time) (key : string) (err : option error) (size : Z) (c : T) : T :=
  match tc_flights c !! key with
  | None => c
  | Some flight =>
      let job := default no_job (tc_jobs c !! key) in
      let job :=
        match err with
        | Some e => mkDownload (dl_ID job) (dl_Provider job) (dl_SourceID job) (dl_TrackID job) (dl_Name job)
                      StateFailed (CompletedBytes job) (TotalBytes job) (Error e) (StartedAt job) now
        | None => mkDownload (dl_ID job) (dl_Provider job) (dl_SourceID job) (dl_TrackID job) (dl_Name job)
                    StateCached size size "" (StartedAt job) now
        end in
      set_jobs <[key := job]> (set_flights (delete key) (set_results <[flight := err]> c))
  end.

(** [TrackDownloads]. *)
Definition TrackDownloads (c : T) : list TrackDownload :=
  sort_slice (λ x y, StartedAt y <? StartedAt x) (map snd (map_range (tc_jobs c))).

(** * Transcode *)

(** [openCached]: the file's size is what seeking to its end gives, if that works. *)
Definition openCached (now : time) (key : string) (seekErr : option error) : M world bytes :=
  content ← Open now key;
  match seekErr with
  | Some e => throw (Errorf "inspect cached transcode: " e "")
  | None => mret content
  end.

Definition length_of (bs : bytes) : Z := Z.of_nat (length bs).

(** The first look into the cache. *)
Definition look (now : time) (seekErr : option error) (i : nat) (t : thread) (c : T) : T :=
  match openCached now (th_key t) seekErr (tc_cache c) with
  | (Ok content, w) => at_point i t (Recording content) (set_cache w c)
  | (Err e, w) =>
      if errors_Is ErrNotFound e then at_point i t Registering (set_cache w c)
      else at_point i t (Answered (Err (Errorf "open cached transcode: " e ""))) (set_cache w c)
  end.

(** Under the mutex: to wait for the flight that there is, or to begin one. *)
Definition register (now : time) (i : nat) (t : thread) (c : T) : T :=
  match tc_flights c !! th_key t with
  | Some flight => at_point i t (Waiting flight) c
  | None =>
      let c := recordJobLocked now (th_request t) DownloadStateTranscoding 0 0 "" (set_flights <[th_key t := tc_next c]> c) in
      at_point i t Delegating
        (mkTranscoder (tc_flights c) (tc_results c) (tc_jobs c) (S (tc_next c)) (tc_threads c) (tc_cache c) (tc_complete c))
  end.

(** What the delegate answers; its reader is wrapped. *)
Definition delegated (now : time) (answer : res unit) (i : nat) (t : thread) (c : T) : T :=
  match answer with
  | Err e => at_point i t (Failing_start e) c
  | Ok _ => at_point i t (Streaming (mkStream Idle Put_starting None false 0 now [])) c
  end.

Definition start_failed (now : time) (cause : error) (i : nat) (t : thread) (c : T) : T :=
  at_point i t (Answered (Err cause))
    (finishFlight now (th_key t) (Some (Errorf "start audio transcode: " cause "")) 0 c).

(** The flight that was waited for is done. *)
Definition waited (result : option error) (i : nat) (t : thread) (c : T) : T :=
  match result with
  | Some e => at_point i t (Answered (Err e)) c
  | None => at_point i t Reopening c
  end.

Definition reopen (now : time) (seekErr : option error) (i : nat) (t : thread) (c : T) : T :=
  let '(r, w) := openCached now (th_key t) seekErr (tc_cache c) in at_point i t (Answered r) (set_cache w c).

(** * Streams *)

Definition with_point (p : stream_point) (s : stream) : stream :=
  mkStream p (s_put s) (s_end s) (s_closed s) (s_completed s) (s_lastProgress s) (s_source s).
Definition with_put (p : put_point) (s : stream) : stream :=
  mkStream (s_point s) p (s_end s) (s_closed s) (s_completed s) (s_lastProgress s) (s_source s).

(** [finalize], up to its waiting for the cache. *)
Definition finalize (streamErr : option error) (key : string) (s : stream) (c : T) : stream * T :=
  match s_end s with
  | Some _ => (with_point Idle s, c)
  | None =>
      (mkStream (Finalizing streamErr) (s_put s) (Some streamErr) (s_closed s) (s_completed s) (s_lastProgress s) (s_source s),
       c)
  end.

(** [Read] after the writing: the source's error ends the stream. *)
Definition after_write (readErr : option error) (key : string) (s : stream) (c : T) : stream * T :=
  match readErr, s_end s with
  | Some e, None => finalize (if errors_Is ErrEOF e then None else Some e) key s c
  | _, _ => (with_point Idle s, c)
  end.

(** [Read]: the source gives a chunk, or an error, or both. *)
Definition Read (chunk : bytes) (readErr : option error) (key : string) (s : stream) (c : T) : stream * T :=
  match chunk, s_end s with
  | _ :: _, None =>
      (mkStream (Writing chunk chunk readErr) (s_put s) None (s_closed s) (s_completed s) (s_lastProgress s) (s_source s), c)
  | _, _ => after_write readErr key s c
  end.

(** What the source says to [r.source.Read], on the record. *)
Definition heard (chunk : bytes) (readErr : option error) (key : string) (s : stream) (c : T) : stream * T :=
  let said := s_source s ++ [(chunk, readErr)] in
  (mkStream (s_point s) (s_put s) (s_end s) (s_closed s) (s_completed s) (s_lastProgress s) said,
   match output said with Some bs => completed_output key bs c | None => c end).

(** [Write] has returned: everything was taken, or the pipe's reader is closed. *)
Definition written (now : time) (writeErr : option error) (chunk : bytes) (readErr : option error) (key : string)
    (s : stream) (c : T) : stream * T :=
  match writeErr with
  | Some e => finalize (Some (Errorf "cache transcoded audio: " e "")) key s c
  | None =>
      let completed := s_completed s +% length_of chunk in
      let report := Second <=? now - s_lastProgress s in
      after_write readErr key
        (mkStream Idle (s_put s) (s_end s) (s_closed s) completed (if report then now else s_lastProgress s) (s_source s))
        (if report then updateProgress now key completed c else c)
  end.

Definition closed_early : error := Plain "transcode stream closed before completion".

Definition Close (key : string) (s : stream) (c : T) : stream * T :=
  if s_closed s then (s, c)
  else
    finalize (Some closed_early) key
      (mkStream (s_point s) (s_put s) (s_end s) true (s_completed s) (s_lastProgress s) (s_source s)) c.

(** The cache's answer has come. *)
Definition finalized (now : time) (streamErr cacheErr : option error) (key : string) (s : stream) (c : T) : stream * T :=
  (with_point Idle s, finishFlight now key (match streamErr with None => cacheErr | Some _ => streamErr end) (s_completed s) c).

(** What closing the pipe's reader makes of a [Write]. *)
Definition write_error (result : option error) : error :=
  match result with Some e => e | None => Plain "io: read/write on closed pipe" end.

(** [MediaCache.Put] in its two parts: the bytes, and under the mutex the entry. *)
Definition put_blob (key : string) (source : reader) : M world unit :=
  wrap_err (λ e, Errorf ("store cached media " +:+ key +:+ ": ") e "") (on_blobs (blob_Put (mediaCacheBlobKey key) source)).

Definition error_of {A} (r : res A) : option error := match r with Ok _ => None | Err e => Some e end.

Definition on_stream (i : nat) (t : thread) (r : stream * T) : T := at_point i t (Streaming r.1) r.2.

(** * Steps *)

(** What the client does. *)
Inductive client_step (key : string) (s : stream) (c : T) : stream * T → Prop :=
  | step_read chunk readErr :
      s_point s = Idle →
      client_step key s c (let '(s, c) := heard chunk readErr key s c in Read chunk readErr key s c)
  | step_close : s_point s = Idle → client_step key s c (Close key s c).

(** What goes on by itself: the rest of a call of the client's, the pipe, and
    the goroutine that puts into the cache. *)
Inductive work_step (key : string) (s : stream) (c : T) : stream * T → Prop :=
  | step_put_starts :
      s_put s = Put_starting →
      work_step key s c
        (with_put (if validCacheKey key then Copying [] else Put_done (Some (Plain "invalid media cache key"))) s, c)
  | step_pipe a rest chunk readErr taken :
      s_point s = Writing (a ++ rest) chunk readErr → s_put s = Copying taken → a ≠ [] →
      work_step key s c (with_point (Writing rest chunk readErr) (with_put (Copying (taken ++ [a])) s), c)
  | step_written now chunk readErr :
      s_point s = Writing [] chunk readErr → work_step key s c (written now None chunk readErr key s c)
  | step_write_fails now a rest chunk readErr result :
      s_point s = Writing (a :: rest) chunk readErr → s_put s = Put_done result →
      work_step key s c (written now (Some (write_error result)) chunk readErr key s c)
  | step_put_ends taken e r w :
      s_put s = Copying taken → s_end s = Some e → put_blob key (mkReader taken e) (tc_cache c) = (r, w) →
      work_step key s c
        (with_put (match r with Ok _ => Put_stored taken | Err x => Put_done (Some x) end) s, set_cache w c)
  | step_put_breaks taken source x w :
      s_put s = Copying taken → put_blob key source (tc_cache c) = (Err x, w) →
      work_step key s c (with_put (Put_done (Some x)) s, set_cache w c)
  | step_put_recorded now taken r w :
      s_put s = Put_stored taken →
      Put_locked maxBytes now key (counted (mkReader taken None)) false (tc_cache c) = (r, w) →
      work_step key s c (with_put (Put_done (error_of r)) s, set_cache w c)
  | step_finalized now streamErr cacheErr :
      s_point s = Finalizing streamErr → s_put s = Put_done cacheErr →
      work_step key s c (finalized now streamErr cacheErr key s c).

Inductive stream_step (key : string) (s : stream) (c : T) (r : stream * T) : Prop :=
  | step_client : client_step key s c r → stream_step key s c r
  | step_work : work_step key s c r → stream_step key s c r.

Inductive thread_step (i : nat) (t : thread) (c : T) : T → Prop :=
  | step_look now seekErr : th_point t = Opening → thread_step i t c (look now seekErr i t c)
  | step_record now content :
      th_point t = Recording content →
      thread_step i t c (at_point i t (Answered (Ok content)) (recordCached now (th_request t) (length_of content) c))
  | step_register now : th_point t = Registering → thread_step i t c (register now i t c)
  | step_wait flight result :
      th_point t = Waiting flight → tc_results c !! flight = Some result → thread_step i t c (waited result i t c)
  | step_give_up flight e :
      th_point t = Waiting flight →
      thread_step i t c (at_point i t (Answered (Err (Errorf "wait for cached transcode: " e ""))) c)
  | step_reopen now seekErr : th_point t = Reopening → thread_step i t c (reopen now seekErr i t c)
  | step_delegate now answer : th_point t = Delegating → thread_step i t c (delegated now answer i t c)
  | step_start_failed now cause :
      th_point t = Failing_start cause → thread_step i t c (start_failed now cause i t c)
  | step_stream s r : th_point t = Streaming s → stream_step (th_key t) s c r → thread_step i t c (on_stream i t r).

(** Nothing else puts into this cache. *)
Inductive transcode_step (c : T) : T → Prop :=
  | step_call i source options :
      tc_threads c !! i = None →
      let options := settled options in
      let key := transcodeCacheKey source options in
      let name := replaceAudioExtension (res_Name source) ("." +:+ opt_Format options) in
      transcode_step c (set_threads <[i := mkThread (mkRequest key name source options) Opening]> c)
  | step_thread i t c' : tc_threads c !! i = Some t → thread_step i t c c' → transcode_step c c'
  | step_cache call r w :
      (∀ now key source pinned, call ≠ CPut now key source pinned) →
      run_cache_call maxBytes call (tc_cache c) = (r, w) → transcode_step c (set_cache w c).

Definition NewCachedAudioTranscoder (w : world) : T := mkTranscoder ∅ ∅ ∅ 0 ∅ w [].

Inductive transcodes_reached (w : world) : T → Prop :=
  | transcodes_start : transcodes_reached w (NewCachedAudioTranscoder w)
  | transcodes_next c c' : transcodes_reached w c → transcode_step c c' → transcodes_reached w c'.
End transcoding.
