(* ===== verification/TranscodingTheorems.v ===== *)
(** One transcode for a key at a time, and only complete transcodes in the cache
    ([Transcoding]). *)
From stdpp Require Import base gmap strings list.
From Stdlib Require Import ZArith Lia Ascii.
From S2P Require Import Prelude GoStrings GoTime GoHash MediaCache SqlCache BlobFiles CacheTheorems Music Services Transcoding.

Open Scope Z_scope.

(** * What every path of a call keeps *)

Section preserves.
Context {S : Type} (P : S → Prop).

Definition preserves {A} (m : M S A) : Prop := ∀ s r s', m s = (r, s') → P s → P s'.

Lemma preserves_ret {A} (a : A) : preserves (mret a).
Proof. by intros s r s' [= _ <-]. Qed.

Lemma preserves_throw {A} e : preserves (throw e : M S A).
Proof. by intros s r s' [= _ <-]. Qed.

Lemma preserves_bind {A B} (m : M S A) (f : A → M S B) : preserves m → (∀ a, preserves (f a)) → preserves (x ← m; f x).
Proof.
  intros Hm Hf s r s' E Hs. unfold mbind, M_bind in E. destruct (m s) as [[a|e] s1] eqn:Em.
  - by eapply Hf, Hm.
  - injection E as _ <-. by eapply Hm.
Qed.

Lemma preserves_try {A} (m : M S A) : preserves m → preserves (try m).
Proof. intros Hm s r s' E Hs. unfold try in E. destruct (m s) as [x s1] eqn:Em. injection E as _ <-. by eapply Hm. Qed.

Lemma preserves_wrap {A} g (m : M S A) : preserves m → preserves (wrap_err g m).
Proof.
  intros Hm s r s' E Hs. unfold wrap_err in E. destruct (m s) as [[a|e] s1] eqn:Em; injection E as _ <-; by eapply Hm.
Qed.
End preserves.

#[local] Hint Resolve preserves_ret preserves_throw preserves_bind preserves_try preserves_wrap : go.

(** By the structure of the call. *)
Ltac go_preserves :=
  repeat match goal with
  | |- preserves _ (if ?b then _ else _) => destruct b
  | |- preserves _ (match ?b with _ => _ end) => destruct b
  | |- preserves _ (mbind _ _) => apply preserves_bind; [|intros ?]
  | _ => solve [eauto with go]
  end.

(** * The cache only loses bytes *)

Section cache.
Context {B C : Type} `{BlobStoreLaws B} `{CacheMetadataLaws C} (maxBytes : Z).
Context (P : string → bytes → Prop).

Notation world := (cache_world B C).

Definition all_stored (w : world) : Prop := ∀ f bs, stored w !! f = Some bs → P f bs.

Lemma stored_same (w w' : world) : stored w' = stored w → all_stored w → all_stored w'.
Proof. unfold all_stored. by intros ->. Qed.

Lemma on_meta_preserves {A} (m : M C A) : preserves all_stored (on_meta m).
Proof. intros w r w' (c' & _ & ->)%on_meta_run. by apply stored_same. Qed.

Lemma blob_Open_preserves key : preserves all_stored (on_blobs (blob_Open key)).
Proof.
  intros w r w' (b' & E & ->)%on_blobs_run. apply stored_same. unfold stored. cbn.
  destruct r as [c|e]; [by apply law_blob_Open in E as [-> _]|by apply law_blob_Open_err in E as [-> _]].
Qed.

Lemma blob_Delete_preserves key : preserves all_stored (on_blobs (blob_Delete key)).
Proof.
  intros w r w' (b' & E & ->)%on_blobs_run Hw. unfold all_stored, stored in *. cbn in *. destruct r as [c|e].
  - apply law_blob_Delete in E as (f & _ & ->). intros g bs [_ Hg]%lookup_delete_Some. by apply Hw.
  - by apply law_blob_Delete_err in E as [-> _].
Qed.

#[local] Hint Resolve on_meta_preserves blob_Open_preserves blob_Delete_preserves : go.

Lemma removeLocked_preserves key : preserves all_stored (removeLocked key : M world unit).
Proof. unfold removeLocked. go_preserves. Qed.

#[local] Hint Resolve removeLocked_preserves : go.

Lemma prune_loop_preserves p l size : preserves all_stored (prune_loop maxBytes p l size : M world Z).
Proof. revert size. induction l as [|e l IH]; intros size; cbn [prune_loop]; go_preserves. Qed.

#[local] Hint Resolve prune_loop_preserves : go.

Lemma pruneLocked_preserves p : preserves all_stored (pruneLocked maxBytes p : M world Z).
Proof. unfold pruneLocked. go_preserves. Qed.

#[local] Hint Resolve pruneLocked_preserves : go.

Lemma Put_locked_preserves now key size pinned : preserves all_stored (Put_locked maxBytes now key size pinned : M world unit).
Proof. unfold Put_locked. go_preserves. Qed.

Lemma Open_preserves now key : preserves all_stored (Open now key : M world bytes).
Proof. unfold Open. go_preserves. Qed.

#[local] Hint Resolve Open_preserves : go.

Lemma other_call_preserves call :
  (∀ now key source pinned, call ≠ CPut now key source pinned) →
  preserves all_stored (run_cache_call maxBytes call : M world unit).
Proof.
  intros Hc. destruct call as [now key source pinned|now key|key pinned|key|]; cbn [run_cache_call].
  - by destruct (Hc now key source pinned).
  - go_preserves.
  - unfold SetPinned. go_preserves.
  - unfold Remove. go_preserves.
  - unfold Prune. go_preserves.
Qed.

Lemma openCached_stored now key seekErr w r w' :
  openCached now key seekErr (w : world) = (r, w') →
  all_stored w → all_stored w' ∧ ∀ bs, r = Ok bs → ∃ f, file_of key = Some f ∧ stored w !! f = Some bs.
Proof.
  intros E Hw. split.
  - revert E Hw. unfold openCached. apply preserves_bind; [apply Open_preserves|]. intros a. go_preserves.
  - intros bs ->. unfold openCached, mbind, M_bind in E. destruct (Open now key w) as [[c|e] w1] eqn:E1; [|done].
    destruct seekErr; [done|]. injection E as <- _. apply Open_run in E1 as (_ & f & _ & _ & Hf & Hs & _). by exists f.
Qed.

Lemma put_blob_Ok key source (w : world) u w' :
  put_blob key source w = (Ok u, w') →
  ∃ f bs, file_of key = Some f ∧ read_all source = Ok bs ∧ stored w' = <[f := bs]> (stored w).
Proof.
  unfold put_blob, wrap_err. destruct (on_blobs _ w) as [[u1|e] w1] eqn:E; [|done]. intros [= <- <-].
  apply on_blobs_run in E as (b' & E & ->). apply law_blob_Put in E as (f & bs & ? & ? & E). by exists f, bs.
Qed.

Lemma put_blob_Err key source (w : world) e w' : put_blob key source w = (Err e, w') → stored w' = stored w.
Proof.
  unfold put_blob, wrap_err. destruct (on_blobs _ w) as [[u1|e1] w1] eqn:E; [done|]. intros [= _ <-].
  apply on_blobs_run in E as (b' & E & ->). by apply law_blob_Put_err in E.
Qed.
End cache.

(** * The invariant *)

Section transcoding.
Context `{Runtime} `{Unicode} `{TextNorm} {B C : Type} `{BlobStoreLaws B} `{CacheMetadataLaws C}.
Context (maxBytes : Z) (w0 : cache_world B C).

Notation T := (transcoder (cache_world B C)).
Notation transcode_step := (transcode_step maxBytes).
Notation transcodes_reached := (transcodes_reached maxBytes w0).

(** A thread has the flight of its key. *)
Definition owns (p : point) : bool :=
  match p with
  | Delegating | Failing_start _ => true
  | Streaming s =>
      match s_end s, s_point s with
      | None, _ | _, Finalizing _ => true
      | _, _ => false
      end
  | _ => false
  end.

Definition pending (s : stream) : bytes := match s_point s with Writing rest _ _ => rest | _ => [] end.

Definition taken_of (p : put_point) : option (list bytes) :=
  match p with Put_starting => Some [] | Copying taken => Some taken | _ => None end.

(** A source that has not said that anything is wrong, or over. *)
Definition silent (said : list answer) : Prop := Forall (λ x, x.2 = None) said.
Definition given (said : list answer) : bytes := concat (map fst said).

Lemma output_ends said chunk e :
  silent said → output (said ++ [(chunk, Some e)]) = if errors_Is ErrEOF e then Some (given said ++ chunk) else None.
Proof.
  unfold given. induction 1 as [|[x o] said Ho _ IH]; cbn in *; [done|]. subst o. rewrite IH.
  destruct (errors_Is ErrEOF e); cbn; [by rewrite app_assoc|done].
Qed.

Lemma given_snoc said x : given (said ++ [x]) = given said ++ x.1.
Proof. unfold given. rewrite map_app, concat_app. cbn. by rewrite app_nil_r. Qed.

(** The call of [Read] that is under way: what its source said to it. *)
Definition reading (s : stream) : option (bytes * option error) :=
  match s_point s with Writing _ chunk e => Some (chunk, e) | _ => None end.

(** What goes into the cache is so far what the source has given; [call] is the
    answer that has not been dealt with. *)
Record stream_ok_in (call : option answer) (complete : list (string * bytes)) (key : string) (s : stream) : Prop := {
  so_finalizing e : s_point s = Finalizing e → s_end s = Some e;
  so_writing rest chunk e : s_point s = Writing rest chunk e → s_end s = None;
  so_silent : s_end s = None → call = None → silent (s_source s);
  so_call x : s_end s = None → call = Some x →
    (∃ said, s_source s = said ++ [x] ∧ silent said) ∧ ∀ bs, output (s_source s) = Some bs → (key, bs) ∈ complete;
  so_copied taken : taken_of (s_put s) = Some taken → s_end s = None → given (s_source s) = concat taken ++ pending s;
  so_complete taken : taken_of (s_put s) = Some taken → s_end s = Some None → (key, concat taken) ∈ complete;
  so_valid taken : s_put s = Copying taken → validCacheKey key = true;
  so_closed : s_closed s = true → is_Some (s_end s);
}.

Definition stream_ok (complete : list (string * bytes)) (key : string) (s : stream) : Prop :=
  stream_ok_in (reading s) complete key s.

(** Where stored bytes come from: they were there, or are a complete output. *)
Definition origin (complete : list (string * bytes)) (f : string) (bs : bytes) : Prop :=
  stored w0 !! f = Some bs ∨ ∃ key, validCacheKey key = true ∧ file_of key = Some f ∧ (key, bs) ∈ complete.

Definition point_ok (c : T) (key : string) (p : point) : Prop :=
  match p with
  | Waiting f => is_Some (tc_results c !! f) ∨ tc_flights c !! key = Some f
  | Recording bs | Answered (Ok bs) => ∃ f, file_of key = Some f ∧ origin (tc_complete c) f bs
  | Streaming s => stream_ok (tc_complete c) key s
  | _ => True
  end.

Definition job_ok (key : string) (j : TrackDownload) : Prop :=
  dl_ID j = StableID "download" ["transcode"; key] ∧ dl_Provider j = "transcode" ∧
  dl_State j ∈ [DownloadStateTranscoding; StateCached; StateFailed].

Record jobs_ok (c : T) : Prop := {
  jo_job key j : tc_jobs c !! key = Some j → job_ok key j;
  jo_flight key f : tc_flights c !! key = Some f → is_Some (tc_jobs c !! key);
}.

Record numbers_ok (c : T) : Prop := {
  no_flight key f : tc_flights c !! key = Some f → (f < tc_next c)%nat ∧ tc_results c !! f = None;
  no_result f : is_Some (tc_results c !! f) → (f < tc_next c)%nat;
  no_distinct key key' f : tc_flights c !! key = Some f → tc_flights c !! key' = Some f → key = key';
}.

Record Inv (c : T) : Prop := {
  inv_keys i t : tc_threads c !! i = Some t → validCacheKey (th_key t) = true;
  inv_points i t : tc_threads c !! i = Some t → point_ok c (th_key t) (th_point t);
  inv_stored : all_stored (origin (tc_complete c)) (tc_cache c);
  inv_jobs : jobs_ok c;
  inv_numbers : numbers_ok c;
  inv_owner key : is_Some (tc_flights c !! key) ↔ ∃ i t, tc_threads c !! i = Some t ∧ th_key t = key ∧ owns (th_point t) = true;
  inv_unique i j t u : tc_threads c !! i = Some t → tc_threads c !! j = Some u → th_key t = th_key u →
    owns (th_point t) = true → owns (th_point u) = true → i = j;
}.

(** What only grows. *)
Record grows (c c' : T) : Prop := {
  gr_results f : is_Some (tc_results c !! f) → is_Some (tc_results c' !! f);
  gr_flights key f : tc_flights c !! key = Some f → tc_flights c' !! key = Some f ∨ is_Some (tc_results c' !! f);
  gr_complete x : x ∈ tc_complete c → x ∈ tc_complete c';
}.

Lemma grows_same c c' :
  tc_flights c' = tc_flights c → tc_results c' = tc_results c → tc_complete c' = tc_complete c → grows c c'.
Proof. intros E1 E2 E3. split; rewrite ?E1, ?E2, ?E3; auto. Qed.

Lemma origin_grows c c' f bs : grows c c' → origin (tc_complete c) f bs → origin (tc_complete c') f bs.
Proof. intros Hg [?|(k & ? & ? & ?)]; [by left|]. right. exists k. split_and!; [done|done|]. by apply (gr_complete _ _ Hg). Qed.

Lemma point_ok_grows c c' key p : grows c c' → point_ok c key p → point_ok c' key p.
Proof.
  intros Hg. destruct p as [|bs| |f| | |e|s|[bs|e]]; cbn [point_ok]; try done.
  - intros (g & Hf & Ho). exists g. split; [done|]. by apply (origin_grows c).
  - intros [Hr|Hf]; [left; by apply (gr_results _ _ Hg)|]. apply (gr_flights _ _ Hg) in Hf as [?|?]; auto.
  - intros [S1 S2 S3 S4 S5 S6 S7 S8]. split; auto.
    + intros x He Hx. destruct (S4 x He Hx) as [? Ho]. split; [done|]. intros bs Hb. by apply (gr_complete _ _ Hg), Ho.
    + intros taken Ht Hs. by apply (gr_complete _ _ Hg), S6.
  - intros (g & Hf & Ho). exists g. split; [done|]. by apply (origin_grows c).
Qed.

(** How the flights change when a thread moves: not, or it begins one, or it
    ends its own. *)
Inductive handover (c c1 : T) (key : string) (before after : bool) : Prop :=
  | handover_none : tc_flights c1 = tc_flights c → after = before → handover c c1 key before after
  | handover_begin f : tc_flights c !! key = None → tc_flights c1 = <[key := f]> (tc_flights c) → after = true →
      handover c c1 key before after
  | handover_end : tc_flights c1 = delete key (tc_flights c) → before = true → after = false →
      handover c c1 key before after.

Lemma Inv_at i t p c c1 :
  Inv c → tc_threads c !! i = Some t → tc_threads c1 = tc_threads c → grows c c1 →
  all_stored (origin (tc_complete c1)) (tc_cache c1) → jobs_ok c1 → numbers_ok c1 → point_ok c1 (th_key t) p →
  handover c c1 (th_key t) (owns (th_point t)) (owns p) →
  Inv (at_point i t p c1).
Proof.
  intros HI Ht Eth Hg Hst Hj Hn Hp Hh.
  assert (∀ j u, tc_threads (at_point i t p c1) !! j = Some u →
    (j = i ∧ u = mkThread (th_request t) p) ∨ (j ≠ i ∧ tc_threads c !! j = Some u)) as Hth.
  { intros j u. cbn. rewrite Eth. intros [[<- <-]|[? ?]]%lookup_insert_Some; [by left|right]. auto. }
  assert (tc_threads (at_point i t p c1) !! i = Some (mkThread (th_request t) p)) as Hi by (cbn; apply lookup_insert_eq).
  assert (∀ j u, j ≠ i → tc_threads c !! j = Some u → tc_threads (at_point i t p c1) !! j = Some u) as Hkeep.
  { intros j u ? ?. cbn. by rewrite Eth, lookup_insert_ne. }
  assert (∀ j u, j ≠ i → tc_threads c !! j = Some u → th_key u = th_key t → owns (th_point u) = true →
    owns (th_point t) = false ∧ is_Some (tc_flights c !! th_key t)) as Hother.
  { intros j u Hne Hu Hk Ho. split; [|apply (inv_owner _ HI); eauto].
    destruct (owns (th_point t)) eqn:E; [|done]. exfalso. by apply Hne, (inv_unique _ HI j i u t). }
  split; [| |exact Hst|by destruct Hj|by destruct Hn|intros key; cbn [tc_flights at_point set_threads]|].
  - intros j u [[-> ->]|[_ Hu]]%Hth; [exact (inv_keys _ HI i t Ht)|by eapply inv_keys].
  - intros j u [[-> ->]|[_ Hu]]%Hth; [exact Hp|].
    change (point_ok c1 (th_key u) (th_point u)). eapply point_ok_grows; [done|]. by eapply inv_points.
  - destruct (decide (key = th_key t)) as [->|Hne].
    + split.
      * intros Hs. destruct (owns p) eqn:Eo; [exists i; by eexists|].
        destruct Hh as [E1 E2|? ? ? ?|E1 ? ?]; [|done|rewrite E1, lookup_delete_eq in Hs; by destruct Hs].
        rewrite E1 in Hs. apply (inv_owner _ HI) in Hs as (j & u & Hu & Hk & Ho).
        destruct (decide (j = i)) as [->|?]; [congruence|]. exists j, u. auto.
      * intros (j & u & [[-> ->]|[Hne Hu]]%Hth & Hk & Ho).
        -- cbn in Ho. destruct Hh as [E1 E2|? ? -> ?|? ? ?]; [|by rewrite lookup_insert_eq|congruence].
           rewrite E1. apply (inv_owner _ HI). exists i, t. by rewrite <- E2.
        -- destruct (Hother j u Hne Hu Hk Ho) as [Hb Hs]. destruct Hh as [-> _|? E _ _|_ E _]; [done| |congruence].
           rewrite E in Hs. by destruct Hs.
    + assert (tc_flights c1 !! key = tc_flights c !! key) as ->.
      { destruct Hh as [-> _|f _ -> _| -> _ _]; [done|by rewrite lookup_insert_ne|by rewrite lookup_delete_ne]. }
      rewrite (inv_owner _ HI). split; intros (j & u & Hu & Hk & Ho).
      * exists j, u. split; [|done]. apply Hkeep; [|done]. intros ->. congruence.
      * apply Hth in Hu as [[-> ->]|[_ Hu]]; [by destruct Hne|]. eauto.
  - intros j k u v [[-> ->]|[Hj1 Hu]]%Hth [[-> ->]|[Hk1 Hv]]%Hth Ek Ho1 Ho2; [done| | |by eapply (inv_unique _ HI)]; exfalso.
    + destruct (Hother k v Hk1 Hv (eq_sym Ek) Ho2) as [Hb Hs]. cbn in Ho1.
      destruct Hh as [? E|? E _ _|_ ? _]; [congruence|rewrite E in Hs; by destruct Hs|congruence].
    + destruct (Hother j u Hj1 Hu Ek Ho1) as [Hb Hs]. cbn in Ho2.
      destruct Hh as [? E|? E _ _|_ ? _]; [congruence|rewrite E in Hs; by destruct Hs|congruence].
Qed.

(** ** Streams *)

(** Outputs may be completed and jobs change, nothing else. *)
Record quiet (c c' : T) : Prop := {
  qu_flights : tc_flights c' = tc_flights c;
  qu_results : tc_results c' = tc_results c;
  qu_next : tc_next c' = tc_next c;
  qu_threads : tc_threads c' = tc_threads c;
  qu_cache : tc_cache c' = tc_cache c;
  qu_complete x : x ∈ tc_complete c → x ∈ tc_complete c';
  qu_jobs : jobs_ok c → jobs_ok c';
}.

Lemma quiet_refl c : quiet c c.
Proof. by split. Qed.

Lemma quiet_trans c1 c2 c3 : quiet c1 c2 → quiet c2 c3 → quiet c1 c3.
Proof.
  intros [? ? ? ? ? ? ?] [? ? ? ? ? ? ?]. split; [congruence|congruence|congruence|congruence|congruence|auto|auto].
Qed.

Lemma quiet_grows c c' : quiet c c' → grows c c'.
Proof. intros Hq. split; [by rewrite (qu_results _ _ Hq)|rewrite (qu_flights _ _ Hq); auto|apply Hq]. Qed.

Lemma quiet_numbers c c' : quiet c c' → numbers_ok c → numbers_ok c'.
Proof. intros [E1 E2 E3 _ _ _ _] [? ? ?]. split; rewrite ?E1, ?E2, ?E3; done. Qed.

Lemma quiet_stored c c' : quiet c c' → all_stored (origin (tc_complete c)) (tc_cache c) → all_stored (origin (tc_complete c')) (tc_cache c').
Proof.
  intros Hq Hs f bs. rewrite (qu_cache _ _ Hq). intros Hf. apply (origin_grows c); [by apply quiet_grows|]. by apply Hs.
Qed.

Lemma stream_ok_grows c c' key s : quiet c c' → stream_ok (tc_complete c) key s → stream_ok (tc_complete c') key s.
Proof. intros Hq Hs. by apply (point_ok_grows c c' key (Streaming s)); [apply quiet_grows|]. Qed.

Lemma update_jobs (c c1 : T) key j :
  jobs_ok c → job_ok key j → tc_jobs c1 = <[key := j]> (tc_jobs c) →
  (∀ k f, tc_flights c1 !! k = Some f → k = key ∨ tc_flights c !! k = Some f) → jobs_ok c1.
Proof.
  intros [Hj Hf] Hok E Hfl. split.
  - intros k x. rewrite E. intros [[<- <-]|[_ ?]]%lookup_insert_Some; [done|by apply Hj].
  - intros k f Hk. rewrite E. destruct (decide (k = key)) as [->|Hne]; [by rewrite lookup_insert_eq|].
    rewrite lookup_insert_ne by done. apply Hfl in Hk as [->|Hk]; [done|]. by eapply Hf.
Qed.

Lemma updateProgress_quiet now key completed c : is_Some (tc_flights c !! key) → quiet c (updateProgress now key completed c).
Proof.
  intros [f Hf]. split; try done. intros Hj. destruct (jo_flight _ Hj _ _ Hf) as [j E]. unfold updateProgress. rewrite E.
  eapply update_jobs; [exact Hj| |done|intros k g ?; by right]. destruct (jo_job _ Hj _ _ E) as (? & ? & _).
  split_and!; [done|done|]. by left.
Qed.

(** What a part of [Read] or [Close] keeps. *)
Definition stream_kept (key : string) (s : stream) (c : T) (r : stream * T) : Prop :=
  quiet c r.2 ∧ stream_ok (tc_complete r.2) key r.1 ∧ owns (Streaming r.1) = owns (Streaming s).

Definition not_finalizing (s : stream) : Prop := ∀ e, s_point s ≠ Finalizing e.

Lemma finalize_ok call streamErr key s c :
  stream_ok_in call (tc_complete c) key s → not_finalizing s →
  (s_end s = None → streamErr = None → ∀ taken, taken_of (s_put s) = Some taken → (key, concat taken) ∈ tc_complete c) →
  stream_kept key s c (finalize streamErr key s c).
Proof.
  intros [S1 S2 S3 S4 S5 S6 S7 S8] Hnf Hc. unfold finalize. destruct (s_end s) as [e|] eqn:Ee.
  - split_and!; cbn [fst snd]; [apply quiet_refl| |].
    + split; cbn; rewrite ?Ee; try done; auto.
    + cbn. rewrite Ee. destruct (s_point s) as [| |x] eqn:Ep; [done|done|by destruct (Hnf x)].
  - split_and!; cbn [fst snd]; [apply quiet_refl| |cbn; by rewrite Ee]. split; cbn; try done.
    + by intros e [= ->].
    + intros taken Ht [= ->]. by apply Hc.
Qed.

Lemma to_idle_ok call key s c :
  stream_ok_in call (tc_complete c) key s → pending s = [] → not_finalizing s → (s_end s = None → silent (s_source s)) →
  stream_kept key s c (with_point Idle s, c).
Proof.
  intros [S1 S2 S3 S4 S5 S6 S7 S8] Hp Hnf Hs. split_and!; cbn [fst snd]; [apply quiet_refl| |].
  - split; cbn; try done; auto. intros taken Ht He. specialize (S5 taken Ht He). rewrite Hp in S5. exact S5.
  - cbn. by destruct (s_end s), (s_point s) as [| |x] eqn:E; try done; destruct (Hnf x).
Qed.

Lemma after_write_ok chunk readErr key s c :
  stream_ok_in (Some (chunk, readErr)) (tc_complete c) key s → pending s = [] → not_finalizing s →
  stream_kept key s c (after_write readErr key s c).
Proof.
  intros Hs Hp Hnf. pose proof Hs as [S1 S2 S3 S4 S5 S6 S7 S8]. unfold after_write. destruct (s_end s) as [x|] eqn:Ee.
  { assert (stream_kept key s c (with_point Idle s, c)) by (eapply to_idle_ok; [done..|]; by rewrite Ee). by destruct readErr. }
  destruct (S4 _ eq_refl eq_refl) as [(said & Esaid & Hsil) Ho]. destruct readErr as [e|].
  - eapply finalize_ok; [done|done|]. intros _ He taken Ht. apply Ho.
    rewrite Esaid, output_ends by done. destruct (errors_Is ErrEOF e); [|done].
    pose proof (S5 taken Ht eq_refl) as Hg. rewrite Esaid, given_snoc, Hp, app_nil_r in Hg. by f_equal.
  - eapply to_idle_ok; [done..|]. intros _. rewrite Esaid. apply Forall_app. split; [done|]. by constructor.
Qed.

Lemma heard_quiet chunk readErr key s (c : T) : quiet c (heard chunk readErr key s c).2.
Proof.
  unfold heard. cbn. destruct (output _); [|apply quiet_refl]. split; try done; [|by intros [? ?]; split]. intros x Hx. by right.
Qed.

Lemma heard_complete chunk readErr key s (c : T) bs :
  output (s_source s ++ [(chunk, readErr)]) = Some bs → (key, bs) ∈ tc_complete (heard chunk readErr key s c).2.
Proof. unfold heard. cbn. intros ->. by left. Qed.

Lemma read_ok chunk readErr key s c :
  stream_ok (tc_complete c) key s → s_point s = Idle →
  stream_kept key s c (let '(s, c) := heard chunk readErr key s c in Read chunk readErr key s c).
Proof.
  intros Hs Hi. assert (pending s = []) as Hp by (unfold pending; by rewrite Hi).
  pose proof (heard_quiet chunk readErr key s c) as Hq. pose proof (heard_complete chunk readErr key s c) as Hcomp.
  apply (stream_ok_grows c _ _ _ Hq) in Hs. pose proof Hs as [S1 S2 S3 S4 S5 S6 S7 S8]. unfold reading in S3. rewrite Hi in S3.
  destruct (heard chunk readErr key s c) as [s' c'] eqn:Eh. cbn [snd] in *.
  assert (s' = mkStream (s_point s) (s_put s) (s_end s) (s_closed s) (s_completed s) (s_lastProgress s) (s_source s ++ [(chunk, readErr)]))
    as -> by (unfold heard in Eh; by injection Eh as <- _). clear Eh.
  set (s' := mkStream _ _ _ _ _ _ _).
  assert (∀ p, s_end s = None → (∀ e, p ≠ Finalizing e) →
     (∀ taken, taken_of (s_put s) = Some taken → given (s_source s ++ [(chunk, readErr)]) = concat taken ++ pending (with_point p s')) →
     stream_ok_in (Some (chunk, readErr)) (tc_complete c') key (with_point p s')) as Hmid.
  { intros p Ee Hnf Hg. split; cbn; rewrite ?Ee; try done.
    - intros e Ep. by destruct (Hnf e).
    - intros x _ [= <-]. split; [|exact Hcomp]. eexists. split; [done|]. by apply S3.
    - intros taken Ht _. by apply Hg.
    - intros Hcl. apply S8 in Hcl. rewrite Ee in Hcl. by destruct Hcl. }
  assert (owns (Streaming s') = owns (Streaming s)) as Eo by done.
  assert (∀ r, stream_kept key s' c' r → stream_kept key s c r) as Hback.
  { intros r (Hq2 & Hs2 & Eo2). split_and!; [by eapply quiet_trans|done|by rewrite Eo2]. }
  destruct (s_end s) as [e|] eqn:Ee.
  - assert (stream_kept key s c (after_write readErr key s' c')) as Hk.
    { apply Hback, (after_write_ok chunk); [|unfold pending; cbn; by rewrite Hi|intros x; cbn; by rewrite Hi].
      split; cbn; rewrite ?Ee; auto; done. }
    unfold Read. change (s_end s') with (Some e). by destruct chunk.
  - destruct chunk as [|b chunk].
    + unfold Read. apply Hback, (after_write_ok []); [|unfold pending; cbn; by rewrite Hi|intros x; cbn; by rewrite Hi].
      assert (s' = with_point Idle s') as -> by (unfold s', with_point; cbn; by rewrite Hi).
      apply Hmid; [done|done|]. intros taken Ht. rewrite given_snoc, (S5 taken Ht eq_refl), Hp, !app_nil_r. done.
    + unfold Read. change (s_end s') with (@None (option error)). split_and!; cbn [fst snd]; [done| |cbn; by rewrite Ee].
      pose proof (Hmid (Writing (b :: chunk) (b :: chunk) readErr) eq_refl) as X.
      unfold with_point in X. cbn in X. apply X; [done|].
      intros taken Ht. unfold given in *. cbn. rewrite map_app, concat_app. cbn. rewrite app_nil_r.
      pose proof (S5 taken Ht eq_refl) as Hg. unfold given in Hg. by rewrite Hg, Hp, app_nil_r.
Qed.

Lemma closed_ok complete key s :
  stream_ok complete key s → is_Some (s_end s) →
  stream_ok complete key (mkStream (s_point s) (s_put s) (s_end s) true (s_completed s) (s_lastProgress s) (s_source s)).
Proof. intros [S1 S2 S3 S4 S5 S6 S7 S8] He. by split. Qed.

Lemma close_ok key s c : stream_ok (tc_complete c) key s → s_point s = Idle → stream_kept key s c (Close key s c).
Proof.
  intros Hs Hi. assert (not_finalizing s) as Hnf by (intros e; by rewrite Hi).
  unfold Close. destruct (s_closed s); [split_and!; [apply quiet_refl|done|done]|].
  pose proof (finalize_ok _ (Some closed_early) key s c Hs Hnf (λ _ E, ltac:(discriminate E))) as (Hq & Hs1 & Eo).
  unfold finalize in *. destruct (s_end s) as [e|] eqn:Ee; cbn [s_end] in *; rewrite ?Ee; cbn [fst snd] in *.
  - split_and!; [done| |cbn in Eo |- *; rewrite Ee in Eo |- *; exact Eo]. apply closed_ok in Hs1; [cbn in Hs1 |- *; rewrite Ee in Hs1; exact Hs1|]. cbn. by rewrite Ee.
  - split_and!; [done| |done]. apply closed_ok in Hs1; [exact Hs1|]. by eexists.
Qed.

Lemma written_ok now writeErr chunk readErr key s c rest :
  stream_ok (tc_complete c) key s → s_point s = Writing rest chunk readErr → (writeErr = None → rest = []) →
  is_Some (tc_flights c !! key) → stream_kept key s c (written now writeErr chunk readErr key s c).
Proof.
  intros Hs Hw Hrest Hf. assert (s_end s = None) as Ee by by eapply so_writing.
  unfold written. destruct writeErr as [e|].
  { eapply finalize_ok; [done|intros x; by rewrite Hw|done]. }
  rewrite Hrest in Hw by done. set (report := Second <=? _).
  set (s1 := mkStream Idle _ _ _ _ _ _). set (c1 := if report then _ else _).
  assert (quiet c c1) as Hq by (unfold c1; destruct report; [by apply updateProgress_quiet|apply quiet_refl]).
  assert (stream_ok_in (Some (chunk, readErr)) (tc_complete c1) key s1) as Hs1.
  { apply (stream_ok_grows c c1) in Hs; [|done]. destruct Hs as [S1 S2 S3 S4 S5 S6 S7 S8]. unfold reading in *. rewrite Hw in *.
    split; cbn; try done. intros taken Ht Hend. specialize (S5 taken Ht Hend). unfold pending in S5. by rewrite Hw in S5. }
  assert (owns (Streaming s1) = owns (Streaming s)) as Eo by (cbn; by rewrite Ee).
  destruct (after_write_ok chunk readErr key s1 c1) as (Hq2 & Hs2 & Eo2); [done|done|by intros e|].
  split_and!; [by eapply quiet_trans|done|by rewrite Eo2].
Qed.

(** ** Steps of a stream *)

(** What [Inv_at] asks of a step from one point to another. *)
Record moved (c c1 : T) (key : string) (p p1 : point) : Prop := {
  mv_threads : tc_threads c1 = tc_threads c;
  mv_grows : grows c c1;
  mv_stored : all_stored (origin (tc_complete c1)) (tc_cache c1);
  mv_jobs : jobs_ok c1;
  mv_numbers : numbers_ok c1;
  mv_point : point_ok c1 key p1;
  mv_handover : handover c c1 key (owns p) (owns p1);
}.

Lemma Inv_moved i t p c c1 :
  Inv c → tc_threads c !! i = Some t → moved c c1 (th_key t) (th_point t) p → Inv (at_point i t p c1).
Proof. intros HI Ht []. by apply (Inv_at i t p c). Qed.

Lemma stream_kept_moved key s c r :
  Inv c → stream_kept key s c r → moved c r.2 key (Streaming s) (Streaming r.1).
Proof.
  intros HI (Hq & Hs & Eo). split; [apply Hq|by apply quiet_grows| | | |done|].
  - apply (quiet_stored c); [done|apply HI].
  - apply Hq, HI.
  - apply (quiet_numbers c); [done|apply HI].
  - apply handover_none; [apply Hq|done].
Qed.

(** Only the cache changes, and only bytes with an origin are stored. *)
Lemma set_cache_moved w key p p1 c :
  Inv c → all_stored (origin (tc_complete c)) w → point_ok c key p1 → owns p1 = owns p →
  moved c (set_cache w c) key p p1.
Proof.
  intros HI Hw Hp Eo. split; [done|by apply grows_same|done| | | |by apply handover_none].
  - by destruct (inv_jobs _ HI).
  - by destruct (inv_numbers _ HI).
  - exact Hp.
Qed.

Lemma with_put_ok complete key s p :
  stream_ok complete key s → (∀ taken, taken_of p = Some taken → taken_of (s_put s) = Some taken) →
  (∀ taken, p = Copying taken → validCacheKey key = true) → stream_ok complete key (with_put p s).
Proof. intros [S1 S2 S3 S4 S5 S6 S7 S8] Hp Hv. split; cbn; auto. Qed.

Lemma finishFlight_moved now key err size p p1 c :
  Inv c → is_Some (tc_flights c !! key) → owns p = true → owns p1 = false →
  (∀ c1, tc_complete c1 = tc_complete c → point_ok c1 key p1) →
  moved c (finishFlight now key err size c) key p p1.
Proof.
  intros HI [f Hf] Hp Hp1 Hpt. unfold finishFlight. rewrite Hf.
  destruct (jo_flight _ (inv_jobs _ HI) _ _ Hf) as [j Ej]. rewrite Ej. cbn [default from_option]. set (job := match err with Some _ => _ | None => _ end).
  assert (job_ok key job) as Hjob.
  { destruct (jo_job _ (inv_jobs _ HI) _ _ Ej) as (E1 & E2 & _). unfold job.
    destruct err; (split_and!; [done|done|]); cbn; set_solver. }
  destruct (inv_numbers _ HI) as [N1 N2 N3].
  split; cbn [tc_threads tc_cache tc_complete set_jobs set_flights set_results].
  - done.
  - split; cbn; [|intros k g Hk|done].
    + intros g Hg. destruct (decide (g = f)) as [->|?]; [by rewrite lookup_insert_eq|by rewrite lookup_insert_ne].
    + destruct (decide (k = key)) as [->|?]; [|left; by rewrite lookup_delete_ne].
      right. replace g with f by congruence. by rewrite lookup_insert_eq.
  - apply HI.
  - eapply update_jobs; [apply HI|exact Hjob|done|]. cbn. intros k g [_ Hk]%lookup_delete_Some. by right.
  - split; cbn.
    + intros k g [Hne Hk]%lookup_delete_Some. destruct (N1 _ _ Hk). split; [done|]. rewrite lookup_insert_ne; [done|].
      intros ->. by apply Hne, (N3 _ _ g).
    + intros g. destruct (decide (g = f)) as [->|?]; [intros _; by apply (N1 key)|rewrite lookup_insert_ne by done; apply N2].
    + intros k k' g [_ Hk]%lookup_delete_Some [_ Hk']%lookup_delete_Some. by eapply N3.
  - by apply Hpt.
  - by apply handover_end.
Qed.

Lemma put_ends_ok taken e key s c r w :
  Inv c → stream_ok (tc_complete c) key s → s_put s = Copying taken → s_end s = Some e →
  put_blob key (mkReader taken e) (tc_cache c) = (r, w) → all_stored (origin (tc_complete c)) w.
Proof.
  intros HI Hs Hp He E. destruct r as [u|x].
  - apply put_blob_Ok in E as (f & bs & Hf & Hr & Ew). unfold read_all in Hr. cbn in Hr. destruct e as [x|]; [done|].
    injection Hr as <-. intros g bs. rewrite Ew. intros [[<- <-]|[_ Hg]]%lookup_insert_Some; [|by apply (inv_stored _ HI)].
    right. exists key. split_and!; [by eapply so_valid|done|]. eapply so_complete; [done|by rewrite Hp|done].
  - apply put_blob_Err in E. apply (stored_same _ (tc_cache c)); [done|apply HI].
Qed.

Lemma stream_step_moved key s c r :
  Inv c → stream_ok (tc_complete c) key s → (owns (Streaming s) = true → is_Some (tc_flights c !! key)) →
  stream_step maxBytes key s c r → moved c r.2 key (Streaming s) (Streaming r.1).
Proof.
  intros HI Hs Hfl Hstep.
  destruct Hstep as [[chunk readErr Hi|Hi]|Hstep];
    [by apply stream_kept_moved, read_ok|by apply stream_kept_moved, close_ok|].
  destruct Hstep as [Hp|a rest chunk readErr taken Hw Hp Ha|now chunk readErr Hw
    |now a rest chunk readErr result Hw Hp|taken e x w Hp He E|taken source x w Hp E|now taken x w Hp E|now se ce Hf Hp].
  - apply stream_kept_moved; [done|]. split_and!; [apply quiet_refl| |by destruct (validCacheKey key)].
    apply with_put_ok; [done| |]; destruct (validCacheKey key); try done. intros taken [= <-]. by rewrite Hp.
  - apply stream_kept_moved; [done|]. assert (s_end s = None) as Ee by by eapply so_writing.
    split_and!; cbn [fst snd]; [apply quiet_refl| |cbn; by rewrite Ee]. destruct Hs as [S1 S2 S3 S4 S5 S6 S7 S8].
    unfold reading in *. rewrite Hw in *. rewrite Ee in *. split; cbn; rewrite ?Ee; try done.
    + intros taken' [= <-] _. rewrite Hp in S5. specialize (S5 taken eq_refl eq_refl). unfold pending in S5. rewrite Hw in S5.
      unfold given in S5. unfold pending. cbn. by rewrite concat_app, S5, <- app_assoc; cbn; rewrite app_nil_r.
    + intros _ _. by eapply S7.
  - apply stream_kept_moved; [done|]. eapply written_ok; [done|done|done|]. apply Hfl. cbn. by rewrite (so_writing _ _ _ _ Hs _ _ _ Hw).
  - apply stream_kept_moved; [done|]. eapply written_ok; [done|done|done|]. apply Hfl. cbn. by rewrite (so_writing _ _ _ _ Hs _ _ _ Hw).
  - apply set_cache_moved; [done|by eapply put_ends_ok| |by destruct x]. apply with_put_ok; [done|by destruct x..].
  - apply set_cache_moved; [done| |by apply with_put_ok|done]. apply put_blob_Err in E. apply (stored_same _ (tc_cache c)); [done|apply HI].
  - apply set_cache_moved; [done| |by apply with_put_ok|done]. eapply Put_locked_preserves; [exact E|apply HI].
  - assert (s_end s = Some se) as Ee by by apply (so_finalizing _ _ _ _ Hs).
    apply finishFlight_moved; [done| |cbn; by rewrite Ee, Hf|cbn; by rewrite Ee|].
    + apply Hfl. cbn. by rewrite Ee, Hf.
    + intros c1 E1. cbn [point_ok fst]. rewrite E1. destruct Hs as [S1 S2 S3 S4 S5 S6 S7 S8].
      split; cbn; rewrite ?Ee in *; try done; auto.
Qed.

(** ** Steps of a caller *)

(** A key made by [transcodeCacheKey] is one the cache accepts. *)
Lemma transcode_key_valid source options : validCacheKey (transcodeCacheKey source options) = true.
Proof.
  unfold validCacheKey, transcodeCacheKey. set (parts := [_; _; _; _]).
  apply andb_true_iff. split; [done|]. apply negb_true_iff. unfold ContainsAny. apply has_byte_false. intros a Ha.
  apply has_byte_false. intros b Hb. apply bool_decide_eq_false. intros ->.
  assert (lacks b (StableID "transcode" parts)) as Hl; [|by apply Hl].
  unfold StableID. rewrite !lacks_app.
  assert (b ∈ ["/"%char; "\"%char]) as Hb' by exact Hb.
  split_and!; [| |apply b64_char_lacks]; apply elem_of_cons in Hb' as [->| ->%list_elem_of_singleton]; by compute_done.
Qed.

Lemma still_moved key p p1 c : Inv c → point_ok c key p1 → owns p1 = owns p → moved c c key p p1.
Proof. intros HI Hp Eo. split; [done|by apply grows_same|apply HI|apply HI|apply HI|done|by apply handover_none]. Qed.

Lemma job_id_some key : StableID "download" ["transcode"; key] ≠ "".
Proof. done. Qed.

Lemma recordJobLocked_jobs now r state completed total message (c c1 : T) :
  (∀ key j, tc_jobs c !! key = Some j → job_ok key j) → state ∈ [DownloadStateTranscoding; StateCached; StateFailed] →
  ∃ j, job_ok (rq_key r) j ∧ tc_jobs (recordJobLocked now r state completed total message c) = <[rq_key r := j]> (tc_jobs c).
Proof.
  intros Hj Hs. unfold recordJobLocked. eexists. split; [|reflexivity].
  destruct (tc_jobs c !! rq_key r) as [j|] eqn:E; cbn [default from_option id].
  - destruct (Hj _ _ E) as (E1 & E2 & _). rewrite E1, bool_decide_eq_false_2 by apply job_id_some. by split_and!.
  - by split_and!.
Qed.

Lemma look_moved now seekErr i t c :
  Inv c → tc_threads c !! i = Some t → th_point t = Opening → Inv (look now seekErr i t c).
Proof.
  intros HI Ht Hp. unfold look. destruct (openCached now (th_key t) seekErr (tc_cache c)) as [r w] eqn:E.
  apply (openCached_stored (origin (tc_complete c))) in E as [Hw Hr]; [|apply HI].
  destruct r as [bs|e]; [|destruct (errors_Is ErrNotFound e)];
    (apply (Inv_moved i t _ c); [done|done|]; rewrite Hp; apply set_cache_moved; try done).
  destruct (Hr bs eq_refl) as (f & Hf & Hs). exists f. split; [done|]. by apply (inv_stored _ HI).
Qed.

Lemma reopen_moved now seekErr i t c :
  Inv c → tc_threads c !! i = Some t → th_point t = Reopening → Inv (reopen now seekErr i t c).
Proof.
  intros HI Ht Hp. unfold reopen. destruct (openCached now (th_key t) seekErr (tc_cache c)) as [r w] eqn:E.
  apply (openCached_stored (origin (tc_complete c))) in E as [Hw Hr]; [|apply HI].
  apply (Inv_moved i t _ c); [done|done|]; rewrite Hp; apply set_cache_moved; try done.
  destruct r as [bs|e]; [|done]. destruct (Hr bs eq_refl) as (f & Hf & Hs). exists f. split; [done|]. by apply (inv_stored _ HI).
Qed.

Lemma record_moved now content i t c :
  Inv c → tc_threads c !! i = Some t → th_point t = Recording content →
  Inv (at_point i t (Answered (Ok content)) (recordCached now (th_request t) (length_of content) c)).
Proof.
  intros HI Ht Hp. apply (Inv_moved i t _ c); [done|done|]. rewrite Hp. pose proof (inv_points _ HI _ _ Ht) as Hpt. rewrite Hp in Hpt.
  destruct (recordJobLocked_jobs now (th_request t) StateCached (length_of content) (length_of content) "" c c) as (j & Hj & Ej);
    [apply HI|set_solver|].
  split; [done|by apply grows_same|apply HI| | |exact Hpt|by apply handover_none].
  - eapply update_jobs; [apply HI|exact Hj|exact Ej|]. by right.
  - by destruct (inv_numbers _ HI).
Qed.

Lemma register_moved now i t c :
  Inv c → tc_threads c !! i = Some t → th_point t = Registering → Inv (register now i t c).
Proof.
  intros HI Ht Hp. unfold register. destruct (tc_flights c !! th_key t) as [f|] eqn:Ef; (apply (Inv_moved i t _ c); [done|done|]; rewrite Hp).
  - apply still_moved; [done| |done]. by right.
  - set (c1 := set_flights _ c). destruct (inv_numbers _ HI) as [N1 N2 N3].
    destruct (recordJobLocked_jobs now (th_request t) DownloadStateTranscoding 0 0 "" c1 c1) as (j & Hj & Ej); [apply HI|by left|].
    assert (∀ k g, tc_flights c !! k = Some g → g ≠ tc_next c) as Hnew by (intros k g Hg ->; apply N1 in Hg as [? _]; lia).
    split; cbn [tc_threads tc_cache tc_complete]; [done| |apply HI| | |done|by apply (handover_begin _ _ _ _ _ (tc_next c))].
    + split; cbn; [done| |done]. intros k g Hg. left. rewrite lookup_insert_ne; [done|congruence].
    + eapply (update_jobs c); [apply HI|exact Hj|exact Ej|]. cbn. intros k g [[<- _]|[_ ?]]%lookup_insert_Some; auto.
    + split; cbn.
      * intros k g [[<- <-]|[_ Hg]]%lookup_insert_Some; [|by destruct (N1 _ _ Hg); split; [lia|]]. split; [lia|].
        destruct (tc_results c !! tc_next c) eqn:E; [|done]. assert (tc_next c < tc_next c)%nat by (apply N2; by rewrite E). lia.
      * intros g Hg. apply N2 in Hg. lia.
      * intros k k' g [[<- <-]|[? Hk]]%lookup_insert_Some [[<- ?]|[? Hk']]%lookup_insert_Some; [done| | |by eapply N3].
        -- by destruct (Hnew _ _ Hk').
        -- subst g. by destruct (Hnew _ _ Hk).
Qed.

Lemma thread_step_Inv i t c c' :
  Inv c → tc_threads c !! i = Some t → thread_step maxBytes i t c c' → Inv c'.
Proof.
  intros HI Ht Hstep. pose proof (inv_points _ HI _ _ Ht) as Hpt.
  destruct Hstep as [now se Hp|now bs Hp|now Hp|f result Hp Hr|f e Hp|now se Hp|now answer Hp|now cause Hp|s r Hp Hs].
  - by apply look_moved.
  - by apply record_moved.
  - by apply register_moved.
  - unfold waited. destruct result; (apply (Inv_moved i t _ c); [done|done|]; rewrite Hp; by apply still_moved).
  - apply (Inv_moved i t _ c); [done|done|]. rewrite Hp. by apply still_moved.
  - by apply reopen_moved.
  - unfold delegated. destruct answer; (apply (Inv_moved i t _ c); [done|done|]; rewrite Hp; apply still_moved; [done| |done]); [|done].
    split; cbn; try done; [intros _ _; apply List.Forall_nil|by intros taken [= <-]].
  - unfold start_failed. apply (Inv_moved i t _ c); [done|done|]. rewrite Hp. apply finishFlight_moved; try done.
    apply (inv_owner _ HI). exists i, t. by rewrite Hp.
  - unfold on_stream. apply (Inv_moved i t _ c); [done|done|]. rewrite Hp. rewrite Hp in Hpt. apply stream_step_moved; [done|done| |done].
    intros Ho. apply (inv_owner _ HI). exists i, t. by rewrite Hp.
Qed.

Lemma transcode_Inv_step c c' : Inv c → transcode_step c c' → Inv c'.
Proof.
  intros HI [i source options Hi| |call r w Hc E].
  - split; cbn.
    + intros j u [[<- <-]|[_ Hu]]%lookup_insert_Some; [apply transcode_key_valid|by eapply inv_keys].
    + intros j u [[<- <-]|[_ Hu]]%lookup_insert_Some; [done|]. by apply (inv_points _ HI _ _ Hu).
    + apply HI.
    + by destruct (inv_jobs _ HI).
    + by destruct (inv_numbers _ HI).
    + intros k0. rewrite (inv_owner _ HI). split; intros (j & u & Hu & Hk & Ho); exists j, u; (split; [|done]).
      * rewrite lookup_insert_ne; [done|]. congruence.
      * apply lookup_insert_Some in Hu as [[<- <-]|[_ ?]]; done.
    + intros j k u v [[<- <-]|[_ Hu]]%lookup_insert_Some [[<- <-]|[_ Hv]]%lookup_insert_Some; try done. by eapply (inv_unique _ HI).
  - by eapply thread_step_Inv.
  - apply (other_call_preserves maxBytes (origin (tc_complete c)) call Hc) in E. specialize (E (inv_stored _ HI)). destruct HI as [I0 I1 I2 I3 I4 I5 I6].
    split; [exact I0|exact I1|exact E|by destruct I3|by destruct I4|exact I5|exact I6].
Qed.

Lemma transcodes_reached_Inv c : transcodes_reached c → Inv c.
Proof.
  induction 1 as [|c c' _ IH Hs]; [|by eapply transcode_Inv_step].
  split; cbn; [done|done|intros f bs ?; by left|by split|by split; cbn; [|intros f []|]| |done].
  intros key. split; [by intros []|]. by intros (i & t & ? & _).
Qed.

(** * The theorems *)

(** C18. One transcode for a key at a time: however callers, readers and cache
    goroutines interleave, at most one caller of a key is starting a transcode
    or has a stream that is not over; a flight is registered exactly for the
    keys that have one; whoever waits waits for a flight that is over or the one
    of its key; and every flight has its job. *)
Theorem transcodes_are_single_flight c :
  transcodes_reached c →
  (∀ i j t u, tc_threads c !! i = Some t → tc_threads c !! j = Some u → th_key t = th_key u →
     owns (th_point t) = true → owns (th_point u) = true → i = j) ∧
  (∀ key, is_Some (tc_flights c !! key) ↔ ∃ i t, tc_threads c !! i = Some t ∧ th_key t = key ∧ owns (th_point t) = true) ∧
  (∀ i t f, tc_threads c !! i = Some t → th_point t = Waiting f →
     is_Some (tc_results c !! f) ∨ tc_flights c !! th_key t = Some f) ∧
  (∀ key f, tc_flights c !! key = Some f → ∃ j, tc_jobs c !! key = Some j ∧ job_ok key j).
Proof.
  intros HI%transcodes_reached_Inv. split_and!; [apply HI|apply HI| |].
  - intros i t f Ht Hp. pose proof (inv_points _ HI _ _ Ht) as Hpt. by rewrite Hp in Hpt.
  - intros key f Hf. destruct (jo_flight _ (inv_jobs _ HI) _ _ Hf) as [j Hj]. exists j. split; [done|]. by apply (inv_jobs _ HI).
Qed.

(** C19. Only complete transcodes are cached: whatever is stored after any
    interleaving was stored before or is all that a transcoder's reader gave, in
    order, up to the end of the stream it reported, with no other error before
    ([tc_complete] holds these outputs; it is written where the reader is read,
    not where the stream is ended); and whoever is answered from the cache gets
    such an output of the very key asked for. *)
Theorem only_complete_transcodes_are_cached c :
  files_distinct (B := B) → transcodes_reached c →
  (∀ f bs, stored (tc_cache c) !! f = Some bs → origin (tc_complete c) f bs) ∧
  ∀ i t bs, tc_threads c !! i = Some t → th_point t = Answered (Ok bs) →
    (th_key t, bs) ∈ tc_complete c ∨ ∃ f, file_of (th_key t) = Some f ∧ stored w0 !! f = Some bs.
Proof.
  intros Hfd HI%transcodes_reached_Inv. split; [apply HI|]. intros i t bs Ht Hp.
  pose proof (inv_points _ HI _ _ Ht) as Hpt. rewrite Hp in Hpt. destruct Hpt as (f & Hf & [Hs|(key & Hv & Hk & Hc)]).
  - right. by exists f.
  - left. replace (th_key t) with key; [done|]. eapply Hfd; [done| |done|done]. by eapply inv_keys.
Qed.

(** ** Flights end *)

(** What goes on at the owner [i] of a flight once its client leaves: the
    delegate answers, the stream is closed unless that has been done, and calls
    and goroutines that are under way go on.  Nothing more is read. *)
Inductive ending_step (i : nat) (c : T) : T → Prop :=
  | ending_delegate now answer t :
      tc_threads c !! i = Some t → th_point t = Delegating → ending_step i c (delegated now answer i t c)
  | ending_failed_start now cause t :
      tc_threads c !! i = Some t → th_point t = Failing_start cause → ending_step i c (start_failed now cause i t c)
  | ending_close t s :
      tc_threads c !! i = Some t → th_point t = Streaming s → s_point s = Idle → s_closed s = false →
      ending_step i c (on_stream i t (Close (th_key t) s c))
  | ending_work t s r :
      tc_threads c !! i = Some t → th_point t = Streaming s → work_step maxBytes (th_key t) s c r →
      ending_step i c (on_stream i t r).

Lemma ending_step_transcode i c c' : ending_step i c c' → transcode_step c c'.
Proof.
  intros [now answer t Ht Hp|now cause t Ht Hp|t s Ht Hp Hi Hc|t s r Ht Hp Hw]; (eapply step_thread; [exact Ht|]).
  - by apply step_delegate.
  - by apply step_start_failed.
  - eapply step_stream; [exact Hp|]. by apply step_client, step_close.
  - eapply step_stream; [exact Hp|]. by apply step_work.
Qed.

(** *** They are finitely many *)

Definition put_weight (p : put_point) : nat :=
  match p with Put_starting => 3 | Copying _ => 2 | Put_stored _ => 1 | Put_done _ => 0 end.
Definition point_weight (p : stream_point) : nat :=
  match p with Idle => 0 | Finalizing _ => 1 | Writing rest _ _ => 2 + length rest end.
Definition stream_weight (s : stream) : nat :=
  put_weight (s_put s) + point_weight (s_point s) + if s_closed s then 0 else 2.
Definition weight (p : point) : nat :=
  match p with Delegating => 6 | Failing_start _ => 1 | Streaming s => stream_weight s | _ => 0 end.

Lemma finalize_weight e key s (c : T) :
  (stream_weight (finalize e key s c).1 ≤ put_weight (s_put s) + 1 + if s_closed s then 0 else 2)%nat.
Proof. unfold finalize, stream_weight. destruct (s_end s); cbn; destruct (s_closed s); lia. Qed.

Lemma after_write_weight e key s (c : T) :
  (stream_weight (after_write e key s c).1 ≤ put_weight (s_put s) + 1 + if s_closed s then 0 else 2)%nat.
Proof.
  unfold after_write. destruct e as [e|]; [destruct (s_end s); [|apply finalize_weight]|];
    unfold stream_weight; cbn; destruct (s_closed s); lia.
Qed.

Lemma written_weight now we chunk e key s (c : T) :
  (stream_weight (written now we chunk e key s c).1 ≤ put_weight (s_put s) + 1 + if s_closed s then 0 else 2)%nat.
Proof. unfold written. destruct we as [x|]; [apply finalize_weight|]. etrans; [apply after_write_weight|]. done. Qed.

Lemma work_step_weight key s c r : work_step maxBytes key s c r → (stream_weight r.1 < stream_weight s)%nat.
Proof.
  intros [Hp|a rest chunk e taken Hw Hp Ha|now chunk e Hw|now a rest chunk e result Hw Hp|taken e x w Hp He E
    |taken source x w Hp E|now taken x w Hp E|now se ce Hf Hp].
  - unfold stream_weight. cbn. rewrite Hp. destruct (validCacheKey key); cbn; lia.
  - unfold stream_weight. cbn. rewrite Hp, Hw. cbn. rewrite length_app. destruct a; [done|]. cbn. lia.
  - pose proof (written_weight now None chunk e key s c). unfold stream_weight at 2. rewrite Hw. cbn in *. lia.
  - pose proof (written_weight now (Some (write_error result)) chunk e key s c). unfold stream_weight at 2. rewrite Hw. cbn in *. lia.
  - unfold stream_weight. cbn. rewrite Hp. destruct x; cbn; lia.
  - unfold stream_weight. cbn. rewrite Hp. cbn. lia.
  - unfold stream_weight. cbn. rewrite Hp. cbn. lia.
  - unfold stream_weight. cbn. rewrite Hf. cbn. lia.
Qed.

Definition weight_at (i : nat) (c : T) : nat :=
  match tc_threads c !! i with Some t => weight (th_point t) | None => 0 end.

Lemma weight_at_point i t p c : weight_at i (at_point i t p c) = weight p.
Proof. unfold weight_at. cbn. by rewrite lookup_insert_eq. Qed.

Lemma ending_step_weight i c c' : ending_step i c c' → (weight_at i c' < weight_at i c)%nat.
Proof.
  intros [now answer t Ht Hp|now cause t Ht Hp|t s Ht Hp Hi Hc|t s r Ht Hp Hw]; unfold weight_at at 2; rewrite Ht, Hp.
  - unfold delegated. destruct answer; rewrite weight_at_point; cbn; lia.
  - unfold start_failed. rewrite weight_at_point. cbn. lia.
  - unfold on_stream. rewrite weight_at_point. unfold Close. rewrite Hc. cbn [weight].
    eapply Nat.le_lt_trans; [apply finalize_weight|]. unfold stream_weight. cbn. rewrite Hc. lia.
  - unfold on_stream. rewrite weight_at_point. by eapply work_step_weight.
Qed.

Lemma ending_steps_bounded i n c c' : nsteps (ending_step i) n c c' → (n ≤ weight_at i c)%nat.
Proof.
  revert c. induction n as [|n IH]; intros c Hn; [lia|]. inversion Hn as [|? ? c1 ? Hs Hr]; subst.
  apply ending_step_weight in Hs. apply IH in Hr. lia.
Qed.

(** *** They stop only when the flight is over *)

Lemma ending_step_others i c c' j : ending_step i c c' → j ≠ i → tc_threads c' !! j = tc_threads c !! j.
Proof.
  intros [now answer t Ht Hp|now cause t Ht Hp|t s Ht Hp Hi Hc|t s r Ht Hp Hw] Hj.
  - unfold delegated. destruct answer; cbn; by rewrite lookup_insert_ne.
  - unfold start_failed, finishFlight. cbn. rewrite lookup_insert_ne by done. by destruct (tc_flights c !! th_key t).
  - unfold on_stream, Close, finalize. rewrite Hc. cbn. rewrite lookup_insert_ne by done. by destruct (s_end s).
  - unfold on_stream. cbn. rewrite lookup_insert_ne by done. f_equal.
    destruct Hw; try done; unfold written, after_write, finalize, finalized, finishFlight; by repeat case_match.
Qed.

Lemma ending_step_key i c c' t :
  ending_step i c c' → tc_threads c !! i = Some t → ∃ t', tc_threads c' !! i = Some t' ∧ th_request t' = th_request t.
Proof.
  intros Hs Ht. destruct Hs as [now answer u Hu Hp|now cause u Hu Hp|u s Hu Hp Hi Hc|u s r Hu Hp Hw]; rewrite Hu in Ht; injection Ht as ->.
  - unfold delegated. destruct answer; cbn; rewrite lookup_insert_eq; eauto.
  - unfold start_failed. cbn. rewrite lookup_insert_eq. eauto.
  - cbn. rewrite lookup_insert_eq. eauto.
  - cbn. rewrite lookup_insert_eq. eauto.
Qed.

(** Whoever owns the flight of a key has something left to do for it. *)
Lemma owner_goes_on i t c :
  Inv c → tc_threads c !! i = Some t → owns (th_point t) = true → ∃ c', ending_step i c c'.
Proof.
  intros HI Ht Ho. pose proof (inv_points _ HI _ _ Ht) as Hpt. destruct (th_point t) as [| | | | | |cause|s|] eqn:Hp; try done.
  { eexists. by apply (ending_delegate _ _ 0 (Ok tt) t). }
  { eexists. by apply (ending_failed_start _ _ 0 cause t). }
  assert (∀ r, work_step maxBytes (th_key t) s c r → ∃ c', ending_step i c c') as Hwork by (intros r Hr; eexists; by eapply ending_work).
  cbn in Ho, Hpt. destruct (s_put s) as [|taken|taken|result] eqn:Eput.
  - eapply Hwork. by apply step_put_starts.
  - destruct (s_point s) as [|rest chunk e|e] eqn:Ept.
    + destruct (s_end s) eqn:Ee; [done|]. destruct (s_closed s) eqn:Ec; [|eexists; by eapply ending_close].
      apply (so_closed _ _ _ _ Hpt) in Ec. rewrite Ee in Ec. by destruct Ec.
    + destruct rest as [|a rest]; [eapply Hwork; by apply (step_written _ _ _ _ 0)|].
      eapply Hwork. apply (step_pipe _ _ _ _ (a :: rest) [] chunk e taken); [by rewrite app_nil_r|done|done].
    + destruct (put_blob (th_key t) (mkReader taken e) (tc_cache c)) as [x w] eqn:E.
      eapply Hwork, step_put_ends; [done| |exact E]. by apply (so_finalizing _ _ _ _ Hpt).
  - destruct (Put_locked maxBytes 0 (th_key t) (counted (mkReader taken None)) false (tc_cache c)) as [x w] eqn:E.
    eapply Hwork, step_put_recorded; [done|exact E].
  - destruct (s_point s) as [|rest chunk e|e] eqn:Ept.
    + destruct (s_end s) eqn:Ee; [done|]. destruct (s_closed s) eqn:Ec; [|eexists; by eapply ending_close].
      apply (so_closed _ _ _ _ Hpt) in Ec. rewrite Ee in Ec. by destruct Ec.
    + destruct rest as [|a rest]; [eapply Hwork; by apply (step_written _ _ _ _ 0)|].
      eapply Hwork. by apply (step_write_fails _ _ _ _ 0 a rest chunk e result).
    + eapply Hwork. by apply (step_finalized _ _ _ _ 0 e result).
Qed.

Lemma finishFlight_grows now key err size c : grows c (finishFlight now key err size c).
Proof.
  unfold finishFlight. destruct (tc_flights c !! key) as [g|] eqn:Eg; [|by apply grows_same]. split; cbn; [| |done].
  - intros f Hf. destruct (decide (f = g)) as [->|?]; [by rewrite lookup_insert_eq|by rewrite lookup_insert_ne].
  - intros k f Hf. destruct (decide (k = key)) as [->|?]; [right|left; by rewrite lookup_delete_ne].
    replace f with g by congruence. by rewrite lookup_insert_eq.
Qed.

Lemma work_step_grows key s c r : work_step maxBytes key s c r → grows c r.2.
Proof.
  intros Hw. destruct Hw; try by apply grows_same.
  - unfold written, after_write, finalize. repeat case_match; by apply grows_same.
  - unfold written, finalize. repeat case_match; by apply grows_same.
  - apply finishFlight_grows.
Qed.

Lemma ending_step_grows i c c' : ending_step i c c' → grows c c'.
Proof.
  intros [now answer t Ht Hp|now cause t Ht Hp|t s Ht Hp Hi Hc|t s r Ht Hp Hw].
  - unfold delegated. destruct answer; by apply grows_same.
  - unfold start_failed. by destruct (finishFlight_grows now (th_key t) (Some (Errorf "start audio transcode: " cause "")) 0 c).
  - unfold Close, finalize. repeat case_match; by apply grows_same.
  - by destruct (work_step_grows _ _ _ _ Hw).
Qed.

Lemma ending_keeps_over i f c c' :
  rtc (ending_step i) c c' → Inv c → is_Some (tc_results c !! f) → Inv c' ∧ is_Some (tc_results c' !! f).
Proof.
  induction 1 as [c|c c1 c' Hs Hr IH]; intros HI Ho; [done|]. apply IH.
  - by eapply transcode_Inv_step, ending_step_transcode.
  - by apply (gr_results _ _ (ending_step_grows _ _ _ Hs)).
Qed.

(** While a flight is not over its first owner still has it. *)
Lemma ending_owner i t key f c c' :
  rtc (ending_step i) c c' →
  Inv c → tc_threads c !! i = Some t → owns (th_point t) = true → th_key t = key → tc_flights c !! key = Some f →
  Inv c' ∧ (tc_results c' !! f = None → ∃ t', tc_threads c' !! i = Some t' ∧ owns (th_point t') = true).
Proof.
  intros Hr. revert t. induction Hr as [c|c c1 c' Hs Hr IH]; intros t HI Ht Ho Hk Hf; [by eauto|].
  pose proof (transcode_Inv_step _ _ HI (ending_step_transcode _ _ _ Hs)) as HI1.
  destruct (gr_flights _ _ (ending_step_grows _ _ _ Hs) _ _ Hf) as [Hf1|Hover].
  - destruct (inv_owner _ HI1 key) as [Hown _]. destruct Hown as (j & u & Hu & Huk & Huo); [by rewrite Hf1|].
    assert (j = i) as ->; [|by eapply IH].
    destruct (decide (j = i)) as [|Hne]; [done|]. rewrite (ending_step_others _ _ _ _ Hs Hne) in Hu.
    apply (inv_unique _ HI j i u t); [done|done|congruence|done|done].
  - destruct (ending_keeps_over i f c1 c' Hr HI1 Hover) as [HI' [res Hres]]. split; [done|]. by rewrite Hres.
Qed.

(** A client that closes its stream early fails everybody who waits for the same
    transcode, although they are there to read it. *)
Lemma leaving_fails_the_others now ce key s c f i t :
  tc_flights c !! key = Some f → th_point t = Waiting f →
  let c' := (finalized now (Some closed_early) ce key s c).2 in
  thread_step maxBytes i t c' (at_point i t (Answered (Err closed_early)) c').
Proof.
  intros Hf Hp c'. apply (step_wait maxBytes i t c' f (Some closed_early) Hp). unfold c', finalized, finishFlight. cbn [snd].
  rewrite Hf. cbn. apply lookup_insert_eq.
Qed.

(** C20. No flight lasts for ever.  In every reachable state a flight that is
    registered belongs to one caller, and once that caller's client leaves (it
    reads no more; its stream is closed if it is open), the flight ends however
    the caller and the cache's goroutine go on from there ([ending_step]):
    every run of theirs is finite, and where they cannot go on the flight is
    over.  When it is over its result is there for everybody who waits for it,
    and is what they go on with. *)
Theorem every_flight_can_end c key f :
  transcodes_reached c → tc_flights c !! key = Some f →
  ∃ i t, tc_threads c !! i = Some t ∧ th_key t = key ∧
    (∃ bound, ∀ n c', nsteps (ending_step i) n c c' → (n ≤ bound)%nat) ∧
    (∀ c', rtc (ending_step i) c c' → (∀ c'', ¬ ending_step i c' c'') → ∃ result, tc_results c' !! f = Some result ∧
       ∀ j u, tc_threads c' !! j = Some u → th_point u = Waiting f → thread_step maxBytes j u c' (waited result j u c')).
Proof.
  intros HI%transcodes_reached_Inv Hf. destruct (inv_owner _ HI key) as [Hown _].
  destruct Hown as (i & t & Ht & Hk & Ho); [by rewrite Hf|]. exists i, t. split_and!; [done|done| |].
  - exists (weight_at i c). intros n c'. apply ending_steps_bounded.
  - intros c' Hr Hstop. destruct (ending_owner i t key f c c' Hr HI Ht Ho Hk Hf) as [HI' Hlast].
    destruct (tc_results c' !! f) as [result|] eqn:Er.
    + exists result. split; [done|]. intros j u Hu Hp. by apply (step_wait maxBytes j u c' f).
    + destruct Hlast as (t' & Ht' & Ho'); [done|]. destruct (owner_goes_on i t' c' HI' Ht' Ho') as [c'' Hs]. by destruct (Hstop c'').
Qed.
End transcoding.

(** * A run on SQLite and the file system *)

#[local] Existing Instance stable_runtime.
#[local] Existing Instance sqlCacheStore.
#[local] Existing Instance sqlCacheStore_laws.
#[local] Existing Instance fsBlobStore.
#[local] Existing Instance fsBlobStore_laws.
#[local] Existing Instance ascii_unicode.
#[local] Existing Instance ascii_norm.

Definition wit_source : ResolvedSource := mkResolved [] "song.flac" "audio/flac" 3 0 "rev".
Definition wit_asked : AudioTranscodeOptions := settled (mkTranscodeOptions "track" " MP3 " 0).
Definition wit_request : request :=
  mkRequest (transcodeCacheKey wit_source wit_asked)
    (replaceAudioExtension (res_Name wit_source) ("." +:+ opt_Format wit_asked)) wit_source wit_asked.

Notation wit_reached := (transcodes_reached 10 toy_cache).
Notation wit_transcoder := (transcoder toy_world).

Definition wit_at (p : point) : thread := mkThread wit_request p.

(** The first caller looks into the cache, registers, and gets a stream. *)
Definition wit_called : wit_transcoder := set_threads <[0%nat := wit_at Opening]> (NewCachedAudioTranscoder toy_cache).
Definition wit_looked : wit_transcoder := look 0 None 0 (wit_at Opening) wit_called.
Definition wit_registered : wit_transcoder := register 0 0 (wit_at Registering) wit_looked.
Definition wit_second : wit_transcoder := set_threads <[1%nat := wit_at Opening]> wit_registered.
Definition wit_second_looked : wit_transcoder := look 0 None 1 (wit_at Opening) wit_second.
Definition wit_waiting : wit_transcoder := register 0 1 (wit_at Registering) wit_second_looked.

Lemma wit_waiting_reached : wit_reached wit_waiting.
Proof.
  assert (wit_reached wit_called) as H1.
  { eapply transcodes_next; [apply transcodes_start|]. by apply (step_call 10 _ 0 wit_source (mkTranscodeOptions "track" " MP3 " 0)). }
  assert (wit_reached wit_looked) as H2.
  { eapply transcodes_next; [exact H1|]. eapply (step_thread _ _ 0 (wit_at Opening)); [vm_compute; reflexivity|]. by apply step_look. }
  assert (wit_reached wit_registered) as H3.
  { eapply transcodes_next; [exact H2|]. eapply (step_thread _ _ 0 (wit_at Registering)); [vm_compute; reflexivity|]. by apply step_register. }
  assert (wit_reached wit_second) as H4.
  { eapply transcodes_next; [exact H3|]. apply (step_call 10 _ 1 wit_source (mkTranscodeOptions "track" " MP3 " 0)). vm_compute. reflexivity. }
  assert (wit_reached wit_second_looked) as H5.
  { eapply transcodes_next; [exact H4|]. eapply (step_thread _ _ 1 (wit_at Opening)); [vm_compute; reflexivity|]. by apply step_look. }
  eapply transcodes_next; [exact H5|]. eapply (step_thread _ _ 1 (wit_at Registering)); [vm_compute; reflexivity|]. by apply step_register.
Qed.

Lemma wit_waits :
  tc_threads wit_waiting !! 0%nat = Some (wit_at Delegating) ∧ tc_threads wit_waiting !! 1%nat = Some (wit_at (Waiting 0)).
Proof. split; vm_compute; reflexivity. Qed.

Lemma transcodes_are_single_flight_witness :
  is_Some (tc_flights wit_waiting !! rq_key wit_request) ∧
  ∀ j u, tc_threads wit_waiting !! j = Some u → th_key u = rq_key wit_request → owns (th_point u) = true → 0%nat = j.
Proof.
  destruct (transcodes_are_single_flight 10 toy_cache wit_waiting wit_waiting_reached) as (Hu & Hf & _). split.
  - apply Hf. exists 0%nat, (wit_at Delegating). split; [exact (proj1 wit_waits)|done].
  - intros j u Hj Hk Ho. exact (Hu _ _ _ _ (proj1 wit_waits) Hj (eq_sym Hk) eq_refl Ho).
Defined.

(** The delegate refuses, the caller reports it, and the one who waits is told. *)
Definition wit_refused : wit_transcoder := delegated 0 (Err closed_early) 0 (wit_at Delegating) wit_waiting.
Definition wit_reported : wit_transcoder := start_failed 0 closed_early 0 (wit_at (Failing_start closed_early)) wit_refused.

Lemma every_flight_can_end_witness :
  ∃ result, tc_results wit_reported !! 0%nat = Some result ∧
    thread_step 10 1 (wit_at (Waiting 0)) wit_reported (waited result 1 (wit_at (Waiting 0)) wit_reported).
Proof.
  destruct (every_flight_can_end 10 toy_cache wit_waiting (rq_key wit_request) 0 wit_waiting_reached) as (i & t & Ht & Hk & _ & Hend).
  { vm_compute. reflexivity. }
  assert (i = 0%nat) as ->.
  { destruct i as [|[|i]]; [reflexivity| |].
    - rewrite (proj2 wit_waits) in Ht. injection Ht as <-. exfalso.
      destruct (Hend _ (rtc_refl _ _)) as (result & Hres & _); [|vm_compute in Hres; discriminate Hres].
      intros c'' [now answer u Hu Hp|now cause u Hu Hp|u s Hu Hp _ _|u s r Hu Hp _]; rewrite (proj2 wit_waits) in Hu;
        injection Hu as <-; discriminate Hp.
    - assert (tc_threads wit_waiting = <[1%nat := wit_at (Waiting 0)]> {[0%nat := wit_at Delegating]}) as E by (vm_compute; reflexivity).
      rewrite E, lookup_insert_ne, lookup_singleton_ne in Ht by discriminate. discriminate Ht. }
  assert (rtc (ending_step 10 0) wit_waiting wit_reported) as Hr.
  { eapply rtc_l; [apply (ending_delegate 10 0 wit_waiting 0 (Err closed_early) (wit_at Delegating)); [exact (proj1 wit_waits)|reflexivity]|].
    apply rtc_once. apply (ending_failed_start 10 0 _ 0 closed_early (wit_at (Failing_start closed_early))); [vm_compute; reflexivity|reflexivity]. }
  assert (tc_threads wit_reported !! 0%nat = Some (wit_at (Answered (Err closed_early)))) as H0 by (vm_compute; reflexivity).
  assert (tc_threads wit_reported !! 1%nat = Some (wit_at (Waiting 0))) as H1 by (vm_compute; reflexivity).
  destruct (Hend wit_reported Hr) as (result & Hres & Hw).
  - intros c'' [now answer u Hu Hp|now cause u Hu Hp|u s Hu Hp _ _|u s r Hu Hp _]; rewrite H0 in Hu; injection Hu as <-; discriminate Hp.
  - exists result. split; [exact Hres|]. exact (Hw 1%nat _ H1 eq_refl).
Defined.

(** The stream is read to its end, what it gave goes through the pipe into the
    cache, and the caller that waited is answered from there. *)
Definition wit_key : string := rq_key wit_request.
Definition wit_eof : option error := Some (Sentinel ErrEOF).
Definition wit_streaming : wit_transcoder := delegated 0 (Ok tt) 0 (wit_at Delegating) wit_waiting.
Definition wit_stream : stream := mkStream Idle Put_starting None false 0 0 [].
Definition wit_step (s : stream) (c : wit_transcoder) : wit_transcoder := on_stream 0 (wit_at (Streaming wit_stream)) (s, c).

Definition wit_r1 : stream * wit_transcoder :=
  let '(s, c) := heard [1; 2; 3] wit_eof wit_key wit_stream wit_streaming in Read [1; 2; 3] wit_eof wit_key s c.
Definition wit_s1 : stream := wit_r1.1.
Definition wit_c1 : wit_transcoder := wit_step wit_s1 wit_r1.2.
Definition wit_s2 : stream := with_put (Copying []) wit_s1.
Definition wit_c2 : wit_transcoder := wit_step wit_s2 wit_c1.
Definition wit_s3 : stream := with_point (Writing [] [1; 2; 3] wit_eof) (with_put (Copying [[1; 2; 3]]) wit_s2).
Definition wit_c3 : wit_transcoder := wit_step wit_s3 wit_c2.
Definition wit_r4 : stream * wit_transcoder := written 0 None [1; 2; 3] wit_eof wit_key wit_s3 wit_c3.
Definition wit_c4 : wit_transcoder := wit_step wit_r4.1 wit_r4.2.
Definition wit_s5 : stream := with_put (Put_stored [[1; 2; 3]]) wit_r4.1.
Definition wit_c5 : wit_transcoder :=
  wit_step wit_s5 (set_cache (put_blob wit_key (mkReader [[1; 2; 3]] None) (tc_cache wit_c4)).2 wit_c4).
Definition wit_s6 : stream := with_put (Put_done None) wit_s5.
Definition wit_c6 : wit_transcoder :=
  wit_step wit_s6 (set_cache (Put_locked 10 0 wit_key (counted (mkReader [[1; 2; 3]] None)) false (tc_cache wit_c5)).2 wit_c5).
Definition wit_r7 : stream * wit_transcoder := finalized 0 None None wit_key wit_s6 wit_c6.
Definition wit_c7 : wit_transcoder := wit_step wit_r7.1 wit_r7.2.
Definition wit_c8 : wit_transcoder := waited None 1 (wit_at (Waiting 0)) wit_c7.
Definition wit_c9 : wit_transcoder := reopen 0 None 1 (wit_at Reopening) wit_c8.

(** A step of the stream, whatever it was before. *)
Lemma wit_next s c x :
  wit_reached c → tc_threads c !! 0%nat = Some (wit_at (Streaming s)) → stream_step 10 wit_key s c x → wit_reached (wit_step x.1 x.2).
Proof.
  intros Hc Ht Hx. eapply transcodes_next; [exact Hc|]. eapply step_thread; [exact Ht|].
  exact (step_stream 10 0 (wit_at (Streaming s)) c s x eq_refl Hx).
Qed.

Lemma wit_stored_reached : wit_reached wit_c5.
Proof.
  assert (wit_reached wit_streaming) as H0.
  { eapply transcodes_next; [exact wit_waiting_reached|]. eapply step_thread; [exact (proj1 wit_waits)|]. by apply step_delegate. }
  assert (wit_reached wit_c1) as H1.
  { eapply (wit_next wit_stream _ wit_r1); [exact H0|vm_compute; reflexivity|]. by apply step_client, (step_read _ _ _ [1; 2; 3] wit_eof). }
  assert (wit_reached wit_c2) as H2.
  { eapply (wit_next wit_s1 _ (wit_s2, wit_c1)); [exact H1|vm_compute; reflexivity|]. by apply step_work, (step_put_starts 10 wit_key wit_s1 wit_c1). }
  assert (wit_reached wit_c3) as H3.
  { eapply (wit_next wit_s2 _ (wit_s3, wit_c2)); [exact H2|vm_compute; reflexivity|].
    by apply step_work, (step_pipe 10 wit_key wit_s2 wit_c2 [1; 2; 3] [] [1; 2; 3] wit_eof []). }
  assert (wit_reached wit_c4) as H4.
  { eapply (wit_next wit_s3 _ wit_r4); [exact H3|vm_compute; reflexivity|]. by apply step_work, step_written. }
  eapply (wit_next wit_r4.1 _ (wit_s5, _)); [exact H4|vm_compute; reflexivity|].
  apply step_work, (step_put_ends 10 wit_key wit_r4.1 wit_c4 [[1; 2; 3]] None (Ok tt)); [reflexivity|reflexivity|vm_compute; reflexivity].
Qed.

Lemma wit_answered_reached : wit_reached wit_c9.
Proof.
  assert (wit_reached wit_c6) as H6.
  { eapply (wit_next wit_s5 _ (wit_s6, _)); [exact wit_stored_reached|vm_compute; reflexivity|].
    apply step_work, (step_put_recorded 10 wit_key wit_s5 wit_c5 0 [[1; 2; 3]] (Ok tt)); [reflexivity|vm_compute; reflexivity]. }
  assert (wit_reached wit_c7) as H7.
  { eapply (wit_next wit_s6 _ wit_r7); [exact H6|vm_compute; reflexivity|]. by apply step_work, step_finalized. }
  assert (wit_reached wit_c8) as H8.
  { eapply transcodes_next; [exact H7|]. eapply (step_thread _ _ 1 (wit_at (Waiting 0))); [vm_compute; reflexivity|].
    apply (step_wait 10 1 (wit_at (Waiting 0)) wit_c7 0 None); [reflexivity|vm_compute; reflexivity]. }
  eapply transcodes_next; [exact H8|]. eapply (step_thread _ _ 1 (wit_at Reopening)); [vm_compute; reflexivity|]. by apply step_reopen.
Qed.

Lemma only_complete_transcodes_are_cached_witness :
  tc_threads wit_c9 !! 1%nat = Some (wit_at (Answered (Ok [1; 2; 3]))) ∧
  ((wit_key, [1; 2; 3]) ∈ tc_complete wit_c9 ∨ ∃ f, file_of wit_key = Some f ∧ stored toy_cache !! f = Some [1; 2; 3]).
Proof.
  assert (tc_threads wit_c9 !! 1%nat = Some (wit_at (Answered (Ok [1; 2; 3])))) as Ht by (vm_compute; reflexivity).
  split; [exact Ht|].
  exact (proj2 (only_complete_transcodes_are_cached 10 toy_cache wit_c9 media_files_distinct wit_answered_reached) 1%nat _ _ Ht eq_refl).
Defined.
