(* ===== verification/SearchGroups.v ===== *)
(** Grouping search results into collections ([groupSourceSearchResults] of
    [api/peerphonic/handler.go]): the tracks that one peer offers in one
    directory are shown as one collection. *)
From stdpp Require Import base gmap strings list.
From Stdlib Require Import ZArith Lia Ascii.
From S2P Require Import Prelude GoStrings Paths SoulseekRefs SoulseekSearch.

Open Scope Z_scope.
Open Scope go_scope.

(** [strings.ToUpper] maps each rune by the Unicode tables. *)
Class UpperCase := { ToUpperRune : Z → Z }.

Record sourceSearchResultResponse := mkResultResponse {
  rr_ID : string;
  rr_Title : string;
  rr_Artist : string;
  rr_Album : string;
  rr_Path : string;
  rr_Size : Z;
  rr_DurationSeconds : Z;
  rr_BitRate : Z;
  rr_Suffix : string;
  rr_Peer : string;
  rr_UploadSpeed : Z;
  rr_QueueLength : Z;
  rr_FreeUploadSlot : bool;
  rr_RequiresApproval : bool;
}.

Record sourceSearchCollectionResponse := mkCollectionResponse {
  cr_ID : string;
  cr_Name : string;
  cr_Artist : string;
  cr_Path : string;
  cr_Peer : string;
  cr_MatchedTracks : Z;
  cr_MatchedSize : Z;
  cr_Formats : list string;
  cr_UploadSpeed : Z;
  cr_QueueLength : Z;
  cr_FreeUploadSlot : bool;
  cr_RequiresApproval : bool;
  cr_Results : list sourceSearchResultResponse;
}.

Section groups.
Context `{Unicode} `{UpperCase}.

Definition ToUpper (s : string) : string := of_runes (map ToUpperRune (runes s)).

Definition slash_byte (a : ascii) : bool := bool_decide (a = slash).

Definition sourceResultDirectory (path : string) : string :=
  let path := trim_slashes (with_slashes (TrimSpace path)) in
  match last_index slash_byte path with
  | Some index => str_take index path
  | None => ""
  end.

Definition sourceResultDirectoryName (path : string) : string :=
  let path := match last_index slash_byte path with Some index => str_drop (S index) path | None => path end in
  let path := TrimSpace path in
  if bool_decide (path = "") then "Unknown Album" else path.

Definition stringSliceContains (values : list string) (candidate : string) : bool :=
  existsb (λ value, bool_decide (value = candidate)) values.

Definition FormatBool (b : bool) : string := if b then "true" else "false".

Definition group_key (result : sourceSearchResultResponse) : string :=
  rr_Peer result +:+ of_bytes [0] +:+ sourceResultDirectory (rr_Path result) +:+ of_bytes [0] +:+
  FormatBool (rr_RequiresApproval result).

(** The collection that a first result opens. *)
Definition new_group (result : sourceSearchResultResponse) : sourceSearchCollectionResponse :=
  let directory := sourceResultDirectory (rr_Path result) in
  let name := TrimSpace (rr_Album result) in
  let artist := TrimSpace (rr_Artist result) in
  mkCollectionResponse (rr_ID result) (if bool_decide (name = "") then sourceResultDirectoryName directory else name)
    (if bool_decide (artist = "") then "Unknown Artist" else artist) directory (rr_Peer result) 0 0 []
    (rr_UploadSpeed result) (rr_QueueLength result) (rr_FreeUploadSlot result) (rr_RequiresApproval result) [].

Definition add_to_group (result : sourceSearchResultResponse) (group : sourceSearchCollectionResponse)
    : sourceSearchCollectionResponse :=
  let format := ToUpper (TrimSpace (rr_Suffix result)) in
  mkCollectionResponse (cr_ID group) (cr_Name group) (cr_Artist group) (cr_Path group) (cr_Peer group)
    (cr_MatchedTracks group +% 1) (cr_MatchedSize group +% rr_Size result)
    (if negb (bool_decide (format = "")) && negb (stringSliceContains (cr_Formats group) format)
     then cr_Formats group ++ [format] else cr_Formats group)
    (if cr_UploadSpeed group <? rr_UploadSpeed result then rr_UploadSpeed result else cr_UploadSpeed group)
    (if rr_QueueLength result <? cr_QueueLength group then rr_QueueLength result else cr_QueueLength group)
    (if rr_FreeUploadSlot result then true else cr_FreeUploadSlot group)
    (cr_RequiresApproval group) (cr_Results group ++ [result]).

Fixpoint group_loop (results : list sourceSearchResultResponse) (groups : list sourceSearchCollectionResponse)
    (indexes : gmap string nat) : list sourceSearchCollectionResponse :=
  match results with
  | [] => groups
  | result :: rest =>
      let key := group_key result in
      let '(index, groups, indexes) :=
        match indexes !! key with
        | Some index => (index, groups, indexes)
        | None =>
            let groups := groups ++ [new_group result] in
            let index := (length groups - 1)%nat in
            (index, groups, <[key := index]> indexes)
        end in
      group_loop rest (alter (add_to_group result) index groups) indexes
  end.

Definition groupSourceSearchResults (results : list sourceSearchResultResponse) : list sourceSearchCollectionResponse :=
  group_loop results [] ∅.

(** * The reference *)

(** The keys in the order they first occur. *)
Fixpoint first_keys (seen : list string) (results : list sourceSearchResultResponse) : list string :=
  match results with
  | [] => seen
  | result :: rest =>
      first_keys (if bool_decide (group_key result ∈ seen) then seen else seen ++ [group_key result]) rest
  end.

Definition of_key (key : string) (results : list sourceSearchResultResponse) : list sourceSearchResultResponse :=
  List.filter (λ r, bool_decide (group_key r = key)) results.

(** The directory a result is in, apart from the code: its path without the
    blanks and slashes at its ends, up to the last slash, of either kind. *)
Definition result_directory (path directory : string) : Prop :=
  ∃ core, bare_directory path core ∧
    ((∃ name, String.list_ascii_of_string core = String.list_ascii_of_string directory ++ slash :: name ∧ slash ∉ name) ∨
     (directory = "" ∧ slash ∉ String.list_ascii_of_string core)).

(** What a collection says of its results; its name and artist are those of the
    first. *)
Record describes (results : list sourceSearchResultResponse) (g : sourceSearchCollectionResponse) : Prop := {
  ds_first : ∃ r, head results = Some r ∧ cr_ID g = rr_ID r ∧ cr_Peer g = rr_Peer r ∧
    result_directory (rr_Path r) (cr_Path g) ∧ cr_RequiresApproval g = rr_RequiresApproval r ∧
    cr_Name g = (if bool_decide (TrimSpace (rr_Album r) = "") then sourceResultDirectoryName (cr_Path g)
                 else TrimSpace (rr_Album r)) ∧
    cr_Artist g = (if bool_decide (TrimSpace (rr_Artist r) = "") then "Unknown Artist" else TrimSpace (rr_Artist r));
  ds_results : cr_Results g = results;
  ds_tracks : cr_MatchedTracks g = i64 (Z.of_nat (length results));
  ds_size : cr_MatchedSize g = i64 (Zsum (map rr_Size results));
  ds_speed r : r ∈ results → rr_UploadSpeed r ≤ cr_UploadSpeed g;
  ds_speed_of : ∃ r, r ∈ results ∧ cr_UploadSpeed g = rr_UploadSpeed r;
  ds_queue r : r ∈ results → cr_QueueLength g ≤ rr_QueueLength r;
  ds_queue_of : ∃ r, r ∈ results ∧ cr_QueueLength g = rr_QueueLength r;
  ds_slot : cr_FreeUploadSlot g = existsb rr_FreeUploadSlot results;
  ds_formats : NoDup (cr_Formats g) ∧ ∀ f, f ∈ cr_Formats g ↔ f ≠ "" ∧ ∃ r, r ∈ results ∧ f = ToUpper (TrimSpace (rr_Suffix r));
}.
End groups.

Lemma i64_add_left a b : i64 (i64 a + b) = i64 (a + b).
Proof.
  unfold i64. f_equal.
  replace ((a + 2 ^ 63) mod 2 ^ 64 - 2 ^ 63 + b + 2 ^ 63) with ((a + 2 ^ 63) mod 2 ^ 64 + b) by lia.
  replace (a + b + 2 ^ 63) with (a + 2 ^ 63 + b) by lia. by rewrite Zplus_mod_idemp_l.
Qed.

Section theorems.
Context `{Unicode} `{UpperCase}.

Lemma contains_elem l s : stringSliceContains l s = true ↔ s ∈ l.
Proof.
  unfold stringSliceContains. rewrite existsb_exists. split.
  - by intros (x & Hx%list_elem_of_In & ->%bool_decide_eq_true).
  - intros Hs. exists s. split; [by apply list_elem_of_In|]. by apply bool_decide_eq_true.
Qed.

(** The formats after one more result. *)
Lemma add_format l results r f :
  (NoDup l ∧ ∀ f, f ∈ l ↔ f ≠ "" ∧ ∃ r, r ∈ results ∧ f = ToUpper (TrimSpace (rr_Suffix r))) →
  f = ToUpper (TrimSpace (rr_Suffix r)) →
  let l' := if negb (bool_decide (f = "")) && negb (stringSliceContains l f) then l ++ [f] else l in
  NoDup l' ∧ ∀ g, g ∈ l' ↔ g ≠ "" ∧ ∃ x, x ∈ results ++ [r] ∧ g = ToUpper (TrimSpace (rr_Suffix x)).
Proof.
  intros [Hnd Hl] Hf. destruct (bool_decide_reflect (f = "")) as [E|E]; cbn [negb andb].
  - split; [done|]. intros g. rewrite Hl. split; intros [Hg (x & Hx & Eg)]; (split; [done|]).
    + exists x. split; [|done]. apply elem_of_app. by left.
    + apply elem_of_app in Hx as [Hx| ->%list_elem_of_singleton]; [by exists x|]. congruence.
  - destruct (stringSliceContains l f) eqn:Ec; cbn [negb].
    + apply contains_elem in Ec. split; [done|]. intros g. rewrite Hl. split; intros [Hg (x & Hx & Eg)]; (split; [done|]).
      * exists x. split; [|done]. apply elem_of_app. by left.
      * apply elem_of_app in Hx as [Hx| ->%list_elem_of_singleton]; [by exists x|]. rewrite Eg, <- Hf. by apply Hl in Ec as [_ ?].
    + assert (f ∉ l) as Hn by (intros Hin%contains_elem; congruence). split.
      * apply NoDup_app. split_and!; [done| |apply NoDup_singleton]. by intros x Hx ->%list_elem_of_singleton.
      * intros g. rewrite elem_of_app, list_elem_of_singleton, Hl. setoid_rewrite elem_of_app.
        setoid_rewrite list_elem_of_singleton. naive_solver.
Qed.

(** ** Directories *)

Lemma before_separator {A} (z : A) l1 l2 k1 k2 :
  z ∉ l1 → z ∉ l2 → l1 ++ z :: k1 = l2 ++ z :: k2 → l1 = l2 ∧ k1 = k2.
Proof.
  revert l2. induction l1 as [|x l1 IH]; intros [|y l2] Hn1 Hn2 E; cbn [app] in E.
  - split; [done|congruence].
  - destruct Hn2. replace z with y by congruence. by left.
  - destruct Hn1. replace z with x by congruence. by left.
  - apply not_elem_of_cons in Hn1 as [_ Hn1], Hn2 as [_ Hn2].
    destruct (IH l2 Hn1 Hn2) as [-> ->]; [congruence|]. split; [congruence|done].
Qed.

Lemma after_separator {A} (z : A) l1 l2 k1 k2 :
  z ∉ k1 → z ∉ k2 → l1 ++ z :: k1 = l2 ++ z :: k2 → l1 = l2 ∧ k1 = k2.
Proof.
  intros H1' H2' E. apply (f_equal reverse) in E. rewrite !reverse_app, !reverse_cons, <- !app_assoc in E.
  apply before_separator in E as [E1 E2]; [|by rewrite elem_of_reverse..].
  split; by apply (inj reverse).
Qed.

Lemma list_ascii_inj s t : String.list_ascii_of_string s = String.list_ascii_of_string t → s = t.
Proof. intros E. by rewrite <- (String.string_of_list_ascii_of_string s), E, String.string_of_list_ascii_of_string. Qed.

Lemma take_list_ascii n s : String.list_ascii_of_string (str_take n s) = take n (String.list_ascii_of_string s).
Proof.
  revert n. induction s as [|a s IH]; intros [|n]; [done..|]. cbn. f_equal. apply IH.
Qed.

Lemma last_index_none p s : last_index p s = None → ∀ x, x ∈ String.list_ascii_of_string s → p x = false.
Proof.
  induction s as [|b s IH]; [by intros _ x ?%elem_of_nil|]. cbn.
  destruct (last_index p s); [done|]. destruct (p b) eqn:Hb; [done|]. intros _ x [->|Hx]%elem_of_cons; auto.
Qed.

Lemma sourceResultDirectory_spec path d : result_directory path d ↔ sourceResultDirectory path = d.
Proof.
  assert (result_directory path (sourceResultDirectory path)) as Hshown.
  { exists (normalized_directory path). split; [by apply bare_directory_normalized|].
    unfold sourceResultDirectory. fold (normalized_directory path).
    destruct (last_index slash_byte _) as [i|] eqn:E.
    - left. apply last_index_spec in E as (before & a & name & Hs & <- & Ha & Hname). exists name.
      unfold slash_byte in Ha. apply bool_decide_eq_true in Ha as ->. rewrite take_list_ascii, Hs, take_app_length.
      split; [done|]. intros Hin%Hname. unfold slash_byte in Hin. by rewrite bool_decide_eq_true_2 in Hin.
    - right. split; [done|]. intros Hin. apply (last_index_none _ _ E) in Hin. unfold slash_byte in Hin.
      by rewrite bool_decide_eq_true_2 in Hin. }
  split; [|by intros <-]. destruct Hshown as (core & Hc & Hd). intros (core' & Hc' & Hd').
  apply bare_directory_normalized in Hc, Hc'. subst core core'.
  destruct Hd as [(n & E & Hn)|[-> Hn]], Hd' as [(n' & E' & Hn')|[-> Hn']].
  - rewrite E in E'. apply after_separator in E' as [E' _]; [|done..]. by apply list_ascii_inj.
  - destruct Hn'. rewrite E. apply elem_of_app. right. by left.
  - destruct Hn. rewrite E'. apply elem_of_app. right. by left.
  - done.
Qed.

(** A peer's name without a zero byte. *)
Definition plain_peer (r : sourceSearchResultResponse) : Prop := Ascii.zero ∉ String.list_ascii_of_string (rr_Peer r).

(** Two results that belong together. *)
Definition together (r r' : sourceSearchResultResponse) : Prop :=
  rr_Peer r = rr_Peer r' ∧ (∃ d, result_directory (rr_Path r) d ∧ result_directory (rr_Path r') d) ∧
  rr_RequiresApproval r = rr_RequiresApproval r'.

#[local] Instance shared_directory_dec p q : Decision (∃ d, result_directory p d ∧ result_directory q d).
Proof.
  refine (cast_if (decide (sourceResultDirectory p = sourceResultDirectory q))).
  - exists (sourceResultDirectory p). by rewrite !sourceResultDirectory_spec.
  - intros (d & E1 & E2). apply sourceResultDirectory_spec in E1, E2. congruence.
Defined.

#[local] Instance together_dec r r' : Decision (together r r').
Proof. unfold together. apply _. Defined.

Lemma group_key_together r r' : plain_peer r → plain_peer r' → group_key r = group_key r' ↔ together r r'.
Proof.
  unfold together. setoid_rewrite sourceResultDirectory_spec. intros Hp Hp'. split.
  - unfold group_key. intros E%(f_equal String.list_ascii_of_string). rewrite !list_ascii_app in E.
    change (String.list_ascii_of_string (of_bytes [0])) with [Ascii.zero] in E.
    apply before_separator in E as [E1%list_ascii_inj E2]; [|done..].
    assert (∀ b, Ascii.zero ∉ String.list_ascii_of_string (FormatBool b)) as Hb.
    { intros b. destruct b; cbn; rewrite !not_elem_of_cons; repeat split; try discriminate; apply not_elem_of_nil. }
    apply after_separator in E2 as [E2%list_ascii_inj E3%list_ascii_inj]; [|apply Hb..].
    split_and!; [done|eauto|]. by destruct (rr_RequiresApproval r), (rr_RequiresApproval r').
  - intros (E1 & (d & E2 & E3) & E4). unfold group_key. congruence.
Qed.

Lemma describes_first r : describes [r] (add_to_group r (new_group r)).
Proof.
  split; cbn.
  - exists r. split_and!; try done. by apply sourceResultDirectory_spec.
  - done.
  - done.
  - by rewrite Z.add_0_r.
  - intros x ->%list_elem_of_singleton. destruct (Z.ltb_spec (rr_UploadSpeed r) (rr_UploadSpeed r)); lia.
  - exists r. split; [by left|]. by destruct (_ <? _).
  - intros x ->%list_elem_of_singleton. destruct (Z.ltb_spec (rr_QueueLength r) (rr_QueueLength r)); lia.
  - exists r. split; [by left|]. by destruct (_ <? _).
  - by destruct (rr_FreeUploadSlot r).
  - apply (add_format [] [] r); [|done]. split; [constructor|]. intros f. rewrite elem_of_nil.
    split; [done|]. intros [_ (x & ?%elem_of_nil & _)]. done.
Qed.

Lemma describes_add l g r : describes l g → describes (l ++ [r]) (add_to_group r g).
Proof.
  intros [D0 D1 D2 D3 D4 D5 D6 D7 D8 D9]. split; cbn.
  - destruct D0 as (x & Hx & ?). exists x. split; [by destruct l|done].
  - by rewrite D1.
  - rewrite D2, i64_add_left, length_app. cbn. f_equal. lia.
  - rewrite D3, i64_add_left, map_app, Zsum_app. cbn. f_equal. lia.
  - intros x [Hx| ->%list_elem_of_singleton]%elem_of_app; [apply D4 in Hx|];
      destruct (Z.ltb_spec (cr_UploadSpeed g) (rr_UploadSpeed r)); lia.
  - destruct (_ <? _); [exists r; split; [apply elem_of_app; right; by left|done]|].
    destruct D5 as (x & Hx & E). exists x. split; [apply elem_of_app; by left|done].
  - intros x [Hx| ->%list_elem_of_singleton]%elem_of_app; [apply D6 in Hx|];
      destruct (Z.ltb_spec (rr_QueueLength r) (cr_QueueLength g)); lia.
  - destruct (_ <? _); [exists r; split; [apply elem_of_app; right; by left|done]|].
    destruct D7 as (x & Hx & E). exists x. split; [apply elem_of_app; by left|done].
  - rewrite existsb_app, D8. cbn. by destruct (rr_FreeUploadSlot r), (existsb _ l).
  - by apply add_format.
Qed.

Lemma first_keys_snoc seen l x :
  first_keys seen (l ++ [x]) =
    let ks := first_keys seen l in if bool_decide (group_key x ∈ ks) then ks else ks ++ [group_key x].
Proof. revert seen. induction l as [|y l IH]; intros seen; [done|]. apply IH. Qed.

Lemma of_key_snoc k l x : of_key k (l ++ [x]) = of_key k l ++ (if bool_decide (group_key x = k) then [x] else []).
Proof. unfold of_key. rewrite List.filter_app. cbn. by destruct (bool_decide _). Qed.

(** Each key has the collection that describes its results so far. *)
Record grouped (done : list sourceSearchResultResponse) (groups : list sourceSearchCollectionResponse)
    (indexes : gmap string nat) : Prop := {
  gp_indexes k i : indexes !! k = Some i ↔ first_keys [] done !! i = Some k;
  gp_length : length groups = length (first_keys [] done);
  gp_group i k g : first_keys [] done !! i = Some k → groups !! i = Some g → describes (of_key k done) g;
  gp_keys k : k ∉ first_keys [] done → of_key k done = [];
}.

Lemma grouped_known done groups indexes r i :
  grouped done groups indexes → indexes !! group_key r = Some i →
  grouped (done ++ [r]) (alter (add_to_group r) i groups) indexes.
Proof.
  intros [G1 G2 G3 G4] Hi. pose proof Hi as Hk. apply G1 in Hk.
  assert (first_keys [] (done ++ [r]) = first_keys [] done) as Ek.
  { rewrite first_keys_snoc. cbn zeta. rewrite bool_decide_eq_true_2; [done|]. by apply list_elem_of_lookup_2 in Hk. }
  split; rewrite ?Ek; [done|by rewrite length_alter| |].
  - intros j k g Hj. rewrite of_key_snoc. destruct (decide (i = j)) as [->|Hne].
    + rewrite list_lookup_alter_eq. intros (g0 & Hg & ->)%fmap_Some. assert (k = group_key r) as -> by congruence.
      rewrite bool_decide_eq_true_2 by done. apply describes_add. by eapply G3.
    + rewrite list_lookup_alter_ne by done. intros Hg. rewrite bool_decide_eq_false_2, app_nil_r; [by eapply G3|].
      intros E. apply Hne. apply G1 in Hj. congruence.
  - intros k Hn. rewrite of_key_snoc, G4 by done. rewrite bool_decide_eq_false_2; [done|]. intros <-. apply Hn.
    by apply list_elem_of_lookup_2 in Hk.
Qed.

Lemma grouped_new done groups indexes r :
  grouped done groups indexes → indexes !! group_key r = None →
  grouped (done ++ [r]) (alter (add_to_group r) (length groups) (groups ++ [new_group r])) (<[group_key r := length groups]> indexes).
Proof.
  intros [G1 G2 G3 G4] Hi.
  assert (group_key r ∉ first_keys [] done) as Hn.
  { intros (i & Hk)%list_elem_of_lookup_1. apply G1 in Hk. congruence. }
  assert (first_keys [] (done ++ [r]) = first_keys [] done ++ [group_key r]) as Ek.
  { rewrite first_keys_snoc. cbn zeta. by rewrite bool_decide_eq_false_2. }
  assert (∀ k i, (first_keys [] done ++ [group_key r]) !! i = Some k ↔
    (first_keys [] done !! i = Some k ∧ k ≠ group_key r) ∨ (i = length groups ∧ k = group_key r)) as Hl.
  { intros k i. rewrite lookup_app_Some, G2. split.
    - intros [Hk|[Hge Hk]]; [left; split; [done|]; intros ->; apply Hn; by apply list_elem_of_lookup_2 in Hk|right].
      apply list_lookup_singleton_Some in Hk as [? <-]. split; [lia|done].
    - intros [[Hk _]|[-> ->]]; [by left|right]. split; [lia|]. by rewrite Nat.sub_diag. }
  split; rewrite ?Ek; [|by rewrite length_alter, !length_app, G2| |].
  - intros k i. rewrite Hl, lookup_insert_Some, <- G1. naive_solver.
  - intros i k g [[Hk Hne]|[-> ->]]%Hl.
    + assert (i < length groups)%nat as Hlt by (rewrite G2; by apply lookup_lt_Some in Hk).
      rewrite list_lookup_alter_ne, lookup_app_l by lia. intros Hg. rewrite of_key_snoc, bool_decide_eq_false_2, app_nil_r by congruence.
      by eapply G3.
    + rewrite list_lookup_alter_eq, lookup_app_r, Nat.sub_diag by done. intros [= <-].
      rewrite of_key_snoc, (G4 _ Hn), bool_decide_eq_true_2 by done. apply describes_first.
  - intros k [Hk Hne]%not_elem_of_app. apply not_elem_of_cons in Hne as [Hne _].
    rewrite of_key_snoc, (G4 _ Hk), bool_decide_eq_false_2; [done|congruence].
Qed.

Lemma group_loop_grouped results done groups indexes :
  grouped done groups indexes → ∃ indexes', grouped (done ++ results) (group_loop results groups indexes) indexes'.
Proof.
  revert done groups indexes. induction results as [|r rest IH]; intros done groups indexes Hg.
  { exists indexes. by rewrite app_nil_r. }
  cbn [group_loop]. replace (done ++ r :: rest) with ((done ++ [r]) ++ rest) by by rewrite <- app_assoc.
  destruct (indexes !! group_key r) as [i|] eqn:Ei; apply IH; [by apply grouped_known|].
  replace (length (groups ++ [new_group r]) - 1)%nat with (length groups) by (rewrite length_app; cbn; lia). by apply grouped_new.
Qed.

Lemma first_keys_NoDup seen l : NoDup seen → NoDup (first_keys seen l).
Proof.
  revert seen. induction l as [|x l IH]; intros seen Hs; [done|]. cbn [first_keys]. apply IH. case_bool_decide as Hin; [done|].
  apply NoDup_app. split_and!; [done| |apply NoDup_singleton]. by intros y Hy ->%list_elem_of_singleton.
Qed.

Lemma first_keys_all seen l k : k ∈ first_keys seen l ↔ k ∈ seen ∨ ∃ r, r ∈ l ∧ group_key r = k.
Proof.
  revert seen. induction l as [|x l IH]; intros seen; cbn [first_keys].
  - split; [by left|]. intros [?|(r & ?%elem_of_nil & _)]; done.
  - rewrite IH. setoid_rewrite elem_of_cons. case_bool_decide as Hin; [naive_solver|].
    rewrite elem_of_app, list_elem_of_singleton. naive_solver.
Qed.

(** The first results of two keys come in the order of the keys. *)
Lemma first_keys_order l i j k k' :
  first_keys [] l !! i = Some k → first_keys [] l !! j = Some k' → (i < j)%nat →
  ∃ before r after, l = before ++ r :: after ∧ group_key r = k ∧ ∀ x, x ∈ before → group_key x ≠ k'.
Proof.
  induction l as [|x l IH] using rev_ind; [done|]. rewrite first_keys_snoc. cbn zeta. intros Hi Hj Hij.
  assert (first_keys [] l !! i = Some k → first_keys [] l !! j = Some k' →
    ∃ before r after, l ++ [x] = before ++ r :: after ∧ group_key r = k ∧ ∀ x, x ∈ before → group_key x ≠ k') as Hold.
  { intros H1' H2'. destruct (IH H1' H2' Hij) as (before & r & after & -> & Hr & Hb).
    exists before, r, (after ++ [x]). by rewrite <- app_assoc. }
  case_bool_decide as Hin; [by apply Hold|].
  apply lookup_app_Some in Hj as [Hj|[Hge Hj]]; [apply Hold; [|done]|].
  { apply lookup_lt_Some in Hj. rewrite lookup_app_l in Hi by lia. done. }
  apply list_lookup_singleton_Some in Hj as [Hz <-]. rewrite lookup_app_l in Hi by lia.
  apply list_elem_of_lookup_2, first_keys_all in Hi as [?%elem_of_nil|(r & Hr & <-)]; [done|].
  apply list_elem_of_split in Hr as (before & after & ->). exists before, r, (after ++ [x]).
  split_and!; [by rewrite <- app_assoc|done|]. intros y Hy Hk. apply Hin. apply first_keys_all. right. exists y.
  split; [apply elem_of_app; by left|done].
Qed.

(** The collection at a place has the results of one key. *)
Lemma group_at results i g :
  groupSourceSearchResults results !! i = Some g →
  ∃ k, first_keys [] results !! i = Some k ∧ describes (of_key k results) g.
Proof.
  destruct (group_loop_grouped results [] [] ∅) as [idx [_ G2 G3 _]]; [by split|]. cbn [app] in *. intros Hg.
  apply lookup_lt_Some in Hg as Hlt. unfold groupSourceSearchResults in Hlt. rewrite G2 in Hlt.
  apply lookup_lt_is_Some in Hlt as [k Hk]. exists k. split; [done|]. by eapply G3.
Qed.

Lemma of_key_elem k results x : x ∈ of_key k results ↔ x ∈ results ∧ group_key x = k.
Proof. unfold of_key. rewrite elem_of_filter_bool, bool_decide_eq_true. naive_solver. Qed.

Lemma of_key_together k results r : Forall plain_peer results → head (of_key k results) = Some r →
  of_key k results = List.filter (λ x, bool_decide (together r x)) results.
Proof.
  intros Hp Hr. rewrite Forall_forall in Hp.
  assert (r ∈ of_key k results) as [Hin <-]%of_key_elem by (destruct (of_key k results); [done|injection Hr as ->; by left]).
  apply List.filter_ext_in. intros x Hx%list_elem_of_In. apply bool_decide_ext.
  rewrite <- group_key_together by auto. split; congruence.
Qed.

(** C39. The collections shown are exactly the peers' directories, for peers
    whose names have no zero byte: every result is in one of them, a collection
    holds all the results that one peer offers in one directory under the same
    approval, in their order and nothing else, with their number, total size,
    best speed, shortest queue, formats, and whether a slot is free; no two
    collections are of the same peer, directory and approval; and they come in
    the order of their first results. *)
Theorem collections_are_directories results :
  Forall plain_peer results →
  let groups := groupSourceSearchResults results in
  (∀ r, r ∈ results → ∃ g, g ∈ groups ∧ r ∈ cr_Results g) ∧
  (∀ g, g ∈ groups → ∃ r, head (cr_Results g) = Some r ∧ describes (cr_Results g) g ∧
     cr_Results g = List.filter (λ x, bool_decide (together r x)) results) ∧
  (∀ i j g g', groups !! i = Some g → groups !! j = Some g' → (i < j)%nat →
     (∀ x y, x ∈ cr_Results g → y ∈ cr_Results g' → ¬ together x y) ∧
     ∃ before r after, results = before ++ r :: after ∧ r ∈ cr_Results g ∧ ∀ x, x ∈ before → x ∉ cr_Results g').
Proof.
  intros Hp groups. split_and!.
  - intros r Hr. destruct (group_loop_grouped results [] [] ∅) as [idx [_ G2 G3 _]]; [by split|]. cbn [app] in *.
    assert (group_key r ∈ first_keys [] results) as [i Hi]%list_elem_of_lookup_1 by (apply first_keys_all; eauto).
    apply lookup_lt_Some in Hi as Hlt. rewrite <- G2 in Hlt. apply lookup_lt_is_Some in Hlt as [g Hg].
    exists g. split; [by eapply list_elem_of_lookup_2|]. rewrite (ds_results _ _ (G3 _ _ _ Hi Hg)). by apply of_key_elem.
  - intros g [i Hg]%list_elem_of_lookup_1. apply group_at in Hg as (k & Hk & Hd).
    destruct (ds_first _ _ Hd) as (r & Hr & _). exists r. rewrite (ds_results _ _ Hd).
    split_and!; [done|done|by apply of_key_together].
  - intros i j g g' (k & Hk & Hd)%group_at (k' & Hk' & Hd')%group_at Hij.
    rewrite (ds_results _ _ Hd), (ds_results _ _ Hd'). split.
    { intros x y [Hx <-]%of_key_elem [Hy <-]%of_key_elem Ht. rewrite Forall_forall in Hp.
      apply group_key_together in Ht; [|by apply Hp..]. rewrite <- Ht in Hk'.
      assert (i = j) by (by eapply NoDup_lookup; [apply (first_keys_NoDup [] results), NoDup_nil_2|..]). lia. }
    destruct (first_keys_order _ _ _ _ _ Hk Hk' Hij) as (before & r & after & E & Hr & Hb).
    exists before, r, after. split_and!; [done| |].
    + apply of_key_elem. split; [|done]. rewrite E. apply elem_of_app. right. by left.
    + intros x Hx [_ Hxk]%of_key_elem. by destruct (Hb x Hx).
Qed.
End theorems.

(** * Concrete inputs *)

Section examples.
#[local] Existing Instance ascii_unicode.
#[local] Instance same_case : UpperCase := {| ToUpperRune r := r |}.

#[local] Notation found id path :=
  (mkResultResponse id "Song" "Band" "" path 3 0 0 "mp3" "peer" 0 1 true false).

Lemma collections_are_directories_witness :
  let results := [found "a" "Band\Album\1.mp3"; found "b" "Band\Live\1.mp3"; found "c" "/Band/Album/2.mp3"] in
  Forall plain_peer results ∧ map (map rr_ID ∘ cr_Results) (groupSourceSearchResults results) = [["a"; "c"]; ["b"]] ∧
  ∃ g, g ∈ groupSourceSearchResults results ∧ found "c" "/Band/Album/2.mp3" ∈ cr_Results g.
Proof.
  intros results. assert (Forall plain_peer results) as Hp by (repeat constructor; by apply (bool_decide_unpack _)).
  split_and!; [exact Hp|vm_compute; reflexivity|].
  destruct (collections_are_directories results Hp) as [Hall _]. apply Hall. right. right. by left.
Defined.

(** With a zero byte in the name of a peer the directories of two peers can be
    taken for one. *)
Lemma zero_bytes_mix_peers :
  let zero := of_bytes [0] in
  let result peer path := mkResultResponse "" "" "" "" path 3 0 0 "mp3" peer 0 1 true false in
  length (groupSourceSearchResults [result "a" ("b" +:+ zero +:+ "c/1.mp3"); result ("a" +:+ zero +:+ "b") "c/1.mp3"]) = 1%nat.
Proof. vm_compute. reflexivity. Qed.
End examples.
