(* ===== verification/AdminApi.v ===== *)
(** The management API ([api/peerphonic]): its routes, who may use them, and
    what they answer.

    Services are operations on an arbitrary state.  [encoding/json] is a class
    of decoders, one for each kind of request; an answer's body is the value that
    is encoded.  A path is given by its segments, as [http.ServeMux] sees it
    after cleaning; a route that a nil service leaves out is not in the table. *)
From stdpp Require Import base gmap strings list.
From Stdlib Require Import ZArith Lia.
From S2P Require Import Prelude GoStrings GoTime Users MediaCache Music Library Services Scans Discovery TorrentManage TorrentScan SoulseekRefs MagnetImports SearchGroups.

Open Scope Z_scope.
Open Scope go_scope.

(** * Requests and answers *)

Record http_request := mkHttp {
  hr_Method : string;
  hr_Path : list string;
  hr_Query : list (string * string);
  hr_BasicAuth : option (string * string);
  hr_RequestID : string;  (* the header X-Request-ID *)
  hr_RemoteAddr : string;
  hr_ContentLength : Z;
  hr_Body : list Z;
}.

(** [time.RFC3339]: no fraction of a second. *)
Definition FormatRFC3339 (t : time) : string := FormatRFC3339Nano (t / Second * Second).

Record trackDownloadResponse := mkDownloadResponse {
  dr_Download : TrackDownload;
  dr_StartedAt : string;
  dr_UpdatedAt : string;
}.

Record sourceImportResponse := mkImportResponse {
  ir_Import : SourceImport;
  ir_CreatedAt : string;
  ir_UpdatedAt : string;
}.

Record userResponse := mkUserResponse {
  ur_Username : string;
  ur_Role : UserRole;
  ur_Permissions : list Permission;
  ur_CreatedAt : string;
  ur_UpdatedAt : string;
}.

Record libraryScanRunResponse := mkScanRunResponse {
  sr_Trigger : string;
  sr_Tracks : Z;
  sr_Warnings : list string;
  sr_Error : string;
  sr_StartedAt : string;
  sr_FinishedAt : string;
}.

Record libraryScanResponse := mkScanResponse {
  ls_Scanning : bool;
  ls_Tracks : Z;
  ls_LastError : string;
  ls_CurrentTrigger : string;
  ls_LastStartedAt : string;
  ls_LastFinishedAt : string;
  ls_History : list libraryScanRunResponse;
}.

Record ProviderStatus := mkProviderStatus {
  ps_Provider : string;
  ps_Configured : bool;
  ps_Reachable : bool;
  ps_Authenticated : bool;
  ps_Message : string;
}.

Record AuditEntry := mkAuditEntry {
  ae_ID : Z;
  ae_OccurredAt : time;
  ae_RequestID : string;
  ae_Actor : string;
  ae_RemoteAddress : string;
  ae_Method : string;
  ae_Path : string;
  ae_Status : Z;
}.

Record sourceCollectionPreviewTrackResponse := mkPreviewTrack {
  pt_ID : string;
  pt_Title : string;
  pt_Size : Z;
  pt_DurationSeconds : Z;
  pt_Suffix : string;
}.

(** The value an answer's body encodes; records whose fields are copied one by
    one are the domain's. *)
Inductive payload :=
  | NoBody
  | Text (message : string)
  | JService (status : string)
  | JArtists (artists : list ArtistEntry) (aliases : list (string * artist_alias_row))
  | JAlias (alias : artist_alias_row)
  | JTrack (track : Track)
  | JTracks (tracks : Z)
  | JScan (scan : libraryScanResponse)
  | JLimits (limits : TransferLimits)
  | JProvider (status : ProviderStatus)
  | JSearch (query : string) (results : list sourceSearchResultResponse) (collections : list sourceSearchCollectionResponse)
  | JAdded (id title artist album : string)
  | JPreview (name artist : string) (hasArtwork : bool) (tracks : list sourceCollectionPreviewTrackResponse)
  | JCollection (name artist : string) (tracks : Z)
  | JCache (stats : CacheStats)
  | JTorrent (id name : string) (tracks : Z)
  | JImport (item : sourceImportResponse)
  | JImports (items : list sourceImportResponse)
  | JSources (items : list ManagedSource)
  | JTransfers (items : list SourceTransfer)
  | JDownloads (items : list trackDownloadResponse)
  | JUser (user : userResponse)
  | JUsers (users : list userResponse)
  | JAudit (entries : list AuditEntry).

Record response := mkResponse {
  rs_Status : Z;
  rs_Challenge : bool;  (* the header WWW-Authenticate *)
  rs_Body : payload;
}.

Definition writeJSON (status : Z) (body : payload) : response := mkResponse status false body.
Definition http_Error (message : string) (status : Z) : response := mkResponse status false (Text message).
Definition StatusNoContent : response := mkResponse 204 false NoBody.

(** What the routes decode from a body: the first value and what follows it. *)
Class Json := {
  decode_alias : list Z → option (string * list Z);
  decode_patch : list Z → option (TrackMetadataPatch * list Z);
  decode_prefetch : list Z → option (bool * list Z);
  decode_limits : list Z → option (TransferLimits * list Z);
  decode_search : list Z → option (SearchQuery * list Z);
  decode_magnet : list Z → option (string * list Z);
  decode_user : list Z → option (string * string * UserRole * list Permission * list Z);
  decode_password : list Z → option (string * list Z);
  decode_permissions : list Z → option (list Permission * list Z);
  (** only white space is left *)
  at_end : list Z → bool;
}.

(** [decodeJSONRequest] and its copies: reading more than the limit fails, and
    so does anything behind the value. *)
Definition decodeJSON `{Json} {A} (limit : Z) (decode : list Z → option (A * list Z)) (r : http_request) : option A :=
  if limit <? Z.of_nat (length (hr_Body r)) then None
  else
    match decode (hr_Body r) with
    | Some (x, rest) => if at_end rest then Some x else None
    | None => None
    end.

(** * Services *)

Section services.
Context (W : Type).

Record uri_importer := mkUriImporter {
  ui_ImportURI : string → M W SourceImport;
  ui_SourceImports : M W (list SourceImport);
}.

Record source_manager := mkSourceManager {
  sm_ManagedSources : M W (list ManagedSource);
  sm_PauseSource : string → M W unit;
  sm_ResumeSource : string → M W unit;
  sm_PinSource : string → bool → M W unit;
  sm_RemoveSource : string → bool → M W unit;
}.

(** [TrackDownloadController], which the monitor may be too. *)
Record download_monitor := mkDownloadMonitor {
  dm_TrackDownloads : M W (list TrackDownload);
  dm_control : option ((string → M W unit) * (string → M W unit));
}.

Record user_manager := mkUserManager {
  um_Users : User → M W (list User);
  um_CreateUser : User → string → string → UserRole → list Permission → M W User;
  um_UpdatePassword : User → string → string → M W unit;
  um_UpdatePermissions : User → string → list Permission → M W User;
  um_DeleteUser : User → string → M W unit;
}.

(** [SourceSearcher], with [sourceAdder] and [sourceCollectionAdder]. *)
Record source_searcher := mkSearcher {
  se_Search : SearchQuery → M W (list TrackSource);
  se_Add : option (string → M W Track);
  se_collections : option ((string → M W SourceCollection) * (string → M W SourceCollection));
}.

Record settings_manager := mkSettings {
  st_Limits : User → M W TransferLimits;
  st_UpdateLimits : User → TransferLimits → M W TransferLimits;
}.

Record catalog_manager := mkCatalogManager {
  cm_Artists : M W (list ArtistEntry);
  cm_ArtistAliases : M W (list (string * artist_alias_row));
  cm_SetArtistAlias : string → string → M W artist_alias_row;
  cm_DeleteArtistAlias : string → M W unit;
  cm_Track : string → M W Track;
  cm_UpdateTrackMetadata : string → TrackMetadataPatch → M W Track;
}.

Record library_cache := mkLibraryCache {
  lc_PrefetchTrack : string → bool → M W unit;
  lc_PrefetchAlbum : string → bool → M W Z;
  lc_SetTrackPinned : string → bool → M W unit;
}.

Record scan_controller := mkScans {
  sc_Start : W → bool * W;
  sc_Status : W → Status * W;
}.

Record services := mkServices {
  sv_authenticator : option (string → string → M W User);
  sv_cache : option (M W CacheStats);
  sv_torrentImporter : option (reader → M W SourceImportResult);
  sv_uriImporter : option uri_importer;
  sv_sources : option source_manager;
  sv_transfers : option (M W (list SourceTransfer));
  sv_downloads : option download_monitor;
  sv_users : option user_manager;
  sv_providerStatus : option (W → ProviderStatus * W);
  sv_providerSearch : option source_searcher;
  sv_settings : option settings_manager;
  sv_catalog : option catalog_manager;
  sv_libraryCache : option library_cache;
  sv_scans : option scan_controller;
}.
End services.

Section handlers.
Context {W : Type} `{Json} `{Unicode} `{UpperCase}.

Definition handler : Type := W → response * W.

Definition answer (r : response) : handler := λ w, (r, w).

(** A service is called and its result answered. *)
Definition call {A} (m : M W A) (k : A → handler) (fails : error → handler) : handler := λ w,
  match m w with
  | (Ok a, w) => k a w
  | (Err e, w) => fails e w
  end.

Definition ask {A} (m : W → A * W) (k : A → handler) : handler := λ w, let '(a, w) := m w in k a w.

Definition fails_with (message : string) (status : Z) : error → handler := λ _, answer (http_Error message status).

(** * Who may use a route *)

Definition authenticateBasic (authenticator : option (string → string → M W User)) (r : http_request) : M W User :=
  match hr_BasicAuth r, authenticator with
  | Some (username, password), Some authenticate => authenticate username password
  | _, _ => throw (Sentinel ErrAuthenticationFailed)
  end.

Definition authentication_required : response := mkResponse 401 true (Text "authentication required").
Definition permission_required (permission : Permission) : response :=
  http_Error ("permission required: " +:+ permission) 403.
Definition administrator_required : response := http_Error "administrator access required" 403.

Definition requirePermission (authenticator : option (string → string → M W User)) (permission : Permission)
    (r : http_request) (k : User → handler) : handler :=
  call (authenticateBasic authenticator r)
    (λ user, if negb (HasPermission user permission) then answer (permission_required permission) else k user)
    (λ _, answer authentication_required).

Definition requireAdministrator (authenticator : option (string → string → M W User)) (r : http_request)
    (k : User → handler) : handler :=
  call (authenticateBasic authenticator r)
    (λ user, if negb (IsAdmin user) then answer administrator_required else k user)
    (λ _, answer authentication_required).

(** [fixedAuthenticator]. *)
Definition fixed_AuthenticatePassword (username password : string) (u p : string) : M W User :=
  if bool_decide (u = username) && bool_decide (p = password)
  then mret (mkUser username UserRoleAdmin [] time_zero time_zero)
  else throw (Sentinel ErrAuthenticationFailed).

(** * Errors as answers *)

Definition writeDownloadActionError (e : error) : handler :=
  if errors_Is ErrNotFound e then answer (http_Error "track download not found" 404)
  else answer (http_Error "change track download" 409).

Definition writeSourceCollectionError (action : string) (e : error) : handler :=
  if errors_Is ErrDiscoveryResultNotFound e then answer (http_Error "search result expired; search again" 404)
  else if errors_Is ErrSourceUnavailable e then answer (http_Error "Soulseek peer is unavailable" 502)
  else answer (http_Error action 502).

Definition writeTransferSettingsError (e : error) : handler :=
  if errors_Is ErrInvalidSettings e then answer (http_Error (Error e) 400)
  else if errors_Is ErrForbidden e then answer (http_Error "operation is not permitted" 403)
  else answer (http_Error "manage transfer settings" 500).

Definition writeCatalogManagementError (e : error) : handler :=
  if errors_Is ErrNotFound e then answer (http_Error "catalog item not found" 404)
  else if Contains (Error e) "different" || Contains (Error e) "cycle" || Contains (Error e) "cannot be"
  then answer (http_Error (Error e) 400)
  else answer (http_Error "manage catalog" 500).

Definition writeSourceManagementError (e : error) : handler :=
  if errors_Is ErrNotFound e then answer (http_Error "torrent source not found" 404)
  else if errors_Is ErrSourceBusy e || errors_Is ErrScanInProgress e then answer (http_Error (Error e) 409)
  else answer (http_Error "manage torrent source" 500).

Definition writeUserError (e : error) : handler :=
  if errors_Is ErrInvalidUser e then answer (http_Error (Error e) 400)
  else if errors_Is ErrAlreadyExists e || errors_Is ErrLastAdministrator e then answer (http_Error (Error e) 409)
  else if errors_Is ErrNotFound e then answer (http_Error "user not found" 404)
  else if errors_Is ErrForbidden e then answer (http_Error "operation is not permitted" 403)
  else answer (http_Error "manage users" 500).

(** * Answers *)

Definition newUserResponse (user : User) : userResponse :=
  mkUserResponse (Username user) (Role user) (EffectivePermissions user) (FormatRFC3339 (Users.CreatedAt user))
    (FormatRFC3339 (Users.UpdatedAt user)).

Definition newSourceImportResponse (item : SourceImport) : sourceImportResponse :=
  mkImportResponse item (FormatRFC3339 (si_CreatedAt item)) (FormatRFC3339 (si_UpdatedAt item)).

Definition newScanRunResponse (run : Run) : libraryScanRunResponse :=
  mkScanRunResponse (run_Trigger run) (run_Tracks run) (run_Warnings run) (run_Error run)
    (FormatRFC3339 (run_StartedAt run)) (FormatRFC3339 (run_FinishedAt run)).

Definition newLibraryScanResponse (status : Status) : libraryScanResponse :=
  let shown t := if IsZero t then "" else FormatRFC3339 t in
  mkScanResponse (Scanning status) (status_Count status) (LastError status) (CurrentTrigger status)
    (shown (LastStartedAt status)) (shown (LastFinishedAt status)) (map newScanRunResponse (History status)).

Definition download_response (item : TrackDownload) : trackDownloadResponse :=
  mkDownloadResponse item (FormatRFC3339 (StartedAt item)) (FormatRFC3339 (Services.UpdatedAt item)).

Definition result_response (s : TrackSource) : sourceSearchResultResponse :=
  let t := ts_Track s in
  let a := Availability s in
  mkResultResponse (ID t) (Title t) (Artist t) (Album t) (DisplayPath s) (TrackSize t) (Z.quot (Duration t) Second)
    (BitRate t) (Suffix t) (Peer a) (UploadSpeed a) (QueueLength a) (FreeUploadSlot a) (RequiresApproval a).

Definition preview_track (s : TrackSource) : sourceCollectionPreviewTrackResponse :=
  let t := ts_Track s in mkPreviewTrack (ID t) (Title t) (TrackSize t) (Z.quot (Duration t) Second) (Suffix t).

(** * Routes *)

Inductive segment := Lit (s : string) | Wild.

(** The values of a pattern's wildcards, which match one segment that is not empty. *)
Fixpoint match_segments (pattern : list segment) (path : list string) : option (list string) :=
  match pattern, path with
  | [], [] => Some []
  | Lit s :: pattern, x :: path => if bool_decide (s = x) then match_segments pattern path else None
  | Wild :: pattern, x :: path =>
      if bool_decide (x = "") then None
      else match match_segments pattern path with Some l => Some (x :: l) | None => None end
  | _, _ => None
  end.

Record route := mkRoute {
  rt_Method : string;
  rt_Pattern : list segment;
  rt_Handle : string → http_request → handler;  (* [request.PathValue] of the one wildcard *)
}.

(** A pattern for GET also matches HEAD. *)
Definition method_matches (r : route) (method : string) : bool :=
  bool_decide (rt_Method r = method) || (bool_decide (rt_Method r = "GET") && bool_decide (method = "HEAD")).

Definition path_value (captured : list string) : string := default "" (head captured).

(** [ServeMux]: no two routes of a method match a path, so the order is of no
    importance; a path that has only routes of other methods is answered 405. *)
Fixpoint serve_routes (routes : list route) (allowed : bool) (r : http_request) : handler :=
  match routes with
  | [] => answer (if allowed then http_Error "Method Not Allowed" 405 else http_Error "404 page not found" 404)
  | x :: rest =>
      match match_segments (rt_Pattern x) (hr_Path r) with
      | Some captured =>
          if method_matches x (hr_Method r) then rt_Handle x (path_value captured) r else serve_routes rest true r
      | None => serve_routes rest allowed r
      end
  end.

Definition api (l : list segment) : list segment := Lit "api" :: Lit "v1" :: l.

Section tables.
Context (sv : services W).

Notation require := (requirePermission (sv_authenticator W sv)).
Notation api_route method pattern handle := (mkRoute method (api pattern) handle).

(** ** The catalog *)

Definition get_artists (c : catalog_manager W) (id : string) (r : http_request) : handler :=
  require PermissionCatalogManage r (λ _,
    call (cm_Artists W c) (λ artists,
      call (cm_ArtistAliases W c) (λ aliases, answer (writeJSON 200 (JArtists artists aliases)))
        (fails_with "read artist aliases" 500))
      (fails_with "read catalog artists" 500)).

Definition put_artist_alias (c : catalog_manager W) (id : string) (r : http_request) : handler :=
  require PermissionCatalogManage r (λ _,
    match decodeJSON (16 * 2 ^ 10) decode_alias r with
    | None => answer (http_Error "invalid JSON request" 400)
    | Some targetID =>
        call (cm_SetArtistAlias W c id targetID) (λ alias, answer (writeJSON 200 (JAlias alias))) writeCatalogManagementError
    end).

Definition delete_artist_alias (c : catalog_manager W) (id : string) (r : http_request) : handler :=
  require PermissionCatalogManage r (λ _,
    call (cm_DeleteArtistAlias W c id) (λ _, answer StatusNoContent) writeCatalogManagementError).

Definition get_track (c : catalog_manager W) (id : string) (r : http_request) : handler :=
  require PermissionCatalogManage r (λ _,
    call (cm_Track W c id) (λ track, answer (writeJSON 200 (JTrack track))) writeCatalogManagementError).

Definition patch_track (c : catalog_manager W) (id : string) (r : http_request) : handler :=
  require PermissionCatalogManage r (λ _,
    match decodeJSON (32 * 2 ^ 10) decode_patch r with
    | None => answer (http_Error "invalid JSON request" 400)
    | Some patch =>
        call (cm_UpdateTrackMetadata W c id patch) (λ track, answer (writeJSON 200 (JTrack track))) writeCatalogManagementError
    end).

Definition catalog_routes : list route :=
  match sv_catalog W sv with
  | None => []
  | Some c =>
      [api_route "GET" [Lit "catalog"; Lit "artists"] (get_artists c);
       api_route "PUT" [Lit "catalog"; Lit "artist-aliases"; Wild] (put_artist_alias c);
       api_route "DELETE" [Lit "catalog"; Lit "artist-aliases"; Wild] (delete_artist_alias c);
       api_route "GET" [Lit "catalog"; Lit "tracks"; Wild] (get_track c);
       api_route "PATCH" [Lit "catalog"; Lit "tracks"; Wild] (patch_track c)]
  end.

(** ** Caching *)

(** A body is decoded only when its length is announced. *)
Definition prefetch_request (r : http_request) : option bool :=
  if 0 <? hr_ContentLength r then decodeJSON (16 * 2 ^ 10) decode_prefetch r else Some false.

Definition post_cache_track (c : library_cache W) (id : string) (r : http_request) : handler :=
  require PermissionSourcesManage r (λ _,
    match prefetch_request r with
    | None => answer (http_Error "invalid JSON request" 400)
    | Some pinned => call (lc_PrefetchTrack W c id pinned) (λ _, answer (writeJSON 202 (JTracks 1))) writeCatalogManagementError
    end).

Definition post_cache_album (c : library_cache W) (id : string) (r : http_request) : handler :=
  require PermissionSourcesManage r (λ _,
    match prefetch_request r with
    | None => answer (http_Error "invalid JSON request" 400)
    | Some pinned => call (lc_PrefetchAlbum W c id pinned) (λ count, answer (writeJSON 202 (JTracks count))) writeCatalogManagementError
    end).

Definition put_track_pin (c : library_cache W) (id : string) (r : http_request) : handler :=
  require PermissionSourcesManage r (λ _,
    match decodeJSON (16 * 2 ^ 10) decode_prefetch r with
    | None => answer (http_Error "invalid JSON request" 400)
    | Some pinned => call (lc_SetTrackPinned W c id pinned) (λ _, answer StatusNoContent) writeCatalogManagementError
    end).

Definition library_cache_routes : list route :=
  match sv_libraryCache W sv with
  | None => []
  | Some c =>
      [api_route "POST" [Lit "cache"; Lit "tracks"; Wild] (post_cache_track c);
       api_route "POST" [Lit "cache"; Lit "albums"; Wild] (post_cache_album c);
       api_route "PUT" [Lit "cache"; Lit "tracks"; Wild; Lit "pin"] (put_track_pin c)]
  end.

(** ** Scans and settings *)

Definition get_scan (c : scan_controller W) (id : string) (r : http_request) : handler :=
  require PermissionSourcesManage r (λ _,
    ask (sc_Status W c) (λ status, answer (writeJSON 200 (JScan (newLibraryScanResponse status))))).

Definition post_scan (c : scan_controller W) (id : string) (r : http_request) : handler :=
  require PermissionSourcesManage r (λ _,
    ask (sc_Start W c) (λ started,
      ask (sc_Status W c) (λ status, answer (writeJSON (if started then 202 else 200) (JScan (newLibraryScanResponse status)))))).

Definition scan_routes : list route :=
  match sv_scans W sv with
  | None => []
  | Some c => [api_route "GET" [Lit "library"; Lit "scan"] (get_scan c); api_route "POST" [Lit "library"; Lit "scan"] (post_scan c)]
  end.

Definition get_limits (c : settings_manager W) (id : string) (r : http_request) : handler :=
  require PermissionSourcesManage r (λ actor,
    call (st_Limits W c actor) (λ limits, answer (writeJSON 200 (JLimits limits))) writeTransferSettingsError).

Definition put_limits (c : settings_manager W) (id : string) (r : http_request) : handler :=
  require PermissionSourcesManage r (λ actor,
    match decodeJSON (16 * 2 ^ 10) decode_limits r with
    | None => answer (http_Error "invalid transfer settings" 400)
    | Some limits =>
        call (st_UpdateLimits W c actor limits) (λ limits, answer (writeJSON 200 (JLimits limits))) writeTransferSettingsError
    end).

Definition settings_routes : list route :=
  match sv_settings W sv with
  | None => []
  | Some c =>
      [api_route "GET" [Lit "settings"; Lit "transfers"] (get_limits c); api_route "PUT" [Lit "settings"; Lit "transfers"] (put_limits c)]
  end.

(** ** Soulseek *)

Definition no_provider : ProviderStatus := mkProviderStatus "soulseek" false false false "slskd is not configured".

Definition get_provider_status (id : string) (r : http_request) : handler :=
  require PermissionSoulseekSearch r (λ _,
    match sv_providerStatus W sv with
    | None => answer (writeJSON 200 (JProvider no_provider))
    | Some status => ask status (λ s, answer (writeJSON 200 (JProvider s)))
    end).

Definition search_failed (e : error) : handler :=
  if errors_Is ErrSourceUnavailable e then answer (http_Error "Soulseek provider is unavailable" 503)
  else answer (http_Error "search Soulseek provider" 502).

Definition search_response (query : string) (results : list TrackSource) : response :=
  let responses := map result_response results in
  writeJSON 200 (JSearch query responses (groupSourceSearchResults responses)).

Definition post_search (id : string) (r : http_request) : handler :=
  require PermissionSoulseekSearch r (λ _,
    match sv_providerSearch W sv with
    | None => answer (http_Error "Soulseek provider is not configured" 503)
    | Some searcher =>
        match decodeJSON (16 * 2 ^ 10) decode_search r with
        | None => answer (http_Error "invalid search request" 400)
        | Some payload =>
            let query := TrimSpace (query_Text payload) in
            let length := Z.of_nat (length (runes query)) in
            let limit := query_Limit payload in
            if (length <? 3) || (200 <? length) || (limit <? 0) || (200 <? limit)
            then answer (http_Error "query must contain 3-200 characters and limit must not exceed 200" 400)
            else
              call (se_Search W searcher (mkQuery query (if limit =? 0 then 50 else limit)))
                (λ results, answer (search_response query results)) search_failed
        end
    end).

Definition add_failed (e : error) : handler :=
  if errors_Is ErrDiscoveryResultNotFound e then answer (http_Error "search result expired; search again" 404)
  else answer (http_Error "add Soulseek track to library" 500).

(** The searcher as one of the interfaces it may have. *)
Definition post_soulseek_track (id : string) (r : http_request) : handler :=
  require PermissionSoulseekAdd r (λ _,
    match sv_providerSearch W sv ≫= se_Add W with
    | None => answer (http_Error "Soulseek provider is not configured" 503)
    | Some add =>
        let id := TrimSpace id in
        if bool_decide (id = "") then answer (http_Error "track ID is required" 400)
        else
          call (add id) (λ track, answer (writeJSON 201 (JAdded (ID track) (Title track) (Artist track) (Album track)))) add_failed
    end).

Definition get_soulseek_album (id : string) (r : http_request) : handler :=
  require PermissionSoulseekSearch r (λ _,
    match sv_providerSearch W sv ≫= se_collections W with
    | None => answer (http_Error "Soulseek album browsing is not configured" 503)
    | Some (_, preview) =>
        let id := TrimSpace id in
        if bool_decide (id = "") then answer (http_Error "track ID is required" 400)
        else
          call (preview id)
            (λ c, answer (writeJSON 200 (JPreview (coll_Name c) (coll_Artist c) (negb (bool_decide (coll_CoverArtID c = "")))
                                           (map preview_track (coll_Tracks c)))))
            (writeSourceCollectionError "preview Soulseek album")
    end).

Definition post_soulseek_album (id : string) (r : http_request) : handler :=
  require PermissionSoulseekAdd r (λ _,
    match sv_providerSearch W sv ≫= se_collections W with
    | None => answer (http_Error "Soulseek album browsing is not configured" 503)
    | Some (add, _) =>
        let id := TrimSpace id in
        if bool_decide (id = "") then answer (http_Error "track ID is required" 400)
        else
          call (add id)
            (λ c, answer (writeJSON 201 (JCollection (coll_Name c) (coll_Artist c) (Z.of_nat (length (coll_Tracks c))))))
            (writeSourceCollectionError "add Soulseek album to library")
    end).

Definition provider_routes : list route :=
  [api_route "GET" [Lit "providers"; Lit "soulseek"; Lit "status"] get_provider_status;
   api_route "POST" [Lit "providers"; Lit "soulseek"; Lit "search"] post_search;
   api_route "POST" [Lit "providers"; Lit "soulseek"; Lit "tracks"; Wild] post_soulseek_track;
   api_route "GET" [Lit "providers"; Lit "soulseek"; Lit "albums"; Wild] get_soulseek_album;
   api_route "POST" [Lit "providers"; Lit "soulseek"; Lit "albums"; Wild] post_soulseek_album].

(** ** Torrents *)

Definition get_cache_status (stats : M W CacheStats) (id : string) (r : http_request) : handler :=
  require PermissionMonitoringView r (λ _,
    call stats (λ s, answer (writeJSON 200 (JCache s))) (fails_with "read media cache status" 500)).

Definition cache_routes : list route :=
  match sv_cache W sv with
  | None => []
  | Some stats => [api_route "GET" [Lit "cache"; Lit "status"] (get_cache_status stats)]
  end.

(** The body up to 16 MiB, and then an error. *)
Definition limited_body (limit : Z) (r : http_request) : reader :=
  mkReader [firstn (Z.to_nat limit) (hr_Body r)]
    (if limit <? Z.of_nat (length (hr_Body r)) then Some (Plain "http: request body too large") else None).

Definition import_failed (e : error) : handler :=
  if errors_Is ErrScanInProgress e then answer (http_Error "library scan is already in progress" 409)
  else answer (http_Error "invalid torrent metadata" 400).

Definition post_torrent (import : reader → M W SourceImportResult) (id : string) (r : http_request) : handler :=
  require PermissionSourcesManage r (λ _,
    call (import (limited_body (16 * 2 ^ 20) r))
      (λ x, answer (writeJSON 201 (JTorrent (imp_SourceID x) (imp_Name x) (imp_Tracks x)))) import_failed).

Definition torrent_routes : list route :=
  match sv_torrentImporter W sv with
  | None => []
  | Some import => [api_route "POST" [Lit "torrents"] (post_torrent import)]
  end.

Definition post_magnet (u : uri_importer W) (id : string) (r : http_request) : handler :=
  require PermissionSourcesManage r (λ _,
    match decodeJSON (64 * 2 ^ 10) decode_magnet r with
    | None => answer (http_Error "invalid magnet request" 400)
    | Some magnet =>
        if bool_decide (TrimSpace magnet = "") then answer (http_Error "invalid magnet request" 400)
        else
          call (ui_ImportURI W u magnet) (λ item, answer (writeJSON 202 (JImport (newSourceImportResponse item))))
            (fails_with "invalid magnet URI" 400)
    end).

Definition get_imports (u : uri_importer W) (id : string) (r : http_request) : handler :=
  require PermissionSourcesManage r (λ _,
    call (ui_SourceImports W u) (λ items, answer (writeJSON 200 (JImports (map newSourceImportResponse items))))
      (fails_with "read source imports" 500)).

Definition import_routes : list route :=
  match sv_uriImporter W sv with
  | None => []
  | Some u => [api_route "POST" [Lit "torrents"; Lit "magnet"] (post_magnet u); api_route "GET" [Lit "imports"] (get_imports u)]
  end.

Definition get_torrents (m : source_manager W) (id : string) (r : http_request) : handler :=
  require PermissionSourcesManage r (λ _,
    call (sm_ManagedSources W m) (λ items, answer (writeJSON 200 (JSources items))) (fails_with "read torrent sources" 500)).

(** The four actions of the loop. *)
Definition post_action (update : string → M W unit) (id : string) (r : http_request) : handler :=
  require PermissionSourcesManage r (λ _, call (update id) (λ _, answer StatusNoContent) writeSourceManagementError).

Definition source_actions (m : source_manager W) : list (string * (string → M W unit)) :=
  [("pause", sm_PauseSource W m); ("resume", sm_ResumeSource W m);
   ("pin", λ id, sm_PinSource W m id true); ("unpin", λ id, sm_PinSource W m id false)].

(** [strconv.ParseBool]. *)
Definition ParseBool (s : string) : option bool :=
  if existsb (String.eqb s) ["1"; "t"; "T"; "true"; "TRUE"; "True"] then Some true
  else if existsb (String.eqb s) ["0"; "f"; "F"; "false"; "FALSE"; "False"] then Some false
  else None.

Definition query_Get (r : http_request) (key : string) : string :=
  default "" (snd <$> List.find (λ x, bool_decide (x.1 = key)) (hr_Query r)).

Definition delete_torrent (m : source_manager W) (id : string) (r : http_request) : handler :=
  require PermissionSourcesManage r (λ _,
    let value := query_Get r "deleteData" in
    match (if bool_decide (value = "") then Some false else ParseBool value) with
    | None => answer (http_Error "deleteData must be a boolean" 400)
    | Some deleteData => call (sm_RemoveSource W m id deleteData) (λ _, answer StatusNoContent) writeSourceManagementError
    end).

Definition source_routes : list route :=
  match sv_sources W sv with
  | None => []
  | Some m =>
      api_route "GET" [Lit "torrents"] (get_torrents m)
      :: map (λ x, api_route "POST" [Lit "torrents"; Wild; Lit x.1] (post_action x.2)) (source_actions m)
      ++ [api_route "DELETE" [Lit "torrents"; Wild] (delete_torrent m)]
  end.

(** ** Transfers and downloads *)

Definition get_transfers (transfers : M W (list SourceTransfer)) (id : string) (r : http_request) : handler :=
  require PermissionMonitoringView r (λ _,
    call transfers (λ items, answer (writeJSON 200 (JTransfers items))) (fails_with "read source transfer status" 500)).

Definition transfer_routes : list route :=
  match sv_transfers W sv with
  | None => []
  | Some transfers => [api_route "GET" [Lit "transfers"] (get_transfers transfers)]
  end.

Definition get_downloads (d : download_monitor W) (id : string) (r : http_request) : handler :=
  require PermissionMonitoringView r (λ _,
    call (dm_TrackDownloads W d) (λ items, answer (writeJSON 200 (JDownloads (map download_response items))))
      (fails_with "read track download status" 500)).

Definition download_action (change : string → M W unit) (id : string) (r : http_request) : handler :=
  require PermissionSourcesManage r (λ _, call (change id) (λ _, answer StatusNoContent) writeDownloadActionError).

Definition download_routes : list route :=
  match sv_downloads W sv with
  | None => []
  | Some d =>
      api_route "GET" [Lit "downloads"] (get_downloads d) ::
      match dm_control W d with
      | None => []
      | Some (cancel, retry) =>
          [api_route "DELETE" [Lit "downloads"; Wild] (download_action cancel);
           api_route "POST" [Lit "downloads"; Wild; Lit "retry"] (download_action retry)]
      end
  end.

(** ** Users *)

Definition get_session (id : string) (r : http_request) : handler :=
  require PermissionDashboardAccess r (λ actor, answer (writeJSON 200 (JUser (newUserResponse actor)))).

Definition get_users (u : user_manager W) (id : string) (r : http_request) : handler :=
  require PermissionUsersManage r (λ actor,
    call (um_Users W u actor) (λ items, answer (writeJSON 200 (JUsers (map newUserResponse items)))) writeUserError).

Definition post_user (u : user_manager W) (id : string) (r : http_request) : handler :=
  require PermissionUsersManage r (λ actor,
    match decodeJSON (16 * 2 ^ 10) decode_user r with
    | None => answer (http_Error "invalid user request" 400)
    | Some (username, password, role, permissions) =>
        call (um_CreateUser W u actor username password role permissions)
          (λ created, answer (writeJSON 201 (JUser (newUserResponse created)))) writeUserError
    end).

Definition put_password (u : user_manager W) (id : string) (r : http_request) : handler :=
  require PermissionUsersManage r (λ actor,
    match decodeJSON (16 * 2 ^ 10) decode_password r with
    | None => answer (http_Error "invalid password request" 400)
    | Some password => call (um_UpdatePassword W u actor id password) (λ _, answer StatusNoContent) writeUserError
    end).

Definition put_permissions (u : user_manager W) (id : string) (r : http_request) : handler :=
  requireAdministrator (sv_authenticator W sv) r (λ actor,
    match decodeJSON (16 * 2 ^ 10) decode_permissions r with
    | None => answer (http_Error "invalid permission request" 400)
    | Some permissions =>
        call (um_UpdatePermissions W u actor id permissions)
          (λ updated, answer (writeJSON 200 (JUser (newUserResponse updated)))) writeUserError
    end).

Definition delete_user (u : user_manager W) (id : string) (r : http_request) : handler :=
  require PermissionUsersManage r (λ actor,
    call (um_DeleteUser W u actor id) (λ _, answer StatusNoContent) writeUserError).

Definition user_routes : list route :=
  match sv_users W sv with
  | None => []
  | Some u =>
      [api_route "GET" [Lit "session"] get_session;
       api_route "GET" [Lit "users"] (get_users u);
       api_route "POST" [Lit "users"] (post_user u);
       api_route "PUT" [Lit "users"; Wild; Lit "password"] (put_password u);
       api_route "PUT" [Lit "users"; Wild; Lit "permissions"] (put_permissions u);
       api_route "DELETE" [Lit "users"; Wild] (delete_user u)]
  end.

(** ** All routes *)

Definition public (status : string) (id : string) (r : http_request) : handler := answer (writeJSON 200 (JService status)).

Definition public_routes : list route :=
  [mkRoute "GET" [Lit ""] (public "ok"); api_route "GET" [Lit "health"] (public "ok")].

Definition guarded_routes : list route :=
  catalog_routes ++ library_cache_routes ++ scan_routes ++ settings_routes ++ provider_routes ++ cache_routes ++
  torrent_routes ++ import_routes ++ source_routes ++ transfer_routes ++ download_routes ++ user_routes.

(** [newHandlerWithCatalog]. *)
Definition management_api (r : http_request) : handler := serve_routes (public_routes ++ guarded_routes) false r.
End tables.

(** [NewAuditHandler]. *)
Definition audit_limit (raw : string) : option Z :=
  if bool_decide (raw = "") then Some 100
  else match Atoi raw with
       | Some n => if (n <? 1) || (500 <? n) then None else Some n
       | None => None
       end.

Definition audit_handler (AuditEntries : Z → M W (list AuditEntry)) (authenticator : option (string → string → M W User))
    (r : http_request) : handler :=
  if negb (bool_decide (hr_Method r = "GET")) then answer (http_Error "method not allowed" 405)
  else
    requirePermission authenticator PermissionMonitoringView r (λ _,
      match audit_limit (query_Get r "limit") with
      | None => answer (http_Error "limit must be between 1 and 500" 400)
      | Some limit =>
          call (AuditEntries limit) (λ entries, answer (writeJSON 200 (JAudit entries))) (fails_with "list audit entries" 500)
      end).

(** [NewMetricsHandler], with the metrics as text. *)
Definition metrics_handler (metrics : W → string * W) (authenticator : option (string → string → M W User)) (r : http_request)
    : handler :=
  if negb (bool_decide (hr_Method r = "GET")) then answer (http_Error "method not allowed" 405)
  else
    requirePermission authenticator PermissionMonitoringView r (λ _,
      ask metrics (λ text, answer (mkResponse 200 false (Text text)))).

(** [NewReadinessHandler]. *)
Definition readiness_handler (Ping : option (M W unit)) (r : http_request) : handler :=
  if negb (bool_decide (hr_Method r = "GET")) then answer (http_Error "method not allowed" 405)
  else
    match Ping with
    | None => answer (writeJSON 503 (JService "unavailable"))
    | Some ping => call ping (λ _, answer (writeJSON 200 (JService "ready"))) (λ _, answer (writeJSON 503 (JService "unavailable")))
    end.
End handlers.
