(* ===== verification/AdminAccess.v ===== *)
(** Who may use the management API: the access policy, written down apart from
    the handlers, and the proof that the routes enforce it. *)
From stdpp Require Import base gmap strings list.
From Stdlib Require Import ZArith Lia.
From S2P Require Import Prelude GoStrings GoTime Users MediaCache Music Library Services Scans Discovery TorrentManage TorrentScan SoulseekRefs MagnetImports SearchGroups AdminApi.

Open Scope Z_scope.
Open Scope go_scope.

(** * The policy *)

Inductive access := Public | Needs (permission : Permission) | AdministratorOnly.

#[export] Instance access_eq_dec : EqDecision access.
Proof. solve_decision. Defined.

Definition may_use (a : access) (user : User) : bool :=
  match a with
  | Public => true
  | Needs permission => HasPermission user permission
  | AdministratorOnly => IsAdmin user
  end.

Definition refusal (a : access) : response :=
  match a with
  | Needs permission => permission_required permission
  | _ => administrator_required
  end.

(** What each operation of the API requires, after the table of capabilities of
    [docs/user-guide.md]. *)
Definition access_policy : list (string * list segment * access) :=
  [("GET", [Lit ""], Public);
   ("GET", api [Lit "health"], Public);
   ("GET", api [Lit "catalog"; Lit "artists"], Needs PermissionCatalogManage);
   ("PUT", api [Lit "catalog"; Lit "artist-aliases"; Wild], Needs PermissionCatalogManage);
   ("DELETE", api [Lit "catalog"; Lit "artist-aliases"; Wild], Needs PermissionCatalogManage);
   ("GET", api [Lit "catalog"; Lit "tracks"; Wild], Needs PermissionCatalogManage);
   ("PATCH", api [Lit "catalog"; Lit "tracks"; Wild], Needs PermissionCatalogManage);
   ("POST", api [Lit "cache"; Lit "tracks"; Wild], Needs PermissionSourcesManage);
   ("POST", api [Lit "cache"; Lit "albums"; Wild], Needs PermissionSourcesManage);
   ("PUT", api [Lit "cache"; Lit "tracks"; Wild; Lit "pin"], Needs PermissionSourcesManage);
   ("GET", api [Lit "library"; Lit "scan"], Needs PermissionSourcesManage);
   ("POST", api [Lit "library"; Lit "scan"], Needs PermissionSourcesManage);
   ("GET", api [Lit "settings"; Lit "transfers"], Needs PermissionSourcesManage);
   ("PUT", api [Lit "settings"; Lit "transfers"], Needs PermissionSourcesManage);
   ("GET", api [Lit "providers"; Lit "soulseek"; Lit "status"], Needs PermissionSoulseekSearch);
   ("POST", api [Lit "providers"; Lit "soulseek"; Lit "search"], Needs PermissionSoulseekSearch);
   ("POST", api [Lit "providers"; Lit "soulseek"; Lit "tracks"; Wild], Needs PermissionSoulseekAdd);
   ("GET", api [Lit "providers"; Lit "soulseek"; Lit "albums"; Wild], Needs PermissionSoulseekSearch);
   ("POST", api [Lit "providers"; Lit "soulseek"; Lit "albums"; Wild], Needs PermissionSoulseekAdd);
   ("GET", api [Lit "cache"; Lit "status"], Needs PermissionMonitoringView);
   ("POST", api [Lit "torrents"], Needs PermissionSourcesManage);
   ("POST", api [Lit "torrents"; Lit "magnet"], Needs PermissionSourcesManage);
   ("GET", api [Lit "imports"], Needs PermissionSourcesManage);
   ("GET", api [Lit "torrents"], Needs PermissionSourcesManage);
   ("POST", api [Lit "torrents"; Wild; Lit "pause"], Needs PermissionSourcesManage);
   ("POST", api [Lit "torrents"; Wild; Lit "resume"], Needs PermissionSourcesManage);
   ("POST", api [Lit "torrents"; Wild; Lit "pin"], Needs PermissionSourcesManage);
   ("POST", api [Lit "torrents"; Wild; Lit "unpin"], Needs PermissionSourcesManage);
   ("DELETE", api [Lit "torrents"; Wild], Needs PermissionSourcesManage);
   ("GET", api [Lit "transfers"], Needs PermissionMonitoringView);
   ("GET", api [Lit "downloads"], Needs PermissionMonitoringView);
   ("DELETE", api [Lit "downloads"; Wild], Needs PermissionSourcesManage);
   ("POST", api [Lit "downloads"; Wild; Lit "retry"], Needs PermissionSourcesManage);
   ("GET", api [Lit "session"], Needs PermissionDashboardAccess);
   ("GET", api [Lit "users"], Needs PermissionUsersManage);
   ("POST", api [Lit "users"], Needs PermissionUsersManage);
   ("PUT", api [Lit "users"; Wild; Lit "password"], Needs PermissionUsersManage);
   ("PUT", api [Lit "users"; Wild; Lit "permissions"], AdministratorOnly);
   ("DELETE", api [Lit "users"; Wild], Needs PermissionUsersManage)].

Definition applies (r : http_request) (x : string * list segment * access) : bool :=
  (bool_decide (x.1.1 = hr_Method r) || (bool_decide (x.1.1 = "GET") && bool_decide (hr_Method r = "HEAD"))) &&
  bool_decide (is_Some (match_segments x.1.2 (hr_Path r))).

(** The entry of the policy for a request. *)
Definition operation (r : http_request) : option (string * list segment * access) :=
  List.find (applies r) access_policy.

(** * No request has two meanings *)

Fixpoint may_overlap (p q : list segment) : bool :=
  match p, q with
  | [], [] => true
  | Lit s :: p, Lit t :: q => bool_decide (s = t) && may_overlap p q
  | Lit s :: p, Wild :: q | Wild :: p, Lit s :: q => negb (bool_decide (s = "")) && may_overlap p q
  | Wild :: p, Wild :: q => may_overlap p q
  | _, _ => false
  end.

Lemma match_overlap p q path :
  is_Some (match_segments p path) → is_Some (match_segments q path) → may_overlap p q = true.
Proof.
  revert q path. induction p as [|[s|] p IH]; intros q [|x path] [l Hp] [l' Hq]; destruct q as [|[t|] q];
    simpl in *; try done; repeat case_bool_decide; subst; try done; try congruence; simpl;
    repeat match goal with
           | H : match match_segments ?p ?path with _ => _ end = _ |- _ => destruct (match_segments p path) eqn:?; [|done]
           end; eauto.
Qed.

(** The methods of the policy do not contain HEAD, and two entries of a method
    never match one path. *)
Fixpoint unambiguous (l : list (string * list segment * access)) : bool :=
  match l with
  | [] => true
  | x :: l =>
      negb (bool_decide (x.1.1 = "HEAD")) &&
      forallb (λ y, negb (bool_decide (x.1.1 = y.1.1) && may_overlap x.1.2 y.1.2)) l && unambiguous l
  end.

Lemma access_policy_unambiguous : unambiguous access_policy = true.
Proof. vm_compute. reflexivity. Qed.

Lemma applies_same_entry r x y :
  x.1.1 ≠ "HEAD" → y.1.1 ≠ "HEAD" → applies r x = true → applies r y = true →
  x.1.1 = y.1.1 ∧ may_overlap x.1.2 y.1.2 = true.
Proof.
  intros Hx Hy [Mx Px]%andb_true_iff [My Py]%andb_true_iff.
  apply bool_decide_eq_true in Px, Py. split; [|by apply (match_overlap _ _ (hr_Path r))].
  apply orb_true_iff in Mx, My. rewrite !andb_true_iff, !bool_decide_eq_true in Mx, My. naive_solver congruence.
Qed.

Lemma find_applies r l x :
  unambiguous l = true → In x l → applies r x = true → List.find (applies r) l = Some x.
Proof.
  induction l as [|y l IH]; [done|]. simpl. rewrite !andb_true_iff, negb_true_iff, bool_decide_eq_false.
  intros [[Hy Hl] Hu] Hx Ha. destruct (applies r y) eqn:Ey.
  - destruct Hx as [->|Hx]; [done|]. rewrite forallb_forall in Hl. specialize (Hl _ Hx).
    apply negb_true_iff, andb_false_iff in Hl. exfalso.
    assert (x.1.1 ≠ "HEAD") as Hx'.
    { clear -Hu Hx. induction l as [|z l IH]; [done|]. simpl in Hu.
      rewrite !andb_true_iff, negb_true_iff, bool_decide_eq_false in Hu. destruct Hx as [<-|Hx]; [tauto|]. apply IH; tauto. }
    destruct (applies_same_entry r y x) as [E O]; auto. rewrite bool_decide_eq_false, O in Hl. by destruct Hl.
  - destruct Hx as [->|Hx]; [by rewrite Ha in Ey|]. auto.
Qed.

(** * The routes enforce the policy *)

#[export] Instance segment_eq_dec : EqDecision segment.
Proof. solve_decision. Defined.

(** The entry of the policy for a route. *)
Definition entry (method : string) (pattern : list segment) : option access :=
  snd <$> List.find (λ x, bool_decide (x.1 = (method, pattern))) access_policy.

Lemma entry_In method pattern a : entry method pattern = Some a → In (method, pattern, a) access_policy.
Proof.
  unfold entry. generalize access_policy as l. intros l E.
  destruct (List.find _ l) as [[k b]|] eqn:F; [|done]. simplify_eq/=.
  apply find_some in F as [F K]. by apply bool_decide_eq_true in K as <-.
Qed.

Section access.
Context {W : Type} `{Json} `{Unicode} `{UpperCase} (sv : services W).
Notation auth := (authenticateBasic (sv_authenticator W sv)).

(** ** Answers behind the guard carry no challenge *)

Definition quiet (h : handler) : Prop := ∀ w : W, rs_Challenge (h w).1 = false.

Lemma quiet_answer r : rs_Challenge r = false → quiet (answer r).
Proof. by intros Hr w. Qed.

Lemma quiet_call {A} (m : M W A) k fails : (∀ a, quiet (k a)) → (∀ e, quiet (fails e)) → quiet (call m k fails).
Proof. intros Hk Hf w. unfold call. destruct (m w) as [[a|e] w1]; [apply Hk|apply Hf]. Qed.

Lemma quiet_ask {A} (m : W → A * W) k : (∀ a, quiet (k a)) → quiet (ask m k).
Proof. intros Hk w. unfold ask. destruct (m w) as [a w1]. apply Hk. Qed.

(** ** The guard *)

(** Only the authenticator has acted when a request is refused; a request is
    challenged exactly when its caller is not known. *)
Definition guarded (a : access) (r : http_request) (h : handler) : Prop := ∀ w : W,
  match auth r w with
  | (Err _, w1) => h w = (authentication_required, w1)
  | (Ok user, w1) => if may_use a user then rs_Challenge (h w).1 = false else h w = (refusal a, w1)
  end.

Lemma requirePermission_guarded permission r k :
  (∀ user, quiet (k user)) → guarded (Needs permission) r (requirePermission (sv_authenticator W sv) permission r k).
Proof.
  intros Hk w. unfold requirePermission, call. destruct (auth r w) as [[u|e] w1]; [|done]. simpl.
  destruct (HasPermission u permission); [apply Hk|done].
Qed.

Lemma requireAdministrator_guarded r k :
  (∀ user, quiet (k user)) → guarded AdministratorOnly r (requireAdministrator (sv_authenticator W sv) r k).
Proof.
  intros Hk w. unfold requireAdministrator, call. destruct (auth r w) as [[u|e] w1]; [|done]. simpl.
  destruct (IsAdmin u); [apply Hk|done].
Qed.

Ltac quiet_tac := repeat first
  [ progress intros
  | apply quiet_call | apply quiet_ask | (apply quiet_answer; reflexivity)
  | progress unfold fails_with, writeDownloadActionError, writeSourceCollectionError, writeTransferSettingsError,
      writeCatalogManagementError, writeSourceManagementError, writeUserError, search_failed, add_failed, import_failed
  | match goal with
    | |- quiet (match ?o with _ => _ end) => destruct o
    | |- quiet (let '(_, _) := ?p in _) => destruct p
    end ].

Definition enforced (x : route) : Prop := ∃ a,
  entry (rt_Method x) (rt_Pattern x) = Some a ∧ a ≠ Public ∧ ∀ id r, guarded a r (rt_Handle x id r).

Ltac enforced_tac :=
  eexists; split; [vm_compute; reflexivity|]; split; [done|]; intros id r;
  first [apply requirePermission_guarded|apply requireAdministrator_guarded]; quiet_tac.

Lemma guarded_routes_enforced : Forall enforced (guarded_routes sv).
Proof.
  unfold guarded_routes, catalog_routes, library_cache_routes, scan_routes, settings_routes, provider_routes,
    cache_routes, torrent_routes, import_routes, source_routes, transfer_routes, download_routes, user_routes, source_actions.
  repeat apply Forall_app_2;
    repeat match goal with |- context [match ?o with Some _ => _ | None => _ end] => destruct o as [?|] end;
    repeat match goal with |- context [let '(_, _) := ?p in _] => destruct p end;
    simpl; repeat constructor; enforced_tac.
Qed.

(** ** The whole table *)

Lemma serve_routes_cases (routes : list route) allowed r (w : W) :
  (∃ x captured, In x routes ∧ match_segments (rt_Pattern x) (hr_Path r) = Some captured ∧
     method_matches x (hr_Method r) = true ∧
     serve_routes routes allowed r w = rt_Handle x (path_value captured) r w) ∨
  ((∀ x, In x routes → method_matches x (hr_Method r) = true → match_segments (rt_Pattern x) (hr_Path r) = None) ∧
   ∃ resp, serve_routes routes allowed r w = (resp, w) ∧ rs_Status resp ∈ [404; 405]).
Proof.
  revert allowed. induction routes as [|x routes IH]; intros allowed.
  - right. split; [done|]. destruct allowed; eexists; (split; [reflexivity|]); set_solver.
  - simpl. destruct (match_segments (rt_Pattern x) (hr_Path r)) as [c|] eqn:Em.
    + destruct (method_matches x (hr_Method r)) eqn:Ex; [left; exists x, c; eauto 10|].
      destruct (IH true) as [(y & d & ? & ? & ? & ?)|[Hn ?]]; [left; exists y, d; eauto 10|right].
      split; [|done]. intros y [<-|Hy] ?; [congruence|auto].
    + destruct (IH allowed) as [(y & d & ? & ? & ? & ?)|[Hn ?]]; [left; exists y, d; eauto 10|right].
      split; [|done]. intros y [<-|Hy] ?; auto.
Qed.

(** Whether the server has the operation: its service is not nil. *)
Definition offered (x : string * list segment * access) : bool :=
  existsb (λ rt, bool_decide ((rt_Method rt, rt_Pattern rt) = x.1)) (public_routes ++ guarded_routes sv).

Lemma offered_true x :
  offered x = true ↔ ∃ rt, In rt (public_routes (W := W) ++ guarded_routes sv) ∧ (rt_Method rt, rt_Pattern rt) = x.1.
Proof.
  unfold offered. rewrite existsb_exists. by setoid_rewrite bool_decide_eq_true.
Qed.

(** Every route has its entry of the policy. *)
Lemma route_entry rt : In rt (public_routes (W := W) ++ guarded_routes sv) →
  ∃ a, In (rt_Method rt, rt_Pattern rt, a) access_policy ∧
    if decide (a = Public) then ∀ id r (w : W), ∃ status, rt_Handle rt id r w = (writeJSON 200 (JService status), w)
    else ∀ id r, guarded a r (rt_Handle rt id r).
Proof.
  rewrite in_app_iff. intros [Hi|Hi].
  - exists Public. destruct Hi as [<-|[<-|[]]]; (split; [apply entry_In; vm_compute; reflexivity|]);
      rewrite decide_True by done; intros; by eexists.
  - pose proof guarded_routes_enforced as E. rewrite List.Forall_forall in E.
    destruct (E _ Hi) as (a & Ha & Hp & Hg). exists a. split; [by apply entry_In|]. by rewrite decide_False.
Qed.

Lemma applies_route rt a r :
  applies r (rt_Method rt, rt_Pattern rt, a) = method_matches (W := W) rt (hr_Method r) && bool_decide (is_Some (match_segments (rt_Pattern rt) (hr_Path r))).
Proof. reflexivity. Qed.

Lemma operation_Some r x : operation r = Some x → In x access_policy ∧ applies r x = true.
Proof. apply find_some. Qed.

Lemma operation_route rt a r : In (rt_Method rt, rt_Pattern rt, a) access_policy →
  method_matches (W := W) rt (hr_Method r) = true → is_Some (match_segments (rt_Pattern rt) (hr_Path r)) →
  operation r = Some (rt_Method rt, rt_Pattern rt, a).
Proof.
  intros Hin Hm Hp. apply find_applies; [apply access_policy_unambiguous|done|].
  rewrite applies_route, Hm. by apply bool_decide_eq_true.
Qed.

(** C3. The management API enforces its access policy.  A request that is no
    operation of the policy, or whose service is absent, is answered 404 or 405
    and changes nothing; an operation is challenged exactly when its caller
    cannot be authenticated, refused when the caller lacks the capability it
    requires, and in both cases nothing but the authenticator has acted. *)
Theorem access_is_controlled (r : http_request) (w : W) :
  let '(resp, w') := management_api sv r w in
  match operation r with
  | Some x =>
      if offered x then
        if decide (x.2 = Public) then w' = w ∧ rs_Status resp = 200
        else
          match auth r w with
          | (Err _, w1) => resp = authentication_required ∧ w' = w1
          | (Ok user, w1) =>
              if may_use x.2 user then rs_Challenge resp = false else resp = refusal x.2 ∧ w' = w1
          end
      else w' = w ∧ rs_Status resp ∈ [404; 405]
  | None => w' = w ∧ rs_Status resp ∈ [404; 405]
  end.
Proof.
  unfold management_api.
  destruct (serve_routes_cases (public_routes ++ guarded_routes sv) false r w)
    as [(rt & captured & Hin & Hp & Hm & ->)|(Hn & resp & -> & Hs)].
  - destruct (route_entry _ Hin) as (a & Ha & Hr).
    rewrite (operation_route rt a r) by eauto.
    assert (offered (rt_Method rt, rt_Pattern rt, a) = true) as -> by (apply offered_true; eauto).
    simpl. destruct (decide (a = Public)) as [->|_].
    + destruct (Hr (path_value captured) r w) as [status ->]. done.
    + specialize (Hr (path_value captured) r w). destruct (auth r w) as [[user|e] w1].
      * destruct (may_use a user); [|by rewrite Hr]. by destruct (rt_Handle rt _ r w).
      * by rewrite Hr.
  - destruct (operation r) as [x|] eqn:Ex; [|done].
    destruct (offered x) eqn:Eo; [|done]. exfalso.
    apply offered_true in Eo as (rt & Hin & Hx). apply operation_Some in Ex as [_ Ha].
    destruct x as [[m p] a]. simpl in Hx. simplify_eq. rewrite applies_route in Ha.
    apply andb_true_iff in Ha as [Hm [l Hl]%bool_decide_eq_true]. rewrite (Hn rt Hin Hm) in Hl. done.
Qed.

(** A server with all its services offers every operation of the policy. *)
Lemma every_operation_is_offered :
  is_Some (sv_cache W sv) → is_Some (sv_torrentImporter W sv) → is_Some (sv_uriImporter W sv) → is_Some (sv_sources W sv) →
  is_Some (sv_transfers W sv) → (∃ d, sv_downloads W sv = Some d ∧ is_Some (dm_control W d)) → is_Some (sv_users W sv) →
  is_Some (sv_settings W sv) → is_Some (sv_catalog W sv) → is_Some (sv_libraryCache W sv) → is_Some (sv_scans W sv) →
  forallb offered access_policy = true.
Proof.
  intros [? E1] [? E2] [? E3] [? E4] [? E5] (d & E6 & [[? ?] E7]) [? E8] [? E9] [? E10] [? E11] [? E12].
  unfold offered, guarded_routes, catalog_routes, library_cache_routes, scan_routes, settings_routes, provider_routes,
    cache_routes, torrent_routes, import_routes, source_routes, transfer_routes, download_routes, user_routes.
  rewrite E1, E2, E3, E4, E5, E6, E7, E8, E9, E10, E11, E12. vm_compute. reflexivity.
Qed.
End access.
