(* ===== verification/HttpStack.v ===== *)
(** The handlers around the management API ([observability]): the limiter of
    failed logins and the audit trail, and the table the trail is kept in.

    A request is served as a whole here: its arrival, its operations and its
    answer with nothing in between ([AuthLimit] has the interleavings). *)
From stdpp Require Import base gmap strings list.
From Stdlib Require Import ZArith Lia.
From S2P Require Import Prelude GoStrings GoTime Sql AuthLimit Users AdminApi.

Open Scope Z_scope.
Open Scope go_scope.

(** * The audit log ([adapters/storage/sqlite/audit.go], [migrations/018_create_audit_log.sql]) *)

(** The rows by insertion; [AUTOINCREMENT] never gives an id twice. *)
Record audit_table := mkAuditTable {
  at_sequence : Z;
  at_rows : list AuditEntry;
}.

Definition empty_audit : audit_table := mkAuditTable 0 [].

(** [ORDER BY occurred_at DESC, id DESC], on the text of the instant. *)
Definition audit_before (x y : AuditEntry) : bool :=
  let sx := FormatRFC3339Nano (ae_OccurredAt x) in
  let sy := FormatRFC3339Nano (ae_OccurredAt y) in
  str_ltb sy sx || (bool_decide (sx = sy) && (ae_ID y <? ae_ID x)).

Definition audit_listing (t : audit_table) : list AuditEntry := sort_stable audit_before (at_rows t).

Definition audit_retention : nat := Z.to_nat 10000.

(** The trigger [audit_log_retention]. *)
Definition retain (t : audit_table) : audit_table :=
  let old := map ae_ID (skipn audit_retention (audit_listing t)) in
  mkAuditTable (at_sequence t) (List.filter (λ x, negb (existsb (Z.eqb (ae_ID x)) old)) (at_rows t)).

Definition with_id (id : Z) (e : AuditEntry) : AuditEntry :=
  mkAuditEntry id (ae_OccurredAt e) (ae_RequestID e) (ae_Actor e) (ae_RemoteAddress e) (ae_Method e) (ae_Path e) (ae_Status e).

Definition insert_audit (e : AuditEntry) (t : audit_table) : audit_table :=
  let id := at_sequence t + 1 in
  let t := mkAuditTable id (at_rows t ++ [with_id id e]) in
  if id mod 100 =? 0 then retain t else t.

Definition AppendAuditEntry (e : AuditEntry) : M (database audit_table) unit :=
  wrap_err (λ e, Errorf "append audit entry: " e "") (ExecContext (insert_audit e)).

Definition AuditEntries (limit : Z) : M (database audit_table) (list AuditEntry) :=
  let limit := if (limit <=? 0) || (500 <? limit) then 100 else limit in
  wrap_err (λ e, Errorf "list audit entries: " e "")
    (QueryContext (λ t, firstn (Z.to_nat limit) (audit_listing t))).

(** * The stack *)

Definition URL_Path (r : http_request) : string := "/" +:+ Join (hr_Path r) "/".

Definition isAuditedMutation (r : http_request) : bool :=
  if negb (bool_decide (URL_Path r = "/api/v1")) && negb (HasPrefix (URL_Path r) "/api/v1/") then false
  else existsb (λ m, bool_decide (hr_Method r = m)) ["POST"; "PUT"; "PATCH"; "DELETE"].

Section stack.
Context `{Unicode} {W : Type} (limit window blockFor : Z).

Record server := mkServer {
  srv_limiter : AuthFailureLimiter;
  srv_audit : database audit_table;
  srv_services : W;
}.

Definition with_limiter (l : AuthFailureLimiter) (s : server) : server := mkServer l (srv_audit s) (srv_services s).

Definition auth_request_of (r : http_request) : auth_request :=
  mkAuthRequest (hr_RemoteAddr r) (default "" (fst <$> hr_BasicAuth r)) (query_Get r "u").

(** [AuthFailureLimiter.Wrap]; the clock is read when the request arrives and
    when it has been answered. *)
Definition limiter_Wrap (next : http_request → W → response * W) (arrival answered : time) (r : http_request) (s : server)
    : response * server :=
  let key := authFailureKey (auth_request_of r) in
  match arrive key arrival (srv_limiter s) with
  | (TooManyRequests _, l) => (http_Error "too many failed authentication attempts" 429, with_limiter l s)
  | (LetThrough, l) =>
      let '(resp, w) := next r (srv_services s) in
      (resp, mkServer (AuthLimit.answer limit window blockFor key (rs_Status resp) answered l) (srv_audit s) w)
  end.

(** The request's own identifier, or one that is drawn. *)
Definition request_id (drawn : string) (r : http_request) : string :=
  let requestID := TrimSpace (hr_RequestID r) in
  if bool_decide (requestID = "") || (128 <? len requestID) then drawn else requestID.

Definition request_actor (r : http_request) : string :=
  match hr_BasicAuth r with
  | Some (actor, _) => if bool_decide (TrimSpace actor = "") then "anonymous" else actor
  | None => "anonymous"
  end.

Definition audit_entry (drawn : string) (now : time) (r : http_request) (resp : response) : AuditEntry :=
  mkAuditEntry 0 now (request_id drawn r) (request_actor r) (default (hr_RemoteAddr r) (split_host (hr_RemoteAddr r)))
    (hr_Method r) (URL_Path r) (rs_Status resp).

(** [AuditMiddleware.Wrap]: the answer with its header X-Request-ID.  A store
    that fails is only logged. *)
Definition audit_Wrap (next : http_request → server → response * server) (drawn : string) (now : time) (r : http_request)
    (s : server) : response * option string * server :=
  if negb (isAuditedMutation r) then let '(resp, s) := next r s in (resp, None, s)
  else
    let '(resp, s) := next r s in
    let '(_, d) := AppendAuditEntry (audit_entry drawn now r resp) (srv_audit s) in
    (resp, Some (request_id drawn r), mkServer (srv_limiter s) d (srv_services s)).

(** One request through the handlers of [buildApplication]. *)
Record exchange := mkExchange {
  x_request : http_request;
  x_arrival : time;
  x_answered : time;
  x_drawn : string;
  x_audited : time;
}.

Definition serve (next : http_request → W → response * W) (x : exchange) (s : server) : response * option string * server :=
  audit_Wrap (limiter_Wrap next (x_arrival x) (x_answered x)) (x_drawn x) (x_audited x) (x_request x) s.
End stack.
