(* ===== verification/HttpTheorems.v ===== *)
(** The audit log, the audit trail of the management API, and user management
    over HTTP: the handlers composed with the user service. *)
From stdpp Require Import base gmap strings list.
From Stdlib Require Import ZArith Lia.
From S2P Require Import Prelude GoStrings GoTime Sql AuthLimit Users SqlUsers UserTheorems MediaCache Music Library Services Scans Discovery TorrentManage TorrentScan SoulseekRefs MagnetImports SearchGroups AdminApi AdminAccess HttpStack.

Open Scope Z_scope.
Open Scope go_scope.

(** * Sorting a part of a list *)

Lemma filter_insert_stable {A} (less : A → A → bool) (f : A → bool) x l :
  strict_weak less → sorted_by less l →
  List.filter f (insert_stable less x l) =
    if f x then insert_stable less x (List.filter f l) else List.filter f l.
Proof.
  intros Hsw. unfold sorted_by. induction 1 as [|y l Hl IH Hy]; simpl; [by destruct (f x)|].
  destruct (less x y) eqn:Hxy; simpl.
  - destruct (f x) eqn:Fx, (f y) eqn:Fy; simpl; rewrite ?Hxy; try done.
    assert (Forall (λ z, less x z = true) (List.filter f l)) as Hall.
    { apply Forall_forall. intros z [Hz _]%elem_of_filter_bool. rewrite Forall_forall in Hy.
      destruct (less x z) eqn:E; [done|]. by rewrite (sw_negtrans _ Hsw y z x) in Hxy by auto. }
    destruct (List.filter f l) as [|z k]; [done|]. simpl. apply Forall_cons in Hall as [-> _]. done.
  - rewrite IH. destruct (f x) eqn:Fx, (f y) eqn:Fy; simpl; rewrite ?Hxy; done.
Qed.

Lemma sort_stable_snoc {A} (less : A → A → bool) l x :
  sort_stable less (l ++ [x]) = insert_stable less x (sort_stable less l).
Proof. unfold sort_stable. by rewrite fold_left_app. Qed.

Lemma sort_stable_filter {A} (less : A → A → bool) (f : A → bool) l :
  strict_weak less → sort_stable less (List.filter f l) = List.filter f (sort_stable less l).
Proof.
  intros Hsw. induction l as [|x l IH] using rev_ind; [done|].
  rewrite sort_stable_snoc, List.filter_app. simpl.
  rewrite filter_insert_stable by (auto using sort_stable_sorted).
  destruct (f x); [by rewrite sort_stable_snoc, IH|by rewrite app_nil_r].
Qed.

Lemma firstn_insert_stable {A} (less : A → A → bool) n x l :
  firstn n (insert_stable less x l) = firstn n (insert_stable less x (firstn n l)).
Proof.
  revert n. induction l as [|y l IH]; intros [|n]; simpl; [done..|].
  destruct (less x y); simpl.
  - f_equal. destruct n; simpl; [done|]. by rewrite firstn_firstn, Nat.min_l by lia.
  - f_equal. apply IH.
Qed.

(** * The audit log *)

Lemma filter_true {A} (l : list A) : List.filter (λ _, true) l = l.
Proof. induction l; simpl; congruence. Qed.

Lemma filter_false {A} (l : list A) : List.filter (λ _, false) l = [].
Proof. by induction l. Qed.

Lemma audit_strict_weak : strict_weak audit_before.
Proof.
  pose proof strict_weak_str as Hw. unfold audit_before. split.
  - intros x. rewrite (sw_irrefl _ Hw), bool_decide_true by done. simpl. lia.
  - intros x y z. rewrite !orb_true_iff, !andb_true_iff, !bool_decide_eq_true.
    intros [Hxy|[-> Hxy]] [Hyz|[Eyz Hyz]].
    + left. by eapply (sw_trans _ Hw).
    + left. by rewrite <- Eyz.
    + by left.
    + right. split; [done|lia].
  - intros x y z. rewrite !orb_false_iff, !andb_false_iff, !bool_decide_eq_false.
    intros [Hxy Ixy] [Hyz Iyz]. split; [by eapply (sw_negtrans _ Hw)|].
    destruct (decide (FormatRFC3339Nano (ae_OccurredAt z) = FormatRFC3339Nano (ae_OccurredAt x))) as [E|]; [right|by left].
    assert (FormatRFC3339Nano (ae_OccurredAt y) = FormatRFC3339Nano (ae_OccurredAt x)) as E'.
    { rewrite E in Hyz. by apply str_ltb_total. }
    destruct Ixy as [Ixy|Ixy]; [done|]. destruct Iyz as [Iyz|Iyz]; [by rewrite E, E' in Iyz|]. lia.
Qed.

Lemma filter_absent_suffix (a b : list AuditEntry) :
  NoDup (map ae_ID (a ++ b)) →
  List.filter (λ x, negb (existsb (Z.eqb (ae_ID x)) (map ae_ID b))) (a ++ b) = a.
Proof.
  intros Hnd. rewrite map_app in Hnd. apply NoDup_app in Hnd as (_ & Hd & _).
  assert (∀ x, existsb (Z.eqb (ae_ID x)) (map ae_ID b) = true ↔ ae_ID x ∈ map ae_ID b) as Hex.
  { intros x. rewrite existsb_exists, list_elem_of_In. setoid_rewrite Z.eqb_eq. naive_solver. }
  rewrite List.filter_app. transitivity (a ++ []); [f_equal|apply app_nil_r].
  - rewrite <- (filter_true a) at 2. apply filter_ext_in. intros x Hx.
    apply negb_true_iff, not_true_iff_false. rewrite Hex. apply Hd. by apply list_elem_of_In, in_map.
  - rewrite <- (filter_false b). apply filter_ext_in. intros x Hx.
    apply negb_false_iff, Hex. by apply list_elem_of_In, in_map.
Qed.

Lemma listing_ids t : map ae_ID (audit_listing t) ≡ₚ map ae_ID (at_rows t).
Proof. apply Permutation_map, sort_stable_perm. Qed.

(** The trigger keeps the newest rows. *)
Lemma listing_retain t :
  NoDup (map ae_ID (at_rows t)) → audit_listing (retain t) = firstn audit_retention (audit_listing t).
Proof.
  intros Hnd. unfold audit_listing at 1, retain. cbn [at_rows].
  rewrite sort_stable_filter by apply audit_strict_weak. fold (audit_listing t).
  rewrite <- listing_ids in Hnd. revert Hnd. generalize (audit_listing t) as l. intros l Hnd.
  rewrite <- (firstn_skipn audit_retention l) in Hnd. pose proof (filter_absent_suffix _ _ Hnd) as E.
  by rewrite firstn_skipn in E.
Qed.

(** Every entry ever appended, with the identifiers the table gave. *)
Fixpoint numbered (id : Z) (es : list AuditEntry) : list AuditEntry :=
  match es with
  | [] => []
  | e :: es => with_id id e :: numbered (id + 1) es
  end.

Definition audit_history (es : list AuditEntry) : list AuditEntry := numbered 1 es.

Definition audit_log (es : list AuditEntry) : audit_table := fold_left (λ t e, insert_audit e t) es empty_audit.

Lemma numbered_snoc id es e : numbered id (es ++ [e]) = numbered id es ++ [with_id (id + Z.of_nat (length es)) e].
Proof.
  revert id. induction es as [|x es IH]; intros id; simpl; [by rewrite Z.add_0_r|].
  rewrite IH, Nat2Z.inj_succ, <- Z.add_1_l, Z.add_assoc. done.
Qed.

Record audit_log_inv (es : list AuditEntry) (t : audit_table) : Prop := {
  ali_sequence : at_sequence t = Z.of_nat (length es);
  ali_NoDup : NoDup (map ae_ID (at_rows t));
  ali_ids : Forall (λ x, ae_ID x ≤ at_sequence t) (at_rows t);
  ali_length : Z.of_nat (length (at_rows t)) ≤ 10000 + at_sequence t mod 100;
  ali_newest : firstn audit_retention (audit_listing t) = firstn audit_retention (sort_stable audit_before (audit_history es));
}.

Lemma insert_audit_inv es t e : audit_log_inv es t → audit_log_inv (es ++ [e]) (insert_audit e t).
Proof.
  intros [Hs Hnd Hids Hlen Hnew]. unfold insert_audit.
  set (id := at_sequence t + 1). set (t1 := mkAuditTable id (at_rows t ++ [with_id id e])).
  assert (NoDup (map ae_ID (at_rows t1))) as Hnd1.
  { simpl. rewrite map_app. apply NoDup_app. split_and!; [done| |by apply NoDup_singleton].
    intros i Hi ->%list_elem_of_singleton. apply list_elem_of_fmap in Hi as (x & Ex & Hx).
    rewrite Forall_forall in Hids. specialize (Hids _ Hx). simpl in Ex. lia. }
  assert (Forall (λ x, ae_ID x ≤ id) (at_rows t1)) as Hids1.
  { simpl. apply Forall_app. split; [|repeat constructor; simpl; lia].
    eapply Forall_impl; [exact Hids|]. simpl. lia. }
  assert (firstn audit_retention (audit_listing t1) =
          firstn audit_retention (sort_stable audit_before (audit_history (es ++ [e])))) as Hnew1.
  { unfold audit_listing, audit_history, t1. cbn [at_rows]. rewrite numbered_snoc, !sort_stable_snoc.
    replace (1 + Z.of_nat (length es)) with id by (unfold id; lia).
    rewrite firstn_insert_stable. unfold audit_listing in Hnew. rewrite Hnew. symmetry. apply firstn_insert_stable. }
  assert (Z.of_nat (length (at_rows t1)) ≤ 10000 + at_sequence t mod 100 + 1) as Hlen1.
  { simpl. rewrite length_app. simpl. lia. }
  destruct (id mod 100 =? 0) eqn:Ed.
  - split; [by simpl; rewrite length_app; simpl; unfold id; lia|..].
    + simpl. by apply NoDup_map_filter.
    + simpl. apply Forall_forall. intros x [Hx _]%elem_of_filter_bool. rewrite Forall_forall in Hids1. auto.
    + rewrite <- (length_map ae_ID), <- listing_ids, length_map, listing_retain, length_firstn by done.
      pose proof (Z.mod_pos_bound (at_sequence (retain t1)) 100). unfold audit_retention. lia.
    + rewrite listing_retain, firstn_firstn, Nat.min_id by done. done.
  - split; [by simpl; rewrite length_app; simpl; unfold id; lia|done..| |done].
    etrans; [exact Hlen1|]. change (at_sequence t1) with id.
    assert (id mod 100 = at_sequence t mod 100 + 1) as ->; [|lia]. unfold id in *.
    pose proof (Z.mod_pos_bound (at_sequence t) 100). rewrite Z.add_mod in * by lia.
    change (1 mod 100) with 1 in *.
    destruct (decide (at_sequence t mod 100 = 99)) as [E|]; [by rewrite E in Ed|].
    apply Z.mod_small. lia.
Qed.

Lemma audit_log_inv_holds es : audit_log_inv es (audit_log es).
Proof.
  induction es as [|e es IH] using rev_ind.
  - split; try done. simpl. constructor.
  - unfold audit_log. rewrite fold_left_app. by apply insert_audit_inv.
Qed.

(** C38. The audit log is bounded and forgets only what it never shows.  After any
    appends, in any order of their times, it holds less than 10100 rows, and
    every listing is the one of a log from which nothing was ever deleted. *)
Theorem the_audit_log_is_bounded_and_current (es : list AuditEntry) (limit : Z) :
  Z.of_nat (length (at_rows (audit_log es))) < 10100 ∧
  (AuditEntries limit (mkDatabase (audit_log es) [])).1 =
    Ok (firstn (Z.to_nat (if (limit <=? 0) || (500 <? limit) then 100 else limit))
          (sort_stable audit_before (audit_history es))).
Proof.
  destruct (audit_log_inv_holds es) as [_ _ _ Hlen Hnew]. split.
  - pose proof (Z.mod_pos_bound (at_sequence (audit_log es)) 100). lia.
  - unfold AuditEntries, wrap_err. cbn. f_equal.
    set (n := if (limit <=? 0) || (500 <? limit) then 100 else limit).
    assert (0 < n ≤ 500) as Hn by (unfold n; destruct (limit <=? 0) eqn:?, (500 <? limit) eqn:?; simpl; lia).
    apply (f_equal (firstn (Z.to_nat n))) in Hnew. rewrite !firstn_firstn, Nat.min_l in Hnew; [done|].
    unfold audit_retention. lia.
Qed.

(** Instants are ordered as text: within a second, later may come earlier. *)
Example audit_order_is_not_chronological :
  let earlier := mkAuditEntry 1 (Second / 10) "" "" "" "" "" 0 in
  let later := mkAuditEntry 2 (Second / 10 + Second / 50) "" "" "" "" "" 0 in
  audit_listing (mkAuditTable 2 [earlier; later]) = [earlier; later].
Proof. vm_compute. reflexivity. Qed.

(** * What requests leave unchanged *)

Section keeps.
Context {W X : Type} (view : W → X) `{Json} `{Unicode} `{UpperCase}.

Definition keeps (h : handler) : Prop := ∀ w : W, view (h w).2 = view w.

Lemma keeps_answer r : keeps (answer r).
Proof. done. Qed.

Lemma keeps_call {A} (m : M W A) k fails :
  read_only view m → (∀ a, keeps (k a)) → (∀ e, keeps (fails e)) → keeps (call m k fails).
Proof.
  intros Hm Hk Hf w. unfold call. destruct (m w) as [[a|e] w1] eqn:E; apply Hm in E; rewrite <- E;
    [apply Hk|apply Hf].
Qed.

Definition steady {A} (m : W → A * W) : Prop := ∀ w, view (m w).2 = view w.

Lemma keeps_ask {A} (m : W → A * W) k : steady m → (∀ a, keeps (k a)) → keeps (ask m k).
Proof.
  intros Hm Hk w. unfold ask. specialize (Hm w). destruct (m w) as [a w1]. simpl in Hm. rewrite <- Hm. apply Hk.
Qed.

Lemma keeps_requirePermission auth p r k :
  (∀ authenticate u pw, auth = Some authenticate → read_only view (authenticate u pw)) →
  (∀ user, keeps (k user)) → keeps (requirePermission auth p r k).
Proof.
  intros Ha Hk. apply keeps_call; [|intros user; by destruct (negb _)|done].
  unfold authenticateBasic. destruct (hr_BasicAuth r) as [[u pw]|], auth as [authenticate|]; eauto using read_only_throw.
Qed.

Lemma keeps_requireAdministrator auth r k :
  (∀ authenticate u pw, auth = Some authenticate → read_only view (authenticate u pw)) →
  (∀ user, keeps (k user)) → keeps (requireAdministrator auth r k).
Proof.
  intros Ha Hk. apply keeps_call; [|intros user; by destruct (negb _)|done].
  unfold authenticateBasic. destruct (hr_BasicAuth r) as [[u pw]|], auth as [authenticate|]; eauto using read_only_throw.
Qed.

Context (sv : services W).

(** The operations that only read. *)
Record reads_keep : Prop := {
  rk_authenticator f u p : sv_authenticator W sv = Some f → read_only view (f u p);
  rk_cache m : sv_cache W sv = Some m → read_only view m;
  rk_imports u : sv_uriImporter W sv = Some u → read_only view (ui_SourceImports W u);
  rk_sources m : sv_sources W sv = Some m → read_only view (sm_ManagedSources W m);
  rk_transfers m : sv_transfers W sv = Some m → read_only view m;
  rk_downloads d : sv_downloads W sv = Some d → read_only view (dm_TrackDownloads W d);
  rk_users u actor : sv_users W sv = Some u → read_only view (um_Users W u actor);
  rk_status m : sv_providerStatus W sv = Some m → steady m;
  rk_preview s add preview id : sv_providerSearch W sv = Some s → se_collections W s = Some (add, preview) →
    read_only view (preview id);
  rk_limits s actor : sv_settings W sv = Some s → read_only view (st_Limits W s actor);
  rk_artists c : sv_catalog W sv = Some c → read_only view (cm_Artists W c);
  rk_aliases c : sv_catalog W sv = Some c → read_only view (cm_ArtistAliases W c);
  rk_track c id : sv_catalog W sv = Some c → read_only view (cm_Track W c id);
  rk_scan c : sv_scans W sv = Some c → steady (sc_Status W c);
}.

(** The operations of everything but the users. *)
Record writes_keep : Prop := {
  wk_torrent f b : sv_torrentImporter W sv = Some f → read_only view (f b);
  wk_import u s : sv_uriImporter W sv = Some u → read_only view (ui_ImportURI W u s);
  wk_pause m id : sv_sources W sv = Some m → read_only view (sm_PauseSource W m id);
  wk_resume m id : sv_sources W sv = Some m → read_only view (sm_ResumeSource W m id);
  wk_pin m id b : sv_sources W sv = Some m → read_only view (sm_PinSource W m id b);
  wk_remove m id b : sv_sources W sv = Some m → read_only view (sm_RemoveSource W m id b);
  wk_cancel d cancel retry id : sv_downloads W sv = Some d → dm_control W d = Some (cancel, retry) →
    read_only view (cancel id);
  wk_retry d cancel retry id : sv_downloads W sv = Some d → dm_control W d = Some (cancel, retry) →
    read_only view (retry id);
  wk_search s q : sv_providerSearch W sv = Some s → read_only view (se_Search W s q);
  wk_add s add id : sv_providerSearch W sv = Some s → se_Add W s = Some add → read_only view (add id);
  wk_album s add preview id : sv_providerSearch W sv = Some s → se_collections W s = Some (add, preview) →
    read_only view (add id);
  wk_limits s actor l : sv_settings W sv = Some s → read_only view (st_UpdateLimits W s actor l);
  wk_alias c id t : sv_catalog W sv = Some c → read_only view (cm_SetArtistAlias W c id t);
  wk_unalias c id : sv_catalog W sv = Some c → read_only view (cm_DeleteArtistAlias W c id);
  wk_patch c id p : sv_catalog W sv = Some c → read_only view (cm_UpdateTrackMetadata W c id p);
  wk_track c id b : sv_libraryCache W sv = Some c → read_only view (lc_PrefetchTrack W c id b);
  wk_cached c id b : sv_libraryCache W sv = Some c → read_only view (lc_PrefetchAlbum W c id b);
  wk_pinned c id b : sv_libraryCache W sv = Some c → read_only view (lc_SetTrackPinned W c id b);
  wk_scan c : sv_scans W sv = Some c → steady (sc_Start W c);
}.

Ltac keeps_op := solve
  [ eauto 3 using rk_authenticator, rk_cache, rk_imports, rk_sources, rk_transfers, rk_downloads, rk_users, rk_preview, rk_limits,
      rk_artists, rk_aliases, rk_track, rk_status, rk_scan
  | eauto 3 using wk_torrent, wk_import, wk_pause, wk_resume, wk_pin, wk_remove, wk_search, wk_add, wk_album, wk_limits, wk_alias,
      wk_unalias, wk_patch, wk_track, wk_cached, wk_pinned, wk_scan, wk_cancel, wk_retry ].

Ltac keeps_tac := repeat first
  [ progress intros
  | apply keeps_requirePermission; [solve [eauto using rk_authenticator]|]
  | apply keeps_requireAdministrator; [solve [eauto using rk_authenticator]|]
  | apply keeps_call; [keeps_op|..] | apply keeps_ask; [keeps_op|] | apply keeps_answer
  | progress unfold fails_with, writeDownloadActionError, writeSourceCollectionError, writeTransferSettingsError,
      writeCatalogManagementError, writeSourceManagementError, writeUserError, search_failed, add_failed, import_failed
  | match goal with
    | |- keeps (match sv_providerSearch W sv ≫= ?f with _ => _ end) => destruct (sv_providerSearch W sv) eqn:?; simpl
    | |- keeps (match ?o with _ => _ end) => destruct o eqn:?
    | |- keeps (let '(_, _) := ?p in _) => destruct p eqn:?
    end ].

Ltac tables :=
  unfold guarded_routes, catalog_routes, library_cache_routes, scan_routes, settings_routes, provider_routes,
    cache_routes, torrent_routes, import_routes, source_routes, transfer_routes, download_routes, user_routes, source_actions;
  repeat apply Forall_app_2;
  repeat match goal with |- context [match ?o with Some _ => _ | None => _ end] => destruct o as [?|] eqn:? end;
  repeat match goal with |- context [let '(_, _) := ?p in _] => destruct p end;
  simpl; repeat constructor.

(** A request that reads does so and no more. *)
Lemma reading_routes_keep : reads_keep →
  Forall (λ x, rt_Method x = "GET" → ∀ id r, keeps (rt_Handle x id r)) (guarded_routes sv).
Proof.
  intros Hr. tables; intros Hmethod; try discriminate Hmethod; clear Hmethod; intros id r; simpl;
    unfold get_artists, get_track, get_scan, get_limits, get_provider_status, get_soulseek_album, get_cache_status, get_imports,
      get_torrents, get_transfers, get_downloads, get_session, get_users; keeps_tac.
Qed.

Definition other_routes : list route :=
  catalog_routes sv ++ library_cache_routes sv ++ scan_routes sv ++ settings_routes sv ++ provider_routes sv ++ cache_routes sv ++
  torrent_routes sv ++ import_routes sv ++ source_routes sv ++ transfer_routes sv ++ download_routes sv.

Lemma other_routes_keep : reads_keep → writes_keep →
  Forall (λ x, ∀ id r, keeps (rt_Handle x id r)) other_routes.
Proof.
  intros Hr Hw. unfold other_routes. tables; intros id r; simpl;
    unfold get_artists, put_artist_alias, delete_artist_alias, get_track, patch_track, post_cache_track, post_cache_album,
      put_track_pin, get_scan, post_scan, get_limits, put_limits, get_provider_status, post_search, post_soulseek_track,
      get_soulseek_album, post_soulseek_album, get_cache_status, post_torrent, post_magnet, get_imports, get_torrents,
      post_action, delete_torrent, get_transfers, get_downloads, download_action; keeps_tac.
Qed.

(** ** What changes the view is a mutation of the API *)

Lemma api_path r l captured :
  match_segments (api l) (hr_Path r) = Some captured →
  (HasPrefix (URL_Path r) "/api/v1/" = true ∨ URL_Path r = "/api/v1").
Proof.
  unfold URL_Path. destruct (hr_Path r) as [|x [|y path]]; simpl; [done|by case_bool_decide|].
  repeat case_bool_decide; try done. subst. intros _. destruct path as [|z path]; [by right|left].
  generalize (Join (z :: path) "/") as t. intros t. by destruct t.
Qed.

Lemma mutation_route rt : In rt (guarded_routes sv) →
  ∃ l, rt_Pattern rt = api l ∧ rt_Method rt ∈ ["GET"; "POST"; "PUT"; "PATCH"; "DELETE"].
Proof.
  revert rt. apply List.Forall_forall. tables; eexists; (split; [reflexivity|]); simpl; set_solver.
Qed.

Lemma other_requests_keep r w : reads_keep →
  isAuditedMutation r = false → view (management_api sv r w).2 = view w.
Proof.
  intros Hr Ha. unfold management_api.
  destruct (serve_routes_cases (public_routes ++ guarded_routes sv) false r w)
    as [(rt & captured & Hin & Hp & Hm & ->)|(_ & resp & -> & _)]; [|done].
  apply in_app_iff in Hin as [Hin|Hin]; [by destruct Hin as [<-|[<-|[]]]|].
  destruct (mutation_route rt Hin) as (l & El & Hmethod). rewrite El in Hp. apply api_path in Hp.
  destruct (decide (rt_Method rt = "GET")) as [Eg|Hget].
  { pose proof (reading_routes_keep Hr) as HF. rewrite List.Forall_forall in HF. by apply (HF rt Hin Eg). }
  exfalso. unfold method_matches in Hm. rewrite orb_true_iff, andb_true_iff, !bool_decide_eq_true in Hm.
  destruct Hm as [Hm|[? _]]; [|done]. unfold isAuditedMutation in Ha. rewrite <- Hm in Ha.
  assert (negb (bool_decide (URL_Path r = "/api/v1")) && negb (HasPrefix (URL_Path r) "/api/v1/") = false) as E.
  { destruct Hp as [-> | ->]; [by rewrite andb_false_r|done]. }
  rewrite E in Ha. apply not_true_iff_false in Ha. apply Ha, existsb_exists.
  exists (rt_Method rt). rewrite bool_decide_eq_true. split; [|done].
  apply list_elem_of_In in Hmethod. simpl in *. intuition congruence.
Qed.
End keeps.

(** * The audit trail *)

Section trail.
Context `{Json} `{Unicode} `{UpperCase} {W X : Type} (view : W → X) (sv : services W).
Context (limit window blockFor : Z).

(** C5. What the audit trail records.  A request through the whole stack either
    is a mutation of the API, and then one insert into the audit log is
    attempted, of an entry with the caller, the operation, the time and
    request identifier and the status that was answered: the entry is in the
    log when the store takes the insert, the log stays as it was when the
    store fails, and in both cases answer, services and limiter are those of
    the same request without the trail (a failed insert is only logged); or it
    is none, and then neither the log nor the state behind the services has
    changed.  The services' own reading operations are assumed to change
    nothing in view ([reads_keep]); nothing is assumed of those that write. *)
Theorem changes_are_audited (x : exchange) (s : server) :
  reads_keep view sv →
  let '(resp, id, s') := serve limit window blockFor (management_api sv) x s in
  if isAuditedMutation (x_request x) then
    ∃ e, ae_Status e = rs_Status resp ∧ ae_Actor e = request_actor (x_request x) ∧
      ae_Method e = hr_Method (x_request x) ∧ ae_Path e = URL_Path (x_request x) ∧
      ae_OccurredAt e = x_audited x ∧ id = Some (ae_RequestID e) ∧
      tables (srv_audit s') =
        match faults (srv_audit s) with
        | Some _ :: _ => tables (srv_audit s)
        | _ => insert_audit e (tables (srv_audit s))
        end ∧
      (let '(resp0, s0) := limiter_Wrap limit window blockFor (management_api sv) (x_arrival x) (x_answered x)
                             (x_request x) s in
       resp = resp0 ∧ srv_services s' = srv_services s0 ∧ srv_limiter s' = srv_limiter s0)
  else id = None ∧ srv_audit s' = srv_audit s ∧ view (srv_services s') = view (srv_services s).
Proof.
  intros Hr. unfold serve, audit_Wrap, limiter_Wrap.
  destruct (isAuditedMutation (x_request x)) eqn:Em; cbn [negb];
    destruct (arrive _ _ _) as [[|retry] l]; try destruct (management_api sv (x_request x) (srv_services s)) as [resp w1] eqn:Ea.
  1,2: unfold AppendAuditEntry, wrap_err, ExecContext, statement; simpl;
    destruct (faults (srv_audit s)) as [|[?|] ?]; eexists (audit_entry (x_drawn x) (x_audited x) (x_request x) _);
    split_and!; reflexivity.
  - split_and!; [done..|]. simpl. pose proof (other_requests_keep view sv (x_request x) (srv_services s) Hr Em) as E.
    by rewrite Ea in E.
  - done.
Qed.
End trail.

(** * User management over HTTP *)

Section users.
Context `{Json} `{UpperCase} `{Unicode} `{Runtime} {W : Type} `{UserStoreLaws W}.
Context (codec : CredentialCodec) (rnd : Z) (md5_hex : string → string) (now : time).

(** [services.UserService] as the handlers use it. *)
Definition user_service : user_manager W :=
  mkUserManager W ListUsers (CreateUser codec rnd now) (UpdatePassword codec rnd) (UpdatePermissions now) DeleteUser.

(** [m] is a call of the service. *)
Definition performs {A} (m : M W A) (c : user_call) : Prop := ∀ w,
  match m w with
  | (Ok _, w') => run_call codec rnd md5_hex c w = (Ok tt, w')
  | (Err e, w') => run_call codec rnd md5_hex c w = (Err e, w')
  end.

Definition changed_by (actor : User) (h : handler) : Prop := ∀ w : W,
  accounts (h w).2 = accounts w ∨
  ∃ c, call_actor c = Some actor ∧ call_effect codec rnd c (accounts w) (accounts (h w).2) ∧
    200 ≤ rs_Status (h w).1 < 300.

Lemma changed_by_call {A} actor (m : M W A) c k :
  call_actor c = Some actor → performs m c →
  (∀ a, ∃ resp, k a = answer resp ∧ 200 ≤ rs_Status resp < 300) → changed_by actor (call m k writeUserError).
Proof.
  intros Hc Hm Hk w. specialize (Hm w). unfold call. destruct (m w) as [[a|e] w1].
  - right. exists c. destruct (Hk a) as (resp & -> & Hs). split_and!; [done| |apply Hs..].
    by eapply run_call_effect.
  - left. apply run_call_fails_clean in Hm. rewrite <- Hm. unfold writeUserError. by repeat case_match.
Qed.

Lemma performs_bind {A} (m : M W A) c :
  run_call codec rnd md5_hex c = (_ ← m; mret tt) → performs m c.
Proof. intros E w. rewrite E. unfold mbind, M_bind. by destruct (m w) as [[a|e] w1]. Qed.

Lemma performs_unit (m : M W unit) c : run_call codec rnd md5_hex c = m → performs m c.
Proof. intros E w. rewrite E. by destruct (m w) as [[[]|e] w1]. Qed.

Lemma changed_by_answer actor r : changed_by actor (answer r).
Proof. intros w. by left. Qed.

(** The caller is the user the service authenticated. *)
Definition authorised_change (r : http_request) (w : W) (x : response * W) : Prop :=
  accounts x.2 = accounts w ∨
  ∃ name password actor w1 c, hr_BasicAuth r = Some (name, password) ∧
    AuthenticatePassword codec name password w = (Ok actor, w1) ∧ call_actor c = Some actor ∧
    call_effect codec rnd c (accounts w) (accounts x.2) ∧ 200 ≤ rs_Status x.1 < 300.

Lemma AuthenticatePassword_read_only name password : read_only accounts (AuthenticatePassword codec name password).
Proof.
  pose proof store_UserCredential_read_only. unfold AuthenticatePassword, authFailed. go_clean.
Qed.

Lemma ListUsers_read_only actor : read_only accounts (ListUsers actor).
Proof. pose proof store_Users_read_only. unfold ListUsers, forbidden. go_clean. Qed.

Lemma authenticated_change r (k : User → handler) w :
  (∀ actor, changed_by actor (k actor)) →
  authorised_change r w
    (call (authenticateBasic (Some (AuthenticatePassword codec)) r) k (λ _, answer authentication_required) w).
Proof.
  intros Hk. unfold call, authenticateBasic. destruct (hr_BasicAuth r) as [[name password]|] eqn:Eb; [|by left].
  destruct (AuthenticatePassword codec name password w) as [[actor|e] w1] eqn:Ea;
    pose proof (AuthenticatePassword_read_only _ _ _ _ _ Ea) as Ew; [|by left].
  destruct (Hk actor w1) as [E|(c & Hc & He & Hs)]; [left; congruence|right].
  exists name, password, actor, w1, c. rewrite <- Ew. done.
Qed.

Lemma requirePermission_change permission r (k : User → handler) w :
  (∀ actor, changed_by actor (k actor)) →
  authorised_change r w (requirePermission (Some (AuthenticatePassword codec)) permission r k w).
Proof.
  intros Hk. apply authenticated_change. intros actor. destruct (negb _); [apply changed_by_answer|auto].
Qed.

Lemma requireAdministrator_change r (k : User → handler) w :
  (∀ actor, changed_by actor (k actor)) →
  authorised_change r w (requireAdministrator (Some (AuthenticatePassword codec)) r k w).
Proof.
  intros Hk. apply authenticated_change. intros actor. destruct (negb _); [apply changed_by_answer|auto].
Qed.

Context (sv : services W).

Lemma user_routes_change : sv_authenticator W sv = Some (AuthenticatePassword codec) → sv_users W sv = Some user_service →
  Forall (λ x, ∀ id r w, authorised_change r w (rt_Handle x id r w)) (user_routes sv).
Proof.
  intros Ha Hu. unfold user_routes. rewrite Hu. repeat (apply Forall_cons; split); try done; intros id r w; simpl;
    unfold get_session, get_users, post_user, put_password, put_permissions, delete_user; rewrite Ha.
  - apply requirePermission_change. intros actor. apply changed_by_answer.
  - apply requirePermission_change. intros actor. apply (changed_by_call _ _ (CallUsers actor)); [done| |by eexists].
    by apply performs_bind.
  - apply requirePermission_change. intros actor.
    destruct (decodeJSON _ _ _) as [[[[username password] role] permissions]|]; [|apply changed_by_answer].
    apply (changed_by_call _ _ (CallCreateUser now actor username password role permissions)); [done| |by eexists].
    by apply performs_bind.
  - apply requirePermission_change. intros actor.
    destruct (decodeJSON _ _ _) as [password|]; [|apply changed_by_answer].
    apply (changed_by_call _ _ (CallUpdatePassword actor id password)); [done| |by eexists]. by apply performs_unit.
  - apply requireAdministrator_change. intros actor.
    destruct (decodeJSON _ _ _) as [permissions|]; [|apply changed_by_answer].
    apply (changed_by_call _ _ (CallUpdatePermissions now actor id permissions)); [done| |by eexists]. by apply performs_bind.
  - apply requirePermission_change. intros actor.
    apply (changed_by_call _ _ (CallDeleteUser actor id)); [done| |by eexists]. by apply performs_unit.
Qed.

(** C4. User management over HTTP.  Through the API with the user service behind
    it, accounts change only by a call of the service whose actor is the user
    the request's own credentials authenticate, with exactly the effect the
    service promises that actor, and the answer reports success; and a server
    that has an administrator keeps one. *)
Theorem accounts_change_by_their_managers (r : http_request) (w : W) :
  sv_authenticator W sv = Some (AuthenticatePassword codec) → sv_users W sv = Some user_service →
  reads_keep accounts sv → writes_keep accounts sv →
  authorised_change r w (management_api sv r w) ∧
  (has_admin (accounts w) → has_admin (accounts (management_api sv r w).2)).
Proof.
  intros Ha Hu Hr Hw.
  assert (authorised_change r w (management_api sv r w)) as Hc.
  { unfold management_api.
    destruct (serve_routes_cases (public_routes ++ guarded_routes sv) false r w)
      as [(rt & captured & Hin & _ & _ & ->)|(_ & resp & -> & _)]; [|by left].
    apply in_app_iff in Hin as [Hin|Hin]; [by destruct Hin as [<-|[<-|[]]]; left|].
    assert (In rt (other_routes sv) ∨ In rt (user_routes sv)) as [Hin'|Hin'].
    { unfold guarded_routes in Hin. unfold other_routes. rewrite !in_app_iff in *. tauto. }
    - left. pose proof (other_routes_keep accounts sv Hr Hw) as HF. rewrite List.Forall_forall in HF. by apply HF.
    - pose proof (user_routes_change Ha Hu) as HF. rewrite List.Forall_forall in HF. by apply HF. }
  split; [done|]. destruct Hc as [->|(? & ? & ? & ? & c & _ & _ & _ & He & _)]; [done|]. by eapply effect_has_admin.
Qed.
End users.

(** * Concrete requests *)

#[local] Existing Instance ascii_unicode.
#[local] Existing Instance stable_runtime.
#[local] Existing Instance toy_store.
#[local] Existing Instance toy_laws.

Definition ascii_upper_case : UpperCase := {| ToUpperRune r := if ascii_lower r then r - 32 else r |}.
#[local] Existing Instance ascii_upper_case.

(** No request of the examples has a body. *)
Definition no_bodies : Json := {|
  decode_alias _ := None; decode_patch _ := None; decode_prefetch _ := None; decode_limits _ := None;
  decode_search _ := None; decode_magnet _ := None; decode_user _ := None; decode_password _ := None;
  decode_permissions _ := None; at_end _ := true;
|}.
#[local] Existing Instance no_bodies.

Definition any_password : CredentialCodec :=
  mkCodec (Encode toy_codec) (λ _ _, Ok tt) (DecryptToken toy_codec).

Definition toy_services : services (database user_tables) :=
  mkServices _ (Some (AuthenticatePassword any_password)) None None None None None None
    (Some (user_service any_password 7 5)) None None None None None None.

Definition delete_bob : http_request :=
  mkHttp "DELETE" ["api"; "v1"; "users"; "bob"] [] (Some ("root", "secret")) "" "10.0.0.1:4711" 0 [].

Lemma toy_reads_keep : reads_keep accounts toy_services.
Proof.
  split; simpl; try discriminate.
  - intros f u p [= <-]. exact (AuthenticatePassword_read_only any_password u p).
  - intros u actor [= <-]. exact (ListUsers_read_only actor).
Qed.

Lemma toy_writes_keep : writes_keep accounts toy_services.
Proof. split; simpl; discriminate. Qed.

Definition toy_server : server := mkServer NewAuthFailureLimiter (mkDatabase empty_audit []) toy_db.
Definition toy_exchange : exchange := mkExchange delete_bob 1 2 "r-1" 3.

(** The same request with a working audit store and with one that refuses the insert. *)
Definition serve_toy (s : server) := serve 10 Minute Minute (management_api toy_services) toy_exchange s.

Definition unlogged_server : server :=
  mkServer NewAuthFailureLimiter (mkDatabase empty_audit [Some (DriverError "disk full")]) toy_db.

Lemma changes_are_audited_witness :
  (rs_Status (serve_toy toy_server).1.1 = 204 ∧
   ∃ e, tables (srv_audit (serve_toy toy_server).2) = insert_audit e empty_audit ∧ ae_Status e = 204 ∧ ae_Actor e = "root") ∧
  (rs_Status (serve_toy unlogged_server).1.1 = 204 ∧
   tables (srv_audit (serve_toy unlogged_server).2) = empty_audit).
Proof.
  pose proof (changes_are_audited accounts toy_services 10 Minute Minute toy_exchange toy_server toy_reads_keep) as X.
  pose proof (changes_are_audited accounts toy_services 10 Minute Minute toy_exchange unlogged_server toy_reads_keep) as Y.
  fold (serve_toy toy_server) in X. fold (serve_toy unlogged_server) in Y.
  assert (rs_Status (serve_toy toy_server).1.1 = 204) as Hs by (vm_compute; reflexivity).
  assert (rs_Status (serve_toy unlogged_server).1.1 = 204) as Ht by (vm_compute; reflexivity).
  destruct (serve_toy toy_server) as [[resp id] s'], (serve_toy unlogged_server) as [[resp' id'] s'']. simpl in *.
  destruct X as (e & He & Ha & _ & _ & _ & _ & Hin & _), Y as (e' & _ & _ & _ & _ & _ & _ & Hout & _). simpl in *.
  split; [split; [exact Hs|]|split; [exact Ht|exact Hout]].
  exists e. split; [exact Hin|]. split; [congruence|]. rewrite Ha. reflexivity.
Defined.

Lemma accounts_change_by_their_managers_witness :
  authorised_change any_password 7 delete_bob toy_db (management_api toy_services delete_bob toy_db) ∧
  rs_Status (management_api toy_services delete_bob toy_db).1 = 204 ∧
  has_admin (accounts (management_api toy_services delete_bob toy_db).2).
Proof.
  destruct (accounts_change_by_their_managers any_password 7 toy_md5 5 toy_services delete_bob toy_db eq_refl eq_refl
    toy_reads_keep toy_writes_keep) as [X Y].
  split; [exact X|]. split; [vm_compute; reflexivity|]. apply Y, toy_has_admin.
Defined.
