(* ===== verification/SubsonicData.v ===== *)
(** The OpenSubsonic API ([api/opensubsonic]): the parameters of a request, the
    answers, and the annotations of the user who asks that are put into them. *)
From stdpp Require Import base gmap strings list.
From Stdlib Require Import ZArith Lia.
From S2P Require Import Prelude GoStrings GoTime Users Music Library PlayQueues Playlists Annotations SearchGroups.

Open Scope Z_scope.
Open Scope go_scope.

(** * Parameters *)

(** [url.Values]: the values of a name in their order. *)
Definition form := list (string * string).

Definition form_All (f : form) (key : string) : list string :=
  map snd (List.filter (λ x, bool_decide (x.1 = key)) f).
Definition form_Get (f : form) (key : string) : string := default "" (head (form_All f key)).
Definition form_Has (f : form) (key : string) : bool := existsb (λ x, bool_decide (x.1 = key)) f.

(** A non-negative number, or [initial] when it is absent. *)
Definition number (f : form) (name : string) (initial : Z) : option Z :=
  let value := form_Get f name in
  if bool_decide (value = "") then Some initial
  else match Atoi value with Some n => if n <? 0 then None else Some n | None => None end.

Definition must_be_number (name : string) : string := "parameter " +:+ name +:+ " must be a non-negative integer".

(** A page: the window's offset and its length, at most 500. *)
Definition page_of (f : form) (offsetName countName : string) (count : Z) : string + Z * Z :=
  match number f countName count with
  | None => inl (must_be_number countName)
  | Some count =>
      match number f offsetName 0 with
      | None => inl (must_be_number offsetName)
      | Some offset => inr (offset, if 500 <? count then 500 else count)
      end
  end.

Definition pageParameters (f : form) : string + Z * Z := page_of f "offset" "size" 10.
Definition searchPageParameters (f : form) (kind : string) : string + Z * Z :=
  page_of f (kind +:+ "Offset") (kind +:+ "Count") 20.
Definition songListPageParameters (f : form) : string + Z * Z := page_of f "offset" "count" 10.

Inductive AlbumOrder :=
  | AlbumOrderNone | AlbumOrderName | AlbumOrderArtist | AlbumOrderNewest | AlbumOrderRandom | AlbumOrderYearAsc | AlbumOrderYearDesc.

Record AlbumListQuery := mkAlbumQuery {
  aq_Offset : Z;
  aq_Limit : Z;
  aq_Order : AlbumOrder;
  aq_FromYear : Z;
  aq_ToYear : Z;
  aq_Genre : string;
}.

Record RandomTracksQuery := mkRandomQuery {
  rt_Limit : Z;
  rt_Genre : string;
  rt_FromYear : Z;
  rt_ToYear : Z;
}.

Definition requiredYear (f : form) (name : string) : string + Z :=
  match Atoi (form_Get f name) with
  | Some year => if year <? 0 then inl (must_be_number name) else inr year
  | None => inl (must_be_number name)
  end.

(** The query, or nothing when the list is known to be empty. *)
Definition albumListQuery (f : form) (offset limit : Z) : string + option AlbumListQuery :=
  let listType := form_Get f "type" in
  let ordered order := inr (Some (mkAlbumQuery offset limit order 0 0 "")) in
  if bool_decide (listType = "alphabeticalByName") then ordered AlbumOrderName
  else if bool_decide (listType = "alphabeticalByArtist") then ordered AlbumOrderArtist
  else if bool_decide (listType = "newest") then ordered AlbumOrderNewest
  else if bool_decide (listType = "random") then ordered AlbumOrderRandom
  else if bool_decide (listType = "byYear") then
    match requiredYear f "fromYear" with
    | inl e => inl e
    | inr fromYear =>
        match requiredYear f "toYear" with
        | inl e => inl e
        | inr toYear =>
            inr (Some (mkAlbumQuery offset limit (if toYear <? fromYear then AlbumOrderYearDesc else AlbumOrderYearAsc) fromYear toYear ""))
        end
    end
  else if existsb (λ t, bool_decide (listType = t)) ["highest"; "frequent"; "recent"] then inr None
  else if bool_decide (listType = "byGenre") then
    let genre := TrimSpace (form_Get f "genre") in
    if bool_decide (genre = "") then inl "required parameter genre is missing"
    else inr (Some (mkAlbumQuery offset limit AlbumOrderNone 0 0 genre))
  else if bool_decide (listType = "") then inl "required parameter type is missing"
  else inl ("unsupported album list type " +:+ listType).

Definition optionalYear (f : form) (name : string) : string + Z :=
  match number f name 0 with Some year => inr year | None => inl (must_be_number name) end.

Definition randomTracksQuery (f : form) : string + RandomTracksQuery :=
  match number f "size" 10 with
  | None => inl (must_be_number "size")
  | Some limit =>
      match optionalYear f "fromYear" with
      | inl e => inl e
      | inr fromYear =>
          match optionalYear f "toYear" with
          | inl e => inl e
          | inr toYear => inr (mkRandomQuery (Z.min limit 500) (TrimSpace (form_Get f "genre")) fromYear toYear)
          end
      end
  end.

Definition annotationRefs (f : form) : list MediaRef :=
  map (mkMedia "") (form_All f "id") ++ map (mkMedia MediaAlbum) (form_All f "albumId") ++
  map (mkMedia MediaArtist) (form_All f "artistId").

(** [strconv.ParseInt(value, 10, 64)]; an [int] has 64 bits too. *)
Definition ParseInt (s : string) : option Z := Atoi s.

(** [time.UnixMilli]. *)
Definition UnixMilli (milliseconds : Z) : time := milliseconds * 10 ^ 6.

Fixpoint scrobbleTimes (values : list string) : option (list time) :=
  match values with
  | [] => Some []
  | value :: rest =>
      match ParseInt value, scrobbleTimes rest with
      | Some milliseconds, Some times => Some (UnixMilli milliseconds :: times)
      | _, _ => None
      end
  end.

Fixpoint playlistIndexes (values : list string) : option (list Z) :=
  match values with
  | [] => Some []
  | value :: rest =>
      match Atoi value, playlistIndexes rest with
      | Some index, Some indexes => if index <? 0 then None else Some (index :: indexes)
      | _, _ => None
      end
  end.

(** * Answers *)

(** What a user's annotations add to an item. *)
Record marks := mkMarks {
  mk_Starred : string;
  mk_UserRating : Z;
  mk_PlayCount : Z;
  mk_Played : string;
}.

Definition no_marks : marks := mkMarks "" 0 0 "".

Record artist := mkArtistItem {
  ar_ID : string;
  ar_Name : string;
  ar_Marks : marks;  (* without [Played] *)
}.

Record child := mkChild {
  ch_ID : string;
  ch_Parent : string;
  ch_Title : string;
  ch_Album : string;
  ch_Artist : string;
  ch_IsDir : bool;
  ch_Track : Z;
  ch_Year : Z;
  ch_Genre : string;
  ch_Duration : Z;
  ch_Size : Z;
  ch_BitRate : Z;
  ch_Suffix : string;
  ch_ContentType : string;
  ch_Type : string;
  ch_SongCount : Z;
  ch_AlbumID : string;
  ch_ArtistID : string;
  ch_DiscNumber : Z;
  ch_CoverArt : string;
  ch_Marks : marks;
}.

Record genre := mkGenre {
  gn_Value : string;
  gn_SongCount : Z;
  gn_AlbumCount : Z;
}.

Record albumID3 := mkAlbumID3 {
  al_ID : string;
  al_Parent : string;
  al_Name : string;
  al_Artist : string;
  al_ArtistID : string;
  al_SongCount : Z;
  al_Duration : Z;
  al_Year : Z;
  al_Genre : string;
  al_CoverArt : string;
  al_Marks : marks;
  al_Songs : list child;
}.

Record artistID3 := mkArtistID3 {
  a3_ID : string;
  a3_Name : string;
  a3_AlbumCount : Z;
  a3_Marks : marks;  (* without [Played] *)
  a3_Albums : list albumID3;
}.

Record playlist := mkPlaylistItem {
  li_ID : string;
  li_Name : string;
  li_Comment : string;
  li_Owner : string;
  li_Public : bool;
  li_Created : string;
  li_Changed : string;
  li_SongCount : Z;
  li_Duration : Z;
  li_Entries : list child;
}.

Record playQueue := mkPlayQueueItem {
  qu_Current : string;
  qu_Position : Z;
  qu_Username : string;
  qu_Changed : string;
  qu_ChangedBy : string;
  qu_Entries : list child;
}.

Record user := mkUserItem {
  us_Username : string;
  us_AdminRole : bool;
  us_CommentRole : bool;
}.

(** [response]: the one element that is set beside the status. *)
Inductive payload :=
  | Failed (code : Z) (message : string)
  | Nothing
  | License
  | UserInfo (u : user)
  | MusicFolders
  | Indexes (l : list (string * list artist))
  | Directory (id name : string) (children : list child)
  | Genres (l : list genre)
  | Artists (l : list (string * list artistID3))
  | ArtistDetail (a : artistID3)
  | AlbumDetail (a : albumID3)
  | AlbumList (l : list child)
  | AlbumList2 (l : list albumID3)
  | SongsByGenre (l : list child)
  | RandomSongs (l : list child)
  | Song (c : child)
  | SearchResult2 (artists : list artist) (albums songs : list child)
  | SearchResult3 (artists : list artistID3) (albums : list albumID3) (songs : list child)
  | PlaylistItems (l : list playlist)
  | PlaylistDetail (p : playlist)
  | StarredItems (artists : list artist) (albums songs : list child)
  | StarredItems2 (artists : list artistID3) (albums : list albumID3) (songs : list child)
  | PlayQueueItem (q : playQueue)
  | Extensions
  | ScanStatus (scanning : bool) (count : Z).

(** [int(d.Seconds())]; the quotient is the exact one below 2^22 seconds. *)
Definition seconds (d : Z) : Z := Z.quot d Second.

(** [time.RFC3339]: no fraction of a second. *)
Definition FormatRFC3339Seconds (t : time) : string := FormatRFC3339Nano (t / Second * Second).

Definition musicFolderID : string := "music".

Definition trackChild (t : Track) : child :=
  mkChild (ID t) (AlbumID t) (Title t) (Album t) (Artist t) false (TrackNumber t) (Year t) (Genre t) (seconds (Duration t))
    (TrackSize t) (BitRate t) (Suffix t) (ContentType t) "music" 0 (AlbumID t) (ArtistID t) (DiscNumber t) (CoverArtID t) no_marks.

Definition trackChildForAlbum (t : Track) (albumID : string) : child :=
  let c := trackChild t in
  mkChild (ch_ID c) albumID (ch_Title c) (ch_Album c) (ch_Artist c) (ch_IsDir c) (ch_Track c) (ch_Year c) (ch_Genre c)
    (ch_Duration c) (ch_Size c) (ch_BitRate c) (ch_Suffix c) (ch_ContentType c) (ch_Type c) (ch_SongCount c) albumID
    (ch_ArtistID c) (ch_DiscNumber c) (ch_CoverArt c) (ch_Marks c).

Definition albumChild (a : AlbumEntry) : child :=
  mkChild (album_ID a) (album_ArtistID a) (album_Name a) (album_Name a) (album_Artist a) true 0 (album_Year a) (album_Genre a)
    (seconds (album_Duration a)) 0 0 "" "" "" (album_SongCount a) "" "" 0 (album_CoverArtID a) no_marks.

(** A directory's entry for an artist. *)
Definition artistChild (a : ArtistEntry) : child :=
  mkChild (artist_ID a) musicFolderID (artist_Name a) "" (artist_Name a) true 0 0 "" 0 0 0 "" "" "" 0 "" "" 0 "" no_marks.

Definition makeAlbumID3 (a : AlbumEntry) : albumID3 :=
  mkAlbumID3 (album_ID a) (album_ArtistID a) (album_Name a) (album_Artist a) (album_ArtistID a) (album_SongCount a)
    (seconds (album_Duration a)) (album_Year a) (album_Genre a) (album_CoverArtID a) no_marks [].

Definition artist_item (a : ArtistEntry) : artist := mkArtistItem (artist_ID a) (artist_Name a) no_marks.
Definition artist_item3 (a : ArtistEntry) : artistID3 := mkArtistID3 (artist_ID a) (artist_Name a) (AlbumCount a) no_marks [].

Definition makePlaylist (p : Playlist) (entries : bool) : playlist :=
  mkPlaylistItem (list_ID p) (Name p) (Comment p) (list_Owner p) (Public p) (FormatRFC3339Seconds (Created p))
    (FormatRFC3339Seconds (list_Changed p)) (SongCount p) (seconds (list_Duration p))
    (if entries then map trackChild (list_Tracks p) else []).

Definition makePlayQueue (q : PlayQueue) : playQueue :=
  mkPlayQueueItem (CurrentID q) (PositionMS q) (Owner q)
    (FormatRFC3339Nano (if IsZero (Changed q) then time_unix_zero else Changed q)) (ChangedBy q) (map trackChild (Tracks q)).

(** The first year and the first genre that say something. *)
Definition albumFromTracks (first : Track) (rest : list Track) : AlbumEntry :=
  let tracks := first :: rest in
  mkAlbum (AlbumID first) (Album first) (AlbumArtist first) (AlbumArtistID first)
    (fold_left (λ year t, if (year =? 0) && negb (Year t =? 0) then Year t else year) tracks (Year first))
    (fold_left (λ g t, if bool_decide (g = "") && negb (bool_decide (Genre t = "")) then Genre t else g) tracks (Genre first))
    (Z.of_nat (length tracks)) (i64_sum (map Duration tracks)) (CoverArtID first).

Definition with_album_ID (id : string) (a : AlbumEntry) : AlbumEntry :=
  mkAlbum id (album_Name a) (album_Artist a) (album_ArtistID a) (album_Year a) (album_Genre a) (album_SongCount a)
    (album_Duration a) (album_CoverArtID a).

Definition with_songs (songs : list child) (a : albumID3) : albumID3 :=
  mkAlbumID3 (al_ID a) (al_Parent a) (al_Name a) (al_Artist a) (al_ArtistID a) (al_SongCount a) (al_Duration a) (al_Year a)
    (al_Genre a) (al_CoverArt a) (al_Marks a) songs.

(** * Indexes *)

Section indexes.
Context `{Unicode} `{UpperCase} `{Runtime}.

Definition indexName (name : string) : string :=
  match runes (TrimSpace name) with
  | value :: _ => if IsLetter value then ToUpper (of_runes [value]) else "#"
  | [] => "#"
  end.

Definition group_by_index {A} (item : ArtistEntry → A) (artists : list ArtistEntry) : gmap string (list A) :=
  fold_left (λ groups a, <[indexName (artist_Name a) := default [] (groups !! indexName (artist_Name a)) ++ [item a]]> groups)
    artists ∅.

(** The groups in the order of their names. *)
Definition index_groups {A} (item : ArtistEntry → A) (artists : list ArtistEntry) : list (string * list A) :=
  let groups := group_by_index item artists in
  map (λ name, (name, default [] (groups !! name))) (sort_slice str_ltb (map fst (map_range groups))).
End indexes.

(** * Annotations *)

#[export] Instance MediaRef_countable : Countable MediaRef.
Proof. refine (inj_countable' (λ m, (media_Type m, media_ID m)) (λ x, mkMedia x.1 x.2) _). by intros []. Defined.

(** [annotationMap]. *)
Definition annotationMap (items : list MediaAnnotation) : gmap MediaRef MediaAnnotation :=
  fold_left (λ m a, <[ann_Media a := a]> m) items ∅.

Definition annotationValues (a : MediaAnnotation) : marks :=
  mkMarks (if IsZero (StarredAt a) then "" else FormatRFC3339Nano (StarredAt a)) (Rating a) (PlayCount a)
    (if IsZero (LastPlayed a) then "" else FormatRFC3339Nano (LastPlayed a)).

Section decorate.
Context (annotations : gmap MediaRef MediaAnnotation).

(** A missing annotation is the zero one. *)
Definition marks_of (ref : MediaRef) : marks :=
  match annotations !! ref with Some a => annotationValues a | None => no_marks end.

Definition without_played (m : marks) : marks := mkMarks (mk_Starred m) (mk_UserRating m) (mk_PlayCount m) "".

Definition child_ref (c : child) : MediaRef :=
  mkMedia (if ch_IsDir c then if HasPrefix (ch_ID c) "artist_" then MediaArtist else MediaAlbum else MediaSong) (ch_ID c).

Definition applyChildAnnotation (c : child) : child :=
  mkChild (ch_ID c) (ch_Parent c) (ch_Title c) (ch_Album c) (ch_Artist c) (ch_IsDir c) (ch_Track c) (ch_Year c) (ch_Genre c)
    (ch_Duration c) (ch_Size c) (ch_BitRate c) (ch_Suffix c) (ch_ContentType c) (ch_Type c) (ch_SongCount c) (ch_AlbumID c)
    (ch_ArtistID c) (ch_DiscNumber c) (ch_CoverArt c) (marks_of (child_ref c)).

Definition applyAlbumAnnotation (a : albumID3) : albumID3 :=
  mkAlbumID3 (al_ID a) (al_Parent a) (al_Name a) (al_Artist a) (al_ArtistID a) (al_SongCount a) (al_Duration a) (al_Year a)
    (al_Genre a) (al_CoverArt a) (marks_of (mkMedia MediaAlbum (al_ID a))) (al_Songs a).

Definition applyArtistID3Annotation (a : artistID3) : artistID3 :=
  mkArtistID3 (a3_ID a) (a3_Name a) (a3_AlbumCount a) (without_played (marks_of (mkMedia MediaArtist (a3_ID a)))) (a3_Albums a).

Definition applyArtistAnnotation (a : artist) : artist :=
  mkArtistItem (ar_ID a) (ar_Name a) (without_played (marks_of (mkMedia MediaArtist (ar_ID a)))).

Definition with_entries (f : list child → list child) (p : playlist) : playlist :=
  mkPlaylistItem (li_ID p) (li_Name p) (li_Comment p) (li_Owner p) (li_Public p) (li_Created p) (li_Changed p) (li_SongCount p)
    (li_Duration p) (f (li_Entries p)).

Definition with_queue_entries (f : list child → list child) (q : playQueue) : playQueue :=
  mkPlayQueueItem (qu_Current q) (qu_Position q) (qu_Username q) (qu_Changed q) (qu_ChangedBy q) (f (qu_Entries q)).

Definition with_albums (f : list albumID3 → list albumID3) (a : artistID3) : artistID3 :=
  mkArtistID3 (a3_ID a) (a3_Name a) (a3_AlbumCount a) (a3_Marks a) (f (a3_Albums a)).

(** [decorateAnnotations], on what [payloadContainsMedia]. *)
Definition decorate (p : payload) : payload :=
  match p with
  | Indexes l => Indexes (map (λ x, (x.1, map applyArtistAnnotation x.2)) l)
  | Directory id name children => Directory id name (map applyChildAnnotation children)
  | Artists l => Artists (map (λ x, (x.1, map applyArtistID3Annotation x.2)) l)
  | ArtistDetail a => ArtistDetail (with_albums (map applyAlbumAnnotation) (applyArtistID3Annotation a))
  | AlbumDetail a => AlbumDetail (let a := applyAlbumAnnotation a in with_songs (map applyChildAnnotation (al_Songs a)) a)
  | AlbumList2 l => AlbumList2 (map applyAlbumAnnotation l)
  | SongsByGenre l => SongsByGenre (map applyChildAnnotation l)
  | RandomSongs l => RandomSongs (map applyChildAnnotation l)
  | Song c => Song (applyChildAnnotation c)
  | SearchResult3 artists albums songs =>
      SearchResult3 (map applyArtistID3Annotation artists) (map applyAlbumAnnotation albums) (map applyChildAnnotation songs)
  | PlaylistDetail p => PlaylistDetail (with_entries (map applyChildAnnotation) p)
  | StarredItems artists albums songs =>
      StarredItems (map applyArtistAnnotation artists) (map applyChildAnnotation albums) (map applyChildAnnotation songs)
  | StarredItems2 artists albums songs =>
      StarredItems2 (map applyArtistID3Annotation artists) (map applyAlbumAnnotation albums) (map applyChildAnnotation songs)
  | PlayQueueItem q => PlayQueueItem (with_queue_entries (map applyChildAnnotation) q)
  | _ => p
  end.
End decorate.

Definition payloadContainsMedia (p : payload) : bool :=
  match p with
  | Indexes _ | Directory _ _ _ | Artists _ | ArtistDetail _ | AlbumDetail _ | AlbumList2 _ | SongsByGenre _ | RandomSongs _
  | Song _ | SearchResult3 _ _ _ | PlaylistDetail _ | StarredItems _ _ _ | StarredItems2 _ _ _ | PlayQueueItem _ => true
  | _ => false
  end.
