(* ===== verification/SubsonicApi.v ===== *)
(** The OpenSubsonic API ([api/opensubsonic]): every endpoint of [ServeHTTP].

    As in [AdminApi], services are operations on an arbitrary state.  The user a
    request is authenticated as, which the code keeps in the request's context,
    is an argument of the handlers. *)
From stdpp Require Import base gmap strings list.
From Stdlib Require Import ZArith Lia.
From S2P Require Import Prelude GoStrings GoTime Users Music Library Services PlayQueues Playlists Annotations Discovery Scans Transcoding SearchGroups SubsonicData.

Open Scope Z_scope.
Open Scope go_scope.

(** * Requests and answers *)

Record http_request := mkHttp {
  hr_Method : string;
  hr_Path : string;
  hr_Form : form;
  hr_FormError : bool;  (* [ParseForm] reports an error; it keeps what it could parse *)
}.

Record TranscodedSource := mkTranscoded {
  tr_Content : bytes;
  tr_Seekable : bool;
  tr_Name : string;
  tr_ContentType : string;
  tr_ModTime : time;
  tr_Cached : bool;
}.

(** What is written: a document with its status, as JSON or as XML; a file
    through [http.ServeContent]; or a stream that is copied. *)
Inductive answer :=
  | Document (status : Z) (json : bool) (p : payload)
  | File (contentType : string) (attachment : option string) (name : string) (modTime : time) (content : bytes)
  | Stream (contentType : string) (attachment : option string) (content : bytes).

(** * Services *)

Record CatalogSearch := mkCatalogSearch {
  cs_Text : string;
  cs_Artists : Z * Z;  (* offset and count *)
  cs_Albums : Z * Z;
  cs_Songs : Z * Z;
}.

Record CatalogSearchResult := mkCatalogResult {
  cs_ArtistsFound : list ArtistEntry;
  cs_AlbumsFound : list AlbumEntry;
  cs_SongsFound : list Track;
}.

Section services.
Context (W : Type).

Record catalog_reader := mkCatalog {
  ca_Artists : M W (list ArtistEntry);
  ca_Artist : string → M W ArtistEntry;
  ca_AlbumsByArtist : string → M W (list AlbumEntry);
  ca_Albums : AlbumListQuery → M W (list AlbumEntry);
  ca_TracksByAlbum : string → M W (list Track);
  ca_Genres : M W (list genre);
  ca_TracksByGenre : string → Z → Z → M W (list Track);
  ca_RandomTracks : RandomTracksQuery → M W (list Track);
  ca_Track : string → M W Track;
  ca_Search : CatalogSearch → M W CatalogSearchResult;
}.

Record playlist_service := mkPlaylists {
  pls_List : string → M W (list Playlist);
  pls_Get : string → string → M W Playlist;
  pls_CreateOrReplace : string → string → string → list string → M W Playlist;
  pls_Update : string → string → PlaylistUpdate → M W Playlist;
  pls_Delete : string → string → M W unit;
}.

Record annotation_service := mkAnnotations {
  ans_All : string → M W (list MediaAnnotation);
  ans_SetStarred : string → list MediaRef → bool → M W unit;
  ans_SetRating : string → MediaRef → Z → M W unit;
  ans_Scrobble : string → list string → list time → bool → M W unit;
  ans_Starred : string → M W StarredLibrary;
}.

Record queue_service := mkQueues {
  pqs_Get : string → M W PlayQueue;
  pqs_Save : string → list string → string → Z → string → M W PlayQueue;
}.

Record discovery_service := mkDiscoveryService {
  dis_Search : SearchQuery → M W (list TrackSource);
  dis_Add : string → M W Track;
  dis_Refresh : Track → M W unit;
  dis_Result : string → W → option TrackSource * W;
}.

(** [Handler]. *)
Record subsonic := mkSubsonic {
  h_catalog : catalog_reader;
  h_streams : string → M W ResolvedSource;
  h_artwork : option (string → Z → M W ResolvedSource);
  h_playlists : playlist_service;
  h_annotations : option annotation_service;
  h_playQueue : option queue_service;
  h_AuthenticatePassword : string → string → M W User;
  h_AuthenticateToken : string → string → string → M W User;
  h_discovery : option discovery_service;
  h_scans : option ((W → bool * W) * (W → Status * W));
  h_transcoder : option (ResolvedSource → AudioTranscodeOptions → M W TranscodedSource);
}.
End services.

(** [hex.DecodeString]. *)
Definition hex_value (b : Z) : option Z :=
  if ascii_digit b then Some (b - 48)
  else if between 97 102 b then Some (b - 87)
  else if between 65 70 b then Some (b - 55)
  else None.

Fixpoint hex_decode (l : list Z) : option (list Z) :=
  match l with
  | [] => Some []
  | a :: b :: rest =>
      match hex_value a, hex_value b, hex_decode rest with
      | Some x, Some y, Some bytes => Some (16 * x + y :: bytes)
      | _, _, _ => None
      end
  | _ => None
  end.

Section handlers.
Context {W : Type} `{Unicode} `{UpperCase} `{Runtime} (h : subsonic W).

Definition handler : Type := W → answer * W.

Definition reply (a : answer) : handler := λ w, (a, w).

Definition call {A} (m : M W A) (k : A → handler) (fails : error → handler) : handler := λ w,
  match m w with
  | (Ok a, w) => k a w
  | (Err e, w) => fails e w
  end.

(** A call whose error is only looked at. *)
Definition attempt {A} (m : M W A) (k : res A → handler) : handler := λ w, let '(r, w) := m w in k r w.

(** ** [write] and [writeError] *)

Definition wants_json (r : http_request) : bool := EqualFold (form_Get (hr_Form r) "f") "json".

Definition document (r : http_request) (status : Z) (p : payload) : handler := reply (Document status (wants_json r) p).

Definition writeError (r : http_request) (status code : Z) (message : string) : handler := document r status (Failed code message).

(** The annotations that cannot be read are left out. *)
Definition write (owner : string) (r : http_request) (status : Z) (p : payload) : handler :=
  match h_annotations W h with
  | Some annotations =>
      if payloadContainsMedia p then
        attempt (ans_All W annotations owner)
          (λ items, document r status (match items with Ok l => decorate (annotationMap l) p | Err _ => p end))
      else document r status p
  | None => document r status p
  end.

Definition catalog_failed (r : http_request) : error → handler := λ _, writeError r 500 0 "Failed to read the music catalog".

Definition missing (r : http_request) (name : string) : handler :=
  writeError r 400 10 ("Required parameter " +:+ name +:+ " is missing").

(** ** Who asks *)

Definition authenticate (r : http_request) : M W User :=
  let username := form_Get (hr_Form r) "u" in
  let provided := form_Get (hr_Form r) "p" in
  let password :=
    if HasPrefix provided "enc:"
    then match hex_decode (bytes_of (TrimPrefix provided "enc:")) with
         | Some decoded => Some (of_bytes decoded)
         | None => None
         end
    else Some provided in
  match password with
  | None => throw (Sentinel ErrAuthenticationFailed)
  | Some password =>
      if negb (bool_decide (password = "")) then h_AuthenticatePassword W h username password
      else h_AuthenticateToken W h username (form_Get (hr_Form r) "t") (form_Get (hr_Form r) "s")
  end.

(** [opensubsonic.fixedAuthenticator]. *)
Definition fixed_AuthenticatePassword (username password : string) (u p : string) : M W User :=
  if bool_decide (u = username) && bool_decide (p = password)
  then mret (mkUser username UserRoleAdmin [] time_zero time_zero)
  else throw (Sentinel ErrAuthenticationFailed).

Definition fixed_AuthenticateToken (md5_hex : string → string) (username password : string) (u token salt : string) : M W User :=
  if negb (bool_decide (u = username)) || bool_decide (salt = "") || bool_decide (token = "")
  then throw (Sentinel ErrAuthenticationFailed)
  else if bool_decide (ToLower token = md5_hex (password +:+ salt))
  then mret (mkUser username UserRoleAdmin [] time_zero time_zero)
  else throw (Sentinel ErrAuthenticationFailed).

Definition canUseClientDiscovery (actor : User) : option (discovery_service W) :=
  match h_discovery W h with
  | Some d => if HasPermission actor PermissionSoulseekClient then Some d else None
  | None => None
  end.

(** ** Users and scans *)

Definition getUser (actor : User) (r : http_request) : handler :=
  let username := TrimSpace (form_Get (hr_Form r) "username") in
  if bool_decide (username = "") then missing r "username"
  else if negb (bool_decide (username = Username actor))
  then writeError r 403 50 "User is not authorized for the given operation"
  else
    write (Username actor) r 200
      (UserInfo (mkUserItem username (IsAdmin actor) (if h_annotations W h then true else false))).

Definition getScanStatus (start : bool) (actor : User) (r : http_request) : handler :=
  match h_scans W h with
  | None => writeError r 500 0 "Music scanner is not configured"
  | Some (Start, status) => λ w,
      let w := if start then (Start w).2 else w in
      let '(s, w) := status w in
      write (Username actor) r 200 (ScanStatus (Scanning s) (status_Count s)) w
  end.

(** ** Browsing *)

Definition getArtists (actor : User) (r : http_request) : handler :=
  call (ca_Artists W (h_catalog W h))
    (λ items, write (Username actor) r 200 (Artists (index_groups artist_item3 items))) (catalog_failed r).

Definition getIndexes (actor : User) (r : http_request) : handler :=
  call (ca_Artists W (h_catalog W h))
    (λ items, write (Username actor) r 200 (Indexes (index_groups artist_item items))) (catalog_failed r).

Definition getGenres (actor : User) (r : http_request) : handler :=
  call (ca_Genres W (h_catalog W h)) (λ items, write (Username actor) r 200 (Genres items)) (catalog_failed r).

Definition getArtist (actor : User) (r : http_request) : handler :=
  let id := form_Get (hr_Form r) "id" in
  if bool_decide (id = "") then missing r "id"
  else
    call (ca_Artist W (h_catalog W h) id)
      (λ artist,
        call (ca_AlbumsByArtist W (h_catalog W h) id)
          (λ albums, write (Username actor) r 200
             (ArtistDetail (mkArtistID3 id (artist_Name artist) (Z.of_nat (length albums)) no_marks (map makeAlbumID3 albums))))
          (catalog_failed r))
      (λ e, if errors_Is ErrNotFound e then writeError r 404 70 "Artist not found" else catalog_failed r e).

Definition getMusicDirectory (actor : User) (r : http_request) : handler :=
  let id := form_Get (hr_Form r) "id" in
  let not_found := writeError r 404 70 "Directory not found" in
  if bool_decide (id = "") then missing r "id"
  else if bool_decide (id = musicFolderID) then
    call (ca_Artists W (h_catalog W h))
      (λ artists, write (Username actor) r 200 (Directory id "Music" (map artistChild artists))) (catalog_failed r)
  else if HasPrefix id "artist_" then
    call (ca_AlbumsByArtist W (h_catalog W h) id)
      (λ albums,
        match albums with
        | [] => not_found
        | first :: _ => write (Username actor) r 200 (Directory id (album_Artist first) (map albumChild albums))
        end) (catalog_failed r)
  else if HasPrefix id "album_" then
    call (ca_TracksByAlbum W (h_catalog W h) id)
      (λ tracks,
        match tracks with
        | [] => not_found
        | first :: _ => write (Username actor) r 200 (Directory id (Album first) (map (λ t, trackChildForAlbum t id) tracks))
        end) (catalog_failed r)
  else not_found.

(** The request asks for another folder than the one there is. *)
Definition other_folder (r : http_request) : bool :=
  form_Has (hr_Form r) "musicFolderId" && negb (bool_decide (form_Get (hr_Form r) "musicFolderId" = musicFolderID)).

(** ** Annotations *)

Definition not_configured (r : http_request) (what : string) : handler := writeError r 500 0 (what +:+ " not configured").

Definition writeAnnotationError (r : http_request) (e : error) : handler :=
  if errors_Is ErrNotFound e then writeError r 404 70 "Media item not found"
  else if errors_Is ErrInvalidAnnotation e then writeError r 400 10 (Error e)
  else writeError r 500 0 "Failed to update media annotation".

Definition if_annotations (r : http_request) (k : annotation_service W → handler) : handler :=
  match h_annotations W h with
  | None => not_configured r "Media annotations are"
  | Some annotations => k annotations
  end.

Definition setStarred (starred : bool) (actor : User) (r : http_request) : handler :=
  if_annotations r (λ annotations,
    call (ans_SetStarred W annotations (Username actor) (annotationRefs (hr_Form r)) starred)
      (λ _, write (Username actor) r 200 Nothing) (writeAnnotationError r)).

Definition setRating (actor : User) (r : http_request) : handler :=
  if_annotations r (λ annotations,
    let id := form_Get (hr_Form r) "id" in
    if bool_decide (id = "") then missing r "id"
    else
      match Atoi (form_Get (hr_Form r) "rating") with
      | Some rating =>
          if (rating <? 0) || (5 <? rating) then writeError r 400 10 "Parameter rating must be between 0 and 5"
          else
            call (ans_SetRating W annotations (Username actor) (mkMedia "" id) rating)
              (λ _, write (Username actor) r 200 Nothing) (writeAnnotationError r)
      | None => writeError r 400 10 "Parameter rating must be between 0 and 5"
      end).

(** [strconv.ParseBool]. *)
Definition ParseBool (s : string) : option bool :=
  if existsb (String.eqb s) ["1"; "t"; "T"; "true"; "TRUE"; "True"] then Some true
  else if existsb (String.eqb s) ["0"; "f"; "F"; "false"; "FALSE"; "False"] then Some false
  else None.

Definition scrobble (actor : User) (r : http_request) : handler :=
  if_annotations r (λ annotations,
    match scrobbleTimes (form_All (hr_Form r) "time") with
    | None => writeError r 400 10 "parameter time must be milliseconds since the Unix epoch"
    | Some times =>
        match (if form_Has (hr_Form r) "submission" then ParseBool (form_Get (hr_Form r) "submission") else Some true) with
        | None => writeError r 400 10 "Parameter submission must be true or false"
        | Some submission =>
            call (ans_Scrobble W annotations (Username actor) (form_All (hr_Form r) "id") times submission)
              (λ _, write (Username actor) r 200 Nothing) (writeAnnotationError r)
        end
    end).

Definition starred_payload (old : bool) (l : StarredLibrary) : payload :=
  if old
  then StarredItems (map artist_item (starred_Artists l)) (map albumChild (starred_Albums l)) (map trackChild (starred_Tracks l))
  else StarredItems2 (map artist_item3 (starred_Artists l)) (map makeAlbumID3 (starred_Albums l)) (map trackChild (starred_Tracks l)).

Definition getStarred (old : bool) (actor : User) (r : http_request) : handler :=
  if other_folder r then write (Username actor) r 200 (starred_payload old (mkStarred [] [] []))
  else
    if_annotations r (λ annotations,
      call (ans_Starred W annotations (Username actor))
        (λ items, write (Username actor) r 200 (starred_payload old items)) (writeAnnotationError r)).

(** ** Albums and songs *)

Definition window {A} (offset limit : Z) (l : list A) : list A :=
  let n := Z.of_nat (length l) in
  let start := Z.min offset n in
  let stop := Z.min (start + limit) n in
  take (Z.to_nat (stop - start)) (drop (Z.to_nat start) l).

(** [getAlbumList] and [getAlbumList2], which differ in the elements only. *)
Definition album_list (elements : list AlbumEntry → payload) (actor : User) (r : http_request) : handler :=
  let f := hr_Form r in
  match pageParameters f with
  | inl message => writeError r 400 10 message
  | inr (offset, limit) =>
      if bool_decide (form_Get f "type" = "starred") then
        if other_folder r then write (Username actor) r 200 (elements [])
        else
          if_annotations r (λ annotations,
            call (ans_Starred W annotations (Username actor))
              (λ starred, write (Username actor) r 200 (elements (window offset limit (starred_Albums starred))))
              (writeAnnotationError r))
      else
        match albumListQuery f offset limit with
        | inl message => writeError r 400 10 message
        | inr None => write (Username actor) r 200 (elements [])
        | inr (Some query) =>
            if other_folder r then write (Username actor) r 200 (elements [])
            else
              call (ca_Albums W (h_catalog W h) query) (λ albums, write (Username actor) r 200 (elements albums)) (catalog_failed r)
        end
  end.

Definition getAlbumList : User → http_request → handler := album_list (λ l, AlbumList (map albumChild l)).
Definition getAlbumList2 : User → http_request → handler := album_list (λ l, AlbumList2 (map makeAlbumID3 l)).

Definition getAlbum (actor : User) (r : http_request) : handler :=
  let id := form_Get (hr_Form r) "id" in
  if bool_decide (id = "") then missing r "id"
  else
    call (ca_TracksByAlbum W (h_catalog W h) id)
      (λ tracks,
        match tracks with
        | [] => writeError r 404 70 "Album not found"
        | first :: rest =>
            write (Username actor) r 200
              (AlbumDetail (with_songs (map (λ t, trackChildForAlbum t id) tracks)
                              (makeAlbumID3 (with_album_ID id (albumFromTracks first rest)))))
        end) (catalog_failed r).

Definition getSongsByGenre (actor : User) (r : http_request) : handler :=
  let genre := TrimSpace (form_Get (hr_Form r) "genre") in
  if bool_decide (genre = "") then missing r "genre"
  else
    match songListPageParameters (hr_Form r) with
    | inl message => writeError r 400 10 message
    | inr (offset, count) =>
        if other_folder r then write (Username actor) r 200 (SongsByGenre [])
        else
          call (ca_TracksByGenre W (h_catalog W h) genre offset count)
            (λ tracks, write (Username actor) r 200 (SongsByGenre (map trackChild tracks))) (catalog_failed r)
    end.

Definition getRandomSongs (actor : User) (r : http_request) : handler :=
  match randomTracksQuery (hr_Form r) with
  | inl message => writeError r 400 10 message
  | inr query =>
      if other_folder r then write (Username actor) r 200 (RandomSongs [])
      else
        call (ca_RandomTracks W (h_catalog W h) query)
          (λ tracks, write (Username actor) r 200 (RandomSongs (map trackChild tracks))) (catalog_failed r)
  end.

(** [discoveredResult] is asked for a song the catalog does not know. *)
Definition getSong (actor : User) (r : http_request) : handler :=
  let id := form_Get (hr_Form r) "id" in
  let not_found := writeError r 404 70 "Song not found" in
  if bool_decide (id = "") then missing r "id"
  else
    call (ca_Track W (h_catalog W h) id) (λ track, write (Username actor) r 200 (Song (trackChild track)))
      (λ e,
        if errors_Is ErrNotFound e then
          match canUseClientDiscovery actor with
          | None => not_found
          | Some d => λ w,
              match dis_Result W d id w with
              | (Some result, w) => write (Username actor) r 200 (Song (trackChild (ts_Track result))) w
              | (None, w) => not_found w
              end
          end
        else catalog_failed r e).

Definition getCoverArt (actor : User) (r : http_request) : handler :=
  let id := form_Get (hr_Form r) "id" in
  let value := form_Get (hr_Form r) "size" in
  if bool_decide (id = "") then missing r "id"
  else
    match (if bool_decide (value = "") then Some 0
           else match Atoi value with Some n => if (n <=? 0) || (2048 <? n) then None else Some n | None => None end) with
    | None => writeError r 400 10 "Parameter size must be between 1 and 2048"
    | Some size =>
        match h_artwork W h with
        | None => not_configured r "Artwork storage is"
        | Some OpenSized =>
            call (OpenSized id size)
              (λ art, reply (File (res_ContentType art) None (res_Name art) (res_ModTime art) (res_Content art)))
              (λ e, if errors_Is ErrNotFound e then writeError r 404 70 "Cover art not found"
                    else writeError r 500 0 "Failed to open cover art")
        end
    end.

(** ** Searching *)

Definition trackSearchIdentity (t : Track) : string :=
  ToLower (Join [TrimSpace (Artist t); TrimSpace (Album t); TrimSpace (Title t)] NUL).

(** The loop over the results: up to [remaining] songs that are not seen. *)
Fixpoint remote_songs (results : list TrackSource) (seen : gset string) (remaining : nat) : list Track :=
  match results, remaining with
  | [], _ | _, O => []
  | result :: rest, S n =>
      let t := ts_Track result in
      let identity := trackSearchIdentity t in
      if bool_decide (ID t = "") || RequiresApproval (Availability result) then remote_songs rest seen remaining
      else if bool_decide (identity ∈ seen) then remote_songs rest seen remaining
      else t :: remote_songs rest ({[identity]} ∪ seen) n
  end.

Definition externalSearchSongs (actor : User) (r : http_request) (local : list Track) (requested : Z) (k : list Track → handler)
    : handler :=
  match canUseClientDiscovery actor with
  | None => k []
  | Some d =>
      let n := Z.of_nat (length local) in
      let query := TrimSpace (form_Get (hr_Form r) "query") in
      let length := Z.of_nat (length (runes query)) in
      if requested <=? n then k []
      else if (length <? 3) || (200 <? length) then k []
      else
        let remaining := requested - n in
        attempt (dis_Search W d (mkQuery query (Z.min (Z.max (remaining * 4) remaining) 200)))
          (λ results,
            match results with
            | Err _ => k []
            | Ok results => k (remote_songs results (list_to_set (map trackSearchIdentity local)) (Z.to_nat remaining))
            end)
  end.

Definition empty_result : CatalogSearchResult := mkCatalogResult [] [] [].

(** [search2] and [search3], which differ in the elements only. *)
Definition search (elements : CatalogSearchResult → list Track → payload) (actor : User) (r : http_request) : handler :=
  let f := hr_Form r in
  let folder := form_Get f "musicFolderId" in
  if negb (form_Has f "query") then missing r "query"
  else if negb (bool_decide (folder = "")) && negb (bool_decide (folder = musicFolderID))
  then write (Username actor) r 200 (elements empty_result [])
  else
    match searchPageParameters f "artist" with
    | inl message => writeError r 400 10 message
    | inr artists =>
        match searchPageParameters f "album" with
        | inl message => writeError r 400 10 message
        | inr albums =>
            match searchPageParameters f "song" with
            | inl message => writeError r 400 10 message
            | inr songs =>
                call (ca_Search W (h_catalog W h) (mkCatalogSearch (form_Get f "query") artists albums songs))
                  (λ result, externalSearchSongs actor r (cs_SongsFound result) songs.2
                     (λ remote, write (Username actor) r 200 (elements result remote)))
                  (λ _, writeError r 500 0 "Failed to search the music catalog")
            end
        end
    end.

Definition search2 : User → http_request → handler :=
  search (λ x remote, SearchResult2 (map artist_item (cs_ArtistsFound x)) (map albumChild (cs_AlbumsFound x))
                        (map trackChild (cs_SongsFound x ++ remote))).
Definition search3 : User → http_request → handler :=
  search (λ x remote, SearchResult3 (map artist_item3 (cs_ArtistsFound x)) (map makeAlbumID3 (cs_AlbumsFound x))
                        (map trackChild (cs_SongsFound x ++ remote))).

(** ** Playlists *)

Definition writePlaylistError (r : http_request) (e : error) : handler :=
  if errors_Is ErrNotFound e then writeError r 404 70 "Playlist or song not found"
  else if errors_Is ErrInvalidPlaylist e then writeError r 400 10 (Error e)
  else writeError r 500 0 "Failed to update playlist".

Definition getPlaylists (actor : User) (r : http_request) : handler :=
  let username := form_Get (hr_Form r) "username" in
  let owner := if bool_decide (username = "") || negb (IsAdmin actor) then Username actor else username in
  call (pls_List W (h_playlists W h) owner)
    (λ items, write (Username actor) r 200 (PlaylistItems (map (λ p, makePlaylist p false) items)))
    (λ _, writeError r 500 0 "Failed to read playlists").

Definition getPlaylist (actor : User) (r : http_request) : handler :=
  let id := form_Get (hr_Form r) "id" in
  if bool_decide (id = "") then missing r "id"
  else
    call (pls_Get W (h_playlists W h) (Username actor) id)
      (λ p, write (Username actor) r 200 (PlaylistDetail (makePlaylist p true))) (writePlaylistError r).

Definition createPlaylist (actor : User) (r : http_request) : handler :=
  let id := form_Get (hr_Form r) "playlistId" in
  let name := form_Get (hr_Form r) "name" in
  if bool_decide (id = "") && bool_decide (TrimSpace name = "") then missing r "name"
  else
    call (pls_CreateOrReplace W (h_playlists W h) (Username actor) id name (form_All (hr_Form r) "songId"))
      (λ p, write (Username actor) r 200 (PlaylistDetail (makePlaylist p true))) (writePlaylistError r).

(** An optional parameter. *)
Definition optional (f : form) (name : string) : option string := if form_Has f name then Some (form_Get f name) else None.

Definition updatePlaylist (actor : User) (r : http_request) : handler :=
  let f := hr_Form r in
  let id := form_Get f "playlistId" in
  if bool_decide (id = "") then missing r "playlistId"
  else
    match (match optional f "public" with
           | None => Some None
           | Some value => match ParseBool value with Some b => Some (Some b) | None => None end
           end) with
    | None => writeError r 400 10 "Parameter public must be true or false"
    | Some public =>
        match playlistIndexes (form_All f "songIndexToRemove") with
        | None => writeError r 400 10 "parameter songIndexToRemove must be a non-negative integer"
        | Some indexes =>
            call (pls_Update W (h_playlists W h) (Username actor) id
                    (mkUpdate (optional f "name") (optional f "comment") public (form_All f "songIdToAdd") indexes))
              (λ _, write (Username actor) r 200 Nothing) (writePlaylistError r)
        end
    end.

Definition deletePlaylist (actor : User) (r : http_request) : handler :=
  let id := form_Get (hr_Form r) "id" in
  if bool_decide (id = "") then missing r "id"
  else
    call (pls_Delete W (h_playlists W h) (Username actor) id) (λ _, write (Username actor) r 200 Nothing) (writePlaylistError r).

(** ** The play queue *)

Definition writePlayQueueError (r : http_request) (e : error) : handler :=
  if errors_Is ErrNotFound e then writeError r 404 70 "Play queue song not found"
  else if errors_Is ErrInvalidPlayQueue e then writeError r 400 10 (Error e)
  else writeError r 500 0 "Failed to update play queue".

Definition getPlayQueue (actor : User) (r : http_request) : handler :=
  match h_playQueue W h with
  | None => not_configured r "Play queue storage is"
  | Some queues =>
      call (pqs_Get W queues (Username actor)) (λ q, write (Username actor) r 200 (PlayQueueItem (makePlayQueue q)))
        (writePlayQueueError r)
  end.

Definition savePlayQueue (actor : User) (r : http_request) : handler :=
  let f := hr_Form r in
  match h_playQueue W h with
  | None => not_configured r "Play queue storage is"
  | Some queues =>
      match number f "position" 0 with
      | None => writeError r 400 10 "Parameter position must be a non-negative integer"
      | Some position =>
          call (pqs_Save W queues (Username actor) (form_All f "id") (form_Get f "current") position (form_Get f "c"))
            (λ _, write (Username actor) r 200 Nothing) (writePlayQueueError r)
      end
  end.

(** ** Streams and downloads *)

(** A source that is gone is looked for again among the peers. *)
Definition refresh_source (d : discovery_service W) (id : string) (opened : res ResolvedSource) : W → res ResolvedSource * W := λ w,
  match opened with
  | Err e =>
      if errors_Is ErrSourceUnavailable e then
        match ca_Track W (h_catalog W h) id w with
        | (Ok track, w) =>
            match dis_Refresh W d track w with
            | (Ok _, w) => h_streams W h id w
            | (Err _, w) => (opened, w)
            end
        | (Err _, w) => (opened, w)
        end
      else (opened, w)
  | Ok _ => (opened, w)
  end.

(** A song the catalog does not know is added; [inr] is an error that is answered. *)
Definition add_discovered (d : discovery_service W) (id : string) (opened : res ResolvedSource)
    : W → (res ResolvedSource + string) * W := λ w,
  match opened with
  | Err e =>
      if errors_Is ErrNotFound e then
        match dis_Add W d id w with
        | (Ok _, w) => let '(opened, w) := h_streams W h id w in (inl opened, w)
        | (Err addErr, w) =>
            (if errors_Is ErrDiscoveryResultNotFound addErr then inl opened else inr "Failed to add the discovered song", w)
        end
      else (inl opened, w)
  | Ok _ => (inl opened, w)
  end.

(** A song that was discovered is added before it is opened. *)
Definition prepare_discovered (d : discovery_service W) (id : string) : W → option string * W := λ w,
  match dis_Result W d id w with
  | (Some _, w) =>
      match dis_Add W d id w with
      | (Ok _, w) => (None, w)
      | (Err _, w) => (Some "Failed to prepare the discovered song", w)
      end
  | (None, w) => (None, w)
  end.

Definition open_song (discovery : option (discovery_service W)) (id : string) : W → (res ResolvedSource + string) * W := λ w,
  match discovery with
  | None => let '(opened, w) := h_streams W h id w in (inl opened, w)
  | Some d =>
      match prepare_discovered d id w with
      | (Some message, w) => (inr message, w)
      | (None, w) =>
          let '(opened, w) := h_streams W h id w in
          let '(opened, w) := refresh_source d id opened w in
          add_discovered d id opened w
      end
  end.

Definition open_failed (r : http_request) (e : error) : handler :=
  if errors_Is ErrNotFound e then writeError r 404 70 "Song not found"
  else if errors_Is ErrSourceUnavailable e then writeError r 503 0 "Song source is not available yet"
  else writeError r 500 0 "Failed to open the song".

Definition shouldTranscode (r : http_request) (resolved : ResolvedSource) : bool :=
  if negb (if h_transcoder W h then true else false) || negb (EqualFold (TrimSpace (form_Get (hr_Form r) "format")) "mp3") then false
  else
    negb (bool_decide (TrimPrefix (ToLower (Ext (res_Name resolved))) "." = "mp3")) &&
    negb (EqualFold (res_ContentType resolved) "audio/mpeg").

Definition attachment (download : bool) (name : string) : option string := if download then Some name else None.

Definition serveTranscodedTrack (transcode : ResolvedSource → AudioTranscodeOptions → M W TranscodedSource) (r : http_request)
    (resolved : ResolvedSource) (download : bool) : handler :=
  let value := TrimSpace (form_Get (hr_Form r) "maxBitRate") in
  match (if bool_decide (value = "") then Some 0
         else match Atoi value with Some n => if (n <? 32) || (320 <? n) then None else Some n | None => None end) with
  | None => writeError r 400 10 "Parameter maxBitRate must be between 32 and 320"
  | Some bitRate =>
      call (transcode resolved (mkTranscodeOptions (form_Get (hr_Form r) "id") "mp3" bitRate))
        (λ t,
          if tr_Seekable t && tr_Cached t
          then reply (File (tr_ContentType t) (attachment download (tr_Name t)) (tr_Name t) (tr_ModTime t) (tr_Content t))
          else reply (Stream (tr_ContentType t) (attachment download (tr_Name t))
                        (if bool_decide (hr_Method r = "HEAD") then [] else tr_Content t)))
        (λ _, writeError r 500 0 "Failed to transcode the song")
  end.

Definition serveTrack (download : bool) (actor : User) (r : http_request) : handler :=
  let id := form_Get (hr_Form r) "id" in
  if bool_decide (id = "") then missing r "id"
  else λ w,
    match open_song (canUseClientDiscovery actor) id w with
    | (inr message, w) => writeError r 500 0 message w
    | (inl (Err e), w) => open_failed r e w
    | (inl (Ok resolved), w) =>
        match (if shouldTranscode r resolved then h_transcoder W h else None) with
        | Some transcode => serveTranscodedTrack transcode r resolved download w
        | None =>
            reply (File (res_ContentType resolved) (attachment download (res_Name resolved)) (res_Name resolved)
                     (res_ModTime resolved) (res_Content resolved)) w
        end
    end.

(** ** [ServeHTTP] *)

Definition endpoints : list (string * (User → http_request → handler)) :=
  [("ping", λ actor r, write (Username actor) r 200 Nothing);
   ("getLicense", λ actor r, write (Username actor) r 200 License);
   ("getUser", getUser);
   ("getMusicFolders", λ actor r, write (Username actor) r 200 MusicFolders);
   ("getIndexes", getIndexes);
   ("getMusicDirectory", getMusicDirectory);
   ("getGenres", getGenres);
   ("getArtists", getArtists);
   ("getArtist", getArtist);
   ("getAlbumList", getAlbumList);
   ("getAlbumList2", getAlbumList2);
   ("getAlbum", getAlbum);
   ("getSongsByGenre", getSongsByGenre);
   ("getRandomSongs", getRandomSongs);
   ("getSong", getSong);
   ("getCoverArt", getCoverArt);
   ("search2", search2);
   ("search3", search3);
   ("getPlaylists", getPlaylists);
   ("getPlaylist", getPlaylist);
   ("createPlaylist", createPlaylist);
   ("updatePlaylist", updatePlaylist);
   ("deletePlaylist", deletePlaylist);
   ("star", setStarred true);
   ("unstar", setStarred false);
   ("setRating", setRating);
   ("scrobble", scrobble);
   ("getStarred", getStarred true);
   ("getStarred2", getStarred false);
   ("getPlayQueue", getPlayQueue);
   ("savePlayQueue", savePlayQueue);
   ("getOpenSubsonicExtensions", λ actor r, write (Username actor) r 200 Extensions);
   ("getScanStatus", getScanStatus false);
   ("startScan", getScanStatus true);
   ("stream", serveTrack false);
   ("download", serveTrack true)].

Definition dispatch (endpoint : string) : option (User → http_request → handler) :=
  snd <$> List.find (λ x, bool_decide (x.1 = endpoint)) endpoints.

Definition ServeHTTP (r : http_request) : handler :=
  if hr_FormError r then writeError r 400 10 "Invalid request parameters"
  else
    call (authenticate r)
      (λ user,
        match dispatch (TrimSuffix (Base (hr_Path r)) ".view") with
        | Some endpoint => endpoint user r
        | None => writeError r 404 0 "Endpoint not implemented"
        end)
      (λ _, writeError r 401 40 "Wrong username or password").
End handlers.
