(* ===== verification/SubsonicTheorems.v ===== *)
(** What requests to the OpenSubsonic API may do, and what they show. *)
From stdpp Require Import base gmap strings list relations sorting.
From Stdlib Require Import ZArith Lia.
From S2P Require Import Prelude GoStrings GoTime Sql Users Music Library LibraryTheorems Services PlayQueues Playlists Annotations Discovery Scans Transcoding SearchGroups SubsonicData SubsonicApi.

Open Scope Z_scope.
Open Scope go_scope.

(** * Requests do what their user may do *)

Section acts.
Context {W : Type} `{Unicode} `{UpperCase} `{Runtime} (h : subsonic W).
(** [R w w']: what happened from [w] to [w'] is allowed. *)
Context (R : W → W → Prop) `{!PreOrder R}.

Definition within {A} (m : M W A) : Prop := ∀ w r w', m w = (r, w') → R w w'.
Definition within_pure {A} (m : W → A * W) : Prop := ∀ w, R w (m w).2.
Definition good (k : handler) : Prop := ∀ w : W, R w (k w).2.

Lemma good_reply a : good (reply a).
Proof. intros w. reflexivity. Qed.

Lemma good_call {A} (m : M W A) k fails :
  within m → (∀ a, good (k a)) → (∀ e, good (fails e)) → good (call m k fails).
Proof.
  intros Hm Hk Hf w. unfold call. destruct (m w) as [[a|e] w1] eqn:E; (etransitivity; [by eapply Hm|]); [apply Hk|apply Hf].
Qed.

Lemma good_attempt {A} (m : M W A) k : within m → (∀ r, good (k r)) → good (attempt m k).
Proof. intros Hm Hk w. unfold attempt. destruct (m w) as [r w1] eqn:E. etransitivity; [by eapply Hm|apply Hk]. Qed.

(** The operations on what belongs to a user, as a request of [actor] calls them. *)
Record stores_allowed (actor : User) : Prop := {
  ok_List owner : owner = Username actor ∨ IsAdmin actor = true → within (pls_List W (h_playlists W h) owner);
  ok_Get id : within (pls_Get W (h_playlists W h) (Username actor) id);
  ok_CreateOrReplace id name l : within (pls_CreateOrReplace W (h_playlists W h) (Username actor) id name l);
  ok_Update id u : within (pls_Update W (h_playlists W h) (Username actor) id u);
  ok_Delete id : within (pls_Delete W (h_playlists W h) (Username actor) id);
  ok_All s : h_annotations W h = Some s → within (ans_All W s (Username actor));
  ok_SetStarred s l b : h_annotations W h = Some s → within (ans_SetStarred W s (Username actor) l b);
  ok_SetRating s m n : h_annotations W h = Some s → within (ans_SetRating W s (Username actor) m n);
  ok_Scrobble s l t b : h_annotations W h = Some s → within (ans_Scrobble W s (Username actor) l t b);
  ok_Starred s : h_annotations W h = Some s → within (ans_Starred W s (Username actor));
  ok_queue s : h_playQueue W h = Some s → within (pqs_Get W s (Username actor));
  ok_Save s l c n by_ : h_playQueue W h = Some s → within (pqs_Save W s (Username actor) l c n by_);
}.

(** The other operations; discovery only with the capability. *)
Record rest_allowed (actor : User) : Prop := {
  ok_Artists : within (ca_Artists W (h_catalog W h));
  ok_Artist id : within (ca_Artist W (h_catalog W h) id);
  ok_AlbumsByArtist id : within (ca_AlbumsByArtist W (h_catalog W h) id);
  ok_Albums q : within (ca_Albums W (h_catalog W h) q);
  ok_TracksByAlbum id : within (ca_TracksByAlbum W (h_catalog W h) id);
  ok_Genres : within (ca_Genres W (h_catalog W h));
  ok_TracksByGenre g o n : within (ca_TracksByGenre W (h_catalog W h) g o n);
  ok_RandomTracks q : within (ca_RandomTracks W (h_catalog W h) q);
  ok_Track id : within (ca_Track W (h_catalog W h) id);
  ok_Search q : within (ca_Search W (h_catalog W h) q);
  ok_streams id : within (h_streams W h id);
  ok_artwork f id n : h_artwork W h = Some f → within (f id n);
  ok_discover d q : canUseClientDiscovery h actor = Some d → within (dis_Search W d q);
  ok_Add d id : canUseClientDiscovery h actor = Some d → within (dis_Add W d id);
  ok_Refresh d t : canUseClientDiscovery h actor = Some d → within (dis_Refresh W d t);
  ok_Result d id : canUseClientDiscovery h actor = Some d → within_pure (dis_Result W d id);
  ok_scans s status : h_scans W h = Some (s, status) → within_pure s ∧ within_pure status;
  ok_transcoder f s o : h_transcoder W h = Some f → within (f s o);
}.

Section actor.
Context (actor : User) (Hrest : rest_allowed actor) (Hstores : stores_allowed actor).

Ltac op := solve
  [ eauto using ok_Artists, ok_Artist, ok_AlbumsByArtist, ok_Albums, ok_TracksByAlbum, ok_Genres, ok_TracksByGenre, ok_RandomTracks,
      ok_Track, ok_Search, ok_streams, ok_artwork, ok_List, ok_Get, ok_CreateOrReplace, ok_Update, ok_Delete, ok_All
  | eauto using ok_SetStarred, ok_SetRating, ok_Scrobble, ok_Starred, ok_queue, ok_Save, ok_discover, ok_Add, ok_Refresh, ok_transcoder ].

Lemma good_write r status p : good (write h (Username actor) r status p).
Proof.
  unfold write, document. destruct (h_annotations W h) eqn:E; [|apply good_reply].
  destruct (payloadContainsMedia p); [|apply good_reply]. apply good_attempt; [op|]. intros. apply good_reply.
Qed.

Ltac good_tac := repeat first
  [ progress intros
  | apply good_call; [op|..] | apply good_attempt; [op|] | apply good_write | apply good_reply
  | progress unfold missing, not_configured, writeError, document, catalog_failed, writeAnnotationError, writePlaylistError,
      writePlayQueueError, open_failed, if_annotations
  | match goal with
    | |- good (match ?o with _ => _ end) => destruct o eqn:?
    | |- good (let '(_, _) := ?p in _) => destruct p eqn:?
    end ].

Lemma good_getScanStatus start r : good (getScanStatus h start actor r).
Proof.
  unfold getScanStatus. destruct (h_scans W h) as [[s status]|] eqn:E; [|good_tac].
  destruct (ok_scans _ Hrest _ _ E) as [Hs Hst]. intros w.
  set (w1 := if start then (s w).2 else w). assert (R w w1) as Hw1 by (unfold w1; destruct start; [apply Hs|reflexivity]).
  pose proof (Hst w1) as Hw2. destruct (status w1) as [st w2]. cbn [snd] in Hw2.
  etransitivity; [exact Hw1|]. etransitivity; [exact Hw2|]. apply good_write.
Qed.

Lemma good_getSong r : good (getSong h actor r).
Proof.
  unfold getSong. case_bool_decide; [good_tac|]. apply good_call; [op|good_tac|]. intros e.
  destruct (errors_Is ErrNotFound e); [|good_tac]. destruct (canUseClientDiscovery h actor) as [d|] eqn:Ed; [|good_tac].
  intros w. pose proof (ok_Result _ Hrest _ (form_Get (hr_Form r) "id") Ed w) as Hw.
  destruct (dis_Result W d _ w) as [[result|] w1]; (etransitivity; [exact Hw|]); [apply good_write|apply good_reply].
Qed.

Lemma good_external r local n k : (∀ l, good (k l)) → good (externalSearchSongs h actor r local n k).
Proof. intros Hk. unfold externalSearchSongs. good_tac; apply Hk. Qed.

Lemma good_getPlaylists r : good (getPlaylists h actor r).
Proof.
  unfold getPlaylists. apply good_call; [|good_tac|good_tac]. apply (ok_List _ Hstores).
  destruct (IsAdmin actor); [by right|left]. by rewrite orb_true_r.
Qed.

(** ** Opening a song *)

Lemma within_refresh d id opened : canUseClientDiscovery h actor = Some d → within_pure (refresh_source h d id opened).
Proof.
  intros Ed w. unfold refresh_source. destruct opened as [s|e]; [reflexivity|].
  destruct (errors_Is ErrSourceUnavailable e); [|reflexivity].
  destruct (ca_Track W (h_catalog W h) id w) as [[t|e1] w1] eqn:Et; (etransitivity; [by eapply (ok_Track _ Hrest)|]); [|reflexivity].
  destruct (dis_Refresh W d t w1) as [[[]|e1] w2] eqn:Er; (etransitivity; [by eapply (ok_Refresh _ Hrest)|]); [|reflexivity].
  destruct (h_streams W h id w2) as [r w3] eqn:Eo. by eapply (ok_streams _ Hrest).
Qed.

Lemma within_add d id opened : canUseClientDiscovery h actor = Some d → within_pure (add_discovered h d id opened).
Proof.
  intros Ed w. unfold add_discovered. destruct opened as [s|e]; [reflexivity|].
  destruct (errors_Is ErrNotFound e); [|reflexivity].
  destruct (dis_Add W d id w) as [[t|e1] w1] eqn:Ea; (etransitivity; [by eapply (ok_Add _ Hrest)|]); [|reflexivity].
  destruct (h_streams W h id w1) as [r w2] eqn:Eo. by eapply (ok_streams _ Hrest).
Qed.

Lemma within_prepare d id : canUseClientDiscovery h actor = Some d → within_pure (prepare_discovered d id).
Proof.
  intros Ed w. unfold prepare_discovered. pose proof (ok_Result _ Hrest d id Ed w) as Hw.
  destruct (dis_Result W d id w) as [[result|] w1]; [|exact Hw]. etransitivity; [exact Hw|]. cbn [snd].
  destruct (dis_Add W d id w1) as [[t|e1] w2] eqn:Ea; by eapply (ok_Add _ Hrest).
Qed.

Lemma within_open id : within_pure (open_song h (canUseClientDiscovery h actor) id).
Proof.
  intros w. unfold open_song. destruct (canUseClientDiscovery h actor) as [d|] eqn:Ed; cycle 1.
  { destruct (h_streams W h id w) as [r w1] eqn:Eo. by eapply (ok_streams _ Hrest). }
  pose proof (within_prepare d id Ed w) as Hp. destruct (prepare_discovered d id w) as [[message|] w1]; [exact Hp|].
  cbn [snd] in Hp. destruct (h_streams W h id w1) as [r w2] eqn:Eo. apply (ok_streams _ Hrest) in Eo.
  pose proof (within_refresh d id r Ed w2) as Hr. destruct (refresh_source h d id r w2) as [r3 w3]. cbn [snd] in Hr.
  etransitivity; [exact Hp|]. etransitivity; [exact Eo|]. etransitivity; [exact Hr|]. by apply within_add.
Qed.

Lemma good_serveTrack download r : good (serveTrack h download actor r).
Proof.
  unfold serveTrack. case_bool_decide; [good_tac|]. intros w. pose proof (within_open (form_Get (hr_Form r) "id") w) as Hw.
  destruct (open_song _ _ _ w) as [[[resolved|e]|message] w1]; (etransitivity; [exact Hw|]); cbn [snd].
  - destruct (if shouldTranscode h r resolved then h_transcoder W h else None) as [f|] eqn:Ef; [|apply good_reply].
    assert (h_transcoder W h = Some f) as Ht by (by destruct (shouldTranscode h r resolved)).
    apply (fun X : good _ => X w1). unfold serveTranscodedTrack. good_tac.
  - apply (fun X : good _ => X w1). good_tac.
  - apply good_reply.
Qed.

Lemma endpoints_good : Forall (λ x, ∀ r, good (x.2 actor r)) (endpoints h).
Proof.
  unfold endpoints. repeat (apply Forall_cons; split); try done; cbn [snd]; intros r;
    first
      [ apply good_getScanStatus | apply good_getSong | apply good_serveTrack | apply good_getPlaylists
      | unfold search2, search3, search; good_tac; apply good_external; good_tac
      | unfold getUser, getIndexes, getMusicDirectory, getGenres, getArtists, getArtist, getAlbumList, getAlbumList2, album_list,
          getAlbum, getSongsByGenre, getRandomSongs, getCoverArt, getPlaylist, createPlaylist, updatePlaylist,
          deletePlaylist, setStarred, setRating, scrobble, getStarred, getPlayQueue, savePlayQueue; solve [good_tac] ].
Qed.
End actor.

(** A request: refused, or carried out for the user it authenticates. *)
Lemma ServeHTTP_within r w :
  hr_FormError r = false →
  match authenticate h r w with
  | (Ok actor, w1) => rest_allowed actor → stores_allowed actor → R w1 (ServeHTTP h r w).2
  | (Err _, w1) => ServeHTTP h r w = (Document 401 (wants_json r) (Failed 40 "Wrong username or password"), w1)
  end.
Proof.
  intros Hf. unfold ServeHTTP, call. rewrite Hf. destruct (authenticate h r w) as [[actor|e] w1]; [|done].
  intros Hrest Hstores. unfold dispatch. destruct (List.find _ (endpoints h)) as [x|] eqn:Ex; [|apply good_reply].
  apply find_some in Ex as [Hin _]. pose proof (endpoints_good actor Hrest Hstores) as HF. rewrite List.Forall_forall in HF. by apply HF.
Qed.
End acts.

(** * The stores of playlists, play queues and annotations *)

Section stores.
Context `{Unicode} `{UpperCase} `{Runtime} {E : Type} (newID : res string) (now : time).
#[local] Existing Instance sqlTrackFinder.
#[local] Existing Instance sqlPlaylistStore.
#[local] Existing Instance sqlPlayQueueStore.
#[local] Existing Instance sqlAnnotationCatalog.
#[local] Existing Instance sqlAnnotationStore.

(** The database, beside everything else the server has. *)
Notation world := (db * E)%type.

Definition on_db {A} (m : M db A) : M world A := zoom fst (λ d w, (d, snd w)) m.

(** The handler's services on the database. *)
Definition db_playlists : playlist_service world :=
  mkPlaylists world (λ owner, on_db (ListPlaylists owner)) (λ owner id, on_db (GetPlaylist owner id))
    (λ owner id name songs, on_db (CreateOrReplace newID now owner id name songs))
    (λ owner id update, on_db (UpdatePlaylist now owner id update)) (λ owner id, on_db (DeletePlaylist owner id)).

Definition db_annotations : annotation_service world :=
  mkAnnotations world (λ owner, on_db (store_MediaAnnotations owner)) (λ owner refs starred, on_db (SetStarred now owner refs starred))
    (λ owner ref rating, on_db (SetRating owner ref rating))
    (λ owner ids times submission, on_db (Scrobble now owner ids times submission))
    (λ owner, on_db (x ← Starred owner; mret x.1)).

Definition db_queues : queue_service world :=
  mkQueues world (λ owner, on_db (GetQueue owner))
    (λ owner ids current position client, on_db (SaveQueue now owner ids current position client)).

Definition with_db_stores (h : subsonic world) : subsonic world :=
  mkSubsonic world (h_catalog _ h) (h_streams _ h) (h_artwork _ h) db_playlists (Some db_annotations) (Some db_queues)
    (h_AuthenticatePassword _ h) (h_AuthenticateToken _ h) (h_discovery _ h) (h_scans _ h) (h_transcoder _ h).

(** Everything that belongs to another user is as before.  (An identifier that
    is drawn for a new playlist is assumed not to be in use.) *)
Record others_kept (u : string) (t t' : library) : Prop := {
  kept_playlists k row : newID ≠ Ok k → pl_owner row ≠ u → playlists t !! k = Some row ↔ playlists t' !! k = Some row;
  kept_queues o : o ≠ u → play_queues t' !! o = play_queues t !! o;
  kept_annotations k : k.1.1 ≠ u → row_of (media_annotations t') k = row_of (media_annotations t) k;
}.

Definition touches (u : string) (w w' : world) : Prop :=
  library_ok (tables w.1) → library_ok (tables w'.1) ∧ others_kept u (tables w.1) (tables w'.1).

#[export] Instance touches_preorder u : PreOrder (touches u).
Proof.
  split.
  - intros w Hok. split; [done|]. by split.
  - intros w1 w2 w3 H12 H23 Hok. destruct (H12 Hok) as [Hok2 [P1 Q1 A1]]. destruct (H23 Hok2) as [Hok3 [P2 Q2 A2]].
    split; [done|]. split.
    + intros k row Hk Hu. by rewrite P1, P2.
    + intros o Ho. by rewrite Q2, Q1.
    + intros k Hk. by rewrite A2, A1.
Qed.

Lemma within_on_db {A} u (m : M db A) :
  (∀ d r d', m d = (r, d') → library_ok (tables d) → library_ok (tables d') ∧ others_kept u (tables d) (tables d')) →
  within (touches u) (on_db m).
Proof.
  intros Hm w r w' Ew Hok. unfold on_db, zoom in Ew. destruct (m w.1) as [r1 d1] eqn:Em.
  injection Ew as _ <-. by eapply Hm.
Qed.

Lemma within_read {A} u (m : M db A) : read_only tables m → within (touches u) (on_db m).
Proof.
  intros Hm. apply within_on_db. intros d r d' Ed Hok. rewrite (Hm _ _ _ Ed). split; [done|]. by split.
Qed.

Lemma library_ok_with_playlists f t : library_ok t → library_ok (with_playlists f t).
Proof. intros [? ? ? ?]. by split. Qed.

Lemma library_ok_with_queues f t : library_ok t → library_ok (with_queues f t).
Proof. intros [? ? ? ?]. by split. Qed.

Lemma library_ok_with_annotations f t : library_ok t → library_ok (with_annotations f t).
Proof. intros [? ? ? ?]. by split. Qed.

(** A change of one playlist of the user's own, or of a new one. *)
Lemma own_playlist_kept u t k f :
  newID = Ok k ∨ (∃ old, playlists t !! k = Some old ∧ pl_owner old = u) →
  (∀ row, f = Some row → pl_owner row = u) →
  others_kept u t (with_playlists (partial_alter (λ _, f) k) t).
Proof.
  intros Hk Hf. split; [|done|done]. intros k' row Hk' Hu. cbn.
  destruct (decide (k' = k)) as [->|Hne]; [|by rewrite lookup_partial_alter_ne].
  rewrite lookup_partial_alter_eq. destruct Hk as [?|(old & -> & Ho)]; [done|].
  split; [by intros [= ->]|]. intros E1. by apply Hf in E1.
Qed.

Lemma within_changed {A} u (m : M db A) :
  fails_clean tables m →
  (∀ d a d', library_ok (tables d) → m d = (Ok a, d') → library_ok (tables d') ∧ others_kept u (tables d) (tables d')) →
  within (touches u) (on_db m).
Proof.
  intros Hc Hm. apply within_on_db. intros d [a|e] d' Ed Hok; [by eapply Hm|].
  rewrite (Hc _ _ _ Ed). split; [done|]. by split.
Qed.

Lemma CreateOrReplace_within u id name songs :
  within (touches u) (on_db (CreateOrReplace newID now u id name songs)).
Proof.
  apply within_changed; [apply CreateOrReplace_clean|]. intros d p d' Hok Ed.
  apply CreateOrReplace_Ok in Ed as (row & k & -> & Ho & Hk); [|done]. split; [by apply library_ok_with_playlists|].
  apply (own_playlist_kept u _ k (Some row)); [|by intros ? [= <-]].
  destruct Hk as [[_ ?]|(-> & old & ? & ?)]; [by left|right; eauto].
Qed.

Lemma UpdatePlaylist_within u id up : within (touches u) (on_db (UpdatePlaylist now u id up)).
Proof.
  apply within_changed; [apply UpdatePlaylist_clean|]. intros d p d' Hok Ed.
  pose proof (playlist_update_is_exact _ _ _ _ _ _ _ Hok Ed) as X. cbn in X.
  destruct X as (old & name & added & Hold & Ho & _ & _ & _ & _ & _ & ->). split; [by apply library_ok_with_playlists|].
  eapply (own_playlist_kept u _ id (Some _)); [right; eauto|]. by intros ? [= <-].
Qed.

Lemma DeletePlaylist_within u id : within (touches u) (on_db (DeletePlaylist u id)).
Proof.
  apply within_on_db. intros d r d' Ed Hok. unfold DeletePlaylist, mbind, M_bind in Ed.
  assert (∀ t, t = tables d → library_ok t ∧ others_kept u (tables d) t) as Hsame by (intros t ->; split; [done|by split]).
  destruct (owned u id d) as [[p|e] d1] eqn:E1.
  2: { injection Ed as _ <-. apply Hsame. by eapply owned_read_only. }
  apply owned_Ok in E1 as (T & old & Hold & Ho & _). unfold store_DeletePlaylist in Ed; cbn in Ed.
  unfold sqlDeletePlaylist, mbind, M_bind, wrap_err in Ed. destruct (statement _ d1) as [[n|e] d2] eqn:E2.
  - apply statement_Ok in E2. rewrite T, Hold in E2. injection E2 as <- E2. cbn in Ed.
    injection Ed as _ <-. rewrite <- E2. split; [by apply library_ok_with_playlists|].
    apply (own_playlist_kept u _ id None); [right; eauto|done].
  - injection Ed as _ <-. apply Hsame. apply statement_clean in E2. by rewrite E2, T.
Qed.

Lemma annotation_within u c : within (touches u) (on_db (run_annotation_call u c)).
Proof.
  apply within_changed; [apply annotation_call_clean|]. intros d x d' Hok Ed.
  apply annotation_call_Ok in Ed as [T|(d1 & l & T & Hl & Ed)]; [rewrite T; split; [done|by split]|].
  apply store_update_Ok in Ed as (Hrow & _ & T'). rewrite T in *. rewrite T'. split; [by apply library_ok_with_annotations|].
  split; [done|done|]. intros k Hk. cbn. rewrite Hrow. by eapply apply_updates_other.
Qed.

Lemma find_Track_read_only id : read_only tables (find_Track (W := db) id).
Proof. unfold find_Track, sqlTrackFinder, getTrack, resolveTrackID. go_clean. Qed.

Lemma resolve_queue_read_only current ids found : read_only tables (resolve_queue (W := db) current ids found).
Proof.
  pose proof find_Track_read_only. revert found.
  induction ids as [|i ids IH]; intros found; cbn [resolve_queue]; unfold invalidPlayQueue; go_clean.
Qed.

Lemma SaveQueue_clean u ids current position client :
  fails_clean tables (SaveQueue (W := db) now u ids current position client).
Proof.
  pose proof resolve_queue_read_only. unfold SaveQueue, invalidPlayQueue.
  repeat match goal with |- fails_clean _ (if ?b then _ else _) => destruct b end;
    try (apply fails_clean_read_only; by eauto with go).
  cbv zeta. repeat match goal with |- fails_clean _ (if ?b then _ else _) => destruct b end;
    try (apply fails_clean_read_only; by eauto with go).
  apply fails_clean_bind; [done|]. intros x. destruct (negb _); [apply fails_clean_read_only; by eauto with go|].
  apply fails_clean_ret, transaction_clean.
Qed.

Lemma SaveQueue_within u ids current position client :
  within (touches u) (on_db (SaveQueue now u ids current position client)).
Proof.
  apply within_changed; [apply SaveQueue_clean|]. intros d q d' Hok Ed.
  apply SaveQueue_Ok in Ed as (_ & _ & _ & _ & _ & _ & _ & ->); [|done]. split; [by apply library_ok_with_queues|].
  split; [done| |done]. intros o Ho. cbn. by rewrite lookup_insert_ne.
Qed.

(** ** Reading *)

Lemma ListPlaylists_read_only owner : read_only tables (ListPlaylists (W := db) owner).
Proof. unfold ListPlaylists, store_Playlists, sqlPlaylistStore, sqlPlaylists. go_clean. Qed.

Lemma GetPlaylist_read_only owner id : read_only tables (GetPlaylist (W := db) owner id).
Proof. pose proof sqlPlaylist_read_only. unfold GetPlaylist, store_Playlist, sqlPlaylistStore. go_clean. Qed.

Lemma GetQueue_read_only owner : read_only tables (GetQueue (W := db) owner).
Proof.
  assert (read_only tables (sqlPlayQueue owner)) as Hq by (unfold sqlPlayQueue; go_clean).
  unfold GetQueue, store_PlayQueue, sqlPlayQueueStore. go_clean.
Qed.

Lemma store_MediaAnnotations_read_only owner : read_only tables (store_MediaAnnotations (W := db) owner).
Proof. unfold store_MediaAnnotations, sqlAnnotationStore, sqlMediaAnnotations. go_clean. Qed.

Lemma starred_loop_read_only items acc : read_only tables (starred_loop (W := db) items acc).
Proof.
  pose proof ann_Track_read_only. pose proof ann_Artist_read_only. pose proof ann_TracksByAlbum_read_only.
  revert acc. induction items as [|a items IH]; intros acc; cbn [starred_loop]; go_clean.
Qed.

Lemma Starred_read_only owner : read_only tables (x ← Starred (W := db) owner; mret x.1).
Proof.
  pose proof store_MediaAnnotations_read_only. pose proof starred_loop_read_only. unfold Starred. go_clean.
Qed.

Lemma stores_within h actor : stores_allowed (with_db_stores h) (touches (Username actor)) actor.
Proof.
  split; cbn [h_playlists h_annotations h_playQueue with_db_stores db_playlists pls_List pls_Get pls_CreateOrReplace pls_Update
    pls_Delete]; intros; simplify_eq; cbn [ans_All ans_SetStarred ans_SetRating ans_Scrobble ans_Starred pqs_Get pqs_Save].
  - apply within_read, ListPlaylists_read_only.
  - apply within_read, GetPlaylist_read_only.
  - apply CreateOrReplace_within.
  - apply UpdatePlaylist_within.
  - apply DeletePlaylist_within.
  - apply within_read, store_MediaAnnotations_read_only.
  - exact (annotation_within (Username actor) (CallSetStarred now l b)).
  - exact (annotation_within (Username actor) (CallSetRating m n)).
  - exact (annotation_within (Username actor) (CallScrobble now l t b)).
  - apply within_read, Starred_read_only.
  - apply within_read, GetQueue_read_only.
  - apply SaveQueue_within.
Qed.

(** C6. A request touches only what belongs to the user it authenticates: whatever
    its endpoint and its parameters, and however it ends, the playlists, play
    queues, stars, ratings and play counts of every other user stay as they are,
    and those of all users when nobody is authenticated. *)
Theorem requests_touch_only_their_users_data (h : subsonic world) r w u :
  library_ok (tables w.1) →
  (∀ u name password, within (touches u) (h_AuthenticatePassword world h name password)) →
  (∀ u name token salt, within (touches u) (h_AuthenticateToken world h name token salt)) →
  (∀ actor, rest_allowed h (touches (Username actor)) actor) →
  (∀ actor w1, hr_FormError r = false → authenticate h r w = (Ok actor, w1) → u = Username actor) →
  others_kept u (tables w.1) (tables (ServeHTTP (with_db_stores h) r w).2.1).
Proof.
  intros Hok Hpassword Htoken Hrest Hu.
  destruct (hr_FormError r) eqn:Ef; [unfold ServeHTTP; rewrite Ef; by split|].
  assert (within (touches u) (authenticate h r)) as Hauth.
  { unfold authenticate. repeat case_match; try apply Hpassword; try apply Htoken; intros ? ? ? [= _ <-]; reflexivity. }
  destruct (authenticate h r w) as [[actor|e] w1] eqn:Ea; pose proof (Hauth _ _ _ Ea) as Hw1.
  - rewrite (Hu actor w1 eq_refl eq_refl) in *.
    pose proof (ServeHTTP_within (with_db_stores h) (touches (Username actor)) r w Ef) as X.
    change (authenticate (with_db_stores h) r w) with (authenticate h r w) in X. rewrite Ea in X.
    assert (touches (Username actor) w (ServeHTTP (with_db_stores h) r w).2) as Hw; [|by apply Hw].
    etransitivity; [exact Hw1|]. apply X; [|apply stores_within].
    destruct (Hrest actor) as [? ? ? ? ? ? ? ? ? ? ? ? ? ? ? ? ? ?]. by split.
  - pose proof (ServeHTTP_within (with_db_stores h) (touches u) r w Ef) as X.
    change (authenticate (with_db_stores h) r w) with (authenticate h r w) in X. rewrite Ea in X. rewrite X. by apply Hw1.
Qed.
End stores.

(** * Discovery needs its capability *)

Section capability.
Context {W X : Type} `{Unicode} `{UpperCase} `{Runtime} (view : W → X) (h : subsonic W).

Definition same_view (w w' : W) : Prop := view w' = view w.

#[export] Instance same_view_preorder : PreOrder same_view.
Proof. split; [done|]. intros w1 w2 w3 E1 E2. unfold same_view in *. congruence. Qed.

Definition without_discovery : subsonic W :=
  mkSubsonic W (h_catalog W h) (h_streams W h) (h_artwork W h) (h_playlists W h) (h_annotations W h) (h_playQueue W h)
    (h_AuthenticatePassword W h) (h_AuthenticateToken W h) None (h_scans W h) (h_transcoder W h).

(** C7. Discovery is for those who may use it: what only its operations change is
    the same after every request, to any endpoint, of a user who lacks the
    capability to search Soulseek from a client. *)
Theorem discovery_needs_its_capability r w actor w1 :
  rest_allowed without_discovery same_view actor → stores_allowed h same_view actor →
  hr_FormError r = false → authenticate h r w = (Ok actor, w1) → HasPermission actor PermissionSoulseekClient = false →
  view (ServeHTTP h r w).2 = view w1.
Proof.
  intros Hrest Hstores Hf Ha Hp. pose proof (ServeHTTP_within h same_view r w Hf) as X0. rewrite Ha in X0.
  apply X0; [|done]. assert (canUseClientDiscovery h actor = None) as Hd.
  { unfold canUseClientDiscovery. destruct (h_discovery W h); [by rewrite Hp|done]. }
  destruct Hrest. split; rewrite ?Hd; try done.
Qed.
End capability.

(** * Answers show the marks of the user who asks *)

Section marked.
Context (annotations : gmap MediaRef MediaAnnotation).

(** The media an answer lists, whether it shows when they were played, and what
    it shows of their annotations. *)
Definition item_of_child (c : child) : MediaRef * bool * marks := (child_ref c, true, ch_Marks c).
Definition item_of_album (a : albumID3) : MediaRef * bool * marks := (mkMedia MediaAlbum (al_ID a), true, al_Marks a).
Definition item_of_artist (a : artist) : MediaRef * bool * marks := (mkMedia MediaArtist (ar_ID a), false, ar_Marks a).
Definition item_of_artist3 (a : artistID3) : MediaRef * bool * marks := (mkMedia MediaArtist (a3_ID a), false, a3_Marks a).

Definition items_of (p : payload) : list (MediaRef * bool * marks) :=
  match p with
  | Indexes l => concat (map (λ x, map item_of_artist x.2) l)
  | Directory _ _ children => map item_of_child children
  | Artists l => concat (map (λ x, map item_of_artist3 x.2) l)
  | ArtistDetail a => item_of_artist3 a :: map item_of_album (a3_Albums a)
  | AlbumDetail a => item_of_album a :: map item_of_child (al_Songs a)
  | AlbumList l | SongsByGenre l | RandomSongs l => map item_of_child l
  | AlbumList2 l => map item_of_album l
  | Song c => [item_of_child c]
  | SearchResult2 artists albums songs | StarredItems artists albums songs =>
      map item_of_artist artists ++ map item_of_child albums ++ map item_of_child songs
  | SearchResult3 artists albums songs | StarredItems2 artists albums songs =>
      map item_of_artist3 artists ++ map item_of_album albums ++ map item_of_child songs
  | PlaylistDetail p => map item_of_child (li_Entries p)
  | PlayQueueItem q => map item_of_child (qu_Entries q)
  | _ => []
  end.

Definition expected (x : MediaRef * bool) : marks :=
  if x.2 then marks_of annotations x.1 else without_played (marks_of annotations x.1).

Definition marked (p : payload) : Prop := Forall (λ x, x.2 = expected x.1) (items_of p).

Lemma marked_map {A B} (f : A → B) (item : B → MediaRef * bool * marks) l :
  (∀ a, (item (f a)).2 = expected (item (f a)).1) → Forall (λ x, x.2 = expected x.1) (map item (map f l)).
Proof. intros Hf. induction l; constructor; auto. Qed.

Lemma marked_groups {A} (f : A → A) (item : A → MediaRef * bool * marks) (l : list (string * list A)) :
  (∀ a, (item (f a)).2 = expected (item (f a)).1) →
  Forall (λ x, x.2 = expected x.1) (concat (map (λ x, map item x.2) (map (λ x, (x.1, map f x.2)) l))).
Proof. intros Hf. induction l; simpl; [done|]. apply Forall_app. split; [by apply marked_map|done]. Qed.

(** The kinds of answer [decorateAnnotations] passes over although they list media. *)
Definition unmarked_kind (p : payload) : bool :=
  match p with AlbumList _ | SearchResult2 _ _ _ => true | _ => false end.

Lemma decorate_marked p : payloadContainsMedia p = true → marked (decorate annotations p).
Proof.
  destruct p; try done; intros _; unfold marked; simpl;
    repeat first [ apply Forall_app; split | apply Forall_cons; split ];
    first [ by apply marked_map | by apply marked_groups | done ].
Qed.

End marked.

(** Without annotations nothing carries a mark. *)
Lemma marks_of_empty ref : marks_of ∅ ref = no_marks.
Proof. unfold marks_of. by rewrite lookup_empty. Qed.

Lemma expected_empty x : expected ∅ x = no_marks.
Proof. destruct x as [ref []]; unfold expected; simpl; by rewrite marks_of_empty. Qed.

Lemma plain_map {A B} (f : A → B) (item : B → MediaRef * bool * marks) l :
  (∀ a, (item (f a)).2 = no_marks) → Forall (λ x, x.2 = expected ∅ x.1) (map item (map f l)).
Proof. intros Hf. apply marked_map. intros a. by rewrite expected_empty. Qed.

Lemma plain_groups `{Unicode} `{UpperCase} `{Runtime} {A} (f : ArtistEntry → A) (item : A → MediaRef * bool * marks) l :
  (∀ a, (item (f a)).2 = no_marks) →
  Forall (λ x, x.2 = expected ∅ x.1) (concat (map (λ x, map item x.2) (index_groups f l))).
Proof.
  intros Hf. unfold index_groups, group_by_index. set (step := λ _ _, _). set (names := sort_slice _ _). clearbody names.
  assert (∀ m : gmap string (list A), (∀ n, Forall (λ x, x.2 = expected ∅ x.1) (map item (default [] (m !! n)))) →
    ∀ n, Forall (λ x, x.2 = expected ∅ x.1) (map item (default [] (fold_left step l m !! n)))) as X.
  { induction l as [|a l IH]; intros m Hm n; [apply Hm|]. simpl. apply IH. clear n. intros n. unfold step.
    destruct (decide (indexName (artist_Name a) = n)) as [<-|Hn]; [|by rewrite lookup_insert_ne].
    rewrite lookup_insert_eq. simpl. rewrite map_app. apply Forall_app. split; [apply Hm|].
    repeat constructor. by rewrite expected_empty. }
  induction names as [|n names IH]; simpl; [constructor|]. apply Forall_app. split; [|exact IH].
  apply X. intros k. rewrite lookup_empty. constructor.
Qed.

Section shows.
Context {W : Type} `{Unicode} `{UpperCase} `{Runtime} (h : subsonic W) (actor : User).

(** The annotations an answer is drawn up with: what the annotation service
    last reported of the user who asks; none when there is no such service,
    when it fails, and for the kinds of answer that are not decorated. *)
Definition shown_annotations (p : payload) (w' : W) (annotations : gmap MediaRef MediaAnnotation) : Prop :=
  match h_annotations W h with
  | Some s =>
      if payloadContainsMedia p then
        ∃ w r, ans_All W s (Username actor) w = (r, w') ∧
               annotations = match r with Ok items => annotationMap items | Err _ => ∅ end
      else annotations = ∅
  | None => annotations = ∅
  end.

Definition shows (k : handler) : Prop := ∀ w,
  match k w with
  | (Document _ _ p, w') => ∃ annotations, shown_annotations p w' annotations ∧ marked annotations p
  | _ => True
  end.

Lemma decorate_kind annotations p : payloadContainsMedia (decorate annotations p) = payloadContainsMedia p.
Proof. by destruct p. Qed.

(** What is written carries no marks of its own. *)
Lemma shows_write r status p : marked ∅ p → shows (write h (Username actor) r status p).
Proof.
  intros Hp w. unfold write. destruct (h_annotations W h) as [s|] eqn:Hs; [destruct (payloadContainsMedia p) eqn:Ep|].
  - unfold attempt. destruct (ans_All W s (Username actor) w) as [[items|e] w1] eqn:E; simpl;
      unfold shown_annotations; rewrite Hs, ?decorate_kind, Ep; eexists; (split; [by eexists w, _|]); [|done].
    by apply decorate_marked.
  - simpl. exists ∅. unfold shown_annotations. by rewrite Hs, Ep.
  - simpl. exists ∅. unfold shown_annotations. by rewrite Hs.
Qed.

Lemma shows_error r status code message : shows (writeError r status code message).
Proof.
  intros w. simpl. exists ∅. split; [|constructor]. unfold shown_annotations. simpl. by destruct (h_annotations W h).
Qed.

Lemma shows_call {A} (m : M W A) k fails : (∀ a, shows (k a)) → (∀ e, shows (fails e)) → shows (call m k fails).
Proof. intros Hk Hf w. unfold call. destruct (m w) as [[a|e] w1]; [apply Hk|apply Hf]. Qed.

Lemma shows_attempt {A} (m : M W A) k : (∀ r, shows (k r)) → shows (attempt m k).
Proof. intros Hk w. unfold attempt. destruct (m w) as [r w1]. apply Hk. Qed.

Lemma shows_file a : (∀ status json p, a ≠ Document status json p) → shows (reply a).
Proof. intros Ha w. simpl. destruct a; try done. by destruct (Ha status json p). Qed.

Lemma shows_if_annotations r k : (∀ s, shows (k s)) → shows (if_annotations h r k).
Proof. intros Hk. unfold if_annotations, not_configured. destruct (h_annotations W h); [apply Hk|apply shows_error]. Qed.

Ltac plain_tac :=
  unfold marked, starred_payload, elements; simpl;
  repeat match goal with |- context [if ?b then _ else _] => destruct b; simpl end;
  repeat first [ apply Forall_app; split | apply Forall_cons; split | apply Forall_nil_2 ];
  rewrite ?expected_empty;
  first [ by apply plain_map | by apply plain_groups | done ].

Ltac shows_tac := repeat first
  [ progress intros
  | apply shows_if_annotations | apply shows_call | apply shows_attempt | (apply shows_write; plain_tac) | apply shows_error | (apply shows_file; discriminate)
  | progress unfold missing, not_configured, catalog_failed, writeAnnotationError, writePlaylistError,
      writePlayQueueError, open_failed, externalSearchSongs
  | match goal with
    | |- shows (match ?o with _ => _ end) => destruct o eqn:?
    | |- shows (let '(_, _) := ?p in _) => destruct p eqn:?
    end ].

Lemma shows_getSong r : shows (getSong h actor r).
Proof.
  unfold getSong. case_bool_decide; [shows_tac|]. apply shows_call; [shows_tac|]. intros e.
  destruct (errors_Is ErrNotFound e); [|shows_tac]. destruct (canUseClientDiscovery h actor) as [d|]; [|shows_tac].
  intros w. destruct (dis_Result W d _ w) as [[result|] w1]; [apply shows_write; plain_tac|apply shows_error].
Qed.

Lemma shows_getScanStatus start r : shows (getScanStatus h start actor r).
Proof.
  unfold getScanStatus. destruct (h_scans W h) as [[Start status]|]; [|shows_tac].
  intros w. destruct (status _) as [st w1]. apply shows_write. plain_tac.
Qed.

Lemma shows_serveTrack download r : shows (serveTrack h download actor r).
Proof.
  unfold serveTrack. case_bool_decide; [shows_tac|]. intros w.
  destruct (open_song _ _ _ w) as [[[resolved|e]|message] w1].
  - destruct (if shouldTranscode h r resolved then _ else _) as [f|].
    + apply (fun X : shows _ => X w1). unfold serveTranscodedTrack. shows_tac.
    + done.
  - apply (fun X : shows _ => X w1). shows_tac.
  - apply shows_error.
Qed.

Lemma endpoints_show : Forall (λ x, ∀ r, shows (x.2 actor r)) (endpoints h).
Proof.
  unfold endpoints. repeat (apply Forall_cons; split); try done; cbn [snd]; intros r;
    unfold getUser, getIndexes, getMusicDirectory, getGenres, getArtists, getArtist, getAlbumList, getAlbumList2, album_list,
      getAlbum, getSongsByGenre, getRandomSongs, getCoverArt, getPlaylists, getPlaylist, createPlaylist, updatePlaylist, deletePlaylist,
      setStarred, setRating, scrobble, getStarred, getPlayQueue, savePlayQueue, search2, search3, search;
    first [apply shows_getSong|apply shows_getScanStatus|apply shows_serveTrack|shows_tac].
Qed.

End shows.

(** * Songs found among the peers *)

Section remote.
Context `{Unicode}.

Definition acceptable (x : TrackSource) : Prop := ID (ts_Track x) ≠ "" ∧ RequiresApproval (Availability x) = false.

(** The songs that complete a page of [requested] songs, of which [local] are known. *)
Record completes (local : list Track) (requested : Z) (results : list TrackSource) (remote : list Track) : Prop := {
  cp_length : Z.of_nat (length (local ++ remote)) ≤ Z.max requested (Z.of_nat (length local));
  cp_new t : t ∈ remote → trackSearchIdentity t ∉ map trackSearchIdentity local;
  cp_distinct : NoDup (map trackSearchIdentity remote);
  cp_found t : t ∈ remote → ∃ x, x ∈ results ∧ acceptable x ∧ ts_Track x = t;
  cp_full : Z.of_nat (length (local ++ remote)) < requested →
    ∀ x, x ∈ results → acceptable x → trackSearchIdentity (ts_Track x) ∈ map trackSearchIdentity (local ++ remote);
}.

Record remote_ok (results : list TrackSource) (seen : gset string) (n : nat) (l : list Track) : Prop := {
  ro_length : (length l ≤ n)%nat;
  ro_new t : t ∈ l → trackSearchIdentity t ∉ seen;
  ro_distinct : NoDup (map trackSearchIdentity l);
  ro_found t : t ∈ l → ∃ x, x ∈ results ∧ acceptable x ∧ ts_Track x = t;
  ro_full : (length l < n)%nat → ∀ x, x ∈ results → acceptable x →
    trackSearchIdentity (ts_Track x) ∈ seen ∨ trackSearchIdentity (ts_Track x) ∈ map trackSearchIdentity l;
}.

Lemma remote_ok_skip x results seen n l :
  ¬ acceptable x ∨ trackSearchIdentity (ts_Track x) ∈ seen → remote_ok results seen n l → remote_ok (x :: results) seen n l.
Proof.
  intros Hx [? ? ? Hf Hm]. split; try done.
  - intros t Ht. destruct (Hf t Ht) as (y & Hy & ?). exists y. split; [by right|done].
  - intros Hl y [->|Hy]%elem_of_cons Ha; [destruct Hx; [done|by left]|by apply Hm].
Qed.

Lemma remote_ok_keep x results seen n l :
  acceptable x → trackSearchIdentity (ts_Track x) ∉ seen →
  remote_ok results ({[trackSearchIdentity (ts_Track x)]} ∪ seen) n l → remote_ok (x :: results) seen (S n) (ts_Track x :: l).
Proof.
  intros Ha Hn [Hl Hnew Hd Hf Hm]. split.
  - simpl. lia.
  - intros t [->|Ht]%elem_of_cons; [done|]. specialize (Hnew t Ht). set_solver.
  - simpl. constructor; [|done]. intros (t & Et & Ht)%list_elem_of_fmap. specialize (Hnew t Ht). rewrite <- Et in Hnew. set_solver.
  - intros t [->|Ht]%elem_of_cons; [exists x; split; [by left|done]|].
    destruct (Hf t Ht) as (y & Hy & ?). exists y. split; [by right|done].
  - simpl. intros Hlen y [->|Hy]%elem_of_cons Hay; [right; by left|].
    destruct (Hm ltac:(lia) y Hy Hay) as [Hs|Hs]; [|right; by right]. set_solver.
Qed.

Lemma remote_songs_ok results seen n : remote_ok results seen n (remote_songs results seen n).
Proof.
  revert seen n. induction results as [|x results IH]; intros seen n.
  { split; simpl; try lia; try set_solver. constructor. }
  destruct n as [|n]; simpl.
  { split; simpl; try lia; try set_solver. constructor. }
  destruct (bool_decide (ID (ts_Track x) = "") || RequiresApproval (Availability x)) eqn:Ea.
  { apply remote_ok_skip; [left|apply IH]. intros [Hid Hr]. rewrite bool_decide_eq_false_2, Hr in Ea by done. done. }
  apply orb_false_iff in Ea as [Hid%bool_decide_eq_false Hr].
  case_bool_decide; [apply remote_ok_skip; [by right|apply IH]|by apply remote_ok_keep].
Qed.

Context `{UpperCase} `{Runtime} {W : Type} (h : subsonic W).

(** A search is completed from the peers: the songs that are added are new
    and distinct, wait for nobody's approval, do not exceed what was asked for,
    and leave nothing out while there is room; nothing is searched for users
    without the capability or when the catalog has enough. *)
Theorem discovered_songs_complete_the_page actor r local requested (k : list Track → handler) w :
  ∃ remote w1, externalSearchSongs h actor r local requested k w = k remote w1 ∧
    ((remote = [] ∧ w1 = w) ∨
     ∃ d query answer, canUseClientDiscovery h actor = Some d ∧ Z.of_nat (length local) < requested ∧
       dis_Search W d query w = (answer, w1) ∧
       match answer with Ok results => completes local requested results remote | Err _ => remote = [] end).
Proof.
  unfold externalSearchSongs. destruct (canUseClientDiscovery h actor) as [d|] eqn:Ed; [|exists [], w; eauto].
  destruct (requested <=? Z.of_nat (length local)) eqn:En; [exists [], w; eauto|].
  destruct (_ || _); [exists [], w; eauto|]. unfold attempt. set (q := mkQuery _ _).
  destruct (dis_Search W d q w) as [[results|e] w1] eqn:Es; cycle 1.
  { exists [], w1. split; [done|]. right. exists d, q, (Err e). split_and!; [done|lia|done|done]. }
  exists (remote_songs results (list_to_set (map trackSearchIdentity local)) (Z.to_nat (requested - Z.of_nat (length local)))), w1.
  split; [done|]. right. exists d, q, (Ok results). split_and!; [done|lia|done|].
  destruct (remote_songs_ok results (list_to_set (map trackSearchIdentity local)) (Z.to_nat (requested - Z.of_nat (length local))))
    as [Hl Hnew Hd Hf Hm]. split; [rewrite length_app; lia| |done|done|].
  - intros t Ht. specialize (Hnew t Ht). by rewrite elem_of_list_to_set in Hnew.
  - rewrite length_app. intros Hlen x Hx Ha. rewrite map_app, elem_of_app.
    destruct (Hm ltac:(lia) x Hx Ha) as [Hs|Hs]; [left; by rewrite elem_of_list_to_set in Hs|by right].
Qed.
End remote.

(** * Indexes *)

Section indexed.
Context `{Unicode} `{UpperCase} `{Runtime} {A : Type} (item : ArtistEntry → A).

Definition indexed (name : string) (artists : list ArtistEntry) : list A :=
  map item (List.filter (λ a, bool_decide (indexName (artist_Name a) = name)) artists).

Lemma group_by_index_lookup artists name :
  group_by_index item artists !! name = match indexed name artists with [] => None | l => Some l end.
Proof.
  induction artists as [|a artists IH] using rev_ind; [apply lookup_empty|].
  assert (group_by_index item (artists ++ [a]) =
    <[indexName (artist_Name a) := default [] (group_by_index item artists !! indexName (artist_Name a)) ++ [item a]]>
      (group_by_index item artists)) as -> by (unfold group_by_index; by rewrite fold_left_app).
  unfold indexed in *. rewrite List.filter_app, map_app. simpl. case_bool_decide as Hn; simpl.
  - subst name. rewrite lookup_insert_eq, IH. destruct (map item _); done.
  - rewrite lookup_insert_ne by done. by rewrite app_nil_r.
Qed.

(** The indexes are the initial letters that occur, in order and once each, and
    every artist is listed under its letter, in the order of the catalog. *)
Theorem artists_are_indexed_by_letter artists :
  StronglySorted (λ x y, str_ltb x.1 y.1 = true) (index_groups item artists) ∧
  ∀ name l, (name, l) ∈ index_groups item artists ↔ l = indexed name artists ∧ l ≠ [].
Proof.
  unfold index_groups. set (groups := group_by_index item artists).
  set (names := sort_slice str_ltb (map fst (map_range groups))).
  assert (∀ name, name ∈ names ↔ is_Some (groups !! name)) as Hnames.
  { intros name. unfold names. rewrite (sort_slice_perm str_ltb), (map_range_perm groups), list_elem_of_fmap. split.
    - intros ([k v] & -> & Hkv%elem_of_map_to_list). by exists v.
    - intros [v Hv]. exists (name, v). by rewrite elem_of_map_to_list. }
  assert (NoDup names) as Hnd.
  { unfold names. rewrite (sort_slice_perm str_ltb), (map_range_perm groups). apply NoDup_fst_map_to_list. }
  assert (sorted_by str_ltb names) as Hsort by (apply sort_slice_sorted, strict_weak_str).
  split.
  - clear Hnames. clearbody names. induction names as [|x names IH]; simpl; [constructor|].
    apply StronglySorted_inv in Hsort as [Hs Hx]. apply NoDup_cons in Hnd as [Hn Hnd]. constructor; [auto|].
    apply Forall_map, Forall_forall. intros y Hy. rewrite Forall_forall in Hx. specialize (Hx _ Hy). simpl.
    destruct (str_ltb x y) eqn:E; [done|]. contradict Hn. by rewrite (str_ltb_total x y).
  - intros name l. rewrite list_elem_of_fmap. split.
    + intros (n & [= -> ->] & Hn%Hnames). unfold groups in *. rewrite group_by_index_lookup in *.
      destruct (indexed n artists); [by destruct Hn|done].
    + intros [-> Hl]. exists name. unfold groups in *. rewrite Hnames, group_by_index_lookup.
      destruct (indexed name artists); [done|]. split; [done|by eexists].
Qed.
End indexed.

(** * Findings *)

(** [getAlbumList] and [search2] list media too, but are never decorated. *)
Example starred_albums_are_listed_without_their_star :
  let a := mkAlbum "album_1" "Blue" "Ann" "artist_1" 0 "" 1 0 "" in
  let annotations := annotationMap [mkAnnotation "ann" (mkMedia MediaAlbum "album_1") Second 5 0 time_zero] in
  decorate annotations (AlbumList [albumChild a]) = AlbumList [albumChild a] ∧
  map (λ c, mk_UserRating (al_Marks c)) (match decorate annotations (AlbumList2 [makeAlbumID3 a]) with AlbumList2 l => l | _ => [] end) = [5].
Proof. split; vm_compute; reflexivity. Qed.

(** * Concrete requests *)

#[local] Existing Instance ascii_unicode.
#[local] Existing Instance stable_runtime.

Definition subsonic_upper_case : UpperCase := {| ToUpperRune r := if ascii_lower r then r - 32 else r |}.
#[local] Existing Instance subsonic_upper_case.

Section toy.
Context {W : Type}.

Definition absent {A} : M W A := throw (Sentinel ErrNotFound).

(** A catalog of single songs. *)
Definition toy_catalog : catalog_reader W :=
  mkCatalog W (mret []) (λ _, absent) (λ _, mret []) (λ _, mret []) (λ _, mret []) (mret []) (λ _ _ _, mret []) (λ _, mret [])
    (λ id, mret (queue_track id)) (λ _, mret (mkCatalogResult [] [] [])).

Definition no_playlists : playlist_service W :=
  mkPlaylists W (λ _, mret []) (λ _ _, absent) (λ _ _ _ _, absent) (λ _ _ _, absent) (λ _ _, absent).

(** Whoever names himself is believed. *)
Definition toy_subsonic (role : UserRole) (annotations : option (annotation_service W)) (discovery : option (discovery_service W))
    : subsonic W :=
  mkSubsonic W toy_catalog (λ _, absent) None no_playlists annotations None
    (λ name _, mret (mkUser name role [] 0 0)) (λ _ _ _, absent) discovery None None.

Lemma within_ret {A} (R : W → W → Prop) `{!PreOrder R} (a : A) : within R (mret a).
Proof. intros w r w' [= _ <-]. reflexivity. Qed.

Lemma within_throw {A} (R : W → W → Prop) `{!PreOrder R} e : within R (throw e : M W A).
Proof. intros w r w' [= _ <-]. reflexivity. Qed.

Lemma toy_rest (R : W → W → Prop) `{!PreOrder R} role annotations actor : rest_allowed (toy_subsonic role annotations None) R actor.
Proof.
  split; cbn; intros; try discriminate; first [apply within_ret; exact _|apply within_throw; exact _].
Qed.

Lemma toy_stores (R : W → W → Prop) `{!PreOrder R} role discovery actor : stores_allowed (toy_subsonic role None discovery) R actor.
Proof.
  split; cbn; intros; try discriminate; first [apply within_ret; exact _|apply within_throw; exact _].
Qed.
End toy.

Definition toy_request (endpoint : string) (f : form) : SubsonicApi.http_request :=
  SubsonicApi.mkHttp "GET" ("/rest/" +:+ endpoint +:+ ".view") ([("u", "bob"); ("p", "enc:626f62")] ++ f) false.

(** Bob stars a song that Ann has rated. *)
Definition toy_star : SubsonicApi.http_request := toy_request "star" [("id", "t1")].
Definition toy_world : db * unit := (toy_annotation_db, tt).
Definition toy_no_id : res string := Err (Sentinel ErrNotFound).
Definition toy_server : subsonic (db * unit) := toy_subsonic UserRoleUser None None.
Definition toy_starred : answer * (db * unit) := ServeHTTP (with_db_stores toy_no_id 60 toy_server) toy_star toy_world.

Lemma toy_annotation_library_ok : library_ok (tables toy_world.1).
Proof. destruct toy_queue_library_ok as [Hi Hs Ha Hal]. by split. Qed.

Lemma toy_starred_ok :
  toy_starred.1 = Document 200 false Nothing ∧
  an_starred (row_of (media_annotations (tables toy_starred.2.1)) ("bob", MediaSong, "t1")) = 60.
Proof. split; vm_compute; reflexivity. Qed.

Lemma toy_star_user actor w1 : authenticate toy_server toy_star toy_world = (Ok actor, w1) → "bob" = Username actor.
Proof. vm_compute. by intros [= <- _]. Qed.

Lemma requests_touch_only_their_users_data_witness :
  an_rating (row_of (media_annotations (tables toy_starred.2.1)) ("ann", MediaSong, "t1")) = 4.
Proof.
  pose proof (requests_touch_only_their_users_data toy_no_id 60 toy_server toy_star toy_world "bob" toy_annotation_library_ok) as X.
  assert (others_kept toy_no_id "bob" (tables toy_world.1) (tables toy_starred.2.1)) as [_ _ Hk].
  { apply X.
    - intros u name password. apply within_ret. exact _.
    - intros u name token salt. apply within_throw. exact _.
    - intros actor. apply toy_rest. exact _.
    - intros actor w1 _. apply toy_star_user. }
  rewrite (Hk ("ann", MediaSong, "t1")); [vm_compute; reflexivity|discriminate].
Defined.

(** Discovery that counts its searches. *)
Definition counting_discovery : discovery_service nat :=
  mkDiscoveryService nat (λ _ n, (Ok [], S n)) (λ _, absent) (λ _, absent) (λ _ n, (None, n)).
Definition toy_search : SubsonicApi.http_request := toy_request "search3" [("query", "blue")].

Lemma toy_searched :
  (ServeHTTP (toy_subsonic UserRoleAdmin None (Some counting_discovery)) toy_search 3%nat).2 = 4%nat.
Proof. vm_compute. reflexivity. Qed.

Lemma discovery_needs_its_capability_witness :
  (ServeHTTP (toy_subsonic UserRoleUser None (Some counting_discovery)) toy_search 3%nat).2 = 3%nat.
Proof.
  apply (discovery_needs_its_capability id (toy_subsonic UserRoleUser None (Some counting_discovery)) toy_search 3%nat
    (mkUser "bob" UserRoleUser [] 0 0) 3%nat).
  - exact (toy_rest (same_view id) UserRoleUser None _).
  - exact (toy_stores (same_view id) UserRoleUser _ _).
  - reflexivity.
  - vm_compute. reflexivity.
  - vm_compute. reflexivity.
Defined.

(** Everybody has rated the song [t1]. *)
Definition toy_rated (w : nat) (owner : string) : list MediaAnnotation :=
  [mkAnnotation owner (mkMedia MediaSong "t1") time_zero (if bool_decide (owner = "bob") then 4 else 2) 50 time_zero].
Definition rated_annotations : annotation_service nat :=
  mkAnnotations nat (λ owner w, (Ok (toy_rated w owner), w)) (λ _ _ _, absent) (λ _ _ _, absent) (λ _ _ _ _, absent) (λ _, absent).
Definition toy_get_song : SubsonicApi.http_request := toy_request "getSong" [("id", "t1")].
Definition toy_song : child :=
  applyChildAnnotation (annotationMap (toy_rated 0 "bob")) (trackChild (queue_track "t1")).

Lemma toy_song_shown :
  ServeHTTP (toy_subsonic UserRoleUser (Some rated_annotations) None) toy_get_song 0%nat = (Document 200 false (Song toy_song), 0%nat).
Proof. vm_compute. reflexivity. Qed.

(** The same server when its annotations cannot be read. *)
Definition failing_annotations : annotation_service nat :=
  mkAnnotations nat (λ _, throw (Plain "database is locked")) (λ _ _ _, absent) (λ _ _ _, absent) (λ _ _ _ _, absent) (λ _, absent).

Lemma toy_song_plain :
  ServeHTTP (toy_subsonic UserRoleUser (Some failing_annotations) None) toy_get_song 0%nat =
    (Document 200 false (Song (trackChild (queue_track "t1"))), 0%nat).
Proof. vm_compute. reflexivity. Qed.


(** Songs that were discovered are added to every page: [externalSearchSongs]
    passes over the offset of the request. *)
Definition finding_discovery : discovery_service nat :=
  mkDiscoveryService nat
    (λ _ n, (Ok [mkSource (queue_track "remote_1") (mkRef "soulseek" "k") "" (mkAvailability "" 0 0 true false) 0], n))
    (λ _, absent) (λ _, absent) (λ _ n, (None, n)).

Example discovered_songs_are_on_every_page :
  let first := toy_request "search3" [("query", "blue"); ("songCount", "20")] in
  let second := toy_request "search3" [("query", "blue"); ("songCount", "20"); ("songOffset", "20")] in
  let h := toy_subsonic UserRoleAdmin None (Some finding_discovery) in
  (ServeHTTP h first 0%nat).1 = Document 200 false (SearchResult3 [] [] [trackChild (queue_track "remote_1")]) ∧
  (ServeHTTP h second 0%nat).1 = (ServeHTTP h first 0%nat).1.
Proof. split; vm_compute; reflexivity. Qed.

(** [getUser] compares names as they were sent with names in lower case: who logs
    in as [Root] is not authorized to see [Root]. *)
Example users_are_refused_their_own_name :
  (getUser (toy_subsonic UserRoleAdmin None None) (mkUser "root" UserRoleAdmin [] 0 0)
     (toy_request "getUser" [("username", "Root")]) 0%nat).1 =
  Document 403 false (Failed 50 "User is not authorized for the given operation").
Proof. vm_compute. reflexivity. Qed.
