(* ===== verification/Config.v ===== *)
(** Reading of the configuration ([config/config.go]): defaults, a JSON file,
    environment variables and command-line flags, in increasing precedence. *)
From stdpp Require Import base gmap strings list.
From Stdlib Require Import Ascii ZArith Lia.
From S2P Require Import Prelude GoStrings SubsonicApi.

Open Scope Z_scope.
Open Scope go_scope.

(** * [Config] *)

(** The fields of the struct by their types; [int] and [int64] both have 64 bits. *)
Inductive text_field :=
  | MetadataDriver | Address | MusicDir | DatabasePath | DatabaseURL | CredentialKeyPath | CacheDir | TorrentDir
  | AdminName | AdminPassword | SlskdURL | SlskdAPIKey | SlskdDownloadsDir | SlskdIncompleteDir | FFmpegPath.

Inductive number_field :=
  | CacheSizeBytes | TorrentPort | TorrentUploadLimit | TorrentDownloadLimit | TorrentMaxDownloads | ScanIntervalSeconds
  | SlskdTimeoutSeconds | SlskdMaxDownloads | SlskdRetryAttempts | SlskdPrebufferBytes | SlskdPrebufferSeconds
  | AuthFailureLimit | AuthFailureWindow | AuthBlockSeconds.

Inductive switch_field := TorrentSeed | TorrentPortForwarding | ScanOnStart.

#[export] Instance text_field_eq_dec : EqDecision text_field.
Proof. solve_decision. Defined.
#[export] Instance number_field_eq_dec : EqDecision number_field.
Proof. solve_decision. Defined.
#[export] Instance switch_field_eq_dec : EqDecision switch_field.
Proof. solve_decision. Defined.

Record Config := mkConfig {
  texts : text_field → string;
  numbers : number_field → Z;
  switches : switch_field → bool;
}.

(** An assignment to a field. *)
Definition set_text (f : text_field) (v : string) (c : Config) : Config :=
  mkConfig (λ g, if decide (g = f) then v else texts c g) (numbers c) (switches c).
Definition set_number (f : number_field) (v : Z) (c : Config) : Config :=
  mkConfig (texts c) (λ g, if decide (g = f) then v else numbers c g) (switches c).
Definition set_switch (f : switch_field) (v : bool) (c : Config) : Config :=
  mkConfig (texts c) (numbers c) (λ g, if decide (g = f) then v else switches c g).

Definition Defaults : Config := {|
  texts f :=
    match f with
    | MetadataDriver => "sqlite" | Address => ":8080" | DatabasePath => "peerphonic.db" | CacheDir => "cache"
    | TorrentDir => "torrents" | AdminName => "admin" | AdminPassword => "admin" | FFmpegPath => "ffmpeg"
    | MusicDir | DatabaseURL | CredentialKeyPath | SlskdURL | SlskdAPIKey | SlskdDownloadsDir | SlskdIncompleteDir => ""
    end;
  numbers f :=
    match f with
    | CacheSizeBytes => Z.shiftl 10 30 | TorrentPort => 42069 | TorrentMaxDownloads => 3 | ScanIntervalSeconds => 300
    | SlskdTimeoutSeconds => 15 | SlskdMaxDownloads => 2 | SlskdRetryAttempts => 3 | SlskdPrebufferBytes => Z.shiftl 1 20
    | SlskdPrebufferSeconds => 15 | AuthFailureLimit => 10 | AuthFailureWindow => 60 | AuthBlockSeconds => 60
    | TorrentUploadLimit | TorrentDownloadLimit => 0
    end;
  switches f := match f with TorrentSeed | ScanOnStart => true | TorrentPortForwarding => false end;
|}.

(** A field of any type, as the tables of names refer to it. *)
Inductive field := Text (f : text_field) | Number (f : number_field) | Switch (f : switch_field).

(** * The file *)

(** A JSON value; the literal of a number is kept. *)
Inductive json :=
  | JNull
  | JBool (b : bool)
  | JNumber (literal : string)
  | JString (s : string)
  | JArray (items : list json)
  | JObject (members : list (string * json)).

(** What is found under a path: nothing, text that is no JSON, or a document. *)
Inductive config_file :=
  | Unreadable (e : error)
  | Malformed (e : error)
  | Parsed (document : json).

(** The [json] tags of the struct. *)
Definition json_names : list (string * field) :=
  [("metadata_driver", Text MetadataDriver); ("address", Text Address); ("music_dir", Text MusicDir);
   ("database", Text DatabasePath); ("database_url", Text DatabaseURL); ("credential_key_path", Text CredentialKeyPath);
   ("cache_dir", Text CacheDir); ("cache_size_bytes", Number CacheSizeBytes); ("torrent_dir", Text TorrentDir);
   ("torrent_seed", Switch TorrentSeed); ("torrent_port", Number TorrentPort);
   ("torrent_port_forwarding", Switch TorrentPortForwarding);
   ("torrent_upload_limit_bytes_per_second", Number TorrentUploadLimit);
   ("torrent_download_limit_bytes_per_second", Number TorrentDownloadLimit);
   ("torrent_max_active_downloads", Number TorrentMaxDownloads); ("username", Text AdminName); ("password", Text AdminPassword);
   ("scan_on_start", Switch ScanOnStart); ("scan_interval_seconds", Number ScanIntervalSeconds); ("slskd_url", Text SlskdURL);
   ("slskd_api_key", Text SlskdAPIKey); ("slskd_timeout_seconds", Number SlskdTimeoutSeconds);
   ("slskd_downloads_dir", Text SlskdDownloadsDir); ("slskd_incomplete_dir", Text SlskdIncompleteDir);
   ("slskd_max_active_downloads", Number SlskdMaxDownloads); ("slskd_retry_attempts", Number SlskdRetryAttempts);
   ("slskd_prebuffer_bytes", Number SlskdPrebufferBytes); ("slskd_prebuffer_timeout_seconds", Number SlskdPrebufferSeconds);
   ("ffmpeg_path", Text FFmpegPath); ("auth_failure_limit", Number AuthFailureLimit);
   ("auth_failure_window_seconds", Number AuthFailureWindow); ("auth_block_seconds", Number AuthBlockSeconds)].

(** The value of a name in a table. *)
Definition named {A} (table : list (string * A)) (name : string) : option A :=
  snd <$> List.find (λ x, bool_decide (x.1 = name)) table.

Section load.
Context `{Unicode} `{Runtime}.

(** A member's field: by its exact name, or else by its name in any case. *)
Definition json_field (key : string) : option field :=
  match named json_names key with
  | Some f => Some f
  | None => snd <$> List.find (λ x, EqualFold x.1 key) json_names
  end.

(** Decoding goes on after an error; the first one is returned. *)
Definition decode_member (member : string * json) (x : Config * option error) : Config * option error :=
  let '(c, failed) := x in
  let mismatch := (c, Some (default (Plain ("json: cannot unmarshal into Go struct field Config." +:+ member.1)) failed)) in
  match json_field member.1, member.2 with
  | None, _ => (c, Some (default (Plain ("json: unknown field " +:+ member.1)) failed))
  | Some _, JNull => (c, failed)
  | Some (Text f), JString s => (set_text f s c, failed)
  | Some (Switch f), JBool b => (set_switch f b c, failed)
  | Some (Number f), JNumber literal =>
      match Atoi literal with Some n => (set_number f n c, failed) | None => mismatch end
  | Some _, _ => mismatch
  end.

Definition decode_members (members : list (string * json)) (c : Config) : Config * option error :=
  fold_left (λ x member, decode_member member x) members (c, None).

Definition readFile (file : config_file) (c : Config) : res Config :=
  match file with
  | Unreadable e => Err (Errorf "open config file: " e "")
  | Malformed e => Err (Errorf "decode config file: " e "")
  | Parsed (JObject members) =>
      match decode_members members c with
      | (c, None) => Ok c
      | (_, Some e) => Err (Errorf "decode config file: " e "")
      end
  | Parsed JNull => Ok c
  | Parsed _ => Err (Errorf "decode config file: " (Plain "json: cannot unmarshal into Go value of type config.Config") "")
  end.

(** * The environment *)

Definition text_env : gmap string text_field := list_to_map
  [("PEERPHONIC_METADATA_DRIVER", MetadataDriver); ("PEERPHONIC_ADDRESS", Address); ("PEERPHONIC_MUSIC_DIR", MusicDir);
   ("PEERPHONIC_DATABASE", DatabasePath); ("PEERPHONIC_DATABASE_URL", DatabaseURL);
   ("PEERPHONIC_CREDENTIAL_KEY_PATH", CredentialKeyPath); ("PEERPHONIC_CACHE_DIR", CacheDir);
   ("PEERPHONIC_TORRENT_DIR", TorrentDir); ("PEERPHONIC_USERNAME", AdminName); ("PEERPHONIC_PASSWORD", AdminPassword);
   ("PEERPHONIC_SLSKD_URL", SlskdURL); ("PEERPHONIC_SLSKD_API_KEY", SlskdAPIKey);
   ("PEERPHONIC_SLSKD_DOWNLOADS_DIR", SlskdDownloadsDir); ("PEERPHONIC_SLSKD_INCOMPLETE_DIR", SlskdIncompleteDir);
   ("PEERPHONIC_FFMPEG_PATH", FFmpegPath)].

Definition number_env : gmap string number_field := list_to_map
  [("PEERPHONIC_TORRENT_MAX_ACTIVE_DOWNLOADS", TorrentMaxDownloads);
   ("PEERPHONIC_SLSKD_MAX_ACTIVE_DOWNLOADS", SlskdMaxDownloads); ("PEERPHONIC_SLSKD_RETRY_ATTEMPTS", SlskdRetryAttempts);
   ("PEERPHONIC_SLSKD_PREBUFFER_TIMEOUT_SECONDS", SlskdPrebufferSeconds);
   ("PEERPHONIC_AUTH_FAILURE_LIMIT", AuthFailureLimit); ("PEERPHONIC_AUTH_FAILURE_WINDOW_SECONDS", AuthFailureWindow);
   ("PEERPHONIC_AUTH_BLOCK_SECONDS", AuthBlockSeconds)].

(** The variables that are read one by one, in this order. *)
Definition single_env : list (string * field) :=
  [("PEERPHONIC_SCAN_ON_START", Switch ScanOnStart); ("PEERPHONIC_SCAN_INTERVAL_SECONDS", Number ScanIntervalSeconds);
   ("PEERPHONIC_SLSKD_TIMEOUT_SECONDS", Number SlskdTimeoutSeconds); ("PEERPHONIC_TORRENT_SEED", Switch TorrentSeed);
   ("PEERPHONIC_TORRENT_PORT_FORWARDING", Switch TorrentPortForwarding); ("PEERPHONIC_CACHE_SIZE_BYTES", Number CacheSizeBytes);
   ("PEERPHONIC_SLSKD_PREBUFFER_BYTES", Number SlskdPrebufferBytes); ("PEERPHONIC_TORRENT_PORT", Number TorrentPort);
   ("PEERPHONIC_TORRENT_UPLOAD_LIMIT_BYTES_PER_SECOND", Number TorrentUploadLimit);
   ("PEERPHONIC_TORRENT_DOWNLOAD_LIMIT_BYTES_PER_SECOND", Number TorrentDownloadLimit)].

(** The text of a variable, parsed for the field it is assigned to. *)
Definition parse_value (f : field) (value : string) (c : Config) : option Config :=
  match f with
  | Text f => Some (set_text f value c)
  | Number f => match Atoi value with Some n => Some (set_number f n c) | None => None end
  | Switch f => match ParseBool value with Some b => Some (set_switch f b c) | None => None end
  end.

Fixpoint apply_variables (lookup : string → option string) (variables : list (string * field)) (c : Config) : res Config :=
  match variables with
  | [] => Ok c
  | (key, f) :: rest =>
      match lookup key with
      | None => apply_variables lookup rest c
      | Some value =>
          match parse_value f value c with
          | Some c => apply_variables lookup rest c
          | None => Err (Errorf ("parse " +:+ key +:+ ": ") (Plain ("strconv: parsing " +:+ value)) "")
          end
      end
  end.

Definition applyEnv (lookup : string → option string) (c : Config) : res Config :=
  c ← apply_variables lookup (prod_map id Text <$> map_range text_env) c;
  c ← apply_variables lookup single_env c;
  apply_variables lookup (prod_map id Number <$> map_range number_env) c.

(** * Command-line flags *)

(** The digits of a number in a base, underscores among them, with the value so
    far and whether the character before was a digit. *)
Fixpoint based_digits (base : Z) (acc : Z) (after_digit : bool) (l : list Z) : option Z :=
  match l with
  | [] => if after_digit then Some acc else None
  | b :: rest =>
      if b =? 95 then if after_digit then based_digits base acc false rest else None
      else
        match (if ascii_digit b then Some (b - 48) else if ascii_lower b then Some (b - 87)
               else if ascii_upper b then Some (b - 55) else None) with
        | Some d => if base <=? d then None else based_digits base (acc * base + d) true rest
        | None => None
        end
  end.

Definition prefix_base (b : Z) : option Z :=
  if (b =? 98) || (b =? 66) then Some 2
  else if (b =? 111) || (b =? 79) then Some 8
  else if (b =? 120) || (b =? 88) then Some 16
  else None.

Definition based_number (l : list Z) : option Z :=
  match l with
  | [] => None
  | 48 :: x :: y :: rest =>
      match prefix_base x with
      | Some base => based_digits base 0 true (y :: rest)
      | None => based_digits 8 0 true (x :: y :: rest)
      end
  | 48 :: rest => based_digits 8 0 true rest
  | _ => based_digits 10 0 false l
  end.

(** [strconv.ParseInt(s, 0, 64)]. *)
Definition ParseInt0 (s : string) : option Z :=
  let '(neg, body) :=
    match bytes_of s with
    | 45 :: rest => (true, rest)
    | 43 :: rest => (false, rest)
    | l => (false, l)
    end in
  match based_number body with
  | Some v => let z := if neg : bool then - v else v in if between (- 2 ^ 63) (2 ^ 63 - 1) z then Some z else None
  | None => None
  end.

(** What is defined on the flag set; [config] is read before. *)
Definition flag_table : list (string * option field) :=
  [("config", None); ("metadata-driver", Some (Text MetadataDriver)); ("address", Some (Text Address));
   ("music", Some (Text MusicDir)); ("database", Some (Text DatabasePath)); ("database-url", Some (Text DatabaseURL));
   ("credential-key", Some (Text CredentialKeyPath)); ("cache", Some (Text CacheDir));
   ("cache-size", Some (Number CacheSizeBytes)); ("torrents", Some (Text TorrentDir));
   ("torrent-seed", Some (Switch TorrentSeed)); ("torrent-port", Some (Number TorrentPort));
   ("torrent-port-forwarding", Some (Switch TorrentPortForwarding));
   ("torrent-upload-limit", Some (Number TorrentUploadLimit)); ("torrent-download-limit", Some (Number TorrentDownloadLimit));
   ("torrent-max-downloads", Some (Number TorrentMaxDownloads)); ("username", Some (Text AdminName));
   ("password", Some (Text AdminPassword)); ("scan", Some (Switch ScanOnStart));
   ("scan-interval", Some (Number ScanIntervalSeconds)); ("slskd-url", Some (Text SlskdURL));
   ("slskd-timeout", Some (Number SlskdTimeoutSeconds)); ("slskd-downloads", Some (Text SlskdDownloadsDir));
   ("slskd-incomplete", Some (Text SlskdIncompleteDir)); ("slskd-max-downloads", Some (Number SlskdMaxDownloads));
   ("slskd-retry-attempts", Some (Number SlskdRetryAttempts)); ("slskd-prebuffer-bytes", Some (Number SlskdPrebufferBytes));
   ("slskd-prebuffer-timeout", Some (Number SlskdPrebufferSeconds)); ("ffmpeg", Some (Text FFmpegPath));
   ("auth-failure-limit", Some (Number AuthFailureLimit)); ("auth-failure-window", Some (Number AuthFailureWindow));
   ("auth-block-time", Some (Number AuthBlockSeconds))].

(** An argument as [flag] reads it: the end of the flags, before the argument or
    after it; bad syntax; or a name, with the value behind an equals sign. *)
Inductive argument :=
  | NoFlag
  | Terminator
  | BadSyntax
  | Flag (name : string) (value : option string).

Definition read_argument (s : string) : argument :=
  let flag name :=
    match name with
    | EmptyString => BadSyntax
    | String a _ =>
        if bool_decide (a = "-"%char) || bool_decide (a = "="%char) then BadSyntax
        else match Cut name "=" with Some (name, value) => Flag name (Some value) | None => Flag name None end
    end in
  match s with
  | String a (String b rest as name) =>
      if negb (bool_decide (a = "-"%char)) then NoFlag
      else if bool_decide (b = "-"%char) then if bool_decide (rest = "") then Terminator else flag rest
      else flag name
  | _ => NoFlag
  end.

(** [flag.Value.Set]; booleans and numbers are parsed. *)
Definition flag_Set (target : option field) (value : string) (c : Config) : option Config :=
  match target with
  | None => Some c
  | Some (Text f) => Some (set_text f value c)
  | Some (Number f) => match ParseInt0 value with Some n => Some (set_number f n c) | None => None end
  | Some (Switch f) => match ParseBool value with Some b => Some (set_switch f b c) | None => None end
  end.

Definition takes_argument (target : option field) : bool := match target with Some (Switch _) => false | _ => true end.

Definition invalid_value (name value : string) : error := Plain ("invalid value " +:+ value +:+ " for flag -" +:+ name).

(** [flag.FlagSet.Parse]; the arguments that are left are returned. *)
Fixpoint flags_Parse (args : list string) (c : Config) : res (Config * list string) :=
  match args with
  | [] => Ok (c, [])
  | s :: rest =>
      match read_argument s with
      | NoFlag => Ok (c, args)
      | Terminator => Ok (c, rest)
      | BadSyntax => Err (Plain ("bad flag syntax: " +:+ s))
      | Flag name value =>
          match named flag_table name with
          | None =>
              if bool_decide (name = "help") || bool_decide (name = "h") then Err (Plain "flag: help requested")
              else Err (Plain ("flag provided but not defined: -" +:+ name))
          | Some target =>
              if takes_argument target then
                match value, rest with
                | Some value, _ =>
                    match flag_Set target value c with
                    | Some c => flags_Parse rest c
                    | None => Err (invalid_value name value)
                    end
                | None, value :: rest =>
                    match flag_Set target value c with
                    | Some c => flags_Parse rest c
                    | None => Err (invalid_value name value)
                    end
                | None, [] => Err (Plain ("flag needs an argument: -" +:+ name))
                end
              else
                match flag_Set target (default "true" value) c with
                | Some c => flags_Parse rest c
                | None => Err (Plain ("invalid boolean value " +:+ default "true" value +:+ " for -" +:+ name))
                end
          end
      end
  end.

Fixpoint findConfigPath (args : list string) : string :=
  match args with
  | [] => ""
  | arg :: rest =>
      if HasPrefix arg "--config=" then TrimPrefix arg "--config="
      else
        match rest with
        | value :: _ => if bool_decide (arg = "--config") then value else findConfigPath rest
        | [] => ""
        end
  end.

(** * [Load] *)

Definition reject (failed : bool) (message : string) : res unit := if failed then Err (Plain message) else Ok tt.

(** The checks, in their order. *)
Definition validate (c : Config) : res unit :=
  let n := numbers c in
  reject (bool_decide (texts c MusicDir = "")) "music directory is required (use --music or PEERPHONIC_MUSIC_DIR)" ;;
  reject (negb (bool_decide (texts c MetadataDriver = "sqlite")) && negb (bool_decide (texts c MetadataDriver = "postgres")))
    "metadata driver must be sqlite or postgres" ;;
  reject (bool_decide (texts c MetadataDriver = "postgres") && bool_decide (TrimSpace (texts c DatabaseURL) = ""))
    "PostgreSQL metadata storage requires --database-url or PEERPHONIC_DATABASE_URL" ;;
  reject (n CacheSizeBytes <=? 0) "media cache size must be positive" ;;
  reject ((n TorrentPort <? 0) || (65535 <? n TorrentPort)) "torrent port must be between 0 and 65535" ;;
  reject ((n TorrentUploadLimit <? 0) || (n TorrentDownloadLimit <? 0)) "torrent transfer limits must be non-negative" ;;
  reject (n TorrentMaxDownloads <=? 0) "torrent maximum active downloads must be positive" ;;
  reject (n ScanIntervalSeconds <? 0) "scan interval must be non-negative" ;;
  reject (n SlskdTimeoutSeconds <=? 0) "slskd timeout must be positive" ;;
  reject ((n SlskdMaxDownloads <=? 0) || (n SlskdRetryAttempts <=? 0))
    "slskd download concurrency and retry attempts must be positive" ;;
  reject ((n SlskdPrebufferBytes <=? 0) || (n SlskdPrebufferSeconds <=? 0))
    "slskd prebuffer size and timeout must be positive" ;;
  reject ((n AuthFailureLimit <=? 0) || (n AuthFailureWindow <=? 0) || (n AuthBlockSeconds <=? 0))
    "authentication rate-limit values must be positive".

(** [filepath.Abs], from what [os.Getwd] returns. *)
Definition Abs (getwd : res string) (path : string) : res string :=
  if HasPrefix path "/" then Ok (Clean path) else d ← getwd; Ok (JoinPath [d; path]).

Definition wrap {A} (what : string) (r : res A) : res A :=
  match r with Ok a => Ok a | Err e => Err (Errorf ("resolve " +:+ what +:+ ": ") e "") end.

(** A path that is made absolute, or has a default when it is not given. *)
Definition resolve_path (getwd : res string) (f : text_field) (what : string) (initial : option (Config → string)) (c : Config)
    : res Config :=
  match initial with
  | Some path =>
      if bool_decide (texts c f = "") then Ok (set_text f (path c) c)
      else path ← wrap what (Abs getwd (texts c f)); Ok (set_text f path c)
  | None => path ← wrap what (Abs getwd (texts c f)); Ok (set_text f path c)
  end.

Definition resolve_paths (getwd : res string) (c : Config) : res Config :=
  c ← resolve_path getwd MusicDir "music directory" None c;
  c ← resolve_path getwd DatabasePath "database path" None c;
  c ← resolve_path getwd CredentialKeyPath "credential key path" (Some (λ c, texts c DatabasePath +:+ ".auth.key")) c;
  c ← resolve_path getwd CacheDir "cache directory" None c;
  c ← resolve_path getwd SlskdDownloadsDir "slskd downloads directory"
        (Some (λ c, JoinPath [texts c CacheDir; "soulseek"; "downloads"])) c;
  c ← resolve_path getwd SlskdIncompleteDir "slskd incomplete directory"
        (Some (λ c, JoinPath [texts c CacheDir; "soulseek"; "incomplete"])) c;
  resolve_path getwd TorrentDir "torrent metadata directory" None c.

Definition config_path (args : list string) (lookupEnv : string → option string) : string :=
  let path := findConfigPath args in
  if bool_decide (path = "") then default path (lookupEnv "PEERPHONIC_CONFIG") else path.

Definition Load (files : string → config_file) (getwd : res string) (args : list string) (lookupEnv : string → option string)
    : res Config :=
  let path := config_path args lookupEnv in
  c ← (if bool_decide (path = "") then Ok Defaults else readFile (files path) Defaults);
  c ← applyEnv lookupEnv c;
  '(c, rest) ← flags_Parse args c;
  reject (negb (bool_decide (rest = []))) ("unexpected arguments: " +:+ Join rest " ") ;;
  let c := set_text MetadataDriver (ToLower (TrimSpace (texts c MetadataDriver))) c in
  validate c ;;
  resolve_paths getwd c.
End load.
