(* ===== verification/ConfigTheorems.v ===== *)
(** What [config.Load] returns: a valid configuration, each value from the layer
    of the highest precedence that gives it. *)
From stdpp Require Import base gmap strings list.
From Stdlib Require Import Ascii ZArith Lia.
From S2P Require Import Prelude GoStrings Paths SubsonicApi Config.

Open Scope Z_scope.
Open Scope go_scope.

Lemma res_bind_Ok {A B} (r : res A) (f : A → res B) b : (a ← r; f a) = Ok b → ∃ a, r = Ok a ∧ f a = Ok b.
Proof. destruct r as [a|e]; [|done]. intros E. by exists a. Qed.

Lemma reject_Ok failed message : reject failed message = Ok tt → failed = false.
Proof. by destruct failed. Qed.

Ltac res_ok H :=
  let a := fresh "c" in let Ha := fresh "E" in apply res_bind_Ok in H as (a & Ha & H).

(** * Values of fields *)

#[export] Instance field_eq_dec : EqDecision field.
Proof. solve_decision. Defined.

Inductive value := VText (s : string) | VNumber (n : Z) | VSwitch (b : bool).

Definition value_of (c : Config) (f : field) : value :=
  match f with Text f => VText (texts c f) | Number f => VNumber (numbers c f) | Switch f => VSwitch (switches c f) end.

Definition set_value (f : field) (v : value) (c : Config) : Config :=
  match f, v with
  | Text f, VText s => set_text f s c
  | Number f, VNumber n => set_number f n c
  | Switch f, VSwitch b => set_switch f b c
  | _, _ => c
  end.

(** What a layer makes of the text it has for a field. *)
Definition env_value (f : field) (s : string) : option value :=
  match f with Text _ => Some (VText s) | Number _ => VNumber <$> Atoi s | Switch _ => VSwitch <$> ParseBool s end.
Definition flag_value (f : field) (s : string) : option value :=
  match f with Text _ => Some (VText s) | Number _ => VNumber <$> ParseInt0 s | Switch _ => VSwitch <$> ParseBool s end.
Definition json_value (f : field) (v : json) : option value :=
  match f, v with
  | Text _, JString s => Some (VText s)
  | Switch _, JBool b => Some (VSwitch b)
  | Number _, JNumber literal => VNumber <$> Atoi literal
  | _, _ => None
  end.

(** A value of a layer over what is below it. *)
Definition over {A} (given : option A) (parse : A → option value) (below : option value) : option value :=
  match given with Some a => parse a | None => below end.

(** [c'] is [c] with [f] set to the parsed value. *)
Definition sets (f : field) (v : option value) (c c' : Config) : Prop :=
  v = Some (value_of c' f) ∧ ∀ g, g ≠ f → value_of c' g = value_of c g.

Ltac sets_tac :=
  split; [cbn; f_equal; by rewrite decide_True by done |
          intros [g|g|g] Hg; cbn; try done; f_equal; by rewrite decide_False by congruence].

Lemma set_text_sets f s c : sets (Text f) (Some (VText s)) c (set_text f s c).
Proof. sets_tac. Qed.
Lemma set_number_sets f n c : sets (Number f) (Some (VNumber n)) c (set_number f n c).
Proof. sets_tac. Qed.
Lemma set_switch_sets f b c : sets (Switch f) (Some (VSwitch b)) c (set_switch f b c).
Proof. sets_tac. Qed.

#[local] Hint Resolve set_text_sets set_number_sets set_switch_sets : core.

Lemma parse_value_sets f s c c' : parse_value f s c = Some c' → sets f (env_value f s) c c'.
Proof. destruct f; cbn; intros E; repeat case_match; simplify_eq; cbn; auto. Qed.

Lemma flag_Set_sets f s c c' : flag_Set (Some f) s c = Some c' → sets f (flag_value f s) c c'.
Proof. destruct f; cbn; intros E; repeat case_match; simplify_eq; cbn; auto. Qed.

(** One more value of a layer. *)
Lemma sets_over {A} f g (parse : field → A → option value) (a : A) (l : list A) c c1 :
  sets g (parse g a) c c1 →
  over (last l) (parse f) (Some (value_of c1 f)) =
  over (last (if decide (f = g) then a :: l else l)) (parse f) (Some (value_of c f)).
Proof.
  intros [Hv Hrest]. destruct (decide (f = g)) as [->|Hne].
  - rewrite last_cons. destruct (last l); cbn; [done|by rewrite Hv].
  - by rewrite Hrest.
Qed.

(** * The layers *)

Section layers.
Context `{Unicode} `{Runtime}.

(** The values the file has for a field, [null] among them being none. *)
Definition file_values (members : list (string * json)) (f : field) : list json :=
  snd <$> List.filter (λ m, bool_decide (json_field m.1 = Some f) && match m.2 with JNull => false | _ => true end) members.

Lemma decode_member_failed m c e : is_Some (decode_member m (c, Some e)).2.
Proof. unfold decode_member. repeat case_match; eauto. Qed.

Lemma decode_members_failed members c e : is_Some (fold_left (λ x m, decode_member m x) members (c, Some e)).2.
Proof.
  revert c e. induction members as [|m members IH]; intros c e; [by eexists|]. cbn [fold_left].
  destruct (decode_member_failed m c e) as [e' He]. destruct (decode_member m (c, Some e)) as [c1 o]. cbn in He. subst. apply IH.
Qed.

Lemma decode_member_Ok m c c1 :
  decode_member m (c, None) = (c1, None) →
  (∃ f, json_field m.1 = Some f) ∧
  ((m.2 = JNull ∧ c1 = c) ∨ ∃ f, json_field m.1 = Some f ∧ m.2 ≠ JNull ∧ sets f (json_value f m.2) c c1).
Proof.
  unfold decode_member. destruct (json_field m.1) as [f|]; [|done]. intros E. split; [eauto|].
  destruct f, (m.2); repeat case_match; simplify_eq; auto;
    right; eexists; (split_and!; [done|done|]); cbn; simplify_option_eq; auto.
Qed.

Lemma decode_members_Ok members c c' :
  decode_members members c = (c', None) →
  Forall (λ m, is_Some (json_field m.1)) members ∧
  ∀ f, Some (value_of c' f) = over (last (file_values members f)) (json_value f) (Some (value_of c f)).
Proof.
  unfold decode_members. revert c. induction members as [|m members IH]; intros c; cbn [fold_left]; [by intros [= <-]|].
  destruct (decode_member m (c, None)) as [c1 [e|]] eqn:Em.
  { intros E. destruct (decode_members_failed members c1 e) as [e' He]. by rewrite E in He. }
  intros E. destruct (IH c1 E) as [Hknown Hvalues]. apply decode_member_Ok in Em as [Hf Hm].
  split; [by constructor|]. intros f. rewrite Hvalues. unfold file_values. simpl.
  destruct Hm as [[Hnull ->]|(g & Hg & Hnull & Hs)]; [by rewrite Hnull, andb_false_r|].
  rewrite Hg, (sets_over f g json_value m.2 _ c) by done.
  assert (match m.2 with JNull => false | _ => true end = true) as -> by (by destruct m.2). rewrite andb_true_r.
  destruct (decide (f = g)) as [->|Hne]; [by rewrite bool_decide_eq_true_2|].
  rewrite bool_decide_eq_false_2 by congruence. done.
Qed.

(** ** The environment *)

Definition all_env : list (string * field) :=
  (prod_map id Text <$> map_to_list text_env) ++ single_env ++ (prod_map id Number <$> map_to_list number_env).

Definition env_key (f : field) : string := default "" (fst <$> List.find (λ x, bool_decide (x.2 = f)) all_env).

Lemma env_key_listed f : (env_key f, f) ∈ all_env.
Proof.
  assert (∀ f, bool_decide ((env_key f, f) ∈ all_env) = true) as X; [|by specialize (X f); apply bool_decide_eq_true in X].
  intros [[]|[]|[]]; vm_compute; reflexivity.
Qed.

Lemma all_env_once : NoDup (all_env.*2).
Proof. apply (bool_decide_unpack _). vm_compute. exact I. Qed.

Lemma apply_variables_app lookup l1 l2 c :
  apply_variables lookup (l1 ++ l2) c = (c ← apply_variables lookup l1 c; apply_variables lookup l2 c).
Proof.
  revert c. induction l1 as [|[key f] l1 IH]; intros c; simpl; [done|].
  destruct (lookup key); [|apply IH]. destruct (parse_value f _ c); [apply IH|done].
Qed.

Lemma apply_variables_Ok lookup l c c' :
  apply_variables lookup l c = Ok c' → NoDup (l.*2) →
  ∀ key f, (key, f) ∈ l → Some (value_of c' f) = over (lookup key) (env_value f) (Some (value_of c f)).
Proof.
  assert (∀ l c c', apply_variables lookup l c = Ok c' → ∀ f, f ∉ l.*2 → value_of c' f = value_of c f) as Hother.
  { clear. induction l as [|[key g] l IH]; intros c c'; simpl; [by intros [= <-]|].
    intros E f [Hne Hf]%not_elem_of_cons. destruct (lookup key) as [v|]; [|by eapply IH].
    destruct (parse_value g v c) as [c1|] eqn:Ep; [|done]. rewrite (IH _ _ E f Hf).
    by apply parse_value_sets in Ep as [_ Hs]; apply Hs. }
  revert c. induction l as [|[key g] l IH]; intros c E Hnd key' f Hin; simpl in *; [by apply elem_of_nil in Hin|].
  apply NoDup_cons in Hnd as [Hg Hnd]. apply elem_of_cons in Hin as [[= -> ->]|Hin].
  - destruct (lookup key) as [v|]; [|by rewrite (Hother _ _ _ E)].
    destruct (parse_value g v c) as [c1|] eqn:Ep; [|done]. rewrite (Hother _ _ _ E) by done.
    apply parse_value_sets in Ep as [Hv _]. by rewrite <- Hv.
  - assert (f ≠ g) as Hne. { intros ->. apply Hg, list_elem_of_fmap. by exists (key', g). }
    destruct (lookup key) as [v|]; [|by eapply IH].
    destruct (parse_value g v c) as [c1|] eqn:Ep; [|done]. rewrite (IH _ E Hnd _ _ Hin).
    apply parse_value_sets in Ep as [_ Hs]. by rewrite Hs.
Qed.

Lemma applyEnv_Ok lookup c c' :
  applyEnv lookup c = Ok c' →
  ∀ f, Some (value_of c' f) = over (lookup (env_key f)) (env_value f) (Some (value_of c f)).
Proof.
  set (l := (prod_map id Text <$> map_range text_env) ++ single_env ++ (prod_map id Number <$> map_range number_env)).
  intros E f. assert (apply_variables lookup l c = Ok c') as E'.
  { unfold applyEnv in E. res_ok E. res_ok E. unfold l. rewrite apply_variables_app, E0. cbn [mbind res_mbind res_bind].
    rewrite apply_variables_app, E1. exact E. }
  assert (l ≡ₚ all_env) as Hp.
  { apply Permutation_app; [|apply Permutation_app_head]; apply fmap_Permutation, map_range_perm. }
  clearbody l. eapply apply_variables_Ok; [exact E'| |].
  - rewrite Hp. apply all_env_once.
  - rewrite Hp. apply env_key_listed.
Qed.

(** Reading the environment fails only on a variable whose text is no value of
    its field. *)
Lemma apply_variables_Err lookup l c e :
  apply_variables lookup l c = Err e → ∃ key f v, (key, f) ∈ l ∧ lookup key = Some v ∧ env_value f v = None.
Proof.
  revert c. induction l as [|[key f] l IH]; intros c; simpl; [done|]. intros E.
  assert ((∃ c1, apply_variables lookup l c1 = Err e) ∨ ∃ v, lookup key = Some v ∧ env_value f v = None) as [[c1 E1]|(v & ? & ?)].
  { destruct (lookup key) as [v|]; [|eauto]. destruct (parse_value f v c) eqn:Ep; [eauto|]. right. exists v. split; [done|].
    destruct f; cbn in Ep |- *; try done; by destruct (_ v). }
  - destruct (IH _ E1) as (key' & f' & v & Hin & ?). exists key', f', v. split; [by right|done].
  - exists key, f, v. split; [by left|done].
Qed.

Lemma applyEnv_Err lookup c e :
  applyEnv lookup c = Err e → ∃ f v, lookup (env_key f) = Some v ∧ env_value f v = None.
Proof.
  intros E.
  assert (∃ key f v, (key, f) ∈ all_env ∧ lookup key = Some v ∧ env_value f v = None) as (key & f & v & Hin & ? & ?).
  { unfold applyEnv in E. destruct (apply_variables lookup (_ <$> map_range text_env) c) as [c1|e1] eqn:E1.
    2:{ apply apply_variables_Err in E1 as (key & f & v & Hin & ?). exists key, f, v. split; [|done].
        unfold all_env. apply elem_of_app. left. by rewrite map_range_perm in Hin. }
    cbn [mbind res_mbind res_bind] in E. destruct (apply_variables lookup single_env c1) as [c2|e2] eqn:E2.
    2:{ apply apply_variables_Err in E2 as (key & f & v & Hin & ?). exists key, f, v. split; [|done].
        unfold all_env. apply elem_of_app. right. apply elem_of_app. by left. }
    cbn [mbind res_mbind res_bind] in E. apply apply_variables_Err in E as (key & f & v & Hin & ?). exists key, f, v.
    split; [|done]. unfold all_env. apply elem_of_app. right. apply elem_of_app. right. by rewrite map_range_perm in Hin. }
  exists f, v. replace (env_key f) with key; [done|].
  pose proof (env_key_listed f) as Hk. apply list_elem_of_lookup in Hin as [i Hi], Hk as [j Hj].
  assert (i = j) as ->; [|congruence].
  eapply (NoDup_lookup (all_env.*2) i j f all_env_once); rewrite list_lookup_fmap; [by rewrite Hi|by rewrite Hj].
Qed.

(** ** The flags *)

(** The arguments that give a flag a value: [-name=value] or [--name=value]; for
    a flag that is no switch also [-name value] or [--name value] as two
    arguments; and for a switch [-name] or [--name] alone, which is true. *)
Inductive given_as : list string → string * string → Prop :=
  | given_equals dash name value :
      dash ∈ ["-"; "--"] → is_Some (named flag_table name) → given_as [dash +:+ name +:+ "=" +:+ value] (name, value)
  | given_next dash name value target :
      dash ∈ ["-"; "--"] → named flag_table name = Some target → (∀ f, target ≠ Some (Switch f)) →
      given_as [dash +:+ name; value] (name, value)
  | given_bare dash name f :
      dash ∈ ["-"; "--"] → named flag_table name = Some (Some (Switch f)) → given_as [dash +:+ name] (name, "true").

(** A command line that gives the flags these values, one after the other; two
    dashes may end it. *)
Definition command_line (args : list string) (settings : list (string * string)) : Prop :=
  ∃ parts ended, Forall2 given_as parts settings ∧ args = concat parts ++ ended ∧ (ended = [] ∨ ended = ["--"]).

(** The values given for a field. *)
Definition flag_values (settings : list (string * string)) (f : field) : list string :=
  snd <$> List.filter (λ s, bool_decide (named flag_table s.1 = Some (Some f))) settings.

Lemma named_in {A} (table : list (string * A)) name a : named table name = Some a → (name, a) ∈ table.
Proof.
  unfold named. destruct (List.find _ table) as [[n b]|] eqn:E; cbn; intros [= <-].
  apply find_some in E as [Hin Hn%bool_decide_eq_true]. cbn in Hn. subst. by apply list_elem_of_In.
Qed.

(** The names of flags start with a letter and have no equals sign. *)
Fixpoint no_equals (s : string) : bool :=
  match s with EmptyString => true | String a s => negb (bool_decide (a = "="%char)) && no_equals s end.

Definition plain_name (s : string) : bool :=
  match s with
  | EmptyString => false
  | String a _ => negb (bool_decide (a = "-"%char)) && negb (bool_decide (a = "="%char)) && no_equals s
  end.

Lemma flag_names_plain : forallb (λ x : string * option field, plain_name x.1) flag_table = true.
Proof. vm_compute. reflexivity. Qed.

Lemma Cut_equals name v : no_equals name = true → Cut (name +:+ "=" +:+ v) "=" = Some (name, v).
Proof.
  induction name as [|a name IH]; intros Hn.
  - cbn. unfold HasPrefix. by destruct v.
  - simpl in Hn. apply andb_true_iff in Hn as [Ha%negb_true_iff%bool_decide_eq_false Hn].
    change (String a name +:+ "=" +:+ v) with (String a (name +:+ "=" +:+ v)). cbn [Cut]. rewrite (IH Hn).
    assert (HasPrefix (String a (name +:+ "=" +:+ v)) "=" = false) as ->; [|done].
    unfold HasPrefix. cbn [String.prefix]. by destruct (ascii_dec "=" a).
Qed.

Lemma Cut_none name : no_equals name = true → Cut name "=" = None.
Proof.
  induction name as [|a name IH]; intros Hn; [done|].
  simpl in Hn. apply andb_true_iff in Hn as [Ha%negb_true_iff%bool_decide_eq_false Hn].
  cbn [Cut]. rewrite (IH Hn).
  assert (HasPrefix (String a name) "=" = false) as ->; [|done].
  unfold HasPrefix. cbn [String.prefix]. by destruct (ascii_dec "=" a).
Qed.

Lemma read_flag dash name rest : dash ∈ ["-"; "--"] → plain_name name = true →
  read_argument (dash +:+ name +:+ rest) =
  match Cut (name +:+ rest) "=" with Some (name, value) => Flag name (Some value) | None => Flag (name +:+ rest) None end.
Proof.
  intros Hdash Hn. destruct name as [|a name]; [done|].
  cbn [plain_name] in Hn. apply andb_true_iff in Hn as [[H1'%negb_true_iff H2'%negb_true_iff]%andb_true_iff _].
  change (String a name +:+ rest) with (String a (name +:+ rest)) in *.
  apply elem_of_cons in Hdash as [->|Hdash]; [|apply list_elem_of_singleton in Hdash as ->].
  - change ("-" +:+ String a (name +:+ rest)) with (String "-" (String a (name +:+ rest))).
    unfold read_argument. rewrite (bool_decide_eq_true_2 ("-"%char = "-"%char)) by done. cbn [negb].
    by rewrite H1', H2'.
  - change ("--" +:+ String a (name +:+ rest)) with (String "-" (String "-" (String a (name +:+ rest)))).
    unfold read_argument. rewrite !(bool_decide_eq_true_2 ("-"%char = "-"%char)), bool_decide_eq_false_2 by done. cbn [negb].
    by rewrite H1', H2'.
Qed.

Lemma flag_name_plain name target : named flag_table name = Some target → plain_name name = true ∧ no_equals name = true.
Proof.
  intros E%named_in. pose proof flag_names_plain as Hp. rewrite forallb_forall in Hp.
  assert (plain_name name = true) as Hn by (by apply (Hp (name, target)), list_elem_of_In). split; [done|].
  destruct name; [done|]. cbn [plain_name] in Hn. by apply andb_true_iff in Hn as [_ ?].
Qed.

(** What [flags_Parse] does with the arguments of one flag. *)
Lemma flags_Parse_given part name value rest c :
  given_as part (name, value) → ∃ target, named flag_table name = Some target ∧
    match flag_Set target value c with
    | Some c1 => flags_Parse (part ++ rest) c = flags_Parse rest c1
    | None => is_ok (flags_Parse (part ++ rest) c) = false
    end.
Proof.
  intros Hg. inversion Hg as [dash n v Hd [target Ht]|dash n v target Hd Ht Hs|dash n f Hd Ht]; subst; eexists; (split; [exact Ht|]);
    destruct (flag_name_plain _ _ Ht) as [Hplain Hno]; cbn [app flags_Parse].
  - rewrite (read_flag dash name _ Hd Hplain), (Cut_equals _ _ Hno), Ht. cbn [default from_option id].
    destruct (takes_argument target), (flag_Set target value c); done.
  - replace (dash +:+ name) with (dash +:+ name +:+ "") by (by rewrite str_app_nil_r).
    rewrite (read_flag dash name _ Hd Hplain). rewrite str_app_nil_r, (Cut_none _ Hno), Ht.
    assert (takes_argument target = true) as -> by (destruct target as [[]|]; try done; by edestruct Hs).
    by destruct (flag_Set target value c).
  - replace (dash +:+ name) with (dash +:+ name +:+ "") by (by rewrite str_app_nil_r).
    rewrite (read_flag dash name _ Hd Hplain). rewrite str_app_nil_r, (Cut_none _ Hno), Ht.
    cbn [takes_argument default from_option id]. by destruct (flag_Set _ "true" c).
Qed.

Lemma flag_Set_None f v c : flag_Set (Some f) v c = None → flag_value f v = None.
Proof. destruct f; cbn; try done; by destruct (_ v). Qed.

(** Parsing ends with the values given, or a value is not one for its flag. *)
Lemma flags_Parse_command args settings c :
  command_line args settings →
  match flags_Parse args c with
  | Ok (c', rest) => rest = [] ∧
      ∀ f, Some (value_of c' f) = over (last (flag_values settings f)) (flag_value f) (Some (value_of c f))
  | Err _ => ∃ name v f, (name, v) ∈ settings ∧ named flag_table name = Some (Some f) ∧ flag_value f v = None
  end.
Proof.
  intros (parts & ended & Hparts & -> & Hend). revert c.
  induction Hparts as [|part [name v] parts settings Hg _ IH]; intros c; cbn [concat app].
  { destruct Hend as [-> | ->]; cbn; done. }
  rewrite <- app_assoc. destruct (flags_Parse_given _ _ _ (concat parts ++ ended) c Hg) as (target & Ht & Hp).
  destruct (flag_Set target v c) as [c1|] eqn:Es.
  - rewrite Hp. specialize (IH c1). destruct (flags_Parse _ c1) as [[c' rest]|e].
    + destruct IH as [Hrest IH]. split; [done|]. intros f. rewrite IH. unfold flag_values. cbn [List.filter fst]. rewrite Ht.
      destruct target as [g|]; [|cbn in Es; simplify_eq; by rewrite bool_decide_eq_false_2].
      rewrite (sets_over f g flag_value v _ c) by (by apply flag_Set_sets).
      destruct (decide (f = g)) as [->|Hne]; [by rewrite bool_decide_eq_true_2|by rewrite bool_decide_eq_false_2 by congruence].
    + destruct IH as (name' & v' & f & Hin & ?). exists name', v', f. split; [by right|done].
  - destruct (flags_Parse _ c); [done|]. destruct target as [f|]; [|done].
    exists name, v, f. split_and!; [by left|done|by apply flag_Set_None in Es].
Qed.

(** Every command line that is accepted to its end is of this kind. *)
Lemma read_argument_inv s name value : read_argument s = Flag name value →
  ∃ dash, dash ∈ ["-"; "--"] ∧ s = dash +:+ name +:+ match value with Some v => "=" +:+ v | None => "" end.
Proof.
  set (tail := match value with Some v => "=" +:+ v | None => "" end).
  assert (∀ t, match t with
      | EmptyString => BadSyntax
      | String a _ =>
          if bool_decide (a = "-"%char) || bool_decide (a = "="%char) then BadSyntax
          else match Cut t "=" with Some (name, value) => Flag name (Some value) | None => Flag t None end
      end = Flag name value → t = name +:+ tail) as Hflag.
  { intros [|a t]; [done|]. destruct (_ || _); [done|]. destruct (Cut _ "=") as [[n v]|] eqn:E; intros [= <- <-].
    - by apply Cut_Some in E.
    - unfold tail. by rewrite str_app_nil_r. }
  destruct s as [|a [|b t]]; [done..|]. unfold read_argument. case_bool_decide as Ha; cbn [negb]; [subst a|done].
  case_bool_decide as Hb; [subst b; case_bool_decide; [done|]|]; intros E.
  - apply Hflag in E. exists "--". split; [right; by left|]. by rewrite E.
  - assert (String b t = name +:+ tail) as E' by (apply Hflag; by rewrite bool_decide_eq_false_2).
    exists "-". split; [by left|]. by rewrite E'.
Qed.

Lemma read_Terminator s : read_argument s = Terminator → s = "--".
Proof.
  destruct s as [|a [|b t]]; [done..|]. unfold read_argument. case_bool_decide as Ha; cbn [negb]; [subst a|done].
  case_bool_decide as Hb; [subst b; case_bool_decide as Ht; [by subst t|]|]; repeat case_match; done.
Qed.

Lemma command_line_cons part setting args settings :
  given_as part setting → command_line args settings → command_line (part ++ args) (setting :: settings).
Proof.
  intros Hg (parts & ended & Hp & -> & He). exists (part :: parts), ended. split_and!; [by constructor| |done].
  cbn [concat]. by rewrite <- app_assoc.
Qed.

Lemma flags_Parse_accepts args c c' : flags_Parse args c = Ok (c', []) → ∃ settings, command_line args settings.
Proof.
  remember (length args) as n eqn:Hn. revert args c Hn. induction n as [n IH] using lt_wf_ind. intros args c Hn E.
  destruct args as [|s rest]; [exists [], [], []; split_and!; [constructor|done|by left]|]. cbn [flags_Parse] in E.
  assert (∀ part setting args' c1, given_as part setting → s :: rest = part ++ args' → (length args' < n)%nat →
    flags_Parse args' c1 = Ok (c', []) → ∃ settings, command_line (s :: rest) settings) as Hgo.
  { intros part setting args' c1 Hg -> Hlt E1. destruct (IH _ Hlt _ c1 eq_refl E1) as [settings Hs].
    exists (setting :: settings). by apply command_line_cons. }
  destruct (read_argument s) as [| | |name value] eqn:Er; [done| |done|].
  { injection E as _ ->. apply read_Terminator in Er as ->. exists [], [], ["--"]. split_and!; [constructor|done|by right]. }
  apply read_argument_inv in Er as (dash & Hdash & Es).
  destruct (named flag_table name) as [target|] eqn:Ht; [|by destruct (_ || _)].
  destruct value as [v|].
  { assert (∃ c1, flags_Parse rest c1 = Ok (c', [])) as [c1 E1].
    { cbn [default from_option id] in E. destruct (takes_argument target), (flag_Set target v c); try done; eauto. }
    eapply (Hgo [s] (name, v)); [|done|cbn in Hn; lia|exact E1]. rewrite Es. constructor; [done|eauto]. }
  rewrite str_app_nil_r in Es. destruct (takes_argument target) eqn:Ha.
  - destruct rest as [|v rest]; [done|]. destruct (flag_Set target v c) as [c1|]; [|done].
    eapply (Hgo [s; v] (name, v)); [|done|cbn in Hn; lia|exact E]. rewrite Es. econstructor; [done|exact Ht|].
    by intros f ->.
  - destruct target as [[| |f]|]; try done. destruct (flag_Set _ _ c) as [c1|]; [|done].
    eapply (Hgo [s] (name, "true")); [|done|cbn in Hn; lia|exact E]. rewrite Es. econstructor; [done|exact Ht].
Qed.

(** * [Load] *)

(** The checks and the paths follow the layers. *)
Lemma Load_Ok files getwd args lookup c :
  Load files getwd args lookup = Ok c →
  ∃ base env raw,
    (if bool_decide (config_path args lookup = "") then Ok Defaults else readFile (files (config_path args lookup)) Defaults) = Ok base ∧
    applyEnv lookup base = Ok env ∧ flags_Parse args env = Ok (raw, []) ∧
    let normal := set_text MetadataDriver (ToLower (TrimSpace (texts raw MetadataDriver))) raw in
    validate normal = Ok tt ∧ resolve_paths getwd normal = Ok c.
Proof.
  unfold Load. intros E. res_ok E. res_ok E. apply res_bind_Ok in E as ([raw rest] & E2 & E).
  apply res_bind_Ok in E as ([] & Hrest%reject_Ok & E). apply res_bind_Ok in E as ([] & Hv & E).
  apply negb_false_iff, bool_decide_eq_true in Hrest as ->. by exists c0, c1, raw.
Qed.

Lemma resolve_path_Ok getwd f what initial c c' :
  resolve_path getwd f what initial c = Ok c' →
  ∃ q, c' = set_text f q c ∧ (Abs getwd (texts c f) = Ok q ∨ ∃ path, initial = Some path ∧ q = path c).
Proof.
  assert (∀ c', (path ← wrap what (Abs getwd (texts c f)); Ok (set_text f path c)) = Ok c' →
    ∃ q, c' = set_text f q c ∧ Abs getwd (texts c f) = Ok q) as Habs.
  { intros c1 E. destruct (Abs getwd (texts c f)) as [q|e]; [|done]. injection E as <-. by exists q. }
  unfold resolve_path. destruct initial as [path|]; intros E.
  - destruct (bool_decide _); [injection E as <-; exists (path c); split; [done|right; by exists path]|]. apply Habs in E as (q & ? & ?). eauto.
  - apply Habs in E as (q & ? & ?). eauto.
Qed.

Definition path_fields : list text_field :=
  [MusicDir; DatabasePath; CredentialKeyPath; CacheDir; SlskdDownloadsDir; SlskdIncompleteDir; TorrentDir].

(** Only paths are changed when paths are resolved. *)
Lemma resolve_paths_other getwd c c' :
  resolve_paths getwd c = Ok c' →
  numbers c' = numbers c ∧ switches c' = switches c ∧ ∀ f, f ∉ path_fields → texts c' f = texts c f.
Proof.
  unfold resolve_paths. intros E. repeat (apply res_bind_Ok in E as (? & Hp & E); apply resolve_path_Ok in Hp as (? & -> & _)).
  apply resolve_path_Ok in E as (? & -> & _). split_and!; [done|done|]. intros f Hf. cbn.
  repeat (rewrite decide_False by (intros ->; apply Hf; unfold path_fields; set_solver)). done.
Qed.

(** *** Valid configurations *)

Definition absolute (p : string) : Prop := HasPrefix p "/" = true.

Record config_ok (c : Config) : Prop := {
  co_driver : texts c MetadataDriver = "sqlite" ∨ (texts c MetadataDriver = "postgres" ∧ TrimSpace (texts c DatabaseURL) ≠ "");
  co_cache : 0 < numbers c CacheSizeBytes;
  co_port : 0 ≤ numbers c TorrentPort < 2 ^ 16;
  co_limits : 0 ≤ numbers c TorrentUploadLimit ∧ 0 ≤ numbers c TorrentDownloadLimit;
  co_downloads : 0 < numbers c TorrentMaxDownloads ∧ 0 < numbers c SlskdMaxDownloads ∧ 0 < numbers c SlskdRetryAttempts;
  co_scan : 0 ≤ numbers c ScanIntervalSeconds;
  co_slskd : 0 < numbers c SlskdTimeoutSeconds ∧ 0 < numbers c SlskdPrebufferBytes ∧ 0 < numbers c SlskdPrebufferSeconds;
  co_auth : 0 < numbers c AuthFailureLimit ∧ 0 < numbers c AuthFailureWindow ∧ 0 < numbers c AuthBlockSeconds;
  co_paths f : f ∈ path_fields → absolute (texts c f);
}.

Lemma absolute_app p q : absolute p → absolute (p +:+ q).
Proof.
  destruct p as [|a p]; [done|]. change (String a p +:+ q) with (String a (p +:+ q)).
  unfold absolute, HasPrefix. cbn [String.prefix].
  destruct (ascii_dec "/" a); [by destruct (p +:+ q)|done].
Qed.

Lemma absolute_Clean p : absolute p → absolute (Clean p).
Proof.
  intros Hp. unfold Clean. rewrite Hp. set (body := Join _ _).
  change ("/" +:+ body) with (String "/" body). rewrite bool_decide_eq_false_2 by done.
  unfold absolute, HasPrefix. by destruct body.
Qed.

Lemma absolute_Join d l : absolute d → absolute (JoinPath (d :: l)).
Proof.
  intros Hd. unfold JoinPath. assert (d ≠ "") as Hne by (by intros ->). cbn [List.filter].
  rewrite bool_decide_eq_false_2 by done. cbn [negb]. apply absolute_Clean.
  destruct (List.filter _ l); cbn [Join]; [done|by apply absolute_app].
Qed.

Lemma Abs_absolute getwd p q : (∀ d, getwd = Ok d → absolute d) → Abs getwd p = Ok q → absolute q.
Proof.
  intros Hd. unfold Abs. destruct (HasPrefix p "/") eqn:Hp; [intros [= <-]; by apply absolute_Clean|].
  destruct getwd as [d|]; [|done]. intros [= <-]. by apply absolute_Join, Hd.
Qed.

Lemma resolve_path_absolute getwd f what initial c c' :
  (∀ d, getwd = Ok d → absolute d) → (∀ path, initial = Some path → absolute (path c)) →
  resolve_path getwd f what initial c = Ok c' → ∃ q, c' = set_text f q c ∧ absolute q.
Proof.
  intros Hd Hi (q & -> & [Ha|(path & Hp & ->)])%resolve_path_Ok; eexists; (split; [done|]); [by eapply Abs_absolute|by apply Hi].
Qed.

Lemma validate_Ok c :
  validate c = Ok tt →
  (texts c MetadataDriver = "sqlite" ∨ (texts c MetadataDriver = "postgres" ∧ TrimSpace (texts c DatabaseURL) ≠ "")) ∧
  0 < numbers c CacheSizeBytes ∧ 0 ≤ numbers c TorrentPort < 2 ^ 16 ∧
  (0 ≤ numbers c TorrentUploadLimit ∧ 0 ≤ numbers c TorrentDownloadLimit) ∧
  (0 < numbers c TorrentMaxDownloads ∧ 0 < numbers c SlskdMaxDownloads ∧ 0 < numbers c SlskdRetryAttempts) ∧
  0 ≤ numbers c ScanIntervalSeconds ∧
  (0 < numbers c SlskdTimeoutSeconds ∧ 0 < numbers c SlskdPrebufferBytes ∧ 0 < numbers c SlskdPrebufferSeconds) ∧
  (0 < numbers c AuthFailureLimit ∧ 0 < numbers c AuthFailureWindow ∧ 0 < numbers c AuthBlockSeconds).
Proof.
  unfold validate. intros E.
  repeat (apply res_bind_Ok in E as ([] & ?%reject_Ok & E)). apply reject_Ok in E.
  repeat match goal with X : _ || _ = false |- _ => apply orb_false_iff in X as [? ?] end.
  split; [|lia].
  destruct (decide (texts c MetadataDriver = "sqlite")) as [|Hs]; [by left|right].
  rewrite (bool_decide_eq_false_2 (texts c MetadataDriver = "sqlite")) in * by done.
  destruct (decide (texts c MetadataDriver = "postgres")) as [Hp|Hp]; cycle 1.
  { by rewrite (bool_decide_eq_false_2 (texts c MetadataDriver = "postgres")) in * by done. }
  rewrite (bool_decide_eq_true_2 (texts c MetadataDriver = "postgres")) in * by done.
  split; [done|]. by eapply bool_decide_eq_false_1.
Qed.

Ltac resolved Hp :=
  apply resolve_path_absolute in Hp as (? & -> & ?);
    [|done|intros path [= <-]; cbn; repeat (rewrite decide_True by done || rewrite decide_False by done);
           first [by apply absolute_app|by apply absolute_Join]].

(** A configuration that is loaded is valid, wherever its values come from:
    the driver is one of the two, PostgreSQL has a URL, every number is in its
    range, and every directory and file is an absolute path. *)
Theorem loaded_configurations_are_valid files getwd args lookup c :
  (∀ d, getwd = Ok d → absolute d) → Load files getwd args lookup = Ok c → config_ok c.
Proof.
  intros Hd (base & env & raw & _ & _ & _ & Hv & E)%Load_Ok.
  set (normal := set_text MetadataDriver _ raw) in *. clearbody normal.
  apply validate_Ok in Hv as (Hdriver & Hrest).
  destruct (resolve_paths_other _ _ _ E) as (Hn & _ & Ht).
  split; rewrite ?Hn; try tauto.
  { rewrite !Ht by (apply (bool_decide_unpack _); vm_compute; exact I). exact Hdriver. }
  clear Hdriver Hrest Hn Ht. unfold resolve_paths in E.
  do 6 (apply res_bind_Ok in E as (? & Hp & E); resolved Hp). resolved E.
  intros f Hf. cbn.
  repeat (destruct (decide (f = _)) as [->|]; [done|]). unfold path_fields in Hf. set_solver.
Qed.

Definition json_members (file : config_file) : list (string * json) :=
  match file with Parsed (JObject members) => members | _ => [] end.

Lemma readFile_Ok file c c' :
  readFile file c = Ok c' →
  ∀ f, Some (value_of c' f) = over (last (file_values (json_members file) f)) (json_value f) (Some (value_of c f)).
Proof.
  destruct file as [e|e|[]]; cbn; try done; intros E f; [by simplify_eq|].
  destruct (decode_members members c) as [c1 [e|]] eqn:Ed; simplify_eq. by apply decode_members_Ok in Ed as [_ Hv].
Qed.

(** The value of a field by the layers. *)
Definition layered (members : list (string * json)) (lookup : string → option string) (settings : list (string * string))
    (f : field) : option value :=
  over (last (flag_values settings f)) (flag_value f)
    (over (lookup (env_key f)) (env_value f)
      (over (last (file_values members f)) (json_value f) (Some (value_of Defaults f)))).

(** What the layers make of every field. *)
Definition from_layers (members : list (string * json)) (lookup : string → option string) (settings : list (string * string))
    (raw : Config) : Prop :=
  ∀ f, Some (value_of raw f) = layered members lookup settings f.

(** The driver's name is trimmed and lowered. *)
Definition with_driver (raw : Config) : Config :=
  set_text MetadataDriver (ToLower (TrimSpace (texts raw MetadataDriver))) raw.

End layers.

(** * Examples *)

#[local] Existing Instance ascii_unicode.
#[local] Existing Instance stable_runtime.

Definition toy_files (path : string) : config_file :=
  if bool_decide (path = "p.json")
  then Parsed (JObject [("torrent_port", JNumber "7"); ("auth_block_seconds", JNumber "5"); ("USERNAME", JString "ann")])
  else Unreadable (Sentinel ErrOsNotExist).

Definition toy_lookup (key : string) : option string :=
  if bool_decide (key = "PEERPHONIC_TORRENT_PORT") then Some "8"
  else if bool_decide (key = "PEERPHONIC_AUTH_BLOCK_SECONDS") then Some "6"
  else None.

Definition toy_settings : list (string * string) :=
  [("config", "p.json"); ("music", "m/../x"); ("scan", "true"); ("torrent-seed", "false"); ("torrent-port", "9");
   ("torrent-port", "0x10")].

(** The same in the forms there are. *)
Definition toy_args : list string :=
  ["--config"; "p.json"; "--music"; "m/../x"; "-scan"; "--torrent-seed=false"; "-torrent-port=9"; "-torrent-port"; "0x10"; "--"].

Definition toy_config : Config :=
  match Load toy_files (Ok "/home") toy_args toy_lookup with Ok c => c | Err _ => Defaults end.

Lemma toy_loaded : Load toy_files (Ok "/home") toy_args toy_lookup = Ok toy_config.
Proof.
  assert (is_ok (Load toy_files (Ok "/home") toy_args toy_lookup) = true) as X by (vm_compute; reflexivity).
  unfold toy_config. by destruct (Load _ _ _ _).
Qed.

Lemma toy_command : command_line toy_args toy_settings.
Proof.
  exists [["--config"; "p.json"]; ["--music"; "m/../x"]; ["-scan"]; ["--torrent-seed=false"]; ["-torrent-port=9"]; ["-torrent-port"; "0x10"]],
    ["--"].
  split_and!; [|done|by right].
  constructor; [apply (given_next "--" "config" "p.json" None); [right; by left|reflexivity|done]|].
  constructor; [apply (given_next "--" "music" "m/../x" (Some (Text MusicDir))); [right; by left|reflexivity|done]|].
  constructor; [apply (given_bare "-" "scan" ScanOnStart); [by left|reflexivity]|].
  constructor; [apply (given_equals "--" "torrent-seed" "false"); [right; by left|eexists; reflexivity]|].
  constructor; [apply (given_equals "-" "torrent-port" "9"); [by left|eexists; reflexivity]|].
  constructor; [apply (given_next "-" "torrent-port" "0x10" (Some (Number TorrentPort))); [by left|reflexivity|done]|].
  constructor.
Qed.

Lemma loaded_configurations_are_valid_witness : absolute (texts toy_config MusicDir) ∧ 0 < numbers toy_config AuthBlockSeconds.
Proof.
  destruct (loaded_configurations_are_valid toy_files (Ok "/home") toy_args toy_lookup toy_config) as
    [_ _ _ _ _ _ _ [_ [_ Hauth]] Hpaths].
  - intros d [= <-]. reflexivity.
  - exact toy_loaded.
  - split; [|exact Hauth]. apply Hpaths. left.
Defined.


(** [flag] reads [-config] like [--config], but the file is looked for before, by
    [findConfigPath], which knows only the latter: the file is not read. *)
Example a_single_dash_reads_no_file :
  config_path ["-config"; "p.json"; "--music=m"] (λ _, None) = "" ∧
  config_path ["--config"; "p.json"; "--music=m"] (λ _, None) = "p.json" ∧
  is_ok (Load toy_files (Ok "/home") ["-config"; "p.json"; "--music=m"] (λ _, None)) = true.
Proof. split_and!; vm_compute; reflexivity. Qed.
