(* ===== verification/Listings.v ===== *)
(** The listings of the catalog ([adapters/storage/sqlite/catalog.go]): artists,
    albums, genres, songs by genre or at random, and searching. *)
From stdpp Require Import base gmap strings list sorting.
From Stdlib Require Import ZArith Lia.
From S2P Require Import Prelude GoStrings GoTime Sql Music Library LibraryTheorems Annotations SubsonicData SubsonicApi.

Open Scope Z_scope.
Open Scope go_scope.

(** * What the queries use of SQL *)

Section sql.

(** [GROUP BY]: the keys that occur, each with its rows. *)
Definition group_rows {A} (key : A → string) (rows : list A) : list (string * list A) :=
  map (λ k, (k, List.filter (λ x, bool_decide (key x = k)) rows)) (remove_dups (map key rows)).

(** [MIN(NULLIF(x, ''))] and [MIN(NULLIF(x, 0))]. *)
Definition min_not_empty (l : list string) : option string :=
  match List.filter (λ x, negb (bool_decide (x = ""))) l with [] => None | l => Some (min_text l) end.
Definition min_not_zero (l : list Z) : option Z :=
  match List.filter (λ x, negb (x =? 0)) l with [] => None | x :: l => Some (fold_left Z.min l x) end.

(** [MAX(x)] of texts; [NULL] when there is none. *)
Definition max_text (l : list string) : option string :=
  match l with [] => None | x :: l => Some (fold_left (λ m y, if str_ltb m y then y else m) l x) end.

(** [SUM(x)]; a sum that does not fit is an error. *)
Definition SUM (l : list Z) : res Z :=
  let s := fold_right Z.add 0 l in if between (- 2 ^ 63) (2 ^ 63 - 1) s then Ok s else Err (Plain "integer overflow").

(** [LIMIT ? OFFSET ?]; a negative limit is none. *)
Definition limit_offset {A} (limit offset : Z) (l : list A) : list A :=
  let rest := drop (Z.to_nat offset) l in if limit <? 0 then rest else take (Z.to_nat limit) rest.

(** [NULL] comes before every value. *)
Definition null_less {A} (less : A → A → bool) (x y : option A) : bool :=
  match x, y with None, Some _ => true | Some x, Some y => less x y | _, _ => false end.

(** [ORDER BY f, g] of texts without regard to ASCII case. *)
Definition lower_less (x y : string) : bool := str_ltb (sql_lower x) (sql_lower y).
Definition lower_less2 (x y : string * string) : bool :=
  lower_less x.1 y.1 || (bool_decide (sql_lower x.1 = sql_lower y.1) && lower_less x.2 y.2).
End sql.

(** * Albums *)

(** A row of the query's [albums]. *)
Record album_row := mkAlbumRow {
  al_row_ID : string;
  al_row_Name : string;
  al_row_Artist : string;
  al_row_ArtistID : string;
  al_row_Year : option Z;
  al_row_Count : Z;
  al_row_Milliseconds : Z;
  al_row_Cover : option string;
  al_row_Genre : option string;
  al_row_Discovered : option string;
}.

Section listings.
Context `{Runtime} `{Unicode}.

Definition all_rows (t : library) : list Track := map snd (map_range (tracks t)).

(** [source_dates], the latest of the tracks of a group. *)
Definition discovered_texts (t : library) (x : Track) : list string :=
  omap (λ s : SourceRef * (string * time), if bool_decide (s.2.1 = ID x) then Some (time_text s.2.2) else None)
    (map_range (track_sources t)).

(** A group of tracks as an album; [artist] is the name and the id it is listed under. *)
Definition album_of (t : library) (artist : Track → string * string) (g : string * list Track) : res album_row :=
  sum ← SUM (map (λ x, Milliseconds (Duration x)) g.2);
  Ok (mkAlbumRow g.1 (min_text (map Album g.2)) (min_text (map (λ x, (artist x).1) g.2)) (min_text (map (λ x, (artist x).2) g.2))
        (min_not_zero (map Year g.2)) (Z.of_nat (length g.2)) sum (min_not_empty (map CoverArtID g.2))
        (min_not_empty (map Genre g.2)) (max_text (concat (map (discovered_texts t) g.2)))).

Definition own_artist (x : Track) : string * string := (AlbumArtist x, AlbumArtistID x).

(** [scanAlbums]. *)
Definition scanAlbum (r : album_row) : AlbumEntry :=
  mkAlbum (al_row_ID r) (al_row_Name r) (al_row_Artist r) (al_row_ArtistID r) (default 0 (al_row_Year r))
    (default "" (al_row_Genre r)) (al_row_Count r) (i64 (al_row_Milliseconds r * 10 ^ 6)) (default "" (al_row_Cover r)).

Definition album_before (order : AlbumOrder) (x y : album_row) : bool :=
  let name r := al_row_Name r in
  match order with
  | AlbumOrderNone | AlbumOrderName => lower_less2 (name x, al_row_Artist x) (name y, al_row_Artist y)
  | AlbumOrderArtist => lower_less2 (al_row_Artist x, name x) (al_row_Artist y, name y)
  | AlbumOrderNewest =>
      null_less str_ltb (al_row_Discovered y) (al_row_Discovered x) ||
      (bool_decide (al_row_Discovered x = al_row_Discovered y) && lower_less (name x) (name y))
  | AlbumOrderRandom => false
  | AlbumOrderYearAsc =>
      null_less Z.ltb (al_row_Year x) (al_row_Year y) ||
      (bool_decide (al_row_Year x = al_row_Year y) && lower_less (name x) (name y))
  | AlbumOrderYearDesc =>
      null_less Z.ltb (al_row_Year y) (al_row_Year x) ||
      (bool_decide (al_row_Year x = al_row_Year y) && lower_less (name x) (name y))
  end.

(** The conditions of [WHERE]. *)
Definition album_kept (q : AlbumListQuery) (t : library) (r : album_row) : bool :=
  ((bool_decide (aq_FromYear q = 0) && bool_decide (aq_ToYear q = 0)) ||
   match al_row_Year r with
   | Some year => between (Z.min (aq_FromYear q) (aq_ToYear q)) (Z.max (aq_FromYear q) (aq_ToYear q)) year
   | None => false
   end) &&
  (bool_decide (aq_Genre q = "") ||
   existsb (λ x, bool_decide (AlbumID x = al_row_ID r) && bool_decide (sql_lower (Genre x) = sql_lower (aq_Genre q))) (all_rows t)).

Definition select_albums (q : AlbumListQuery) (t : library) : res (list AlbumEntry) :=
  rows ← mapM (album_of t own_artist) (group_rows AlbumID (all_rows t));
  Ok (map scanAlbum (limit_offset (aq_Limit q) (aq_Offset q)
       (sort_slice (album_before (aq_Order q)) (List.filter (album_kept q t) rows)))).

(** A query whose rows may be an error. *)
Definition query {A} (f : library → res A) : M db A := statement (λ t, a ← f t; Ok (a, t)).

Definition Albums (q : AlbumListQuery) : M db (list AlbumEntry) :=
  wrap_err (λ e, Errorf "query all albums: " e "") (query (select_albums q)).

(** [COALESCE(alias.target, ...)]. *)
Definition resolved (t : library) (id name : string) : string * string :=
  match artist_aliases t !! id with Some a => (aa_target_name a, aa_target a) | None => (name, id) end.

(** The albums with a track by the artist, or whose artist is the artist. *)
Definition albums_with (t : library) (artistID : string) : list string :=
  map AlbumID (List.filter (λ x, bool_decide ((resolved t (AlbumArtistID x) (AlbumArtist x)).2 = artistID) ||
                                 bool_decide ((resolved t (ArtistID x) (Artist x)).2 = artistID)) (all_rows t)).

Definition select_artist_albums (artistID : string) (t : library) : res (list AlbumEntry) :=
  rows ← mapM (album_of t (λ x, resolved t (AlbumArtistID x) (AlbumArtist x)))
    (group_rows AlbumID (List.filter (λ x, bool_decide (AlbumID x ∈ albums_with t artistID)) (all_rows t)));
  Ok (map scanAlbum (sort_slice (λ x y, lower_less (al_row_Name x) (al_row_Name y)) rows)).

Definition AlbumsByArtist (artistID : string) : M db (list AlbumEntry) :=
  artistID ← resolveArtistID artistID;
  wrap_err (λ e, Errorf "query albums: " e "") (query (select_artist_albums artistID)).

(** * Artists and genres *)

Definition select_artists (t : library) : list ArtistEntry :=
  sort_slice (λ x y, lower_less (artist_Name x) (artist_Name y))
    (omap (λ id, select_artist id t) (remove_dups (map (λ r, r.1.1) (map (resolve_role t) (artist_roles t))))).

Definition Artists : M db (list ArtistEntry) :=
  wrap_err (λ e, Errorf "query artists: " e "") (QueryContext select_artists).

Definition count_distinct (l : list string) : Z := Z.of_nat (length (remove_dups l)).

Definition select_genres (t : library) : list genre :=
  let groups := group_rows (λ x, sql_lower (Genre x)) (List.filter (λ x, negb (bool_decide (Genre x = ""))) (all_rows t)) in
  sort_slice (λ x y, lower_less (gn_Value x) (gn_Value y))
    (map (λ g, mkGenre (min_text (map Genre g.2)) (Z.of_nat (length g.2)) (count_distinct (map AlbumID g.2))) groups).

Definition Genres : M db (list genre) := wrap_err (λ e, Errorf "query genres: " e "") (QueryContext select_genres).

(** * Songs *)

Definition genre_less (x y : Track) : bool :=
  lower_less (Album x) (Album y) || (bool_decide (sql_lower (Album x) = sql_lower (Album y)) && album_less x y).

Definition of_genre (genre : string) (x : Track) : bool := bool_decide (sql_lower (Genre x) = sql_lower genre).

Definition TracksByGenre (genre : string) (offset limit : Z) : M db (list Track) :=
  wrap_err (λ e, Errorf "query genre tracks: " e "")
    (QueryContext (λ t, limit_offset limit offset (sort_slice genre_less (select_tracks (of_genre genre) t)))).

Definition random_kept (q : RandomTracksQuery) (x : Track) : bool :=
  (bool_decide (rt_Genre q = "") || of_genre (rt_Genre q) x) && ((rt_FromYear q =? 0) || (rt_FromYear q <=? Year x)) &&
  ((rt_ToYear q =? 0) || (Year x <=? rt_ToYear q)).

(** [ORDER BY RANDOM()]: an order of which nothing is known. *)
Definition RandomTracks (q : RandomTracksQuery) : M db (list Track) :=
  wrap_err (λ e, Errorf "query random tracks: " e "")
    (QueryContext (λ t, limit_offset (rt_Limit q) 0 (sort_slice (λ _ _, false) (select_tracks (random_kept q) t)))).

(** * Searching *)

Definition Search (q : CatalogSearch) : M db CatalogSearchResult :=
  artists ← Artists;
  albums ← Albums (mkAlbumQuery 0 (2 ^ 63 - 1) AlbumOrderNone 0 0 "");
  songs ← allTracks;
  let needle := ToLower (TrimSpace (cs_Text q)) in
  let found s := containsFolded s needle in
  mret (mkCatalogResult
    (page (List.filter (λ a, found (artist_Name a)) artists) (cs_Artists q).1 (cs_Artists q).2)
    (page (List.filter (λ a, found (album_Name a) || found (album_Artist a)) albums) (cs_Albums q).1 (cs_Albums q).2)
    (page (List.filter (λ s, found (Title s) || found (Artist s) || found (Album s)) songs) (cs_Songs q).1 (cs_Songs q).2)).

(** The catalog as the handlers of the API read it. *)
Definition db_catalog : catalog_reader db :=
  mkCatalog db Artists Library.getArtist AlbumsByArtist Albums TracksByAlbum Genres TracksByGenre RandomTracks getTrack Search.
End listings.
