(* ===== verification/ListingTheorems.v ===== *)
(** What the catalog lists is what it opens. *)
From stdpp Require Import base gmap strings list sorting.
From Stdlib Require Import ZArith Lia.
From S2P Require Import Prelude GoStrings GoTime Sql Music Library LibraryTheorems PlayQueues Annotations SubsonicData SubsonicApi Listings.

Open Scope Z_scope.
Open Scope go_scope.

(** * Grouping *)

Lemma group_rows_keys {A} (key : A → string) rows : map fst (group_rows key rows) = remove_dups (map key rows).
Proof. unfold group_rows. rewrite map_map. apply map_id. Qed.

Lemma group_rows_elem {A} (key : A → string) rows k l :
  (k, l) ∈ group_rows key rows ↔ k ∈ map key rows ∧ l = List.filter (λ x, bool_decide (key x = k)) rows.
Proof.
  unfold group_rows. rewrite list_elem_of_fmap. setoid_rewrite elem_of_remove_dups. split.
  - intros (k' & [= -> ->] & Hk). done.
  - intros [Hk ->]. eauto.
Qed.

Lemma mapM_Ok {A B} (f : A → res B) l rs : mapM f l = Ok rs → Forall2 (λ x r, f x = Ok r) l rs.
Proof.
  revert rs. induction l as [|x l IH]; intros rs; simpl; [by intros [= <-]|].
  destruct (f x) as [r|e] eqn:E; [|done]. simpl. destruct (mapM f l) as [rs'|e]; [|done]. simpl.
  intros [= <-]. constructor; auto.
Qed.

(** The size of a set of the elements of a list. *)
Lemma size_of_elements (l : list string) : size (list_to_set (C := gset string) l) = length (remove_dups l).
Proof.
  assert (list_to_set (C := gset string) l = list_to_set (remove_dups l)) as -> by (apply set_eq; intros x; by rewrite !elem_of_list_to_set, elem_of_remove_dups).
  apply size_list_to_set, NoDup_remove_dups.
Qed.

Lemma size_of_equal_elements (l k : list string) : (∀ x, x ∈ l ↔ x ∈ k) → length (remove_dups l) = length (remove_dups k).
Proof.
  intros Heq. rewrite <- !size_of_elements. f_equal. apply set_eq. intros x. by rewrite !elem_of_list_to_set.
Qed.

(** A fold that chooses among what it sees. *)
Lemma fold_left_choice {A} (f : A → A → A) l x : (∀ x y, f x y = x ∨ f x y = y) → fold_left f l x ∈ x :: l.
Proof.
  intros Hf. revert x. induction l as [|y l IH]; intros x; [by left|]. cbn [fold_left].
  specialize (IH (f x y)). apply elem_of_cons in IH as [->|IH]; [|by right; right].
  destruct (Hf x y) as [-> | ->]; [by left|by right; left].
Qed.

Lemma min_text_in x l : min_text (x :: l) ∈ x :: l.
Proof. apply fold_left_choice. intros a b. case_match; auto. Qed.

Lemma min_not_empty_in l : default "" (min_not_empty l) ∈ "" :: l.
Proof.
  unfold min_not_empty. destruct (List.filter _ l) as [|x k] eqn:E; [by left|]. right.
  pose proof (min_text_in x k) as Hin. rewrite <- E in Hin. cbn [default from_option id]. rewrite <- E.
  by apply elem_of_filter_bool in Hin as [? _].
Qed.

Lemma min_not_zero_in l : default 0 (min_not_zero l) ∈ 0 :: l.
Proof.
  unfold min_not_zero. destruct (List.filter _ l) as [|x k] eqn:E; [by left|]. right. cbn [default from_option id].
  pose proof (fold_left_choice Z.min k x ltac:(lia)) as Hin. rewrite <- E in Hin. by apply elem_of_filter_bool in Hin as [? _].
Qed.

(** * Orders *)

Ltac all_orders x y z T N :=
  pose proof (T x y z); pose proof (T x z y); pose proof (T y x z); pose proof (T y z x); pose proof (T z x y); pose proof (T z y x);
  pose proof (N x y z); pose proof (N x z y); pose proof (N y x z); pose proof (N y z x); pose proof (N z x y); pose proof (N z y x).

(** First by one order, and by another where the first is undecided. *)
Lemma strict_weak_then {A} (lt eq next : A → A → bool) :
  strict_weak lt → strict_weak next → (∀ x y, eq x y = true ↔ lt x y = false ∧ lt y x = false) →
  strict_weak (λ x y, lt x y || (eq x y && next x y)).
Proof.
  intros [I1 T1 N1] [I2 T2 N2] Heq.
  assert (∀ x y, eq x y = negb (lt x y) && negb (lt y x)) as He.
  { intros x y. destruct (eq x y) eqn:E; [by apply Heq in E as [-> ->]|].
    destruct (lt x y) eqn:E1, (lt y x) eqn:E2; try done. assert (eq x y = true) as X by (by apply Heq). congruence. }
  split.
  - intros x. by rewrite I1, I2, andb_false_r.
  - intros x y z. rewrite !He. all_orders x y z T1 N1. pose proof (T2 x y z).
    destruct (lt x y), (lt y x), (lt y z), (lt z y), (lt x z), (lt z x); simpl in *; intuition congruence.
  - intros x y z. rewrite !He. all_orders x y z T1 N1. pose proof (N2 x y z).
    destruct (lt x y), (lt y x), (lt y z), (lt z y), (lt x z), (lt z x), (next y x), (next z y); simpl in *; intuition congruence.
Qed.

Lemma strict_weak_on {A B} (f : A → B) less : strict_weak less → strict_weak (λ x y, less (f x) (f y)).
Proof. intros [I T N]. split; eauto. Qed.

Lemma strict_weak_flip {A} (less : A → A → bool) : strict_weak less → strict_weak (λ x y, less y x).
Proof. intros [I T N]. split; eauto. Qed.

Lemma strict_weak_null {A} (less : A → A → bool) : strict_weak less → strict_weak (null_less less).
Proof.
  intros [I T N]. split; [intros [x|]|intros [x|] [y|] [z|]|intros [x|] [y|] [z|]]; cbn; eauto; discriminate.
Qed.

(** An order that decides between different values. *)
Definition decides {A} (less : A → A → bool) : Prop := ∀ x y, less x y = false → less y x = false → x = y.

Lemma decides_null {A} (less : A → A → bool) : decides less → decides (null_less less).
Proof. intros Hl [x|] [y|]; cbn; try done. intros. f_equal. by apply Hl. Qed.

Lemma equal_keys {A K} `{EqDecision K} (key : A → K) (less : K → K → bool) x y :
  strict_weak less → decides less → bool_decide (key x = key y) = true ↔ less (key x) (key y) = false ∧ less (key y) (key x) = false.
Proof.
  intros Hw Hd. rewrite bool_decide_eq_true. split; [intros ->; by rewrite (sw_irrefl _ Hw)|]. intros [? ?]. by apply Hd.
Qed.

Lemma decides_str : decides str_ltb.
Proof. intros x y. apply str_ltb_total. Qed.
Lemma decides_Z : decides Z.ltb.
Proof. intros x y. lia. Qed.
Lemma strict_weak_Z : strict_weak Z.ltb.
Proof. split; intros; lia. Qed.

Lemma strict_weak_lower : strict_weak lower_less.
Proof. exact (strict_weak_on sql_lower _ strict_weak_str). Qed.

Lemma strict_weak_lower2 : strict_weak lower_less2.
Proof.
  apply (strict_weak_then (λ x y : string * string, lower_less x.1 y.1) (λ x y, bool_decide (sql_lower x.1 = sql_lower y.1))
    (λ x y, lower_less x.2 y.2)).
  - exact (strict_weak_on fst _ strict_weak_lower).
  - exact (strict_weak_on snd _ strict_weak_lower).
  - intros x y. exact (equal_keys (λ z : string * string, sql_lower z.1) str_ltb x y strict_weak_str decides_str).
Qed.

Lemma strict_weak_none {A} : strict_weak (λ _ _ : A, false).
Proof. by split. Qed.

(** By a key, and then by name. *)
Lemma strict_weak_by {K} `{EqDecision K} (key : album_row → K) less :
  strict_weak less → decides less →
  strict_weak (λ x y, less (key x) (key y) || (bool_decide (key x = key y) && lower_less (al_row_Name x) (al_row_Name y))).
Proof.
  intros Hw Hd. apply (strict_weak_then (λ x y, less (key x) (key y)) (λ x y, bool_decide (key x = key y))).
  - by apply (strict_weak_on key).
  - exact (strict_weak_on al_row_Name _ strict_weak_lower).
  - intros x y. by apply (equal_keys key).
Qed.

Lemma strict_weak_by_null {K} `{EqDecision K} (key : album_row → option K) less :
  strict_weak less → decides less →
  strict_weak (λ x y, null_less less (key x) (key y) || (bool_decide (key x = key y) && lower_less (al_row_Name x) (al_row_Name y))) ∧
  strict_weak (λ x y, null_less less (key y) (key x) || (bool_decide (key x = key y) && lower_less (al_row_Name x) (al_row_Name y))).
Proof.
  intros Hw Hd. split; [|apply (strict_weak_by key (λ a b, null_less less b a))].
  - apply strict_weak_by; [by apply strict_weak_null|by apply decides_null].
  - by apply strict_weak_flip, strict_weak_null.
  - intros x y E1 E2. by apply (decides_null less Hd).
Qed.

Lemma strict_weak_album order : strict_weak (album_before order).
Proof.
  pose proof (strict_weak_by_null al_row_Year _ strict_weak_Z decides_Z) as [Ha Hd].
  pose proof (strict_weak_by_null al_row_Discovered _ strict_weak_str decides_str) as [_ Hn].
  destruct order; [| | | done | apply strict_weak_none | done | done].
  - exact (strict_weak_on (λ r, (al_row_Name r, al_row_Artist r)) _ strict_weak_lower2).
  - exact (strict_weak_on (λ r, (al_row_Name r, al_row_Artist r)) _ strict_weak_lower2).
  - exact (strict_weak_on (λ r, (al_row_Artist r, al_row_Name r)) _ strict_weak_lower2).
Qed.

Section listings.
Context `{Runtime} `{Unicode}.

Lemma all_rows_elem t x : x ∈ all_rows t ↔ ∃ id, tracks t !! id = Some x.
Proof.
  unfold all_rows. rewrite list_elem_of_fmap. split.
  - intros ([id y] & -> & Hin). rewrite map_range_perm, elem_of_map_to_list in Hin. eauto.
  - intros [id Hid]. exists (id, x). by rewrite map_range_perm, elem_of_map_to_list.
Qed.

Lemma query_Ok {A} wrap (f : library → res A) d a d' :
  wrap_err wrap (query f) d = (Ok a, d') → tables d' = tables d ∧ f (tables d) = Ok a.
Proof.
  unfold wrap_err, query, statement. destruct (faults d) as [|[e|] fs]; [|done|]; destruct (f (tables d)) as [x|e]; try done;
    by intros [= <- <-].
Qed.

Lemma read_query_Ok {A} wrap (f : library → A) d a d' :
  wrap_err wrap (QueryContext f) d = (Ok a, d') → tables d' = tables d ∧ f (tables d) = a.
Proof.
  unfold wrap_err, QueryContext, statement. destruct (faults d) as [|[e|] fs]; try done; by intros [= <- <-].
Qed.

(** * Albums *)

(** The tracks of an album, and what a listing may show of them. *)
Definition album_tracks (t : library) (id : string) : list Track :=
  List.filter (λ x, bool_decide (AlbumID x = id)) (all_rows t).

Record shows_album (artist : Track → string * string) (rows : list Track) (a : AlbumEntry) : Prop := {
  sa_some : rows ≠ [];
  sa_count : album_SongCount a = Z.of_nat (length rows);
  sa_duration : album_Duration a = i64 (fold_right Z.add 0 (map (λ x, Milliseconds (Duration x)) rows) * 10 ^ 6);
  sa_name : album_Name a ∈ map Album rows;
  sa_artist : album_Artist a ∈ map (λ x, (artist x).1) rows;
  sa_artist_id : album_ArtistID a ∈ map (λ x, (artist x).2) rows;
  sa_year : album_Year a ∈ 0 :: map Year rows;
  sa_genre : album_Genre a ∈ "" :: map Genre rows;
  sa_cover : album_CoverArtID a ∈ "" :: map CoverArtID rows;
}.

Lemma album_of_shows t artist g r :
  g.2 ≠ [] → album_of t artist g = Ok r → al_row_ID r = g.1 ∧ shows_album artist g.2 (scanAlbum r).
Proof.
  intros Hne. unfold album_of, SUM. destruct (between _ _ _); [|done]. intros [= <-]. split; [done|].
  assert (∀ f : Track → string, min_text (map f g.2) ∈ map f g.2) as Hmin.
  { intros f. destruct g.2 as [|x l]; [done|]. apply min_text_in. }
  split; cbn; try done; try apply Hmin; [apply min_not_zero_in|apply min_not_empty_in|apply min_not_empty_in].
Qed.

(** The rows of a grouped query: one for every key, and each shows its group. *)
Lemma grouped_albums t artist rows l :
  mapM (album_of t artist) (group_rows AlbumID rows) = Ok l →
  map al_row_ID l = remove_dups (map AlbumID rows) ∧
  ∀ r, r ∈ l → shows_album artist (List.filter (λ x, bool_decide (AlbumID x = al_row_ID r)) rows) (scanAlbum r).
Proof.
  intros HF%mapM_Ok.
  assert (∀ g r, g ∈ group_rows AlbumID rows → album_of t artist g = Ok r →
    al_row_ID r = g.1 ∧ shows_album artist (List.filter (λ x, bool_decide (AlbumID x = al_row_ID r)) rows) (scanAlbum r)) as Hg.
  { intros [k l'] r [Hk ->]%group_rows_elem Hr. apply album_of_shows in Hr as [Hid Hs].
    - cbn in *. by rewrite Hid.
    - cbn. apply list_elem_of_fmap in Hk as (x & -> & Hx). intros Hnil.
      assert (x ∈ List.filter (λ y, bool_decide (AlbumID y = AlbumID x)) rows) as Hin
        by (apply elem_of_filter_bool; split; [done|by apply bool_decide_eq_true]).
      rewrite Hnil in Hin. by apply elem_of_nil in Hin. }
  split.
  - rewrite <- group_rows_keys. revert HF Hg. generalize (group_rows AlbumID rows). intros gs HF Hg.
    induction HF as [|g r gs l Hr HF IH]; [done|]. simpl. f_equal; [|apply IH; intros; apply Hg; [by right|done]].
    by destruct (Hg g r ltac:(by left) Hr).
  - intros r Hr. apply list_elem_of_lookup in Hr as [i Hi]. destruct (Forall2_lookup_r _ _ _ _ _ HF Hi) as (g & Hgi & Hgr).
    apply (Hg g r); [by eapply list_elem_of_lookup_2|done].
Qed.

Lemma limit_offset_sublist {A} limit offset (l : list A) : sublist (limit_offset limit offset l) l.
Proof.
  unfold limit_offset. case_match; [apply sublist_drop|]. etransitivity; [apply sublist_take|apply sublist_drop].
Qed.

(** The rows of [select_albums] before the window. *)
Record listed_rows (q : AlbumListQuery) (t : library) (full : list album_row) : Prop := {
  lr_sorted : sorted_by (album_before (aq_Order q)) full;
  lr_once : NoDup (map al_row_ID full);
  lr_shown r : r ∈ full → album_kept q t r = true ∧ shows_album own_artist (album_tracks t (al_row_ID r)) (scanAlbum r);
  lr_all x : x ∈ all_rows t → aq_FromYear q = 0 → aq_ToYear q = 0 → aq_Genre q = "" → AlbumID x ∈ map al_row_ID full;
}.

Lemma select_albums_Ok q t l :
  select_albums q t = Ok l →
  ∃ full, l = map scanAlbum (limit_offset (aq_Limit q) (aq_Offset q) full) ∧ listed_rows q t full.
Proof.
  unfold select_albums. destruct (mapM _ _) as [rows|] eqn:E; [|done]. intros [= <-].
  apply grouped_albums in E as [Hids Hrows]. eexists. split; [done|].
  assert (sort_slice (album_before (aq_Order q)) (List.filter (album_kept q t) rows) ≡ₚ List.filter (album_kept q t) rows) as Hp
    by apply sort_slice_perm.
  split.
  - apply sort_slice_sorted, strict_weak_album.
  - rewrite Hp. assert (NoDup (map al_row_ID rows)) as Hnd by (rewrite Hids; apply NoDup_remove_dups).
    clear -Hnd. induction rows as [|r rows IH]; [constructor|]. apply NoDup_cons in Hnd as [Hr Hnd]. simpl.
    case_match; [|by apply IH]. simpl. constructor; [|by apply IH].
    intros (r' & E & [Hin _]%elem_of_filter_bool)%list_elem_of_fmap. apply Hr, list_elem_of_fmap. eauto.
  - intros r. rewrite Hp. intros [Hr Hk]%elem_of_filter_bool. split; [done|by apply Hrows].
  - intros x Hx Hf Ht Hg. rewrite Hp.
    assert (AlbumID x ∈ map al_row_ID rows) as (r & Er & Hr)%list_elem_of_fmap
      by (rewrite Hids, elem_of_remove_dups; by apply list_elem_of_fmap_2).
    rewrite Er. apply list_elem_of_fmap_2, elem_of_filter_bool. split; [done|].
    unfold album_kept. by rewrite Hf, Ht, Hg.
Qed.

Lemma shows_album_perm artist rows rows' a : rows ≡ₚ rows' → shows_album artist rows a → shows_album artist rows' a.
Proof.
  intros Hp [Hne Hc Hd Hn Ha Hi Hy Hg Hcov]. split; try (rewrite <- Hp; done).
  intros ->. by apply Hne, Permutation_nil_r.
Qed.

(** An album opens with its tracks. *)
Lemma TracksByAlbum_Ok id d ts d' :
  album_tracks (tables d) id ≠ [] → TracksByAlbum id d = (Ok ts, d') → tables d' = tables d ∧ ts ≡ₚ album_tracks (tables d) id.
Proof.
  intros Hne E. unfold TracksByAlbum, tracksByCanonicalAlbum in E. apply bind_Ok_inv in E as (found & d1 & Hf & E).
  apply read_query_Ok in Hf as [T1 <-].
  assert (sort_slice album_less (select_tracks (λ x, bool_decide (AlbumID x = id)) (tables d)) ≡ₚ album_tracks (tables d) id) as Hp
    by apply sort_slice_perm.
  rewrite bool_decide_eq_true_2 in E; [by injection E as <- <-|].
  intros Hnil. apply Hne. rewrite Hnil in Hp. by apply Permutation_nil_r.
Qed.

(** C25. What the list of albums says of an album is what the album shows when it
    is opened: its number of songs, their total length, and its name, artist,
    year, genre and cover, which are those of some of its songs.  No album is
    listed twice, a query by years lists albums of these years only, and a page
    of the whole catalog that is not full leaves no album out. *)
Theorem albums_are_listed_as_they_open q d l d' :
  Albums q d = (Ok l, d') →
  tables d' = tables d ∧ NoDup (map album_ID l) ∧
  (∀ a ts d'', a ∈ l → TracksByAlbum (album_ID a) d' = (Ok ts, d'') →
     shows_album own_artist ts a ∧ ∀ x, x ∈ ts ↔ (∃ id, tracks (tables d) !! id = Some x) ∧ AlbumID x = album_ID a) ∧
  (∀ a, a ∈ l → aq_FromYear q ≠ 0 ∨ aq_ToYear q ≠ 0 →
     Z.min (aq_FromYear q) (aq_ToYear q) ≤ album_Year a ≤ Z.max (aq_FromYear q) (aq_ToYear q)) ∧
  (∀ id x, tracks (tables d) !! id = Some x → aq_FromYear q = 0 → aq_ToYear q = 0 → aq_Genre q = "" →
     aq_Offset q = 0 → aq_Limit q < 0 ∨ Z.of_nat (length l) < aq_Limit q → AlbumID x ∈ map album_ID l).
Proof.
  intros E. unfold Albums in E. apply query_Ok in E as [T (full & -> & [Hsort Hnd Hshown Hall])%select_albums_Ok].
  pose proof (limit_offset_sublist (aq_Limit q) (aq_Offset q) full) as Hsub.
  assert (∀ a, a ∈ map scanAlbum (limit_offset (aq_Limit q) (aq_Offset q) full) → ∃ r, a = scanAlbum r ∧ r ∈ full) as Hin.
  { intros a (r & -> & Hr)%list_elem_of_fmap. exists r. split; [done|]. by eapply elem_of_sublist. }
  split_and!; [done| | | |].
  - rewrite map_map. change (λ x, album_ID (scanAlbum x)) with al_row_ID. eapply sublist_NoDup; [exact Hnd|].
    by apply (fmap_sublist al_row_ID).
  - intros a ts d'' (r & -> & Hr)%Hin Eo. destruct (Hshown r Hr) as [_ Hs].
    change (album_ID (scanAlbum r)) with (al_row_ID r) in *.
    apply TracksByAlbum_Ok in Eo as [_ Hp]; rewrite T in *; [|apply Hs]. split.
    + eapply shows_album_perm; [|exact Hs]. done.
    + intros x. rewrite Hp. unfold album_tracks. by rewrite elem_of_filter_bool, all_rows_elem, bool_decide_eq_true.
  - intros a (r & -> & Hr)%Hin Hq. destruct (Hshown r Hr) as [[Hy _]%andb_true_iff _].
    apply orb_true_iff in Hy as [[H1%bool_decide_eq_true H2%bool_decide_eq_true]%andb_true_iff|Hy]; [lia|].
    cbn. destruct (al_row_Year r); [|done]. unfold between in Hy. cbn. lia.
  - intros id x Hx Hf Ht Hg Ho Hl.
    assert (limit_offset (aq_Limit q) (aq_Offset q) full = full) as Hfull.
    { unfold limit_offset in *. rewrite Ho in *. cbn [Z.to_nat drop] in *. rewrite drop_0 in *. destruct (aq_Limit q <? 0) eqn:E0; [done|].
      apply take_ge. rewrite length_map, length_take in Hl. lia. }
    rewrite Hfull, map_map. apply Hall; [|done..]. apply all_rows_elem. eauto.
Qed.

(** * Artists *)

(** The roles under the artists they count for. *)
Definition roles (t : library) : list (string * string * string) := map (resolve_role t) (artist_roles t).

Lemma roles_elem t id album :
  (∃ name, (id, name, album) ∈ roles t) ↔
  ∃ x, x ∈ all_rows t ∧ AlbumID x = album ∧
    ((resolved t (AlbumArtistID x) (AlbumArtist x)).2 = id ∨ (resolved t (ArtistID x) (Artist x)).2 = id).
Proof.
  unfold roles, artist_roles. fold (all_rows t). split.
  - intros (name & (r & E & Hr)%list_elem_of_fmap). apply elem_of_app in Hr as [(x & -> & Hx)%list_elem_of_fmap|(x & -> & Hx)%list_elem_of_fmap];
      exists x; unfold resolve_role, resolved in *; cbn in E; case_match; simplify_eq; (split_and!; [done|done|]); auto.
  - intros (x & Hx & <- & Hr). assert (∀ r : string * string * string, resolve_role t r =
      ((resolved t r.1.1 r.1.2).2, (resolved t r.1.1 r.1.2).1, r.2)) as Hres.
    { intros [[i n] b]. unfold resolve_role, resolved. cbn. by case_match. }
    destruct Hr as [<-|<-]; eexists; apply list_elem_of_fmap;
      [exists (AlbumArtistID x, AlbumArtist x, AlbumID x)|exists (ArtistID x, Artist x, AlbumID x)];
      rewrite Hres; (split; [done|]); apply elem_of_app; [left|right]; apply list_elem_of_fmap; by exists x.
Qed.

Lemma select_artist_Ok id t : id ∈ map (λ r, r.1.1) (roles t) → ∃ a, select_artist id t = Some a ∧ artist_ID a = id.
Proof.
  intros (r & -> & Hr)%list_elem_of_fmap. unfold select_artist. fold (roles t).
  destruct (List.filter _ (roles t)) eqn:E; [|eauto]. exfalso.
  assert (r ∈ @nil (string * string * string)) as X; [|by apply elem_of_nil in X]. rewrite <- E.
  apply elem_of_filter_bool. split; [done|by apply bool_decide_eq_true].
Qed.

Lemma omap_section {A B} (f : A → option B) (g : B → A) l : (∀ x, x ∈ l → ∃ b, f x = Some b ∧ g b = x) → map g (omap f l) = l.
Proof.
  induction l as [|x l IH]; intros Hf; [done|]. destruct (Hf x ltac:(by left)) as (b & E & Hg).
  cbn [omap list_omap]. rewrite E. simpl. rewrite Hg. f_equal. apply IH. intros y Hy. apply Hf. by right.
Qed.

Lemma listed_artists t : map artist_ID (select_artists t) ≡ₚ remove_dups (map (λ r, r.1.1) (roles t)).
Proof.
  unfold select_artists. fold (roles t). rewrite sort_slice_perm, omap_section; [done|].
  intros id Hid. apply select_artist_Ok. by apply elem_of_remove_dups.
Qed.

Lemma listed_artist_selected t a : a ∈ select_artists t → select_artist (artist_ID a) t = Some a.
Proof.
  unfold select_artists. rewrite sort_slice_perm, list_elem_of_omap. intros (id & Hid & E).
  apply elem_of_remove_dups, select_artist_Ok in Hid as (a' & E' & <-). congruence.
Qed.

Lemma resolveArtistID_Ok id d r d' : resolveArtistID id d = (Ok r, d') → tables d' = tables d ∧ r = alias_target id (tables d).
Proof.
  intros E. unfold resolveArtistID in E. apply bind_Ok_inv in E as (o & d1 & Hq & E). apply read_query_Ok in Hq as [T <-].
  destruct (artist_known id (tables d)); [|done]. by injection E as <- <-.
Qed.

(** The albums of an artist, as they are counted. *)
Lemma artist_album_count t id a rows :
  select_artist id t = Some a →
  mapM (album_of t (λ x, resolved t (AlbumArtistID x) (AlbumArtist x)))
    (group_rows AlbumID (List.filter (λ x, bool_decide (AlbumID x ∈ albums_with t id)) (all_rows t))) = Ok rows →
  Z.of_nat (length rows) = AlbumCount a.
Proof.
  intros Ea [Hids _]%grouped_albums. apply (f_equal length) in Hids. rewrite length_map in Hids. rewrite Hids.
  unfold select_artist in Ea. fold (roles t) in Ea. set (group := List.filter _ (roles t)) in *.
  assert (AlbumCount a = Z.of_nat (length (remove_dups (map snd group)))) as ->.
  { rewrite <- size_of_elements. destruct group; [done|]. by injection Ea as <-. }
  f_equal. apply size_of_equal_elements. intros album. rewrite !list_elem_of_fmap. unfold group.
  assert (album ∈ albums_with t id ↔ ∃ name, (id, name, album) ∈ roles t) as Hw.
  { rewrite roles_elem. unfold albums_with. rewrite list_elem_of_fmap. setoid_rewrite elem_of_filter_bool.
    setoid_rewrite orb_true_iff. setoid_rewrite bool_decide_eq_true. split; intros (x & ? & ?); exists x; naive_solver. }
  transitivity (album ∈ albums_with t id).
  - split.
    + intros (x & -> & [_ Hx%bool_decide_eq_true]%elem_of_filter_bool). done.
    + intros Hx. pose proof Hx as Hx'. apply Hw, roles_elem in Hx' as (x & Hin & <- & _). exists x. split; [done|].
      apply elem_of_filter_bool. split; [done|by apply bool_decide_eq_true].
  - rewrite Hw. split.
    + intros [name Hin]. exists (id, name, album). split; [done|]. apply elem_of_filter_bool. split; [done|by apply bool_decide_eq_true].
    + intros ([[i name] b] & -> & [Hin Hi%bool_decide_eq_true]%elem_of_filter_bool). cbn in *. subst. eauto.
Qed.

(** The artist that an identifier of the list leads to. *)
Definition leads_to (t : library) (id : string) : string :=
  match artist_aliases t !! id with Some x => aa_target x | None => id end.

Lemma selected_is_listed t id a : select_artist id t = Some a → a ∈ select_artists t ∧ artist_ID a = id.
Proof.
  intros E. unfold select_artists. fold (roles t). rewrite sort_slice_perm, list_elem_of_omap. unfold select_artist in E. fold (roles t) in E.
  destruct (List.filter _ (roles t)) as [|r g] eqn:Eg; [done|].
  assert (r ∈ List.filter (λ r : string * string * string, bool_decide (r.1.1 = id)) (roles t)) as [Hr Hi%bool_decide_eq_true]%elem_of_filter_bool
    by (rewrite Eg; by left).
  split; [|by injection E as <-]. exists id. split.
  - apply elem_of_remove_dups, list_elem_of_fmap. by exists r.
  - unfold select_artist. fold (roles t). by rewrite Eg.
Qed.

(** Only the target of another alias is listed although it is an alias itself. *)
Lemma listed_alias_is_target t a x :
  a ∈ select_artists t → artist_aliases t !! artist_ID a = Some x →
  ∃ other y, artist_aliases t !! other = Some y ∧ aa_target y = artist_ID a.
Proof.
  intros Ha Hx. assert (artist_ID a ∈ map (λ r, r.1.1) (roles t)) as Hin.
  { rewrite <- elem_of_remove_dups, <- listed_artists. apply list_elem_of_fmap. by exists a. }
  apply list_elem_of_fmap in Hin as (r & Er & Hr). unfold roles in Hr. apply list_elem_of_fmap in Hr as (r0 & -> & _).
  unfold resolve_role in Er. destruct (artist_aliases t !! r0.1.1) as [y|] eqn:Ey; [|congruence]. exists r0.1.1, y. by split.
Qed.

End listings.

(** * Reading changes nothing *)

Section reads.
Context `{Runtime} `{Unicode}.

Lemma query_read_only {A} (f : library → res A) : read_only tables (query f).
Proof.
  intros d r d'. unfold query, statement. destruct (faults d) as [|[e|] fs]; [|by intros [= _ <-]|];
    destruct (f (tables d)); by intros [= _ <-].
Qed.
#[local] Hint Resolve query_read_only : go.

(** The catalog as the handlers read it. *)
Lemma db_catalog_reads :
  read_only tables (ca_Artists db db_catalog) ∧ (∀ id, read_only tables (ca_AlbumsByArtist db db_catalog id)) ∧
  (∀ q, read_only tables (ca_Albums db db_catalog q)) ∧ read_only tables (ca_Genres db db_catalog) ∧
  (∀ g o n, read_only tables (ca_TracksByGenre db db_catalog g o n)) ∧
  (∀ q, read_only tables (ca_RandomTracks db db_catalog q)) ∧ (∀ q, read_only tables (ca_Search db db_catalog q)).
Proof.
  assert (read_only tables Artists) by (unfold Artists; go_clean).
  assert (∀ q, read_only tables (Albums q)) by (intros; unfold Albums; go_clean).
  split_and!; try done; cbn; intros;
    unfold AlbumsByArtist, resolveArtistID, Genres, TracksByGenre, RandomTracks, Search, allTracks; go_clean.
Qed.
End reads.

(** * Examples *)

#[local] Existing Instance ascii_unicode.
#[local] Existing Instance stable_runtime.

(** The two tracks of the queue examples are the songs of one album. *)
Definition toy_album : AlbumEntry := mkAlbum "b" "B" "A" "a" 1970 "" 2 0 "".
Definition toy_query : AlbumListQuery := mkAlbumQuery 0 10 AlbumOrderName 0 0 "".

Lemma toy_albums : Albums toy_query toy_queue_db = (Ok [toy_album], toy_queue_db).
Proof. vm_compute. reflexivity. Qed.

Lemma toy_album_tracks : TracksByAlbum "b" toy_queue_db = (Ok [queue_track "t1"; queue_track "t2"], toy_queue_db).
Proof. vm_compute. reflexivity. Qed.

Lemma albums_are_listed_as_they_open_witness :
  shows_album own_artist [queue_track "t1"; queue_track "t2"] toy_album ∧ "b" ∈ map album_ID [toy_album].
Proof.
  destruct (albums_are_listed_as_they_open toy_query toy_queue_db _ _ toy_albums) as (_ & _ & Hopen & _ & Hall). split.
  - apply (Hopen toy_album _ toy_queue_db); [left|exact toy_album_tracks].
  - apply (Hall "t1" (queue_track "t1")); try reflexivity. right. reflexivity.
Defined.

Lemma toy_artists : Artists toy_queue_db = (Ok [mkArtist "a" "A" 1], toy_queue_db).
Proof. vm_compute. reflexivity. Qed.

Lemma toy_artist_albums : AlbumsByArtist "a" toy_queue_db = (Ok [toy_album], toy_queue_db).
Proof. vm_compute. reflexivity. Qed.

(** The artist of the first two tracks is an alias of another. *)
Definition toy_alias_db : db :=
  mkDatabase (with_artist_aliases (<["a" := mkArtistAliasRow "A" "z" "Z" 0]>) (tables toy_queue_db)) [].

Lemma toy_alias_artists : Artists toy_alias_db = (Ok [mkArtist "z" "Z" 1], toy_alias_db).
Proof. vm_compute. reflexivity. Qed.

Lemma toy_alias_opens : (Library.getArtist "z" toy_alias_db).1 = Ok (mkArtist "z" "Z" 1).
Proof. vm_compute. reflexivity. Qed.

