(* ===== verification/LocalProvider.v ===== *)
(** The provider of local files ([adapters/providers/local/provider.go]): which
    files it opens, and what it tells of them. *)
From stdpp Require Import base gmap strings list.
From Stdlib Require Import ZArith Lia.
From S2P Require Import Prelude GoStrings GoTime Paths AudioFormats Music Services.

Open Scope Z_scope.
Open Scope go_scope.

Definition Name : string := "local".

(** [os.FileInfo]. *)
Record FileInfo := mkFileInfo {
  fi_Name : string;
  fi_Size : Z;
  fi_ModTime : time;
  fi_IsRegular : bool;
}.

(** [filepath.Abs], from what [os.Getwd] returns; [filepath.IsAbs]. *)
Definition file_Abs (getwd : res string) (path : string) : res string :=
  if HasPrefix path "/" then Ok (Clean path) else d ← getwd; Ok (JoinPath [d; path]).
Definition IsAbs (path : string) : bool := HasPrefix path "/".

(** The provider's root. *)
Definition New (getwd : res string) (root : string) : res string :=
  match file_Abs getwd root with Ok absolute => Ok absolute | Err e => Err (Errorf "resolve provider root: " e "") end.

Definition securePath (root key : string) : res string :=
  if bool_decide (key = "") || IsAbs key then Err (Plain ("invalid local media key " +:+ key))
  else
    let relative := Clean key in
    if bool_decide (relative = "..") || HasPrefix relative "../"
    then Err (Plain ("local media key escapes library root: " +:+ key))
    else Ok (JoinPath [root; relative]).

Section provider.
Context `{Unicode}.
(** A directory tree as the system shows it: opening a path gives a file, whose
    information and content can be read. *)
Context {F : Type} (os_Open : string → res F) (file_Stat : F → res FileInfo) (file_content : F → list Z) (root : string).

Definition Search : res (list TrackSource) := Ok [].

Definition Resolve (ref : SourceRef) : res ResolvedSource :=
  if negb (bool_decide (Provider ref = Name)) then Err (Plain ("cannot resolve provider " +:+ Provider ref))
  else
    path ← securePath root (SourceKey ref);
    match os_Open path with
    | Err e => Err (Errorf "open local media: " e "")
    | Ok file =>
        match file_Stat file with
        | Err e => Err (Errorf "stat local media: " e "")
        | Ok info =>
            if negb (fi_IsRegular info) then Err (Plain ("local media " +:+ SourceKey ref +:+ " is not a regular file"))
            else
              Ok (mkResolved (file_content file) (fi_Name info)
                    (match FromPath (fi_Name info) with Some format => fmt_ContentType format | None => "" end)
                    (fi_Size info) (fi_ModTime info)
                    (SourceKey ref +:+ ":" +:+ Itoa (fi_Size info) +:+ ":" +:+ Itoa (i64 (fi_ModTime info))))
        end
    end.
End provider.

(** * Theorems *)

Lemma replicate_dots n names :
  HasPrefix (Join (replicate (S n) ".." ++ names) "/") "../" = true ∨ Join (replicate (S n) ".." ++ names) "/" = "..".
Proof.
  cbn [replicate app]. destruct (replicate n ".." ++ names) as [|x l]; [by right|left].
  rewrite Join_cons. exact (HasPrefix_app "../" (Join (x :: l) "/")).
Qed.

(** A relative key that does not climb leads below the root. *)
Lemma securePath_inside names key p :
  Forall proper names → securePath (abs_path names) key = Ok p → ∃ more, Forall proper more ∧ p = abs_path (names ++ more).
Proof.
  intros Hr. unfold securePath, IsAbs. destruct (_ || HasPrefix key "/") eqn:E; [done|].
  apply orb_false_iff in E as [Hne%bool_decide_eq_false Habs].
  destruct (_ || _) eqn:E; [done|]. apply orb_false_iff in E as [Hdd%bool_decide_eq_false Hup]. intros [= <-].
  destruct (clean_stack_ok false (Split slash key) (Split_elements key)) as (elems & n & Hs & Hp & _).
  assert (Clean key = if bool_decide (elems = [] ∧ n = 0%nat) then "." else Join (replicate n ".." ++ rev elems) "/") as Hc.
  { unfold Clean. rewrite Habs, Hs, rev_app_distr, rev_replicate.
    destruct (decide (elems = [] ∧ n = 0%nat)) as [Hz|Hz].
    - rewrite (bool_decide_eq_true_2 (elems = [] ∧ n = 0%nat)) by done. by destruct Hz as [-> ->].
    - rewrite (bool_decide_eq_false_2 (elems = [] ∧ n = 0%nat)) by done.
      change ("" +:+ Join (replicate n ".." ++ rev elems) "/") with (Join (replicate n ".." ++ rev elems) "/").
      rewrite bool_decide_eq_false_2; [done|]. intros Hj.
      assert (replicate n ".." ++ rev elems ≠ []) as Hl.
      { intros [Hn He]%app_eq_nil. apply Hz. split; [|by destruct n]. rewrite <- (rev_involutive elems). by rewrite He. }
      assert (Forall (λ e, e ≠ "") (replicate n ".." ++ rev elems)) as HF.
      { apply Forall_app. split; [by apply Forall_replicate|]. apply Forall_rev.
        eapply Forall_impl; [exact Hp|]. by intros e [[? _] _]. }
      destruct (replicate n ".." ++ rev elems) as [|x l]; [done|]. apply Forall_cons in HF as [Hx _].
      destruct l; [done|]. rewrite Join_cons in Hj. by destruct x. }
  rewrite Hc in *. case_bool_decide as Hz.
  - exists []. split; [constructor|]. rewrite app_nil_r. unfold JoinPath. cbn [List.filter].
    rewrite !bool_decide_eq_false_2 by done. cbn [negb].
    change (Join [abs_path names; "."] "/") with (abs_path names +:+ "/" +:+ Join ["."] "/").
    rewrite Clean_abs; [|done|done|constructor; [|constructor]; by apply (bool_decide_unpack _)].
    cbn [fold_left]. rewrite <- (rev_involutive names) at 2. done.
  - destruct n as [|n]; [|by destruct (replicate_dots n (rev elems)) as [X|X]; rewrite X in *].
    cbn [replicate app] in *. exists (rev elems). split; [by apply Forall_rev|].
    assert (rev elems ≠ []) as Hne'.
    { intros He. apply Hz. split; [|done]. rewrite <- (rev_involutive elems). by rewrite He. }
    pose proof (Forall_rev Hp) as Hp'.
    unfold JoinPath. cbn [List.filter]. rewrite (bool_decide_eq_false_2 (abs_path names = "")) by done. cbn [negb].
    rewrite bool_decide_eq_false_2; cycle 1.
    { intros Hj. destruct (rev elems) as [|x l]; [done|]. apply Forall_cons in Hp' as [[[Hx _] _] _].
      destruct l; [done|]. rewrite Join_cons in Hj. by destruct x. }
    cbn [negb]. change (Join [abs_path names; Join (rev elems) "/"] "/") with (abs_path names +:+ "/" +:+ Join (rev elems) "/").
    rewrite Clean_abs by (try done; by apply Forall_proper_lacks).
    by rewrite fold_clean_proper, rev_app_distr, !rev_involutive.
Qed.

(** What is resolved is a regular file below the library's directory, read under
    its own name, size and time. *)
Theorem resolved_files_are_inside `{Unicode} {F} (os_Open : string → res F) file_Stat file_content names ref r :
  Forall proper names → Resolve os_Open file_Stat file_content (abs_path names) ref = Ok r →
  Provider ref = Name ∧ ∃ more file info,
    Forall proper more ∧ os_Open (abs_path (names ++ more)) = Ok file ∧ file_Stat file = Ok info ∧ fi_IsRegular info = true ∧
    res_Content r = file_content file ∧ res_Name r = fi_Name info ∧ res_Size r = fi_Size info ∧ res_ModTime r = fi_ModTime info.
Proof.
  intros Hn. unfold Resolve. destruct (bool_decide (Provider ref = Name)) eqn:Ep; [|done]. apply bool_decide_eq_true in Ep.
  cbn [negb]. destruct (securePath (abs_path names) (SourceKey ref)) as [path|] eqn:Es; [|done]. cbn.
  destruct (securePath_inside _ _ _ Hn Es) as (more & Hm & ->).
  destruct (os_Open _) as [file|] eqn:Eo; [|done]. destruct (file_Stat file) as [info|] eqn:Ei; [|done].
  destruct (fi_IsRegular info) eqn:Er; [|done]. intros [= <-]. split; [done|]. by exists more, file, info.
Qed.

#[local] Existing Instance ascii_unicode.

(** A key that climbs within the directory is followed, one that leaves it is not. *)
Example keys_may_climb_inside :
  securePath "/music" "a/../b/./c.mp3" = Ok "/music/b/c.mp3" ∧
  securePath "/music" "a/../../c.mp3" = Err (Plain "local media key escapes library root: a/../../c.mp3") ∧
  securePath "/music" "..c.mp3" = Ok "/music/..c.mp3".
Proof. split_and!; vm_compute; reflexivity. Qed.

(** A file that is found, with its revision. *)
Lemma resolved_files_are_inside_example :
  ∃ r, Resolve (λ path, if bool_decide (path = "/music/b/c.mp3") then Ok tt else Err (Sentinel ErrOsNotExist))
    (λ _, Ok (mkFileInfo "c.mp3" 3 7 true)) (λ _, [1; 2; 3]) (abs_path ["music"]) (mkRef "local" "a/../b/c.mp3") = Ok r ∧
    res_Revision r = "a/../b/c.mp3:3:7" ∧ res_ContentType r = "audio/mpeg".
Proof. eexists. split; [vm_compute; reflexivity|]. split; vm_compute; reflexivity. Qed.
